(* ===== verification/_CoqProject ===== *)
-Q . S2P
Prelude.v
FsTypes.v
FsCore.v
FsPath.v
FsOpen.v
FsIO.v
FsMeta.v
FsDir.v
FsCtl.v
FsInit.v
HostModel.v
FsFrame.v
FsInv.v
FsInvOps.v
FsReach.v
FsLookup.v
FsSpecOpen.v
FsSpecIO.v
FsSpecNames.v
FsSpecPath.v
FsSpecInit.v
Stubs.v
FsSpecCow.v
Libc.v
LibcSpec.v
Replay.v
BranchTree.v
Searcher.v
PTree.v
ExecStates.v
ExecInv.v
Engine.v
KTest.v
Checker.v
AssertChecker.v
AssertCounter.v
LockChecker.v
OpenCloseChecker.v
FileChecker.v
DataLossChecker.v
PairwiseChecker.v
LeakChecker.v
FilePermChecker.v
SysOpenCloseChecker.v
CheckerMgr.v
Expr.v
ExprCreate.v
ExprRefine.v
ExprSums.v
ExprSpec.v
ExprBuild.v
ExprWeight.v
Memory.v
MemorySpec.v
MemoryOps.v
ImmutableTree.v
ImmutableTreeMap.v
ImmutableTreeIter.v
AddressSpace.v
AddressSpaceCow.v
AddressSpaceResolve.v
Solver.v
SolverSpec.v
SolverProps.v
Visitor.v
VisitorSpec.v
ConstraintSpec.v
Independent.v
EngineAnswers.v
Compare.v
MapOfSets.v
Evaluator.v
EvaluatorSpec.v
CexCache.v
CexCacheSpec.v
PathExec.v
PathExecSpec.v
PathExecMem.v
PathExecFree.v
TestCase.v
