(* ===== verification/Prelude.v ===== *)
(** * Woodpecker: a verification development

    Woodpecker checks programs under a symbolic execution engine derived from KLEE.
    A program runs under the engine (C++), which keeps a set of execution states,
    asks a solver which branches are feasible, prunes states with a path slicer, and
    hands every interesting event to a set of checkers.  The program does not call
    the operating system: it is linked with a runtime written in C.  The
    parts that are modelled and verified, all under src/klee:

    - lib/Core/Executor.cpp (the management of states), BranchTree.cpp, PTree.cpp,
      Searcher.cpp: the set of states, the tree of branches used for pruning, the
      process tree and the searchers, and the steps of the main loop that keep them
      consistent.
    - lib/Core/BasicCheckers.cpp, Checker.cpp, CheckerMgr.cpp: the checkers and
      their managers.
    - include/klee/Expr.h, lib/Expr/Expr.cpp: symbolic expressions and the
      functions that build and simplify them; lib/Expr/ExprVisitor.cpp, Constraints.cpp:
      rewriting of expressions and the sets of constraints of the paths; ExprEvaluator.cpp and
      include/klee/util/Assignment.h: their evaluation.
    - lib/Core/Memory.cpp, AddressSpace.cpp: the memory of a path, objects of bytes that are
      concrete, cached expressions or updates of an array, bound in address spaces that
      share them after a fork; include/klee/Internal/ADT/ImmutableTree.h: the persistent
      balanced trees the spaces are made of.
    - lib/Solver/Solver.cpp, IncompleteSolver.cpp, CachingSolver.cpp,
      IndependentSolver.cpp, CexCachingSolver.cpp (on include/klee/Internal/ADT/MapOfSets.h),
      lib/Core/TimingSolver.cpp: the questions the engine asks about
      a path, and the layers between it and the solver that decides them.
    - lib/Basic/KTest.cpp: the files of recorded test cases; lib/Core/SpecialFunctionHandler.cpp
      ([klee_make_symbolic], [klee_prefer_cex]), Executor.cpp ([getSymbolicSolution]) and
      tools/klee/main.cpp ([processTestCase]): how the test case of a path is made.
    - runtime/POSIX/fd.c, fd.h: the file system the program sees.  Three tables:
      the descriptors ([__exe_env.fds]), the symbolic files ("A", "B", ...,
      standard input and output) and the records of concrete files
      ([__exe_fs.con_files]), which start as references to host files and are
      copied into memory on the first write.  Failures can be injected into
      the n-th call of some operations.
    - runtime/POSIX/fd_init.c, klee_init_env.c: start-up, which reads the
      options and fills the tables; fd_64.c, fd_32.c: the entry points.
    - uclibc/libc/stdlib/realpath.c: path resolution, on the runtime's
      [readlink] and [getcwd].
    - runtime/POSIX/stubs.c, illegal.c, selinux.c, mmap.c: the other calls.
    - runtime/Intrinsic, runtime/klee-libc: choice functions and a small C
      library.
    - tools/klee-replay/klee-replay.c, runtime/Runtest/intrinsics.c: the same
      intrinsics outside the engine, which answer from a recorded test case.

    ** The files

    - [Prelude]: w-bit integers, the state and error monad with its weakest
      preconditions, [preserves] and its hint database, byte lists.
    - [FsTypes]: the data of fd.h, one record per struct and one inductive type
      per enum or union; the class [Host]; the world (tables, errno, the
      current directory, the call counters, the host).
    - [FsCore] (lookup, enlarging, freeing and loading of records, failure
      injection, concretisation), [FsPath] (directories and paths,
      [realpath]), [FsOpen] ([open], [close], [dup]), [FsIO] ([read],
      [write], [lseek], [ftruncate]), [FsMeta] (the [stat] family, modes and
      owners), [FsDir] (links, directories, [getdents]), [FsCtl] ([ioctl],
      [fcntl], [select]), [FsInit] (start-up), [Stubs] (the other calls), [Libc]
      (the C library), [Replay] (modules [KleeReplay] and [Runtest]).  One definition per C function, composed as in the code;
      parts of the long functions ([__fd_open], [read], [write],
      [klee_init_fds]) are definitions of their own.
    - [HostModel]: a small executable host, the instance the witnesses run on.
    - [FsFrame]: which operations leave the tables alone; the class [TableProp]
      states what a property of the tables needs to be kept by them.
    - [FsInv], [FsInvOps], [FsReach]: the invariant of the tables, its
      preservation by each operation, the step relation of the calls and the
      states reachable from start-up; the runs of the primitives, with the hint
      database [run], end [FsInvOps].
    - [FsLookup], [FsSpecOpen], [FsSpecIO], [FsSpecNames], [FsSpecPath],
      [FsSpecInit], [FsSpecCow], [LibcSpec] (and the ends of
      [Stubs] and [Replay]): the theorems on what the operations do.

    - [BranchTree]: the branch tree as linked nodes, and the
      abstract tree it refines; [PTree]: the process tree; [Searcher]:
      the searchers behind the interface [SearcherSpec];
      [ExecStates], [ExecInv], [Engine]: the set of states, its invariant and the
      main loop, proved against that interface.
    - [KTest]: test case files.
    - [Checker] (with the module [AllocInfo]), one file per checker ([AssertChecker], [AssertCounter],
      [LockChecker], [OpenCloseChecker], [FileChecker], [DataLossChecker],
      [PairwiseChecker], [LeakChecker], [FilePermChecker], [SysOpenCloseChecker])
      and [CheckerMgr].
    - [Expr] (syntax, meaning, the interfaces [APInt] and [ExprCompare]),
      [ExprCreate] (the factories), [ExprRefine], [ExprSums], [ExprSpec], [ExprBuild]
      (that they keep the meaning), [ExprWeight] (a weight they do not increase).
    - [Memory], [MemorySpec], [MemoryOps]: memory objects, their
      operations as a state monad over the object, and the bytes they stand for.
    - [ImmutableTree], [ImmutableTreeMap], [ImmutableTreeIter]:
      persistent trees, the maps they refine and their iterators.
    - [AddressSpace] (spaces and object states in a heap, the process's memory, resolution of
      pointers against the class [TimingSolver]), [AddressSpaceCow]
      (isolation), [AddressSpaceResolve] (resolution, for solvers of the class [SolverRight]).
    - [Solver] (the interface [SolverImpl], the front end, the engine's solver, the validating,
      staged and caching layers), [SolverSpec] (what it means that a solver is [right]),
      [SolverProps]; [Independent]: the
      layer that leaves out independent constraints.
    - [Visitor] (visitors and constraint sets), [VisitorSpec], [ConstraintSpec];
      [EngineAnswers]: the engine's solver with its own simplifier.
    - [Compare]: [Expr::compare] as a total order, the instance of [ExprCompare] the code has; [MapOfSets]: maps
      from ordered sets; [Evaluator], [EvaluatorSpec]: evaluation under an assignment; [CexCache],
      [CexCacheSpec]: the counterexample cache.
    - [PathExec]: loads, stores, frees and forks of paths whose pointers are expressions (constraints, address space and
      registers of each path, the solver, and the surroundings as the class [EngineEnv]); [PathExecSpec]: worlds of paths, and forks;
      [PathExecMem]: loads and stores; [PathExecFree]: frees.
    - [TestCase]: symbolic objects of a path (recorded in the field [symbolics] of a path), the bytes chosen for them, the file written for the
      path and its replay; on [PathExec], [KTest] and [Replay].

    ** What the theorems show

    - The engine: for every searcher that keeps its promise the bookkeeping never
      fails ([engine_safe]) and no live state is lost in a step that does not prune
      its own state, after which the leaves of the process tree are the live states ([no_state_lost]);
      a step that does puts its new states off ([pruned_step_defers]); the branch tree gives the answers of an
      abstract tree ([branch_tree_refines]).
    - Expressions: every factory returns an expression of the right width and value
      ([arith_factories_correct], [cmp_factories_correct],
      [structural_factories_correct]), whatever it folds or regroups, and what is
      built is well formed ([built_typed]), as long as 32-bit sums of widths and offsets do not wrap around;
      [factories_reject] has the calls that fail an assertion, and those that should and do not.
    - Memory: an object refines an array of bytes whatever is concrete, cached or flushed
      ([object_refines_memory]); spaces that fork never see each other's writes
      ([spaces_isolated]); a bounds check holds exactly for accesses inside the object
      ([bounds_check_exact]); resolving a pointer finds all objects it may point to
      ([resolve_finds_all]).  Persistent trees refine finite maps, their iterators
      positions ([tree_refines_map], [iterators_refine_positions]).
    - Constraints and solvers: adding a constraint ends and keeps exactly the solutions
      ([add_constraint_exact]); simplification keeps values, and what the engine is told about a path
      is true of it ([engine_answers_right]); independent constraints may be left out
      ([independent_solver_right]); caching and staging keep right answers right
      ([solver_layers_right]); so does the counterexample cache with every option
      ([cex_cache_right]), on evaluation that is exact ([evaluation_exact]) and maps from sets that
      find every subset and superset ([map_of_sets_refines]); ranges are exact ([getRange_exact]).
    - Paths: a fork divides the assignments of a path by the condition, and each piece has its memory
      ([fork_divides_path]); a load or store through a symbolic pointer divides them by the object accessed and
      does on each what the concrete access does, or ends in the error it deserves ([memory_operation_refines]);
      so does a free ([free_refines]).
    - Checkers: the mutex, stream and resource checkers decide products of small
      automata ([lock_checker_refines], [file_checker_refines],
      [pairwise_refines]); the data-loss checker reports exactly the renames of data
      not synchronised or onto an unlinked name ([rename_needs_sync]); the manager combines them
      ([manager_reports_any]), for the checkers the engine sets up too ([default_checkers_mutexes]).
    - Test cases: a test case is read back from its file ([ktest_roundtrip]); the one written for a path
      has bytes under which the path's constraints hold, and klee-replay answers with them ([test_case_replays]); an object
      that was made symbolic holds the bytes of its array under every assignment ([executeMakeSymbolic_spec]).
    - Safety of the runtime: in every state reachable by any sequence of calls, for any host
      and input, the tables are well formed ([reachable_inv]); this excludes
      dangling record pointers after [enlarge_con_files], which relocates them
      ([enlarge_con_files_relocates]).  The one call left out is a [rename]
      that fails, which does break the tables
      ([rename_failed_breaks_lookup]).
    - Refinement: an in-memory file behaves as an abstract list of bytes under
      every sequence of reads, writes and seeks ([in_memory_file_refines]);
      the first write takes a host file into that representation
      ([copy_on_write]).
    - Functional behaviour with the error branches: lookup, [open], [close],
      [dup2], [read], [write], [lseek], [ftruncate], [unlink], [getdents],
      [mmap], [fcntl], [realpath], the start-up functions, and memory, string,
      number and byte-order functions of the C library.  ([open_lowest_descriptor] and
      [close_correct] are the central ones.)
    - Termination: [calls_end] (no call other than [write], [ftruncate] and [fstatat] with a relative path
      runs past the fuel of its loops), [grow_terminates], [unique_name_ends], [concretize_string_id]; the theorems of the functional
      group state the result as an equation with [Done], so that they include
      that the operation returns.
    - Defects of the code, as theorems about the same definitions:
      [dup2_same_closes], [ftruncate_shrink_keeps_bytes],
      [lseek_negative_accepted], [rename_failed_breaks_lookup],
      [chmod_faults_with_failures], [strcmp_strncmp_disagree],
      and parts of [grow_terminates], [open_symbolic_file],
      [getdents_symbolic], [mmap_private] and [atexit_order]; in the engine and the
      checkers [prune_new_state_fails], [pruned_step_defers],
      [ktest_write_fails], [read_string_overflow], [fileno_past_end],
      [leak_checker_silenced], [clean_report_suppresses], [factories_reject],
      [not_optimized_value_fails], [experimental_hit_fails].

    ** Conventions of the model

    - The configuration is the one fd.c sets: FAKE_FS, FAKE_CWD, MEMFS_DEBUG and
      SYM_SPECIFIC are defined, AGGRESIVE_CLOSE is not; LP64, little endian.
    - The host's system calls are fields of the class [Host], as functions on an
      abstract host state: they may return anything.  So are the values the
      engine gives to symbolic objects ([sym_input], [sym_stat]) and the
      contents of uninitialised memory ([uninit]).  Theorems that need a
      particular host say so in a hypothesis ([host_loads]).
    - A run returns or halts: a failed assertion, an access outside a live
      object (the engine stops there), an undefined value, a report to the
      engine, an exit, or a [klee_assume] that does not hold for the input.
      [klee_get_value] returns the value it is given, so that concretising
      functions are the identity except for their loops.
    - A pointer into [con_files] is an allocation number and an index: after the
      array is enlarged old pointers do not point to a live object.  The [union]
      of [exe_file_t] is [file_ptr].  A heap pointer of a record is NULL, live
      or dangling ([ptr]).
    - [malloc] succeeds where the code does not test its result; where it does,
      the host decides ([host_malloc]).  Output ([printf], [klee_warning]) is
      left out, except where its argument has been freed ([access]).
    - Memory of the C library is a finite map from addresses to bytes.
    - Fuel: 34 iterations for [realpath] (it allows 33 components), 64
      doublings for the growth loops (a size has 32 bits), twice the length
      plus three for [__concretize_string], the number of mapped addresses plus
      one for the loops over strings, 129 for the exit handlers; the size of an expression
      for its factories and for [findReads], its weight for a visit, the weight of a
      set for adding a constraint, the number of objects for a resolution, 64 for a search of
      a range, one more than the number of constraints for the independent ones, the number of names in use for a new name of an array.  Running out is
      the outcome [NoFuel], which the termination theorems exclude.
    - LLVM's integers are the class [APInt]; [Expr::compare] is the class [ExprCompare], which
      accepts only equal expressions ([ReflCompare]: and every expression with itself, as the
      code does by comparing addresses first).  The solver at the bottom is a parameter, [right] what
      is asked of it; for the counterexample cache, about queries without [NotOptimized] and with arithmetic of at most 64 bits that
      have a value under every assignment and read only inside their arrays ([steady]).  The addresses of arrays are the class [Addresses], the stored hash is
      any function of the expression.  Reference counts are left out.
    - Questions to the solver are about arithmetic of at most 64 bits ([narrow]).  Paths run without seeds and without a replay file, as without
      implied values, which the code never enables.

    ** Not modelled

    Of the engine: the interpretation of LLVM instructions, special functions (but [klee_make_symbolic] and [klee_prefer_cex]) and
    external calls, which work on LLVM's in-memory program and the host process,
    statistics, printing and parsing; the solver (STP is vendored), its translation,
    the fast counterexample search and the query log; the
    path slicer, which is not in the tree and is a parameter; the weighted, merging
    and bumping searchers.  The instrumentation passes (LLVM).  The rest of uclibc; the
    process control and the file creator of klee-replay; the calls of stubs.c that only
    forward to a function of uclibc, statfs and getdents of fd_32.c, which repack
    structures, and code disabled with #if 0 (misc.c, calloc.c). *)
From Stdlib Require Export ZArith Lia.
From Stdlib Require Ascii String.
From stdpp Require Export base list numbers strings gmap.

#[global] Open Scope Z_scope.
Export Ascii.AsciiSyntax.
#[global] Delimit Scope char_scope with char.

Abbreviation ascii := Ascii.ascii.

(** ** Machine integers

    A w-bit C integer is a [Z]; every conversion to an unsigned or a signed
    type of width w is written out with [wrapu w] or [wraps w].  The target is
    LP64 ([__WORDSIZE == 64]): [int]/[unsigned] have 32 bits, [long],
    [size_t], [off64_t] and pointers 64 bits, [char] is a signed byte. *)

Definition wrapu (w x : Z) : Z := x `mod` 2 ^ w.
Definition wraps (w x : Z) : Z := (x + 2 ^ (w - 1)) `mod` 2 ^ w - 2 ^ (w - 1).

Abbreviation u8 := (wrapu 8).
Abbreviation u16 := (wrapu 16).
Abbreviation u32 := (wrapu 32).
Abbreviation u64 := (wrapu 64).
Abbreviation s8 := (wraps 8).
Abbreviation s32 := (wraps 32).
Abbreviation s64 := (wraps 64).

Lemma wrapu_small w x : 0 ≤ x < 2 ^ w → wrapu w x = x.
Proof. intros. unfold wrapu. by apply Z.mod_small. Qed.

Lemma wrapu_range w x : 0 ≤ w → 0 ≤ wrapu w x < 2 ^ w.
Proof. intros. unfold wrapu. apply Z.mod_pos_bound. lia. Qed.

Lemma wraps_small w x : 0 < w → - 2 ^ (w - 1) ≤ x < 2 ^ (w - 1) → wraps w x = x.
Proof.
  intros Hw Hx. unfold wraps. rewrite Z.mod_small; [lia|].
  replace (2 ^ w) with (2 * 2 ^ (w - 1)); [lia|].
  rewrite <- Z.pow_succ_r by lia. f_equal. lia.
Qed.

Lemma wraps_range w x : 0 < w → - 2 ^ (w - 1) ≤ wraps w x < 2 ^ (w - 1).
Proof.
  intros Hw. unfold wraps.
  assert (2 ^ w = 2 * 2 ^ (w - 1)) as E.
  { rewrite <- Z.pow_succ_r by lia. f_equal. lia. }
  pose proof (Z.mod_pos_bound (x + 2 ^ (w - 1)) (2 ^ w)) as B.
  assert (0 < 2 ^ (w - 1)) by lia. lia.
Qed.

(** Powers of two as numerals, for [lia]. *)
Lemma pow2_8 : 2 ^ 8 = 256. Proof. reflexivity. Qed.
Lemma pow2_16 : 2 ^ 16 = 65536. Proof. reflexivity. Qed.
Lemma pow2_31 : 2 ^ 31 = 2147483648. Proof. reflexivity. Qed.
Lemma pow2_32 : 2 ^ 32 = 4294967296. Proof. reflexivity. Qed.
Lemma pow2_63 : 2 ^ 63 = 9223372036854775808. Proof. reflexivity. Qed.
Lemma pow2_64 : 2 ^ 64 = 18446744073709551616. Proof. reflexivity. Qed.

Ltac pow2_norm :=
  change (2 ^ (8 - 1)) with 128 in *; change (2 ^ (32 - 1)) with 2147483648 in *;
  change (2 ^ (64 - 1)) with 9223372036854775808 in *;
  rewrite ?pow2_8, ?pow2_16, ?pow2_31, ?pow2_32, ?pow2_63, ?pow2_64 in *.

(** [wrap_lia] removes conversions that are the identity on the values at hand and
    leaves the arithmetic to [lia]. *)
Ltac wrap_ids :=
  repeat match goal with
  | |- context [wrapu ?w ?x] => rewrite (wrapu_small w x) by (pow2_norm; lia)
  | |- context [wraps ?w ?x] => rewrite (wraps_small w x) by (pow2_norm; lia)
  | H : context [wrapu ?w ?x] |- _ => rewrite (wrapu_small w x) in H by (pow2_norm; lia)
  | H : context [wraps ?w ?x] |- _ => rewrite (wraps_small w x) in H by (pow2_norm; lia)
  end.
Ltac wrap_lia := wrap_ids; pow2_norm; lia.

(** Closed facts, by evaluation. *)
Ltac by_compute := by repeat split; vm_compute.

(** A C flag test [x & m] used as a truth value. *)
Definition testflag (x m : Z) : bool := negb (Z.land x m =? 0).

Lemma testflag_bit x k : 0 ≤ k → testflag x (2 ^ k) = Z.testbit x k.
Proof.
  intros Hk. unfold testflag. destruct (Z.testbit x k) eqn:E.
  - apply negb_true_iff, Z.eqb_neq. intros E'. apply (f_equal (λ y, Z.testbit y k)) in E'.
    rewrite Z.land_spec, E, Z.pow2_bits_true, Z.bits_0 in E' by done. done.
  - apply negb_false_iff, Z.eqb_eq. apply Z.bits_inj'. intros n Hn.
    rewrite Z.land_spec, Z.pow2_bits_eqb, Z.bits_0 by done.
    destruct (Z.eqb_spec k n) as [<-|]; [by rewrite E|apply andb_false_r].
Qed.
Lemma testbit_wrapu w x k : 0 ≤ k < w → Z.testbit (wrapu w x) k = Z.testbit x k.
Proof. intros. unfold wrapu. apply Z.mod_pow2_bits_low. lia. Qed.

Lemma testbit_high v w n : 0 ≤ v < 2 ^ w → w ≤ n → 0 ≤ w → Z.testbit v n = false.
Proof.
  intros Hv Hn Hw. destruct (decide (v = 0)) as [->|]; [apply Z.bits_0|].
  apply Z.bits_above_log2; [lia|]. apply Z.log2_lt_pow2; [lia|].
  eapply Z.lt_le_trans; [apply Hv|]. apply Z.pow_le_mono_r; lia.
Qed.
Lemma testbit_wrap_high w x n : 0 ≤ w → w ≤ n → Z.testbit (wrapu w x) n = false.
Proof. intros. apply (testbit_high _ w); [by apply wrapu_range|done|done]. Qed.

(** C's view of a boolean as an int. *)
Definition int_of_bool (b : bool) : Z := if b then 1 else 0.

(** ** Outcomes and the state monad

    Every operation is a function from the state to an outcome: it returns a
    value and a state, or the path halts.  [AssertFailure] is a failed
    [assert]; [MemoryError] an access or a [free] outside a live object (the
    engine ends the path there); [Undefined] the use of an indeterminate
    value; [ExitWith] a process exit; [KleeReport] a call of
    [klee_report_error]; [AssumeFailed] a [klee_assume] that does not hold on
    this input; [NoFuel] a loop that ran past its fuel. *)

Inductive stop : Type :=
| AssertFailure
| MemoryError
| Undefined
| ExitWith (code : Z)
| KleeReport (msg : string)
| AssumeFailed
| NoFuel.

#[global] Instance stop_eq_dec : EqDecision stop.
Proof. solve_decision. Defined.

Inductive outcome (W A : Type) : Type :=
| Done (a : A) (w : W)
| Halt (e : stop) (w : W).
Arguments Done {W A} a w.
Arguments Halt {W A} e w.

Definition M (W A : Type) : Type := W → outcome W A.

#[global] Instance M_ret W : MRet (M W) := λ A a w, Done a w.
#[global] Instance M_bind W : MBind (M W) := λ A B k m w,
  match m w with
  | Done a w' => k a w'
  | Halt e w' => Halt e w'
  end.

Definition halt {W A} (e : stop) : M W A := λ w, Halt e w.
Definition get {W} : M W W := λ w, Done w w.
Definition put {W} (w : W) : M W unit := λ _, Done tt w.
Definition gets {W A} (f : W → A) : M W A := λ w, Done (f w) w.
Definition modify {W} (f : W → W) : M W unit := λ w, Done tt (f w).

(** [assert(b)]. *)
Definition c_assert {W} (b : bool) : M W unit :=
  if b then mret tt else halt AssertFailure.

(** A pointer or index that must be valid. *)
Definition deref {W A} (o : option A) : M W A :=
  match o with Some a => mret a | None => halt MemoryError end.

(** Run an operation on a part of the state. *)
Definition zoom {W V A} (part : W → V) (set_part : V → W → W) (m : M V A) : M W A := λ w,
  match m (part w) with
  | Done a v => Done a (set_part v w)
  | Halt e v => Halt e (set_part v w)
  end.

(** The value and the state an outcome ends in. *)
Definition result {W A} (o : outcome W A) : option A :=
  match o with Done a _ => Some a | Halt _ _ => None end.
Definition final {W A} (o : outcome W A) : W :=
  match o with Done _ w => w | Halt _ w => w end.

(** *** Weakest preconditions: [wp] also promises that the path does not
    halt, [wlp] only speaks of the runs that return. *)
Definition wp {W A} (m : M W A) (Q : A → W → Prop) (w : W) : Prop :=
  match m w with Done a w' => Q a w' | Halt _ _ => False end.
Definition wlp {W A} (m : M W A) (Q : A → W → Prop) (w : W) : Prop :=
  match m w with Done a w' => Q a w' | Halt _ _ => True end.

Section MonadLemmas.
Context {W : Type}.
Implicit Types w : W.

Lemma bind_done {A B} (m : M W A) (k : A → M W B) w a w' :
  m w = Done a w' → (m ≫= k) w = k a w'.
Proof. intros E. unfold mbind, M_bind. by rewrite E. Qed.

Lemma bind_halt {A B} (m : M W A) (k : A → M W B) w e w' :
  m w = Halt e w' → (m ≫= k) w = Halt e w'.
Proof. intros E. unfold mbind, M_bind. by rewrite E. Qed.

Lemma bind_modify {B} f (k : unit → M W B) w : (modify f ≫= k) w = k tt (f w).
Proof. done. Qed.

Lemma wp_ret {A} (a : A) Q w : Q a w → wp (mret a : M W A) Q w.
Proof. done. Qed.
Lemma wp_bind {A B} (m : M W A) (k : A → M W B) Q w :
  wp m (λ a, wp (k a) Q) w → wp (m ≫= k) Q w.
Proof. unfold wp, mbind, M_bind. by destruct (m w). Qed.
Lemma wp_mono {A} (m : M W A) (Q R : A → W → Prop) w :
  wp m Q w → (∀ a w', Q a w' → R a w') → wp m R w.
Proof. unfold wp. destruct (m w); eauto. Qed.
Lemma wp_zoom {V A} (part : W → V) set_part (m : M V A) (Q : A → W → Prop) w :
  wp m (λ a v, Q a (set_part v w)) (part w) → wp (zoom part set_part m) Q w.
Proof. unfold wp, zoom. by destruct (m (part w)). Qed.
Lemma zoom_done {V A} (part : W → V) set_part (m : M V A) w a v :
  m (part w) = Done a v → zoom part set_part m w = Done a (set_part v w).
Proof. intros E. unfold zoom. by rewrite E. Qed.
Lemma wp_done {A} (m : M W A) Q w :
  wp m Q w → ∃ a w', m w = Done a w' ∧ Q a w'.
Proof. unfold wp. destruct (m w); [eauto|done]. Qed.

Lemma wlp_ret {A} (a : A) (Q : A → W → Prop) w : Q a w → wlp (mret a : M W A) Q w.
Proof. done. Qed.
Lemma wlp_halt {A} e (Q : A → W → Prop) w : wlp (halt e : M W A) Q w.
Proof. done. Qed.
Lemma wlp_get (Q : W → W → Prop) w : Q w w → wlp get Q w.
Proof. done. Qed.
Lemma wlp_gets {A} (f : W → A) (Q : A → W → Prop) w : Q (f w) w → wlp (gets f) Q w.
Proof. done. Qed.
Lemma wlp_modify f (Q : unit → W → Prop) w : Q tt (f w) → wlp (modify f) Q w.
Proof. done. Qed.
Lemma wlp_bind {A B} (m : M W A) (k : A → M W B) Q w :
  wlp m (λ a, wlp (k a) Q) w → wlp (m ≫= k) Q w.
Proof. unfold wlp, mbind, M_bind. by destruct (m w). Qed.
Lemma wlp_mono {A} (m : M W A) (Q R : A → W → Prop) w :
  wlp m Q w → (∀ a w', Q a w' → R a w') → wlp m R w.
Proof. unfold wlp. destruct (m w); eauto. Qed.
Lemma wp_wlp {A} (m : M W A) Q w : wp m Q w → wlp m Q w.
Proof. unfold wp, wlp. by destruct (m w). Qed.
Lemma wlp_deref {A} (o : option A) (Q : A → W → Prop) w :
  (∀ a, o = Some a → Q a w) → wlp (deref o) Q w.
Proof. intros H. destruct o; [by apply H|done]. Qed.
Lemma wlp_assert b (Q : unit → W → Prop) w :
  (b = true → Q tt w) → wlp (c_assert b) Q w.
Proof. intros H. destruct b; [by apply H|done]. Qed.

(** What holds of a run that is known to return. *)
Lemma wlp_result {A} (m : M W A) (Q : A → W → Prop) w r :
  wlp m Q w → result (m w) = Some r → Q r (final (m w)).
Proof. unfold wlp. destruct (m w); simpl; [by intros ? [= ->]|done]. Qed.

(** [preserves I m]: a run of [m] from a state in [I] that returns ends in [I]. *)
Definition preserves (I : W → Prop) {A} (m : M W A) : Prop :=
  ∀ w, I w → wlp m (λ _, I) w.

Lemma preserves_ret I {A} (a : A) : preserves I (mret a).
Proof. by intros w. Qed.
Lemma preserves_halt I {A} e : preserves I (halt e : M W A).
Proof. done. Qed.
Lemma preserves_gets I {A} (f : W → A) : preserves I (gets f).
Proof. by intros w. Qed.
Lemma preserves_get I : preserves I get.
Proof. by intros w. Qed.
Lemma preserves_modify (I : W → Prop) f : (∀ w, I w → I (f w)) → preserves I (modify f).
Proof. intros H w Hw. by apply H. Qed.
Lemma preserves_bind I {A B} (m : M W A) (k : A → M W B) :
  preserves I m → (∀ a, preserves I (k a)) → preserves I (m ≫= k).
Proof.
  intros Hm Hk w Hw. apply wlp_bind. eapply wlp_mono; [by apply Hm|].
  intros a w' Hw'. by apply Hk.
Qed.
Lemma preserves_if I {A} (b : bool) (m n : M W A) :
  preserves I m → preserves I n → preserves I (if b then m else n).
Proof. intros Hm Hn. by destruct b. Qed.
Lemma preserves_zoom (I : W → Prop) {V A} (part : W → V) set_part (m : M V A) :
  (∀ v w, I w → I (set_part v w)) → preserves I (zoom part set_part m).
Proof. intros H w Hw. unfold wlp, zoom. destruct (m (part w)); [by apply H|done]. Qed.
Lemma preserves_deref I {A} (o : option A) : preserves I (deref o).
Proof. intros w Hw. by destruct o. Qed.
Lemma preserves_assert I b : preserves I (c_assert b).
Proof. intros w Hw. by destruct b. Qed.
End MonadLemmas.

Create HintDb preserve.
#[export] Hint Resolve preserves_ret preserves_halt preserves_gets preserves_get
  preserves_deref preserves_assert : preserve.

(** [preserving] walks an operation's control flow and closes the leaves with
    the [preserve] hints. *)
Ltac preserving_step :=
  lazymatch goal with
  | |- preserves _ (_ ≫= _) => apply preserves_bind; [|intros ?]
  | |- preserves _ (match ?x with _ => _ end) => first [ apply preserves_if | destruct x ]
  | |- preserves _ (let _ := _ in _) => cbv zeta
  end.
Ltac preserving :=
  repeat first [ progress intros | solve [eauto with preserve] | preserving_step ].

(** ** Lists as C arrays *)

(** [splice l off b] overwrites [l] with [b] from position [off] on. *)
Definition splice {A} (off : nat) (b l : list A) : list A :=
  take off l ++ b ++ drop (off + length b) l.

Lemma length_splice {A} off (b l : list A) :
  (off + length b ≤ length l)%nat → length (splice off b l) = length l.
Proof. intros H. unfold splice. rewrite !length_app, length_take, length_drop. lia. Qed.

Lemma lookup_splice_in {A} off (b l : list A) i :
  (off ≤ length l)%nat → (off ≤ i < off + length b)%nat → splice off b l !! i = b !! (i - off)%nat.
Proof.
  intros Hl Hi. unfold splice. rewrite lookup_app_r by (rewrite length_take; lia).
  rewrite length_take. rewrite lookup_app_l by lia. f_equal. lia.
Qed.

Lemma lookup_splice_out {A} off (b l : list A) i :
  (off + length b ≤ length l)%nat → (i < off ∨ off + length b ≤ i)%nat → splice off b l !! i = l !! i.
Proof.
  intros Hl [Hi|Hi]; unfold splice.
  - rewrite lookup_app_l by (rewrite length_take; lia). by apply lookup_take_lt.
  - rewrite lookup_app_r by (rewrite length_take; lia). rewrite length_take.
    rewrite lookup_app_r by lia. rewrite lookup_drop. f_equal. lia.
Qed.

Lemma take_drop_splice {A} off (b l : list A) :
  (off ≤ length l)%nat → take (length b) (drop off (splice off b l)) = b.
Proof.
  intros H. unfold splice.
  rewrite drop_app_length' by (rewrite length_take; lia). by rewrite take_app_length.
Qed.

(** ** Filters *)
Lemma filter_all {A} (P : A → Prop) `{!∀ x, Decision (P x)} (xs : list A) : Forall P xs → filter P xs = xs.
Proof. induction 1 as [|x l Hx Hl IH]; [done|]. by rewrite filter_cons_True, IH. Qed.
Lemma filter_none {A} (P : A → Prop) `{!∀ x, Decision (P x)} (xs : list A) : Forall (λ x, ¬ P x) xs → filter P xs = [].
Proof. induction 1 as [|x l Hx Hl IH]; [done|]. by rewrite filter_cons_False, IH. Qed.
