(* ===== verification/FsTypes.v ===== *)
(** * The data of the symbolic POSIX layer

    The types of [src/klee/runtime/POSIX/fd.h], the host the runtime calls
    (class [Host]: the operating system behind [syscall], and the engine's
    intrinsics), and the state every operation of [fd.c] threads. *)
From S2P Require Import Prelude.

(** ** Constants of the headers the C files include (Linux, x86-64) *)
Definition EPERM : Z := 1.
Definition ENOENT : Z := 2.
Definition EIO : Z := 5.
Definition EBADF : Z := 9.
Definition ECHILD : Z := 10.
Definition ENOMEM : Z := 12.
Definition EACCES : Z := 13.
Definition EFAULT : Z := 14.
Definition EEXIST : Z := 17.
Definition ENOTDIR : Z := 20.
Definition EISDIR : Z := 21.
Definition EINVAL : Z := 22.
Definition ENFILE : Z := 23.
Definition EMFILE : Z := 24.
Definition ENOTTY : Z := 25.
Definition ENOSPC : Z := 28.
Definition EMLINK : Z := 31.
Definition ERANGE : Z := 34.
Definition ENAMETOOLONG : Z := 36.
Definition ELOOP : Z := 40.
Definition ENOTSUP : Z := 95.
Definition EAFNOSUPPORT : Z := 97.

Definition O_RDONLY : Z := 0.
Definition O_WRONLY : Z := 1.
Definition O_RDWR : Z := 2.
Definition O_ACCMODE : Z := 3.
Definition O_CREAT : Z := 64.
Definition O_EXCL : Z := 128.
Definition O_TRUNC : Z := 512.

Definition S_IFMT : Z := 61440.
Definition S_IFDIR : Z := 16384.
Definition S_IFCHR : Z := 8192.
Definition S_IFIFO : Z := 4096.
Definition S_IFREG : Z := 32768.
Definition S_IFLNK : Z := 40960.
Definition S_ISGID : Z := 1024.
Definition S_ISDIR (m : Z) : bool := Z.land m S_IFMT =? S_IFDIR.
Definition S_ISREG (m : Z) : bool := Z.land m S_IFMT =? S_IFREG.
Definition S_ISCHR (m : Z) : bool := Z.land m S_IFMT =? S_IFCHR.
Definition S_ISLNK (m : Z) : bool := Z.land m S_IFMT =? S_IFLNK.
Definition S_ISFIFO (m : Z) : bool := Z.land m S_IFMT =? S_IFIFO.

Definition SEEK_SET : Z := 0.
Definition SEEK_CUR : Z := 1.
Definition SEEK_END : Z := 2.
Definition F_OK : Z := 0.
Definition PATH_MAX : Z := 4096.

(** ** Files *)

Record stat64 : Type := mkStat64 {
  st_dev : Z; st_ino : Z; st_mode : Z; st_nlink : Z; st_uid : Z; st_gid : Z;
  st_rdev : Z; st_size : Z; st_blksize : Z; st_blocks : Z;
  st_atime : Z; st_mtime : Z; st_ctime : Z }.

Definition zero_stat : stat64 := mkStat64 0 0 0 0 0 0 0 0 0 0 0 0 0.

(** [exe_disk_file_t]: a symbolic file; [contents] is its byte array. *)
Record exe_disk_file_t : Type := mkDisk {
  df_size : Z; df_contents : list Z; df_stat : stat64 }.

Definition MAX_LINKS : nat := 5.

(** What a pointer field of a record in heap memory holds: NULL, an object,
    or a value that points to no live object (never initialised, or freed). *)
Inductive ptr (A : Type) : Type :=
| PNull
| PTo (a : A)
| PJunk.
Arguments PNull {A}.
Arguments PTo {A} a.
Arguments PJunk {A}.

Inductive con_state : Type :=
| CON_STATE_FREE
| CON_STATE_DIRECT
| CON_STATE_INMEM
| CON_STATE_FORCE_DIRECT
| CON_STATE_STD.

#[global] Instance con_state_eq_dec : EqDecision con_state.
Proof. solve_decision. Defined.

(** [exe_disk_con_file_t]: the record of a concrete file. *)
Record exe_disk_con_file_t : Type := mkCon {
  cf_refcnt : Z;
  cf_size : Z;
  cf_buf_size : Z;
  cf_contents : ptr (list Z);
  cf_stat : ptr unit;
  cf_mode : Z;
  cf_name : ptr (list (option string));
  cf_fd : Z;
  cf_state : con_state }.

(** [exe_file_flag_t]. *)
Definition eOpen : Z := 1.
Definition eCloseOnExec : Z := 2.
Definition eReadable : Z := 4.
Definition eWriteable : Z := 8.

(** A pointer to an [exe_disk_file_t]: an entry of [sym_files], or one of the
    two blocks allocated for the standard streams. *)
Inductive dfile_ref : Type :=
| SymFile (k : nat)
| SymStdin
| SymStdout.

#[global] Instance dfile_ref_eq_dec : EqDecision dfile_ref.
Proof. solve_decision. Defined.

(** A pointer into [con_files]: the allocation it points into (each
    [enlarge_con_files] makes a new one and frees the old) and the index. *)
Record con_ptr : Type := mkConPtr { cp_base : nat; cp_idx : nat }.

#[global] Instance con_ptr_eq_dec : EqDecision con_ptr.
Proof. solve_decision. Defined.

(** The union [{ dfile; dcfile }] of [exe_file_t]. *)
Inductive file_ptr : Type :=
| FNull
| FDfile (d : dfile_ref)
| FDcfile (c : con_ptr).

Definition CONCRETE_FILE : Z := 1.
Definition SYMBOLIC_FILE : Z := 2.

(** [exe_file_t]: an entry of the descriptor table. *)
Record exe_file_t : Type := mkFile {
  f_fd : Z; f_flags : Z; f_off : Z; f_file : file_ptr; f_type : Z }.

(** [memset(f, 0, sizeof *f)]. *)
Definition zero_file : exe_file_t := mkFile 0 0 0 FNull 0.

Definition INITIAL_CON_FILES : nat := 32.
Definition MAX_FDS : nat := 32.

(** [exe_file_system_t].  [con_base] identifies the allocation [con_files]
    points to.  The [*_fail] pointers are NULL until they are allocated. *)
Record exe_file_system_t : Type := mkFs {
  n_sym_files : Z;
  n_con_files : Z;
  sym_stdin : option exe_disk_file_t;
  sym_stdout : option exe_disk_file_t;
  stdout_writes : Z;
  sym_files : list exe_disk_file_t;
  con_base : nat;
  con_files : list exe_disk_con_file_t;
  max_failures : Z;
  max_malloc_fail : Z;
  read_fail : option Z; write_fail : option Z; close_fail : option Z;
  ftruncate_fail : option Z; getcwd_fail : option Z;
  chmod_fail : option Z; fchmod_fail : option Z; malloc_fail : option Z }.

(** [exe_sym_env_t]; [umask] is the field of that name. *)
Record exe_sym_env_t : Type := mkEnv {
  fds : list exe_file_t;
  env_umask : Z;
  env_version : Z;
  save_all_writes : Z;
  etc_symbolic : Z;
  sym_specific : Z;
  symbolic_size : Z }.

(** [struct dirent64]: the fields the runtime writes or patches. *)
Record dirent64 : Type := mkDirent {
  d_ino : Z; d_off : Z; d_reclen : Z; d_type : Z; d_name : string }.

(** What a [syscall(__NR_ioctl, ...)] or a modelled request leaves in the
    caller's buffer. *)
Inductive ioctl_out : Type :=
| IoNone
| IoTermios (iflag oflag cflag lflag line : Z) (cc : list Z)
| IoWinsize (row col : Z)
| IoInt (n : Z).

(** ** The host

    Code that is not part of the C sources: the operating system reached
    through [syscall], and the engine's intrinsics.  A call returns its result
    and the host's next state.  [klee_get_errno] reads the errno the host's
    last call left.  [sym_input name] is the assignment the engine explores
    for the object made symbolic under [name] (byte [i] of it), [sym_stat] the
    same for a whole [struct stat64].  [host_malloc n] says whether an
    allocation of [n] bytes succeeds, where the code tests it; [uninit] is the
    value of an integer field of fresh heap memory that nothing has written;
    [klee_is_symbolic_] is true under the engine and false in a replay. *)
Class Host : Type := {
  hst : Type;
  klee_get_errno_ : hst → Z;
  sys_open : string → Z → Z → hst → Z * hst;
  sys_close : Z → hst → Z * hst;
  klee_sys_open : string → Z → Z → hst → Z * hst;
  klee_sys_close : Z → hst → Z * hst;
  sys_read : Z → Z → hst → (Z * list Z) * hst;
  sys_pread64 : Z → Z → Z → hst → (Z * list Z) * hst;
  sys_write : Z → list Z → hst → Z * hst;
  sys_lseek : Z → Z → Z → hst → Z * hst;
  sys_access : string → Z → hst → Z * hst;
  sys_stat : string → hst → (Z * stat64) * hst;
  sys_lstat : string → hst → (Z * stat64) * hst;
  sys_fstat : Z → hst → (Z * stat64) * hst;
  sys_chmod : string → Z → hst → Z * hst;
  sys_fchmod : Z → Z → hst → Z * hst;
  sys_chown : string → Z → Z → hst → Z * hst;
  sys_fchown : Z → Z → Z → hst → Z * hst;
  sys_getdents64 : Z → Z → hst → (Z * list dirent64) * hst;
  sys_ioctl : Z → Z → hst → (Z * ioctl_out) * hst;
  sys_fcntl : Z → Z → Z → hst → Z * hst;
  sys_statfs : string → hst → Z * hst;
  sys_fstatfs : Z → hst → Z * hst;
  sys_readlink : string → Z → hst → (Z * string) * hst;
  sys_select : Z → list Z → list Z → list Z → hst → (Z * (list Z * list Z * list Z)) * hst;
  sys_getcwd : Z → hst → (Z * string) * hst;
  sys_gettimeofday : hst → (Z * Z) * hst;
  host_malloc : Z → hst → bool * hst;
  uninit : Z;
  host_getuid : hst → Z;
  host_getgid : hst → Z;
  host_geteuid : hst → Z;
  host_getegid : hst → Z;
  klee_is_symbolic_ : bool;
  sym_input : string → hst → (nat → Z) * hst;
  sym_stat : string → hst → stat64 * hst }.

(** The [static int n_calls] of each operation that counts its calls. *)
Record counters : Type := mkCalls {
  n_close : Z; n_read : Z; n_write : Z; n_chmod : Z; n_fchmod : Z;
  n_ftruncate : Z; n_getcwd : Z }.

(** ** The state *)
Record world `{Host} : Type := mkWorld {
  exe_fs : exe_file_system_t;
  exe_env : exe_sym_env_t;
  errno : Z;
  current_path : option string;
  current_path_len : Z;
  calls : counters;
  host : hst }.

(** *** Field updates *)
Definition set_con_files (l : list exe_disk_con_file_t) (s : exe_file_system_t) : exe_file_system_t :=
  mkFs (n_sym_files s) (n_con_files s) (sym_stdin s) (sym_stdout s) (stdout_writes s)
    (sym_files s) (con_base s) l (max_failures s) (max_malloc_fail s) (read_fail s)
    (write_fail s) (close_fail s) (ftruncate_fail s) (getcwd_fail s) (chmod_fail s)
    (fchmod_fail s) (malloc_fail s).
Definition set_con_alloc (b : nat) (n : Z) (l : list exe_disk_con_file_t) (s : exe_file_system_t) : exe_file_system_t :=
  mkFs (n_sym_files s) n (sym_stdin s) (sym_stdout s) (stdout_writes s)
    (sym_files s) b l (max_failures s) (max_malloc_fail s) (read_fail s)
    (write_fail s) (close_fail s) (ftruncate_fail s) (getcwd_fail s) (chmod_fail s)
    (fchmod_fail s) (malloc_fail s).
Definition set_sym_files (l : list exe_disk_file_t) (s : exe_file_system_t) : exe_file_system_t :=
  mkFs (n_sym_files s) (n_con_files s) (sym_stdin s) (sym_stdout s) (stdout_writes s)
    l (con_base s) (con_files s) (max_failures s) (max_malloc_fail s) (read_fail s)
    (write_fail s) (close_fail s) (ftruncate_fail s) (getcwd_fail s) (chmod_fail s)
    (fchmod_fail s) (malloc_fail s).
Definition set_std (i o : option exe_disk_file_t) (s : exe_file_system_t) : exe_file_system_t :=
  mkFs (n_sym_files s) (n_con_files s) i o (stdout_writes s)
    (sym_files s) (con_base s) (con_files s) (max_failures s) (max_malloc_fail s) (read_fail s)
    (write_fail s) (close_fail s) (ftruncate_fail s) (getcwd_fail s) (chmod_fail s)
    (fchmod_fail s) (malloc_fail s).
Definition set_stdout_writes (n : Z) (s : exe_file_system_t) : exe_file_system_t :=
  mkFs (n_sym_files s) (n_con_files s) (sym_stdin s) (sym_stdout s) n
    (sym_files s) (con_base s) (con_files s) (max_failures s) (max_malloc_fail s) (read_fail s)
    (write_fail s) (close_fail s) (ftruncate_fail s) (getcwd_fail s) (chmod_fail s)
    (fchmod_fail s) (malloc_fail s).
Definition set_max_failures (n : Z) (s : exe_file_system_t) : exe_file_system_t :=
  mkFs (n_sym_files s) (n_con_files s) (sym_stdin s) (sym_stdout s) (stdout_writes s)
    (sym_files s) (con_base s) (con_files s) n (max_malloc_fail s) (read_fail s)
    (write_fail s) (close_fail s) (ftruncate_fail s) (getcwd_fail s) (chmod_fail s)
    (fchmod_fail s) (malloc_fail s).

Definition set_fds (l : list exe_file_t) (e : exe_sym_env_t) : exe_sym_env_t :=
  mkEnv l (env_umask e) (env_version e) (save_all_writes e) (etc_symbolic e)
    (sym_specific e) (symbolic_size e).
Definition set_umask (m : Z) (e : exe_sym_env_t) : exe_sym_env_t :=
  mkEnv (fds e) m (env_version e) (save_all_writes e) (etc_symbolic e)
    (sym_specific e) (symbolic_size e).

Definition set_off (o : Z) (f : exe_file_t) : exe_file_t :=
  mkFile (f_fd f) (f_flags f) o (f_file f) (f_type f).
Definition set_flags (x : Z) (f : exe_file_t) : exe_file_t :=
  mkFile (f_fd f) x (f_off f) (f_file f) (f_type f).
Definition set_file (p : file_ptr) (f : exe_file_t) : exe_file_t :=
  mkFile (f_fd f) (f_flags f) (f_off f) p (f_type f).
Definition set_type (t : Z) (f : exe_file_t) : exe_file_t :=
  mkFile (f_fd f) (f_flags f) (f_off f) (f_file f) t.
Definition set_fd (n : Z) (f : exe_file_t) : exe_file_t :=
  mkFile n (f_flags f) (f_off f) (f_file f) (f_type f).

Definition set_refcnt (n : Z) (c : exe_disk_con_file_t) : exe_disk_con_file_t :=
  mkCon n (cf_size c) (cf_buf_size c) (cf_contents c) (cf_stat c) (cf_mode c) (cf_name c) (cf_fd c) (cf_state c).
Definition set_size (n : Z) (c : exe_disk_con_file_t) : exe_disk_con_file_t :=
  mkCon (cf_refcnt c) n (cf_buf_size c) (cf_contents c) (cf_stat c) (cf_mode c) (cf_name c) (cf_fd c) (cf_state c).
Definition set_buf_size (n : Z) (c : exe_disk_con_file_t) : exe_disk_con_file_t :=
  mkCon (cf_refcnt c) (cf_size c) n (cf_contents c) (cf_stat c) (cf_mode c) (cf_name c) (cf_fd c) (cf_state c).
Definition set_contents (p : ptr (list Z)) (c : exe_disk_con_file_t) : exe_disk_con_file_t :=
  mkCon (cf_refcnt c) (cf_size c) (cf_buf_size c) p (cf_stat c) (cf_mode c) (cf_name c) (cf_fd c) (cf_state c).
Definition set_cstat (p : ptr unit) (c : exe_disk_con_file_t) : exe_disk_con_file_t :=
  mkCon (cf_refcnt c) (cf_size c) (cf_buf_size c) (cf_contents c) p (cf_mode c) (cf_name c) (cf_fd c) (cf_state c).
Definition set_mode (m : Z) (c : exe_disk_con_file_t) : exe_disk_con_file_t :=
  mkCon (cf_refcnt c) (cf_size c) (cf_buf_size c) (cf_contents c) (cf_stat c) m (cf_name c) (cf_fd c) (cf_state c).
Definition set_name (p : ptr (list (option string))) (c : exe_disk_con_file_t) : exe_disk_con_file_t :=
  mkCon (cf_refcnt c) (cf_size c) (cf_buf_size c) (cf_contents c) (cf_stat c) (cf_mode c) p (cf_fd c) (cf_state c).
Definition set_cfd (n : Z) (c : exe_disk_con_file_t) : exe_disk_con_file_t :=
  mkCon (cf_refcnt c) (cf_size c) (cf_buf_size c) (cf_contents c) (cf_stat c) (cf_mode c) (cf_name c) n (cf_state c).
Definition set_state (s : con_state) (c : exe_disk_con_file_t) : exe_disk_con_file_t :=
  mkCon (cf_refcnt c) (cf_size c) (cf_buf_size c) (cf_contents c) (cf_stat c) (cf_mode c) (cf_name c) (cf_fd c) s.

Definition set_st_mode (m : Z) (s : stat64) : stat64 :=
  mkStat64 (st_dev s) (st_ino s) m (st_nlink s) (st_uid s) (st_gid s) (st_rdev s) (st_size s)
    (st_blksize s) (st_blocks s) (st_atime s) (st_mtime s) (st_ctime s).
Definition set_st_ino (i : Z) (s : stat64) : stat64 :=
  mkStat64 (st_dev s) i (st_mode s) (st_nlink s) (st_uid s) (st_gid s) (st_rdev s) (st_size s)
    (st_blksize s) (st_blocks s) (st_atime s) (st_mtime s) (st_ctime s).
Definition set_st_nlink (n : Z) (s : stat64) : stat64 :=
  mkStat64 (st_dev s) (st_ino s) (st_mode s) n (st_uid s) (st_gid s) (st_rdev s) (st_size s)
    (st_blksize s) (st_blocks s) (st_atime s) (st_mtime s) (st_ctime s).
Definition set_st_size_blocks (n b : Z) (s : stat64) : stat64 :=
  mkStat64 (st_dev s) (st_ino s) (st_mode s) (st_nlink s) (st_uid s) (st_gid s) (st_rdev s) n
    (st_blksize s) b (st_atime s) (st_mtime s) (st_ctime s).
Definition set_df_stat (s : stat64) (d : exe_disk_file_t) : exe_disk_file_t :=
  mkDisk (df_size d) (df_contents d) s.
Definition set_df_contents (l : list Z) (d : exe_disk_file_t) : exe_disk_file_t :=
  mkDisk (df_size d) l (df_stat d).

Section WorldUpdates.
Context `{Host}.
Definition upd_fs (f : exe_file_system_t → exe_file_system_t) (w : world) : world :=
  mkWorld _ (f (exe_fs w)) (exe_env w) (errno w) (current_path w) (current_path_len w) (calls w) (host w).
Definition upd_env (f : exe_sym_env_t → exe_sym_env_t) (w : world) : world :=
  mkWorld _ (exe_fs w) (f (exe_env w)) (errno w) (current_path w) (current_path_len w) (calls w) (host w).
Definition upd_errno (n : Z) (w : world) : world :=
  mkWorld _ (exe_fs w) (exe_env w) n (current_path w) (current_path_len w) (calls w) (host w).
Definition upd_cwd (p : option string) (n : Z) (w : world) : world :=
  mkWorld _ (exe_fs w) (exe_env w) (errno w) p n (calls w) (host w).
Definition upd_calls (f : counters → counters) (w : world) : world :=
  mkWorld _ (exe_fs w) (exe_env w) (errno w) (current_path w) (current_path_len w) (f (calls w)) (host w).
Definition upd_host (h : hst) (w : world) : world :=
  mkWorld _ (exe_fs w) (exe_env w) (errno w) (current_path w) (current_path_len w) (calls w) h.
End WorldUpdates.

(** The state monad of the runtime. *)
Abbreviation FS := (M world).
