(* ===== verification/FsCore.v ===== *)
(** * Core helpers of [fd.c]

    Access to the descriptor table and to the two kinds of file records, the
    lookups [__get_sym_file], [__get_file] and [find_con_file], the record
    array's growth and release ([enlarge_con_files], [free_con_file]), the
    switch of a record to its in-memory form ([make_con_inmem]), failure
    injection and the string concretisation. *)
From S2P Require Import Prelude FsTypes.

(** ** C strings *)

(** [s[i]] of a NUL-terminated string, a signed char. *)
Definition char_at (s : string) (i : nat) : Z :=
  match String.get i s with
  | Some c => s8 (Z.of_nat (Ascii.nat_of_ascii c))
  | None => 0
  end.

Definition strlen (s : string) : Z := Z.of_nat (String.length s).

(** [strstr(hay, needle) != NULL]. *)
Fixpoint strstr (hay needle : string) : bool :=
  String.prefix needle hay ||
  match hay with
  | EmptyString => false
  | String _ hay' => strstr hay' needle
  end.

Section FsCore.
Context `{Host}.

(** ** The host and errno *)
Definition sys {A} (f : hst → A * hst) : FS A :=
  λ w, let '(a, h) := f (host w) in Done a (upd_host h w).
Definition set_errno (e : Z) : FS unit := modify (upd_errno e).
Definition klee_get_errno : FS Z := gets (λ w, klee_get_errno_ (host w)).

(** [errno = e; return -1;] *)
Definition fail (e : Z) : FS Z := set_errno e;; mret (-1).

(** [if (r == -1) errno = klee_get_errno(); return r;] *)
Definition ret_sys (r : Z) : FS Z :=
  (if r =? -1 then e ← klee_get_errno; set_errno e else mret tt);; mret r.

(** The bytes the engine assigns to an object of [n] bytes made symbolic. *)
Definition klee_make_symbolic (name : string) (n : nat) : FS (list Z) :=
  f ← sys (sym_input name); mret ((λ i, u8 (f i)) <$> seq 0 n).
Definition klee_assume (b : bool) : FS unit := if b then mret tt else halt AssumeFailed.

(** ** Access to the tables *)
Definition fd_at (i : nat) : FS exe_file_t :=
  l ← gets (λ w, fds (exe_env w)); deref (l !! i).
Definition upd_fd (i : nat) (g : exe_file_t → exe_file_t) : FS unit :=
  f ← fd_at i;
  modify (upd_env (λ e, set_fds (<[i := g f]> (fds e)) e)).

Definition con_at (p : con_ptr) : FS exe_disk_con_file_t :=
  s ← gets exe_fs;
  if bool_decide (cp_base p = con_base s) then deref (con_files s !! cp_idx p)
  else halt MemoryError.
Definition upd_con (p : con_ptr) (g : exe_disk_con_file_t → exe_disk_con_file_t) : FS unit :=
  c ← con_at p;
  modify (upd_fs (λ s, set_con_files (<[cp_idx p := g c]> (con_files s)) s)).

Definition lookup_dfile (d : dfile_ref) (s : exe_file_system_t) : option exe_disk_file_t :=
  match d with
  | SymFile k => sym_files s !! k
  | SymStdin => sym_stdin s
  | SymStdout => sym_stdout s
  end.
Definition store_dfile (d : dfile_ref) (x : exe_disk_file_t) (s : exe_file_system_t) : exe_file_system_t :=
  match d with
  | SymFile k => set_sym_files (<[k := x]> (sym_files s)) s
  | SymStdin => set_std (Some x) (sym_stdout s) s
  | SymStdout => set_std (sym_stdin s) (Some x) s
  end.
Definition dfile_at (d : dfile_ref) : FS exe_disk_file_t :=
  s ← gets exe_fs; deref (lookup_dfile d s).
Definition upd_dfile (d : dfile_ref) (g : exe_disk_file_t → exe_disk_file_t) : FS unit :=
  x ← dfile_at d; modify (upd_fs (store_dfile d (g x))).

(** The two views of the union: [f->dfile] and [f->dcfile]. *)
Definition as_dfile (f : exe_file_t) : FS dfile_ref :=
  match f_file f with FDfile d => mret d | _ => halt MemoryError end.
Definition as_dcfile (f : exe_file_t) : FS con_ptr :=
  match f_file f with FDcfile p => mret p | _ => halt MemoryError end.

(** ** [__get_sym_file] *)
Fixpoint get_sym_file_from (c : Z) (n i : nat) : FS (option dfile_ref) :=
  match n with
  | O => mret None
  | S n' =>
      if c =? 65 + s8 (Z.of_nat i) then
        df ← dfile_at (SymFile i);
        mret (if st_ino (df_stat df) =? 0 then None else Some (SymFile i))
      else get_sym_file_from c n' (S i)
  end.
Definition get_sym_file (pathname : string) : FS (option dfile_ref) :=
  let c := char_at pathname 0 in
  if (c =? 0) || negb (char_at pathname 1 =? 0) then mret None
  else s ← gets exe_fs; get_sym_file_from c (Z.to_nat (n_sym_files s)) 0.

(** ** [__get_file] *)
Definition get_file (fd : Z) : FS (option nat) :=
  if (0 <=? fd) && (fd <? Z.of_nat MAX_FDS) then
    f ← fd_at (Z.to_nat fd);
    mret (if testflag (f_flags f) eOpen then Some (Z.to_nat fd) else None)
  else mret None.

(** ** [find_con_file] *)

(** The inner loop over [name[0..n-1]]: whether one equals [filename]; [None]
    when the array ends before. *)
Fixpoint name_loop (filename : string) (l : list (option string)) (n : nat) : option bool :=
  match n, l with
  | O, _ => Some false
  | S _, [] => None
  | S n', o :: l' =>
      if bool_decide (o = Some filename) then Some true else name_loop filename l' n'
  end.

(** The outer loop from index [i] on, [n] records left; [free] is [*free_file]
    so far.  [None] is an access outside a live object. *)
Fixpoint find_con_file_from (filename : string) (cs : list exe_disk_con_file_t)
    (n i : nat) (free : option nat) : option (option nat * option nat) :=
  match n with
  | O => Some (None, free)
  | S n' =>
      c ← cs !! i;
      if bool_decide (cf_state c = CON_STATE_FREE) then
        find_con_file_from filename cs n' (S i) (Some i)
      else
        match cf_name c with
        | PTo l =>
            hit ← name_loop filename l MAX_LINKS;
            if (hit : bool) then Some (Some i, free)
            else find_con_file_from filename cs n' (S i) free
        | _ => None
        end
  end.
Definition find_con_file (filename : string) : FS (option con_ptr * option con_ptr) :=
  s ← gets exe_fs;
  '(con_file, free_file) ←
    deref (find_con_file_from filename (con_files s) (Z.to_nat (n_con_files s)) 0 None);
  mret (mkConPtr (con_base s) <$> con_file, mkConPtr (con_base s) <$> free_file).

(** ** [enlarge_con_files] *)

(** A record in fresh heap memory, its state set to FREE. *)
Definition fresh_con : exe_disk_con_file_t :=
  mkCon uninit uninit uninit PJunk PJunk uninit PJunk uninit CON_STATE_FREE.

(** [con_files + (dcfile - old_con_files)] for the open concrete descriptors. *)
Definition relocate (old new : nat) (f : exe_file_t) : exe_file_t :=
  if (f_type f =? CONCRETE_FILE) && testflag (f_flags f) eOpen then
    match f_file f with
    | FDcfile p =>
        if bool_decide (cp_base p = old) then set_file (FDcfile (mkConPtr new (cp_idx p))) f else f
    | _ => f
    end
  else f.

(** An array of 2^32 records or more cannot be allocated: the copy into it
    then faults. *)
Definition enlarge_con_files : FS con_ptr :=
  s ← gets exe_fs;
  let n := n_con_files s in
  if 2 ^ 32 <=? n * 2 then halt MemoryError
  else
    let base := S (con_base s) in
    modify (upd_fs (set_con_alloc base (u32 (n * 2))
      (con_files s ++ replicate (Z.to_nat n) fresh_con)));;
    modify (upd_env (λ e, set_fds (relocate (con_base s) base <$> fds e) e));;
    mret (mkConPtr base (Z.to_nat n)).

(** ** [free_con_file] *)

(** [free(p)]: NULL is ignored, a dangling pointer is a fault. *)
Definition free_ptr {A} (p : ptr A) : FS unit :=
  match p with PJunk => halt MemoryError | _ => mret tt end.
(** What a freed, not overwritten, pointer field holds. *)
Definition freed {A} (p : ptr A) : ptr A :=
  match p with PNull => PNull | _ => PJunk end.

Definition free_con_file (p : con_ptr) : FS unit :=
  c ← con_at p;
  free_ptr (cf_stat c);;
  free_ptr (cf_contents c);;
  free_ptr (cf_name c);;
  upd_con p (λ c, mkCon (cf_refcnt c) 0 0 (freed (cf_contents c)) (freed (cf_stat c)) 0
                    PNull 0 CON_STATE_FREE).

(** ** [make_con_inmem] *)
Definition make_con_inmem (fd : Z) (p : con_ptr) : FS Z :=
  file_size ← sys (sys_lseek fd 0 SEEK_END);
  let finish : FS Z :=
    sys (klee_sys_close fd);;
    upd_con p (λ c, set_state CON_STATE_INMEM (set_buf_size (u32 file_size) (set_size (u32 file_size) c)));;
    mret 0 in
  if file_size =? 0 then upd_con p (set_contents PNull);; finish
  else if file_size <? 0 then upd_con p (set_state CON_STATE_FORCE_DIRECT);; mret (-1)
  else
    ok ← sys (host_malloc file_size);
    if negb ok then
      upd_con p (λ c, set_state CON_STATE_FORCE_DIRECT (set_contents PNull c));; mret (-1)
    else
      '(read_len, bytes) ← sys (sys_pread64 fd file_size 0);
      if negb (read_len =? file_size) then
        set_errno EIO;;
        upd_con p (λ c, set_state CON_STATE_FORCE_DIRECT (set_contents PJunk c));; mret (-1)
      else
        upd_con p (set_contents (PTo (resize (Z.to_nat file_size) 0 bytes)));; finish.

(** ** Failure injection

    [__exe_fs.max_failures && *p == n_calls], and the decrement when it holds. *)
Definition inject (ptr : exe_file_system_t → option Z) (n_calls : Z) : FS bool :=
  s ← gets exe_fs;
  if max_failures s =? 0 then mret false
  else
    k ← deref (ptr s);
    if k =? n_calls then
      modify (upd_fs (set_max_failures (u32 (max_failures s - 1))));; mret true
    else mret false.

(** ** [__concretize_string]

    The loop over the string, on path where [klee_get_valuel] returns the
    value of its argument.  At a power of two index a character that is
    neither NUL nor a slash is left for the next iteration.  The string is
    written back with the same characters.  [None]: out of fuel. *)
Fixpoint concretize_loop (fuel : nat) (i : Z) (done rest : list ascii) : option (list ascii) :=
  match fuel with
  | O => None
  | S fuel' =>
      if Z.land i (u32 (i - 1)) =? 0 then
        match rest with
        | [] => Some (rev done)
        | c :: rest' =>
            if bool_decide (c = "/"%char) then concretize_loop fuel' (u32 (i + 1)) (c :: done) rest'
            else concretize_loop fuel' (u32 (i + 1)) done rest
        end
      else
        match rest with
        | [] => Some (rev done)
        | c :: rest' => concretize_loop fuel' (u32 (i + 1)) (c :: done) rest'
        end
  end.
Definition concretize_string (s : string) : FS string :=
  let l := String.list_ascii_of_string s in
  match concretize_loop (2 * length l + 3) 0 [] l with
  | Some r => mret (String.string_of_list_ascii r)
  | None => halt NoFuel
  end.

(** [__concretize_size] and [__concretize_ptr]: the value itself. *)
Definition concretize_size (n : Z) : FS Z := mret n.

(** [umask] *)
Definition umask (mask : Z) : FS Z :=
  r ← gets (λ w, env_umask (exe_env w));
  modify (upd_env (set_umask (Z.land mask 511)));;
  mret r.

End FsCore.
