(* ===== verification/FsPath.v ===== *)
(** * Paths and the working directory

    [get_current_path], [getcwd], [get_realpath], [chdir], [fchdir], [chroot],
    [readlink] and [access] of [fd.c], and uclibc's [realpath]
    ([src/klee/uclibc/libc/stdlib/realpath.c], changed for this runtime), which
    calls back into [getcwd] and [readlink]. *)
From S2P Require Import Prelude FsTypes FsCore.

Abbreviation chars := String.list_ascii_of_string.
Abbreviation str := String.string_of_list_ascii.

Definition is_slash (c : ascii) : bool := bool_decide (c = "/"%char).
Definition is_dot (c : ascii) : bool := bool_decide (c = "."%char).

(** The path ends here or goes on with a slash. *)
Definition at_end (path : list ascii) : bool :=
  match path with [] => true | c :: _ => is_slash c end.

(** The first non-NULL of [l[0..n-1]]; the outer [None] is an access past the
    array. *)
Fixpoint first_name (l : list (option string)) (n : nat) : option (option string) :=
  match n, l with
  | O, _ => Some None
  | S _, [] => None
  | S n', o :: l' => match o with Some s => Some (Some s) | None => first_name l' n' end
  end.

Section FsPath.
Context `{Host}.

(** ** The working directory *)
Definition get_current_path (size : Z) : FS (option string) :=
  cp ← gets current_path;
  ok ← match cp with
       | Some _ => mret true
       | None =>
           '(r, s) ← sys (sys_getcwd PATH_MAX);
           if (r : Z) =? -1 then e ← klee_get_errno; set_errno e;; mret false
           else modify (upd_cwd (Some s) (strlen s));; mret true
       end;
  if negb ok then mret None
  else if size =? 0 then mret None
  else
    cp' ← gets current_path; p ← deref cp';
    if size <=? strlen p then set_errno ERANGE;; mret None
    else mret (Some p).

(** [buf]: the size of the caller's buffer, [None] for NULL. *)
Definition getcwd (buf : option Z) (size : Z) : FS (option string) :=
  modify (upd_calls (λ c, mkCalls (n_close c) (n_read c) (n_write c) (n_chmod c) (n_fchmod c)
    (n_ftruncate c) (s32 (n_getcwd c + 1))));;
  n ← gets (λ w, n_getcwd (calls w));
  b ← inject getcwd_fail n;
  if (b : bool) then set_errno ERANGE;; mret None
  else
    let size := match buf with None => if size =? 0 then 1024 else size | Some _ => size end in
    let cap := match buf with None => size | Some n => n end in
    if cap <? size then halt MemoryError
    else get_current_path size.

Definition get_realpath (rel_path : string) : FS string :=
  if char_at rel_path 0 =? 47 then mret rel_path
  else
    cp ← gets current_path;
    (match cp with None => get_current_path 0;; mret tt | Some _ => mret tt end);;
    cp' ← gets current_path; p ← deref cp';
    mret (p +:+ "/" +:+ rel_path).

Definition chdir (path : string) : FS Z :=
  df ← get_sym_file path;
  match df with
  | Some _ => fail ENOENT
  | None =>
      con ← concretize_string path;
      p ← get_realpath con;
      modify (upd_cwd (Some p) (strlen p));; mret 0
  end.

Definition fchdir (fd : Z) : FS Z :=
  o ← get_file fd;
  match o with
  | None => fail EBADF
  | Some i =>
      f ← fd_at i;
      if f_type f =? SYMBOLIC_FILE then fail ENOENT
      else
        p ← as_dcfile f;
        c_assert (f_type f =? CONCRETE_FILE);;
        c ← con_at p;
        match cf_name c with
        | PTo l =>
            n ← deref (first_name l MAX_LINKS);
            match n with
            | Some s => modify (upd_cwd (Some s) (strlen s));; mret 0
            | None => mret (-1)
            end
        | _ => halt MemoryError
        end
  end.

Definition chroot (path : string) : FS Z :=
  if char_at path 0 =? 0 then fail ENOENT
  else if (char_at path 0 =? 47) && (char_at path 1 =? 0) then mret 0
  else fail ENOENT.

(** ** [readlink]: the result and the characters left in the buffer. *)
Definition readlink (path : string) (bufsize : Z) : FS (Z * string) :=
  df ← get_sym_file path;
  match df with
  | Some d =>
      x ← dfile_at d;
      if S_ISLNK (st_mode (df_stat x)) then
        let name := String.substring 0 1 path +:+ ".lnk" in
        mret (if 5 <? bufsize then 5 else bufsize,
              String.substring 0 (Z.to_nat (Z.max 1 bufsize)) name)
      else r ← fail EINVAL; mret (r, EmptyString)
  | None =>
      rpath ← get_realpath path;
      '(con_file, _) ← find_con_file rpath;
      refuse ← match con_file with
               | Some p => c ← con_at p; mret (S_ISDIR (cf_mode c) || S_ISREG (cf_mode c))
               | None => mret false
               end;
      if (refuse : bool) then r ← fail EINVAL; mret (r, EmptyString)
      else
        '(r, s) ← sys (sys_readlink rpath bufsize);
        r' ← ret_sys r; mret (r', s)
  end.

(** ** [realpath]

    [got] is [got_path .. new_path], last character first; [path] is what is
    left of [copy_path], whose length is [len].  [PATH_MAX] bounds both
    buffers, [cap] is the size of the caller's buffer. *)
Definition MAX_READLINKS : Z := 32.

(** [*new_path++ = c]. *)
Definition push (c : ascii) (got : list ascii) : FS (list ascii) :=
  if Z.of_nat (length got) <? PATH_MAX then mret (c :: got) else halt MemoryError.

(** Back up to just after a slash. *)
Fixpoint drop_to_slash (got : list ascii) : option (list ascii) :=
  match got with
  | [] => None
  | c :: got' => if is_slash c then Some got else drop_to_slash got'
  end.
(** [while ((--new_path)[-1] != '/');] *)
Definition back_up (got : list ascii) : option (list ascii) := drop_to_slash (tail got).
(** [while ( *(--new_path) != '/');] *)
Definition back_over (got : list ascii) : option (list ascii) := tail <$> drop_to_slash got.

(** Stray slashes, "." and ".." up to the next component. *)
Fixpoint skip_seps (path got : list ascii) : option (list ascii * list ascii) :=
  match path with
  | [] => Some ([], got)
  | c :: p1 =>
      if is_slash c then skip_seps p1 got
      else if is_dot c then
        if at_end p1 then skip_seps p1 got
        else
          match p1 with
          | c2 :: p2 =>
              if is_dot c2 && at_end p2 then
                if (length got =? 1)%nat then skip_seps p2 got
                else got' ← back_up got; skip_seps p2 got'
              else Some (path, got)
          | [] => Some (path, got)
          end
      else Some (path, got)
  end.

(** Copy the next component; [None] is the ENAMETOOLONG return. *)
Fixpoint copy_component (len : Z) (path got : list ascii) : FS (option (list ascii * list ascii)) :=
  match path with
  | [] => mret (Some ([], got))
  | c :: path' =>
      if is_slash c then mret (Some (path, got))
      else if PATH_MAX - 2 <? len - Z.of_nat (length path) then
        set_errno ENAMETOOLONG;; mret None
      else got' ← push c got; copy_component len path' got'
  end.

(** NUL-terminate [got_path] and [strcpy] it to the caller's buffer. *)
Definition copy_out (cap : Z) (got : list ascii) : FS string :=
  if (Z.of_nat (length got) <? PATH_MAX) && (Z.of_nat (length got) <? cap)
  then mret (str (rev got)) else halt MemoryError.

Definition strip_slash (got : list ascii) : list ascii :=
  match got with
  | c :: (_ :: _) as got' => if is_slash c then tail got else got
  | _ => got
  end.

Fixpoint realpath_loop (fuel : nat) (readlinks cap len : Z) (path got : list ascii)
    : FS (bool * option string) :=
  match fuel with
  | O => halt NoFuel
  | S fuel' =>
      '(path, got) ← deref (skip_seps path got);
      match path with
      | [] => s ← copy_out cap (strip_slash got); mret (true, Some s)
      | _ :: _ =>
          r ← copy_component len path got;
          match r with
          | None => mret (false, None)
          | Some (path, got) =>
              if MAX_READLINKS <? readlinks then set_errno ELOOP;; mret (false, None)
              else if PATH_MAX <=? Z.of_nat (length got) then halt MemoryError
              else
                '(n, link) ← readlink (str (rev got)) (PATH_MAX - 1);
                if (n : Z) <? 0 then
                  e ← gets errno;
                  if e =? EINVAL then
                    got' ← push "/"%char got;
                    realpath_loop fuel' (readlinks + 1) cap len path got'
                  else s ← copy_out cap got; mret (false, Some s)
                else
                  let link := take (Z.to_nat n) (chars link) in
                  got' ← (if bool_decide (head link = Some "/"%char) then mret []
                          else deref (back_over got));
                  if PATH_MAX - 2 <=? Z.of_nat (length path) + n then
                    set_errno ENAMETOOLONG;; mret (false, None)
                  else
                    let path' := link ++ path in
                    got'' ← push "/"%char got';
                    realpath_loop fuel' (readlinks + 1) cap (Z.of_nat (length path')) path' got''
          end
      end
  end.

Definition REALPATH_FUEL : nat := 34.

(** [(true, Some s)]: success; [(false, o)]: NULL, with [o] what was written to
    the caller's buffer, if anything was. *)
Definition realpath (path : string) (cap : Z) : FS (bool * option string) :=
  if char_at path 0 =? 0 then set_errno ENOENT;; mret (false, None)
  else if PATH_MAX - 2 <=? strlen path then set_errno ENAMETOOLONG;; mret (false, None)
  else if negb (char_at path 0 =? 47) then
    ret ← getcwd (Some PATH_MAX) (PATH_MAX - 1);
    match ret with
    | None =>
        e ← gets errno;
        (if e =? ERANGE then set_errno ENAMETOOLONG else mret tt);; mret (false, None)
    | Some cwd =>
        let got := rev (chars cwd) in
        match got with
        | [] => halt MemoryError
        | c :: _ =>
            got' ← (if is_slash c then mret got else push "/"%char got);
            realpath_loop REALPATH_FUEL 0 cap (strlen path) (chars path) got'
        end
    end
  else realpath_loop REALPATH_FUEL 0 cap (strlen path) (tail (chars path)) ["/"%char].

(** The caller's buffer after [realpath]: reading it when nothing was written
    uses indeterminate bytes. *)
Definition written (o : option string) : FS string :=
  match o with Some s => mret s | None => halt Undefined end.

(** [realpath] into a buffer of 1024 bytes, where a failure other than ENOENT
    makes the caller return: [None]. *)
Definition resolve (path : string) : FS (option string) :=
  '(ok, buf) ← realpath path 1024;
  e ← gets errno;
  if negb ok && negb (e =? ENOENT) then mret None
  else s ← written buf; mret (Some s).

(** ** [access]: for a recorded file the code frees [rpath] and then prints it. *)
Definition access (pathname : string) (mode : Z) : FS Z :=
  df ← get_sym_file pathname;
  match df with
  | Some _ => mret 0
  | None =>
      con ← concretize_string pathname;
      rpath ← get_realpath con;
      r ← resolve rpath;
      match r with
      | None => mret (-1)
      | Some con_fullpath =>
          '(dcfile, _) ← find_con_file con_fullpath;
          match dcfile with
          | Some _ => halt MemoryError
          | None => r ← sys (sys_access rpath mode); ret_sys r
          end
      end
  end.

End FsPath.
