(* ===== verification/FsOpen.v ===== *)
(** * Opening, closing and duplicating descriptors

    [has_permission], [__fd_open], [close], [dup2] and [dup] of [fd.c], and the
    [open] entry points of [fd_32.c] and [fd_64.c]. *)
From S2P Require Import Prelude FsTypes FsCore FsPath.

Definition S_IRUSR : Z := 256.
Definition S_IRGRP : Z := 32.
Definition S_IROTH : Z := 4.
Definition S_IWUSR : Z := 128.
Definition S_IWGRP : Z := 16.
Definition S_IWOTH : Z := 2.

(** [has_permission] *)
Definition has_permission (flags : Z) (s : stat64) : bool :=
  let mode := st_mode s in
  let read_access := testflag flags O_RDONLY || testflag flags O_RDWR in
  let write_access := testflag flags O_WRONLY || testflag flags O_RDWR in
  if read_access && negb (Z.lor (Z.lor (Z.land mode S_IRUSR) (Z.land mode S_IRGRP)) (Z.land mode S_IROTH) =? 0)
  then false
  else if write_access && (Z.lor (Z.lor (Z.land mode S_IWUSR) (Z.land mode S_IWGRP)) (Z.land mode S_IWOTH) =? 0)
  then false
  else true.

(** The first descriptor without [eOpen]; [MAX_FDS] if there is none. *)
Fixpoint first_free (l : list exe_file_t) : nat :=
  match l with
  | [] => O
  | f :: l' => if testflag (f_flags f) eOpen then S (first_free l') else O
  end.

(** The flags of an opened descriptor. *)
Definition access_flags (flags : Z) : Z :=
  if Z.land flags O_ACCMODE =? O_RDONLY then Z.lor eOpen eReadable
  else if Z.land flags O_ACCMODE =? O_WRONLY then Z.lor eOpen eWriteable
  else Z.lor eOpen (Z.lor eReadable eWriteable).

(** The names whose files are made symbolic when [sym_specific] is set. *)
Definition sym_specific_name (etc_symbolic : Z) (p : string) : bool :=
  strstr p "CVS/" || strstr p "CVSROOT/" ||
  (negb (etc_symbolic =? 0) &&
   (strstr p "/etc/passwd" || strstr p "/etc/group" ||
    strstr p "/etc/shadow" || strstr p "/etc/gshadow")) ||
  strstr p ".git/config".

Section FsOpen.
Context `{Host}.

(** A symbolic file (the [df] branch of [__fd_open]): 0, or -1 after setting errno. *)
Definition fd_open_sym (fd : nat) (d : dfile_ref) (flags mode : Z) : FS Z :=
  upd_fd fd (set_file (FDfile d));;
  if testflag flags O_CREAT && testflag flags O_EXCL then fail EEXIST
  else if testflag flags O_TRUNC && testflag flags O_RDONLY then fail EACCES
  else if testflag flags O_EXCL && negb (testflag flags O_CREAT) then fail EACCES
  else
    df ← dfile_at d;
    if negb (has_permission flags (df_stat df)) then fail EACCES
    else
      m ← gets (λ w, env_umask (exe_env w));
      upd_dfile d (λ x, set_df_stat (set_st_mode
        (Z.lor (Z.land (st_mode (df_stat x)) (Z.lnot 511)) (Z.land mode (Z.lnot m))) (df_stat x)) x);;
      upd_fd fd (set_type SYMBOLIC_FILE);;
      mret 0.

(** The [SYM_SPECIFIC] block: a host file of one of the listed names becomes an
    in-memory file with symbolic contents. *)
Definition make_specific (p : con_ptr) (con_fullpath : string) : FS unit :=
  c ← con_at p;
  e ← gets exe_env;
  if (0 <=? cf_fd c) && negb (sym_specific e =? 0) && sym_specific_name (etc_symbolic e) con_fullpath then
    file_size ← (if symbolic_size e =? 0 then sys (sys_lseek (cf_fd c) 0 SEEK_END)
                 else mret (symbolic_size e));
    if 0 <=? file_size then
      sys (klee_sys_close (cf_fd c));;
      bytes ← klee_make_symbolic con_fullpath (Z.to_nat file_size);
      upd_con p (λ c, set_contents (PTo bytes)
        (set_buf_size (u32 file_size) (set_size (u32 file_size) (set_state CON_STATE_INMEM c))))
    else mret tt
  else mret tt.

(** A new record for [con_fullpath]; [None] when [open] returns -1. *)
Definition new_con_file (pathname con_fullpath : string) (free_file : option con_ptr)
    (flags mode : Z) : FS (option con_ptr) :=
  p ← match free_file with None => enlarge_con_files | Some q => mret q end;
  upd_con p (set_refcnt 0);;
  con ← concretize_string pathname;
  rpath ← get_realpath con;
  ok ← (if testflag flags O_CREAT then
          exists_ ← (if testflag flags O_EXCL then
                       tmpfd ← sys (sys_open rpath O_RDONLY mode);
                       sys (sys_close tmpfd);;
                       mret (0 <=? tmpfd)
                     else mret false);
          if (exists_ : bool) then set_errno EEXIST;; mret false
          else
            upd_con p (λ c, set_mode (s32 (Z.lor mode S_IFREG)) (set_buf_size 0
              (set_state CON_STATE_INMEM (set_cfd (-1) c))));;
            mret true
        else
          fd ← sys (klee_sys_open rpath flags mode);
          upd_con p (set_cfd fd);;
          if fd =? -1 then e ← klee_get_errno; set_errno e;; mret false
          else upd_con p (λ c, set_mode 0 (set_state CON_STATE_DIRECT c));; mret true);
  if negb ok then mret None
  else
    upd_con p (λ c, set_cstat PNull (set_contents PNull (set_size 0
      (set_name (PTo (Some con_fullpath :: replicate (MAX_LINKS - 1) None)) c))));;
    make_specific p con_fullpath;;
    mret (Some p).

(** A concrete file (the other branch of [__fd_open]). *)
Definition fd_open_con (fd : nat) (pathname : string) (flags mode : Z) : FS Z :=
  upd_fd fd (set_type CONCRETE_FILE);;
  con_pathname ← concretize_string pathname;
  if char_at con_pathname 0 =? 0 then fail ENOENT
  else if bool_decide (con_pathname = "/dev/tty") then fail EPERM
  else
    r ← resolve con_pathname;
    match r with
    | None => mret (-1)
    | Some con_fullpath =>
        '(con_file, free_file) ← find_con_file con_fullpath;
        found ← match con_file with
                | None => new_con_file pathname con_fullpath free_file flags mode
                | Some p =>
                    if testflag flags O_CREAT then set_errno EEXIST;; mret None
                    else mret (Some p)
                end;
        match found with
        | None => mret (-1)
        | Some p =>
            c ← con_at p;
            upd_fd fd (λ f, set_file (FDcfile p) (set_fd (cf_fd c) f));;
            upd_con p (λ c, set_refcnt (s32 (cf_refcnt c + 1)) c);;
            mret 0
        end
    end.

(** [__fd_open] *)
Definition fd_open (pathname : string) (flags mode : Z) : FS Z :=
  l ← gets (λ w, fds (exe_env w));
  let fd := first_free l in
  if (fd =? MAX_FDS)%nat then fail EMFILE
  else
    upd_fd fd (λ _, zero_file);;
    df ← get_sym_file pathname;
    r ← match df with
        | Some d => fd_open_sym fd d flags mode
        | None => fd_open_con fd pathname flags mode
        end;
    if r =? -1 then mret (-1)
    else
      upd_fd fd (set_flags (access_flags flags));;
      set_errno 0;;
      mret (Z.of_nat fd).

(** [open] and [open64]: the mode argument is read only with O_CREAT. *)
Definition open (pathname : string) (flags arg : Z) : FS Z :=
  fd_open pathname flags (if testflag flags O_CREAT then u32 arg else 0).

(** [close] *)
Definition close (fd : Z) : FS Z :=
  modify (upd_calls (λ c, mkCalls (s32 (n_close c + 1)) (n_read c) (n_write c) (n_chmod c)
    (n_fchmod c) (n_ftruncate c) (n_getcwd c)));;
  o ← get_file fd;
  match o with
  | None => fail EBADF
  | Some i =>
      n ← gets (λ w, n_close (calls w));
      b ← inject close_fail n;
      if (b : bool) then fail EIO
      else
        f ← fd_at i;
        (if f_type f =? CONCRETE_FILE then
           p ← as_dcfile f; upd_con p (λ c, set_refcnt (s32 (cf_refcnt c - 1)) c)
         else mret tt);;
        upd_fd i (λ _, zero_file);;
        mret 0
  end.

(** [dup2]: the result of the inner [close] is ignored. *)
Definition dup2 (oldfd newfd : Z) : FS Z :=
  o ← get_file oldfd;
  match o with
  | None => fail EBADF
  | Some i =>
      if negb ((0 <=? newfd) && (newfd <? Z.of_nat MAX_FDS)) then fail EBADF
      else
        let j := Z.to_nat newfd in
        f2 ← fd_at j;
        (if testflag (f_flags f2) eOpen then close newfd;; mret tt else mret tt);;
        f ← fd_at i;
        upd_fd j (λ _, f);;
        (if f_type f =? CONCRETE_FILE then
           p ← as_dcfile f; upd_con p (λ c, set_refcnt (s32 (cf_refcnt c + 1)) c)
         else mret tt);;
        upd_fd j (λ f2, set_flags (Z.land (f_flags f2) (Z.lnot eCloseOnExec)) f2);;
        mret newfd
  end.

(** [dup] *)
Definition dup (oldfd : Z) : FS Z :=
  o ← get_file oldfd;
  match o with
  | None => fail EBADF
  | Some _ =>
      l ← gets (λ w, fds (exe_env w));
      let fd := first_free l in
      if (fd =? MAX_FDS)%nat then fail EMFILE
      else dup2 oldfd (Z.of_nat fd)
  end.

End FsOpen.
