(* ===== verification/FsIO.v ===== *)
(** * Reading, writing, seeking and truncating

    [read], [write], [__fd_lseek] and [__fd_ftruncate] of [fd.c].  The caller's
    buffer is the byte list of the object it points to ([None] for NULL); an
    access past its end is a [MemoryError]. *)
From S2P Require Import Prelude FsTypes FsCore.

(** The bytes [[off, off+count)] of an array, [None] outside it. *)
Definition slice (l : list Z) (off count : Z) : option (list Z) :=
  if (0 <=? off) && (0 <=? count) && (off + count <=? Z.of_nat (length l))
  then Some (take (Z.to_nat count) (drop (Z.to_nat off) l)) else None.

(** The doubling loops: [write]'s on an [off_t], [ftruncate]'s on an
    [unsigned].  [None]: out of fuel. *)
Fixpoint grow (wrap : Z → Z) (fuel : nat) (n target : Z) : option Z :=
  if target <=? n then Some n
  else match fuel with O => None | S fuel' => grow wrap fuel' (wrap (n * 2)) target end.
Definition GROW_FUEL : nat := 64.

Section FsIO.
Context `{Host}.

(** [memcpy] out of an object reached through a pointer, and into one. *)
Definition load_ptr (p : ptr (list Z)) (off count : Z) : FS (list Z) :=
  if count =? 0 then mret []
  else match p with PTo l => deref (slice l off count) | _ => halt MemoryError end.
Definition store_list (l : list Z) (off : Z) (b : list Z) : option (list Z) :=
  if (0 <=? off) && (off + Z.of_nat (length b) <=? Z.of_nat (length l))
  then Some (splice (Z.to_nat off) b l) else None.
Definition store_ptr (p : ptr (list Z)) (off : Z) (b : list Z) : FS (ptr (list Z)) :=
  if (length b =? 0)%nat then mret p
  else match p with PTo l => l' ← deref (store_list l off b); mret (PTo l') | _ => halt MemoryError end.

(** [klee_check_memory_access(buf, count)]. *)
Definition check_memory_access (buf : list Z) (count : Z) : FS unit :=
  if count <=? Z.of_nat (length buf) then mret tt else halt MemoryError.

Definition count_read : FS Z :=
  modify (upd_calls (λ c, mkCalls (n_close c) (s32 (n_read c + 1)) (n_write c) (n_chmod c)
    (n_fchmod c) (n_ftruncate c) (n_getcwd c)));; gets (λ w, n_read (calls w)).
Definition count_write : FS Z :=
  modify (upd_calls (λ c, mkCalls (n_close c) (n_read c) (s32 (n_write c + 1)) (n_chmod c)
    (n_fchmod c) (n_ftruncate c) (n_getcwd c)));; gets (λ w, n_write (calls w)).
Definition count_ftruncate : FS Z :=
  modify (upd_calls (λ c, mkCalls (n_close c) (n_read c) (n_write c) (n_chmod c)
    (n_fchmod c) (s32 (n_ftruncate c + 1)) (n_getcwd c)));; gets (λ w, n_ftruncate (calls w)).

(** ** [read] *)

(** The concrete branch: descriptor [i], its entry [f], the buffer [buf]. *)
Definition read_con (i : nat) (f : exe_file_t) (buf : list Z) (count : Z) : FS (Z * list Z) :=
  p ← as_dcfile f;
  c ← con_at p;
  if bool_decide (cf_state c = CON_STATE_STD) then r ← fail EIO; mret (r, buf)
  else
    check_memory_access buf count;;
    let direct := bool_decide (cf_state c = CON_STATE_DIRECT)
                  || bool_decide (cf_state c = CON_STATE_FORCE_DIRECT) in
    let finish (r : Z) (buf' : list Z) : FS (Z * list Z) :=
      if r =? -1 then e ← klee_get_errno; set_errno e;; mret (-1, buf')
      else
        (if f_fd f =? 0 then mret tt else upd_fd i (λ f, set_off (s64 (f_off f + r)) f));;
        mret (r, buf') in
    if direct then
      '(r, bytes) ← (if f_fd f =? 0 then sys (sys_read (f_fd f) count)
                     else sys (sys_pread64 (f_fd f) count (f_off f)));
      buf' ← deref (store_list buf 0 (take (Z.to_nat r) bytes));
      finish (s32 r) buf'
    else
      c_assert (bool_decide (cf_state c = CON_STATE_INMEM));;
      if S_ISDIR (cf_mode c) then r ← fail EISDIR; mret (r, buf)
      else if f_off f <? cf_size c then
        let count := if cf_size c <? u64 (f_off f + count) then u64 (cf_size c - f_off f) else count in
        bytes ← load_ptr (cf_contents c) (f_off f) count;
        buf' ← deref (store_list buf 0 bytes);
        finish (s32 count) buf'
      else finish 0 buf.

(** The symbolic branch. *)
Definition read_sym (i : nat) (f : exe_file_t) (buf : list Z) (count : Z) : FS (Z * list Z) :=
  c_assert (0 <=? f_off f);;
  d ← as_dfile f;
  df ← dfile_at d;
  if df_size df <? f_off f then mret (0, buf)
  else
    let count := if df_size df <? u64 (f_off f + count) then u64 (df_size df - f_off f) else count in
    bytes ← load_ptr (PTo (df_contents df)) (f_off f) count;
    buf' ← deref (store_list buf 0 bytes);
    upd_fd i (λ f, set_off (s64 (f_off f + count)) f);;
    mret (s64 count, buf').

Definition read (fd : Z) (buf : option (list Z)) (count : Z) : FS (Z * option (list Z)) :=
  n ← count_read;
  if count =? 0 then mret (0, buf)
  else match buf with
  | None => r ← fail EFAULT; mret (r, buf)
  | Some b =>
      o ← get_file fd;
      match o with
      | None => r ← fail EBADF; mret (r, buf)
      | Some i =>
          inj ← inject read_fail n;
          if (inj : bool) then r ← fail EIO; mret (r, buf)
          else
            f ← fd_at i;
            '(r, b') ← (if f_type f =? CONCRETE_FILE then read_con i f b count
                        else read_sym i f b count);
            mret (r, Some b')
      end
  end.

(** ** [write] *)

(** The buffer after the growth of an in-memory file that must hold [last_pos]
    bytes: the old contents up to [size], then zeros. *)
Definition grow_contents (c : exe_disk_con_file_t) (last_pos : Z) : FS exe_disk_con_file_t :=
  if cf_buf_size c <? last_pos then
    let start := if cf_buf_size c =? 0 then 32 else u32 (2 * cf_buf_size c) in
    match grow s64 GROW_FUEL start last_pos with
    | None => halt NoFuel
    | Some new_buf_size =>
        if new_buf_size <? cf_size c then halt MemoryError
        else
          old ← match cf_contents c with
                | PNull => mret (replicate (Z.to_nat (cf_size c)) (u8 uninit))
                | p => load_ptr p 0 (cf_size c)
                end;
          free_ptr (cf_contents c);;
          mret (set_buf_size (u32 new_buf_size)
            (set_contents (PTo (old ++ replicate (Z.to_nat (new_buf_size - cf_size c)) 0)) c))
    end
  else mret c.

(** The in-memory write at offset [off]: [memcpy] and the new size. *)
Definition write_inmem (p : con_ptr) (off : Z) (data : list Z) (count : Z) : FS unit :=
  c ← con_at p;
  let last_pos := u32 (off + count) in
  c' ← grow_contents c last_pos;
  c_assert (last_pos <=? cf_buf_size c');;
  contents ← store_ptr (cf_contents c') off data;
  upd_con p (λ _, set_size (if cf_size c' <? last_pos then last_pos else cf_size c')
                    (set_contents contents c')).

(** The concrete branch. *)
Definition write_con (i : nat) (f : exe_file_t) (buf : list Z) (count : Z) : FS Z :=
  p ← as_dcfile f;
  check_memory_access buf count;;
  c ← con_at p;
  let finish (r : Z) : FS Z :=
    if r =? -1 then e ← klee_get_errno; set_errno e;; mret (-1)
    else
      c_assert (0 <=? r);;
      (if negb (f_fd f =? 1) && negb (f_fd f =? 2)
       then upd_fd i (λ f, set_off (s64 (f_off f + r)) f) else mret tt);;
      mret r in
  if bool_decide (cf_state c = CON_STATE_STD) then
    r ← sys (sys_write (f_fd f) (take (Z.to_nat count) buf)); finish (s32 r)
  else if bool_decide (cf_state c = CON_STATE_FORCE_DIRECT) then finish (s32 count)
  else
    r ← (if bool_decide (cf_state c = CON_STATE_DIRECT) then make_con_inmem (f_fd f) p else mret 0);
    if negb (r =? 0) then mret (s64 count)
    else
      c ← con_at p;
      c_assert (bool_decide (cf_state c = CON_STATE_INMEM));;
      if S_ISDIR (cf_mode c) then fail EISDIR
      else write_inmem p (f_off f) (take (Z.to_nat count) buf) count;; finish (s32 count).

(** The symbolic branch: bytes past the end of the file are dropped. *)
Definition write_sym (i : nat) (f : exe_file_t) (buf : list Z) (count : Z) : FS Z :=
  d ← as_dfile f;
  df ← dfile_at d;
  saw ← gets (λ w, save_all_writes (exe_env w));
  actual_count ←
    (if u64 (f_off f + count) <=? df_size df then mret count
     else if negb (saw =? 0) then halt AssertFailure
     else mret (if f_off f <? df_size df then u64 (df_size df - f_off f) else 0));
  (if actual_count =? 0 then mret tt
   else
     data ← deref (slice buf 0 actual_count);
     l ← deref (store_list (df_contents df) (f_off f) data);
     upd_dfile d (set_df_contents l));;
  (if bool_decide (d = SymStdout)
   then modify (upd_fs (λ s, set_stdout_writes (u32 (stdout_writes s + actual_count)) s)) else mret tt);;
  upd_fd i (λ f, set_off (s64 (f_off f + count)) f);;
  mret (s64 count).

Definition write (fd : Z) (buf : list Z) (count : Z) : FS Z :=
  n ← count_write;
  o ← get_file fd;
  match o with
  | None => fail EBADF
  | Some i =>
      inj ← inject write_fail n;
      if (inj : bool) then fail EIO
      else
        f ← fd_at i;
        if f_type f =? CONCRETE_FILE then write_con i f buf count else write_sym i f buf count
  end.

(** ** [__fd_lseek] *)
Definition lseek_con (i : nat) (f : exe_file_t) (offset whence : Z) : FS Z :=
  p ← as_dcfile f;
  c ← con_at p;
  let finish (new_off : Z) : FS Z :=
    if new_off =? -1 then e ← klee_get_errno; set_errno e;; mret (-1)
    else upd_fd i (set_off new_off);; mret new_off in
  if bool_decide (cf_state c = CON_STATE_DIRECT) || bool_decide (cf_state c = CON_STATE_FORCE_DIRECT) then
    if whence =? SEEK_SET then
      r ← sys (sys_lseek (f_fd f) (s32 offset) SEEK_SET); finish r
    else
      r ← sys (sys_lseek (f_fd f) (s32 (f_off f)) SEEK_SET);
      if r =? -1 then finish r
      else
        c_assert (r =? f_off f);;
        r' ← sys (sys_lseek (f_fd f) (s32 offset) whence); finish r'
  else if whence =? SEEK_SET then finish offset
  else if whence =? SEEK_CUR then finish (s64 (f_off f + offset))
  else if whence =? SEEK_END then finish (s64 (cf_size c + offset))
  else fail EINVAL.

Definition lseek_sym (i : nat) (f : exe_file_t) (offset whence : Z) : FS Z :=
  d ← as_dfile f;
  df ← dfile_at d;
  let finish (new_off : Z) : FS Z :=
    if new_off <? 0 then fail EINVAL
    else upd_fd i (set_off new_off);; mret new_off in
  if whence =? SEEK_SET then finish offset
  else if whence =? SEEK_CUR then finish (s64 (f_off f + offset))
  else if whence =? SEEK_END then finish (s64 (df_size df + offset))
  else fail EINVAL.

Definition fd_lseek (fd offset whence : Z) : FS Z :=
  o ← get_file fd;
  match o with
  | None => fail EBADF
  | Some i =>
      f ← fd_at i;
      if f_type f =? CONCRETE_FILE then lseek_con i f offset whence
      else lseek_sym i f offset whence
  end.

(** ** [__fd_ftruncate] (with [FAKE_FS]) *)
Definition grow_to (c : exe_disk_con_file_t) (length : Z) : FS exe_disk_con_file_t :=
  if (cf_size c <? length) && (cf_buf_size c <? length) then
    let old_bufsize := cf_buf_size c in
    match grow u32 GROW_FUEL (if old_bufsize =? 0 then 32 else old_bufsize) length with
    | None => halt NoFuel
    | Some n =>
        old ← load_ptr (cf_contents c) 0 old_bufsize;
        free_ptr (cf_contents c);;
        mret (set_buf_size n
          (set_contents (PTo (old ++ replicate (Z.to_nat (n - old_bufsize)) 0)) c))
    end
  else mret c.

Definition fd_ftruncate (fd length : Z) : FS Z :=
  o ← get_file fd;
  n ← count_ftruncate;
  match o with
  | None => fail EBADF
  | Some i =>
      inj ← inject ftruncate_fail n;
      if (inj : bool) then fail EIO
      else
        f ← fd_at i;
        if f_type f =? SYMBOLIC_FILE then fail EIO
        else
          p ← as_dcfile f;
          c ← con_at p;
          c' ← grow_to c length;
          upd_con p (λ _, set_size (u32 length) c');;
          mret 0
  end.

End FsIO.
