(* ===== verification/FsMeta.v ===== *)
(** * File metadata

    [__fd_stat], [__fd_lstat], [__fd_fstat], [fstatat], the [chmod] and [chown]
    families, [statfs] and [fsync] of [fd.c], and the entry points of
    [fd_32.c] and [fd_64.c] that forward to them. *)
From S2P Require Import Prelude FsTypes FsCore FsPath FsIO.

(** The number of names among [l[0..n-1]]; [None]: past the array. *)
Fixpoint count_names (l : list (option string)) (n : nat) : option Z :=
  match n, l with
  | O, _ => Some 0
  | S _, [] => None
  | S n', o :: l' => k ← count_names l' n'; Some (match o with Some _ => k + 1 | None => k end)
  end.

(** [__stat64_to_stat]: the copy of every field. *)
Definition stat64_to_stat (a : stat64) : stat64 :=
  mkStat64 (st_dev a) (st_ino a) (st_mode a) (st_nlink a) (st_uid a) (st_gid a) (st_rdev a)
    (st_size a) (st_blksize a) (st_blocks a) (st_atime a) (st_mtime a) (st_ctime a).

Section FsMeta.
Context `{Host}.

(** ** [__fd_stat] and [__fd_lstat] *)

(** What the record of a concrete file changes in the host's answer [r, buf]:
    extra links and a changed mode, or the whole answer for a file that exists
    only here. *)
Definition patch_stat (c : exe_disk_con_file_t) (r : Z) (buf : stat64) : FS (Z * stat64) :=
  match cf_name c with
  | PTo l =>
      i ← deref (count_names l MAX_LINKS);
      if 0 <=? r then
        let buf := if 1 <? i then set_st_nlink (st_nlink buf + (i - 1)) buf else buf in
        mret (r, if cf_mode c =? 0 then buf else set_st_mode (u32 (cf_mode c)) buf)
      else
        uid ← gets (λ w, host_getuid (host w));
        gid ← gets (λ w, host_getgid (host w));
        mret (0, mkStat64 (st_dev buf) (st_ino buf) (u32 (cf_mode c)) i uid gid (st_rdev buf)
                   (cf_size c) 512 (u32 (cf_buf_size c - 1) `quot` 512 + 1)
                   (st_atime buf) (st_mtime buf) (st_ctime buf))
  | _ => halt MemoryError
  end.

(** The host's answer in a zeroed buffer. *)
Definition host_stat (call : hst → (Z * stat64) * hst) : FS (Z * stat64) :=
  '(r, st) ← sys call;
  r' ← ret_sys r;
  mret (r', if r' =? -1 then zero_stat else st).

Definition fd_stat (path : string) : FS (Z * stat64) :=
  df ← get_sym_file path;
  match df with
  | Some d => x ← dfile_at d; mret (0, df_stat x)
  | None =>
      con ← concretize_string path;
      rpath ← get_realpath con;
      '(r, buf) ← host_stat (sys_stat rpath);
      lasterr ← gets errno;
      o ← resolve rpath;
      match o with
      | None => set_errno lasterr;; mret (r, buf)
      | Some con_fullpath =>
          '(con_file, _) ← find_con_file con_fullpath;
          res ← match con_file with
                | Some p => c ← con_at p; patch_stat c r buf
                | None => mret (r, buf)
                end;
          set_errno lasterr;; mret res
      end
  end.

Definition fd_lstat (path : string) : FS (Z * stat64) :=
  df ← get_sym_file path;
  match df with
  | Some d => x ← dfile_at d; mret (0, df_stat x)
  | None =>
      con ← concretize_string path;
      rpath ← get_realpath con;
      '(r, buf) ← host_stat (sys_lstat rpath);
      '(con_file, _) ← find_con_file rpath;
      match con_file with
      | Some p => c ← con_at p; patch_stat c r buf
      | None => mret (r, buf)
      end
  end.

(** ** [__fd_fstat]: [buf] is what the caller's buffer holds before. *)
Definition fd_fstat (fd : Z) (buf : stat64) : FS (Z * stat64) :=
  o ← get_file fd;
  match o with
  | None => r ← fail EBADF; mret (r, buf)
  | Some i =>
      f ← fd_at i;
      if f_type f =? CONCRETE_FILE then
        '(r, st) ← sys (sys_fstat (f_fd f));
        r' ← ret_sys r;
        mret (r', if r' =? -1 then buf else st)
      else d ← as_dfile f; x ← dfile_at d; mret (0, df_stat x)
  end.

(** ** [fstatat]: the flags are ignored. *)
Definition fstatat (dirfd : Z) (path : string) (buf : stat64) : FS (Z * stat64) :=
  o ← get_file dirfd;
  match o with
  | None => r ← fail EBADF; mret (r, buf)
  | Some i =>
      f ← fd_at i;
      if f_type f =? SYMBOLIC_FILE then r ← fail ENOTDIR; mret (r, buf)
      else
        c_assert (f_type f =? CONCRETE_FILE);;
        if char_at path 0 =? 47 then fd_stat path
        else
          '(ret, st) ← fd_fstat dirfd zero_stat;
          if negb ((ret : Z) =? 0) then mret (ret, buf)
          else if negb (S_ISDIR (st_mode st)) then r ← fail ENOTDIR; mret (r, buf)
          else
            p ← as_dcfile f;
            c ← con_at p;
            match cf_name c with
            | PTo l =>
                n ← deref (first_name l MAX_LINKS);
                match n with
                | Some s => fd_stat (s +:+ "/" +:+ path)
                | None => r ← fail EBADF; mret (r, buf)
                end
            | _ => halt MemoryError
            end
  end.

(** ** Modes *)
Definition df_chmod (d : dfile_ref) (mode : Z) : FS Z :=
  x ← dfile_at d;
  euid ← gets (λ w, host_geteuid (host w));
  gid ← gets (λ w, host_getgid (host w));
  if euid =? st_uid (df_stat x) then
    let mode := if negb (gid =? st_gid (df_stat x)) then Z.land mode (Z.lnot S_ISGID) else mode in
    upd_dfile d (λ x, set_df_stat (set_st_mode
      (Z.lor (Z.land (st_mode (df_stat x)) (Z.lnot 4095)) (Z.land mode 4095)) (df_stat x)) x);;
    mret 0
  else fail EPERM.

Definition chmod (path : string) (mode : Z) : FS Z :=
  df ← get_sym_file path;
  modify (upd_calls (λ c, mkCalls (n_close c) (n_read c) (n_write c) (s32 (n_chmod c + 1))
    (n_fchmod c) (n_ftruncate c) (n_getcwd c)));;
  n ← gets (λ w, n_chmod (calls w));
  inj ← inject chmod_fail n;
  if (inj : bool) then fail EIO
  else match df with
  | Some d => df_chmod d mode
  | None =>
      con ← concretize_string path;
      o ← resolve con;
      match o with
      | None => mret (-1)
      | Some rpath =>
          '(con_file, _) ← find_con_file rpath;
          match con_file with
          | Some p =>
              '(_, st) ← fd_stat rpath;
              upd_con p (set_mode (s32 (Z.lor (Z.land (st_mode st) (Z.lnot 511)) mode)));;
              set_errno 0;; mret 0
          | None => r ← sys (sys_chmod rpath mode); ret_sys r
          end
      end
  end.

Definition fchmod (fd mode : Z) : FS Z :=
  o ← get_file fd;
  match o with
  | None => fail EBADF
  | Some i =>
      modify (upd_calls (λ c, mkCalls (n_close c) (n_read c) (n_write c) (n_chmod c)
        (s32 (n_fchmod c + 1)) (n_ftruncate c) (n_getcwd c)));;
      n ← gets (λ w, n_fchmod (calls w));
      inj ← inject fchmod_fail n;
      if (inj : bool) then fail EIO
      else
        f ← fd_at i;
        if f_type f =? SYMBOLIC_FILE then d ← as_dfile f; df_chmod d mode
        else if f_fd f <? 0 then
          p ← as_dcfile f;
          upd_con p (λ c, set_mode (s32 (Z.lor (Z.land (cf_mode c) (Z.lnot 511)) mode)) c);;
          set_errno 0;; mret 0
        else r ← sys (sys_fchmod (f_fd f) mode); ret_sys r
  end.

Definition fchmodat (dirfd : Z) (path : string) (mode flags : Z) : FS Z := mret 0.

(** ** Owners *)
Definition df_chown (d : dfile_ref) (owner group : Z) : FS Z := fail EPERM.

Definition chown (path : string) (owner group : Z) : FS Z :=
  df ← get_sym_file path;
  match df with
  | Some d => df_chown d owner group
  | None =>
      con ← concretize_string path;
      rpath ← get_realpath con;
      r ← sys (sys_chown rpath owner group); ret_sys r
  end.

(** The call passes [fd], not the host's descriptor. *)
Definition fchown (fd owner group : Z) : FS Z :=
  o ← get_file fd;
  match o with
  | None => fail EBADF
  | Some i =>
      f ← fd_at i;
      if f_type f =? SYMBOLIC_FILE then d ← as_dfile f; df_chown d owner group
      else r ← sys (sys_fchown fd owner group); ret_sys r
  end.

Definition lchown (path : string) (owner group : Z) : FS Z := chown path owner group.

(** ** File system status, [fsync] *)
Definition fd_statfs (path : string) : FS Z :=
  df ← get_sym_file path;
  match df with
  | Some _ => fail ENOENT
  | None =>
      con ← concretize_string path;
      rpath ← get_realpath con;
      r ← sys (sys_statfs rpath); ret_sys r
  end.

Definition fstatfs (fd : Z) : FS Z :=
  o ← get_file fd;
  match o with
  | None => fail EBADF
  | Some i =>
      f ← fd_at i;
      if f_type f =? SYMBOLIC_FILE then fail EBADF
      else r ← sys (sys_fstatfs (f_fd f)); ret_sys r
  end.

Definition fsync (fd : Z) : FS Z :=
  o ← get_file fd;
  match o with None => fail EBADF | Some _ => mret 0 end.

(** ** Entry points

    [fd_64.c] passes the caller's buffer on; [fd_32.c] copies the answer from a
    [struct stat64] with [__stat64_to_stat]. *)
Definition lseek (fd offset whence : Z) : FS Z := fd_lseek fd offset whence.
Definition lseek32 (fd off whence : Z) : FS Z := r ← fd_lseek fd off whence; mret (s64 r).
Definition stat (path : string) : FS (Z * stat64) := fd_stat path.
Definition stat32 (path : string) : FS (Z * stat64) :=
  '(res, tmp) ← fd_stat path; mret (res, stat64_to_stat tmp).
Definition lstat (path : string) : FS (Z * stat64) := fd_lstat path.
Definition lstat32 (path : string) : FS (Z * stat64) :=
  '(res, tmp) ← fd_lstat path; mret (res, stat64_to_stat tmp).
Definition fstat (fd : Z) (buf : stat64) : FS (Z * stat64) := fd_fstat fd buf.
Definition fstat32 (fd : Z) (tmp : stat64) : FS (Z * stat64) :=
  '(res, tmp') ← fd_fstat fd tmp; mret (res, stat64_to_stat tmp').
Definition ftruncate (fd length : Z) : FS Z := fd_ftruncate fd length.
Definition statfs (path : string) : FS Z := fd_statfs path.

End FsMeta.
