(* ===== verification/FsDir.v ===== *)
(** * Directory entries

    [rmdir], [mkdir], [unlink], [link], [rename] and [__fd_getdents] of [fd.c],
    with the [getdents] entry points of [fd_32.c] and [fd_64.c]. *)
From S2P Require Import Prelude FsTypes FsCore FsPath FsMeta.

(** [sizeof(struct dirent64)] and [DT_UNKNOWN]. *)
Definition SIZEOF_DIRENT64 : Z := 280.
Definition DT_UNKNOWN : Z := 0.
Definition IFTODT (mode : Z) : Z := Z.shiftr (Z.land mode S_IFMT) 12.

(** Put [new] in the first NULL of [l[0..n-1]]: [Some None] if there is none,
    [None] past the array. *)
Fixpoint add_name (new : string) (l : list (option string)) (n : nat)
    : option (option (list (option string))) :=
  match n, l with
  | O, _ => Some None
  | S _, [] => None
  | S _, None :: l' => Some (Some (Some new :: l'))
  | S n', o :: l' => r ← add_name new l' n'; Some (option_map (cons o) r)
  end.

(** Replace the first of [l[0..n-1]] that equals [old] by [new]. *)
Fixpoint replace_name (old new : string) (l : list (option string)) (n : nat)
    : option (list (option string)) :=
  match n, l with
  | O, _ => Some l
  | S _, [] => None
  | S n', o :: l' =>
      if bool_decide (o = Some old) then Some (Some new :: l')
      else r ← replace_name old new l' n'; Some (o :: r)
  end.

(** The loop that shifts the offsets of the host's entries; [pos] is the byte
    position of the next one, [res] the number of bytes returned. *)
Fixpoint patch_offsets (pos res : Z) (l : list dirent64) : list dirent64 :=
  match l with
  | [] => []
  | d :: l' =>
      if pos <? res then
        mkDirent (d_ino d) (d_off d + 4096) (d_reclen d) (d_type d) (d_name d)
          :: patch_offsets (pos + d_reclen d) res l'
      else l
  end.

Section FsDir.
Context `{Host}.

(** A slot for a new record: the free one found, or one of a larger array. *)
Definition take_slot (free_file : option con_ptr) : FS con_ptr :=
  match free_file with None => enlarge_con_files | Some p => mret p end.

Definition one_name (s : string) : ptr (list (option string)) :=
  PTo (Some s :: replicate (MAX_LINKS - 1) None).

(** ** [rmdir] *)
Definition rmdir (pathname : string) : FS Z :=
  df ← get_sym_file pathname;
  match df with
  | Some d =>
      x ← dfile_at d;
      if S_ISDIR (st_mode (df_stat x)) then
        upd_dfile d (λ x, set_df_stat (set_st_ino 0 (df_stat x)) x);; mret 0
      else fail ENOTDIR
  | None =>
      o ← resolve pathname;
      match o with
      | None => mret (-1)
      | Some rpath =>
          '(con_file, _) ← find_con_file rpath;
          match con_file with
          | Some p => free_con_file p;; mret 0
          | None => mret 0
          end
      end
  end.

(** ** [mkdir] (with [FAKE_CWD]) *)
Definition mkdir (pathname : string) (mode : Z) : FS Z :=
  path ← concretize_string pathname;
  o ← resolve path;
  match o with
  | None => mret (-1)
  | Some rpath =>
      '(ret, _) ← lstat rpath;
      if (ret : Z) =? 0 then fail EEXIST
      else
        '(con_file, free_file) ← find_con_file rpath;
        (match con_file with
         | None =>
             p ← take_slot free_file;
             upd_con p (λ c, mkCon (cf_refcnt c) 512 0 PNull PNull (s32 (Z.lor mode S_IFDIR))
                               (one_name rpath) (-1) CON_STATE_INMEM)
         | Some _ => mret tt
         end);;
        set_errno 0;; mret 0
  end.

(** ** [unlink] *)
Definition unlink (pathname : string) : FS Z :=
  df ← get_sym_file pathname;
  match df with
  | Some d =>
      x ← dfile_at d;
      if S_ISREG (st_mode (df_stat x)) then
        upd_dfile d (λ x, set_df_stat (set_st_ino 0 (df_stat x)) x);; mret 0
      else if S_ISDIR (st_mode (df_stat x)) then fail EISDIR
      else fail EPERM
  | None =>
      path ← concretize_string pathname;
      o ← resolve path;
      match o with
      | None => mret (-1)
      | Some rpath =>
          '(con_file, _) ← find_con_file rpath;
          match con_file with
          | Some p => free_con_file p;; set_errno 0;; mret 0
          | None => set_errno 0;; mret (-1)
          end
      end
  end.

(** ** [link] *)
Definition link (oldpath newpath : string) : FS Z :=
  con_oldpath ← concretize_string oldpath;
  con_newpath ← concretize_string newpath;
  r ← access newpath F_OK;
  if r =? 0 then fail EEXIST
  else
    r ← access oldpath F_OK;
    if negb (r =? 0) then fail ENOENT
    else
      s1 ← get_sym_file con_oldpath;
      s2 ← match s1 with Some _ => mret s1 | None => get_sym_file con_newpath end;
      match s2 with
      | Some _ => fail EPERM
      | None =>
          o1 ← resolve con_oldpath;
          match o1 with
          | None => mret (-1)
          | Some full_old =>
              o2 ← resolve con_newpath;
              match o2 with
              | None => mret (-1)
              | Some full_new =>
                  '(con_file, free_file) ← find_con_file full_old;
                  match con_file with
                  | None =>
                      p ← take_slot free_file;
                      upd_con p (λ c, mkCon (cf_refcnt c) 0 0 PNull (cf_stat c) (cf_mode c)
                        (PTo (Some full_old :: Some full_new :: replicate (MAX_LINKS - 2) None))
                        (-1) CON_STATE_DIRECT);;
                      mret 0
                  | Some p =>
                      c ← con_at p;
                      match cf_name c with
                      | PTo l =>
                          r ← deref (add_name full_new l MAX_LINKS);
                          match r with
                          | Some l' => upd_con p (set_name (PTo l'));; mret 0
                          | None => fail EMLINK
                          end
                      | _ => halt MemoryError
                      end
                  end
              end
          end
      end.

(** ** [rename] *)
Definition rename (oldpath newpath : string) : FS Z :=
  con_oldpath ← concretize_string oldpath;
  con_newpath ← concretize_string newpath;
  o1 ← resolve con_oldpath;
  match o1 with
  | None => mret (-1)
  | Some full_old =>
      o2 ← resolve con_newpath;
      match o2 with
      | None => mret (-1)
      | Some full_new =>
          '(con_file, free_file) ← find_con_file full_old;
          match con_file with
          | Some p =>
              c ← con_at p;
              match cf_name c with
              | PTo l =>
                  l' ← deref (replace_name full_old full_new l MAX_LINKS);
                  upd_con p (set_name (PTo l'));; mret 0
              | _ => halt MemoryError
              end
          | None =>
              p ← take_slot free_file;
              fd ← sys (sys_open full_old O_RDONLY 438);
              if fd <? 0 then mret (-1)
              else
                r ← make_con_inmem fd p;
                if negb (r =? 0) then mret (-1)
                else
                  sys (sys_close fd);;
                  upd_con p (λ c, set_cfd (-1) (set_name (one_name full_new) c));;
                  mret 0
          end
      end
  end.

(** ** [__fd_getdents]

    The entries written to the buffer of [count] bytes, and the byte count
    returned.  Entry [k] is written at byte [280 * k]; a write past the buffer
    is a fault. *)
Fixpoint sym_dirents (count : Z) (n i : nat) (bytes : Z) : FS (list dirent64 * Z) :=
  match n with
  | O => mret ([], bytes)
  | S n' =>
      df ← dfile_at (SymFile i);
      if count <? bytes + 21 then halt MemoryError
      else
        '(l, b) ← sym_dirents count n' (S i) (bytes + SIZEOF_DIRENT64);
        mret (mkDirent (st_ino (df_stat df)) ((Z.of_nat i + 1) * SIZEOF_DIRENT64) SIZEOF_DIRENT64
                (IFTODT (st_mode (df_stat df)))
                (String (Ascii.ascii_of_nat (Z.to_nat (u8 (65 + Z.of_nat i)))) EmptyString) :: l, b)
  end.

Definition getdents_fake (i : nat) (f : exe_file_t) (count : Z) : FS (Z * list dirent64) :=
  n_sym ← gets (λ w, n_sym_files (exe_fs w));
  let k := u32 (f_off f / SIZEOF_DIRENT64) in
  if negb (k * SIZEOF_DIRENT64 =? f_off f) || (n_sym <? k) then r ← fail EINVAL; mret (r, [])
  else
    '(l, bytes) ← sym_dirents count (Z.to_nat (n_sym - k)) (Z.to_nat k) 0;
    if count <? bytes + 20 then halt MemoryError
    else
      let pad := if 4096 <=? count then 4096 else count in
      let reclen := u16 (u32 (pad - bytes)) in
      upd_fd i (set_off pad);;
      mret (s32 (u32 (bytes + reclen)), l ++ [mkDirent 0 4096 reclen DT_UNKNOWN EmptyString]).

Definition getdents_host (i : nat) (f : exe_file_t) (count : Z) : FS (Z * list dirent64) :=
  let os_pos := u32 (f_off f - 4096) in
  s ← sys (sys_lseek (f_fd f) (s32 os_pos) SEEK_SET);
  c_assert (negb (s32 s =? -1));;
  '(res, l) ← sys (sys_getdents64 (f_fd f) count);
  if (res : Z) =? -1 then r ← ret_sys res; mret (r, l)
  else
    pos ← sys (sys_lseek (f_fd f) 0 SEEK_CUR);
    upd_fd i (set_off (pos + 4096));;
    mret (res, patch_offsets 0 res l).

Definition fd_getdents (fd count : Z) : FS (Z * list dirent64) :=
  o ← get_file (s32 fd);
  match o with
  | None => r ← fail EBADF; mret (r, [])
  | Some i =>
      f ← fd_at i;
      if f_type f =? SYMBOLIC_FILE then r ← fail EINVAL; mret (r, [])
      else if u64 (f_off f) <? 4096 then getdents_fake i f count
      else getdents_host i f count
  end.

Definition getdents64 (fd count : Z) : FS (Z * list dirent64) := fd_getdents fd count.

End FsDir.
