(* ===== verification/FsCtl.v ===== *)
(** * Descriptor control: [ioctl], [fcntl] and [select] of [fd.c] *)
From S2P Require Import Prelude FsTypes FsCore.

Definition TCGETS : Z := 21505.
Definition TCSETS : Z := 21506.
Definition TCSETSW : Z := 21507.
Definition TCSETSF : Z := 21508.
Definition TIOCGWINSZ : Z := 21523.
Definition TIOCSWINSZ : Z := 21524.
Definition FIONREAD : Z := 21531.

Definition F_GETFD : Z := 1.
Definition F_SETFD : Z := 2.
Definition F_GETFL : Z := 3.
Definition F_SETFL : Z := 4.
Definition F_GETOWN : Z := 9.
Definition F_GETSIG : Z := 11.
Definition F_GETLEASE : Z := 1025.
Definition F_NOTIFY : Z := 1026.
Definition FD_CLOEXEC : Z := 1.

(** The terminal settings reported for a symbolic character device. *)
Definition tty_termios : ioctl_out :=
  IoTermios 27906 5 1215 35287 0
    [3; 28; 127; 21; 4; 0; 1; 255; 17; 19; 26; 255; 18; 15; 23; 22; 255; 0; 0].

(** [fd_set]: 16 words of 64 bits.  [1 << (n % NFDBITS)] is a shift of an
    [int]: it is defined for the bits below 32, and its bit 31 is the sign. *)
Abbreviation fdset := (list Z).
Definition NFDBITS : Z := 64.
Definition fd_zero : fdset := replicate 16 0.
Definition fd_mask (n : Z) : option Z :=
  let k := Z.rem n NFDBITS in
  if (0 <=? k) && (k <? 32) then Some (s32 (2 ^ k)) else None.

Section FsCtl.
Context `{Host}.

(** ** [ioctl] *)
Definition ioctl_sym (fd : Z) (f : exe_file_t) (request : Z) : FS (Z * ioctl_out) :=
  d ← as_dfile f;
  df ← dfile_at d;
  let chr := S_ISCHR (st_mode (df_stat df)) in
  let no_tty (out : ioctl_out) : FS (Z * ioctl_out) := r ← fail ENOTTY; mret (r, out) in
  let bad (out : ioctl_out) : FS (Z * ioctl_out) := r ← fail EINVAL; mret (r, out) in
  if request =? TCGETS then
    if chr then mret (0, tty_termios) else no_tty IoNone
  else if request =? TCSETS then
    if chr then mret (0, IoNone) else no_tty IoNone
  else if request =? TCSETSW then
    if fd =? 0 then mret (0, IoNone) else no_tty IoNone
  else if request =? TCSETSF then
    if chr then mret (0, IoNone) else no_tty IoNone
  else if request =? TIOCGWINSZ then
    if chr then mret (0, IoWinsize 24 80) else no_tty (IoWinsize 24 80)
  else if request =? TIOCSWINSZ then
    if chr then bad IoNone else no_tty IoNone
  else if request =? FIONREAD then
    if chr then
      mret (0, IoInt (if f_off f <? df_size df then s32 (df_size df - f_off f) else 0))
    else no_tty IoNone
  else bad IoNone.

Definition ioctl (fd request : Z) : FS (Z * ioctl_out) :=
  o ← get_file fd;
  match o with
  | None => r ← fail EBADF; mret (r, IoNone)
  | Some i =>
      f ← fd_at i;
      if f_type f =? SYMBOLIC_FILE then ioctl_sym fd f request
      else
        '(r, out) ← sys (sys_ioctl (f_fd f) request);
        r' ← ret_sys r; mret (r', out)
  end.

(** ** [fcntl] *)
Definition fcntl (fd cmd va : Z) : FS Z :=
  o ← get_file fd;
  match o with
  | None => fail EBADF
  | Some i =>
      let arg := if (cmd =? F_GETFD) || (cmd =? F_GETFL) || (cmd =? F_GETOWN) ||
                    (cmd =? F_GETSIG) || (cmd =? F_GETLEASE) || (cmd =? F_NOTIFY)
                 then 0 else u32 va in
      f ← fd_at i;
      if f_type f =? SYMBOLIC_FILE then
        if cmd =? F_GETFD then
          mret (if testflag (f_flags f) eCloseOnExec then FD_CLOEXEC else 0)
        else if cmd =? F_SETFD then
          upd_fd i (λ f,
            let fl := Z.land (f_flags f) (Z.lnot eCloseOnExec) in
            set_flags (if testflag arg FD_CLOEXEC then Z.lor fl eCloseOnExec else fl) f);;
          mret 0
        else if (cmd =? F_SETFL) || (cmd =? F_GETFL) then mret 0
        else fail EINVAL
      else r ← sys (sys_fcntl (f_fd f) cmd arg); ret_sys r
  end.

(** ** [select] *)
Definition FD_ISSET (n : Z) (p : fdset) : FS bool :=
  match fd_mask n with
  | None => halt Undefined
  | Some m => w ← deref (p !! Z.to_nat (n `quot` NFDBITS)); mret (negb (Z.land w m =? 0))
  end.
Definition FD_SET (n : Z) (p : fdset) : FS fdset :=
  match fd_mask n with
  | None => halt Undefined
  | Some m =>
      let k := Z.to_nat (n `quot` NFDBITS) in
      w ← deref (p !! k); mret (<[k := Z.lor w m]> p)
  end.

(** [if (FD_ISSET(i, in)) FD_SET(j, out)] *)
Definition copy_bit (i : Z) (inn : fdset) (j : Z) (out : fdset) : FS fdset :=
  b ← FD_ISSET i inn; if (b : bool) then FD_SET j out else mret out.

(** What the first loop builds: the answer for the symbolic descriptors, the
    sets for the host, the count and [os_nfds]. *)
Record sel : Type := mkSel {
  sl_read : fdset; sl_write : fdset; sl_except : fdset;
  sl_os_read : fdset; sl_os_write : fdset; sl_os_except : fdset;
  sl_count : Z; sl_os_nfds : Z }.

(** The first loop from descriptor [i] on; [false]: it met a closed descriptor. *)
Fixpoint select_scan (n : nat) (i : Z) (in_read in_write in_except : fdset) (s : sel)
    : FS (bool * sel) :=
  match n with
  | O => mret (true, s)
  | S n' =>
      b1 ← FD_ISSET i in_read;
      b2 ← (if (b1 : bool) then mret true else FD_ISSET i in_write);
      b3 ← (if (b2 : bool) then mret true else FD_ISSET i in_except);
      if negb b3 then select_scan n' (i + 1) in_read in_write in_except s
      else
        o ← get_file i;
        match o with
        | None => mret (false, s)
        | Some k =>
            f ← fd_at k;
            s' ← (if f_type f =? SYMBOLIC_FILE then
                    r ← copy_bit i in_read i (sl_read s);
                    w ← copy_bit i in_write i (sl_write s);
                    e ← copy_bit i in_except i (sl_except s);
                    mret (mkSel r w e (sl_os_read s) (sl_os_write s) (sl_os_except s)
                            (sl_count s + 1) (sl_os_nfds s))
                  else
                    r ← copy_bit i in_read (f_fd f) (sl_os_read s);
                    w ← copy_bit i in_write (f_fd f) (sl_os_write s);
                    e ← copy_bit i in_except (f_fd f) (sl_os_except s);
                    mret (mkSel (sl_read s) (sl_write s) (sl_except s) r w e (sl_count s)
                            (if sl_os_nfds s <=? f_fd f then f_fd f + 1 else sl_os_nfds s)));
            select_scan n' (i + 1) in_read in_write in_except s'
        end
  end.

(** The second loop: [if (f && !f->dfile)], on the union of the two pointers. *)
Fixpoint select_back (n : nat) (i : Z) (has_r has_w has_e : bool)
    (os_read os_write os_except : fdset) (out : fdset * fdset * fdset) : FS (fdset * fdset * fdset) :=
  match n with
  | O => mret out
  | S n' =>
      o ← get_file i;
      out' ← match o with
             | None => mret out
             | Some k =>
                 f ← fd_at k;
                 match f_file f with
                 | FNull =>
                     let '(r, w, e) := out in
                     r' ← (if has_r then copy_bit (f_fd f) os_read i r else mret r);
                     w' ← (if has_w then copy_bit (f_fd f) os_write i w else mret w);
                     e' ← (if has_e then copy_bit (f_fd f) os_except i e else mret e);
                     mret (r', w', e')
                 | _ => mret out
                 end
             end;
      select_back n' (i + 1) has_r has_w has_e os_read os_write os_except out'
  end.

Definition fdset_or_zero (p : option fdset) : fdset := match p with Some s => s | None => fd_zero end.
Definition is_set (p : option fdset) : bool := match p with Some _ => true | None => false end.

(** The result and the three sets the caller's pointers end up with. *)
Definition select (nfds : Z) (read write except : option fdset) : FS (Z * (fdset * fdset * fdset)) :=
  let n := Z.to_nat nfds in
  let s0 := mkSel fd_zero fd_zero fd_zero fd_zero fd_zero fd_zero 0 0 in
  '(ok, s) ← select_scan n 0 (fdset_or_zero read) (fdset_or_zero write) (fdset_or_zero except) s0;
  let out := (sl_read s, sl_write s, sl_except s) in
  if negb ok then r ← fail EBADF; mret (r, out)
  else if 0 <? sl_os_nfds s then
    '(r, (os_r, os_w, os_e)) ←
      sys (sys_select (sl_os_nfds s) (sl_os_read s) (sl_os_write s) (sl_os_except s));
    if (r : Z) =? -1 then
      if sl_count s =? 0 then r' ← ret_sys (-1); mret (r', out)
      else mret (sl_count s, out)
    else
      out' ← select_back n 0 (is_set read) (is_set write) (is_set except) os_r os_w os_e out;
      mret (sl_count s + r, out')
  else mret (sl_count s, out).

End FsCtl.
