(* ===== verification/FsInit.v ===== *)
(** * Start-up

    The intrinsics of [src/klee/runtime/Intrinsic] that choose values
    ([klee_int], [klee_range], [klee_div_zero_check]) and [klee-choose.c]; the
    static state and [klee_init_fds] of [fd_init.c]; the option parser
    [klee_init_env] of [klee_init_env.c]. *)
From S2P Require Import Prelude FsTypes FsCore FsPath FsMeta.

(** Little-endian decoding of an object's bytes. *)
Fixpoint le_bytes (l : list Z) : Z :=
  match l with [] => 0 | b :: l' => b + 256 * le_bytes l' end.

(** The descriptor table as the program starts. *)
Definition static_fds : list exe_file_t :=
  [ mkFile 0 (Z.lor eOpen eReadable) 0 FNull CONCRETE_FILE;
    mkFile 1 (Z.lor eOpen eWriteable) 0 FNull CONCRETE_FILE;
    mkFile 2 (Z.lor eOpen eWriteable) 0 FNull CONCRETE_FILE ] ++ replicate 29 zero_file.
Definition static_env : exe_sym_env_t := mkEnv static_fds 18 0 0 0 0 0.
Definition static_fs : exe_file_system_t :=
  mkFs 0 0 None None 0 [] 0 [] 0 0 None None None None None None None None.

(** A character of a name, ['A' + k] or ['0' + k]. *)
Definition letter (base k : Z) : string := String (Ascii.ascii_of_nat (Z.to_nat (u8 (base + k)))) EmptyString.

(** The arguments after [klee_init_env]: copied, or symbolic (the bytes before
    the terminating NUL the function writes). *)
Inductive arg : Type :=
| ArgStr (s : string)
| ArgSym (bytes : list Z).

(** The options [klee_init_env] collects, with the arguments so far. *)
Record options : Type := mkOpts {
  o_args : list arg;
  o_sym_arg_num : Z;
  o_sym_files : Z; o_sym_file_len : Z;
  o_sym_stdout : Z; o_save_all_writes : Z;
  o_fd_fail : Z; o_malloc_fail : Z;
  o_etc_symbolic : Z; o_symbolic_size : Z; o_sym_specific : Z }.
Definition default_options : options := mkOpts [] 0 0 0 0 0 0 0 0 32 1.

Definition MAX_ARGS : nat := 1024.

(** [__streq(a, "--x") || __streq(a, "-x")] *)
Definition is_opt (a x : string) : bool :=
  bool_decide (a = ("--" +:+ x)) || bool_decide (a = ("-" +:+ x)).

Section FsInit.
Context `{Host}.

Definition initial_world (h : hst) : world :=
  mkWorld _ static_fs static_env 0 None 0 (mkCalls 0 0 0 0 0 0 0) h.

(** ** Intrinsics *)
Definition sym_int (name : string) : FS Z := l ← klee_make_symbolic name 4; mret (s32 (le_bytes l)).
Definition sym_uint32 (name : string) : FS Z := l ← klee_make_symbolic name 4; mret (u32 (le_bytes l)).

Definition klee_int (name : string) : FS Z := sym_int name.

Definition klee_div_zero_check (z : Z) : FS unit :=
  if z =? 0 then halt (KleeReport "divide by zero") else mret tt.

Definition klee_range (start end_ : Z) (name : string) : FS Z :=
  if end_ <=? start then halt (KleeReport "invalid range")
  else if s32 (start + 1) =? end_ then mret start
  else
    x ← sym_int name;
    (if start =? 0 then klee_assume (u32 x <? u32 end_)
     else klee_assume (start <=? x);; klee_assume (x <? end_));;
    mret x.

Definition klee_choose (n : Z) : FS Z :=
  l ← klee_make_symbolic "klee_choose" 8;
  let x := u64 (le_bytes l) in
  if n <=? x then halt (ExitWith 0) else mret x.

(** ** [__create_new_dfile] *)
Definition create_new_dfile (size : Z) (name : string) (defaults : stat64) : FS exe_disk_file_t :=
  c_assert (negb (size =? 0));;
  contents ← klee_make_symbolic name (Z.to_nat size);
  s ← sys (sym_stat (name +:+ "-stat"));
  let s := if negb klee_is_symbolic_ && (Z.land (st_ino s) 2147483647 =? 0)
           then set_st_ino (st_ino defaults) s else s in
  klee_assume (negb (Z.land (st_ino s) 2147483647 =? 0));;
  klee_assume (Z.land (st_blksize s) (Z.lnot 65535) =? 0);;
  klee_assume (st_blksize s <=? 32768);;
  mret (mkDisk size contents (set_st_size_blocks size 8 s)).

(** ** [setup_std_fd] *)
Definition setup_std_fd (std_fd int_fd : nat) (path : string) (flag : Z) : FS unit :=
  base ← gets (λ w, con_base (exe_fs w));
  let p := mkConPtr base int_fd in
  upd_fd std_fd (set_file (FDcfile p));;
  fd ← sys (klee_sys_open path flag 0);
  upd_con p (λ c, mkCon 1 0 (cf_buf_size c) PNull PNull (cf_mode c)
    (PTo (Some path :: replicate (MAX_LINKS - 1) None)) fd CON_STATE_STD).

(** ** [klee_init_fds] *)
Fixpoint create_files (n k : nat) (len : Z) (defaults : stat64) : FS (list exe_disk_file_t) :=
  match n with
  | O => mret []
  | S n' =>
      d ← create_new_dfile len (letter 65 (Z.of_nat k) +:+ "-data") defaults;
      l ← create_files n' (S k) len defaults;
      mret (d :: l)
  end.

(** The symbolic numbers of the calls that fail. *)
Definition set_failures (n : Z) : FS unit :=
  if n =? 0 then modify (upd_fs (set_max_failures n))
  else
    r ← sym_int "read_fail"; w ← sym_int "write_fail"; c ← sym_int "close_fail";
    t ← sym_int "ftruncate_fail"; g ← sym_int "getcwd_fail";
    modify (upd_fs (λ s, mkFs (n_sym_files s) (n_con_files s) (sym_stdin s) (sym_stdout s)
      (stdout_writes s) (sym_files s) (con_base s) (con_files s) n (max_malloc_fail s)
      (Some r) (Some w) (Some c) (Some t) (Some g) (chmod_fail s) (fchmod_fail s) (malloc_fail s))).
Definition set_malloc_failures (n : Z) : FS unit :=
  m ← (if n =? 0 then gets (λ w, malloc_fail (exe_fs w)) else k ← sym_int "malloc_fail"; mret (Some k));
  modify (upd_fs (λ s, mkFs (n_sym_files s) (n_con_files s) (sym_stdin s) (sym_stdout s)
    (stdout_writes s) (sym_files s) (con_base s) (con_files s) (max_failures s) n
    (read_fail s) (write_fail s) (close_fail s) (ftruncate_fail s) (getcwd_fail s)
    (chmod_fail s) (fchmod_fail s) m)).

(** The symbolic files and the array of records. *)
Definition init_tables (n_files : nat) (file_length : Z) (st : stat64) : FS unit :=
  files ← create_files n_files 0 file_length st;
  modify (upd_fs (λ s, mkFs (Z.of_nat n_files) (Z.of_nat INITIAL_CON_FILES) (sym_stdin s)
    (sym_stdout s) (stdout_writes s) files (S (con_base s)) (replicate INITIAL_CON_FILES fresh_con)
    (max_failures s) (max_malloc_fail s) (read_fail s) (write_fail s) (close_fail s)
    (ftruncate_fail s) (getcwd_fail s) (chmod_fail s) (fchmod_fail s) (malloc_fail s))).

Definition init_stdin (file_length : Z) (st : stat64) : FS unit :=
  if negb (file_length =? 0) then
    d ← create_new_dfile file_length "stdin" st;
    modify (upd_fs (λ s, set_std (Some d) (sym_stdout s) s));;
    upd_fd 0 (λ f, set_type SYMBOLIC_FILE (set_file (FDfile SymStdin) f))
  else
    setup_std_fd 0 0 "/dev/stdin" O_RDONLY;;
    modify (upd_fs (λ s, set_std None (sym_stdout s) s)).

Definition init_stdout (sym_stdout_flag : Z) (st : stat64) : FS unit :=
  if negb (sym_stdout_flag =? 0) then
    d ← create_new_dfile 1024 "stdout" st;
    modify (upd_fs (λ s, set_stdout_writes 0 (set_std (sym_stdin s) (Some d) s)));;
    upd_fd 1 (λ f, set_type SYMBOLIC_FILE (set_file (FDfile SymStdout) f))
  else
    setup_std_fd 1 1 "/dev/stdout" O_WRONLY;;
    modify (upd_fs (λ s, set_std (sym_stdin s) None s)).

Definition klee_init_fds (n_files : nat) (file_length sym_stdout_flag save_all_writes_flag
    max_failures max_malloc_fail etc_symbolic symbolic_size sym_specific : Z) : FS unit :=
  '(_, st) ← stat ".";
  init_tables n_files file_length st;;
  init_stdin file_length st;;
  set_failures max_failures;;
  set_malloc_failures max_malloc_fail;;
  init_stdout sym_stdout_flag st;;
  setup_std_fd 2 2 "/dev/stderr" O_WRONLY;;
  v ← sym_uint32 "model_version";
  modify (upd_env (λ e, mkEnv (fds e) (env_umask e) v save_all_writes_flag etc_symbolic
    sym_specific symbolic_size));;
  klee_assume (v =? 1).

(** ** [klee_init_env] *)
Definition emit_error {A} (msg : string) : FS A := halt (KleeReport msg).

Fixpoint str_to_int_loop (l : list ascii) (res : Z) (msg : string) : FS Z :=
  match l with
  | [] => mret res
  | c :: l' =>
      let v := s8 (Z.of_nat (Ascii.nat_of_ascii c)) in
      if v =? 0 then mret res
      else if (48 <=? v) && (v <=? 57) then str_to_int_loop l' (s64 (res * 10 + (v - 48))) msg
      else emit_error msg
  end.
Definition str_to_int (s msg : string) : FS Z :=
  if char_at s 0 =? 0 then emit_error msg
  else str_to_int_loop (chars s) 0 msg.

Definition get_sym_str (num : Z) (name : string) : FS (list Z) :=
  l ← klee_make_symbolic name (Z.to_nat (num + 1)); mret (take (Z.to_nat num) l).

Definition add_arg (a : arg) (o : options) : FS options :=
  if (length (o_args o) =? MAX_ARGS)%nat then emit_error "too many arguments for klee_init_env"
  else mret (mkOpts (o_args o ++ [a]) (o_sym_arg_num o) (o_sym_files o) (o_sym_file_len o)
    (o_sym_stdout o) (o_save_all_writes o) (o_fd_fail o) (o_malloc_fail o) (o_etc_symbolic o)
    (o_symbolic_size o) (o_sym_specific o)).

Definition add_sym_arg (max_len : Z) (o : options) : FS options :=
  bytes ← get_sym_str (s32 max_len) ("arg" +:+ letter 48 (o_sym_arg_num o));
  add_arg (ArgSym bytes) (mkOpts (o_args o) (u32 (o_sym_arg_num o + 1)) (o_sym_files o)
    (o_sym_file_len o) (o_sym_stdout o) (o_save_all_writes o) (o_fd_fail o) (o_malloc_fail o)
    (o_etc_symbolic o) (o_symbolic_size o) (o_sym_specific o)).
Fixpoint add_sym_args (n : nat) (max_len : Z) (o : options) : FS options :=
  match n with O => mret o | S n' => o' ← add_sym_arg max_len o; add_sym_args n' max_len o' end.

Definition msg_sym_arg : string := "--sym-arg expects an integer argument <max-len>".
Definition msg_sym_args : string :=
  "--sym-args expects three integer arguments <min-argvs> <max-argvs> <max-len>".
Definition msg_sym_files : string :=
  "--sym-files expects two integer arguments <no-sym-files> <sym-file-len>".
Definition msg_max_fail : string := "--max-fail expects an integer argument <max-failures>".
Definition msg_symbolic_size : string :=
  "--symbolic-size expects one integer argument <symbolic file size>".

Fixpoint parse_args (argv : list string) (o : options) : FS options :=
  match argv with
  | [] => mret o
  | a :: rest =>
      if is_opt a "sym-arg" then
        match rest with
        | [] => emit_error msg_sym_arg
        | x :: rest' => n ← str_to_int x msg_sym_arg; o' ← add_sym_arg (u32 n) o; parse_args rest' o'
        end
      else if is_opt a "sym-args" then
        match rest with
        | x :: y :: z :: rest' =>
            lo ← str_to_int x msg_sym_args;
            hi ← str_to_int y msg_sym_args;
            n ← str_to_int z msg_sym_args;
            k ← klee_range (s32 lo) (s32 (u32 (u32 hi + 1))) "n_args";
            o' ← add_sym_args (Z.to_nat k) (u32 n) o;
            parse_args rest' o'
        | _ => emit_error msg_sym_args
        end
      else if is_opt a "sym-files" then
        match rest with
        | x :: y :: rest' =>
            n ← str_to_int x msg_sym_files;
            len ← str_to_int y msg_sym_files;
            parse_args rest' (mkOpts (o_args o) (o_sym_arg_num o) (u32 n) (u32 len) (o_sym_stdout o)
              (o_save_all_writes o) (o_fd_fail o) (o_malloc_fail o) (o_etc_symbolic o)
              (o_symbolic_size o) (o_sym_specific o))
        | _ => emit_error msg_sym_files
        end
      else if is_opt a "sym-stdout" then
        parse_args rest (mkOpts (o_args o) (o_sym_arg_num o) (o_sym_files o) (o_sym_file_len o) 1
          (o_save_all_writes o) (o_fd_fail o) (o_malloc_fail o) (o_etc_symbolic o)
          (o_symbolic_size o) (o_sym_specific o))
      else if is_opt a "save-all-writes" then
        parse_args rest (mkOpts (o_args o) (o_sym_arg_num o) (o_sym_files o) (o_sym_file_len o)
          (o_sym_stdout o) 1 (o_fd_fail o) (o_malloc_fail o) (o_etc_symbolic o)
          (o_symbolic_size o) (o_sym_specific o))
      else if is_opt a "malloc-fail" then
        parse_args rest (mkOpts (o_args o) (o_sym_arg_num o) (o_sym_files o) (o_sym_file_len o)
          (o_sym_stdout o) (o_save_all_writes o) (o_fd_fail o) 1 (o_etc_symbolic o)
          (o_symbolic_size o) (o_sym_specific o))
      else if is_opt a "fd-fail" then
        parse_args rest (mkOpts (o_args o) (o_sym_arg_num o) (o_sym_files o) (o_sym_file_len o)
          (o_sym_stdout o) (o_save_all_writes o) 1 (o_malloc_fail o) (o_etc_symbolic o)
          (o_symbolic_size o) (o_sym_specific o))
      else if is_opt a "max-fail" then
        match rest with
        | [] => emit_error msg_max_fail
        | x :: rest' =>
            n ← str_to_int x msg_max_fail;
            parse_args rest' (mkOpts (o_args o) (o_sym_arg_num o) (o_sym_files o) (o_sym_file_len o)
              (o_sym_stdout o) (o_save_all_writes o) (s32 n) (o_malloc_fail o) (o_etc_symbolic o)
              (o_symbolic_size o) (o_sym_specific o))
        end
      else if is_opt a "make-etc-symbolic" then
        parse_args rest (mkOpts (o_args o) (o_sym_arg_num o) (o_sym_files o) (o_sym_file_len o)
          (o_sym_stdout o) (o_save_all_writes o) (o_fd_fail o) (o_malloc_fail o) 1
          (o_symbolic_size o) (o_sym_specific o))
      else if is_opt a "disable-sym-filter" then
        parse_args rest (mkOpts (o_args o) (o_sym_arg_num o) (o_sym_files o) (o_sym_file_len o)
          (o_sym_stdout o) (o_save_all_writes o) (o_fd_fail o) (o_malloc_fail o) (o_etc_symbolic o)
          (o_symbolic_size o) 0)
      else if is_opt a "symbolic-size" then
        match rest with
        | [] => emit_error msg_symbolic_size
        | x :: rest' =>
            n ← str_to_int x msg_symbolic_size;
            parse_args rest' (mkOpts (o_args o) (o_sym_arg_num o) (o_sym_files o) (o_sym_file_len o)
              (o_sym_stdout o) (o_save_all_writes o) (o_fd_fail o) (o_malloc_fail o)
              (o_etc_symbolic o) (s32 n) (o_sym_specific o))
        end
      else o' ← add_arg (ArgStr a) o; parse_args rest o'
  end.

Definition klee_init_env (argv : list string) : FS (list arg) :=
  if (length argv =? 2)%nat && bool_decide (argv !! 1%nat = Some "--help") then emit_error "klee_init_env"
  else
    o ← parse_args argv default_options;
    klee_init_fds (Z.to_nat (o_sym_files o)) (o_sym_file_len o) (o_sym_stdout o)
      (o_save_all_writes o) (u32 (o_fd_fail o)) (u32 (o_malloc_fail o)) (o_etc_symbolic o)
      (o_symbolic_size o) (o_sym_specific o);;
    mret (o_args o).

End FsInit.
