(* ===== verification/HostModel.v ===== *)
(** * A small host

    An instance of [Host] for concrete runs: a flat set of regular files and
    directories, descriptors numbered from 3, and symbolic inputs that are all
    zero except where the runtime assumes otherwise.  It serves the witnesses;
    no general theorem depends on it. *)
From S2P Require Import Prelude FsTypes FsCore.

Record thost : Type := mkHost {
  th_files : list (string * list Z);
  th_dirs : list string;
  th_open : list (Z * string);
  th_next : Z;
  th_cwd : string;
  th_pipe : bool;
  th_errno : Z }.

Definition th_err (e : Z) (h : thost) : thost :=
  mkHost (th_files h) (th_dirs h) (th_open h) (th_next h) (th_cwd h) (th_pipe h) e.
Definition th_fail {A} (e : Z) (a : A) (h : thost) : A * thost := (a, th_err e h).

Fixpoint assoc {K V} `{EqDecision K} (k : K) (l : list (K * V)) : option V :=
  match l with
  | [] => None
  | (k', v) :: l' => if bool_decide (k = k') then Some v else assoc k l'
  end.

Definition th_is_dir (p : string) (h : thost) : bool := bool_decide (p ∈ th_dirs h).
Definition th_file (p : string) (h : thost) : option (list Z) := assoc p (th_files h).
Definition th_fd (fd : Z) (h : thost) : option (list Z) := assoc fd (th_open h) ≫= λ p, th_file p h.

Definition th_stat (p : string) (h : thost) : (Z * stat64) * thost :=
  match th_file p h with
  | Some c => ((0, mkStat64 1 7 (S_IFREG + 420) 1 1000 1000 0 (Z.of_nat (length c)) 4096 8 0 0 0), h)
  | None =>
      if th_is_dir p h then ((0, mkStat64 1 2 (S_IFDIR + 493) 2 1000 1000 0 4096 4096 8 0 0 0), h)
      else th_fail ENOENT (-1, zero_stat) h
  end.

#[export] Instance small_host : Host := {|
  hst := thost;
  klee_get_errno_ := th_errno;
  sys_open := λ p _ _ h,
    match th_file p h with
    | Some _ => (th_next h, mkHost (th_files h) (th_dirs h) ((th_next h, p) :: th_open h)
                              (th_next h + 1) (th_cwd h) (th_pipe h) (th_errno h))
    | None => th_fail ENOENT (-1) h
    end;
  sys_close := λ _ h, (0, h);
  klee_sys_open := λ p _ _ h,
    match th_file p h with
    | Some _ => (th_next h, mkHost (th_files h) (th_dirs h) ((th_next h, p) :: th_open h)
                              (th_next h + 1) (th_cwd h) (th_pipe h) (th_errno h))
    | None => th_fail ENOENT (-1) h
    end;
  klee_sys_close := λ _ h, (0, h);
  sys_read := λ _ _ h, ((0, []), h);
  sys_pread64 := λ fd n off h,
    match th_fd fd h with
    | Some c => let b := take (Z.to_nat n) (drop (Z.to_nat off) c) in ((Z.of_nat (length b), b), h)
    | None => th_fail EBADF (-1, []) h
    end;
  sys_write := λ _ b h, (Z.of_nat (length b), h);
  sys_lseek := λ fd off whence h,
    match th_fd fd h with
    | Some c =>
        if th_pipe h then th_fail 29 (-1) h
        else (if whence =? SEEK_END then Z.of_nat (length c) + off else off, h)
    | None => th_fail EBADF (-1) h
    end;
  sys_access := λ p _ h,
    if bool_decide (is_Some (th_file p h)) || th_is_dir p h then (0, h) else th_fail ENOENT (-1) h;
  sys_stat := th_stat;
  sys_lstat := th_stat;
  sys_fstat := λ fd h,
    match assoc fd (th_open h) with
    | Some p => th_stat p h
    | None => th_fail EBADF (-1, zero_stat) h
    end;
  sys_chmod := λ _ _ h, (0, h);
  sys_fchmod := λ _ _ h, (0, h);
  sys_chown := λ _ _ _ h, (0, h);
  sys_fchown := λ _ _ _ h, (0, h);
  sys_getdents64 := λ _ _ h, ((0, []), h);
  sys_ioctl := λ _ _ h, th_fail ENOTTY (-1, IoNone) h;
  sys_fcntl := λ _ _ _ h, (0, h);
  sys_statfs := λ _ h, (0, h);
  sys_fstatfs := λ _ h, (0, h);
  sys_readlink := λ p _ h,
    if bool_decide (is_Some (th_file p h)) || th_is_dir p h then th_fail EINVAL (-1, EmptyString) h
    else th_fail ENOENT (-1, EmptyString) h;
  sys_select := λ _ r w e h, ((1, (r, w, e)), h);
  sys_getcwd := λ _ h, ((strlen (th_cwd h) + 1, th_cwd h), h);
  sys_gettimeofday := λ h, ((1000, 5), h);
  host_malloc := λ _ h, (true, h);
  uninit := 171;
  host_getuid := λ _, 1000;
  host_getgid := λ _, 1000;
  host_geteuid := λ _, 1000;
  host_getegid := λ _, 1000;
  klee_is_symbolic_ := true;
  sym_input := λ name h,
    (λ i, if bool_decide (name = "model_version") then (if (i =? 0)%nat then 1 else 0)
          else if bool_decide (name = "read_fail") then (if (i =? 0)%nat then 2 else 0)
          else if bool_decide (name = "close_fail") then (if (i =? 0)%nat then 2 else 0)
          else Z.of_nat i + 65, h);
  sym_stat := λ _ h, (mkStat64 1 5 (S_IFREG + 420) 1 1000 1000 0 0 4096 0 0 0 0, h) |}.

(** Two regular files and their directories. *)
Definition demo_host : thost :=
  mkHost [("/w/in.txt", [104; 101; 108; 108; 111]); ("/etc/passwd", [114; 58])]
    ["/"; "/w"; "/etc"] [] 3 "/w" false 0.
