(* ===== verification/FsFrame.v ===== *)
(** * Operations that leave the tables alone

    Lookups, path resolution and the queries change errno, the working
    directory, the call counters, the host and the count of injected failures
    left, and nothing else.  [read_only] says so once for each of them; every
    property of the tables ([TableProp]) is then kept by all of them. *)
From S2P Require Import Prelude FsTypes FsCore FsPath FsOpen FsIO FsMeta FsDir FsCtl.

Section Frame.
Context `{Host}.
Implicit Types w : world.

(** The same tables, up to the number of failures left to inject. *)
Definition same_tables w w' : Prop :=
  set_max_failures 0 (exe_fs w) = set_max_failures 0 (exe_fs w') ∧ exe_env w = exe_env w'.

#[global] Instance same_tables_equiv : Equivalence same_tables.
Proof.
  split; [by intros w|by intros w w' [E1 E2]; split|].
  intros w1 w2 w3 [E1 E2] [E3 E4]. split; congruence.
Qed.

Class TableProp (I : world → Prop) : Prop :=
  table_prop w w' : same_tables w w' → I w → I w'.

#[global] Instance same_tables_prop w0 : TableProp (same_tables w0).
Proof. intros w w' E Hw. by transitivity w. Qed.

#[global] Instance table_prop_and (I J : world → Prop) :
  TableProp I → TableProp J → TableProp (λ w, I w ∧ J w).
Proof. intros HI HJ w w' E [? ?]. split; [by apply (HI w)|by apply (HJ w)]. Qed.

Record read_only {A} (m : FS A) : Prop := mkReadOnly {
  read_only_tables : ∀ w0, preserves (same_tables w0) m }.

Lemma read_only_preserves (I : world → Prop) {A} (m : FS A) :
  TableProp I → read_only m → preserves I m.
Proof.
  intros HI [Hm] w Hw. eapply wlp_mono; [by apply (Hm w)|].
  intros a w' E. by apply (HI w).
Qed.

Lemma read_only_modify f :
  (∀ w, same_tables w (f w)) → read_only (modify f).
Proof. intros Hf. constructor. intros w0. apply preserves_modify. intros w E. by rewrite E. Qed.
Lemma read_only_sys {A} (f : hst → A * hst) : read_only (sys f).
Proof. constructor. intros w0 w Hw. unfold wlp, sys. by destruct (f (host w)). Qed.
Lemma read_only_set_errno e : read_only (set_errno e).
Proof. by apply read_only_modify. Qed.
Lemma read_only_cwd p n : read_only (modify (upd_cwd p n)).
Proof. by apply read_only_modify. Qed.
Lemma read_only_calls f : read_only (modify (upd_calls f)).
Proof. by apply read_only_modify. Qed.
Lemma read_only_max_failures n : read_only (modify (upd_fs (set_max_failures n))).
Proof. by apply read_only_modify. Qed.
Lemma read_only_errno : read_only klee_get_errno.
Proof. constructor. intros w0. apply preserves_gets. Qed.
End Frame.

#[export] Hint Resolve read_only_sys read_only_set_errno read_only_cwd read_only_calls
  read_only_max_failures read_only_errno : preserve.
#[export] Hint Extern 3 (preserves _ _) =>
  (apply read_only_preserves; [typeclasses eauto|solve [eauto 2 with preserve nocore]]) : preserve.

Ltac reading := constructor; intros ?; preserving.

Section ReadOnly.
Context `{Host}.

(** ** Helpers *)
Lemma read_only_fail e : read_only (fail e).
Proof. unfold fail. reading. Qed.
Lemma read_only_ret_sys r : read_only (ret_sys r).
Proof. unfold ret_sys. reading. Qed.
Lemma read_only_make_symbolic name n : read_only (klee_make_symbolic name n).
Proof. unfold klee_make_symbolic. reading. Qed.
Lemma read_only_assume b : read_only (klee_assume b).
Proof. unfold klee_assume. reading. Qed.
Lemma read_only_fd_at i : read_only (fd_at i).
Proof. unfold fd_at. reading. Qed.
Lemma read_only_con_at p : read_only (con_at p).
Proof. unfold con_at. reading. Qed.
Lemma read_only_dfile_at d : read_only (dfile_at d).
Proof. unfold dfile_at. reading. Qed.
Lemma read_only_as_dfile f : read_only (as_dfile f).
Proof. unfold as_dfile. reading. Qed.
Lemma read_only_as_dcfile f : read_only (as_dcfile f).
Proof. unfold as_dcfile. reading. Qed.
Lemma read_only_free_ptr {A} (p : ptr A) : read_only (free_ptr p).
Proof. unfold free_ptr. reading. Qed.
Hint Resolve read_only_fail read_only_ret_sys read_only_make_symbolic read_only_assume
  read_only_fd_at read_only_con_at read_only_dfile_at read_only_as_dfile read_only_as_dcfile
  read_only_free_ptr : preserve.

(** ** Lookups *)
Lemma read_only_get_sym_file_from c n i : read_only (get_sym_file_from c n i).
Proof. revert i. induction n as [|n IH]; intros i; simpl; reading. Qed.
Hint Resolve read_only_get_sym_file_from : preserve.
Lemma read_only_get_sym_file p : read_only (get_sym_file p).
Proof. unfold get_sym_file. reading. Qed.
Lemma read_only_get_file fd : read_only (get_file fd).
Proof. unfold get_file. reading. Qed.
Lemma read_only_find_con_file p : read_only (find_con_file p).
Proof. unfold find_con_file. reading. Qed.
Lemma read_only_concretize s : read_only (concretize_string s).
Proof. unfold concretize_string. reading. Qed.
Lemma read_only_inject p n : read_only (inject p n).
Proof. unfold inject. reading. Qed.
Lemma read_only_load_ptr p off n : read_only (load_ptr p off n).
Proof. unfold load_ptr. reading. Qed.
Lemma read_only_store_ptr p off b : read_only (store_ptr p off b).
Proof. unfold store_ptr. reading. Qed.
Lemma read_only_check_memory b n : read_only (check_memory_access b n).
Proof. unfold check_memory_access. reading. Qed.
Hint Resolve read_only_get_sym_file read_only_get_file read_only_find_con_file
  read_only_concretize read_only_inject read_only_load_ptr read_only_store_ptr
  read_only_check_memory : preserve.
Lemma read_only_count_read : read_only count_read.
Proof. unfold count_read. reading. Qed.
Lemma read_only_count_write : read_only count_write.
Proof. unfold count_write. reading. Qed.
Lemma read_only_count_ftruncate : read_only count_ftruncate.
Proof. unfold count_ftruncate. reading. Qed.

(** ** Paths *)
Lemma read_only_get_current_path n : read_only (get_current_path n).
Proof. unfold get_current_path. reading. Qed.
Hint Resolve read_only_get_current_path : preserve.
Lemma read_only_getcwd b n : read_only (getcwd b n).
Proof. unfold getcwd. reading. Qed.
Lemma read_only_get_realpath p : read_only (get_realpath p).
Proof. unfold get_realpath. reading. Qed.
Hint Resolve read_only_getcwd read_only_get_realpath : preserve.
Lemma read_only_chdir p : read_only (chdir p).
Proof. unfold chdir. reading. Qed.
Lemma read_only_fchdir fd : read_only (fchdir fd).
Proof. unfold fchdir. reading. Qed.
Lemma read_only_chroot p : read_only (chroot p).
Proof. unfold chroot. reading. Qed.
Lemma read_only_readlink p n : read_only (readlink p n).
Proof. unfold readlink. reading. Qed.
Lemma read_only_push c got : read_only (push c got).
Proof. unfold push. reading. Qed.
Hint Resolve read_only_readlink read_only_push : preserve.
Lemma read_only_copy_component len path got : read_only (copy_component len path got).
Proof. revert got. induction path as [|c path IH]; intros got; simpl; reading. Qed.
Lemma read_only_copy_out cap got : read_only (copy_out cap got).
Proof. unfold copy_out. reading. Qed.
Hint Resolve read_only_copy_component read_only_copy_out : preserve.
Lemma read_only_realpath_loop fuel rl cap len path got :
  read_only (realpath_loop fuel rl cap len path got).
Proof. revert rl len path got. induction fuel as [|fuel IH]; intros; simpl; reading. Qed.
Hint Resolve read_only_realpath_loop : preserve.
Lemma read_only_realpath p cap : read_only (realpath p cap).
Proof. unfold realpath. reading. Qed.
Lemma read_only_written o : read_only (written o).
Proof. unfold written. reading. Qed.
Hint Resolve read_only_realpath read_only_written : preserve.
Lemma read_only_resolve p : read_only (resolve p).
Proof. unfold resolve. reading. Qed.
Hint Resolve read_only_resolve : preserve.
Lemma read_only_access p m : read_only (access p m).
Proof. unfold access. reading. Qed.

(** ** Queries *)
Lemma read_only_patch_stat c r b : read_only (patch_stat c r b).
Proof. unfold patch_stat. reading. Qed.
Lemma read_only_host_stat f : read_only (host_stat f).
Proof. unfold host_stat. reading. Qed.
Hint Resolve read_only_patch_stat read_only_host_stat : preserve.
Lemma read_only_fd_stat p : read_only (fd_stat p).
Proof. unfold fd_stat. reading. Qed.
Lemma read_only_fd_lstat p : read_only (fd_lstat p).
Proof. unfold fd_lstat. reading. Qed.
Lemma read_only_fd_fstat fd b : read_only (fd_fstat fd b).
Proof. unfold fd_fstat. reading. Qed.
Hint Resolve read_only_fd_stat read_only_fd_lstat read_only_fd_fstat : preserve.
Lemma read_only_fstatat fd p b : read_only (fstatat fd p b).
Proof. unfold fstatat. reading. Qed.
Lemma read_only_chown p o g : read_only (chown p o g).
Proof. unfold chown, df_chown. reading. Qed.
Lemma read_only_fchown fd o g : read_only (fchown fd o g).
Proof. unfold fchown, df_chown. reading. Qed.
Lemma read_only_fd_statfs p : read_only (fd_statfs p).
Proof. unfold fd_statfs. reading. Qed.
Lemma read_only_fstatfs fd : read_only (fstatfs fd).
Proof. unfold fstatfs. reading. Qed.
Lemma read_only_fsync fd : read_only (fsync fd).
Proof. unfold fsync. reading. Qed.
Lemma read_only_sym_dirents count n i b : read_only (sym_dirents count n i b).
Proof. revert i b. induction n as [|n IH]; intros; simpl; reading. Qed.
Lemma read_only_ioctl fd r : read_only (ioctl fd r).
Proof. unfold ioctl, ioctl_sym. reading. Qed.

(** ** [select] *)
Lemma read_only_FD_ISSET n p : read_only (FD_ISSET n p).
Proof. unfold FD_ISSET. reading. Qed.
Lemma read_only_FD_SET n p : read_only (FD_SET n p).
Proof. unfold FD_SET. reading. Qed.
Hint Resolve read_only_FD_ISSET read_only_FD_SET : preserve.
Lemma read_only_copy_bit i a j b : read_only (copy_bit i a j b).
Proof. unfold copy_bit. reading. Qed.
Hint Resolve read_only_copy_bit : preserve.
Lemma read_only_select_scan n i r x e s : read_only (select_scan n i r x e s).
Proof. revert i s. induction n as [|n IH]; intros; simpl; reading. Qed.
Lemma read_only_select_back n i hr hw he r x e o : read_only (select_back n i hr hw he r x e o).
Proof. revert i o. induction n as [|n IH]; intros; simpl; reading. Qed.
Hint Resolve read_only_select_scan read_only_select_back : preserve.
Lemma read_only_select n r x e : read_only (select n r x e).
Proof. unfold select. reading. Qed.
End ReadOnly.

#[export] Hint Resolve read_only_fail read_only_ret_sys read_only_make_symbolic read_only_assume
  read_only_fd_at read_only_con_at read_only_dfile_at read_only_as_dfile read_only_as_dcfile
  read_only_free_ptr read_only_get_sym_file read_only_get_file read_only_find_con_file
  read_only_concretize read_only_inject read_only_load_ptr read_only_store_ptr
  read_only_check_memory read_only_count_read read_only_count_write read_only_count_ftruncate
  read_only_get_current_path read_only_getcwd read_only_get_realpath
  read_only_chdir read_only_fchdir read_only_chroot read_only_readlink read_only_realpath
  read_only_resolve read_only_access read_only_patch_stat read_only_host_stat read_only_fd_stat
  read_only_fd_lstat read_only_fd_fstat read_only_fstatat read_only_chown read_only_fchown
  read_only_fd_statfs read_only_fstatfs read_only_fsync read_only_sym_dirents read_only_ioctl
  read_only_select : preserve.
