(* ===== verification/FsInv.v ===== *)
(** * The well-formedness invariant of the runtime's tables

    The pointers between the three tables of [fd.h]: every open descriptor
    points into the array of records or to a symbolic file, every record in use
    has its array of names, every symbolic file has the bytes its size announces.
    [find_con_file], [__get_sym_file] and the descriptor operations rely on it;
    this file proves that the primitives of [FsCore] keep it. *)
From S2P Require Import Prelude FsTypes FsCore FsFrame.

(** A record in use has [MAX_LINKS] name slots. *)
Definition names_ok (c : exe_disk_con_file_t) : Prop :=
  cf_state c = CON_STATE_FREE ∨ ∃ l, cf_name c = PTo l ∧ length l = MAX_LINKS.

(** A symbolic file has the bytes its size announces. *)
Definition wf_disk (x : exe_disk_file_t) : Prop :=
  Z.of_nat (length (df_contents x)) = df_size x ∧ df_size x < 2 ^ 32.

(** What an entry of the descriptor table points to. *)
Definition target_ok (s : exe_file_system_t) (f : exe_file_t) : Prop :=
  (f_type f = CONCRETE_FILE ∧
     ∃ i, f_file f = FDcfile (mkConPtr (con_base s) i) ∧ (i < length (con_files s))%nat) ∨
  (f_type f = SYMBOLIC_FILE ∧ ∃ d, f_file f = FDfile d ∧ is_Some (lookup_dfile d s)).
Definition valid_file (s : exe_file_system_t) (f : exe_file_t) : Prop :=
  testflag (f_flags f) eOpen = true → target_ok s f.

(** [hole]: the index of a record that is being filled in, if any. *)
Record inv (hole : option nat) (s : exe_file_system_t) (e : exe_sym_env_t) : Prop := mkInv {
  inv_fds : length (fds e) = MAX_FDS;
  inv_con_len : Z.of_nat (length (con_files s)) = n_con_files s;
  inv_con_small : n_con_files s < 2 ^ 32;
  inv_names : ∀ i c, con_files s !! i = Some c → hole ≠ Some i → names_ok c;
  inv_valid : ∀ i f, fds e !! i = Some f → valid_file s f;
  inv_sym_len : Z.of_nat (length (sym_files s)) = n_sym_files s;
  inv_disk : ∀ d x, lookup_dfile d s = Some x → wf_disk x }.

Section FsInv.
Context `{Host}.
Implicit Types w : world.

(** [slot]: a closed entry of the descriptor table that is being filled in. *)
Definition slot_ok (slot : option (nat * exe_file_t)) (e : exe_sym_env_t) : Prop :=
  match slot with
  | None => True
  | Some (i, f) => fds e !! i = Some f ∧ testflag (f_flags f) eOpen = false
  end.
Definition Inv_but (hole : option nat) (slot : option (nat * exe_file_t)) (w : world) : Prop :=
  inv hole (exe_fs w) (exe_env w) ∧ slot_ok slot (exe_env w).
Definition Inv : world → Prop := Inv_but None None.

(** ** Changes outside the tables *)
Lemma Inv_but_hole hole slot w : Inv_but None slot w → Inv_but hole slot w.
Proof. intros [[? ? ? Hn ? ? ?] ?]. split; [split|]; try done. intros i c Hi _. by eapply Hn. Qed.
Lemma Inv_but_slot hole slot w : Inv_but hole slot w → Inv_but hole None w.
Proof. by intros [? _]. Qed.

#[global] Instance Inv_but_table hole slot : TableProp (Inv_but hole slot).
Proof.
  intros w w' [Efs Eenv] [Hi Hs]. unfold Inv_but. rewrite <- Eenv. split; [|done].
  destruct Hi. destruct (exe_fs w), (exe_fs w'). simplify_eq. by split.
Qed.
#[global] Instance Inv_table : TableProp Inv := Inv_but_table None None.

(** ** Descriptors *)

(** The changes to an entry that keep what it points to. *)
Definition keeps_target (g : exe_file_t → exe_file_t) : Prop :=
  ∀ s f, valid_file s f → valid_file s (g f).

Lemma Inv_insert_fd hole w i f :
  inv hole (exe_fs w) (exe_env w) → valid_file (exe_fs w) f →
  inv hole (exe_fs w) (set_fds (<[i := f]> (fds (exe_env w))) (exe_env w)).
Proof.
  intros [? ? ? ? Hv ? ?] Hf. split; try done; simpl.
  - by rewrite length_insert.
  - intros j f' Hj. apply list_lookup_insert_Some in Hj as [(<- & <- & _)|[_ Hj]]; eauto.
Qed.

Lemma wlp_upd_fd w i g (Q : unit → world → Prop) :
  (∀ f, fds (exe_env w) !! i = Some f →
     Q tt (upd_env (λ e, set_fds (<[i := g f]> (fds e)) e) w)) →
  wlp (upd_fd i g) Q w.
Proof.
  intros HQ. unfold upd_fd, fd_at.
  apply wlp_bind, wlp_bind, wlp_gets, wlp_deref. intros f Hf. by apply wlp_modify, HQ.
Qed.

Lemma preserves_upd_fd hole i g : keeps_target g → preserves (Inv_but hole None) (upd_fd i g).
Proof.
  intros Hg w [Hw _]. apply wlp_upd_fd. intros f Hf. split; [|done].
  apply (Inv_insert_fd hole w); [done|]. apply Hg. by eapply inv_valid.
Qed.

(** The entry being filled in stays closed. *)
Lemma wlp_upd_slot hole i f g w (Q : unit → world → Prop) :
  Inv_but hole (Some (i, f)) w → testflag (f_flags (g f)) eOpen = false →
  (∀ w', exe_fs w' = exe_fs w → Inv_but hole (Some (i, g f)) w' → Q tt w') →
  wlp (upd_fd i g) Q w.
Proof.
  intros [Hw [Hi Ho]] Hg HQ. apply wlp_upd_fd. intros f' Hf'. simplify_eq.
  apply HQ; [done|]. split; simpl.
  - apply (Inv_insert_fd hole w); [done|]. unfold valid_file. congruence.
  - split; [|done]. apply list_lookup_insert_eq. by eapply lookup_lt_Some.
Qed.

Lemma keeps_set_off o : keeps_target (set_off o).
Proof. by intros s f. Qed.
Lemma keeps_add_off g : keeps_target (λ f, set_off (g f) f).
Proof. by intros s f. Qed.
Lemma keeps_zero f0 : f0 = zero_file → keeps_target (λ _, f0).
Proof. intros -> s f _ E. done. Qed.
Lemma keeps_flags (g : Z → Z) :
  (∀ x, testflag (g x) eOpen = true → testflag x eOpen = true) →
  keeps_target (λ f, set_flags (g (f_flags f)) f).
Proof. intros Hg s f Hf E. apply Hf. by apply Hg. Qed.

(** ** Records *)
Definition keeps_names (g : exe_disk_con_file_t → exe_disk_con_file_t) : Prop :=
  ∀ c, names_ok c → names_ok (g c).

Lemma Inv_insert_con hole hole' slot w i c :
  Inv_but hole slot w →
  (hole' ≠ Some i → names_ok c) → (∀ j, hole = Some j → hole' = Some j ∨ j = i) →
  Inv_but hole' slot (upd_fs (λ s, set_con_files (<[i := c]> (con_files s)) s) w).
Proof.
  intros [[? ? ? Hn Hv ? Hd] Hs] Hc Hh. split; [split|done]; try done; simpl.
  - by rewrite length_insert.
  - intros j c' Hj Hne. apply list_lookup_insert_Some in Hj as [(-> & <- & _)|[Hij Hj]]; [auto|].
    apply (Hn j c' Hj). intros E. destruct (Hh j E) as [?|?]; congruence.
  - intros j f Hj Ho. destruct (Hv j f Hj Ho) as [(Ht & k & E & Hk)|Hsym]; [left|by right].
    split; [done|]. exists k. simpl. by rewrite length_insert.
Qed.

Lemma wlp_upd_con w p g (Q : unit → world → Prop) :
  (∀ c, cp_base p = con_base (exe_fs w) → con_files (exe_fs w) !! cp_idx p = Some c →
     Q tt (upd_fs (λ s, set_con_files (<[cp_idx p := g c]> (con_files s)) s) w)) →
  wlp (upd_con p g) Q w.
Proof.
  intros HQ. unfold upd_con, con_at. apply wlp_bind, wlp_bind, wlp_gets.
  case_bool_decide as E; [|apply wlp_halt].
  apply wlp_deref. intros c Hc. by apply wlp_modify, HQ.
Qed.

(** A change to one record that fills no hole, makes none, or fills the one. *)
Lemma preserves_upd_con hole slot p g :
  keeps_names g → preserves (Inv_but hole slot) (upd_con p g).
Proof.
  intros Hg w Hw. apply wlp_upd_con. intros c _ Hc.
  apply (Inv_insert_con hole); [done| |auto].
  intros Hne. apply Hg. destruct Hw as [Hw _]. by eapply inv_names.
Qed.

(** ** Symbolic files *)
Definition keeps_disk (g : exe_disk_file_t → exe_disk_file_t) : Prop :=
  ∀ x, wf_disk x → wf_disk (g x).

Lemma lookup_store_dfile d d' x y s :
  lookup_dfile d s = Some y →
  lookup_dfile d' (store_dfile d x s) = if decide (d = d') then Some x else lookup_dfile d' s.
Proof.
  intros Hy. destruct (decide (d = d')) as [<-|Hne].
  - destruct d as [k| |]; simpl; try done.
    apply list_lookup_insert_eq. by eapply lookup_lt_Some.
  - destruct d as [k| |], d' as [k'| |]; simpl; try done.
    apply list_lookup_insert_ne. congruence.
Qed.

Lemma store_dfile_con d x s :
  con_files (store_dfile d x s) = con_files s ∧ con_base (store_dfile d x s) = con_base s ∧
  n_con_files (store_dfile d x s) = n_con_files s ∧ n_sym_files (store_dfile d x s) = n_sym_files s ∧
  length (sym_files (store_dfile d x s)) = length (sym_files s).
Proof. destruct d; simpl; rewrite ?length_insert; done. Qed.

Lemma wlp_upd_dfile hole slot d g w (Q : unit → world → Prop) :
  Inv_but hole slot w →
  (∀ x, lookup_dfile d (exe_fs w) = Some x → wf_disk x → wf_disk (g x)) →
  (∀ w', Inv_but hole slot w' → is_Some (lookup_dfile d (exe_fs w')) → Q tt w') →
  wlp (upd_dfile d g) Q w.
Proof.
  intros Hw Hg HQ. unfold upd_dfile, dfile_at.
  apply wlp_bind, wlp_bind, wlp_gets, wlp_deref. intros y Hy. apply wlp_modify, HQ;
    [|simpl; erewrite lookup_store_dfile by done; by rewrite decide_True].
  destruct Hw as [[? Hcl ? Hn Hv Hsl Hd] Hs]. split; [|done].
  destruct (store_dfile_con d (g y) (exe_fs w)) as (E1 & E2 & E3 & E4 & E5).
  split; simpl; rewrite ?E1, ?E3, ?E4, ?E5; try done.
  - intros i f Hf Ho. destruct (Hv i f Hf Ho) as [(? & k & ? & ?)|(? & d' & ? & Hd')].
    + left. split; [done|]. exists k. by rewrite E1, E2.
    + right. split; [done|]. exists d'. split; [done|].
      erewrite lookup_store_dfile by done. by case_decide.
  - intros d' x. erewrite lookup_store_dfile by done. case_decide; [|by apply Hd].
    intros [= <-]. by apply Hg, (Hd d).
Qed.
Lemma preserves_upd_dfile hole slot d g :
  keeps_disk g → preserves (Inv_but hole slot) (upd_dfile d g).
Proof. intros Hg w Hw. eapply wlp_upd_dfile; eauto. Qed.

Lemma keeps_df_stat s : keeps_disk (set_df_stat s).
Proof. by intros x. Qed.
Lemma keeps_df_stat_fun g : keeps_disk (λ x, set_df_stat (g x) x).
Proof. by intros x. Qed.
End FsInv.

#[export] Hint Resolve preserves_upd_fd preserves_upd_con preserves_upd_dfile keeps_set_off keeps_add_off keeps_zero
  keeps_df_stat keeps_df_stat_fun : preserve.
