(* ===== verification/FsInvOps.v ===== *)
(** * Every operation keeps the invariant

    [preserves Inv] for the operations of [FsPath], [FsOpen], [FsIO], [FsMeta],
    [FsDir] and [FsCtl] that change the tables; [FsFrame] covers the others.
    Then the runs of the primitives: what each primitive of [FsCore] returns in a
    state where it succeeds, as rewriting facts of the hint database [run]; the
    tactic [running] executes the statements of an operation one by one. *)
From S2P Require Import Prelude FsTypes FsCore FsPath FsOpen FsIO FsMeta FsDir FsCtl FsFrame FsInv.

Ltac solve_keeps_names :=
  let c := fresh "c" in let Hc := fresh "Hc" in
  intros c Hc; first
  [ exact Hc | left; reflexivity | right; eexists; split; reflexivity ].
#[export] Hint Extern 1 (keeps_names _) => solve_keeps_names : preserve.

Section InvCore.
Context `{Host}.
Implicit Types w : world.

Lemma preserves_fail e : preserves Inv (fail e).
Proof. preserving. Qed.

(** ** Allocation, release *)
Lemma preserves_free_con_file hole slot p : preserves (Inv_but hole slot) (free_con_file p).
Proof. unfold free_con_file. preserving. Qed.
Lemma preserves_stdout_writes hole slot g :
  preserves (Inv_but hole slot) (modify (upd_fs (λ s, set_stdout_writes (g s) s))).
Proof. apply preserves_modify. intros w [[] ?]. by split; [split|]. Qed.
Lemma preserves_umask_set hole m : preserves (Inv_but hole None) (modify (upd_env (set_umask m))).
Proof. apply preserves_modify. intros w [[] ?]. by split; [split|]. Qed.

Lemma relocate_flags o n f : f_flags (relocate o n f) = f_flags f.
Proof. unfold relocate. repeat case_match; done. Qed.
Lemma relocate_type o n f : f_type (relocate o n f) = f_type f.
Proof. unfold relocate. repeat case_match; done. Qed.
Lemma relocate_closed o n f : testflag (f_flags f) eOpen = false → relocate o n f = f.
Proof. intros E. unfold relocate. by rewrite E, andb_false_r. Qed.
Lemma relocate_valid s b n l f :
  valid_file s f → valid_file (set_con_alloc b n (con_files s ++ l) s) (relocate (con_base s) b f).
Proof.
  intros Hf Ho. rewrite relocate_flags in Ho. unfold relocate. rewrite Ho.
  destruct (Hf Ho) as [(Ht & i & E & Hi)|(Ht & d & E & Hd)]; rewrite Ht, E; simpl.
  - rewrite bool_decide_true by done. left. split; [done|]. exists i. split; [done|].
    simpl. rewrite length_app. lia.
  - right. split; [done|]. exists d. split; [done|]. by destruct d.
Qed.

Lemma preserves_enlarge hole slot : preserves (Inv_but hole slot) enlarge_con_files.
Proof.
  intros w [[? Hl Hsmall Hn Hv Hsl Hd] Hslot]. unfold enlarge_con_files.
  apply wlp_bind, wlp_gets. destruct (2 ^ 32 <=? _) eqn:Hbig; [apply wlp_halt|].
  apply wlp_bind, wlp_modify, wlp_bind, wlp_modify, wlp_ret.
  apply Z.leb_gt in Hbig. split; [split|]; simpl; try done.
  - by rewrite length_fmap.
  - rewrite length_app, length_replicate. wrap_lia.
  - wrap_lia.
  - intros i c [Hi|[_ Hi]]%lookup_app_Some; [by eapply Hn|].
    apply lookup_replicate in Hi as [-> _]. by left.
  - intros i f Hi. apply list_lookup_fmap_Some in Hi as (f' & -> & Hf').
    by apply relocate_valid, (Hv i).
  - destruct slot as [[i f]|]; [|done]. destruct Hslot as [Hi Hc]. split; [|done]. simpl.
    by rewrite list_lookup_fmap, Hi; simpl; rewrite relocate_closed.
Qed.
Lemma preserves_take_slot hole slot o : preserves (Inv_but hole slot) (take_slot o).
Proof. pose proof preserves_enlarge. unfold take_slot. preserving. Qed.
End InvCore.

#[export] Hint Resolve preserves_free_con_file preserves_stdout_writes preserves_umask_set preserves_enlarge preserves_take_slot : preserve.

Section InvPaths.
Context `{Host}.
Variables (hole : option nat) (slot : option (nat * exe_file_t)).
Abbreviation pres m := (preserves (Inv_but hole slot) m).

(** ** Metadata *)
Lemma preserves_df_chmod d m : pres (df_chmod d m).
Proof. unfold df_chmod. preserving. Qed.
Hint Resolve preserves_df_chmod : preserve.
Lemma preserves_chmod p m : pres (chmod p m).
Proof. unfold chmod. preserving. Qed.
Lemma preserves_fchmod fd m : pres (fchmod fd m).
Proof. unfold fchmod. preserving. Qed.

(** ** Directories, control *)
Lemma preserves_rmdir p : pres (rmdir p).
Proof. unfold rmdir. preserving. Qed.
Lemma preserves_mkdir p m : pres (mkdir p m).
Proof. unfold mkdir, lstat. preserving. Qed.
Lemma preserves_unlink p : pres (unlink p).
Proof. unfold unlink. preserving. Qed.
End InvPaths.

#[export] Hint Resolve preserves_chmod preserves_fchmod preserves_rmdir preserves_mkdir
  preserves_unlink : preserve.

(** ** Binds that keep what the access has shown *)
Section Knowing.
Context `{Host}.
Implicit Types w : world.

Lemma wlp_fd_at w i (Q : exe_file_t → world → Prop) :
  (∀ f, fds (exe_env w) !! i = Some f → Q f w) → wlp (fd_at i) Q w.
Proof. intros HQ. apply wlp_bind, wlp_gets, wlp_deref. apply HQ. Qed.
Lemma wlp_con_at w p (Q : exe_disk_con_file_t → world → Prop) :
  (∀ c, cp_base p = con_base (exe_fs w) → con_files (exe_fs w) !! cp_idx p = Some c → Q c w) →
  wlp (con_at p) Q w.
Proof.
  intros HQ. apply wlp_bind, wlp_gets. case_bool_decide; [|apply wlp_halt].
  apply wlp_deref. intros c Hc. by apply HQ.
Qed.
Lemma wlp_dfile_at w d (Q : exe_disk_file_t → world → Prop) :
  (∀ x, lookup_dfile d (exe_fs w) = Some x → Q x w) → wlp (dfile_at d) Q w.
Proof. intros HQ. apply wlp_bind, wlp_gets, wlp_deref. apply HQ. Qed.
Lemma wlp_as_dcfile w f (Q : con_ptr → world → Prop) :
  (∀ p, f_file f = FDcfile p → Q p w) → wlp (as_dcfile f) Q w.
Proof. intros HQ. unfold as_dcfile. destruct (f_file f); try apply wlp_halt. by apply HQ. Qed.
Lemma wlp_as_dfile w f (Q : dfile_ref → world → Prop) :
  (∀ d, f_file f = FDfile d → Q d w) → wlp (as_dfile f) Q w.
Proof. intros HQ. unfold as_dfile. destruct (f_file f); try apply wlp_halt. by apply HQ. Qed.
Lemma wlp_preserves {A} (I : world → Prop) (m : FS A) (Q : A → world → Prop) w :
  preserves I m → I w → (∀ a w', I w' → Q a w') → wlp m Q w.
Proof. intros Hm Hw HQ. eapply wlp_mono; [by apply Hm|]. auto. Qed.
Lemma wlp_step {A B} (I : world → Prop) (m : FS A) (k : A → FS B) (Q : B → world → Prop) w :
  preserves I m → I w → (∀ a w', I w' → wlp (k a) Q w') → wlp (m ≫= k) Q w.
Proof. intros Hm Hw HQ. apply wlp_bind. by eapply wlp_preserves. Qed.

(** A record whose contents, not its names or state, have changed. *)
Definition same_names (c c' : exe_disk_con_file_t) : Prop :=
  cf_name c' = cf_name c ∧ cf_state c' = cf_state c.
Lemma names_ok_same c c' : same_names c c' → names_ok c → names_ok c'.
Proof. intros [E1 E2]. unfold names_ok. by rewrite E1, E2. Qed.

(** The record at [p] is overwritten by one with good names. *)
Lemma preserves_put_con hole slot p c' :
  names_ok c' → preserves (Inv_but hole slot) (upd_con p (λ _, c')).
Proof. intros Hc. apply preserves_upd_con. by intros c _. Qed.

Lemma Inv_names hole slot w i c :
  Inv_but hole slot w → hole ≠ Some i → con_files (exe_fs w) !! i = Some c → names_ok c.
Proof. intros [Hw _] Hne Hi. by eapply inv_names. Qed.
Lemma Inv_valid hole slot w i f :
  Inv_but hole slot w → fds (exe_env w) !! i = Some f → valid_file (exe_fs w) f.
Proof. intros [Hw _] Hi. by eapply inv_valid. Qed.
Lemma Inv_disk hole slot w d x :
  Inv_but hole slot w → lookup_dfile d (exe_fs w) = Some x → wf_disk x.
Proof. intros [Hw _] Hi. by eapply inv_disk. Qed.

(** ** The record a call is filling in: its names are known, its state is not. *)
Definition Inv_named (p : con_ptr) (l : list (option string)) slot w : Prop :=
  Inv_but (Some (cp_idx p)) slot w ∧ cp_base p = con_base (exe_fs w) ∧
  ∃ c, con_files (exe_fs w) !! cp_idx p = Some c ∧ cf_name c = PTo l.

Lemma Inv_named_close p l slot w : length l = MAX_LINKS → Inv_named p l slot w → Inv_but None slot w.
Proof.
  intros Hlen [[[? ? ? Hn ? ? ?] ?] (_ & c & Hc & El)]. split; [split|]; try done.
  intros i c' Hi _. destruct (decide (i = cp_idx p)) as [->|Hne].
  - simplify_eq. right. eauto.
  - eapply Hn; [done|congruence].
Qed.
Lemma Inv_named_open p l slot w c :
  Inv_but None slot w → cp_base p = con_base (exe_fs w) →
  con_files (exe_fs w) !! cp_idx p = Some c → cf_name c = PTo l → Inv_named p l slot w.
Proof. intros Hw Hb Hc Hl. split; [by apply Inv_but_hole|eauto]. Qed.

#[global] Instance Inv_named_table p l slot : TableProp (Inv_named p l slot).
Proof.
  intros w w' E (Hw & Hb & c & Hc & Hl). split; [by eapply table_prop|].
  destruct E as [Efs _]. destruct (exe_fs w), (exe_fs w'). simplify_eq. eauto.
Qed.
Lemma named_upd_con p l slot g :
  (∀ c, cf_name (g c) = cf_name c) → preserves (Inv_named p l slot) (upd_con p g).
Proof.
  intros Hg w [Hw (Hb & c & Hc & Hl)]. apply wlp_upd_con. intros c' _ Hc'. simplify_eq.
  split; [|split; [done|]].
  - apply (Inv_insert_con (Some (cp_idx p))); [done| |auto]. done.
  - exists (g c). simpl. rewrite Hg. split; [|done].
    apply list_lookup_insert_eq. by eapply lookup_lt_Some.
Qed.
End Knowing.

#[export] Hint Extern 2 (preserves (Inv_named _ _ _) (upd_con _ _)) =>
  apply named_upd_con; reflexivity : preserve.

(** One statement of an operation that keeps the invariant [Hw : I w]. *)
Ltac inv_step Hw :=
  match type of Hw with
  | ?I ?w => apply (wlp_step I); [by preserving|exact Hw|clear dependent w; intros ? w Hw]
  end.

Section InvDescriptors.
Context `{Host}.
Implicit Types w : world.

Lemma named_make_con_inmem p l slot fd : preserves (Inv_named p l slot) (make_con_inmem fd p).
Proof. unfold make_con_inmem. preserving. Qed.
Lemma named_make_specific p l slot path : preserves (Inv_named p l slot) (make_specific p path).
Proof. unfold make_specific. preserving. Qed.

(** The same two on a record of the table. *)
Lemma preserves_make_con_inmem slot fd p w c (Q : Z → world → Prop) :
  Inv_but None slot w → con_files (exe_fs w) !! cp_idx p = Some c → cf_state c ≠ CON_STATE_FREE →
  cp_base p = con_base (exe_fs w) → (∀ r w', Inv_but None slot w' → Q r w') →
  wlp (make_con_inmem fd p) Q w.
Proof.
  intros Hw Hc Hst Hb HQ. edestruct (Inv_names None slot) as [?|(l & El & Hl)]; [done..|].
  eapply wlp_preserves; [apply (named_make_con_inmem p l slot)|by eapply Inv_named_open|].
  intros r w' Hw'. apply HQ. by eapply Inv_named_close.
Qed.

(** ** [read], [lseek], [close], [dup2], [dup] *)
Lemma preserves_close fd : preserves Inv (close fd).
Proof. unfold close. preserving. Qed.
Lemma preserves_read fd buf n : preserves Inv (read fd buf n).
Proof. unfold read, count_read, read_con, read_sym, check_memory_access, load_ptr. preserving. Qed.
Lemma preserves_lseek fd off wh : preserves Inv (fd_lseek fd off wh).
Proof. unfold fd_lseek, lseek_con, lseek_sym. preserving. Qed.

Lemma keeps_flags_and x : keeps_target (λ f, set_flags (Z.land (f_flags f) x) f).
Proof.
  apply (keeps_flags (λ y, Z.land y x)). unfold testflag. intros y E.
  apply negb_true_iff, Z.eqb_neq in E. apply negb_true_iff, Z.eqb_neq. intros E'. apply E.
  by rewrite <- Z.land_assoc, (Z.land_comm x), Z.land_assoc, E'.
Qed.

Lemma preserves_copy_fd i j : preserves Inv (f ← fd_at i; upd_fd j (λ _, f)).
Proof.
  intros w Hw. apply wlp_bind, wlp_fd_at. intros f Hf. apply wlp_upd_fd. intros f' Hf'.
  split; [|done]. apply (Inv_insert_fd None w); [apply Hw|]. by eapply Inv_valid.
Qed.

Lemma preserves_dup2 a b : preserves Inv (dup2 a b).
Proof.
  pose proof preserves_close. pose proof keeps_flags_and. unfold dup2.
  preserving_step; [preserving|]. preserving_step; [|preserving]. preserving_step; [preserving|].
  preserving_step; [preserving|]. preserving_step; [preserving|].
  intros w Hw. apply wlp_bind, wlp_fd_at. intros f Hf.
  apply wlp_bind, wlp_upd_fd. intros f' Hf'.
  set (m := _ ≫= _). assert (preserves Inv m) as Hm by (unfold m; preserving). apply Hm.
  split; [|done]. apply (Inv_insert_fd None w); [apply Hw|]. by eapply Inv_valid.
Qed.
Lemma preserves_dup a : preserves Inv (dup a).
Proof. pose proof preserves_dup2. unfold dup. preserving. Qed.

(** ** [write], [ftruncate] *)
Lemma pure_load_ptr (I : world → Prop) p off n : preserves I (load_ptr p off n).
Proof. unfold load_ptr. preserving. Qed.
Lemma pure_free_ptr (I : world → Prop) {A} (p : ptr A) : preserves I (free_ptr p).
Proof. unfold free_ptr. preserving. Qed.
Lemma pure_store_ptr (I : world → Prop) p off b : preserves I (store_ptr p off b).
Proof. unfold store_ptr. preserving. Qed.
Hint Resolve pure_load_ptr pure_free_ptr pure_store_ptr : preserve.

(** The growth of a buffer computes a new record and changes no state. *)
Lemma grow_contents_same c n w :
  wlp (grow_contents c n) (λ c' w', w' = w ∧ same_names c c') w.
Proof.
  unfold grow_contents. case_match; [|by apply wlp_ret].
  destruct (grow _ _ _ _); [|done]. case_match; [done|].
  apply wlp_bind, (wlp_preserves (eq w)); [preserving|done|]. intros old ? <-.
  apply wlp_bind, (wlp_preserves (eq w)); [preserving|done|]. intros _ ? <-.
  by apply wlp_ret.
Qed.
Lemma grow_to_same c n w : wlp (grow_to c n) (λ c' w', w' = w ∧ same_names c c') w.
Proof.
  unfold grow_to. case_match; [|by apply wlp_ret]. destruct (grow _ _ _ _); [|done].
  apply wlp_bind, (wlp_preserves (eq w)); [preserving|done|]. intros old ? <-.
  apply wlp_bind, (wlp_preserves (eq w)); [preserving|done|]. intros _ ? <-.
  by apply wlp_ret.
Qed.

Lemma preserves_write_inmem slot p off b n : preserves (Inv_but None slot) (write_inmem p off b n).
Proof.
  intros w Hw. unfold write_inmem. apply wlp_bind, wlp_con_at. intros c _ Hc.
  apply wlp_bind. eapply wlp_mono; [apply grow_contents_same|]. intros c' ? [-> Hs].
  apply wlp_bind, wlp_assert. intros _.
  apply wlp_bind, (wlp_preserves (eq w)); [preserving|done|]. intros l ? <-.
  apply preserves_put_con; [|done]. eapply names_ok_same, Inv_names; [exact Hs|done..].
Qed.

Lemma preserves_write_con i f buf n : preserves Inv (write_con i f buf n).
Proof.
  pose proof preserves_write_inmem. unfold write_con, check_memory_access.
  preserving_step; [preserving|]. preserving_step; [preserving|].
  intros w Hw. apply wlp_bind, wlp_con_at. intros c Hb Hc.
  do 2 (case_bool_decide; [revert w Hw Hb Hc; intros w Hw _ _; revert w Hw;
    match goal with |- ∀ w, Inv w → wlp ?m _ w => change (preserves Inv m) end; preserving|]).
  case_bool_decide as Hd.
  - apply wlp_bind. eapply preserves_make_con_inmem; [done..|congruence|done|].
    intros r w' Hw'. revert w' Hw'.
    match goal with |- ∀ w, _ → wlp ?m _ w => change (preserves Inv m) end. preserving.
  - revert w Hw Hb Hc; intros w Hw _ _; revert w Hw.
    match goal with |- ∀ w, _ → wlp ?m _ w => change (preserves Inv m) end. preserving.
Qed.

Lemma store_list_length l off b l' : store_list l off b = Some l' → length l' = length l.
Proof.
  unfold store_list. destruct (_ && _) eqn:E; [|done]. intros [= <-].
  apply andb_true_iff in E as [?%Z.leb_le ?%Z.leb_le]. apply length_splice. lia.
Qed.

Lemma preserves_write_sym i f buf n : preserves Inv (write_sym i f buf n).
Proof.
  unfold write_sym. preserving_step; [preserving|].
  intros w Hw. apply wlp_bind, wlp_dfile_at. intros x Hx.
  apply wlp_bind, wlp_gets, wlp_bind, (wlp_preserves (eq w)); [preserving|done|].
  intros k ? <-. apply wlp_bind.
  apply wlp_mono with (Q := λ _ w', Inv w').
  - case_match; [by apply wlp_ret|]. apply wlp_bind, wlp_deref. intros data _.
    apply wlp_bind, wlp_deref. intros l Hl%store_list_length.
    eapply (wlp_upd_dfile None None); [done| |by auto]. intros y Hy Hwf. simplify_eq.
    unfold wf_disk in *. simpl. by rewrite Hl.
  - intros _ w' Hw'. revert w' Hw'.
    match goal with |- ∀ w, _ → wlp ?m _ w => change (preserves Inv m) end. preserving.
Qed.
Lemma preserves_write fd buf n : preserves Inv (write fd buf n).
Proof.
  pose proof preserves_write_con. pose proof preserves_write_sym.
  unfold write, count_write. preserving.
Qed.
Lemma preserves_ftruncate fd n : preserves Inv (fd_ftruncate fd n).
Proof.
  unfold fd_ftruncate, count_ftruncate.
  do 2 (preserving_step; [preserving|]). preserving_step; [|preserving].
  preserving_step; [preserving|]. preserving_step; [preserving|]. preserving_step; [preserving|].
  preserving_step; [preserving|]. preserving_step; [preserving|].
  intros w Hw. apply wlp_bind, wlp_con_at. intros c _ Hc.
  apply wlp_bind. eapply wlp_mono; [apply grow_to_same|]. intros c' ? [-> Hs].
  apply wlp_bind. eapply wlp_preserves; [apply preserves_put_con|exact Hw|done].
  eapply names_ok_same, Inv_names; [exact Hs|done..].
Qed.

Lemma testflag_eOpen x : testflag x eOpen = Z.testbit x 0.
Proof. by apply (testflag_bit x 0). Qed.
Lemma keeps_cloexec (b : bool) : keeps_target (λ f,
  set_flags (if b then Z.lor (Z.land (f_flags f) (Z.lnot eCloseOnExec)) eCloseOnExec
             else Z.land (f_flags f) (Z.lnot eCloseOnExec)) f).
Proof.
  destruct b; [|apply keeps_flags_and].
  apply (keeps_flags (λ x, Z.lor (Z.land x (Z.lnot eCloseOnExec)) eCloseOnExec)).
  intros x. rewrite !testflag_eOpen, Z.lor_spec, Z.land_spec. change (Z.testbit eCloseOnExec 0) with false.
  rewrite orb_false_r. by intros [? _]%andb_true_iff.
Qed.
Lemma preserves_fcntl fd cmd va : preserves Inv (fcntl fd cmd va).
Proof. pose proof keeps_cloexec. unfold fcntl. cbv zeta. preserving. Qed.
Lemma preserves_getdents fd n : preserves Inv (fd_getdents fd n).
Proof. unfold fd_getdents, getdents_fake, getdents_host. preserving. Qed.

(** ** [link], [rename] *)
Lemma add_name_length s l n l' : add_name s l n = Some (Some l') → length l' = length l.
Proof.
  revert l l'. induction n as [|n IH]; intros [|[o|] l] l' E; simpl in *; simplify_eq; try done.
  destruct (add_name s l n) as [[r|]|] eqn:Er; simpl in *; simplify_eq. simpl. by rewrite (IH l r).
Qed.
Lemma replace_name_length a b l n l' : replace_name a b l n = Some l' → length l' = length l.
Proof.
  revert l l'. induction n as [|n IH]; intros [|o l] l' E; simpl in *; simplify_eq; try done.
  case_bool_decide; simplify_eq; [done|].
  destruct (replace_name a b l n) as [r|] eqn:Er; simpl in *; simplify_eq. simpl. by rewrite (IH l r).
Qed.

(** A new list of names for a record that has one. *)
Lemma preserves_set_name slot p w c l l' (Q : unit → world → Prop) :
  Inv_but None slot w → con_files (exe_fs w) !! cp_idx p = Some c → cf_name c = PTo l →
  length l' = length l → (∀ w', Inv_but None slot w' → Q tt w') →
  wlp (upd_con p (set_name (PTo l'))) Q w.
Proof.
  intros Hw Hc El Hlen HQ. apply wlp_upd_con. intros c' _ Hc'. simplify_eq. apply HQ.
  apply (Inv_insert_con None); [done| |done]. intros _.
  destruct (Inv_names None slot w (cp_idx p) c) as [?|(l0 & E & Hl)]; [done..|by left|].
  right. exists l'. split; [done|]. congruence.
Qed.

Lemma preserves_add_name p s : preserves Inv (
  c ← con_at p;
  match cf_name c with
  | PTo l =>
      r ← deref (add_name s l MAX_LINKS);
      match r with
      | Some l' => upd_con p (set_name (PTo l'));; mret 0
      | None => fail EMLINK
      end
  | _ => halt MemoryError
  end).
Proof.
  intros w Hw. apply wlp_bind, wlp_con_at. intros c Hb Hc. destruct (cf_name c) as [|l|] eqn:El; [done| |done].
  apply wlp_bind, wlp_deref. intros [l'|] Hl'; [|by apply preserves_fail].
  apply wlp_bind. eapply (preserves_set_name None); [done..| |auto]. by eapply add_name_length.
Qed.
Lemma preserves_replace_name p a b : preserves Inv (
  c ← con_at p;
  match cf_name c with
  | PTo l =>
      l' ← deref (replace_name a b l MAX_LINKS);
      upd_con p (set_name (PTo l'));; mret 0
  | _ => halt MemoryError
  end).
Proof.
  intros w Hw. apply wlp_bind, wlp_con_at. intros c Hb Hc. destruct (cf_name c) as [|l|] eqn:El; [done| |done].
  apply wlp_bind, wlp_deref. intros l' Hl'.
  apply wlp_bind. eapply (preserves_set_name None); [done..| |auto]. by eapply replace_name_length.
Qed.
Lemma preserves_link a b : preserves Inv (link a b).
Proof. pose proof preserves_add_name. unfold link. preserving. Qed.

(** A record that was free and gets its names from the call. *)
Lemma hole_upd_con slot p g : preserves (Inv_but (Some (cp_idx p)) slot) (upd_con p g).
Proof.
  intros w Hw. apply wlp_upd_con. intros c _ Hc. by apply (Inv_insert_con (Some (cp_idx p))); auto.
Qed.
Lemma hole_make_con_inmem i slot fd p :
  cp_idx p = i → preserves (Inv_but (Some i) slot) (make_con_inmem fd p).
Proof. intros <-. pose proof hole_upd_con. unfold make_con_inmem. preserving. Qed.
Lemma hole_open slot p g w :
  Inv_but None slot w → wlp (upd_con p g) (λ _, Inv_but (Some (cp_idx p)) slot) w.
Proof. intros Hw. by apply hole_upd_con, Inv_but_hole. Qed.
Lemma hole_named slot p g l w (Q : unit → world → Prop) :
  Inv_but (Some (cp_idx p)) slot w → length l = MAX_LINKS → (∀ c, cf_name (g c) = PTo l) →
  (∀ w', Inv_named p l slot w' → Inv_but None slot w' → Q tt w') → wlp (upd_con p g) Q w.
Proof.
  intros Hw Hl Hg HQ. apply wlp_upd_con. intros c Hb Hc.
  set (w' := upd_fs _ w). enough (Inv_named p l slot w') by (apply HQ; [|eapply Inv_named_close]; eauto).
  split; [|split; [done|]].
  - by apply (Inv_insert_con (Some (cp_idx p))); auto.
  - exists (g c). split; [|done]. simpl. apply list_lookup_insert_eq. by eapply lookup_lt_Some.
Qed.

(** [rename] keeps the invariant when it succeeds. *)
Lemma wlp_rename a b w : Inv w → wlp (rename a b) (λ r w', r = 0 → Inv w') w.
Proof.
  intros Hw. unfold rename, Inv. pose proof preserves_replace_name.
  do 2 inv_step Hw. do 2 (inv_step Hw; case_match; [|by apply wlp_ret]).
  inv_step Hw. case_match. case_match; [eapply (wlp_preserves Inv); [by eauto|exact Hw|by auto]|].
  do 2 inv_step Hw. case_match; [by apply wlp_ret|].
  apply (wlp_step (Inv_but (Some (cp_idx a5)) None));
    [by apply hole_make_con_inmem|by apply Inv_but_hole|clear w Hw; intros r w Hw].
  case_match; [apply wlp_ret; lia|]. inv_step Hw.
  apply wlp_bind. eapply (hole_named None _ _ (_ :: replicate (MAX_LINKS - 1) None)); [done..|].
  intros w' _ Hw'. by apply wlp_ret.
Qed.

(** ** [open] *)
Lemma slot_zero fd w l :
  Inv w → fds (exe_env w) = l → first_free l = fd → fd ≠ MAX_FDS →
  wlp (upd_fd fd (λ _, zero_file)) (λ _, Inv_but None (Some (fd, zero_file))) w.
Proof.
  intros Hw El Hfd Hne. apply wlp_upd_fd. intros f Hf. split.
  - apply (Inv_insert_fd None w); [apply Hw|]. done.
  - split; [|done]. simpl. apply list_lookup_insert_eq. by eapply lookup_lt_Some.
Qed.

(** Opening the entry that was filled in. *)
Lemma slot_open fd f x w :
  Inv_but None (Some (fd, f)) w → target_ok (exe_fs w) f →
  wlp (upd_fd fd (set_flags x)) (λ _, Inv) w.
Proof.
  intros [Hw [Hf _]] Ht. apply wlp_upd_fd. intros f' Hf'. simplify_eq. split; [|done].
  apply (Inv_insert_fd None w); [done|]. by intros _.
Qed.

Lemma wlp_fd_open_sym fd d flags mode w :
  Inv_but None (Some (fd, zero_file)) w →
  wlp (fd_open_sym fd d flags mode)
    (λ r w', ∃ f, Inv_but None (Some (fd, f)) w' ∧ f_off f = 0 ∧ (r ≠ -1 → target_ok (exe_fs w') f)) w.
Proof.
  intros Hw. unfold fd_open_sym. apply wlp_bind. eapply wlp_upd_slot; [done..|].
  intros w1 _ Hw1. clear w Hw. revert w1 Hw1. intros w Hw.
  assert (∀ e, wlp (fail e) (λ r w', ∃ f, Inv_but None (Some (fd, f)) w' ∧ f_off f = 0 ∧ (r ≠ -1 → target_ok (exe_fs w') f)) w)
    as Hfail by (intros e; by eexists).
  do 3 (case_match; [apply Hfail|]). apply wlp_bind, wlp_dfile_at. intros x Hx.
  case_match; [apply Hfail|]. apply wlp_bind, wlp_gets, wlp_bind.
  eapply wlp_upd_dfile; [done|by intros ??|]. clear dependent w. intros w Hw Hd.
  apply wlp_bind. eapply wlp_upd_slot; [done..|]. intros w' Ew Hw'. apply wlp_ret.
  eexists. split; [done|]. split; [done|]. intros _. right. split; [done|]. exists d. by rewrite Ew.
Qed.

Lemma wlp_new_con_file slot path full free flags mode w :
  Inv_but None slot w →
  wlp (new_con_file path full free flags mode) (λ _, Inv_but None slot) w.
Proof.
  intros Hw. unfold new_con_file. inv_step Hw. rename a into p. do 3 inv_step Hw.
  apply wlp_bind. apply wlp_mono with
    (Q := λ ok w', if (ok : bool) then Inv_but (Some (cp_idx p)) slot w' else Inv_but None slot w').
  - case_match.
    + inv_step Hw. case_match; [by apply wlp_bind, wlp_modify, wlp_ret|].
      apply wlp_bind. eapply wlp_mono; [by apply hole_open|]. intros. by apply wlp_ret.
    + do 2 inv_step Hw. case_match; [by do 2 inv_step Hw; apply wlp_ret|].
      apply wlp_bind. eapply wlp_mono; [by apply hole_open|]. intros. by apply wlp_ret.
  - clear w Hw. intros [] w Hw; simpl; [|by apply wlp_ret].
    apply wlp_bind. eapply (hole_named slot p _ (_ :: replicate (MAX_LINKS - 1) None)); [done..|].
    clear w Hw. intros w Hw _. apply wlp_bind.
    eapply wlp_preserves; [apply named_make_specific|exact Hw|].
    intros _ w' Hw'. apply wlp_ret. eapply Inv_named_close; [|exact Hw']. done.
Qed.

Lemma wlp_fd_open_con fd path flags mode w :
  Inv_but None (Some (fd, zero_file)) w →
  wlp (fd_open_con fd path flags mode)
    (λ r w', ∃ f, Inv_but None (Some (fd, f)) w' ∧ f_off f = 0 ∧ (r ≠ -1 → target_ok (exe_fs w') f)) w.
Proof.
  intros Hw. unfold fd_open_con. apply wlp_bind. eapply wlp_upd_slot; [done..|].
  intros w1 _ Hw1. clear w Hw. revert w1 Hw1. intros w Hw.
  inv_step Hw. do 2 (case_match; [by eexists|]). inv_step Hw. case_match; [|by eexists].
  inv_step Hw. case_match. apply wlp_bind.
  eapply wlp_mono with (Q := λ _ w', Inv_but None _ w').
  { case_match; [case_match; [|by apply wlp_ret]; by apply wlp_bind, wlp_modify, wlp_ret|].
    by apply wlp_new_con_file. }
  clear dependent w. intros [p|] w Hw; [|by eexists].
  apply wlp_bind, wlp_con_at. intros c Hb Hc. apply wlp_bind. eapply wlp_upd_slot; [done..|].
  intros w1 Ew Hw1. apply wlp_bind, wlp_upd_con. intros c' Hb' Hc'.
  apply wlp_ret. eexists. split_and!.
  - apply (Inv_insert_con None); [done| |done]. intros _. by eapply (Inv_names None _ _ _ c').
  - done.
  - intros _. left. split; [done|]. exists (cp_idx p). simpl. rewrite length_insert, <- Hb'.
    split; [by destruct p|]. by eapply lookup_lt_Some.
Qed.

Lemma preserves_fd_open path flags mode : preserves Inv (fd_open path flags mode).
Proof.
  intros w Hw. unfold fd_open. apply wlp_bind, wlp_gets. case_match; [by apply preserves_fail|].
  apply wlp_bind. eapply wlp_mono; [eapply slot_zero; [done..|]; by apply Nat.eqb_neq|].
  generalize (first_free (fds (exe_env w))) as fd. clear dependent w.
  intros fd _ w Hw. inv_step Hw. apply wlp_bind.
  eapply wlp_mono; [case_match; [by apply wlp_fd_open_sym|by apply wlp_fd_open_con]|].
  clear dependent w. intros r w (f & Hw & _ & Ht). case_match; [apply wlp_ret; by eapply Inv_but_slot|].
  apply wlp_bind. eapply wlp_mono; [eapply slot_open; [done|apply Ht; lia]|].
  intros ? w' Hw'. by apply wlp_bind, wlp_modify, wlp_ret.
Qed.
Lemma preserves_open path flags mode : preserves Inv (open path flags mode).
Proof. apply preserves_fd_open. Qed.
Lemma preserves_umask m : preserves Inv (umask m).
Proof. unfold umask. preserving. Qed.
End InvDescriptors.

(** ** Runs of the primitives *)
Create HintDb run.

Section Run.
Context `{Host}.
Implicit Types w : world.

Lemma run_ret {A} (a : A) w : (mret a : FS A) w = Done a w.
Proof. done. Qed.
Lemma run_gets {A} (g : world → A) w : gets g w = Done (g w) w.
Proof. done. Qed.
Lemma run_modify g w : modify g w = Done tt (g w).
Proof. done. Qed.
Lemma run_set_errno e w : set_errno e w = Done tt (upd_errno e w).
Proof. done. Qed.
Lemma run_fail e w : fail e w = Done (-1) (upd_errno e w).
Proof. done. Qed.
Lemma run_assert b w : b = true → c_assert b w = Done tt w.
Proof. by intros ->. Qed.
Lemma run_deref {A} (o : option A) a w : o = Some a → deref o w = Done a w.
Proof. by intros ->. Qed.
Lemma run_fd_at i f w : fds (exe_env w) !! i = Some f → fd_at i w = Done f w.
Proof. intros E. unfold fd_at. erewrite bind_done by done. by rewrite E. Qed.
Lemma run_upd_fd i f g w :
  fds (exe_env w) !! i = Some f →
  upd_fd i g w = Done tt (upd_env (λ e, set_fds (<[i := g f]> (fds e)) e) w).
Proof. intros E. unfold upd_fd. by erewrite bind_done by by apply run_fd_at. Qed.
Lemma run_con_at p c w :
  cp_base p = con_base (exe_fs w) → con_files (exe_fs w) !! cp_idx p = Some c →
  con_at p w = Done c w.
Proof.
  intros Hb Hc. unfold con_at. erewrite bind_done by done. rewrite bool_decide_true by done.
  by rewrite Hc.
Qed.
Lemma run_upd_con p c g w :
  cp_base p = con_base (exe_fs w) → con_files (exe_fs w) !! cp_idx p = Some c →
  upd_con p g w = Done tt (upd_fs (λ s, set_con_files (<[cp_idx p := g c]> (con_files s)) s) w).
Proof. intros Hb Hc. unfold upd_con. by erewrite bind_done by by apply run_con_at. Qed.
Lemma run_dfile_at d x w : lookup_dfile d (exe_fs w) = Some x → dfile_at d w = Done x w.
Proof. intros E. unfold dfile_at. erewrite bind_done by done. by rewrite E. Qed.
Lemma run_upd_dfile d x g w :
  lookup_dfile d (exe_fs w) = Some x → upd_dfile d g w = Done tt (upd_fs (store_dfile d (g x)) w).
Proof. intros E. unfold upd_dfile. by erewrite bind_done by by apply run_dfile_at. Qed.
Lemma run_as_dcfile f p w : f_file f = FDcfile p → as_dcfile f w = Done p w.
Proof. intros E. unfold as_dcfile. by rewrite E. Qed.
Lemma run_as_dfile f d w : f_file f = FDfile d → as_dfile f w = Done d w.
Proof. intros E. unfold as_dfile. by rewrite E. Qed.
Lemma run_no_inject g n w : max_failures (exe_fs w) = 0 → inject g n w = Done false w.
Proof. intros E. unfold inject. erewrite bind_done by done. by rewrite E. Qed.

Lemma run_inject_hit g n w :
  max_failures (exe_fs w) ≠ 0 → g (exe_fs w) = Some n →
  inject g n w = Done true (upd_fs (set_max_failures (u32 (max_failures (exe_fs w) - 1))) w).
Proof.
  intros Hm Hg. unfold inject. erewrite bind_done by done. destruct (_ =? 0) eqn:E; [lia|].
  erewrite bind_done by by apply run_deref. by rewrite Z.eqb_refl.
Qed.
Lemma run_inject_miss g n k w :
  (max_failures (exe_fs w) ≠ 0 → g (exe_fs w) = Some k) → max_failures (exe_fs w) = 0 ∨ k ≠ n →
  inject g n w = Done false w.
Proof.
  intros Hg Hk. unfold inject. erewrite bind_done by done. destruct (_ =? 0) eqn:E; [done|].
  erewrite bind_done by (apply run_deref, Hg; lia). destruct (k =? n) eqn:E'; [|done].
  exfalso. destruct Hk; lia.
Qed.

(** [__get_file] *)
Definition open_fd w (fd : Z) (f : exe_file_t) : Prop :=
  0 ≤ fd < Z.of_nat MAX_FDS ∧ fds (exe_env w) !! Z.to_nat fd = Some f ∧
  testflag (f_flags f) eOpen = true.
Lemma run_get_file fd f w : open_fd w fd f → get_file fd w = Done (Some (Z.to_nat fd)) w.
Proof.
  intros (Hr & Hf & Ho). unfold get_file.
  rewrite (proj2 (Z.leb_le 0 fd)), (proj2 (Z.ltb_lt fd (Z.of_nat MAX_FDS))) by lia. simpl.
  erewrite bind_done by by apply run_fd_at. by rewrite Ho.
Qed.
(** A number that is no open descriptor. *)
Definition closed_fd w (fd : Z) : Prop :=
  ¬ (0 ≤ fd < Z.of_nat MAX_FDS) ∨
  ∃ f, fds (exe_env w) !! Z.to_nat fd = Some f ∧ testflag (f_flags f) eOpen = false.
Lemma run_get_file_closed fd w :
  0 ≤ fd < Z.of_nat MAX_FDS → closed_fd w fd → get_file fd w = Done None w.
Proof.
  intros Hr [?|(f & Hf & Ho)]; [done|]. unfold get_file.
  rewrite (proj2 (Z.leb_le 0 fd)), (proj2 (Z.ltb_lt fd (Z.of_nat MAX_FDS))) by lia. simpl.
  erewrite bind_done by by apply run_fd_at. by rewrite Ho.
Qed.
Lemma run_get_file_bad fd w : closed_fd w fd → get_file fd w = Done None w.
Proof.
  intros Hc. destruct (decide (0 ≤ fd < Z.of_nat MAX_FDS)) as [Hr|Hr]; [by apply run_get_file_closed|].
  unfold get_file. destruct (0 <=? fd) eqn:E1, (fd <? Z.of_nat MAX_FDS) eqn:E2; simpl; try done. lia.
Qed.

(** ** Changes seen through the state's fields *)
Lemma lookup_upd_fd w i f g :
  fds (exe_env w) !! i = Some f →
  fds (exe_env (upd_env (λ e, set_fds (<[i := g]> (fds e)) e) w)) !! i = Some g.
Proof. intros E. simpl. apply list_lookup_insert_eq. by eapply lookup_lt_Some. Qed.
Lemma lookup_upd_con w i c g :
  con_files (exe_fs w) !! i = Some c →
  con_files (exe_fs (upd_fs (λ s, set_con_files (<[i := g]> (con_files s)) s) w)) !! i = Some g.
Proof. intros E. simpl. apply list_lookup_insert_eq. by eapply lookup_lt_Some. Qed.
End Run.

#[export] Hint Resolve run_ret run_gets run_modify run_set_errno run_fail run_assert run_deref
  run_fd_at run_upd_fd run_con_at run_upd_con run_dfile_at run_upd_dfile run_as_dcfile
  run_as_dfile run_no_inject run_get_file run_get_file_bad lookup_upd_fd lookup_upd_con : run.

(** One statement, and all of them. *)
Ltac running1 := erewrite bind_done by solve [eauto 3 with run nocore].
Ltac running := repeat (running1; cbv beta iota zeta).
