(* ===== verification/FsReach.v ===== *)
(** * Start-up and the reachable states

    [klee_init_fds] establishes the invariant; the runtime's entry points as a
    type [call] with its executor [exec]; the states reachable from start-up by
    sequences of calls, and the invariant that holds in all of them. *)
From S2P Require Import Prelude FsTypes FsCore FsPath FsOpen FsIO FsMeta FsDir FsCtl FsInit HostModel FsFrame FsInv FsInvOps.

Section Reach.
Context `{Host}.
Implicit Types w : world.

(** ** Start-up *)
Lemma valid_mono s s' f :
  con_base s = con_base s' → (length (con_files s) ≤ length (con_files s'))%nat →
  (∀ d, is_Some (lookup_dfile d s) → is_Some (lookup_dfile d s')) →
  valid_file s f → valid_file s' f.
Proof.
  intros Hb Hl Hd Hv Ho. destruct (Hv Ho) as [(? & i & E & ?)|(? & d & E & ?)].
  - left. split; [done|]. exists i. rewrite <- Hb. split; [done|lia].
  - right. eauto.
Qed.

(** The tables with every descriptor closed. *)
Definition masked w : world := upd_env (set_fds (replicate MAX_FDS zero_file)) w.

(** Start-up has set the standard descriptors below [k]; [bi] and [bo]: the
    standard input and output are not symbolic so far. *)
Record init_ok (k : nat) (bi bo : bool) w : Prop := mkInitOk {
  io_tables : Inv (masked w);
  io_fds : length (fds (exe_env w)) = MAX_FDS;
  io_valid : ∀ i f, fds (exe_env w) !! i = Some f → (i < k ∨ 3 ≤ i)%nat → valid_file (exe_fs w) f;
  io_types : ∀ i f, fds (exe_env w) !! i = Some f → (k ≤ i < 3)%nat → f_type f = CONCRETE_FILE;
  io_con : length (con_files (exe_fs w)) = INITIAL_CON_FILES;
  io_stdin : bi → sym_stdin (exe_fs w) = None;
  io_stdout : bo → sym_stdout (exe_fs w) = None }.

#[global] Instance init_ok_table k bi bo : TableProp (init_ok k bi bo).
Proof.
  intros w w' E [Ht Hf Hv Hty Hc Hi Ho]. pose proof E as [Efs Eenv].
  assert (same_tables (masked w) (masked w')) as Em.
  { split; simpl; [done|]. by rewrite Eenv. }
  constructor; rewrite <- ?Eenv; [by eapply table_prop|done| |done|..];
    destruct (exe_fs w), (exe_fs w'); simplify_eq; done.
Qed.

Lemma init_done bi bo w : init_ok 3 bi bo w → Inv w.
Proof.
  intros [[[] _] Hf Hv _ _ _ _]. split; [|done]. split; try done.
  intros i f Hi. apply (Hv i); [done|lia].
Qed.

(** The next descriptor is set. *)
Lemma init_set_fd k bi bo w f :
  init_ok k bi bo w → (k < 3)%nat → valid_file (exe_fs w) f →
  init_ok (S k) bi bo (upd_env (λ e, set_fds (<[k := f]> (fds e)) e) w).
Proof.
  intros [Ht Hf Hv Hty Hc Hi Ho] Hk Hfile. constructor; simpl; try done.
  - by rewrite length_insert.
  - intros i f' Hi' Hlt. apply list_lookup_insert_Some in Hi' as [(<- & <- & _)|[Hne Hi']]; [done|].
    eapply Hv; [done|lia].
  - intros i f' Hi' Hlt. apply list_lookup_insert_Some in Hi' as [(-> & <- & _)|[Hne Hi']]; [lia|].
    eapply Hty; [done|lia].
Qed.

(** A change to the records or the standard streams. *)
Lemma init_upd_fs k (bi bo bi' bo' : bool) w g :
  init_ok k bi bo w → Inv (masked (upd_fs g w)) →
  con_base (exe_fs w) = con_base (g (exe_fs w)) →
  length (con_files (g (exe_fs w))) = length (con_files (exe_fs w)) →
  (∀ d, is_Some (lookup_dfile d (exe_fs w)) → is_Some (lookup_dfile d (g (exe_fs w)))) →
  (bi' → sym_stdin (g (exe_fs w)) = None) → (bo' → sym_stdout (g (exe_fs w)) = None) →
  init_ok k bi' bo' (upd_fs g w).
Proof.
  intros [Ht Hf Hv Hty Hc Hi Ho] HI Hb Hl Hd. constructor; simpl; try done; [|by rewrite Hl].
  intros i f Hi' Hlt. eapply valid_mono; [done|lia|done|eauto].
Qed.

Lemma init_setup_std_fd k bi bo path flag w :
  init_ok k bi bo w → (k < 3)%nat →
  wlp (setup_std_fd k k path flag) (λ _, init_ok (S k) bi bo) w.
Proof.
  intros Hw Hk. unfold setup_std_fd. apply wlp_bind, wlp_gets, wlp_bind, wlp_upd_fd.
  intros f Hf. set (w1 := upd_env _ w).
  assert (init_ok (S k) bi bo w1) as Hw1.
  { apply init_set_fd; [done..|]. intros _. left. split; [simpl; eapply io_types; [done..|lia]|].
    exists k. split; [done|]. rewrite (io_con _ _ _ _ Hw). unfold INITIAL_CON_FILES. lia. }
  apply wlp_bind. eapply (wlp_preserves (init_ok (S k) bi bo)); [preserving|done|].
  intros fd w2 Hw2. apply wlp_upd_con. intros c _ Hc. pose proof Hw2 as [Ht ? ? ? ? ? ?].
  eapply init_upd_fs; [done| |done|simpl; by rewrite length_insert|by intros []|done..].
  apply (Inv_insert_con None None None (masked w2)); [done| |done]. intros _. right. eauto.
Qed.

(** ** Symbolic files *)
Lemma read_only_create size name st : read_only (create_new_dfile size name st).
Proof. unfold create_new_dfile. reading. Qed.
Hint Resolve read_only_create : preserve.
Lemma read_only_create_files n k len st : read_only (create_files n k len st).
Proof. revert k. induction n as [|n IH]; intros k; simpl; reading. Qed.
Lemma read_only_sym_int s : read_only (sym_int s).
Proof. unfold sym_int. reading. Qed.

Lemma wlp_any {A} (m : FS A) (Q : A → world → Prop) w : (∀ a w', Q a w') → wlp m Q w.
Proof. intros HQ. unfold wlp. destruct (m w); auto. Qed.
Lemma make_symbolic_length name n w : wlp (klee_make_symbolic name n) (λ l _, length l = n) w.
Proof. apply wlp_bind, wlp_any. intros f w'. apply wlp_ret. by rewrite length_fmap, length_seq. Qed.

Lemma create_new_dfile_wf size name st w :
  0 ≤ size < 2 ^ 32 → wlp (create_new_dfile size name st) (λ d _, wf_disk d) w.
Proof.
  intros Hs. unfold create_new_dfile. apply wlp_bind, wlp_any. intros _ w1.
  apply wlp_bind. eapply wlp_mono; [apply make_symbolic_length|]. intros l w2 Hl.
  apply wlp_bind, wlp_any. intros s w3. do 3 (apply wlp_bind, wlp_any; intros _ ?).
  apply wlp_ret. split; simpl; [rewrite Hl|]; lia.
Qed.
Lemma create_files_wf n k len st w :
  0 ≤ len < 2 ^ 32 → wlp (create_files n k len st) (λ l _, length l = n ∧ Forall wf_disk l) w.
Proof.
  intros Hlen. revert k w. induction n as [|n IH]; intros k w; simpl; [by apply wlp_ret|].
  apply wlp_bind. eapply wlp_mono; [by apply create_new_dfile_wf|]. intros d w1 Hd.
  apply wlp_bind. eapply wlp_mono; [apply IH|]. intros l w2 [Hl Hf].
  apply wlp_ret. split; [by simpl; rewrite Hl|by constructor].
Qed.

(** Both a property of the result and what the tables keep. *)
Lemma wlp_and {A} (m : FS A) (Q R : A → world → Prop) w :
  wlp m Q w → wlp m R w → wlp m (λ a w', Q a w' ∧ R a w') w.
Proof. unfold wlp. by destruct (m w). Qed.

Lemma init_tables_ok n len st h w :
  0 ≤ len < 2 ^ 32 → same_tables (initial_world h) w →
  wlp (init_tables n len st) (λ _, init_ok 0 true true) w.
Proof.
  intros Hlen Hw. unfold init_tables. apply wlp_bind. eapply wlp_mono.
  { apply wlp_and; [by apply create_files_wf|].
    by apply (read_only_preserves (same_tables (initial_world h)) _ _ (read_only_create_files _ _ _ _)). }
  clear w Hw. intros l w [[Hl Hf] [Efs Eenv]]. apply wlp_modify.
  assert (sym_stdin (exe_fs w) = None ∧ sym_stdout (exe_fs w) = None) as [Ei Eo].
  { destruct (exe_fs w). simplify_eq. done. }
  constructor; simpl; rewrite <- ?Eenv; try done.
  - split; [|done]. split; simpl; try done.
    + intros i c [-> _]%(lookup_replicate INITIAL_CON_FILES fresh_con) _. by left.
    + intros i f [-> _]%(lookup_replicate MAX_FDS zero_file). done.
    + by rewrite Hl.
    + intros [k| |] x; simpl; [|by rewrite Ei|by rewrite Eo].
      intros Hx. eapply Forall_lookup_1; eauto.
  - intros i f Hi [?|Hge]; [lia|]. do 3 (destruct i as [|i]; [lia|]). simpl in Hi.
    by apply (lookup_replicate 29 zero_file) in Hi as [-> _].
  - intros i f Hi Hlt. do 3 (destruct i as [|i]; [by injection Hi as <-|]). lia.
Qed.

(** A symbolic standard stream: the block is stored, then the descriptor set. *)
Lemma init_store_std k (bi bo bi' bo' : bool) i o w :
  init_ok k bi bo w → (∀ x, i = Some x → wf_disk x) → (∀ x, o = Some x → wf_disk x) →
  (is_Some (sym_stdin (exe_fs w)) → is_Some i) → (is_Some (sym_stdout (exe_fs w)) → is_Some o) →
  (bi' → i = None) → (bo' → o = None) →
  init_ok k bi' bo' (upd_fs (set_std i o) w).
Proof.
  intros Hw Hi Ho Hsi Hso Hbi Hbo. pose proof Hw as [Ht ? ? ? ? ? ?].
  eapply init_upd_fs; [done| |done|done| |done|done].
  - destruct Ht as [[? ? ? ? ? ? Hd] _]. split; [split|]; try done.
    + by intros j f [-> _]%(lookup_replicate MAX_FDS zero_file).
    + intros [d| |] x; simpl; [|apply Hi|apply Ho]. apply (Hd (SymFile d)).
  - intros [d| |]; simpl; auto.
Qed.
Lemma init_stdout_writes k bi bo n w :
  init_ok k bi bo w → init_ok k bi bo (upd_fs (set_stdout_writes n) w).
Proof.
  intros [[[] _] ? ? ? ? ? ?]. by constructor.
Qed.
Lemma init_symbolic_fd k bi bo d w :
  init_ok k bi bo w → (k < 3)%nat → is_Some (lookup_dfile d (exe_fs w)) →
  wlp (upd_fd k (λ f, set_type SYMBOLIC_FILE (set_file (FDfile d) f))) (λ _, init_ok (S k) bi bo) w.
Proof.
  intros Hw Hk Hd. apply wlp_upd_fd. intros f Hf. apply init_set_fd; [done..|]. intros _.
  right. split; [done|]. eauto.
Qed.

Lemma sym_stdin_wf k bi bo w x : init_ok k bi bo w → sym_stdin (exe_fs w) = Some x → wf_disk x.
Proof. intros [[[? ? ? ? ? ? Hd] _] ? ? ? ? ? ?] Hx. by apply (Hd SymStdin). Qed.
Lemma sym_stdout_wf k bi bo w x : init_ok k bi bo w → sym_stdout (exe_fs w) = Some x → wf_disk x.
Proof. intros [[[? ? ? ? ? ? Hd] _] ? ? ? ? ? ?] Hx. by apply (Hd SymStdout). Qed.

Lemma init_stdin_ok len st w :
  0 ≤ len < 2 ^ 32 → init_ok 0 true true w →
  wlp (init_stdin len st) (λ _, init_ok 1 false true) w.
Proof.
  intros Hlen Hw. unfold init_stdin. case_match.
  - apply wlp_bind. eapply wlp_mono.
    { apply wlp_and; [by apply (create_new_dfile_wf len)|].
      by apply (read_only_preserves (init_ok 0 true true) _ _ (read_only_create _ _ _)). }
    clear w Hw. intros d w [Hd Hw]. apply wlp_bind, wlp_modify.
    eapply wlp_mono; [apply (init_symbolic_fd 0 false true SymStdin); [|lia|done]|done].
    apply (init_store_std 0 true true); [done|by intros ? [= <-]|by intros ?; eapply sym_stdout_wf|done..|].
    by apply io_stdout in Hw.
  - apply wlp_bind. eapply wlp_mono; [apply (init_setup_std_fd 0); [done|lia]|].
    clear w Hw. intros ? w Hw; simpl in Hw. apply wlp_modify.
    apply (init_store_std 1 true true); [done|done|by intros ?; eapply sym_stdout_wf| |done..|].
    + rewrite (io_stdin _ _ _ _ Hw) by done. done.
    + by apply io_stdout in Hw.
Qed.
Lemma init_stdout_ok flag st w :
  init_ok 1 false true w → wlp (init_stdout flag st) (λ _, init_ok 2 false false) w.
Proof.
  intros Hw. unfold init_stdout. case_match.
  - apply wlp_bind. eapply wlp_mono.
    { apply wlp_and; [by apply (create_new_dfile_wf 1024)|].
      by apply (read_only_preserves (init_ok 1 false true) _ _ (read_only_create _ _ _)). }
    clear w Hw. intros d w [Hd Hw]. apply wlp_bind, wlp_modify.
    eapply wlp_mono; [apply (init_symbolic_fd 1 false false SymStdout); [|lia|done]|done].
    apply (init_stdout_writes _ _ _ _ (upd_fs (λ s, set_std (sym_stdin s) (Some d) s) w)).
    apply (init_store_std 1 false true); [done|by intros ?; eapply sym_stdin_wf|by intros ? [= <-]|done..].
  - apply wlp_bind. eapply wlp_mono; [apply (init_setup_std_fd 1); [done|lia]|].
    clear w Hw. intros ? w Hw; simpl in Hw. apply wlp_modify.
    apply (init_store_std 2 false true); [done|by intros ?; eapply sym_stdin_wf|done|done| |done..].
    rewrite (io_stdout _ _ _ _ Hw) by done. done.
Qed.

(** The failure counters and the settings are not part of the invariant. *)
Lemma init_set_failures k bi bo n : preserves (init_ok k bi bo) (set_failures n).
Proof.
  pose proof read_only_sym_int. unfold set_failures. preserving.
  apply preserves_modify. intros w [[[] _] ? ? ? ? ? ?]. by constructor.
Qed.
Lemma init_set_malloc_failures k bi bo n : preserves (init_ok k bi bo) (set_malloc_failures n).
Proof.
  pose proof read_only_sym_int. unfold set_malloc_failures. preserving.
  apply preserves_modify. intros w [[[] _] ? ? ? ? ? ?]. by constructor.
Qed.

Lemma klee_init_fds_inv n len o saw mf mmf etc ss sp h :
  0 ≤ len < 2 ^ 32 →
  wlp (klee_init_fds n len o saw mf mmf etc ss sp) (λ _, Inv) (initial_world h).
Proof.
  intros Hlen. unfold klee_init_fds, stat.
  apply (wlp_step (same_tables (initial_world h))); [preserving|done|]. intros [r st] w Hw.
  apply wlp_bind. eapply wlp_mono; [by eapply init_tables_ok|]. clear w Hw. intros ? w Hw.
  apply wlp_bind. eapply wlp_mono; [by apply init_stdin_ok|]. clear w Hw. intros ? w Hw.
  apply (wlp_step (init_ok 1 false true)); [apply init_set_failures|done|]. clear w Hw. intros ? w Hw.
  apply (wlp_step (init_ok 1 false true)); [apply init_set_malloc_failures|done|]. clear w Hw. intros ? w Hw.
  apply wlp_bind. eapply wlp_mono; [by apply init_stdout_ok|]. clear w Hw. intros ? w Hw.
  apply wlp_bind. eapply wlp_mono; [apply init_setup_std_fd; [exact Hw|lia]|]. clear w Hw. intros ? w Hw%init_done.
  unfold sym_uint32. inv_step Hw. apply wlp_bind, wlp_modify.
  eapply (wlp_preserves Inv); [preserving| |by auto]. destruct Hw as [[] _]. by split.
Qed.
End Reach.

(** ** Calls *)
Inductive call : Type :=
| COpen (path : string) (flags arg : Z)
| CClose (fd : Z)
| CRead (fd : Z) (buf : option (list Z)) (count : Z)
| CWrite (fd : Z) (buf : list Z) (count : Z)
| CLseek (fd off whence : Z)
| CFtruncate (fd len : Z)
| CDup2 (old new : Z)
| CDup (old : Z)
| CStat (path : string)
| CLstat (path : string)
| CFstat (fd : Z)
| CFstatat (fd : Z) (path : string)
| CChmod (path : string) (mode : Z)
| CFchmod (fd mode : Z)
| CChown (path : string) (owner group : Z)
| CFchown (fd owner group : Z)
| CStatfs (path : string)
| CFstatfs (fd : Z)
| CFsync (fd : Z)
| CChdir (path : string)
| CFchdir (fd : Z)
| CChroot (path : string)
| CGetcwd (size : Z)
| CReadlink (path : string) (size : Z)
| CAccess (path : string) (mode : Z)
| CRmdir (path : string)
| CMkdir (path : string) (mode : Z)
| CUnlink (path : string)
| CLink (old new : string)
| CRename (old new : string)
| CGetdents (fd count : Z)
| CIoctl (fd request : Z)
| CFcntl (fd cmd arg : Z)
| CSelect (n : Z) (r x e : option (list Z))
| CUmask (mask : Z).

Section Calls.
Context `{Host}.
Implicit Types w : world.

(** The operation behind a call and the integer it returns. *)
Definition exec (c : call) : FS Z :=
  match c with
  | COpen p fl a => open p fl a
  | CClose fd => close fd
  | CRead fd b n => '(r, _) ← read fd b n; mret r
  | CWrite fd b n => write fd b n
  | CLseek fd o wh => lseek fd o wh
  | CFtruncate fd n => ftruncate fd n
  | CDup2 a b => dup2 a b
  | CDup a => dup a
  | CStat p => '(r, _) ← stat p; mret r
  | CLstat p => '(r, _) ← lstat p; mret r
  | CFstat fd => '(r, _) ← fstat fd zero_stat; mret r
  | CFstatat fd p => '(r, _) ← fstatat fd p zero_stat; mret r
  | CChmod p m => chmod p m
  | CFchmod fd m => fchmod fd m
  | CChown p o g => chown p o g
  | CFchown fd o g => fchown fd o g
  | CStatfs p => statfs p
  | CFstatfs fd => fstatfs fd
  | CFsync fd => fsync fd
  | CChdir p => chdir p
  | CFchdir fd => fchdir fd
  | CChroot p => chroot p
  | CGetcwd n => o ← getcwd None n; mret (match o with Some _ => 1 | None => 0 end)
  | CReadlink p n => '(r, _) ← readlink p n; mret r
  | CAccess p m => access p m
  | CRmdir p => rmdir p
  | CMkdir p m => mkdir p m
  | CUnlink p => unlink p
  | CLink a b => link a b
  | CRename a b => rename a b
  | CGetdents fd n => '(r, _) ← getdents64 fd n; mret r
  | CIoctl fd r => '(r, _) ← ioctl fd r; mret r
  | CFcntl fd c a => fcntl fd c a
  | CSelect n r x e => '(r, _) ← select n r x e; mret r
  | CUmask m => umask m
  end.

(** A [rename] that fails may leave a record in use without names
    ([rename_failed_breaks_lookup]); the other calls may fail. *)
Definition regular (c : call) (r : Z) : Prop :=
  match c with CRename _ _ => r = 0 | _ => True end.

Inductive step w w' : Prop :=
| step_call c r : exec c w = Done r w' → regular c r → step w w'.

Inductive reachable (h : hst) : world → Prop :=
| reach_init n len o saw mf mmf etc ss sp w :
    0 ≤ len < 2 ^ 32 →
    klee_init_fds n len o saw mf mmf etc ss sp (initial_world h) = Done tt w → reachable h w
| reach_step w w' : reachable h w → step w w' → reachable h w'.

Lemma preserves_done {A} (I : world → Prop) (m : FS A) w a w' :
  preserves I m → I w → m w = Done a w' → I w'.
Proof. intros Hm Hw E. specialize (Hm w Hw). unfold wlp in Hm. by rewrite E in Hm. Qed.

Lemma preserves_exec c : (∀ a b, c ≠ CRename a b) → preserves Inv (exec c).
Proof.
  pose proof preserves_open. pose proof preserves_close. pose proof preserves_read.
  pose proof preserves_write. pose proof preserves_lseek. pose proof preserves_ftruncate.
  pose proof preserves_dup2. pose proof preserves_dup. pose proof preserves_link.
  pose proof preserves_getdents. pose proof preserves_fcntl. pose proof preserves_umask.
  intros Hc. destruct c; simpl;
    unfold ftruncate, lseek, stat, lstat, fstat, statfs, getdents64; try by preserving. all: by destruct (Hc _ _ eq_refl).
Qed.

Lemma step_inv w w' : Inv w → step w w' → Inv w'.
Proof.
  intros Hw [c r E Hr]. 
  assert ((∃ a b, c = CRename a b) ∨ ∀ a b, c ≠ CRename a b) as [(a & b & ->)|Hc]
    by (destruct c; naive_solver).
  - pose proof (wlp_rename a b w Hw) as Hn. unfold wlp in Hn. simpl in E. rewrite E in Hn. auto.
  - by eapply preserves_done; [apply preserves_exec|..].
Qed.

Lemma reachable_wf h w : reachable h w → Inv w.
Proof.
  induction 1 as [n len o saw mf mmf etc ss sp w Hlen E|w w' _ IH Hs].
  - pose proof (klee_init_fds_inv n len o saw mf mmf etc ss sp h Hlen) as Hi.
    unfold wlp in Hi. by rewrite E in Hi.
  - by eapply step_inv.
Qed.
End Calls.

(** The state after start-up with two symbolic files of 8 bytes, on the small
    host; and after opening a host file and writing to it. *)
Definition demo_w0 : world :=
  final (klee_init_fds 2 8 0 0 0 0 0 32 1 (initial_world demo_host)).
Definition demo_w1 : world := final (open "in.txt" O_RDWR 0 demo_w0).
Definition demo_w2 : world := final (write 3 [72; 73] 2 demo_w1).

Lemma demo_reachable : reachable demo_host demo_w2.
Proof.
  eapply (reach_step _ demo_w1); [eapply (reach_step _ demo_w0)|].
  - apply (reach_init _ 2 8 0 0 0 0 0 32 1); [lia|]. vm_compute. reflexivity.
  - apply (step_call _ _ (COpen "in.txt" O_RDWR 0) 3); [vm_compute; reflexivity|done].
  - apply (step_call _ _ (CWrite 3 [72; 73] 2) 2); [vm_compute; reflexivity|done].
Qed.

Lemma demo_inv : Inv demo_w2.
Proof. apply (reachable_wf (H:=small_host) demo_host), demo_reachable. Qed.
Lemma demo_inv1 : Inv demo_w1.
Proof.
  apply (reachable_wf (H:=small_host) demo_host). eapply (reach_step _ demo_w0).
  - apply (reach_init _ 2 8 0 0 0 0 0 32 1); [lia|]. vm_compute. reflexivity.
  - apply (step_call _ _ (COpen "in.txt" O_RDWR 0) 3); [vm_compute; reflexivity|done].
Qed.

(** C23: in every state that is reached from start-up, for any host and any
    symbolic input, by any sequence of the runtime's calls that return, failing
    calls included except a [rename] that fails (it can leave a record in use
    without names, [rename_failed_breaks_lookup]), the tables are well formed:
    there are [MAX_FDS] descriptors, every open one points into the current array
    of records (the record may be free again) or to an existing symbolic file,
    every record in use has its name array, the counts are the lengths of the
    tables, and every symbolic file has the bytes its size announces. *)
Theorem reachable_inv `{Host} (h : hst) (w : world) : reachable h w → Inv w.
Proof. apply reachable_wf. Qed.

Lemma reachable_inv_witness : reachable demo_host demo_w2 ∧ Inv demo_w2.
Proof. split; [apply demo_reachable|]. apply (reachable_inv (H:=small_host) demo_host). apply demo_reachable. Defined.
