(* ===== verification/FsLookup.v ===== *)
(** * The table of concrete files

    What [find_con_file] returns, and that [enlarge_con_files] moves every
    record and every pointer to it. *)
From S2P Require Import Prelude FsTypes FsCore FsPath FsOpen FsIO FsMeta FsDir FsInit HostModel FsFrame FsInv FsInvOps FsReach.

(** The record is in use under [name]. *)
Definition has_name (name : string) (c : exe_disk_con_file_t) : Prop :=
  cf_state c ≠ CON_STATE_FREE ∧ ∃ l, cf_name c = PTo l ∧ Some name ∈ l.

Lemma name_loop_spec name l n :
  length l = n → name_loop name l n = Some (bool_decide (Some name ∈ l)).
Proof.
  revert n. induction l as [|o l IH]; intros [|n] Hl; simplify_eq/=.
  - done.
  - destruct (decide (o = Some name)) as [->|Hne].
    + rewrite !bool_decide_true; [done|by apply list_elem_of_here|done].
    + rewrite (bool_decide_false (o = _)), IH by done. f_equal. apply bool_decide_ext.
      rewrite elem_of_cons. naive_solver.
Qed.

(** What the outer loop returns from index [i] on. *)
Record found (name : string) (cs : list exe_disk_con_file_t) (i : nat) (free o fr : option nat) : Prop := mkFound {
  found_hit : ∀ k, o = Some k → (i ≤ k)%nat ∧ ∃ c, cs !! k = Some c ∧ has_name name c;
  found_first : ∀ j c, (i ≤ j)%nat → (∀ k, o = Some k → (j < k)%nat) → cs !! j = Some c → ¬ has_name name c;
  found_free : fr = free ∨ ∃ k c, fr = Some k ∧ cs !! k = Some c ∧ cf_state c = CON_STATE_FREE;
  found_full : o = None → fr = None →
    free = None ∧ ∀ j c, (i ≤ j)%nat → cs !! j = Some c → cf_state c ≠ CON_STATE_FREE }.

Lemma find_from_spec name cs n i free :
  (i + n = length cs)%nat → (∀ j c, cs !! j = Some c → names_ok c) →
  ∃ o fr, find_con_file_from name cs n i free = Some (o, fr) ∧ found name cs i free o fr.
Proof.
  intros Hn Hcs. revert i free Hn. induction n as [|n IH]; intros i free Hn; simpl.
  { exists None, free. split; [done|]. split; [done| |by left|split; [done|]]; intros j c Hj.
    - intros _ Hc%lookup_lt_Some. lia.
    - intros Hc%lookup_lt_Some. lia. }
  destruct (lookup_lt_is_Some_2 cs i) as [c Hc]; [lia|]. rewrite Hc. simpl.
  case_bool_decide as Hst.
  - destruct (IH (S i) (Some i)) as (o & fr & -> & [Hh Hf Hfr Hfull]); [lia|].
    exists o, fr. split; [done|]. split.
    + intros k Hk. destruct (Hh k Hk). split; [lia|done].
    + intros j c' Hj Hlt Hc' Hn'. destruct (decide (j = i)) as [->|].
      * simplify_eq. by destruct Hn'.
      * eapply (Hf j); [lia|done..].
    + right. destruct Hfr as [->|?]; eauto.
    + intros Ho Hfn. by destruct (Hfull Ho Hfn).
  - destruct (Hcs i c Hc) as [?|(l & El & Hl)]; [done|]. rewrite El, name_loop_spec by done. simpl.
    case_bool_decide as Hin.
    + exists (Some i), free. split; [done|]. split; [| |by left|done].
      * intros k [= <-]. split; [lia|]. exists c. split; [done|]. split; [done|eauto].
      * intros j c' Hj Hlt. specialize (Hlt i eq_refl). lia.
    + destruct (IH (S i) free) as (o & fr & -> & [Hh Hf Hfr Hfull]); [lia|].
      exists o, fr. split; [done|]. split; [| |done|].
      * intros k Hk. destruct (Hh k Hk). split; [lia|done].
      * intros j c' Hj Hlt Hc' (Hs & l' & El' & Hin'). destruct (decide (j = i)) as [->|].
        -- assert (l' = l) as -> by congruence. done.
        -- eapply (Hf j); [lia|done..|]. split; eauto.
      * intros Ho Hfn. destruct (Hfull Ho Hfn) as [? Hall]. split; [done|].
        intros j c' Hj Hc'. destruct (decide (j = i)) as [->|]; [by simplify_eq|].
        eapply Hall; [|done]. lia.
Qed.

Lemma find_con_file_run `{Host} (w : world) name :
  Inv w → ∃ o fr,
    find_con_file name w =
      Done (mkConPtr (con_base (exe_fs w)) <$> o, mkConPtr (con_base (exe_fs w)) <$> fr) w ∧
    found name (con_files (exe_fs w)) 0 None o fr.
Proof.
  intros [[? Hl ? Hn ? ? ?] _].
  destruct (find_from_spec name (con_files (exe_fs w)) (length (con_files (exe_fs w))) 0 None)
    as (o & fr & E & Hf); [done|by intros; eapply Hn|].
  exists o, fr. split; [|done]. unfold find_con_file. running1.
  rewrite <- Hl, Nat2Z.id, E. done.
Qed.

(** in a well-formed state [find_con_file] always returns, without an
    access outside a live object and without changing the state.  The record
    it returns is the first one in use under the name, and when it returns
    NULL no record is in use under it.  The free slot it reports is a free
    record, and when it reports neither a record nor a slot every record of
    the array is in use, which is when the array is enlarged. *)
Theorem find_con_file_correct `{Host} (w : world) (name : string) :
  Inv w →
  let cs := con_files (exe_fs w) in
  let at_ k := mkConPtr (con_base (exe_fs w)) k in
  ∃ o fr, find_con_file name w = Done (at_ <$> o, at_ <$> fr) w ∧
    (∀ k, o = Some k → ∃ c, cs !! k = Some c ∧ has_name name c ∧
       ∀ j c', (j < k)%nat → cs !! j = Some c' → ¬ has_name name c') ∧
    (o = None → ∀ j c, cs !! j = Some c → ¬ has_name name c) ∧
    (∀ k, fr = Some k → ∃ c, cs !! k = Some c ∧ cf_state c = CON_STATE_FREE) ∧
    (o = None → fr = None → ∀ j c, cs !! j = Some c → cf_state c ≠ CON_STATE_FREE).
Proof.
  intros Hw. destruct (find_con_file_run w name Hw) as (o & fr & E & [Hh Hf Hfr Hfull]).
  exists o, fr. split_and!; [done|..].
  - intros k ->. destruct (Hh k eq_refl) as (_ & c & Hc & Hn). exists c. split_and!; [done..|].
    intros j c' Hj. apply Hf; [lia|]. by intros ? [= <-].
  - intros -> j c. apply Hf; [lia|done].
  - intros k ->. destruct Hfr as [|(k' & c & [= <-] & ?)]; [done|eauto].
  - intros Ho Hn j c. destruct (Hfull Ho Hn) as [_ Ha]. apply Ha. lia.
Qed.

Lemma find_con_file_correct_witness :
  Inv demo_w2 ∧ ∃ o fr, find_con_file "/w/in.txt" demo_w2 = Done (o, fr) demo_w2.
Proof.
  split; [exact demo_inv|].
  destruct (find_con_file_correct (H:=small_host) demo_w2 "/w/in.txt" demo_inv) as (o & fr & E & _).
  eexists _, _. exact E.
Defined.

Section Enlarge.
Context `{Host}.
Implicit Types w : world.

Definition enlarged w : world :=
  let s := exe_fs w in
  let base := S (con_base s) in
  upd_env (λ e, set_fds (relocate (con_base s) base <$> fds e) e)
    (upd_fs (set_con_alloc base (u32 (n_con_files s * 2))
      (con_files s ++ replicate (Z.to_nat (n_con_files s)) fresh_con)) w).

Lemma enlarge_run w :
  n_con_files (exe_fs w) * 2 < 2 ^ 32 →
  enlarge_con_files w =
    Done (mkConPtr (S (con_base (exe_fs w))) (Z.to_nat (n_con_files (exe_fs w)))) (enlarged w).
Proof.
  intros Hn. unfold enlarge_con_files. running1.
  destruct (2 ^ 32 <=? _) eqn:E; [lia|]. done.
Qed.

Lemma con_at_fault p w : cp_base p ≠ con_base (exe_fs w) → con_at p w = Halt MemoryError w.
Proof. intros Hb. unfold con_at. running1. by rewrite bool_decide_false. Qed.
End Enlarge.

(** [enlarge_con_files] in a well-formed state with room to double the
    array: it returns a free record of the new array; every record keeps its
    index and value; every open descriptor of a concrete file reads the same
    record through its new pointer, the rest of its entry unchanged, while the
    old pointer no longer points to a live object; every other entry of the
    descriptor table is unchanged; and the state is well formed again. *)
Theorem enlarge_con_files_relocates `{Host} (w : world) :
  Inv w → 0 < n_con_files (exe_fs w) → n_con_files (exe_fs w) * 2 < 2 ^ 32 →
  ∃ p c w', enlarge_con_files w = Done p w' ∧ Inv w' ∧
    con_at p w' = Done c w' ∧ cf_state c = CON_STATE_FREE ∧
    n_con_files (exe_fs w') = 2 * n_con_files (exe_fs w) ∧
    (∀ k c, con_files (exe_fs w) !! k = Some c → con_files (exe_fs w') !! k = Some c) ∧
    (∀ i f q c, fds (exe_env w) !! i = Some f → testflag (f_flags f) eOpen = true →
       f_file f = FDcfile q → con_at q w = Done c w →
       ∃ q', fds (exe_env w') !! i = Some (set_file (FDcfile q') f) ∧
         con_at q' w' = Done c w' ∧ con_at q w' = Halt MemoryError w') ∧
    (∀ i f, fds (exe_env w) !! i = Some f →
       testflag (f_flags f) eOpen = false ∨ f_type f = SYMBOLIC_FILE →
       fds (exe_env w') !! i = Some f).
Proof.
  intros Hw Hpos Hn. pose proof (enlarge_run w Hn) as E. eexists _, fresh_con, _.
  assert (Inv (enlarged w)) as Hw' by (eapply (preserves_done Inv); [apply preserves_enlarge|done..]).
  destruct Hw as [[? Hl ? _ Hv _ _] _]. split_and!; [exact E|done|..].
  - apply run_con_at; [done|]. simpl. rewrite lookup_app_r by lia. apply lookup_replicate_2. lia.
  - done.
  - simpl. wrap_lia.
  - intros k c Hk. simpl. by apply lookup_app_l_Some.
  - intros i f q c Hi Ho Eq Hq. destruct (Hv i f Hi Ho) as [(Ht & k & Ek & Hk)|(_ & d & Ek & _)]; [|congruence].
    exists (mkConPtr (S (con_base (exe_fs w))) k). assert (q = mkConPtr (con_base (exe_fs w)) k) as -> by congruence.
    split_and!.
    + simpl. rewrite list_lookup_fmap, Hi. simpl. unfold relocate. rewrite Ht, Ho, Eq. simpl.
      by rewrite bool_decide_true.
    + apply run_con_at; [done|]. simpl. apply lookup_app_l_Some.
      apply lookup_lt_is_Some_2 in Hk as [c' Hc']. rewrite (run_con_at _ c') in Hq by done. by simplify_eq.
    + apply con_at_fault. simpl. lia.
  - intros i f Hi Hf. simpl. rewrite list_lookup_fmap, Hi. simpl. f_equal.
    destruct Hf as [Hf|Hf]; [by apply relocate_closed|]. unfold relocate. by rewrite Hf.
Qed.

Lemma enlarge_con_files_relocates_witness :
  ∃ p w', enlarge_con_files demo_w2 = Done p w' ∧ n_con_files (exe_fs w') = 64.
Proof.
  destruct (enlarge_con_files_relocates (H:=small_host) demo_w2) as (p & c & w' & E & _ & _ & _ & En & _);
    [exact demo_inv|vm_compute; reflexivity..|].
  exists p, w'. split; [exact E|]. rewrite En. vm_compute. reflexivity.
Defined.
