(* ===== verification/FsSpecOpen.v ===== *)
(** * The descriptor table: [open], [close], [dup2]

    What the descriptor operations promise: [open] takes the lowest free
    descriptor and leaves the others alone, [close] and [dup2] change one
    entry, an injected failure hits exactly the chosen call. *)
From S2P Require Import Prelude FsTypes FsCore FsPath FsOpen FsIO FsMeta FsDir FsInit HostModel FsFrame FsInv FsInvOps FsReach.

(** The same entry, up to the allocation its record is in. *)
Definition same_entry (f f' : exe_file_t) : Prop :=
  f_fd f = f_fd f' ∧ f_flags f = f_flags f' ∧ f_off f = f_off f' ∧ f_type f = f_type f' ∧
  match f_file f, f_file f' with
  | FDcfile p, FDcfile q => cp_idx p = cp_idx q
  | a, b => a = b
  end.

#[global] Instance same_entry_equiv : Equivalence same_entry.
Proof.
  split.
  - intros f. repeat split. by destruct (f_file f).
  - intros f g (?&?&?&?&?). repeat split; try done. by destruct (f_file f), (f_file g).
  - intros f g h (?&?&?&?&?) (?&?&?&?&?). repeat split; try congruence.
    destruct (f_file f), (f_file g), (f_file h); congruence.
Qed.

Lemma relocate_same o n f : same_entry f (relocate o n f).
Proof. unfold relocate. repeat case_match; (split_and!; [done..|]); simpl; repeat case_match; simplify_eq; done. Qed.

(** ** What stays the same while one descriptor is opened *)
Section Others.
Context `{Host}.
Implicit Types w : world.

Definition others (i : nat) (l : list exe_file_t) w : Prop :=
  length (fds (exe_env w)) = length l ∧
  ∀ j f, j ≠ i → l !! j = Some f → ∃ f', fds (exe_env w) !! j = Some f' ∧ same_entry f f'.

#[global] Instance others_table i l : TableProp (others i l).
Proof. intros w w' [_ E]. unfold others. by rewrite E. Qed.

Lemma others_upd_con i l p g : preserves (others i l) (upd_con p g).
Proof. intros w Hw. apply wlp_upd_con. by intros c _ _. Qed.
Lemma others_upd_dfile i l d g : preserves (others i l) (upd_dfile d g).
Proof.
  intros w Hw. unfold upd_dfile. apply wlp_bind, wlp_dfile_at. intros x _. by apply wlp_modify.
Qed.
Lemma others_upd_fd i l g : preserves (others i l) (upd_fd i g).
Proof.
  intros w [Hl Hw]. apply wlp_upd_fd. intros f _. split; simpl; [by rewrite length_insert|].
  intros j f' Hj Hf'. rewrite list_lookup_insert_ne by done. by apply Hw.
Qed.
Lemma others_enlarge i l : preserves (others i l) enlarge_con_files.
Proof.
  intros w [Hl Hw]. unfold enlarge_con_files. apply wlp_bind, wlp_gets.
  case_match; [apply wlp_halt|]. apply wlp_bind, wlp_modify, wlp_bind, wlp_modify, wlp_ret.
  split; simpl; [by rewrite length_fmap|]. intros j f Hj Hf.
  destruct (Hw j f Hj Hf) as (f' & Hf' & Hs). rewrite list_lookup_fmap, Hf'. eexists. split; [done|].
  etransitivity; [done|apply relocate_same].
Qed.
Hint Resolve others_upd_con others_upd_dfile others_upd_fd others_enlarge : preserve.

Lemma others_fd_open_sym i l d flags mode : preserves (others i l) (fd_open_sym i d flags mode).
Proof. unfold fd_open_sym. preserving. Qed.
Lemma others_fd_open_con i l path flags mode : preserves (others i l) (fd_open_con i path flags mode).
Proof. unfold fd_open_con, new_con_file, make_specific. preserving. Qed.
End Others.

(** ** The lowest free descriptor *)
Definition is_open (l : list exe_file_t) (i : nat) : Prop :=
  ∃ f, l !! i = Some f ∧ testflag (f_flags f) eOpen = true.

Lemma first_free_spec l :
  (∀ j, (j < first_free l)%nat → is_open l j) ∧ ¬ is_open l (first_free l) ∧ (first_free l ≤ length l)%nat.
Proof.
  induction l as [|f l (IH1 & IH2 & IH3)]; simpl.
  - split_and!; [lia| |lia]. by intros (f & ? & _).
  - destruct (testflag (f_flags f) eOpen) eqn:E.
    + split_and!; [|done|lia]. intros [|j] Hj; [by exists f|]. apply IH1. lia.
    + split_and!; [lia| |lia]. intros (f' & [= <-] & E'). congruence.
Qed.

(** What a successful [open] leaves: descriptor [r] is the lowest that was
    free, it is open with the access asked for, at offset 0, on a live file,
    and the other descriptors are the same. *)
Record opened `{Host} (flags r : Z) (w w' : world) : Prop := mkOpened {
  op_lowest : ∀ j, 0 ≤ j < r → is_open (fds (exe_env w)) (Z.to_nat j);
  op_free : ¬ is_open (fds (exe_env w)) (Z.to_nat r);
  op_range : 0 ≤ r < Z.of_nat MAX_FDS;
  op_entry : ∃ f, fds (exe_env w') !! Z.to_nat r = Some f ∧ f_flags f = access_flags flags ∧
               f_off f = 0 ∧ target_ok (exe_fs w') f;
  op_others : ∀ j f, j ≠ Z.to_nat r → fds (exe_env w) !! j = Some f →
               ∃ f', fds (exe_env w') !! j = Some f' ∧ same_entry f f' }.

Lemma others_is_open `{Host} i l (w : world) :
  others i l w → ¬ is_open l i → ¬ is_open (fds (exe_env w)) i →
  ∀ j, is_open (fds (exe_env w)) j ↔ is_open l j.
Proof.
  intros [Hl Hw] H1 H2 j. destruct (decide (j = i)) as [->|Hne]; [tauto|]. split.
  - intros (f & Hf & Ho). destruct (lookup_lt_is_Some_2 l j) as [f0 Hf0].
    { rewrite <- Hl. by eapply lookup_lt_Some. }
    destruct (Hw j f0 Hne Hf0) as (f' & Hf' & _ & E & _). simplify_eq. exists f0. split; [done|congruence].
  - intros (f & Hf & Ho). destruct (Hw j f Hne Hf) as (f' & Hf' & _ & E & _). exists f'. split; [done|congruence].
Qed.

(** The body of [__fd_open] once the entry has been chosen. *)
Lemma fd_open_entry `{Host} i l path flags mode (w : world) :
  Inv_but None (Some (i, zero_file)) w → others i l w →
  wlp (df ← get_sym_file path;
       match df with Some d => fd_open_sym i d flags mode | None => fd_open_con i path flags mode end)
    (λ r w', (∃ f, Inv_but None (Some (i, f)) w' ∧ f_off f = 0 ∧ (r ≠ -1 → target_ok (exe_fs w') f)) ∧
             others i l w') w.
Proof.
  intros Hw Ho. apply (wlp_step (λ w, Inv_but None (Some (i, zero_file)) w ∧ others i l w)); [preserving|done|].
  clear w Hw Ho. intros df w [Hw Ho]. apply wlp_and.
  - case_match; [by apply wlp_fd_open_sym|by apply wlp_fd_open_con].
  - case_match; [by apply others_fd_open_sym|by apply others_fd_open_con].
Qed.

Lemma fd_open_assoc `{Host} i path flags mode (k : Z → FS Z) (w : world) :
  (df ← get_sym_file path;
   r ← match df with Some d => fd_open_sym i d flags mode | None => fd_open_con i path flags mode end;
   k r) w =
  (r ← (df ← get_sym_file path;
        match df with Some d => fd_open_sym i d flags mode | None => fd_open_con i path flags mode end);
   k r) w.
Proof. unfold mbind, M_bind. by destruct (get_sym_file path w). Qed.

Lemma open_wlp `{Host} (path : string) (flags arg : Z) (w : world) :
  Inv w →
  wlp (open path flags arg)
    (λ r w', Inv w' ∧
       ((r = -1 ∧ ∀ j, is_open (fds (exe_env w')) j ↔ is_open (fds (exe_env w)) j) ∨
        opened flags r w w' ∧ errno w' = 0)) w.
Proof.
  intros Hw. apply wlp_and; [by apply preserves_open|]. unfold open, fd_open.
  destruct (first_free_spec (fds (exe_env w))) as (Hlow & Hfree & Hlen).
  apply wlp_bind, wlp_gets. set (i := first_free (fds (exe_env w))) in *.
  case_match eqn:Hi; [apply wlp_bind, wlp_modify, wlp_ret; by left|]. apply Nat.eqb_neq in Hi.
  assert (i < MAX_FDS)%nat as Hlt by (destruct Hw as [[Hl _ _ _ _ _ _] _]; lia).
  set (l := fds (exe_env w)) in *.
  assert (others i l w) as Ho by (split; [done|]; intros j f _ Hf; exists f; by split).
  apply wlp_bind. eapply wlp_mono; [apply wlp_and; [by eapply slot_zero|by apply others_upd_fd]|].
  clear Ho. intros ? w1 [Hw1 Ho1]. unfold wlp. rewrite fd_open_assoc. apply wlp_bind.
  eapply wlp_mono; [by apply fd_open_entry|]. clear dependent w1.
  intros r w2 [(f & [Hw2 [Hf Hc]] & Hoff & Ht) Ho2]. case_match.
  - apply wlp_ret. left. split; [done|]. apply (others_is_open i); [done..|].
    intros (f' & Hf' & Ho'). congruence.
  - apply wlp_bind, wlp_upd_fd. intros f' Hf'. simplify_eq. apply wlp_bind, wlp_modify, wlp_ret.
    right. split; [|done]. destruct Ho2 as [_ Ho2]. split; rewrite ?Nat2Z.id; [|done|lia|..].
    + intros j Hj. apply Hlow. lia.
    + exists (set_flags (access_flags flags) f). simpl. split_and!; [|done..|apply Ht; lia].
      apply list_lookup_insert_eq. by eapply lookup_lt_Some.
    + intros j f0 Hj Hf0. simpl. rewrite list_lookup_insert_ne by done. by apply Ho2.
Qed.

(** ** Symbolic files by name *)
Section SymFiles.
Context `{Host}.
Implicit Types w : world.

Lemma get_sym_file_from_letter w k x n i :
  (i ≤ k < i + n)%nat → (k < 63)%nat → sym_files (exe_fs w) !! k = Some x →
  get_sym_file_from (65 + Z.of_nat k) n i w =
    Done (if st_ino (df_stat x) =? 0 then None else Some (SymFile k)) w.
Proof.
  intros Hk Hs Hx. revert i Hk. induction n as [|n IH]; intros i Hk; [lia|]. simpl.
  rewrite wraps_small by (pow2_norm; lia). destruct (65 + Z.of_nat k =? 65 + Z.of_nat i) eqn:E.
  - assert (i = k) as -> by lia. erewrite bind_done by by apply run_dfile_at. done.
  - apply IH. lia.
Qed.

Lemma letter_char k : (k < 63)%nat → char_at (letter 65 (Z.of_nat k)) 0 = 65 + Z.of_nat k.
Proof.
  intros Hk. unfold char_at, letter. simpl.
  rewrite Ascii.nat_ascii_embedding; wrap_lia.
Qed.

(** The symbolic file [k] of [w], not deleted. *)
Definition sym_file w (k : nat) (x : exe_disk_file_t) : Prop :=
  (k < 63)%nat ∧ Z.of_nat k < n_sym_files (exe_fs w) ∧ sym_files (exe_fs w) !! k = Some x ∧
  st_ino (df_stat x) ≠ 0.

Lemma run_get_sym_file w k x :
  sym_file w k x → get_sym_file (letter 65 (Z.of_nat k)) w = Done (Some (SymFile k)) w.
Proof.
  intros (Hk & Hn & Hx & Hi). unfold get_sym_file. rewrite letter_char by done.
  destruct (65 + Z.of_nat k =? 0) eqn:E0; [lia|]. change (char_at (letter 65 (Z.of_nat k)) 1) with 0. simpl.
  erewrite bind_done by done.
  rewrite (get_sym_file_from_letter w k x) by (done || lia).
  by rewrite (proj2 (Z.eqb_neq _ _) Hi).
Qed.

(** The error an [open] of a symbolic file reports. *)
Definition sym_open_error (flags : Z) (x : exe_disk_file_t) : option Z :=
  if testflag flags O_CREAT && testflag flags O_EXCL then Some EEXIST
  else if testflag flags O_EXCL then Some EACCES
  else if has_permission flags (df_stat x) then None else Some EACCES.

Lemma testflag_zero x : testflag x O_RDONLY = false.
Proof. unfold testflag, O_RDONLY. by rewrite Z.land_0_r. Qed.

Definition sym_opened_mode (m mode : Z) (x : exe_disk_file_t) : exe_disk_file_t :=
  set_df_stat (set_st_mode
    (Z.lor (Z.land (st_mode (df_stat x)) (Z.lnot 511)) (Z.land mode (Z.lnot m))) (df_stat x)) x.

Lemma fd_open_sym_run w i d x flags mode f :
  fds (exe_env w) !! i = Some f → lookup_dfile d (exe_fs w) = Some x →
  let w1 := upd_env (λ e, set_fds (<[i := set_file (FDfile d) f]> (fds e)) e) w in
  fd_open_sym i d flags mode w =
    match sym_open_error flags x with
    | Some e => Done (-1) (upd_errno e w1)
    | None => Done 0 (upd_env (λ e, set_fds (<[i := set_type SYMBOLIC_FILE (set_file (FDfile d) f)]> (fds e)) e)
        (upd_fs (store_dfile d (sym_opened_mode (env_umask (exe_env w)) mode x)) w1))
    end.
Proof.
  intros Hf Hx w1. unfold fd_open_sym, sym_open_error. rewrite testflag_zero, andb_false_r.
  erewrite bind_done by by apply run_upd_fd. fold w1.
  destruct (testflag flags O_CREAT && testflag flags O_EXCL) eqn:E1; [done|].
  assert (testflag flags O_EXCL && negb (testflag flags O_CREAT) = testflag flags O_EXCL) as ->.
  { by destruct (testflag flags O_CREAT), (testflag flags O_EXCL). }
  destruct (testflag flags O_EXCL) eqn:E2; [done|].
  erewrite bind_done by by apply run_dfile_at.
  destruct (has_permission flags (df_stat x)); simpl; [|done].
  erewrite bind_done by done. erewrite bind_done by by apply run_upd_dfile.
  erewrite bind_done; [|apply run_upd_fd; by eapply lookup_upd_fd]. done.
Qed.
End SymFiles.

Lemma others_insert `{Host} (w : world) i f :
  others i (fds (exe_env w)) (upd_env (λ e, set_fds (<[i := f]> (fds e)) e) w).
Proof.
  split; [apply length_insert|]. intros j f' Hj Hf. exists f'. split; [|done].
  rewrite <- Hf. by apply list_lookup_insert_ne.
Qed.
Lemma closed_insert l i f : testflag (f_flags f) eOpen = false → ¬ is_open l i → ¬ is_open (<[i := f]> l) i.
Proof.
  intros Hf Hn (f' & [(_ & <- & _)|[? ?]]%list_lookup_insert_Some & Ho); [congruence|done].
Qed.

(** [open] of the symbolic file ['A' + k] with a free descriptor always
    returns.  With O_CREAT and O_EXCL it fails with EEXIST, with O_EXCL alone
    or without permission with EACCES; then no descriptor is opened and no file
    changes.  Otherwise the lowest free descriptor becomes an entry for that
    file at offset 0 with the access of the flags, errno is 0, and the file's
    permission bits become [mode & ~umask], where [mode] is 0 without O_CREAT. *)
Theorem open_symbolic_file `{Host} (w : world) (k : nat) (x : exe_disk_file_t) (flags arg : Z) :
  sym_file w k x → length (fds (exe_env w)) = MAX_FDS →
  let i := first_free (fds (exe_env w)) in
  (i < MAX_FDS)%nat →
  let mode := if testflag flags O_CREAT then u32 arg else 0 in
  ∃ w',
    match sym_open_error flags x with
    | Some e => open (letter 65 (Z.of_nat k)) flags arg w = Done (-1) w' ∧ errno w' = e ∧
        exe_fs w' = exe_fs w ∧ (∀ j, is_open (fds (exe_env w')) j ↔ is_open (fds (exe_env w)) j)
    | None => open (letter 65 (Z.of_nat k)) flags arg w = Done (Z.of_nat i) w' ∧ errno w' = 0 ∧
        fds (exe_env w') =
          <[i := mkFile 0 (access_flags flags) 0 (FDfile (SymFile k)) SYMBOLIC_FILE]> (fds (exe_env w)) ∧
        exe_fs w' = store_dfile (SymFile k) (sym_opened_mode (env_umask (exe_env w)) mode x) (exe_fs w)
    end.
Proof.
  intros Hk Hlen i Hi mode. pose proof (proj1 (proj2 (first_free_spec (fds (exe_env w))))) as Hfree.
  destruct (lookup_lt_is_Some_2 (fds (exe_env w)) i) as [f0 Hf0]; [lia|]. unfold open, fd_open.
  erewrite bind_done by done. fold i. destruct (i =? MAX_FDS)%nat eqn:E; [apply Nat.eqb_eq in E; lia|].
  erewrite bind_done by by apply run_upd_fd.
  erewrite bind_done by by apply (run_get_sym_file _ k x).
  set (w0 := upd_env _ w).
  pose proof (fd_open_sym_run w0 i (SymFile k) x flags mode zero_file) as Er.
  destruct (sym_open_error flags x) as [e|].
  - erewrite bind_done; [|apply Er; [by eapply lookup_upd_fd|apply Hk]].
    eexists. split; [done|]. split; [done|]. split; [done|]. intros j.
    assert (∀ l (f g : exe_file_t), <[i:=f]> (<[i:=g]> l) = <[i:=f]> l) as Eins
      by (intros; apply list_insert_insert_eq).
    simpl. rewrite Eins. apply (others_is_open i _ _ (others_insert w i _)); [done|]. by apply closed_insert.
  - erewrite bind_done; [|apply Er; [by eapply lookup_upd_fd|apply Hk]]. change (0 =? -1) with false. cbv iota.
    erewrite bind_done; [|apply run_upd_fd; eapply lookup_upd_fd, lookup_upd_fd, lookup_upd_fd, Hf0].
    erewrite bind_done by done. eexists. split; [done|]. split; [done|]. split; [|done].
    simpl. by rewrite !list_insert_insert_eq.
Qed.

Lemma open_symbolic_file_witness :
  ∃ w', open "A" O_RDONLY 0 demo_w1 = Done 4 w' ∧ errno w' = 0.
Proof.
  destruct (open_symbolic_file (H:=small_host) demo_w1 0
    (mkDisk 8 [65; 66; 67; 68; 69; 70; 71; 72]
      (mkStat64 1 5 (S_IFREG + 420) 1 1000 1000 0 8 4096 8 0 0 0)) O_RDONLY 0) as (w' & E & Ee & _).
  - repeat split; vm_compute; (reflexivity || lia || discriminate).
  - vm_compute. reflexivity.
  - vm_compute. lia.
  - exists w'. split; [exact E|exact Ee].
Defined.

(** C34: [open] in a well-formed state, whatever the path, flags and host.
    If it returns, either it returns -1 and exactly the same descriptors are open
    as before, or it returns the lowest descriptor that was free, which is now
    open with the access of the flags, at offset 0, on a file of the tables, while
    every other descriptor keeps its flags, offset, host descriptor and file, and
    errno is 0.  When all descriptors are open it returns -1 with errno EMFILE and
    changes nothing else.  When some descriptor is free and the path names a
    symbolic file that the flags may open, it does return such a descriptor. *)
Theorem open_lowest_descriptor `{Host} (path : string) (flags arg : Z) (w : world) :
  Inv w →
  wlp (open path flags arg)
    (λ r w', Inv w' ∧
       ((r = -1 ∧ ∀ j, is_open (fds (exe_env w')) j ↔ is_open (fds (exe_env w)) j) ∨
        opened flags r w w' ∧ errno w' = 0)) w ∧
  ((∀ j, (j < MAX_FDS)%nat → is_open (fds (exe_env w)) j) →
     open path flags arg w = Done (-1) (upd_errno EMFILE w)) ∧
  (∀ k x j, path = letter 65 (Z.of_nat k) → sym_file w k x → sym_open_error flags x = None →
     (j < MAX_FDS)%nat → ¬ is_open (fds (exe_env w)) j →
     ∃ r w', open path flags arg w = Done r w' ∧ opened flags r w w' ∧ errno w' = 0).
Proof.
  intros Hw. pose proof (open_wlp path flags arg w Hw) as Ho. split; [done|].
  destruct (first_free_spec (fds (exe_env w))) as (Hlow & Hfree & Hlen).
  assert (length (fds (exe_env w)) = MAX_FDS) as Hl by (by destruct Hw as [[? _ _ _ _ _ _] _]). split.
  - intros Hall. unfold open, fd_open. erewrite bind_done by done.
    destruct (first_free (fds (exe_env w)) =? MAX_FDS)%nat eqn:E; [done|].
    apply Nat.eqb_neq in E. destruct Hfree. apply Hall. lia.
  - intros k x j -> Hk He Hj Hc.
    assert (first_free (fds (exe_env w)) < MAX_FDS)%nat as Hi.
    { destruct (decide (first_free (fds (exe_env w)) < MAX_FDS)%nat); [done|]. destruct Hc. apply Hlow. lia. }
    destruct (open_symbolic_file w k x flags arg Hk Hl Hi) as (w' & Hr). rewrite He in Hr. destruct Hr as (E & _).
    unfold wlp in Ho. rewrite E in Ho. destruct Ho as [_ [[? _]|[Ho Ee]]]; [lia|]. by eexists _, _.
Qed.

Lemma open_lowest_descriptor_witness :
  Inv demo_w1 ∧ result (open "B" O_WRONLY 0 demo_w1) = Some 4 ∧
  opened O_WRONLY 4 demo_w1 (final (open "B" O_WRONLY 0 demo_w1)).
Proof.
  assert (result (open "B" O_WRONLY 0 demo_w1) = Some 4) as E by (vm_compute; reflexivity).
  split; [exact demo_inv1|]. split; [exact E|].
  destruct (wlp_result _ _ _ _ (proj1 (open_lowest_descriptor (H:=small_host) "B" O_WRONLY 0 demo_w1 demo_inv1)) E)
    as [_ [[Er _]|[Ho _]]]; [discriminate Er|exact Ho].
Defined.

(** ** [close] *)
Section Close.
Context `{Host}.
Implicit Types w : world.

Definition count_close w : world :=
  upd_calls (λ c, mkCalls (s32 (n_close c + 1)) (n_read c) (n_write c) (n_chmod c)
    (n_fchmod c) (n_ftruncate c) (n_getcwd c)) w.

(** The record of a closed concrete file loses a reference. *)
Definition drop_ref (f : exe_file_t) (s : exe_file_system_t) : exe_file_system_t :=
  match f_file f with
  | FDcfile p =>
      match con_files s !! cp_idx p with
      | Some c => set_con_files (<[cp_idx p := set_refcnt (s32 (cf_refcnt c - 1)) c]> (con_files s)) s
      | None => s
      end
  | _ => s
  end.

(** The release of an open entry, after the failure injection. *)
Lemma close_release i f w :
  Inv w → fds (exe_env w) !! i = Some f → testflag (f_flags f) eOpen = true →
  (f' ← fd_at i;
   (if f_type f' =? CONCRETE_FILE then
      p ← as_dcfile f'; upd_con p (λ c, set_refcnt (s32 (cf_refcnt c - 1)) c)
    else mret tt);;
   upd_fd i (λ _, zero_file);;
   mret 0) w =
  Done 0 (upd_env (λ e, set_fds (<[i := zero_file]> (fds e)) e) (upd_fs (drop_ref f) w)).
Proof.
  intros Hw Hf Ho. running1.
  destruct (Inv_valid None None w i f Hw Hf Ho) as [(Ht & k & Ek & Hk)|(Ht & d & Ed & Hd)]; rewrite Ht; simpl.
  - apply lookup_lt_is_Some_2 in Hk as [c Hc].
    erewrite bind_done; [|erewrite bind_done by (by apply run_as_dcfile); by apply (run_upd_con _ c)].
    erewrite bind_done by by apply run_upd_fd. unfold drop_ref. rewrite Ek. simpl. unfold upd_fs. simpl.
    by rewrite Hc.
  - erewrite bind_done by done. erewrite bind_done by by apply run_upd_fd.
    unfold drop_ref. rewrite Ed. by destruct w.
Qed.
End Close.

(** C35: [close] of an open descriptor in a well-formed state always returns.
    When a failure is planned for this call it returns -1 with EIO, one failure
    fewer is left, and the descriptor stays open; otherwise it returns 0, the
    descriptor is free, the other descriptors are unchanged and the record of a
    concrete file loses one reference.  With no descriptor under the number it
    returns -1 with EBADF and the tables are unchanged. *)
Theorem close_correct `{Host} (w : world) (fd k : Z) :
  Inv w → (max_failures (exe_fs w) ≠ 0 → close_fail (exe_fs w) = Some k) →
  let n := s32 (n_close (calls w) + 1) in
  (closed_fd w fd → ∃ w', close fd w = Done (-1) w' ∧ errno w' = EBADF ∧
     exe_fs w' = exe_fs w ∧ exe_env w' = exe_env w) ∧
  (∀ f, open_fd w fd f → max_failures (exe_fs w) ≠ 0 ∧ k = n →
     ∃ w', close fd w = Done (-1) w' ∧ errno w' = EIO ∧ exe_env w' = exe_env w ∧
       exe_fs w' = set_max_failures (u32 (max_failures (exe_fs w) - 1)) (exe_fs w)) ∧
  (∀ f, open_fd w fd f → max_failures (exe_fs w) = 0 ∨ k ≠ n →
     ∃ w', close fd w = Done 0 w' ∧ closed_fd w' fd ∧
       fds (exe_env w') = <[Z.to_nat fd := zero_file]> (fds (exe_env w)) ∧
       exe_fs w' = drop_ref f (exe_fs w)).
Proof.
  intros Hw Hk n. unfold close. split; [|split].
  - intros Hc. running1. erewrite bind_done by by apply run_get_file_bad.
    eexists. split; [done|]. done.
  - intros f (Hr & Hf & Ho) [Hm ->]. running1. erewrite bind_done by by apply (run_get_file _ f).
    cbv beta iota. running1. erewrite bind_done; [|by apply (run_inject_hit _ _ (count_close w)); auto].
    eexists. split; [done|]. done.
  - intros f (Hr & Hf & Ho) Hne. running1. erewrite bind_done by by apply (run_get_file _ f).
    cbv beta iota. running1.
    erewrite bind_done; [|by apply (run_inject_miss _ _ k (count_close w)); auto]. cbv iota.
    rewrite (close_release _ f) by done. eexists. split; [done|]. split_and!; [|done|done].
    right. exists zero_file. split; [|done]. eapply (lookup_upd_fd _ _ f). done.
Qed.

(** A start-up with one failure to inject, at the second [close]. *)
Definition demo_f0 : world :=
  final (klee_init_fds 1 8 0 0 1 0 0 32 1 (initial_world demo_host)).
Lemma demo_f0_inv : Inv demo_f0.
Proof.
  apply (reachable_wf (H:=small_host) demo_host), (reach_init _ 1 8 0 0 1 0 0 32 1); [lia|].
  vm_compute. reflexivity.
Qed.
Definition demo_f1 : world := final (close 2 demo_f0).
Lemma demo_f1_inv : Inv demo_f1.
Proof.
  apply (preserves_done Inv (close 2) demo_f0 0); [apply preserves_close|apply demo_f0_inv|].
  vm_compute. reflexivity.
Qed.

Lemma demo_f0_open2 : open_fd demo_f0 2 (mkFile 2 9 0 (FDcfile (mkConPtr 1 2)) 1).
Proof. by repeat split; vm_compute. Qed.
Lemma demo_f1_open1 : open_fd demo_f1 1 (mkFile 1 9 0 (FDcfile (mkConPtr 1 1)) 1).
Proof. by repeat split; vm_compute. Qed.

Lemma close_correct_witness :
  (∃ w', close 2 demo_f0 = Done 0 w' ∧ closed_fd w' 2) ∧
  (∃ w', close 1 demo_f1 = Done (-1) w' ∧ errno w' = EIO).
Proof.
  split.
  - destruct (close_correct (H:=small_host) demo_f0 2 2) as (_ & _ & Hc);
      [exact demo_f0_inv|vm_compute; reflexivity|].
    destruct (Hc _ demo_f0_open2) as (w' & E & Hcl & _); [right; vm_compute; discriminate|].
    exists w'. split; [exact E|exact Hcl].
  - destruct (close_correct (H:=small_host) demo_f1 1 2) as (_ & Hc & _);
      [exact demo_f1_inv|vm_compute; reflexivity|].
    destruct (Hc _ demo_f1_open1) as (w' & E & Ee & _); [split; vm_compute; [discriminate|reflexivity]|].
    exists w'. split; [exact E|exact Ee].
Defined.

(** ** [dup2] *)
Section Dup.
Context `{Host}.
Implicit Types w : world.

Definition add_ref (f : exe_file_t) (s : exe_file_system_t) : exe_file_system_t :=
  match f_file f with
  | FDcfile p =>
      match con_files s !! cp_idx p with
      | Some c => set_con_files (<[cp_idx p := set_refcnt (s32 (cf_refcnt c + 1)) c]> (con_files s)) s
      | None => s
      end
  | _ => s
  end.

(** [close] when no failures are planned. *)
Lemma close_run fd f w :
  Inv w → max_failures (exe_fs w) = 0 → open_fd w fd f →
  close fd w = Done 0 (upd_env (λ e, set_fds (<[Z.to_nat fd := zero_file]> (fds e)) e)
                         (upd_fs (drop_ref f) (count_close w))).
Proof.
  intros Hw Hm (Hr & Hf & Ho). unfold close. running1. erewrite bind_done by by apply (run_get_file _ f).
  cbv beta iota. running1. erewrite bind_done by by apply run_no_inject. cbv iota.
  by rewrite (close_release _ f).
Qed.

Lemma closed_flag w i f :
  fds (exe_env w) !! i = Some f → testflag (f_flags f) eOpen = true ∨ testflag (f_flags f) eOpen = false.
Proof. destruct (testflag (f_flags f) eOpen); auto. Qed.

(** The copy of the entry of descriptor [i] to entry [j]. *)
Lemma dup2_copy (r : Z) i j f g w :
  Inv w → fds (exe_env w) !! i = Some f → testflag (f_flags f) eOpen = true →
  fds (exe_env w) !! j = Some g → i ≠ j →
  (f' ← fd_at i;
   upd_fd j (λ _, f');;
   (if f_type f' =? CONCRETE_FILE then
      p ← as_dcfile f'; upd_con p (λ c, set_refcnt (s32 (cf_refcnt c + 1)) c)
    else mret tt);;
   upd_fd j (λ f2, set_flags (Z.land (f_flags f2) (Z.lnot eCloseOnExec)) f2);;
   mret r) w =
  Done r
    (upd_env (λ e, set_fds (<[j := set_flags (Z.land (f_flags f) (Z.lnot eCloseOnExec)) f]> (fds e)) e)
       (upd_fs (add_ref f) w)).
Proof.
  intros Hw Hf Ho Hg Hne. running1. erewrite bind_done by by apply run_upd_fd.
  destruct (Inv_valid None None w i f Hw Hf Ho) as [(Ht & k & Ek & Hk)|(Ht & d & Ed & Hd)]; rewrite Ht; simpl.
  - apply lookup_lt_is_Some_2 in Hk as [c Hc].
    erewrite bind_done; [|erewrite bind_done by (by apply run_as_dcfile); by apply (run_upd_con _ c)].
    erewrite bind_done; [|eapply run_upd_fd, (lookup_upd_fd _ _ g); done].
    unfold add_ref. rewrite Ek. unfold upd_fs, upd_env, mret, M_ret. simpl. rewrite Hc.
    by rewrite list_insert_insert_eq.
  - erewrite bind_done by done. erewrite bind_done; [|eapply run_upd_fd, (lookup_upd_fd _ _ g); done].
    unfold add_ref. rewrite Ed. unfold upd_fs, upd_env, mret, M_ret. simpl.
    by rewrite list_insert_insert_eq.
Qed.
End Dup.

(** [dup2] of an open descriptor to another number in range, with no
    failures planned, always returns the new number.  The new entry is a copy of
    the old one, close-on-exec cleared: same file, access and offset, so the
    two offsets move separately afterwards; a file that was open under the new
    number is closed first; every other entry is unchanged, and a concrete
    file's record gains one reference. *)
Theorem dup2_copies_entry `{Host} (w : world) (old new : Z) (f : exe_file_t) :
  Inv w → max_failures (exe_fs w) = 0 → open_fd w old f → 0 ≤ new < Z.of_nat MAX_FDS → old ≠ new →
  ∃ w', dup2 old new w = Done new w' ∧
    fds (exe_env w') =
      <[Z.to_nat new := set_flags (Z.land (f_flags f) (Z.lnot eCloseOnExec)) f]> (fds (exe_env w)) ∧
    (closed_fd w new → exe_fs w' = add_ref f (exe_fs w)) ∧
    (∀ g, open_fd w new g → exe_fs w' = add_ref f (drop_ref g (exe_fs w))).
Proof.
  intros Hw Hm Hof Hr Hne. pose proof Hof as (Hro & Hf & Ho).
  assert (length (fds (exe_env w)) = MAX_FDS) as Hlen by apply Hw.
  destruct (lookup_lt_is_Some_2 (fds (exe_env w)) (Z.to_nat new)) as [g Hg]; [lia|].
  unfold dup2. erewrite bind_done by by apply (run_get_file _ f). cbv beta iota.
  rewrite (proj2 (Z.leb_le 0 new)), (proj2 (Z.ltb_lt new (Z.of_nat MAX_FDS))) by lia. simpl.
  running1. destruct (closed_flag w _ g Hg) as [Eg|Eg]; rewrite Eg.
  - assert (open_fd w new g) as Hog by (split; [lia|done]).
    assert (Inv (final (close new w))) as Hw' by
      (eapply (preserves_done Inv); [apply (preserves_close new)|done|by erewrite close_run by done]).
    rewrite (close_run new g w) in Hw' by done. simpl in Hw'.
    erewrite bind_done; [|erewrite bind_done by (by apply (close_run new g)); done].
    erewrite dup2_copy; [|done|simpl; rewrite list_lookup_insert_ne by lia; done|done|by eapply (lookup_upd_fd _ _ g)|lia].
    eexists. split; [done|]. split_and!.
    + simpl. by rewrite list_insert_insert_eq.
    + intros [?|(g' & Hg' & E')]; [lia|congruence].
    + intros g' (_ & Hg' & _). assert (g' = g) as -> by congruence. done.
  - erewrite bind_done by done. erewrite dup2_copy by (done || lia).
    eexists. split; [done|]. split_and!; [done|done|]. intros g' (_ & Hg' & E'). congruence.
Qed.

Lemma demo_w1_open3 : open_fd demo_w1 3 (mkFile 3 13 0 (FDcfile (mkConPtr 1 31)) 1).
Proof. by repeat split; vm_compute. Qed.

Lemma dup2_copies_entry_witness : ∃ w', dup2 3 5 demo_w1 = Done 5 w' ∧
  fds (exe_env w') !! 5%nat = Some (mkFile 3 13 0 (FDcfile (mkConPtr 1 31)) 1).
Proof.
  destruct (dup2_copies_entry (H:=small_host) demo_w1 3 5 (mkFile 3 13 0 (FDcfile (mkConPtr 1 31)) 1))
    as (w' & E & Ef & _); [exact demo_inv1|vm_compute; reflexivity|exact demo_w1_open3|
      vm_compute; split; [discriminate|reflexivity]|discriminate|].
  exists w'. split; [exact E|]. rewrite Ef. vm_compute. reflexivity.
Defined.

(** [dup2] of an open descriptor to itself, with no failures planned,
    closes it: it returns the descriptor's number, and that descriptor is closed
    afterwards (POSIX asks that it be left as it is). *)
Theorem dup2_same_closes `{Host} (w : world) (fd : Z) (f : exe_file_t) :
  Inv w → max_failures (exe_fs w) = 0 → open_fd w fd f →
  ∃ w', dup2 fd fd w = Done fd w' ∧ closed_fd w' fd ∧ get_file fd w' = Done None w'.
Proof.
  intros Hw Hm Hof. pose proof Hof as (Hr & Hf & Ho).
  unfold dup2. erewrite bind_done by by apply (run_get_file _ f). cbv beta iota.
  rewrite (proj2 (Z.leb_le 0 fd)), (proj2 (Z.ltb_lt fd (Z.of_nat MAX_FDS))) by lia. simpl.
  running1. rewrite Ho. erewrite bind_done; [|erewrite bind_done by (by apply (close_run fd f)); done].
  set (w1 := upd_env _ _). assert (fds (exe_env w1) !! Z.to_nat fd = Some zero_file) as E1
    by by eapply (lookup_upd_fd _ _ f).
  erewrite bind_done by by apply run_fd_at. erewrite bind_done by by eapply run_upd_fd.
  simpl. erewrite bind_done by done.
  erewrite bind_done; [|eapply run_upd_fd, (lookup_upd_fd _ _ zero_file); done].
  set (w2 := upd_env _ _). assert (closed_fd w2 fd) as Hc.
  { right. eexists. split; [eapply (lookup_upd_fd _ _ zero_file), (lookup_upd_fd _ _ zero_file); done|done]. }
  exists w2. split; [done|]. split; [done|by apply run_get_file_bad].
Qed.

Lemma dup2_same_closes_witness : ∃ w', dup2 3 3 demo_w1 = Done 3 w' ∧ closed_fd w' 3.
Proof.
  destruct (dup2_same_closes (H:=small_host) demo_w1 3 (mkFile 3 13 0 (FDcfile (mkConPtr 1 31)) 1))
    as (w' & E & Hc & _); [exact demo_inv1|vm_compute; reflexivity|exact demo_w1_open3|].
  exists w'. split; [exact E|exact Hc].
Defined.
