(* ===== verification/FsSpecIO.v ===== *)
(** * Contents: [read], [write], [lseek], [ftruncate]

    The functional behaviour of the data operations.  An in-memory file refines
    an abstract file, a list of bytes ([view]); [overwrite] is POSIX's write on
    it, with the gap past the end filled with zeros. *)
From S2P Require Import Prelude FsTypes FsCore FsPath FsOpen FsIO FsMeta FsDir FsInit HostModel FsFrame FsInv FsInvOps FsReach.

(** ** Descriptors of the two kinds *)
Section Descriptors.
Context `{Host}.
Implicit Types w : world.

Record sym_fd w (fd : Z) (f : exe_file_t) (d : dfile_ref) (x : exe_disk_file_t) : Prop := mkSymFd {
  sf_open : open_fd w fd f;
  sf_type : f_type f = SYMBOLIC_FILE;
  sf_file : f_file f = FDfile d;
  sf_disk : lookup_dfile d (exe_fs w) = Some x;
  sf_wf : wf_disk x }.

Record con_fd w (fd : Z) (f : exe_file_t) (p : con_ptr) (c : exe_disk_con_file_t) : Prop := mkConFd {
  xf_open : open_fd w fd f;
  xf_type : f_type f = CONCRETE_FILE;
  xf_file : f_file f = FDcfile p;
  xf_base : cp_base p = con_base (exe_fs w);
  xf_con : con_files (exe_fs w) !! cp_idx p = Some c }.

(** The entry of descriptor [fd] at a new offset. *)
Definition at_offset (fd off : Z) (f : exe_file_t) w : world :=
  upd_env (λ e, set_fds (<[Z.to_nat fd := set_off off f]> (fds e)) e) w.
Definition counted_read w : world :=
  upd_calls (λ c, mkCalls (n_close c) (s32 (n_read c + 1)) (n_write c) (n_chmod c)
    (n_fchmod c) (n_ftruncate c) (n_getcwd c)) w.
Definition counted_write w : world :=
  upd_calls (λ c, mkCalls (n_close c) (n_read c) (s32 (n_write c + 1)) (n_chmod c)
    (n_fchmod c) (n_ftruncate c) (n_getcwd c)) w.
Definition counted_ftruncate w : world :=
  upd_calls (λ c, mkCalls (n_close c) (n_read c) (n_write c) (n_chmod c)
    (n_fchmod c) (s32 (n_ftruncate c + 1)) (n_getcwd c)) w.
End Descriptors.

(** ** Bytes *)
Definition bytes_at (l : list Z) (off count : Z) : list Z :=
  take (Z.to_nat count) (drop (Z.to_nat off) l).

Lemma slice_some l off count :
  0 ≤ off → 0 ≤ count → off + count ≤ Z.of_nat (length l) → slice l off count = Some (bytes_at l off count).
Proof. intros. unfold slice. rewrite !(proj2 (Z.leb_le _ _)) by lia. done. Qed.
Lemma length_bytes_at l off count :
  0 ≤ off → 0 ≤ count → off + count ≤ Z.of_nat (length l) → length (bytes_at l off count) = Z.to_nat count.
Proof. intros. unfold bytes_at. rewrite length_take, length_drop. lia. Qed.
Lemma store_some l off b :
  0 ≤ off → off + Z.of_nat (length b) ≤ Z.of_nat (length l) →
  store_list l off b = Some (splice (Z.to_nat off) b l).
Proof. intros. unfold store_list. rewrite !(proj2 (Z.leb_le _ _)) by lia. done. Qed.
Lemma splice_0 (b l : list Z) : splice 0 b l = b ++ drop (length b) l.
Proof. done. Qed.
Lemma bytes_at_0 l off : bytes_at l off 0 = [].
Proof. done. Qed.

Section Load.
Context `{Host}.
Implicit Types w : world.
Lemma run_load l off count w :
  0 ≤ off → 0 ≤ count → off + count ≤ Z.of_nat (length l) →
  load_ptr (PTo l) off count w = Done (bytes_at l off count) w.
Proof.
  intros. unfold load_ptr. destruct (count =? 0) eqn:E.
  - assert (count = 0) as -> by lia. done.
  - by rewrite slice_some.
Qed.
Lemma run_store l off b w :
  0 ≤ off → off + Z.of_nat (length b) ≤ Z.of_nat (length l) →
  store_ptr (PTo l) off b w = Done (PTo (splice (Z.to_nat off) b l)) w.
Proof.
  intros. unfold store_ptr. destruct (length b =? 0)%nat eqn:E.
  - apply Nat.eqb_eq, nil_length_inv in E. subst b. unfold splice. simpl.
    by rewrite Nat.add_0_r, take_drop.
  - by rewrite store_some.
Qed.
End Load.

(** The number of bytes a read of [count] at [off] yields of a file of [size]. *)
Definition avail (size off count : Z) : Z := Z.max 0 (Z.min count (size - off)).

Lemma read_count size off count :
  0 ≤ off ≤ size → 0 < count → size < 2 ^ 32 → off + count < 2 ^ 63 →
  (if size <? u64 (off + count) then u64 (size - off) else count) = avail size off count.
Proof.
  intros. unfold avail. rewrite (wrapu_small 64 (off + count)) by (pow2_norm; lia).
  destruct (size <? off + count) eqn:E; [|lia]. rewrite wrapu_small by (pow2_norm; lia). lia.
Qed.

Lemma avail_length l size off count :
  Z.of_nat (length l) = size → 0 ≤ off → 0 ≤ count →
  Z.of_nat (length (bytes_at l off (avail size off count))) = avail size off count.
Proof.
  intros Hl Ho Hc. destruct (decide (off ≤ size)).
  - rewrite length_bytes_at; unfold avail; lia.
  - assert (avail size off count = 0) as -> by (unfold avail; lia). done.
Qed.

Section Dispatch.
Context `{Host}.
Implicit Types w : world.

(** The common prefix of [read] and [write]. *)
Lemma read_dispatch fd f buf count w :
  open_fd w fd f → max_failures (exe_fs w) = 0 → 0 < count →
  read fd (Some buf) count w =
    ('(r, b') ← (if f_type f =? CONCRETE_FILE then read_con (Z.to_nat fd) f buf count
                 else read_sym (Z.to_nat fd) f buf count);
     mret (r, Some b')) (counted_read w).
Proof.
  intros Hof Hm Hc. unfold read. erewrite bind_done by done. destruct (count =? 0) eqn:E0; [lia|].
  erewrite bind_done; [|by apply (run_get_file _ f)]. cbv beta iota.
  erewrite bind_done by by apply run_no_inject. cbv beta iota.
  erewrite bind_done; [|apply run_fd_at, Hof]. done.
Qed.
Lemma write_dispatch fd f buf count w :
  open_fd w fd f → max_failures (exe_fs w) = 0 →
  write fd buf count w =
    (if f_type f =? CONCRETE_FILE then write_con (Z.to_nat fd) f buf count
     else write_sym (Z.to_nat fd) f buf count) (counted_write w).
Proof.
  intros Hof Hm. unfold write. erewrite bind_done by done.
  erewrite bind_done; [|by apply (run_get_file _ f)]. cbv beta iota.
  erewrite bind_done by by apply run_no_inject. cbv beta iota.
  erewrite bind_done; [|apply run_fd_at, Hof]. done.
Qed.
Lemma lseek_dispatch fd f off whence w :
  open_fd w fd f →
  fd_lseek fd off whence w =
    (if f_type f =? CONCRETE_FILE then lseek_con (Z.to_nat fd) f off whence
     else lseek_sym (Z.to_nat fd) f off whence) w.
Proof.
  intros Hof. unfold fd_lseek. erewrite bind_done; [|by apply (run_get_file _ f)]. cbv beta iota.
  erewrite bind_done; [|apply run_fd_at, Hof]. done.
Qed.

Lemma same_offset fd f w : fds (exe_env w) !! Z.to_nat fd = Some f → at_offset fd (f_off f + 0) f w = w.
Proof.
  intros Hf. unfold at_offset, upd_env, set_fds. destruct w as [s e ? ? ? ? ?], e. simpl in *.
  rewrite Z.add_0_r, list_insert_id; [done|]. by destruct f.
Qed.

Lemma read_sym_run fd f d x buf count w :
  sym_fd w fd f d x → 0 ≤ f_off f → 0 < count ≤ Z.of_nat (length buf) → f_off f + count < 2 ^ 63 →
  let n := avail (df_size x) (f_off f) count in
  read_sym (Z.to_nat fd) f buf count w =
    Done (n, bytes_at (df_contents x) (f_off f) n ++ drop (Z.to_nat n) buf) (at_offset fd (f_off f + n) f w).
Proof.
  intros [(Hr & Hf & Ho) Ht Hd Hx [Hlen Hsz]] Hoff Hc Hov n. unfold read_sym.
  rewrite (proj2 (Z.leb_le 0 (f_off f))) by lia.
  erewrite bind_done by done. erewrite bind_done by by apply run_as_dfile.
  erewrite bind_done by by apply run_dfile_at. destruct (df_size x <? f_off f) eqn:E.
  - assert (n = 0) as -> by (unfold n, avail; lia). rewrite same_offset by done. done.
  - cbv zeta. rewrite read_count by lia. fold n.
    assert (0 ≤ n ≤ count ∧ f_off f + n ≤ df_size x) as (? & ?) by (unfold n, avail; lia).
    erewrite bind_done by (apply run_load; lia). erewrite bind_done.
    2:{ apply run_deref, store_some; [lia|]. rewrite length_bytes_at; lia. }
    erewrite bind_done by by apply run_upd_fd. rewrite splice_0, length_bytes_at by lia.
    rewrite !wraps_small by (pow2_norm; lia). done.
Qed.
End Dispatch.

(** [read] on a descriptor of a symbolic file, with a buffer of at least
    [count > 0] bytes and no failures planned, always returns: the number of
    bytes left between the offset and the end of the file, at most [count], and
    0 at the end or past it.  Exactly those bytes of the file are copied to the
    start of the buffer, the rest of the buffer is unchanged, and the offset
    moves by the count. *)
Theorem read_symbolic `{Host} (w : world) (fd : Z) (f : exe_file_t) (d : dfile_ref) (x : exe_disk_file_t)
    (buf : list Z) (count : Z) :
  sym_fd w fd f d x → max_failures (exe_fs w) = 0 → 0 ≤ f_off f →
  0 < count ≤ Z.of_nat (length buf) → f_off f + count < 2 ^ 63 →
  let n := avail (df_size x) (f_off f) count in
  let data := bytes_at (df_contents x) (f_off f) n in
  ∃ w', read fd (Some buf) count w = Done (n, Some (data ++ drop (Z.to_nat n) buf)) w' ∧
    Z.of_nat (length data) = n ∧ exe_fs w' = exe_fs w ∧
    fds (exe_env w') = <[Z.to_nat fd := set_off (f_off f + n) f]> (fds (exe_env w)).
Proof.
  intros Hfd Hm Hoff Hc Hov n data. pose proof Hfd as [Hof Ht Hd Hx [Hlen Hsz]].
  rewrite (read_dispatch fd f) by (done || lia). rewrite Ht. cbn [Z.eqb SYMBOLIC_FILE CONCRETE_FILE Pos.eqb].
  erewrite bind_done; [|by apply (read_sym_run fd f d x); [by destruct Hfd|lia..]].
  eexists. split; [done|]. split; [|done]. unfold data. apply avail_length; lia.
Qed.

Definition demo_s1 : world := final (open "A" O_RDONLY 0 demo_w1).
Definition demo_A : exe_disk_file_t :=
  mkDisk 8 [65; 66; 67; 68; 69; 70; 71; 72]
    (mkStat64 1 5 S_IFREG 1 1000 1000 0 8 4096 8 0 0 0).
Lemma demo_s1_fd : sym_fd demo_s1 4 (mkFile 0 5 0 (FDfile (SymFile 0)) 2) (SymFile 0) demo_A.
Proof. by repeat split; vm_compute. Qed.

Lemma read_symbolic_witness : ∃ w',
  read 4 (Some [1; 2; 3; 4]) 3 demo_s1 = Done (3, Some [65; 66; 67; 4]) w'.
Proof.
  destruct (read_symbolic (H:=small_host) demo_s1 4 _ _ _ [1; 2; 3; 4] 3 demo_s1_fd) as (w' & E & _);
    [by_compute..|].
  exists w'. exact E.
Defined.

(** ** [write] on symbolic files *)

(** The file after [data] has been written at [off], as far as it fits. *)
Definition sym_written (off count : Z) (buf : list Z) (x : exe_disk_file_t) : exe_disk_file_t :=
  let n := avail (df_size x) off count in
  if n =? 0 then x
  else set_df_contents (splice (Z.to_nat off) (take (Z.to_nat n) buf) (df_contents x)) x.

Section WriteSym.
Context `{Host}.
Implicit Types w : world.

Definition count_stdout (d : dfile_ref) (n : Z) (s : exe_file_system_t) : exe_file_system_t :=
  if bool_decide (d = SymStdout) then set_stdout_writes (u32 (stdout_writes s + n)) s else s.

Lemma store_same d x w : lookup_dfile d (exe_fs w) = Some x → upd_fs (store_dfile d x) w = w.
Proof.
  intros Hx. unfold upd_fs. destruct w as [s ? ? ? ? ? ?], s. destruct d; simpl in *; unfold set_sym_files, set_std; simpl.
  - by rewrite list_insert_id.
  - by rewrite Hx.
  - by rewrite Hx.
Qed.

Lemma write_sym_run fd f d x buf count w :
  sym_fd w fd f d x → save_all_writes (exe_env w) = 0 → 0 ≤ f_off f →
  0 ≤ count ≤ Z.of_nat (length buf) → f_off f + count < 2 ^ 63 →
  write_sym (Z.to_nat fd) f buf count w =
    Done count (at_offset fd (f_off f + count) f
      (upd_fs (count_stdout d (avail (df_size x) (f_off f) count))
        (upd_fs (store_dfile d (sym_written (f_off f) count buf x)) w))).
Proof.
  intros [(Hr & Hf & Ho) Ht Hd Hx [Hlen Hsz]] Hs Hoff Hc Hov. unfold write_sym.
  erewrite bind_done by by apply run_as_dfile. erewrite bind_done by by apply run_dfile_at.
  erewrite bind_done by done. set (n := avail (df_size x) (f_off f) count).
  erewrite bind_done with (a := n) (w' := w).
  2:{ rewrite Hs, (wrapu_small 64 (f_off f + count)) by (pow2_norm; lia).
      destruct (f_off f + count <=? df_size x) eqn:E1; simpl.
      - unfold n, avail. rewrite Z.max_r, Z.min_l by lia. done.
      - destruct (f_off f <? df_size x) eqn:E2.
        + rewrite wrapu_small by (pow2_norm; lia). unfold n, avail. rewrite Z.max_r, Z.min_r by lia. done.
        + unfold n, avail. rewrite Z.max_l by lia. done. }
  assert (0 ≤ n ≤ count) as Hn by (unfold n, avail; lia).
  erewrite bind_done with (w' := upd_fs (store_dfile d (sym_written (f_off f) count buf x)) w).
  2:{ unfold sym_written. fold n. destruct (n =? 0) eqn:E; [by rewrite store_same|].
      assert (f_off f + n ≤ df_size x) by (unfold n, avail in *; lia).
      erewrite bind_done by (apply run_deref, slice_some; lia).
      erewrite bind_done.
      2:{ apply run_deref, store_some; [lia|]. rewrite length_bytes_at; lia. }
      by erewrite run_upd_dfile. }
  unfold count_stdout. case_bool_decide as Hso.
  - erewrite bind_done by done. erewrite bind_done by by apply run_upd_fd.
    rewrite !wraps_small by (pow2_norm; lia). done.
  - erewrite bind_done by done. erewrite bind_done by by apply run_upd_fd.
    rewrite !wraps_small by (pow2_norm; lia). done.
Qed.
End WriteSym.

(** [write] on a descriptor of a symbolic file, with no failures planned
    and --save-all-writes off, always returns [count].  The bytes that fit
    between the offset and the end of the file are stored there, the bytes past
    the end are dropped: the file's size and every byte outside the range are
    unchanged, every other file is unchanged, and the offset moves by [count]. *)
Theorem write_symbolic `{Host} (w : world) (fd : Z) (f : exe_file_t) (d : dfile_ref) (x : exe_disk_file_t)
    (buf : list Z) (count : Z) :
  sym_fd w fd f d x → max_failures (exe_fs w) = 0 → save_all_writes (exe_env w) = 0 → 0 ≤ f_off f →
  0 ≤ count ≤ Z.of_nat (length buf) → f_off f + count < 2 ^ 63 →
  let n := avail (df_size x) (f_off f) count in
  ∃ w' x', write fd buf count w = Done count w' ∧
    fds (exe_env w') = <[Z.to_nat fd := set_off (f_off f + count) f]> (fds (exe_env w)) ∧
    lookup_dfile d (exe_fs w') = Some x' ∧ df_size x' = df_size x ∧ wf_disk x' ∧
    (∀ i, f_off f ≤ Z.of_nat i < f_off f + n → df_contents x' !! i = buf !! (i - Z.to_nat (f_off f))%nat) ∧
    (∀ i, Z.of_nat i < f_off f ∨ f_off f + n ≤ Z.of_nat i → df_contents x' !! i = df_contents x !! i) ∧
    (∀ d', d' ≠ d → lookup_dfile d' (exe_fs w') = lookup_dfile d' (exe_fs w)) ∧
    con_files (exe_fs w') = con_files (exe_fs w).
Proof.
  intros Hfd Hm Hs Hoff Hc Hov n. pose proof Hfd as [Hof Ht Hd Hx [Hlen Hsz]].
  rewrite (write_dispatch fd f) by done. rewrite Ht. cbn [Z.eqb SYMBOLIC_FILE CONCRETE_FILE Pos.eqb].
  rewrite (write_sym_run fd f d x) by (done || by destruct Hfd || lia).
  eexists _, (sym_written (f_off f) count buf x). split; [done|].
  assert (∀ d' s, lookup_dfile d' (count_stdout d n s) = lookup_dfile d' s) as Ecs.
  { intros [] s; unfold count_stdout; by case_bool_decide. }
  assert (∀ s, con_files (count_stdout d n s) = con_files s) as Ecf.
  { intros s. unfold count_stdout. by case_bool_decide. }
  assert (0 ≤ n ≤ count ∧ (n = 0 ∨ f_off f + n ≤ df_size x)) as [Hn Hfit] by (unfold n, avail; lia).
  split_and!.
  - unfold count_stdout. by case_bool_decide.
  - simpl. rewrite Ecs. erewrite lookup_store_dfile by done. by rewrite decide_True.
  - unfold sym_written. by case_match.
  - unfold sym_written, wf_disk. fold n. destruct (n =? 0) eqn:E; simpl; [done|].
    rewrite length_splice; [done|]. rewrite length_take. lia.
  - intros i Hi. unfold sym_written. fold n. destruct (n =? 0) eqn:E; simpl; [lia|].
    rewrite lookup_splice_in; [|lia|rewrite length_take; lia]. apply lookup_take_lt. lia.
  - intros i Hi. unfold sym_written. fold n. destruct (n =? 0) eqn:E; simpl; [done|].
    apply lookup_splice_out; rewrite length_take; lia.
  - intros d' Hne. simpl. rewrite Ecs. erewrite lookup_store_dfile by done. by rewrite decide_False.
  - simpl. rewrite Ecf. apply store_dfile_con.
Qed.

Definition demo_s2 : world := final (open "A" O_WRONLY 0 demo_w1).
Lemma demo_s2_fd : sym_fd demo_s2 4 (mkFile 0 9 0 (FDfile (SymFile 0)) 2) (SymFile 0) demo_A.
Proof. by_compute. Qed.

Lemma write_symbolic_witness : ∃ w' x', write 4 [1; 2; 3] 3 demo_s2 = Done 3 w' ∧
  lookup_dfile (SymFile 0) (exe_fs w') = Some x' ∧ df_size x' = 8.
Proof.
  destruct (write_symbolic (H:=small_host) demo_s2 4 _ _ _ [1; 2; 3] 3 demo_s2_fd)
    as (w' & x' & E & _ & Ex & Es & _); [by_compute..|].
  exists w', x'. split; [exact E|]. split; [exact Ex|exact Es].
Defined.

(** ** In-memory files

    [represents c v]: the record [c] is an in-memory regular file whose
    contents are the bytes [v]; the part of the buffer past the size is zero. *)
Record represents (c : exe_disk_con_file_t) (v : list Z) : Prop := mkRepr {
  rp_state : cf_state c = CON_STATE_INMEM;
  rp_mode : S_ISDIR (cf_mode c) = false;
  rp_size : cf_size c = Z.of_nat (length v);
  rp_buf : cf_size c ≤ cf_buf_size c < 2 ^ 32;
  rp_contents : (cf_contents c = PNull ∧ cf_buf_size c = 0) ∨
    cf_contents c = PTo (v ++ replicate (Z.to_nat (cf_buf_size c - cf_size c)) 0) }.

(** Writing [data] at [off] to a file of contents [v]: the gap past the end is
    filled with zeros. *)
Definition overwrite (off : nat) (data v : list Z) : list Z :=
  take off v ++ replicate (off - length v) 0 ++ data ++ drop (off + length data) v.

Lemma length_overwrite off data v :
  length (overwrite off data v) = Nat.max (length v) (off + length data).
Proof. unfold overwrite. rewrite !length_app, length_take, length_replicate, length_drop. lia. Qed.

Lemma splice_overwrite off data v k :
  (off + length data ≤ length v + k)%nat →
  splice off data (v ++ replicate k 0) =
    overwrite off data v ++ replicate (length v + k - length (overwrite off data v)) 0.
Proof.
  intros Hfit. rewrite length_overwrite. unfold splice, overwrite.
  rewrite take_app, drop_app, take_replicate, drop_replicate, <- !app_assoc.
  replace ((off - length v) `min` k)%nat with (off - length v)%nat by lia.
  replace (k - (off + length data - length v))%nat
    with (length v + k - (length v `max` (off + length data)))%nat by lia. done.
Qed.

Lemma read_overwrite off data v :
  bytes_at (overwrite off data v) (Z.of_nat off) (Z.of_nat (length data)) = data.
Proof.
  unfold bytes_at, overwrite. rewrite !Nat2Z.id, !app_assoc.
  rewrite <- (app_assoc _ data), drop_app_length' by (rewrite length_app, length_take, length_replicate; lia).
  by rewrite take_app_length.
Qed.

(** ** The doubling loops *)
Lemma grow_spec (wrap : Z → Z) (bound : Z) fuel n target :
  (∀ x, 0 ≤ x < bound → wrap x = x) → 0 < n → target * 2 ≤ bound → target ≤ n * 2 ^ Z.of_nat fuel →
  ∃ r, grow wrap fuel n target = Some r ∧ target ≤ r ∧ n ≤ r ∧ (r = n ∨ r < 2 * target).
Proof.
  intros Hwrap. revert n. induction fuel as [|fuel IH]; intros n Hn Hb Ht; simpl.
  - rewrite (proj2 (Z.leb_le target n)) by lia. exists n. split; [done|lia].
  - destruct (target <=? n) eqn:E; [exists n; split; [done|lia]|]. rewrite Hwrap by lia.
    destruct (IH (n * 2)) as (r & -> & ? & ? & ?); [lia..| |exists r; split; [done|lia]].
    rewrite Nat2Z.inj_succ, Z.pow_succ_r in Ht by lia. lia.
Qed.

Section Grow.
Context `{Host}.
Implicit Types w : world.

(** [write]'s growth: enough room, the same contents. *)
Lemma grow_contents_run c v last_pos w :
  represents c v → cf_buf_size c < 2 ^ 31 → 0 ≤ last_pos < 2 ^ 31 →
  ∃ c', grow_contents c last_pos w = Done c' w ∧ represents c' v ∧ last_pos ≤ cf_buf_size c' ∧
    cf_buf_size c' ≤ Z.max (Z.max (cf_buf_size c) 32) (2 * last_pos) ∧
    (cf_buf_size c' = 0 ∨
     cf_contents c' = PTo (v ++ replicate (Z.to_nat (cf_buf_size c' - cf_size c')) 0)) ∧
    cf_name c' = cf_name c ∧ cf_refcnt c' = cf_refcnt c ∧ cf_mode c' = cf_mode c ∧
    cf_stat c' = cf_stat c ∧ cf_fd c' = cf_fd c.
Proof.
  intros [Hst Hmode Hsize Hbuf Hcon] Hb Hl. unfold grow_contents.
  destruct (cf_buf_size c <? last_pos) eqn:E.
  2:{ exists c. split_and!; try done; [lia|lia|]. destruct Hcon as [[_ ?]|?]; auto. }
  set (start := if cf_buf_size c =? 0 then 32 else u32 (2 * cf_buf_size c)).
  assert (0 < start < 2 ^ 32 ∧ cf_size c ≤ start ∧ (start = 32 ∨ start < 2 * last_pos)) as (Hs1 & Hs2 & Hs3).
  { unfold start. destruct (_ =? 0) eqn:E0; wrap_lia. }
  destruct (grow_spec s64 (2 ^ 62) GROW_FUEL start last_pos) as (r & Hg & Hr1 & Hr2 & Hr3).
  { intros x Hx. apply wraps_small; [lia|]. change (2 ^ 62) with 4611686018427387904 in Hx. pow2_norm. lia. }
  { lia. }
  { change (2 ^ 62) with 4611686018427387904. pow2_norm. lia. }
  { change (2 ^ Z.of_nat GROW_FUEL) with (2 ^ 64). pow2_norm. lia. }
  rewrite Hg. destruct (r <? cf_size c) eqn:Er; [lia|].
  assert (r < 2 ^ 32) as Hr by (pow2_norm; lia).
  erewrite bind_done with (a := v) (w' := w).
  2:{ destruct Hcon as [[-> Hz]| ->].
      - assert (cf_size c = 0) as -> by lia. destruct v; [done|simpl in *; lia].
      - rewrite run_load; [|lia..|rewrite length_app; lia]. unfold bytes_at. rewrite drop_0.
        rewrite Hsize, Nat2Z.id, take_app_length. done. }
  erewrite bind_done with (w' := w) by by destruct Hcon as [[-> _]| ->].
  eexists. split; [done|]. rewrite wrapu_small by lia. split_and!; simpl; try done; [|lia|by right].
  split; simpl; [done..|lia|by right].
Qed.
End Grow.

(** ** [read] and [write] on in-memory files *)

(** The other fields of the record are the same. *)
Definition same_meta (c c' : exe_disk_con_file_t) : Prop :=
  cf_name c' = cf_name c ∧ cf_refcnt c' = cf_refcnt c ∧ cf_mode c' = cf_mode c ∧
  cf_stat c' = cf_stat c ∧ cf_fd c' = cf_fd c.

Section InMemory.
Context `{Host}.
Implicit Types w : world.

Definition put_con (p : con_ptr) (c : exe_disk_con_file_t) w : world :=
  upd_fs (λ s, set_con_files (<[cp_idx p := c]> (con_files s)) s) w.

Lemma write_inmem_run p c v off data w :
  cp_base p = con_base (exe_fs w) → con_files (exe_fs w) !! cp_idx p = Some c →
  represents c v → cf_buf_size c < 2 ^ 31 → 0 ≤ off → off + Z.of_nat (length data) < 2 ^ 31 →
  ∃ c', write_inmem p off data (Z.of_nat (length data)) w = Done tt (put_con p c' w) ∧
    represents c' (overwrite (Z.to_nat off) data v) ∧ same_meta c c' ∧
    cf_buf_size c' ≤ Z.max (Z.max (cf_buf_size c) 32) (2 * (off + Z.of_nat (length data))).
Proof.
  intros Hb Hc Hrep Hbuf Hoff Hlast. unfold write_inmem. erewrite bind_done by by apply run_con_at.
  cbv zeta. rewrite (wrapu_small 32 (off + _)) by (pow2_norm; lia).
  destruct (grow_contents_run c v (off + Z.of_nat (length data)) w) as
    (c1 & Hg & [Hst Hmode Hsize Hb1 Hcon] & Hroom & Hmax & Hbytes & Hmeta); [done..|lia|].
  erewrite bind_done by exact Hg. rewrite (proj2 (Z.leb_le _ _) Hroom). erewrite bind_done by done.
  assert (cf_size c1 = Z.of_nat (length v)) as Esz by done.
  set (contents := match cf_contents c1 with
                   | PTo l => PTo (splice (Z.to_nat off) data l) | q => q end).
  assert (store_ptr (cf_contents c1) off data w = Done contents w) as Estore.
  { unfold contents. destruct Hbytes as [Hz| ->].
    - assert (length data = 0%nat) as Hd by lia. unfold store_ptr. rewrite Hd. simpl.
      apply nil_length_inv in Hd as ->. destruct (cf_contents c1) as [|l|]; [done| |done].
      unfold splice. simpl. by rewrite Nat.add_0_r, take_drop.
    - apply run_store; [lia|]. rewrite length_app, length_replicate. lia. }
  erewrite bind_done by exact Estore. erewrite run_upd_con by done. eexists. split; [done|].
  split; [|split; [by destruct Hmeta as (?&?&?&?&?)|done]].
  assert ((if cf_size c1 <? off + Z.of_nat (length data) then off + Z.of_nat (length data) else cf_size c1)
    = Z.of_nat (length (overwrite (Z.to_nat off) data v))) as ->.
  { rewrite length_overwrite. destruct (_ <? _) eqn:E; lia. }
  split; simpl; [done..| |].
  - rewrite length_overwrite. lia.
  - unfold contents. destruct Hbytes as [Hz| ->].
    + destruct Hcon as [[-> _]| ->]; [by left|right]. f_equal. rewrite splice_overwrite by lia.
      do 2 f_equal. lia.
    + right. f_equal. rewrite splice_overwrite by lia. do 2 f_equal. lia.
Qed.

Lemma write_con_run fd f p c v data w :
  con_fd w fd f p c → represents c v → cf_buf_size c < 2 ^ 31 → 0 ≤ f_off f →
  f_off f + Z.of_nat (length data) < 2 ^ 31 → f_fd f ≠ 1 → f_fd f ≠ 2 →
  ∃ c', write_con (Z.to_nat fd) f data (Z.of_nat (length data)) w =
      Done (Z.of_nat (length data)) (at_offset fd (f_off f + Z.of_nat (length data)) f (put_con p c' w)) ∧
    represents c' (overwrite (Z.to_nat (f_off f)) data v) ∧ same_meta c c' ∧
    cf_buf_size c' ≤ Z.max (Z.max (cf_buf_size c) 32) (2 * (f_off f + Z.of_nat (length data))).
Proof.
  intros [(Hr & Hf & Ho) Ht Hp Hb Hc] Hrep Hbuf Hoff Hlast Hf1 Hf2. pose proof Hrep as [Hst Hmode _ _ _].
  destruct (write_inmem_run p c v (f_off f) data w) as (c' & Hw & Hc' & Hm); [done..|].
  exists c'. split; [|done]. unfold write_con.
  erewrite bind_done by by apply run_as_dcfile.
  erewrite bind_done; [|unfold check_memory_access; by rewrite (proj2 (Z.leb_le _ _)) by lia].
  erewrite bind_done by by apply run_con_at. rewrite Hst. simpl.
  erewrite bind_done by done. change (negb (0 =? 0)) with false. cbv iota.
  erewrite bind_done by by apply run_con_at. rewrite Hst. simpl. erewrite bind_done by done.
  rewrite Hmode, Nat2Z.id, firstn_all. erewrite bind_done by exact Hw.
  rewrite (wraps_small 32) by (pow2_norm; lia).
  destruct (_ =? -1) eqn:E1; [lia|]. rewrite (proj2 (Z.leb_le _ _)) by lia. erewrite bind_done by done.
  rewrite (proj2 (Z.eqb_neq _ _) Hf1), (proj2 (Z.eqb_neq _ _) Hf2). simpl.
  erewrite bind_done by by apply run_upd_fd. cbv beta.
  rewrite (wraps_small 64) by (pow2_norm; lia). done.
Qed.

Lemma read_con_run fd f p c v buf count w :
  con_fd w fd f p c → represents c v → 0 ≤ f_off f → f_fd f ≠ 0 →
  0 < count ≤ Z.of_nat (length buf) → count < 2 ^ 31 → f_off f < 2 ^ 32 →
  let n := avail (Z.of_nat (length v)) (f_off f) count in
  read_con (Z.to_nat fd) f buf count w =
    Done (n, bytes_at v (f_off f) n ++ drop (Z.to_nat n) buf) (at_offset fd (f_off f + n) f w).
Proof.
  intros [(Hr & Hf & Ho) Ht Hp Hb Hc] [Hst Hmode Hsize Hbuf Hcon] Hoff Hf0 Hcnt Hc31 Ho32 n. unfold read_con.
  erewrite bind_done by by apply run_as_dcfile. erewrite bind_done by by apply run_con_at.
  rewrite Hst. simpl. erewrite bind_done; [|unfold check_memory_access; by rewrite (proj2 (Z.leb_le _ _)) by lia].
  erewrite bind_done by done. rewrite Hmode. destruct (f_off f <? cf_size c) eqn:E.
  - cbv zeta. rewrite read_count by (pow2_norm; lia). rewrite Hsize. fold n.
    assert (0 < n ≤ count ∧ f_off f + n ≤ cf_size c) as (? & ?) by (unfold n, avail; lia).
    destruct Hcon as [[_ ?]| ->]; [lia|].
    erewrite bind_done by (apply run_load; rewrite ?length_app; lia). erewrite bind_done.
    2:{ apply run_deref, store_some; [lia|]. rewrite length_bytes_at; rewrite ?length_app; lia. }
    assert (bytes_at (v ++ replicate (Z.to_nat (cf_buf_size c - cf_size c)) 0) (f_off f) n = bytes_at v (f_off f) n) as ->.
    { unfold bytes_at. rewrite drop_app_le, take_app_le; [done|rewrite length_drop; lia|lia]. }
    rewrite splice_0, length_bytes_at by lia. rewrite (wraps_small 32) by (pow2_norm; lia).
    destruct (n =? -1) eqn:E1; [lia|]. rewrite (proj2 (Z.eqb_neq _ _) Hf0).
    erewrite bind_done by by apply run_upd_fd. cbv beta.
    rewrite (wraps_small 64) by (pow2_norm; lia). done.
  - assert (n = 0) as -> by (unfold n, avail; lia). cbn [Z.eqb Z.opp]. rewrite (proj2 (Z.eqb_neq _ _) Hf0).
    erewrite bind_done by by apply run_upd_fd. cbv beta.
    rewrite (wraps_small 64) by (pow2_norm; lia). done.
Qed.
End InMemory.

(** ** The abstract file and the refinement *)
Record afile : Type := mkAfile { a_bytes : list Z; a_off : Z }.

Inductive fop : Type :=
| FRead (buf : list Z) (count : Z)
| FWrite (data : list Z)
| FSeek (off whence : Z).

(** Offsets and sizes the theorem speaks of. *)
Definition FILE_BOUND : Z := 2 ^ 30.

Definition a_seek (a : afile) (off whence : Z) : option Z :=
  if whence =? SEEK_SET then Some off
  else if whence =? SEEK_CUR then Some (a_off a + off)
  else if whence =? SEEK_END then Some (Z.of_nat (length (a_bytes a)) + off)
  else None.

(** One operation on the abstract file; [None] outside the bounds. *)
Definition a_step (a : afile) (op : fop) : option (afile * (Z * list Z)) :=
  match op with
  | FRead buf count =>
      if bool_decide (0 < count ≤ Z.of_nat (length buf) ∧ count < FILE_BOUND) then
        let n := avail (Z.of_nat (length (a_bytes a))) (a_off a) count in
        if bool_decide (a_off a + n ≤ FILE_BOUND) then
          Some (mkAfile (a_bytes a) (a_off a + n),
                (n, bytes_at (a_bytes a) (a_off a) n ++ drop (Z.to_nat n) buf))
        else None
      else None
  | FWrite data =>
      let last := a_off a + Z.of_nat (length data) in
      if bool_decide (last < FILE_BOUND) then
        Some (mkAfile (overwrite (Z.to_nat (a_off a)) data (a_bytes a)) last,
              (Z.of_nat (length data), []))
      else None
  | FSeek off whence =>
      n ← a_seek a off whence;
      if bool_decide (0 ≤ n ≤ FILE_BOUND) then Some (mkAfile (a_bytes a) n, (n, [])) else None
  end.
Fixpoint a_run (a : afile) (ops : list fop) : option (afile * list (Z * list Z)) :=
  match ops with
  | [] => Some (a, [])
  | op :: ops' => '(a', r) ← a_step a op; '(a'', rs) ← a_run a' ops'; Some (a'', r :: rs)
  end.

#[global] Arguments avail : simpl never.
#[global] Arguments overwrite : simpl never.
#[global] Arguments bytes_at : simpl never.

Section Refine.
Context `{Host}.
Implicit Types w : world.

(** The same operation as a call on descriptor [fd]. *)
Definition f_step (fd : Z) (op : fop) : FS (Z * list Z) :=
  match op with
  | FRead buf count =>
      '(r, o) ← read fd (Some buf) count; mret (r, match o with Some b => b | None => [] end)
  | FWrite data => r ← write fd data (Z.of_nat (length data)); mret (r, [])
  | FSeek off whence => r ← lseek fd off whence; mret (r, [])
  end.
Fixpoint f_run (fd : Z) (ops : list fop) : FS (list (Z * list Z)) :=
  match ops with
  | [] => mret []
  | op :: ops' => r ← f_step fd op; rs ← f_run fd ops'; mret (r :: rs)
  end.

(** Descriptor [fd] is open on an in-memory file in abstract state [a]. *)
Record refines (fd : Z) w (a : afile) : Prop := mkRefines {
  rf_failures : max_failures (exe_fs w) = 0;
  rf_offset : 0 ≤ a_off a ≤ FILE_BOUND;
  rf_file : ∃ f p c, con_fd w fd f p c ∧ represents c (a_bytes a) ∧ f_off f = a_off a ∧
    cf_buf_size c ≤ 2 * FILE_BOUND - 1 ∧ f_fd f ≠ 0 ∧ f_fd f ≠ 1 ∧ f_fd f ≠ 2 }.

Lemma con_fd_offset w fd f p c off : con_fd w fd f p c → con_fd (at_offset fd off f w) fd (set_off off f) p c.
Proof.
  intros [(Hr & Hf & Ho) Ht Hp Hb Hc]. split; [|done..]. split; [done|]. split; [|done].
  by eapply (lookup_upd_fd _ _ f).
Qed.
Lemma con_fd_put w fd f p c c' : con_fd w fd f p c → con_fd (put_con p c' w) fd f p c'.
Proof.
  intros [Ho Ht Hp Hb Hc]. split; [done..|]. by eapply (lookup_upd_con _ _ c).
Qed.
Lemma con_fd_calls w fd f p c g : con_fd w fd f p c → con_fd (upd_calls g w) fd f p c.
Proof. by intros []. Qed.

Lemma read_refines fd w a buf count a' r :
  refines fd w a → a_step a (FRead buf count) = Some (a', r) →
  ∃ w', f_step fd (FRead buf count) w = Done r w' ∧ refines fd w' a'.
Proof.
  intros [Hm Hoff (f & p & c & Hfd & Hrep & Eo & Hb & H0 & H1 & H2)] Hstep. simpl in Hstep.
  unfold FILE_BOUND in *.
  case_bool_decide as Hc; [|done]. case_bool_decide as Hn; [|done]. simplify_eq. simpl.
  erewrite bind_done.
  2:{ rewrite (read_dispatch fd f) by first [done | lia | by destruct Hfd]. rewrite (xf_type _ _ _ _ _ Hfd). simpl.
      erewrite bind_done by (eapply (read_con_run _ _ p c);
        [by apply con_fd_calls|done|rewrite ?Eo; lia..]). reflexivity. }
  rewrite Eo. eexists. split; [done|]. split; simpl; [done|unfold FILE_BOUND, avail in *; lia|].
  exists (set_off (a_off a + avail (Z.of_nat (length (a_bytes a))) (a_off a) count) f), p, c.
  split_and!; try done. by apply con_fd_offset, con_fd_calls.
Qed.

Lemma write_refines fd w a data a' r :
  refines fd w a → a_step a (FWrite data) = Some (a', r) →
  ∃ w', f_step fd (FWrite data) w = Done r w' ∧ refines fd w' a'.
Proof.
  intros [Hm Hoff (f & p & c & Hfd & Hrep & Eo & Hb & H0 & H1 & H2)] Hstep. simpl in Hstep.
  unfold FILE_BOUND in *. case_bool_decide as Hc; [|done]. simplify_eq. simpl.
  destruct (write_con_run fd f p c (a_bytes a) data (counted_write w)) as (c' & Ew & Hrep' & Hmeta & Hmax);
    [by apply con_fd_calls|done|lia|rewrite ?Eo; lia..|done|done|].
  erewrite bind_done.
  2:{ rewrite (write_dispatch fd f) by first [done | lia | by destruct Hfd]. rewrite (xf_type _ _ _ _ _ Hfd). exact Ew. }
  eexists. split; [done|]. rewrite Eo in *.
  split; simpl; [done|unfold FILE_BOUND; lia|].
  exists (set_off (a_off a + Z.of_nat (length data)) f), p, c'. split_and!; try done.
  - by eapply con_fd_offset, con_fd_put, con_fd_calls.
  - unfold FILE_BOUND. lia.
Qed.

Lemma seek_refines fd w a off whence a' r :
  refines fd w a → a_step a (FSeek off whence) = Some (a', r) →
  ∃ w', f_step fd (FSeek off whence) w = Done r w' ∧ refines fd w' a'.
Proof.
  intros [Hm Hoff (f & p & c & Hfd & Hrep & Eo & Hb & H0 & H1 & H2)] Hstep. simpl in Hstep.
  destruct (a_seek a off whence) as [n|] eqn:En; [|done]. simpl in Hstep. unfold FILE_BOUND in *.
  case_bool_decide as Hn; [|done]. simplify_eq. unfold f_step, lseek.
  rewrite (bind_done _ _ w n (at_offset fd n f w)).
  - eexists. split; [done|]. split; simpl; [done|unfold FILE_BOUND; lia|].
    exists (set_off n f), p, c. split_and!; try done. by apply con_fd_offset.
  - pose proof Hfd as [Hof Ht Hp Hbase Hc]. rewrite (lseek_dispatch fd f), Ht by done. simpl.
    pose proof Hrep as [Hst _ Hsz Hbs _]. unfold lseek_con.
    erewrite bind_done by by apply run_as_dcfile. erewrite bind_done by by apply run_con_at.
    rewrite Hst. simpl. unfold a_seek in En. rewrite Eo.
    assert (cf_size c < 2 ^ 32) by lia.
    assert (∀ m, m = n → (if m =? -1 then e ← klee_get_errno; set_errno e;; mret (-1)
      else upd_fd (Z.to_nat fd) (set_off m);; mret m) w = Done n (at_offset fd n f w)) as Hfin.
    { intros m ->. destruct (n =? -1) eqn:E; [lia|]. erewrite bind_done; [done|]. apply run_upd_fd, Hof. }
    destruct (whence =? SEEK_SET); [simplify_eq; by apply Hfin|].
    destruct (whence =? SEEK_CUR); [simplify_eq; apply Hfin, wraps_small; [lia|pow2_norm; lia]|].
    destruct (whence =? SEEK_END); [|done].
    simplify_eq. apply Hfin. rewrite Hsz. apply wraps_small; [lia|pow2_norm; lia].
Qed.

Lemma f_step_refines fd w a op a' r :
  refines fd w a → a_step a op = Some (a', r) → ∃ w', f_step fd op w = Done r w' ∧ refines fd w' a'.
Proof. destruct op; [apply read_refines|apply write_refines|apply seek_refines]. Qed.

Lemma f_run_refines fd w a ops a' rs :
  refines fd w a → a_run a ops = Some (a', rs) → ∃ w', f_run fd ops w = Done rs w' ∧ refines fd w' a'.
Proof.
  revert w a a' rs. induction ops as [|op ops IH]; intros w a a' rs Hw Hr; simpl in *; [simplify_eq; eauto|].
  destruct (a_step a op) as [[a1 r]|] eqn:Es; simpl in Hr; [|done].
  destruct (a_run a1 ops) as [[a2 rs']|] eqn:Er; simpl in Hr; [|done]. simplify_eq.
  destruct (f_step_refines fd w a op a1 r Hw Es) as (w1 & E1 & Hw1).
  destruct (IH w1 a1 a' rs' Hw1 Er) as (w2 & E2 & Hw2).
  exists w2. split; [|done]. erewrite bind_done by exact E1. by erewrite bind_done by exact E2.
Qed.
End Refine.

(** C24: an in-memory file refines the abstract file.  From a descriptor open on
    an in-memory file in abstract state [a], every sequence of reads, writes
    and seeks whose offsets stay within 2^30 bytes runs to the end on the
    runtime (buffer growth included), returns exactly the results the abstract
    file gives (counts, the caller's buffers, new offsets; writes past the end
    leave a gap of zeros), and ends in a state that refines the abstract one. *)
Theorem in_memory_file_refines `{Host} (w : world) (fd : Z) (a a' : afile) (ops : list fop)
    (rs : list (Z * list Z)) :
  refines fd w a → a_run a ops = Some (a', rs) →
  ∃ w', f_run fd ops w = Done rs w' ∧ refines fd w' a'.
Proof. apply f_run_refines. Qed.

(** [demo_w2]: "hello" opened at descriptor 3, its first two bytes overwritten. *)
Lemma demo_refines : refines (H:=small_host) 3 demo_w2 (mkAfile [72; 73; 108; 108; 111] 2).
Proof.
  split; [by_compute|by_compute|].
  eexists (mkFile 3 13 2 (FDcfile (mkConPtr 1 31)) 1), (mkConPtr 1 31), _.
  split; [split; [by_compute|by_compute..|vm_compute; reflexivity]|].
  split; [split; [by_compute..|right; by_compute]|by_compute].
Qed.

Lemma in_memory_file_refines_witness : ∃ w',
  f_run 3 [FSeek 3 SEEK_END; FWrite [33; 34]; FSeek 1 SEEK_SET; FRead [0; 0; 0; 0; 0; 0; 0; 0; 0; 0] 10] demo_w2 =
    Done [(8, []); (2, []); (1, []); (9, [73; 108; 108; 111; 0; 0; 0; 33; 34; 0])] w'.
Proof.
  destruct (in_memory_file_refines (H:=small_host) demo_w2 3 _ (mkAfile [72; 73; 108; 108; 111; 0; 0; 0; 33; 34] 10)
    [FSeek 3 SEEK_END; FWrite [33; 34]; FSeek 1 SEEK_SET; FRead [0; 0; 0; 0; 0; 0; 0; 0; 0; 0] 10]
    [(8, []); (2, []); (1, []); (9, [73; 108; 108; 111; 0; 0; 0; 33; 34; 0])] demo_refines)
    as (w' & E & _); [vm_compute; reflexivity|]. exists w'. exact E.
Defined.

(** what is written is read back.  On a descriptor open on an in-memory
    file, writing [data] and reading [length data] bytes after seeking back to
    the offset where the write began returns all of [data], whatever the file
    held before and wherever the offset was, within 2^30 bytes. *)
Theorem write_read_roundtrip `{Host} (w : world) (fd : Z) (a : afile) (data buf : list Z) :
  refines fd w a → (0 < length data)%nat → length buf = length data →
  a_off a + Z.of_nat (length data) < FILE_BOUND →
  ∃ w' r1 r2, f_run fd [FWrite data; FSeek (a_off a) SEEK_SET; FRead buf (Z.of_nat (length data))] w =
    Done [r1; r2; (Z.of_nat (length data), data)] w'.
Proof.
  intros Hw Hd Hb Hlast. pose proof (rf_offset _ _ _ Hw) as Hoff.
  assert (∃ a' r1 r2, a_run a [FWrite data; FSeek (a_off a) SEEK_SET; FRead buf (Z.of_nat (length data))] =
    Some (a', [r1; r2; (Z.of_nat (length data), data)])) as (a' & r1 & r2 & Er).
  { set (v := overwrite (Z.to_nat (a_off a)) data (a_bytes a)). unfold FILE_BOUND in *.
    assert (avail (Z.of_nat (length v)) (a_off a) (Z.of_nat (length data)) = Z.of_nat (length data)) as Eav.
    { unfold v. rewrite length_overwrite. unfold avail. lia. }
    assert (bytes_at v (a_off a) (Z.of_nat (length data)) = data) as Ero.
    { rewrite <- (Z2Nat.id (a_off a)) by lia. apply read_overwrite. }
    unfold a_run, a_step, a_seek, mbind, option_bind. rewrite bool_decide_true by done. fold v.
    cbn [a_bytes a_off SEEK_SET Z.eqb]. rewrite bool_decide_true by done.
    rewrite bool_decide_true by (unfold FILE_BOUND; lia). cbn [a_bytes a_off]. rewrite Eav, Ero.
    rewrite bool_decide_true by (unfold FILE_BOUND; lia). rewrite Nat2Z.id, <- Hb, drop_ge, app_nil_r, Hb by done.
    eauto. }
  destruct (f_run_refines fd w a _ a' _ Hw Er) as (w' & E & _). eauto.
Qed.

Lemma write_read_roundtrip_witness : ∃ w' r1 r2,
  f_run 3 [FWrite [9; 8; 7]; FSeek 2 SEEK_SET; FRead [0; 0; 0] 3] demo_w2 = Done [r1; r2; (3, [9; 8; 7])] w'.
Proof.
  destruct (write_read_roundtrip (H:=small_host) demo_w2 3 _ [9; 8; 7] [0; 0; 0] demo_refines)
    as (w' & r1 & r2 & E); [simpl; lia|reflexivity|by_compute|].
  exists w', r1, r2. exact E.
Defined.

(** ** Termination of the growth loops *)
Lemma grow_fuel_mono wrap fuel k n target r :
  grow wrap fuel n target = Some r → grow wrap (fuel + k) n target = Some r.
Proof.
  revert n. induction fuel as [|fuel IH]; intros n; simpl.
  - destruct (target <=? n) eqn:E; [|done]. intros [= <-]. destruct k; simpl; by rewrite E.
  - destruct (target <=? n); [done|]. apply IH.
Qed.

(** [write]'s growth loop does not end for every size.  With a buffer of
    exactly 2^31 bytes the doubled size is computed in 32 bits and is 0, so that
    for a write that needs a larger buffer no number of doublings is enough. *)
Lemma grow_diverges (target : Z) (fuel : nat) :
  0 < target → grow s64 fuel (u32 (2 * 2 ^ 31)) target = None.
Proof.
  intros Ht. change (u32 (2 * 2 ^ 31)) with 0. induction fuel as [|fuel IH]; simpl.
  - by rewrite (proj2 (Z.leb_gt target 0)) by lia.
  - rewrite (proj2 (Z.leb_gt target 0)) by lia. exact IH.
Qed.

(** C37: the doubling loops of [write] and [ftruncate] end.  From a buffer size
    below 2^31 (32 for an empty buffer) and for a target below 2^31, both loops
    stop within [GROW_FUEL] doublings with a size that holds the target, below
    2^32 and less than twice the target unless the first size was enough; more
    fuel changes nothing.  The bound on the buffer is sharp for [write]: with a
    buffer of exactly 2^31 bytes no number of doublings reaches any target. *)
Theorem grow_terminates (buf_size target : Z) (k : nat) :
  0 ≤ buf_size < 2 ^ 31 → 0 ≤ target < 2 ^ 31 →
  let start_write := if buf_size =? 0 then 32 else u32 (2 * buf_size) in
  let start_trunc := if buf_size =? 0 then 32 else buf_size in
  (∃ r, grow s64 (GROW_FUEL + k) start_write target = Some r ∧ target ≤ r < 2 ^ 32 ∧
     (r = start_write ∨ r < 2 * target)) ∧
  (∃ r, grow u32 (GROW_FUEL + k) start_trunc target = Some r ∧ target ≤ r < 2 ^ 32 ∧
     (r = start_trunc ∨ r < 2 * target)) ∧
  (∀ fuel t, 0 < t → grow s64 fuel (u32 (2 * 2 ^ 31)) t = None).
Proof.
  intros Hb Ht sw st.
  assert (0 < sw < 2 ^ 32) as Hsw by (unfold sw; destruct (_ =? 0) eqn:E; wrap_lia).
  assert (0 < st < 2 ^ 32) as Hst by (unfold st; destruct (_ =? 0) eqn:E; pow2_norm; lia).
  assert (∀ s, 0 < s → target ≤ s * 2 ^ Z.of_nat GROW_FUEL) as Hf.
  { intros s Hs. change (2 ^ Z.of_nat GROW_FUEL) with (2 ^ 64). pow2_norm. lia. }
  split_and!; [| |intros; by apply grow_diverges].
  - destruct (grow_spec s64 (2 ^ 62) GROW_FUEL sw target) as (r & Hg & ? & ? & ?);
      [intros x Hx; apply wraps_small; [lia|]|lia|pow2_norm; lia|by apply Hf, Hsw|].
    { change (2 ^ 62) with 4611686018427387904 in Hx. pow2_norm. lia. }
    exists r. split; [by apply grow_fuel_mono|pow2_norm; lia].
  - destruct (grow_spec u32 (2 ^ 32) GROW_FUEL st target) as (r & Hg & ? & ? & ?);
      [intros x Hx; by apply wrapu_small|lia|pow2_norm; lia|by apply Hf, Hst|].
    exists r. split; [by apply grow_fuel_mono|pow2_norm; lia].
Qed.

Lemma grow_terminates_witness : ∃ r, grow s64 (GROW_FUEL + 7) 10 100 = Some r ∧ 100 ≤ r.
Proof.
  destruct (grow_terminates 5 100 7) as [(r & E & Hr & _) _]; [by_compute..|].
  exists r. split; [exact E|apply Hr].
Defined.

(** ** [ftruncate] *)
Section Truncate.
Context `{Host}.
Implicit Types w : world.

Lemma ftruncate_dispatch fd f p c len w :
  con_fd w fd f p c → max_failures (exe_fs w) = 0 →
  fd_ftruncate fd len w =
    (c' ← grow_to c len; upd_con p (λ _, set_size (u32 len) c');; mret 0) (counted_ftruncate w).
Proof.
  intros [Hof Ht Hp Hb Hc] Hm. unfold fd_ftruncate. erewrite bind_done; [|by apply (run_get_file _ f)].
  erewrite bind_done by done. cbv beta iota. erewrite bind_done by by apply run_no_inject. cbv beta iota.
  erewrite bind_done; [|apply run_fd_at, Hof]. rewrite Ht. change (CONCRETE_FILE =? SYMBOLIC_FILE) with false.
  cbv iota. erewrite bind_done by by apply run_as_dcfile. by erewrite bind_done by by apply run_con_at.
Qed.

(** The in-memory file whose buffer is not NULL. *)
Definition buffered (c : exe_disk_con_file_t) : Prop := cf_contents c ≠ PNull.

Lemma grow_to_run c v len w :
  represents c v → cf_buf_size c < 2 ^ 31 → Z.of_nat (length v) ≤ len < 2 ^ 31 →
  ∃ c', grow_to c len w = Done c' w ∧
    represents (set_size len c') (v ++ replicate (Z.to_nat len - length v) 0) ∧ same_meta c c'.
Proof.
  intros Hrep Hb Hlen. pose proof Hrep as [Hst Hmode Hsize Hbuf Hcon]. unfold grow_to.
  assert (∀ n, cf_size c ≤ cf_buf_size c → len ≤ cf_buf_size c + Z.of_nat n →
    v ++ replicate (Z.to_nat (cf_buf_size c - cf_size c)) 0 ++ replicate n 0 =
    (v ++ replicate (Z.to_nat len - length v) 0) ++ replicate (Z.to_nat (cf_buf_size c + Z.of_nat n - len)) 0) as Hsplit.
  { intros n H1 H2. rewrite <- app_assoc, <- !replicate_add. do 2 f_equal. lia. }
  destruct ((cf_size c <? len) && (cf_buf_size c <? len)) eqn:E.
  - assert (cf_buf_size c < len) by lia.
    destruct (grow_spec u32 (2 ^ 32) GROW_FUEL (if cf_buf_size c =? 0 then 32 else cf_buf_size c) len)
      as (r & -> & Hr1 & Hr2 & Hr3); [intros x Hx; by apply wrapu_small|destruct (_ =? 0) eqn:?; lia|pow2_norm; lia| |].
    { change (2 ^ Z.of_nat GROW_FUEL) with (2 ^ 64). destruct (_ =? 0) eqn:E0; pow2_norm; lia. }
    assert (r < 2 ^ 32 ∧ cf_buf_size c ≤ r) as [? ?] by (destruct (cf_buf_size c =? 0) eqn:?; pow2_norm; lia).
    set (l := v ++ replicate (Z.to_nat (cf_buf_size c - cf_size c)) 0).
    erewrite bind_done with (a := l) (w' := w).
    2:{ unfold l. destruct Hcon as [[Ec Ez]|Ec]; rewrite Ec.
        - rewrite Ez. simpl. assert (cf_size c = 0) as E0 by lia. rewrite E0. destruct v; [done|simpl in *; lia].
        - rewrite run_load; [|lia..|rewrite length_app, length_replicate; lia]. unfold bytes_at.
          rewrite drop_0, take_ge; [done|]. rewrite length_app, length_replicate. lia. }
    erewrite bind_done with (w' := w) by by destruct Hcon as [[-> _]| ->].
    eexists. split; [done|]. split; [|done]. split; simpl; [done..| | |].
    + rewrite length_app, length_replicate. lia.
    + lia.
    + right. f_equal. unfold l. rewrite <- app_assoc, (Hsplit (Z.to_nat (r - cf_buf_size c))) by lia.
      do 2 f_equal. lia.
  - exists c. split; [done|]. split; [|done].
    assert (len = cf_size c ∨ len ≤ cf_buf_size c) as Hfit by lia.
    assert (len ≤ cf_buf_size c) by lia. split; simpl; [done..| |lia|].
    + rewrite length_app, length_replicate. lia.
    + destruct Hcon as [?|Ec]; [by left|right]. rewrite Ec. f_equal.
      specialize (Hsplit 0%nat). simpl in Hsplit. rewrite app_nil_r in Hsplit. rewrite Hsplit by lia.
      do 2 f_equal. lia.
Qed.
End Truncate.

(** [ftruncate] to a length not below the size, on a descriptor of an
    in-memory file, with no failures planned, always returns 0: the file's
    contents are followed by zeros up to the new length, its buffer grown if
    need be; names, mode and references are unchanged, and so is the offset of
    every descriptor. *)
Theorem ftruncate_extends `{Host} (w : world) (fd : Z) (f : exe_file_t) (p : con_ptr)
    (c : exe_disk_con_file_t) (v : list Z) (len : Z) :
  con_fd w fd f p c → max_failures (exe_fs w) = 0 → represents c v → cf_buf_size c < 2 ^ 31 →
  Z.of_nat (length v) ≤ len < 2 ^ 31 →
  ∃ w' c', ftruncate fd len w = Done 0 w' ∧ con_fd w' fd f p c' ∧
    represents c' (v ++ replicate (Z.to_nat len - length v) 0) ∧ same_meta c c' ∧
    fds (exe_env w') = fds (exe_env w).
Proof.
  intros Hfd Hm Hrep Hb Hlen. unfold ftruncate. rewrite (ftruncate_dispatch fd f p c) by done.
  destruct (grow_to_run c v len (counted_ftruncate w) Hrep Hb Hlen) as (c' & Eg & Hrep' & Hmeta).
  erewrite bind_done by exact Eg.
  pose proof (con_fd_calls w fd f p c (λ c, mkCalls (n_close c) (n_read c) (n_write c) (n_chmod c)
    (n_fchmod c) (s32 (n_ftruncate c + 1)) (n_getcwd c)) Hfd) as Hfd'.
  erewrite bind_done; [|eapply run_upd_con; apply Hfd']. rewrite wrapu_small by (pow2_norm; lia).
  eexists _, (set_size len c'). split; [done|]. split_and!; try done.
  by apply (con_fd_put _ fd f p c).
Qed.

Definition demo_f : exe_file_t := mkFile 3 13 2 (FDcfile (mkConPtr 1 31)) 1.
Definition demo_c : exe_disk_con_file_t :=
  mkCon 1 5 5 (PTo [72; 73; 108; 108; 111]) PNull 0
    (PTo [Some "/w/in.txt"; None; None; None; None]) 3 CON_STATE_INMEM.
Lemma demo_con_fd : con_fd demo_w2 3 demo_f (mkConPtr 1 31) demo_c.
Proof. split; [by_compute..|vm_compute; reflexivity]. Qed.
Lemma demo_represents : represents demo_c [72; 73; 108; 108; 111].
Proof. split; [by_compute..|by right]. Qed.

Lemma ftruncate_extends_witness : ∃ w' c', ftruncate 3 7 demo_w2 = Done 0 w' ∧
  represents c' [72; 73; 108; 108; 111; 0; 0].
Proof.
  destruct (ftruncate_extends (H:=small_host) demo_w2 3 _ _ _ [72; 73; 108; 108; 111] 7 demo_con_fd) as (w' & c' & E & _ & Hr & _);
    [by_compute|exact demo_represents|by_compute..|].
  exists w', c'. split; [exact E|exact Hr].
Defined.

(** [ftruncate] to a shorter length changes the size only; the bytes past
    it stay in the buffer.  Truncating an in-memory file and then extending it
    to its old size brings its old contents back: the record is the same as
    before, where POSIX asks for zeros. *)
Theorem ftruncate_shrink_keeps_bytes `{Host} (w : world) (fd : Z) (f : exe_file_t) (p : con_ptr)
    (c : exe_disk_con_file_t) (v : list Z) (len : Z) :
  con_fd w fd f p c → max_failures (exe_fs w) = 0 → represents c v →
  0 ≤ len < Z.of_nat (length v) →
  ∃ w1 w2, ftruncate fd len w = Done 0 w1 ∧ con_fd w1 fd f p (set_size len c) ∧
    ftruncate fd (Z.of_nat (length v)) w1 = Done 0 w2 ∧ con_fd w2 fd f p c.
Proof.
  intros Hfd Hm [Hst Hmode Hsize Hbuf Hcon] Hlen. unfold ftruncate.
  assert (∀ w c0 n, con_fd w fd f p c0 → max_failures (exe_fs w) = 0 →
    cf_buf_size c0 = cf_buf_size c → 0 ≤ n ≤ cf_buf_size c →
    ∃ w', fd_ftruncate fd n w = Done 0 w' ∧ con_fd w' fd f p (set_size n c0) ∧ max_failures (exe_fs w') = 0) as Hstep.
  { intros w0 c0 n Hfd0 Hm0 Eb Hn. rewrite (ftruncate_dispatch fd f p c0) by done. unfold grow_to.
    rewrite Eb, (proj2 (Z.ltb_ge (cf_buf_size c) n)), andb_false_r by lia. erewrite bind_done by done.
    pose proof (con_fd_calls w0 fd f p c0 (λ c, mkCalls (n_close c) (n_read c) (n_write c) (n_chmod c)
      (n_fchmod c) (s32 (n_ftruncate c + 1)) (n_getcwd c)) Hfd0) as Hfd'.
    erewrite bind_done; [|eapply run_upd_con; apply Hfd']. rewrite wrapu_small by (pow2_norm; lia).
    eexists. split; [done|]. split; [|done]. by apply (con_fd_put _ fd f p c0). }
  destruct (Hstep w c len) as (w1 & E1 & Hfd1 & Hm1); [done..|lia|].
  destruct (Hstep w1 (set_size len c) (Z.of_nat (length v))) as (w2 & E2 & Hfd2 & _); [done..|lia|].
  exists w1, w2. split_and!; [done..|].
  assert (set_size (Z.of_nat (length v)) (set_size len c) = c) as <- by (by destruct c; simpl in *; subst). done.
Qed.

Lemma ftruncate_shrink_keeps_bytes_witness : ∃ w1 w2,
  ftruncate 3 1 demo_w2 = Done 0 w1 ∧ ftruncate 3 5 w1 = Done 0 w2 ∧ con_fd w2 3 demo_f (mkConPtr 1 31) demo_c.
Proof.
  destruct (ftruncate_shrink_keeps_bytes (H:=small_host) demo_w2 3 _ _ _ [72; 73; 108; 108; 111] 1 demo_con_fd)
    as (w1 & w2 & E1 & _ & E2 & Hc); [by_compute|exact demo_represents|by_compute|].
  exists w1, w2. split; [exact E1|]. split; [exact E2|exact Hc].
Defined.

(** ** [lseek] *)

(** The offset asked for. *)
Definition seek_target (size off cur whence : Z) : option Z :=
  if whence =? SEEK_SET then Some off
  else if whence =? SEEK_CUR then Some (s64 (cur + off))
  else if whence =? SEEK_END then Some (s64 (size + off))
  else None.

(** [lseek] on a descriptor of a symbolic file always returns.  An unknown
    [whence] or a target below 0 gives -1 with EINVAL and changes nothing else;
    any other target, also past the end, becomes the offset and is returned. *)
Theorem lseek_symbolic `{Host} (w : world) (fd : Z) (f : exe_file_t) (d : dfile_ref) (x : exe_disk_file_t)
    (off whence : Z) :
  sym_fd w fd f d x →
  match seek_target (df_size x) off (f_off f) whence with
  | Some n => if 0 <=? n then lseek fd off whence w = Done n (at_offset fd n f w)
              else lseek fd off whence w = Done (-1) (upd_errno EINVAL w)
  | None => lseek fd off whence w = Done (-1) (upd_errno EINVAL w)
  end.
Proof.
  intros [Hof Ht Hd Hx Hwf]. unfold lseek, seek_target.
  assert (∀ n, (if n <? 0 then fail EINVAL else upd_fd (Z.to_nat fd) (set_off n);; mret n) w =
    if 0 <=? n then Done n (at_offset fd n f w) else Done (-1) (upd_errno EINVAL w)) as Hfin.
  { intros n. destruct (n <? 0) eqn:E1, (0 <=? n) eqn:E2; try lia; [done|].
    by erewrite bind_done by apply run_upd_fd, Hof. }
  rewrite (lseek_dispatch fd f), Ht by done. change (SYMBOLIC_FILE =? CONCRETE_FILE) with false. cbv iota.
  unfold lseek_sym. erewrite !(bind_done (as_dfile f)) by by apply run_as_dfile.
  erewrite !(bind_done (dfile_at d)) by by apply run_dfile_at. cbv zeta.
  repeat match goal with |- context [if whence =? ?k then _ else _] => destruct (whence =? k) end;
    rewrite ?Hfin; try done; by destruct (0 <=? _).
Qed.

Lemma lseek_symbolic_witness : lseek 4 (-3) SEEK_END demo_s1 =
  Done 5 (at_offset 4 5 (mkFile 0 5 0 (FDfile (SymFile 0)) 2) demo_s1).
Proof. exact (lseek_symbolic (H:=small_host) demo_s1 4 _ _ _ (-3) SEEK_END demo_s1_fd). Defined.

(** [lseek] on an in-memory file accepts targets below 0 other than -1:
    it returns them and makes them the offset, and the next read of a byte
    then accesses memory before the buffer (POSIX asks for EINVAL). *)
Theorem lseek_negative_accepted `{Host} (w : world) (fd : Z) (f : exe_file_t) (p : con_ptr)
    (c : exe_disk_con_file_t) (v buf : list Z) (off : Z) :
  con_fd w fd f p c → max_failures (exe_fs w) = 0 → represents c v → (0 < length v)%nat →
  off < -1 → - 2 ^ 31 ≤ off → (0 < length buf)%nat →
  ∃ w' w2, lseek fd off SEEK_SET w = Done off w' ∧ w' = at_offset fd off f w ∧
    read fd (Some buf) 1 w' = Halt MemoryError w2.
Proof.
  intros Hfd Hm Hrep Hv Ho1 Ho2 Hbuf. pose proof Hfd as [Hof Ht Hp Hb Hc].
  pose proof Hrep as [Hst Hmode Hsize Hbs Hcon].
  exists (at_offset fd off f w), (counted_read (at_offset fd off f w)). split_and!; [|done|].
  - unfold lseek. rewrite (lseek_dispatch fd f), Ht by done. simpl. unfold lseek_con.
    erewrite bind_done by by apply run_as_dcfile. erewrite bind_done by by apply run_con_at.
    rewrite Hst. simpl. rewrite (proj2 (Z.eqb_neq off (-1))) by lia.
    erewrite bind_done by apply run_upd_fd, Hof. done.
  - pose proof (con_fd_offset _ _ _ _ _ off Hfd) as Hfd2. pose proof Hfd2 as [Hof2 Ht2 Hp2 Hb2 Hc2].
    rewrite (read_dispatch fd (set_off off f)) by (done || lia). rewrite Ht2. simpl. unfold read_con.
    erewrite (bind_halt _ _ _ MemoryError); [done|].
    erewrite bind_done by by apply run_as_dcfile. erewrite bind_done by by apply run_con_at.
    rewrite Hst. simpl. erewrite bind_done; [|unfold check_memory_access; by rewrite (proj2 (Z.leb_le _ _)) by lia].
    erewrite bind_done by done. rewrite Hmode, (proj2 (Z.ltb_lt off _)) by lia. cbv zeta.
    assert (u64 (off + 1) = off + 1 + 2 ^ 64) as ->.
    { unfold wrapu. rewrite <- (Z_mod_plus_full _ 1), Z.mod_small; pow2_norm; lia. }
    rewrite (proj2 (Z.ltb_lt _ _)) by (pow2_norm; lia).
    rewrite (wrapu_small 64) by (pow2_norm; lia). apply bind_halt. unfold load_ptr.
    rewrite (proj2 (Z.eqb_neq _ _)) by lia. destruct Hcon as [[-> _]| ->]; [done|].
    unfold slice. by rewrite (proj2 (Z.leb_gt 0 off)) by lia.
Qed.

Lemma lseek_negative_accepted_witness : ∃ w' w2, lseek 3 (-5) SEEK_SET demo_w2 = Done (-5) w' ∧
  read 3 (Some [0]) 1 w' = Halt MemoryError w2.
Proof.
  destruct (lseek_negative_accepted (H:=small_host) demo_w2 3 _ _ _ [72; 73; 108; 108; 111] [0] (-5) demo_con_fd)
    as (w' & w2 & E1 & _ & E2); [by_compute|exact demo_represents|simpl; lia|lia|lia|simpl; lia|].
  exists w', w2. split; [exact E1|exact E2].
Defined.
