(* ===== verification/FsSpecNames.v ===== *)
(** * Names, modes and flags

    [rename], [unlink], [chmod], [getdents], [fcntl]: what the operations on
    directory entries and metadata do, the faulty branches included. *)
From S2P Require Import Prelude FsTypes FsCore FsPath FsOpen FsIO FsMeta FsDir FsCtl FsInit HostModel FsFrame FsInv FsInvOps FsReach FsLookup FsSpecOpen FsSpecIO.

(** ** A record in use without names *)
Lemma find_from_bad name cs n i free k c :
  (i ≤ k < i + n)%nat → cs !! k = Some c → cf_state c ≠ CON_STATE_FREE → (∀ l, cf_name c ≠ PTo l) →
  (∀ j c', (i ≤ j < k)%nat → cs !! j = Some c' → names_ok c' ∧ ¬ has_name name c') →
  find_con_file_from name cs n i free = None.
Proof.
  intros Hk Hc Hst Hnm Hbefore. revert i free Hk Hbefore. induction n as [|n IH]; intros i free Hk Hbefore; [lia|].
  simpl. destruct (lookup_lt_is_Some_2 cs i) as [c' Hc']; [apply lookup_lt_Some in Hc; lia|].
  rewrite Hc'. simpl. destruct (decide (i = k)) as [->|Hne].
  - simplify_eq. rewrite bool_decide_false by done. destruct (cf_name c) as [|l|] eqn:El; [done| |done].
    by destruct (Hnm l).
  - destruct (Hbefore i c') as [Hok Hno]; [lia|done|]. case_bool_decide as Hfree.
    + apply IH; [lia|]. intros j c'' Hj. apply Hbefore. lia.
    + destruct Hok as [?|(l & El & Hl)]; [done|]. rewrite El, name_loop_spec by done. simpl.
      rewrite bool_decide_false by (intros Hin; apply Hno; split; eauto).
      apply IH; [lia|]. intros j c'' Hj. apply Hbefore. lia.
Qed.

Section BadRecord.
Context `{Host}.
Implicit Types w : world.

Lemma find_con_file_bad name w k c :
  Z.of_nat (length (con_files (exe_fs w))) = n_con_files (exe_fs w) →
  con_files (exe_fs w) !! k = Some c → cf_state c ≠ CON_STATE_FREE → (∀ l, cf_name c ≠ PTo l) →
  (∀ j c', (j < k)%nat → con_files (exe_fs w) !! j = Some c' → names_ok c' ∧ ¬ has_name name c') →
  find_con_file name w = Halt MemoryError w.
Proof.
  intros Hl Hc Hst Hnm Hb. unfold find_con_file. erewrite bind_done by done. apply bind_halt.
  rewrite <- Hl, Nat2Z.id, (find_from_bad name _ _ 0 None k c); try done.
  - apply lookup_lt_Some in Hc. lia.
  - intros j c' Hj. apply Hb. lia.
Qed.
End BadRecord.

(** the record [rename] fills in when the file cannot be seeked.  [rename]
    takes a free record, opens the old file and calls [make_con_inmem] before it
    has set the record's names; when the host's [lseek] fails (a pipe) the record
    is left in use with its uninitialised name pointer, [rename] returns -1, and
    from then on every lookup of a name no earlier record has ends in an access
    outside a live object. *)
Theorem rename_failed_breaks_lookup `{Host} (w : world) (p : con_ptr) (c : exe_disk_con_file_t) (fd : Z)
    (name : string) :
  Inv w → cp_base p = con_base (exe_fs w) → con_files (exe_fs w) !! cp_idx p = Some c →
  (∀ l, cf_name c ≠ PTo l) → fst (sys_lseek fd 0 SEEK_END (host w)) < 0 →
  (∀ j c', (j < cp_idx p)%nat → con_files (exe_fs w) !! j = Some c' → ¬ has_name name c') →
  ∃ w', make_con_inmem fd p w = Done (-1) w' ∧ find_con_file name w' = Halt MemoryError w'.
Proof.
  intros Hw Hb Hc Hn Hs Hno. unfold make_con_inmem.
  destruct (sys_lseek fd 0 SEEK_END (host w)) as [size h] eqn:El. simpl in Hs.
  erewrite bind_done; [|unfold sys; by rewrite El].
  rewrite (proj2 (Z.eqb_neq size 0)), (proj2 (Z.ltb_lt size 0)) by lia.
  erewrite bind_done by by apply (run_upd_con _ c). eexists. split; [done|].
  pose proof Hw as [[? Hlen ? Hok ? ? ?] _].
  apply (find_con_file_bad _ _ (cp_idx p) (set_state CON_STATE_FORCE_DIRECT c)); [|by eapply (lookup_upd_con _ _ c)|done|done|].
  - simpl. by rewrite length_insert.
  - intros j c' Hj. simpl. rewrite list_lookup_insert_ne by lia. intros Hc'.
    split; [by eapply Hok|by eapply Hno].
Qed.

(** The same in a run: a host whose file is a pipe. *)
Definition pipe_host : thost := mkHost (th_files demo_host) (th_dirs demo_host) [] 3 "/w" true 0.
Definition pipe_w0 : world := final (klee_init_fds 2 8 0 0 0 0 0 32 1 (initial_world pipe_host)).
Definition pipe_w1 : world := final (sys (H:=small_host) (sys_open "/w/in.txt" O_RDONLY 438) pipe_w0).
Lemma pipe_run :
  result (rename "in.txt" "out.txt" pipe_w0) = Some (-1) ∧
  find_con_file "/w/other" (final (rename "in.txt" "out.txt" pipe_w0)) =
    Halt MemoryError (final (rename "in.txt" "out.txt" pipe_w0)).
Proof. split; vm_compute; reflexivity. Qed.
Lemma pipe_w1_inv : Inv pipe_w1.
Proof.
  apply (preserves_done Inv (sys (H:=small_host) (sys_open "/w/in.txt" O_RDONLY 438)) pipe_w0 3);
    [auto with preserve| |vm_compute; reflexivity].
  apply (reachable_wf (H:=small_host) pipe_host), (reach_init _ 2 8 0 0 0 0 0 32 1); [lia|]. vm_compute. reflexivity.
Qed.

Lemma rename_failed_breaks_lookup_witness : ∃ w', make_con_inmem 3 (mkConPtr 1 3) pipe_w1 = Done (-1) w' ∧
  find_con_file "/w/other" w' = Halt MemoryError w'.
Proof.
  apply (rename_failed_breaks_lookup (H:=small_host) pipe_w1 (mkConPtr 1 3) (fresh_con (H:=small_host)));
    [exact pipe_w1_inv|by_compute|vm_compute; reflexivity|intros l; discriminate|by_compute|].
  intros [|[|[|j]]] c' Hj Hc'; [..|simpl in Hj; lia]; vm_compute in Hc'; injection Hc' as <-;
    intros (Hst & l & El & Hin); try (by destruct Hst);
    injection El as <-; apply (bool_decide_eq_true_2 (_ ∈ _)) in Hin; vm_compute in Hin; discriminate Hin.
Defined.

(** ** [unlink] of a symbolic file *)
Section Unlink.
Context `{Host}.
Implicit Types w : world.

Lemma run_get_sym_file_gone w k x :
  (k < 63)%nat → Z.of_nat k < n_sym_files (exe_fs w) → sym_files (exe_fs w) !! k = Some x →
  st_ino (df_stat x) = 0 → get_sym_file (letter 65 (Z.of_nat k)) w = Done None w.
Proof.
  intros Hk Hn Hx Hi. unfold get_sym_file. rewrite letter_char by done.
  destruct (65 + Z.of_nat k =? 0) eqn:E0; [lia|]. change (char_at (letter 65 (Z.of_nat k)) 1) with 0. simpl.
  erewrite bind_done by done. rewrite (get_sym_file_from_letter w k x) by (done || lia).
  by rewrite Hi.
Qed.
End Unlink.

(** [unlink] of a symbolic regular file returns 0 and removes the name: the
    runtime no longer finds a symbolic file under it.  The file's contents and
    size, every other file and every descriptor are unchanged, so that a
    descriptor open on it still reads it. *)
Theorem unlink_symbolic `{Host} (w : world) (k : nat) (x : exe_disk_file_t) :
  sym_file w k x → S_ISREG (st_mode (df_stat x)) = true →
  let name := letter 65 (Z.of_nat k) in
  ∃ w', unlink name w = Done 0 w' ∧ get_sym_file name w' = Done None w' ∧
    exe_env w' = exe_env w ∧
    lookup_dfile (SymFile k) (exe_fs w') = Some (set_df_stat (set_st_ino 0 (df_stat x)) x) ∧
    (∀ d, d ≠ SymFile k → lookup_dfile d (exe_fs w') = lookup_dfile d (exe_fs w)) ∧
    (∀ fd f, sym_fd w fd f (SymFile k) x →
       sym_fd w' fd f (SymFile k) (set_df_stat (set_st_ino 0 (df_stat x)) x)).
Proof.
  intros Hk Hreg name. pose proof Hk as (Hk1 & Hk2 & Hx & Hino).
  assert (lookup_dfile (SymFile k) (exe_fs w) = Some x) as Hd by done.
  unfold unlink, name. erewrite bind_done by by apply (run_get_sym_file w k x).
  cbv beta iota. erewrite bind_done by by apply run_dfile_at. rewrite Hreg. erewrite bind_done by by apply run_upd_dfile.
  eexists. split; [done|]. set (w' := upd_fs _ w).
  assert (lookup_dfile (SymFile k) (exe_fs w') = Some (set_df_stat (set_st_ino 0 (df_stat x)) x)) as Hd'.
  { etransitivity; [exact (lookup_store_dfile (SymFile k) (SymFile k) _ x (exe_fs w) Hd)|]. by rewrite decide_True. }
  split_and!; try done.
  - by apply (run_get_sym_file_gone w' k (set_df_stat (set_st_ino 0 (df_stat x)) x)).
  - intros d Hne. etransitivity; [exact (lookup_store_dfile (SymFile k) d _ x (exe_fs w) Hd)|].
    by rewrite decide_False.
  - intros fd f [Ho Ht Hf _ Hwf]. by split.
Qed.

Lemma unlink_symbolic_witness : ∃ w', unlink "A" demo_w1 = Done 0 w' ∧ get_sym_file "A" w' = Done None w'.
Proof.
  destruct (unlink_symbolic (H:=small_host) demo_w1 0
    (mkDisk 8 [65; 66; 67; 68; 69; 70; 71; 72]
      (mkStat64 1 5 (S_IFREG + 420) 1 1000 1000 0 8 4096 8 0 0 0))) as (w' & E & En & _).
  - split; [lia|]. split; [by_compute|]. split; [by_compute|discriminate].
  - by_compute.
  - exists w'. split; [exact E|exact En].
Defined.

(** ** [chmod] with failure injection *)
Section Chmod.
Context `{Host}.
Implicit Types w : world.

Lemma get_sym_file_from_total w c n i :
  Inv w → (i + n ≤ length (sym_files (exe_fs w)))%nat → ∃ o, get_sym_file_from c n i w = Done o w.
Proof.
  intros Hw. revert i. induction n as [|n IH]; intros i Hi; simpl; [by eexists|].
  case_match; [|apply IH; lia]. destruct (lookup_lt_is_Some_2 (sym_files (exe_fs w)) i) as [x Hx]; [lia|].
  erewrite bind_done by by apply run_dfile_at. by eexists.
Qed.
Lemma get_sym_file_total w path : Inv w → ∃ o, get_sym_file path w = Done o w.
Proof.
  intros Hw. unfold get_sym_file. case_match; [by eexists|]. erewrite bind_done by done.
  apply get_sym_file_from_total; [done|]. destruct Hw as [[] _]. lia.
Qed.

(** What start-up leaves in the fields that the later calls test. *)
Definition failing (n : Z) w : Prop :=
  max_failures (exe_fs w) = n ∧ chmod_fail (exe_fs w) = None ∧ fchmod_fail (exe_fs w) = None.
Lemma failing_sys n {A} (g : hst → A * hst) : preserves (failing n) (sys g).
Proof. intros w Hw. unfold wlp, sys. by destruct (g (host w)). Qed.
Hint Resolve failing_sys : preserve.
Lemma failing_sym_int n s : preserves (failing n) (sym_int s).
Proof. unfold sym_int, klee_make_symbolic. preserving. Qed.
Lemma failing_upd_fd n i g : preserves (failing n) (upd_fd i g).
Proof. intros w Hw. apply wlp_upd_fd. by intros f _. Qed.
Lemma failing_upd_con n p g : preserves (failing n) (upd_con p g).
Proof. intros w Hw. apply wlp_upd_con. by intros c _ _. Qed.
Lemma failing_modify n g :
  (∀ s, max_failures (g s) = max_failures s ∧ chmod_fail (g s) = chmod_fail s ∧ fchmod_fail (g s) = fchmod_fail s) →
  preserves (failing n) (modify (upd_fs g)).
Proof.
  intros Hg. apply preserves_modify. intros w (E1 & E2 & E3). destruct (Hg (exe_fs w)) as (G1 & G2 & G3).
  unfold failing. simpl. by rewrite G1, G2, G3.
Qed.
Hint Resolve failing_sym_int failing_upd_fd failing_upd_con : preserve.
Hint Extern 2 (preserves (failing _) (modify (upd_fs _))) => apply failing_modify; done : preserve.
Lemma failing_create n size name st : preserves (failing n) (create_new_dfile size name st).
Proof. unfold create_new_dfile, klee_make_symbolic, klee_assume. preserving. Qed.
Hint Resolve failing_create : preserve.
Lemma failing_stdout n flag st : preserves (failing n) (init_stdout flag st).
Proof. unfold init_stdout, setup_std_fd. preserving. Qed.
Lemma failing_stderr n a b path flag : preserves (failing n) (setup_std_fd a b path flag).
Proof. unfold setup_std_fd. preserving. Qed.
Lemma failing_malloc n m : preserves (failing n) (set_malloc_failures m).
Proof. unfold set_malloc_failures. preserving. Qed.

(** Before that: no pointer to a counter exists. *)
Definition no_chmod_fail w : Prop := chmod_fail (exe_fs w) = None ∧ fchmod_fail (exe_fs w) = None.
#[local] Instance no_chmod_table : TableProp no_chmod_fail.
Proof. intros w w' [E _] [H1 H2]. unfold no_chmod_fail. destruct (exe_fs w), (exe_fs w'). by simplify_eq. Qed.
Lemma no_chmod_modify g :
  (∀ s, chmod_fail (g s) = chmod_fail s ∧ fchmod_fail (g s) = fchmod_fail s) →
  preserves no_chmod_fail (modify (upd_fs g)).
Proof.
  intros Hg. apply preserves_modify. intros w (E2 & E3). destruct (Hg (exe_fs w)) as (G2 & G3).
  unfold no_chmod_fail. simpl. by rewrite G2, G3.
Qed.
Lemma no_chmod_upd_fd i g : preserves no_chmod_fail (upd_fd i g).
Proof. intros w Hw. apply wlp_upd_fd. by intros f _. Qed.
Lemma no_chmod_upd_con p g : preserves no_chmod_fail (upd_con p g).
Proof. intros w Hw. apply wlp_upd_con. by intros c _ _. Qed.
Hint Resolve no_chmod_upd_fd no_chmod_upd_con read_only_create read_only_create_files : preserve.
Hint Extern 2 (preserves no_chmod_fail (modify (upd_fs _))) => apply no_chmod_modify; done : preserve.
Lemma no_chmod_tables n len st : preserves no_chmod_fail (init_tables n len st).
Proof. unfold init_tables. preserving. Qed.
Lemma no_chmod_stdin len st : preserves no_chmod_fail (init_stdin len st).
Proof. unfold init_stdin, setup_std_fd. preserving. Qed.

Lemma set_failures_failing n w :
  no_chmod_fail w → n ≠ 0 → wlp (set_failures n) (λ _, failing n) w.
Proof.
  intros Hw Hn. unfold set_failures. rewrite (proj2 (Z.eqb_neq n 0) Hn).
  pose proof read_only_sym_int. do 5 (apply (wlp_step no_chmod_fail); [by preserving|done|]; clear dependent w; intros ? w Hw).
  apply wlp_modify. destruct Hw. by split.
Qed.

Lemma klee_init_fds_failing n len o saw mf mmf etc ss sp h :
  mf ≠ 0 → wlp (klee_init_fds n len o saw mf mmf etc ss sp) (λ _, failing mf) (initial_world h).
Proof.
  intros Hmf. pose proof no_chmod_tables. pose proof no_chmod_stdin. unfold klee_init_fds, stat.
  apply (wlp_step no_chmod_fail); [preserving|done|]. intros [r st] w Hw. do 2 inv_step Hw.
  apply wlp_bind. eapply wlp_mono; [by apply set_failures_failing|]. clear dependent w. intros ? w Hw; simpl in Hw.
  eapply (wlp_preserves (failing mf)); [|done|by auto].
  pose proof failing_malloc. pose proof failing_stdout. pose proof failing_stderr.
  assert (∀ g, preserves (failing mf) (modify (upd_env g))) by (intros; by apply preserves_modify).
  unfold sym_uint32, klee_make_symbolic, klee_assume. preserving.
Qed.

Lemma chmod_null path mode w :
  Inv w → max_failures (exe_fs w) ≠ 0 → chmod_fail (exe_fs w) = None →
  ∃ w', chmod path mode w = Halt MemoryError w'.
Proof.
  intros Hw Hm Hc. destruct (get_sym_file_total w path Hw) as [o Eo]. unfold chmod.
  erewrite bind_done by exact Eo. do 2 erewrite bind_done by done. eexists. apply bind_halt.
  unfold inject. erewrite bind_done by done. simpl. rewrite (proj2 (Z.eqb_neq _ _) Hm), Hc. done.
Qed.
Lemma fchmod_null fd f mode w :
  open_fd w fd f → max_failures (exe_fs w) ≠ 0 → fchmod_fail (exe_fs w) = None →
  ∃ w', fchmod fd mode w = Halt MemoryError w'.
Proof.
  intros Hof Hm Hc. unfold fchmod. erewrite bind_done by by apply (run_get_file _ f). cbv beta iota.
  do 2 erewrite bind_done by done. eexists. apply bind_halt.
  unfold inject. erewrite bind_done by done. simpl. rewrite (proj2 (Z.eqb_neq _ _) Hm), Hc. done.
Qed.
End Chmod.

(** failure injection breaks [chmod] and [fchmod].  After a start-up that
    asks for failures ([max_failures] not 0), the counters these two calls read
    were never allocated, so that every [chmod], and every [fchmod] of an open
    descriptor, dereferences a NULL pointer. *)
Theorem chmod_faults_with_failures `{Host} (h : hst) (w : world) (n : nat)
    (len o saw mf mmf etc ss sp : Z) :
  0 ≤ len < 2 ^ 32 → mf ≠ 0 → klee_init_fds n len o saw mf mmf etc ss sp (initial_world h) = Done tt w →
  (∀ path mode, ∃ w', chmod path mode w = Halt MemoryError w') ∧
  (∀ fd f mode, open_fd w fd f → ∃ w', fchmod fd mode w = Halt MemoryError w').
Proof.
  intros Hlen Hmf E.
  pose proof (klee_init_fds_inv n len o saw mf mmf etc ss sp h Hlen) as Hi.
  pose proof (klee_init_fds_failing n len o saw mf mmf etc ss sp h Hmf) as Hf.
  unfold wlp in Hi, Hf. rewrite E in Hi, Hf. destruct Hf as (<- & Hc & Hfc). split.
  - intros path mode. by apply chmod_null.
  - intros fd f mode Hof. by eapply fchmod_null.
Qed.

Lemma demo_f0_run : klee_init_fds 1 8 0 0 1 0 0 32 1 (initial_world demo_host) = Done tt demo_f0.
Proof. vm_compute. reflexivity. Qed.

Lemma chmod_faults_with_failures_witness : ∃ w', chmod "A" 420 demo_f0 = Halt MemoryError w'.
Proof.
  exact (proj1 (chmod_faults_with_failures (H:=small_host) demo_host demo_f0 1 8 0 0 1 0 0 32 1
    ltac:(by_compute) ltac:(discriminate) demo_f0_run) "A" 420).
Defined.

(** ** [fcntl] *)

Lemma testflag_FD_CLOEXEC x : testflag x FD_CLOEXEC = Z.testbit x 0.
Proof. by apply (testflag_bit x 0). Qed.
Lemma testflag_eCloseOnExec x : testflag x eCloseOnExec = Z.testbit x 1.
Proof. by apply (testflag_bit x 1). Qed.
Lemma cloexec_bits (s : bool) x b :
  Z.testbit (if s then Z.lor (Z.land x (Z.lnot eCloseOnExec)) eCloseOnExec else Z.land x (Z.lnot eCloseOnExec)) b =
  if decide (b = 1) then s else Z.testbit x b.
Proof.
  destruct (decide (0 ≤ b)) as [Hb|Hb].
  2:{ rewrite !Z.testbit_neg_r by lia. by destruct (decide (b = 1)); [lia|]. }
  change eCloseOnExec with (2 ^ 1).
  destruct s; rewrite ?Z.lor_spec, Z.land_spec, Z.lnot_spec, Z.pow2_bits_eqb by lia;
    destruct (decide (b = 1)) as [->|Hne];
    rewrite ?Z.eqb_refl, ?(proj2 (Z.eqb_neq 1 b)) by lia; simpl;
    rewrite ?andb_false_r, ?andb_true_r, ?orb_false_r; done.
Qed.

(** the close-on-exec flag of a symbolic descriptor reads back.  After
    F_SETFD with argument [v], F_GETFD returns FD_CLOEXEC exactly when bit 0 of
    [v] is set; the descriptor's other flags, its offset and file, and every
    other descriptor, are unchanged. *)
Theorem fcntl_cloexec_roundtrip `{Host} (w : world) (fd : Z) (f : exe_file_t) (d : dfile_ref)
    (x : exe_disk_file_t) (v va : Z) :
  sym_fd w fd f d x →
  ∃ w', fcntl fd F_SETFD v w = Done 0 w' ∧
    fcntl fd F_GETFD va w' = Done (if Z.testbit v 0 then FD_CLOEXEC else 0) w' ∧
    (∃ f', fds (exe_env w') = <[Z.to_nat fd := f']> (fds (exe_env w)) ∧ f' = set_flags (f_flags f') f ∧
       ∀ b, b ≠ 1 → Z.testbit (f_flags f') b = Z.testbit (f_flags f) b) ∧
    exe_fs w' = exe_fs w.
Proof.
  intros [Hof Ht Hd Hx Hwf]. pose proof Hof as (Hr & Hf & Ho).
  unfold fcntl. erewrite bind_done by by apply (run_get_file _ f). cbv beta iota zeta.
  erewrite bind_done by by apply run_fd_at. rewrite Ht. simpl.
  erewrite bind_done by by apply run_upd_fd. cbv beta zeta.
  set (fl := if testflag (u32 v) FD_CLOEXEC then _ else _).
  assert (∀ b, Z.testbit fl b = if decide (b = 1) then Z.testbit v 0 else Z.testbit (f_flags f) b) as Hfl.
  { intros b. unfold fl. rewrite testflag_FD_CLOEXEC, testbit_wrapu by lia.
    by apply cloexec_bits. }
  set (w1 := upd_env _ w). exists w1.
  assert (open_fd w1 fd (set_flags fl f)) as Hof1.
  { split; [done|]. split; [by eapply (lookup_upd_fd _ _ f)|].
    change (testflag fl eOpen = true). rewrite testflag_eOpen, Hfl. by rewrite testflag_eOpen in Ho. }
  split_and!; [done| |exists (set_flags fl f); split_and!; [done..|]|done].
  - erewrite bind_done by by apply (run_get_file _ (set_flags fl f)). cbv beta iota zeta.
    erewrite bind_done; [|apply run_fd_at, Hof1]. change (f_type (set_flags fl f)) with (f_type f). rewrite Ht.
    cbn [Z.eqb SYMBOLIC_FILE F_GETFD Pos.eqb].
    change (f_flags (set_flags fl f)) with fl. rewrite testflag_eCloseOnExec, Hfl. done.
  - intros b Hb. simpl. rewrite Hfl. by rewrite decide_False.
Qed.

Lemma fcntl_cloexec_roundtrip_witness : ∃ w', fcntl 4 F_SETFD 1 demo_s1 = Done 0 w' ∧
  fcntl 4 F_GETFD 0 w' = Done FD_CLOEXEC w'.
Proof.
  destruct (fcntl_cloexec_roundtrip (H:=small_host) demo_s1 4 _ _ _ 1 0 demo_s1_fd) as (w' & E1 & E2 & _).
  exists w'. split; [exact E1|exact E2].
Defined.
