(* ===== verification/FsSpecPath.v ===== *)
(** * Paths: concretisation and resolution

    [__concretize_string] returns its argument; [realpath] ends within its
    fuel and returns a path in normal form. *)
From S2P Require Import Prelude FsTypes FsCore FsPath FsOpen FsIO FsMeta FsDir FsCtl FsInit HostModel FsFrame FsInv FsInvOps FsReach FsLookup FsSpecOpen FsSpecIO.

(** ** [__concretize_string] *)
Definition pow2_index (i : Z) : bool := Z.land i (u32 (i - 1)) =? 0.

Lemma land_succ_even k : Z.land (2 * k + 1) (2 * k) = 2 * k.
Proof.
  apply Z.bits_inj'. intros n Hn. rewrite Z.land_spec.
  destruct (decide (n = 0)) as [->|]; [by rewrite Z.testbit_odd_0, Z.testbit_even_0|].
  replace n with (Z.succ (n - 1)) by lia. rewrite Z.testbit_odd_succ, Z.testbit_even_succ by lia.
  apply andb_diag.
Qed.
Lemma pow2_index_next i : 2 ≤ i < 2 ^ 32 - 1 → pow2_index i = true → pow2_index (i + 1) = false.
Proof.
  intros Hi. unfold pow2_index. rewrite !wrapu_small by lia. intros E.
  destruct (Z.Even_or_Odd i) as [[k ->]|[k ->]].
  - replace (2 * k + 1 - 1) with (2 * k) by lia. rewrite land_succ_even. lia.
  - replace (2 * k + 1 - 1) with (2 * k) in E by lia. rewrite land_succ_even in E. lia.
Qed.

(** The steps the loop needs at index [i] with [n] characters left. *)
Definition steps (i : Z) (n : nat) : Z :=
  if i <? 3 then 2 * Z.of_nat n + 3 - i
  else if pow2_index i then 2 * Z.of_nat n + 1 else Z.max 1 (2 * Z.of_nat n).

Lemma steps_pos i n : 0 ≤ i → 1 ≤ steps i n.
Proof. intros Hi. unfold steps. repeat case_match; lia. Qed.
Lemma steps_advance i n : 0 ≤ i < 2 ^ 32 - 1 → steps (i + 1) n + 1 ≤ steps i (S n).
Proof. intros Hi. unfold steps. repeat case_match; lia. Qed.
Lemma steps_stay i n : 0 ≤ i < 2 ^ 32 - 1 → pow2_index i = true → steps (i + 1) (S n) + 1 ≤ steps i (S n).
Proof.
  intros Hi Hp. unfold steps. rewrite Hp. destruct (i <? 3) eqn:E.
  - destruct (i + 1 <? 3) eqn:E2; [lia|]. assert (i = 2) as -> by lia.
    assert (pow2_index (2 + 1) = false) as -> by done. lia.
  - rewrite pow2_index_next by (done || lia). rewrite (proj2 (Z.ltb_ge (i + 1) 3)) by lia. lia.
Qed.

Lemma concretize_loop_id fuel i done rest :
  0 ≤ i → i + Z.of_nat fuel < 2 ^ 32 → steps i (length rest) ≤ Z.of_nat fuel →
  concretize_loop fuel i done rest = Some (rev done ++ rest).
Proof.
  revert i done rest. induction fuel as [|fuel IH]; intros i done rest Hi Hb Hs.
  { pose proof (steps_pos i (length rest) Hi). lia. }
  cbn [concretize_loop]. fold (pow2_index i). rewrite (wrapu_small 32 (i + 1)) by (pow2_norm; lia).
  destruct rest as [|c rest]; [rewrite app_nil_r; by destruct (pow2_index i)|]. simpl in Hs.
  assert (∀ c, concretize_loop fuel (i + 1) (c :: done) rest = Some (rev (c :: done) ++ rest)) as Hadv.
  { intros c'. apply IH; [lia|lia|]. pose proof (steps_advance i (length rest)). lia. }
  destruct (pow2_index i) eqn:Hp.
  - case_bool_decide; [rewrite Hadv; simpl; by rewrite <- app_assoc|].
    apply IH; [lia|lia|]. simpl. pose proof (steps_stay i (length rest) ltac:(lia) Hp). lia.
  - rewrite Hadv. simpl. by rewrite <- app_assoc.
Qed.

(** [__concretize_string] always returns, and returns the string it was
    given: its loop, which may leave a character for a later iteration at the
    indices that are powers of two, reaches the terminator within twice the
    length plus three iterations, for strings below 2^30 bytes. *)
Theorem concretize_string_id `{Host} (w : world) (s : string) :
  Z.of_nat (String.length s) < 2 ^ 30 → concretize_string s w = Done s w.
Proof.
  intros Hs. unfold concretize_string.
  assert (length (String.list_ascii_of_string s) = String.length s) as El.
  { clear. induction s as [|c s IH]; simpl; [done|]. by rewrite IH. }
  rewrite concretize_loop_id; [|lia|rewrite El; pow2_norm; lia|unfold steps; simpl; lia].
  simpl. by rewrite String.string_of_list_ascii_of_string.
Qed.
Lemma concretize_string_id_witness : concretize_string "/a/b" demo_w0 = Done "/a/b" demo_w0.
Proof. apply (concretize_string_id (H:=small_host)). simpl. lia. Defined.

(** ** Termination

    [ends m]: no run of [m] gets past the fuel of a loop. *)
Section Ends.
Context `{Host}.
Implicit Types w : world.

Definition ends {A} (m : FS A) : Prop := ∀ w w', m w ≠ Halt NoFuel w'.

Lemma ends_ret {A} (a : A) : ends (mret a).
Proof. done. Qed.
Lemma ends_gets {A} (f : world → A) : ends (gets f).
Proof. done. Qed.
Lemma ends_modify f : ends (modify f).
Proof. done. Qed.
Lemma ends_halt {A} e : e ≠ NoFuel → ends (halt e : FS A).
Proof. intros He w w' [=]. by subst. Qed.
Lemma ends_deref {A} (o : option A) : ends (deref o).
Proof. by destruct o. Qed.
Lemma ends_assert b : ends (c_assert b).
Proof. by destruct b. Qed.
Lemma ends_sys {A} (f : hst → A * hst) : ends (sys f).
Proof. intros w w'. unfold sys. by destruct (f (host w)). Qed.
Lemma ends_bind {A B} (m : FS A) (k : A → FS B) : ends m → (∀ a, ends (k a)) → ends (m ≫= k).
Proof.
  intros Hm Hk w w'. unfold mbind, M_bind. destruct (m w) eqn:E; [apply Hk|].
  intros [= -> ->]. by apply (Hm w w').
Qed.
End Ends.

Create HintDb ends.
#[export] Hint Resolve ends_ret ends_gets ends_modify ends_deref ends_assert ends_sys : ends.
#[export] Hint Extern 1 (ends (halt _)) => apply ends_halt; discriminate : ends.
Ltac ending :=
  repeat first [ progress intros | solve [eauto with ends]
               | lazymatch goal with
                 | |- ends (_ ≫= _) => apply ends_bind
                 | |- ends (match ?x with _ => _ end) => destruct x
                 | |- ends (let _ := _ in _) => cbv zeta
                 end ].

Section EndsOps.
Context `{Host}.
Implicit Types w : world.

Lemma ends_fail e : ends (fail e).
Proof. unfold fail, set_errno. ending. Qed.
Lemma ends_set_errno e : ends (set_errno e).
Proof. unfold set_errno. ending. Qed.
Lemma ends_errno : ends klee_get_errno.
Proof. unfold klee_get_errno. ending. Qed.
Hint Resolve ends_fail ends_set_errno ends_errno : ends.
Lemma ends_ret_sys r : ends (ret_sys r).
Proof. unfold ret_sys. ending. Qed.
Lemma ends_fd_at i : ends (fd_at i).
Proof. unfold fd_at. ending. Qed.
Lemma ends_con_at p : ends (con_at p).
Proof. unfold con_at. ending. Qed.
Lemma ends_dfile_at d : ends (dfile_at d).
Proof. unfold dfile_at. ending. Qed.
Hint Resolve ends_ret_sys ends_fd_at ends_con_at ends_dfile_at : ends.
Lemma ends_upd_fd i g : ends (upd_fd i g).
Proof. unfold upd_fd. ending. Qed.
Lemma ends_upd_con p g : ends (upd_con p g).
Proof. unfold upd_con. ending. Qed.
Lemma ends_upd_dfile d g : ends (upd_dfile d g).
Proof. unfold upd_dfile. ending. Qed.
Lemma ends_as_dfile f : ends (as_dfile f).
Proof. unfold as_dfile. ending. Qed.
Lemma ends_as_dcfile f : ends (as_dcfile f).
Proof. unfold as_dcfile. ending. Qed.
Lemma ends_free_ptr {A} (p : ptr A) : ends (free_ptr p).
Proof. unfold free_ptr. ending. Qed.
Lemma ends_make_symbolic s n : ends (klee_make_symbolic s n).
Proof. unfold klee_make_symbolic. ending. Qed.
Hint Resolve ends_upd_fd ends_upd_con ends_upd_dfile ends_as_dfile ends_as_dcfile ends_free_ptr
  ends_make_symbolic : ends.
Lemma ends_get_sym_file_from c n i : ends (get_sym_file_from c n i).
Proof. revert i. induction n as [|n IH]; intros i; simpl; ending. Qed.
Hint Resolve ends_get_sym_file_from : ends.
Lemma ends_get_sym_file p : ends (get_sym_file p).
Proof. unfold get_sym_file. ending. Qed.
Lemma ends_get_file fd : ends (get_file fd).
Proof. unfold get_file. ending. Qed.
Lemma ends_find_con_file p : ends (find_con_file p).
Proof. unfold find_con_file. ending. Qed.
Lemma ends_enlarge : ends enlarge_con_files.
Proof. unfold enlarge_con_files. ending. Qed.
Lemma ends_free_con_file p : ends (free_con_file p).
Proof. unfold free_con_file. ending. Qed.
Lemma ends_make_con_inmem fd p : ends (make_con_inmem fd p).
Proof. unfold make_con_inmem. ending. Qed.
Lemma ends_inject p n : ends (inject p n).
Proof. unfold inject. ending. Qed.
Hint Resolve ends_get_sym_file ends_get_file ends_find_con_file ends_enlarge ends_free_con_file
  ends_make_con_inmem ends_inject : ends.

(** Paths given to a call. *)
Definition short (s : string) : Prop := Z.of_nat (String.length s) < 2 ^ 30.
Lemma ends_concretize s : short s → ends (concretize_string s).
Proof.
  intros Hs w w'. unfold concretize_string.
  assert (length (String.list_ascii_of_string s) = String.length s) as El.
  { clear. induction s as [|c s IH]; simpl; [done|]. by rewrite IH. }
  unfold short in Hs.
  rewrite concretize_loop_id; [done|lia|rewrite El; pow2_norm; lia|unfold steps; simpl; lia].
Qed.
Hint Resolve ends_concretize : ends.

Lemma ends_get_current_path n : ends (get_current_path n).
Proof. unfold get_current_path. ending. Qed.
Hint Resolve ends_get_current_path : ends.
Lemma ends_getcwd b n : ends (getcwd b n).
Proof. unfold getcwd. ending. Qed.
Lemma ends_get_realpath p : ends (get_realpath p).
Proof. unfold get_realpath. ending. Qed.
Hint Resolve ends_getcwd ends_get_realpath : ends.
Lemma ends_readlink p n : ends (readlink p n).
Proof. unfold readlink. ending. Qed.
Lemma ends_push c got : ends (push c got).
Proof. unfold push. ending. Qed.
Hint Resolve ends_readlink ends_push : ends.
Lemma ends_copy_component len path got : ends (copy_component len path got).
Proof. revert got. induction path as [|c path IH]; intros got; simpl; ending. Qed.
Lemma ends_copy_out cap got : ends (copy_out cap got).
Proof. unfold copy_out. ending. Qed.
Hint Resolve ends_copy_component ends_copy_out : ends.

(** Each iteration counts one of the links allowed. *)
Lemma ends_realpath_loop fuel readlinks cap len path got :
  readlinks ≤ 33 → 34 ≤ readlinks + Z.of_nat fuel → ends (realpath_loop fuel readlinks cap len path got).
Proof.
  revert readlinks len path got. induction fuel as [|fuel IH]; intros readlinks len path got Hr Hf; [lia|].
  cbn [realpath_loop]. apply ends_bind; [ending|]. intros [path' got']. destruct path' as [|c path']; [ending|].
  apply ends_bind; [ending|]. intros [[path2 got2]|]; [|ending].
  destruct (MAX_READLINKS <? readlinks) eqn:E; [ending|]. unfold MAX_READLINKS in E.
  assert (∀ l p g, ends (realpath_loop fuel (readlinks + 1) cap l p g)) as Hrec by (intros; apply IH; lia).
  ending.
Qed.
Lemma ends_realpath p cap : ends (realpath p cap).
Proof.
  assert (∀ cap len path got, ends (realpath_loop REALPATH_FUEL 0 cap len path got)) as Hl
    by (intros; apply ends_realpath_loop; unfold REALPATH_FUEL; lia).
  unfold realpath. ending.
Qed.
Lemma ends_written o : ends (written o).
Proof. unfold written. ending. Qed.
Hint Resolve ends_realpath ends_written : ends.
Lemma ends_resolve p : ends (resolve p).
Proof. unfold resolve. ending. Qed.
Hint Resolve ends_resolve : ends.
Lemma ends_access p m : short p → ends (access p m).
Proof. intros Hp. unfold access. ending. Qed.
Hint Resolve ends_access : ends.
Lemma ends_patch_stat c r b : ends (patch_stat c r b).
Proof. unfold patch_stat. ending. Qed.
Lemma ends_host_stat f : ends (host_stat f).
Proof. unfold host_stat. ending. Qed.
Hint Resolve ends_patch_stat ends_host_stat : ends.
Lemma ends_df_chmod d m : ends (df_chmod d m).
Proof. unfold df_chmod. ending. Qed.
Hint Resolve ends_df_chmod : ends.
Lemma ends_close fd : ends (close fd).
Proof. unfold close. ending. Qed.
Lemma ends_load_ptr p off n : ends (load_ptr p off n).
Proof. unfold load_ptr. ending. Qed.
Hint Resolve ends_close ends_load_ptr : ends.
Lemma ends_dup2 a b : ends (dup2 a b).
Proof. unfold dup2. ending. Qed.
Hint Resolve ends_dup2 : ends.
Lemma ends_read fd b n : ends (read fd b n).
Proof. unfold read, count_read, read_con, read_sym, check_memory_access. ending. Qed.
Lemma ends_make_specific p s : ends (make_specific p s).
Proof. unfold make_specific. ending. Qed.
Hint Resolve ends_make_specific : ends.
Lemma ends_new_con_file path full free flags mode :
  short path → ends (new_con_file path full free flags mode).
Proof. intros Hp. unfold new_con_file. ending. Qed.
Hint Resolve ends_new_con_file : ends.
Lemma ends_open path flags arg : short path → ends (open path flags arg).
Proof. intros Hp. unfold open, fd_open, fd_open_sym, fd_open_con. ending. Qed.
Lemma ends_take_slot o : ends (take_slot o).
Proof. unfold take_slot. ending. Qed.
Hint Resolve ends_take_slot : ends.
Lemma ends_sym_dirents count n i b : ends (sym_dirents count n i b).
Proof. revert i b. induction n as [|n IH]; intros; simpl; ending. Qed.
Lemma ends_FD_ISSET n p : ends (FD_ISSET n p).
Proof. unfold FD_ISSET. ending. Qed.
Lemma ends_FD_SET n p : ends (FD_SET n p).
Proof. unfold FD_SET. ending. Qed.
Hint Resolve ends_sym_dirents ends_FD_ISSET ends_FD_SET : ends.
Lemma ends_copy_bit i a j b : ends (copy_bit i a j b).
Proof. unfold copy_bit. ending. Qed.
Hint Resolve ends_copy_bit : ends.
Lemma ends_select_scan n i r x e s : ends (select_scan n i r x e s).
Proof. revert i s. induction n as [|n IH]; intros; simpl; ending. Qed.
Lemma ends_select_back n i hr hw he r x e o : ends (select_back n i hr hw he r x e o).
Proof. revert i o. induction n as [|n IH]; intros; simpl; ending. Qed.
Hint Resolve ends_select_scan ends_select_back : ends.

(** *** Paths that come out of [realpath] fit the buffer of 1024 bytes *)
Definition gives {A} (P : A → Prop) (m : FS A) : Prop := ∀ w, wlp m (λ a _, P a) w.
Lemma gives_ret {A} (P : A → Prop) a : P a → gives P (mret a).
Proof. intros Ha w. exact Ha. Qed.
Lemma gives_halt {A} (P : A → Prop) e : gives P (halt e).
Proof. intros w. exact I. Qed.
Lemma gives_bind {A B} (P : B → Prop) (m : FS A) (k : A → FS B) : (∀ a, gives P (k a)) → gives P (m ≫= k).
Proof. intros Hk w. apply wlp_bind. unfold wlp. destruct (m w); [apply Hk|done]. Qed.
Lemma ends_bind_gives {A B} (P : A → Prop) (m : FS A) (k : A → FS B) :
  gives P m → ends m → (∀ a, P a → ends (k a)) → ends (m ≫= k).
Proof.
  intros Hp Hm Hk w w'. specialize (Hp w). unfold wlp, mbind, M_bind in *. destruct (m w) eqn:E; [by apply Hk|].
  intros [= -> ->]. by apply (Hm w w').
Qed.

Lemma str_length (l : list ascii) : String.length (str l) = length l.
Proof. induction l as [|c l IH]; [done|]. cbn. by rewrite IH. Qed.
Definition fits (cap : Z) (o : option string) : Prop :=
  match o with Some s => Z.of_nat (String.length s) < cap | None => True end.

Lemma gives_copy_out (cap : Z) got (b : bool) : gives (λ r, fits cap r.2) (s ← copy_out cap got; mret (b, Some s)).
Proof.
  intros w. unfold copy_out. destruct (_ && _) eqn:E; [|exact I]. apply andb_prop in E as [_ E%Z.ltb_lt].
  apply gives_ret. cbn. by rewrite str_length, length_rev.
Qed.
Ltac giving :=
  repeat first [ progress intros | apply gives_copy_out | apply gives_halt | apply gives_ret; exact I
               | solve [eauto]
               | lazymatch goal with
                 | |- gives _ (_ ≫= _) => apply gives_bind
                 | |- gives _ (match ?x with _ => _ end) => destruct x
                 | |- gives _ (let _ := _ in _) => cbv zeta
                 end ].
Lemma gives_realpath_loop fuel readlinks cap len path got :
  gives (λ r, fits cap r.2) (realpath_loop fuel readlinks cap len path got).
Proof. revert readlinks len path got. induction fuel as [|fuel IH]; intros; cbn [realpath_loop]; giving. Qed.
Lemma gives_realpath p cap : gives (λ r, fits cap r.2) (realpath p cap).
Proof. pose proof gives_realpath_loop. unfold realpath. giving. Qed.
Lemma resolve_fits p : gives (fits 1024) (resolve p).
Proof.
  intros w. unfold resolve. apply wlp_bind. eapply wlp_mono; [apply gives_realpath|].
  intros [ok buf] w1 Hf. apply wlp_bind, wlp_gets. destruct (_ && _); [exact I|].
  destruct buf as [s|]; [exact Hf|exact I].
Qed.
Lemma ends_resolve_then {B} p (k : option string → FS B) :
  (∀ o, fits 1024 o → ends (k o)) → ends (resolve p ≫= k).
Proof. intros Hk. eapply ends_bind_gives; [apply resolve_fits|apply ends_resolve|exact Hk]. Qed.

Lemma ends_fd_stat p : short p → ends (fd_stat p).
Proof. intros Hp. unfold fd_stat. ending. Qed.
Lemma ends_lstat p : short p → ends (lstat p).
Proof. intros Hp. unfold lstat, fd_lstat. ending. Qed.
Lemma fits_short s : fits 1024 (Some s) → short s.
Proof. unfold fits, short. pow2_norm. change (2 ^ 30) with 1073741824. lia. Qed.
Lemma ends_chmod p m : short p → ends (chmod p m).
Proof.
  intros Hp. unfold chmod. do 4 (apply ends_bind; [ending|intros ?]). case_match; [ending|]. case_match; [ending|].
  apply ends_bind; [ending|]. intros con. apply ends_resolve_then. intros [s|] Hs; [|ending].
  pose proof (ends_fd_stat s (fits_short s Hs)). ending.
Qed.
Lemma ends_mkdir p m : short p → ends (mkdir p m).
Proof.
  intros Hp. unfold mkdir. apply ends_bind; [ending|]. intros con. apply ends_resolve_then. intros [s|] Hs; [|ending].
  pose proof (ends_lstat s (fits_short s Hs)). ending.
Qed.

(** The paths of a call are short.  [write] and [ftruncate], whose doubling loops
    are the subject of [grow_terminates], and [fstatat] with a relative path, which
    goes on with a name from the tables, are left out. *)
Definition ending_call (c : call) : Prop :=
  match c with
  | CWrite _ _ _ | CFtruncate _ _ => False
  | CFstatat _ p => char_at p 0 = 47 ∧ short p
  | COpen p _ _ | CStat p | CLstat p | CChown p _ _ | CStatfs p | CChdir p | CAccess p _
  | CUnlink p | CMkdir p _ | CChmod p _ => short p
  | CLink p q | CRename p q => short p ∧ short q
  | _ => True
  end.

Lemma ends_fstatat fd p b : char_at p 0 = 47 → short p → ends (fstatat fd p b).
Proof. intros Ha Hp. pose proof (ends_fd_stat p Hp). unfold fstatat. rewrite Ha. cbn [Z.eqb Pos.eqb]. ending. Qed.

Lemma exec_ends c : ending_call c → ends (exec c).
Proof.
  pose proof ends_open. pose proof ends_read. pose proof ends_chmod. pose proof ends_mkdir. pose proof ends_fstatat.
  intros Hc. destruct c; simpl in Hc; try done; try (match type of Hc with _ ∧ _ => destruct Hc end);
    unfold exec, lseek, fd_lseek, lseek_con, lseek_sym, dup, stat, fd_stat, lstat, fd_lstat, fstat, fd_fstat,
      fchmod, chown, df_chown, fchown, statfs, fd_statfs, fstatfs, fsync, chdir, fchdir, chroot, rmdir,
      unlink, link, rename, getdents64, fd_getdents, getdents_fake, getdents_host, ioctl, ioctl_sym, fcntl,
      select, umask; ending.
Qed.
End EndsOps.

(** C36: the calls end.  In any state, well formed or not, no run of one of the
    calls of [ending_call], with paths below 2^30 bytes, gets past the fuel of a
    loop: each iteration of [realpath] uses one of the 33 links it allows, so 34
    are enough, and the other loops run over a table, a path or a buffer.  Not
    among these calls are [write] and [ftruncate] (their doubling loops end only
    below 2^31 bytes, [grow_terminates]) and [fstatat] with a relative path. *)
Theorem calls_end `{Host} (w w' : world) (c : call) : ending_call c → exec c w ≠ Halt NoFuel w'.
Proof. intros Hc. by apply exec_ends. Qed.
Lemma calls_end_witness : exec (COpen "in.txt" O_RDWR 0) demo_w0 ≠ Halt NoFuel demo_w0.
Proof. apply (calls_end (H:=small_host) demo_w0 demo_w0 (COpen "in.txt" O_RDWR 0)). unfold ending_call, short. simpl. lia. Defined.

(** ** The normal form of a resolved path *)
Definition slash : ascii := "/"%char.

(** A component that stands for itself. *)
Definition good_comp (c : list ascii) : Prop :=
  c ≠ [] ∧ Forall (λ x, x ≠ slash) c ∧ c ≠ ["."%char] ∧ c ≠ ["."%char; "."%char].
(** An absolute path with a slash after each component. *)
Definition dirform (cs : list (list ascii)) : list ascii := slash :: concat (map (λ c, c ++ [slash]) cs).
(** An absolute path without "//", ".", ".." and trailing slash. *)
Definition normal (s : list ascii) : Prop :=
  ∃ cs, Forall good_comp cs ∧ s = match cs with [] => [slash] | _ => concat (map (cons slash) cs) end.
(** The buffer of [realpath] at the head of its loop, last character first. *)
Definition at_dir (got : list ascii) : Prop := ∃ cs, Forall good_comp cs ∧ got = rev (dirform cs).

Lemma dirform_snoc cs c : dirform (cs ++ [c]) = dirform cs ++ c ++ [slash].
Proof. unfold dirform. rewrite map_app, concat_app. simpl. by rewrite app_nil_r. Qed.
Lemma rev_dirform_snoc cs c : rev (dirform (cs ++ [c])) = slash :: rev c ++ rev (dirform cs).
Proof. rewrite dirform_snoc, !rev_app_distr. done. Qed.
Lemma rev_dirform_head cs : ∃ l, rev (dirform cs) = slash :: l.
Proof. destruct cs as [|c cs _] using rev_ind; [by exists []|]. rewrite rev_dirform_snoc. eauto. Qed.
Lemma dirform_length cs : length (rev (dirform cs)) = 1%nat → cs = [].
Proof.
  destruct cs as [|c cs _] using rev_ind; [done|]. rewrite rev_dirform_snoc.
  destruct (rev_dirform_head cs) as [l ->]. simpl. rewrite length_app. simpl. lia.
Qed.

Lemma is_slash_true c : is_slash c = true ↔ c = slash.
Proof. unfold is_slash. by rewrite bool_decide_eq_true. Qed.
Lemma is_slash_false c : is_slash c = false ↔ c ≠ slash.
Proof. unfold is_slash. by rewrite bool_decide_eq_false. Qed.
Lemma is_dot_true c : is_dot c = true ↔ c = "."%char.
Proof. unfold is_dot. by rewrite bool_decide_eq_true. Qed.

Lemma is_dot_false c : is_dot c = false ↔ c ≠ "."%char.
Proof. unfold is_dot. by rewrite bool_decide_eq_false. Qed.

Lemma drop_to_slash_skip l l' :
  Forall (λ x, x ≠ slash) l → drop_to_slash (l ++ slash :: l') = Some (slash :: l').
Proof. induction 1 as [|x l Hx _ IH]; simpl; [done|]. by rewrite (proj2 (is_slash_false x) Hx). Qed.

Lemma back_up_dir got : at_dir got → length got ≠ 1%nat → ∃ got', back_up got = Some got' ∧ at_dir got'.
Proof.
  intros (cs & Hcs & ->) Hl. destruct cs as [|c cs _] using rev_ind; [done|].
  apply Forall_app in Hcs as [Hcs Hc]. rewrite rev_dirform_snoc. unfold back_up. cbn [tail].
  inversion Hc as [|? ? (_ & Hns & _) _]; subst. destruct (rev_dirform_head cs) as [l El]. rewrite El.
  rewrite drop_to_slash_skip by by apply Forall_rev. eexists. split; [done|]. exists cs. by rewrite El.
Qed.

(** The first component of a path and the rest. *)
Fixpoint comp (p : list ascii) : list ascii :=
  match p with [] => [] | c :: p' => if is_slash c then [] else c :: comp p' end.
Fixpoint rest (p : list ascii) : list ascii :=
  match p with [] => [] | c :: p' => if is_slash c then p else rest p' end.
Lemma comp_no_slash p : Forall (λ x, x ≠ slash) (comp p).
Proof. induction p as [|c p IH]; simpl; [done|]. destruct (is_slash c) eqn:E; [done|]. constructor; [by apply is_slash_false|done]. Qed.
Lemma comp_nil p : comp p = [] → at_end p = true.
Proof. destruct p as [|c p]; simpl; [done|]. by destruct (is_slash c). Qed.

Lemma skip_seps_dir n path got :
  (length path ≤ n)%nat → at_dir got →
  ∃ path' got', skip_seps path got = Some (path', got') ∧ at_dir got' ∧ (path' = [] ∨ good_comp (comp path')).
Proof.
  revert path got. induction n as [|n IH]; intros path got Hn Hg.
  { destruct path; [|simpl in Hn; lia]. eexists _, _. split; [done|]. auto. }
  destruct path as [|c p1]; [eexists _, _; split; [done|]; auto|]. simpl in Hn. cbn [skip_seps].
  destruct (is_slash c) eqn:Es; [apply IH; [lia|done]|].
  assert (c ≠ "."%char ∨ at_end p1 = false → (∀ c2 p2, p1 = c2 :: p2 → c = "."%char → is_dot c2 && at_end p2 = false) →
    good_comp (comp (c :: p1))) as Hgood.
  { intros H1 H2. pose proof (comp_no_slash (c :: p1)) as Hns. simpl in *. rewrite Es in *. split_and!; [done|done|..].
    - intros [= -> Ec]. apply comp_nil in Ec. destruct H1 as [?|?]; congruence.
    - intros [= -> Ec]. destruct p1 as [|c2 p2]; [done|]. simpl in Ec. destruct (is_slash c2) eqn:E2; [done|].
      injection Ec as -> Ec. apply comp_nil in Ec. specialize (H2 _ p2 eq_refl eq_refl). by rewrite Ec in H2. }
  destruct (is_dot c) eqn:Ed; [apply is_dot_true in Ed as ->|].
  2:{ eexists _, _. split; [done|]. split; [done|right]. apply is_dot_false in Ed. apply Hgood; [by left|]. intros; contradiction. }
  destruct (at_end p1) eqn:Ee; [apply IH; [lia|done]|]. destruct p1 as [|c2 p2]; [done|].
  destruct (is_dot c2 && at_end p2) eqn:Edd.
  2:{ eexists _, _. split; [done|]. split; [done|right]. apply Hgood; [by right|]. by intros ? ? [= <- <-] _. }
  simpl in Hn. destruct (length got =? 1)%nat eqn:El; [apply IH; [lia|done]|].
  apply Nat.eqb_neq in El. destruct (back_up_dir got Hg El) as (got' & -> & Hg'). simpl. apply IH; [lia|done].
Qed.

Lemma normal_strip cs : Forall good_comp cs → normal (rev (strip_slash (rev (dirform cs)))).
Proof.
  intros Hcs. exists cs. split; [done|]. destruct cs as [|c cs _] using rev_ind; [done|].
  rewrite rev_dirform_snoc. destruct (rev_dirform_head cs) as [l El].
  assert (strip_slash (slash :: rev c ++ rev (dirform cs)) = rev c ++ rev (dirform cs)) as ->.
  { rewrite El. destruct (rev c); done. }
  rewrite rev_app_distr, !rev_involutive.
  assert (∀ cs, dirform cs ++ c = concat (map (cons slash) (cs ++ [c]))) as ->.
  { clear. intros cs. unfold dirform. induction cs as [|d cs IH]; simpl; [by rewrite app_nil_r|].
    simpl in IH. rewrite <- IH. by rewrite <- !app_assoc. }
  by destruct cs.
Qed.

Section Normal.
Context `{Host}.
Implicit Types w : world.

Lemma copy_component_spec len path got w :
  wlp (copy_component len path got)
    (λ r _, ∀ path' got', r = Some (path', got') → path' = rest path ∧ got' = rev (comp path) ++ got) w.
Proof.
  revert got w. induction path as [|c path IH]; intros got w; simpl.
  - apply wlp_ret. by intros ? ? [= <- <-].
  - destruct (is_slash c) eqn:Es; [apply wlp_ret; by intros ? ? [= <- <-]|].
    case_match; [by apply wlp_bind, wlp_modify, wlp_ret|].
    apply wlp_bind. unfold push. case_match; [|apply wlp_halt]. apply wlp_ret.
    eapply wlp_mono; [apply IH|]. intros r w' Hr path' got' E. destruct (Hr _ _ E) as [-> ->].
    split; [done|]. simpl. by rewrite <- app_assoc.
Qed.

Definition resolved_ok (r : bool * option string) : Prop :=
  r.1 = true → ∃ s, r.2 = Some s ∧ normal (chars s).

Lemma wlp_push c got (Q : list ascii → world → Prop) w : Q (c :: got) w → wlp (push c got) Q w.
Proof. intros HQ. unfold push. case_match; [by apply wlp_ret|apply wlp_halt]. Qed.

Lemma realpath_loop_normal fuel rl cap len path got w :
  at_dir got → wlp (realpath_loop fuel rl cap len path got) (λ r _, resolved_ok r) w.
Proof.
  revert rl len path got w. induction fuel as [|fuel IH]; intros rl len path got w Hg; [apply wlp_halt|].
  cbn [realpath_loop]. destruct (skip_seps_dir (length path) path got) as (p1 & g1 & -> & Hg1 & Hp1); [done..|].
  apply wlp_bind, wlp_ret. destruct p1 as [|c p1].
  { apply wlp_bind. unfold copy_out. case_match; [|apply wlp_halt]. apply wlp_ret, wlp_ret. intros _.
    eexists. split; [done|]. destruct Hg1 as (cs & Hcs & ->). simpl.
    rewrite String.list_ascii_of_string_of_list_ascii. by apply normal_strip. }
  destruct Hp1 as [?|Hcomp]; [done|]. remember (c :: p1) as p eqn:Ep. clear c p1 Ep.
  apply wlp_bind. eapply wlp_mono; [apply copy_component_spec|]. intros [[p2 g2]|] w2 Hr; [|by apply wlp_ret].
  destruct (Hr _ _ eq_refl) as [_ ->]. clear Hr. destruct Hg1 as (cs & Hcs & ->).
  case_match; [by apply wlp_bind, wlp_modify, wlp_ret|]. case_match; [apply wlp_halt|].
  apply wlp_bind, wlp_any. intros [n link] w3. destruct (n <? 0).
  - apply wlp_bind, wlp_gets. case_match.
    + apply wlp_bind, wlp_push, IH. exists (cs ++ [comp p]). split; [by apply Forall_app; auto|].
      by rewrite rev_dirform_snoc.
    + apply wlp_bind, wlp_any. intros s w4. by apply wlp_ret.
  - destruct (rev_dirform_head cs) as [l El]. apply wlp_bind.
    apply wlp_mono with (Q := λ g _, g = [] ∨ slash :: g = rev (dirform cs)).
    + case_match; [by apply wlp_ret; left|]. apply wlp_deref. unfold back_over. rewrite El.
      rewrite drop_to_slash_skip by apply Forall_rev, comp_no_slash. intros g [= <-]. by right.
    + intros g w4 Hg4. case_match; [by apply wlp_bind, wlp_modify, wlp_ret|].
      apply wlp_bind, wlp_push, IH. destruct Hg4 as [->|Hg4]; [by exists []|]. by exists cs.
Qed.
End Normal.

(** when [realpath] succeeds on an absolute path, the path it returns is in
    normal form, whatever symbolic links the host has: it is "/" or a sequence of
    components each preceded by one slash, where no component is empty, "." or
    ".." and there is no slash at the end. *)
Theorem realpath_normal `{Host} (w w' : world) (path s : string) (cap : Z) :
  char_at path 0 = 47 → realpath path cap w = Done (true, Some s) w' → normal (chars s).
Proof.
  intros Hp E. assert (wlp (realpath path cap) (λ r _, resolved_ok r) w) as Hn.
  { unfold realpath. rewrite Hp. change (47 =? 0) with false. change (negb (47 =? 47)) with false.
    cbv iota. case_match; [by apply wlp_bind, wlp_modify, wlp_ret|].
    apply realpath_loop_normal. by exists []. }
  unfold wlp in Hn. rewrite E in Hn. destruct (Hn eq_refl) as (s' & [= <-] & Hs). done.
Qed.
Lemma realpath_normal_witness : normal (chars "/w/in.txt").
Proof.
  apply (realpath_normal (H:=small_host) demo_w0 (final (realpath "/w/../w//./in.txt" 1024 demo_w0))
           "/w/../w//./in.txt" "/w/in.txt" 1024); vm_compute; reflexivity.
Defined.
