(* ===== verification/FsSpecInit.v ===== *)
(** * Start-up: numbers, ranges and arguments

    What the option parser makes of its arguments: [__str_to_int] reads decimal
    numbers, [klee_range] chooses a value of the range, and [klee_init_env]
    hands over the arguments that are no options. *)
From S2P Require Import Prelude FsTypes FsCore FsPath FsMeta FsInit HostModel.

(** ** [__str_to_int] *)
Definition is_digit (c : ascii) : bool :=
  (48 <=? Z.of_nat (Ascii.nat_of_ascii c)) && (Z.of_nat (Ascii.nat_of_ascii c) <=? 57).
(** The number a list of digits writes, most significant digit first. *)
Fixpoint decimal (l : list ascii) : Z :=
  match l with
  | [] => 0
  | c :: l' => (Z.of_nat (Ascii.nat_of_ascii c) - 48) * 10 ^ Z.of_nat (length l') + decimal l'
  end.
(** A C string: no NUL before its end. *)
Definition nul_free (s : string) : Prop := Forall (λ c, c ≠ Ascii.zero) (chars s).

Lemma s8_ascii c :
  s8 (Z.of_nat (Ascii.nat_of_ascii c)) =
    let v := Z.of_nat (Ascii.nat_of_ascii c) in if v <? 128 then v else v - 256.
Proof.
  pose proof (Ascii.nat_ascii_bounded c) as Hb. cbv zeta. destruct (_ <? 128) eqn:E; [wrap_lia|].
  set (v := Z.of_nat _) in *. unfold wraps. change (2 ^ (8 - 1)) with 128. change (2 ^ 8) with 256.
  rewrite <- (Z.mod_unique (v + 128) 256 1 (v - 128)) by lia. lia.
Qed.
Lemma ascii_nonzero c : c ≠ Ascii.zero → 0 < Z.of_nat (Ascii.nat_of_ascii c).
Proof.
  intros Hc. assert (Ascii.nat_of_ascii c ≠ 0%nat); [|lia]. intros E. apply Hc.
  rewrite <- (Ascii.ascii_nat_embedding c), E. done.
Qed.
Lemma digit_test c :
  c ≠ Ascii.zero →
  (s8 (Z.of_nat (Ascii.nat_of_ascii c)) =? 0) = false ∧
  (48 <=? s8 (Z.of_nat (Ascii.nat_of_ascii c))) && (s8 (Z.of_nat (Ascii.nat_of_ascii c)) <=? 57) = is_digit c.
Proof.
  intros Hc. apply ascii_nonzero in Hc. pose proof (Ascii.nat_ascii_bounded c). rewrite s8_ascii.
  unfold is_digit. cbv zeta. destruct (_ <? 128) eqn:E; [split; [lia|done]|]. split; [lia|].
  rewrite (proj2 (Z.leb_gt 48 (_ - 256))) by lia. simpl. rewrite (proj2 (Z.leb_gt _ 57)) by lia. by rewrite andb_false_r.
Qed.
Lemma s64_horner a b l d :
  s64 (s64 (a * 10 + d) * 10 ^ l + b) = s64 ((a * 10 + d) * 10 ^ l + b).
Proof.
  set (x := a * 10 + d). unfold wraps. f_equal.
  rewrite <- (Z.add_mod_idemp_l (_ + b)) by done. rewrite <- (Z.add_mod_idemp_l (x * _ + b)) by done.
  do 2 f_equal. rewrite <- (Z.add_mod_idemp_l _ b), <- (Z.add_mod_idemp_l (x * _) b) by done.
  do 2 f_equal. rewrite <- Z.mul_mod_idemp_l, <- (Z.mul_mod_idemp_l x) by done. do 2 f_equal.
  rewrite Zminus_mod_idemp_l. f_equal. lia.
Qed.

Section StrToInt.
Context `{Host}.
Implicit Types w : world.
Lemma str_to_int_loop_run l res msg w :
  Forall (λ c, c ≠ Ascii.zero) l → s64 res = res →
  str_to_int_loop l res msg w =
    if forallb is_digit l then Done (s64 (res * 10 ^ Z.of_nat (length l) + decimal l)) w
    else Halt (KleeReport msg) w.
Proof.
  intros Hl. revert res. induction Hl as [|c l Hc _ IH]; intros res Hres; cbn [str_to_int_loop forallb decimal length].
  { change (10 ^ Z.of_nat 0) with 1. by rewrite Z.mul_1_r, Z.add_0_r, Hres. }
  destruct (digit_test c Hc) as [-> ->]. destruct (is_digit c) eqn:Ed; [|done].
  assert (s8 (Z.of_nat (Ascii.nat_of_ascii c)) = Z.of_nat (Ascii.nat_of_ascii c)) as ->.
  { rewrite s8_ascii. unfold is_digit in Ed. cbv zeta. destruct (_ <? 128) eqn:E; [done|lia]. }
  rewrite IH by (apply wraps_small; [lia|]; apply wraps_range; lia).
  simpl andb. destruct (forallb is_digit l); [|done]. f_equal. rewrite s64_horner. f_equal.
  rewrite Nat2Z.inj_succ, Z.pow_succ_r by lia. ring.
Qed.
End StrToInt.

(** [__str_to_int] reads decimal numbers: for a C string it returns the
    number the digits write, reduced to the 64-bit [long], when the string is
    not empty and all its characters are digits, and otherwise ends the run with
    the caller's error message; it changes nothing. *)
Theorem str_to_int_decimal `{Host} (w : world) (s msg : string) :
  nul_free s →
  str_to_int s msg w =
    if negb (bool_decide (s = ""%string)) && forallb is_digit (chars s)
    then Done (s64 (decimal (chars s))) w else Halt (KleeReport msg) w.
Proof.
  intros Hs. unfold str_to_int. destruct s as [|c s]; [done|]. rewrite bool_decide_false by done.
  assert ((char_at (String c s) 0 =? 0) = false) as ->.
  { inversion Hs. apply digit_test. done. }
  by rewrite str_to_int_loop_run.
Qed.
Lemma str_to_int_decimal_witness : str_to_int "0240" msg_sym_arg (initial_world demo_host) =
  Done 240 (initial_world demo_host).
Proof. refine (str_to_int_decimal (H:=small_host) (initial_world demo_host) "0240" msg_sym_arg _). by repeat constructor. Defined.

(** ** [klee_range] *)
Section Range.
Context `{Host}.
Implicit Types w : world.
Lemma sym_int_range name w x w1 : sym_int name w = Done x w1 → - 2 ^ 31 ≤ x < 2 ^ 31.
Proof.
  unfold sym_int, klee_make_symbolic, sys, mbind, M_bind. destruct (sym_input name (host w)) as [g h].
  intros [= <- _]. apply (wraps_range 32). lia.
Qed.
Lemma assume_seq (b : bool) {A} (m : FS A) w :
  (klee_assume b;; m) w = if b then m w else Halt AssumeFailed w.
Proof. by destruct b. Qed.
End Range.

(** [klee_range start end] chooses a number of the range [start, end).  For
    all 32-bit [start] and [end], an empty range is reported as an error, a range
    of one number gives that number without a new input, and otherwise the
    result is the new symbolic [int] [name], on exactly the inputs whose value
    lies in the range (the unsigned comparison the code uses for [start = 0]
    included). *)
Theorem klee_range_spec `{Host} (w : world) (start end_ : Z) (name : string) :
  - 2 ^ 31 ≤ start < 2 ^ 31 → - 2 ^ 31 ≤ end_ < 2 ^ 31 →
  klee_range start end_ name w =
    if end_ <=? start then Halt (KleeReport "invalid range") w
    else if start + 1 =? end_ then Done start w
    else match sym_int name w with
         | Done x w1 => if (start <=? x) && (x <? end_) then Done x w1 else Halt AssumeFailed w1
         | Halt e w1 => Halt e w1
         end.
Proof.
  intros Hs He. unfold klee_range. destruct (end_ <=? start) eqn:E; [done|].
  rewrite (wraps_small 32 (start + 1)) by (pow2_norm; lia). destruct (start + 1 =? end_) eqn:E1; [done|].
  destruct (sym_int name w) as [x w1|e w1] eqn:Ex; [|by erewrite bind_halt].
  apply sym_int_range in Ex as Hx. erewrite bind_done by done.
  destruct (start =? 0) eqn:E0.
  - rewrite assume_seq. assert ((u32 x <? u32 end_) = (start <=? x) && (x <? end_)) as ->.
    { rewrite (wrapu_small 32 end_) by (pow2_norm; lia). destruct (0 <=? x) eqn:Ex0.
      - rewrite (wrapu_small 32 x) by (pow2_norm; lia). lia.
      - assert (u32 x = x + 2 ^ 32) as ->; [|pow2_norm; lia].
        unfold wrapu. symmetry. apply (Z.mod_unique _ _ (-1)); [left|]; pow2_norm; lia. }
    by destruct (_ && _).
  - unfold mbind, M_bind. destruct (start <=? x), (x <? end_); done.
Qed.
Lemma klee_range_spec_witness : result (klee_range 0 2000000000 "n" (initial_world (H:=small_host) demo_host)) = Some 1145258561.
Proof.
  rewrite (klee_range_spec (H:=small_host) (initial_world (H:=small_host) demo_host) 0 2000000000 "n"); [by_compute|lia|lia].
Defined.

(** ** [klee_init_env] without options *)
Definition option_names : list string :=
  ["sym-arg"; "sym-args"; "sym-files"; "sym-stdout"; "save-all-writes"; "malloc-fail"; "fd-fail";
   "max-fail"; "make-etc-symbolic"; "disable-sym-filter"; "symbolic-size"].
Definition plain_arg (a : string) : Prop := Forall (λ x, is_opt a x = false) option_names.
#[global] Instance plain_arg_dec a : Decision (plain_arg a).
Proof. unfold plain_arg. apply _. Defined.

Definition set_args (l : list arg) (o : options) : options :=
  mkOpts l (o_sym_arg_num o) (o_sym_files o) (o_sym_file_len o) (o_sym_stdout o) (o_save_all_writes o)
    (o_fd_fail o) (o_malloc_fail o) (o_etc_symbolic o) (o_symbolic_size o) (o_sym_specific o).

Section Plain.
Context `{Host}.
Implicit Types w : world.

Lemma parse_args_plain_cons a argv o w :
  plain_arg a → parse_args (a :: argv) o w = (o' ← add_arg (ArgStr a) o; parse_args argv o') w.
Proof.
  intros Ha. unfold plain_arg, option_names in Ha. rewrite !Forall_cons in Ha.
  destruct Ha as (H1 & H2 & H3 & H4 & H5 & H6 & H7 & H8 & H9 & H10 & H11 & _). cbn [parse_args].
  by rewrite H1, H2, H3, H4, H5, H6, H7, H8, H9, H10, H11.
Qed.

Lemma parse_args_plain argv o w :
  Forall plain_arg argv → (length (o_args o) ≤ MAX_ARGS)%nat →
  parse_args argv o w =
    if bool_decide (length (o_args o) + length argv ≤ MAX_ARGS)%nat
    then Done (set_args (o_args o ++ map ArgStr argv) o) w
    else Halt (KleeReport "too many arguments for klee_init_env") w.
Proof.
  intros Ha. revert o. induction Ha as [|a argv Ha _ IH]; intros o Ho.
  - rewrite bool_decide_true by (cbn [length]; lia). cbn [map parse_args]. rewrite app_nil_r. by destruct o.
  - rewrite parse_args_plain_cons by done. unfold add_arg.
    destruct (length (o_args o) =? MAX_ARGS)%nat eqn:E.
    + apply Nat.eqb_eq in E. rewrite bool_decide_false by (cbn [length]; lia). done.
    + apply Nat.eqb_neq in E. erewrite bind_done by done. rewrite IH by (cbn [o_args]; rewrite length_app; cbn [length]; lia).
      cbn [o_args map]. rewrite length_app, <- app_assoc. cbn [length app].
      rewrite (bool_decide_ext _ (length (o_args o) + S (length argv) ≤ MAX_ARGS)%nat) by lia. done.
Qed.
End Plain.

(** arguments that are no options reach the program unchanged and in
    order.  When no argument is an option of [klee_init_env] (and the only
    argument is not "--help"), up to 1024 arguments are copied and the runtime
    starts with no symbolic file, no failures and the default size 32 for the
    symbolic configuration files; more than 1024 end the run with the error of
    [__add_arg]. *)
Theorem init_env_plain `{Host} (w : world) (argv : list string) :
  Forall plain_arg argv → (length argv = 2%nat → argv !! 1%nat ≠ Some "--help"%string) →
  klee_init_env argv w =
    if bool_decide (length argv ≤ 1024)%nat
    then (klee_init_fds 0 0 0 0 0 0 0 32 1;; mret (map ArgStr argv)) w
    else Halt (KleeReport "too many arguments for klee_init_env") w.
Proof.
  intros Ha Hh. unfold klee_init_env.
  destruct ((length argv =? 2)%nat && bool_decide (argv !! 1%nat = Some "--help")) eqn:E.
  { apply andb_true_iff in E as [E1 E2]. apply Nat.eqb_eq in E1. apply bool_decide_eq_true in E2. by destruct (Hh E1). }
  pose proof (parse_args_plain argv default_options w Ha) as Hp. change (o_args default_options) with (@nil arg) in Hp.
  cbn [length app Nat.add] in Hp. specialize (Hp (Nat.le_0_l _)).
  change MAX_ARGS with 1024%nat in Hp. case_bool_decide.
  - by erewrite bind_done by exact Hp.
  - by erewrite bind_halt by exact Hp.
Qed.
Lemma init_env_plain_witness :
  result (klee_init_env (H:=small_host) ["ls"; "-l"; "A"] (initial_world (H:=small_host) demo_host)) =
    Some [ArgStr "ls"; ArgStr "-l"; ArgStr "A"].
Proof.
  rewrite (init_env_plain (H:=small_host) (initial_world (H:=small_host) demo_host) ["ls"; "-l"; "A"]);
    [vm_compute; reflexivity|by repeat constructor|done].
Defined.
