(* ===== verification/Stubs.v ===== *)
(** * Stubs and small services

    The system calls the runtime refuses or ignores ([stubs.c], [illegal.c],
    [selinux.c] of [src/klee/runtime/POSIX]), device numbers, and the private
    mappings of [mmap.c], which read the file through the runtime's own
    [lseek] and [read].  The warnings the stubs print are not modelled. *)
From S2P Require Import Prelude FsTypes FsCore FsPath FsOpen FsIO FsMeta.

(** ** Device numbers *)
Definition gnu_dev_major (dev : Z) : Z :=
  u32 (Z.lor (Z.land (Z.shiftr dev 8) 4095) (Z.land (u32 (Z.shiftr dev 32)) (u32 (Z.lnot 4095)))).
Definition gnu_dev_minor (dev : Z) : Z :=
  u32 (Z.lor (Z.land dev 255) (Z.land (u32 (Z.shiftr dev 12)) (u32 (Z.lnot 255)))).
Definition gnu_dev_makedev (major minor : Z) : Z :=
  u64 (Z.lor (Z.lor (Z.lor (Z.land minor 255) (u32 (Z.shiftl (Z.land major 4095) 8)))
               (u64 (Z.shiftl (Z.land minor (u32 (Z.lnot 255))) 12)))
         (u64 (Z.shiftl (Z.land major (u32 (Z.lnot 4095))) 32))).

(** [mmap]'s flags. *)
Definition MAP_SHARED : Z := 1.
Definition MAP_FIXED : Z := 16.
Definition MAP_ANONYMOUS : Z := 32.
Definition MMAP_PAGE_SIZE : Z := 4096.

Section Stubs.
Context `{Host}.

(** ** [stubs.c]: ignored *)
Definition sigaction : FS Z := mret 0.
Definition sigprocmask : FS Z := mret 0.
Definition fdatasync (fd : Z) : FS Z := mret 0.
Definition sync : FS unit := mret tt.
Definition nanosleep : FS Z := mret 0.
Definition setgid (gid : Z) : FS Z := mret 0.
Definition setuid (uid : Z) : FS Z := mret 0.

(** ** Refused with an error *)
Definition socketcall (type : Z) : FS Z := fail EAFNOSUPPORT.
Definition mkfifo (path : string) (mode : Z) : FS Z := fail EIO.
Definition mknod (path : string) (mode dev : Z) : FS Z := fail EIO.
Definition pipe : FS Z := fail ENFILE.
Definition symlink (oldpath newpath : string) : FS Z := fail EPERM.
Definition clock_settime : FS Z := fail EPERM.
Definition utime (path : string) : FS Z := fail EPERM.
Definition utimes (path : string) : FS Z := fail EPERM.
Definition futimes (fd : Z) : FS Z := fail EBADF.
Definition getloadavg : FS Z := mret (-1).
Definition wait : FS Z := fail ECHILD.
Definition wait3 : FS Z := fail ECHILD.
Definition wait4 : FS Z := fail ECHILD.
Definition waitpid : FS Z := fail ECHILD.
Definition waitid : FS Z := fail ECHILD.
(** NULL is -1 here: the pointer results of the ACL calls. *)
Definition acl_delete_def_file : FS Z := fail EPERM.
Definition acl_extended_file : FS Z := fail ENOENT.
Definition acl_entries : FS Z := fail EINVAL.
Definition acl_from_mode : FS (option Z) := set_errno ENOMEM;; mret None.
Definition acl_get_fd : FS (option Z) := set_errno ENOMEM;; mret None.
Definition acl_get_file : FS (option Z) := set_errno ENOMEM;; mret None.
Definition acl_set_fd : FS Z := fail EPERM.
Definition acl_set_file : FS Z := fail EPERM.
Definition acl_free : FS Z := fail EINVAL.
Definition mount : FS Z := fail EPERM.
Definition umount : FS Z := fail EPERM.
Definition umount2 : FS Z := fail EPERM.
Definition swapon : FS Z := fail EPERM.
Definition swapoff : FS Z := fail EPERM.
Definition setgroups : FS Z := fail EPERM.
Definition sethostname : FS Z := fail EPERM.
Definition setpgid : FS Z := fail EPERM.
Definition setpgrp : FS Z := fail EPERM.
Definition setpriority : FS Z := fail EPERM.
Definition setresgid : FS Z := fail EPERM.
Definition setresuid : FS Z := fail EPERM.
Definition setrlimit : FS Z := fail EPERM.
Definition setrlimit64 : FS Z := fail EPERM.
Definition setsid : FS Z := fail EPERM.
Definition settimeofday : FS Z := fail EPERM.
Definition reboot : FS Z := fail EPERM.
Definition mlock : FS Z := fail EPERM.
Definition munlock : FS Z := fail EPERM.
Definition pause : FS Z := fail EPERM.
Definition readahead : FS Z := fail EPERM.

(** ** Services *)

(** The seconds and nanoseconds stored in the caller's structure. *)
Definition clock_gettime : FS (Z * (Z * Z)) :=
  '(sec, usec) ← sys sys_gettimeofday; mret (0, (sec, s64 (usec * 1000))).
Definition time : FS Z := '(sec, _) ← sys sys_gettimeofday; mret sec.
(** The four fields of the caller's [struct tms]. *)
Definition times : FS (Z * list Z) := mret (0, [0; 0; 0; 0]).
Definition euidaccess (path : string) (mode : Z) : FS Z := access path mode.
Definition eaccess (path : string) (mode : Z) : FS Z := euidaccess path mode.
Definition group_member (gid : Z) : FS Z :=
  w ← get; mret (int_of_bool ((gid =? host_getgid (host w)) || (gid =? host_getegid (host w)))).
(** NULL is [None]; the buffer is freed then. *)
Definition canonicalize_file_name (name : string) : FS (option string) :=
  '(ok, buf) ← realpath name PATH_MAX;
  if (ok : bool) then s ← written buf; mret (Some s) else mret None.

(** ** [illegal.c] *)
Definition kill (pid sig : Z) : FS Z := fail EPERM.
Definition setjmp_ : FS Z := mret 0.
Definition longjmp (val : Z) : FS unit := halt (KleeReport "longjmp unsupported").
Definition bad_exec : FS Z := fail EACCES.
Definition execl : FS Z := bad_exec.
Definition execlp : FS Z := bad_exec.
Definition execle : FS Z := bad_exec.
Definition execv : FS Z := bad_exec.
Definition execvp : FS Z := bad_exec.
Definition execve : FS Z := bad_exec.
Definition fork : FS Z := fail ENOMEM.
Definition vfork : FS Z := fork.

(** ** [selinux.c]: [con] is the file creation context, [None] for NULL. *)
Definition is_selinux_enabled : Z := 1.
Definition getfscreatecon (con : option string) : Z * option string := (0, con).
Definition setfscreatecon (con context : option string) : FS (Z * option string) :=
  match context with
  | None => mret (0, None)
  | Some s =>
      if negb (char_at s 0 =? 0) && (char_at s 1 =? 0) then halt (ExitWith 1)
      else mret (-1, con)
  end.
Definition setfilecon (path : string) (con : option string) : FS Z :=
  match con with Some _ => mret 0 | None => fail ENOSPC end.
Definition lsetfilecon (path : string) (con : option string) : FS Z := setfilecon path con.
Definition fsetfilecon (fd : Z) (con : option string) : FS Z := setfilecon "" con.

(** ** [mmap.c]: the bytes of the new object, [None] for MAP_FAILED. *)
Definition mmap (len flags fildes off : Z) : FS (option (list Z)) :=
  if testflag flags MAP_SHARED then set_errno ENOTSUP;; mret None
  else if testflag flags MAP_FIXED then set_errno ENOTSUP;; mret None
  else
    ok ← sys (host_malloc len);
    if negb ok then set_errno ENOMEM;; mret None
    else
      let fresh := replicate (Z.to_nat len) (u8 uninit) in
      if testflag flags MAP_ANONYMOUS then mret (Some fresh)
      else
        curpos ← lseek fildes 0 SEEK_CUR;
        lseek fildes off SEEK_SET;;
        '(ret, buf) ← read fildes (Some fresh) len;
        read_errno ← gets errno;
        lseek fildes curpos SEEK_SET;;
        set_errno read_errno;;
        mret (if (ret : Z) =? -1 then None else buf).
Definition mmap64 (len flags fildes off : Z) : FS (option (list Z)) :=
  mmap len flags fildes (s64 (off * MMAP_PAGE_SIZE)).
Definition munmap (addr len : Z) : FS Z :=
  if negb (len =? 0) || negb (addr `mod` MMAP_PAGE_SIZE =? 0) then fail EINVAL else mret 0.

(** ** [putchar.c] *)
Definition putchar (c : Z) : FS Z := write 1 [u8 c] 1;; mret 1.
End Stubs.

(** ** Device numbers read back *)
Lemma land_low_bits x k n : 0 ≤ n → 0 ≤ k → Z.testbit (Z.land x (2 ^ k - 1)) n = (Z.testbit x n && (n <? k)).
Proof.
  intros Hn Hk. replace (2 ^ k - 1) with (Z.ones k) by (rewrite Z.ones_equiv; lia).
  rewrite Z.land_spec, Z.testbit_ones_nonneg by lia. done.
Qed.
Lemma land_high_bits x k n :
  0 ≤ n → 0 ≤ k → Z.testbit (Z.land x (u32 (Z.lnot (2 ^ k - 1)))) n = (Z.testbit x n && (k <=? n) && (n <? 32)).
Proof.
  intros Hn Hk. rewrite Z.land_spec. destruct (n <? 32) eqn:E.
  - rewrite testbit_wrapu, Z.lnot_spec by lia.
    replace (2 ^ k - 1) with (Z.ones k) by (rewrite Z.ones_equiv; lia).
    rewrite Z.testbit_ones_nonneg by lia. destruct (k <=? n) eqn:E2, (n <? k) eqn:E3; try lia;
      destruct (Z.testbit x n); done.
  - rewrite testbit_wrap_high by lia. by rewrite !andb_false_r.
Qed.

Lemma makedev_bits major minor n :
  0 ≤ major < 2 ^ 32 → 0 ≤ minor < 2 ^ 32 → 0 ≤ n →
  Z.testbit (gnu_dev_makedev major minor) n =
    if n <? 8 then Z.testbit minor n
    else if n <? 20 then Z.testbit major (n - 8)
    else if n <? 44 then Z.testbit minor (n - 12)
    else if n <? 64 then Z.testbit major (n - 32) else false.
Proof.
  intros Hma Hmi Hn. unfold gnu_dev_makedev. destruct (n <? 64) eqn:E64.
  2:{ rewrite testbit_wrap_high by lia. by rewrite !(proj2 (Z.ltb_ge n _)) by lia. }
  rewrite testbit_wrapu, !Z.lor_spec by lia. rewrite !(testbit_wrapu 64) by lia.
  rewrite (land_low_bits minor 8) by lia.
  assert (Z.testbit (u32 (Z.shiftl (Z.land major 4095) 8)) n = Z.testbit major (n - 8) && (8 <=? n) && (n <? 20)) as ->.
  { destruct (n <? 32) eqn:E32.
    - rewrite testbit_wrapu, Z.shiftl_spec by lia. destruct (8 <=? n) eqn:E8.
      + rewrite (land_low_bits major 12) by lia. rewrite andb_true_r. f_equal.
        destruct (n - 8 <? 12) eqn:E1, (n <? 20) eqn:E2; lia || done.
      + rewrite Z.testbit_neg_r by lia. by rewrite andb_false_r.
    - rewrite testbit_wrap_high, (proj2 (Z.ltb_ge n 20)) by lia. by rewrite andb_false_r. }
  assert (∀ x k j, 0 ≤ k → 0 ≤ j → Z.testbit (Z.shiftl (Z.land x (u32 (Z.lnot (2 ^ k - 1)))) j) n =
    Z.testbit x (n - j) && (k + j <=? n) && (n <? 32 + j)) as Hsh.
  { intros x k j Hk Hj. rewrite Z.shiftl_spec by lia. destruct (j <=? n) eqn:Ej.
    - rewrite land_high_bits by lia. f_equal; [f_equal|].
      + destruct (k <=? n - j) eqn:E1, (k + j <=? n) eqn:E2; lia || done.
      + destruct (n - j <? 32) eqn:E1, (n <? 32 + j) eqn:E2; lia || done.
    - rewrite !(Z.testbit_neg_r _ (n - j)) by lia. done. }
  pose proof (Hsh minor 8 12) as H1. pose proof (Hsh major 12 32) as H2.
  change (2 ^ 8 - 1) with 255 in H1. change (2 ^ 12 - 1) with 4095 in H2. rewrite H1, H2 by lia.
  destruct (n <? 8) eqn:E8; [|destruct (n <? 20) eqn:E20; [|destruct (n <? 44) eqn:E44]];
    repeat match goal with
    | |- context [?a <=? ?b] => destruct (a <=? b) eqn:?; try lia
    | |- context [?a <? ?b] => destruct (a <? b) eqn:?; try lia
    end; rewrite ?andb_false_r, ?andb_true_r, ?orb_false_r, ?orb_false_l; done.
Qed.

(** device numbers read back: for any 32-bit major and minor number,
    [gnu_dev_major] and [gnu_dev_minor] of [gnu_dev_makedev major minor] are
    [major] and [minor]. *)
Theorem makedev_roundtrip (major minor : Z) :
  0 ≤ major < 2 ^ 32 → 0 ≤ minor < 2 ^ 32 →
  gnu_dev_major (gnu_dev_makedev major minor) = major ∧ gnu_dev_minor (gnu_dev_makedev major minor) = minor.
Proof.
  intros Hma Hmi. split; apply Z.bits_inj'; intros n Hn.
  - unfold gnu_dev_major. destruct (n <? 32) eqn:E32.
    2:{ by rewrite testbit_wrap_high, (testbit_high major 32) by lia. }
    rewrite testbit_wrapu, Z.lor_spec, (land_low_bits _ 12), (land_high_bits _ 12), testbit_wrapu,
      !Z.shiftr_spec, !makedev_bits by lia.
    destruct (n <? 12) eqn:E12.
    + rewrite (proj2 (Z.ltb_ge (n + 8) 8)), (proj2 (Z.ltb_lt (n + 8) 20)), (proj2 (Z.leb_gt 12 n)) by lia.
      rewrite andb_false_r, andb_true_r, orb_false_r. f_equal. lia.
    + rewrite !(proj2 (Z.ltb_ge (n + 32) _)), (proj2 (Z.ltb_lt (n + 32) 64)), (proj2 (Z.leb_le 12 n)) by lia.
      rewrite andb_false_r, E32, !andb_true_r. simpl. f_equal. lia.
  - unfold gnu_dev_minor. destruct (n <? 32) eqn:E32.
    2:{ by rewrite testbit_wrap_high, (testbit_high minor 32) by lia. }
    rewrite testbit_wrapu, Z.lor_spec, (land_low_bits _ 8), (land_high_bits _ 8), testbit_wrapu,
      !Z.shiftr_spec, !makedev_bits by lia.
    destruct (n <? 8) eqn:E8.
    + rewrite (proj2 (Z.leb_gt 8 n)) by lia. by rewrite andb_false_r, andb_true_r, orb_false_r.
    + rewrite !(proj2 (Z.ltb_ge (n + 12) _)), (proj2 (Z.ltb_lt (n + 12) 44)), (proj2 (Z.leb_le 8 n)) by lia.
      rewrite andb_false_r, E32, !andb_true_r. simpl. f_equal. lia.
Qed.
Lemma makedev_roundtrip_witness : gnu_dev_major (gnu_dev_makedev 5000 70000) = 5000.
Proof. apply (makedev_roundtrip 5000 70000); lia. Defined.
