(* ===== verification/FsSpecCow.v ===== *)
(** * Host files: copy on write, private mappings, directory entries

    A host file stays on the host until the first write, which copies it into
    memory; a private mapping reads the file and leaves the offset alone;
    [getdents] puts the symbolic files before the host's entries. *)
From S2P Require Import Prelude FsTypes FsCore FsPath FsOpen FsIO FsMeta FsDir FsInit HostModel FsFrame FsInv FsInvOps FsReach FsSpecIO Stubs.

(** ** Copy on write *)
Section Cow.
Context `{Host}.
Implicit Types w : world.

(** The host returns [bytes] as the whole contents of the open file [fd], and is
    in state [h'] after the calls [make_con_inmem] makes. *)
Definition host_loads (fd : Z) (h : hst) (bytes : list Z) (h' : hst) : Prop :=
  let size := Z.of_nat (length bytes) in
  ∃ h1 h3, sys_lseek fd 0 SEEK_END h = (size, h1) ∧ snd (klee_sys_close fd h3) = h' ∧
    if size =? 0 then h3 = h1
    else ∃ h2, host_malloc size h1 = (true, h2) ∧ sys_pread64 fd size 0 h2 = ((size, bytes), h3).

(** The record of an in-memory copy. *)
Definition loaded (bytes : list Z) (c : exe_disk_con_file_t) : exe_disk_con_file_t :=
  let n := Z.of_nat (length bytes) in
  set_state CON_STATE_INMEM (set_buf_size n (set_size n
    (set_contents (match bytes with [] => PNull | _ => PTo bytes end) c))).

Lemma put_con_host p c h w : put_con p c (upd_host h w) = upd_host h (put_con p c w).
Proof. done. Qed.
Lemma put_con_twice p c c' w : put_con p c' (put_con p c w) = put_con p c' w.
Proof.
  unfold put_con, upd_fs, set_con_files. destruct w as [s ? ? ? ? ? ?], s. simpl. by rewrite list_insert_insert_eq.
Qed.
Lemma upd_host_twice h h' w : upd_host h' (upd_host h w) = upd_host h' w.
Proof. done. Qed.

Lemma make_con_inmem_run fd p c bytes h' w :
  cp_base p = con_base (exe_fs w) → con_files (exe_fs w) !! cp_idx p = Some c →
  host_loads fd (host w) bytes h' → Z.of_nat (length bytes) < 2 ^ 31 →
  make_con_inmem fd p w = Done 0 (upd_host h' (put_con p (loaded bytes c) w)).
Proof.
  intros Hb Hc (h1 & h3 & Hl & Hcl & Hld) Hn. unfold make_con_inmem. cbv zeta.
  set (c1 := set_contents (match bytes with [] => PNull | _ => PTo bytes end) c).
  assert ((sys (klee_sys_close fd);;
     upd_con p (λ c, set_state CON_STATE_INMEM (set_buf_size (u32 (Z.of_nat (length bytes)))
       (set_size (u32 (Z.of_nat (length bytes))) c)));; mret 0) (upd_host h3 (put_con p c1 w))
    = Done 0 (upd_host h' (put_con p (loaded bytes c) w))) as Hfin.
  { destruct (klee_sys_close fd h3) as [r h''] eqn:Ec. simpl in Hcl. subst h''.
    erewrite bind_done; [|unfold sys; simpl; by rewrite Ec]. rewrite wrapu_small by (pow2_norm; lia).
    erewrite bind_done; [|apply (run_upd_con _ c1); [done|]; simpl; apply list_lookup_insert_eq; by eapply lookup_lt_Some].
    rewrite run_ret, <- (put_con_twice p c1 (loaded bytes c)). done. }
  erewrite bind_done; [|unfold sys; by rewrite Hl].
  destruct (Z.of_nat (length bytes) =? 0) eqn:E0.
  - subst h3. assert (bytes = []) as -> by (apply nil_length_inv; lia).
    erewrite bind_done by by apply (run_upd_con _ c). exact Hfin.
  - rewrite (proj2 (Z.ltb_ge _ 0)) by lia. destruct Hld as (h2 & Hm & Hr).
    erewrite bind_done; [|unfold sys; simpl; by rewrite Hm]. cbn [negb].
    erewrite bind_done; [|unfold sys; simpl; by rewrite Hr]. cbv beta iota. rewrite Z.eqb_refl. cbn [negb].
    erewrite bind_done by by apply (run_upd_con _ c). rewrite Nat2Z.id, resize_all.
    destruct bytes; [done|exact Hfin].
Qed.

Lemma loaded_represents bytes c :
  S_ISDIR (cf_mode c) = false → Z.of_nat (length bytes) < 2 ^ 31 → represents (loaded bytes c) bytes.
Proof.
  intros Hm Hn. split; simpl; [done..|pow2_norm; lia|]. destruct bytes; [by left|right].
  rewrite Z.sub_diag. by rewrite app_nil_r.
Qed.

(** The first write to a host file is a write to its in-memory copy. *)
Lemma write_con_direct fd f p c bytes data h' w :
  con_fd w fd f p c → cf_state c = CON_STATE_DIRECT → host_loads (f_fd f) (host w) bytes h' →
  Z.of_nat (length bytes) < 2 ^ 31 →
  write_con (Z.to_nat fd) f data (Z.of_nat (length data)) w =
    write_con (Z.to_nat fd) f data (Z.of_nat (length data)) (upd_host h' (put_con p (loaded bytes c) w)).
Proof.
  intros [Hof Ht Hp Hb Hc] Hst Hld Hn. unfold write_con.
  assert (con_files (exe_fs (upd_host h' (put_con p (loaded bytes c) w))) !! cp_idx p = Some (loaded bytes c)) as Hc'.
  { simpl. apply list_lookup_insert_eq. by eapply lookup_lt_Some. }
  assert (∀ w', check_memory_access data (Z.of_nat (length data)) w' = Done tt w') as Hck.
  { intros w'. unfold check_memory_access. by rewrite (proj2 (Z.leb_le _ _)) by lia. }
  pose proof (make_con_inmem_run (f_fd f) p c bytes h' w Hb Hc Hld Hn) as Hmk.
  set (w1 := upd_host h' _) in *.
  assert (∀ w', as_dcfile f w' = Done p w') as Hp' by (intros; by apply run_as_dcfile).
  rewrite !(bind_done _ _ _ _ _ (Hp' _)), !(bind_done _ _ _ _ _ (Hck _)).
  rewrite (bind_done (con_at p) _ w c w), (bind_done (con_at p) _ w1 (loaded bytes c) w1) by by apply run_con_at.
  rewrite Hst. change (cf_state (loaded bytes c)) with CON_STATE_INMEM. simpl.
  by rewrite (bind_done _ _ _ _ _ Hmk).
Qed.
End Cow.

(** C25: the first write copies the host file.  When a descriptor is open on a
    host file (a record in state DIRECT) that the host lets the runtime seek and
    read completely, [write] loads the file's bytes, writes into the copy at the
    descriptor's offset and returns the count; the descriptor then refines the
    abstract file "host contents with [data] written at the offset", and the
    host has seen only the calls of the load (lseek, pread, close): the host
    file itself is not written. *)
Theorem copy_on_write `{Host} (w : world) (fd : Z) (f : exe_file_t) (p : con_ptr) (c : exe_disk_con_file_t)
    (bytes data : list Z) (h' : hst) :
  con_fd w fd f p c → cf_state c = CON_STATE_DIRECT → S_ISDIR (cf_mode c) = false →
  host_loads (f_fd f) (host w) bytes h' → Z.of_nat (length bytes) < FILE_BOUND →
  max_failures (exe_fs w) = 0 → 0 ≤ f_off f → f_off f + Z.of_nat (length data) < FILE_BOUND → 2 < f_fd f →
  ∃ w', write fd data (Z.of_nat (length data)) w = Done (Z.of_nat (length data)) w' ∧ host w' = h' ∧
    refines fd w' (mkAfile (overwrite (Z.to_nat (f_off f)) data bytes) (f_off f + Z.of_nat (length data))).
Proof.
  unfold FILE_BOUND. intros Hfd Hst Hmode Hld Hn Hm Hoff Hlast Hf.
  rewrite (write_dispatch fd f) by first [done | by destruct Hfd]. rewrite (xf_type _ _ _ _ _ Hfd). simpl.
  set (w1 := upd_host h' (put_con p (loaded bytes c) (counted_write w))).
  assert (con_fd w1 fd f p (loaded bytes c)) as Hfd1.
  { assert (con_fd (put_con p (loaded bytes c) (counted_write w)) fd f p (loaded bytes c)) as [] by
      (eapply con_fd_put, con_fd_calls, Hfd). by split. }
  rewrite (write_con_direct fd f p c bytes data h') by first [done | by apply con_fd_calls | pow2_norm; lia].
  destruct (write_con_run fd f p (loaded bytes c) bytes data w1) as (c' & E & Hrep & _ & Hmax);
    [done|by apply loaded_represents; [|pow2_norm; lia]|simpl; pow2_norm; lia|done|pow2_norm; lia|lia..|].
  eexists. split; [exact E|]. split; [done|]. split; [done|unfold FILE_BOUND; cbn [a_off]; lia|].
  eexists _, p, c'. split; [apply con_fd_offset, (con_fd_put _ _ _ _ (loaded bytes c)), Hfd1|].
  split; [exact Hrep|]. simpl in Hmax. unfold FILE_BOUND. simpl. split_and!; lia.
Qed.

Lemma copy_on_write_witness : ∃ w',
  write (H:=small_host) 3 [72; 73] 2 demo_w1 = Done 2 w' ∧
  refines 3 w' (mkAfile [72; 73; 108; 108; 111] 2).
Proof.
  destruct (copy_on_write (H:=small_host) demo_w1 3 (mkFile 3 13 0 (FDcfile (mkConPtr 1 31)) 1) (mkConPtr 1 31)
    (mkCon 1 0 171 PNull PNull 0 (PTo (Some "/w/in.txt" :: replicate 4 None)) 3 CON_STATE_DIRECT)
    [104; 101; 108; 108; 111] [72; 73] (host demo_w1)) as (w' & E & _ & Hr).
  - split; [by_compute|by_compute..|vm_compute; reflexivity].
  - reflexivity.
  - reflexivity.
  - eexists _, _. split; [vm_compute; reflexivity|]. split; [vm_compute; reflexivity|]. eexists. split; vm_compute; reflexivity.
  - by_compute.
  - by_compute.
  - by_compute.
  - by_compute.
  - by_compute.
  - exists w'. split; [exact E|exact Hr].
Defined.

(** ** Private mappings *)
Section Map.
Context `{Host}.
Implicit Types w : world.

Lemma refines_frame fd w w' a :
  exe_fs w' = exe_fs w → exe_env w' = exe_env w → refines fd w a → refines fd w' a.
Proof.
  intros Es Ee [Hm Hoff (f & p & c & Hfd & Hrep)]. split; [by rewrite Es|done|]. exists f, p, c.
  split; [|done]. destruct Hfd as [(Hr & Hf & Ho) Ht Hp Hb Hc]. split; rewrite ?Es, ?Ee; try done.
  split; [done|]. by rewrite Ee.
Qed.

Lemma lseek_refines fd w a off whence n :
  refines fd w a → a_seek a off whence = Some n → 0 ≤ n ≤ FILE_BOUND →
  ∃ w', lseek fd off whence w = Done n w' ∧ refines fd w' (mkAfile (a_bytes a) n).
Proof.
  intros Hw Hs Hn. destruct (seek_refines fd w a off whence (mkAfile (a_bytes a) n) (n, [])) as (w' & E & Hw'); [done| |].
  - simpl. rewrite Hs. simpl. by rewrite bool_decide_true.
  - exists w'. split; [|done]. unfold f_step, mbind, M_bind, mret, M_ret in E.
    destruct (lseek fd off whence w); [by injection E as -> ->|done].
Qed.
Lemma read_call_refines fd w a buf count :
  let n := avail (Z.of_nat (length (a_bytes a))) (a_off a) count in
  refines fd w a → 0 < count ≤ Z.of_nat (length buf) → count < FILE_BOUND → a_off a + n ≤ FILE_BOUND →
  ∃ w', read fd (Some buf) count w = Done (n, Some (bytes_at (a_bytes a) (a_off a) n ++ drop (Z.to_nat n) buf)) w' ∧
    refines fd w' (mkAfile (a_bytes a) (a_off a + n)).
Proof.
  intros n Hw Hc Hb Hn. pose proof (rf_offset _ _ _ Hw) as Hoff.
  destruct (read_refines fd w a buf count (mkAfile (a_bytes a) (a_off a + n))
    (n, bytes_at (a_bytes a) (a_off a) n ++ drop (Z.to_nat n) buf)) as (w' & E & Hw'); [done| |].
  - simpl. fold n. by rewrite !bool_decide_true by done.
  - exists w'. split; [|done]. unfold f_step, mbind, M_bind, mret, M_ret in E.
    destruct (read fd (Some buf) count w) as [[r [b|]] w1|]; [by injection E as -> -> ->| |done].
    exfalso. injection E as _ E _. assert (length (bytes_at (a_bytes a) (a_off a) n ++ drop (Z.to_nat n) buf) = 0%nat) as El by by rewrite <- E.
    rewrite length_app, length_drop in El. unfold bytes_at in El. rewrite length_take, length_drop in El.
    unfold n, avail in *. lia.
Qed.
End Map.

(** a private mapping of a file holds the file's bytes and leaves the
    descriptor alone.  On a descriptor open on an in-memory file, [mmap] without
    MAP_SHARED, MAP_FIXED and MAP_ANONYMOUS returns an object of [len] bytes that
    starts with the file's bytes from [off] on (the rest of a mapping past the
    end keeps the allocator's bytes, which POSIX wants zero), and afterwards the
    descriptor refines the same abstract file at the same offset. *)
Theorem mmap_private `{Host} (w : world) (fd : Z) (a : afile) (len flags off : Z) (h' : hst) :
  refines fd w a → testflag flags MAP_SHARED = false → testflag flags MAP_FIXED = false →
  testflag flags MAP_ANONYMOUS = false → host_malloc len (host w) = (true, h') →
  0 < len < FILE_BOUND → 0 ≤ off ≤ FILE_BOUND → Z.of_nat (length (a_bytes a)) ≤ FILE_BOUND →
  let n := avail (Z.of_nat (length (a_bytes a))) off len in
  ∃ w', mmap len flags fd off w =
      Done (Some (bytes_at (a_bytes a) off n ++ replicate (Z.to_nat (len - n)) (u8 uninit))) w' ∧
    refines fd w' a.
Proof.
  intros Hw Hs Hf Han Hm Hlen Hoff Hsz n. unfold mmap. rewrite Hs, Hf, Han.
  pose proof (rf_offset _ _ _ Hw) as Ha.
  erewrite bind_done; [|unfold sys; by rewrite Hm]. cbv beta zeta iota delta [negb].
  apply (refines_frame fd w (upd_host h' w)) in Hw; [|done..].
  destruct (lseek_refines fd _ a 0 SEEK_CUR (a_off a) Hw) as (w1 & E1 & Hw1); [unfold a_seek; simpl; f_equal; lia|done|].
  rewrite (bind_done _ _ _ _ _ E1).
  destruct (lseek_refines fd w1 _ off SEEK_SET off Hw1) as (w2 & E2 & Hw2); [done|done|].
  rewrite (bind_done _ _ _ _ _ E2).
  destruct (read_call_refines fd w2 _ (replicate (Z.to_nat len) (u8 uninit)) len Hw2) as (w3 & E3 & Hw3);
    [rewrite length_replicate; lia|lia|cbn [a_off a_bytes]; unfold avail; lia|].
  rewrite (bind_done _ _ _ _ _ E3). cbn [a_off a_bytes] in E3, Hw3 |- *. fold n in E3, Hw3 |- *. cbv beta iota.
  erewrite bind_done by done.
  destruct (lseek_refines fd w3 _ (a_off a) SEEK_SET (a_off a) Hw3) as (w4 & E4 & Hw4); [done|done|].
  rewrite (bind_done _ _ _ _ _ E4). erewrite bind_done by done.
  rewrite drop_replicate, (proj2 (Z.eqb_neq n (-1))) by (unfold n, avail; lia).
  eexists. split; [rewrite run_ret; do 4 f_equal; unfold n, avail; lia|].
  apply (refines_frame _ w4); [done..|]. by destruct a.
Qed.

Lemma mmap_private_witness : ∃ w',
  mmap (H:=small_host) 4 2 3 3 demo_w2 = Done (Some [108; 111; 171; 171]) w' ∧
  refines 3 w' (mkAfile [72; 73; 108; 108; 111] 2).
Proof.
  apply (mmap_private (H:=small_host) demo_w2 3 (mkAfile [72; 73; 108; 108; 111] 2) 4 2 3 (host demo_w2));
    [apply demo_refines|by_compute..].
Defined.

(** ** Directory entries *)
Definition sym_dirent (i : nat) (d : exe_disk_file_t) : dirent64 :=
  mkDirent (st_ino (df_stat d)) ((Z.of_nat i + 1) * SIZEOF_DIRENT64) SIZEOF_DIRENT64
    (IFTODT (st_mode (df_stat d))) (letter 65 (Z.of_nat i)).
Definition total_reclen (l : list dirent64) : Z := foldr (λ e n, d_reclen e + n) 0 l.
#[local] Arguments SIZEOF_DIRENT64 : simpl never.

Lemma total_reclen_app l l' : total_reclen (l ++ l') = total_reclen l + total_reclen l'.
Proof. induction l as [|e l IH]; simpl; [done|]. rewrite IH. lia. Qed.
Lemma total_reclen_sym l k :
  total_reclen (imap (λ j, sym_dirent (k + j)) l) = SIZEOF_DIRENT64 * Z.of_nat (length l).
Proof.
  revert k. induction l as [|d l IH]; intros k; simpl; [done|].
  rewrite (imap_ext _ (λ j, sym_dirent (S k + j))), IH by (intros; simpl; f_equal; lia). unfold SIZEOF_DIRENT64. lia.
Qed.

Section Dirents.
Context `{Host}.
Implicit Types w : world.
Lemma sym_dirents_run count n i bytes w :
  (i + n ≤ length (sym_files (exe_fs w)))%nat → 0 ≤ bytes → bytes + SIZEOF_DIRENT64 * Z.of_nat n ≤ count →
  sym_dirents count n i bytes w =
    Done (imap (λ j, sym_dirent (i + j)) (take n (drop i (sym_files (exe_fs w)))),
          bytes + SIZEOF_DIRENT64 * Z.of_nat n) w.
Proof.
  unfold SIZEOF_DIRENT64. revert i bytes. induction n as [|n IH]; intros i bytes Hi Hb Hc; cbn [sym_dirents].
  { rewrite run_ret. do 2 f_equal. lia. }
  destruct (lookup_lt_is_Some_2 (sym_files (exe_fs w)) i) as [d Hd]; [lia|].
  erewrite bind_done by by apply run_dfile_at. rewrite (proj2 (Z.ltb_ge count _)) by lia.
  erewrite bind_done by (apply IH; unfold SIZEOF_DIRENT64; lia). cbv beta iota. rewrite run_ret.
  rewrite (drop_S _ d i Hd). cbn [take imap]. do 2 f_equal; [f_equal|unfold SIZEOF_DIRENT64; lia].
  - unfold sym_dirent, letter. by rewrite Nat.add_0_r.
  - apply imap_ext. intros j x _. simpl. f_equal. lia.
Qed.
End Dirents.

(** the first [getdents] on a directory lists the symbolic files.  On a
    concrete descriptor at offset 0, with a buffer of [count] bytes that has room
    for them, it returns one entry per symbolic file, in order, with its inode,
    type and one-letter name, then a deleted entry that fills the buffer up to
    [min count 4096] bytes; the record lengths add up to the count returned, so
    a caller that walks the buffer sees exactly these entries, and the offset is
    that count.  With a buffer of less than 4096 bytes (not a multiple of the
    entry size) the offset stays in the range of the faked entries and the next
    call fails with EINVAL: the host's entries are never reached. *)
Theorem getdents_symbolic `{Host} (w : world) (fd : Z) (f : exe_file_t) (count : Z) :
  Inv w → open_fd w fd f → f_type f = CONCRETE_FILE → f_off f = 0 → count < 2 ^ 31 →
  SIZEOF_DIRENT64 * Z.of_nat (length (sym_files (exe_fs w))) + 20 ≤ Z.min count 4096 →
  let pad := Z.min count 4096 in
  ∃ last, let l := imap sym_dirent (sym_files (exe_fs w)) ++ [last] in
    fd_getdents fd count w = Done (pad, l) (at_offset fd pad f w) ∧
    d_ino last = 0 ∧ d_off last = 4096 ∧ total_reclen l = pad ∧
    (count < 4096 → count `mod` SIZEOF_DIRENT64 ≠ 0 → ∀ count2,
       fd_getdents fd count2 (at_offset fd pad f w) = Done (-1, []) (upd_errno EINVAL (at_offset fd pad f w))).
Proof.
  intros Hw Hof Ht Ho Hcnt Hroom pad. pose proof (inv_sym_len _ _ _ (proj1 Hw)) as Hlen.
  pose proof Hof as (Hr & Hf & Hop). set (n := length (sym_files (exe_fs w))) in *.
  assert (s32 fd = fd) as Efd by (apply wraps_small; [lia|]; unfold MAX_FDS in Hr; pow2_norm; lia).
  set (rec := pad - SIZEOF_DIRENT64 * Z.of_nat n). unfold SIZEOF_DIRENT64 in *.
  assert (20 ≤ rec ≤ 4096) as Hrec by (unfold rec, pad in *; lia).
  exists (mkDirent 0 4096 rec DT_UNKNOWN EmptyString). split_and!; [|done|done| |].
  - unfold fd_getdents. rewrite Efd. erewrite bind_done by by apply (run_get_file _ f).
    cbv beta iota. erewrite bind_done by by apply run_fd_at. rewrite Ht, Ho. simpl (_ =? _). cbv iota.
    change (u64 0 <? 4096) with true. cbv iota. unfold getdents_fake. erewrite bind_done by done.
    rewrite Ho. change (u32 (0 / SIZEOF_DIRENT64)) with 0. rewrite <- Hlen, (proj2 (Z.ltb_ge _ 0)) by lia.
    change (negb (0 * SIZEOF_DIRENT64 =? 0)) with false. cbn [orb]. cbv iota. rewrite Z.sub_0_r, Nat2Z.id.
    erewrite bind_done by (apply sym_dirents_run; unfold SIZEOF_DIRENT64; lia). cbv beta iota.
    unfold SIZEOF_DIRENT64. rewrite (proj2 (Z.ltb_ge count _)) by lia. cbv zeta.
    assert ((if 4096 <=? count then 4096 else count) = pad) as -> by (unfold pad; destruct (_ <=? _) eqn:E; lia).
    rewrite Z.add_0_l. fold rec. rewrite (wrapu_small 32 rec), (wrapu_small 16 rec) by (pow2_norm; lia).
    erewrite bind_done by by apply run_upd_fd. rewrite run_ret. unfold n. rewrite drop_0, firstn_all.
    f_equal. f_equal. fold n. replace (280 * Z.of_nat n + rec) with pad by (unfold rec; lia).
    rewrite wrapu_small, wraps_small by (unfold pad; pow2_norm; lia). done.
  - rewrite total_reclen_app. rewrite (total_reclen_sym _ 0). unfold SIZEOF_DIRENT64. fold n. simpl. unfold rec. lia.
  - intros Hlt Hmod count2. assert (pad = count) as Ep by (unfold pad; lia).
    assert (open_fd (at_offset fd pad f w) fd (set_off pad f)) as Hof2.
    { split; [done|]. split; [by eapply lookup_upd_fd|done]. }
    unfold fd_getdents. rewrite Efd. erewrite bind_done by by apply (run_get_file _ (set_off pad f)).
    cbv beta iota. erewrite bind_done by apply run_fd_at, Hof2. cbn [set_off f_type f_off]. rewrite Ht, Ep. simpl (_ =? _). cbv iota.
    rewrite (wrapu_small 64), (proj2 (Z.ltb_lt _ _)) by (pow2_norm; lia). unfold getdents_fake. erewrite bind_done by done.
    cbn [set_off f_off]. pose proof (Z.div_mod count 280) as Hd.
    assert (0 ≤ count / 280 < 4096) by (split; [apply Z.div_pos; lia|apply Z.div_lt_upper_bound; lia]).
    unfold SIZEOF_DIRENT64. rewrite (wrapu_small 32) by (pow2_norm; lia).
    rewrite (proj2 (Z.eqb_neq _ _)) by lia. cbn [negb orb]. cbv iota. by erewrite bind_done by apply run_fail.
Qed.
Lemma getdents_symbolic_witness : ∃ last,
  result (fd_getdents (H:=small_host) 3 600 demo_w1) =
    Some (600, [sym_dirent 0 demo_A; sym_dirent 1 demo_A; last]) ∧ d_ino last = 0.
Proof.
  destruct (getdents_symbolic (H:=small_host) demo_w1 3 (mkFile 3 13 0 (FDcfile (mkConPtr 1 31)) 1) 600) as (last & E & Hi & _);
    [apply demo_inv1|by_compute..|]. exists last. split; [|exact Hi].
  rewrite E. vm_compute. reflexivity.
Defined.
