(* ===== verification/Libc.v ===== *)
(** * The runtime's C library: memory and strings

    [src/klee/runtime/klee-libc] and the copies of its memory functions in
    [src/klee/runtime/Intrinsic].  Memory is a finite map from addresses to
    bytes; an access outside it is a [MemoryError].  A loop over a string reads
    consecutive mapped addresses, so that it ends after at most [size m]
    steps, at a NUL or at the first unmapped address: its fuel is
    [S (size m)]. *)
From S2P Require Import Prelude.

Abbreviation mem := (gmap Z Z).
Abbreviation C := (M mem).

Definition load (a : Z) : C Z := m ← get; deref (m !! a).
Definition store (a v : Z) : C unit :=
  m ← get;
  match m !! a with
  | Some _ => put (<[a := u8 v]> m)
  | None => halt MemoryError
  end.
(** A read through a [char *]. *)
Definition loadc (a : Z) : C Z := x ← load a; mret (s8 x).
Definition fuel_of : C nat := gets (λ m, S (size m)).

(** ** Memory *)
Fixpoint copy_up (n : nat) (dest src : Z) : C Z :=
  match n with
  | O => mret dest
  | S n' => x ← load src; store dest x;; copy_up n' (dest + 1) (src + 1)
  end.
Fixpoint copy_down (n : nat) (a b : Z) : C unit :=
  match n with
  | O => mret tt
  | S n' => x ← load b; store a x;; copy_down n' (a - 1) (b - 1)
  end.

Definition memcpy (destaddr srcaddr len : Z) : C Z :=
  copy_up (Z.to_nat len) destaddr srcaddr;; mret destaddr.
Definition mempcpy (destaddr srcaddr len : Z) : C Z :=
  copy_up (Z.to_nat len) destaddr srcaddr.
Definition memmove (dst src count : Z) : C Z :=
  if src =? dst then mret dst
  else if dst <? src then copy_up (Z.to_nat count) dst src;; mret dst
  else copy_down (Z.to_nat count) (dst + (count - 1)) (src + (count - 1));; mret dst.

Fixpoint fill (n : nat) (a s : Z) : C unit :=
  match n with
  | O => mret tt
  | S n' => store a s;; fill n' (a + 1) s
  end.
Definition memset (dst s count : Z) : C Z := fill (Z.to_nat count) dst s;; mret dst.

(** NULL is [None]. *)
Fixpoint memchr_loop (n : nat) (p c : Z) : C (option Z) :=
  match n with
  | O => mret None
  | S n' => x ← load p; if x =? c then mret (Some p) else memchr_loop n' (p + 1) c
  end.
Definition memchr (s c n : Z) : C (option Z) := memchr_loop (Z.to_nat n) s c.

Fixpoint memcmp_loop (n : nat) (p1 p2 : Z) : C Z :=
  match n with
  | O => mret 0
  | S n' =>
      x ← load p1; y ← load p2;
      if negb (x =? y) then mret (x - y) else memcmp_loop n' (p1 + 1) (p2 + 1)
  end.
Definition memcmp (s1 s2 n : Z) : C Z := memcmp_loop (Z.to_nat n) s1 s2.

(** ** Strings *)
Fixpoint strlen_loop (fuel : nat) (s : Z) : C Z :=
  match fuel with
  | O => halt NoFuel
  | S fuel' => c ← loadc s; if c =? 0 then mret s else strlen_loop fuel' (s + 1)
  end.
Definition strlen (str : Z) : C Z := n ← fuel_of; s ← strlen_loop n str; mret (s - str).

(** [while (( *to = *from)) ++to, ++from;], the final [to]. *)
Fixpoint copy_string (fuel : nat) (to from : Z) : C Z :=
  match fuel with
  | O => halt NoFuel
  | S fuel' =>
      c ← load from; store to c;;
      if c =? 0 then mret to else copy_string fuel' (to + 1) (from + 1)
  end.
Definition strcpy (to from : Z) : C Z := n ← fuel_of; copy_string n to from;; mret to.
Definition stpcpy (to from : Z) : C Z := n ← fuel_of; copy_string n to from.
Definition strcat (s append : Z) : C Z :=
  n ← fuel_of; e ← strlen_loop n s; copy_string n e append;; mret s.

Fixpoint strchr_loop (fuel : nat) (p c : Z) : C (option Z) :=
  match fuel with
  | O => halt NoFuel
  | S fuel' =>
      x ← loadc p;
      if x =? c then mret (Some p)
      else if x =? 0 then mret None
      else strchr_loop fuel' (p + 1) c
  end.
Definition strchr (p ch : Z) : C (option Z) := n ← fuel_of; strchr_loop n p (s8 ch).

Fixpoint strrchr_loop (fuel : nat) (t ch : Z) (l : option Z) : C (option Z) :=
  match fuel with
  | O => halt NoFuel
  | S fuel' =>
      x ← loadc t;
      let l := if x =? ch then Some t else l in
      if x =? 0 then mret l else strrchr_loop fuel' (t + 1) ch l
  end.
Definition strrchr (t c : Z) : C (option Z) := n ← fuel_of; strrchr_loop n t (s8 c) None.

(** The characters are compared as signed chars. *)
Fixpoint strcmp_loop (fuel : nat) (a b : Z) : C Z :=
  match fuel with
  | O => halt NoFuel
  | S fuel' =>
      x ← loadc a;
      if x =? 0 then y ← loadc b; mret (x - y)
      else
        y ← loadc b;
        if x =? y then strcmp_loop fuel' (a + 1) (b + 1) else mret (x - y)
  end.
Definition strcmp (a b : Z) : C Z := n ← fuel_of; strcmp_loop n a b.
Definition strcoll (s1 s2 : Z) : C Z := strcmp s1 s2.

(** The difference is taken on unsigned chars. *)
Fixpoint strncmp_loop (n : nat) (s1 s2 : Z) : C Z :=
  match n with
  | O => mret 0
  | S n' =>
      x ← load s1; y ← load s2;
      if negb (s8 x =? s8 y) then mret (x - y)
      else if x =? 0 then mret 0
      else strncmp_loop n' (s1 + 1) (s2 + 1)
  end.
Definition strncmp (s1 s2 n : Z) : C Z := strncmp_loop (Z.to_nat n) s1 s2.

Fixpoint strncpy_loop (n : nat) (d s : Z) : C unit :=
  match n with
  | O => mret tt
  | S n' =>
      c ← load s; store d c;;
      if c =? 0 then fill n' (d + 1) 0 else strncpy_loop n' (d + 1) (s + 1)
  end.
Definition strncpy (dst src n : Z) : C Z := strncpy_loop (Z.to_nat n) dst src;; mret dst.

(** ** Characters *)
Definition isspace (c : Z) : bool := (c =? 32) || ((9 <=? c) && (c <=? 13)).
Definition tolower (ch : Z) : Z := if u32 (ch - 65) <? 26 then ch - (65 - 97) else ch.
Definition toupper (ch : Z) : Z := if u32 (ch - 97) <? 26 then ch + (65 - 97) else ch.

(** ** Numbers *)
Definition LONG_MAX : Z := 2 ^ 63 - 1.
Definition LONG_MIN : Z := - 2 ^ 63.
Definition ULONG_MAX : Z := 2 ^ 64 - 1.
Definition E_RANGE : Z := 34.
Definition E_INVAL : Z := 22.

(** [do { c = *s++; } while (isspace((unsigned char) c));]: [c] and the next [s]. *)
Fixpoint skip_space (fuel : nat) (s : Z) : C (Z * Z) :=
  match fuel with
  | O => halt NoFuel
  | S fuel' => c ← loadc s; if isspace (u8 c) then skip_space fuel' (s + 1) else mret (c, s + 1)
  end.

(** The digit a character stands for, [None] if it stands for none. *)
Definition digit (c : Z) : option Z :=
  if (48 <=? c) && (c <=? 57) then Some (s8 (c - 48))
  else if (65 <=? c) && (c <=? 90) then Some (s8 (c - 55))
  else if (97 <=? c) && (c <=? 122) then Some (s8 (c - 87))
  else None.

(** The conversion loop from character [c], the next one at [s]: the final
    [acc], [any] and [s]. *)
Fixpoint convert (fuel : nat) (base cutoff cutlim c s acc any : Z) : C (Z * Z * Z) :=
  match fuel with
  | O => halt NoFuel
  | S fuel' =>
      match digit c with
      | None => mret (acc, any, s)
      | Some d =>
          if base <=? d then mret (acc, any, s)
          else
            c' ← loadc s;
            if (any <? 0) || (cutoff <? acc) || ((acc =? cutoff) && (cutlim <? d))
            then convert fuel' base cutoff cutlim c' (s + 1) acc (-1)
            else convert fuel' base cutoff cutlim c' (s + 1) (u64 (u64 (acc * base) + d)) 1
      end
  end.

(** The sign and the base: [neg], [c], [s], [base]. *)
Definition prefix (nptr base : Z) : C (bool * Z * Z * Z) :=
  n ← fuel_of;
  '(c, s) ← skip_space n nptr;
  '(neg, c, s) ← (if c =? 45 then c' ← loadc s; mret (true, c', s + 1)
                  else if c =? 43 then c' ← loadc s; mret (false, c', s + 1)
                  else mret (false, c, s));
  '(c, s, base) ←
    (if ((base =? 0) || (base =? 16)) && (c =? 48) then
       x ← loadc s;
       if (x =? 120) || (x =? 88) then c' ← loadc (s + 1); mret (c', s + 2, 16)
       else mret (c, s, base)
     else mret (c, s, base));
  mret (neg, c, s, if base =? 0 then (if c =? 48 then 8 else 10) else base).

(** The result, what [*endptr] is set to, and errno if it is set.  [limit neg]
    is the largest magnitude. *)
Record number : Type := mkNumber { n_value : Z; n_end : Z; n_errno : option Z }.

Definition strtol (nptr base : Z) : C number :=
  '(neg, c, s, base) ← prefix nptr base;
  if (base <? 2) || (36 <? base) then mret (mkNumber 0 nptr (Some E_INVAL))
  else
    let limit := if (neg : bool) then u64 (u64 (- (LONG_MIN + LONG_MAX)) + LONG_MAX) else LONG_MAX in
    n ← fuel_of;
    '(acc, any, s) ← convert n base (limit `quot` base) (s32 (Z.rem limit base)) c s 0 0;
    mret (if any <? 0 then mkNumber (if neg then LONG_MIN else LONG_MAX) (s - 1) (Some E_RANGE)
          else if any =? 0 then mkNumber (s64 acc) nptr (Some E_INVAL)
          else mkNumber (s64 (if neg then u64 (- acc) else acc)) (s - 1) None).

Definition strtoul (nptr base : Z) : C number :=
  '(neg, c, s, base) ← prefix nptr base;
  if (base <? 2) || (36 <? base) then mret (mkNumber 0 nptr (Some E_INVAL))
  else
    n ← fuel_of;
    '(acc, any, s) ← convert n base (ULONG_MAX `quot` base) (s32 (Z.rem ULONG_MAX base)) c s 0 0;
    mret (if any <? 0 then mkNumber ULONG_MAX (s - 1) (Some E_RANGE)
          else if any =? 0 then mkNumber acc nptr (Some E_INVAL)
          else mkNumber (if (neg : bool) then u64 (- acc) else acc) (s - 1) None).

Definition atoi (str : Z) : C Z := n ← strtol str 10; mret (s32 (n_value n)).

(** ** Byte order (little-endian host) *)
Definition htons (v : Z) : Z := u16 (Z.lor (Z.shiftr v 8) (Z.shiftl v 8)).
Definition htonl (v : Z) : Z :=
  u32 (Z.lor (htons (u16 (Z.shiftr v 16))) (Z.shiftl (htons (u16 v)) 16)).
Definition ntohs (v : Z) : Z := htons v.
Definition ntohl (v : Z) : Z := htonl v.

(** ** [atexit]

    The table of [__cxa_atexit.c]: the functions with their arguments, in the
    order they were registered; the destructor [RunAtExit] calls them. *)
Definition MAX_ATEXIT : nat := 128.
Record handler : Type := mkHandler { h_fn : Z; h_arg : Z }.

Definition cxa_atexit (fn arg : Z) : M (list handler) Z :=
  l ← get;
  if (length l =? MAX_ATEXIT)%nat then halt (KleeReport "__cxa_atexit: no room in array!")
  else put (l ++ [mkHandler fn arg]);; mret 0.
Definition atexit (fn : Z) : M (list handler) Z := cxa_atexit fn 0.

(** The handlers in the order [RunAtExit] calls them, from index [i] on; a
    handler may register more, which the loop then reaches. *)
Fixpoint run_at_exit (fuel : nat) (i : nat) (call : handler → M (list handler) unit)
    : M (list handler) (list handler) :=
  match fuel with
  | O => halt NoFuel
  | S fuel' =>
      l ← get;
      match l !! i with
      | None => mret []
      | Some h => call h;; rest ← run_at_exit fuel' (S i) call; mret (h :: rest)
      end
  end.
Definition RunAtExit (call : handler → M (list handler) unit) : M (list handler) (list handler) :=
  run_at_exit (S MAX_ATEXIT) 0 call.
