(* ===== verification/LibcSpec.v ===== *)
(** * Correctness of the C library

    Specifications of the functions of [Libc] on byte memories: [mapped] and
    [cstr] describe what the memory holds. *)
From S2P Require Import Prelude Libc.

(** Every stored value is a byte. *)
Definition bytes_ok (m : mem) : Prop := ∀ a x, m !! a = Some x → 0 ≤ x < 256.
(** The addresses [a .. a+n-1] are mapped. *)
Definition mapped (m : mem) (a : Z) (n : nat) : Prop := ∀ i, 0 ≤ i < Z.of_nat n → is_Some (m !! (a + i)).

Lemma run_mem_load m a x : m !! a = Some x → load a m = Done x m.
Proof. intros E. unfold load. erewrite bind_done by done. by rewrite E. Qed.
Lemma run_mem_store m a x v : m !! a = Some x → 0 ≤ v < 256 → store a v m = Done tt (<[a := v]> m).
Proof.
  intros E Hv. unfold store. erewrite bind_done by done. rewrite E, wrapu_small by (pow2_norm; lia). done.
Qed.
Lemma run_loadc m a x : m !! a = Some x → loadc a m = Done (s8 x) m.
Proof. intros E. unfold loadc. by erewrite bind_done by by apply run_mem_load. Qed.

Lemma mapped_at m a n : mapped m a (S n) → is_Some (m !! a).
Proof. intros Hm. specialize (Hm 0). rewrite Z.add_0_r in Hm. apply Hm. lia. Qed.
Lemma mapped_next m a n : mapped m a (S n) → mapped m (a + 1) n.
Proof. intros Hm i Hi. replace (a + 1 + i) with (a + (i + 1)) by lia. apply Hm. lia. Qed.
Lemma mapped_insert m a n b v : mapped m a n → mapped (<[b := v]> m) a n.
Proof. intros Hm i Hi. destruct (decide (b = a + i)) as [->|]; [by rewrite lookup_insert_eq|]. rewrite lookup_insert_ne by done. by apply Hm. Qed.
Lemma mapped_last m a n : mapped m a (S n) → is_Some (m !! (a + Z.of_nat n)).
Proof. intros Hm. apply Hm. lia. Qed.
Lemma mapped_less m a n : mapped m a (S n) → mapped m a n.
Proof. intros Hm i Hi. apply Hm. lia. Qed.
Lemma bytes_ok_insert m a v : bytes_ok m → 0 ≤ v < 256 → bytes_ok (<[a := v]> m).
Proof. intros Hm Hv b x. destruct (decide (a = b)) as [->|]; [rewrite lookup_insert_eq; by intros [= <-]|]. rewrite lookup_insert_ne by done. apply Hm. Qed.
#[global] Hint Resolve mapped_insert mapped_next mapped_less bytes_ok_insert : core.

(** ** Copies *)

(** [m'] is [m] with the [n] bytes at [dst] replaced by those [m] holds at [src]. *)
Definition copied (m m' : mem) (dst src : Z) (n : nat) : Prop :=
  ∀ a, m' !! a = if decide (dst ≤ a < dst + Z.of_nat n) then m !! (src + (a - dst)) else m !! a.

Lemma copy_up_correct n d s m :
  bytes_ok m → mapped m d n → mapped m s n → d < s ∨ s + Z.of_nat n ≤ d →
  ∃ m', copy_up n d s m = Done (d + Z.of_nat n) m' ∧ copied m m' d s n.
Proof.
  revert d s m. induction n as [|n IH]; intros d s m Hb Hd Hs Hdis; simpl.
  { exists m. rewrite Z.add_0_r. split; [done|]. intros a. by rewrite decide_False by lia. }
  destruct (mapped_at m d n Hd) as [y Hy], (mapped_at m s n Hs) as [x Hx].
  erewrite bind_done by by apply run_mem_load. erewrite bind_done; [|eapply run_mem_store; [done|by eapply Hb]].
  destruct (IH (d + 1) (s + 1) (<[d := x]> m)) as (m' & E & Hm'); [by eauto..|lia|].
  exists m'. split; [rewrite E; f_equal; lia|]. intros a. rewrite (Hm' a).
  destruct (decide (d ≤ a < d + Z.of_nat (S n))) as [Ha|Ha].
  - destruct (decide (a = d)) as [->|Hne].
    + rewrite decide_False, lookup_insert_eq, <- Hx by lia. f_equal. lia.
    + rewrite decide_True, lookup_insert_ne by lia. f_equal. lia.
  - rewrite decide_False, lookup_insert_ne by lia. done.
Qed.

Lemma copy_down_correct n d s m :
  bytes_ok m → mapped m d n → mapped m s n → s < d →
  ∃ m', copy_down n (d + (Z.of_nat n - 1)) (s + (Z.of_nat n - 1)) m = Done tt m' ∧ copied m m' d s n.
Proof.
  revert m. induction n as [|n IH]; intros m Hb Hd Hs Hlt; cbn [copy_down].
  { exists m. split; [done|]. intros a. by rewrite decide_False by lia. }
  destruct (mapped_last m d n Hd) as [y Hy], (mapped_last m s n Hs) as [x Hx].
  replace (Z.of_nat (S n) - 1) with (Z.of_nat n) by lia.
  erewrite bind_done by by apply run_mem_load. erewrite bind_done; [|eapply run_mem_store; [done|by eapply Hb]].
  replace (d + Z.of_nat n - 1) with (d + (Z.of_nat n - 1)) by lia.
  replace (s + Z.of_nat n - 1) with (s + (Z.of_nat n - 1)) by lia.
  destruct (IH (<[d + Z.of_nat n := x]> m)) as (m' & E & Hm'); [by eauto..|].
  exists m'. split; [exact E|]. intros a. rewrite (Hm' a).
  destruct (decide (d ≤ a < d + Z.of_nat (S n))) as [Ha|Ha].
  - destruct (decide (a = d + Z.of_nat n)) as [->|Hne].
    + rewrite decide_False, lookup_insert_eq, <- Hx by lia. f_equal. lia.
    + rewrite decide_True, lookup_insert_ne by lia. done.
  - rewrite decide_False, lookup_insert_ne by lia. done.
Qed.

(** [memmove] copies correctly whether or not the two regions overlap.
    When both are mapped it always returns its destination; afterwards the
    destination holds the bytes the source held before the call, and every
    other address is unchanged. *)
Theorem memmove_correct (m : mem) (dst src count : Z) :
  bytes_ok m → 0 ≤ count → mapped m dst (Z.to_nat count) → mapped m src (Z.to_nat count) →
  ∃ m', memmove dst src count m = Done dst m' ∧ copied m m' dst src (Z.to_nat count).
Proof.
  intros Hb Hc Hd Hs. unfold memmove. destruct (src =? dst) eqn:E1.
  { assert (src = dst) as -> by lia. exists m. split; [done|]. intros a. case_decide; [f_equal; lia|done]. }
  destruct (dst <? src) eqn:E2.
  - destruct (copy_up_correct (Z.to_nat count) dst src m) as (m' & E & Hm'); [done..|lia|].
    exists m'. split; [|done]. by erewrite bind_done by exact E.
  - destruct (copy_down_correct (Z.to_nat count) dst src m) as (m' & E & Hm'); [done..|lia|].
    rewrite Z2Nat.id in E by lia. exists m'. split; [|done]. by erewrite bind_done by exact E.
Qed.

Definition demo_mem : mem := list_to_map (zip (seqZ 100 8) [1; 2; 3; 4; 5; 6; 7; 8]).
Lemma demo_bytes_ok : bytes_ok demo_mem.
Proof.
  assert (map_Forall (λ _ x, 0 ≤ x < 256) demo_mem) as Hf by (apply (bool_decide_unpack (map_Forall _ demo_mem)); vm_compute; done).
  exact Hf.
Qed.
Lemma demo_mapped a n : 100 ≤ a → a + Z.of_nat n ≤ 108 → mapped demo_mem a n.
Proof.
  intros Ha Hn i Hi.
  assert (∃ k : nat, (k < 8)%nat ∧ a + i = 100 + Z.of_nat k) as (k & Hk & ->)
    by (exists (Z.to_nat (a + i - 100)); lia).
  do 8 (destruct k as [|k]; [by eexists|]). lia.
Qed.

Lemma memmove_correct_witness : ∃ m', memmove 102 100 5 demo_mem = Done 102 m' ∧ copied demo_mem m' 102 100 5.
Proof.
  apply (memmove_correct demo_mem 102 100 5);
    [exact demo_bytes_ok|lia|apply demo_mapped; lia|apply demo_mapped; lia].
Defined.

(** ** C strings *)
Fixpoint cstr (m : mem) (a : Z) (s : list Z) : Prop :=
  match s with
  | [] => m !! a = Some 0
  | x :: s' => m !! a = Some x ∧ 0 < x < 256 ∧ cstr m (a + 1) s'
  end.

Lemma cstr_mapped m a s : cstr m a s → mapped m a (S (length s)).
Proof.
  revert a. induction s as [|x s IH]; intros a Hs i Hi; simpl in *.
  - replace (a + i) with a by lia. by rewrite Hs.
  - destruct Hs as (Hx & _ & Hs). destruct (decide (i = 0)) as [->|]; [rewrite Z.add_0_r; by rewrite Hx|].
    replace (a + i) with (a + 1 + (i - 1)) by lia. apply (IH _ Hs). lia.
Qed.
Lemma mapped_size m a n : mapped m a n → (n ≤ size m)%nat.
Proof.
  intros Hm. assert (n = length (seqZ a (Z.of_nat n))) as -> by (rewrite length_seqZ; lia).
  rewrite <- size_dom, <- (size_list_to_set (C:=gset Z)) by apply NoDup_seqZ.
  apply subseteq_size. intros b Hb. apply elem_of_list_to_set, elem_of_seqZ in Hb.
  apply elem_of_dom. replace b with (a + (b - a)) by lia. apply Hm. lia.
Qed.
Lemma s8_zero x : 0 ≤ x < 256 → (s8 x =? 0) = (x =? 0).
Proof.
  intros Hx. unfold wraps. pow2_norm. destruct (x =? 0) eqn:E.
  - assert (x = 0) as -> by lia. done.
  - apply Z.eqb_neq. intros E'.
    assert ((x + 128) `mod` 256 = 128) as E2 by lia.
    destruct (decide (x < 128)); [rewrite Z.mod_small in E2 by lia; lia|].
    rewrite <- (Z.mod_add _ (-1)), Z.mod_small in E2 by lia. lia.
Qed.

Lemma strlen_loop_correct fuel m a s :
  cstr m a s → (length s < fuel)%nat → strlen_loop fuel a m = Done (a + Z.of_nat (length s)) m.
Proof.
  revert fuel a. induction s as [|x s IH]; intros [|fuel] a Hs Hf; simpl in *; [lia| |lia|].
  - erewrite bind_done by by apply run_loadc. rewrite s8_zero by lia. simpl. by rewrite Z.add_0_r.
  - destruct Hs as (Hx & Hr & Hs). erewrite bind_done by by apply run_loadc.
    rewrite s8_zero, (proj2 (Z.eqb_neq x 0)) by lia. rewrite (IH fuel (a + 1)) by (done || lia). f_equal. lia.
Qed.

Lemma cstr_frame m m' a s :
  (∀ b, a ≤ b ≤ a + Z.of_nat (length s) → m' !! b = m !! b) → cstr m a s → cstr m' a s.
Proof.
  revert a. induction s as [|x s IH]; intros a Hm Hs; simpl in *.
  - rewrite Hm by lia. done.
  - destruct Hs as (Hx & Hr & Hs). split; [rewrite Hm by lia; done|]. split; [done|].
    apply IH; [|done]. intros b Hb. apply Hm. lia.
Qed.
Lemma cstr_bytes m a s i : cstr m a s → (i ≤ length s)%nat → ∃ x, m !! (a + Z.of_nat i) = Some x ∧ 0 ≤ x < 256.
Proof.
  revert a i. induction s as [|x s IH]; intros a i Hs Hi; simpl in *.
  - assert (i = 0%nat) as -> by lia. rewrite Z.add_0_r. exists 0. split; [done|lia].
  - destruct Hs as (Hx & Hr & Hs). destruct i as [|i]; [rewrite Z.add_0_r; exists x; split; [done|lia]|].
    replace (a + Z.of_nat (S i)) with (a + 1 + Z.of_nat i) by lia. apply IH; [done|lia].
Qed.

(** The copy of a string to a place that does not hide what is still to be read. *)
Lemma copy_string_correct fuel m to from s :
  cstr m from s → mapped m to (S (length s)) → (length s < fuel)%nat →
  to < from ∨ from + Z.of_nat (length s) < to →
  ∃ m', copy_string fuel to from m = Done (to + Z.of_nat (length s)) m' ∧
    copied m m' to from (S (length s)) ∧ cstr m' to s.
Proof.
  revert fuel m to from. induction s as [|x s IH]; intros [|fuel] m to from Hs Ht Hf Hd; simpl in *; [lia| |lia|].
  - destruct (mapped_at m to 0 Ht) as [y Hy]. erewrite bind_done by by apply run_mem_load.
    erewrite bind_done by by apply (run_mem_store _ _ y). exists (<[to := 0]> m). simpl. rewrite Z.add_0_r.
    split; [done|]. split; [|by rewrite lookup_insert_eq]. intros a. case_decide as Ha.
    + assert (a = to) as -> by lia. rewrite lookup_insert_eq, <- Hs. f_equal. lia.
    + by rewrite lookup_insert_ne by lia.
  - destruct Hs as (Hx & Hr & Hs). destruct (mapped_at m to (S (length s)) Ht) as [y Hy].
    erewrite bind_done by by apply run_mem_load. erewrite bind_done by (apply (run_mem_store _ _ y); [done|lia]).
    rewrite (proj2 (Z.eqb_neq x 0)) by lia.
    destruct (IH fuel (<[to := x]> m) (to + 1) (from + 1)) as (m' & E & Hc & Hs');
      [|by apply mapped_insert, mapped_next|lia|lia|].
    { eapply cstr_frame; [|exact Hs]. intros b Hb. apply lookup_insert_ne. lia. }
    exists m'. split; [rewrite E; f_equal; lia|]. split.
    + intros a. rewrite (Hc a). destruct (decide (to ≤ a < to + Z.of_nat (S (S (length s))))) as [Ha|Ha].
      * destruct (decide (a = to)) as [->|Hne].
        -- rewrite decide_False, lookup_insert_eq, <- Hx by lia. f_equal. lia.
        -- rewrite decide_True, lookup_insert_ne by lia. f_equal. lia.
      * rewrite decide_False, lookup_insert_ne by lia. done.
    + split; [|done]. rewrite (Hc to), decide_False, lookup_insert_eq by lia. done.
Qed.

Lemma cstr_app m a s t : cstr m a (s ++ t) ↔
  (∀ i x, s !! i = Some x → m !! (a + Z.of_nat i) = Some x ∧ 0 < x < 256) ∧ cstr m (a + Z.of_nat (length s)) t.
Proof.
  revert a. induction s as [|x s IH]; intros a; simpl.
  - rewrite Z.add_0_r. split; [intros; split; [done|done]|tauto].
  - rewrite IH. replace (a + 1 + Z.of_nat (length s)) with (a + Z.of_nat (S (length s))) by lia. split.
    + intros (Hx & Hr & Hs & Ht). split; [|done]. intros [|i] y Hy; simplify_eq/=.
      * by rewrite Z.add_0_r.
      * replace (a + Z.of_nat (S i)) with (a + 1 + Z.of_nat i) by lia. by apply Hs.
    + intros [Hs Ht]. destruct (Hs 0%nat x eq_refl) as [Hx Hr]. rewrite Z.add_0_r in Hx.
      split_and!; try done; [lia..|]. intros i y Hy.
      replace (a + 1 + Z.of_nat i) with (a + Z.of_nat (S i)) by lia. by apply Hs.
Qed.

(** [strcat] of a string [t] to a string [s] with room for both and the
    terminator, where [t] does not lie in the destination, always returns its
    first argument: afterwards the destination is the string [s ++ t], and
    every address outside the appended part is unchanged. *)
Theorem strcat_correct (m : mem) (a b : Z) (s t : list Z) :
  cstr m a s → cstr m b t → mapped m a (S (length s + length t)) →
  b + Z.of_nat (length t) < a ∨ a + Z.of_nat (length s + length t) < b →
  ∃ m', strcat a b m = Done a m' ∧ cstr m' a (s ++ t) ∧ cstr m' b t ∧
    ∀ x, x < a + Z.of_nat (length s) ∨ a + Z.of_nat (length s + length t) < x → m' !! x = m !! x.
Proof.
  intros Hs Ht Hm Hd. pose proof (mapped_size _ _ _ Hm) as Hsz. unfold strcat.
  erewrite bind_done by done. erewrite bind_done by (apply strlen_loop_correct; [done|lia]).
  destruct (copy_string_correct (S (size m)) m (a + Z.of_nat (length s)) b t) as (m' & E & Hc & Hs');
    [done| |lia|lia|].
  { intros i Hi. replace (a + Z.of_nat (length s) + i) with (a + (Z.of_nat (length s) + i)) by lia. apply Hm. lia. }
  assert (∀ x, x < a + Z.of_nat (length s) ∨ a + Z.of_nat (length s + length t) < x → m' !! x = m !! x) as Hout.
  { intros x Hx. rewrite (Hc x), decide_False by lia. done. }
  exists m'. split; [by erewrite bind_done by exact E|]. split_and!; [|eapply cstr_frame; [|exact Ht]|done].
  - apply cstr_app. split; [|done]. rewrite <- (app_nil_r s) in Hs.
    assert (∀ i x, s !! i = Some x → m !! (a + Z.of_nat i) = Some x ∧ 0 < x < 256) as Hin.
    { intros i x Hi. rewrite app_nil_r in Hs. clear - Hs Hi. revert a i Hs Hi.
      induction s as [|y s IH]; intros a [|i] Hs Hi; simplify_eq/=.
      - rewrite Z.add_0_r. tauto.
      - replace (a + Z.of_nat (S i)) with (a + 1 + Z.of_nat i) by lia. apply (IH (a + 1) i); tauto. }
    intros i x Hi. rewrite Hout; [by apply Hin|]. apply lookup_lt_Some in Hi. lia.
  - intros x Hx. apply Hout. lia.
Qed.

(** "ab" at 100 with room after it, "cd" at 108, "a\x80" at 112. *)
Definition demo_str : mem :=
  list_to_map (zip (seqZ 100 16) [97; 98; 0; 0; 0; 0; 0; 0; 99; 100; 0; 0; 97; 128; 0; 0]).
Lemma demo_str_mapped a n : 100 ≤ a → a + Z.of_nat n ≤ 116 → mapped demo_str a n.
Proof.
  intros Ha Hn i Hi.
  assert (∃ k : nat, (k < 16)%nat ∧ a + i = 100 + Z.of_nat k) as (k & Hk & ->)
    by (exists (Z.to_nat (a + i - 100)); lia).
  do 16 (destruct k as [|k]; [by eexists|]). lia.
Qed.

Lemma strcat_correct_witness : ∃ m', strcat 100 108 demo_str = Done 100 m' ∧ cstr m' 100 [97; 98; 99; 100].
Proof.
  destruct (strcat_correct demo_str 100 108 [97; 98] [99; 100]) as (m' & E & Hs & _);
    [by_compute|by_compute|apply demo_str_mapped; simpl; lia|simpl; lia|].
  exists m'. split; [exact E|exact Hs].
Defined.

(** ** Comparisons *)

(** What [strcmp] computes: the difference of the first signed characters that
    differ, the terminator included. *)
Fixpoint signed_diff (s t : list Z) : Z :=
  match s, t with
  | [], [] => 0
  | [], y :: _ => 0 - s8 y
  | x :: _, [] => s8 x - 0
  | x :: s', y :: t' => if x =? y then signed_diff s' t' else s8 x - s8 y
  end.

Lemma s8_eq x y : 0 ≤ x < 256 → 0 ≤ y < 256 → (s8 x =? s8 y) = (x =? y).
Proof.
  intros Hx Hy. assert (∀ z, 0 ≤ z < 256 → s8 z = if z <? 128 then z else z - 256) as Hs.
  { intros z Hz. unfold wraps. pow2_norm. destruct (z <? 128) eqn:E.
    - rewrite Z.mod_small by lia. lia.
    - rewrite <- (Z.mod_add _ (-1)), Z.mod_small by lia. lia. }
  rewrite !Hs by done. destruct (x <? 128) eqn:E1, (y <? 128) eqn:E2;
    destruct (x =? y) eqn:E; rewrite ?Z.eqb_eq, ?Z.eqb_neq in *; lia.
Qed.

Lemma strcmp_loop_correct fuel m a b s t :
  cstr m a s → cstr m b t → (length s < fuel)%nat → strcmp_loop fuel a b m = Done (signed_diff s t) m.
Proof.
  revert fuel a b t. induction s as [|x s IH]; intros [|fuel] a b t Hs Ht Hf; simpl in *; [lia| |lia|].
  - erewrite bind_done by by apply run_loadc. rewrite s8_zero by lia. simpl.
    destruct t as [|y t]; [|destruct Ht as (Ht & Hy & _)]; by erewrite bind_done by by apply run_loadc.
  - destruct Hs as (Hx & Hr & Hs). erewrite bind_done by by apply run_loadc.
    rewrite s8_zero, (proj2 (Z.eqb_neq x 0)) by lia. destruct t as [|y t].
    + simpl in Ht. erewrite bind_done by by apply run_loadc.
      rewrite s8_eq, (proj2 (Z.eqb_neq x 0)) by lia. done.
    + destruct Ht as (Hy & Hry & Ht). erewrite bind_done by by apply run_loadc.
      rewrite s8_eq by lia. destruct (x =? y) eqn:E; [|done]. apply IH; [done..|lia].
Qed.

Lemma signed_diff_zero m a b s t : cstr m a s → cstr m b t → (signed_diff s t = 0 ↔ s = t).
Proof.
  revert a b t. induction s as [|x s IH]; intros a b [|y t] Hs Ht; simpl in *.
  - done.
  - destruct Ht as (_ & Hy & _). pose proof (s8_zero y). split; [|done]. intros E.
    assert ((s8 y =? 0) = true) by lia. lia.
  - destruct Hs as (_ & Hx & _). pose proof (s8_zero x). split; [|done]. intros E.
    assert ((s8 x =? 0) = true) by lia. lia.
  - destruct Hs as (_ & Hx & Hs), Ht as (_ & Hy & Ht). pose proof (s8_eq x y) as E8.
    destruct (x =? y) eqn:E.
    + assert (x = y) as -> by lia. rewrite (IH _ _ _ Hs Ht). split; [by intros ->|by intros [= ->]].
    + split; [|intros [= -> _]; lia]. intros E'. assert ((s8 x =? s8 y) = true) by lia. lia.
Qed.

(** [strcmp] on two strings always returns, without changing memory, and
    it returns 0 exactly when the strings are equal; swapping the arguments
    negates the result. *)
Theorem strcmp_correct (m : mem) (a b : Z) (s t : list Z) :
  cstr m a s → cstr m b t →
  ∃ r, strcmp a b m = Done r m ∧ strcmp b a m = Done (- r) m ∧ (r = 0 ↔ s = t).
Proof.
  intros Hs Ht. pose proof (mapped_size _ _ _ (cstr_mapped _ _ _ Hs)).
  pose proof (mapped_size _ _ _ (cstr_mapped _ _ _ Ht)). exists (signed_diff s t). unfold strcmp.
  erewrite !bind_done by done. rewrite !(strcmp_loop_correct (S (size m)) m) with (s := s) (t := t) by (done || lia).
  rewrite (strcmp_loop_correct (S (size m)) m b a t s) by (done || lia).
  split; [done|]. split; [|by eapply signed_diff_zero]. f_equal. clear.
  revert t. induction s as [|x s IH]; intros [|y t]; simpl; try lia.
  rewrite (Z.eqb_sym y x). destruct (x =? y); [apply IH|lia].
Qed.
Lemma strcmp_correct_witness : ∃ r, strcmp 100 108 demo_str = Done r demo_str ∧ (r = 0 ↔ [97; 98] = [99; 100]).
Proof.
  destruct (strcmp_correct demo_str 100 108 [97; 98] [99; 100]) as (r & E & _ & Hr); [by_compute..|].
  exists r. split; [exact E|exact Hr].
Defined.

Lemma strncmp_diff n m a b p x y s t :
  cstr m a (p ++ x :: s) → cstr m b (p ++ y :: t) → (length p < n)%nat → x ≠ y →
  strncmp_loop n a b m = Done (x - y) m.
Proof.
  revert n a b. induction p as [|z p IH]; intros [|n] a b Hs Ht Hn Hne; simpl in *; [lia| |lia|].
  - destruct Hs as (Hx & Hrx & Hs), Ht as (Hy & Hry & Ht).
    erewrite !bind_done by by apply run_mem_load. rewrite s8_eq, (proj2 (Z.eqb_neq x y)) by lia. done.
  - destruct Hs as (Hx & Hrx & Hs), Ht as (Hy & Hry & Ht).
    erewrite !bind_done by by apply run_mem_load. rewrite Z.eqb_refl, (proj2 (Z.eqb_neq z 0)) by lia. simpl.
    apply IH; [done..|lia|done].
Qed.
Lemma signed_diff_app p s t : signed_diff (p ++ s) (p ++ t) = signed_diff s t.
Proof. induction p as [|x p IH]; simpl; [done|]. by rewrite Z.eqb_refl. Qed.

(** [strcmp] orders strings by signed characters, [strncmp] by unsigned
    ones.  For two strings with a common prefix that go on with an ASCII
    character [x] and a byte [y] of 128 or more, [strcmp] puts the first after
    the second and [strncmp] before it (the C standard asks for unsigned). *)
Theorem strcmp_strncmp_disagree (m : mem) (a b : Z) (p s t : list Z) (x y n : Z) :
  cstr m a (p ++ x :: s) → cstr m b (p ++ y :: t) → 0 < x < 128 → 128 ≤ y < 256 →
  Z.of_nat (length p) < n →
  ∃ r r', strcmp a b m = Done r m ∧ 0 < r ∧ strncmp a b n m = Done r' m ∧ r' < 0.
Proof.
  intros Hs Ht Hx Hy Hn. pose proof (mapped_size _ _ _ (cstr_mapped _ _ _ Hs)).
  exists (s8 x - s8 y), (x - y). unfold strcmp, strncmp. erewrite bind_done by done.
  rewrite (strcmp_loop_correct _ m a b (p ++ x :: s) (p ++ y :: t)) by (done || lia).
  rewrite signed_diff_app. simpl. rewrite (proj2 (Z.eqb_neq x y)) by lia.
  rewrite (strncmp_diff _ m a b p x y s t) by (done || lia).
  assert (s8 y < 0 ∧ s8 x = x) as [? ?]; [|split_and!; lia || done].
  split; [|apply wraps_small; pow2_norm; lia]. unfold wraps. pow2_norm.
  rewrite <- (Z.mod_add _ (-1)), Z.mod_small by lia. lia.
Qed.
Lemma strcmp_strncmp_disagree_witness : ∃ r r',
  strcmp 100 112 demo_str = Done r demo_str ∧ 0 < r ∧ strncmp 100 112 5 demo_str = Done r' demo_str ∧ r' < 0.
Proof. apply (strcmp_strncmp_disagree demo_str 100 112 [97] [] [] 98 128 5); by_compute || (simpl; lia). Defined.

(** ** [strncpy] *)
Lemma fill_correct n a v m :
  mapped m a n → 0 ≤ v < 256 →
  ∃ m', fill n a v m = Done tt m' ∧
    ∀ x, m' !! x = if decide (a ≤ x < a + Z.of_nat n) then Some v else m !! x.
Proof.
  revert a m. induction n as [|n IH]; intros a m Hm Hv; simpl.
  { exists m. split; [done|]. intros x. by rewrite decide_False by lia. }
  destruct (mapped_at m a n Hm) as [y Hy]. erewrite bind_done by by apply (run_mem_store _ _ y).
  destruct (IH (a + 1) (<[a := v]> m)) as (m' & E & Hm'); [by eauto|done|].
  exists m'. split; [exact E|]. intros x. rewrite (Hm' x).
  destruct (decide (a ≤ x < a + Z.of_nat (S n))) as [Hx|Hx].
  - destruct (decide (x = a)) as [->|]; [by rewrite decide_False, lookup_insert_eq by lia|].
    by rewrite decide_True by lia.
  - by rewrite decide_False, lookup_insert_ne by lia.
Qed.

(** Byte [i] of the destination: of the string, then zeros. *)
Definition padded (s : list Z) (i : Z) : Z := default 0 (s !! Z.to_nat i).

Lemma strncpy_loop_correct n d src m s :
  cstr m src s → mapped m d n → d + Z.of_nat n ≤ src ∨ src + Z.of_nat (length s) < d →
  ∃ m', strncpy_loop n d src m = Done tt m' ∧
    ∀ x, m' !! x = if decide (d ≤ x < d + Z.of_nat n) then Some (padded s (x - d)) else m !! x.
Proof.
  revert d src m s. induction n as [|n IH]; intros d src m s Hs Hm Hd; cbn [strncpy_loop].
  { exists m. split; [done|]. intros x. by rewrite decide_False by lia. }
  destruct (mapped_at m d n Hm) as [y Hy]. destruct s as [|c s]; simpl in Hs.
  - erewrite bind_done by by apply run_mem_load. erewrite bind_done by by apply (run_mem_store _ _ y).
    destruct (fill_correct n (d + 1) 0 (<[d := 0]> m)) as (m' & E & Hm'); [by eauto|done|].
    exists m'. split; [exact E|]. intros x. rewrite (Hm' x). unfold padded. rewrite lookup_nil. simpl.
    destruct (decide (d ≤ x < d + Z.of_nat (S n))) as [Hx|Hx].
    + destruct (decide (x = d)) as [->|]; [by rewrite decide_False, lookup_insert_eq by lia|].
      by rewrite decide_True by lia.
    + by rewrite decide_False, lookup_insert_ne by lia.
  - destruct Hs as (Hc & Hr & Hs). erewrite bind_done by by apply run_mem_load.
    erewrite bind_done by (apply (run_mem_store _ _ y); [done|lia]). rewrite (proj2 (Z.eqb_neq c 0)) by lia.
    simpl in Hd. destruct (IH (d + 1) (src + 1) (<[d := c]> m) s) as (m' & E & Hm'); [|by eauto|lia|].
    { eapply cstr_frame; [|exact Hs]. intros b Hb. apply lookup_insert_ne. lia. }
    exists m'. split; [exact E|]. intros x. rewrite (Hm' x).
    destruct (decide (d ≤ x < d + Z.of_nat (S n))) as [Hx|Hx].
    + destruct (decide (x = d)) as [->|Hne].
      * rewrite decide_False, lookup_insert_eq by lia. unfold padded. by rewrite Z.sub_diag.
      * rewrite decide_True by lia. unfold padded. do 2 f_equal.
        replace (Z.to_nat (x - d)) with (S (Z.to_nat (x - (d + 1)))) by lia. done.
    + by rewrite decide_False, lookup_insert_ne by lia.
Qed.

(** [strncpy] of a string to a region of [n] mapped bytes apart from it
    always returns the destination: the region then holds the first [n] bytes
    of the string followed by zeros up to [n] (no terminator when the string
    has [n] bytes or more), and every other address is unchanged. *)
Theorem strncpy_pads (m : mem) (dst src n : Z) (s : list Z) :
  0 ≤ n → cstr m src s → mapped m dst (Z.to_nat n) → dst + n ≤ src ∨ src + Z.of_nat (length s) < dst →
  ∃ m', strncpy dst src n m = Done dst m' ∧
    ∀ x, m' !! x = if decide (dst ≤ x < dst + n) then Some (padded s (x - dst)) else m !! x.
Proof.
  intros Hn Hs Hm Hd. destruct (strncpy_loop_correct (Z.to_nat n) dst src m s) as (m' & E & Hm');
    [done..|lia|]. rewrite Z2Nat.id in Hm' by lia.
  exists m'. split; [|done]. unfold strncpy. by erewrite bind_done by exact E.
Qed.
Lemma strncpy_pads_witness : ∃ m', strncpy 108 100 4 demo_str = Done 108 m'.
Proof.
  destruct (strncpy_pads demo_str 108 100 4 [97; 98]) as (m' & E & _);
    [lia|by_compute|apply demo_str_mapped; simpl; lia|simpl; lia|]. exists m'. exact E.
Defined.

(** ** Numbers *)

(** The digits [ds] in [base] at address [a], then a character that is none. *)
Fixpoint digits_at (m : mem) (base a : Z) (ds : list Z) : Prop :=
  match ds with
  | [] => ∃ x, m !! a = Some x ∧ ∀ d, digit (s8 x) = Some d → base ≤ d
  | d :: ds' => ∃ x, m !! a = Some x ∧ digit (s8 x) = Some d ∧ 0 ≤ d < base ∧ digits_at m base (a + 1) ds'
  end.
Fixpoint value (base acc : Z) (ds : list Z) : Z :=
  match ds with [] => acc | d :: ds' => value base (acc * base + d) ds' end.

Lemma digits_mapped m base a ds : digits_at m base a ds → mapped m a (S (length ds)).
Proof.
  revert a. induction ds as [|d ds IH]; intros a Hd i Hi; simpl in *.
  - destruct Hd as (x & Hx & _). replace (a + i) with a by lia. by rewrite Hx.
  - destruct Hd as (x & Hx & _ & _ & Hd).
    destruct (decide (i = 0)) as [->|]; [rewrite Z.add_0_r; by rewrite Hx|].
    replace (a + i) with (a + 1 + (i - 1)) by lia. apply (IH _ Hd). lia.
Qed.
Lemma digits_head m base a ds : digits_at m base a ds → ∃ x, m !! a = Some x.
Proof. destruct ds; simpl; [intros (x & ? & _)|intros (x & ? & _)]; eauto. Qed.
Lemma digits_range m base a ds : digits_at m base a ds → Forall (λ d, 0 ≤ d < base) ds.
Proof. revert a. induction ds as [|d ds IH]; intros a Hd; [done|]. destruct Hd as (x & _ & _ & ? & ?). constructor; eauto. Qed.
Lemma value_mono base acc ds : 0 ≤ acc → 2 ≤ base → Forall (λ d, 0 ≤ d < base) ds → acc ≤ value base acc ds.
Proof.
  revert acc. induction ds as [|d ds IH]; intros acc Ha Hb Hf; simpl; [lia|]. inversion Hf; subst.
  assert (acc * base + d ≤ value base (acc * base + d) ds) by (apply IH; [nia|done..]). nia.
Qed.

(** The cut-off test is exact. *)
Lemma cutoff_test base limit acc d :
  2 ≤ base → 0 ≤ acc → 0 ≤ d < base → 0 ≤ limit →
  (limit `quot` base <? acc) || ((acc =? limit `quot` base) && (Z.rem limit base <? d)) = (limit <? acc * base + d).
Proof.
  intros Hb Ha Hd Hl. rewrite Z.quot_div_nonneg, Z.rem_mod_nonneg by lia.
  pose proof (Z_div_mod_eq_full limit base). pose proof (Z.mod_pos_bound limit base).
  set (q := limit `div` base) in *. set (r := limit `mod` base) in *.
  destruct (q <? acc) eqn:E1; simpl.
  - symmetry. apply Z.ltb_lt. nia.
  - destruct (acc =? q) eqn:E2; simpl.
    + destruct (r <? d) eqn:E3; symmetry; [apply Z.ltb_lt|apply Z.ltb_ge]; nia.
    + symmetry. apply Z.ltb_ge. nia.
Qed.

Lemma convert_overflowed fuel m base cutoff cutlim a ds x acc :
  digits_at m base a ds → m !! a = Some x → (length ds < fuel)%nat →
  convert fuel base cutoff cutlim (s8 x) (a + 1) acc (-1) m = Done (acc, -1, a + Z.of_nat (length ds) + 1) m.
Proof.
  revert fuel a x. induction ds as [|d ds IH]; intros [|fuel] a x Hd Hx Hf; simpl in *; [lia| |lia|].
  - destruct Hd as (x' & Hx' & Hnd). assert (x' = x) as -> by congruence. rewrite Z.add_0_r.
    destruct (digit (s8 x)) as [d|] eqn:E; [|done]. by rewrite (proj2 (Z.leb_le _ _) (Hnd d eq_refl)).
  - destruct Hd as (x' & Hx' & Hdx & Hr & Hd). assert (x' = x) as -> by congruence. rewrite Hdx, (proj2 (Z.leb_gt _ _)) by lia.
    destruct (digits_head _ _ _ _ Hd) as [y Hy]. erewrite bind_done by by apply run_loadc.
    rewrite (IH fuel (a + 1) y) by (done || lia). do 2 f_equal. lia.
Qed.

Lemma convert_correct fuel m base limit a ds x acc any :
  2 ≤ base ≤ 36 → 0 ≤ acc ≤ limit → limit < 2 ^ 64 → 0 ≤ any →
  digits_at m base a ds → m !! a = Some x → (length ds < fuel)%nat →
  ∃ acc' any', convert fuel base (limit `quot` base) (Z.rem limit base) (s8 x) (a + 1) acc any m =
      Done (acc', any', a + Z.of_nat (length ds) + 1) m ∧
    if value base acc ds <=? limit
    then acc' = value base acc ds ∧ any' = match ds with [] => any | _ => 1 end
    else any' = -1.
Proof.
  intros Hb Hacc Hl Hany Hd Hx Hf. revert fuel a x acc any Hacc Hany Hd Hx Hf.
  induction ds as [|d ds IH]; intros [|fuel] a x acc any Hacc Hany Hd Hx Hf; simpl in Hf; [lia| |lia|].
  - destruct Hd as (x' & Hx' & Hnd). assert (x' = x) as -> by congruence. exists acc, any. simpl. rewrite Z.add_0_r.
    rewrite (proj2 (Z.leb_le acc limit)) by lia. split; [|done].
    destruct (digit (s8 x)) as [d|] eqn:E; [|done]. by rewrite (proj2 (Z.leb_le _ _) (Hnd d eq_refl)).
  - destruct Hd as (x' & Hx' & Hdx & Hr & Hd). assert (x' = x) as -> by congruence. cbn [convert value length].
    rewrite Hdx, (proj2 (Z.leb_gt _ _)) by lia. destruct (digits_head _ _ _ _ Hd) as [y Hy].
    erewrite bind_done by by apply run_loadc. rewrite (proj2 (Z.ltb_ge any 0)) by lia. cbn [orb].
    rewrite cutoff_test by lia. pose proof (digits_range _ _ _ _ Hd) as Hrg.
    destruct (limit <? acc * base + d) eqn:E.
    + exists acc, (-1). rewrite (convert_overflowed fuel m base _ _ (a + 1) ds y) by (done || lia).
      pose proof (value_mono base (acc * base + d) ds). rewrite (proj2 (Z.leb_gt _ _)) by (apply Z.lt_le_trans with (acc * base + d); [lia|]; apply value_mono; [nia|lia|done]).
      split; [do 2 f_equal; lia|done].
    + rewrite (wrapu_small 64 (acc * base)) by nia. rewrite (wrapu_small 64 (acc * base + d)) by nia.
      destruct (IH fuel (a + 1) y (acc * base + d) 1) as (acc' & any' & E' & Hv); [nia|lia|done|done|lia|].
      exists acc', any'. split; [rewrite E'; do 2 f_equal; lia|]. destruct (_ <=? limit); [|done].
      destruct Hv as [-> ->]. split; [done|]. by destruct ds.
Qed.

(** [strtol] of a digit string in a base from 2 to 36 other than 16, with no
    sign or prefix, always returns.  If the number is at most LONG_MAX the
    result is the number, errno is left alone and the end pointer is just past
    the last digit; otherwise the result is LONG_MAX with ERANGE, and the end
    pointer is still past the last digit. *)
Theorem strtol_digits (m : mem) (base a x : Z) (d : Z) (ds : list Z) :
  2 ≤ base ≤ 36 → base ≠ 16 → digits_at m base a (d :: ds) → m !! a = Some x → 0 ≤ x < 256 →
  let v := value base 0 (d :: ds) in
  let stop_ := a + Z.of_nat (length (d :: ds)) in
  strtol a base m =
    Done (if v <=? LONG_MAX then mkNumber v stop_ None else mkNumber LONG_MAX stop_ (Some E_RANGE)) m.
Proof.
  intros Hb H16 Hd Hx Hxr v stop_.
  pose proof (mapped_size _ _ _ (digits_mapped _ _ _ _ Hd)) as Hsz.
  assert (digit (s8 x) = Some d) as Hdx by (destruct Hd as (x' & ? & ? & _); congruence).
  assert (s8 x ≠ 45 ∧ s8 x ≠ 43 ∧ isspace (u8 (s8 x)) = false) as (H45 & H43 & Hsp).
  { unfold digit in Hdx. destruct ((48 <=? s8 x) && (s8 x <=? 57)) eqn:E1;
      [|destruct ((65 <=? s8 x) && (s8 x <=? 90)) eqn:E2;
        [|destruct ((97 <=? s8 x) && (s8 x <=? 122)) eqn:E3; [|done]]];
      (rewrite (wrapu_small 8) by (pow2_norm; lia); unfold isspace; lia). }
  unfold strtol, prefix. erewrite bind_done.
  2:{ erewrite bind_done by done. simpl. erewrite bind_done.
      2:{ simpl. erewrite bind_done by by apply run_loadc. rewrite Hsp. done. }
      cbv beta iota. rewrite (proj2 (Z.eqb_neq _ _) H45), (proj2 (Z.eqb_neq _ _) H43).
      erewrite bind_done by done. cbv beta iota.
      rewrite (proj2 (Z.eqb_neq base 0)), (proj2 (Z.eqb_neq base 16)) by lia. simpl. erewrite bind_done by done.
      cbv beta iota. rewrite (proj2 (Z.eqb_neq base 0)) by lia. done. }
  cbv beta iota. rewrite (proj2 (Z.ltb_ge base 2)), (proj2 (Z.ltb_ge 36 base)) by lia. cbn [orb].
  erewrite bind_done by done.
  assert (s32 (Z.rem LONG_MAX base) = Z.rem LONG_MAX base) as ->.
  { pose proof (Z.rem_bound_pos LONG_MAX base). apply wraps_small; [lia|]. unfold LONG_MAX in *. pow2_norm. lia. }
  destruct (convert_correct (S (size m)) m base LONG_MAX a (d :: ds) x 0 0) as (acc & any & E & Hv);
    [lia|unfold LONG_MAX; lia|unfold LONG_MAX; lia|lia|done|done|lia|].
  erewrite bind_done by exact E. cbv beta iota. fold v in Hv.
  assert (0 ≤ v) as Hv0 by (apply value_mono; [lia|lia|by eapply digits_range]).
  replace (a + Z.of_nat (length (d :: ds)) + 1 - 1) with stop_ by (unfold stop_; lia).
  destruct (v <=? LONG_MAX) eqn:El.
  - destruct Hv as [-> ->]. simpl. rewrite wraps_small by (unfold LONG_MAX in *; pow2_norm; lia). done.
  - rewrite Hv. done.
Qed.

Definition demo_num : mem := list_to_map (zip (seqZ 200 4) [52; 48; 55; 0]).
Lemma strtol_digits_witness : strtol 200 10 demo_num = Done (mkNumber 407 203 None) demo_num.
Proof.
  apply (strtol_digits demo_num 10 200 52 4 [0; 7]); [lia|lia| |by_compute|lia].
  exists 52. split; [by_compute|]. split; [by_compute|]. split; [lia|].
  exists 48. split; [by_compute|]. split; [by_compute|]. split; [lia|].
  exists 55. split; [by_compute|]. split; [by_compute|]. split; [lia|].
  exists 0. split; [by_compute|]. intros d E. vm_compute in E. discriminate E.
Defined.

(** ** Byte order *)
Lemma htons_bits v n :
  0 ≤ v < 2 ^ 16 → 0 ≤ n →
  Z.testbit (htons v) n = if n <? 8 then Z.testbit v (n + 8) else if n <? 16 then Z.testbit v (n - 8) else false.
Proof.
  intros Hv Hn. unfold htons. destruct (n <? 16) eqn:E16.
  - rewrite testbit_wrapu, Z.lor_spec, Z.shiftr_spec, Z.shiftl_spec by lia. destruct (n <? 8) eqn:E8.
    + rewrite (Z.testbit_neg_r v (n - 8)) by lia. apply orb_false_r.
    + rewrite (testbit_high v 16) by lia. done.
  - rewrite testbit_wrap_high by lia. by rewrite (proj2 (Z.ltb_ge n 8)) by lia.
Qed.
Lemma htons_range v : 0 ≤ htons v < 2 ^ 16.
Proof. apply wrapu_range. lia. Qed.

(** Bit [n] of the result comes from the byte at the mirrored place. *)
Definition mirror (n : Z) : Z := 8 * (3 - n `div` 8) + n `mod` 8.

Lemma mirror_cases n :
  0 ≤ n < 32 →
  mirror n = if n <? 8 then n + 24 else if n <? 16 then n + 8 else if n <? 24 then n - 8 else n - 24.
Proof.
  intros Hn. unfold mirror. pose proof (Z_div_mod_eq_full n 8). pose proof (Z.mod_pos_bound n 8).
  repeat case_match; lia.
Qed.
Lemma mirror_mirror n : 0 ≤ n < 32 → 0 ≤ mirror n < 32 ∧ mirror (mirror n) = n.
Proof.
  intros Hn. assert (0 ≤ mirror n < 32) as Hm by (rewrite mirror_cases by done; repeat case_match; lia).
  split; [done|]. rewrite (mirror_cases (mirror n)) by done. rewrite (mirror_cases n) by done.
  repeat case_match; lia.
Qed.
Lemma htonl_bits v n :
  0 ≤ v < 2 ^ 32 → 0 ≤ n < 32 → Z.testbit (htonl v) n = Z.testbit v (mirror n).
Proof.
  intros Hv Hn. unfold htonl. rewrite testbit_wrapu, Z.lor_spec, Z.shiftl_spec by lia.
  rewrite mirror_cases by done.
  destruct (n <? 16) eqn:E16.
  - rewrite (Z.testbit_neg_r _ (n - 16)), orb_false_r, htons_bits by (lia || (apply wrapu_range; lia)).
    rewrite E16. destruct (n <? 8) eqn:E8; rewrite testbit_wrapu, Z.shiftr_spec by lia; f_equal; lia.
  - rewrite (testbit_high (htons _) 16) by (apply htons_range || lia). cbn [orb].
    rewrite htons_bits by (lia || (apply wrapu_range; lia)). rewrite (proj2 (Z.ltb_ge n 8)) by lia.
    destruct (n <? 24) eqn:E24.
    + rewrite (proj2 (Z.ltb_lt (n - 16) 8)), testbit_wrapu by lia. f_equal. lia.
    + rewrite (proj2 (Z.ltb_ge (n - 16) 8)), (proj2 (Z.ltb_lt (n - 16) 16)), testbit_wrapu by lia. f_equal. lia.
Qed.
Lemma htonl_range v : 0 ≤ htonl v < 2 ^ 32.
Proof. apply wrapu_range. lia. Qed.

(** [htonl] reverses the four bytes of a 32-bit value: bit [n] of the result
    is the bit of the argument at the same place of the mirrored byte; and
    [ntohl] undoes it. *)
Theorem htonl_ntohl (v : Z) :
  0 ≤ v < 2 ^ 32 →
  (∀ n, 0 ≤ n < 32 → Z.testbit (htonl v) n = Z.testbit v (mirror n)) ∧ ntohl (htonl v) = v.
Proof.
  intros Hv. split; [intros n Hn; by apply htonl_bits|]. unfold ntohl. apply Z.bits_inj'. intros n Hn.
  destruct (decide (n < 32)).
  - destruct (mirror_mirror n) as [? ?]; [lia|].
    rewrite !htonl_bits by (done || apply htonl_range || lia). by f_equal.
  - rewrite !(testbit_high _ 32) by (done || apply htonl_range || lia). done.
Qed.
Lemma htonl_ntohl_witness : ntohl (htonl 305419896) = 305419896.
Proof. apply htonl_ntohl. lia. Defined.

(** ** [atexit] *)
Fixpoint register (fns : list (Z * Z)) : M (list handler) unit :=
  match fns with [] => mret tt | (f, a) :: fns' => cxa_atexit f a;; register fns' end.

Lemma register_run l fns :
  (length l + length fns ≤ MAX_ATEXIT)%nat →
  register fns l = Done tt (l ++ map (λ '(f, a), mkHandler f a) fns).
Proof.
  revert l. induction fns as [|[f a] fns IH]; intros l Hl; simpl in *; [by rewrite app_nil_r|].
  unfold cxa_atexit. erewrite bind_done.
  2:{ erewrite bind_done by done. destruct (length l =? MAX_ATEXIT)%nat eqn:E; [apply Nat.eqb_eq in E; lia|].
      by erewrite bind_done by done. }
  rewrite IH by (rewrite length_app; simpl; lia). by rewrite <- app_assoc.
Qed.
Lemma run_at_exit_order fuel i l :
  (length l ≤ i + fuel - 1)%nat → (0 < fuel)%nat →
  run_at_exit fuel i (λ _, mret tt) l = Done (drop i l) l.
Proof.
  revert i. induction fuel as [|fuel IH]; intros i Hl Hf; [lia|]. simpl. erewrite bind_done by done.
  destruct (l !! i) as [h|] eqn:E.
  - erewrite bind_done by done. pose proof (lookup_lt_Some _ _ _ E).
    erewrite bind_done by (apply IH; lia). by rewrite (drop_S l h i).
  - apply lookup_ge_None in E. rewrite drop_ge by done. done.
Qed.

(** the functions registered with [__cxa_atexit], at most 128, are all
    called at exit, each once with its argument, when they register no more
    themselves; the order is the order of registration (the C standard asks for
    the reverse).  A further registration is reported as an error. *)
Theorem atexit_order (fns : list (Z * Z)) :
  (length fns ≤ MAX_ATEXIT)%nat →
  let l := map (λ '(f, a), mkHandler f a) fns in
  register fns [] = Done tt l ∧ RunAtExit (λ _, mret tt) l = Done l l ∧
  (length fns = MAX_ATEXIT → ∀ f, atexit f l = Halt (KleeReport "__cxa_atexit: no room in array!") l).
Proof.
  intros Hl l. assert (length l = length fns) as El by (unfold l; by rewrite length_map).
  split; [|split].
  - rewrite register_run by done. done.
  - unfold RunAtExit. rewrite run_at_exit_order by (rewrite ?El; lia). by rewrite drop_0.
  - intros E f. unfold atexit, cxa_atexit. erewrite bind_done by done. by rewrite El, E, Nat.eqb_refl.
Qed.
Lemma atexit_order_witness : register [(7, 1); (8, 2)] [] = Done tt [mkHandler 7 1; mkHandler 8 2].
Proof. apply (atexit_order [(7, 1); (8, 2)]). unfold MAX_ATEXIT. simpl. lia. Defined.
