(* ===== verification/Replay.v ===== *)
(** * Replaying a test case

    The engine records the value of every symbolic object in a test case; two
    programs put the values back.  [klee-replay] (src/klee/tools/klee-replay)
    links the runtime's start-up code with its own versions of the intrinsics;
    the test library (src/klee/runtime/Runtest) is linked with a program that
    calls the intrinsics itself.  The process control of [klee-replay] is left
    out. *)
From S2P Require Import Prelude FsInit FsTypes FsCore HostModel.

(** A [KTestObject]; [numBytes] is the length of [o_bytes]. *)
Record ktest_object : Type := mkObject { o_name : string; o_bytes : list Z }.

(** ** [klee-replay.c] *)
Module KleeReplay.
Record replay : Type := mkReplay { input : list ktest_object; obj_index : nat }.
Abbreviation R := (M replay).

(** [fprintf(stderr, ...); exit(1);] *)
Definition replay_emit_error {A} : R A := halt (ExitWith 1).
Definition model_version_zero (nbytes : nat) : R (list Z) :=
  c_assert (nbytes =? 4)%nat;; mret (replicate 4 0).

Definition replay_make_symbolic (nbytes : nat) (name : string) : R (list Z) :=
  s ← get;
  match input s !! obj_index s with
  | None => if bool_decide (name = "model_version") then model_version_zero nbytes else replay_emit_error
  | Some boo =>
      if bool_decide (name = "model_version") && negb (bool_decide (o_name boo = "model_version"))
      then model_version_zero nbytes
      else if negb (length (o_bytes boo) =? nbytes)%nat then replay_emit_error
      else put (mkReplay (input s) (S (obj_index s)));; mret (o_bytes boo)
  end.

Definition replay_klee_range (start end_ : Z) (name : string) : R Z :=
  if end_ <=? start then replay_emit_error
  else if s32 (start + 1) =? end_ then mret start
  else
    l ← replay_make_symbolic 4 name;
    let r := s32 (le_bytes l) in
    if (r <? start) || (end_ <=? r) then replay_emit_error else mret r.

Definition replay_klee_assume (x : bool) : R Z := mret 0.
Definition replay_report_error {A} (msg : string) : R A := replay_emit_error.

(** The exit code of [process_status], with the macros of <sys/wait.h>. *)
Definition WTERMSIG (status : Z) : Z := Z.land status 127.
Definition WIFSIGNALED (status : Z) : bool := 0 <? Z.shiftr (s8 (Z.land status 127 + 1)) 1.
Definition WIFEXITED (status : Z) : bool := WTERMSIG status =? 0.
Definition WEXITSTATUS (status : Z) : Z := Z.shiftr (Z.land status 65280) 8.
Definition process_status (status : Z) : Z :=
  if WIFSIGNALED status then 77
  else if WIFEXITED status then WEXITSTATUS status
  else 0.
End KleeReplay.

(** ** [Runtest/intrinsics.c] *)
Module Runtest.

(** The process's environment: the generator behind [rand], the variables
    KLEE_RANDOM and KTEST_FILE, the clock, the line read from the terminal and
    [kTest_fromFile]. *)
Class RunEnv : Type := {
  rng : Type;
  c_rand : rng → Z * rng;
  c_srand : Z → rng;
  env_random : bool;
  env_ktest : option string;
  time_now : Z * Z;
  input_line : option string;
  kTest_fromFile : string → option (list ktest_object) }.

Record state `{RunEnv} : Type := mkState {
  rand_init : Z; generator : rng;
  testData : option (list ktest_object); testPosition : nat }.
Arguments mkState {_} _ _ _ _.

Section Runtest.
Context `{RunEnv}.
Abbreviation T := (M state).

Definition rand : T Z :=
  s ← get;
  let '(x, g) := c_rand (generator s) in
  put (mkState (rand_init s) g (testData s) (testPosition s));; mret x.

Definition rand_byte : T Z :=
  x ← rand;
  let x := u32 x in
  let x := Z.lxor x (Z.shiftr x 16) in
  let x := Z.lxor x (Z.shiftr x 8) in
  mret (Z.land x 255).
Fixpoint rand_bytes (n : nat) : T (list Z) :=
  match n with O => mret [] | S n' => b ← rand_byte; l ← rand_bytes n'; mret (b :: l) end.

(** Little-endian bytes of a number. *)
Fixpoint to_bytes (n : nat) (x : Z) : list Z :=
  match n with O => [] | S n' => x `mod` 256 :: to_bytes n' (x / 256) end.

Definition init_rand : T unit :=
  s ← get;
  if rand_init s =? -1 then
    put (if env_random
         then mkState 1 (c_srand (u32 (Z.lxor (fst time_now) (snd time_now)))) (testData s) (testPosition s)
         else mkState 0 (generator s) (testData s) (testPosition s))
  else mret tt.

(** The name of the test case: the variable, or a line without its last
    character. *)
Definition ktest_name : T string :=
  match env_ktest with
  | Some name => mret name
  | None =>
      match input_line with
      | None => halt (ExitWith 1)
      | Some line =>
          if (String.length line =? 0)%nat then halt (ExitWith 1)
          else mret (String.substring 0 (String.length line - 1) line)
      end
  end.
Definition load_test : T (list ktest_object) :=
  s ← get;
  match testData s with
  | Some l => mret l
  | None =>
      name ← ktest_name;
      match kTest_fromFile name with
      | None => halt (ExitWith 1)
      | Some l => put (mkState (rand_init s) (generator s) (Some l) (testPosition s));; mret l
      end
  end.

(** The bytes of the object: those of the test case, zeros after them. *)
Definition test_make_symbolic (nbytes : nat) (name : string) : T (list Z) :=
  init_rand;;
  s ← get;
  if negb (rand_init s =? 0) then
    if bool_decide (name = "syscall_a0") then
      c_assert (nbytes =? 8)%nat;; x ← rand; mret (to_bytes 8 (u64 (Z.rem x 69)))
    else rand_bytes nbytes
  else
    data ← load_test;
    s ← get;
    match data !! testPosition s with
    | None => mret (replicate nbytes 0)
    | Some o =>
        put (mkState (rand_init s) (generator s) (testData s) (S (testPosition s)));;
        mret (take nbytes (o_bytes o) ++ replicate (nbytes - length (o_bytes o)) 0)
    end.

Definition test_choose (n : Z) : T Z :=
  l ← test_make_symbolic 8 "klee_choose";
  let x := u64 (le_bytes l) in
  c_assert (x <? n);; mret x.

(** A value outside the range ends the process with [abort]. *)
Definition test_range (begin end_ : Z) (name : string) : T Z :=
  l ← test_make_symbolic 4 name;
  let x := s32 (le_bytes l) in
  if (x <? begin) || (end_ <=? x) then halt AssertFailure else mret x.

Definition test_assume (x : bool) : T unit := mret tt.
End Runtest.
End Runtest.

(** A request that the next object of the test case answers. *)
Lemma replay_serve pre rest name l :
  KleeReplay.replay_make_symbolic (length l) name (KleeReplay.mkReplay (pre ++ mkObject name l :: rest) (length pre)) =
    Done l (KleeReplay.mkReplay (pre ++ mkObject name l :: rest) (S (length pre))).
Proof.
  unfold KleeReplay.replay_make_symbolic. erewrite bind_done by done. simpl. rewrite list_lookup_middle by done. simpl.
  assert (bool_decide (name = "model_version") && negb (bool_decide (name = "model_version")) = false) as ->
    by by destruct (bool_decide _).
  by rewrite Nat.eqb_refl.
Qed.
