(* ===== verification/BranchTree.v ===== *)
(** * The branch tree of the path slicer

    src/klee/lib/Core/BranchTree.cpp and include/klee/BranchTree.h.  The engine
    keeps a binary tree of the symbolic branches that were taken: a node for
    each fork, with the two states (or the two later branches) of its sides.
    When the slicer finds that a branch does not matter for a finished path,
    the states on the other side of that branch are pruned.

    Nodes are allocated with [new] and never freed: the heap is a list, a
    [BranchNode] pointer an index into it, NULL is [None].  An
    [ExecutionState] pointer is a number; its field [parentBranch] is the map
    [state_parent], in which NULL is absence. *)
From stdpp Require Import fin_sets.
From S2P Require Import Prelude.

Abbreviation sid := nat.

(** Arrays of two elements, indexed by a side. *)
Definition sel {A} (i : bool) (p : A * A) : A := if i then p.2 else p.1.
Definition upd {A} (i : bool) (v : A) (p : A * A) : A * A :=
  if i then (p.1, v) else (v, p.2).

Record BranchNode := mkBranchNode {
  dynInstrIdx : Z;
  childStates : option sid * option sid;
  childBranches : option nat * option nat;
  parentBranch : option nat
}.

(** The constructor: no index, no children, no parent. *)
Definition new_BranchNode : BranchNode :=
  mkBranchNode (u64 (-1)) (None, None) (None, None) None.

Record BranchTree := mkBranchTree {
  root : option nat;
  nodes : list BranchNode;
  state_parent : gmap sid nat
}.

Definition new_BranchTree : BranchTree := mkBranchTree None [] ∅.

Definition load (p : option nat) : M BranchTree BranchNode :=
  b ← get; deref (p ≫= λ a, nodes b !! a).
Definition store (a : nat) (n : BranchNode) : M BranchTree unit :=
  modify (λ b, mkBranchTree (root b) (<[a := n]> (nodes b)) (state_parent b)).
Definition alloc_node (n : BranchNode) : M BranchTree nat :=
  b ← get;
  put (mkBranchTree (root b) (nodes b ++ [n]) (state_parent b));;
  mret (length (nodes b)).
Definition set_root (p : option nat) : M BranchTree unit :=
  modify (λ b, mkBranchTree p (nodes b) (state_parent b)).
Definition set_parent (s : sid) (p : option nat) : M BranchTree unit :=
  modify (λ b, mkBranchTree (root b) (nodes b) (partial_alter (λ _, p) s (state_parent b))).

(** [if (p) set.insert(p)]. *)
Definition insert_state (p : option sid) (acc : gset sid) : gset sid :=
  match p with Some s => {[s]} ∪ acc | None => acc end.

(** [findChildStates]: all states below a node. *)
Fixpoint findChildStates (fuel : nat) (curNode : option nat) (childSet : gset sid) :
    M BranchTree (gset sid) :=
  match fuel with
  | O => halt NoFuel
  | S fuel =>
    c_assert (bool_decide (curNode ≠ None));;
    n ← load curNode;
    let acc := insert_state (childStates n).2 (insert_state (childStates n).1 childSet) in
    left ← (if bool_decide ((childBranches n).1 ≠ None)
            then findChildStates fuel (childBranches n).1 ∅ else mret ∅);
    right ← (if bool_decide ((childBranches n).2 ≠ None)
             then findChildStates fuel (childBranches n).2 ∅ else mret ∅);
    mret (right ∪ (left ∪ acc))
  end.

(** The states on side [i] of a node, added to the set: the four blocks of
    [findPrunedStates] that do so differ in the side only. *)
Definition insert_side (fuel : nat) (n : BranchNode) (i : bool) (acc : gset sid) :
    M BranchTree (gset sid) :=
  let acc := insert_state (sel i (childStates n)) acc in
  if bool_decide (sel i (childBranches n) ≠ None)
  then findChildStates fuel (sel i (childBranches n)) acc else mret acc.

(** The part of the loop's body for a node with the index that is looked for. *)
Definition collect_node (fuel : nat) (curState : sid) (prevBrNode : option nat)
    (n : BranchNode) (acc : gset sid) : M BranchTree (gset sid) :=
  acc ← (if bool_decide ((childStates n).1 = Some curState) then insert_side fuel n true acc
         else mret acc);
  acc ← (if bool_decide ((childStates n).2 = Some curState) then insert_side fuel n false acc
         else mret acc);
  if bool_decide (prevBrNode ≠ None) then
    acc ← (if bool_decide ((childBranches n).1 = prevBrNode) then insert_side fuel n true acc
           else mret acc);
    if bool_decide ((childBranches n).2 = prevBrNode) then insert_side fuel n false acc
    else mret acc
  else mret acc.

(** The loop: [Some] set when it returns from a node that was found, [None] when
    it reaches the root. *)
Fixpoint backtrack (fuel : nat) (depth : nat) (curState : sid) (idx : Z)
    (prevBrNode curBrNode : option nat) (acc : gset sid) :
    M BranchTree (option (gset sid)) :=
  match depth with
  | O => halt NoFuel
  | S depth =>
    n ← load curBrNode;
    let next acc :=
      if bool_decide (parentBranch n ≠ None)
      then backtrack fuel depth curState idx curBrNode (parentBranch n) acc
      else mret None in
    if dynInstrIdx n =? idx then
      acc ← collect_node fuel curState prevBrNode n acc;
      if bool_decide (parentBranch n = None) then mret (Some acc)
      else
        p ← load (parentBranch n);
        if negb (dynInstrIdx n =? dynInstrIdx p) then mret (Some acc) else next acc
    else next acc
  end.

(** [findPrunedStates]: the result and the new value of [prunedStates].  The call
    of [abort] when the current state would be pruned ends the process like a
    failed assertion. *)
Definition findPrunedStates (curState : sid) (idx : Z) (prunedStates : gset sid) :
    M BranchTree (bool * gset sid) :=
  b ← get;
  if bool_decide (root b = None) then mret (false, prunedStates)
  else
    let fuel := S (length (nodes b)) in
    r ← backtrack fuel fuel curState idx None (state_parent b !! curState) ∅;
    match r with
    | None => mret (false, prunedStates)
    | Some newPrunedStates =>
      c_assert (bool_decide (curState ∉ newPrunedStates));;
      mret (bool_decide (0 < size newPrunedStates)%nat, newPrunedStates ∪ prunedStates)
    end.

Definition set_child (i : bool) (s : option sid) (c : option nat) (n : BranchNode) : BranchNode :=
  mkBranchNode (dynInstrIdx n) (upd i s (childStates n)) (upd i c (childBranches n))
    (parentBranch n).

(** [removeState]: the loop leaves [i] at the side of the state, or at 2, which
    fails the assertion. *)
Definition removeState (curState : sid) : M BranchTree unit :=
  b ← get;
  if bool_decide (root b = None) then mret tt
  else
    let leafBranch := state_parent b !! curState in
    c_assert (bool_decide (leafBranch ≠ None));;
    a ← deref leafBranch;
    n ← load (Some a);
    let is0 := bool_decide ((childStates n).1 = Some curState) in
    let is1 := bool_decide ((childStates n).2 = Some curState) in
    c_assert (is0 || is1);;
    store a (mkBranchNode (dynInstrIdx n) (upd (negb is0) None (childStates n))
               (childBranches n) (parentBranch n));;
    set_parent curState None.

Definition addBranch (curState : sid) (idx : Z) (otherState : sid) : M BranchTree unit :=
  b ← get;
  (if bool_decide (root b = None) then
     r ← alloc_node (mkBranchNode idx (Some curState, Some otherState) (None, None) None);
     set_root (Some r);;
     set_parent curState (Some r);;
     set_parent otherState (Some r)
   else
     let parentNode := state_parent b !! curState in
     child ← alloc_node (mkBranchNode idx (Some curState, Some otherState) (None, None) parentNode);
     c_assert (bool_decide (parentNode ≠ None));;
     p ← deref parentNode;
     n ← load (Some p);
     (if bool_decide ((childStates n).1 = Some curState)
      then store p (set_child false None (Some child) n)
      else
        c_assert (bool_decide ((childStates n).2 = Some curState));;
        store p (set_child true None (Some child) n));;
     set_parent curState (Some child);;
     set_parent otherState (Some child));;
  b ← get;
  c_assert (bool_decide (state_parent b !! curState ≠ None) &&
            bool_decide (state_parent b !! otherState ≠ None)).

(** ** What the branch tree promises
    The abstract value of a branch tree is a binary tree whose leaves are states
    (or places a removed state has left).  [repr] relates the linked nodes to
    it, each operation is shown to compute the abstract one, and the abstract
    answer of [findPrunedStates] is read off the path from the state to the
    root. *)
Inductive tree : Type :=
| Leaf (s : option sid)
| Fork (a : nat) (idx : Z) (l r : tree).

Definition leaf_of (t : tree) : option sid := match t with Leaf s => s | _ => None end.
Definition addr_of (t : tree) : option nat := match t with Fork a _ _ _ => Some a | _ => None end.

Fixpoint states (t : tree) : list sid :=
  match t with
  | Leaf s => option_list s
  | Fork _ _ l r => states l ++ states r
  end.
Fixpoint addrs (t : tree) : list nat :=
  match t with
  | Leaf _ => []
  | Fork a _ l r => a :: addrs l ++ addrs r
  end.

(** The states with the node they hang from. *)
Fixpoint attached (par : nat) (t : tree) : list (sid * nat) :=
  match t with
  | Leaf s => option_list ((λ s, (s, par)) <$> s)
  | Fork a _ l r => attached a l ++ attached a r
  end.

(** The nodes of the heap that hold a tree below the parent [par]. *)
Fixpoint rep (h : list BranchNode) (par : option nat) (t : tree) : Prop :=
  match t with
  | Leaf _ => True
  | Fork a idx l r =>
    h !! a = Some (mkBranchNode idx (leaf_of l, leaf_of r) (addr_of l, addr_of r) par) ∧
    rep h (Some a) l ∧ rep h (Some a) r
  end.

Record repr_tree (b : BranchTree) (t : tree) : Prop := {
  rt_root : root b = addr_of t;
  rt_fork : addr_of t ≠ None;
  rt_rep : rep (nodes b) None t;
  rt_size : length (nodes b) = length (addrs t);
  rt_addrs : NoDup (addrs t);
  rt_states : NoDup (states t);
  rt_parent s a : state_parent b !! s = Some a ↔ (s, a) ∈ attached 0 t
}.

(** [None] is the tree before the first branch. *)
Definition repr (b : BranchTree) (t : option tree) : Prop :=
  match t with
  | None => b = new_BranchTree
  | Some t => repr_tree b t
  end.

Definition tree_states (t : option tree) : list sid := from_option states [] t.

(** ** The abstract operations *)

(** Replace the leaf of a state. *)
Fixpoint plug (s : sid) (u t : tree) : tree :=
  match t with
  | Leaf x => if bool_decide (x = Some s) then u else t
  | Fork a idx l r => Fork a idx (plug s u l) (plug s u r)
  end.

(** A fork of [s] at [idx]: its leaf becomes a branch over [s] and the new state. *)
Definition branch_at (s : sid) (idx : Z) (o : sid) (a : nat) (t : option tree) : tree :=
  let u := Fork a idx (Leaf (Some s)) (Leaf (Some o)) in
  match t with None => u | Some t => plug s u t end.

Definition prune_at (s : sid) (t : option tree) : option tree :=
  plug s (Leaf None) <$> t.

(** The path from the leaf of a state to the root: for each branch its node, its
    index, the side the state is on and the tree of the other side. *)
Record frame := mkFrame { f_addr : nat; f_idx : Z; f_side : bool; f_other : tree }.

Fixpoint path (s : sid) (t : tree) : option (list frame) :=
  match t with
  | Leaf x => if bool_decide (x = Some s) then Some [] else None
  | Fork a idx l r =>
    match path s l with
    | Some p => Some (p ++ [mkFrame a idx false r])
    | None =>
      match path s r with
      | Some p => Some (p ++ [mkFrame a idx true l])
      | None => None
      end
    end
  end.

(** The first run of branches with the given index, from the leaf upwards: a
    call outside the program may fork several times at one index. *)
Fixpoint run_of (idx : Z) (p : list frame) : list frame :=
  match p with
  | f :: p => if f_idx f =? idx then f :: run_of idx p else []
  | [] => []
  end.
Fixpoint first_run (idx : Z) (p : list frame) : list frame :=
  match p with
  | f :: p' => if f_idx f =? idx then run_of idx p else first_run idx p'
  | [] => []
  end.

Definition others (p : list frame) : gset sid :=
  ⋃ ((λ f, list_to_set (states (f_other f))) <$> p).

(** What is pruned when the branch [idx] does not matter for the path of [s]. *)
Definition pruned_set (s : sid) (idx : Z) (t : option tree) : gset sid :=
  match t with
  | None => ∅
  | Some t => from_option (λ p, others (first_run idx p)) ∅ (path s t)
  end.

(** ** Facts on trees *)

Lemma elem_states_attached t par s : s ∈ states t ↔ ∃ a, (s, a) ∈ attached par t.
Proof.
  revert par. induction t as [[x|]|a idx l IHl r IHr]; intros par; simpl.
  - rewrite list_elem_of_singleton. setoid_rewrite list_elem_of_singleton.
    split; [intros ->; eauto|intros (a & [= ??]); done].
  - split; [by intros ?%elem_of_nil|by intros (? & ?%elem_of_nil)].
  - rewrite elem_of_app, (IHl a), (IHr a). setoid_rewrite elem_of_app. naive_solver.
Qed.

Lemma attached_addr t par s a : (s, a) ∈ attached par t → a = par ∧ leaf_of t = Some s ∨ a ∈ addrs t.
Proof.
  revert par. induction t as [[x|]|c idx l IHl r IHr]; intros par; simpl.
  - rewrite list_elem_of_singleton. intros [= <- ->]. auto.
  - by intros ?%elem_of_nil.
  - rewrite elem_of_app, elem_of_cons, elem_of_app.
    intros [[[-> _]|?]%IHl|[[-> _]|?]%IHr]; auto.
Qed.

Lemma rep_frame h h' par t : (∀ a, a ∈ addrs t → h' !! a = h !! a) → rep h par t → rep h' par t.
Proof.
  revert par. induction t as [x|a idx l IHl r IHr]; intros par Hh; [done|]. simpl.
  intros (Ha & Hl & Hr). rewrite Hh by (simpl; set_solver). split_and!; [done| |].
  - apply IHl; [|done]. intros c Hc. apply Hh. simpl. set_solver.
  - apply IHr; [|done]. intros c Hc. apply Hh. simpl. set_solver.
Qed.

Lemma rep_addr h par t a : rep h par t → a ∈ addrs t → is_Some (h !! a).
Proof.
  revert par. induction t as [x|c idx l IHl r IHr]; intros par; simpl.
  - by intros _ ?%elem_of_nil.
  - intros (Ha & Hl & Hr). rewrite elem_of_cons, elem_of_app.
    intros [->|[?|?]]; eauto.
Qed.

Fixpoint height (t : tree) : nat :=
  match t with Leaf _ => 0 | Fork _ _ l r => S (height l `max` height r) end.
Lemma height_addrs t : (height t ≤ length (addrs t))%nat.
Proof. induction t; simpl; [lia|]. rewrite length_app. lia. Qed.

(** ** Collecting the states of a subtree *)

Lemma load_done b a n : nodes b !! a = Some n → load (Some a) b = Done n b.
Proof.
  intros E. unfold load. rewrite (bind_done _ _ b b b) by done.
  change (Some a ≫= λ a, nodes b !! a) with (nodes b !! a). by rewrite E.
Qed.

Lemma insert_state_leaf t acc : addr_of t = None → insert_state (leaf_of t) acc = list_to_set (states t) ∪ acc.
Proof. destruct t as [[x|]|]; simpl; [intros _; set_solver|intros _; set_solver|done]. Qed.

Lemma findChildStates_rep b par t fuel acc :
  rep (nodes b) par t → addr_of t ≠ None → (height t ≤ fuel)%nat →
  findChildStates fuel (addr_of t) acc b = Done (list_to_set (states t) ∪ acc) b.
Proof.
  revert par fuel acc. induction t as [x|a idx l IHl r IHr]; intros par fuel acc; [done|].
  intros (Ha & Hl & Hr) _ Hf. destruct fuel as [|fuel]; [simpl in Hf; lia|]. cbn [addr_of findChildStates].
  rewrite bool_decide_true by done. rewrite (bind_done _ _ b tt b) by done.
  erewrite bind_done by (by apply load_done). cbn [childStates childBranches fst snd].
  assert (∀ t (IH : ∀ par fuel acc, rep (nodes b) par t → addr_of t ≠ None → (height t ≤ fuel)%nat →
            findChildStates fuel (addr_of t) acc b = Done (list_to_set (states t) ∪ acc) b),
          rep (nodes b) (Some a) t → (height t ≤ fuel)%nat →
          (if bool_decide (addr_of t ≠ None) then findChildStates fuel (addr_of t) ∅ else mret ∅) b
          = Done (if bool_decide (addr_of t ≠ None) then list_to_set (states t) else ∅) b) as Side.
  { intros t IH Ht Hh. case_bool_decide as E; [|done]. erewrite IH by (done || lia).
    by rewrite (right_id_L ∅ (∪)). }
  erewrite bind_done by (apply (Side l IHl); [done|simpl in Hf; lia]).
  erewrite bind_done by (apply (Side r IHr); [done|simpl in Hf; lia]).
  unfold mret, M_ret. f_equal. cbn [states]. rewrite list_to_set_app_L.
  destruct l as [xl|], r as [xr|]; simpl; rewrite ?bool_decide_true, ?bool_decide_false by (by try (intros []));
    rewrite ?bool_decide_false by (by intros []).
  all: try destruct xl; try destruct xr; simpl; set_solver.
Qed.

Lemma insert_side_rep b par n i u fuel acc :
  rep (nodes b) par u → sel i (childStates n) = leaf_of u → sel i (childBranches n) = addr_of u →
  (height u ≤ fuel)%nat →
  insert_side fuel n i acc b = Done (list_to_set (states u) ∪ acc) b.
Proof.
  intros Hu Es Eb Hf. unfold insert_side. rewrite Es, Eb.
  case_bool_decide as E.
  - erewrite findChildStates_rep by done. by destruct u.
  - rewrite insert_state_leaf by (by destruct u; [|destruct E]). done.
Qed.

(** ** The walk to the root *)

(** [frames h s prev p]: the heap holds the branches of [p], each the parent of
    the one before; [prev] is the node below the first of them, NULL when that
    one holds the state [s] itself. *)
Fixpoint frames (h : list BranchNode) (s : sid) (prev : option nat) (p : list frame) : Prop :=
  match p with
  | [] => True
  | f :: p' =>
    let o := f_other f in
    h !! f_addr f = Some (mkBranchNode (f_idx f)
      (upd (f_side f) (if prev then None else Some s) (leaf_of o, leaf_of o))
      (upd (f_side f) prev (addr_of o, addr_of o))
      (f_addr <$> head p')) ∧
    rep h (Some (f_addr f)) o ∧ s ∉ states o ∧ (prev ≠ None → addr_of o ≠ prev) ∧
    frames h s (Some (f_addr f)) p'
  end.

Lemma path_elem s t p : path s t = Some p → s ∈ states t.
Proof.
  revert p. induction t as [x|a idx l IHl r IHr]; intros p; simpl.
  - case_bool_decide as E; [|done]. subst. intros _. simpl. set_solver.
  - destruct (path s l); [intros _; set_solver|]. destruct (path s r); [set_solver|done].
Qed.
Lemma elem_path s t : s ∈ states t → is_Some (path s t).
Proof.
  induction t as [x|a idx l IHl r IHr]; simpl.
  - destruct x as [x|]; [|by intros ?%elem_of_nil].
    intros ->%list_elem_of_singleton. by rewrite bool_decide_true.
  - intros [?|?]%elem_of_app; destruct (path s l); eauto.
    + by destruct IHl.
    + by destruct IHr as [? ->].
Qed.

Lemma path_leaf s t p : path s t = Some p → leaf_of t = (if addr_of t then None else Some s).
Proof. destruct t; simpl; [by case_bool_decide|done]. Qed.

Lemma addr_of_elem t a : addr_of t = Some a → a ∈ addrs t.
Proof. destruct t; simpl; [done|]. intros [= ->]. set_solver. Qed.

Lemma path_frames h par t s p rest :
  rep h par t → NoDup (addrs t) → NoDup (states t) → path s t = Some p →
  par = f_addr <$> head rest → frames h s (addr_of t) rest → frames h s None (p ++ rest).
Proof.
  revert par p rest. induction t as [x|a idx l IHl r IHr]; intros par p rest; simpl.
  - case_bool_decide; [|done]. by intros _ _ _ [= <-] _ ?.
  - intros (Ha & Hl & Hr) Hna Hns Hp -> Hrest.
    apply NoDup_cons in Hna as [Ha' (Hnl & Hd & Hnr)%NoDup_app].
    apply NoDup_app in Hns as (Hsl & Hsd & Hsr).
    assert (∀ c, addr_of l = Some c → addr_of r ≠ Some c) as Hlr.
    { intros c ?%addr_of_elem ?%addr_of_elem. by apply (Hd c). }
    destruct (path s l) as [pl|] eqn:El; [|destruct (path s r) as [pr|] eqn:Er; [|done]];
      simplify_eq; rewrite <- app_assoc; simpl.
    + pose proof (path_elem _ _ _ El). eapply IHl; [done..|]. cbn [frames f_addr f_idx f_side f_other].
      split_and!; [|done|by apply Hsd| |done].
      * by rewrite Ha, <- (path_leaf _ _ _ El).
      * destruct (addr_of l) eqn:E; [|done]. intros _. by apply Hlr.
    + pose proof (path_elem _ _ _ Er). eapply IHr; [done..|]. cbn [frames f_addr f_idx f_side f_other].
      split_and!; [|done|intros ?; by apply (Hsd s)| |done].
      * by rewrite Ha, <- (path_leaf _ _ _ Er).
      * destruct (addr_of r) eqn:E; [|done]. intros _ ?. by eapply Hlr.
Qed.

Lemma collect_node_frame b s prev f n fuel acc :
  rep (nodes b) (Some (f_addr f)) (f_other f) → s ∉ states (f_other f) →
  (prev ≠ None → addr_of (f_other f) ≠ prev) → (height (f_other f) ≤ fuel)%nat →
  childStates n = upd (f_side f) (if prev then None else Some s) (leaf_of (f_other f), leaf_of (f_other f)) →
  childBranches n = upd (f_side f) prev (addr_of (f_other f), addr_of (f_other f)) →
  collect_node fuel s prev n acc b = Done (list_to_set (states (f_other f)) ∪ acc) b.
Proof.
  destruct f as [a idx d o]. cbn [f_addr f_idx f_side f_other]. intros Ho Hs Hprev Hf Es Eb.
  assert (insert_side fuel n (negb d) acc b = Done (list_to_set (states o) ∪ acc) b) as Hins.
  { eapply insert_side_rep; [done|rewrite Es; by destruct d|rewrite Eb; by destruct d|done]. }
  assert (leaf_of o ≠ Some s) as Hls.
  { intros E. apply Hs. destruct o; simpl in *; [subst|done]. simpl. set_solver. }
  unfold collect_node. rewrite Es, Eb.
  destruct d, prev as [p|]; cbn [upd fst snd negb] in *;
    repeat first [ rewrite (bool_decide_true (Some _ = Some _)) by done
                 | rewrite (bool_decide_false (None = Some _)) by done
                 | rewrite (bool_decide_false (leaf_of o = Some s)) by done
                 | rewrite (bool_decide_false (None ≠ None)) by (by intros [])
                 | rewrite (bool_decide_true (Some _ ≠ None)) by done
                 | rewrite (bool_decide_false (addr_of o = Some p)) by (by apply Hprev)
                 | rewrite (bind_done _ _ b acc b) by done
                 | erewrite bind_done by exact Hins ]; done.
Qed.

Lemma run_of_first idx p f : head p = Some f → f_idx f = idx → run_of idx p = first_run idx p.
Proof. destruct p; simpl; [done|]. intros [= ->] ->. by rewrite Z.eqb_refl. Qed.

Lemma others_cons f p : others (f :: p) = list_to_set (states (f_other f)) ∪ others p.
Proof. done. Qed.

(** The loop stops with the states beside the first run of matching branches. *)
Lemma backtrack_frames b s idx fuel depth prev f p acc :
  frames (nodes b) s prev (f :: p) → (length p < depth)%nat →
  Forall (λ f, height (f_other f) ≤ fuel)%nat (f :: p) →
  backtrack fuel depth s idx prev (Some (f_addr f)) acc b =
  Done (if first_run idx (f :: p) then None else Some (others (first_run idx (f :: p)) ∪ acc)) b.
Proof.
  revert depth prev f acc. induction p as [|g p IH]; intros depth prev f acc Hfr Hd Hh;
    destruct depth as [|depth]; try (simpl in Hd; lia); cbn [backtrack];
    destruct Hfr as (Hn & Ho & Hs & Hprev & Hrest); apply Forall_cons in Hh as [Hhf Hh];
    erewrite bind_done by (by apply load_done); cbn [dynInstrIdx parentBranch head fmap option_fmap option_map].
  - destruct (Z.eqb_spec (f_idx f) idx) as [E|E]; simpl.
    + erewrite bind_done by (by eapply collect_node_frame).
      rewrite (proj2 (Z.eqb_eq _ _) E). unfold mret, M_ret. do 2 f_equal. unfold others. simpl. set_solver.
    + by rewrite (proj2 (Z.eqb_neq _ _) E).
  - assert (Hg := Hrest). destruct Hg as [Hg _].
    rewrite (bool_decide_true (Some (f_addr g) ≠ None)) by done.
    destruct (Z.eqb_spec (f_idx f) idx) as [E|E].
    + erewrite bind_done by (by eapply collect_node_frame).
      rewrite (bool_decide_false (Some (f_addr g) = None)) by done.
      erewrite bind_done by (by apply load_done). cbn [dynInstrIdx].
      cbn [first_run]. rewrite (proj2 (Z.eqb_eq _ _) E). cbn [run_of]. rewrite (proj2 (Z.eqb_eq _ _) E).
      rewrite others_cons, E, (Z.eqb_sym idx).
      destruct (Z.eqb_spec (f_idx g) idx) as [Eg|Eg]; cbn [negb].
      * rewrite (IH depth) by (done || (simpl in Hd; lia)). cbn [first_run run_of].
        rewrite (proj2 (Z.eqb_eq _ _) Eg), others_cons. unfold mret, M_ret. do 2 f_equal. set_solver.
      * unfold mret, M_ret. do 2 f_equal. unfold others. simpl. set_solver.
    + rewrite (IH depth) by (done || (simpl in Hd; lia)). cbn [first_run].
      by rewrite (proj2 (Z.eqb_neq _ _) E).
Qed.

Lemma path_bounds s t p :
  path s t = Some p → (length p ≤ height t)%nat ∧ Forall (λ f, height (f_other f) ≤ height t)%nat p.
Proof.
  revert p. induction t as [x|a idx l IHl r IHr]; intros p; simpl.
  - case_bool_decide; [|done]. intros [= <-]. split; [simpl; lia|constructor].
  - destruct (path s l) as [pl|]; [|destruct (path s r) as [pr|]; [|done]]; intros [= <-];
      [destruct (IHl _ eq_refl) as [H1 H2]|destruct (IHr _ eq_refl) as [H1 H2]];
      (split; [rewrite length_app; simpl; lia|]; apply Forall_app; split;
        [eapply Forall_impl; [done|simpl; intros; lia]|repeat constructor; simpl; lia]).
Qed.

Lemma frames_others h s prev p : frames h s prev p → Forall (λ f, s ∉ states (f_other f)) p.
Proof.
  revert prev. induction p as [|f p IH]; intros prev; simpl; [constructor|].
  intros (_ & _ & Hs & _ & Hp). constructor; [done|by eapply IH].
Qed.

Lemma run_of_Forall (P : frame → Prop) idx p : Forall P p → Forall P (run_of idx p).
Proof. induction 1; simpl; [constructor|]. destruct (_ =? _); by constructor. Qed.
Lemma first_run_Forall (P : frame → Prop) idx p : Forall P p → Forall P (first_run idx p).
Proof.
  induction 1; simpl; [constructor|]. destruct (_ =? _); [|done].
  constructor; [done|]. by apply run_of_Forall.
Qed.

Lemma not_elem_others s p : Forall (λ f, s ∉ states (f_other f)) p → s ∉ others p.
Proof.
  induction 1 as [|f p Hf _ IH]; [unfold others; simpl; set_solver|].
  rewrite others_cons. set_solver.
Qed.

Lemma first_run_nil_others idx p : first_run idx p = [] → others (first_run idx p) = ∅.
Proof. by intros ->. Qed.

Lemma path_states s t p : path s t = Some p → Forall (λ f, states (f_other f) ⊆ states t) p.
Proof.
  revert p. induction t as [x|a idx l IHl r IHr]; intros p; simpl.
  - case_bool_decide; [|done]. intros [= <-]. constructor.
  - destruct (path s l) as [pl|]; [|destruct (path s r) as [pr|]; [|done]]; intros [= <-];
      [specialize (IHl _ eq_refl)|specialize (IHr _ eq_refl)];
      (apply Forall_app; split; [eapply Forall_impl; [done|simpl; set_solver]|];
       repeat constructor; simpl; set_solver).
Qed.
Lemma others_subseteq (X : gset sid) p :
  Forall (λ f, list_to_set (states (f_other f)) ⊆ X) p → others p ⊆ X.
Proof.
  induction 1 as [|f p Hf _ IH]; [unfold others; simpl; set_solver|]. rewrite others_cons. set_solver.
Qed.
(** Only states of the tree are pruned. *)
Lemma pruned_subseteq s idx t : pruned_set s idx (Some t) ⊆ list_to_set (states t).
Proof.
  simpl. destruct (path s t) as [p|] eqn:E; simpl; [|set_solver].
  apply others_subseteq, first_run_Forall. eapply Forall_impl; [by eapply path_states|]. simpl. set_solver.
Qed.

Lemma path_attached s t par p :
  path s t = Some p → (s, default par (f_addr <$> head p)) ∈ attached par t.
Proof.
  revert par p. induction t as [x|a idx l IHl r IHr]; intros par p; simpl.
  - case_bool_decide; [|done]. subst. intros [= <-]. simpl. set_solver.
  - destruct (path s l) as [pl|]; [|destruct (path s r) as [pr|]; [|done]]; intros [= <-];
      apply elem_of_app; [left; specialize (IHl a _ eq_refl)|right; specialize (IHr a _ eq_refl)].
    + by destruct pl.
    + by destruct pr.
Qed.

Lemma path_not_nil s t p : addr_of t ≠ None → path s t = Some p → p ≠ [].
Proof.
  destruct t; simpl; [done|]. intros _.
  destruct (path s t1); [|destruct (path s t2); [|done]]; intros [= <-] []%app_nil; done.
Qed.

Lemma size_pos_iff (X : gset sid) : (0 < size X)%nat ↔ X ≠ ∅.
Proof. rewrite <- leibniz_equiv_iff, <- size_empty_iff. lia. Qed.

Lemma repr_path b t s : repr_tree b t → s ∈ states t →
  ∃ f p, path s t = Some (f :: p) ∧ frames (nodes b) s None (f :: p) ∧
         state_parent b !! s = Some (f_addr f).
Proof.
  intros [Hroot Hfork Hrep Hsize Hna Hns Hpar] Hs.
  destruct (elem_path _ _ Hs) as [p Hp].
  destruct p as [|f p]; [by destruct (path_not_nil _ _ _ Hfork Hp)|]. exists f, p.
  split_and!; [done| |].
  - rewrite <- (app_nil_r (f :: p)). by eapply path_frames.
  - apply Hpar. apply (path_attached _ _ 0%nat _ Hp).
Qed.

Lemma findPrunedStates_tree b t s idx acc :
  repr_tree b t → s ∈ states t →
  findPrunedStates s idx acc b =
  Done (bool_decide (pruned_set s idx (Some t) ≠ ∅), pruned_set s idx (Some t) ∪ acc) b ∧
  s ∉ pruned_set s idx (Some t).
Proof.
  intros Hb Hs. destruct (repr_path _ _ _ Hb Hs) as (f & p & Hp & Hfr & Hpar).
  destruct Hb as [Hroot Hfork Hrep Hsize Hna _ _].
  pose proof (height_addrs t) as Hht.
  destruct (path_bounds _ _ _ Hp) as [Hlen Hall].
  assert (s ∉ pruned_set s idx (Some t)) as Hno.
  { simpl. rewrite Hp. simpl. apply not_elem_others, (first_run_Forall _ _ (f :: p)). by eapply frames_others. }
  split; [|done]. unfold findPrunedStates. rewrite (bind_done _ _ b b b) by done.
  rewrite bool_decide_false by (by rewrite Hroot). rewrite Hpar.
  erewrite bind_done; [|eapply backtrack_frames; [done|simpl in Hlen; lia|]].
  2: { eapply Forall_impl; [done|]. simpl. intros. lia. }
  rewrite (right_id_L ∅ (∪)). unfold pruned_set in *. rewrite Hp in *. cbn [from_option] in *.
  destruct (first_run idx (f :: p)) as [|g q] eqn:E.
  - change (others []) with (∅ : gset sid) in *. rewrite bool_decide_false  by (by intros []).
    by rewrite (left_id_L ∅ (∪)).
  - rewrite (bool_decide_true (s ∉ _)) by done. rewrite (bind_done _ _ b tt b) by done.
    unfold mret, M_ret. f_equal. f_equal. apply bool_decide_ext, size_pos_iff.
Qed.

(** ** Updates *)

Lemma plug_not s u t : s ∉ states t → plug s u t = t.
Proof.
  induction t as [x|a idx l IHl r IHr]; simpl.
  - intros Hs. rewrite bool_decide_false; [done|]. intros ->. simpl in Hs. set_solver.
  - intros [??]%not_elem_of_app. by rewrite IHl, IHr.
Qed.

Lemma elem_states_plug s u t x : s ∈ states t →
  NoDup (states t) → x ∈ states (plug s u t) ↔ (x ≠ s ∧ x ∈ states t) ∨ x ∈ states u.
Proof.
  induction t as [y|a idx l IHl r IHr]; simpl.
  - destruct y as [y|]; simpl; [|by intros ?%elem_of_nil].
    intros ->%list_elem_of_singleton _. rewrite bool_decide_true by done. set_solver.
  - intros [Hs|Hs]%elem_of_app (Hl & Hd & Hr)%NoDup_app; rewrite !elem_of_app.
    + rewrite (plug_not s u r) by (by apply Hd). rewrite IHl by done.
      assert (x = s → x ∉ states r) by (intros ->; by apply Hd). naive_solver.
    + rewrite (plug_not s u l) by (intros ?; by apply (Hd s)). rewrite IHr by done.
      assert (x = s → x ∉ states l) by (intros -> ?; by apply (Hd s)). naive_solver.
Qed.

Lemma NoDup_states_plug s u t : s ∈ states t → NoDup (states t) → NoDup (states u) →
  (∀ x, x ∈ states u → x = s ∨ x ∉ states t) → NoDup (states (plug s u t)).
Proof.
  intros Hs Ht Hu Hx. induction t as [y|a idx l IHl r IHr]; simpl in *.
  - by case_bool_decide.
  - apply elem_of_app in Hs. assert (Ht' := Ht). apply NoDup_app in Ht' as (Hl & Hd & Hr).
    destruct Hs as [Hs|Hs].
    + rewrite (plug_not s u r) by (by apply Hd). apply NoDup_app. split_and!; [|intros x|done].
      { apply IHl; [done..|]. intros x ?%Hx. set_solver. }
      rewrite elem_states_plug by done. intros [[??]|Hxu]; [by apply Hd|].
      destruct (Hx _ Hxu) as [->|]; [by apply Hd|set_solver].
    + rewrite (plug_not s u l) by (intros ?; by apply (Hd s)). apply NoDup_app. split_and!; [done|intros x Hxl|].
      * rewrite elem_states_plug by done. intros [[??]|Hxu]; [by apply (Hd x)|].
        destruct (Hx _ Hxu) as [->|]; [by apply (Hd s)|set_solver].
      * apply IHr; [done..|]. intros x ?%Hx. set_solver.
Qed.

Lemma addrs_plug s u t : s ∈ states t → NoDup (states t) → addrs (plug s u t) ≡ₚ addrs u ++ addrs t.
Proof.
  induction t as [y|a idx l IHl r IHr]; simpl.
  - destruct y as [y|]; simpl; [|by intros ?%elem_of_nil].
    intros ->%list_elem_of_singleton _. rewrite bool_decide_true by done. by rewrite app_nil_r.
  - intros [Hs|Hs]%elem_of_app (Hl & Hd & Hr)%NoDup_app.
    + rewrite (plug_not s u r) by (by apply Hd). rewrite IHl by done. solve_Permutation.
    + rewrite (plug_not s u l) by (intros ?; by apply (Hd s)). rewrite IHr by done. solve_Permutation.
Qed.

Lemma attached_plug s u t par p x a : (s, p) ∈ attached par t → NoDup (states t) →
  (x, a) ∈ attached par (plug s u t) ↔ (x ≠ s ∧ (x, a) ∈ attached par t) ∨ (x, a) ∈ attached p u.
Proof.
  revert par. induction t as [y|c idx l IHl r IHr]; intros par; simpl.
  - destruct y as [y|]; simpl; [|by intros ?%elem_of_nil].
    intros [= -> ->]%list_elem_of_singleton _. rewrite bool_decide_true by done. set_solver.
  - intros [Hs|Hs]%elem_of_app (Hl & Hd & Hr)%NoDup_app; rewrite !elem_of_app;
      assert (∀ t, (s, p) ∈ attached c t → s ∈ states t) as He
        by (intros t ?; apply (elem_states_attached t c); eauto).
    + rewrite (plug_not s u r) by (by apply Hd, He). rewrite IHl by done.
      assert (x = s → (x, a) ∉ attached c r).
      { intros -> ?. apply (Hd s); [by apply He|apply (elem_states_attached r c); eauto]. }
      naive_solver.
    + rewrite (plug_not s u l) by (intros ?; apply (Hd s); [done|by apply He]). rewrite IHr by done.
      assert (x = s → (x, a) ∉ attached c l).
      { intros -> ?. apply (Hd s); [apply (elem_states_attached l c); eauto|by apply He]. }
      naive_solver.
Qed.

Lemma leaf_addr_plug s u t : addr_of t ≠ None →
  leaf_of (plug s u t) = leaf_of t ∧ addr_of (plug s u t) = addr_of t.
Proof. by destruct t. Qed.

(** The heap after a leaf is replaced: only the node above it has changed. *)
Definition put_child (d : bool) (u : tree) (n : BranchNode) : BranchNode :=
  set_child d (leaf_of u) (addr_of u) n.

Lemma rep_plug h h' par t s u p n d :
  rep h par t → NoDup (addrs t) → NoDup (states t) → addr_of t ≠ None → (s, p) ∈ attached 0 t →
  h !! p = Some n → sel d (childStates n) = Some s → h' !! p = Some (put_child d u n) →
  (∀ a, a ∈ addrs t → a ≠ p → h' !! a = h !! a) → rep h' (Some p) u → rep h' par (plug s u t).
Proof.
  intros Hrep Hna Hns Hf Hat Hn Hsel Hn' Hh Hu.
  revert par Hrep Hat. generalize 0%nat.
  induction t as [x|a idx l IHl r IHr]; [done|]. intros c par (Ha & Hl & Hr).
  simpl in Hna, Hns. apply NoDup_cons in Hna as [[Hal Har]%not_elem_of_app (Hnl & Hd & Hnr)%NoDup_app].
  apply NoDup_app in Hns as (Hsl & Hsd & Hsr). simpl. rewrite elem_of_app.
  assert (∀ t, (s, p) ∈ attached a t → s ∈ states t) as He
    by (intros t ?; apply (elem_states_attached t a); eauto).
  intros [Hat|Hat].
  - rewrite (plug_not s u r) by (by apply Hsd, He).
    destruct (attached_addr _ _ _ _ Hat) as [[-> El]|Hp].
    + destruct l as [xl|]; [|done]. simpl in El. subst xl. rewrite Ha in Hn. simplify_eq.
      assert (d = false) as ->.
      { destruct d; [|done]. simpl in Hsel. destruct r; [|done]. simpl in Hsel. subst. simpl in Hsd.
        exfalso. apply (Hsd s); simpl; set_solver. }
      simpl. rewrite bool_decide_true by done. split_and!; [done|done|].
      eapply rep_frame; [|done]. intros b Hb. apply Hh; set_solver.
    + assert (a ≠ p) by (intros ->; done). assert (addr_of l ≠ None) as Hlf by (by destruct l; [apply elem_of_nil in Hp|]).
      destruct (leaf_addr_plug s u l Hlf) as [-> ->]. rewrite Hh by (done || set_solver).
      split_and!; [done| |].
      * eapply IHl; [done..|intros b ??; apply Hh; set_solver|done|done].
      * eapply rep_frame; [|done]. intros b Hb. apply Hh; [set_solver|]. intros ->. by apply (Hd p).
  - rewrite (plug_not s u l) by (intros ?; apply (Hsd s); [done|by apply He]).
    destruct (attached_addr _ _ _ _ Hat) as [[-> El]|Hp].
    + destruct r as [xr|]; [|done]. simpl in El. subst xr. rewrite Ha in Hn. simplify_eq.
      assert (d = true) as ->.
      { destruct d; [done|]. simpl in Hsel. destruct l; [|done]. simpl in Hsel. subst. simpl in Hsd.
        exfalso. apply (Hsd s); simpl; set_solver. }
      simpl. rewrite bool_decide_true by done. split_and!; [done| |done].
      eapply rep_frame; [|done]. intros b Hb. apply Hh; set_solver.
    + assert (a ≠ p) by (intros ->; done). assert (addr_of r ≠ None) as Hrf by (by destruct r; [apply elem_of_nil in Hp|]).
      destruct (leaf_addr_plug s u r Hrf) as [-> ->]. rewrite Hh by (done || set_solver).
      split_and!; [done| |].
      * eapply rep_frame; [|done]. intros b Hb. apply Hh; [set_solver|]. intros ->. by apply (Hd p).
      * eapply IHr; [done..|intros b ??; apply Hh; set_solver|done|done].
Qed.

(** The node a state hangs from and its side there. *)
Lemma repr_parent b t s : repr_tree b t → s ∈ states t →
  ∃ p n d, state_parent b !! s = Some p ∧ (s, p) ∈ attached 0 t ∧ nodes b !! p = Some n ∧
           sel d (childStates n) = Some s ∧ sel d (childBranches n) = None ∧
           sel (negb d) (childStates n) ≠ Some s.
Proof.
  intros Hb Hs. destruct (repr_path _ _ _ Hb Hs) as (f & p & Hp & (Hn & _ & Ho & _) & Hpar).
  do 2 eexists. exists (f_side f). split_and!; [done|by apply (rt_parent _ _ Hb)|done|..];
    simpl; destruct (f_side f); simpl; try done; intros E; apply Ho;
    (destruct (f_other f); simpl in *; [subst; simpl; set_solver|done]).
Qed.

Lemma lookup_set_parents {A} (m : gmap nat A) (s o x : nat) (a b : option A) :
  partial_alter (λ _, b) o (partial_alter (λ _, a) s m) !! x =
  if decide (x = o) then b else if decide (x = s) then a else m !! x.
Proof.
  destruct (decide (x = o)) as [->|]; [by rewrite lookup_partial_alter_eq|].
  rewrite lookup_partial_alter_ne by done.
  destruct (decide (x = s)) as [->|]; [by rewrite lookup_partial_alter_eq|].
  by rewrite lookup_partial_alter_ne.
Qed.

Lemma removeState_tree b t s :
  repr_tree b t → s ∈ states t →
  ∃ b', removeState s b = Done tt b' ∧ repr_tree b' (plug s (Leaf None) t).
Proof.
  intros Hb Hs. destruct (repr_parent _ _ _ Hb Hs) as (p & n & d & Hpar & Hat & Hn & Hd & Hbr & Hnd).
  destruct Hb as [Hroot Hfork Hrep Hsize Hna Hns Hp].
  assert (put_child d (Leaf None) n = mkBranchNode (dynInstrIdx n) (upd d None (childStates n))
            (childBranches n) (parentBranch n)) as Eput.
  { unfold put_child, set_child. simpl. f_equal. destruct (childBranches n), d; simpl in *; by subst. }
  exists (mkBranchTree (root b) (<[p := put_child d (Leaf None) n]> (nodes b)) (delete s (state_parent b))).
  split.
  - unfold removeState. rewrite (bind_done _ _ b b b) by done. rewrite bool_decide_false by (by rewrite Hroot).
    rewrite Hpar. rewrite bool_decide_true by done. rewrite (bind_done _ _ b tt b) by done.
    rewrite (bind_done _ _ b p b) by done. erewrite bind_done by (by apply load_done).
    rewrite Eput. destruct d; simpl in *.
    + rewrite bool_decide_false, (bool_decide_true (_.2 = _)) by done. done.
    + rewrite bool_decide_true by done. done.
  - destruct (leaf_addr_plug s (Leaf None) t Hfork) as [_ Ea]. constructor; simpl.
    + by rewrite Ea.
    + by rewrite Ea.
    + eapply rep_plug; [done..|by eapply list_lookup_insert_eq, lookup_lt_Some| |done].
      intros a _ Ha. by rewrite list_lookup_insert_ne.
    + rewrite length_insert, addrs_plug by done. done.
    + rewrite addrs_plug by done. done.
    + apply NoDup_states_plug; [done..|constructor|]. simpl. by intros x ?%elem_of_nil.
    + intros x a. rewrite attached_plug by done. simpl.
      destruct (decide (x = s)) as [->|].
      * rewrite lookup_delete_eq. split; [done|]. by intros [[]|?%elem_of_nil].
      * rewrite lookup_delete_ne, Hp by done. split; [by left|]. by intros [[]|?%elem_of_nil].
Qed.

Lemma addBranch_tree b t s idx o :
  repr_tree b t → s ∈ states t → o ∉ states t →
  ∃ b', addBranch s idx o b = Done tt b' ∧
        repr_tree b' (plug s (Fork (length (addrs t)) idx (Leaf (Some s)) (Leaf (Some o))) t).
Proof.
  intros Hb Hs Ho. destruct (repr_parent _ _ _ Hb Hs) as (p & n & d & Hpar & Hat & Hn & Hd & Hbr & Hnd).
  assert (Hpl := lookup_lt_Some _ _ _ Hn).
  destruct Hb as [Hroot Hfork Hrep Hsize Hna Hns Hp].
  set (c := length (addrs t)) in *. set (u := Fork c idx (Leaf (Some s)) (Leaf (Some o))).
  set (nw := mkBranchNode idx (Some s, Some o) (None, None) (Some p)).
  set (h' := <[p := put_child d u n]> (nodes b ++ [nw])).
  set (m' := partial_alter (λ _, Some c) o (partial_alter (λ _, Some c) s (state_parent b))).
  assert (s ≠ o) as Hso by (intros ->; done).
  exists (mkBranchTree (root b) h' m'). split.
  - unfold addBranch. rewrite (bind_done _ _ b b b) by done. rewrite bool_decide_false by (by rewrite Hroot).
    rewrite Hpar. set (b1 := mkBranchTree (root b) (nodes b ++ [nw]) (state_parent b)).
    assert (nodes b1 !! p = Some n) as Hn1 by (simpl; by rewrite lookup_app_l).
    rewrite (bind_done _ _ b tt (mkBranchTree (root b) h' m')); cycle 1.
    + rewrite (bind_done _ _ b c b1) by (unfold b1; by rewrite <- Hsize).
      rewrite bool_decide_true by done. rewrite (bind_done _ _ b1 tt b1) by done.
      rewrite (bind_done _ _ b1 p b1) by done. erewrite bind_done by (by apply load_done).
      destruct d; simpl in Hd, Hnd.
      * rewrite bool_decide_false, (bool_decide_true (_.2 = _)) by done. done.
      * rewrite bool_decide_true by done. done.
    + unfold mbind, M_bind, get. simpl. unfold m'. rewrite !lookup_set_parents.
      repeat case_decide; done.
  - destruct (leaf_addr_plug s u t Hfork) as [_ Ea].
    assert (∀ a, a ∈ addrs t → a ≠ c) as Hfresh.
    { intros a Ha ->. destruct (rep_addr _ _ _ _ Hrep Ha) as [? ?%lookup_lt_Some]. lia. }
    constructor; simpl.
    + by rewrite Ea.
    + by rewrite Ea.
    + eapply rep_plug; [done..|unfold h'; apply list_lookup_insert_eq; rewrite length_app; lia| |].
      * intros a Ha Hap. unfold h'. rewrite list_lookup_insert_ne by done.
        apply lookup_app_l. by destruct (rep_addr _ _ _ _ Hrep Ha) as [? ?%lookup_lt_Some].
      * simpl. split_and!; [|done|done]. unfold h'. rewrite list_lookup_insert_ne by lia.
        rewrite lookup_app_r by lia. by replace (c - length (nodes b))%nat with 0%nat by lia.
    + unfold h'. rewrite length_insert, addrs_plug by done. simpl. rewrite length_app. simpl. unfold c in *. lia.
    + rewrite addrs_plug by done. simpl. constructor; [intros ?%Hfresh; done|done].
    + apply NoDup_states_plug; [done..| |].
      * simpl. constructor; [|constructor; [by intros ?%elem_of_nil|constructor]]. set_solver.
      * simpl. intros x [->|Hx]%elem_of_cons; [by left|]. apply list_elem_of_singleton in Hx as ->. by right.
    + intros x a. rewrite attached_plug by done. unfold m'. rewrite lookup_set_parents. simpl.
      rewrite elem_of_cons, list_elem_of_singleton.
      assert (∀ a, (o, a) ∉ attached 0 t) by (intros a' ?; apply Ho, (elem_states_attached t 0); eauto).
      specialize (Hp x a). repeat case_decide; subst; naive_solver.
Qed.

(** ** Sequences of calls *)

Inductive call : Type :=
| AddBranch (s : sid) (idx : Z) (o : sid)
| RemoveState (s : sid)
| FindPruned (s : sid) (idx : Z) (acc : gset sid).

(** What the engine does with each answer: only [findPrunedStates] has one. *)
Definition exec_call (c : call) : M BranchTree (option (bool * gset sid)) :=
  match c with
  | AddBranch s idx o => addBranch s idx o;; mret None
  | RemoveState s => removeState s;; mret None
  | FindPruned s idx acc => r ← findPrunedStates s idx acc; mret (Some r)
  end.
Fixpoint exec_calls (cs : list call) : M BranchTree (list (option (bool * gset sid))) :=
  match cs with
  | [] => mret []
  | c :: cs => r ← exec_call c; rs ← exec_calls cs; mret (r :: rs)
  end.

(** The protocol of the engine ([None] is a call outside it) and the abstract
    answers: a fork is of a live state (of any state, the first time) and adds
    one that is not in the tree; the others are about live states, or come
    before the first branch, when they have no effect. *)
Definition spec_call (c : call) (t : option tree) : option (option (bool * gset sid) * option tree) :=
  match c with
  | AddBranch s idx o =>
    if bool_decide (o ∉ tree_states t ∧ o ≠ s ∧ (t = None ∨ s ∈ tree_states t))
    then Some (None, Some (branch_at s idx o (length (from_option addrs [] t)) t)) else None
  | RemoveState s =>
    if bool_decide (t = None ∨ s ∈ tree_states t) then Some (None, prune_at s t) else None
  | FindPruned s idx acc =>
    if bool_decide (t = None ∨ s ∈ tree_states t)
    then Some (Some (bool_decide (pruned_set s idx t ≠ ∅), pruned_set s idx t ∪ acc), t) else None
  end.
Fixpoint spec_calls (cs : list call) (t : option tree) :
    option (list (option (bool * gset sid)) * option tree) :=
  match cs with
  | [] => Some ([], t)
  | c :: cs =>
    '(r, t) ← spec_call c t; '(rs, t) ← spec_calls cs t; Some (r :: rs, t)
  end.

Lemma addBranch_first s idx o : o ≠ s →
  ∃ b', addBranch s idx o new_BranchTree = Done tt b' ∧
        repr_tree b' (Fork 0 idx (Leaf (Some s)) (Leaf (Some o))).
Proof.
  intros Hso.
  set (m := partial_alter (λ _, Some 0%nat) o (partial_alter (λ _, Some 0%nat) s (∅ : gmap sid nat))).
  exists (mkBranchTree (Some 0%nat) [mkBranchNode idx (Some s, Some o) (None, None) None] m). split.
  - unfold addBranch, mbind, M_bind, get. simpl. fold m. unfold m. rewrite !lookup_set_parents.
    repeat case_decide; done.
  - constructor; simpl; [done..| | |].
    + constructor; [by intros ?%elem_of_nil|constructor].
    + constructor; [set_solver|]. constructor; [by intros ?%elem_of_nil|constructor].
    + intros x a. unfold m. rewrite lookup_set_parents, elem_of_cons, list_elem_of_singleton.
      repeat case_decide; subst; naive_solver.
Qed.

Lemma exec_call_refines c b t r t' :
  repr b t → spec_call c t = Some (r, t') → ∃ b', exec_call c b = Done r b' ∧ repr b' t'.
Proof.
  intros Hb. destruct c as [s idx o|s|s idx acc]; simpl; case_bool_decide as H; try done; intros [= <- <-].
  - destruct H as (Ho & Hne & Hs). destruct t as [t|]; simpl in *.
    + destruct Hs as [|Hs]; [done|].
      destruct (addBranch_tree b t s idx o Hb Hs Ho) as (b' & E & Hb'). exists b'.
      split; [|done]. by erewrite bind_done by exact E.
    + subst b. destruct (addBranch_first s idx o Hne) as (b' & E & Hb'). exists b'.
      split; [|done]. by erewrite bind_done by exact E.
  - destruct t as [t|]; simpl in *.
    + destruct H as [|Hs]; [done|]. destruct (removeState_tree b t s Hb Hs) as (b' & E & Hb').
      exists b'. split; [|done]. by erewrite bind_done by exact E.
    + subst b. by exists new_BranchTree.
  - exists b. split; [|done]. destruct t as [t|]; simpl in H.
    + destruct H as [|Hs]; [done|]. destruct (findPrunedStates_tree b t s idx acc Hb Hs) as [E _].
      by erewrite bind_done by exact E.
    + simpl in Hb. subst b. unfold pruned_set. rewrite (bool_decide_false (_ ≠ _)) by (by intros []).
      by rewrite (left_id_L ∅ (∪)).
Qed.

(** C3: The branch tree refines its abstract value.  For every sequence of calls
    that follows the engine's protocol, the linked nodes end as a
    representation of the abstract tree, every call returns (no failed
    assertion, no abort, no invalid pointer, no endless loop), and the answers
    are those read off the abstract tree: the states beside the first run of
    branches with the given index on the path of the state. *)
Theorem branch_tree_refines (cs : list call) rs t' :
  spec_calls cs None = Some (rs, t') →
  ∃ b', exec_calls cs new_BranchTree = Done rs b' ∧ repr b' t'.
Proof.
  assert (∀ t b, repr b t → spec_calls cs t = Some (rs, t') →
          ∃ b', exec_calls cs b = Done rs b' ∧ repr b' t') as H; [|by apply H].
  revert rs. induction cs as [|c cs IH]; intros rs t b Hb; simpl.
  { intros [= <- <-]. by exists b. }
  destruct (spec_call c t) as [[r t1]|] eqn:Ec; [|done]. simpl.
  destruct (spec_calls cs t1) as [[rs1 t2]|] eqn:Ecs; [|done]. simpl. intros [= <- <-].
  destruct (exec_call_refines _ _ _ _ _ Hb Ec) as (b1 & E1 & Hb1).
  destruct (IH _ _ _ Hb1 Ecs) as (b2 & E2 & Hb2). exists b2. split; [|done].
  erewrite bind_done by exact E1. by erewrite bind_done by exact E2.
Qed.

(** Two forks of state 0 at the branches 5 and 7, then a fork of state 1 at 7;
    slicing the branch 5 away for state 2 prunes the other side of the root. *)
Lemma branch_tree_refines_witness :
  ∃ b', exec_calls [AddBranch 0 5 1; AddBranch 0 7 2; AddBranch 1 7 3; FindPruned 2 5 ∅;
                    RemoveState 3; FindPruned 2 5 {[ 9%nat ]}; FindPruned 2 6 ∅] new_BranchTree =
    Done [None; None; None; Some (true, {[ 1%nat; 3%nat ]}); None; Some (true, {[ 1%nat; 9%nat ]});
          Some (false, ∅)] b' ∧
    repr b' (Some (Fork 0 5 (Fork 1 7 (Leaf (Some 0%nat)) (Leaf (Some 2%nat)))
                            (Fork 2 7 (Leaf (Some 1%nat)) (Leaf None)))).
Proof. apply branch_tree_refines. vm_compute. reflexivity. Defined.
