(* ===== verification/Searcher.v ===== *)
(** * Searchers: which state runs next

    src/klee/lib/Core/Searcher.cpp and Searcher.h.  The class [Searcher] is the
    abstract class of the source; [SearcherSpec] is what the engine relies on:
    a searcher holds a set of states, selects one of them, and follows the
    engine's additions and removals.  The depth-first, random, interleaved,
    batching and iterative-deepening searchers are instances of [Searcher]; all
    but the last are instances of [SearcherSpec].

    The pseudo-random number of a selection and the decisions that depend on the
    clock are inputs ([env]).  The order in which a [std::set] of pointers is
    walked is the order of addresses, which the allocator decides: here it is
    that of [elements], and no theorem depends on it. *)
From stdpp Require Import fin_sets.
From S2P Require Import Prelude.

Abbreviation sid := nat.

Record env := mkEnv {
  rng : Z;                 (** [theRNG.getInt32()] *)
  budget_used : bool;      (** the batch's time or instruction budget is used up *)
  slice_used : bool        (** the time slice of a state is used up ([elapsed > time]) *)
}.

Class Searcher (S : Type) := {
  selectState : env → M S sid;
  update : env → option sid → gset sid → gset sid → M S unit;
  empty : S → bool
}.

Definition addState {S} `{Searcher S} (e : env) (es : sid) (current : option sid) : M S unit :=
  update e current {[ es ]} ∅.
Definition searcher_removeState {S} `{Searcher S} (e : env) (es : sid) (current : option sid) : M S unit :=
  update e current ∅ {[ es ]}.

(** What a searcher promises to the engine. *)
Class SearcherSpec (S : Type) `{Searcher S} := {
  held : S → gset sid;
  searcher_ok : S → Prop;
  select_spec e s : searcher_ok s → held s ≠ ∅ →
    wp (selectState e) (λ x s', x ∈ held s ∧ held s' = held s ∧ searcher_ok s') s;
  update_spec e c add rem s : searcher_ok s → add ## held s → rem ⊆ held s ∪ add →
    wp (update e c add rem) (λ _ s', held s' = (held s ∪ add) ∖ rem ∧ searcher_ok s') s;
  empty_spec s : searcher_ok s → empty s = bool_decide (held s = ∅)
}.

(** ** Vectors of states *)

(** The search loop of [update]: erase the first occurrence, [ok] tells whether
    there was one. *)
Fixpoint erase_first (es : sid) (l : list sid) : bool * list sid :=
  match l with
  | [] => (false, [])
  | x :: l =>
    if bool_decide (es = x) then (true, l)
    else let '(ok, l) := erase_first es l in (ok, x :: l)
  end.

Definition erase_checked (es : sid) : M (list sid) unit :=
  l ← get;
  let '(ok, l) := erase_first es l in
  put l;; c_assert ok.

Fixpoint for_each {S} (f : sid → M S unit) (l : list sid) : M S unit :=
  match l with [] => mret tt | x :: l => f x;; for_each f l end.

(** ** Depth first *)

Record DFSSearcher := mkDFS { dfs_states : list sid }.

Definition lift_dfs {A} : M (list sid) A → M DFSSearcher A :=
  zoom dfs_states (λ l _, mkDFS l).

(** [back()] of an empty vector is not defined. *)
Definition vec_back (l : list sid) : M (list sid) sid :=
  match last l with Some x => mret x | None => halt Undefined end.

Definition dfs_remove (es : sid) : M (list sid) unit :=
  l ← get;
  b ← vec_back l;
  if bool_decide (es = b) then put (take (pred (length l)) l) else erase_checked es.

Definition dfs_update (addedStates removedStates : gset sid) : M (list sid) unit :=
  modify (λ l, l ++ elements addedStates);;
  for_each dfs_remove (elements removedStates).

#[global] Instance dfs_searcher : Searcher DFSSearcher := {
  selectState _ := lift_dfs (l ← get; vec_back l);
  update _ _ added removed := lift_dfs (dfs_update added removed);
  empty s := bool_decide (dfs_states s = [])
}.

(** ** Random *)

Record RandomSearcher := mkRandom { rnd_states : list sid }.

Definition lift_rnd {A} : M (list sid) A → M RandomSearcher A :=
  zoom rnd_states (λ l _, mkRandom l).

(** [theRNG.getInt32() % states.size()]: the number is unsigned. *)
Definition rnd_select (e : env) : M (list sid) sid :=
  l ← get;
  if bool_decide (l = []) then halt Undefined
  else deref (l !! Z.to_nat (u32 (rng e) `mod` Z.of_nat (length l))).

Definition rnd_update (addedStates removedStates : gset sid) : M (list sid) unit :=
  modify (λ l, l ++ elements addedStates);;
  for_each erase_checked (elements removedStates).

#[global] Instance random_searcher : Searcher RandomSearcher := {
  selectState e := lift_rnd (rnd_select e);
  update _ _ added removed := lift_rnd (rnd_update added removed);
  empty s := bool_decide (rnd_states s = [])
}.

(** ** Batching: stay with a state until its budget is used *)

Record BatchingSearcher (S : Type) := mkBatching { bs_base : S; bs_last : option sid }.
Arguments mkBatching {S} _ _.
Arguments bs_base {S} _.
Arguments bs_last {S} _.

Section Wrappers.
Context {S : Type} `{Searcher S}.

Definition lift_batch {A} : M S A → M (BatchingSearcher S) A :=
  zoom bs_base (λ b s, mkBatching b (bs_last s)).

Definition batch_select (e : env) : M (BatchingSearcher S) sid :=
  s ← get;
  match bs_last s with
  | Some x =>
    if budget_used e then
      y ← lift_batch (selectState e);
      modify (λ s, mkBatching (bs_base s) (Some y));; mret y
    else mret x
  | None =>
    y ← lift_batch (selectState e);
    modify (λ s, mkBatching (bs_base s) (Some y));; mret y
  end.

Definition batch_update (e : env) (current : option sid) (added removed : gset sid) :
    M (BatchingSearcher S) unit :=
  s ← get;
  (match bs_last s with
   | Some x => if bool_decide (x ∈ removed) then put (mkBatching (bs_base s) None) else mret tt
   | None => mret tt
   end);;
  lift_batch (update e current added removed).

#[global] Instance batching_searcher : Searcher (BatchingSearcher S) := {
  selectState := batch_select;
  update := batch_update;
  empty s := empty (bs_base s)
}.
End Wrappers.

(** ** Interleaving: the searchers take turns *)

Record InterleavedSearcher (S : Type) := mkInterleaved { il_searchers : list S; il_index : Z }.
Arguments mkInterleaved {S} _ _.
Arguments il_searchers {S} _.
Arguments il_index {S} _.

Section Interleaved.
Context {S : Type} `{Searcher S}.

(** Run an operation of the i-th searcher. *)
Definition at_searcher {A} (i : nat) (m : M S A) : M (InterleavedSearcher S) A := λ s,
  match il_searchers s !! i with
  | None => Halt MemoryError s
  | Some b =>
    match m b with
    | Done a b => Done a (mkInterleaved (<[i := b]> (il_searchers s)) (il_index s))
    | Halt e b => Halt e (mkInterleaved (<[i := b]> (il_searchers s)) (il_index s))
    end
  end.

Definition new_InterleavedSearcher (l : list S) : InterleavedSearcher S := mkInterleaved l 1.

Definition il_select (e : env) : M (InterleavedSearcher S) sid :=
  s ← get;
  let index := u32 (il_index s - 1) in
  put (mkInterleaved (il_searchers s)
         (if index =? 0 then u32 (Z.of_nat (length (il_searchers s))) else index));;
  at_searcher (Z.to_nat index) (selectState e).

Fixpoint update_from (e : env) (current : option sid) (added removed : gset sid) (i n : nat) :
    M (InterleavedSearcher S) unit :=
  match n with
  | O => mret tt
  | Datatypes.S n =>
    at_searcher i (update e current added removed);;
    update_from e current added removed (Datatypes.S i) n
  end.

Definition il_update (e : env) (current : option sid) (added removed : gset sid) :
    M (InterleavedSearcher S) unit :=
  s ← get; update_from e current added removed 0 (length (il_searchers s)).

(** [searchers[0]->empty()]. *)
Definition il_empty (s : InterleavedSearcher S) : bool :=
  match il_searchers s with b :: _ => empty b | [] => true end.

#[global] Instance interleaved_searcher : Searcher (InterleavedSearcher S) := {
  selectState := il_select;
  update := il_update;
  empty := il_empty
}.
End Interleaved.

(** ** Iterative deepening by time *)

Record IterativeDeepeningTimeSearcher (S : Type) := mkIter { it_base : S; it_paused : gset sid }.
Arguments mkIter {S} _ _.
Arguments it_base {S} _.
Arguments it_paused {S} _.

Section Deepening.
Context {S : Type} `{Searcher S}.

Definition lift_iter {A} : M S A → M (IterativeDeepeningTimeSearcher S) A :=
  zoom it_base (λ b s, mkIter b (it_paused s)).

(** The loop over the removed states erases from [pausedStates] at an iterator of
    [removedStates], an iterator of another container: not defined. *)
Definition it_unpause (es : sid) : M (IterativeDeepeningTimeSearcher S) unit :=
  s ← get;
  if bool_decide (es ∈ it_paused s) then halt Undefined else mret tt.

Definition it_update (e : env) (current : option sid) (added removed : gset sid) :
    M (IterativeDeepeningTimeSearcher S) unit :=
  (if bool_decide (removed ≠ ∅) then
     for_each it_unpause (elements removed);;
     lift_iter (update e current added removed)
   else lift_iter (update e current added removed));;
  (match current with
   | Some c =>
     if bool_decide (c ∉ removed) && slice_used e then
       modify (λ s, mkIter (it_base s) ({[ c ]} ∪ it_paused s));;
       lift_iter (searcher_removeState e c None)
     else mret tt
   | None => mret tt
   end);;
  s ← get;
  if empty (it_base s) then
    lift_iter (update e None (it_paused s) ∅);;
    modify (λ s, mkIter (it_base s) ∅)
  else mret tt.

#[global] Instance deepening_searcher : Searcher (IterativeDeepeningTimeSearcher S) := {
  selectState e := lift_iter (selectState e);
  update := it_update;
  empty s := empty (it_base s) && bool_decide (it_paused s = ∅)
}.
End Deepening.

(** ** The searchers keep their promise
    Instances of [SearcherSpec] for the depth-first, random, batching and
    interleaved searchers, and the behaviour of iterative deepening when a
    paused state is removed. *)
(** ** Erasing from a vector *)

Lemma erase_first_in es l : es ∈ l → ∃ l1 l2, l = l1 ++ es :: l2 ∧ erase_first es l = (true, l1 ++ l2).
Proof.
  induction l as [|x l IH]; [by intros ?%elem_of_nil|]. intros Hin. simpl.
  case_bool_decide as E.
  - subst x. by exists [], l.
  - apply elem_of_cons in Hin as [|Hin]; [done|]. destruct (IH Hin) as (l1 & l2 & -> & ->).
    by exists (x :: l1), l2.
Qed.

Lemma erase_checked_wp es l : NoDup l → es ∈ l →
  wp (erase_checked es) (λ _ l', NoDup l' ∧ list_to_set l' =@{gset sid} list_to_set l ∖ {[ es ]}) l.
Proof.
  intros Hnd Hin. destruct (erase_first_in _ _ Hin) as (l1 & l2 & -> & E).
  unfold wp, erase_checked, mbind, M_bind, get. rewrite E. simpl.
  apply NoDup_app in Hnd as (H1 & H2 & H3). apply NoDup_cons in H3 as [H3 H4].
  split.
  - apply NoDup_app. set_solver.
  - rewrite !list_to_set_app_L, list_to_set_cons. set_solver.
Qed.

Lemma dfs_remove_wp es l : NoDup l → es ∈ l →
  wp (dfs_remove es) (λ _ l', NoDup l' ∧ list_to_set l' =@{gset sid} list_to_set l ∖ {[ es ]}) l.
Proof.
  intros Hnd Hin. unfold dfs_remove. apply wp_bind. unfold wp at 1, get.
  destruct l as [|b l _] using rev_ind; [by apply elem_of_nil in Hin|].
  apply wp_bind. unfold wp at 1, vec_back. rewrite last_snoc. unfold mret, M_ret.
  case_bool_decide as E; [|by apply erase_checked_wp].
  subst. unfold wp, put. rewrite length_app. simpl. replace (pred (length l + 1)) with (length l) by lia.
  rewrite take_app_length. apply NoDup_app in Hnd as (H1 & H2 & H3).
  split; [done|]. rewrite list_to_set_app_L. simpl. set_solver.
Qed.

(** A loop that erases distinct elements of the vector, by any erasing step. *)
Lemma erase_loop_wp (f : sid → M (list sid) unit) rem l :
  (∀ es l, NoDup l → es ∈ l →
     wp (f es) (λ _ l', NoDup l' ∧ list_to_set l' =@{gset sid} list_to_set l ∖ {[ es ]}) l) →
  NoDup l → NoDup rem → rem ⊆ l →
  wp (for_each f rem) (λ _ l', NoDup l' ∧ list_to_set l' =@{gset sid} list_to_set l ∖ list_to_set rem) l.
Proof.
  intros Hf. revert l. induction rem as [|x rem IH]; intros l Hl Hr Hsub; simpl.
  { apply wp_ret. split; [done|]. set_solver. }
  apply NoDup_cons in Hr as [Hx Hr]. apply wp_bind.
  eapply wp_mono; [apply Hf; [done|apply Hsub; set_solver]|]. simpl. intros _ l' [Hl' E].
  assert (rem ⊆ l') as Hsub'.
  { intros y Hy. apply (elem_of_list_to_set (C:=gset sid)). rewrite E. set_solver. }
  eapply wp_mono; [by apply IH|]. simpl. intros _ l'' [? ->]. rewrite E. split; [done|]. set_solver.
Qed.

Lemma vector_update_wp (f : sid → M (list sid) unit) (add rem : gset sid) l :
  (∀ es l, NoDup l → es ∈ l →
     wp (f es) (λ _ l', NoDup l' ∧ list_to_set l' =@{gset sid} list_to_set l ∖ {[ es ]}) l) →
  NoDup l → add ## list_to_set l → rem ⊆ list_to_set l ∪ add →
  wp (modify (λ l, l ++ elements add);; for_each f (elements rem))
    (λ _ l', list_to_set l' = (list_to_set l ∪ add) ∖ rem ∧ NoDup l') l.
Proof.
  intros Hf Hl Hd Hs. apply wp_bind. unfold wp at 1, modify.
  assert (NoDup (l ++ elements add)).
  { apply NoDup_app. split_and!; [done| |apply NoDup_elements]. intros x Hx Ha%elem_of_elements. set_solver. }
  eapply wp_mono; [apply erase_loop_wp; [done|done|apply NoDup_elements|]|].
  - intros x Hx%elem_of_elements. apply elem_of_app. apply Hs in Hx. set_solver.
  - simpl. intros _ l' [? ->]. split; [|done]. rewrite list_to_set_app_L, !list_to_set_elements_L. done.
Qed.

(** ** The instances *)

#[global] Program Instance dfs_spec : SearcherSpec DFSSearcher := {
  held s := list_to_set (dfs_states s);
  searcher_ok s := NoDup (dfs_states s)
}.
Next Obligation.
  intros e [l] Hl Hne. apply wp_zoom. simpl in *. unfold wp, mbind, M_bind, get, vec_back.
  destruct l as [|b l _] using rev_ind; [done|]. rewrite last_snoc. simpl. rewrite list_to_set_app_L. set_solver.
Qed.
Next Obligation.
  intros e c add rem [l] Hl Hd Hs. apply wp_zoom.
  eapply wp_mono; [apply vector_update_wp; [apply dfs_remove_wp|done..]|done].
Qed.
Next Obligation.
  intros [l] _. simpl. apply bool_decide_ext. destruct l; simpl; [set_solver|].
  split; [done|]. set_solver.
Qed.

#[global] Program Instance random_spec : SearcherSpec RandomSearcher := {
  held s := list_to_set (rnd_states s);
  searcher_ok s := NoDup (rnd_states s)
}.
Next Obligation.
  intros e [l] Hl Hne. apply wp_zoom. simpl in *. unfold wp, rnd_select, mbind, M_bind, get.
  rewrite bool_decide_false by (intros ->; done).
  assert (0 < Z.of_nat (length l)) by (destruct l; simpl; [done|lia]).
  pose proof (Z.mod_pos_bound (u32 (rng e)) (Z.of_nat (length l))).
  destruct (lookup_lt_is_Some_2 l (Z.to_nat (u32 (rng e) `mod` Z.of_nat (length l)))) as [x Hx]; [lia|].
  rewrite Hx. simpl. split; [|done]. apply elem_of_list_to_set. by eapply list_elem_of_lookup_2.
Qed.
Next Obligation.
  intros e c add rem [l] Hl Hd Hs. apply wp_zoom.
  eapply wp_mono; [apply vector_update_wp; [apply erase_checked_wp|done..]|done].
Qed.
Next Obligation.
  intros [l] _. simpl. apply bool_decide_ext. destruct l; simpl; [set_solver|].
  split; [done|]. set_solver.
Qed.

Section Batching.
Context {S : Type} `{SearcherSpec S}.

(** The batching searcher also promises that the state it stays with is held. *)
#[global] Program Instance batching_spec : SearcherSpec (BatchingSearcher S) := {
  held s := held (bs_base s);
  searcher_ok s := searcher_ok (bs_base s) ∧ (∀ x, bs_last s = Some x → x ∈ held (bs_base s))
}.
Next Obligation.
  intros e [b o] [Hb Ho] Hne. simpl in *.
  assert (wp (y ← lift_batch (selectState e);
              modify (λ s, mkBatching (bs_base s) (Some y));; mret y)
            (λ x s', x ∈ held b ∧ held (bs_base s') = held b ∧
               searcher_ok (bs_base s') ∧ ∀ x, bs_last s' = Some x → x ∈ held (bs_base s'))
            (mkBatching b o)) as Hsel.
  { apply wp_bind, wp_zoom. eapply wp_mono; [by apply select_spec|]. simpl.
    intros x b' (Hx & E & Hb'). unfold wp. simpl. split_and!; [done|done|done|]. intros ? [= <-]. by rewrite E. }
  unfold batch_select. apply wp_bind. unfold wp at 1, get. simpl.
  destruct o as [x|]; [destruct (budget_used e)|]; [done| |done].
  apply wp_ret. simpl. auto.
Qed.
Next Obligation.
  intros e c add rem [b o] [Hb Ho] Hd Hs. simpl in *.
  apply wp_bind. unfold wp at 1, get. simpl. apply wp_bind.
  assert (∀ o', (∀ x, o' = Some x → x ∈ held b ∧ x ∉ rem) →
    wp (lift_batch (update e c add rem)) (λ _ s', held (bs_base s') = (held b ∪ add) ∖ rem ∧
      searcher_ok (bs_base s') ∧ ∀ x, bs_last s' = Some x → x ∈ held (bs_base s')) (mkBatching b o')) as Hup.
  { intros o' Ho'. apply wp_zoom. simpl. eapply wp_mono; [by apply update_spec|]. simpl.
    intros _ b' [E Hb']. split_and!; [done|done|]. intros x Hx. rewrite E. apply Ho' in Hx. set_solver. }
  destruct o as [x|]; [case_bool_decide|].
  - apply (Hup None). done.
  - apply (Hup (Some x)). intros ? [= <-]. auto.
  - apply (Hup None). done.
Qed.
Next Obligation. intros [b o] [Hb _]. simpl in *. by apply (empty_spec b). Qed.
End Batching.

Section Interleaved.
Context {S : Type} `{SearcherSpec S}.

(** All searchers hold the same states and the turn is one of theirs. *)
Record il_ok (s : InterleavedSearcher S) (X : gset sid) : Prop := {
  il_same : Forall (λ b, searcher_ok b ∧ held b = X) (il_searchers s);
  il_turn : 1 ≤ il_index s ≤ Z.of_nat (length (il_searchers s));
  il_bound : Z.of_nat (length (il_searchers s)) < 2 ^ 32
}.

Lemma at_searcher_wp {A} i (m : M S A) b s (Q : A → InterleavedSearcher S → Prop) :
  il_searchers s !! i = Some b →
  wp m (λ a b', Q a (mkInterleaved (<[i := b']> (il_searchers s)) (il_index s))) b →
  wp (at_searcher i m) Q s.
Proof. intros E. unfold wp, at_searcher. rewrite E. by destruct (m b). Qed.

Definition il_held (s : InterleavedSearcher S) : gset sid :=
  match il_searchers s with b :: _ => held b | [] => ∅ end.

Lemma il_ok_held s X : il_ok s X → il_held s = X.
Proof.
  intros [Hs Ht _]. unfold il_held. destruct (il_searchers s) as [|b l]; [simpl in Ht; lia|].
  by apply Forall_cons in Hs as [[_ ?] _].
Qed.

Lemma update_from_wp e c add rem X n i s :
  (i + n = length (il_searchers s))%nat → add ## X → rem ⊆ X ∪ add →
  1 ≤ il_index s ≤ Z.of_nat (length (il_searchers s)) → Z.of_nat (length (il_searchers s)) < 2 ^ 32 →
  Forall (λ b, searcher_ok b ∧ held b = (X ∪ add) ∖ rem) (take i (il_searchers s)) →
  Forall (λ b, searcher_ok b ∧ held b = X) (drop i (il_searchers s)) →
  wp (update_from e c add rem i n) (λ _ s', il_ok s' ((X ∪ add) ∖ rem)) s.
Proof.
  revert i s. induction n as [|n IH]; intros i s Hlen Hd Hs Ht Hb Hpre Hpost; simpl.
  { apply wp_ret. constructor; [|done|done]. by rewrite take_ge in Hpre by lia. }
  destruct (lookup_lt_is_Some_2 (il_searchers s) i) as [b Eb]; [lia|].
  rewrite (drop_S _ _ _ Eb) in Hpost. apply Forall_cons in Hpost as [[Hok Hh] Hpost].
  apply wp_bind. eapply at_searcher_wp; [done|].
  eapply wp_mono; [apply update_spec; [done|by rewrite Hh..]|]. simpl. intros _ b' [Eh Hok'].
  apply IH; simpl; rewrite ?length_insert; [lia|done..| |].
  - rewrite (take_S_r _ _ b') by (apply list_lookup_insert_eq; lia).
    rewrite take_insert_ge by lia. apply Forall_app. split; [done|]. rewrite Hh in Eh. by repeat constructor.
  - by rewrite drop_insert_lt by lia.
Qed.

#[global] Program Instance interleaved_spec : SearcherSpec (InterleavedSearcher S) := {
  held := il_held;
  searcher_ok s := ∃ X, il_ok s X
}.
Next Obligation.
  intros e s [X Hok] Hne. rewrite (il_ok_held _ _ Hok) in *. destruct Hok as [Hs Ht Hb].
  unfold selectState, interleaved_searcher, il_select. apply wp_bind. unfold wp at 1, get.
  apply wp_bind. unfold wp at 1, put.
  rewrite (wrapu_small 32 (il_index s - 1)), (wrapu_small 32 (Z.of_nat _)) by lia.
  destruct (lookup_lt_is_Some_2 (il_searchers s) (Z.to_nat (il_index s - 1))) as [b Eb]; [lia|].
  assert (Forall (λ b, searcher_ok b ∧ held b = X) (il_searchers s)) as Hs' by done.
  rewrite Forall_lookup in Hs'. destruct (Hs' _ _ Eb) as [Hokb Ehb].
  eapply at_searcher_wp; [done|]. eapply wp_mono; [apply select_spec; [done|by rewrite Ehb]|].
  simpl. intros x b' (Hx & Eh & Hok').
  assert (il_ok (mkInterleaved (<[Z.to_nat (il_index s - 1) := b']> (il_searchers s))
            (if il_index s - 1 =? 0 then Z.of_nat (length (il_searchers s)) else il_index s - 1)) X) as Hok.
  { constructor; simpl; rewrite ?length_insert; [|destruct (Z.eqb_spec (il_index s - 1) 0); lia|done].
    apply Forall_insert; [done|]. split; [done|]. by rewrite Eh. }
  rewrite (il_ok_held _ _ Hok). split_and!; [by rewrite <- Ehb|done|eauto].
Qed.
Next Obligation.
  intros e c add rem s [X Hok] Hd Hsub. rewrite (il_ok_held _ _ Hok) in *. destruct Hok as [Hs Ht Hb].
  unfold update, interleaved_searcher, il_update. apply wp_bind. unfold wp at 1, get.
  eapply wp_mono; [apply (update_from_wp _ _ _ _ X); [done..|by constructor|done]|].
  simpl. intros _ s' Hs'. split; [by apply il_ok_held|eauto].
Qed.
Next Obligation.
  intros s [X [Hs Ht _]]. unfold empty, interleaved_searcher, il_empty, il_held.
  destruct (il_searchers s) as [|b l]; [simpl in Ht; lia|].
  apply Forall_cons in Hs as [[? ?] _]. by apply empty_spec.
Qed.
End Interleaved.

(** Iterative deepening does not keep the promise: when a state it has paused is
    terminated, the update walks into undefined behaviour. *)
Lemma deepening_paused_undefined {S} `{Searcher S} e c add (x : sid) (s : IterativeDeepeningTimeSearcher S) :
  x ∈ it_paused s → update e c add {[ x ]} s = Halt Undefined s.
Proof.
  intros Hx. unfold update, deepening_searcher, it_update.
  assert (for_each it_unpause (elements ({[ x ]} : gset sid)) s = Halt Undefined s) as E.
  { rewrite elements_singleton. simpl. apply bind_halt. unfold it_unpause, mbind, M_bind, get.
    by rewrite bool_decide_true. }
  apply bind_halt. rewrite bool_decide_true by set_solver. by apply bind_halt.
Qed.
