(* ===== verification/PTree.v ===== *)
(** * The process tree

    src/klee/lib/Core/PTree.cpp and PTree.h: the binary tree of forks.  A leaf
    holds a state; when a state ends its leaf is deleted, and so are the
    ancestors that are left without children.  [RandomPathSearcher] (of
    Searcher.cpp) walks it from the root to pick a state.

    Nodes are allocated and deleted: the heap is a finite map, an access to a
    deleted node is a memory error. *)
From stdpp Require Import fin_sets.
From S2P Require Import Prelude.

Abbreviation sid := nat.

Record PTreeNode := mkPTreeNode {
  pt_parent : option nat;
  pt_left : option nat;
  pt_right : option nat;
  pt_data : option sid
}.

Record PTree := mkPTree {
  pt_root : nat;
  pt_heap : gmap nat PTreeNode;
  pt_next : nat           (** the next address the allocator gives *)
}.

(** [PTreeNode::PTreeNode]. *)
Definition new_PTreeNode (parent : option nat) (data : option sid) : PTreeNode :=
  mkPTreeNode parent None None data.

(** [PTree::PTree]. *)
Definition new_PTree (data : sid) : PTree :=
  mkPTree 0 {[ 0%nat := new_PTreeNode None (Some data) ]} 1.

Definition pt_load (a : nat) : M PTree PTreeNode := t ← get; deref (pt_heap t !! a).
Definition pt_store (a : nat) (n : PTreeNode) : M PTree unit :=
  modify (λ t, mkPTree (pt_root t) (<[a := n]> (pt_heap t)) (pt_next t)).
Definition pt_new (n : PTreeNode) : M PTree nat :=
  t ← get;
  put (mkPTree (pt_root t) (<[pt_next t := n]> (pt_heap t)) (S (pt_next t)));;
  mret (pt_next t).
(** [delete n]: of a live node. *)
Definition pt_delete (a : nat) : M PTree unit :=
  _ ← pt_load a;
  modify (λ t, mkPTree (pt_root t) (delete a (pt_heap t)) (pt_next t)).

Definition set_left (p : option nat) (n : PTreeNode) : PTreeNode :=
  mkPTreeNode (pt_parent n) p (pt_right n) (pt_data n).
Definition set_right (p : option nat) (n : PTreeNode) : PTreeNode :=
  mkPTreeNode (pt_parent n) (pt_left n) p (pt_data n).
(** [node->data = d]. *)
Definition set_data (a : nat) (d : option sid) : M PTree unit :=
  n ← pt_load a;
  pt_store a (mkPTreeNode (pt_parent n) (pt_left n) (pt_right n) d).

Definition childless (n : PTreeNode) : bool :=
  bool_decide (pt_left n = None) && bool_decide (pt_right n = None).

Definition split (n : nat) (leftData rightData : sid) : M PTree (nat * nat) :=
  nd ← pt_load n;
  c_assert (childless nd);;
  l ← pt_new (new_PTreeNode (Some n) (Some leftData));
  nd ← pt_load n; pt_store n (set_left (Some l) nd);;
  r ← pt_new (new_PTreeNode (Some n) (Some rightData));
  nd ← pt_load n; pt_store n (set_right (Some r) nd);;
  mret (l, r).

(** The do-while loop of [remove]. *)
Fixpoint remove_loop (fuel : nat) (n : nat) : M PTree unit :=
  match fuel with
  | O => halt NoFuel
  | S fuel =>
    nd ← pt_load n;
    let p := pt_parent nd in
    pt_delete n;;
    match p with
    | None => mret tt
    | Some a =>
      pd ← pt_load a;
      (if bool_decide (pt_left pd = Some n) then pt_store a (set_left None pd)
       else c_assert (bool_decide (pt_right pd = Some n));; pt_store a (set_right None pd));;
      pd ← pt_load a;
      if childless pd then remove_loop fuel a else mret tt
    end
  end.

Definition remove (n : nat) : M PTree unit :=
  nd ← pt_load n;
  c_assert (childless nd);;
  t ← get;
  remove_loop (size (pt_heap t)) n.

(** [RandomPathSearcher::selectState]: at a node with two children a bit of a
    32-bit random number decides ([words] are the numbers drawn, [w] counts
    them).  A NULL child is followed like the code follows it. *)
Fixpoint random_path (fuel : nat) (words : nat → Z) (w : nat) (flips bits : Z) (n : option nat) :
    M PTree sid :=
  match fuel with
  | O => halt NoFuel
  | S fuel =>
    a ← deref n;
    nd ← pt_load a;
    match pt_data nd with
    | Some s => mret s
    | None =>
      if bool_decide (pt_left nd = None) then random_path fuel words w flips bits (pt_right nd)
      else if bool_decide (pt_right nd = None) then random_path fuel words w flips bits (pt_left nd)
      else
        let '(w, flips, bits) := if bits =? 0 then (S w, words w, 32) else (w, flips, bits) in
        let bits := bits - 1 in
        random_path fuel words w flips bits
          (if testflag flips (Z.shiftl 1 bits) then pt_left nd else pt_right nd)
    end
  end.

Definition random_path_select (words : nat → Z) : M PTree sid :=
  t ← get;
  random_path (S (size (pt_heap t))) words 0 0 0 (Some (pt_root t)).

(** ** What the process tree promises
    The abstract value is a binary tree; a position in it is a path of frames
    (a zipper).  [split] and [remove] are shown to act on the leaf of a state
    and to keep the shape: a leaf holds a state, an inner node has a child.
    That shape is what the random walk of [RandomPathSearcher] needs. *)
Inductive pt : Type :=
| PEmpty
| PNode (a : nat) (d : option sid) (l r : pt).

Definition paddr (t : pt) : option nat := match t with PEmpty => None | PNode a _ _ _ => Some a end.
Abbreviation pleaf a s := (PNode a (Some s) PEmpty PEmpty).

Fixpoint paddrs (t : pt) : list nat :=
  match t with PEmpty => [] | PNode a _ l r => a :: paddrs l ++ paddrs r end.
(** The states with the address of their leaf. *)
Fixpoint leaves (t : pt) : list (sid * nat) :=
  match t with
  | PEmpty => []
  | PNode a d l r => option_list ((λ s, (s, a)) <$> d) ++ leaves l ++ leaves r
  end.

Fixpoint prep (h : gmap nat PTreeNode) (par : option nat) (t : pt) : Prop :=
  match t with
  | PEmpty => True
  | PNode a d l r =>
    h !! a = Some (mkPTreeNode par (paddr l) (paddr r) d) ∧ prep h (Some a) l ∧ prep h (Some a) r
  end.

(** The shape. *)
Fixpoint wf (t : pt) : Prop :=
  match t with
  | PEmpty => True
  | PNode _ (Some _) l r => l = PEmpty ∧ r = PEmpty
  | PNode _ None l r => (l ≠ PEmpty ∨ r ≠ PEmpty) ∧ wf l ∧ wf r
  end.

Record ptree_repr (p : PTree) (t : pt) : Prop := {
  pr_rep : prep (pt_heap p) None t;
  pr_wf : wf t;
  pr_addrs : NoDup (paddrs t);
  pr_dom : dom (pt_heap p) = list_to_set (paddrs t);
  pr_next a : a ∈ paddrs t → (a < pt_next p)%nat;
  pr_root : t ≠ PEmpty → paddr t = Some (pt_root p);
  pr_leaves : NoDup (leaves t).*1
}.

(** ** Zippers *)

Record pframe := mkPFrame { pf_addr : nat; pf_side : bool; pf_other : pt }.

Definition pnode_of (f : pframe) (t : pt) : pt :=
  if pf_side f then PNode (pf_addr f) None (pf_other f) t
  else PNode (pf_addr f) None t (pf_other f).
Fixpoint pzip (fs : list pframe) (t : pt) : pt :=
  match fs with [] => t | f :: fs => pzip fs (pnode_of f t) end.

Definition ctx_addr (fs : list pframe) : option nat := pf_addr <$> head fs.
Definition ctx_addrs (fs : list pframe) : list nat :=
  concat ((λ f, pf_addr f :: paddrs (pf_other f)) <$> fs).
Definition ctx_leaves (fs : list pframe) : list (sid * nat) :=
  concat ((λ f, leaves (pf_other f)) <$> fs).

Definition frame_node (f : pframe) (par c : option nat) : PTreeNode :=
  mkPTreeNode par (if pf_side f then paddr (pf_other f) else c)
    (if pf_side f then c else paddr (pf_other f)) None.
(** The nodes of the frames, with [c] the child at the position. *)
Fixpoint pctx (h : gmap nat PTreeNode) (c : option nat) (fs : list pframe) : Prop :=
  match fs with
  | [] => True
  | f :: fs =>
    h !! pf_addr f = Some (frame_node f (ctx_addr fs) c) ∧
    prep h (Some (pf_addr f)) (pf_other f) ∧ pctx h (Some (pf_addr f)) fs
  end.

Lemma prep_zip h fs t : prep h None (pzip fs t) ↔ prep h (ctx_addr fs) t ∧ pctx h (paddr t) fs.
Proof.
  revert t. induction fs as [|f fs IH]; intros t; simpl; [tauto|].
  rewrite IH. unfold pnode_of, frame_node. destruct (pf_side f); simpl; naive_solver.
Qed.

Lemma paddrs_zip fs t : paddrs (pzip fs t) ≡ₚ paddrs t ++ ctx_addrs fs.
Proof.
  revert t. induction fs as [|f fs IH]; intros t; [by rewrite app_nil_r|]. simpl. rewrite IH.
  unfold pnode_of, ctx_addrs. destruct (pf_side f); simpl; solve_Permutation.
Qed.

Lemma leaves_zip fs t : leaves (pzip fs t) ≡ₚ leaves t ++ ctx_leaves fs.
Proof.
  revert t. induction fs as [|f fs IH]; intros t; [by rewrite app_nil_r|]. simpl. rewrite IH.
  unfold pnode_of, ctx_leaves. destruct (pf_side f); simpl; solve_Permutation.
Qed.

Lemma wf_zip fs t : t ≠ PEmpty → wf (pzip fs t) ↔ wf t ∧ Forall (λ f, wf (pf_other f)) fs.
Proof.
  revert t. induction fs as [|f fs IH]; intros t Ht; simpl.
  { split; [|tauto]. intros ?. by split; [|constructor]. }
  rewrite IH by (unfold pnode_of; by destruct (pf_side f)). rewrite Forall_cons.
  unfold pnode_of. destruct (pf_side f); simpl; tauto.
Qed.

(** The leaf of a state is at the end of some path. *)
Lemma leaf_zip s a t : wf t → (s, a) ∈ leaves t → ∃ fs, t = pzip fs (pleaf a s).
Proof.
  assert (∀ t, wf t → (s, a) ∈ leaves t → ∀ gs, ∃ fs, pzip gs t = pzip fs (pleaf a s)) as H.
  { clear. induction t as [|c d l IHl r IHr]; intros Hwf Hin gs; [by apply elem_of_nil in Hin|].
    simpl in Hin. destruct d as [x|]; simpl in *.
    - destruct Hwf as [-> ->]. simpl in Hin. apply list_elem_of_singleton in Hin. simplify_eq. by exists gs.
    - destruct Hwf as (_ & Hl & Hr). apply elem_of_app in Hin as [Hin|Hin].
      + by destruct (IHl Hl Hin (mkPFrame c false r :: gs)) as [fs E]; exists fs.
      + by destruct (IHr Hr Hin (mkPFrame c true l :: gs)) as [fs E]; exists fs. }
  intros Hwf Hin. by destruct (H t Hwf Hin []) as [fs E]; exists fs.
Qed.

Lemma prep_frame h h' par t : (∀ a, a ∈ paddrs t → h' !! a = h !! a) → prep h par t → prep h' par t.
Proof.
  revert par. induction t as [|a d l IHl r IHr]; intros par Hh; [done|]. simpl.
  intros (Ha & Hl & Hr). rewrite Hh by (simpl; set_solver). split_and!; [done| |].
  - apply IHl; [|done]. intros c Hc. apply Hh. simpl. set_solver.
  - apply IHr; [|done]. intros c Hc. apply Hh. simpl. set_solver.
Qed.

Lemma pctx_frame h h' c fs : (∀ a, a ∈ ctx_addrs fs → h' !! a = h !! a) → pctx h c fs → pctx h' c fs.
Proof.
  revert c. induction fs as [|f fs IH]; intros c Hh; [done|]. simpl. unfold ctx_addrs in *. simpl in Hh.
  intros (Ha & Ho & Hfs). rewrite Hh by set_solver. split_and!; [done| |].
  - eapply prep_frame; [|done]. intros a ?. apply Hh. set_solver.
  - apply IH; [|done]. intros a ?. apply Hh. set_solver.
Qed.

(** ** Splitting a leaf *)

Lemma pt_load_done p a n : pt_heap p !! a = Some n → pt_load a p = Done n p.
Proof. intros E. unfold pt_load. rewrite (bind_done _ _ p p p) by done. by rewrite E. Qed.

Lemma elem_dom_addrs p t a : ptree_repr p t → a ∈ paddrs t ↔ is_Some (pt_heap p !! a).
Proof. intros Hp. rewrite <- elem_of_dom, (pr_dom _ _ Hp). by rewrite elem_of_list_to_set. Qed.

(** The facts about the leaf of a state. *)
Lemma repr_leaf p t fs a s : ptree_repr p t → t = pzip fs (pleaf a s) →
  pt_heap p !! a = Some (mkPTreeNode (ctx_addr fs) None None (Some s)) ∧
  pctx (pt_heap p) (Some a) fs ∧ a ∉ ctx_addrs fs ∧ NoDup (ctx_addrs fs) ∧
  Forall (λ f, wf (pf_other f)) fs ∧ (∀ x, x ∈ a :: ctx_addrs fs → (x < pt_next p)%nat) ∧
  NoDup (s :: (ctx_leaves fs).*1) ∧
  dom (pt_heap p) = {[ a ]} ∪ list_to_set (ctx_addrs fs).
Proof.
  intros [Hrep Hwf Hna Hdom Hnext Hroot Hnl] ->.
  apply prep_zip in Hrep as [(Ha & _ & _) Hctx]. apply wf_zip in Hwf as [_ Hwf]; [|done].
  rewrite paddrs_zip in Hna. simpl in Hna. apply NoDup_cons in Hna as [? ?].
  rewrite leaves_zip in Hnl. split_and!; try done.
  - intros x Hx. apply Hnext. by rewrite paddrs_zip.
  - rewrite Hdom, paddrs_zip. done.
Qed.

Lemma paddr_zip fs t : t ≠ PEmpty → ∀ u, u ≠ PEmpty → paddr t = paddr u → paddr (pzip fs t) = paddr (pzip fs u).
Proof.
  revert t. induction fs as [|f fs IH]; intros t Ht u Hu E; [done|]. simpl.
  apply IH; unfold pnode_of; by destruct (pf_side f).
Qed.

Lemma zip_not_empty fs t : t ≠ PEmpty → pzip fs t ≠ PEmpty.
Proof.
  revert t. induction fs as [|f fs IH]; intros t Ht; [done|]. simpl.
  apply IH. unfold pnode_of. by destruct (pf_side f).
Qed.

(** The leaf of [s] becomes an inner node over two leaves: the engine first
    clears the data of the node, then splits it. *)
Lemma split_repr p fs a s x y : ptree_repr p (pzip fs (pleaf a s)) →
  NoDup (x :: y :: (ctx_leaves fs).*1) →
  ∃ p', (set_data a None;; split a x y) p = Done (pt_next p, S (pt_next p)) p' ∧
    ptree_repr p' (pzip fs (PNode a None (pleaf (pt_next p) x) (pleaf (S (pt_next p)) y))).
Proof.
  intros Hp Hxy. destruct (repr_leaf _ _ _ _ _ Hp eq_refl) as (Ha & Hctx & Hna & Hnd & Hwf & Hnext & Hnl & Hdom).
  destruct p as [rt h nx]. simpl in *.
  assert (nx ≠ a) by (specialize (Hnext a); set_solver by lia).
  assert (S nx ≠ a) by (specialize (Hnext a); set_solver by lia).
  set (h' := <[a := mkPTreeNode (ctx_addr fs) (Some nx) (Some (S nx)) None]>
        (<[S nx := new_PTreeNode (Some a) (Some y)]> (<[nx := new_PTreeNode (Some a) (Some x)]> h))).
  exists (mkPTree rt h' (S (S nx))). split.
  - set (n0 := mkPTreeNode (ctx_addr fs) None None None).
    set (p1 := mkPTree rt (<[a := n0]> h) nx).
    rewrite (bind_done _ _ _ tt p1).
    2: { unfold set_data. by erewrite bind_done by (by apply pt_load_done). }
    unfold split. erewrite bind_done by (apply pt_load_done, lookup_insert_eq).
    rewrite (bind_done _ _ _ tt p1) by done.
    set (p2 := mkPTree rt (<[nx := new_PTreeNode (Some a) (Some x)]> (pt_heap p1)) (S nx)).
    rewrite (bind_done _ _ _ nx p2) by done.
    erewrite bind_done by (apply pt_load_done; simpl; rewrite lookup_insert_ne by done; apply lookup_insert_eq).
    set (p3 := mkPTree rt (<[a := set_left (Some nx) n0]> (pt_heap p2)) (S nx)).
    rewrite (bind_done _ _ _ tt p3) by done.
    set (p4 := mkPTree rt (<[S nx := new_PTreeNode (Some a) (Some y)]> (pt_heap p3)) (S (S nx))).
    rewrite (bind_done _ _ _ (S nx) p4) by done.
    erewrite bind_done by (apply pt_load_done; simpl; rewrite lookup_insert_ne by done; apply lookup_insert_eq).
    unfold mbind, M_bind, pt_store, modify, mret, M_ret. simpl. do 2 f_equal.
    unfold h', set_left, set_right. simpl. apply map_eq. intros i.
    destruct (decide (i = a)) as [->|]; [by rewrite !lookup_insert_eq|].
    rewrite !(lookup_insert_ne _ a) by done.
    destruct (decide (i = S nx)) as [->|]; [by rewrite !lookup_insert_eq|].
    rewrite !(lookup_insert_ne _ (S nx)) by done. rewrite !(lookup_insert_ne _ a) by done.
    destruct (decide (i = nx)) as [->|]; [by rewrite !lookup_insert_eq|].
    rewrite !(lookup_insert_ne _ nx) by done. by rewrite (lookup_insert_ne _ a).
  - destruct Hp as [Hrep Hwf' Hna' Hdom' Hnext' Hroot' Hnl'].
    assert (∀ z, z ∈ ctx_addrs fs → h' !! z = h !! z) as Hfr.
    { intros z Hz. assert (z < nx)%nat by (apply Hnext; set_solver).
      unfold h'. rewrite !lookup_insert_ne; [done|lia|lia|]. intros ->; done. }
    constructor; simpl.
    + apply prep_zip. split; [|by eapply pctx_frame].
      simpl. unfold h'. rewrite lookup_insert_eq. rewrite lookup_insert_ne by done. rewrite lookup_insert_ne by lia.
      rewrite lookup_insert_eq. rewrite lookup_insert_ne by done. rewrite lookup_insert_eq. done.
    + apply wf_zip; [done|]. simpl. naive_solver.
    + rewrite paddrs_zip. simpl. constructor; [|constructor; [|constructor]].
      * rewrite !elem_of_cons. naive_solver.
      * rewrite elem_of_cons. intros [|Hx]; [lia|]. specialize (Hnext nx). set_solver by lia.
      * intros Hx. specialize (Hnext (S nx)). set_solver by lia.
      * done.
    + unfold h'. rewrite !dom_insert_L, Hdom, paddrs_zip. simpl. set_solver.
    + intros z. rewrite paddrs_zip. simpl. rewrite !elem_of_cons. intros [->|[->|[->|Hx]]]; [|lia|lia|].
      * specialize (Hnext a). set_solver by lia.
      * specialize (Hnext z). set_solver by lia.
    + intros _. simpl in Hroot'. rewrite <- Hroot' by (by apply zip_not_empty). by apply paddr_zip.
    + rewrite leaves_zip. done.
Qed.

(** ** Removing a leaf *)

(** The frames left when the ancestors without children are gone. *)
Fixpoint collapse (fs : list pframe) : list pframe :=
  match fs with
  | f :: fs' => match pf_other f with PEmpty => collapse fs' | _ => fs end
  | [] => []
  end.
Fixpoint collapsed (fs : list pframe) : list nat :=
  match fs with
  | f :: fs' => match pf_other f with PEmpty => pf_addr f :: collapsed fs' | _ => [] end
  | [] => []
  end.

Lemma ctx_addrs_collapse fs : ctx_addrs fs = collapsed fs ++ ctx_addrs (collapse fs).
Proof.
  induction fs as [|f fs IH]; [done|]. simpl. destruct (pf_other f) eqn:E; [|done].
  change (ctx_addrs (f :: fs)) with (pf_addr f :: paddrs (pf_other f) ++ ctx_addrs fs). by rewrite E, IH.
Qed.
Lemma ctx_leaves_collapse fs : ctx_leaves fs = ctx_leaves (collapse fs).
Proof.
  induction fs as [|f fs IH]; [done|]. simpl. destruct (pf_other f) eqn:E; [|done].
  change (ctx_leaves (f :: fs)) with (leaves (pf_other f) ++ ctx_leaves fs). by rewrite E, IH.
Qed.
Lemma collapse_Forall (P : pframe → Prop) fs : Forall P fs → Forall P (collapse fs).
Proof. induction 1; simpl; [constructor|]. destruct (pf_other x); [done|]. by constructor. Qed.

Lemma wf_collapse fs : Forall (λ f, wf (pf_other f)) fs → wf (pzip (collapse fs) PEmpty).
Proof.
  induction 1 as [|f fs Hf Hfs IH]; [done|]. simpl. destruct (pf_other f) eqn:E; [done|].
  simpl. unfold pnode_of. rewrite E. destruct (pf_side f); apply wf_zip; simpl; naive_solver.
Qed.

Lemma remove_loop_frames rt nx fuel n nd h fs :
  h !! n = Some nd → pt_parent nd = ctx_addr fs → pctx h (Some n) fs →
  n ∉ ctx_addrs fs → NoDup (ctx_addrs fs) → (length fs < fuel)%nat →
  ∃ h', remove_loop fuel n (mkPTree rt h nx) = Done tt (mkPTree rt h' nx) ∧
    pctx h' None (collapse fs) ∧ dom h' = dom h ∖ {[ n ]} ∖ list_to_set (collapsed fs).
Proof.
  revert n nd h fuel. induction fs as [|f fs IH]; intros n nd h fuel Hn Hpar Hctx Hnin Hnd Hf;
    (destruct fuel as [|fuel]; [simpl in Hf; lia|]); cbn [remove_loop];
    erewrite bind_done by (by apply pt_load_done);
    (erewrite (bind_done (pt_delete n)) by (unfold pt_delete; by erewrite bind_done by (by apply pt_load_done)));
    rewrite Hpar; cbn [ctx_addr head fmap option_fmap option_map pt_heap pt_root pt_next].
  { eexists. split; [done|]. split; [done|]. simpl. rewrite dom_delete_L. set_solver. }
  destruct Hctx as (Ha & Ho & Hfs). unfold ctx_addrs in Hnin, Hnd. simpl in Hnin, Hnd.
  apply not_elem_of_cons in Hnin as [Hna [Hno Hnc]%not_elem_of_app].
  apply NoDup_cons in Hnd as [Han (Hndo & Hndd & Hndc)%NoDup_app].
  apply not_elem_of_app in Han as [Hao Hac].
  set (a := pf_addr f) in *. set (pd := frame_node f (ctx_addr fs) (Some n)) in *.
  erewrite bind_done by (apply pt_load_done; simpl; by rewrite lookup_delete_ne).
  set (p1 := mkPTree rt (<[a := frame_node f (ctx_addr fs) None]> (delete n h)) nx).
  assert (paddr (pf_other f) ≠ Some n) as Hpo.
  { intros E. apply Hno. destruct (pf_other f); simpl in *; [done|]. simplify_eq. set_solver. }
  rewrite (bind_done _ _ _ tt p1).
  2: { unfold pd, p1, frame_node. destruct (pf_side f); simpl.
       - rewrite bool_decide_false by done. rewrite bool_decide_true by done. done.
       - rewrite bool_decide_true by done. done. }
  erewrite bind_done by (apply pt_load_done, lookup_insert_eq).
  assert (∀ x, x ≠ a → x ≠ n → pt_heap p1 !! x = h !! x) as Hfr
    by (intros x ??; simpl; rewrite lookup_insert_ne, lookup_delete_ne by done; done).
  assert (dom (pt_heap p1) = dom h ∖ {[ n ]}) as Hdom1.
  { simpl. rewrite dom_insert_L, dom_delete_L. assert (a ∈ dom h) by (apply elem_of_dom; eauto). set_solver. }
  cbn [collapse collapsed]. destruct (pf_other f) as [|c d l r] eqn:Eo.
  - replace (childless _) with true by (unfold childless, frame_node; rewrite Eo; by destruct (pf_side f)).
    edestruct (IH a (frame_node f (ctx_addr fs) None) (pt_heap p1) fuel) as (h' & E & Hc & Hd).
    + apply lookup_insert_eq.
    + done.
    + eapply pctx_frame; [|done]. intros x Hx. apply Hfr; intros ->; done.
    + done.
    + done.
    + simpl in Hf. lia.
    + exists h'. split_and!; [done|done|]. rewrite Hd, Hdom1. simpl. set_solver.
  - replace (childless _) with false by (unfold childless, frame_node; rewrite Eo; by destruct (pf_side f)).
    exists (pt_heap p1). split_and!; [done| |rewrite Hdom1; simpl; set_solver].
    simpl. fold a. split_and!; [apply lookup_insert_eq| |].
    + rewrite Eo. apply (prep_frame h); [|done]. intros x Hx. apply Hfr; intros ->; done.
    + apply (pctx_frame h); [|done]. intros x Hx. apply Hfr; intros ->; done.
Qed.

Lemma length_ctx_addrs fs : (length fs ≤ length (ctx_addrs fs))%nat.
Proof.
  induction fs as [|f fs IH]; [done|].
  change (ctx_addrs (f :: fs)) with (pf_addr f :: paddrs (pf_other f) ++ ctx_addrs fs).
  simpl. rewrite length_app. lia.
Qed.

Lemma paddr_zip_last fs t : fs ≠ [] → paddr (pzip fs t) = pf_addr <$> last fs.
Proof.
  revert t. induction fs as [|f fs IH]; intros t Hne; [done|]. simpl.
  destruct fs as [|g fs]; [unfold pnode_of; simpl; by destruct (pf_side f)|].
  rewrite IH by done. done.
Qed.

Lemma last_collapse fs : collapse fs ≠ [] → last (collapse fs) = last fs.
Proof.
  induction fs as [|f fs IH]; [done|]. simpl. destruct (pf_other f); [|done].
  intros Hne. rewrite IH by done. destruct fs; [done|]. done.
Qed.

(** The leaf of [s] goes, with the ancestors that held nothing else. *)
Lemma remove_repr p fs a s : ptree_repr p (pzip fs (pleaf a s)) →
  ∃ p', remove a p = Done tt p' ∧ ptree_repr p' (pzip (collapse fs) PEmpty).
Proof.
  intros Hp. destruct (repr_leaf _ _ _ _ _ Hp eq_refl) as (Ha & Hctx & Hna & Hnd & Hwf & Hnext & Hnl & Hdom).
  destruct p as [rt h nx]. simpl in *.
  assert (length fs < size h)%nat as Hfuel.
  { rewrite <- size_dom, Hdom, size_union by set_solver. rewrite size_singleton, size_list_to_set by done.
    pose proof (length_ctx_addrs fs). lia. }
  destruct (remove_loop_frames rt nx (size h) a _ h fs Ha eq_refl Hctx Hna Hnd Hfuel) as (h' & E & Hc & Hd).
  exists (mkPTree rt h' nx). split.
  { unfold remove. erewrite bind_done by (by apply pt_load_done).
    rewrite (bind_done _ _ _ tt (mkPTree rt h nx)) by done. by rewrite (bind_done _ _ _ (mkPTree rt h nx) (mkPTree rt h nx)). }
  rewrite ctx_addrs_collapse in Hnd, Hdom, Hna. apply NoDup_app in Hnd as (Hnd1 & Hnd2 & Hnd3).
  constructor; simpl.
  - by apply prep_zip.
  - by apply wf_collapse.
  - by rewrite paddrs_zip.
  - rewrite Hd, Hdom, paddrs_zip. simpl. rewrite list_to_set_app_L. set_solver.
  - intros x. rewrite paddrs_zip. simpl. intros Hx. apply Hnext. rewrite ctx_addrs_collapse. set_solver.
  - intros Hne. assert (collapse fs ≠ []) as Hcne by (intros Ec; by rewrite Ec in Hne).
    rewrite paddr_zip_last, last_collapse by done.
    rewrite <- (paddr_zip_last fs (pleaf a s)) by (by intros ->).
    apply (pr_root _ _ Hp). by apply zip_not_empty.
  - rewrite leaves_zip. simpl. rewrite <- ctx_leaves_collapse. by apply NoDup_cons in Hnl as [_ ?].
Qed.

(** ** The random walk *)

Fixpoint pheight (t : pt) : nat :=
  match t with PEmpty => 0 | PNode _ _ l r => S (pheight l `max` pheight r) end.
Lemma pheight_addrs t : (pheight t ≤ length (paddrs t))%nat.
Proof. induction t; simpl; [lia|]. rewrite length_app. lia. Qed.

Lemma random_path_live p t par words w flips bits fuel :
  prep (pt_heap p) par t → wf t → t ≠ PEmpty → (pheight t ≤ fuel)%nat →
  ∃ s, random_path fuel words w flips bits (paddr t) p = Done s p ∧ s ∈ (leaves t).*1.
Proof.
  revert par w flips bits fuel. induction t as [|a d l IHl r IHr]; intros par w flips bits fuel; [done|].
  intros (Ha & Hl & Hr) Hwf _ Hf. destruct fuel as [|fuel]; [simpl in Hf; lia|]. cbn [random_path paddr].
  rewrite (bind_done _ _ p a p) by done. erewrite bind_done by (by apply pt_load_done).
  cbn [pt_data pt_left pt_right]. destruct d as [s|]; simpl in Hwf.
  { exists s. split; [done|]. simpl. set_solver. }
  destruct Hwf as (Hne & Hwl & Hwr). simpl in Hf.
  assert (∀ t, paddr t = None ↔ t = PEmpty) as Hp by (intros []; simpl; naive_solver).
  assert ((leaves (PNode a None l r)).*1 = (leaves l).*1 ++ (leaves r).*1) as -> by (simpl; apply fmap_app).
  assert (∀ w flips bits, l ≠ PEmpty →
    ∃ s, random_path fuel words w flips bits (paddr l) p = Done s p ∧ s ∈ (leaves l).*1 ++ (leaves r).*1) as Gl.
  { intros w' fl bi Hne'. destruct (IHl (Some a) w' fl bi fuel) as (s & E & Hs); [done..|lia|].
    exists s. split; [done|]. set_solver. }
  assert (∀ w flips bits, r ≠ PEmpty →
    ∃ s, random_path fuel words w flips bits (paddr r) p = Done s p ∧ s ∈ (leaves l).*1 ++ (leaves r).*1) as Gr.
  { intros w' fl bi Hne'. destruct (IHr (Some a) w' fl bi fuel) as (s & E & Hs); [done..|lia|].
    exists s. split; [done|]. set_solver. }
  repeat case_bool_decide; rewrite ?Hp in *; subst.
  - apply Gr. naive_solver.
  - by apply Gl.
  - destruct (bits =? 0); case_match; [by apply Gl|by apply Gr|by apply Gl|by apply Gr].
Qed.

(** [RandomPathSearcher::selectState] ends in the leaf of a live state. *)
Lemma random_path_select_live p t words : ptree_repr p t → t ≠ PEmpty →
  ∃ s, random_path_select words p = Done s p ∧ s ∈ (leaves t).*1.
Proof.
  intros [Hrep Hwf Hna Hdom Hnext Hroot Hnl] Hne. unfold random_path_select.
  rewrite (bind_done _ _ p p p) by done. rewrite <- Hroot by done.
  eapply random_path_live; [done..|].
  assert (size (pt_heap p) = length (paddrs t)) as -> by (rewrite <- size_dom, Hdom; by apply size_list_to_set).
  pose proof (pheight_addrs t). lia.
Qed.

Lemma new_PTree_repr s : ptree_repr (new_PTree s) (pleaf 0 s).
Proof.
  constructor; simpl.
  - by rewrite lookup_singleton_eq.
  - done.
  - constructor; [by intros ?%elem_of_nil|constructor].
  - rewrite dom_singleton_L. set_solver.
  - intros a ->%list_elem_of_singleton. lia.
  - done.
  - constructor; [by intros ?%elem_of_nil|constructor].
Qed.
