(* ===== verification/ExecStates.v ===== *)
(** * The engine's sets of states

    src/klee/lib/Core/Executor.cpp: the part of the executor that forks, ends and
    prunes states and keeps its records of them consistent: the sets [states],
    [addedStates], [removedStates], the seeds, the process tree, the branch tree
    of the path slicer and the searcher.

    An [ExecutionState] object has the fields the bookkeeping uses ([ptreeNode],
    [isPruned]; [parentBranch] is in the branch tree's [state_parent]); the map
    [objs] holds the allocated objects, so that an access to a deleted state is
    a memory error.  What an instruction does to the program's memory, and the
    answers of the solver and of the slicer, are inputs: the new object of a
    fork, the index of the branch, which side the seeds go to, and the branches
    and calls the slicer removed. *)
From stdpp Require Import fin_sets.
From S2P Require Import Prelude BranchTree Searcher PTree.

Record ExecutionState := mkES { ptreeNode : nat; isPruned : bool }.

(** The command-line options that matter here. *)
Record options := mkOptions {
  UsePathSlicer : bool;
  MarkPrunedOnly : bool;
  OnlyReplaySeeds : bool
}.

Record Exec (S : Type) := mkExec {
  states : gset sid;
  addedStates : gset sid;
  removedStates : gset sid;
  seedMap : gset sid;            (** the states that have seeds *)
  processTree : PTree;
  brTree : BranchTree;
  objs : gmap sid ExecutionState;
  searcher : option S            (** NULL while seeds are replayed *)
}.
Arguments mkExec {S} _ _ _ _ _ _ _ _.
Arguments states {S} _.
Arguments addedStates {S} _.
Arguments removedStates {S} _.
Arguments seedMap {S} _.
Arguments processTree {S} _.
Arguments brTree {S} _.
Arguments objs {S} _.
Arguments searcher {S} _.

Section Exec.
Context {S : Type} `{Searcher S} (opts : options).
Abbreviation E := (M (Exec S)).

Definition set_states f (x : Exec S) : Exec S :=
  mkExec (f (states x)) (addedStates x) (removedStates x) (seedMap x) (processTree x) (brTree x) (objs x) (searcher x).
Definition set_added f (x : Exec S) : Exec S :=
  mkExec (states x) (f (addedStates x)) (removedStates x) (seedMap x) (processTree x) (brTree x) (objs x) (searcher x).
Definition set_removed f (x : Exec S) : Exec S :=
  mkExec (states x) (addedStates x) (f (removedStates x)) (seedMap x) (processTree x) (brTree x) (objs x) (searcher x).
Definition set_seedMap f (x : Exec S) : Exec S :=
  mkExec (states x) (addedStates x) (removedStates x) (f (seedMap x)) (processTree x) (brTree x) (objs x) (searcher x).
Definition set_processTree t (x : Exec S) : Exec S :=
  mkExec (states x) (addedStates x) (removedStates x) (seedMap x) t (brTree x) (objs x) (searcher x).
Definition set_brTree b (x : Exec S) : Exec S :=
  mkExec (states x) (addedStates x) (removedStates x) (seedMap x) (processTree x) b (objs x) (searcher x).
Definition set_objs f (x : Exec S) : Exec S :=
  mkExec (states x) (addedStates x) (removedStates x) (seedMap x) (processTree x) (brTree x) (f (objs x)) (searcher x).
Definition set_searcher s (x : Exec S) : Exec S :=
  mkExec (states x) (addedStates x) (removedStates x) (seedMap x) (processTree x) (brTree x) (objs x) s.

Definition in_ptree {A} : M PTree A → E A := zoom processTree set_processTree.
Definition in_brTree {A} : M BranchTree A → E A := zoom brTree set_brTree.
(** [if (searcher) searcher->update(...)]. *)
Definition searcher_update (e : env) (current : option sid) (added removed : gset sid) : E unit :=
  x ← get;
  match searcher x with
  | None => mret tt
  | Some s => zoom (λ _, s) (λ s', set_searcher (Some s')) (update e current added removed)
  end.

Definition es_load (s : sid) : E ExecutionState := x ← get; deref (objs x !! s).
Definition set_node (s : sid) (a : nat) : E unit :=
  o ← es_load s; modify (set_objs <[s := mkES a (isPruned o)]>).
Definition set_isPruned (s : sid) : E unit :=
  o ← es_load s; modify (set_objs <[s := mkES (ptreeNode o) true]>).
(** [delete es]. *)
Definition es_delete (s : sid) : E unit :=
  _ ← es_load s; modify (set_objs (delete s)).

(** [es->branch()]: a copy of the state; [ns] is the new object. *)
Definition es_branch (s ns : sid) : E unit :=
  o ← es_load s; modify (set_objs <[ns := mkES (ptreeNode o) (isPruned o)]>).

(** ** Ending a state *)

(** What is dropped with a state, in [terminateState] for a state the searcher
    has not seen, in [terminateStateAtOnce] and in [updateStates]. *)
Definition drop_trees (s : sid) : E unit :=
  o ← es_load s;
  in_ptree (remove (ptreeNode o));;
  if UsePathSlicer opts then in_brTree (removeState s) else mret tt.

Definition terminateState (s : sid) : E unit :=
  x ← get;
  if bool_decide (s ∉ addedStates x) then modify (set_removed (λ r, {[ s ]} ∪ r))
  else
    modify (set_seedMap (λ m, m ∖ {[ s ]}));;
    modify (set_added (λ a, a ∖ {[ s ]}));;
    drop_trees s;;
    es_delete s.

(** The object is not deleted here. *)
Definition terminateStateAtOnce (e : env) (s : sid) : E unit :=
  searcher_update e None ∅ {[ s ]};;
  modify (set_added (λ a, a ∖ {[ s ]}));;
  modify (set_removed (λ r, r ∖ {[ s ]}));;
  modify (set_states (λ a, a ∖ {[ s ]}));;
  modify (set_seedMap (λ m, m ∖ {[ s ]}));;
  drop_trees s.

(** The loops over [rmBrs] and [rmCalls]. *)
Fixpoint find_all (s : sid) (idxs : list Z) (pruned : gset sid) : E (gset sid) :=
  match idxs with
  | [] => mret pruned
  | i :: idxs =>
    '(_, pruned) ← in_brTree (findPrunedStates s i pruned);
    find_all s idxs pruned
  end.

Definition prune (e : env) (p : sid) : E unit :=
  set_isPruned p;;
  if MarkPrunedOnly opts then mret tt else terminateStateAtOnce e p.

(** [rmBrs] and [rmCalls] are what [runPathSlicer] returns for the path of the
    state. *)
Definition slicingAndPruneStates (e : env) (s : sid) (rmBrs rmCalls : list Z) : E unit :=
  o ← es_load s;
  if isPruned o then mret tt
  else
    pruned ← find_all s rmBrs ∅;
    pruned ← find_all s rmCalls pruned;
    for_each (prune e) (elements pruned).

(** Both branches, with and without an error reported by the checkers, slice and
    then end the state. *)
Definition terminateStateOnExit (e : env) (s : sid) (rmBrs rmCalls : list Z) : E unit :=
  (if UsePathSlicer opts then slicingAndPruneStates e s rmBrs rmCalls else mret tt);;
  terminateState s.

(** ** Forking *)

(** [es->ptreeNode->data = 0], [split] and the two new leaves. *)
Definition split_node (es left right : sid) : E unit :=
  o ← es_load es;
  '(l, r) ← in_ptree (set_data (ptreeNode o) None;; split (ptreeNode o) left right);
  set_node left l;;
  set_node right r.

(** The last case of [fork], when both sides are possible.  [swap] is the
    decision of RandomizeFork, [seedsT] and [seedsF] tell whether a seed goes to
    the true and to the false state. *)
Definition fork_both (current ns : sid) (idx : Z) (swap seedsT seedsF : bool) : E (sid * sid) :=
  es_branch current ns;;
  modify (set_added (λ a, {[ ns ]} ∪ a));;
  (if UsePathSlicer opts then in_brTree (addBranch current idx ns) else mret tt);;
  let '(trueState, falseState) := if swap then (ns, current) else (current, ns) in
  x ← get;
  (if bool_decide (current ∈ seedMap x) then
     modify (set_seedMap (λ m, {[ trueState; falseState ]} ∪ m));;
     (if seedsT then mret tt else modify (set_seedMap (λ m, m ∖ {[ trueState ]})));;
     (if seedsF then mret tt else modify (set_seedMap (λ m, m ∖ {[ falseState ]})))
   else mret tt);;
  split_node current falseState trueState;;
  mret (trueState, falseState).

(** [deep]: the depth limit is reached, and both states end. *)
Definition fork (current ns : sid) (idx : Z) (swap seedsT seedsF deep : bool) : E (option (sid * sid)) :=
  '(trueState, falseState) ← fork_both current ns idx swap seedsT seedsF;
  if deep then
    terminateState trueState;;
    terminateState falseState;;
    mret None
  else mret (Some (trueState, falseState)).

(** The loop of [branch]: each further condition forks one of the states made so
    far ([theRNG.getInt32() % i]). *)
Fixpoint branch_loop (news : list (sid * Z * Z)) (result : list sid) : E (list sid) :=
  match news with
  | [] => mret result
  | (ns, rnd, idx) :: news =>
    es ← deref (result !! Z.to_nat (u32 rnd `mod` Z.of_nat (length result)));
    es_branch es ns;;
    (if UsePathSlicer opts then in_brTree (addBranch es idx ns) else mret tt);;
    modify (set_added (λ a, {[ ns ]} ∪ a));;
    split_node es ns es;;
    branch_loop news (result ++ [ns])
  end.

(** The seeds go to the states with the indices [targets]. *)
Fixpoint give_seeds (result : list sid) (targets : list nat) : E unit :=
  match targets with
  | [] => mret tt
  | i :: targets =>
    s ← deref (result !! i);
    modify (set_seedMap (λ m, {[ s ]} ∪ m));;
    give_seeds result targets
  end.

(** States without seeds end when only seeds are replayed. *)
Fixpoint drop_seedless (result : list sid) : E (list (option sid)) :=
  match result with
  | [] => mret []
  | s :: result =>
    x ← get;
    r ← (if bool_decide (s ∉ seedMap x) then terminateState s;; mret None else mret (Some s));
    rs ← drop_seedless result;
    mret (r :: rs)
  end.

Definition branch (state : sid) (news : list (sid * Z * Z)) (targets : list nat) : E (list (option sid)) :=
  result ← branch_loop news [state];
  x ← get;
  if bool_decide (state ∈ seedMap x) then
    modify (set_seedMap (λ m, m ∖ {[ state ]}));;
    give_seeds result targets;;
    if OnlyReplaySeeds opts then drop_seedless result else mret (Some <$> result)
  else mret (Some <$> result).

(** ** The main loop *)

Definition remove_one (es : sid) : E unit :=
  x ← get;
  c_assert (bool_decide (es ∈ states x));;
  modify (set_states (λ a, a ∖ {[ es ]}));;
  modify (set_seedMap (λ m, m ∖ {[ es ]}));;
  drop_trees es;;
  es_delete es.

Definition updateStates (e : env) (current : option sid) : E unit :=
  discard ← (match current with
             | Some c =>
               if UsePathSlicer opts then
                 o ← es_load c; mret (isPruned o && negb (MarkPrunedOnly opts))
               else mret false
             | None => mret false
             end);
  if (discard : bool) then mret tt
  else
    x ← get;
    searcher_update e current (addedStates x) (removedStates x);;
    modify (set_states (λ a, addedStates x ∪ a));;
    modify (set_added (λ _, ∅));;
    for_each remove_one (elements (removedStates x));;
    modify (set_removed (λ _, ∅)).

(** [searcher->selectState()]. *)
Definition select (e : env) : E sid :=
  x ← get;
  match searcher x with
  | None => halt MemoryError
  | Some s => zoom (λ _, s) (λ s', set_searcher (Some s')) (selectState e)
  end.

(** The start of [run]: one state, and a searcher that is told of it. *)
Definition start (e : env) (initialState : sid) (s : S) : outcome (Exec S) unit :=
  searcher_update e None {[ initialState ]} ∅
    (mkExec {[ initialState ]} ∅ ∅ ∅ (new_PTree initialState) new_BranchTree
       {[ initialState := mkES 0 false ]} (Some s)).
End Exec.
