(* ===== verification/ExecInv.v ===== *)
(** * The engine's records of its states stay consistent

    [exec_inv] relates the sets of states, the searcher, the process tree and
    the branch tree.  Every operation of [ExecStates] that follows the engine's
    protocol returns and keeps it, for any searcher that keeps the promise of
    [SearcherSpec]; the theorems at the end are about whole runs. *)
From stdpp Require Import fin_sets.
From S2P Require Import Prelude BranchTree Searcher PTree ExecStates.

(** ** The trees, against a set of live states *)

Definition pt_ok (L : gset sid) (m : gmap sid ExecutionState) (p : PTree) : Prop :=
  ∃ t, ptree_repr p t ∧ ∀ s a, (s, a) ∈ leaves t ↔ s ∈ L ∧ ptreeNode <$> m !! s = Some a.

Definition br_ok (L : gset sid) (b : BranchTree) : Prop :=
  ∃ t, repr b t ∧
    match t with
    | None => ∀ s s', s ∈ L → s' ∈ L → s = s'
    | Some t => list_to_set (BranchTree.states t) = L
    end.

Lemma br_add L b s i o : br_ok L b → s ∈ L → o ∉ L →
  ∃ b', addBranch s i o b = Done tt b' ∧ br_ok ({[ o ]} ∪ L) b'.
Proof.
  intros (t & Hb & Ht) Hs Ho. destruct t as [t|]; simpl in Hb.
  - destruct (addBranch_tree b t s i o Hb) as (b' & E & Hb').
    { rewrite <- Ht in Hs. by apply elem_of_list_to_set in Hs. }
    { intros ?. apply Ho. rewrite <- Ht. by apply elem_of_list_to_set. }
    exists b'. split; [done|]. eexists (Some _). split; [done|].
    apply set_eq. intros x. rewrite elem_of_list_to_set, elem_states_plug; [|set_solver|apply Hb].
    simpl. rewrite <- Ht. set_unfold. destruct (decide (x = s)); naive_solver.
  - subst b. destruct (addBranch_first s i o) as (b' & E & Hb'); [by intros ->|].
    exists b'. split; [done|]. eexists (Some _). split; [done|]. apply set_eq. intros x. simpl.
    rewrite elem_of_union, !elem_of_singleton. set_unfold. split; [naive_solver|].
    intros [->|Hx]; [auto|]. left. by apply Ht.
Qed.

Lemma br_remove L b s : br_ok L b → s ∈ L →
  ∃ b', removeState s b = Done tt b' ∧ br_ok (L ∖ {[ s ]}) b'.
Proof.
  intros (t & Hb & Ht) Hs. destruct t as [t|]; simpl in Hb.
  - assert (s ∈ BranchTree.states t) as Hst by (rewrite <- Ht in Hs; by apply elem_of_list_to_set in Hs).
    destruct (removeState_tree b t s Hb Hst) as (b' & E & Hb').
    exists b'. split; [done|]. eexists (Some _). split; [done|].
    apply set_eq. intros x. rewrite elem_of_list_to_set, elem_states_plug; [|done|apply Hb].
    simpl. rewrite <- Ht. set_solver.
  - subst b. exists new_BranchTree. split; [done|]. exists None. split; [done|]. set_solver.
Qed.

Lemma br_find L b s i acc : br_ok L b → s ∈ L →
  ∃ r P, findPrunedStates s i acc b = Done (r, P ∪ acc) b ∧ s ∉ P ∧ P ⊆ L.
Proof.
  intros (t & Hb & Ht) Hs. destruct t as [t|]; simpl in Hb.
  - destruct (findPrunedStates_tree b t s i acc Hb) as [E Hn].
    { rewrite <- Ht in Hs. by apply elem_of_list_to_set in Hs. }
    do 2 eexists. split_and!; [done|done|]. rewrite <- Ht. apply pruned_subseteq.
  - subst b. exists false, ∅. split_and!; [|set_solver|set_solver]. by rewrite (left_id_L ∅ (∪)).
Qed.

Lemma pt_leaf L m p s : pt_ok L m p → s ∈ L → s ∈ dom m →
  ∃ t fs o, ptree_repr p t ∧ m !! s = Some o ∧ t = pzip fs (pleaf (ptreeNode o) s) ∧
    (∀ x a, (x, a) ∈ ctx_leaves fs ↔ x ∈ L ∧ x ≠ s ∧ ptreeNode <$> m !! x = Some a).
Proof.
  intros (t & Hp & Ht) Hs [o Eo]%elem_of_dom.
  assert ((s, ptreeNode o) ∈ leaves t) as Hl by (apply Ht; by rewrite Eo).
  destruct (leaf_zip _ _ _ (pr_wf _ _ Hp) Hl) as [fs ->].
  exists (pzip fs (pleaf (ptreeNode o) s)), fs, o. split_and!; [done..|].
  pose proof (pr_leaves _ _ Hp) as Hnd. rewrite leaves_zip in Hnd. simpl in Hnd.
  apply NoDup_cons in Hnd as [Hns _]. intros x a. specialize (Ht x a). rewrite leaves_zip in Ht. simpl in Ht.
  rewrite elem_of_cons in Ht. split.
  - intros Hx. destruct (proj1 Ht) as [??]; [by right|]. split_and!; [done| |done].
    intros ->. apply Hns. apply list_elem_of_fmap. by exists (s, a).
  - intros (?&?&?). destruct (proj2 Ht) as [[= ??]|?]; done.
Qed.

Lemma pt_remove L m p s : pt_ok L m p → s ∈ L → s ∈ dom m →
  ∃ o p', m !! s = Some o ∧ remove (ptreeNode o) p = Done tt p' ∧ pt_ok (L ∖ {[ s ]}) m p'.
Proof.
  intros Hok Hs Hm. destruct (pt_leaf _ _ _ _ Hok Hs Hm) as (t & fs & o & Hp & Eo & -> & Hctx).
  destruct (remove_repr _ _ _ _ Hp) as (p' & E & Hp'). exists o, p'. split_and!; [done..|].
  eexists. split; [done|]. intros x a. rewrite leaves_zip. simpl.
  rewrite <- ctx_leaves_collapse, Hctx. set_solver.
Qed.

(** A split of the node of [s] over [s] and a new state, in either order. *)
Lemma pt_split L m p s o x y : pt_ok L m p → s ∈ L → s ∈ dom m → o ∉ L →
  (x = s ∧ y = o) ∨ (x = o ∧ y = s) →
  ∃ eo l r p', m !! s = Some eo ∧
    (set_data (ptreeNode eo) None;; split (ptreeNode eo) x y) p = Done (l, r) p' ∧
    ∀ m', (∀ z, z ≠ s → z ≠ o → m' !! z = m !! z) → ptreeNode <$> m' !! x = Some l →
          ptreeNode <$> m' !! y = Some r → pt_ok ({[ o ]} ∪ L) m' p'.
Proof.
  intros Hok Hs Hm Ho Hxy. destruct (pt_leaf _ _ _ _ Hok Hs Hm) as (t & fs & eo & Hp & Eo & -> & Hctx).
  assert (∀ z, z ∈ (ctx_leaves fs).*1 → z ∈ L ∧ z ≠ s) as Hin.
  { intros z ([z' a] & -> & Hz%Hctx)%list_elem_of_fmap. simpl. naive_solver. }
  destruct (split_repr p fs (ptreeNode eo) s x y Hp) as (p' & E & Hp').
  { pose proof (pr_leaves _ _ Hp) as Hnd. rewrite leaves_zip in Hnd. simpl in Hnd.
    apply NoDup_cons in Hnd as [Hns Hnd].
    assert (s ≠ o) by (intros ->; done).
    constructor; [|constructor; [|done]].
    - rewrite elem_of_cons. intros [->|Hz%Hin]; naive_solver.
    - intros Hz%Hin. naive_solver. }
  exists eo, (pt_next p), (Datatypes.S (pt_next p)), p'. split_and!; [done..|].
  intros m' Hm' Hx Hy. eexists. split; [done|]. intros z a. rewrite leaves_zip. simpl.
  rewrite !elem_of_cons, Hctx. set_unfold. split.
  - intros [[= -> ->]|[[= -> ->]|(Hz & Hne & Ez)]].
    + split; [naive_solver|done].
    + split; [naive_solver|done].
    + split; [auto|]. rewrite Hm'; [done|done|]. by intros ->.
  - intros [Hz Ez]. destruct (decide (z = x)) as [->|Hzx]; [left; congruence|].
    destruct (decide (z = y)) as [->|Hzy]; [right; left; congruence|]. right; right.
    assert (z ≠ s ∧ z ≠ o) as [??] by naive_solver. rewrite <- Hm' by done. naive_solver.
Qed.

(** ** The invariant *)

Definition live {S} (x : Exec S) : gset sid := states x ∪ addedStates x.
(** The states that may still run. *)
Definition active {S} (x : Exec S) : gset sid := live x ∖ removedStates x.

Section Inv.
Context {S : Type} `{SearcherSpec S} (opts : options).
Implicit Types x : Exec S.

Record exec_inv x : Prop := {
  inv_disj : states x ## addedStates x;
  inv_removed : removedStates x ⊆ states x;
  inv_seeds : seedMap x ⊆ live x;
  inv_objs : live x ⊆ dom (objs x);
  inv_searcher s : searcher x = Some s → searcher_ok s ∧ held s = states x;
  inv_ptree : pt_ok (live x) (objs x) (processTree x);
  inv_brtree : UsePathSlicer opts = true → br_ok (live x) (brTree x)
}.

Lemma pt_ok_objs L m m' p : pt_ok L m p →
  (∀ s, s ∈ L → ptreeNode <$> m' !! s = ptreeNode <$> m !! s) → pt_ok L m' p.
Proof.
  intros (t & Hp & Ht) Hm. exists t. split; [done|]. intros s a. rewrite Ht.
  split; intros [? ?]; (split; [done|]); [rewrite Hm|rewrite <- Hm]; done.
Qed.

Lemma es_load_done x s o : objs x !! s = Some o → es_load s x = Done o x.
Proof. intros E. unfold es_load. rewrite (bind_done _ _ x x x) by done. by rewrite E. Qed.

(** Dropping a state from the two trees. *)
Lemma drop_trees_done L x s :
  pt_ok L (objs x) (processTree x) → (UsePathSlicer opts = true → br_ok L (brTree x)) →
  s ∈ L → s ∈ dom (objs x) →
  ∃ p b, drop_trees opts s x = Done tt (set_brTree b (set_processTree p x)) ∧
    pt_ok (L ∖ {[ s ]}) (objs x) p ∧ (UsePathSlicer opts = true → br_ok (L ∖ {[ s ]}) b).
Proof.
  intros Hp Hb Hs Hd. destruct (pt_remove _ _ _ _ Hp Hs Hd) as (o & p & Eo & E & Hp').
  unfold drop_trees. erewrite bind_done by (by apply es_load_done).
  erewrite bind_done by (by apply zoom_done).
  destruct (UsePathSlicer opts) eqn:Eu.
  - destruct (br_remove _ _ s (Hb eq_refl) Hs) as (b & Eb & Hb'). exists p, b.
    split_and!; [|done|done]. by apply zoom_done.
  - exists p, (brTree x). split_and!; [|done|done]. by destruct x.
Qed.

(** [terminateState]: a state the searcher knows is queued for removal, a new one
    is dropped and deleted. *)
Lemma terminateState_done x s : exec_inv x → s ∈ live x →
  ∃ x', terminateState opts s x = Done tt x' ∧ exec_inv x' ∧ active x' = active x ∖ {[ s ]} ∧
    states x' = states x ∧ addedStates x' = addedStates x ∖ {[ s ]} ∧
    dom (objs x) ∖ {[ s ]} ⊆ dom (objs x') ⊆ dom (objs x) ∧
    (∀ z, z ≠ s → objs x' !! z = objs x !! z) ∧ (s ∈ states x → objs x' = objs x).
Proof.
  intros [Hdisj Hrem Hseeds Hobjs Hsr Hpt Hbr] Hs. unfold terminateState.
  rewrite (bind_done _ _ x x x) by done. case_bool_decide as Ea.
  - eexists. split; [done|]. assert (s ∈ states x) by (unfold live in Hs; set_solver).
    split; [|unfold active, live; simpl; split_and!; set_solver].
    constructor; simpl; try done. set_solver.
  - set (x1 := set_added (λ a, a ∖ {[ s ]}) (set_seedMap (λ m, m ∖ {[ s ]}) x)).
    rewrite (bind_done _ _ x tt (set_seedMap (λ m, m ∖ {[ s ]}) x)) by done.
    rewrite (bind_done _ _ _ tt x1) by done. assert (s ∉ states x) as Hns by set_solver.
    destruct (drop_trees_done (live x) x1 s) as (p & b & E & Hp' & Hb'); [done|done|done|by apply Hobjs|].
    erewrite bind_done by done. assert (s ∈ dom (objs x)) as [o Eo]%elem_of_dom by (by apply Hobjs).
    set (x2 := set_brTree b (set_processTree p x1)). unfold es_delete.
    erewrite bind_done by (apply es_load_done; exact Eo).
    eexists. split; [done|]. assert (live (set_objs (delete s) x2) = live x ∖ {[ s ]}) as El.
    { unfold live. simpl. set_solver. }
    split; [|unfold active; rewrite El; simpl; rewrite dom_delete_L; split_and!;
             [set_solver|done|done|set_solver|set_solver|intros z ?; by rewrite lookup_delete_ne|done]].
    constructor; rewrite ?El; simpl; try done.
    + set_solver.
    + set_solver.
    + rewrite dom_delete_L. set_solver.
    + eapply pt_ok_objs; [done|]. intros z Hz. simpl. rewrite lookup_delete_ne by set_solver. done.
Qed.

Lemma searcher_update_done x e c add rem :
  (∀ s, searcher x = Some s → searcher_ok s ∧ held s = states x) →
  add ## states x → rem ⊆ states x ∪ add →
  ∃ so, searcher_update e c add rem x = Done tt (set_searcher so x) ∧
    ∀ s, so = Some s → searcher_ok s ∧ held s = (states x ∪ add) ∖ rem.
Proof.
  intros Hs Ha Hr. unfold searcher_update. rewrite (bind_done _ _ x x x) by done.
  destruct (searcher x) as [s|] eqn:E.
  - destruct (Hs s eq_refl) as [Hok Hh].
    destruct (wp_done _ _ _ (update_spec e c add rem s Hok ltac:(by rewrite Hh) ltac:(by rewrite Hh)))
      as ([] & s' & Eu & Hh' & Hok').
    exists (Some s'). split; [unfold zoom; by rewrite Eu|]. intros ? [= <-]. by rewrite Hh', Hh.
  - exists None. split; [|done]. unfold mret, M_ret. f_equal. destruct x; simpl in *. by subst.
Qed.

(** [terminateStateAtOnce], of a state the searcher knows. *)
Lemma terminateStateAtOnce_done x e s : exec_inv x → s ∈ states x →
  ∃ x', terminateStateAtOnce opts e s x = Done tt x' ∧ exec_inv x' ∧
    states x' = states x ∖ {[ s ]} ∧ addedStates x' = addedStates x ∧
    removedStates x' = removedStates x ∖ {[ s ]} ∧ objs x' = objs x.
Proof.
  intros [Hdisj Hrem Hseeds Hobjs Hsr Hpt Hbr] Hs. unfold terminateStateAtOnce.
  destruct (searcher_update_done x e None ∅ {[ s ]} Hsr) as (so & Eu & Hso); [set_solver|set_solver|].
  erewrite bind_done by done.
  set (x1 := set_seedMap (λ m, m ∖ {[ s ]}) (set_states (λ a, a ∖ {[ s ]})
        (set_removed (λ a, a ∖ {[ s ]}) (set_added (λ a, a ∖ {[ s ]}) (set_searcher so x))))).
  rewrite !bind_modify. fold x1.
  destruct (drop_trees_done (live x) x1 s) as (p & b & E & Hp' & Hb');
    [done|done|unfold live; set_solver|apply Hobjs; unfold live; set_solver|].
  exists (set_brTree b (set_processTree p x1)). split; [done|].
  assert (s ∉ addedStates x) by set_solver.
  assert (live (set_brTree b (set_processTree p x1)) = live x ∖ {[ s ]}) as El by (unfold live; simpl; set_solver).
  split; [|simpl; split_and!; set_solver].
  constructor; rewrite ?El; simpl; try done.
  - set_solver.
  - set_solver.
  - set_solver.
  - set_solver.
  - intros z Ez. destruct (Hso z Ez) as [? ->]. split; [done|]. set_solver.
Qed.

(** ** Slicing and pruning *)

Lemma find_all_done L x s idxs acc : br_ok L (brTree x) → s ∈ L →
  ∃ P, find_all s idxs acc x = Done (P ∪ acc) x ∧ s ∉ P ∧ P ⊆ L.
Proof.
  intros Hb Hs. revert acc. induction idxs as [|i idxs IH]; intros acc; simpl.
  - exists ∅. split_and!; [by rewrite (left_id_L ∅ (∪))|set_solver|set_solver].
  - destruct (br_find _ _ s i acc Hb Hs) as (r & P & E & Hn & HP).
    destruct (IH (P ∪ acc)) as (P' & E' & Hn' & HP'). exists (P' ∪ P).
    split_and!; [|set_solver|set_solver]. erewrite bind_done by (by apply zoom_done).
    replace (set_brTree (brTree x) x) with x by (by destruct x). rewrite E'. f_equal. set_solver.
Qed.

(** The states the slicer prunes for an exit of [s]. *)
Definition pruned_by x (s : sid) (rmBrs rmCalls : list Z) : gset sid :=
  default ∅ (result ((find_all s rmBrs ∅ ≫= find_all s rmCalls) x)).

Lemma pruned_by_done L x s brs calls : br_ok L (brTree x) → s ∈ L →
  (find_all s brs ∅ ≫= find_all s calls) x = Done (pruned_by x s brs calls) x ∧
  s ∉ pruned_by x s brs calls ∧ pruned_by x s brs calls ⊆ L.
Proof.
  intros Hb Hs. unfold pruned_by.
  destruct (find_all_done L x s brs ∅ Hb Hs) as (P & E & ? & ?).
  destruct (find_all_done L x s calls (P ∪ ∅) Hb Hs) as (P' & E' & ? & ?).
  assert ((find_all s brs ∅ ≫= find_all s calls) x = Done (P' ∪ (P ∪ ∅)) x) as ->
    by (by erewrite bind_done by done).
  simpl. split_and!; [done|set_solver|set_solver].
Qed.

Lemma exec_inv_objs x f : exec_inv x →
  (∀ s, ptreeNode <$> f (objs x) !! s = ptreeNode <$> objs x !! s) → exec_inv (set_objs f x).
Proof.
  intros [Hdisj Hrem Hseeds Hobjs Hsr Hpt Hbr] Hf. constructor; simpl; try done.
  - intros s Hs. apply elem_of_dom. specialize (Hf s).
    apply Hobjs, elem_of_dom in Hs as [o Eo]. rewrite Eo in Hf. simpl in Hf.
    destruct (f (objs x) !! s); [eauto|done].
  - eapply pt_ok_objs; [done|]. intros s _. apply Hf.
Qed.

Lemma set_isPruned_done x p : exec_inv x → p ∈ dom (objs x) →
  ∃ x', set_isPruned p x = Done tt x' ∧ exec_inv x' ∧ states x' = states x ∧
    addedStates x' = addedStates x ∧ removedStates x' = removedStates x ∧
    dom (objs x') = dom (objs x) ∧ (∀ z, z ≠ p → objs x' !! z = objs x !! z).
Proof.
  intros Hx [o Eo]%elem_of_dom. unfold set_isPruned. erewrite bind_done by (by apply es_load_done).
  eexists. split; [done|]. split.
  - apply exec_inv_objs; [done|]. intros s. destruct (decide (s = p)) as [->|].
    + by rewrite lookup_insert_eq, Eo.
    + by rewrite lookup_insert_ne.
  - simpl. split_and!; [done..| |].
    + rewrite dom_insert_L. assert (p ∈ dom (objs x)) by (apply elem_of_dom; eauto). set_solver.
    + intros z ?. by rewrite lookup_insert_ne.
Qed.

Lemma prune_loop_done x e l : exec_inv x → NoDup l → (∀ p, p ∈ l → p ∈ dom (objs x)) →
  (MarkPrunedOnly opts = false → ∀ p, p ∈ l → p ∈ states x) →
  ∃ x', for_each (prune opts e) l x = Done tt x' ∧ exec_inv x' ∧ addedStates x' = addedStates x ∧
    dom (objs x') = dom (objs x) ∧ (∀ z, z ∉ l → objs x' !! z = objs x !! z) ∧
    let P : gset sid := if MarkPrunedOnly opts then ∅ else list_to_set l in
    states x' = states x ∖ P ∧ removedStates x' = removedStates x ∖ P.
Proof.
  intros Hx Hl. revert x Hx. induction Hl as [|p l Hp Hl IH]; intros x Hx Hd Hst; simpl.
  { exists x. split_and!; try done; destruct (MarkPrunedOnly opts); set_solver. }
  destruct (set_isPruned_done x p Hx) as (x1 & E1 & Hx1 & Es1 & Ea1 & Er1 & Ed1 & Eo1); [apply Hd; set_solver|].
  assert (∀ x2, (if MarkPrunedOnly opts then mret tt else terminateStateAtOnce opts e p) x1 = Done tt x2 →
            (prune opts e p;; for_each (prune opts e) l) x = for_each (prune opts e) l x2) as Estep.
  { intros x2 E2. rewrite (bind_done _ _ _ tt x2); [done|]. unfold prune. by rewrite (bind_done _ _ _ tt x1). }
  destruct (MarkPrunedOnly opts) eqn:Em.
  - destruct (IH x1 Hx1) as (x2 & E2 & Hx2 & Ea2 & Ed2 & Eo2 & Es2 & Er2).
    { intros q Hq. rewrite Ed1. apply Hd. set_solver. }
    { done. }
    exists x2. split.
    { by erewrite Estep by done. }
    split_and!; [done|congruence|congruence| |set_solver|set_solver].
    intros z [??]%not_elem_of_cons. by rewrite Eo2, Eo1.
  - destruct (terminateStateAtOnce_done x1 e p Hx1) as (x2 & E2 & Hx2 & Es2 & Ea2 & Er2 & Eo2).
    { rewrite Es1. apply Hst; set_solver. }
    destruct (IH x2 Hx2) as (x3 & E3 & Hx3 & Ea3 & Ed3 & Eo3 & Es3 & Er3).
    { intros q Hq. rewrite Eo2, Ed1. apply Hd. set_solver. }
    { intros _ q Hq. rewrite Es2, Es1. assert (q ∈ states x) by (apply Hst; set_solver). set_solver. }
    exists x3. split.
    { by erewrite Estep by done. }
    split_and!; [done|congruence|congruence| |set_solver|set_solver].
    intros z [??]%not_elem_of_cons. by rewrite Eo3, Eo2, Eo1.
Qed.

(** What an exit of [s] ends: the state, and the states pruned with it. *)
Definition ended_by x (s : sid) (rmBrs rmCalls : list Z) : gset sid :=
  {[ s ]} ∪ (if UsePathSlicer opts && negb (MarkPrunedOnly opts) &&
               negb (default false (isPruned <$> objs x !! s))
             then pruned_by x s rmBrs rmCalls else ∅).

Lemma terminateStateOnExit_done x e s brs calls : exec_inv x → s ∈ active x →
  ended_by x s brs calls ∖ {[ s ]} ## addedStates x →
  ∃ x', terminateStateOnExit opts e s brs calls x = Done tt x' ∧ exec_inv x' ∧
    active x' = active x ∖ ended_by x s brs calls ∧
    states x ∖ ended_by x s brs calls ⊆ states x' ⊆ states x ∧
    addedStates x' = addedStates x ∖ {[ s ]} ∧
    dom (objs x) ∖ {[ s ]} ⊆ dom (objs x') ⊆ dom (objs x) ∧
    (s ∈ states x → dom (objs x') = dom (objs x)).
Proof.
  intros Hx Hs Hsafe. assert (s ∈ live x) as Hsl by (unfold active in Hs; set_solver).
  assert (s ∈ dom (objs x)) as Hsd by (by apply (inv_objs _ Hx)). destruct (proj1 (elem_of_dom _ _) Hsd) as [o Eo].
  assert (∃ x1, (if UsePathSlicer opts then slicingAndPruneStates opts e s brs calls else mret tt) x = Done tt x1 ∧
    exec_inv x1 ∧ s ∈ active x1 ∧ active x1 ∖ {[ s ]} = active x ∖ ended_by x s brs calls ∧
    states x ∖ ended_by x s brs calls ⊆ states x1 ⊆ states x ∧ (s ∈ states x → s ∈ states x1) ∧
    addedStates x1 = addedStates x ∧ dom (objs x1) = dom (objs x)) as (x1 & E1 & Hx1 & Hs1 & Hact & Hst & Hst' & Ha1 & Hd1).
  { unfold ended_by in *. rewrite Eo in *. simpl in *.
    destruct (UsePathSlicer opts) eqn:Eu; simpl in *.
    2: { exists x. split_and!; try done; set_solver. }
    unfold slicingAndPruneStates. erewrite bind_done by (by apply es_load_done).
    destruct (isPruned o) eqn:Ep; simpl in *.
    { exists x. rewrite andb_false_r in *. split_and!; try done; set_solver. }
    rewrite andb_true_r in *.
    destruct (pruned_by_done (live x) x s brs calls (inv_brtree _ Hx Eu) Hsl) as (Ef & Hns & Hsub).
    set (P := pruned_by x s brs calls) in *.
    destruct (prune_loop_done x e (elements P) Hx) as (x1 & E1 & Hx1 & Ea1 & Ed1 & Eo1 & Es1 & Er1).
    { apply NoDup_elements. }
    { intros p Hp%elem_of_elements. by apply (inv_objs _ Hx), Hsub. }
    { intros Em p Hp%elem_of_elements. rewrite Em in Hsafe. simpl in Hsafe.
      apply Hsub in Hp as Hp'. unfold live in Hp'. set_solver. }
    exists x1. split.
    { unfold mbind, M_bind in Ef |- *. destruct (find_all s brs ∅ x) as [a w|]; [|done]. by rewrite Ef. }
    rewrite list_to_set_elements_L in *. unfold active, live in *.
    destruct (MarkPrunedOnly opts) eqn:Em; simpl in *; rewrite Es1, Er1, Ea1; split_and!; try done; set_solver. }
  destruct (terminateState_done x1 s Hx1) as (x2 & E2 & Hx2 & Hact2 & Es2 & Ea2 & [Ed2 Ed2'] & Eo2 & Eo2'); [unfold active in Hs1; set_solver|].
  exists x2. split; [unfold terminateStateOnExit; by erewrite bind_done by done|].
  split_and!; [done|congruence|set_solver..|congruence|set_solver|set_solver|].
  intros Hss. rewrite Eo2'; [done|]. by apply Hst'.
Qed.

(** ** Forking *)

Lemma set_node_done x s a : s ∈ dom (objs x) →
  ∃ o, objs x !! s = Some o ∧ set_node s a x = Done tt (set_objs <[s := mkES a (isPruned o)]> x).
Proof.
  intros [o Eo]%elem_of_dom. exists o. split; [done|]. unfold set_node.
  by erewrite bind_done by (by apply es_load_done).
Qed.

(** The split of the node of [s] and the new leaves of [s] and [o]. *)
Lemma split_node_done L x s o y z : pt_ok L (objs x) (processTree x) → s ∈ L → o ∉ L →
  s ∈ dom (objs x) → o ∈ dom (objs x) → (y = s ∧ z = o) ∨ (y = o ∧ z = s) →
  ∃ p m, split_node s y z x = Done tt (set_objs (λ _, m) (set_processTree p x)) ∧
    pt_ok ({[ o ]} ∪ L) m p ∧ dom m = dom (objs x) ∧
    (∀ w, isPruned <$> m !! w = isPruned <$> objs x !! w).
Proof.
  intros Hp Hs Ho Hsd Hod Hyz. assert (s ≠ o) as Hso by (intros ->; done).
  destruct (pt_split _ _ _ s o y z Hp Hs Hsd Ho Hyz) as (eo & l & r & p & Eo & E & Hm).
  unfold split_node. erewrite bind_done by (by apply es_load_done).
  erewrite bind_done by (by apply zoom_done). cbn beta iota.
  set (x1 := set_processTree p x).
  assert (y ∈ dom (objs x) ∧ z ∈ dom (objs x) ∧ y ≠ z) as (Hy & Hz & Hyz') by naive_solver.
  destruct (set_node_done x1 y l Hy) as (oy & Eoy & Ey). erewrite bind_done by done.
  destruct (set_node_done (set_objs <[y := mkES l (isPruned oy)]> x1) z r) as (oz & Eoz & Ez).
  { simpl. rewrite dom_insert_L. set_solver. }
  simpl in Eoy, Eoz. rewrite lookup_insert_ne in Eoz by done.
  exists p, (<[z := mkES r (isPruned oz)]> (<[y := mkES l (isPruned oy)]> (objs x))). split_and!.
  - by rewrite Ez.
  - apply Hm.
    + intros w ??. rewrite !lookup_insert_ne; naive_solver.
    + rewrite lookup_insert_ne by done. by rewrite lookup_insert_eq.
    + by rewrite lookup_insert_eq.
  - rewrite !dom_insert_L. set_solver.
  - intros w. destruct (decide (w = z)) as [->|]; [by rewrite lookup_insert_eq, Eoz|].
    rewrite lookup_insert_ne by done.
    destruct (decide (w = y)) as [->|]; [by rewrite lookup_insert_eq, Eoy|]. by rewrite lookup_insert_ne.
Qed.

Lemma es_branch_done x s ns : s ∈ dom (objs x) → ns ≠ s →
  ∃ o, objs x !! s = Some o ∧ es_branch s ns x = Done tt (set_objs <[ns := mkES (ptreeNode o) (isPruned o)]> x).
Proof.
  intros [o Eo]%elem_of_dom ?. exists o. split; [done|]. unfold es_branch.
  by erewrite bind_done by (by apply es_load_done).
Qed.

Lemma pt_ok_insert_out L m p ns o : pt_ok L m p → ns ∉ L → pt_ok L (<[ns := o]> m) p.
Proof. intros Hp Hn. eapply pt_ok_objs; [done|]. intros s Hs. rewrite lookup_insert_ne; [done|]. by intros ->. Qed.

(** The effect of a fork of [s] into [s] and [ns]. *)
Record forked x x' (ns : sid) : Prop := {
  fk_inv : exec_inv x';
  fk_states : states x' = states x;
  fk_added : addedStates x' = {[ ns ]} ∪ addedStates x;
  fk_removed : removedStates x' = removedStates x;
  fk_dom : dom (objs x') = {[ ns ]} ∪ dom (objs x);
  fk_pruned s : s ∈ dom (objs x) → isPruned <$> objs x' !! s = isPruned <$> objs x !! s
}.

Lemma add_branch_done L x s idx o : (UsePathSlicer opts = true → br_ok L (brTree x)) → s ∈ L → o ∉ L →
  ∃ b, (if UsePathSlicer opts then in_brTree (addBranch s idx o) else mret tt) x = Done tt (set_brTree b x) ∧
    (UsePathSlicer opts = true → br_ok ({[ o ]} ∪ L) b).
Proof.
  intros Hb Hs Ho. destruct (UsePathSlicer opts).
  - destruct (br_add _ _ s idx o (Hb eq_refl) Hs Ho) as (b & E & Hb'). exists b. split; [|done]. by apply zoom_done.
  - exists (brTree x). split; [|done]. by destruct x.
Qed.

Lemma fork_done x s ns idx swap sT sF : exec_inv x → s ∈ live x → ns ∉ dom (objs x) →
  ∃ x', fork_both opts s ns idx swap sT sF x =
          Done (if swap then (ns, s) else (s, ns)) x' ∧ forked x x' ns.
Proof.
  intros [Hdisj Hrem Hseeds Hobjs Hsr Hpt Hbr] Hs Hns. assert (s ∈ dom (objs x)) as Hsd by (by apply Hobjs).
  assert (ns ≠ s) as Hne by (intros ->; done). assert (ns ∉ live x) as Hnl by (intros ?%Hobjs; done).
  unfold fork_both. destruct (es_branch_done x s ns Hsd Hne) as (o & Eo & E1). erewrite bind_done by done.
  rewrite bind_modify. set (x2 := set_added _ _).
  destruct (add_branch_done (live x) x2 s idx ns Hbr Hs Hnl) as (b & E2 & Hb'). erewrite bind_done by done.
  set (x3 := set_brTree b x2).
  set (tf := if swap then (ns, s) else (s, ns)). destruct tf as [tS fS] eqn:Etf. cbn beta iota.
  assert ((tS = s ∧ fS = ns) ∨ (tS = ns ∧ fS = s)) as Htf by (destruct swap; naive_solver).
  rewrite (bind_done _ _ x3 x3 x3) by done.
  assert (∃ g, (if bool_decide (s ∈ seedMap x3) then
     modify (set_seedMap (λ m, {[ tS; fS ]} ∪ m));;
     (if sT then mret tt else modify (set_seedMap (λ m, m ∖ {[ tS ]})));;
     (if sF then mret tt else modify (set_seedMap (λ m, m ∖ {[ fS ]})))
   else mret tt) x3 = Done tt (set_seedMap g x3) ∧ g (seedMap x) ⊆ {[ ns ]} ∪ live x) as (g & Eg & Hg).
  { case_bool_decide; [|exists id; split; [done|set_solver]].
    destruct sT, sF; eexists (λ m, _); (split; [done|]); simpl; set_solver. }
  erewrite bind_done by exact Eg. set (x4 := set_seedMap g x3).
  destruct (split_node_done (live x) x4 s ns fS tS) as (p & m & E5 & Hp & Hdm & Hpr).
  { by apply pt_ok_insert_out. }
  { done. }
  { done. }
  { simpl. rewrite dom_insert_L. set_solver. }
  { simpl. rewrite dom_insert_L. set_solver. }
  { naive_solver. }
  erewrite bind_done by done. eexists. split; [done|].
  constructor; simpl.
  - constructor; simpl; try done.
    + unfold live in *. set_solver.
    + unfold live in *. simpl. clear -Hg. set_solver.
    + unfold live in *. simpl. rewrite Hdm. simpl. rewrite dom_insert_L. set_solver.
    + unfold live. simpl. replace (states x ∪ ({[ ns ]} ∪ addedStates x)) with ({[ ns ]} ∪ live x); [done|unfold live; set_solver].
    + unfold live. simpl. replace (states x ∪ ({[ ns ]} ∪ addedStates x)) with ({[ ns ]} ∪ live x); [done|unfold live; set_solver].
  - done.
  - done.
  - done.
  - rewrite Hdm. simpl. by rewrite dom_insert_L.
  - intros w Hw. rewrite Hpr. simpl. rewrite lookup_insert_ne; [done|]. by intros ->.
Qed.

(** What every operation of a step leaves of the other states: their objects. *)
Definition keeps x x' : Prop :=
  ∀ c, c ∈ dom (objs x) → c ∉ addedStates x → c ∈ dom (objs x') ∧ c ∉ addedStates x'.

Lemma keeps_refl x : keeps x x.
Proof. by intros c. Qed.
Lemma keeps_trans x y z : keeps x y → keeps y z → keeps x z.
Proof. intros H1 H2 c Hc Ha. destruct (H1 c Hc Ha). by apply H2. Qed.

Lemma terminateState_keeps x s : exec_inv x → s ∈ live x →
  ∃ x', terminateState opts s x = Done tt x' ∧ exec_inv x' ∧ active x' = active x ∖ {[ s ]} ∧
    live x ∖ {[ s ]} ⊆ live x' ∧ keeps x x'.
Proof.
  intros Hx Hs. destruct (terminateState_done x s Hx Hs) as (x' & E & Hx' & Hact & Es & Ea & [Hd _] & Ho & Hss).
  exists x'. split_and!; [done..| |].
  - unfold live. rewrite Es, Ea. set_solver.
  - intros c Hc Hca. rewrite Ea. split; [|set_solver]. unfold live in Hs.
    destruct (decide (c = s)) as [->|]; [rewrite Hss; set_solver|set_solver].
Qed.

Lemma branch_loop_done news : ∀ x result, exec_inv x → result ≠ [] → (∀ s, s ∈ result → s ∈ live x) →
  NoDup news.*1.*1 → (∀ s, s ∈ news.*1.*1 → s ∉ dom (objs x)) →
  ∃ x', branch_loop opts news result x = Done (result ++ news.*1.*1) x' ∧ exec_inv x' ∧
    live x' = live x ∪ list_to_set news.*1.*1 ∧ removedStates x' = removedStates x ∧
    (states x' = states x) ∧ (∀ s, s ∈ dom (objs x) → s ∈ dom (objs x')) ∧ keeps x x'.
Proof.
  induction news as [|[[ns rnd] idx] news IH]; intros x result Hx Hne Hres Hnd Hfresh; simpl.
  { exists x. split_and!; try done; [by rewrite app_nil_r|set_solver]. }
  simpl in Hnd. apply NoDup_cons in Hnd as [Hns Hnd].
  assert (0 < Z.of_nat (length result)) by (destruct result; [done|simpl; lia]).
  pose proof (Z.mod_pos_bound (u32 rnd) (Z.of_nat (length result))).
  destruct (lookup_lt_is_Some_2 result (Z.to_nat (u32 rnd `mod` Z.of_nat (length result)))) as [s Es]; [lia|].
  rewrite (bind_done _ _ x s x) by (by rewrite Es). apply list_elem_of_lookup_2 in Es. apply Hres in Es as Hs.
  assert (ns ∉ dom (objs x)) as Hnd' by (apply Hfresh; simpl; set_solver).
  destruct Hx as [Hdisj Hrem Hseeds Hobjs Hsr Hpt Hbr]. assert (s ∈ dom (objs x)) as Hsd by (by apply Hobjs).
  assert (ns ≠ s) as Hnes by (intros ->; done). assert (ns ∉ live x) as Hnl by (intros ?%Hobjs; done).
  destruct (es_branch_done x s ns Hsd Hnes) as (o & Eo & E1). erewrite bind_done by done.
  destruct (add_branch_done (live x) (set_objs <[ns := mkES (ptreeNode o) (isPruned o)]> x) s idx ns Hbr Hs Hnl)
    as (b & E2 & Hb'). erewrite bind_done by done. rewrite bind_modify. set (x3 := set_added _ _).
  destruct (split_node_done (live x) x3 s ns ns s) as (p & m & E5 & Hp & Hdm & Hpr).
  { by apply pt_ok_insert_out. }
  { done. }
  { done. }
  { simpl. rewrite dom_insert_L. set_solver. }
  { simpl. rewrite dom_insert_L. set_solver. }
  { naive_solver. }
  erewrite bind_done by done. set (x4 := set_objs _ _).
  assert (live x4 = {[ ns ]} ∪ live x) as El by (unfold live; simpl; set_solver).
  assert (dom (objs x4) = {[ ns ]} ∪ dom (objs x)) as Ed by (simpl; rewrite Hdm; simpl; by rewrite dom_insert_L).
  assert (exec_inv x4) as Hx4.
  { constructor; rewrite ?El, ?Ed; simpl; try done; unfold live in *; set_solver. }
  destruct (IH x4 (result ++ [ns]) Hx4) as (x' & E' & Hx' & El' & Er' & Es' & Ed' & Hk).
  { by intros []%app_nil. }
  { rewrite El. intros z Hz. apply elem_of_app in Hz as [Hz|Hz]; [|apply list_elem_of_singleton in Hz; subst z]; set_solver. }
  { done. }
  { intros z Hz. rewrite Ed. assert (z ∉ dom (objs x)) by (apply Hfresh; simpl; set_solver). set_solver. }
  exists x'. rewrite <- app_assoc in E'. split_and!; [done|done| |done|done| |].
  - rewrite El', El. clear. set_solver.
  - intros z Hz. apply Ed'. set_solver.
  - eapply keeps_trans; [|done]. intros c Hc Hca. rewrite Ed. simpl. set_solver.
Qed.

Lemma give_seeds_done result targets x : (∀ i, i ∈ targets → i < length result)%nat →
  (∀ s, s ∈ result → s ∈ live x) → seedMap x ⊆ live x →
  ∃ g, give_seeds result targets x = Done tt (set_seedMap g x) ∧ g (seedMap x) ⊆ live x.
Proof.
  revert x. induction targets as [|i targets IH]; intros x Ht Hr Hs; simpl.
  { exists id. split; [by destruct x|done]. }
  destruct (lookup_lt_is_Some_2 result i) as [s Es]; [apply Ht; set_solver|].
  rewrite (bind_done _ _ x s x) by (by rewrite Es). apply list_elem_of_lookup_2, Hr in Es.
  rewrite bind_modify. destruct (IH (set_seedMap (λ m, {[ s ]} ∪ m) x)) as (g & E & Hg).
  { intros j ?. apply Ht. set_solver. }
  { done. }
  { simpl. unfold live in *. simpl. set_solver. }
  exists (λ m, g ({[ s ]} ∪ m)). split; [by rewrite E|done].
Qed.

Lemma drop_seedless_done result x : exec_inv x → NoDup result → (∀ s, s ∈ result → s ∈ live x) →
  ∃ rs x', drop_seedless opts result x = Done rs x' ∧ exec_inv x' ∧ active x' ⊆ active x ∧ keeps x x'.
Proof.
  intros Hx Hnd. revert x Hx. induction Hnd as [|s result Hs Hnd IH]; intros x Hx Hr; simpl.
  { exists [], x. split_and!; try done. }
  rewrite (bind_done _ _ x x x) by done. case_bool_decide.
  - destruct (terminateState_keeps x s Hx) as (x1 & E1 & Hx1 & Ha1 & Hl1 & Hk1); [apply Hr; set_solver|].
    destruct (IH x1 Hx1) as (rs & x2 & E2 & Hx2 & Ha2 & Hk2).
    { intros z Hz. apply Hl1. assert (z ∈ live x) by (apply Hr; set_solver). set_solver. }
    exists (None :: rs), x2. split.
    { rewrite (bind_done _ _ x None x1) by (by erewrite bind_done by done). by erewrite bind_done by done. }
    split_and!; [done|set_solver|by eapply keeps_trans].
  - destruct (IH x Hx) as (rs & x2 & E2 & Hx2 & Ha2 & Hk2); [intros z Hz; apply Hr; set_solver|].
    exists (Some s :: rs), x2. split; [|done]. rewrite (bind_done _ _ x (Some s) x) by done. by erewrite bind_done by done.
Qed.

Lemma exec_inv_seeds x g : exec_inv x → g (seedMap x) ⊆ live x → exec_inv (set_seedMap g x).
Proof. intros [] Hg. by constructor. Qed.

Lemma branch_done x s news targets : exec_inv x → s ∈ live x →
  NoDup news.*1.*1 → (∀ z, z ∈ news.*1.*1 → z ∉ dom (objs x)) →
  (∀ i, i ∈ targets → i ≤ length news)%nat →
  ∃ rs x', branch opts s news targets x = Done rs x' ∧ exec_inv x' ∧
    active x' ⊆ active x ∪ list_to_set news.*1.*1 ∧ keeps x x'.
Proof.
  intros Hx Hs Hnd Hfr Ht. unfold branch.
  destruct (branch_loop_done news x [s] Hx) as (x1 & E1 & Hx1 & El1 & Er1 & Es1 & Ed1 & Hk1); [done|set_solver|done|done|].
  erewrite bind_done by done. rewrite (bind_done _ _ x1 x1 x1) by done.
  assert (∀ z, z ∈ [s] ++ news.*1.*1 → z ∈ live x1) as Hres by (intros z; rewrite El1; set_solver).
  assert (active x1 ⊆ active x ∪ list_to_set news.*1.*1) as Hact1 by (unfold active; rewrite El1, Er1; set_solver).
  case_bool_decide; [|by do 2 eexists].
  rewrite bind_modify. set (x2 := set_seedMap _ x1).
  assert (exec_inv x2) as Hx2 by (apply exec_inv_seeds; [done|destruct Hx1; set_solver]).
  destruct (give_seeds_done ([s] ++ news.*1.*1) targets x2) as (g & E3 & Hg).
  { intros i Hi. apply Ht in Hi. simpl. rewrite !length_fmap. lia. }
  { done. }
  { by destruct Hx2. }
  erewrite bind_done by done. set (x3 := set_seedMap g x2).
  assert (exec_inv x3) as Hx3 by (by apply exec_inv_seeds).
  destruct (OnlyReplaySeeds opts); [|by do 2 eexists].
  destruct (drop_seedless_done ([s] ++ news.*1.*1) x3 Hx3) as (rs & x4 & E4 & Hx4 & Ha4 & Hk4).
  { simpl. constructor; [|done]. intros Hsn. by apply (Hfr s Hsn), (inv_objs _ Hx). }
  { done. }
  exists rs, x4. split_and!; [done|done|by etrans|]. eapply keeps_trans; [done|]. exact Hk4.
Qed.

(** ** The end of a step *)

(** The records while the removed states are dropped one by one. *)
Record loop_ok x : Prop := {
  lo_added : addedStates x = ∅;
  lo_seeds : seedMap x ⊆ states x;
  lo_objs : states x ⊆ dom (objs x);
  lo_ptree : pt_ok (states x) (objs x) (processTree x);
  lo_brtree : UsePathSlicer opts = true → br_ok (states x) (brTree x)
}.

Lemma remove_one_done x s : loop_ok x → s ∈ states x →
  ∃ x', remove_one opts s x = Done tt x' ∧ loop_ok x' ∧ states x' = states x ∖ {[ s ]} ∧
    removedStates x' = removedStates x ∧ searcher x' = searcher x.
Proof.
  intros [Ha Hse Ho Hp Hb] Hs. unfold remove_one. rewrite (bind_done _ _ x x x) by done.
  rewrite bool_decide_true by done. rewrite (bind_done _ _ x tt x) by done. rewrite !bind_modify.
  set (x1 := set_seedMap _ _). assert (s ∈ dom (objs x)) as Hd by set_solver.
  destruct (drop_trees_done (states x) x1 s) as (p & b & E & Hp' & Hb'); [done..|]. erewrite bind_done by done.
  destruct (proj1 (elem_of_dom _ _) Hd) as [o Eo]. unfold es_delete.
  erewrite bind_done by (apply es_load_done; exact Eo). eexists. split; [done|].
  split; [|done]. constructor; simpl; try done.
  - set_solver.
  - rewrite dom_delete_L. set_solver.
  - eapply pt_ok_objs; [done|]. intros z Hz. simpl. rewrite lookup_delete_ne by set_solver. done.
Qed.

Lemma remove_all_done x l : loop_ok x → NoDup l → (∀ s, s ∈ l → s ∈ states x) →
  ∃ x', for_each (remove_one opts) l x = Done tt x' ∧ loop_ok x' ∧ states x' = states x ∖ list_to_set l ∧
    removedStates x' = removedStates x ∧ searcher x' = searcher x.
Proof.
  intros Hx Hl. revert x Hx. induction Hl as [|s l Hs Hl IH]; intros x Hx Hin; simpl.
  { exists x. split_and!; try done. set_solver. }
  destruct (remove_one_done x s Hx) as (x1 & E1 & Hx1 & Es1 & Er1 & Esr1); [apply Hin; set_solver|].
  destruct (IH x1 Hx1) as (x2 & E2 & Hx2 & Es2 & Er2 & Esr2).
  { intros z Hz. rewrite Es1. assert (z ∈ states x) by (apply Hin; set_solver). set_solver. }
  exists x2. split; [by erewrite bind_done by done|]. split_and!; [done| |congruence|congruence].
  rewrite Es2, Es1. set_solver.
Qed.

(** The current state was pruned during its own step. *)
Definition discarded x (current : option sid) : bool :=
  UsePathSlicer opts && negb (MarkPrunedOnly opts) &&
  default false (c ← current; isPruned <$> objs x !! c).

Lemma updateStates_done x e current : exec_inv x → (∀ c, current = Some c → c ∈ dom (objs x)) →
  ∃ x', updateStates opts e current x = Done tt x' ∧ exec_inv x' ∧
    if discarded x current then x' = x
    else states x' = active x ∧ addedStates x' = ∅ ∧ removedStates x' = ∅.
Proof.
  intros [Hdisj Hrem Hseeds Hobjs Hsr Hpt Hbr] Hc. unfold updateStates.
  assert ((match current with
             | Some c => if UsePathSlicer opts then o ← es_load c; mret (isPruned o && negb (MarkPrunedOnly opts))
                         else mret false
             | None => mret false
             end) x = Done (discarded x current) x) as E.
  { unfold discarded. destruct current as [c|]; [|simpl; by rewrite andb_false_r].
    destruct (UsePathSlicer opts); [|done]. destruct (proj1 (elem_of_dom _ _) (Hc c eq_refl)) as [o Eo].
    erewrite bind_done by (by apply es_load_done). simpl. rewrite Eo. simpl. by rewrite andb_comm. }
  erewrite bind_done by exact E. destruct (discarded x current); [by exists x|].
  rewrite (bind_done _ _ x x x) by done.
  destruct (searcher_update_done x e current (addedStates x) (removedStates x) Hsr) as (so & Eu & Hso); [done|set_solver|].
  erewrite bind_done by done. rewrite !bind_modify. set (x1 := set_added _ _).
  assert (states x1 = live x) as El by (unfold live; simpl; set_solver).
  assert (loop_ok x1) as Hx1.
  { constructor; [done|..]; rewrite ?El; simpl; done. }
  destruct (remove_all_done x1 (elements (removedStates x)) Hx1) as (x2 & E2 & Hx2 & Es2 & Er2 & Esr2).
  { apply NoDup_elements. }
  { intros z Hz%elem_of_elements. rewrite El. unfold live. set_solver. }
  erewrite bind_done by done. eexists. split; [done|].
  rewrite list_to_set_elements_L, El in Es2. destruct Hx2 as [Ha2 Hse2 Ho2 Hp2 Hb2].
  assert (live (set_removed (λ _, ∅) x2) = states x2) as El2 by (unfold live; simpl; rewrite Ha2; set_solver).
  split; [|simpl; split_and!; try done; unfold active; set_solver].
  constructor; rewrite ?El2; simpl; try done.
  - rewrite Ha2. set_solver.
  - intros s' Es. rewrite Esr2 in Es. destruct (Hso s' Es) as [? Hh]. split; [done|]. by rewrite Hh, Es2.
Qed.

Lemma select_done x e s : exec_inv x → searcher x = Some s → states x ≠ ∅ →
  ∃ c s', select e x = Done c (set_searcher (Some s') x) ∧ c ∈ states x ∧ exec_inv (set_searcher (Some s') x).
Proof.
  intros [Hdisj Hrem Hseeds Hobjs Hsr Hpt Hbr] Es Hne. destruct (Hsr s Es) as [Hok Hh].
  destruct (wp_done _ _ _ (select_spec e s Hok ltac:(by rewrite Hh))) as (c & s' & E & Hc & Hh' & Hok').
  exists c, s'. split_and!; [|by rewrite <- Hh|].
  - unfold select. rewrite (bind_done _ _ x x x) by done. rewrite Es. unfold zoom. by rewrite E.
  - constructor; simpl; try done. intros ? [= <-]. split; [done|]. by rewrite Hh', Hh.
Qed.

Lemma start_done e s0 s : searcher_ok s → held s = ∅ →
  ∃ x, start e s0 s = Done tt x ∧ exec_inv x ∧ states x = {[ s0 ]} ∧ addedStates x = ∅ ∧ is_Some (searcher x).
Proof.
  intros Hok Hh. unfold start, searcher_update. set (x0 := mkExec _ _ _ _ _ _ _ _).
  rewrite (bind_done _ _ x0 x0 x0) by done. simpl.
  destruct (wp_done _ _ _ (update_spec e None {[ s0 ]} ∅ s Hok ltac:(set_solver) ltac:(set_solver)))
    as ([] & s' & Eu & Hh' & Hok').
  exists (set_searcher (Some s') x0). split; [unfold zoom; by rewrite Eu|].
  split; [|simpl; split_and!; [done|done|eauto]].
  constructor; unfold live; simpl.
  - set_solver.
  - set_solver.
  - set_solver.
  - rewrite dom_singleton_L. set_solver.
  - intros ? [= <-]. split; [done|]. rewrite Hh', Hh. set_solver.
  - exists (pleaf 0 s0). split; [apply new_PTree_repr|]. intros z a. simpl.
    rewrite list_elem_of_singleton. rewrite lookup_singleton. case_decide; subst; set_solver.
  - intros _. exists None. split; [done|]. set_solver.
Qed.
End Inv.
