(* ===== verification/Engine.v ===== *)
(** * Runs of the engine

    A step of the main loop of [Executor::run] selects a state, executes an
    instruction on it and ends with [updateStates].  Here an instruction is the
    list of its calls into the bookkeeping of [ExecStates]; [allowed] is the
    protocol these calls follow.  The theorems hold for every searcher with
    [SearcherSpec], every sequence of steps and every answer of the solver and
    the slicer. *)
From stdpp Require Import fin_sets.
From S2P Require Import Prelude BranchTree Searcher PTree ExecStates ExecInv.

Inductive action : Type :=
| AFork (s ns : sid) (idx : Z) (swap seedsT seedsF deep : bool)
| ABranch (s : sid) (news : list (sid * Z * Z)) (targets : list nat)
| ATerminate (s : sid)
| AExit (e : env) (s : sid) (rmBrs rmCalls : list Z).

Record round := mkRound { r_select : env; r_acts : sid → list action; r_update : env }.

Section Engine.
Context {S : Type} `{SearcherSpec S} (opts : options).
Implicit Types x : Exec S.

Definition do_action (a : action) : M (Exec S) unit :=
  match a with
  | AFork s ns idx swap sT sF deep => _ ← fork opts s ns idx swap sT sF deep; mret tt
  | ABranch s news targets => _ ← branch opts s news targets; mret tt
  | ATerminate s => terminateState opts s
  | AExit e s brs calls => terminateStateOnExit opts e s brs calls
  end.

(** The protocol: a call is about a state that has not ended; a fork is given
    new objects; an exit does not prune a state the searcher has not seen. *)
Definition allowed x (a : action) : Prop :=
  match a with
  | AFork s ns _ _ _ _ _ => s ∈ active x ∧ ns ∉ dom (objs x)
  | ABranch s news targets =>
    s ∈ active x ∧ NoDup news.*1.*1 ∧ Forall (λ z, z ∉ dom (objs x)) news.*1.*1 ∧
    Forall (λ i, i ≤ length news)%nat targets
  | ATerminate s => s ∈ active x
  | AExit _ s brs calls => s ∈ active x ∧ ended_by opts x s brs calls ∖ {[ s ]} ## addedStates x
  end.

#[global] Instance allowed_dec x a : Decision (allowed x a).
Proof. destruct a; simpl; apply _. Defined.

Fixpoint do_actions (l : list action) : M (Exec S) unit :=
  match l with [] => mret tt | a :: l => do_action a;; do_actions l end.
Fixpoint actions_allowed x (l : list action) : Prop :=
  match l with
  | [] => True
  | a :: l => allowed x a ∧ ∀ x', do_action a x = Done tt x' → actions_allowed x' l
  end.

Definition do_round (r : round) : M (Exec S) unit :=
  c ← select (r_select r);
  do_actions (r_acts r c);;
  updateStates opts (r_update r) (Some c).
(** The loop runs while there are states. *)
Definition round_allowed x (r : round) : Prop :=
  states x ≠ ∅ ∧
  ∀ c x', select (r_select r) x = Done c x' → actions_allowed x' (r_acts r c).

Fixpoint do_rounds (rs : list round) : M (Exec S) unit :=
  match rs with [] => mret tt | r :: rs => do_round r;; do_rounds rs end.
Fixpoint rounds_allowed x (rs : list round) : Prop :=
  match rs with
  | [] => True
  | r :: rs => round_allowed x r ∧ ∀ x', do_round r x = Done tt x' → rounds_allowed x' rs
  end.

(** The protocol as a test, for concrete runs. *)
Fixpoint actions_okb x (l : list action) : bool :=
  match l with
  | [] => true
  | a :: l =>
    bool_decide (allowed x a) && match do_action a x with Done _ x' => actions_okb x' l | Halt _ _ => true end
  end.
Fixpoint rounds_okb x (rs : list round) : bool :=
  match rs with
  | [] => true
  | r :: rs =>
    bool_decide (states x ≠ ∅) &&
    match select (r_select r) x with Done c x' => actions_okb x' (r_acts r c) | Halt _ _ => true end &&
    match do_round r x with Done _ x' => rounds_okb x' rs | Halt _ _ => true end
  end.

Lemma actions_okb_allowed x l : actions_okb x l = true → actions_allowed x l.
Proof.
  revert x. induction l as [|a l IH]; intros x; simpl; [done|].
  intros [Ha%bool_decide_eq_true Hl]%andb_prop. split; [done|]. intros x' E. rewrite E in Hl. by apply IH.
Qed.
Lemma rounds_okb_allowed x rs : rounds_okb x rs = true → rounds_allowed x rs.
Proof.
  revert x. induction rs as [|r rs IH]; intros x; simpl; [done|].
  intros [[Hne%bool_decide_eq_true Hr]%andb_prop Hrs]%andb_prop. split.
  - split; [done|]. intros c x' E. rewrite E in Hr. by apply actions_okb_allowed.
  - intros x' E. rewrite E in Hrs. by apply IH.
Qed.

Lemma forked_keeps x x' ns : ns ∉ dom (objs x) → forked opts x x' ns → keeps x x'.
Proof.
  intros Hns [? ? Ha ? Hd ?] c Hc Hca. rewrite Ha, Hd. split; [set_solver|].
  intros [->%elem_of_singleton|?]%elem_of_union; done.
Qed.

Lemma do_action_done x a : exec_inv opts x → allowed x a →
  ∃ x', do_action a x = Done tt x' ∧ exec_inv opts x' ∧ keeps x x'.
Proof.
  intros Hx. assert (active x ⊆ live x) as Hal by (unfold active; set_solver). destruct a as [s ns idx swap sT sF deep|s news targets|s|e s brs calls]; simpl.
  - intros [Hs Hns]. destruct (fork_done opts x s ns idx swap sT sF Hx) as (x1 & E1 & Hf); [set_solver|done|].
    pose proof (forked_keeps _ _ _ Hns Hf) as Hk. destruct Hf as [Hx1 Es1 Ea1 Er1 Ed1 _].
    set (tf := if swap then (ns, s) else (s, ns)) in E1. destruct tf as [u v] eqn:Etf.
    assert (fork opts s ns idx swap sT sF deep x =
              (if deep then terminateState opts u;; terminateState opts v;; mret None
               else mret (Some (u, v))) x1) as E by (unfold fork; by erewrite bind_done by done).
    destruct deep; [|exists x1; by erewrite bind_done by done].
    assert (ns ≠ s) by (intros ->; apply Hns, (inv_objs _ _ Hx); set_solver).
    assert (u ≠ v) by (destruct swap; naive_solver).
    assert (u ∈ live x1 ∧ v ∈ live x1) as [Hu Hv].
    { unfold live in *. rewrite Es1, Ea1. destruct swap; simplify_eq; set_solver. }
    destruct (terminateState_keeps opts x1 u Hx1 Hu) as (x2 & E2 & Hx2 & _ & Hl2 & Hk2).
    destruct (terminateState_keeps opts x2 v Hx2) as (x3 & E3 & Hx3 & _ & _ & Hk3); [set_solver|].
    exists x3. split_and!; [|done|eauto using keeps_trans].
    erewrite bind_done; [done|]. rewrite E. erewrite bind_done by done. by erewrite bind_done by done.
  - intros (Hs & Hnd & Hfr & Ht).
    rewrite Forall_forall in Hfr, Ht.
    destruct (branch_done opts x s news targets Hx) as (rs & x' & E & Hx' & _ & Hk); [set_solver|done..|].
    exists x'. split; [by erewrite bind_done by done|done].
  - intros Hs. destruct (terminateState_keeps opts x s Hx) as (x' & E & Hx' & _ & _ & Hk); [set_solver|by exists x'].
  - intros [Hs Hsafe].
    destruct (terminateStateOnExit_done opts x e s brs calls Hx Hs Hsafe) as (x' & E & Hx' & _ & _ & Ea & [Hd _] & Hd').
    exists x'. split_and!; [done..|]. intros c Hc Hca. rewrite Ea. split; [|set_solver].
    destruct (decide (c = s)) as [->|]; [|set_solver]. rewrite Hd'; [done|]. unfold active, live in Hs. set_solver.
Qed.

(** ** The searcher stays *)

Definition has_searcher x : Prop := is_Some (searcher x).

Lemma preserves_modify_field f : (∀ x, searcher (f x) = searcher x) → preserves has_searcher (modify f).
Proof. intros Hf. apply preserves_modify. intros x. unfold has_searcher. by rewrite Hf. Qed.
Lemma preserves_in_ptree {A} (m : M PTree A) : preserves has_searcher (in_ptree m).
Proof. by apply preserves_zoom. Qed.
Lemma preserves_in_brTree {A} (m : M BranchTree A) : preserves has_searcher (in_brTree m).
Proof. by apply preserves_zoom. Qed.
Lemma preserves_searcher_update e c add rem : preserves has_searcher (searcher_update e c add rem).
Proof.
  unfold searcher_update. apply preserves_bind; [apply preserves_get|]. intros x.
  destruct (searcher x); [|apply preserves_ret]. apply preserves_zoom. intros v w _. by eexists.
Qed.
Lemma preserves_for_each (f : sid → M (Exec S) unit) l :
  (∀ s, preserves has_searcher (f s)) → preserves has_searcher (for_each f l).
Proof. intros Hf. induction l; simpl; [apply preserves_ret|]. by apply preserves_bind. Qed.

#[local] Hint Resolve preserves_in_ptree preserves_in_brTree preserves_searcher_update : preserve.
#[local] Hint Extern 1 (preserves has_searcher (modify _)) => apply preserves_modify_field; done : preserve.

Lemma preserves_es_load s : preserves has_searcher (es_load s).
Proof. unfold es_load. preserving. Qed.
#[local] Hint Resolve preserves_es_load : preserve.
Lemma preserves_drop_trees s : preserves has_searcher (drop_trees opts s).
Proof. unfold drop_trees. preserving. Qed.
Lemma preserves_es_delete s : preserves has_searcher (es_delete s).
Proof. unfold es_delete. preserving. Qed.
Lemma preserves_set_node s a : preserves has_searcher (set_node s a).
Proof. unfold set_node. preserving. Qed.
#[local] Hint Resolve preserves_drop_trees preserves_es_delete preserves_set_node : preserve.
Lemma preserves_terminateState s : preserves has_searcher (terminateState opts s).
Proof. unfold terminateState. preserving. Qed.
Lemma preserves_split_node s y z : preserves has_searcher (split_node s y z).
Proof. unfold split_node. preserving. Qed.
#[local] Hint Resolve preserves_terminateState preserves_split_node : preserve.
Lemma preserves_prune e s : preserves has_searcher (prune opts e s).
Proof. unfold prune, set_isPruned, terminateStateAtOnce. preserving. Qed.
Lemma preserves_find_all s l P : preserves has_searcher (find_all s l P).
Proof. revert P. induction l; simpl; preserving. Qed.
Lemma preserves_branch_loop news l : preserves has_searcher (branch_loop opts news l).
Proof. revert l. induction news as [|[[??]?]]; simpl; unfold es_branch; preserving. Qed.
Lemma preserves_give_seeds l t : preserves has_searcher (give_seeds l t).
Proof. induction t; simpl; preserving. Qed.
Lemma preserves_drop_seedless l : preserves has_searcher (drop_seedless opts l).
Proof. induction l; simpl; preserving. Qed.
#[local] Hint Resolve preserves_prune preserves_find_all preserves_branch_loop preserves_give_seeds
  preserves_drop_seedless preserves_for_each : preserve.
Lemma preserves_remove_one s : preserves has_searcher (remove_one opts s).
Proof. unfold remove_one. preserving. Qed.
#[local] Hint Resolve preserves_remove_one : preserve.

Lemma preserves_do_action a : preserves has_searcher (do_action a).
Proof.
  destruct a; simpl; unfold fork, fork_both, branch, es_branch, terminateStateOnExit, slicingAndPruneStates; preserving.
Qed.
Lemma preserves_updateStates e c : preserves has_searcher (updateStates opts e c).
Proof. unfold updateStates. preserving. Qed.

(** ** Steps and runs *)

Lemma do_actions_done l x : exec_inv opts x → has_searcher x → actions_allowed x l →
  ∃ x', do_actions l x = Done tt x' ∧ exec_inv opts x' ∧ has_searcher x' ∧ keeps x x'.
Proof.
  revert x. induction l as [|a l IH]; intros x Hx Hs Hl; simpl.
  { exists x. split_and!; done. }
  destruct Hl as [Ha Hl]. destruct (do_action_done x a Hx Ha) as (x1 & E1 & Hx1 & Hk1).
  pose proof (preserves_do_action a x Hs) as Hs1. unfold wlp in Hs1. rewrite E1 in Hs1.
  destruct (IH x1 Hx1 Hs1 (Hl _ E1)) as (x2 & E2 & Hx2 & Hs2 & Hk2).
  exists x2. split_and!; [by erewrite bind_done by done|done|done|by eapply keeps_trans].
Qed.

Lemma do_round_done r x : exec_inv opts x → has_searcher x → round_allowed x r →
  ∃ c x1 x2, select (r_select r) x = Done c x1 ∧ c ∈ states x ∧ do_actions (r_acts r c) x1 = Done tt x2 ∧
  ∃ x', do_round r x = Done tt x' ∧ exec_inv opts x' ∧ has_searcher x' ∧
    if discarded opts x2 (Some c) then x' = x2
    else states x' = active x2 ∧ addedStates x' = ∅ ∧ removedStates x' = ∅.
Proof.
  intros Hx [s Es] [Hne Hacts].
  destruct (select_done opts x (r_select r) s Hx Es Hne) as (c & s' & E1 & Hc & Hx1).
  set (x1 := set_searcher (Some s') x) in *.
  destruct (do_actions_done (r_acts r c) x1 Hx1) as (x2 & E2 & Hx2 & Hs2 & Hk2); [by eexists|by apply Hacts|].
  destruct (updateStates_done opts x2 (r_update r) (Some c) Hx2) as (x3 & E3 & Hx3 & Hpost).
  { intros ? [= <-]. apply Hk2; simpl.
    - apply (inv_objs _ _ Hx). unfold live. set_solver.
    - intros Hca. apply (inv_disj _ _ Hx c Hc Hca). }
  exists c, x1, x2. split_and!; [done..|]. exists x3. split_and!; [|done| |done].
  - unfold do_round. erewrite bind_done by done. by erewrite bind_done by done.
  - pose proof (preserves_updateStates (r_update r) (Some c) x2 Hs2) as Hs3. unfold wlp in Hs3. by rewrite E3 in Hs3.
Qed.

Lemma do_rounds_done rs x : exec_inv opts x → has_searcher x → rounds_allowed x rs →
  ∃ x', do_rounds rs x = Done tt x' ∧ exec_inv opts x' ∧ has_searcher x'.
Proof.
  revert x. induction rs as [|r rs IH]; intros x Hx Hs Hrs; simpl; [by exists x|].
  destruct Hrs as [Hr Hrs]. destruct (do_round_done r x Hx Hs Hr) as (_ & _ & _ & _ & _ & _ & x1 & E1 & Hx1 & Hs1 & _).
  destruct (IH x1 Hx1 Hs1 (Hrs _ E1)) as (x2 & E2 & Hx2 & Hs2). exists x2. by erewrite bind_done by done.
Qed.
End Engine.

(** C1: Safety of the engine's bookkeeping.  For every searcher that keeps its
    promise, every options and every sequence of steps that follows the
    protocol, the run returns: no assertion of the searchers, the process tree,
    the branch tree or [updateStates] fails, no deleted state or node is
    touched, no loop runs on; and the records are consistent at the end. *)
Theorem engine_safe {S} `{SearcherSpec S} (opts : options) (e : env) (s0 : sid) (sr : S) (rs : list round) x0 :
  searcher_ok sr → held sr = ∅ → start e s0 sr = Done tt x0 → rounds_allowed opts x0 rs →
  ∃ x, do_rounds opts rs x0 = Done tt x ∧ exec_inv opts x ∧
    (∀ s, searcher x = Some s → held s = states x).
Proof.
  intros Hok Hh E Hrs. destruct (start_done opts e s0 sr Hok Hh) as (x0' & E' & Hx0 & _ & _ & Hs0).
  rewrite E in E'. simplify_eq. destruct (do_rounds_done opts rs x0' Hx0 Hs0 Hrs) as (x & Ex & Hx & _).
  exists x. split_and!; [done|done|]. intros s Es. apply (inv_searcher _ _ Hx s Es).
Qed.

(** A depth-first run with the slicer: state 0 forks twice; then state 1, which
    runs next, forks and exits, and the slicer drops the branch 7 for it. *)
Definition demo_env : env := mkEnv 0 false false.
Definition demo_opts : options := mkOptions true false false.
Definition demo_rounds : list round :=
  [ mkRound demo_env (λ c, [AFork c 1 5 false true true false; AFork c 2 6 true true true false]) demo_env;
    mkRound demo_env (λ c, [AFork c 3 7 false true true false]) demo_env;
    mkRound demo_env (λ c, [AExit demo_env c [7] []]) demo_env ].
Definition demo_start : Exec DFSSearcher := final (start demo_env 0 (mkDFS [])).

Lemma engine_safe_witness :
  ∃ x, do_rounds demo_opts demo_rounds demo_start = Done tt x ∧ exec_inv demo_opts x ∧
    (∀ s, searcher x = Some s → held s = states x).
Proof.
  apply (engine_safe demo_opts demo_env 0 (mkDFS []) demo_rounds demo_start).
  - apply NoDup_nil_2.
  - reflexivity.
  - vm_compute. reflexivity.
  - apply rounds_okb_allowed. vm_compute. reflexivity.
Defined.

(** C2: No state is lost.  A step that does not prune its own state ends with
    nothing pending: the states are exactly those that were live and did not
    end, and the searcher holds just them.  The process tree is well formed and
    its leaves are exactly these states, each at the node its state records, so
    no state is without a leaf and no leaf is left of a state that ended; while
    there is a state, the random walk over the tree finds one of them. *)
Theorem no_state_lost {S} `{SearcherSpec S} (opts : options) (x : Exec S) (r : round) :
  exec_inv opts x → has_searcher x → round_allowed opts x r →
  ∃ c x1 x2 x', select (r_select r) x = Done c x1 ∧ do_actions opts (r_acts r c) x1 = Done tt x2 ∧
    do_round opts r x = Done tt x' ∧
    (discarded opts x2 (Some c) = false →
     states x' = active x2 ∧ addedStates x' = ∅ ∧ removedStates x' = ∅ ∧
     (∀ s, searcher x' = Some s → held s = active x2) ∧
     (∃ t, ptree_repr (processTree x') t ∧ NoDup (leaves t).*1 ∧
        ∀ s a, (s, a) ∈ leaves t ↔ s ∈ active x2 ∧ ptreeNode <$> objs x' !! s = Some a) ∧
     active x2 ⊆ dom (objs x') ∧
     (∀ words, active x2 ≠ ∅ →
        ∃ s, random_path_select words (processTree x') = Done s (processTree x') ∧ s ∈ active x2)).
Proof.
  intros Hx Hs Hr. destruct (do_round_done opts r x Hx Hs Hr) as (c & x1 & x2 & E1 & _ & E2 & x' & E3 & Hx' & _ & Hpost).
  exists c, x1, x2, x'. split_and!; [done..|]. intros Hd. rewrite Hd in Hpost. destruct Hpost as (Es & Ea & Er).
  assert (live x' = active x2) as El by (unfold live; rewrite Es, Ea; set_solver).
  destruct (inv_ptree _ _ Hx') as (t & Ht & Hl). rewrite El in Hl.
  split_and!; [done..| | | |].
  - intros s Esr. rewrite <- Es. apply (inv_searcher _ _ Hx' s Esr).
  - exists t. split_and!; [done| |done]. apply (pr_leaves _ _ Ht).
  - rewrite <- El. apply (inv_objs _ _ Hx').
  - intros words Hne. destruct (random_path_select_live _ _ words Ht) as (s & E & Hin).
    + intros ->. apply Hne, set_eq. intros z. split; [|set_solver]. intros Hz. rewrite <- El in Hz.
      destruct (proj1 (elem_of_dom _ _) (inv_objs _ _ Hx' z Hz)) as [o Eo].
      assert ((z, ptreeNode o) ∈ leaves PEmpty) as []%elem_of_nil. apply Hl. by rewrite Eo, <- El.
    + exists s. split; [done|]. apply list_elem_of_fmap in Hin as ([s' a] & -> & Hin). by apply Hl in Hin as [? _].
Qed.

Lemma no_state_lost_witness :
  ∃ c x1 x2 x', select demo_env demo_start = Done c x1 ∧
    do_actions demo_opts [AFork c 1 5 false true true false; ATerminate c] x1 = Done tt x2 ∧
    do_round demo_opts (mkRound demo_env (λ c, [AFork c 1 5 false true true false; ATerminate c]) demo_env) demo_start
      = Done tt x' ∧
    (discarded demo_opts x2 (Some c) = false →
     states x' = active x2 ∧ addedStates x' = ∅ ∧ removedStates x' = ∅ ∧
     (∀ s, searcher x' = Some s → held s = active x2) ∧
     (∃ t, ptree_repr (processTree x') t ∧ NoDup (leaves t).*1 ∧
        ∀ s a, (s, a) ∈ leaves t ↔ s ∈ active x2 ∧ ptreeNode <$> objs x' !! s = Some a) ∧
     active x2 ⊆ dom (objs x') ∧
     (∀ words, active x2 ≠ ∅ →
        ∃ s, random_path_select words (processTree x') = Done s (processTree x') ∧ s ∈ active x2)).
Proof.
  apply (no_state_lost demo_opts demo_start
           (mkRound demo_env (λ c, [AFork c 1 5 false true true false; ATerminate c]) demo_env)).
  - destruct (start_done demo_opts demo_env 0%nat (mkDFS [])) as (x & E & Hx & _); [apply NoDup_nil_2|reflexivity|].
    unfold demo_start. rewrite E. exact Hx.
  - by eexists.
  - assert (rounds_allowed demo_opts demo_start
      [mkRound demo_env (λ c, [AFork c 1 5 false true true false; ATerminate c]) demo_env]) as [Hr _];
      [apply rounds_okb_allowed; vm_compute; reflexivity|exact Hr].
Defined.

(** ** Pruning within a step *)

(** C39: The exception in the protocol is needed: [terminateStateAtOnce] tells the
    searcher to remove a pruned state, and when that state was forked in the
    same step, so that the searcher has not seen it, the depth-first searcher's
    assertion "invalid state removed" fails. *)
Theorem prune_new_state_fails (opts : options) (e : env) (x : Exec DFSSearcher) (sr : DFSSearcher) (s : sid) :
  exec_inv opts x → searcher x = Some sr → states x ≠ ∅ → s ∈ addedStates x →
  ∃ x', terminateStateAtOnce opts e s x = Halt AssertFailure x'.
Proof.
  intros Hx Es Hne Hs. destruct (inv_searcher _ _ Hx sr Es) as [Hnd Hh]. destruct sr as [l]. simpl in *.
  assert (s ∉ l) as Hsl.
  { intros Hin. apply (inv_disj _ _ Hx s); [|done]. rewrite <- Hh. by apply elem_of_list_to_set. }
  assert (l ≠ []) as Hl by (intros ->; apply Hne; by rewrite <- Hh).
  assert (∃ l', dfs_update ∅ {[ s ]} l = Halt AssertFailure l') as [l' E].
  { unfold dfs_update. rewrite bind_modify, elements_empty, app_nil_r, elements_singleton. simpl.
    destruct l as [|b l _] using rev_ind; [done|].
    eexists. apply bind_halt. unfold dfs_remove. rewrite (bind_done _ _ _ (l ++ [b]) (l ++ [b])) by done.
    rewrite (bind_done _ _ _ b (l ++ [b])) by (unfold vec_back; by rewrite last_snoc).
    rewrite bool_decide_false by (intros ->; apply Hsl; set_solver).
    unfold erase_checked. rewrite (bind_done _ _ _ (l ++ [b]) (l ++ [b])) by done.
    assert ((erase_first s (l ++ [b])).1 = false) as Ef.
    { revert Hsl. generalize (l ++ [b]). clear. induction l as [|y l IH]; [done|].
      intros [? ?]%not_elem_of_cons. simpl. rewrite bool_decide_false by done.
      specialize (IH H0). by destruct (erase_first s l). }
    rewrite (surjective_pairing (erase_first s (l ++ [b]))), Ef. reflexivity. }
  unfold terminateStateAtOnce. eexists. apply bind_halt. unfold searcher_update.
  rewrite (bind_done _ _ x x x) by done. rewrite Es. unfold zoom at 1. simpl update. unfold lift_dfs, zoom. simpl dfs_states.
  rewrite E. reflexivity.
Qed.

Lemma prune_new_state_fails_witness :
  ∃ x x', do_actions demo_opts [AFork 0 1 5 false true true false] demo_start = Done tt x ∧
    terminateStateAtOnce demo_opts demo_env 1 x = Halt AssertFailure x'.
Proof.
  destruct (start_done demo_opts demo_env 0%nat (mkDFS [])) as (x0 & E0 & Hx0 & _); [apply NoDup_nil_2|reflexivity|].
  assert (demo_start = x0) as Ed by (unfold demo_start; by rewrite E0). rewrite <- Ed in *.
  destruct (do_actions_done demo_opts [AFork 0 1 5 false true true false] demo_start Hx0) as (x & E & Hx & _).
  - by eexists.
  - apply actions_okb_allowed. vm_compute. reflexivity.
  - exists x.
    assert (states x = {[ 0%nat ]} ∧ addedStates x = {[ 1%nat ]} ∧ searcher x = Some (mkDFS [0%nat])) as (Es & Ea & Er).
    { vm_compute in E. simplify_eq. split_and!; vm_compute; reflexivity. }
    destruct (prune_new_state_fails demo_opts demo_env x (mkDFS [0%nat]) 1) as [x' Ex']; [done|done|set_solver|set_solver|].
    by exists x'.
Defined.

(** C40: A step that prunes its own state puts its new states off.  The early
    return of [updateStates] leaves the records as the instruction left them:
    the states forked in the step stay pending, live but unknown to the
    searcher.  If no state is left in [states] the loop ends there and the
    pending ones are never run; otherwise the next step that does not prune its
    own state takes in those that are still active. *)
Theorem pruned_step_defers {S} `{SearcherSpec S} (opts : options) (x x1 x2 : Exec S) (r : round) (c : sid) :
  exec_inv opts x → has_searcher x → round_allowed opts x r →
  select (r_select r) x = Done c x1 → do_actions opts (r_acts r c) x1 = Done tt x2 →
  discarded opts x2 (Some c) = true →
  do_round opts r x = Done tt x2 ∧
  (∀ s z, searcher x2 = Some s → z ∈ addedStates x2 → z ∈ live x2 ∧ z ∉ held s) ∧
  (states x2 = ∅ → ∀ rs, rounds_allowed opts x2 rs → rs = []) ∧
  (∀ r' c' x3 x4, round_allowed opts x2 r' →
     select (r_select r') x2 = Done c' x3 → do_actions opts (r_acts r' c') x3 = Done tt x4 →
     discarded opts x4 (Some c') = false →
     ∃ x', do_round opts r' x2 = Done tt x' ∧ states x' = active x4 ∧
       ∀ s, searcher x' = Some s → held s = active x4).
Proof.
  intros Hx Hs Hr E1 E2 Hd.
  destruct (do_round_done opts r x Hx Hs Hr) as (? & ? & ? & E1' & _ & E2' & x' & E3 & Hx2 & Hs2 & Hpost).
  rewrite E1 in E1'. simplify_eq. rewrite E2 in E2'. simplify_eq. rewrite Hd in Hpost. subst.
  split_and!; [done| | |].
  - intros s z Es Hz. destruct (inv_searcher _ _ Hx2 s Es) as [_ ->].
    pose proof (inv_disj _ _ Hx2). unfold live. set_solver.
  - intros He [|r' rs]; [done|]. by intros [[Hne _] _].
  - intros r' c' y z Hr' F1 F2 Hd'.
    destruct (do_round_done opts r' _ Hx2 Hs2 Hr') as (? & ? & ? & F1' & _ & F2' & x' & F3 & Hx' & _ & Hq).
    rewrite F1 in F1'. simplify_eq. rewrite F2 in F2'. simplify_eq. rewrite Hd' in Hq. destruct Hq as (Es & _ & _).
    exists x'. split_and!; [done..|]. intros s Esr. rewrite <- Es. apply (inv_searcher _ _ Hx' s Esr).
Qed.

(** State 0 forks state 1, state 1 forks state 2, and state 2 exits, whose slice
    prunes state 0, the current state: the loop ends although state 1 is live
    and was never run. *)
Lemma pruned_step_defers_witness :
  let acts := [AFork 0 1 5 false true true false; AFork 1 2 7 false true true false; AExit demo_env 2 [5] []] in
  let r := mkRound demo_env (λ _, acts) demo_env in
  let x2 := final (do_actions demo_opts acts demo_start) in
  states x2 = ∅ ∧ active x2 = {[ 1%nat ]} ∧ do_round demo_opts r demo_start = Done tt x2 ∧
  ∀ rs, rounds_allowed demo_opts x2 rs → rs = [].
Proof.
  intros acts r x2.
  assert (rounds_allowed demo_opts demo_start [r]) as [Hr _]; [apply rounds_okb_allowed; vm_compute; reflexivity|].
  assert (states x2 = ∅) as Ee by (vm_compute; reflexivity).
  destruct (pruned_step_defers demo_opts demo_start demo_start x2 r 0%nat) as (E & _ & Hend & _).
  - destruct (start_done demo_opts demo_env 0%nat (mkDFS [])) as (x & E & Hx & _); [apply NoDup_nil_2|reflexivity|].
    unfold demo_start. rewrite E. exact Hx.
  - by eexists.
  - exact Hr.
  - vm_compute. reflexivity.
  - vm_compute. reflexivity.
  - vm_compute. reflexivity.
  - split_and!; [exact Ee|vm_compute; reflexivity|exact E|exact (Hend Ee)].
Defined.
