(* ===== verification/KTest.v ===== *)
(** * Test case files

    src/klee/lib/Basic/KTest.cpp: the files in which the engine stores a test
    case and from which the replay tools load it.  A [FILE] open for reading is
    the list of bytes not yet read; one open for writing is the list of bytes
    written and the number the device still takes.  [malloc] and [calloc] are
    decided by the parameter [alloc], a function of the size.  A function that
    returns 0 on an error and stores its result through a pointer returns an
    option here; [goto error] is the result [None] (the block at the label frees
    what was allocated and returns 0). *)
From S2P Require Import Prelude FsInit Replay FsTypes HostModel.

Definition KTEST_VERSION : Z := 3.
Definition KTEST_MAGIC_SIZE : nat := 5.
Definition KTEST_MAGIC : list Z := [75; 84; 69; 83; 84].      (** KTEST *)
Definition BOUT_MAGIC : list Z := [66; 79; 85; 84; 10].       (** BOUT and a newline *)

(** A C string: its bytes up to the terminating 0. *)
Abbreviation cstr := (list Z).

Record KTestObject := mkKTestObject { obj_name : cstr; numBytes : Z; obj_bytes : list Z }.

Record KTest := mkKTest {
  version : Z;
  numArgs : Z;
  args : list cstr;
  symArgvs : Z;
  symArgvLen : Z;
  numObjects : Z;
  objects : list KTestObject
}.

Definition kTest_getCurrentVersion : Z := KTEST_VERSION.

(** Continue unless the call has failed. *)
Definition try_bind {W A B} (m : M W (option A)) (k : A → M W (option B)) : M W (option B) :=
  r ← m; match r with Some a => k a | None => mret None end.
Notation "x ?← m ; k" := (try_bind m (λ x, k)) (at level 20, m at level 100, k at level 200, only parsing).

(** ** Reading *)

Definition rfile : Type := list Z.

(** [fread(buf, size, 1, f)]: a size of 0 gives 0 members; a short file is used
    up.  The buffer has [room] bytes. *)
Definition fread (room size : Z) : M rfile (option (list Z)) :=
  f ← get;
  let got := take (Z.to_nat size) f in
  put (drop (Z.to_nat size) f);;
  if bool_decide (Z.of_nat (length got) ≤ room) then
    if (size =? 0) || (Z.of_nat (length f) <? size) then mret None else mret (Some got)
  else halt MemoryError.

Definition be32 (d : list Z) : Z :=
  match d with
  | [d0; d1; d2; d3] =>
    u32 (Z.shiftl (Z.shiftl (Z.shiftl d0 8 + d1) 8 + d2) 8 + d3)
  | _ => 0
  end.

Definition read_uint32 : M rfile (option Z) :=
  data ?← fread 4 4; mret (Some (be32 data)).

Section Read.
Context (alloc : Z → bool).

(** The bytes up to the first 0 are the string the program sees. *)
Fixpoint c_string (l : list Z) : cstr :=
  match l with
  | [] => []
  | c :: l => if c =? 0 then [] else c :: c_string l
  end.

(** [malloc(len+1)] with [unsigned len]: the sum wraps. *)
Definition read_string : M rfile (option cstr) :=
  len ?← read_uint32;
  let room := u32 (len + 1) in
  if alloc room then
    l ?← fread room len; mret (Some (c_string l))
  else mret None.

Definition kTest_checkHeader : M rfile (option unit) :=
  header ?← fread 5 (Z.of_nat KTEST_MAGIC_SIZE);
  if bool_decide (header ≠ KTEST_MAGIC) && bool_decide (header ≠ BOUT_MAGIC) then mret None
  else mret (Some tt).

(** [for (i=0; i<n; i++)] over the strings and over the objects. *)
Fixpoint read_args (fuel : nat) (n : Z) : M rfile (option (list cstr)) :=
  if n <=? 0 then mret (Some [])
  else
    match fuel with
    | O => halt NoFuel
    | S fuel => s ?← read_string; l ?← read_args fuel (n - 1); mret (Some (s :: l))
    end.

(** The result of [malloc] for the bytes is not tested: reading into NULL is an
    invalid access. *)
Definition read_object : M rfile (option KTestObject) :=
  name ?← read_string;
  n ?← read_uint32;
  b ?← fread (if alloc n then n else 0) n;
  mret (Some (mkKTestObject name n b)).

Fixpoint read_objects (fuel : nat) (n : Z) : M rfile (option (list KTestObject)) :=
  if n <=? 0 then mret (Some [])
  else
    match fuel with
    | O => halt NoFuel
    | S fuel => o ?← read_object; l ?← read_objects fuel (n - 1); mret (Some (o :: l))
    end.

(** [kTest_fromFile] after [fopen]: [sizeof] of the structures is 48, 8 and 24. *)
Definition kTest_read (fuel : nat) : M rfile (option KTest) :=
  _ ?← kTest_checkHeader;
  if negb (alloc 48) then mret None else
  version ?← read_uint32;
  if kTest_getCurrentVersion <? version then mret None else
  nargs ?← read_uint32;
  if negb (alloc (nargs * 8)) then mret None else
  l ?← read_args fuel nargs;
  sa ?← (if 2 <=? version then
           a ?← read_uint32; b ?← read_uint32; mret (Some (a, b))
         else mret (Some (0, 0)));
  nobjs ?← read_uint32;
  if negb (alloc (nobjs * 24)) then mret None else
  objs ?← read_objects fuel nobjs;
  mret (Some (mkKTest version nargs l sa.1 sa.2 nobjs objs)).

(** The file system: [None] is a file that cannot be opened. *)
Definition kTest_fromFile (file : option (list Z)) : option (outcome rfile (option KTest)) :=
  f ← file; Some (kTest_read (S (length f)) f).

Definition kTest_isKTestFile (file : option (list Z)) : Z :=
  match file with
  | None => 0
  | Some f => match result (kTest_checkHeader f) with Some (Some _) => 1 | _ => 0 end
  end.
End Read.

(** ** Writing *)

Record wfile := mkWfile { written : list Z; space : Z }.

(** [fwrite(buf, size, 1, f)]; what does not fit is not written. *)
Definition fwrite (b : list Z) (size : Z) : M wfile (option unit) :=
  if bool_decide (size ≤ Z.of_nat (length b)) then
    f ← get;
    let b := take (Z.to_nat size) b in
    if space f <? size then
      put (mkWfile (written f ++ take (Z.to_nat (space f)) b) 0);; mret None
    else
      put (mkWfile (written f ++ b) (space f - size));;
      if size =? 0 then mret None else mret (Some tt)
  else halt MemoryError.

Definition u32_bytes (v : Z) : list Z :=
  [u8 (Z.shiftr v 24); u8 (Z.shiftr v 16); u8 (Z.shiftr v 8); u8 (Z.shiftr v 0)].

Definition write_uint32 (v : Z) : M wfile (option unit) := fwrite (u32_bytes v) 4.

Definition write_string (s : cstr) : M wfile (option unit) :=
  let len := u32 (Z.of_nat (length s)) in
  _ ?← write_uint32 len;
  fwrite s len.

(** [for (i=0; i<n; i++) write(a[i])]. *)
Fixpoint write_each {A} (write : A → M wfile (option unit)) (n : nat) (l : list A) : M wfile (option unit) :=
  match n with
  | O => mret (Some tt)
  | S n =>
    match l with
    | [] => halt MemoryError
    | a :: l => _ ?← write a; write_each write n l
    end
  end.

Definition write_object (o : KTestObject) : M wfile (option unit) :=
  _ ?← write_string (obj_name o);
  _ ?← write_uint32 (numBytes o);
  fwrite (obj_bytes o) (numBytes o).

Definition kTest_write (bo : KTest) : M wfile (option unit) :=
  _ ?← fwrite KTEST_MAGIC (Z.of_nat (length KTEST_MAGIC));
  _ ?← write_uint32 KTEST_VERSION;
  _ ?← write_uint32 (numArgs bo);
  _ ?← write_each write_string (Z.to_nat (numArgs bo)) (args bo);
  _ ?← write_uint32 (symArgvs bo);
  _ ?← write_uint32 (symArgvLen bo);
  _ ?← write_uint32 (numObjects bo);
  write_each write_object (Z.to_nat (numObjects bo)) (objects bo).

(** [kTest_toFile]: the value returned and the contents of the file; [device] is
    [None] when the file cannot be opened. *)
Definition kTest_toFile (bo : KTest) (device : option Z) : outcome (list Z) Z :=
  match device with
  | None => Done 0 []
  | Some n =>
    match kTest_write bo (mkWfile [] n) with
    | Done (Some _) f => Done 1 (written f)
    | Done None f => Done 0 (written f)
    | Halt e f => Halt e (written f)
    end
  end.

Definition kTest_numBytes (bo : KTest) : Z :=
  foldl (λ res o, u32 (res + numBytes o)) 0 (take (Z.to_nat (numObjects bo)) (objects bo)).

(** ** Test case files: what is written is read back
    The encoding of a test case is a list of bytes ([encode]); writing appends
    it, reading removes it.  [kTest_toFile] fails on every test case that has an
    empty string or an object without bytes. *)
(** ** Encoding *)

Definition encode_string (s : cstr) : list Z := u32_bytes (Z.of_nat (length s)) ++ s.
Definition encode_object (o : KTestObject) : list Z :=
  encode_string (obj_name o) ++ u32_bytes (numBytes o) ++ obj_bytes o.
Definition encode (bo : KTest) : list Z :=
  KTEST_MAGIC ++ u32_bytes KTEST_VERSION ++ u32_bytes (numArgs bo) ++
  concat (encode_string <$> args bo) ++ u32_bytes (symArgvs bo) ++ u32_bytes (symArgvLen bo) ++
  u32_bytes (numObjects bo) ++ concat (encode_object <$> objects bo).

(** The test cases the format can hold. *)
Definition string_ok (s : cstr) : Prop := Forall (λ c, 0 < c < 256) s ∧ Z.of_nat (length s) < 2 ^ 32 - 1.
Record object_ok (o : KTestObject) : Prop := {
  oo_name : string_ok (obj_name o);
  oo_len : numBytes o = Z.of_nat (length (obj_bytes o));
  oo_size : numBytes o < 2 ^ 32
}.
Record test_ok (bo : KTest) : Prop := {
  to_nargs : numArgs bo = Z.of_nat (length (args bo)) ∧ numArgs bo < 2 ^ 32;
  to_args : Forall string_ok (args bo);
  to_sym : 0 ≤ symArgvs bo < 2 ^ 32 ∧ 0 ≤ symArgvLen bo < 2 ^ 32;
  to_nobjs : numObjects bo = Z.of_nat (length (objects bo)) ∧ numObjects bo < 2 ^ 32;
  to_objs : Forall object_ok (objects bo)
}.

(** No empty string and no object without bytes. *)
Definition nonempty_object (o : KTestObject) : Prop := obj_name o ≠ [] ∧ obj_bytes o ≠ [].
Definition nonempty_test (bo : KTest) : Prop :=
  Forall (λ s, s ≠ []) (args bo) ∧ Forall nonempty_object (objects bo).

#[global] Instance nonempty_object_dec o : Decision (nonempty_object o) := _.
#[global] Instance nonempty_test_dec bo : Decision (nonempty_test bo) := _.

Lemma be32_bytes v : 0 ≤ v < 2 ^ 32 → be32 (u32_bytes v) = v.
Proof.
  intros Hv. unfold be32, u32_bytes. rewrite !Z.shiftl_mul_pow2, !Z.shiftr_div_pow2 by lia.
  unfold wrapu. change (2 ^ 8) with 256. change (2 ^ 24) with 16777216. change (2 ^ 16) with 65536.
  change (2 ^ 0) with 1. rewrite pow2_32 in *. rewrite Z.div_1_r.
  assert (v / 65536 = (v / 256) / 256) as -> by (rewrite Z.div_div by lia; done).
  assert (v / 16777216 = (v / 256) / 256 / 256) as -> by (rewrite !Z.div_div by lia; done).
  pose proof (Z.div_mod v 256). pose proof (Z.mod_pos_bound v 256).
  pose proof (Z.div_mod (v / 256) 256). pose proof (Z.mod_pos_bound (v / 256) 256).
  pose proof (Z.div_mod (v / 256 / 256) 256). pose proof (Z.mod_pos_bound (v / 256 / 256) 256).
  assert (0 ≤ v / 256 / 256 / 256 < 256) by lia.
  rewrite (Z.mod_small (v / 256 / 256 / 256)) by lia.
  rewrite Z.mod_small by lia. lia.
Qed.

(** ** Reading an encoding *)

Lemma try_done {W A B} (m : M W (option A)) (k : A → M W (option B)) w a w' :
  m w = Done (Some a) w' → try_bind m k w = k a w'.
Proof. intros E. unfold try_bind. by rewrite (bind_done _ _ _ _ _ E). Qed.
Lemma try_fail {W A B} (m : M W (option A)) (k : A → M W (option B)) w w' :
  m w = Done None w' → try_bind m k w = Done None w'.
Proof. intros E. unfold try_bind. by rewrite (bind_done _ _ _ _ _ E). Qed.

Lemma fread_app room l rest : l ≠ [] → Z.of_nat (length l) ≤ room →
  fread room (Z.of_nat (length l)) (l ++ rest) = Done (Some l) rest.
Proof.
  intros Hl Hr. unfold fread. rewrite (bind_done _ _ _ (l ++ rest) (l ++ rest)) by done.
  rewrite Nat2Z.id, take_app_length, drop_app_length. rewrite (bind_done _ _ _ tt rest) by done.
  rewrite bool_decide_true by done. rewrite length_app.
  destruct (Z.eqb_spec (Z.of_nat (length l)) 0); [destruct l; simpl in *; [done|lia]|].
  destruct (Z.ltb_spec (Z.of_nat (length l + length rest)) (Z.of_nat (length l))); [lia|done].
Qed.

Lemma read_uint32_bytes v rest : 0 ≤ v < 2 ^ 32 → read_uint32 (u32_bytes v ++ rest) = Done (Some v) rest.
Proof.
  intros Hv. unfold read_uint32. erewrite try_done by (by apply (fread_app 4 (u32_bytes v))).
  by rewrite be32_bytes.
Qed.

Lemma c_string_id s : Forall (λ c, 0 < c < 256) s → c_string s = s.
Proof. induction 1 as [|c s Hc _ IH]; simpl; [done|]. destruct (Z.eqb_spec c 0); [lia|]. by rewrite IH. Qed.

Section Reading.
Context (alloc : Z → bool) (Halloc : ∀ n, alloc n = true).

Lemma read_string_encode s rest : string_ok s → s ≠ [] →
  read_string alloc (encode_string s ++ rest) = Done (Some s) rest.
Proof.
  intros [Hs Hl] Hne. unfold read_string, encode_string. rewrite <- app_assoc.
  erewrite try_done by (apply read_uint32_bytes; lia). rewrite Halloc.
  erewrite try_done by (apply fread_app; [done|rewrite wrapu_small by lia; lia]).
  by rewrite c_string_id.
Qed.

Lemma read_object_encode o rest : object_ok o → nonempty_object o →
  read_object alloc (encode_object o ++ rest) = Done (Some o) rest.
Proof.
  intros [Hn Hl Hs] [Hne Hb]. unfold read_object, encode_object. rewrite <- !app_assoc.
  erewrite try_done by (by apply read_string_encode).
  erewrite try_done by (apply read_uint32_bytes; lia). rewrite Halloc.
  rewrite Hl at 1 2. erewrite try_done by (apply fread_app; [done|lia]). by destruct o.
Qed.

Lemma read_args_encode l fuel rest : Forall string_ok l → Forall (λ s, s ≠ []) l → (length l ≤ fuel)%nat →
  read_args alloc fuel (Z.of_nat (length l)) (concat (encode_string <$> l) ++ rest) = Done (Some l) rest.
Proof.
  intros Hl. revert fuel. induction Hl as [|s l Hs Hl IH]; intros fuel Hne Hf; [by destruct fuel|].
  apply Forall_cons in Hne as [? ?]. destruct fuel as [|fuel]; [simpl in Hf; lia|].
  cbn [read_args]. destruct (Z.leb_spec (Z.of_nat (length (s :: l))) 0); [simpl in *; lia|].
  cbn [fmap list_fmap concat]. rewrite <- app_assoc. erewrite try_done by (by apply read_string_encode).
  replace (Z.of_nat (length (s :: l)) - 1) with (Z.of_nat (length l)) by (simpl; lia).
  erewrite try_done by (apply IH; [done|simpl in Hf; lia]). done.
Qed.

Lemma read_objects_encode l fuel rest : Forall object_ok l → Forall nonempty_object l → (length l ≤ fuel)%nat →
  read_objects alloc fuel (Z.of_nat (length l)) (concat (encode_object <$> l) ++ rest) = Done (Some l) rest.
Proof.
  intros Hl. revert fuel. induction Hl as [|s l Hs Hl IH]; intros fuel Hne Hf; [by destruct fuel|].
  apply Forall_cons in Hne as [? ?]. destruct fuel as [|fuel]; [simpl in Hf; lia|].
  cbn [read_objects]. destruct (Z.leb_spec (Z.of_nat (length (s :: l))) 0); [simpl in *; lia|].
  cbn [fmap list_fmap concat]. rewrite <- app_assoc. erewrite try_done by (by apply read_object_encode).
  replace (Z.of_nat (length (s :: l)) - 1) with (Z.of_nat (length l)) by (simpl; lia).
  erewrite try_done by (apply IH; [done|simpl in Hf; lia]). done.
Qed.

Lemma kTest_read_encode bo fuel rest : test_ok bo → nonempty_test bo →
  (length (args bo) ≤ fuel)%nat → (length (objects bo) ≤ fuel)%nat →
  kTest_read alloc fuel (encode bo ++ rest) =
  Done (Some (mkKTest KTEST_VERSION (numArgs bo) (args bo) (symArgvs bo) (symArgvLen bo) (numObjects bo) (objects bo))) rest.
Proof.
  intros [[Hna Hna'] Ha [Hs Hs'] [Hno Hno'] Ho] [Hnea Hneo] Hf Hf'. unfold kTest_read, encode. rewrite <- !app_assoc.
  erewrite try_done.
  2: { unfold kTest_checkHeader. erewrite try_done by (by apply (fread_app 5 KTEST_MAGIC)). done. }
  rewrite Halloc. cbn [negb]. erewrite try_done by (by apply read_uint32_bytes).
  cbn [Z.ltb]. change (kTest_getCurrentVersion <? KTEST_VERSION) with false. cbn iota.
  erewrite try_done by (apply read_uint32_bytes; lia). rewrite Halloc. cbn [negb].
  rewrite Hna at 1. erewrite try_done by (by apply read_args_encode).
  change (2 <=? KTEST_VERSION) with true. cbn iota.
  erewrite try_done.
  2: { erewrite try_done by (by apply read_uint32_bytes). by erewrite try_done by (by apply read_uint32_bytes). }
  erewrite try_done by (apply read_uint32_bytes; lia). rewrite Halloc. cbn [negb].
  rewrite Hno at 1. erewrite try_done by (by apply read_objects_encode). done.
Qed.
End Reading.

(** ** Writing *)

(** [m] appends [enc] and succeeds when [ok] holds and there is room; otherwise
    it reports the failure. *)
Definition writes (m : M wfile (option unit)) (enc : list Z) (ok : bool) : Prop :=
  ∀ w n, 0 ≤ n →
    if ok && (Z.of_nat (length enc) <=? n)
    then m (mkWfile w n) = Done (Some tt) (mkWfile (w ++ enc) (n - Z.of_nat (length enc)))
    else ∃ f, m (mkWfile w n) = Done None f.

Lemma writes_seq m1 m2 e1 e2 o1 o2 :
  writes m1 e1 o1 → writes m2 e2 o2 → writes (_ ?← m1; m2) (e1 ++ e2) (o1 && o2).
Proof.
  intros H1 H2 w n Hn. specialize (H1 w n Hn). rewrite length_app.
  destruct o1; simpl in *; [|destruct H1 as [f E]; exists f; by apply try_fail].
  destruct (Z.leb_spec (Z.of_nat (length e1)) n) as [Hl|Hl].
  - specialize (H2 (w ++ e1) (n - Z.of_nat (length e1)) ltac:(lia)).
    destruct o2; simpl in *; [|destruct H2 as [f E]; exists f; by rewrite (try_done _ _ _ _ _ H1)].
    destruct (Z.leb_spec (Z.of_nat (length e2)) (n - Z.of_nat (length e1))),
      (Z.leb_spec (Z.of_nat (length e1 + length e2)) n); try lia.
    + rewrite (try_done _ _ _ _ _ H1), H2, app_assoc. do 2 f_equal. lia.
    + destruct H2 as [f E]. exists f. by rewrite (try_done _ _ _ _ _ H1).
  - destruct H1 as [f E]. assert (∃ f, (_ ?← m1; m2) (mkWfile w n) = Done None f) as Hex by (exists f; by apply try_fail).
    destruct o2; simpl; [|done]. destruct (Z.leb_spec (Z.of_nat (length e1 + length e2)) n); [lia|done].
Qed.

Lemma writes_ext m e o o' : writes m e o → o = o' → writes m e o'.
Proof. by intros ? ->. Qed.

Lemma fwrite_writes b : writes (fwrite b (Z.of_nat (length b))) b (bool_decide (b ≠ [])).
Proof.
  intros w n Hn. unfold fwrite. rewrite (bool_decide_true (_ ≤ _)) by lia.
  rewrite (bind_done _ _ _ (mkWfile w n) (mkWfile w n)) by done. rewrite Nat2Z.id, firstn_all. cbn [space written].
  destruct (Z.ltb_spec n (Z.of_nat (length b))).
  - destruct (Z.leb_spec (Z.of_nat (length b)) n); [lia|]. rewrite andb_false_r. by eexists.
  - destruct (Z.leb_spec (Z.of_nat (length b)) n); [|lia]. rewrite andb_true_r.
    rewrite (bind_done _ _ _ tt (mkWfile (w ++ b) (n - Z.of_nat (length b)))) by done.
    case_bool_decide as Hb.
    + destruct (Z.eqb_spec (Z.of_nat (length b)) 0); [destruct b; simpl in *; [done|lia]|done].
    + subst b. by eexists.
Qed.

Lemma write_uint32_writes v : writes (write_uint32 v) (u32_bytes v) true.
Proof. by apply (fwrite_writes (u32_bytes v)). Qed.

Lemma write_string_writes s : string_ok s → writes (write_string s) (encode_string s) (bool_decide (s ≠ [])).
Proof.
  intros [_ Hl]. unfold write_string. rewrite wrapu_small by lia.
  apply (writes_seq _ _ _ _ true); [apply write_uint32_writes|apply fwrite_writes].
Qed.

Lemma write_object_writes o : object_ok o → writes (write_object o) (encode_object o) (bool_decide (nonempty_object o)).
Proof.
  intros [Hn Hl Hs]. unfold write_object. eapply writes_ext.
  - apply writes_seq; [by apply write_string_writes|]. apply writes_seq; [apply write_uint32_writes|].
    rewrite Hl. apply fwrite_writes.
  - simpl. rewrite <- bool_decide_and. done.
Qed.

Lemma write_each_writes {A} (f : A → M wfile (option unit)) enc (ok : A → Prop) `{∀ a, Decision (ok a)} l :
  Forall (λ a, writes (f a) (enc a) (bool_decide (ok a))) l →
  writes (write_each f (length l) l) (concat (enc <$> l)) (bool_decide (Forall ok l)).
Proof.
  induction 1 as [|a l Ha _ IH]; cbn [write_each fmap list_fmap concat length].
  { intros w n Hn. rewrite bool_decide_true by constructor. cbn [andb length].
    destruct (Z.leb_spec (Z.of_nat 0) n); [|lia]. by rewrite app_nil_r, Z.sub_0_r. }
  eapply writes_ext; [by apply writes_seq|]. rewrite <- bool_decide_and. apply bool_decide_ext. by rewrite Forall_cons.
Qed.

Lemma kTest_write_writes bo : test_ok bo → writes (kTest_write bo) (encode bo) (bool_decide (nonempty_test bo)).
Proof.
  intros [[Hna Hna'] Ha Hs [Hno Hno'] Ho]. unfold kTest_write, encode.
  replace (Z.to_nat (numArgs bo)) with (length (args bo)) by lia.
  replace (Z.to_nat (numObjects bo)) with (length (objects bo)) by lia.
  eapply writes_ext.
  - apply (writes_seq _ _ _ _ true); [by apply (fwrite_writes KTEST_MAGIC)|].
    apply writes_seq; [apply write_uint32_writes|]. apply writes_seq; [apply write_uint32_writes|].
    apply writes_seq; [apply (write_each_writes _ _ (λ s, s ≠ [])); eapply Forall_impl; [done|apply write_string_writes]|].
    do 3 (apply writes_seq; [apply write_uint32_writes|]).
    apply (write_each_writes _ _ nonempty_object). eapply Forall_impl; [done|apply write_object_writes].
  - simpl. rewrite <- bool_decide_and. done.
Qed.

Lemma length_concat_ge {A} (f : A → list Z) l : (∀ a, 0 < length (f a))%nat → (length l ≤ length (concat (f <$> l)))%nat.
Proof. intros Hf. induction l as [|a l IH]; [done|]. rewrite fmap_cons. cbn [concat length]. rewrite length_app. specialize (Hf a). lia. Qed.

Lemma length_encode bo : (length (args bo) ≤ length (encode bo))%nat ∧ (length (objects bo) ≤ length (encode bo))%nat.
Proof.
  unfold encode. rewrite !length_app.
  pose proof (length_concat_ge encode_string (args bo)) as H1.
  pose proof (length_concat_ge encode_object (objects bo)) as H2.
  assert (∀ s, 0 < length (encode_string s))%nat as Hs by (intros s; unfold encode_string; rewrite length_app; simpl; lia).
  assert (∀ o, 0 < length (encode_object o))%nat as Ho
    by (intros o; unfold encode_object; rewrite length_app; specialize (Hs (obj_name o)); lia).
  specialize (H1 Hs). specialize (H2 Ho). lia.
Qed.

(** ** The theorems *)

(** C26: Test case files round trip.  A test case without empty strings or objects
    is written completely when the device has room, and the file loads as the
    same test case (with the current version); the header test accepts it. *)
Theorem ktest_roundtrip (alloc : Z → bool) (bo : KTest) (n : Z) :
  (∀ size, alloc size = true) → test_ok bo → nonempty_test bo → Z.of_nat (length (encode bo)) ≤ n →
  kTest_toFile bo (Some n) = Done 1 (encode bo) ∧
  kTest_fromFile alloc (Some (encode bo)) =
    Some (Done (Some (mkKTest KTEST_VERSION (numArgs bo) (args bo) (symArgvs bo) (symArgvLen bo)
                              (numObjects bo) (objects bo))) []) ∧
  kTest_isKTestFile (Some (encode bo)) = 1.
Proof.
  intros Halloc Hok Hne Hn. split_and!.
  - pose proof (kTest_write_writes bo Hok [] n ltac:(lia)) as Hw. rewrite bool_decide_true in Hw by done.
    cbn [andb] in Hw. destruct (Z.leb_spec (Z.of_nat (length (encode bo))) n); [|lia].
    unfold kTest_toFile. by rewrite Hw.
  - unfold kTest_fromFile. cbn [mbind option_bind]. f_equal. destruct (length_encode bo).
    pose proof (kTest_read_encode alloc Halloc bo (S (length (encode bo))) []) as Hr.
    rewrite app_nil_r in Hr. apply Hr; [done..|lia|lia].
  - unfold kTest_isKTestFile, encode, kTest_checkHeader.
    erewrite try_done by (by apply (fread_app 5 KTEST_MAGIC)). done.
Qed.

Definition demo_test : KTest :=
  mkKTest 3 2 [[112]; [45; 97]] 0 0 2
    [mkKTestObject [65] 3 [0; 255; 7]; mkKTestObject [109; 118] 4 [1; 0; 0; 0]].
Lemma demo_test_ok : test_ok demo_test ∧ nonempty_test demo_test.
Proof.
  split; [|by vm_compute; repeat constructor].
  constructor; [by vm_compute| |by vm_compute|by vm_compute|]; repeat constructor; by vm_compute.
Qed.
Lemma ktest_roundtrip_witness :
  kTest_toFile demo_test (Some 1000) = Done 1 (encode demo_test) ∧
  kTest_fromFile (λ _, true) (Some (encode demo_test)) = Some (Done (Some demo_test) []) ∧
  kTest_isKTestFile (Some (encode demo_test)) = 1.
Proof.
  apply (ktest_roundtrip (λ _, true) demo_test 1000); [done|apply demo_test_ok..|].
  vm_compute. discriminate.
Defined.

(** When writing fails.  [kTest_toFile] returns 1 exactly when the device has
    room and the test case has neither an empty argument or name nor an object
    of no bytes: the calls of [fwrite] with size 0 return 0, which is taken for
    an error, so that such test cases are lost. *)
Theorem ktest_write_fails (bo : KTest) (n : Z) :
  test_ok bo → 0 ≤ n →
  ∃ r c, kTest_toFile bo (Some n) = Done r c ∧
    (r = 1 ↔ nonempty_test bo ∧ Z.of_nat (length (encode bo)) ≤ n) ∧ (r = 0 ∨ r = 1).
Proof.
  intros Hok Hn. pose proof (kTest_write_writes bo Hok [] n Hn) as Hw. unfold kTest_toFile.
  case_bool_decide as Hne; cbn [andb] in Hw; [destruct (Z.leb_spec (Z.of_nat (length (encode bo))) n)|].
  - rewrite Hw. do 2 eexists. split_and!; [done| |auto]. naive_solver.
  - destruct Hw as [f ->]. do 2 eexists. split_and!; [done| |auto]. split; [done|]. lia.
  - destruct Hw as [f ->]. do 2 eexists. split_and!; [done| |auto]. split; [done|]. naive_solver.
Qed.
Lemma ktest_write_fails_witness :
  let bo := mkKTest 3 1 [[112]] 0 0 1 [mkKTestObject [65] 0 []] in
  ∃ r c, kTest_toFile bo (Some 1000) = Done r c ∧
    (r = 1 ↔ nonempty_test bo ∧ Z.of_nat (length (encode bo)) ≤ 1000) ∧ (r = 0 ∨ r = 1).
Proof.
  intros bo. apply (ktest_write_fails bo 1000); [|lia].
  constructor; [by vm_compute| |by vm_compute|by vm_compute|]; repeat constructor; by vm_compute.
Defined.

(** ** Reading any file *)

(** [m] reads at least [k] bytes when it succeeds, never runs on, and stops only
    at an invalid access. *)
Definition consumes {A} (k : nat) (m : M rfile (option A)) : Prop :=
  ∀ f, match m f with
       | Done (Some _) f' => (length f' + k ≤ length f)%nat
       | Done None f' => (length f' ≤ length f)%nat
       | Halt e _ => e = MemoryError
       end.

Lemma consumes_ret {A} (o : option A) : consumes 0 (mret o).
Proof. intros f. destruct o; simpl; lia. Qed.
Lemma consumes_weaken {A} k k' (m : M rfile (option A)) : consumes k m → (k' ≤ k)%nat → consumes k' m.
Proof. intros H ? f. specialize (H f). destruct (m f) as [[a|] f'|]; [lia|done|done]. Qed.
Lemma consumes_try {A B} k k' (m : M rfile (option A)) (g : A → M rfile (option B)) :
  consumes k m → (∀ a, consumes k' (g a)) → consumes (k + k') (try_bind m g).
Proof.
  intros Hm Hg f. specialize (Hm f). unfold try_bind, mbind, M_bind.
  destruct (m f) as [[a|] f'|e f']; [|done|done]. specialize (Hg a f').
  destruct (g a f') as [[b|] f''|]; [lia|lia|done].
Qed.
Lemma consumes_if {A} k (b : bool) (m n : M rfile (option A)) :
  consumes k m → consumes k n → consumes k (if b then m else n).
Proof. by destruct b. Qed.
Lemma consumes_none {A} k : consumes k (mret (None : option A)).
Proof. intros f. simpl. lia. Qed.

Lemma fread_consumes room size : consumes (Z.to_nat size) (fread room size).
Proof.
  intros f. unfold fread. rewrite (bind_done _ _ f f f) by done. rewrite (bind_done _ _ _ tt (drop (Z.to_nat size) f)) by done.
  case_bool_decide; [|done]. destruct ((size =? 0) || (Z.of_nat (length f) <? size)) eqn:E; simpl;
    rewrite length_drop; [lia|]. apply orb_false_iff in E as [_ E%Z.ltb_ge]. lia.
Qed.
Lemma read_uint32_consumes : consumes 4 read_uint32.
Proof. apply (consumes_try 4 0); [apply fread_consumes|]. intros. apply consumes_ret. Qed.
Lemma read_string_consumes alloc : consumes 4 (read_string alloc).
Proof.
  apply (consumes_try 4 0); [apply read_uint32_consumes|]. intros len. apply consumes_if; [|apply consumes_ret].
  apply (consumes_try 0 0); [eapply consumes_weaken; [apply fread_consumes|lia]|]. intros. apply consumes_ret.
Qed.
Lemma read_object_consumes alloc : consumes 4 (read_object alloc).
Proof.
  apply (consumes_try 4 0); [apply read_string_consumes|]. intros name.
  apply (consumes_try 0 0); [eapply consumes_weaken; [apply read_uint32_consumes|lia]|]. intros n.
  apply (consumes_try 0 0); [eapply consumes_weaken; [apply fread_consumes|lia]|]. intros. apply consumes_ret.
Qed.

(** A loop that reads at least one byte per round ends within the length of the
    file. *)
Section Loop.
Context {A : Type} (item : M rfile (option A)) (loop : nat → Z → M rfile (option (list A))).
Context (Hitem : consumes 4 item).
Context (Hloop : ∀ fuel n, loop fuel n =
  if n <=? 0 then mret (Some [])
  else match fuel with
       | O => halt NoFuel
       | S fuel => s ?← item; l ?← loop fuel (n - 1); mret (Some (s :: l))
       end).

Lemma loop_ends fuel n f : (length f < fuel)%nat →
  match loop fuel n f with
  | Done _ f' => (length f' ≤ length f)%nat
  | Halt e _ => e = MemoryError
  end.
Proof.
  revert n f. induction fuel as [|fuel IH]; intros n f Hf; [lia|]. rewrite Hloop.
  destruct (n <=? 0); [simpl; lia|]. specialize (Hitem f). unfold try_bind, mbind, M_bind.
  destruct (item f) as [[a|] f'|e f']; [|done|done]. specialize (IH (n - 1) f' ltac:(lia)).
  destruct (loop fuel (n - 1) f') as [[l|] f''|]; simpl; lia || done.
Qed.
End Loop.

Lemma read_args_ends alloc fuel n f : (length f < fuel)%nat →
  match read_args alloc fuel n f with Done _ f' => (length f' ≤ length f)%nat | Halt e _ => e = MemoryError end.
Proof. apply (loop_ends _ _ (read_string_consumes alloc)). by intros []. Qed.
Lemma read_objects_ends alloc fuel n f : (length f < fuel)%nat →
  match read_objects alloc fuel n f with Done _ f' => (length f' ≤ length f)%nat | Halt e _ => e = MemoryError end.
Proof. apply (loop_ends _ _ (read_object_consumes alloc)). by intros []. Qed.

(** [m] leaves a file of at most [n] bytes or stops at an invalid access. *)
Definition within (n : nat) {A} (o : outcome rfile (option A)) : Prop :=
  match o with Done _ f' => (length f' ≤ n)%nat | Halt e _ => e = MemoryError end.

Lemma within_try n {A B} (m : M rfile (option A)) (g : A → M rfile (option B)) f :
  within n (m f) → (∀ a f', (length f' ≤ n)%nat → within n (g a f')) → within n (try_bind m g f).
Proof.
  intros Hm Hg. unfold try_bind, mbind, M_bind. unfold within in Hm.
  destruct (m f) as [[a|] f'|e f']; [by apply Hg|done|done].
Qed.
Lemma consumes_within {A} k n (m : M rfile (option A)) f : consumes k m → (length f ≤ n)%nat → within n (m f).
Proof. intros Hm ?. specialize (Hm f). unfold within. destruct (m f) as [[a|] f'|]; [lia|lia|done]. Qed.
Lemma within_if n {A} (b : bool) (m m' : M rfile (option A)) f :
  within n (m f) → within n (m' f) → within n ((if b then m else m') f).
Proof. by destruct b. Qed.

(** Loading ends on every file: whatever the bytes and whichever allocations
    fail, [kTest_fromFile] returns a test case or NULL, or stops at an invalid
    access; the counts in the file do not make its loops run past the end. *)
Theorem ktest_read_ends (alloc : Z → bool) (f : list Z) :
  ∃ o, kTest_fromFile alloc (Some f) = Some o ∧
    ((∃ r f', o = Done r f') ∨ (∃ f', o = Halt MemoryError f')).
Proof.
  unfold kTest_fromFile. cbn [mbind option_bind]. eexists. split; [done|].
  assert (within (length f) (kTest_read alloc (S (length f)) f)) as Hw.
  { assert (∀ f', (length f' ≤ length f)%nat → within (length f) (read_uint32 f')) as Hu
      by (intros f' ?; by eapply consumes_within; [apply read_uint32_consumes|]).
    unfold kTest_read. apply within_try.
    { eapply consumes_within; [|done]. apply (consumes_try 0 0); [eapply consumes_weaken; [apply fread_consumes|lia]|].
      intros header. apply consumes_if; apply consumes_ret. }
    intros _ f1 H1. apply within_if; [done|]. apply within_try; [by apply Hu|].
    intros v f2 H2. apply within_if; [done|]. apply within_try; [by apply Hu|].
    intros na f3 H3. apply within_if; [done|]. apply within_try.
    { pose proof (read_args_ends alloc (S (length f)) na f3 ltac:(lia)) as Ha. unfold within.
      destruct (read_args alloc (S (length f)) na f3); [lia|done]. }
    intros l f4 H4. apply within_try.
    { apply within_if; [|done]. apply within_try; [by apply Hu|]. intros a f5 H5.
      apply within_try; [by apply Hu|]. done. }
    intros sa f5 H5. apply within_try; [by apply Hu|].
    intros no f6 H6. apply within_if; [done|]. apply within_try.
    { pose proof (read_objects_ends alloc (S (length f)) no f6 ltac:(lia)) as Ha. unfold within.
      destruct (read_objects alloc (S (length f)) no f6); [lia|done]. }
    done. }
  unfold within in Hw. destruct (kTest_read alloc (S (length f)) f); [left|right]; [by do 2 eexists|subst; by eexists].
Qed.

(** A file can make the loader write past a buffer: for a string length of
    2^32 - 1 the buffer has [len+1] = 0 bytes, and the first byte that follows
    in the file is written outside it. *)
Theorem read_string_overflow (alloc : Z → bool) (b : Z) (rest : list Z) :
  alloc 0 = true →
  ∃ f, read_string alloc (u32_bytes (2 ^ 32 - 1) ++ b :: rest) = Halt MemoryError f.
Proof.
  intros Ha. unfold read_string. erewrite try_done by (by apply read_uint32_bytes).
  replace (u32 (2 ^ 32 - 1 + 1)) with 0 by done. rewrite Ha.
  unfold try_bind. eexists. apply bind_halt. unfold fread.
  rewrite (bind_done _ _ _ (b :: rest) (b :: rest)) by done.
  rewrite (bind_done _ _ _ tt (drop (Z.to_nat (2 ^ 32 - 1)) (b :: rest))) by done.
  rewrite bool_decide_false; [done|]. rewrite length_take. simpl length. lia.
Qed.
Lemma read_string_overflow_witness :
  ∃ f, read_string (λ _, true) (u32_bytes (2 ^ 32 - 1) ++ [65]) = Halt MemoryError f.
Proof. apply (read_string_overflow (λ _, true) 65 []). reflexivity. Defined.

(** ** The objects of a loaded test case *)

Definition bytes_of_string (s : string) : cstr :=
  (λ a, Z.of_N (Ascii.N_of_ascii a)) <$> String.list_ascii_of_string s.
Definition string_of_bytes (l : cstr) : string :=
  String.string_of_list_ascii ((λ c, Ascii.ascii_of_N (Z.to_N c)) <$> l).

Lemma string_of_bytes_of s : string_of_bytes (bytes_of_string s) = s.
Proof.
  unfold string_of_bytes, bytes_of_string. rewrite <- list_fmap_compose.
  transitivity (String.string_of_list_ascii (id <$> String.list_ascii_of_string s)).
  - f_equal. apply list_fmap_ext. intros i a _. simpl. by rewrite N2Z.id, Ascii.ascii_N_embedding.
  - by rewrite list_fmap_id, String.string_of_list_ascii_of_string.
Qed.

(** The objects a replay sees. *)
Definition objects_of (bo : KTest) : list ktest_object :=
  (λ o, mkObject (string_of_bytes (obj_name o)) (obj_bytes o)) <$> objects bo.
