(* ===== verification/Checker.v ===== *)
(** * The checkers

    src/klee/lib/Core/BasicCheckers.cpp, include/klee/BasicCheckers.h, Checker.h
    and Checker.cpp: state machines that watch the calls of the program under
    test and report misuse of locks, files, streams and memory.

    A call event carries the name of the function and its arguments.  For a call
    inside the program [args] is NULL and an argument is a constant or a
    symbolic expression ([arguments]); for an external call [args] is an array
    with the result at 0 and argument i at i + 2.  What the checkers look up in
    the program's memory is part of the event: the string an argument points to
    ([arg_str], [mem_str]), whether an address lies in the standard streams, and
    the descriptor in a [FILE].  [site] is the text of the [AllocInfo] of the
    instruction and thread. *)
From S2P Require Import Prelude.

Abbreviation Result := Z.
Definition OK : Result := 0.
Definition ERROR : Result := 1.
Definition IMPORTANT : Result := 2.
Definition NEED_RET : Result := 4.
Definition NEED_ARG0 : Result := 8.
Definition NEED_ARG1 : Result := 16.
Definition NEED_ARG_BEGIN : Z := 3.

Record call := mkCall {
  fname : string;
  arguments : list (option Z);
  args : option (list Z);
  site : string;
  tid : Z;
  arg_str : nat → string;
  mem_str : Z → string;
  in_streams : Z → bool;
  sym_filedes : Z → option Z;
  filedes : Z → Z;
  ptr_at : Z
}.

(** A return event: the function of the caller's call ([None] when it cannot be
    told), the result and the arguments of that call. *)
Record ret := mkRet {
  r_fname : option string;
  r_result : option Z;
  r_arguments : list (option Z);
  r_site : string;
  r_tid : Z;
  r_str : nat → string;
  r_ptr_at : Z
}.

(** [getIntFromExp]: -1 for an expression that is not constant. *)
Definition getIntFromExp (e : option Z) : Z := match e with Some v => v | None => u64 (-1) end.

Definition is_one_of (f : string) (l : list string) : bool := bool_decide (f ∈ l).

Section Access.
Context {W : Type}.
(** [args[i]] and [arguments[i]]. *)
Definition arg_at (l : list Z) (i : nat) : M W Z := deref (l !! i).
Definition argument_at (c : call) (i : nat) : M W (option Z) := deref (arguments c !! i).
(** The i-th argument, concrete or symbolic. *)
Definition int_arg (c : call) (i : nat) : M W Z :=
  match args c with
  | Some l => arg_at l (i + 2)
  | None => e ← argument_at c i; mret (getIntFromExp e)
  end.
Definition str_arg (c : call) (i : nat) : M W string :=
  match args c with
  | Some l => a ← arg_at l (i + 2); mret (mem_str c a)
  | None => mret (arg_str c i)
  end.
Definition ret_arg (r : ret) (i : nat) : M W Z :=
  e ← deref (r_arguments r !! i); mret (getIntFromExp e).
End Access.

(** ** The file objects of the checkers that follow files *)
Inductive FileState : Type := CLOSED | CLEAN | ACCESSED | LIB_BUFFERED | OS_BUFFERED.
#[global] Instance FileState_eq_dec : EqDecision FileState.
Proof. solve_decision. Defined.

Record FileObject := mkFileObject { fo_name : string; fo_fp : Z; fo_fd : Z; fo_state : FileState; fo_alloc : string }.
Definition setFp (p : Z) (f : FileObject) := mkFileObject (fo_name f) p (fo_fd f) (fo_state f) (fo_alloc f).
Definition setFd (d : Z) (f : FileObject) := mkFileObject (fo_name f) (fo_fp f) d (fo_state f) (fo_alloc f).
Definition setName (n : string) (f : FileObject) := mkFileObject n (fo_fp f) (fo_fd f) (fo_state f) (fo_alloc f).
Definition setState (x : FileState) (f : FileObject) := mkFileObject (fo_name f) (fo_fp f) (fo_fd f) x (fo_alloc f).

(** ** Sequences of events *)
Fixpoint run_events {E W : Type} (handler : E → M W Result) (l : list E) : M W (list Result) :=
  match l with
  | [] => mret []
  | e :: l => r ← handler e; rs ← run_events handler l; mret (r :: rs)
  end.

(** [ret & Checker::ERROR]. *)
Definition errs (r : Result) : bool := testflag r ERROR.

Lemma errs_bit r : errs r = Z.testbit r 0.
Proof. exact (testflag_bit r 0 ltac:(lia)). Qed.

Lemma errs_lor a b : errs (Z.lor a b) = errs a || errs b.
Proof. rewrite !errs_bit. apply Z.lor_spec. Qed.

Lemma errs_need i : errs (Z.shiftl 1 (Z.of_nat i + NEED_ARG_BEGIN)) = false.
Proof. rewrite errs_bit. apply Z.shiftl_spec_low. unfold NEED_ARG_BEGIN. lia. Qed.

Lemma run_events_cons {E W} (handler : E → M W Result) e l w r w' rs w'' :
  handler e w = Done r w' → run_events handler l w' = Done rs w'' →
  run_events handler (e :: l) w = Done (r :: rs) w''.
Proof. intros H1 H2. cbn [run_events]. rewrite (bind_done _ _ _ _ _ H1), (bind_done _ _ _ _ _ H2). done. Qed.

Lemma run_events_app {E W} (handler : E → M W Result) l e w rs w' r w'' :
  run_events handler l w = Done rs w' → handler e w' = Done r w'' →
  run_events handler (l ++ [e]) w = Done (rs ++ [r]) w''.
Proof.
  revert w rs. induction l as [|x l IH]; intros w rs H He; cbn in *.
  - injection H as <- <-. by rewrite (bind_done _ _ _ _ _ He).
  - unfold mbind, M_bind in *. destruct (handler x w) as [r1 w1|]; [|done].
    destruct (run_events handler l w1) as [rs1 w2|] eqn:E1; [|done]. injection H as <- <-.
    by rewrite (IH _ _ E1 He).
Qed.

(** Decides the comparisons of function names in a goal. *)
Ltac name_test t :=
  let v := eval vm_compute in t in
  match v with true => change t with true | false => change t with false end.
Ltac names :=
  repeat (match goal with
          | |- context [bool_decide (?a = ?b)] =>
            match type of a with string => name_test (bool_decide (a = b)) end
          | |- context [is_one_of ?a ?b] => name_test (is_one_of a b)
          end; cbn beta iota zeta).

(** The cases of a name that is in a list. *)
Ltac name_cases H := repeat (apply elem_of_cons in H as [H|H]); [..|by apply elem_of_nil in H].

(** Decides the tests of a goal that its hypotheses decide. *)
Ltac tests :=
  repeat match goal with
         | |- context [bool_decide ?P] =>
           first [ rewrite (bool_decide_eq_true_2 P) by (assumption || tauto)
                 | rewrite (bool_decide_eq_false_2 P) by (assumption || tauto) ]; cbn beta iota zeta
         end.

(** ** Products of automata

    Several checkers keep one automaton per address.  [step] gives the next state
    and whether the operation is an error; [legal] restricts the histories to those
    the environment can produce.  A handler that follows the automaton of the
    address of its event follows the product over sequences of events. *)
Section Product.
Context {X O : Type} (step : O → X → X * bool) (ok : O → X → Prop).

Fixpoint product (x : Z → X) (l : list (O * Z)) : (Z → X) * list bool :=
  match l with
  | [] => (x, [])
  | (o, a) :: l =>
    let r := product (λ b, if decide (b = a) then (step o (x a)).1 else x b) l in
    (r.1, (step o (x a)).2 :: r.2)
  end.

Fixpoint legal (x : Z → X) (l : list (O * Z)) : Prop :=
  match l with
  | [] => True
  | (o, a) :: l => ok o (x a) ∧ legal (λ b, if decide (b = a) then (step o (x a)).1 else x b) l
  end.

Lemma product_ext x y l : (∀ a, x a = y a) →
  (∀ a, (product x l).1 a = (product y l).1 a) ∧ (product x l).2 = (product y l).2.
Proof.
  revert x y. induction l as [|[o a] l IH]; intros x y E; [done|]. cbn. rewrite <-(E a).
  edestruct IH as [H1 H2]; [|rewrite H2; split; [exact H1|done]].
  intros b; cbn. by case_decide.
Qed.

Lemma legal_ext x y l : (∀ a, x a = y a) → legal x l → legal y l.
Proof.
  revert x y. induction l as [|[o a] l IH]; intros x y E; [done|]. cbn. rewrite <-(E a).
  intros [H1 H2]. split; [done|]. eapply IH; [|exact H2]. intros b; cbn. by case_decide.
Qed.

Lemma legal_true x l : (∀ o y, ok o y) → legal x l.
Proof. intros H. revert x. induction l as [|[o a] l IH]; intros x; cbn; auto. Qed.

Context {E W : Type} (handler : E → M W Result) (event : E → O * Z → Prop)
  (I : W → Prop) (automaton : W → Z → X).
Hypothesis handler_step : ∀ e o a w, event e (o, a) → I w → ok o (automaton w a) →
  ∃ r w', handler e w = Done r w' ∧ I w' ∧ errs r = (step o (automaton w a)).2 ∧
    ∀ b, automaton w' b = if decide (b = a) then (step o (automaton w a)).1 else automaton w b.

Lemma run_product es l w : Forall2 event es l → I w → legal (automaton w) l →
  ∃ rs w', run_events handler es w = Done rs w' ∧ I w' ∧
    errs <$> rs = (product (automaton w) l).2 ∧ ∀ a, automaton w' a = (product (automaton w) l).1 a.
Proof.
  intros H. revert w. induction H as [|e [o a] es l He _ IH]; intros w Hw Hl; [by exists [], w|].
  destruct Hl as [Ho Hl].
  destruct (handler_step _ _ _ _ He Hw Ho) as (r & w1 & Er & Hw1 & Ee & Ea).
  destruct (IH _ Hw1) as (rs & w2 & Ers & Hw2 & Ees & Eas); [by eapply legal_ext, Hl; intros b; rewrite Ea|].
  exists (r :: rs), w2. split; [by eapply run_events_cons|]. split; [done|]. cbn. rewrite Ee.
  destruct (product_ext _ _ l Ea) as [X1 X2].
  split; [by rewrite Ees, X2|]. intros b. by rewrite Eas, X1.
Qed.

(** The same from a state whose automata are all in [x0]. *)
Lemma run_product_from x0 es l w : Forall2 event es l → I w → (∀ a, automaton w a = x0) →
  legal (λ _, x0) l →
  ∃ rs w', run_events handler es w = Done rs w' ∧ I w' ∧
    errs <$> rs = (product (λ _, x0) l).2 ∧ ∀ a, automaton w' a = (product (λ _, x0) l).1 a.
Proof.
  intros H Hw Hx Hl.
  destruct (run_product es l w H Hw) as (rs & w' & E1 & I1 & E2 & E3); [by eapply legal_ext, Hl|].
  destruct (product_ext _ _ l Hx) as [X1 X2].
  exists rs, w'. rewrite <-X2. split_and!; [done..|]. intros a. by rewrite E3, X1.
Qed.
End Product.

(** ** Texts that were reported *)
(** [AllocInfo::hash] and [AllocInfo::isReported]: a report is issued once for each
    pair of a place and a case. *)
Module AllocInfo.

(** [hash]: characters are signed. *)
Fixpoint hash_from (h : Z) (s : string) : Z :=
  match s with
  | EmptyString => h
  | String a s => hash_from (u64 (h * 131 + s8 (Z.of_N (Ascii.N_of_ascii a)))) s
  end.
Definition hash (s : string) : Z := hash_from 0 s.

(** A multimap from hashes to texts. *)
Abbreviation record := (list (Z * string)).

Definition isReported (r : record) (place_info : string) (place_hash : Z) (case_info : string) : bool * record :=
  let case_hash := u64 (place_hash + hash case_info) in
  let global_info := (place_info +:+ case_info)%string in
  if bool_decide ((case_hash, global_info) ∈ r) then (true, r)
  else (false, r ++ [(case_hash, global_info)]).

(** The loop of the [report] functions over the texts of what is left open:
    [true] when one of them has not been reported. *)
Fixpoint report_all (r : record) (place : string) (cases : list string) : bool * record :=
  match cases with
  | [] => (false, r)
  | c :: cases =>
    let '(rep, r) := isReported r place (hash place) c in
    let '(err, r) := report_all r place cases in
    (negb rep || err, r)
  end.

(** ** A text is reported once *)
Definition entry (place case : string) : Z * string :=
  (u64 (hash place + hash case), (place +:+ case)%string).

Lemma isReported_spec r place case :
  isReported r place (hash place) case =
  (bool_decide (entry place case ∈ r), if bool_decide (entry place case ∈ r) then r else r ++ [entry place case]).
Proof. unfold isReported. fold (entry place case). by case_bool_decide. Qed.

(** The loop of a report finds something new exactly when the text of some case is
    not in the table, and then all texts are in it. *)
Lemma report_all_spec r place cases :
  ((report_all r place cases).1 = true ↔ ∃ c, c ∈ cases ∧ entry place c ∉ r) ∧
  ∀ e, e ∈ (report_all r place cases).2 ↔ e ∈ r ∨ ∃ c, c ∈ cases ∧ e = entry place c.
Proof.
  revert r. induction cases as [|c cases IH]; intros r.
  - cbn. split; [split; [done|]; intros (c & Hc & _); by apply elem_of_nil in Hc|].
    intros e. split; [auto|]. intros [?|(c & Hc & _)]; [done|by apply elem_of_nil in Hc].
  - cbn [report_all]. rewrite isReported_spec. cbn zeta.
    case_bool_decide as Hc; specialize (IH (if bool_decide (entry place c ∈ r) then r else r ++ [entry place c]));
      rewrite ?(bool_decide_eq_true_2 _ Hc), ?(bool_decide_eq_false_2 _ Hc) in *;
      destruct (report_all _ place cases) as [err r'] eqn:E; cbn [fst snd] in *; destruct IH as [IH1 IH2].
    + split.
      * rewrite IH1. setoid_rewrite elem_of_cons. naive_solver.
      * intros e. rewrite IH2. setoid_rewrite elem_of_cons. naive_solver.
    + split.
      * split; [intros _; exists c; split; [left|done]|done].
      * intros e. rewrite IH2, elem_of_app, list_elem_of_singleton. setoid_rewrite elem_of_cons. naive_solver.
Qed.
End AllocInfo.
