(* ===== verification/AssertChecker.v ===== *)
(** * The assertion checker of BasicCheckers.cpp

    A branch is an assertion when a successor block starts with a call of
    [__assert_fail]; an assertion on a symbolic condition is important. *)
From S2P Require Import Prelude Checker.

Record st := mkSt { asserts : gset nat; nonAsserts : gset nat }.

(** The scan of a successor block, as the list of the callees of its leading
    instructions ([None] for an instruction that is not a call). *)
Fixpoint scan_block (l : list (option string)) : bool :=
  match l with
  | Some callee :: l =>
    if bool_decide (callee = "__assert_fail") then true
    else if negb (bool_decide (callee = "llvm.debug.value")) && negb (bool_decide (callee = "llvm.debug.declare"))
    then false
    else scan_block l
  | _ => false
  end.

Definition onBranch (inst : nat) (succ0 succ1 : list (option string)) (isConst : bool) : M st Result :=
  s ← get;
  isAssert ←
    (if bool_decide (inst ∈ asserts s) then mret true
     else if bool_decide (inst ∉ nonAsserts s) then
       let isAssert := scan_block succ0 || scan_block succ1 in
       put (if isAssert then mkSt ({[ inst ]} ∪ asserts s) (nonAsserts s)
            else mkSt (asserts s) ({[ inst ]} ∪ nonAsserts s));;
       mret isAssert
     else mret false);
  mret (if (isAssert : bool) then (if isConst then OK else IMPORTANT) else OK).

Definition mayBeEvent (f : string) : bool := bool_decide (f = "__assert_fail").
