(* ===== verification/AssertCounter.v ===== *)
(** * The assertion counter of BasicCheckers.cpp

    Counts the branches of a run: constant and symbolic ones, assertions, and the
    branches at which the state forked. *)
From S2P Require Import Prelude Checker AssertChecker.

(** [asserts] and [nonAsserts] are the static sets of the class. *)
Record st := mkSt {
  sets : AssertChecker.st;
  constBranch : Z; symBranch : Z; assertCount : Z;
  symAssert : Z; realFork : Z; assertFork : Z; branchCount : Z
}.
Definition new (sets : AssertChecker.st) : st := mkSt sets 0 0 0 0 0 0 0.

Definition mayBeEvent (f : string) : bool := bool_decide (f = "__assert_fail").

(** [b] counted as an [int]. *)
Definition incr (b : bool) (n : Z) : Z := if b then s32 (n + 1) else n.

Definition onBranch (inst : nat) (succ0 succ1 : list (option string)) (isConst forked : bool) : M st Result :=
  s ← get;
  let t := sets s in
  let known := bool_decide (inst ∈ asserts t) in
  let fresh := negb known && bool_decide (inst ∉ nonAsserts t) in
  let isAssert := known || (fresh && (scan_block succ0 || scan_block succ1)) in
  let t := if fresh then
             if isAssert then AssertChecker.mkSt ({[ inst ]} ∪ asserts t) (nonAsserts t)
             else AssertChecker.mkSt (asserts t) ({[ inst ]} ∪ nonAsserts t)
           else t in
  put (mkSt t (incr isConst (constBranch s)) (incr (negb isConst) (symBranch s))
         (incr isAssert (assertCount s)) (incr (isAssert && negb isConst) (symAssert s))
         (incr forked (realFork s)) (incr (forked && isAssert) (assertFork s))
         (incr true (branchCount s)));;
  mret (if isAssert then IMPORTANT else OK).

(** [report] writes the counters to a file. *)
Definition report : M st Result := mret OK.

(** ** The counters agree *)
Record branch := mkBranch { b_inst : nat; b_succ0 : list (option string); b_succ1 : list (option string); b_const : bool; b_forked : bool }.
Definition handle (b : branch) : M st Result := onBranch (b_inst b) (b_succ0 b) (b_succ1 b) (b_const b) (b_forked b).

Definition counters_agree (n : Z) (s : st) : Prop :=
  branchCount s = n ∧ constBranch s + symBranch s = n ∧ 0 ≤ constBranch s ∧ 0 ≤ symBranch s ∧
  0 ≤ symAssert s ≤ assertCount s ∧ assertCount s ≤ n ∧ symAssert s ≤ symBranch s ∧
  0 ≤ assertFork s ≤ realFork s ∧ realFork s ≤ n ∧ assertFork s ≤ assertCount s.

Lemma handle_counts b n s : 0 ≤ n < 2 ^ 31 - 1 → counters_agree n s →
  ∃ r s', handle b s = Done r s' ∧ errs r = false ∧ counters_agree (n + 1) s'.
Proof.
  intros Hn Hs. unfold handle, onBranch. cbv beta iota zeta delta [mbind mret M_bind M_ret get put].
  eexists _, _. split; [reflexivity|]. split; [by case_match|].
  destruct s as [t c1 c2 c3 c4 c5 c6 c7]. unfold counters_agree, incr in *. cbn in *.
  set (a := bool_decide _ || _). destruct (b_const b), (b_forked b), a; cbn in *; wrap_lia.
Qed.

(** After fewer than 2^31 branches the counters add up: every branch is constant or
    symbolic, and assertions and forks are counted within them. *)
Lemma counters_run bs n s : 0 ≤ n → n + Z.of_nat (length bs) < 2 ^ 31 → counters_agree n s →
  ∃ rs s', run_events handle bs s = Done rs s' ∧ counters_agree (n + Z.of_nat (length bs)) s'.
Proof.
  revert n s. induction bs as [|b bs IH]; intros n s H0 Hn Hs; [exists [], s; by rewrite Z.add_0_r|].
  cbn [length] in *. destruct (handle_counts b n s) as (r & s1 & E1 & _ & H1); [lia|done|].
  destruct (IH (n + 1) s1) as (rs & s2 & E2 & H2); [lia|lia|done|].
  exists (r :: rs), s2. split; [by eapply run_events_cons|].
  by replace (n + Z.of_nat (S (length bs))) with (n + 1 + Z.of_nat (length bs)) by lia.
Qed.
