(* ===== verification/LockChecker.v ===== *)
(** * The lock checker of BasicCheckers.cpp *)
From S2P Require Import Prelude Checker.

Record st := mkSt { init_locks : gset Z; locked_locks : gset Z }.
Definition new : st := mkSt ∅ ∅.

Definition mayBeEvent (f : string) : bool :=
  is_one_of f ["pthread_mutex_init"; "pthread_mutex_lock"; "pthread_mutex_unlock"; "pthread_mutex_destroy"].

Definition onCall (c : call) : M st Result :=
  match args c with
  | None => mret OK
  | Some l =>
    if bool_decide (fname c = "pthread_mutex_init") then
      mutex ← arg_at l 2; s ← get;
      if bool_decide (mutex ∈ init_locks s) then mret (Z.lor ERROR NEED_ARG0)
      else put (mkSt ({[ mutex ]} ∪ init_locks s) (locked_locks s));; mret (Z.lor IMPORTANT NEED_ARG0)
    else if bool_decide (fname c = "pthread_mutex_lock") then
      mutex ← arg_at l 2; s ← get;
      if bool_decide (mutex ∉ init_locks s) then mret (Z.lor ERROR NEED_ARG0)
      else if bool_decide (mutex ∈ locked_locks s) then mret (Z.lor ERROR NEED_ARG0)
      else put (mkSt (init_locks s) ({[ mutex ]} ∪ locked_locks s));; mret (Z.lor IMPORTANT NEED_ARG0)
    else if bool_decide (fname c = "pthread_mutex_unlock") then
      mutex ← arg_at l 2; s ← get;
      if bool_decide (mutex ∉ init_locks s) then mret (Z.lor ERROR NEED_ARG0)
      else if bool_decide (mutex ∉ locked_locks s) then mret (Z.lor ERROR NEED_ARG0)
      else put (mkSt (init_locks s) (locked_locks s ∖ {[ mutex ]}));; mret (Z.lor IMPORTANT NEED_ARG0)
    else if bool_decide (fname c = "pthread_mutex_destroy") then
      mutex ← arg_at l 2; s ← get;
      if bool_decide (mutex ∈ locked_locks s) then mret (Z.lor ERROR NEED_ARG0)
      else if bool_decide (mutex ∉ init_locks s) then mret (Z.lor ERROR NEED_ARG0)
      else put (mkSt (init_locks s ∖ {[ mutex ]}) (locked_locks s));; mret (Z.lor IMPORTANT NEED_ARG0)
    else mret OK
  end.

Definition report : M st Result :=
  s ← get;
  mret (if bool_decide (init_locks s ≠ ∅) || bool_decide (locked_locks s ≠ ∅) then ERROR else OK).

Definition wantConcrete (f : string) : bool := mayBeEvent f.

(** ** What the checker promises

    Each mutex is an automaton of its own.  A call that the automaton refuses is
    an error and leaves the mutex as it was. *)
Inductive lock_op : Type := MInit | MLock | MUnlock | MDestroy.
Inductive lock_state : Type := Uninit | Unlocked | Locked.
#[global] Instance lock_state_eq_dec : EqDecision lock_state.
Proof. solve_decision. Defined.

Definition lock_step (o : lock_op) (x : lock_state) : lock_state * bool :=
  match o, x with
  | MInit, Uninit => (Unlocked, false)
  | MLock, Unlocked => (Locked, false)
  | MUnlock, Locked => (Unlocked, false)
  | MDestroy, Unlocked => (Uninit, false)
  | _, _ => (x, true)
  end.

(** The automata after a sequence of operations, and which operations are errors. *)
Definition lock_spec : list (lock_op * Z) → (Z → lock_state) * list bool := product lock_step (λ _, Uninit).

Definition op_name (o : lock_op) : string :=
  match o with
  | MInit => "pthread_mutex_init" | MLock => "pthread_mutex_lock"
  | MUnlock => "pthread_mutex_unlock" | MDestroy => "pthread_mutex_destroy"
  end.

(** An external call of a mutex function. *)
Definition mutex_call (c : call) (om : lock_op * Z) : Prop :=
  fname c = op_name om.1 ∧ ∃ l, args c = Some l ∧ l !! 2%nat = Some om.2.

(** The automata of a state of the checker. *)
Definition automaton (s : st) (m : Z) : lock_state :=
  if bool_decide (m ∈ init_locks s)
  then if bool_decide (m ∈ locked_locks s) then Locked else Unlocked
  else Uninit.

Definition lock_inv (s : st) : Prop := locked_locks s ⊆ init_locks s.

Lemma automaton_states s m : lock_inv s →
  (m ∈ init_locks s ∧ m ∈ locked_locks s ∧ automaton s m = Locked) ∨
  (m ∈ init_locks s ∧ m ∉ locked_locks s ∧ automaton s m = Unlocked) ∨
  (m ∉ init_locks s ∧ m ∉ locked_locks s ∧ automaton s m = Uninit).
Proof.
  unfold lock_inv, automaton. intros Hs.
  destruct (decide (m ∈ init_locks s)) as [Hi|Hi], (decide (m ∈ locked_locks s)) as [Hl|Hl];
    rewrite ?(bool_decide_eq_true_2 _ Hi), ?(bool_decide_eq_false_2 _ Hi),
      ?(bool_decide_eq_true_2 _ Hl), ?(bool_decide_eq_false_2 _ Hl); set_solver.
Qed.

Lemma automaton_other s s' m' :
  (m' ∈ init_locks s ↔ m' ∈ init_locks s') → (m' ∈ locked_locks s ↔ m' ∈ locked_locks s') →
  automaton s' m' = automaton s m'.
Proof. intros Hi Hl. unfold automaton. by rewrite (bool_decide_ext _ _ Hi), (bool_decide_ext _ _ Hl). Qed.

Lemma onCall_step c o m s : mutex_call c (o, m) → lock_inv s →
  ∃ r s', onCall c s = Done r s' ∧ lock_inv s' ∧
    errs r = (lock_step o (automaton s m)).2 ∧
    ∀ m', automaton s' m' = if decide (m' = m) then (lock_step o (automaton s m)).1 else automaton s m'.
Proof.
  intros [Hn [l [Ha Hl]]] Hs. cbn in Hn, Hl.
  unfold onCall, arg_at. rewrite Ha, Hn, Hl.
  destruct (automaton_states s m Hs) as [(Hi&Hk&Ea)|[(Hi&Hk&Ea)|(Hi&Hk&Ea)]]; rewrite Ea; destruct o;
    cbv beta iota zeta delta [mbind mret M_bind M_ret get put deref op_name]; names; tests;
    eexists _, _; (split; [reflexivity|]);
    (split; [unfold lock_inv in *; cbn; set_solver|]); (split; [reflexivity|]);
    intros m'; cbn; destruct (decide (m' = m)) as [->|Hm]; try done;
    try (apply automaton_other; cbn; set_solver);
    unfold automaton; cbn; repeat case_bool_decide; set_solver.
Qed.

Lemma report_automata s : lock_inv s →
  report s = Done ERROR s ∧ (∃ m, automaton s m ≠ Uninit) ∨
  report s = Done OK s ∧ (∀ m, automaton s m = Uninit).
Proof.
  intros Hs. unfold report. cbv beta iota delta [mbind mret M_bind M_ret get].
  destruct (decide (init_locks s = ∅)) as [Hi|Hi].
  - right. assert (locked_locks s = ∅) as Hl by (unfold lock_inv in Hs; set_solver).
    unfold automaton. rewrite Hi, Hl. split; [by rewrite !bool_decide_eq_false_2 by tauto|].
    intros m. by rewrite bool_decide_eq_false_2 by set_solver.
  - left. rewrite bool_decide_eq_true_2 by done. split; [done|].
    destruct (set_choose_L _ Hi) as [m Hm]. exists m. unfold automaton.
    rewrite bool_decide_eq_true_2 by done. by case_bool_decide.
Qed.

(** C30: The lock checker decides, for every sequence of external mutex calls, the
    product of one automaton per mutex: it returns on every call, reports an error
    on exactly the calls that the automaton of their mutex refuses, and at the end
    of the path reports an error exactly when some mutex was initialised and not
    destroyed. *)
Theorem lock_checker_refines cs ops :
  Forall2 mutex_call cs ops →
  ∃ rs s, run_events onCall cs new = Done rs s ∧
    let spec := lock_spec ops in
    errs <$> rs = spec.2 ∧ (∀ m, automaton s m = spec.1 m) ∧
    ∃ r, report s = Done r s ∧ (errs r = true ↔ ∃ m, spec.1 m ≠ Uninit).
Proof.
  intros H.
  destruct (run_product_from lock_step (λ _ _, True) onCall mutex_call lock_inv automaton
              (λ c o m s Hc Hs _, onCall_step c o m s Hc Hs) Uninit cs ops new H)
    as (rs & s & E & Hs & Ee & Ea); [done..|by apply legal_true|].
  exists rs, s. split; [done|]. split; [done|]. split; [done|].
  destruct (report_automata s Hs) as [[Er [m Hm]]|[Er Hm]]; eexists; (split; [exact Er|]).
  - split; [intros _; exists m; by rewrite <-Ea|done].
  - split; [done|]. intros [m Hn]. by rewrite <-Ea, Hm in Hn.
Qed.

Definition sample_call (f : string) (m : Z) : call :=
  mkCall f [] (Some [0; 0; m]) "" 0 (λ _, ""%string) (λ _, ""%string) (λ _, false) (λ _, None) (λ _, 0) 0.

Lemma lock_checker_refines_witness :
  ∃ rs s, run_events onCall [sample_call "pthread_mutex_init" 8; sample_call "pthread_mutex_lock" 8;
                             sample_call "pthread_mutex_lock" 8; sample_call "pthread_mutex_unlock" 9] new = Done rs s ∧
    errs <$> rs = [false; false; true; true].
Proof.
  destruct (lock_checker_refines
    [sample_call "pthread_mutex_init" 8; sample_call "pthread_mutex_lock" 8;
     sample_call "pthread_mutex_lock" 8; sample_call "pthread_mutex_unlock" 9]
    [(MInit, 8); (MLock, 8); (MLock, 8); (MUnlock, 9)]) as (rs & s & E & Ee & _).
  - repeat constructor; cbn; eexists; split; reflexivity.
  - exists rs, s. split; [exact E|exact Ee].
Defined.
