(* ===== verification/OpenCloseChecker.v ===== *)
(** * The stream leak checker of BasicCheckers.cpp *)
From S2P Require Import Prelude Checker.

Record st := mkSt {
  open_fds : gset Z;
  open_fds_allocinfo : gmap Z string;
  open_fds_exp : list (Z * string);   (** the expressions (constants), in order, with their texts *)
  dismiss_error : bool;
  reported : AllocInfo.record
}.
Definition new : st := mkSt ∅ ∅ [] false [].

Definition mayBeEvent (f : string) : bool := is_one_of f ["fopen"; "fdopen"; "fopen64"; "fclose"].

(** [must_equal] is the solver's answer whether the closed expression must equal
    an open one; [None] is a failure of the solver. *)
Fixpoint match_open (must_equal : Z → option bool) (l : list (Z * string)) : option (option Z) :=
  match l with
  | [] => Some None
  | (v, _) :: l =>
    match must_equal v with
    | None => None
    | Some true => Some (Some v)
    | Some false => match_open must_equal l
    end
  end.

Definition onCall (must_equal : Z → option bool) (c : call) : M st Result :=
  s ← get;
  if is_one_of (fname c) ["fopen"; "fopen64"; "fdopen"] && bool_decide (args c ≠ None) then
    fd ← (match args c with Some l => arg_at l 0 | None => mret 0 end);
    (if negb (fd =? 0) then
       put (mkSt ({[ fd ]} ∪ open_fds s)
              (match open_fds_allocinfo s !! fd with Some _ => open_fds_allocinfo s
               | None => <[fd := site c]> (open_fds_allocinfo s) end)
              (open_fds_exp s) (dismiss_error s) (reported s))
     else mret tt);;
    mret (Z.lor IMPORTANT NEED_RET)
  else if bool_decide (fname c = "fclose") then
    match args c with
    | Some l =>
      fd ← arg_at l 2;
      if bool_decide (fd ∉ open_fds s) then mret (Z.lor ERROR NEED_ARG0)
      else
        put (mkSt (open_fds s ∖ {[ fd ]}) (delete fd (open_fds_allocinfo s)) (open_fds_exp s)
               (dismiss_error s) (reported s));;
        mret (Z.lor IMPORTANT NEED_ARG0)
    | None =>
      close_fd ← argument_at c 0;
      match match_open must_equal (open_fds_exp s) with
      | None => mret (Z.lor ERROR NEED_ARG0)
      | Some None =>
        if dismiss_error s then mret OK
        else
          match close_fd with
          | Some v => if in_streams c v then mret OK else mret (Z.lor ERROR NEED_ARG0)
          | None => mret (Z.lor ERROR NEED_ARG0)
          end
      | Some (Some v) =>
        (* open_fds_exp.erase(match_fd), then match_fd->get(): the iterator
           of an element that has been erased is used *)
        put (mkSt (open_fds s) (open_fds_allocinfo s) (filter (λ p, p.1 ≠ v) (open_fds_exp s))
               (dismiss_error s) (reported s));;
        halt MemoryError
      end
    end
  else if bool_decide (fname c = "close_stdout") && bool_decide (args c = None) then
    put (mkSt (open_fds s) (open_fds_allocinfo s) (open_fds_exp s) true (reported s));; mret OK
  else mret OK.

(** Insertion into the ordered set of expressions; constants compare by value. *)
Fixpoint insert_exp (v : Z) (info : string) (l : list (Z * string)) : list (Z * string) :=
  match l with
  | [] => [(v, info)]
  | (x, i) :: l' =>
    if v <? x then (v, info) :: l else if v =? x then l else (x, i) :: insert_exp v info l'
  end.

Definition onRet (r : ret) : M st Result :=
  s ← get;
  match r_fname r with
  | None => mret OK
  | Some f =>
    if is_one_of f ["fopen"; "fopen64"; "fdopen"] then
      (match r_result r with
       | Some v =>
         if negb (v =? 0) then
           put (mkSt (open_fds s) (open_fds_allocinfo s) (insert_exp v (r_site r) (open_fds_exp s)) (dismiss_error s) (reported s))
         else mret tt
       | None => mret tt
       end);;
      mret (Z.lor IMPORTANT NEED_RET)
    else if bool_decide (f = "close_stdout") then
      put (mkSt (open_fds s) (open_fds_allocinfo s) (open_fds_exp s) false (reported s));; mret OK
    else mret OK
  end.

Definition report (place : string) : M st Result :=
  s ← get;
  let '(e1, r) := AllocInfo.report_all (reported s) place
      ((λ fd, default "" (open_fds_allocinfo s !! fd)) <$> elements (open_fds s)) in
  let '(e2, r) := AllocInfo.report_all r place (open_fds_exp s).*2 in
  put (mkSt (open_fds s) (open_fds_allocinfo s) (open_fds_exp s) (dismiss_error s) r);;
  mret (if e1 || e2 then ERROR else OK).

Definition wantConcrete (f : string) : bool := mayBeEvent f.

(** A stream that [fopen] returned inside the program cannot be closed inside it:
    [match_fd] is dereferenced after its element was erased. *)
Lemma fclose_uses_erased must_equal c s e v :
  fname c = "fclose" → args c = None → arguments c !! 0%nat = Some e →
  match_open must_equal (open_fds_exp s) = Some (Some v) →
  ∃ s', onCall must_equal c s = Halt MemoryError s'.
Proof.
  intros Hf Ha He Hm. unfold onCall, argument_at. rewrite Hf, Ha, He.
  cbv beta iota delta [mbind M_bind get deref]. names. rewrite Hm. by eexists.
Qed.
