(* ===== verification/FileChecker.v ===== *)
(** * The stream error checker of BasicCheckers.cpp *)
From S2P Require Import Prelude Checker.

Record st := mkSt { open_fds : gset Z; err_fds : gset Z; dirty_fds : gset Z; err_dirty_fds : gset Z }.
Definition new : st := mkSt ∅ ∅ ∅ ∅.

Definition set_open f (s : st) := mkSt (f (open_fds s)) (err_fds s) (dirty_fds s) (err_dirty_fds s).
Definition set_err f (s : st) := mkSt (open_fds s) (f (err_fds s)) (dirty_fds s) (err_dirty_fds s).
Definition set_dirty f (s : st) := mkSt (open_fds s) (err_fds s) (f (dirty_fds s)) (err_dirty_fds s).
Definition set_err_dirty f (s : st) := mkSt (open_fds s) (err_fds s) (dirty_fds s) (f (err_dirty_fds s)).
Definition ins (fp : Z) (X : gset Z) : gset Z := {[ fp ]} ∪ X.
Definition del (fp : Z) (X : gset Z) : gset Z := X ∖ {[ fp ]}.

Definition starts_with_f (f : string) : bool :=
  match f with String a _ => bool_decide (a = "f"%char) | EmptyString => false end.

Definition mayBeEvent (f : string) : bool :=
  if is_one_of f ["clearerr"; "clearerr_unlocked"] then true
  else if (String.length f <? 5)%nat then false
  else if negb (starts_with_f f) then false
  else is_one_of f ["fopen"; "fopen64"; "fdopen"; "fclose"; "fputs"; "fputs_unlocked"; "fgets";
                    "fgets_unlocked"; "fprintf"; "fread"; "fread_unlocked"; "fwrite";
                    "fwrite_unlocked"; "ferror"; "ferror_unlocked"].

(** [clearerr]. *)
Definition clear_error (fp : Z) : M st unit :=
  s ← get;
  (if bool_decide (fp ∈ err_fds s) then modify (set_err (del fp));; modify (set_open (ins fp)) else mret tt);;
  s ← get;
  if bool_decide (fp ∈ err_dirty_fds s) then modify (set_err_dirty (del fp));; modify (set_dirty (ins fp)) else mret tt.

(** A result of [ferror] that is not 0. *)
Definition mark_error (fp : Z) : M st unit :=
  s ← get;
  if bool_decide (fp ∈ open_fds s) then modify (set_open (del fp));; modify (set_err (ins fp))
  else if bool_decide (fp ∈ err_fds s) || bool_decide (fp ∈ err_dirty_fds s) then mret tt
  else if bool_decide (fp ∈ dirty_fds s) then modify (set_dirty (del fp));; modify (set_err_dirty (ins fp))
  else mret tt.

Definition close_stream (fd : Z) : M st Result :=
  s ← get;
  let found := bool_decide (fd ∈ open_fds s) || bool_decide (fd ∈ err_fds s) ||
               bool_decide (fd ∈ dirty_fds s) || bool_decide (fd ∈ err_dirty_fds s) in
  put (mkSt (del fd (open_fds s)) (del fd (err_fds s)) (del fd (dirty_fds s)) (del fd (err_dirty_fds s)));;
  mret (Z.lor (if found then IMPORTANT else ERROR) NEED_ARG0).

(** A read or a write of a stream. *)
Definition use_stream (fp : Z) (need_args : Result) : M st Result :=
  s ← get;
  if bool_decide (fp ∉ open_fds s) then
    if bool_decide (fp ∈ err_fds s) || bool_decide (fp ∈ err_dirty_fds s) then mret (Z.lor ERROR need_args)
    else if bool_decide (fp ∈ dirty_fds s) then mret (Z.lor IMPORTANT need_args)
    else mret (Z.lor ERROR need_args)
  else
    modify (set_open (del fp));; modify (set_dirty (ins fp));;
    mret (Z.lor IMPORTANT need_args).

(** Which argument is the stream. *)
Definition stream_index (f : string) : option nat :=
  if is_one_of f ["fread"; "fwrite"; "fread_unlocked"; "fwrite_unlocked"] then Some 3%nat
  else if is_one_of f ["fputs"; "fputs_unlocked"] then Some 1%nat
  else if is_one_of f ["fgets"; "fgets_unlocked"] then Some 2%nat
  else if bool_decide (f = "fprintf") then Some 0%nat
  else None.

(** The stream of the call, [None] when it is one of the standard streams or has
    no descriptor. *)
Definition stream_arg (c : call) (i : nat) : M st (option Z) :=
  match args c with
  | None =>
    op_fd ← argument_at c i;
    match op_fd with
    | Some v =>
      if in_streams c v then mret None
      else
        match sym_filedes c v with
        | Some d => if s32 d <? 0 then mret None else mret (Some v)
        | None => mret (Some v)
        end
    | None => mret (Some (getIntFromExp None))
    end
  | Some l =>
    fp ← arg_at l (2 + i);
    let d := filedes c fp in
    if d <? 0 then mret None
    else if (d <=? 2) && (0 <=? d) then mret None
    else mret (Some fp)
  end.

Definition onCall (c : call) : M st Result :=
  if is_one_of (fname c) ["clearerr"; "clearerr_unlocked"] then
    fp ← int_arg c 0; clear_error fp;; mret (Z.lor IMPORTANT NEED_ARG0)
  else if (String.length (fname c) <? 5)%nat || negb (starts_with_f (fname c)) then mret OK
  else if is_one_of (fname c) ["fopen"; "fopen64"; "fdopen"] then
    match args c with
    | Some l =>
      fd ← arg_at l 0;
      (if negb (fd =? 0) then modify (set_open (ins fd)) else mret tt);;
      mret (Z.lor IMPORTANT NEED_RET)
    | None => mret OK
    end
  else if bool_decide (fname c = "fclose") then
    match args c with
    | Some l => fd ← arg_at l 2; close_stream fd
    | None =>
      close_fd ← argument_at c 0;
      match close_fd with
      | Some v => if in_streams c v then mret OK else close_stream v
      | None => close_stream (getIntFromExp None)
      end
    end
  else if is_one_of (fname c) ["ferror"; "ferror_unlocked"] then
    (match args c with
     | Some l =>
       ret ← arg_at l 0; fp ← arg_at l 2;
       if negb (ret =? 0) then mark_error fp else mret tt
     | None => mret tt
     end);;
    mret (Z.lor IMPORTANT (Z.lor NEED_RET NEED_ARG0))
  else
    match stream_index (fname c) with
    | None => mret OK
    | Some i =>
      let need_args := Z.shiftl 1 (Z.of_nat i + NEED_ARG_BEGIN) in
      fp ← stream_arg c i;
      match fp with None => mret OK | Some fp => use_stream fp need_args end
    end.

Definition onRet (r : ret) : M st Result :=
  match r_fname r with
  | None => mret OK
  | Some f =>
    if is_one_of f ["fopen"; "fopen64"; "fdopen"] then
      let fp := getIntFromExp (r_result r) in
      (if negb (fp =? 0) then modify (set_open (ins fp)) else mret tt);;
      mret (Z.lor IMPORTANT NEED_RET)
    else if is_one_of f ["ferror"; "ferror_unlocked"] then
      let ret := getIntFromExp (r_result r) in
      fp ← ret_arg r 0;
      (if negb (ret =? 0) then mark_error fp else mret tt);;
      mret (Z.lor IMPORTANT (Z.lor NEED_RET NEED_ARG0))
    else mret OK
  end.

Definition report : M st Result :=
  s ← get;
  mret (if bool_decide (dirty_fds s ≠ ∅) || bool_decide (err_dirty_fds s ≠ ∅) then ERROR else OK).

Definition wantConcrete (f : string) : bool := mayBeEvent f.

(** ** What the checker promises

    Each stream is an automaton: it is opened, used, found to be in error and
    cleared, and closed.  Using a stream that is not open or is in error is an
    error, and so is closing one that is not open. *)
Inductive stream_op : Type := SOpen | SUse | SFail | SClear | SClose.
Inductive stream_state : Type := Closed | Opened | Failed | Dirty | FailedDirty.
#[global] Instance stream_state_eq_dec : EqDecision stream_state.
Proof. solve_decision. Defined.

Definition stream_step (o : stream_op) (x : stream_state) : stream_state * bool :=
  match o, x with
  | SOpen, _ => (Opened, false)
  | SUse, (Opened | Dirty) => (Dirty, false)
  | SUse, _ => (x, true)
  | SFail, Opened => (Failed, false)
  | SFail, Dirty => (FailedDirty, false)
  | SClear, Failed => (Opened, false)
  | SClear, FailedDirty => (Dirty, false)
  | (SFail | SClear), _ => (x, false)
  | SClose, Closed => (Closed, true)
  | SClose, _ => (Closed, false)
  end.

(** [fopen] returns a stream that is not in use. *)
Definition stream_ok (o : stream_op) (x : stream_state) : Prop :=
  match o with SOpen => x = Closed | _ => True end.

(** The events of the program: a call, or the return of a call inside it. *)
Definition handle (e : call + ret) : M st Result :=
  match e with inl c => onCall c | inr r => onRet r end.

Definition open_names : list string := ["fopen"; "fopen64"; "fdopen"].
Definition use_names : list (string * nat) :=
  [("fread", 3); ("fwrite", 3); ("fread_unlocked", 3); ("fwrite_unlocked", 3); ("fputs", 1);
   ("fputs_unlocked", 1); ("fgets", 2); ("fgets_unlocked", 2); ("fprintf", 0)]%nat.
Definition error_names : list string := ["ferror"; "ferror_unlocked"].
Definition clear_names : list string := ["clearerr"; "clearerr_unlocked"].

(** Argument [i] of the call is the stream [fp], which is not one of the standard
    streams and has a descriptor. *)
Definition stream_is (c : call) (i : nat) (fp : Z) : Prop :=
  match args c with
  | Some l => l !! (2 + i)%nat = Some fp ∧ 2 < filedes c fp
  | None => arguments c !! i = Some (Some fp) ∧ in_streams c fp = false ∧
            match sym_filedes c fp with Some d => 0 ≤ s32 d | None => True end
  end.

Inductive stream_event : call + ret → stream_op * Z → Prop :=
| ev_open_call c l fp : fname c ∈ open_names → args c = Some l → l !! 0%nat = Some fp → fp ≠ 0 →
    stream_event (inl c) (SOpen, fp)
| ev_open_ret r f fp : r_fname r = Some f → f ∈ open_names → r_result r = Some fp → fp ≠ 0 →
    stream_event (inr r) (SOpen, fp)
| ev_use c i fp : (fname c, i) ∈ use_names → stream_is c i fp → stream_event (inl c) (SUse, fp)
| ev_fail_call c l v fp : fname c ∈ error_names → args c = Some l → l !! 0%nat = Some v → v ≠ 0 →
    l !! 2%nat = Some fp → stream_event (inl c) (SFail, fp)
| ev_fail_ret r f v fp : r_fname r = Some f → f ∈ error_names → r_result r = Some v → v ≠ 0 →
    r_arguments r !! 0%nat = Some (Some fp) → stream_event (inr r) (SFail, fp)
| ev_clear c fp : fname c ∈ clear_names → stream_is c 0 fp → stream_event (inl c) (SClear, fp)
| ev_close c fp : fname c = "fclose" → stream_is c 0 fp → stream_event (inl c) (SClose, fp).

Definition automaton (s : st) (fp : Z) : stream_state :=
  if bool_decide (fp ∈ open_fds s) then Opened
  else if bool_decide (fp ∈ err_fds s) then Failed
  else if bool_decide (fp ∈ dirty_fds s) then Dirty
  else if bool_decide (fp ∈ err_dirty_fds s) then FailedDirty else Closed.

(** The four sets have no stream in common. *)
Definition sets_disjoint (s : st) : Prop :=
  open_fds s ## err_fds s ∧ open_fds s ## dirty_fds s ∧ open_fds s ## err_dirty_fds s ∧
  err_fds s ## dirty_fds s ∧ err_fds s ## err_dirty_fds s ∧ dirty_fds s ## err_dirty_fds s.

(** Which of the sets a stream in a state of its automaton is in. *)
Definition member_of (s : st) (fp : Z) : Prop :=
  match automaton s fp with
  | Closed => fp ∉ open_fds s ∧ fp ∉ err_fds s ∧ fp ∉ dirty_fds s ∧ fp ∉ err_dirty_fds s
  | Opened => fp ∈ open_fds s ∧ fp ∉ err_fds s ∧ fp ∉ dirty_fds s ∧ fp ∉ err_dirty_fds s
  | Failed => fp ∉ open_fds s ∧ fp ∈ err_fds s ∧ fp ∉ dirty_fds s ∧ fp ∉ err_dirty_fds s
  | Dirty => fp ∉ open_fds s ∧ fp ∉ err_fds s ∧ fp ∈ dirty_fds s ∧ fp ∉ err_dirty_fds s
  | FailedDirty => fp ∉ open_fds s ∧ fp ∉ err_fds s ∧ fp ∉ dirty_fds s ∧ fp ∈ err_dirty_fds s
  end.

Lemma member_of_disjoint s fp : sets_disjoint s → member_of s fp.
Proof. unfold sets_disjoint, member_of, automaton. intros H. repeat case_bool_decide; set_solver. Qed.

Lemma automaton_frame s s' fp :
  (fp ∈ open_fds s ↔ fp ∈ open_fds s') → (fp ∈ err_fds s ↔ fp ∈ err_fds s') →
  (fp ∈ dirty_fds s ↔ fp ∈ dirty_fds s') → (fp ∈ err_dirty_fds s ↔ fp ∈ err_dirty_fds s') →
  automaton s' fp = automaton s fp.
Proof.
  intros H1 H2 H3 H4. unfold automaton.
  by rewrite (bool_decide_ext _ _ H1), (bool_decide_ext _ _ H2), (bool_decide_ext _ _ H3), (bool_decide_ext _ _ H4).
Qed.

(** A step of the automaton of [fp]: the three parts of the checker that change a
    stream, and the insertion of a new one. *)
Definition follows (o : stream_op) (fp : Z) {A} (m : M st A) (err : A → bool) : Prop := ∀ s,
  sets_disjoint s → stream_ok o (automaton s fp) →
  ∃ r s', m s = Done r s' ∧ sets_disjoint s' ∧ err r = (stream_step o (automaton s fp)).2 ∧
    ∀ fp', automaton s' fp' = if decide (fp' = fp) then (stream_step o (automaton s fp)).1 else automaton s fp'.

Ltac follow fp :=
  let s := fresh "s" in let Hs := fresh "Hs" in let Ho := fresh "Ho" in let Hm := fresh "Hm" in
  intros s Hs Ho; pose proof (member_of_disjoint s fp Hs) as Hm; unfold member_of in Hm;
  destruct (automaton s fp) eqn:?E;
  destruct_and! Hm; try discriminate Ho;
  cbv beta iota zeta delta [clear_error mark_error close_stream use_stream mbind mret M_bind M_ret get put modify];
  tests;
  eexists _, _; (split; [reflexivity|]);
  unfold sets_disjoint, set_open, set_err, set_dirty, set_err_dirty, ins, del in *; cbn;
  (split; [set_solver|]); (split; [rewrite ?errs_lor, ?errs_need; reflexivity|]);
  let fp' := fresh "fp'" in
  intros fp'; case_decide; subst; try done;
  try (apply automaton_frame; cbn; set_solver);
  unfold automaton; cbn; repeat case_bool_decide; set_solver.

Lemma clear_error_follows fp : follows SClear fp (clear_error fp) (λ _, false).
Proof. follow fp. Qed.

Lemma mark_error_follows fp : follows SFail fp (mark_error fp) (λ _, false).
Proof. follow fp. Qed.

Lemma close_stream_follows fp : follows SClose fp (close_stream fp) errs.
Proof. follow fp. Qed.

Lemma use_stream_follows fp i : follows SUse fp (use_stream fp (Z.shiftl 1 (Z.of_nat i + NEED_ARG_BEGIN))) errs.
Proof. follow fp. Qed.

Lemma open_follows fp : follows SOpen fp (modify (set_open (ins fp))) (λ _, false).
Proof. follow fp. Qed.

(** Post-processing of the result. *)
Lemma follows_bind {A} o fp (m : M st A) err r :
  follows o fp m err → (∀ a, err a = errs r) → follows o fp (m;; mret r) errs.
Proof.
  intros H He s Hs Ho. destruct (H s Hs Ho) as (a & s' & E & ? & Ee & ?).
  exists r, s'. rewrite (bind_done _ _ _ _ _ E), <-(He a), Ee. done.
Qed.

(** Resolves the dispatch on the name of the function, one of a list. *)
Ltac dispatch H :=
  unfold onCall, onRet; name_cases H;
  simplify_eq; repeat match goal with E : fname _ = _ |- _ => rewrite E; clear E end; names;
  repeat match goal with
  | |- context [(String.length ?a <? 5)%nat || negb (starts_with_f ?a)] =>
      name_test ((String.length a <? 5)%nat || negb (starts_with_f a))
  end;
  cbn beta iota zeta; names.

Lemma follows_deref {A B} o fp (a : A) (k : A → M st B) err :
  follows o fp (k a) err → follows o fp (deref (Some a) ≫= k) err.
Proof. intros H. exact H. Qed.

Lemma follows_ret {A B} o fp (a : A) (k : A → M st B) err :
  follows o fp (k a) err → follows o fp (mret a ≫= k) err.
Proof. intros H. exact H. Qed.

Lemma opened_follows fp : fp ≠ 0 →
  follows SOpen fp ((if negb (fp =? 0) then modify (set_open (ins fp)) else mret tt);; mret (Z.lor IMPORTANT NEED_RET)) errs.
Proof.
  intros H0. rewrite (proj2 (Z.eqb_neq fp 0) H0). by eapply follows_bind; [apply open_follows|].
Qed.

Lemma failed_follows v fp : v ≠ 0 →
  follows SFail fp ((if negb (v =? 0) then mark_error fp else mret tt);; mret (Z.lor IMPORTANT (Z.lor NEED_RET NEED_ARG0))) errs.
Proof.
  intros H0. rewrite (proj2 (Z.eqb_neq v 0) H0). by eapply follows_bind; [apply mark_error_follows|].
Qed.

Lemma stream_arg0_is c fp : stream_is c 0 fp → int_arg c 0 = (mret fp : M st Z).
Proof.
  unfold stream_is, int_arg, arg_at, argument_at. change (0 + 2)%nat with (2 + 0)%nat.
  destruct (args c) as [l|]; intros [-> _]; reflexivity.
Qed.

Lemma stream_arg_is c i fp : stream_is c i fp → stream_arg c i = mret (Some fp).
Proof.
  unfold stream_is, stream_arg, arg_at, argument_at.
  destruct (args c) as [l|]; [intros [-> H]|intros (-> & Hs & Hd)]; cbv [mbind M_bind deref mret M_ret].
  - by rewrite (proj2 (Z.ltb_ge _ _)), (proj2 (Z.leb_gt _ _)) by lia.
  - rewrite Hs. destruct (sym_filedes c fp) as [d|]; [|done]. by rewrite (proj2 (Z.ltb_ge _ _)) by lia.
Qed.

Lemma handle_follows e o fp : stream_event e (o, fp) → follows o fp (handle e) errs.
Proof.
  intros He. inversion He as [c l ? Hn Ha Hl H0|r f ? Hf Hn Hr H0|c i ? Hn Hs|c l v ? Hn Ha Hl H0 Hp
    |r f v ? Hf Hn Hr H0 Hp|c ? Hn Hs|c ? Hn Hs]; subst; cbn [handle].
  - dispatch Hn; rewrite Ha; unfold arg_at; rewrite Hl; by apply follows_deref, opened_follows.
  - unfold onRet. rewrite Hf, Hr. dispatch Hn; by apply opened_follows.
  - dispatch Hn; unfold stream_index; names; rewrite (stream_arg_is _ _ _ Hs); apply follows_ret, use_stream_follows.
  - dispatch Hn; rewrite Ha; unfold arg_at; rewrite Hl, Hp; by apply failed_follows.
  - unfold onRet, ret_arg. rewrite Hf, Hr, Hp. dispatch Hn; by apply failed_follows.
  - dispatch Hn; rewrite (stream_arg0_is _ _ Hs); by eapply follows_ret, follows_bind; [apply clear_error_follows|].
  - apply list_elem_of_singleton in Hn. dispatch Hn. unfold arg_at, argument_at. change 2%nat with (2 + 0)%nat.
    unfold stream_is in Hs. destruct (args c) as [l|].
    + destruct Hs as [-> _]. apply follows_deref, close_stream_follows.
    + destruct Hs as (-> & Hi & _). apply follows_deref. rewrite Hi. apply close_stream_follows.
Qed.

Lemma report_streams s : sets_disjoint s →
  ∃ r, report s = Done r s ∧ (errs r = true ↔ ∃ fp, automaton s fp = Dirty ∨ automaton s fp = FailedDirty).
Proof.
  intros Hs. unfold report. cbv beta iota delta [mbind mret M_bind M_ret get].
  eexists. split; [reflexivity|].
  destruct (decide (dirty_fds s = ∅ ∧ err_dirty_fds s = ∅)) as [[H1 H2]|Hn].
  - rewrite !bool_decide_eq_false_2 by tauto. split; [done|]. intros [fp Hf].
    pose proof (member_of_disjoint s fp Hs) as Hm. unfold member_of in Hm.
    destruct Hf as [Hf|Hf]; rewrite Hf in Hm; set_solver.
  - split; [intros _|intros _; apply not_and_l in Hn as [Hn|Hn]; by rewrite (bool_decide_eq_true_2 _ Hn), ?orb_true_r].
    apply not_and_l in Hn as [Hn|Hn]; destruct (set_choose_L _ Hn) as [fp Hf]; exists fp;
      pose proof (member_of_disjoint s fp Hs) as Hm; unfold member_of in Hm;
      destruct (automaton s fp); set_solver.
Qed.

(** C29: The stream checker decides, for every sequence of stream events in which
    [fopen] returns a stream that is not in use, the product of one automaton per
    stream: it returns on every event, keeps its four sets disjoint, reports an
    error on exactly the events that use a stream which is not open or is in error
    or close one which is not open, and at the end of the path reports an error
    exactly when some stream was used and not closed. *)
Theorem file_checker_refines es ops :
  Forall2 stream_event es ops → legal stream_step stream_ok (λ _, Closed) ops →
  ∃ rs s, run_events handle es new = Done rs s ∧ sets_disjoint s ∧
    let spec := product stream_step (λ _, Closed) ops in
    errs <$> rs = spec.2 ∧ (∀ fp, automaton s fp = spec.1 fp) ∧
    ∃ r, report s = Done r s ∧ (errs r = true ↔ ∃ fp, spec.1 fp = Dirty ∨ spec.1 fp = FailedDirty).
Proof.
  intros H Hl.
  destruct (run_product_from stream_step stream_ok handle stream_event sets_disjoint automaton
              (λ e o fp s He, handle_follows e o fp He s) Closed es ops new H)
    as (rs & s & E & Hs & Ee & Ea); [unfold sets_disjoint; cbn; set_solver|done|done|].
  exists rs, s. do 4 (split; [done|]).
  destruct (report_streams s Hs) as (r & Er & Hr). exists r. split; [done|]. rewrite Hr.
  by setoid_rewrite Ea.
Qed.

Definition sample_call (f : string) (l : list Z) : call :=
  mkCall f [] (Some l) "" 0 (λ _, ""%string) (λ _, ""%string) (λ _, false) (λ _, None) (λ _, 3) 0.

Lemma file_checker_refines_witness :
  ∃ rs s, run_events handle [inl (sample_call "fopen" [16; 0]); inl (sample_call "fputs" [1; 0; 4; 16]);
                             inl (sample_call "ferror" [1; 0; 16]); inl (sample_call "fputs" [1; 0; 4; 16])] new = Done rs s ∧
    errs <$> rs = [false; false; false; true] ∧ automaton s 16 = FailedDirty.
Proof.
  destruct (file_checker_refines
    [inl (sample_call "fopen" [16; 0]); inl (sample_call "fputs" [1; 0; 4; 16]);
     inl (sample_call "ferror" [1; 0; 16]); inl (sample_call "fputs" [1; 0; 4; 16])]
    [(SOpen, 16); (SUse, 16); (SFail, 16); (SUse, 16)]) as (rs & s & E & _ & Ee & Ea & _).
  - repeat constructor.
    + by eapply ev_open_call; [apply list_elem_of_In; cbn; auto|reflexivity|reflexivity|].
    + by eapply (ev_use _ 1); [apply list_elem_of_In; cbn; auto 10|].
    + by eapply ev_fail_call; [apply list_elem_of_In; cbn; auto|reflexivity|reflexivity| |].
    + by eapply (ev_use _ 1); [apply list_elem_of_In; cbn; auto 10|].
  - cbn. tauto.
  - exists rs, s. split; [exact E|]. split; [exact Ee|]. rewrite Ea. reflexivity.
Defined.
