(* ===== verification/DataLossChecker.v ===== *)
(** * The data loss checker of BasicCheckers.cpp

    Data that was written to a file must be synchronised before the file replaces
    another one by a rename. *)
From S2P Require Import Prelude Checker.

Record st := mkSt { files : list FileObject; unlinked_files : gset string }.
Definition new : st := mkSt [] ∅.
Definition set_files f (s : st) := mkSt (f (files s)) (unlinked_files s).
Definition set_unlinked f (s : st) := mkSt (files s) (f (unlinked_files s)).

Definition minus1 : Z := u64 (-1).
Definition O_CREAT : Z := 64.

Definition mayBeEvent (f : string) : bool :=
  is_one_of f ["fopen"; "fopen64"; "fdopen"; "open"; "open64"; "fputs"; "fputs_unlocked"; "fwrite";
               "fwrite_unlocked"; "fprintf"; "fflush"; "fflush_unlocked"; "fsync"; "fdatasync";
               "fileno"; "fileno_unlocked"; "fclose"; "unlink"; "creat"; "rename"].

(** The first entry that a test accepts, and its update. *)
Fixpoint update_first (test : FileObject → bool) (f : FileObject → FileObject) (l : list FileObject) : list FileObject :=
  match l with
  | [] => []
  | x :: l => if test x then f x :: l else x :: update_first test f l
  end.
Fixpoint find_index (test : FileObject → bool) (l : list FileObject) : option nat :=
  match l with
  | [] => None
  | x :: l => if test x then Some 0%nat else S <$> find_index test l
  end.

Definition parseFOpen (filename mode : string) (fp : Z) : M st Result :=
  if fp =? 0 then mret IMPORTANT
  else if bool_decide (filename = "") || bool_decide (mode = "") then mret IMPORTANT
  else
    (match mode with
     | String a _ => if bool_decide (a ≠ "r"%char) then modify (set_unlinked (λ u, u ∖ {[ filename ]})) else mret tt
     | EmptyString => mret tt
     end);;
    modify (set_files (λ l, l ++ [mkFileObject filename fp minus1 CLEAN ""]));;
    mret IMPORTANT.

(** The descriptor is compared with [(uint32_t)-1]. *)
Definition parseOpen (filename : string) (flag fd : Z) : M st Result :=
  if fd =? u32 (-1) then mret IMPORTANT
  else if bool_decide (filename = "") then mret IMPORTANT
  else
    (if testflag flag O_CREAT then modify (set_unlinked (λ u, u ∖ {[ filename ]})) else mret tt);;
    modify (set_files (λ l, l ++ [mkFileObject filename minus1 fd CLEAN ""]));;
    mret IMPORTANT.

Definition parseFdOpen (fd : Z) (mode : string) (fp : Z) : M st Result :=
  if fp =? 0 then mret IMPORTANT
  else
    s ← get;
    match find_index (λ f, (fo_fd f =? fd) && (fo_fp f =? minus1)) (files s) with
    | Some _ =>
      modify (set_files (update_first (λ f, (fo_fd f =? fd) && (fo_fp f =? minus1)) (setFp fp)));; mret IMPORTANT
    | None =>
      (* the last entry with the descriptor gives the name *)
      let name := match last (filter (λ f, fo_fd f = fd) (files s)) with Some f => fo_name f | None => ""%string end in
      modify (set_files (λ l, l ++ [mkFileObject name fp fd CLEAN ""]));; mret IMPORTANT
    end.

(** [fileno]: the entry of the stream learns its descriptor, and the other
    entries with that descriptor are erased; the index [i] is not adjusted when
    an entry before it goes. *)
Definition parseFileno (fp fd : Z) : M st unit :=
  s ← get;
  match find_index (λ f, fo_fp f =? fp) (files s) with
  | None => mret tt
  | Some i =>
    let l := alter (setFd minus1) i (files s) in
    let l := filter (λ f, fo_fd f ≠ fd) l in
    put (mkSt l (unlinked_files s));;
    match l !! i with
    | Some _ => modify (set_files (alter (setFd fd) i))
    | None => halt MemoryError
    end
  end.

(** The loop of [rename]: stops at the first matching entry that is not clean. *)
Fixpoint rename_loop (filename target : string) (l : list FileObject) : bool * list FileObject :=
  match l with
  | [] => (false, [])
  | f :: l =>
    if bool_decide (fo_name f = filename) then
      match fo_state f with
      | LIB_BUFFERED | OS_BUFFERED => (true, f :: l)
      | _ => let '(e, l) := rename_loop filename target l in (e, setName target f :: l)
      end
    else let '(e, l) := rename_loop filename target l in (e, f :: l)
  end.

Definition parseRename (filename target : string) : M st Result :=
  if bool_decide (filename = "") || bool_decide (target = "") then mret IMPORTANT
  else
    s ← get;
    if bool_decide (target ∈ unlinked_files s) then mret ERROR
    else
      (if bool_decide (filename ≠ target) then modify (set_unlinked (λ u, {[ filename ]} ∪ u)) else mret tt);;
      let '(e, l) := rename_loop filename target (files s) in
      modify (set_files (λ _, l));;
      mret (if e then ERROR else IMPORTANT).

(** [close]: an entry with a stream is an error; the entries before it have lost
    their descriptor. *)
Fixpoint close_loop (fd : Z) (l : list FileObject) : bool * list FileObject :=
  match l with
  | [] => (false, [])
  | f :: l =>
    if fo_fd f =? fd then
      if negb (fo_fp f =? minus1) then (true, f :: l)
      else let '(e, l) := close_loop fd l in (e, setFd minus1 f :: l)
    else let '(e, l) := close_loop fd l in (e, f :: l)
  end.

Definition write_index (f : string) : nat :=
  if is_one_of f ["fwrite"; "fwrite_unlocked"] then 3
  else if is_one_of f ["fputs"; "fputs_unlocked"] then 1 else 0.

Definition onCall (c : call) : M st Result :=
  let f := fname c in
  if is_one_of f ["fopen"; "fopen64"] then
    let need := Z.lor NEED_ARG0 (Z.lor NEED_ARG1 NEED_RET) in
    match args c with
    | Some l =>
      name ← arg_at l 2; mode ← arg_at l 3; fp ← arg_at l 0;
      r ← parseFOpen (mem_str c name) (mem_str c mode) fp; mret (Z.lor r need)
    | None => mret (Z.lor IMPORTANT need)
    end
  else if is_one_of f ["open"; "open64"] then
    let need := Z.lor NEED_ARG0 (Z.lor NEED_ARG1 NEED_RET) in
    match args c with
    | Some l =>
      name ← arg_at l 2; flag ← arg_at l 3; fd ← arg_at l 0;
      r ← parseOpen (mem_str c name) flag fd; mret (Z.lor r need)
    | None => mret (Z.lor IMPORTANT need)
    end
  else if bool_decide (f = "creat") then
    match args c with
    | Some l =>
      name ← arg_at l 2; fd ← arg_at l 0;
      r ← parseOpen (mem_str c name) (Z.lor 1 (Z.lor O_CREAT 512)) fd; mret (Z.lor r (Z.lor NEED_RET NEED_ARG0))
    | None => mret IMPORTANT
    end
  else if is_one_of f ["fputs"; "fputs_unlocked"; "fprintf"; "fwrite"; "fwrite_unlocked"] then
    fp ← int_arg c (write_index f);
    modify (set_files (update_first (λ x, fo_fp x =? fp) (setState LIB_BUFFERED)));;
    mret (Z.lor IMPORTANT (Z.shiftl 1 (Z.of_nat (write_index f) + NEED_ARG_BEGIN)))
  else if bool_decide (f = "fdopen") then
    let need := Z.lor NEED_ARG0 (Z.lor NEED_ARG1 NEED_RET) in
    match args c with
    | Some l =>
      fp ← arg_at l 0; fd ← arg_at l 2; mode ← arg_at l 3;
      r ← parseFdOpen fd (mem_str c mode) fp; mret (Z.lor r need)
    | None => mret (Z.lor IMPORTANT need)
    end
  else if bool_decide (f = "write") then
    fd ← int_arg c 0; _ ← int_arg c 2;
    if fd <=? 2 then mret OK
    else
      modify (set_files (update_first (λ x, fo_fd x =? fd)
        (λ x, if bool_decide (fo_state x = CLEAN) then setState OS_BUFFERED x else x)));;
      mret (Z.lor IMPORTANT NEED_ARG0)
  else if is_one_of f ["fflush"; "fflush_unlocked"; "fclose"] then
    fp ← int_arg c 0;
    modify (set_files (update_first (λ x, fo_fp x =? fp)
      (λ x, let x := if bool_decide (fo_state x = LIB_BUFFERED) then setState OS_BUFFERED x else x in
            if bool_decide (f = "fclose") then setFd minus1 (setFp minus1 x) else x)));;
    mret (Z.lor IMPORTANT NEED_ARG0)
  else if bool_decide (f = "close") then
    fd ← int_arg c 0;
    s ← get;
    let '(e, l) := close_loop fd (files s) in
    modify (set_files (λ _, l));;
    mret (Z.lor (if e then ERROR else IMPORTANT) NEED_ARG0)
  else if is_one_of f ["fileno"; "fileno_unlocked"] then
    (match args c with
     | Some l => fp ← arg_at l 2; fd ← arg_at l 0; parseFileno fp fd
     | None => mret tt
     end);;
    mret (Z.lor IMPORTANT (Z.lor NEED_ARG0 NEED_RET))
  else if is_one_of f ["fsync"; "fdatasync"] then
    fd ← int_arg c 0;
    modify (set_files (update_first (λ x, fo_fd x =? fd)
      (λ x, if bool_decide (fo_state x = OS_BUFFERED) then setState CLEAN x else x)));;
    mret (Z.lor IMPORTANT NEED_ARG0)
  else if bool_decide (f = "unlink") then
    name ← str_arg c 0;
    (if bool_decide (name = "") then mret tt else modify (set_unlinked (λ u, {[ name ]} ∪ u)));;
    mret (Z.lor IMPORTANT NEED_ARG0)
  else if bool_decide (f = "rename") then
    name ← str_arg c 0; target ← str_arg c 1;
    r ← parseRename name target; mret (Z.lor r (Z.lor NEED_ARG0 NEED_ARG1))
  else mret OK.

Definition onRet (r : ret) : M st Result :=
  match r_fname r with
  | None => mret OK
  | Some f =>
    let res := getIntFromExp (r_result r) in
    if is_one_of f ["fopen"; "fopen64"] then
      x ← parseFOpen (r_str r 0) (r_str r 1) res; mret (Z.lor x (Z.lor NEED_ARG0 (Z.lor NEED_ARG1 NEED_RET)))
    else if is_one_of f ["open"; "open64"] then
      flag ← ret_arg r 1;
      x ← parseOpen (r_str r 0) flag res; mret (Z.lor x (Z.lor NEED_ARG0 (Z.lor NEED_ARG1 NEED_RET)))
    else if bool_decide (f = "creat") then
      x ← parseOpen (r_str r 0) (Z.lor 1 (Z.lor O_CREAT 512)) res; mret (Z.lor x (Z.lor NEED_ARG0 NEED_RET))
    else if bool_decide (f = "fdopen") then
      fd ← ret_arg r 0;
      x ← parseFdOpen fd (r_str r 1) res; mret (Z.lor x (Z.lor NEED_RET (Z.lor NEED_ARG0 NEED_ARG1)))
    else if is_one_of f ["fileno"; "fileno_unlocked"] then
      fp ← ret_arg r 0; parseFileno fp res;; mret (Z.lor IMPORTANT (Z.lor NEED_RET NEED_ARG0))
    else mret OK
  end.

Definition report : M st Result := mret OK.

Definition wantConcrete (f : string) : bool := mayBeEvent f.

Definition handle (e : call + ret) : M st Result :=
  match e with inl c => onCall c | inr r => onRet r end.

(** ** One file from its creation to a rename

    The operations of the program on one open file: writing to the stream, flushing
    it, asking for its descriptor and synchronising the descriptor. *)
Inductive file_op : Type := Write | Flush | Fileno | Sync.

(** Where the data of the file is, and whether the checker knows the descriptor. *)
Definition file_step (o : file_op) (x : FileState * bool) : FileState * bool :=
  match o with
  | Write => (LIB_BUFFERED, x.2)
  | Flush => (if bool_decide (x.1 = LIB_BUFFERED) then OS_BUFFERED else x.1, x.2)
  | Fileno => (x.1, true)
  | Sync => (if x.2 && bool_decide (x.1 = OS_BUFFERED) then CLEAN else x.1, x.2)
  end.

Definition write_names : list string := ["fputs"; "fputs_unlocked"; "fprintf"; "fwrite"; "fwrite_unlocked"].

(** The value of argument [i] of a call. *)
Definition arg_is (c : call) (i : nat) (v : Z) : Prop :=
  match args c with
  | Some l => l !! (i + 2)%nat = Some v
  | None => arguments c !! i = Some (Some v)
  end.

(** An operation on the file with stream [fp] and descriptor [fd]. *)
Inductive file_event (fp fd : Z) : call + ret → file_op → Prop :=
| ev_write c : fname c ∈ write_names → arg_is c (write_index (fname c)) fp → file_event fp fd (inl c) Write
| ev_flush c : fname c ∈ ["fflush"; "fflush_unlocked"] → arg_is c 0 fp → file_event fp fd (inl c) Flush
| ev_fileno_call c l : fname c ∈ ["fileno"; "fileno_unlocked"] → args c = Some l →
    l !! 2%nat = Some fp → l !! 0%nat = Some fd → file_event fp fd (inl c) Fileno
| ev_fileno_ret r f : r_fname r = Some f → f ∈ ["fileno"; "fileno_unlocked"] →
    r_arguments r !! 0%nat = Some (Some fp) → r_result r = Some fd → file_event fp fd (inr r) Fileno
| ev_sync c : fname c ∈ ["fsync"; "fdatasync"] → arg_is c 0 fd → file_event fp fd (inl c) Sync.

(** A checker state in which the file is the last entry, with the state and the
    descriptor of [x], and no other entry has its stream, descriptor or name. *)
Definition others_apart (name : string) (fp fd : Z) (l : list FileObject) : Prop :=
  Forall (λ f, fo_fp f ≠ fp ∧ fo_fd f ≠ fd ∧ fo_name f ≠ name) l.
Definition last_entry (name : string) (fp fd : Z) (x : FileState * bool) : FileObject :=
  mkFileObject name fp (if x.2 then fd else minus1) x.1 "".
Definition tracks (name : string) (fp fd : Z) (x : FileState * bool) (l : list FileObject) (s : st) : Prop :=
  files s = l ++ [last_entry name fp fd x].

Lemma update_first_last test f l e :
  Forall (λ x, test x = false) l →
  update_first test f (l ++ [e]) = l ++ [if test e then f e else e].
Proof. induction 1 as [|x l Hx _ IH]; cbn; [by destruct (test e)|]. by rewrite Hx, IH. Qed.

Lemma find_index_last test l e :
  Forall (λ x, test x = false) l → test e = true → find_index test (l ++ [e]) = Some (length l).
Proof. intros H He. induction H as [|x l Hx _ IH]; cbn; [by rewrite He|]. by rewrite Hx, IH. Qed.

Lemma int_arg_is c i v : arg_is c i v → int_arg c i = (mret v : M st Z).
Proof.
  unfold arg_is, int_arg, arg_at, argument_at. destruct (args c); intros ->; reflexivity.
Qed.

Section Track.
Context (name : string) (fp fd : Z) (l : list FileObject).
Hypothesis Hl : others_apart name fp fd l.
Hypothesis Hfd : fd ≠ minus1.

Lemma apart_fp : Forall (λ x, (fo_fp x =? fp) = false) l.
Proof. eapply Forall_impl; [exact Hl|]. intros x (H & _). by apply Z.eqb_neq. Qed.
Lemma apart_fd : Forall (λ x, (fo_fd x =? fd) = false) l.
Proof. eapply Forall_impl; [exact Hl|]. intros x (_ & H & _). by apply Z.eqb_neq. Qed.

Lemma fileno_tracks x s : tracks name fp fd x l s →
  parseFileno fp fd s = Done tt (mkSt (l ++ [last_entry name fp fd (x.1, true)]) (unlinked_files s)).
Proof.
  unfold tracks. intros E. unfold parseFileno. cbv beta iota delta [mbind mret M_bind M_ret get put modify].
  rewrite E, (find_index_last _ _ _ apart_fp) by (cbn; apply Z.eqb_refl).
  assert (E1 : ∀ d y, alter (setFd d) (length l) (l ++ [y]) = l ++ [setFd d y]).
  { intros. rewrite alter_app_r_alt by lia. by rewrite Nat.sub_diag. }
  rewrite E1, filter_all.
  2: { apply Forall_app. split; [eapply Forall_impl; [exact Hl|]; cbn; tauto|by repeat constructor; cbn]. }
  rewrite lookup_app_r, Nat.sub_diag by lia. cbn. unfold set_files. cbn. by rewrite E1.
Qed.

(** The calls that update one entry. *)
Lemma update_tracks test f r s x y : tracks name fp fd x l s →
  Forall (λ e, test e = false) l → errs r = false →
  (if test (last_entry name fp fd x) then f (last_entry name fp fd x) else last_entry name fp fd x)
    = last_entry name fp fd y →
  ∃ r' s', (modify (set_files (update_first test f));; mret r) s = Done r' s' ∧ errs r' = false ∧
    unlinked_files s' = unlinked_files s ∧ tracks name fp fd y l s'.
Proof.
  intros Ht Hn Hr He. eexists _, _. split; [reflexivity|]. split; [done|]. split; [done|].
  unfold tracks in *. cbn. by rewrite Ht, update_first_last, He.
Qed.

Lemma event_tracks e o x s : file_event fp fd e o → tracks name fp fd x l s →
  ∃ r s', handle e s = Done r s' ∧ errs r = false ∧ unlinked_files s' = unlinked_files s ∧
    tracks name fp fd (file_step o x) l s'.
Proof.
  intros He Ht. inversion He as [c Hn Ha|c Hn Ha|c k Hn Ha Hp Hd|r f Hf Hn Hp Hd|c Hn Ha]; subst; cbn [handle].
  - name_cases Hn; unfold onCall; rewrite Hn in *; names; rewrite (int_arg_is _ _ _ Ha);
      (apply (update_tracks _ _ _ _ _ _ Ht); [apply apart_fp|reflexivity|cbn; by rewrite Z.eqb_refl]).
  - name_cases Hn; unfold onCall; rewrite Hn in *; names; rewrite (int_arg_is _ _ _ Ha);
      (apply (update_tracks _ _ _ _ _ _ Ht); [apply apart_fp|reflexivity|cbn; rewrite Z.eqb_refl; by case_bool_decide]).
  - name_cases Hn; unfold onCall; rewrite Hn in *; names; rewrite Ha; unfold arg_at; rewrite Hp, Hd;
      cbv beta iota delta [mbind mret M_bind M_ret deref]; rewrite (fileno_tracks _ _ Ht); by eexists _, _.
  - unfold onRet, ret_arg. rewrite Hf, Hp, Hd. name_cases Hn; simplify_eq; names;
      cbv beta iota delta [mbind mret M_bind M_ret deref getIntFromExp]; rewrite (fileno_tracks _ _ Ht); by eexists _, _.
  - name_cases Hn; unfold onCall; rewrite Hn in *; names; rewrite (int_arg_is _ _ _ Ha);
      (apply (update_tracks _ _ _ _ _ _ Ht); [apply apart_fd|reflexivity|]); destruct x as [x []]; cbn;
      rewrite ?Z.eqb_refl, ?(proj2 (Z.eqb_neq minus1 fd)) by done; try done; by case_bool_decide.
Qed.

Lemma run_tracks es ops x s : Forall2 (file_event fp fd) es ops → tracks name fp fd x l s →
  ∃ rs s', run_events handle es s = Done rs s' ∧ Forall (λ r, errs r = false) rs ∧
    unlinked_files s' = unlinked_files s ∧ tracks name fp fd (foldl (flip file_step) x ops) l s'.
Proof.
  intros H. revert x s. induction H as [|e o es ops He _ IH]; intros x s Ht; [by exists [], s|].
  destruct (event_tracks _ _ _ _ He Ht) as (r & s1 & E1 & Hr & Hu & Ht1).
  destruct (IH _ _ Ht1) as (rs & s2 & E2 & Hrs & Hu2 & Ht2).
  exists (r :: rs), s2. split; [by eapply run_events_cons|]. split; [by constructor|]. split; [congruence|done].
Qed.

Lemma rename_loop_last target x : fst (rename_loop name target (l ++ [last_entry name fp fd x])) =
  match x.1 with LIB_BUFFERED | OS_BUFFERED => true | _ => false end.
Proof.
  unfold others_apart in Hl. clear Hfd. revert Hl. induction 1 as [|f l' (_ & _ & Hf) _ IH]; cbn.
  - rewrite bool_decide_eq_true_2 by done. by destruct (x.1).
  - rewrite bool_decide_eq_false_2 by done. revert IH. by destruct (rename_loop _ _ _).
Qed.
End Track.

Lemma file_states ops x : x.1 = CLEAN ∨ x.1 = LIB_BUFFERED ∨ x.1 = OS_BUFFERED →
  let y := foldl (flip file_step) x ops in y.1 = CLEAN ∨ y.1 = LIB_BUFFERED ∨ y.1 = OS_BUFFERED.
Proof.
  revert x. induction ops as [|o ops IH]; intros x Hx; [done|]. apply IH.
  destruct o; cbn; [auto| |auto|]; repeat case_match; auto.
Qed.

(** The return of [fopen] and the call of [rename]. *)
Definition fopen_ret (r : ret) (name mode : string) (fp : Z) : Prop :=
  r_fname r = Some "fopen"%string ∧ r_str r 0 = name ∧ r_str r 1 = mode ∧ r_result r = Some fp.
Definition rename_call (c : call) (name target : string) : Prop :=
  fname c = "rename" ∧ args c = None ∧ arg_str c 0 = name ∧ arg_str c 1 = target.

(** The names that count as unlinked once [fopen] has returned: a mode that does not
    start with [r] takes the opened name off. *)
Definition unlinked_after (name mode : string) (u : gset string) : gset string :=
  match mode with
  | String a _ => if bool_decide (a ≠ "r"%char) then u ∖ {[ name ]} else u
  | EmptyString => u
  end.

(** C33: The checker follows one file through [fopen], any sequence of writes,
    flushes, [fileno] and synchronisations, and a [rename].  No operation before the
    rename is an error, and the rename is an error exactly when its target counts as
    unlinked, or the data written last has not been flushed and then synchronised
    through a known descriptor.  Assumed: the stream, its descriptor and the name
    belong to no other entry of the checker's list at the start ([others_apart]; so
    the [open] inside [fopen] has not been recorded for the same name), and the names
    are not empty. *)
Theorem rename_needs_sync name target mode fp fd s0 r es ops c :
  name ≠ ""%string → target ≠ ""%string → mode ≠ ""%string → fp ≠ 0 → fd ≠ minus1 →
  others_apart name fp fd (files s0) →
  fopen_ret r name mode fp → Forall2 (file_event fp fd) es ops → rename_call c name target →
  ∃ rs res s, run_events handle (inr r :: es ++ [inl c]) s0 = Done (rs ++ [res]) s ∧
    Forall (λ r, errs r = false) rs ∧
    (errs res = true ↔
       target ∈ unlinked_after name mode (unlinked_files s0) ∨ (foldl (flip file_step) (CLEAN, false) ops).1 ≠ CLEAN).
Proof.
  intros Hn Ht Hm H0 Hfd Hap (Rf & Rn & Rm & Rr) Hes (Cf & Ca & Cn & Ct).
  set (s1 := mkSt (files s0 ++ [last_entry name fp fd (CLEAN, false)]) (unlinked_after name mode (unlinked_files s0))).
  assert (E1 : ∃ r1, onRet r s0 = Done r1 s1 ∧ errs r1 = false).
  { unfold onRet, parseFOpen. rewrite Rf, Rn, Rm, Rr. names. cbn [getIntFromExp].
    rewrite (proj2 (Z.eqb_neq fp 0) H0), !bool_decide_eq_false_2 by done. cbn [orb].
    destruct mode as [|a mode]; [done|]. subst s1. cbn [unlinked_after]. case_bool_decide; by eexists. }
  destruct E1 as (r1 & E1 & Hr1).
  destruct (run_tracks name fp fd (files s0) Hap Hfd es ops (CLEAN, false) s1 Hes eq_refl)
    as (rs & s2 & E2 & Hrs & Hu2 & Ht2).
  pose proof (rename_loop_last name fp fd (files s0) Hap target (foldl (flip file_step) (CLEAN, false) ops)) as EL.
  assert (E3 : ∃ res s3, onCall c s2 = Done res s3 ∧
    errs res = bool_decide (target ∈ unlinked_files s2) || (rename_loop name target (files s2)).1).
  { unfold onCall, str_arg, parseRename. rewrite Cf, Ca, Cn, Ct. names.
    cbv beta iota delta [mbind mret M_bind M_ret get modify].
    rewrite !(bool_decide_eq_false_2 (_ = ""%string)) by done. cbn [orb].
    destruct (bool_decide (target ∈ unlinked_files s2)); [eexists _, _; (split; [reflexivity|reflexivity])|].
    destruct (rename_loop name target (files s2)) as [[] l']; case_bool_decide; eexists _, _; (split; [reflexivity|reflexivity]). }
  destruct E3 as (res & s3 & E3 & Hres).
  exists (r1 :: rs), res, s3. split_and!.
  - eapply run_events_cons; [exact E1|]. by eapply run_events_app; [exact E2|exact E3].
  - by constructor.
  - rewrite Hres, Ht2, EL, orb_true_iff, bool_decide_eq_true, Hu2.
    pose proof (file_states ops (CLEAN, false) (or_introl eq_refl)) as Hst. cbn zeta in Hst.
    subst s1. cbn. destruct Hst as [->|[->| ->]]; naive_solver.
Qed.

Definition sample_call (f : string) (l : list (option Z)) : call :=
  mkCall f l None "" 0 (λ i, match i with O => "a.tmp" | _ => "a" end)%string (λ _, ""%string)
    (λ _, false) (λ _, None) (λ _, 3) 0.
Definition sample_ret (f : string) (l : list (option Z)) (v : Z) : ret :=
  mkRet (Some f) (Some v) l "" 0 (λ i, match i with O => "a.tmp" | _ => "w" end)%string 0.

Lemma rename_needs_sync_witness :
  ∃ rs res s, run_events handle
    (inr (sample_ret "fopen" [] 16) ::
     [inl (sample_call "fputs" [None; Some 16]); inl (sample_call "fflush" [Some 16]);
      inr (sample_ret "fileno" [Some 16] 3); inl (sample_call "fsync" [Some 3])] ++
     [inl (sample_call "rename" [])]) new = Done (rs ++ [res]) s ∧ errs res = false.
Proof.
  destruct (rename_needs_sync "a.tmp" "a" "w" 16 3 new (sample_ret "fopen" [] 16)
    [inl (sample_call "fputs" [None; Some 16]); inl (sample_call "fflush" [Some 16]);
     inr (sample_ret "fileno" [Some 16] 3); inl (sample_call "fsync" [Some 3])]
    [Write; Flush; Fileno; Sync] (sample_call "rename" []))
    as (rs & res & s & E & _ & Hr); [done|done|done|done|done|constructor|done| |done|].
  - constructor; [|constructor; [|constructor; [|constructor; [|constructor]]]].
    + apply ev_write; [apply list_elem_of_In; cbn; auto|done].
    + apply ev_flush; [apply list_elem_of_In; cbn; auto|done].
    + eapply ev_fileno_ret; [done|apply list_elem_of_In; cbn; auto|done|done].
    + apply ev_sync; [apply list_elem_of_In; cbn; auto|done].
  - exists rs, res, s. split; [exact E|]. destruct (errs res); [|reflexivity]. by destruct (proj1 Hr eq_refl) as [Hu|].
Defined.

(** When [fopen] is executed inside the program, the checker sees the [open] it
    makes and records the file twice, by descriptor and by stream.  The next
    [fileno] erases the first of the two entries and then stores the descriptor
    through the old index of the second, which is past the end of the vector. *)
Theorem fileno_past_end name mode fp fd ro rf rn :
  name ≠ ""%string → mode ≠ ""%string → fp ≠ 0 → fp ≠ minus1 → fd ≠ minus1 → fd ≠ u32 (-1) →
  r_fname ro = Some "open"%string → r_str ro 0 = name → r_result ro = Some fd →
  r_arguments ro !! 1%nat = Some (Some 0) →
  fopen_ret rf name mode fp →
  r_fname rn = Some "fileno"%string → r_arguments rn !! 0%nat = Some (Some fp) → r_result rn = Some fd →
  ∃ s, run_events handle [inr ro; inr rf; inr rn] new = Halt MemoryError s.
Proof.
  intros Hn Hm H0 Hp Hd Hd2 On Os Or Oa (Ff & Fs & Fm & Fr) Nn Na Nr.
  assert (E1 : ∃ r, onRet ro new = Done r (mkSt [mkFileObject name minus1 fd CLEAN ""] ∅)).
  { unfold onRet, parseOpen, ret_arg. rewrite On, Os, Or, Oa. names. cbn [getIntFromExp].
    rewrite (proj2 (Z.eqb_neq _ _) Hd2), !bool_decide_eq_false_2 by done. by eexists. }
  assert (E2 : ∃ r u, onRet rf (mkSt [mkFileObject name minus1 fd CLEAN ""] ∅) =
    Done r (mkSt [mkFileObject name minus1 fd CLEAN ""; mkFileObject name fp minus1 CLEAN ""] u)).
  { unfold onRet, parseFOpen. rewrite Ff, Fs, Fm, Fr. names. cbn [getIntFromExp].
    rewrite (proj2 (Z.eqb_neq _ _) H0), !bool_decide_eq_false_2 by done. cbn [orb].
    destruct mode as [|a mode]; [done|]. case_bool_decide; by eexists _, _. }
  destruct E1 as [r1 E1], E2 as (r2 & u & E2).
  assert (E3 : ∃ s, onRet rn (mkSt [mkFileObject name minus1 fd CLEAN ""; mkFileObject name fp minus1 CLEAN ""] u)
                    = Halt MemoryError s).
  { unfold onRet, parseFileno, ret_arg. rewrite Nn, Na, Nr. names.
    cbv beta iota delta [mbind mret M_bind M_ret get put deref getIntFromExp].
    cbn [files find_index fo_fp]. rewrite (proj2 (Z.eqb_neq minus1 fp)), Z.eqb_refl by done. cbn [fmap option_fmap option_map].
    cbn [alter list_alter setFd]. rewrite filter_cons_False, filter_cons_True by (cbn; auto). by eexists. }
  destruct E3 as [s E3]. exists s. cbn [run_events handle]. unfold mbind, M_bind. by rewrite E1, E2, E3.
Qed.

Lemma fileno_past_end_witness :
  ∃ s, run_events handle [inr (sample_ret "open" [None; Some 0] 3); inr (sample_ret "fopen" [] 16);
                          inr (sample_ret "fileno" [Some 16] 3)] new = Halt MemoryError s.
Proof. apply (fileno_past_end "a.tmp" "w" 16 3); done. Defined.
