(* ===== verification/PairwiseChecker.v ===== *)
(** * Resources that are started and ended

    [PairwiseChecker] of BasicCheckers.cpp. *)
From S2P Require Import Prelude Checker.

(** [start_funcs], [end_funcs] and [ignored] do not change after construction. *)
Record cfg := mkCfg { start_funcs : list string; end_funcs : list string; ignored : gset Z }.
Record st := mkSt { started : gmap Z string; ignore_ops : Z; callargs : gmap Z Z; reported : AllocInfo.record }.
Definition new : st := mkSt ∅ 0 ∅ [].
Definition set_started f (s : st) := mkSt (f (started s)) (ignore_ops s) (callargs s) (reported s).
Definition set_ignore f (s : st) := mkSt (started s) (f (ignore_ops s)) (callargs s) (reported s).
Definition set_callargs f (s : st) := mkSt (started s) (ignore_ops s) (f (callargs s)) (reported s).

Section Pairwise.
Context (k : cfg).

Definition mayBeEvent (f : string) : bool := is_one_of f (start_funcs k) || is_one_of f (end_funcs k).

(** [map::insert] keeps an entry that is there. *)
Definition parseStart (r : Z) (info : string) : M st Result :=
  if bool_decide (r ∈ ignored k) then mret IMPORTANT
  else
    modify (set_started (λ m, match m !! r with Some _ => m | None => <[r := info]> m end));;
    mret IMPORTANT.

Definition parseEnd (arg1 : Z) : M st Result :=
  if bool_decide (arg1 ∈ ignored k) then mret IMPORTANT
  else
    s ← get;
    if bool_decide (arg1 ∈ dom (started s)) then modify (set_started (delete arg1));; mret IMPORTANT
    else mret ERROR.

Definition onCall (c : call) : M st Result :=
  s ← get;
  if negb (ignore_ops s =? 0) then mret OK
  else if negb (mayBeEvent (fname c)) then mret OK
  else
    match args c with
    | Some l =>
      if is_one_of (fname c) (start_funcs k) then
        r ← arg_at l 0; x ← parseStart r (site c); mret (Z.lor x NEED_RET)
      else a ← arg_at l 2; x ← parseEnd a; mret (Z.lor x NEED_ARG0)
    | None =>
      if is_one_of (fname c) (end_funcs k) then
        e ← argument_at c 0; x ← parseEnd (getIntFromExp e); mret (Z.lor x NEED_ARG0)
      else mret OK
    end.

Definition onRet (r : ret) : M st Result :=
  s ← get;
  match r_fname r with
  | None => mret OK
  | Some f =>
    if negb (ignore_ops s =? 0) then mret OK
    else if negb (mayBeEvent f) then mret OK
    else if is_one_of f (start_funcs k) then
      x ← parseStart (getIntFromExp (r_result r)) (r_site r); mret (Z.lor x NEED_RET)
    else mret OK
  end.

Definition report (place : string) : M st Result :=
  s ← get;
  let '(error, r) := AllocInfo.report_all (reported s) place (map_to_list (started s)).*2 in
  put (mkSt (started s) (ignore_ops s) (callargs s) r);;
  mret (if error then ERROR else OK).
End Pairwise.

Definition wantConcrete (k : cfg) (f : string) : bool := mayBeEvent k f.

(** ** What the checker promises

    The automaton of a resource holds the text of the call that started it.  A
    second start keeps the first text; the end of a resource that was not started
    is an error. *)
Inductive pair_op : Type := PStart (info : string) | PEnd.

Definition pair_step (o : pair_op) (x : option string) : option string * bool :=
  match o, x with
  | PStart info, None => (Some info, false)
  | PStart _, Some i => (Some i, false)
  | PEnd, Some _ => (None, false)
  | PEnd, None => (None, true)
  end.

Section PairwiseSpec.
Context (k : cfg).

Definition handle (e : call + ret) : M st Result :=
  match e with inl c => onCall k c | inr r => onRet k r end.

(** The start of a resource that is not ignored: an external call, or the return of
    a call inside the program; the end of one. *)
Inductive pair_event : call + ret → pair_op * Z → Prop :=
| ev_start_call c l r : fname c ∈ start_funcs k → args c = Some l → l !! 0%nat = Some r → r ∉ ignored k →
    pair_event (inl c) (PStart (site c), r)
| ev_start_ret e f r : r_fname e = Some f → f ∈ start_funcs k → r_result e = Some r → r ∉ ignored k →
    pair_event (inr e) (PStart (r_site e), r)
| ev_end_call c l a : fname c ∈ end_funcs k → fname c ∉ start_funcs k → args c = Some l →
    l !! 2%nat = Some a → a ∉ ignored k → pair_event (inl c) (PEnd, a)
| ev_end_sym c a : fname c ∈ end_funcs k → args c = None → arguments c !! 0%nat = Some (Some a) →
    a ∉ ignored k → pair_event (inl c) (PEnd, a).

Definition counting (s : st) : Prop := ignore_ops s = 0.

Lemma parseStart_step r info s : r ∉ ignored k →
  ∃ x s', parseStart k r info s = Done x s' ∧ ignore_ops s' = ignore_ops s ∧ reported s' = reported s ∧ x = IMPORTANT ∧
    ∀ a, started s' !! a = if decide (a = r) then (pair_step (PStart info) (started s !! r)).1 else started s !! a.
Proof.
  intros Hr. unfold parseStart. rewrite bool_decide_eq_false_2 by done.
  eexists _, _. split; [reflexivity|]. do 3 (split; [reflexivity|]). intros a. cbn.
  destruct (started s !! r) eqn:E; cbn; case_decide; subst; simplify_map_eq; done.
Qed.

Lemma parseEnd_step r s : r ∉ ignored k →
  ∃ x s', parseEnd k r s = Done x s' ∧ ignore_ops s' = ignore_ops s ∧ reported s' = reported s ∧
    errs x = (pair_step PEnd (started s !! r)).2 ∧
    ∀ a, started s' !! a = if decide (a = r) then (pair_step PEnd (started s !! r)).1 else started s !! a.
Proof.
  intros Hr. unfold parseEnd. rewrite bool_decide_eq_false_2 by done.
  cbv beta iota delta [mbind mret M_bind M_ret get modify].
  destruct (started s !! r) as [i|] eqn:E.
  - rewrite bool_decide_eq_true_2 by (by eapply elem_of_dom_2). eexists _, _. split; [reflexivity|].
    do 3 (split; [reflexivity|]). intros a. cbn. case_decide; subst; by simplify_map_eq.
  - rewrite bool_decide_eq_false_2 by (by apply not_elem_of_dom). eexists _, _. split; [reflexivity|].
    do 3 (split; [reflexivity|]). intros a. cbn. case_decide; subst; by simplify_map_eq.
Qed.

Lemma may_start f : f ∈ start_funcs k → mayBeEvent k f = true ∧ is_one_of f (start_funcs k) = true.
Proof. intros H. unfold mayBeEvent, is_one_of. by rewrite (bool_decide_eq_true_2 _ H). Qed.
Lemma may_end f : f ∈ end_funcs k → mayBeEvent k f = true ∧ is_one_of f (end_funcs k) = true.
Proof. intros H. unfold mayBeEvent, is_one_of. by rewrite (bool_decide_eq_true_2 _ H), orb_true_r. Qed.

(** What a handled event leaves, whichever of the two parts handled it. *)
Definition steps (o : pair_op) (a : Z) (m : M st Result) : Prop := ∀ s, counting s ∧ reported s = [] →
  ∃ r s', m s = Done r s' ∧ (counting s' ∧ reported s' = []) ∧ errs r = (pair_step o (started s !! a)).2 ∧
    ∀ b, started s' !! b = if decide (b = a) then (pair_step o (started s !! a)).1 else started s !! b.

Lemma start_steps r info : r ∉ ignored k → steps (PStart info) r (x ← parseStart k r info; mret (Z.lor x NEED_RET)).
Proof.
  intros Hr s [Hs Hp]. destruct (parseStart_step r info s Hr) as (x & s' & E & Hi & Hq & -> & Ha).
  eexists _, _. rewrite (bind_done _ _ _ _ _ E). split; [reflexivity|]. unfold counting in *.
  split; [split; congruence|]. split; [by destruct (started s !! r)|done].
Qed.

Lemma end_steps a : a ∉ ignored k → steps PEnd a (x ← parseEnd k a; mret (Z.lor x NEED_ARG0)).
Proof.
  intros Hr s [Hs Hp]. destruct (parseEnd_step a s Hr) as (x & s' & E & Hi & Hq & Hx & Ha).
  eexists _, _. rewrite (bind_done _ _ _ _ _ E). split; [reflexivity|]. unfold counting in *.
  split; [split; congruence|]. rewrite errs_lor, orb_comm. done.
Qed.

Lemma pair_handle_step e o a s : pair_event e (o, a) → counting s ∧ reported s = [] →
  ∃ r s', handle e s = Done r s' ∧ (counting s' ∧ reported s' = []) ∧ errs r = (pair_step o (started s !! a)).2 ∧
    ∀ b, started s' !! b = if decide (b = a) then (pair_step o (started s !! a)).1 else started s !! b.
Proof.
  intros He Hs. pose proof (proj1 Hs) as Hc. unfold counting in Hc.
  inversion He as [c l r Hn Ha Hl Hi|x f r Hf Hn Hr Hi|c l r Hn Hn' Ha Hl Hi|c r Hn Ha Hl Hi]; subst; cbn [handle];
    unfold onCall, onRet, arg_at, argument_at; cbv beta iota delta [mbind M_bind get];
    rewrite Hc, ?Hf, ?Ha, ?Hl, ?Hr; cbn [negb Z.eqb].
  - destruct (may_start _ Hn) as [-> ->]. by apply start_steps.
  - destruct (may_start _ Hn) as [-> ->]. by apply start_steps.
  - destruct (may_end _ Hn) as [-> _]. unfold is_one_of. rewrite (bool_decide_eq_false_2 _ Hn'). by apply end_steps.
  - destruct (may_end _ Hn) as [-> ->]. by apply end_steps.
Qed.

(** A checker of started and ended resources decides, for every sequence of
    starts and ends of resources that are not ignored, the product of one automaton
    per resource: it returns on every event, an event is an error exactly when it
    ends a resource that is not started, and the first report at the end of the
    path is an error exactly when some resource was started and not ended. *)
Theorem pairwise_refines es ops place :
  Forall2 pair_event es ops →
  ∃ rs s, run_events handle es new = Done rs s ∧
    let spec := product pair_step (λ _, None) ops in
    errs <$> rs = spec.2 ∧ (∀ a, started s !! a = spec.1 a) ∧
    ∃ r s', report place s = Done r s' ∧ started s' = started s ∧ (errs r = true ↔ ∃ a, spec.1 a ≠ None).
Proof.
  intros H.
  destruct (run_product_from pair_step (λ _ _, True) handle pair_event (λ s, counting s ∧ reported s = [])
              (λ s a, started s !! a) (λ e o a s He Hs _, pair_handle_step e o a s He Hs) None es ops new H)
    as (rs & s & E & [Hs Hr] & Ee & Ea); [done|done|by apply legal_true|].
  exists rs, s. do 3 (split; [done|]).
  unfold report. cbv beta iota delta [mbind mret M_bind M_ret get put]. rewrite Hr.
  destruct (AllocInfo.report_all_spec [] place (map_to_list (started s)).*2) as [R _].
  destruct (AllocInfo.report_all _ _ _) as [err rep]. cbn [fst] in R.
  eexists _, _. split; [reflexivity|]. split; [done|].
  assert (Hx : (∃ a, (product pair_step (λ _, None) ops).1 a ≠ None) ↔
               ∃ c, c ∈ (map_to_list (started s)).*2 ∧ AllocInfo.entry place c ∉ []).
  { split.
    - intros [a Ha]. rewrite <-Ea in Ha. destruct (started s !! a) as [i|] eqn:Ei; [|done].
      exists i. split; [|apply not_elem_of_nil]. apply list_elem_of_fmap. exists (a, i). split; [done|].
      by apply elem_of_map_to_list.
    - intros (i & Hi & _). apply list_elem_of_fmap in Hi as ([a i'] & -> & Hi).
      apply elem_of_map_to_list in Hi. exists a. by rewrite <-Ea, Hi. }
  rewrite Hx, <-R. by destruct err.
Qed.
End PairwiseSpec.

Definition sample_call (f : string) (l : list Z) : call :=
  mkCall f [] (Some l) "site" 0 (λ _, ""%string) (λ _, ""%string) (λ _, false) (λ _, None) (λ _, 3) 0.
Definition sample_cfg : cfg := mkCfg ["acquire"] ["release"] {[ 0 ]}.

Lemma pairwise_refines_witness :
  ∃ rs s, run_events (handle sample_cfg)
    [inl (sample_call "acquire" [8]); inl (sample_call "acquire" [24]); inl (sample_call "release" [0; 0; 8]);
     inl (sample_call "release" [0; 0; 8])] new = Done rs s ∧
    errs <$> rs = [false; false; false; true] ∧ started s !! 24 = Some "site"%string.
Proof.
  destruct (pairwise_refines sample_cfg
    [inl (sample_call "acquire" [8]); inl (sample_call "acquire" [24]); inl (sample_call "release" [0; 0; 8]);
     inl (sample_call "release" [0; 0; 8])]
    [(PStart "site", 8); (PStart "site", 24); (PEnd, 8); (PEnd, 8)] "main") as (rs & s & E & Ee & Ea & _).
  - constructor; [|constructor; [|constructor; [|constructor; [|constructor]]]].
    + eapply (ev_start_call sample_cfg (sample_call "acquire" [8])); [left|reflexivity|reflexivity|cbn; set_solver].
    + eapply (ev_start_call sample_cfg (sample_call "acquire" [24])); [left|reflexivity|reflexivity|cbn; set_solver].
    + eapply (ev_end_call sample_cfg (sample_call "release" [0; 0; 8])); [left|cbn; set_solver|reflexivity|reflexivity|cbn; set_solver].
    + eapply (ev_end_call sample_cfg (sample_call "release" [0; 0; 8])); [left|cbn; set_solver|reflexivity|reflexivity|cbn; set_solver].
  - exists rs, s. split; [exact E|]. split; [exact Ee|]. rewrite Ea. reflexivity.
Defined.
