(* ===== verification/LeakChecker.v ===== *)
(** * The memory leak checker of BasicCheckers.cpp

    malloc and free as a [PairwiseChecker], with realloc, strdup and getline. *)
From S2P Require Import Prelude Checker PairwiseChecker.

Definition leak_cfg : cfg := mkCfg ["calloc"; "malloc"] ["free"] {[ 0 ]}.

Definition mayBeEvent (f : string) : bool :=
  if is_one_of f ["realloc"; "strdup"; "strndup"; "getline"] then true else PairwiseChecker.mayBeEvent leak_cfg f.

(** Calls inside these functions are not looked at. *)
Definition library_funcs : list string :=
  ["init_cur_collate"; "__fd_open"; "write"; "_stdio_fopen"; "fclose"; "klee_init_env"].

Definition parseRealloc (ptr size r : Z) (info : string) : M st Result :=
  if ptr =? 0 then parseStart leak_cfg r info
  else if size =? 0 then parseEnd leak_cfg ptr
  else if r =? 0 then mret IMPORTANT
  else parseEnd leak_cfg ptr;; parseStart leak_cfg r info;; mret IMPORTANT.

Definition onCall (c : call) : M st Result :=
  let f := fname c in
  (if is_one_of f library_funcs then modify (set_ignore (λ n, s32 (n + 1))) else mret tt);;
  s ← get;
  if negb (ignore_ops s =? 0) then mret OK
  else if bool_decide (f = "realloc") then
    let need := Z.lor NEED_RET (Z.lor NEED_ARG0 NEED_ARG1) in
    match args c with
    | Some l =>
      ptr ← arg_at l 2; size ← arg_at l 3; r ← arg_at l 0;
      x ← parseRealloc ptr size r (site c); mret (Z.lor x need)
    | None => mret (Z.lor IMPORTANT need)
    end
  else if bool_decide (f = "getline") then
    (match args c with
     | None => modify (set_callargs (λ m, match m !! tid c with Some _ => m | None => <[tid c := ptr_at c]> m end))
     | Some _ => mret tt
     end);;
    modify (set_ignore (λ _, 1));;
    mret (Z.lor IMPORTANT NEED_ARG0)
  else if is_one_of f ["strdup"; "strndup"] then
    (match args c with
     | Some l => r ← arg_at l 0; (if negb (r =? 0) then _ ← parseStart leak_cfg r (site c); mret tt else mret tt)
     | None => mret tt
     end);;
    mret (Z.lor IMPORTANT NEED_RET)
  else PairwiseChecker.onCall leak_cfg c.

Definition onRet (r : ret) : M st Result :=
  match r_fname r with
  | None => mret OK
  | Some f =>
    (if is_one_of f library_funcs then modify (set_ignore (λ n, s32 (n - 1))) else mret tt);;
    (if bool_decide (f = "getline") then modify (set_ignore (λ n, s32 (n - 1))) else mret tt);;
    s ← get;
    if negb (ignore_ops s =? 0) then mret OK
    else if bool_decide (f = "realloc") then
      ptr ← ret_arg r 0; size ← ret_arg r 1;
      x ← parseRealloc ptr size (getIntFromExp (r_result r)) (r_site r);
      mret (Z.lor x (Z.lor NEED_RET (Z.lor NEED_ARG0 NEED_ARG1)))
    else if bool_decide (f = "getline") then
      let lineaddr := r_ptr_at r in
      modify (set_callargs (delete (r_tid r)));;
      (match callargs s !! r_tid r with
       | None => mret tt
       | Some last =>
         if (last =? u64 (-1)) || (lineaddr =? u64 (-1)) || (last =? lineaddr) then mret tt
         else
           (if negb (last =? 0) then _ ← parseEnd leak_cfg last; mret tt else mret tt);;
           _ ← parseStart leak_cfg lineaddr (r_site r); mret tt
       end);;
      mret (Z.lor IMPORTANT NEED_ARG0)
    else if is_one_of f ["strdup"; "strndup"] then
      let v := getIntFromExp (r_result r) in
      (if negb (v =? 0) then _ ← parseStart leak_cfg v (r_site r); mret tt else mret tt);;
      mret (Z.lor IMPORTANT NEED_RET)
    else PairwiseChecker.onRet leak_cfg r
  end.

Definition report : string → M st Result := PairwiseChecker.report.

Definition wantConcrete (f : string) : bool := mayBeEvent f.

(** ** External calls of library functions

    The counter [ignore_ops] goes up at the call and down at the return; an external
    call has no return event. *)
Lemma silent_step c s : 0 < ignore_ops s < 2 ^ 31 - 1 →
  ∃ s', onCall c s = Done OK s' ∧ started s' = started s ∧ ignore_ops s ≤ ignore_ops s' ≤ ignore_ops s + 1.
Proof.
  intros H. unfold onCall. cbv beta iota zeta delta [mbind mret M_bind M_ret get modify].
  destruct (is_one_of _ library_funcs); cbn [set_ignore ignore_ops].
  - assert (E : s32 (ignore_ops s + 1) = ignore_ops s + 1) by wrap_lia.
    rewrite E, (proj2 (Z.eqb_neq _ _)) by lia. eexists. split; [reflexivity|]. split; [done|]. cbn. rewrite E. lia.
  - rewrite (proj2 (Z.eqb_neq _ _)) by lia. eexists. split; [reflexivity|]. split; [done|]. lia.
Qed.

Lemma silent_run cs s : 0 < ignore_ops s → ignore_ops s + Z.of_nat (length cs) < 2 ^ 31 →
  ∃ s', run_events onCall cs s = Done (replicate (length cs) OK) s' ∧ started s' = started s.
Proof.
  revert s. induction cs as [|c cs IH]; intros s H0 Hn; [by exists s|]. cbn [length] in Hn.
  destruct (silent_step c s) as (s1 & E1 & Hs1 & Hi); [lia|].
  destruct (IH s1) as (s2 & E2 & Hs2); [lia|lia|].
  exists s2. split; [|congruence]. by eapply run_events_cons.
Qed.

(** After one external call of a function of the library list the leak checker
    answers OK to every later call and records nothing: the counter that the call
    raised is lowered only by a return event, which an external call does not
    have.  The memory allocated after it is never reported. *)
Theorem leak_checker_silenced c cs s :
  fname c ∈ library_funcs → args c ≠ None → ignore_ops s = 0 → Z.of_nat (length cs) < 2 ^ 31 - 1 →
  ∃ s', run_events onCall (c :: cs) s = Done (replicate (S (length cs)) OK) s' ∧ started s' = started s.
Proof.
  intros Hf _ H0 Hn.
  assert (E1 : onCall c s = Done OK (set_ignore (λ _, 1) s)).
  { unfold onCall, is_one_of. rewrite (bool_decide_eq_true_2 _ Hf).
    cbv beta iota zeta delta [mbind mret M_bind M_ret get modify set_ignore]. cbn [ignore_ops]. by rewrite H0. }
  destruct (silent_run cs (set_ignore (λ _, 1) s)) as (s' & E & Hs); [done|cbn; lia|].
  exists s'. split; [|done]. by eapply run_events_cons.
Qed.

Lemma leak_checker_silenced_witness :
  ∃ s', run_events onCall [sample_call "fclose" [0; 0; 16]; sample_call "malloc" [32]; sample_call "free" [0; 0; 48]] new
    = Done [OK; OK; OK] s' ∧ started s' = ∅.
Proof.
  apply (leak_checker_silenced (sample_call "fclose" [0; 0; 16]) [sample_call "malloc" [32]; sample_call "free" [0; 0; 48]] new);
    [apply list_elem_of_In; cbn; tauto|done|done|done].
Defined.
