(* ===== verification/FilePermChecker.v ===== *)
(** * The access checker of BasicCheckers.cpp

    A file whose permissions were tested with [access] must not be opened after it. *)
From S2P Require Import Prelude Checker.

(** The objects are allocated and deleted: [objs] are the live ones. *)
Record st := mkSt { files : gmap string (list nat); files_by_fd : gmap Z nat; objs : gmap nat FileObject; next : nat }.
Definition new : st := mkSt ∅ ∅ ∅ 0.

Definition R_OK : Z := 4.
Definition mayBeEvent (f : string) : bool := is_one_of f ["access"; "open"; "open64"; "close"].

Definition obj_load (a : nat) : M st FileObject := s ← get; deref (objs s !! a).
Definition obj_new (f : FileObject) : M st nat :=
  s ← get;
  put (mkSt (files s) (files_by_fd s) (<[next s := f]> (objs s)) (S (next s)));; mret (next s).
Definition set_files f (s : st) := mkSt (f (files s)) (files_by_fd s) (objs s) (next s).
Definition set_by_fd f (s : st) := mkSt (files s) (f (files_by_fd s)) (objs s) (next s).

(** The scan for a clean entry. *)
Fixpoint any_clean (l : list nat) : M st bool :=
  match l with
  | [] => mret false
  | a :: l => o ← obj_load a; if bool_decide (fo_state o = CLEAN) then mret true else any_clean l
  end.

Definition parseAccess (filename : string) (mode : Z) : M st Result :=
  if mode =? R_OK then mret OK
  else
    s ← get;
    match files s !! filename with
    | Some file_list =>
      b ← any_clean file_list;
      if (b : bool) then mret ERROR
      else
        c_assert (bool_decide (length file_list = 1%nat));;
        a ← deref (file_list !! 0%nat);
        o ← obj_load a;
        c_assert (bool_decide (fo_state o = ACCESSED));;
        mret IMPORTANT
    | None =>
      a ← obj_new (mkFileObject filename (u64 (-1)) (u64 (-1)) ACCESSED "");
      modify (set_files <[filename := [a]]>);;
      mret IMPORTANT
    end.

(** [true] when an entry was only tested with [access]. *)
Fixpoint any_accessed (l : list nat) : M st bool :=
  match l with
  | [] => mret false
  | a :: l =>
    o ← obj_load a;
    if bool_decide (fo_state o = ACCESSED) then mret true
    else c_assert (bool_decide (fo_state o = CLEAN));; any_accessed l
  end.

Definition parseOpen (filename : string) (fd : Z) : M st Result :=
  s ← get;
  b ← (match files s !! filename with Some l => any_accessed l | None => mret false end);
  if (b : bool) then mret ERROR
  else
    a ← obj_new (mkFileObject filename (u64 (-1)) fd CLEAN "");
    modify (set_files (λ m, <[filename := default [] (m !! filename) ++ [a]]> m));;
    s ← get;
    (match files_by_fd s !! fd with
     | Some b => _ ← obj_load b; mret tt      (* files_by_fd[fd]->getState() *)
     | None => mret tt
     end);;
    modify (set_by_fd <[fd := a]>);;
    mret IMPORTANT.

Fixpoint erase_first (a : nat) (l : list nat) : list nat :=
  match l with
  | [] => []
  | x :: l => if bool_decide (x = a) then l else x :: erase_first a l
  end.

(** The entry of [files_by_fd] stays when the object is deleted. *)
Definition parseClose (fd : Z) : M st Result :=
  s ← get;
  match files_by_fd s !! fd with
  | None => mret IMPORTANT
  | Some a =>
    o ← obj_load a;
    let filename := fo_name o in
    match files s !! filename with
    | None => halt AssertFailure
    | Some named =>
      (if bool_decide (length named = 1%nat) then
         c_assert (bool_decide (named = [a]));; modify (set_files (delete filename))
       else modify (set_files <[filename := erase_first a named]>));;
      modify (λ s, mkSt (files s) (files_by_fd s) (delete a (objs s)) (next s));;
      mret IMPORTANT
    end
  end.

Definition onCall (c : call) : M st Result :=
  let f := fname c in
  if is_one_of f ["open"; "open64"] then
    let need := Z.lor NEED_ARG0 NEED_RET in
    match args c with
    | Some l =>
      name ← arg_at l 2; fd ← arg_at l 0; x ← parseOpen (mem_str c name) fd; mret (Z.lor x need)
    | None => mret (Z.lor IMPORTANT need)
    end
  else if bool_decide (f = "close") then
    fd ← int_arg c 0; x ← parseClose fd; mret (Z.lor x NEED_ARG0)
  else if is_one_of f ["access"; "stat"; "stat64"] then
    name ← str_arg c 0;
    mode ← (if bool_decide (f = "access") then m ← int_arg c 1; mret (s32 m) else mret 5249);
    x ← parseAccess name mode; mret (Z.lor x (Z.lor NEED_ARG0 NEED_ARG1))
  else mret OK.

Definition onRet (r : ret) : M st Result :=
  match r_fname r with
  | None => mret OK
  | Some f =>
    if is_one_of f ["open"; "open64"] then
      x ← parseOpen (r_str r 0) (getIntFromExp (r_result r)); mret (Z.lor x (Z.lor NEED_RET NEED_ARG0))
    else mret OK
  end.

Definition wantConcrete (f : string) : bool := mayBeEvent f.

(** The copy constructor: new objects for the lists of [files], in the order of the
    names; the objects with a descriptor make up [files_by_fd]. *)
Fixpoint copy_list (old : gmap nat FileObject) (l : list nat) : M st (list nat) :=
  match l with
  | [] => mret []
  | a :: l =>
    o ← deref (old !! a);
    b ← obj_new o;
    (if negb (fo_fd o =? u64 (-1)) then modify (set_by_fd <[fo_fd o := b]>) else mret tt);;
    bs ← copy_list old l;
    mret (b :: bs)
  end.
Fixpoint copy_files (old : gmap nat FileObject) (l : list (string * list nat)) : M st unit :=
  match l with
  | [] => mret tt
  | (name, objs) :: l => my_vec ← copy_list old objs; modify (set_files <[name := my_vec]>);; copy_files old l
  end.
Definition copy (other : st) : M st unit := copy_files (objs other) (map_to_list (files other)).

(** Opening a file under a descriptor that was closed reads the deleted object of
    the file that had it: [parseClose] leaves its pointer in [files_by_fd]. *)
Lemma reopen_uses_freed name name' fd :
  ∃ s, (parseOpen name fd;; parseClose fd;; parseOpen name' fd) new = Halt MemoryError s.
Proof.
  set (o := mkFileObject name (u64 (-1)) fd CLEAN "").
  assert (E1 : parseOpen name fd new = Done IMPORTANT (mkSt {[ name := [0%nat] ]} {[ fd := 0%nat ]} {[ 0%nat := o ]} 1)).
  { reflexivity. }
  assert (E2 : parseClose fd (mkSt {[ name := [0%nat] ]} {[ fd := 0%nat ]} {[ 0%nat := o ]} 1) =
               Done IMPORTANT (mkSt ∅ {[ fd := 0%nat ]} ∅ 1)).
  { unfold parseClose, obj_load. cbv beta iota delta [mbind mret M_bind M_ret get modify c_assert].
    cbn [files files_by_fd objs next]. simplify_map_eq. cbn [deref]. subst o. cbn [fo_name]. simplify_map_eq.
    by rewrite !delete_singleton_eq. }
  eexists. rewrite (bind_done _ _ _ _ _ E1), (bind_done _ _ _ _ _ E2).
  unfold parseOpen, obj_new, obj_load. cbv beta iota delta [mbind mret M_bind M_ret get put modify].
  cbn [files files_by_fd objs next]. rewrite lookup_empty. cbv beta iota delta [mbind mret M_bind M_ret].
  unfold set_files. cbn [files files_by_fd objs next]. rewrite lookup_singleton_eq.
  reflexivity.
Qed.
