(* ===== verification/SysOpenCloseChecker.v ===== *)
(** * The descriptor leak checker of BasicCheckers.cpp *)
From S2P Require Import Prelude Checker.

Record st := mkSt { opened : gmap Z FileObject; reported : AllocInfo.record }.
Definition new : st := mkSt ∅ [].
Definition set_opened f (s : st) := mkSt (f (opened s)) (reported s).

Section Sys.
Context (written_only : bool).

Definition mayBeEvent (f : string) : bool :=
  if is_one_of f ["open"; "close"] then true
  else if negb written_only then bool_decide (f = "write") else false.

(** The parameter is an [int], the key of the map an [uint64_t]. *)
Definition parseOpen (fd : Z) (info : string) : M st Result :=
  let fd := s32 fd in
  (if negb (fd =? -1) then
     modify (set_opened (λ m, match m !! u64 fd with Some _ => m
                              | None => <[u64 fd := mkFileObject "" (u64 (-1)) (u64 fd) CLEAN info]> m end))
   else mret tt);;
  mret IMPORTANT.

Definition parseWrite (fd : Z) : M st Result :=
  let fd := s32 fd in
  (if negb (fd =? -1) then modify (set_opened (alter (setState OS_BUFFERED) (u64 fd))) else mret tt);;
  mret IMPORTANT.

Definition parseClose (fd : Z) : M st Result :=
  let fd := s32 fd in
  (if negb (fd =? -1) then modify (set_opened (delete (u64 fd))) else mret tt);;
  mret IMPORTANT.

Definition onCall (c : call) : M st Result :=
  if bool_decide (fname c = "open") then
    match args c with
    | Some l => fd ← arg_at l 0; x ← parseOpen fd (site c); mret (Z.lor x NEED_RET)
    | None => mret (Z.lor IMPORTANT NEED_RET)
    end
  else if bool_decide (fname c = "close") then
    fd ← int_arg c 0; x ← parseClose fd; mret (Z.lor x NEED_ARG0)
  else if bool_decide (fname c = "write") then
    fd ← int_arg c 0; x ← parseWrite fd; mret (Z.lor x NEED_ARG0)
  else mret OK.

Definition onRet (r : ret) : M st Result :=
  match r_fname r with
  | Some f =>
    if bool_decide (f = "open") then
      x ← parseOpen (getIntFromExp (r_result r)) (r_site r); mret (Z.lor x NEED_RET)
    else mret OK
  | None => mret OK
  end.

(** A text is recorded as reported before the test for unwritten files. *)
Fixpoint report_files (r : AllocInfo.record) (place : string) (l : list FileObject) : bool * AllocInfo.record :=
  match l with
  | [] => (false, r)
  | f :: l =>
    let '(rep, r) := AllocInfo.isReported r place (AllocInfo.hash place) (fo_alloc f) in
    let '(err, r) := report_files r place l in
    (negb rep && negb (written_only && bool_decide (fo_state f = CLEAN)) || err, r)
  end.

Definition report (place : string) : M st Result :=
  s ← get;
  let '(error, r) := report_files (reported s) place (map_to_list (opened s)).*2 in
  put (mkSt (opened s) r);;
  mret (if error then ERROR else OK).
End Sys.

Definition wantConcrete (written_only : bool) (f : string) : bool := mayBeEvent written_only f.

(** ** Reports of files that were written

    [written_only] is meant to report the descriptors that were written and not
    closed. *)
Lemma report_one b place s fd f : opened s = {[ fd := f ]} →
  report b place s =
  Done (if negb (bool_decide (AllocInfo.entry place (fo_alloc f) ∈ reported s)) &&
           negb (b && bool_decide (fo_state f = CLEAN)) then ERROR else OK)
    (mkSt (opened s) (if bool_decide (AllocInfo.entry place (fo_alloc f) ∈ reported s) then reported s
                      else reported s ++ [AllocInfo.entry place (fo_alloc f)])).
Proof.
  intros E. unfold report. cbv beta iota delta [mbind mret M_bind M_ret get put].
  rewrite E, map_to_list_singleton. cbn [fmap list_fmap snd report_files].
  rewrite AllocInfo.isReported_spec. by rewrite orb_false_r.
Qed.

(** A path that ends with a descriptor open and not written suppresses the
    report of every later path that ends at the same place with a descriptor from
    the same call open and written: the text is recorded as reported before the
    test whether the file was written.  Alone, the second path is an error. *)
Theorem clean_report_suppresses place fd fd' site s s' :
  opened s = {[ fd := mkFileObject "" (u64 (-1)) fd CLEAN site ]} →
  opened s' = {[ fd' := mkFileObject "" (u64 (-1)) fd' OS_BUFFERED site ]} →
  reported s = [] →
  ∃ r, report true place s = Done OK (mkSt (opened s) r) ∧
    (∃ w, report true place (mkSt (opened s') r) = Done OK w) ∧
    (∃ w, report true place (mkSt (opened s') []) = Done ERROR w).
Proof.
  intros E E' Hr. rewrite (report_one _ _ _ _ _ E), Hr. cbn [fo_alloc fo_state].
  rewrite (bool_decide_eq_false_2 (_ ∈ [])) by apply not_elem_of_nil.
  eexists. split; [reflexivity|]. split.
  - rewrite (report_one true place (mkSt (opened s') _) _ _ E'). cbn [reported fo_alloc].
    rewrite bool_decide_eq_true_2 by (apply list_elem_of_singleton; reflexivity). by eexists.
  - rewrite (report_one true place (mkSt (opened s') _) _ _ E'). cbn [reported fo_alloc].
    rewrite bool_decide_eq_false_2 by apply not_elem_of_nil. by eexists.
Qed.

Lemma clean_report_suppresses_witness :
  ∃ r, report true "main" (mkSt {[ 3 := mkFileObject "" (u64 (-1)) 3 CLEAN "f" ]} []) =
         Done OK (mkSt {[ 3 := mkFileObject "" (u64 (-1)) 3 CLEAN "f" ]} r) ∧
    ∃ w, report true "main" (mkSt {[ 3 := mkFileObject "" (u64 (-1)) 3 OS_BUFFERED "f" ]} r) = Done OK w.
Proof.
  destruct (clean_report_suppresses "main" 3 3 "f" (mkSt {[ 3 := mkFileObject "" (u64 (-1)) 3 CLEAN "f" ]} [])
    (mkSt {[ 3 := mkFileObject "" (u64 (-1)) 3 OS_BUFFERED "f" ]} [])) as (r & E1 & E2 & _);
    [reflexivity|reflexivity|reflexivity|].
  exists r. split; [exact E1|exact E2].
Defined.
