(* ===== verification/CheckerMgr.v ===== *)
(** * The list of checkers of a state

    src/klee/lib/Core/CheckerMgr.cpp: every event is given to all checkers in turn and the
    results are combined with a bitwise or.  The engine keeps a global manager with
    the assertion checker and one local manager in each state, which is copied when
    the state forks.

    [checker] is the class hierarchy; its virtual functions are the dispatch
    functions below.  What the classes keep in static members, and what the clones
    of a [LeakChecker] share through a pointer, is one record that all managers
    share. *)
From S2P Require Import Prelude Checker AssertChecker AssertCounter OpenCloseChecker LockChecker FileChecker DataLossChecker PairwiseChecker LeakChecker FilePermChecker SysOpenCloseChecker.

Inductive checker : Type :=
| CAssertCounter (s : AssertCounter.st)
| CAssert
| COpenClose (s : OpenCloseChecker.st)
| CLock (s : LockChecker.st)
| CFile (s : FileChecker.st)
| CDataLoss (s : DataLossChecker.st)
| CLeak (s : PairwiseChecker.st)
| CFilePerm (s : FilePermChecker.st)
| CSysOpenClose (written_only : bool) (s : SysOpenCloseChecker.st).

Record statics := mkStatics {
  assert_sets : AssertChecker.st;
  counter_sets : AssertChecker.st;
  open_close_reported : AllocInfo.record;
  leak_reported : AllocInfo.record;
  sys_reported : AllocInfo.record
}.

(** ** The virtual functions *)
(** A member function of a checker, with its static members. *)
Definition member {S A : Type} (wrap : S → checker) (load : statics → S → S) (store : S → statics → statics)
    (s : S) (m : M S A) : M statics (A * checker) := λ g,
  match m (load g s) with
  | Done r s' => Done (r, wrap s') (store s' g)
  | Halt e s' => Halt e (store s' g)
  end.

Definition with_sets (x : AssertChecker.st) (s : AssertCounter.st) : AssertCounter.st :=
  AssertCounter.mkSt x (AssertCounter.constBranch s) (AssertCounter.symBranch s) (AssertCounter.assertCount s)
    (AssertCounter.symAssert s) (AssertCounter.realFork s) (AssertCounter.assertFork s) (AssertCounter.branchCount s).
Definition on_counter {A} := member (A:=A) CAssertCounter (λ g, with_sets (counter_sets g))
  (λ s g, mkStatics (assert_sets g) (AssertCounter.sets s) (open_close_reported g) (leak_reported g) (sys_reported g)).
Definition on_assert {A} := member (A:=A) (λ _, CAssert) (λ g (_ : AssertChecker.st), assert_sets g)
  (λ s g, mkStatics s (counter_sets g) (open_close_reported g) (leak_reported g) (sys_reported g)).
Definition on_open_close {A} := member (A:=A) COpenClose
  (λ g s, OpenCloseChecker.mkSt (OpenCloseChecker.open_fds s) (OpenCloseChecker.open_fds_allocinfo s)
            (OpenCloseChecker.open_fds_exp s) (OpenCloseChecker.dismiss_error s) (open_close_reported g))
  (λ s g, mkStatics (assert_sets g) (counter_sets g) (OpenCloseChecker.reported s) (leak_reported g) (sys_reported g)).
Definition on_lock {A} := member (A:=A) CLock (λ _ s, s) (λ _ g, g).
Definition on_file {A} := member (A:=A) CFile (λ _ s, s) (λ _ g, g).
Definition on_data_loss {A} := member (A:=A) CDataLoss (λ _ s, s) (λ _ g, g).
Definition on_leak {A} := member (A:=A) CLeak
  (λ g s, PairwiseChecker.mkSt (PairwiseChecker.started s) (PairwiseChecker.ignore_ops s)
            (PairwiseChecker.callargs s) (leak_reported g))
  (λ s g, mkStatics (assert_sets g) (counter_sets g) (open_close_reported g) (PairwiseChecker.reported s) (sys_reported g)).
Definition on_file_perm {A} := member (A:=A) CFilePerm (λ _ s, s) (λ _ g, g).
Definition on_sys {A} (b : bool) := member (A:=A) (CSysOpenClose b)
  (λ g s, SysOpenCloseChecker.mkSt (SysOpenCloseChecker.opened s) (sys_reported g))
  (λ s g, mkStatics (assert_sets g) (counter_sets g) (open_close_reported g) (leak_reported g) (SysOpenCloseChecker.reported s)).

(** The handler of the base class. *)
Definition default_handler (x : checker) : M statics (Result * checker) := mret (OK, x).

Definition call_checker (must_equal : Z → option bool) (c : call) (x : checker) : M statics (Result * checker) :=
  match x with
  | CAssertCounter _ | CAssert => default_handler x
  | COpenClose s => on_open_close s (OpenCloseChecker.onCall must_equal c)
  | CLock s => on_lock s (LockChecker.onCall c)
  | CFile s => on_file s (FileChecker.onCall c)
  | CDataLoss s => on_data_loss s (DataLossChecker.onCall c)
  | CLeak s => on_leak s (LeakChecker.onCall c)
  | CFilePerm s => on_file_perm s (FilePermChecker.onCall c)
  | CSysOpenClose b s => on_sys b s (SysOpenCloseChecker.onCall c)
  end.

Definition ret_checker (r : ret) (x : checker) : M statics (Result * checker) :=
  match x with
  | CAssertCounter _ | CAssert | CLock _ => default_handler x
  | COpenClose s => on_open_close s (OpenCloseChecker.onRet r)
  | CFile s => on_file s (FileChecker.onRet r)
  | CDataLoss s => on_data_loss s (DataLossChecker.onRet r)
  | CLeak s => on_leak s (LeakChecker.onRet r)
  | CFilePerm s => on_file_perm s (FilePermChecker.onRet r)
  | CSysOpenClose b s => on_sys b s (SysOpenCloseChecker.onRet r)
  end.

Definition branch_checker (b : branch) (x : checker) : M statics (Result * checker) :=
  match x with
  | CAssertCounter s => on_counter s (AssertCounter.handle b)
  | CAssert => on_assert (AssertChecker.mkSt ∅ ∅) (AssertChecker.onBranch (b_inst b) (b_succ0 b) (b_succ1 b) (b_const b))
  | _ => default_handler x
  end.

Definition report_checker (place : string) (x : checker) : M statics (Result * checker) :=
  match x with
  | CAssertCounter s => on_counter s AssertCounter.report
  | CAssert | CFilePerm _ => default_handler x
  | COpenClose s => on_open_close s (OpenCloseChecker.report place)
  | CLock s => on_lock s LockChecker.report
  | CFile s => on_file s FileChecker.report
  | CDataLoss s => on_data_loss s DataLossChecker.report
  | CLeak s => on_leak s (LeakChecker.report place)
  | CSysOpenClose b s => on_sys b s (SysOpenCloseChecker.report b place)
  end.

Definition checker_wants (f : string) (x : checker) : bool :=
  match x with
  | CAssertCounter _ | CAssert => false
  | COpenClose _ => OpenCloseChecker.wantConcrete f
  | CLock _ => LockChecker.wantConcrete f
  | CFile _ => FileChecker.wantConcrete f
  | CDataLoss _ => DataLossChecker.wantConcrete f
  | CLeak _ => LeakChecker.wantConcrete f
  | CFilePerm _ => FilePermChecker.wantConcrete f
  | CSysOpenClose b _ => SysOpenCloseChecker.wantConcrete b f
  end.

(** ** The manager *)
(** [CALL_CHECKERS]: the loop with its accumulator. *)
Fixpoint call_checkers (f : checker → M statics (Result * checker)) (final_ret : Result) (l : list checker) :
    M statics (Result * list checker) :=
  match l with
  | [] => mret (final_ret, [])
  | x :: l =>
    p ← f x;
    q ← call_checkers f (Z.lor final_ret p.1) l;
    mret (q.1, p.2 :: q.2)
  end.

(** The state of a manager and the shared record. *)
Record world := mkWorld { checkers : list checker; shared : statics }.

Definition all_checkers (f : checker → M statics (Result * checker)) : M world Result := λ w,
  match call_checkers f OK (checkers w) (shared w) with
  | Done (r, l) g => Done r (mkWorld l g)
  | Halt e g => Halt e (mkWorld (checkers w) g)
  end.

Definition onCall (must_equal : Z → option bool) (c : call) : M world Result := all_checkers (call_checker must_equal c).
Definition onRet (r : ret) : M world Result := all_checkers (ret_checker r).
Definition onBranch (b : branch) : M world Result := all_checkers (branch_checker b).
Definition report (place : string) : M world Result := all_checkers (report_checker place).

(** [GET_BOOL_PROP]. *)
Definition wantConcrete (f : string) (l : list checker) : bool :=
  foldl (λ b x, b || checker_wants f x) false l.

Definition addChecker (x : checker) : M world unit := modify (λ w, mkWorld (checkers w ++ [x]) (shared w)).
Definition clear : M world unit := modify (λ w, mkWorld [] (shared w)).

(** The managers that the engine sets up: the global one and that of the first
    state, with the record they share. *)
Record managers := mkManagers { globalCheckers : list checker; localCheckers : list checker; statics_of : statics }.
Definition local_world (m : managers) : world := mkWorld (localCheckers m) (statics_of m).
Definition in_global {A} : M world A → M managers A :=
  zoom (λ m, mkWorld (globalCheckers m) (statics_of m)) (λ w m, mkManagers (checkers w) (localCheckers m) (shared w)).
Definition in_local {A} : M world A → M managers A :=
  zoom local_world (λ w m, mkManagers (globalCheckers m) (checkers w) (shared w)).

Definition setup_checkers (UseOneChecker : string) : M managers unit :=
  if bool_decide (UseOneChecker = "") then
    in_global (addChecker CAssert);;
    in_local (addChecker (COpenClose OpenCloseChecker.new));;
    in_local (addChecker (CLock LockChecker.new));;
    in_local (addChecker (CFile FileChecker.new));;
    in_local (addChecker (CDataLoss DataLossChecker.new));;
    in_local (addChecker (CSysOpenClose true SysOpenCloseChecker.new))
  else if bool_decide (UseOneChecker = "Assert") then in_global (addChecker CAssert)
  else if bool_decide (UseOneChecker = "OpenClose") then in_local (addChecker (COpenClose OpenCloseChecker.new))
  else if bool_decide (UseOneChecker = "Lock") then in_local (addChecker (CLock LockChecker.new))
  else if bool_decide (UseOneChecker = "File") then in_local (addChecker (CFile FileChecker.new))
  else if bool_decide (UseOneChecker = "DataLoss") then in_local (addChecker (CDataLoss DataLossChecker.new))
  else if bool_decide (UseOneChecker = "Leak") then in_local (addChecker (CLeak PairwiseChecker.new))
  else if bool_decide (UseOneChecker = "SOC") then in_local (addChecker (CSysOpenClose true SysOpenCloseChecker.new))
  else if bool_decide (UseOneChecker = "SOCR") then in_local (addChecker (CSysOpenClose false SysOpenCloseChecker.new))
  else if bool_decide (UseOneChecker = "None") then mret tt
  else halt AssertFailure.

(** The copy constructor: [clone] of every checker. *)
Definition clone (x : checker) : M statics checker :=
  match x with
  | CFilePerm s => p ← on_file_perm FilePermChecker.new (FilePermChecker.copy s); mret p.2
  | _ => mret x
  end.
Fixpoint copy_checkers (l : list checker) : M statics (list checker) :=
  match l with
  | [] => mret []
  | x :: l => y ← clone x; ys ← copy_checkers l; mret (y :: ys)
  end.

(** ** The result of a manager *)
(** The results of the checkers one by one. *)
Inductive each (f : checker → M statics (Result * checker)) :
    list checker → statics → list Result → list checker → statics → Prop :=
| each_nil g : each f [] g [] [] g
| each_cons x l g r y g1 rs l' g2 :
    f x g = Done (r, y) g1 → each f l g1 rs l' g2 → each f (x :: l) g (r :: rs) (y :: l') g2.

Lemma call_checkers_each f acc l g r l' g' :
  call_checkers f acc l g = Done (r, l') g' →
  ∃ rs, each f l g rs l' g' ∧ r = foldl Z.lor acc rs.
Proof.
  revert acc g r l'. induction l as [|x l IH]; intros acc g r l' H; cbn in H.
  - injection H as <- <- <-. exists []. split; [constructor|done].
  - unfold mbind, M_bind in H. destruct (f x g) as [[r1 y] g1|] eqn:E1; [|done].
    destruct (call_checkers f _ l g1) as [[r2 l2] g2|] eqn:E2; [|done].
    injection H as <- <- <-. destruct (IH _ _ _ _ E2) as (rs & Hr & ->).
    exists (r1 :: rs). split; [by econstructor|done].
Qed.

Lemma errs_foldl acc rs : errs (foldl Z.lor acc rs) = errs acc || existsb errs rs.
Proof.
  revert acc. induction rs as [|r rs IH]; intros acc; cbn; [by rewrite orb_false_r|].
  by rewrite IH, errs_lor, orb_assoc.
Qed.

Lemma call_checkers_done f acc l g rs l' g' : each f l g rs l' g' →
  call_checkers f acc l g = Done (foldl Z.lor acc rs, l') g'.
Proof.
  intros H. revert acc. induction H as [|x l g r y g1 rs l' g2 E _ IH]; intros acc; [done|].
  cbn. unfold mbind, M_bind. by rewrite E, IH.
Qed.

Lemma each_length f l g rs l' g' : each f l g rs l' g' → length rs = length l ∧ length l' = length l.
Proof. induction 1; cbn; naive_solver. Qed.

(** A manager returns exactly when each of its checkers, called once and in order
    on the shared data the one before it left, returns; it then keeps the checkers'
    new states, and its result, the bitwise or of theirs, is an error exactly when
    one of them is. *)
Theorem manager_reports_any f w r w' :
  all_checkers f w = Done r w' ↔
  ∃ rs, each f (checkers w) (shared w) rs (checkers w') (shared w') ∧
    length rs = length (checkers w) ∧ length (checkers w') = length (checkers w) ∧
    r = foldl Z.lor OK rs ∧ (errs r = true ↔ ∃ x, x ∈ rs ∧ errs x = true).
Proof.
  unfold all_checkers. split.
  - intros H. destruct (call_checkers f OK _ _) as [[r1 l] g|] eqn:E; [|done].
    injection H as <- <-. destruct (call_checkers_each _ _ _ _ _ _ _ E) as (rs & He & ->).
    exists rs. split; [done|]. destruct (each_length _ _ _ _ _ _ He). split_and!; [done..|].
    rewrite errs_foldl. change (errs OK) with false. cbn [orb]. rewrite existsb_exists.
    by setoid_rewrite list_elem_of_In.
  - intros (rs & He & _ & _ & -> & _). rewrite (call_checkers_done f OK _ _ _ _ _ He). by destruct w'.
Qed.

Lemma manager_reports_any_witness :
  let w := mkWorld [CLock LockChecker.new; CFile FileChecker.new] (mkStatics (AssertChecker.mkSt ∅ ∅) (AssertChecker.mkSt ∅ ∅) [] [] []) in
  ∃ r rs w', all_checkers (call_checker (λ _, None) (LockChecker.sample_call "pthread_mutex_lock" 8)) w = Done r w' ∧
    r = foldl Z.lor OK rs ∧ length rs = 2%nat.
Proof.
  intros w.
  destruct (all_checkers (call_checker (λ _, None) (LockChecker.sample_call "pthread_mutex_lock" 8)) w)
    as [r w'|e w'] eqn:E; [|vm_compute in E; discriminate E].
  destruct (proj1 (manager_reports_any _ _ _ _) E) as (rs & _ & Hl & _ & Hr & _).
  exists r, rs, w'. split; [reflexivity|]. split; [exact Hr|exact Hl].
Defined.

(** ** The default checkers and the mutex functions

    The managers that the engine sets up by default, as they are while a path makes
    mutex calls only: the other checkers have recorded nothing. *)
Inductive mutex_world : world → LockChecker.st → Prop :=
| mutex_world_intro r s q g : lock_inv s →
    mutex_world (mkWorld [COpenClose (OpenCloseChecker.mkSt ∅ ∅ [] false r); CLock s; CFile FileChecker.new;
                          CDataLoss DataLossChecker.new;
                          CSysOpenClose true (SysOpenCloseChecker.mkSt ∅ q)] g) s.

Definition lock_automata (w : world) (m : Z) : LockChecker.lock_state :=
  match checkers w !! 1%nat with Some (CLock s) => LockChecker.automaton s m | _ => LockChecker.Uninit end.

Lemma others_ignore_mutex mq c o m g : LockChecker.mutex_call c (o, m) →
  ∀ x, x ∈ [COpenClose (OpenCloseChecker.mkSt ∅ ∅ [] false (open_close_reported g)); CFile FileChecker.new;
            CDataLoss DataLossChecker.new; CSysOpenClose true (SysOpenCloseChecker.mkSt ∅ (sys_reported g))] →
  call_checker mq c x g = Done (OK, x) g.
Proof.
  intros [Hn _] x Hx. cbn in Hn. destruct g. name_cases Hx; subst x; cbn [call_checker];
    unfold on_open_close, on_file, on_data_loss, on_sys, member, OpenCloseChecker.onCall, FileChecker.onCall,
      DataLossChecker.onCall, SysOpenCloseChecker.onCall; rewrite Hn; destruct o; cbn [LockChecker.op_name]; names;
    try reflexivity.
Qed.

Lemma mutex_world_step mq c o m w s : LockChecker.mutex_call c (o, m) → mutex_world w s →
  ∃ r w' s', onCall mq c w = Done r w' ∧ mutex_world w' s' ∧
    errs r = (LockChecker.lock_step o (lock_automata w m)).2 ∧
    ∀ m', lock_automata w' m' =
      if decide (m' = m) then (LockChecker.lock_step o (lock_automata w m)).1 else lock_automata w m'.
Proof.
  intros Hc Hw. destruct Hw as [r0 s q g Hs].
  destruct (LockChecker.onCall_step c o m s Hc Hs) as (r & s' & E & Hs' & Er & Ea).
  assert (El : call_checker mq c (CLock s) g = Done (r, CLock s') g).
  { cbn. unfold on_lock, member. by rewrite E. }
  pose proof (others_ignore_mutex mq c o m g Hc) as Ho.
  assert (He : each (call_checker mq c)
    [COpenClose (OpenCloseChecker.mkSt ∅ ∅ [] false r0); CLock s; CFile FileChecker.new; CDataLoss DataLossChecker.new;
     CSysOpenClose true (SysOpenCloseChecker.mkSt ∅ q)] g [OK; r; OK; OK; OK]
    [COpenClose (OpenCloseChecker.mkSt ∅ ∅ [] false (open_close_reported g)); CLock s'; CFile FileChecker.new;
     CDataLoss DataLossChecker.new; CSysOpenClose true (SysOpenCloseChecker.mkSt ∅ (sys_reported g))] g).
  { econstructor; [rewrite <-(Ho _ (list_elem_of_here _ _)); reflexivity|]. econstructor; [exact El|].
    econstructor; [apply Ho; set_solver|]. econstructor; [apply Ho; set_solver|].
    econstructor; [|constructor]. etransitivity; [|apply Ho; set_solver]. reflexivity. }
  eexists (foldl Z.lor OK [OK; r; OK; OK; OK]), _, s'. unfold onCall, all_checkers. cbn [checkers shared].
  rewrite (call_checkers_done _ OK _ _ _ _ _ He). split; [reflexivity|]. split; [by constructor|].
  split; [|exact Ea]. rewrite errs_foldl. change (errs OK) with false. cbn. by rewrite orb_false_r, Er.
Qed.

Lemma mutex_world_report place w s : mutex_world w s →
  ∃ r w', report place w = Done r w' ∧ (errs r = true ↔ ∃ m, lock_automata w m ≠ LockChecker.Uninit).
Proof.
  intros Hw. destruct Hw as [r0 s q g Hs]. unfold report, all_checkers, lock_automata. cbn [checkers shared call_checkers lookup list_lookup].
  destruct (LockChecker.report_automata s Hs) as [[Er Hm]|[Er Hm]].
  - eexists _, _. unfold mbind, M_bind. cbn. unfold on_lock, member. rewrite Er. split; [reflexivity|]. done.
  - eexists _, _. unfold mbind, M_bind. cbn. unfold on_lock, member. rewrite Er. split; [reflexivity|].
    split; [done|]. intros [m Hn]. by rewrite Hm in Hn.
Qed.

(** C28: With the checkers the engine sets up by default, a path that makes external
    mutex calls is judged by the automata of its mutexes alone: the path's manager
    returns on every call, its result is an error exactly on the calls that the
    automaton of the mutex refuses, and its report at the end of the path is an error
    exactly when some mutex was initialised and not destroyed.  The global manager
    holds the assertion checker, which accepts every call. *)
Theorem default_checkers_mutexes mq place g cs ops :
  Forall2 LockChecker.mutex_call cs ops →
  ∃ m0 rs w, setup_checkers "" (mkManagers [] [] g) = Done tt m0 ∧
    run_events (onCall mq) cs (local_world m0) = Done rs w ∧ errs <$> rs = (LockChecker.lock_spec ops).2 ∧
    (∃ r w', report place w = Done r w' ∧
      (errs r = true ↔ ∃ m, (LockChecker.lock_spec ops).1 m ≠ LockChecker.Uninit)) ∧
    ∀ c g', onCall mq c (mkWorld (globalCheckers m0) g') = Done OK (mkWorld (globalCheckers m0) g').
Proof.
  intros H.
  set (w0 := mkWorld [COpenClose OpenCloseChecker.new; CLock LockChecker.new; CFile FileChecker.new;
                      CDataLoss DataLossChecker.new; CSysOpenClose true SysOpenCloseChecker.new] g).
  destruct (run_product_from LockChecker.lock_step (λ _ _, True) (onCall mq) LockChecker.mutex_call
              (λ w, ∃ s, mutex_world w s) lock_automata) with (x0 := LockChecker.Uninit) (es := cs) (l := ops) (w := w0)
    as (rs & w & E & [s Hs] & Ee & Ea); [|done|..].
  - intros e o a w He [s Hs] _. destruct (mutex_world_step mq e o a w s He Hs) as (r & w' & s' & ? & ? & ? & ?).
    exists r, w'. eauto.
  - exists LockChecker.new. by constructor.
  - done.
  - by apply legal_true.
  - exists (mkManagers [CAssert] (checkers w0) g), rs, w. do 3 (split; [done|]). split; [|done].
    destruct (mutex_world_report place w s Hs) as (r & w' & Er & Hr). exists r, w'. split; [done|].
    rewrite Hr. by setoid_rewrite Ea.
Qed.

Lemma default_checkers_mutexes_witness :
  ∃ m0 rs w, setup_checkers "" (mkManagers [] [] (mkStatics (AssertChecker.mkSt ∅ ∅) (AssertChecker.mkSt ∅ ∅) [] [] [])) = Done tt m0 ∧
    run_events (onCall (λ _, None)) [LockChecker.sample_call "pthread_mutex_init" 8; LockChecker.sample_call "pthread_mutex_unlock" 8] (local_world m0)
      = Done rs w ∧ errs <$> rs = [false; true].
Proof.
  destruct (default_checkers_mutexes (λ _, None) "main" (mkStatics (AssertChecker.mkSt ∅ ∅) (AssertChecker.mkSt ∅ ∅) [] [] [])
    [LockChecker.sample_call "pthread_mutex_init" 8; LockChecker.sample_call "pthread_mutex_unlock" 8]
    [(LockChecker.MInit, 8); (LockChecker.MUnlock, 8)]) as (m0 & rs & w & E0 & E & Ee & _).
  - repeat constructor; cbn; eexists; split; reflexivity.
  - exists m0, rs, w. split; [exact E0|]. split; [exact E|exact Ee].
Defined.
