(* ===== verification/Expr.v ===== *)
(** * Symbolic expressions

    src/klee/include/klee/Expr.h: the classes of expressions, arrays and update lists, their
    widths, and the meaning of an expression under an assignment of bytes to the
    arrays.

    The constants are LLVM's [APInt]s, which are not part of the repository: the
    class [APInt] has the operations that the expressions use, with their documented
    behaviour as laws.  Widths are numbers of bits, of the type [unsigned]: [wf]
    asks that the width of every node is below 2^32. *)
From S2P Require Import Prelude.

(** ** Kinds, arrays, expressions *)
Inductive ArithKind : Type :=
| KAdd | KSub | KMul | KUDiv | KSDiv | KURem | KSRem | KAnd | KOr | KXor | KShl | KLShr | KAShr.
Inductive CmpKind : Type := KEq | KNe | KUlt | KUle | KUgt | KUge | KSlt | KSle | KSgt | KSge.
#[global] Instance ArithKind_eq_dec : EqDecision ArithKind.
Proof. solve_decision. Defined.
#[global] Instance CmpKind_eq_dec : EqDecision CmpKind.
Proof. solve_decision. Defined.

(** [arr_id] stands for the address of the array. *)
Record Array := mkArray { arr_id : nat; arr_name : string; arr_size : Z; constantValues : list Z }.
#[global] Instance Array_eq_dec : EqDecision Array.
Proof. solve_decision. Defined.
Definition isSymbolicArray (a : Array) : bool := bool_decide (constantValues a = []).

(** A constant has its width and its unsigned value; an update list is the chain of
    nodes from its head. *)
Inductive Expr : Type :=
| Constant (width value : Z)
| NotOptimized (src : Expr)
| Read (root : Array) (updates : UpdateList) (index : Expr)
| Select (cond trueExpr falseExpr : Expr)
| Concat (left right : Expr)
| Extract (expr : Expr) (offset width : Z)
| ZExt (src : Expr) (width : Z)
| SExt (src : Expr) (width : Z)
| Not (expr : Expr)
| Arith (k : ArithKind) (left right : Expr)
| Cmp (k : CmpKind) (left right : Expr)
with UpdateList : Type :=
| UNil
| UNode (index value : Expr) (next : UpdateList).

Scheme Expr_ind2 := Induction for Expr Sort Prop
with UpdateList_ind2 := Induction for UpdateList Sort Prop.
Combined Scheme Expr_UpdateList_ind from Expr_ind2, UpdateList_ind2.

Abbreviation Bool := 1.
Abbreviation Int8 := 8.
Abbreviation Int32 := 32.

Fixpoint getWidth (e : Expr) : Z :=
  match e with
  | Constant w _ => w
  | NotOptimized s => getWidth s
  | Read _ _ _ => Int8
  | Select _ t _ => getWidth t
  | Concat l r => getWidth l + getWidth r
  | Extract _ _ w | ZExt _ w | SExt _ w => w
  | Not e => getWidth e
  | Arith _ l _ => getWidth l
  | Cmp _ _ _ => Bool
  end.

Definition isa_Constant (e : Expr) : bool := match e with Constant _ _ => true | _ => false end.

(** The number of nodes; it bounds the recursion of the factories. *)
Fixpoint esize (e : Expr) : nat :=
  match e with
  | Constant _ _ => 1
  | NotOptimized e | Extract e _ _ | ZExt e _ | SExt e _ | Not e => S (esize e)
  | Read _ ul i => S (usize ul + esize i)
  | Select c t f => S (esize c + esize t + esize f)
  | Concat l r | Arith _ l r | Cmp _ l r => S (esize l + esize r)
  end
with usize (ul : UpdateList) : nat :=
  match ul with
  | UNil => 0
  | UNode i v next => S (esize i + esize v + usize next)
  end.

(** ** Equality of expressions

    [Expr::compare] returns 0 when the kinds, the contents and the kids agree (and
    the stored hash values, which are functions of them except for [Not], whose
    [computeHash] leaves the member unset).  What the factories rely on is that it
    accepts only equal expressions, and a constant with itself: [same] is the test,
    with these laws, which [expr_eqb] has. *)
Fixpoint expr_eqb (a b : Expr) : bool :=
  match a, b with
  | Constant w v, Constant w' v' => (w =? w') && (v =? v')
  | NotOptimized s, NotOptimized s' => expr_eqb s s'
  | Read x u i, Read x' u' i' => bool_decide (x = x') && updates_eqb u u' && expr_eqb i i'
  | Select c t f, Select c' t' f' => expr_eqb c c' && expr_eqb t t' && expr_eqb f f'
  | Concat l r, Concat l' r' => expr_eqb l l' && expr_eqb r r'
  | Extract e o w, Extract e' o' w' => (o =? o') && (w =? w') && expr_eqb e e'
  | ZExt e w, ZExt e' w' => (w =? w') && expr_eqb e e'
  | SExt e w, SExt e' w' => (w =? w') && expr_eqb e e'
  | Not e, Not e' => expr_eqb e e'
  | Arith k l r, Arith k' l' r' => bool_decide (k = k') && expr_eqb l l' && expr_eqb r r'
  | Cmp k l r, Cmp k' l' r' => bool_decide (k = k') && expr_eqb l l' && expr_eqb r r'
  | _, _ => false
  end
with updates_eqb (a b : UpdateList) : bool :=
  match a, b with
  | UNil, UNil => true
  | UNode i v n, UNode i' v' n' => expr_eqb i i' && expr_eqb v v' && updates_eqb n n'
  | _, _ => false
  end.

Class ExprCompare := {
  same : Expr → Expr → bool;
  same_sound : ∀ a b, same a b = true → a = b;
  same_constant : ∀ w v, same (Constant w v) (Constant w v) = true
}.

Lemma expr_eqb_sound : (∀ a b, expr_eqb a b = true → a = b) ∧ (∀ a b, updates_eqb a b = true → a = b).
Proof.
  apply Expr_UpdateList_ind; intros;
    match goal with
    | H : expr_eqb _ ?x = true |- _ => destruct x; try discriminate H; cbn in H
    | H : updates_eqb _ ?x = true |- _ => destruct x; try discriminate H; cbn in H
    end; rewrite ?andb_true_iff in *; destruct_and?; rewrite ?bool_decide_eq_true, ?Z.eqb_eq in *; subst;
    f_equal; auto.
Qed.

#[global, program] Instance structural_compare : ExprCompare := {| same := expr_eqb; same_sound := proj1 expr_eqb_sound |}.
Next Obligation. intros. cbn. by rewrite !Z.eqb_refl. Qed.

(** ** Arithmetic on w-bit numbers *)
(** The unsigned result of an operation on unsigned operands; division by 0 has
    none.  [wraps w] is the signed reading of a w-bit number. *)
Definition arith (k : ArithKind) (w a b : Z) : option Z :=
  match k with
  | KAdd => Some (wrapu w (a + b))
  | KSub => Some (wrapu w (a - b))
  | KMul => Some (wrapu w (a * b))
  | KUDiv => if b =? 0 then None else Some (a `div` b)
  | KURem => if b =? 0 then None else Some (a `mod` b)
  | KSDiv => if b =? 0 then None else Some (wrapu w (Z.quot (wraps w a) (wraps w b)))
  | KSRem => if b =? 0 then None else Some (wrapu w (Z.rem (wraps w a) (wraps w b)))
  | KAnd => Some (Z.land a b)
  | KOr => Some (Z.lor a b)
  | KXor => Some (Z.lxor a b)
  | KShl => Some (if b <? w then wrapu w (Z.shiftl a b) else 0)
  | KLShr => Some (if b <? w then Z.shiftr a b else 0)
  | KAShr => Some (wrapu w (Z.shiftr (wraps w a) (Z.min b w)))
  end.

Definition comparison (k : CmpKind) (w a b : Z) : bool :=
  match k with
  | KEq => a =? b
  | KNe => negb (a =? b)
  | KUlt => a <? b
  | KUle => a <=? b
  | KUgt => b <? a
  | KUge => b <=? a
  | KSlt => wraps w a <? wraps w b
  | KSle => wraps w a <=? wraps w b
  | KSgt => wraps w b <? wraps w a
  | KSge => wraps w b <=? wraps w a
  end.

Definition bits (w v : Z) : Prop := 0 ≤ v < 2 ^ w.

(** LLVM's arbitrary-precision integers: the width comes first. *)
Class APInt := {
  ap_arith : ArithKind → Z → Z → Z → Z;
  ap_cmp : CmpKind → Z → Z → Z → bool;
  ap_not : Z → Z → Z;
  ap_zextOrTrunc : Z → Z → Z → Z;     (** from, to *)
  ap_sextOrTrunc : Z → Z → Z → Z;
  ap_ashr : Z → Z → nat → Z;
  ap_shl : Z → Z → nat → Z;
  ap_arith_spec k w a b c : 0 < w → bits w a → bits w b → arith k w a b = Some c → ap_arith k w a b = c;
  ap_cmp_spec k w a b : 0 < w → bits w a → bits w b → ap_cmp k w a b = comparison k w a b;
  ap_not_spec w a : 0 < w → bits w a → ap_not w a = wrapu w (Z.lnot a);
  ap_zext_spec w w' a : 0 < w → 0 < w' → bits w a → ap_zextOrTrunc w w' a = wrapu w' a;
  ap_sext_spec w w' a : 0 < w → 0 < w' → bits w a → ap_sextOrTrunc w w' a = wrapu w' (wraps w a);
  ap_ashr_spec w a n : 0 < w → bits w a → Z.of_nat n ≤ w → ap_ashr w a n = wrapu w (Z.shiftr (wraps w a) (Z.of_nat n));
  ap_shl_spec w a n : 0 < w → bits w a → Z.of_nat n ≤ w → ap_shl w a n = wrapu w (Z.shiftl a (Z.of_nat n))
}.

(** An implementation of the interface. *)
#[global, program] Instance z_apint : APInt := {|
  ap_arith := λ k w a b, default 0 (arith k w a b);
  ap_cmp := comparison;
  ap_not := λ w a, wrapu w (Z.lnot a);
  ap_zextOrTrunc := λ _ w' a, wrapu w' a;
  ap_sextOrTrunc := λ w w' a, wrapu w' (wraps w a);
  ap_ashr := λ w a n, wrapu w (Z.shiftr (wraps w a) (Z.of_nat n));
  ap_shl := λ w a n, wrapu w (Z.shiftl a (Z.of_nat n))
|}.
Solve Obligations with (cbn; intros; simplify_option_eq; congruence).

(** ** Meaning *)
(** The initial bytes of the arrays. *)
Definition assignment : Type := Array → Z → Z.

(** A byte of an array as it is at the start: the values of a constant array are
    those it was made with, and it has none past its end. *)
Definition initial_byte (env : assignment) (a : Array) (i : Z) : option Z :=
  if isSymbolicArray a then Some (u8 (env a i))
  else if (0 <=? i) && (i <? arr_size a) then constantValues a !! Z.to_nat i else None.

Definition bool_val (b : bool) : Z := if b then 1 else 0.

(** The value of an expression: [None] when a division by 0 or a read past the end
    of a constant array is in it. *)
Fixpoint eval (env : assignment) (e : Expr) : option Z :=
  match e with
  | Constant _ v => Some v
  | NotOptimized s => eval env s
  | Read a ul i => j ← eval env i; eval_read env a ul j
  | Select c t f => x ← eval env c; y ← eval env t; z ← eval env f; Some (if x =? 1 then y else z)
  | Concat l r => x ← eval env l; y ← eval env r; Some (Z.shiftl x (getWidth r) + y)
  | Extract e off w => x ← eval env e; Some (wrapu w (Z.shiftr x off))
  | ZExt s w => x ← eval env s; Some (wrapu w x)
  | SExt s w => x ← eval env s; Some (wrapu w (wraps (getWidth s) x))
  | Not e => x ← eval env e; Some (wrapu (getWidth e) (Z.lnot x))
  | Arith k l r => x ← eval env l; y ← eval env r; arith k (getWidth l) x y
  | Cmp k l r => x ← eval env l; y ← eval env r; Some (bool_val (comparison k (getWidth l) x y))
  end
with eval_read (env : assignment) (a : Array) (ul : UpdateList) (j : Z) : option Z :=
  match ul with
  | UNil => initial_byte env a j
  | UNode i v next => x ← eval env i; if x =? j then eval env v else eval_read env a next j
  end.

(** ** Well-formed expressions *)
Definition wf_array (a : Array) : Prop :=
  0 ≤ arr_size a < 2 ^ 32 ∧ (constantValues a ≠ [] → Z.of_nat (length (constantValues a)) = arr_size a) ∧
  Forall (bits 8) (constantValues a).

Fixpoint wf (e : Expr) : Prop :=
  match e with
  | Constant w v => 0 < w < 2 ^ 32 ∧ bits w v
  | NotOptimized s => wf s
  | Read a ul i => wf_array a ∧ wf_updates ul ∧ wf i ∧ getWidth i = Int32
  | Select c t f => wf c ∧ wf t ∧ wf f ∧ getWidth c = Bool ∧ getWidth t = getWidth f
  | Concat l r => wf l ∧ wf r ∧ getWidth l + getWidth r < 2 ^ 32
  | Extract e off w => wf e ∧ 0 ≤ off ∧ 0 < w ∧ off + w ≤ getWidth e
  | ZExt s w | SExt s w => wf s ∧ getWidth s ≤ w < 2 ^ 32
  | Not e => wf e
  | Arith _ l r | Cmp _ l r => wf l ∧ wf r ∧ getWidth l = getWidth r
  end
with wf_updates (ul : UpdateList) : Prop :=
  match ul with
  | UNil => True
  | UNode i v next => wf i ∧ wf v ∧ getWidth i = Int32 ∧ getWidth v = Int8 ∧ wf_updates next
  end.

Lemma wf_width e : wf e → 0 < getWidth e < 2 ^ 32.
Proof. induction e; cbn [wf getWidth]; intros; destruct_and?; try lia; naive_solver lia. Qed.

(** ** Values are in range *)
Lemma bits_wrapu w x : 0 ≤ w → bits w (wrapu w x).
Proof. apply wrapu_range. Qed.
Lemma bits_bool b : bits 1 (bool_val b).
Proof. unfold bits. destruct b; cbn; lia. Qed.
Lemma bits_testbit w v : 0 ≤ w → bits w v ↔ 0 ≤ v ∧ ∀ n, w ≤ n → Z.testbit v n = false.
Proof.
  intros Hw. split; [intros H; split; [apply H|]; intros n Hn; by apply (testbit_high v w)|].
  intros [H0 H]. split; [done|]. destruct (decide (v = 0)) as [->|]; [lia|].
  apply Z.log2_lt_pow2; [lia|]. destruct (Z_lt_le_dec (Z.log2 v) w) as [|Hl]; [done|].
  specialize (H _ Hl). rewrite Z.bit_log2 in H by lia. done.
Qed.

Lemma bits_land w a b : 0 ≤ w → bits w a → bits w b → bits w (Z.land a b).
Proof.
  intros Hw Ha Hb. apply bits_testbit; [done|]. apply bits_testbit in Ha as [? Ha], Hb as [? Hb]; [|done..].
  split; [apply Z.land_nonneg; lia|]. intros n Hn. by rewrite Z.land_spec, Ha.
Qed.
Lemma bits_lor w a b : 0 ≤ w → bits w a → bits w b → bits w (Z.lor a b).
Proof.
  intros Hw Ha Hb. apply bits_testbit; [done|]. apply bits_testbit in Ha as [? Ha], Hb as [? Hb]; [|done..].
  split; [apply Z.lor_nonneg; lia|]. intros n Hn. by rewrite Z.lor_spec, Ha, Hb.
Qed.
Lemma bits_lxor w a b : 0 ≤ w → bits w a → bits w b → bits w (Z.lxor a b).
Proof.
  intros Hw Ha Hb. apply bits_testbit; [done|]. apply bits_testbit in Ha as [? Ha], Hb as [? Hb]; [|done..].
  split; [apply Z.lxor_nonneg; lia|]. intros n Hn. by rewrite Z.lxor_spec, Ha, Hb.
Qed.
Lemma bits_shiftr w a n : bits w a → 0 ≤ n → bits w (Z.shiftr a n).
Proof.
  unfold bits. intros Ha Hn. rewrite Z.shiftr_div_pow2 by done.
  assert (0 < 2 ^ n) by lia. split; [apply Z.div_pos; lia|]. apply Z.div_lt_upper_bound; nia.
Qed.

#[export] Hint Resolve bits_wrapu bits_bool bits_land bits_lor bits_lxor bits_shiftr : bits.

Lemma bits_arith k w a b c : 0 < w → bits w a → bits w b → arith k w a b = Some c → bits w c.
Proof.
  intros Hw Ha Hb. destruct k; cbn; intros; repeat case_match; simplify_eq; auto with bits lia;
    unfold bits in *; try lia; rewrite ?Z.eqb_neq in *.
  - split; [apply Z.div_pos; lia|]. apply Z.div_lt_upper_bound; nia.
  - pose proof (Z.mod_pos_bound a b). lia.
  - apply bits_shiftr; [done|lia].
Qed.

Lemma bits_concat wl wr a b : 0 ≤ wl → 0 ≤ wr → bits wl a → bits wr b → bits (wl + wr) (Z.shiftl a wr + b).
Proof. unfold bits. intros. rewrite Z.shiftl_mul_pow2, Z.pow_add_r by lia. nia. Qed.

Lemma eval_bits env :
  (∀ e, wf e → ∀ v, eval env e = Some v → bits (getWidth e) v) ∧
  (∀ ul, wf_updates ul → ∀ a j v, wf_array a → eval_read env a ul j = Some v → bits 8 v).
Proof.
  apply Expr_UpdateList_ind; cbn; intros; destruct_and?; simplify_option_eq;
    repeat match goal with
    | IH : ?P → ∀ v, _ → bits _ v, H : ?P |- _ => specialize (IH H)
    | IH : ∀ v, Some ?x = Some v → _ |- _ => specialize (IH x eq_refl)
    end; auto using bits_wrapu with bits lia.
  - eauto.
  - case_match; [done|]. by match goal with H : _ = getWidth _ |- _ => rewrite H end.
  - apply bits_concat; [apply Z.lt_le_incl, wf_width..| |]; done.
  - apply bits_wrapu. match goal with H : wf ?e |- _ => pose proof (wf_width e H) end. lia.
  - apply bits_wrapu. match goal with H : wf ?e |- _ => pose proof (wf_width e H) end. lia.
  - apply bits_wrapu. match goal with H : wf ?e |- _ => pose proof (wf_width e H) end. lia.
  - match goal with E : arith _ _ _ _ = Some _ |- _ => eapply bits_arith, E end; [by apply wf_width|done|].
    by match goal with H : getWidth _ = getWidth _ |- _ => rewrite H end.
  - unfold initial_byte in *. repeat case_match; simplify_eq; [apply bits_wrapu; lia|].
    match goal with H : wf_array _ |- _ => destruct H as (_ & _ & H); eapply Forall_lookup_1 in H; [exact H|done] end.
  - case_match; simplify_option_eq; [|eauto]. match goal with H : getWidth _ = Int8 |- _ => rewrite <-H end. auto.
Qed.

Lemma eval_range env e v : wf e → eval env e = Some v → bits (getWidth e) v.
Proof. intros. by eapply (proj1 (eval_bits env)). Qed.
