(* ===== verification/ExprCreate.v ===== *)
(** * The factories of expressions

    src/klee/lib/Expr/Expr.cpp: the [create] functions, which fold constants and rewrite
    expressions to a canonical form instead of building the node they are asked for.
    [C_make] is [CExpr::create], [C_create] and [C_createPartialR] are the static
    helpers [CExpr_create] and [CExpr_createPartialR].

    Recursion runs on fuel: [EqExpr_createPartialR] on its right operand, [AddExpr]
    and [SubExpr] together, [ExtractExpr] and [ConcatExpr] together; the top-level
    functions pass enough of it. *)
From S2P Require Import Prelude Expr.

(** A function that builds an expression, or fails an assertion. *)
Abbreviation res := (M unit).

Section Factories.
Context `{!APInt, !ExprCompare} (ConstArrayOpt : bool).

(** ** Constants *)
Definition Constant_alloc (v w : Z) : Expr := Constant w (wrapu w v).
(** The test of the value shifts by 64 - w bits. *)
Definition Constant_create (v w : Z) : res Expr :=
  if w <=? 64 then c_assert (v =? Z.land v (Z.shiftr (u64 (-1)) (64 - w)));; mret (Constant_alloc v w)
  else halt Undefined.

Definition getZExtValue (bits w v : Z) : res Z := c_assert (w <=? bits);; mret v.
Definition isZero (w v : Z) : res bool := x ← getZExtValue 64 w v; mret (x =? 0).
Definition isOne (w v : Z) : res bool := x ← getZExtValue 64 w v; mret (x =? 1).
Definition isTrue (w v : Z) : res bool := x ← getZExtValue 1 w v; mret (x =? 1).
Definition isFalse (w v : Z) : res bool := x ← getZExtValue 1 w v; mret (x =? 0).
Definition isAllOnes (w v : Z) : res bool :=
  if w <=? 64 then mret (v =? Z.shiftr (u64 (-1)) (64 - w)) else halt Undefined.

Definition is_division (k : ArithKind) : bool :=
  match k with KUDiv | KSDiv | KURem | KSRem => true | _ => false end.

(** [cl->Add(cr)] and the like; [APInt] asserts that a divisor is not 0. *)
Definition const_arith (k : ArithKind) (w a b : Z) : res Expr :=
  c_assert (negb (is_division k && (b =? 0)));; mret (Constant w (ap_arith k w a b)).
Definition const_cmp (k : CmpKind) (w a b : Z) : Expr := Constant Bool (bool_val (ap_cmp k w a b)).
Definition const_concat (wl a wr b : Z) : Expr :=
  let W := wl + wr in
  Constant W (ap_arith KOr W (ap_shl W (ap_zextOrTrunc wl W a) (Z.to_nat wr)) (ap_zextOrTrunc wr W b)).
Definition const_extract (w v off w' : Z) : Expr := Constant w' (ap_zextOrTrunc w w' (ap_ashr w v (Z.to_nat off))).
Definition const_zext (w v w' : Z) : Expr := Constant w' (ap_zextOrTrunc w w' v).
Definition const_sext (w v w' : Z) : Expr := Constant w' (ap_sextOrTrunc w w' v).
Definition const_not (w v : Z) : Expr := Constant w (ap_not w v).

(** ** The shape of the binary factories

    The macros BCREATE_R and CMPCREATE_T, with the four cases as arguments. *)
Definition bcreate_r (both : Z → Z → Z → res Expr) (partialR : Z → Z → Expr → res Expr)
    (partialL : Expr → Z → Z → res Expr) (create : Expr → Expr → res Expr) (l r : Expr) : res Expr :=
  c_assert (getWidth l =? getWidth r);;
  match l, r with
  | Constant w a, Constant _ b => both w a b
  | Constant w a, _ => partialR w a r
  | _, Constant w b => partialL l w b
  | _, _ => create l r
  end.
(** BCREATE and CMPCREATE. *)
Definition bcreate (both : Z → Z → Z → res Expr) (create : Expr → Expr → res Expr) (l r : Expr) : res Expr :=
  c_assert (getWidth l =? getWidth r);;
  match l, r with
  | Constant w a, Constant _ b => both w a b
  | _, _ => create l r
  end.

(** ** And, Or *)
Definition AndExpr_createPartial (l : Expr) (w v : Z) : res Expr :=
  ones ← isAllOnes w v;
  if (ones : bool) then mret l
  else
    zero ← isZero w v;
    if (zero : bool) then mret (Constant w v) else mret (Arith KAnd l (Constant w v)).
Definition AndExpr_createPartialR (w v : Z) (r : Expr) : res Expr := AndExpr_createPartial r w v.
Definition AndExpr_create (l r : Expr) : res Expr := mret (Arith KAnd l r).
Definition AndExpr_make : Expr → Expr → res Expr :=
  bcreate_r (const_arith KAnd) AndExpr_createPartialR AndExpr_createPartial AndExpr_create.

Definition OrExpr_createPartial (l : Expr) (w v : Z) : res Expr :=
  ones ← isAllOnes w v;
  if (ones : bool) then mret (Constant w v)
  else
    zero ← isZero w v;
    if (zero : bool) then mret l else mret (Arith KOr l (Constant w v)).
Definition OrExpr_createPartialR (w v : Z) (r : Expr) : res Expr := OrExpr_createPartial r w v.
Definition OrExpr_create (l r : Expr) : res Expr := mret (Arith KOr l r).
Definition OrExpr_make : Expr → Expr → res Expr :=
  bcreate_r (const_arith KOr) OrExpr_createPartialR OrExpr_createPartial OrExpr_create.

(** ** Eq *)
Definition EqExpr_create (l r : Expr) : res Expr :=
  mret (if same l r then Constant_alloc 1 Bool else Cmp KEq l r).

Section EqRec.
(** The recursive call. *)
Context (partialR : Z → Z → Expr → res Expr).

Definition EqExpr_make_rec : Expr → Expr → res Expr :=
  bcreate_r (λ w a b, mret (const_cmp KEq w a b)) partialR (λ l w v, partialR w v l) EqExpr_create.

Definition createIsZero_rec (e : Expr) : res Expr :=
  z ← Constant_create 0 (getWidth e); EqExpr_make_rec e z.

(** The loop over the positions of a constant array that hold the value. *)
Fixpoint const_array_loop (w v : Z) (rd index : Expr) (values : list Z) (i numMatches : Z) (acc : Expr) : res Expr :=
  match values with
  | [] => mret acc
  | x :: values =>
    if same (Constant w v) (Constant Int8 x) then
      if 100 <? numMatches + 1 then EqExpr_create (Constant w v) rd
      else
        mayBe ← EqExpr_make_rec index (Constant_alloc i (getWidth index));
        acc ← OrExpr_make acc mayBe;
        const_array_loop w v rd index values (i + 1) (numMatches + 1) acc
    else const_array_loop w v rd index values (i + 1) numMatches acc
  end.

Definition TryConstArrayOpt (w v : Z) (root : Array) (ul : UpdateList) (index : Expr) : res Expr :=
  if isSymbolicArray root || negb (match ul with UNil => true | _ => false end)
  then EqExpr_create (Constant w v) (Read root ul index)
  else const_array_loop w v (Read root ul index) index (constantValues root) 0 0 (Constant_alloc 0 Bool).
End EqRec.

Fixpoint EqExpr_createPartialR (fuel : nat) (w v : Z) (r : Expr) : res Expr :=
  match fuel with
  | O => halt NoFuel
  | S fuel =>
    let recR := EqExpr_createPartialR fuel in
    let otherwise := EqExpr_create (Constant w v) r in
    if w =? Bool then
      t ← isTrue w v;
      if (t : bool) then mret r
      else
        match r with
        | Cmp KEq (Constant w' v') A =>
          if w' =? Bool then f ← isFalse w' v'; if (f : bool) then mret A else otherwise
          else otherwise
        | Arith KOr a b =>
          x ← createIsZero_rec recR a; y ← createIsZero_rec recR b; AndExpr_make x y
        | _ => otherwise
        end
    else
      match r with
      | SExt src _ =>
        let fromBits := getWidth src in
        let trunc := ap_zextOrTrunc w fromBits v in
        if same (Constant w v) (const_sext fromBits trunc w)
        then EqExpr_make_rec recR src (Constant fromBits trunc)
        else Constant_create 0 Bool
      | ZExt src _ =>
        let fromBits := getWidth src in
        let trunc := ap_zextOrTrunc w fromBits v in
        if same (Constant w v) (const_zext fromBits trunc w)
        then EqExpr_make_rec recR src (Constant fromBits trunc)
        else Constant_create 0 Bool
      | Arith KAdd (Constant w' v') b =>
        c_assert (w =? w');; recR w (ap_arith KSub w v v') b
      | Arith KSub (Constant w' v') b =>
        c_assert (w' =? w);; recR w' (ap_arith KSub w' v' v) b
      | Read root ul index => if ConstArrayOpt then TryConstArrayOpt recR w v root ul index else otherwise
      | _ => otherwise
      end
  end.

(** [EqExpr_createPartialR] and [EqExpr_createPartial] with enough fuel. *)
Definition eq_partialR (w v : Z) (r : Expr) : res Expr := EqExpr_createPartialR (S (esize r)) w v r.
Definition EqExpr_createPartial (l : Expr) (w v : Z) : res Expr := eq_partialR w v l.
Definition EqExpr_make : Expr → Expr → res Expr := EqExpr_make_rec eq_partialR.
Definition createIsZero : Expr → res Expr := createIsZero_rec eq_partialR.

(** ** Xor, Mul *)
Definition XorExpr_createPartialR (w v : Z) (r : Expr) : res Expr :=
  zero ← isZero w v;
  if (zero : bool) then mret r
  else if w =? Bool then _ ← Constant_create 0 Bool; EqExpr_createPartial r Bool 0
  else mret (Arith KXor (Constant w v) r).
Definition XorExpr_createPartial (l : Expr) (w v : Z) : res Expr := XorExpr_createPartialR w v l.
Definition XorExpr_create (l r : Expr) : res Expr := mret (Arith KXor l r).
Definition XorExpr_make : Expr → Expr → res Expr :=
  bcreate_r (const_arith KXor) XorExpr_createPartialR XorExpr_createPartial XorExpr_create.

Definition MulExpr_createPartialR (w v : Z) (r : Expr) : res Expr :=
  if w =? Bool then AndExpr_createPartialR w v r
  else
    one ← isOne w v;
    if (one : bool) then mret r
    else
      zero ← isZero w v;
      if (zero : bool) then mret (Constant w v) else mret (Arith KMul (Constant w v) r).
Definition MulExpr_createPartial (l : Expr) (w v : Z) : res Expr := MulExpr_createPartialR w v l.
Definition MulExpr_create (l r : Expr) : res Expr :=
  mret (if getWidth l =? Bool then Arith KAnd l r else Arith KMul l r).
Definition MulExpr_make : Expr → Expr → res Expr :=
  bcreate_r (const_arith KMul) MulExpr_createPartialR MulExpr_createPartial MulExpr_create.

(** ** Add, Sub *)
(** [isa<ConstantExpr>(e->getKid(0))] for a sum or a difference. *)
Definition const_sum (e : Expr) : option (bool * Expr * Expr) :=
  match e with
  | Arith KAdd (Constant w k) a => Some (false, Constant w k, a)
  | Arith KSub (Constant w k) a => Some (true, Constant w k, a)
  | _ => None
  end.

Fixpoint AddExpr_createPartialR (fuel : nat) (w v : Z) (r : Expr) : res Expr :=
  match fuel with
  | O => halt NoFuel
  | S fuel =>
    if w =? Bool then XorExpr_createPartialR w v r
    else
      zero ← isZero w v;
      if (zero : bool) then mret r
      else
        match const_sum r with
        | Some (false, B, c) => x ← AddExpr_make_rec fuel (Constant w v) B; AddExpr_make_rec fuel x c
        | Some (true, B, c) => x ← AddExpr_make_rec fuel (Constant w v) B; SubExpr_make_rec fuel x c
        | None => mret (Arith KAdd (Constant w v) r)
        end
  end
with SubExpr_createPartialR (fuel : nat) (w v : Z) (r : Expr) : res Expr :=
  match fuel with
  | O => halt NoFuel
  | S fuel =>
    if w =? Bool then XorExpr_createPartialR w v r
    else
      match const_sum r with
      | Some (false, B, c) => x ← SubExpr_make_rec fuel (Constant w v) B; SubExpr_make_rec fuel x c
      | Some (true, B, c) => x ← SubExpr_make_rec fuel (Constant w v) B; AddExpr_make_rec fuel x c
      | None => mret (Arith KSub (Constant w v) r)
      end
  end
with AddExpr_create (fuel : nat) (l r : Expr) : res Expr :=
  match fuel with
  | O => halt NoFuel
  | S fuel =>
    if getWidth l =? Bool then XorExpr_create l r
    else
      match const_sum l, const_sum r with
      | Some (false, k, a), _ => x ← AddExpr_make_rec fuel a r; AddExpr_make_rec fuel k x
      | Some (true, k, a), _ => x ← SubExpr_make_rec fuel r a; AddExpr_make_rec fuel k x
      | None, Some (false, k, b) => x ← AddExpr_make_rec fuel l b; AddExpr_make_rec fuel k x
      | None, Some (true, k, b) => x ← SubExpr_make_rec fuel l b; AddExpr_make_rec fuel k x
      | None, None => mret (Arith KAdd l r)
      end
  end
with SubExpr_create (fuel : nat) (l r : Expr) : res Expr :=
  match fuel with
  | O => halt NoFuel
  | S fuel =>
    if getWidth l =? Bool then XorExpr_create l r
    else if same l r then mret (Constant_alloc 0 (getWidth l))
    else
      match const_sum l, const_sum r with
      | Some (false, k, a), _ => x ← SubExpr_make_rec fuel a r; AddExpr_make_rec fuel k x
      | Some (true, k, a), _ => x ← AddExpr_make_rec fuel a r; SubExpr_make_rec fuel k x
      | None, Some (false, k, b) => x ← SubExpr_make_rec fuel l b; SubExpr_make_rec fuel x k
      | None, Some (true, k, b) => x ← AddExpr_make_rec fuel l b; SubExpr_make_rec fuel x k
      | None, None => mret (Arith KSub l r)
      end
  end
with AddExpr_make_rec (fuel : nat) (l r : Expr) : res Expr :=
  match fuel with
  | O => halt NoFuel
  | S fuel =>
    bcreate_r (const_arith KAdd) (AddExpr_createPartialR fuel) (λ l w v, AddExpr_createPartialR fuel w v l)
      (AddExpr_create fuel) l r
  end
with SubExpr_make_rec (fuel : nat) (l r : Expr) : res Expr :=
  match fuel with
  | O => halt NoFuel
  | S fuel =>
    bcreate_r (const_arith KSub) (SubExpr_createPartialR fuel)
      (* l - c => l + (-c) *)
      (λ l w v, AddExpr_createPartialR fuel w (ap_arith KSub w 0 v) l)
      (SubExpr_create fuel) l r
  end.

Definition sum_fuel (l r : Expr) : nat := 2 * (esize l + esize r) + 2.
Definition AddExpr_make (l r : Expr) : res Expr := AddExpr_make_rec (sum_fuel l r) l r.
Definition SubExpr_make (l r : Expr) : res Expr := SubExpr_make_rec (sum_fuel l r) l r.

(** ** Division and shifts *)
Definition UDivExpr_create (l r : Expr) : res Expr := mret (if getWidth l =? Bool then l else Arith KUDiv l r).
Definition SDivExpr_create (l r : Expr) : res Expr := mret (if getWidth l =? Bool then l else Arith KSDiv l r).
Definition URemExpr_create (l r : Expr) : res Expr :=
  if getWidth l =? Bool then Constant_create 0 Bool else mret (Arith KURem l r).
Definition SRemExpr_create (l r : Expr) : res Expr :=
  if getWidth l =? Bool then Constant_create 0 Bool else mret (Arith KSRem l r).
Definition ShlExpr_create (l r : Expr) : res Expr :=
  if getWidth l =? Bool then z ← createIsZero r; AndExpr_make l z else mret (Arith KShl l r).
Definition LShrExpr_create (l r : Expr) : res Expr :=
  if getWidth l =? Bool then z ← createIsZero r; AndExpr_make l z else mret (Arith KLShr l r).
Definition AShrExpr_create (l r : Expr) : res Expr := mret (if getWidth l =? Bool then l else Arith KAShr l r).

Definition UDivExpr_make : Expr → Expr → res Expr := bcreate (const_arith KUDiv) UDivExpr_create.
Definition SDivExpr_make : Expr → Expr → res Expr := bcreate (const_arith KSDiv) SDivExpr_create.
Definition URemExpr_make : Expr → Expr → res Expr := bcreate (const_arith KURem) URemExpr_create.
Definition SRemExpr_make : Expr → Expr → res Expr := bcreate (const_arith KSRem) SRemExpr_create.
Definition ShlExpr_make : Expr → Expr → res Expr := bcreate (const_arith KShl) ShlExpr_create.
Definition LShrExpr_make : Expr → Expr → res Expr := bcreate (const_arith KLShr) LShrExpr_create.
Definition AShrExpr_make : Expr → Expr → res Expr := bcreate (const_arith KAShr) AShrExpr_create.

(** ** Comparisons *)
Definition UltExpr_create (l r : Expr) : res Expr :=
  if getWidth l =? Bool then z ← createIsZero l; AndExpr_make z r else mret (Cmp KUlt l r).
Definition UleExpr_create (l r : Expr) : res Expr :=
  if getWidth l =? Bool then z ← createIsZero l; OrExpr_make z r else mret (Cmp KUle l r).
Definition SltExpr_create (l r : Expr) : res Expr :=
  if getWidth l =? Bool then z ← createIsZero r; AndExpr_make l z else mret (Cmp KSlt l r).
Definition SleExpr_create (l r : Expr) : res Expr :=
  if getWidth l =? Bool then z ← createIsZero r; OrExpr_make l z else mret (Cmp KSle l r).

Definition cmp_both (k : CmpKind) (w a b : Z) : res Expr := mret (const_cmp k w a b).
Definition UltExpr_make : Expr → Expr → res Expr := bcreate (cmp_both KUlt) UltExpr_create.
Definition UleExpr_make : Expr → Expr → res Expr := bcreate (cmp_both KUle) UleExpr_create.
Definition SltExpr_make : Expr → Expr → res Expr := bcreate (cmp_both KSlt) SltExpr_create.
Definition SleExpr_make : Expr → Expr → res Expr := bcreate (cmp_both KSle) SleExpr_create.

Definition NeExpr_make (l r : Expr) : res Expr :=
  f ← Constant_create 0 Bool; e ← EqExpr_make l r; EqExpr_make f e.
Definition UgtExpr_make (l r : Expr) : res Expr := UltExpr_make r l.
Definition UgeExpr_make (l r : Expr) : res Expr := UleExpr_make r l.
Definition SgtExpr_make (l r : Expr) : res Expr := SltExpr_make r l.
Definition SgeExpr_make (l r : Expr) : res Expr := SleExpr_make r l.

(** ** Concat, Extract
    Offsets and widths are [unsigned]: their sums are taken modulo 2^32. *)
Fixpoint ConcatExpr_make_rec (fuel : nat) (l r : Expr) : res Expr :=
  match fuel with
  | O => halt NoFuel
  | S fuel =>
    match l, r with
    | Constant wl a, Constant wr b => mret (const_concat wl a wr b)
    | Extract el ol wl, Extract er or wr =>
      if same el er && (u32 (or + wr) =? ol) then ExtractExpr_make_rec fuel el or (u32 (wl + wr))
      else mret (Concat l r)
    | _, _ => mret (Concat l r)
    end
  end
with ExtractExpr_make_rec (fuel : nat) (e : Expr) (off w : Z) : res Expr :=
  match fuel with
  | O => halt NoFuel
  | S fuel =>
    let kw := getWidth e in
    c_assert ((0 <? w) && (u32 (off + w) <=? kw));;
    if w =? kw then mret e
    else
      match e with
      | Constant w0 v => mret (const_extract w0 v off w)
      | Concat x y =>
        if getWidth y <=? off then ExtractExpr_make_rec fuel x (off - getWidth y) w
        else if u32 (off + w) <=? getWidth y then ExtractExpr_make_rec fuel y off w
        else
          l ← ExtractExpr_make_rec fuel x 0 (u32 (w - getWidth y + off));
          r ← ExtractExpr_make_rec fuel y off (getWidth y - off);
          ConcatExpr_make_rec fuel l r
      | _ => mret (Extract e off w)
      end
  end.
Definition ConcatExpr_make (l r : Expr) : res Expr := ConcatExpr_make_rec (2 * (esize l + esize r) + 2) l r.
Definition ExtractExpr_make (e : Expr) (off w : Z) : res Expr := ExtractExpr_make_rec (2 * esize e + 3) e off w.

(** [createN]: the chain grows to the right. *)
Fixpoint ConcatExpr_createN (kids : list Expr) : res Expr :=
  match kids with
  | [] => halt AssertFailure
  | [e] => mret e
  | e :: kids => r ← ConcatExpr_createN kids; ConcatExpr_make e r
  end.

(** ** The other kinds *)
Definition NotExpr_make (e : Expr) : res Expr :=
  mret (match e with Constant w v => const_not w v | _ => Not e end).

Definition ZExtExpr_make (e : Expr) (w : Z) : res Expr :=
  let kBits := getWidth e in
  if w =? kBits then mret e
  else if w <? kBits then ExtractExpr_make e 0 w
  else mret (match e with Constant w0 v => const_zext w0 v w | _ => ZExt e w end).
Definition SExtExpr_make (e : Expr) (w : Z) : res Expr :=
  let kBits := getWidth e in
  if w =? kBits then mret e
  else if w <? kBits then ExtractExpr_make e 0 w
  else mret (match e with Constant w0 v => const_sext w0 v w | _ => SExt e w end).

Definition NotOptimizedExpr_make (src : Expr) : res Expr := mret (NotOptimized src).

(** The scan of the updates for one whose index must equal the index read. *)
Fixpoint read_scan (ul : UpdateList) (index : Expr) : res (option Expr) :=
  match ul with
  | UNil => mret None
  | UNode i v next =>
    cond ← EqExpr_make index i;
    match cond with
    | Constant w c => t ← isTrue w c; if (t : bool) then mret (Some v) else read_scan next index
    | _ => mret None
    end
  end.
Definition ReadExpr_make (root : Array) (ul : UpdateList) (index : Expr) : res Expr :=
  o ← read_scan ul index;
  mret (match o with Some v => v | None => Read root ul index end).

Definition SelectExpr_make (c t f : Expr) : res Expr :=
  let kt := getWidth t in
  c_assert (getWidth c =? Bool);; c_assert (kt =? getWidth f);;
  match c with
  | Constant w v => b ← isTrue w v; mret (if (b : bool) then t else f)
  | _ =>
    if same t f then mret t
    else if kt =? Bool then
      match t, f with
      | Constant w v, _ =>
        b ← isTrue w v;
        if (b : bool) then OrExpr_make c f else z ← createIsZero c; AndExpr_make z f
      | _, Constant w v =>
        b ← isTrue w v;
        if (b : bool) then z ← createIsZero c; OrExpr_make z t else AndExpr_make c t
      | _, _ => mret (Select c t f)
      end
    else mret (Select c t f)
  end.

Definition createImplies (hyp conc : Expr) : res Expr := z ← createIsZero hyp; OrExpr_make z conc.

(** A little-endian read of an array at offset 0. *)
Fixpoint temp_reads (array : Array) (n : nat) : res (list Expr) :=
  match n with
  | O => mret []
  | S n => e ← ReadExpr_make array UNil (Constant_alloc (Z.of_nat n) Int32); l ← temp_reads array n; mret (e :: l)
  end.
Definition createTempRead (array : Array) (w : Z) : res Expr :=
  if w =? 1 then e ← ReadExpr_make array UNil (Constant_alloc 0 Int32); ZExtExpr_make e Bool
  else if w =? 8 then ReadExpr_make array UNil (Constant_alloc 0 Int32)
  else if w =? 16 then l ← temp_reads array 2; ConcatExpr_createN l
  else if w =? 32 then l ← temp_reads array 4; ConcatExpr_createN l
  else if w =? 64 then l ← temp_reads array 8; ConcatExpr_createN l
  else halt AssertFailure.

(** ** One function for all binary kinds *)
Definition arith_make (k : ArithKind) : Expr → Expr → res Expr :=
  match k with
  | KAdd => AddExpr_make | KSub => SubExpr_make | KMul => MulExpr_make
  | KUDiv => UDivExpr_make | KSDiv => SDivExpr_make | KURem => URemExpr_make | KSRem => SRemExpr_make
  | KAnd => AndExpr_make | KOr => OrExpr_make | KXor => XorExpr_make
  | KShl => ShlExpr_make | KLShr => LShrExpr_make | KAShr => AShrExpr_make
  end.
Definition cmp_make (k : CmpKind) : Expr → Expr → res Expr :=
  match k with
  | KEq => EqExpr_make | KNe => NeExpr_make | KUlt => UltExpr_make | KUle => UleExpr_make
  | KUgt => UgtExpr_make | KUge => UgeExpr_make | KSlt => SltExpr_make | KSle => SleExpr_make
  | KSgt => SgtExpr_make | KSge => SgeExpr_make
  end.
End Factories.
