(* ===== verification/ExprRefine.v ===== *)
(** * The factories keep the meaning of expressions

    [builds m e]: the factory call [m] returns, and the expression it returns is well
    formed, has the width of [e] and the value of [e] under every assignment under
    which [e] has one.  The theorems show this for every factory and the node it is
    asked for. *)
From S2P Require Import Prelude Expr ExprCreate.

Definition refines (e0 e : Expr) : Prop :=
  wf e ∧ getWidth e = getWidth e0 ∧ ∀ env v, eval env e0 = Some v → eval env e = Some v.
Definition builds (m : res Expr) (e0 : Expr) : Prop := ∃ e, m tt = Done e tt ∧ refines e0 e.

Lemma refines_refl e : wf e → refines e e.
Proof. done. Qed.
Lemma refines_trans e1 e2 e3 : refines e1 e2 → refines e2 e3 → refines e1 e3.
Proof. intros (W1 & E1 & H1) (W2 & E2 & H2). split; [done|]. split; [congruence|]. eauto. Qed.

Lemma builds_ret e0 e : refines e0 e → builds (mret e) e0.
Proof. intros H. by exists e. Qed.
Lemma builds_bind m k e1 e0 : builds m e1 → (∀ e, refines e1 e → builds (k e) e0) → builds (m ≫= k) e0.
Proof.
  intros (e & E & H) Hk. destruct (Hk e H) as (e' & E' & H'). exists e'. by rewrite (bind_done _ _ _ _ _ E).
Qed.
Lemma builds_weaken m e1 e0 : builds m e1 → refines e0 e1 → builds m e0.
Proof. intros (e & E & H) H'. exists e. split; [done|]. by eapply refines_trans. Qed.
Lemma builds_test {A} (b : A) m k e0 : m tt = Done b tt → builds (k b) e0 → builds (m ≫= k) e0.
Proof. intros E (e & E' & H). exists e. by rewrite (bind_done _ _ _ _ _ E). Qed.
Lemma builds_assert b m e0 : b = true → builds m e0 → builds (c_assert b;; m) e0.
Proof. intros -> H. exact H. Qed.

(** The value of a binary node from the values of its operands. *)
Lemma eval_arith env k l r v : eval env (Arith k l r) = Some v ↔
  ∃ x y, eval env l = Some x ∧ eval env r = Some y ∧ arith k (getWidth l) x y = Some v.
Proof. cbn. split; [intros; simplify_option_eq; eauto|intros (x & y & -> & -> & <-); done]. Qed.
Lemma eval_cmp env k l r v : eval env (Cmp k l r) = Some v ↔
  ∃ x y, eval env l = Some x ∧ eval env r = Some y ∧ v = bool_val (comparison k (getWidth l) x y).
Proof. cbn. split; [intros; simplify_option_eq; eauto|intros (x & y & -> & -> & ->); done]. Qed.

(** To show that an expression refines a binary node, look at values in range. *)
Lemma refines_arith k l r e : wf l → wf r → getWidth l = getWidth r → wf e → getWidth e = getWidth l →
  (∀ env x y v, eval env l = Some x → eval env r = Some y → bits (getWidth l) x → bits (getWidth l) y →
     arith k (getWidth l) x y = Some v → eval env e = Some v) →
  refines (Arith k l r) e.
Proof.
  intros Hl Hr Hw He Hwe H. split; [done|]. split; [done|]. intros env v (x & y & Ex & Ey & Ev)%eval_arith.
  apply (H env x y v Ex Ey); [by eapply eval_range|rewrite Hw; by eapply eval_range|done].
Qed.
Lemma refines_cmp k l r e : wf l → wf r → getWidth l = getWidth r → wf e → getWidth e = Bool →
  (∀ env x y, eval env l = Some x → eval env r = Some y → bits (getWidth l) x → bits (getWidth l) y →
     eval env e = Some (bool_val (comparison k (getWidth l) x y))) →
  refines (Cmp k l r) e.
Proof.
  intros Hl Hr Hw He Hwe H. split; [done|]. split; [done|]. intros env v (x & y & Ex & Ey & ->)%eval_cmp.
  apply (H env x y Ex Ey); [by eapply eval_range|rewrite Hw; by eapply eval_range].
Qed.

(** Refinement of the operands. *)
Lemma refines_arith_mono k l l' r r' : refines l l' → refines r r' → getWidth l = getWidth r →
  refines (Arith k l r) (Arith k l' r').
Proof.
  intros (Wl & Ewl & Hl) (Wr & Ewr & Hr) Hw. split; [cbn; split_and!; [done..|congruence]|]. split; [done|].
  intros env v (x & y & Ex & Ey & Ev)%eval_arith. apply eval_arith. exists x, y. rewrite Ewl. auto.
Qed.
Lemma refines_cmp_mono k l l' r r' : refines l l' → refines r r' → getWidth l = getWidth r →
  refines (Cmp k l r) (Cmp k l' r').
Proof.
  intros (Wl & Ewl & Hl) (Wr & Ewr & Hr) Hw. split; [cbn; split_and!; [done..|congruence]|]. split; [done|].
  intros env v (x & y & Ex & Ey & Ev)%eval_cmp. apply eval_cmp. exists x, y. rewrite Ewl. auto.
Qed.

(** Case analysis on a factory's operands. *)
Ltac shapes l r := destruct l, r; cbn [bcreate_r bcreate] in *.

(** ** Constants *)
Section Spec.
Context `{HA : !APInt, HC : !ExprCompare} (CAO : bool).

Lemma ones_64 w : 0 < w ≤ 64 → Z.shiftr (u64 (-1)) (64 - w) = Z.ones w.
Proof.
  intros Hw. change (u64 (-1)) with (Z.ones 64). rewrite Z.shiftr_div_pow2, Z.ones_div_pow2 by lia. f_equal. lia.
Qed.
Lemma land_ones_bits w v : 0 < w → bits w v → Z.land v (Z.ones w) = v.
Proof. intros Hw Hv. rewrite Z.land_ones by lia. by apply Z.mod_small. Qed.
Lemma lor_ones_bits w v : 0 < w → bits w v → Z.lor v (Z.ones w) = Z.ones w.
Proof.
  intros Hw Hv. apply Z.bits_inj'. intros n Hn. rewrite Z.lor_spec, Z.testbit_ones_nonneg by lia.
  destruct (Z.ltb_spec n w); [apply orb_true_r|]. rewrite orb_false_r. apply (testbit_high v w); [done|lia|lia].
Qed.
Lemma ones_bits w : 0 < w → bits w (Z.ones w).
Proof. intros. unfold bits. rewrite Z.ones_equiv. lia. Qed.
Lemma bits_0 w : 0 ≤ w → bits w 0.
Proof. unfold bits. lia. Qed.

Lemma Constant_create_0 w : 0 < w ≤ 64 → Constant_create 0 w tt = Done (Constant w 0) tt.
Proof.
  intros Hw. unfold Constant_create, Constant_alloc. rewrite (proj2 (Z.leb_le _ _)) by lia.
  rewrite Z.land_0_l, wrapu_small by lia. done.
Qed.
Lemma wf_constant w v : 0 < w < 2 ^ 32 → bits w v → wf (Constant w v).
Proof. done. Qed.

Lemma const_arith_builds k w a b : 0 < w < 2 ^ 32 → bits w a → bits w b → (is_division k = true → b ≠ 0) →
  builds (const_arith k w a b) (Arith k (Constant w a) (Constant w b)).
Proof.
  intros Hw Ha Hb Hd. unfold const_arith.
  assert (∃ c, arith k w a b = Some c) as [c Ec].
  { destruct k; cbn in *; eauto; rewrite (proj2 (Z.eqb_neq _ _)) by auto; eauto. }
  apply builds_assert.
  { destruct (is_division k); [|done]. by rewrite (proj2 (Z.eqb_neq _ _)) by auto. }
  destruct Hw as [H0 Hm]. rewrite (ap_arith_spec _ _ _ _ _ H0 Ha Hb Ec). apply builds_ret.
  split; [split; [done|exact (bits_arith _ _ _ _ _ H0 Ha Hb Ec)]|]. split; [done|].
  intros env v (x & y & [= <-] & [= <-] & Ev)%eval_arith. cbn in *. congruence.
Qed.

Lemma const_cmp_refines k w a b : 0 < w < 2 ^ 32 → bits w a → bits w b →
  refines (Cmp k (Constant w a) (Constant w b)) (const_cmp k w a b).
Proof.
  intros Hw Ha Hb. unfold const_cmp. rewrite ap_cmp_spec by (done || lia).
  split; [split; [lia|apply bits_bool]|]. split; [done|].
  intros env v (x & y & [= <-] & [= <-] & ->)%eval_cmp. done.
Qed.

(** ** The shape of the factories *)
Lemma bcreate_r_builds both partialR partialL create l r e0 : getWidth l = getWidth r →
  (∀ w a b, l = Constant w a → r = Constant w b → builds (both w a b) e0) →
  (∀ w a, l = Constant w a → isa_Constant r = false → builds (partialR w a r) e0) →
  (∀ w b, r = Constant w b → isa_Constant l = false → builds (partialL l w b) e0) →
  (isa_Constant l = false → isa_Constant r = false → builds (create l r) e0) →
  builds (bcreate_r both partialR partialL create l r) e0.
Proof.
  intros Hw H1 H2 H3 H4. unfold bcreate_r. apply builds_assert; [by apply Z.eqb_eq|].
  destruct l eqn:El; try (destruct r eqn:Er; try (by apply H4); by apply H3).
  destruct r eqn:Er; try (by apply H2). cbn in Hw. subst. by apply H1.
Qed.
Lemma bcreate_builds both create l r e0 : getWidth l = getWidth r →
  (∀ w a b, l = Constant w a → r = Constant w b → builds (both w a b) e0) →
  (isa_Constant l = false ∨ isa_Constant r = false → builds (create l r) e0) →
  builds (bcreate both create l r) e0.
Proof.
  intros Hw H1 H2. unfold bcreate. apply builds_assert; [by apply Z.eqb_eq|].
  destruct l eqn:El; try (apply H2; by left). destruct r eqn:Er; try (apply H2; by right).
  cbn in Hw. subst. by apply H1.
Qed.

(** A commutative operation with the constant on the right. *)
Definition commutative (k : ArithKind) : bool :=
  match k with KAdd | KMul | KAnd | KOr | KXor => true | _ => false end.
Lemma arith_comm k w a b : commutative k = true → arith k w a b = arith k w b a.
Proof.
  destruct k; cbn; intros; try done;
    [rewrite Z.add_comm|rewrite Z.mul_comm|rewrite Z.land_comm|rewrite Z.lor_comm|rewrite Z.lxor_comm]; done.
Qed.
Lemma refines_comm k l r : commutative k = true → wf l → wf r → getWidth l = getWidth r →
  refines (Arith k l r) (Arith k r l).
Proof.
  intros Hk Hl Hr Hw. apply refines_arith; [done..|by cbn|by cbn|].
  intros env x y v Ex Ey _ _ Ev. cbn. rewrite Ex, Ey. cbn. by rewrite <-Hw, arith_comm.
Qed.

(** ** And, Or *)
Lemma AndExpr_partial l w v : wf l → getWidth l = w → w ≤ 64 → bits w v →
  builds (AndExpr_createPartial l w v) (Arith KAnd l (Constant w v)).
Proof.
  intros Hl <- H64 Hv. pose proof (wf_width l Hl) as H0. unfold AndExpr_createPartial.
  eapply builds_test; [unfold isAllOnes; rewrite (proj2 (Z.leb_le _ _)), ones_64 by lia; reflexivity|].
  assert (wf (Constant (getWidth l) v)) by (split; [lia|done]).
  destruct (Z.eqb_spec v (Z.ones (getWidth l))) as [->|]; cbv beta iota.
  - apply builds_ret, refines_arith; [done..|]. intros env x y z Ex [= <-] Hx _ [= <-].
    by rewrite land_ones_bits by (done || lia).
  - eapply builds_test; [unfold isZero, getZExtValue; rewrite (proj2 (Z.leb_le _ _)) by lia; reflexivity|].
    destruct (Z.eqb_spec v 0) as [->|]; apply builds_ret.
    + apply refines_arith; [done..|]. intros env x y z Ex [= <-] Hx _ [= <-]. by rewrite Z.land_0_r.
    + by apply refines_refl.
Qed.

Lemma OrExpr_partial l w v : wf l → getWidth l = w → w ≤ 64 → bits w v →
  builds (OrExpr_createPartial l w v) (Arith KOr l (Constant w v)).
Proof.
  intros Hl <- H64 Hv. pose proof (wf_width l Hl) as H0. unfold OrExpr_createPartial.
  eapply builds_test; [unfold isAllOnes; rewrite (proj2 (Z.leb_le _ _)), ones_64 by lia; reflexivity|].
  assert (wf (Constant (getWidth l) v)) by (split; [lia|done]).
  destruct (Z.eqb_spec v (Z.ones (getWidth l))) as [->|]; cbv beta iota.
  - apply builds_ret, refines_arith; [done..|]. intros env x y z Ex [= <-] Hx _ [= <-].
    by rewrite lor_ones_bits by (done || lia).
  - eapply builds_test; [unfold isZero, getZExtValue; rewrite (proj2 (Z.leb_le _ _)) by lia; reflexivity|].
    destruct (Z.eqb_spec v 0) as [->|]; apply builds_ret.
    + apply refines_arith; [done..|]. intros env x y z Ex [= <-] Hx _ [= <-]. by rewrite Z.lor_0_r.
    + by apply refines_refl.
Qed.

Lemma AndExpr_builds l r : wf l → wf r → getWidth l = getWidth r → getWidth l ≤ 64 →
  builds (AndExpr_make l r) (Arith KAnd l r).
Proof.
  intros Hl Hr Hw H64. apply bcreate_r_builds; [done|..].
  - intros w a b -> ->. apply const_arith_builds; by destruct Hl, Hr.
  - intros w a -> _. cbn in Hw, H64. eapply builds_weaken; [apply AndExpr_partial; [done|done|done|by destruct Hl]|].
    by apply refines_comm.
  - intros w b -> _. apply AndExpr_partial; [done|done|by cbn in Hw; lia|by destruct Hr].
  - intros _ _. by apply builds_ret, refines_refl.
Qed.
Lemma OrExpr_builds l r : wf l → wf r → getWidth l = getWidth r → getWidth l ≤ 64 →
  builds (OrExpr_make l r) (Arith KOr l r).
Proof.
  intros Hl Hr Hw H64. apply bcreate_r_builds; [done|..].
  - intros w a b -> ->. apply const_arith_builds; by destruct Hl, Hr.
  - intros w a -> _. cbn in Hw, H64. eapply builds_weaken; [apply OrExpr_partial; [done|done|done|by destruct Hl]|].
    by apply refines_comm.
  - intros w b -> _. apply OrExpr_partial; [done|done|by cbn in Hw; lia|by destruct Hr].
  - intros _ _. by apply builds_ret, refines_refl.
Qed.

(** ** Eq *)
Lemma cmp_eq_comm l r : wf l → wf r → getWidth l = getWidth r → refines (Cmp KEq l r) (Cmp KEq r l).
Proof.
  intros Hl Hr Hw. apply refines_cmp; [done..|by cbn|done|].
  intros env x y Ex Ey _ _. cbn. rewrite Ex, Ey. cbn. by rewrite Z.eqb_sym.
Qed.

Lemma EqExpr_create_builds l r : wf l → wf r → getWidth l = getWidth r → builds (EqExpr_create l r) (Cmp KEq l r).
Proof.
  intros Hl Hr Hw. apply builds_ret. destruct (same l r) eqn:E; [|by apply refines_refl].
  apply same_sound in E as ->. apply refines_cmp; [done..|by cbn|done|].
  intros env x y Ex Ey _ _. simplify_eq. cbn. by rewrite Z.eqb_refl.
Qed.

(** What a partial equality must do on operands with fewer than [n] nodes. *)
Definition eq_ok (n : nat) (partialR : Z → Z → Expr → res Expr) : Prop := ∀ w v r,
  wf r → getWidth r = w → bits w v → (esize r < n)%nat → builds (partialR w v r) (Cmp KEq (Constant w v) r).

Lemma EqExpr_rec_builds n partialR l r : eq_ok n partialR → wf l → wf r → getWidth l = getWidth r →
  (isa_Constant l = true → (esize r < n)%nat) → (isa_Constant r = true → (esize l < n)%nat) →
  builds (EqExpr_make_rec partialR l r) (Cmp KEq l r).
Proof.
  intros Hok Hl Hr Hw Sl Sr. apply bcreate_r_builds; [done|..].
  - intros w a b -> ->. apply builds_ret, const_cmp_refines; by destruct Hl, Hr.
  - intros w a -> _. apply Hok; [done|done|by destruct Hl|auto].
  - intros w b -> _. eapply builds_weaken; [apply Hok; [done|done|by destruct Hr|auto]|]. by apply cmp_eq_comm.
  - intros _ _. by apply EqExpr_create_builds.
Qed.

Lemma createIsZero_rec_builds n partialR e : eq_ok n partialR → wf e → getWidth e ≤ 64 → (esize e < n)%nat →
  builds (createIsZero_rec partialR e) (Cmp KEq e (Constant (getWidth e) 0)).
Proof.
  intros Hok He H64 Hn. pose proof (wf_width e He).
  eapply builds_test; [apply Constant_create_0; lia|].
  eapply EqExpr_rec_builds; [done|done|split; [lia|by apply bits_0; lia]|done|..].
  - intros Hc. by destruct e.
  - done.
Qed.

Lemma bits_1 v : bits 1 v → v = 0 ∨ v = 1.
Proof. unfold bits. change (2 ^ 1) with 2. lia. Qed.

Lemma wrapu_le w w' x : 0 ≤ w ≤ w' → wrapu w (wrapu w' x) = wrapu w x.
Proof.
  intros Hw. unfold wrapu. replace (2 ^ w') with (2 ^ w * 2 ^ (w' - w)) by (rewrite <-Z.pow_add_r by lia; f_equal; lia).
  rewrite Z.rem_mul_r by lia. rewrite Z.mul_comm, Z_mod_plus_full. apply Z.mod_mod. lia.
Qed.
Lemma wrapu_wraps w x : 0 < w → wrapu w (wraps w x) = wrapu w x.
Proof.
  intros Hw. unfold wrapu, wraps. rewrite Zminus_mod_idemp_l. f_equal. lia.
Qed.
Lemma sext_trunc fb w y : 0 < fb ≤ w → bits fb y → wrapu fb (wrapu w (wraps fb y)) = y.
Proof. intros Hw Hy. rewrite wrapu_le, wrapu_wraps by lia. by apply wrapu_small. Qed.
Lemma zext_trunc fb w y : 0 < fb ≤ w → bits fb y → wrapu fb (wrapu w y) = y.
Proof. intros Hw Hy. rewrite wrapu_le by lia. by apply wrapu_small. Qed.

(** Equations modulo 2^w. *)
Lemma wrapu_eq w a b : 0 ≤ w → (wrapu w a = wrapu w b ↔ ∃ k, a = b + k * 2 ^ w).
Proof.
  intros Hw. unfold wrapu. split.
  - intros E. exists (a / 2 ^ w - b / 2 ^ w). pose proof (Z.div_mod a (2 ^ w)). pose proof (Z.div_mod b (2 ^ w)). nia.
  - intros [k ->]. by rewrite Z_mod_plus_full.
Qed.
Lemma eq_add_const w v k y : 0 < w → bits w v → bits w y → (v =? wrapu w (k + y)) = (wrapu w (v - k) =? y).
Proof.
  intros Hw Hv Hy. rewrite <-(wrapu_small w v Hv) at 1. rewrite <-(wrapu_small w y Hy) at 2.
  apply eq_true_iff_eq. rewrite !Z.eqb_eq, !wrapu_eq by lia.
  split; intros [m Hm]; exists m; lia.
Qed.
Lemma eq_sub_const w v k y : 0 < w → bits w v → bits w y → (v =? wrapu w (k - y)) = (wrapu w (k - v) =? y).
Proof.
  intros Hw Hv Hy. rewrite <-(wrapu_small w v Hv) at 1. rewrite <-(wrapu_small w y Hy) at 2.
  apply eq_true_iff_eq. rewrite !Z.eqb_eq, !wrapu_eq by lia.
  split; intros [m Hm]; exists (-m); lia.
Qed.

(** The disjunction over a constant array: after the positions below [i] it holds
    exactly when the index is one of them and the value there is the one compared. *)
Definition matches (v : Z) (values : list Z) (j : Z) : bool :=
  bool_decide (0 ≤ j) && bool_decide (values !! Z.to_nat j = Some v).
Definition covers (index : Expr) (v : Z) (values : list Z) (acc : Expr) : Prop :=
  wf acc ∧ getWidth acc = Bool ∧
  ∀ env j, eval env index = Some j → eval env acc = Some (bool_val (matches v values j)).

Lemma matches_snoc v values x j :
  matches v (values ++ [x]) j = matches v values j || ((j =? Z.of_nat (length values)) && (v =? x)).
Proof.
  unfold matches. apply eq_true_iff_eq.
  rewrite orb_true_iff, !andb_true_iff, !bool_decide_eq_true, !Z.eqb_eq, lookup_app_Some.
  split.
  - intros [H0 [H|[Hl H]]]; [by left|]. right.
    destruct (Z.to_nat j - length values)%nat eqn:E; cbn in H; [|done]. simplify_eq. lia.
  - intros [[H0 H]|[-> ->]]; [split; [done|by left]|]. split; [lia|]. right.
    rewrite Nat2Z.id, Nat.sub_diag. split; [lia|done].
Qed.

Lemma const_array_loop_builds n partialR w v root index : eq_ok n partialR →
  wf (Read root UNil index) → isSymbolicArray root = false → w = 8 → bits w v → (esize index < n)%nat →
  ∀ values done acc m, constantValues root = done ++ values → covers index v done acc →
  builds (const_array_loop partialR w v (Read root UNil index) index values (Z.of_nat (length done)) m acc)
    (Cmp KEq (Constant w v) (Read root UNil index)).
Proof.
  intros Hok Hwf Hs Hw Hv Hn. destruct Hwf as ((Hsz & Hlen & Hbytes) & _ & Hi & Hi32).
  assert (Hc : constantValues root ≠ []) by (unfold isSymbolicArray in Hs; by apply bool_decide_eq_false in Hs).
  specialize (Hlen Hc).
  induction values as [|x values IH]; intros dn acc m E (Wa & Wb & Ha); cbn [const_array_loop].
  - rewrite app_nil_r in E. subst dn. apply builds_ret. subst w.
    apply refines_cmp; [split; [lia|done]|done|done|done|done|].
    intros env x y [= <-] Ey _ _. cbn in Ey. destruct (eval env index) as [j|] eqn:Ej; [|done]. cbn in Ey.
    rewrite (Ha env j Ej). unfold initial_byte in Ey. rewrite Hs in Ey. case_match eqn:Eb; [|done].
    rewrite andb_true_iff, Z.leb_le, Z.ltb_lt in Eb. unfold matches. rewrite bool_decide_eq_true_2 by lia. cbn.
    rewrite Ey. do 2 f_equal. apply eq_true_iff_eq. rewrite bool_decide_eq_true, Z.eqb_eq. naive_solver.
  - assert (Hx : bits 8 x) by (eapply Forall_lookup_1; [exact Hbytes|rewrite E; by apply list_lookup_middle]).
    assert (Hpos : Z.of_nat (length dn) < arr_size root) by (rewrite <-Hlen, E, length_app; cbn; lia).
    replace (Z.of_nat (length dn) + 1) with (Z.of_nat (length (dn ++ [x]))) by (rewrite length_app; cbn; lia).
    assert (Hsame : same (Constant w v) (Constant Int8 x) = (v =? x)).
    { subst w. destruct (Z.eqb_spec v x) as [->|Hne]; [apply same_constant|].
      destruct (same _ _) eqn:Es; [|done]. apply same_sound in Es. congruence. }
    rewrite Hsame. destruct (Z.eqb_spec v x) as [->|Hne].
    + case_match; [by apply EqExpr_create_builds; [subst w; split; [lia|done]|..]|].
      eapply builds_bind.
      { eapply EqExpr_rec_builds with (n := n); [done|done| |by cbn| |auto].
        - split; [rewrite Hi32; lia|]. apply bits_wrapu. rewrite Hi32. lia.
        - intros Hcn. by destruct index. }
      intros mayBe (Wm & Em & Hm). eapply builds_bind; [by apply OrExpr_builds; [done|done|rewrite Em, Wb|rewrite Wb; lia]|].
      intros acc' (Wa' & Ea' & Ha'). apply IH; [by rewrite <-app_assoc|].
      split; [done|]. split; [by rewrite Ea'|]. intros env j Ej. apply Ha', eval_arith.
      exists (bool_val (matches x dn j)), (bool_val (j =? Z.of_nat (length dn))). split; [by apply Ha|].
      split; [apply Hm, eval_cmp; exists j, (Z.of_nat (length dn))|].
      * split; [done|]. split; [|done]. cbn. rewrite Hi32, wrapu_small by lia. done.
      * rewrite matches_snoc, Z.eqb_refl, andb_true_r. cbn. f_equal. by destruct (matches _ _ _), (_ =? _).
    + apply IH; [by rewrite <-app_assoc|]. split; [done|]. split; [done|]. intros env j Ej.
      rewrite matches_snoc, (proj2 (Z.eqb_neq _ _) Hne), andb_false_r, orb_false_r. by apply Ha.
Qed.

Lemma TryConstArrayOpt_builds n partialR w v root ul index : eq_ok n partialR →
  wf (Read root ul index) → w = 8 → bits w v → (esize index < n)%nat →
  builds (TryConstArrayOpt partialR w v root ul index) (Cmp KEq (Constant w v) (Read root ul index)).
Proof.
  intros Hok Hwf Hw Hv Hn. unfold TryConstArrayOpt.
  assert (wf (Constant w v)) by (subst w; split; [lia|done]).
  destruct (isSymbolicArray root) eqn:Es; cbn [orb]; [by apply EqExpr_create_builds|].
  destruct ul; cbn [negb]; [|by apply EqExpr_create_builds].
  apply (const_array_loop_builds n partialR w v root index Hok Hwf Es Hw Hv Hn _ []); [done|].
  split; [split; [lia|apply bits_wrapu; lia]|]. split; [done|]. intros env j Ej. cbn. f_equal. unfold matches.
  rewrite lookup_nil, andb_false_r. done.
Qed.

Lemma isTrue_done v : bits 1 v → isTrue Bool v tt = Done (v =? 1) tt.
Proof. done. Qed.

(** Equality with a constant of width 1. *)
Lemma eq_true_refines r : wf r → getWidth r = Bool → refines (Cmp KEq (Constant Bool 1) r) r.
Proof.
  intros Hr Hw. apply refines_cmp; [split; [lia|by apply (bits_bool true)]|done..|].
  intros env x y [= <-] Ey _ Hy. rewrite Ey. cbn in *. by destruct (bits_1 y Hy) as [->| ->].
Qed.
Lemma double_negation A w v : wf (Cmp KEq (Constant w v) A) → w = Bool → v = 0 →
  refines (Cmp KEq (Constant Bool 0) (Cmp KEq (Constant w v) A)) A.
Proof.
  intros (Hc & HA' & Hw) -> ->. cbn in Hw. apply refines_cmp; [by split|by cbn|done|done|done|].
  intros env x y [= <-] (x' & z & [= <-] & Ez & ->)%eval_cmp _ _. rewrite Ez. cbn.
  assert (Hz : bits 1 z) by (rewrite Hw; by eapply eval_range). by destruct (bits_1 z Hz) as [->| ->].
Qed.
Lemma not_or_refines a b na nb : wf a → wf b → getWidth a = Bool → getWidth b = Bool →
  refines (Cmp KEq a (Constant (getWidth a) 0)) na → refines (Cmp KEq b (Constant (getWidth b) 0)) nb →
  refines (Cmp KEq (Constant Bool 0) (Arith KOr a b)) (Arith KAnd na nb).
Proof.
  intros Ha Hb Wa Wb (Wna & Ena & Hna) (Wnb & Enb & Hnb). cbn in Ena, Enb.
  apply refines_cmp; [split; [lia|by apply bits_0]|cbn; split_and!; [done..|congruence]|by cbn| |by cbn|].
  { cbn; split_and!; [done..|congruence]. }
  intros env x y [= <-] (x' & z & Ex & Ez & [= <-])%eval_arith _ _. cbn [eval getWidth].
  rewrite (Hna env (bool_val (x' =? 0))), (Hnb env (bool_val (z =? 0))).
  2: { apply eval_cmp. by exists z, 0. }
  2: { apply eval_cmp. by exists x', 0. }
  assert (bits 1 x') as Bx by (rewrite <-Wa; by eapply eval_range).
  assert (bits 1 z) as Bz by (rewrite <-Wb; by eapply eval_range).
  destruct (bits_1 _ Bx) as [->| ->], (bits_1 _ Bz) as [->| ->]; done.
Qed.

(** Equality with a constant through an extension. *)
Lemma false_refines l r : wf l → wf r → getWidth l = getWidth r →
  (∀ env x y, eval env l = Some x → eval env r = Some y → x ≠ y) → refines (Cmp KEq l r) (Constant Bool 0).
Proof.
  intros Hl Hr Hw H. apply refines_cmp; [done..|split; [lia|by apply bits_0]|done|].
  intros env x y Ex Ey _ _. cbn. by rewrite (proj2 (Z.eqb_neq _ _) (H env x y Ex Ey)).
Qed.

Lemma ext_eq_builds partialR n w v src (ext : Z → Z) e : eq_ok n partialR →
  wf src → wf e → getWidth e = w → bits w v → getWidth src ≤ w → (esize src < n)%nat →
  (∀ env y, eval env e = Some y → ∃ z, eval env src = Some z ∧ y = ext z) →
  (∀ z, bits (getWidth src) z → bits w (ext z) ∧ wrapu (getWidth src) (ext z) = z) →
  let trunc := ap_zextOrTrunc w (getWidth src) v in
  builds (if same (Constant w v) (Constant w (ext trunc)) then EqExpr_make_rec partialR src (Constant (getWidth src) trunc)
          else Constant_create 0 Bool) (Cmp KEq (Constant w v) e).
Proof.
  intros Hok Hs He Ew Hv Hle Hn Hext Hinv trunc. pose proof (wf_width src Hs) as H0. pose proof (wf_width e He) as He0.
  assert (wf (Constant w v)) by (split; [lia|done]).
  assert (Et : trunc = wrapu (getWidth src) v) by (apply ap_zext_spec; [lia|lia|done]).
  assert (Bt : bits (getWidth src) trunc) by (rewrite Et; apply bits_wrapu; lia).
  destruct (same _ _) eqn:Es.
  - apply same_sound in Es. injection Es as Es.
    eapply builds_weaken; [eapply EqExpr_rec_builds with (n := n); [done|done|by split|done| |auto]|].
    { intros Hc. by destruct src. }
    apply refines_cmp; [done|done|done|by cbn|done|].
    intros env x y [= <-] Ey _ _. destruct (Hext env y Ey) as (z & Ez & ->).
    assert (Bz : bits (getWidth src) z) by (by eapply eval_range). cbn. rewrite Ez. cbn. do 2 f_equal.
    apply eq_true_iff_eq. rewrite !Z.eqb_eq. rewrite Es at 1. split; [intros ->; done|].
    intros E. apply (f_equal (wrapu (getWidth src))) in E.
    rewrite (proj2 (Hinv _ Bt)), (proj2 (Hinv _ Bz)) in E. done.
  - eexists. split; [by apply Constant_create_0|]. apply false_refines; [done|done|done|].
    intros env x y [= <-] Ey Exy. destruct (Hext env y Ey) as (z & Ez & ->).
    assert (Bz : bits (getWidth src) z) by (by eapply eval_range).
    assert (trunc = z) as Etz by (rewrite Et, Exy; apply Hinv, Bz).
    rewrite Etz, <-Exy, same_constant in Es. done.
Qed.

Lemma eq_add_builds partialR n w v k b : eq_ok n partialR → wf (Arith KAdd (Constant w k) b) → bits w v →
  (esize b < n)%nat →
  builds (c_assert (w =? w);; partialR w (ap_arith KSub w v k) b) (Cmp KEq (Constant w v) (Arith KAdd (Constant w k) b)).
Proof.
  intros Hok Hwf Hv Hn. pose proof Hwf as ((H0 & Hk) & Hb & Hw). cbn in Hw.
  apply builds_assert; [apply Z.eqb_refl|].
  rewrite (ap_arith_spec KSub w v k (wrapu w (v - k))) by (done || lia).
  eapply builds_weaken; [apply Hok; [done|done|apply bits_wrapu; lia|done]|].
  apply refines_cmp; [done|done|done|split; [split; [done|apply bits_wrapu; lia]|done]|done|].
  intros env x y [= <-] (k' & z & [= <-] & Ez & [= <-])%eval_arith _ _. cbn. rewrite Ez. cbn.
  rewrite eq_add_const; [done|lia|done|]. rewrite Hw. by eapply eval_range.
Qed.
Lemma eq_sub_builds partialR n w v k b : eq_ok n partialR → wf (Arith KSub (Constant w k) b) → bits w v →
  (esize b < n)%nat →
  builds (c_assert (w =? w);; partialR w (ap_arith KSub w k v) b) (Cmp KEq (Constant w v) (Arith KSub (Constant w k) b)).
Proof.
  intros Hok Hwf Hv Hn. pose proof Hwf as ((H0 & Hk) & Hb & Hw). cbn in Hw.
  apply builds_assert; [apply Z.eqb_refl|].
  rewrite (ap_arith_spec KSub w k v (wrapu w (k - v))) by (done || lia).
  eapply builds_weaken; [apply Hok; [done|done|apply bits_wrapu; lia|done]|].
  apply refines_cmp; [done|done|done|split; [split; [done|apply bits_wrapu; lia]|done]|done|].
  intros env x y [= <-] (k' & z & [= <-] & Ez & [= <-])%eval_arith _ _. cbn. rewrite Ez. cbn.
  rewrite eq_sub_const; [done|lia|done|]. rewrite Hw. by eapply eval_range.
Qed.

(** The boolean half of [EqExpr_createPartialR]. *)
Lemma eq_false_builds partialR n r : eq_ok n partialR → wf r → getWidth r = Bool → (esize r ≤ n)%nat →
  builds (match r with
          | Cmp KEq (Constant w' v') A =>
            if w' =? Bool then f ← isFalse w' v'; if (f : bool) then mret A else EqExpr_create (Constant Bool 0) r
            else EqExpr_create (Constant Bool 0) r
          | Arith KOr a b => x ← createIsZero_rec partialR a; y ← createIsZero_rec partialR b; AndExpr_make x y
          | _ => EqExpr_create (Constant Bool 0) r
          end) (Cmp KEq (Constant Bool 0) r).
Proof.
  intros Hok Hr Hw Hn.
  assert (Ho : builds (EqExpr_create (Constant Bool 0) r) (Cmp KEq (Constant Bool 0) r))
    by (apply EqExpr_create_builds; [split; [lia|by apply bits_0]|done|done]).
  destruct r as [| | | | | | | | |k l r|k l r]; try exact Ho.
  - destruct k; try exact Ho. cbn in Hw, Hr, Hn. destruct Hr as (Hl & Hr & Hwr).
    eapply builds_bind; [eapply createIsZero_rec_builds with (n := n); [done|done|lia|lia]|]. intros x Hx.
    eapply builds_bind; [eapply createIsZero_rec_builds with (n := n); [done|done|lia|lia]|]. intros y Hy.
    pose proof Hx as (Wx & Ex & _). pose proof Hy as (Wy & Ey & _). cbn in Ex, Ey.
    eapply builds_weaken; [apply AndExpr_builds; [done|done|congruence|lia]|].
    eapply not_or_refines; done || congruence.
  - destruct k; try exact Ho. destruct l; try exact Ho.
    destruct (Z.eqb_spec width Bool) as [->|]; [|exact Ho].
    eapply builds_test; [reflexivity|]. destruct (Z.eqb_spec value 0) as [->|]; [|exact Ho].
    apply builds_ret. by apply double_negation.
Qed.

Lemma trunc_bits src w v : wf src → 0 < w → bits w v → bits (getWidth src) (ap_zextOrTrunc w (getWidth src) v).
Proof. intros Hs Hw Hv. pose proof (wf_width src Hs). rewrite ap_zext_spec by (done || lia). apply bits_wrapu. lia. Qed.

Lemma EqExpr_partialR_ok fuel : eq_ok fuel (EqExpr_createPartialR CAO fuel).
Proof.
  induction fuel as [|fuel IH]; intros w v r Hr Hw Hv Hn; [lia|]. cbn [EqExpr_createPartialR].
  pose proof (wf_width r Hr) as H0.
  assert (Hc : wf (Constant w v)) by (split; [lia|done]).
  assert (Ho : builds (EqExpr_create (Constant w v) r) (Cmp KEq (Constant w v) r)) by (by apply EqExpr_create_builds).
  destruct (Z.eqb_spec w Bool) as [->|Hb].
  - eapply builds_test; [by apply isTrue_done|].
    destruct (bits_1 v Hv) as [->| ->]; cbn [Z.eqb Pos.eqb].
    + by apply (eq_false_builds _ fuel); [| | |lia].
    + by apply builds_ret, eq_true_refines.
  - destruct r as [| |root ul index| | | |src w'|src w'| |k l r|]; try exact Ho; cbn in Hw, Hn, H0.
    + destruct CAO; [|exact Ho]. apply (TryConstArrayOpt_builds fuel); [done|done|done|done|lia].
    + subst w'. destruct Hr as [Hs Hle]. unfold const_zext.
      rewrite (ap_zext_spec (getWidth src) w) by (first [by apply wf_width|lia|apply trunc_bits; [done|lia|done]]).
      eapply (ext_eq_builds _ fuel w v src (wrapu w)); [done|done|by split|done|done|lia|lia|..].
      * intros env y Ey. cbn in Ey. simplify_option_eq. eauto.
      * intros z Hz. split; [apply bits_wrapu; lia|]. apply zext_trunc; [|done]. pose proof (wf_width src Hs). lia.
    + subst w'. destruct Hr as [Hs Hle]. unfold const_sext.
      rewrite (ap_sext_spec (getWidth src) w) by (first [by apply wf_width|lia|apply trunc_bits; [done|lia|done]]).
      eapply (ext_eq_builds _ fuel w v src (λ z, wrapu w (wraps (getWidth src) z))); [done|done|by split|done|done|lia|lia|..].
      * intros env y Ey. cbn in Ey. simplify_option_eq. eauto.
      * intros z Hz. split; [apply bits_wrapu; lia|]. apply sext_trunc; [|done]. pose proof (wf_width src Hs). lia.
    + destruct k; try exact Ho; destruct l; try exact Ho; cbn in Hw; subst width.
      * apply (eq_add_builds _ fuel); [done|done|done|lia].
      * apply (eq_sub_builds _ fuel); [done|done|done|lia].
Qed.

Lemma EqExpr_builds l r : wf l → wf r → getWidth l = getWidth r → builds (EqExpr_make CAO l r) (Cmp KEq l r).
Proof.
  intros Hl Hr Hw.
  eapply (EqExpr_rec_builds (S (esize l + esize r))); [|done|done|done|lia..].
  intros w v e He Ew Hv _. apply EqExpr_partialR_ok; [done|done|done|lia].
Qed.
Lemma createIsZero_builds e : wf e → getWidth e ≤ 64 →
  builds (createIsZero CAO e) (Cmp KEq e (Constant (getWidth e) 0)).
Proof.
  intros He H64. eapply (createIsZero_rec_builds (S (esize e))); [|done|done|lia].
  intros w v x Hx Ew Hv _. apply EqExpr_partialR_ok; [done|done|done|lia].
Qed.

(** ** Xor, Mul *)
Lemma XorExpr_partialR w v r : wf r → getWidth r = w → w ≤ 64 → bits w v →
  builds (XorExpr_createPartialR CAO w v r) (Arith KXor (Constant w v) r).
Proof.
  intros Hr <- H64 Hv. pose proof (wf_width r Hr) as H0. unfold XorExpr_createPartialR.
  assert (wf (Constant (getWidth r) v)) by (by split).
  eapply builds_test; [unfold isZero, getZExtValue; rewrite (proj2 (Z.leb_le _ _)) by lia; reflexivity|].
  destruct (Z.eqb_spec v 0) as [->|Hv0].
  { apply builds_ret, refines_arith; [done..|]. intros env x y z [= <-] Ey _ _ [= <-]. by rewrite Z.lxor_0_l. }
  destruct (Z.eqb_spec (getWidth r) Bool) as [Hw|]; [|by apply builds_ret, refines_refl].
  eapply builds_test; [by apply Constant_create_0|].
  eapply builds_weaken; [apply EqExpr_partialR_ok; [done|done|by apply bits_0|lia]|].
  rewrite Hw in *. destruct (bits_1 v Hv) as [->| ->]; [done|].
  apply refines_arith; [done|done|by cbn|cbn; split_and!; [lia|lia|by apply bits_0|done|by rewrite Hw]|by cbn|].
  cbn. intros env x y z [= <-] Ey _ Hy [= <-]. rewrite Ey. cbn. by destruct (bits_1 y Hy) as [->| ->].
Qed.

Lemma XorExpr_builds l r : wf l → wf r → getWidth l = getWidth r → getWidth l ≤ 64 →
  builds (XorExpr_make CAO l r) (Arith KXor l r).
Proof.
  intros Hl Hr Hw H64. apply bcreate_r_builds; [done|..].
  - intros w a b -> ->. apply const_arith_builds; by destruct Hl, Hr.
  - intros w a -> _. apply XorExpr_partialR; [done|done|done|by destruct Hl].
  - intros w b -> _. cbn in Hw. eapply builds_weaken; [apply XorExpr_partialR; [done|done|lia|by destruct Hr]|].
    by apply refines_comm.
  - intros _ _. by apply builds_ret, refines_refl.
Qed.

(** An operation on single bits that agrees with another. *)
Lemma refines_bool k k' l r : wf l → wf r → getWidth l = Bool → getWidth r = Bool →
  (∀ x y, bits 1 x → bits 1 y → arith k 1 x y = arith k' 1 x y) → refines (Arith k l r) (Arith k' l r).
Proof.
  intros Hl Hr Wl Wr H. apply refines_arith; [done|done|congruence|cbn; split_and!; [done|done|congruence]|done|].
  rewrite Wl. intros env x y v Ex Ey Hx Hy Ev. cbn. rewrite Ex, Ey. cbn. rewrite Wl, <-Ev. symmetry. auto.
Qed.
Lemma add_bool x y : bits 1 x → bits 1 y → arith KAdd 1 x y = arith KXor 1 x y.
Proof. intros [->| ->]%bits_1 [->| ->]%bits_1; done. Qed.
Lemma sub_bool x y : bits 1 x → bits 1 y → arith KSub 1 x y = arith KXor 1 x y.
Proof. intros [->| ->]%bits_1 [->| ->]%bits_1; done. Qed.
Lemma mul_bool x y : bits 1 x → bits 1 y → arith KMul 1 x y = arith KAnd 1 x y.
Proof. intros [->| ->]%bits_1 [->| ->]%bits_1; done. Qed.

Lemma MulExpr_partialR w v r : wf r → getWidth r = w → w ≤ 64 → bits w v →
  builds (MulExpr_createPartialR w v r) (Arith KMul (Constant w v) r).
Proof.
  intros Hr <- H64 Hv. pose proof (wf_width r Hr) as H0. unfold MulExpr_createPartialR.
  assert (wf (Constant (getWidth r) v)) by (by split).
  destruct (Z.eqb_spec (getWidth r) Bool) as [Hw|].
  { eapply builds_weaken; [by apply AndExpr_partial|].
    eapply refines_trans; [by apply refines_comm|]. apply refines_bool; [done|done|done|done|apply mul_bool]. }
  eapply builds_test; [unfold isOne, getZExtValue; rewrite (proj2 (Z.leb_le _ _)) by lia; reflexivity|].
  destruct (Z.eqb_spec v 1) as [->|].
  { apply builds_ret, refines_arith; [done..|]. intros env x y z [= <-] Ey _ Hy [= <-].
    by rewrite Z.mul_1_l, wrapu_small. }
  eapply builds_test; [unfold isZero, getZExtValue; rewrite (proj2 (Z.leb_le _ _)) by lia; reflexivity|].
  destruct (Z.eqb_spec v 0) as [->|]; [|by apply builds_ret, refines_refl].
  apply builds_ret, refines_arith; [done..|]. intros env x y z [= <-] Ey _ Hy [= <-]. by rewrite Z.mul_0_l, wrapu_small.
Qed.

Lemma MulExpr_builds l r : wf l → wf r → getWidth l = getWidth r → getWidth l ≤ 64 →
  builds (MulExpr_make l r) (Arith KMul l r).
Proof.
  intros Hl Hr Hw H64. apply bcreate_r_builds; [done|..].
  - intros w a b -> ->. apply const_arith_builds; by destruct Hl, Hr.
  - intros w a -> _. apply MulExpr_partialR; [done|done|done|by destruct Hl].
  - intros w b -> _. cbn in Hw. eapply builds_weaken; [apply MulExpr_partialR; [done|done|lia|by destruct Hr]|].
    by apply refines_comm.
  - intros _ _. apply builds_ret. destruct (Z.eqb_spec (getWidth l) Bool); [|by apply refines_refl].
    apply refines_bool; [done|done|done|congruence|apply mul_bool].
Qed.
End Spec.
