(* ===== verification/ExprSums.v ===== *)
(** * The factories of sums and differences

    [AddExpr] and [SubExpr] of src/klee/lib/Expr/Expr.cpp move constants to the left and
    regroup; the fuel of the model is enough because every call is on fewer nodes. *)
From S2P Require Import Prelude Expr ExprCreate ExprRefine.

Section SumSpec.
Context `{HA : !APInt, HC : !ExprCompare} (CAO : bool).

(** ** Sums

    The rewrites regroup sums and differences; all of them are identities of integer
    sums, and the wrapping can be done at the end. *)
Lemma wrapu_add_l w a b : wrapu w (wrapu w a + b) = wrapu w (a + b).
Proof. apply Zplus_mod_idemp_l. Qed.
Lemma wrapu_add_r w a b : wrapu w (a + wrapu w b) = wrapu w (a + b).
Proof. apply Zplus_mod_idemp_r. Qed.
Lemma wrapu_sub_l w a b : wrapu w (wrapu w a - b) = wrapu w (a - b).
Proof. apply Zminus_mod_idemp_l. Qed.
Lemma wrapu_sub_r w a b : wrapu w (a - wrapu w b) = wrapu w (a - b).
Proof. apply Zminus_mod_idemp_r. Qed.

(** A sum: a leaf, or a sum or difference of sums. *)
Inductive sum : Type := Leaf (e : Expr) | Plus (a b : sum) | Minus (a b : sum).
Fixpoint sum_expr (s : sum) : Expr :=
  match s with
  | Leaf e => e
  | Plus a b => Arith KAdd (sum_expr a) (sum_expr b)
  | Minus a b => Arith KSub (sum_expr a) (sum_expr b)
  end.
Fixpoint leaves (s : sum) : list Expr :=
  match s with Leaf e => [e] | Plus a b | Minus a b => leaves a ++ leaves b end.
Fixpoint sum_val (f : Expr → Z) (s : sum) : Z :=
  match s with
  | Leaf e => f e
  | Plus a b => sum_val f a + sum_val f b
  | Minus a b => sum_val f a - sum_val f b
  end.

Lemma sum_wf w s : Forall (λ e, wf e ∧ getWidth e = w) (leaves s) → wf (sum_expr s) ∧ getWidth (sum_expr s) = w.
Proof.
  induction s; cbn; [by intros (H & _)%Forall_cons|..]; intros [H1 H2]%Forall_app;
    destruct (IHs1 H1), (IHs2 H2); split; [|done| |done]; split_and!; congruence || done.
Qed.

Lemma sum_eval env w s : Forall (λ e, wf e ∧ getWidth e = w) (leaves s) → 0 < w →
  (∀ v, eval env (sum_expr s) = Some v →
     (∀ e, e ∈ leaves s → is_Some (eval env e)) ∧ v = wrapu w (sum_val (λ e, default 0 (eval env e)) s)) ∧
  ((∀ e, e ∈ leaves s → is_Some (eval env e)) →
     eval env (sum_expr s) = Some (wrapu w (sum_val (λ e, default 0 (eval env e)) s))).
Proof.
  intros H Hw. induction s as [e|a IHa b IHb|a IHa b IHb]; cbn in *.
  - apply Forall_cons in H as [[He Ew] _]. split.
    + intros v Ev. split; [intros e' ->%list_elem_of_singleton; by eexists|]. rewrite Ev. cbn.
      rewrite wrapu_small; [done|]. rewrite <-Ew. by eapply eval_range.
    + intros Hs. destruct (Hs e) as [v Ev]; [by left|]. rewrite Ev. cbn. f_equal. rewrite wrapu_small; [done|].
      rewrite <-Ew. by eapply eval_range.
  - apply Forall_app in H as [Ha Hb]. destruct (sum_wf w a Ha) as [Wa Ea]. rewrite Ea.
    destruct (IHa Ha) as [A1 A2], (IHb Hb) as [B1 B2]. split.
    + intros v Ev. destruct (eval env (sum_expr a)) as [x|]; [|done]. destruct (eval env (sum_expr b)) as [y|]; [|done].
      cbn in Ev. simplify_eq. destruct (A1 x eq_refl) as [HA1 ->], (B1 y eq_refl) as [HB1 ->].
      rewrite wrapu_add_l, wrapu_add_r. split; [|done]. set_solver.
    + intros Hs. rewrite A2, B2 by set_solver. cbn. by rewrite wrapu_add_l, wrapu_add_r.
  - apply Forall_app in H as [Ha Hb]. destruct (sum_wf w a Ha) as [Wa Ea]. rewrite Ea.
    destruct (IHa Ha) as [A1 A2], (IHb Hb) as [B1 B2]. split.
    + intros v Ev. destruct (eval env (sum_expr a)) as [x|]; [|done]. destruct (eval env (sum_expr b)) as [y|]; [|done].
      cbn in Ev. simplify_eq. destruct (A1 x eq_refl) as [HA1 ->], (B1 y eq_refl) as [HB1 ->].
      rewrite wrapu_sub_l, wrapu_sub_r. split; [|done]. set_solver.
    + intros Hs. rewrite A2, B2 by set_solver. cbn. by rewrite wrapu_sub_l, wrapu_sub_r.
Qed.

(** Two sums of the same leaves with the same integer value. *)
Lemma sum_refines w s t : Forall (λ e, wf e ∧ getWidth e = w) (leaves s) → leaves t ⊆ leaves s → 0 < w →
  (∀ f, sum_val f s = sum_val f t) → refines (sum_expr s) (sum_expr t).
Proof.
  intros Hs Ht Hw Hval.
  assert (Hlt : Forall (λ e, wf e ∧ getWidth e = w) (leaves t)).
  { rewrite Forall_forall in *. auto. }
  destruct (sum_wf w s Hs) as [Ws Es], (sum_wf w t Hlt) as [Wt Et].
  split; [done|]. split; [congruence|]. intros env v Ev.
  destruct (proj1 (sum_eval env w s Hs Hw) v Ev) as [Hd ->]. rewrite Hval.
  apply (sum_eval env w t Hlt Hw). auto.
Qed.

(** [builds] with a bound on the size of the result. *)
Definition sum_builds (m : res Expr) (e0 : Expr) (n : nat) : Prop :=
  ∃ e, m tt = Done e tt ∧ refines e0 e ∧ (esize e ≤ n)%nat.

Lemma sum_builds_ret e0 e n : refines e0 e → (esize e ≤ n)%nat → sum_builds (mret e) e0 n.
Proof. intros. by exists e. Qed.
Lemma sum_builds_weaken m e1 n1 e0 n : sum_builds m e1 n1 → refines e0 e1 → (n1 ≤ n)%nat → sum_builds m e0 n.
Proof. intros (e & E & H & Hn) H' Hle. exists e. split; [done|]. split; [by eapply refines_trans|lia]. Qed.
Lemma sum_builds_bind m k e1 n1 e0 n : sum_builds m e1 n1 →
  (∀ e, refines e1 e → (esize e ≤ n1)%nat → sum_builds (k e) e0 n) → sum_builds (m ≫= k) e0 n.
Proof.
  intros (e & E & H & Hn) Hk. destruct (Hk e H Hn) as (e' & E' & H'). exists e'. by rewrite (bind_done _ _ _ _ _ E).
Qed.
Lemma sum_builds_test {A} (b : A) m k e0 n : m tt = Done b tt → sum_builds (k b) e0 n → sum_builds (m ≫= k) e0 n.
Proof. intros E (e & E' & H). exists e. by rewrite (bind_done _ _ _ _ _ E). Qed.
Lemma sum_builds_builds m e0 n : sum_builds m e0 n → builds m e0.
Proof. intros (e & E & H & _). by exists e. Qed.

Lemma const_sum_spec r b B c : const_sum r = Some (b, B, c) →
  ∃ w k, B = Constant w k ∧ r = Arith (if b then KSub else KAdd) (Constant w k) c ∧ esize r = S (S (esize c)).
Proof.
  destruct r as [| | | | | | | | |[] l r|]; cbn; try done; destruct l; try done; intros; simplify_eq; eauto.
Qed.

(** The fuel of a sum: with a constant operand only the other one counts. *)
Definition need (l r : Expr) : nat :=
  2 * (if isa_Constant l then esize r else if isa_Constant r then esize l else esize l + esize r) + 2.

Lemma esize_pos e : (1 ≤ esize e)%nat.
Proof. destruct e; cbn; lia. Qed.

Lemma need_le l r : (need l r ≤ 2 * (esize l + esize r) + 2)%nat.
Proof. unfold need. pose proof (esize_pos l). pose proof (esize_pos r). repeat case_match; lia. Qed.
Lemma need_const_l w v r : need (Constant w v) r = (2 * esize r + 2)%nat.
Proof. done. Qed.
Lemma need_const_r l w v : (need l (Constant w v) ≤ 2 * esize l + 2)%nat.
Proof. unfold need. cbn. pose proof (esize_pos l). case_match; lia. Qed.

(** What holds of the six functions with a given fuel, for widths from 2 to 64. *)
Section Sums.
Context (w : Z) (Hw : 2 ≤ w ≤ 64).
Definition summand (e : Expr) : Prop := wf e ∧ getWidth e = w.

Definition sums_ok (fuel : nat) : Prop :=
  (∀ v r, bits w v → summand r → (2 * esize r + 1 ≤ fuel)%nat →
     sum_builds (AddExpr_createPartialR CAO fuel w v r) (Arith KAdd (Constant w v) r) (2 + esize r)) ∧
  (∀ v r, bits w v → summand r → (2 * esize r + 1 ≤ fuel)%nat →
     sum_builds (SubExpr_createPartialR CAO fuel w v r) (Arith KSub (Constant w v) r) (2 + esize r)) ∧
  (∀ l r, summand l → summand r → (2 * (esize l + esize r) + 1 ≤ fuel)%nat →
     sum_builds (AddExpr_create CAO fuel l r) (Arith KAdd l r) (1 + esize l + esize r)) ∧
  (∀ l r, summand l → summand r → (2 * (esize l + esize r) + 1 ≤ fuel)%nat →
     sum_builds (SubExpr_create CAO fuel l r) (Arith KSub l r) (1 + esize l + esize r)) ∧
  (∀ l r, summand l → summand r → (need l r ≤ fuel)%nat →
     sum_builds (AddExpr_make_rec CAO fuel l r) (Arith KAdd l r) (1 + esize l + esize r)) ∧
  (∀ l r, summand l → summand r → (need l r ≤ fuel)%nat →
     sum_builds (SubExpr_make_rec CAO fuel l r) (Arith KSub l r) (1 + esize l + esize r)).

Lemma summand_const v : bits w v → summand (Constant w v).
Proof. intros. split; [split; [lia|done]|done]. Qed.
Lemma summand_refines e0 e : refines e0 e → getWidth e0 = w → summand e.
Proof. intros (H & E & _) E0. split; [done|congruence]. Qed.

(** The leaves of a constant sum. *)
Lemma summand_sum b k c : summand (Arith (if b : bool then KSub else KAdd) k c) → summand k ∧ summand c.
Proof. intros [(Hk & Hc & E) E']. cbn in E'. repeat split; congruence || done. Qed.

(** A regrouping of a sum, with one part replaced by what was built for it. *)
Lemma regroup s t : Forall summand (leaves s) → leaves t ⊆ leaves s →
  (∀ f, sum_val f s = sum_val f t) → refines (sum_expr s) (sum_expr t).
Proof. intros. apply (sum_refines w); [done..|lia|done]. Qed.

Lemma outer_l (sub : bool) fuel k e1 X n1 e0 n : sums_ok fuel → bits w k → summand e1 → refines e1 X → (esize X ≤ n1)%nat →
  (2 * n1 + 2 ≤ fuel)%nat → (2 + n1 ≤ n)%nat →
  refines e0 (Arith (if sub then KSub else KAdd) (Constant w k) e1) →
  sum_builds (if sub then SubExpr_make_rec CAO fuel (Constant w k) X else AddExpr_make_rec CAO fuel (Constant w k) X) e0 n.
Proof.
  intros (_ & _ & _ & _ & HAdd & HSub) Hk [W1 E1] HX Hn Hf Hle H0. pose proof (summand_refines _ _ HX E1) as SX.
  pose proof (summand_const k Hk) as Sk.
  assert (HR : refines e0 (Arith (if sub then KSub else KAdd) (Constant w k) X)).
  { eapply refines_trans; [exact H0|]. apply refines_arith_mono; [by apply refines_refl, Sk|done|by rewrite E1]. }
  destruct sub; (eapply sum_builds_weaken; [(apply HSub || apply HAdd); [done|done|rewrite need_const_l; lia]|exact HR|cbn; lia]).
Qed.
Lemma outer_r fuel k e1 X n1 e0 n : sums_ok fuel → bits w k → summand e1 → refines e1 X → (esize X ≤ n1)%nat →
  (2 * n1 + 2 ≤ fuel)%nat → (2 + n1 ≤ n)%nat → refines e0 (Arith KSub e1 (Constant w k)) →
  sum_builds (SubExpr_make_rec CAO fuel X (Constant w k)) e0 n.
Proof.
  intros (_ & _ & _ & _ & _ & HSub) Hk [W1 E1] HX Hn Hf Hle H0. pose proof (summand_refines _ _ HX E1) as SX.
  pose proof (summand_const k Hk) as Sk. pose proof (need_const_r X w k).
  eapply sum_builds_weaken; [apply HSub; [done|done|lia]| |cbn; lia].
  eapply refines_trans; [exact H0|]. apply refines_arith_mono; [done|by apply refines_refl, Sk|by rewrite E1].
Qed.

Lemma summand_arith k a b : summand a → summand b → summand (Arith k a b).
Proof. intros [Ha Ea] [Hb Eb]. split; [cbn; split_and!; congruence || done|done]. Qed.

(** A constant and a sum that starts with a constant: the constants are combined
    first. *)
Lemma const_const fuel (sub : bool) v k : sums_ok fuel → bits w v → bits w k → (4 ≤ fuel)%nat →
  ∃ x, (if sub then SubExpr_make_rec CAO fuel (Constant w v) (Constant w k)
        else AddExpr_make_rec CAO fuel (Constant w v) (Constant w k)) tt = Done (Constant w x) tt ∧ bits w x ∧
    x = wrapu w (if sub then v - k else v + k).
Proof.
  intros _ Hv Hk Hf. destruct fuel as [|fuel]; [lia|].
  assert (0 < w) by lia. exists (wrapu w (if sub then v - k else v + k)).
  destruct sub; cbn [SubExpr_make_rec AddExpr_make_rec]; unfold bcreate_r, const_arith; cbn [getWidth is_division andb negb];
    rewrite Z.eqb_refl; (split; [|split; [apply bits_wrapu; lia|done]]); cbv [c_assert mbind M_bind mret M_ret].
  - by rewrite (ap_arith_spec KSub w v k (wrapu w (v - k))).
  - by rewrite (ap_arith_spec KAdd w v k (wrapu w (v + k))).
Qed.

(** [v op (k op' c)], where the constants have been combined to [x]. *)
Lemma combine_const (sub sub' : bool) v k c : bits w v → bits w k → summand c →
  refines (Arith (if sub then KSub else KAdd) (Constant w v) (Arith (if sub' then KSub else KAdd) (Constant w k) c))
    (Arith (if xorb sub sub' then KSub else KAdd) (Constant w (wrapu w (if sub then v - k else v + k))) c).
Proof.
  intros Hv Hk [Hc Ec]. assert (0 < w) by lia.
  apply refines_arith; [by apply summand_const| | | |done|].
  - by destruct (summand_arith (if sub' then KSub else KAdd) _ _ (summand_const k Hk) (conj Hc Ec)).
  - by cbn.
  - cbn. split_and!; [lia|lia|apply bits_wrapu; lia|done|done].
  - cbn [getWidth]. intros env x y z [= <-] (k' & c' & [= <-] & Ec' & Ey)%eval_arith _ _ Ev. cbn. rewrite Ec'. cbn.
    rewrite <-Ev. destruct sub, sub'; cbn in *; simplify_eq; f_equal;
      rewrite ?wrapu_add_l, ?wrapu_add_r, ?wrapu_sub_l, ?wrapu_sub_r; f_equal; lia.
Qed.

Lemma isZero_done v : isZero w v tt = Done (v =? 0) tt.
Proof. unfold isZero, getZExtValue. by rewrite (proj2 (Z.leb_le _ _)) by lia. Qed.
Lemma not_Bool : (w =? Bool) = false.
Proof. apply Z.eqb_neq. lia. Qed.

Lemma add_const_step fuel v r : sums_ok fuel → bits w v → summand r → (2 * esize r + 1 ≤ S fuel)%nat →
  sum_builds (AddExpr_createPartialR CAO (S fuel) w v r) (Arith KAdd (Constant w v) r) (2 + esize r).
Proof.
  intros IH Hv Hr Hf. pose proof Hr as [Wr Er]. cbn [AddExpr_createPartialR]. rewrite not_Bool.
  eapply sum_builds_test; [apply isZero_done|]. pose proof (summand_const v Hv) as [Wv _].
  destruct (Z.eqb_spec v 0) as [->|].
  { apply sum_builds_ret; [|lia]. apply refines_arith; [done|done|done|done|by rewrite Er|]. cbn [getWidth].
    intros env x y z [= <-] Ey _ Hy [= <-]. rewrite Z.add_0_l, wrapu_small; done. }
  destruct (const_sum r) as [[[b B] c]|] eqn:Ec.
  2: { apply sum_builds_ret; [|cbn; lia]. by apply refines_refl, summand_arith; [apply summand_const|]. }
  destruct (const_sum_spec _ _ _ _ Ec) as (w' & k & -> & -> & Es).
  destruct (summand_sum _ _ _ Hr) as [[[Hw0 Hk] Ek] Sc]. cbn in Ek. subst w'.
  destruct (const_const fuel false v k IH Hv Hk) as (x & Ex & Hx & ->); [lia|].
  destruct b; (eapply sum_builds_test; [exact Ex|]).
  - by apply (outer_l true fuel _ c c (esize c) _ _ IH Hx Sc); [apply refines_refl, Sc| |lia|lia|apply (combine_const false true)].
  - by apply (outer_l false fuel _ c c (esize c) _ _ IH Hx Sc); [apply refines_refl, Sc| |lia|lia|apply (combine_const false false)].
Qed.

Lemma sub_const_step fuel v r : sums_ok fuel → bits w v → summand r → (2 * esize r + 1 ≤ S fuel)%nat →
  sum_builds (SubExpr_createPartialR CAO (S fuel) w v r) (Arith KSub (Constant w v) r) (2 + esize r).
Proof.
  intros IH Hv Hr Hf. cbn [SubExpr_createPartialR]. rewrite not_Bool. pose proof (summand_const v Hv) as Sv.
  destruct (const_sum r) as [[[b B] c]|] eqn:Ec.
  2: { apply sum_builds_ret; [|cbn; lia]. by apply refines_refl, summand_arith. }
  destruct (const_sum_spec _ _ _ _ Ec) as (w' & k & -> & -> & Es).
  destruct (summand_sum _ _ _ Hr) as [[[Hw0 Hk] Ek] Sc]. cbn in Ek. subst w'.
  destruct (const_const fuel true v k IH Hv Hk) as (x & Ex & Hx & ->); [lia|].
  destruct b; (eapply sum_builds_test; [exact Ex|]).
  - by apply (outer_l false fuel _ c c (esize c) _ _ IH Hx Sc); [apply refines_refl, Sc| |lia|lia|apply (combine_const true true)].
  - by apply (outer_l true fuel _ c c (esize c) _ _ IH Hx Sc); [apply refines_refl, Sc| |lia|lia|apply (combine_const true false)].
Qed.

(** The regroupings of [AddExpr_create] and [SubExpr_create]. *)
Ltac regroup s t :=
  apply (regroup s t); [cbn [leaves app]; repeat (constructor; [done|]); constructor|cbn; set_solver|cbn; intros; lia].

Lemma add_step fuel l r : sums_ok fuel → summand l → summand r → (2 * (esize l + esize r) + 1 ≤ S fuel)%nat →
  sum_builds (AddExpr_create CAO (S fuel) l r) (Arith KAdd l r) (1 + esize l + esize r).
Proof.
  intros IH Hl Hr Hf. cbn [AddExpr_create]. rewrite (proj2 Hl), not_Bool.
  pose proof IH as (_ & _ & _ & _ & HAdd & HSub).
  destruct (const_sum l) as [[[b B] a]|] eqn:Ec.
  - destruct (const_sum_spec _ _ _ _ Ec) as (w' & k & -> & -> & Es).
    destruct (summand_sum _ _ _ Hl) as [Sk Sa]. pose proof Sk as [[Hw0 Hk] Ek]. cbn in Ek. subst w'.
    destruct b; (eapply sum_builds_bind; [(apply HSub || apply HAdd); [done|done|]|]).
    + pose proof (need_le r a). lia.
    + intros X HX Hn. apply (outer_l false fuel k _ X _ _ _ IH Hk (summand_arith KSub _ _ Hr Sa) HX Hn); [lia|lia|].
      regroup (Plus (Minus (Leaf (Constant w k)) (Leaf a)) (Leaf r)) (Plus (Leaf (Constant w k)) (Minus (Leaf r) (Leaf a))).
    + pose proof (need_le a r). lia.
    + intros X HX Hn. apply (outer_l false fuel k _ X _ _ _ IH Hk (summand_arith KAdd _ _ Sa Hr) HX Hn); [lia|lia|].
      regroup (Plus (Plus (Leaf (Constant w k)) (Leaf a)) (Leaf r)) (Plus (Leaf (Constant w k)) (Plus (Leaf a) (Leaf r))).
  - destruct (const_sum r) as [[[b B] c]|] eqn:Ec'.
    2: { apply sum_builds_ret; [|cbn; lia]. by apply refines_refl, summand_arith. }
    destruct (const_sum_spec _ _ _ _ Ec') as (w' & k & -> & -> & Es).
    destruct (summand_sum _ _ _ Hr) as [Sk Sc]. pose proof Sk as [[Hw0 Hk] Ek]. cbn in Ek. subst w'.
    destruct b; (eapply sum_builds_bind; [(apply HSub || apply HAdd); [done|done|pose proof (need_le l c); lia]|]);
      intros X HX Hn.
    + apply (outer_l false fuel k _ X _ _ _ IH Hk (summand_arith KSub _ _ Hl Sc) HX Hn); [lia|lia|].
      regroup (Plus (Leaf l) (Minus (Leaf (Constant w k)) (Leaf c))) (Plus (Leaf (Constant w k)) (Minus (Leaf l) (Leaf c))).
    + apply (outer_l false fuel k _ X _ _ _ IH Hk (summand_arith KAdd _ _ Hl Sc) HX Hn); [lia|lia|].
      regroup (Plus (Leaf l) (Plus (Leaf (Constant w k)) (Leaf c))) (Plus (Leaf (Constant w k)) (Plus (Leaf l) (Leaf c))).
Qed.

Lemma sub_step fuel l r : sums_ok fuel → summand l → summand r → (2 * (esize l + esize r) + 1 ≤ S fuel)%nat →
  sum_builds (SubExpr_create CAO (S fuel) l r) (Arith KSub l r) (1 + esize l + esize r).
Proof.
  intros IH Hl Hr Hf. cbn [SubExpr_create]. rewrite (proj2 Hl), not_Bool.
  pose proof IH as (_ & _ & _ & _ & HAdd & HSub).
  destruct (same l r) eqn:Esame.
  { apply same_sound in Esame as ->. pose proof (esize_pos r). apply sum_builds_ret; [|cbn; lia].
    apply refines_arith; [apply Hl|apply Hl|done|split; [lia|apply bits_wrapu; lia]|symmetry; apply Hl|].
    intros env x y v Ex Ey _ _ [= <-]. simplify_eq. rewrite (proj2 Hl), Z.sub_diag. done. }
  destruct (const_sum l) as [[[b B] a]|] eqn:Ec.
  - destruct (const_sum_spec _ _ _ _ Ec) as (w' & k & -> & -> & Es).
    destruct (summand_sum _ _ _ Hl) as [Sk Sa]. pose proof Sk as [[Hw0 Hk] Ek]. cbn in Ek. subst w'.
    destruct b; (eapply sum_builds_bind; [(apply HSub || apply HAdd); [done|done|pose proof (need_le a r); lia]|]);
      intros X HX Hn.
    + apply (outer_l true fuel k _ X _ _ _ IH Hk (summand_arith KAdd _ _ Sa Hr) HX Hn); [lia|lia|].
      regroup (Minus (Minus (Leaf (Constant w k)) (Leaf a)) (Leaf r)) (Minus (Leaf (Constant w k)) (Plus (Leaf a) (Leaf r))).
    + apply (outer_l false fuel k _ X _ _ _ IH Hk (summand_arith KSub _ _ Sa Hr) HX Hn); [lia|lia|].
      regroup (Minus (Plus (Leaf (Constant w k)) (Leaf a)) (Leaf r)) (Plus (Leaf (Constant w k)) (Minus (Leaf a) (Leaf r))).
  - destruct (const_sum r) as [[[b B] c]|] eqn:Ec'.
    2: { apply sum_builds_ret; [|cbn; lia]. by apply refines_refl, summand_arith. }
    destruct (const_sum_spec _ _ _ _ Ec') as (w' & k & -> & -> & Es).
    destruct (summand_sum _ _ _ Hr) as [Sk Sc]. pose proof Sk as [[Hw0 Hk] Ek]. cbn in Ek. subst w'.
    destruct b; (eapply sum_builds_bind; [(apply HSub || apply HAdd); [done|done|pose proof (need_le l c); lia]|]);
      intros X HX Hn.
    + apply (outer_r fuel k _ X _ _ _ IH Hk (summand_arith KAdd _ _ Hl Sc) HX Hn); [lia|lia|].
      regroup (Minus (Leaf l) (Minus (Leaf (Constant w k)) (Leaf c))) (Minus (Plus (Leaf l) (Leaf c)) (Leaf (Constant w k))).
    + apply (outer_r fuel k _ X _ _ _ IH Hk (summand_arith KSub _ _ Hl Sc) HX Hn); [lia|lia|].
      regroup (Minus (Leaf l) (Plus (Leaf (Constant w k)) (Leaf c))) (Minus (Minus (Leaf l) (Leaf c)) (Leaf (Constant w k))).
Qed.

Lemma const_sum_builds k a b n : (k = KAdd ∨ k = KSub) → bits w a → bits w b → (1 ≤ n)%nat →
  sum_builds (const_arith k w a b) (Arith k (Constant w a) (Constant w b)) n.
Proof.
  intros Hk Ha Hb Hn. destruct (const_arith_builds k w a b) as (e & E & He); [lia|done|done|by destruct Hk as [->| ->]|].
  exists e. split; [done|]. split; [done|]. unfold const_arith in E.
  destruct Hk as [->| ->]; cbv [c_assert is_division negb andb mbind M_bind mret M_ret] in E; by simplify_eq.
Qed.

(** The dispatch of [AddExpr::create] and [SubExpr::create]. *)
Lemma bcreate_r_sum both partialR partialL create l r e0 n : summand l → summand r →
  (∀ a b, l = Constant w a → r = Constant w b → sum_builds (both w a b) e0 n) →
  (∀ a, l = Constant w a → bits w a → sum_builds (partialR w a r) e0 n) →
  (∀ b, r = Constant w b → bits w b → isa_Constant l = false → sum_builds (partialL l w b) e0 n) →
  (isa_Constant l = false → isa_Constant r = false → sum_builds (create l r) e0 n) →
  sum_builds (bcreate_r both partialR partialL create l r) e0 n.
Proof.
  intros [Wl El] [Wr Er] H1 H2 H3 H4. unfold bcreate_r, c_assert. rewrite El, Er, Z.eqb_refl.
  destruct l eqn:?; try (destruct r eqn:?; try (by apply H4); cbn in Er; subst; apply H3; by try apply Wr).
  cbn in El. subst width. destruct r eqn:?; try (apply H2; by try apply Wl). cbn in Er. subst. by apply H1.
Qed.

Lemma add_make_step fuel l r : sums_ok fuel → summand l → summand r → (need l r ≤ S fuel)%nat →
  sum_builds (AddExpr_make_rec CAO (S fuel) l r) (Arith KAdd l r) (1 + esize l + esize r).
Proof.
  intros (HaR & _ & HA1 & _) Hl Hr Hf. cbn [AddExpr_make_rec]. unfold need in Hf. apply bcreate_r_sum; [done|done|..].
  - intros a b -> ->. apply const_sum_builds; [by left|apply Hl|apply Hr|cbn; lia].
  - intros a -> Ha. apply HaR; [done|done|cbn in Hf; lia].
  - intros b -> Hb Hc. rewrite Hc in Hf. cbn in Hf.
    eapply sum_builds_weaken; [apply HaR; [done|done|lia]| |cbn; lia].
    apply refines_comm; [done|apply Hl|apply Hr|rewrite (proj2 Hl); done].
  - intros Hc Hc'. rewrite Hc, Hc' in Hf. apply HA1; [done|done|lia].
Qed.

Lemma sub_make_step fuel l r : sums_ok fuel → summand l → summand r → (need l r ≤ S fuel)%nat →
  sum_builds (SubExpr_make_rec CAO (S fuel) l r) (Arith KSub l r) (1 + esize l + esize r).
Proof.
  intros (HaR & HsR & _ & HS1 & _) Hl Hr Hf. cbn [SubExpr_make_rec]. unfold need in Hf. apply bcreate_r_sum; [done|done|..].
  - intros a b -> ->. apply const_sum_builds; [by right|apply Hl|apply Hr|cbn; lia].
  - intros a -> Ha. apply HsR; [done|done|cbn in Hf; lia].
  - intros b -> Hb Hc. rewrite Hc in Hf. cbn in Hf.
    rewrite (ap_arith_spec KSub w 0 b (wrapu w (0 - b))) by (done || lia || apply bits_0; lia).
    eapply sum_builds_weaken; [apply HaR; [apply bits_wrapu; lia|done|lia]| |cbn; lia].
    apply refines_arith; [apply Hl|apply Hr|by rewrite (proj2 Hl)| |by rewrite (proj2 Hl)|].
    { cbn. split_and!; [lia|lia|apply bits_wrapu; lia|apply Hl|symmetry; apply Hl]. }
    intros env x y v Ex [= <-] _ _ Ev. cbn in *. rewrite Ex. cbn. rewrite <-Ev. f_equal.
    rewrite (proj2 Hl), wrapu_add_l. f_equal. lia.
  - intros Hc Hc'. rewrite Hc, Hc' in Hf. apply HS1; [done|done|lia].
Qed.

Lemma sums_all fuel : sums_ok fuel.
Proof.
  induction fuel as [|fuel IH].
  - split_and!; intros; pose proof (esize_pos r); try lia; unfold need in *; lia.
  - split_and!; auto using add_const_step, sub_const_step, add_step, sub_step, add_make_step, sub_make_step.
Qed.
End Sums.

(** Sums of single bits. *)
Lemma bool_sum_builds k fuel l r : (k = KAdd ∨ k = KSub) → wf l → wf r → getWidth l = Bool → getWidth r = Bool → (2 ≤ fuel)%nat →
  builds ((if bool_decide (k = KAdd) then AddExpr_make_rec CAO fuel else SubExpr_make_rec CAO fuel) l r) (Arith k l r).
Proof.
  intros Hk Hl Hr Wl Wr Hf. destruct fuel as [|[|fuel]]; [lia|lia|].
  assert (HX : refines (Arith k l r) (Arith KXor l r)).
  { apply refines_bool; [done..|]. destruct Hk as [->| ->]; [apply add_bool|apply sub_bool]. }
  assert (HR : ∀ w v e, wf e → getWidth e = w → w = Bool → bits w v → builds (AddExpr_createPartialR CAO (S fuel) w v e) (Arith KXor (Constant w v) e)).
  { intros w v e He Ee Ew Hv. cbn [AddExpr_createPartialR]. rewrite (proj2 (Z.eqb_eq w Bool)) by done.
    apply XorExpr_partialR; [done|done|lia|done]. }
  destruct Hk as [->| ->]; cbn [bool_decide]; rewrite ?bool_decide_eq_true_2, ?bool_decide_eq_false_2 by done;
    cbn [AddExpr_make_rec SubExpr_make_rec]; (apply bcreate_r_builds; [congruence|..]).
  - intros w a b -> ->. apply const_arith_builds; by destruct Hl, Hr.
  - intros w a -> _. eapply builds_weaken; [apply HR; [done|by rewrite Wr, <-Wl|by cbn in Wl|apply Hl]|done].
  - intros w b -> _. eapply builds_weaken; [apply HR; [done|by rewrite Wl, <-Wr|by cbn in Wr|apply Hr]|].
    eapply refines_trans; [exact HX|]. by apply refines_comm; [| | |congruence].
  - intros _ _. cbn [AddExpr_create]. rewrite (proj2 (Z.eqb_eq _ _) Wl). by apply builds_ret.
  - intros w a b -> ->. apply const_arith_builds; by destruct Hl, Hr.
  - intros w a -> _. cbn in Wl. subst w. eapply builds_weaken; [|exact HX]. cbn [SubExpr_createPartialR]. rewrite Z.eqb_refl.
    apply XorExpr_partialR; [done|done|lia|apply Hl].
  - intros w b -> _. cbn in Wr. subst w. destruct Hr as [_ Hb].
    rewrite (ap_arith_spec KSub 1 0 b (wrapu 1 (0 - b))) by (done || lia || by apply bits_0).
    assert (Eb : wrapu 1 (0 - b) = b) by (by destruct (bits_1 b Hb) as [->| ->]). rewrite Eb.
    eapply builds_weaken; [apply HR; [done|done|done|done]|].
    eapply refines_trans; [exact HX|]. by apply refines_comm; [| |split|].
  - intros _ _. cbn [SubExpr_create]. rewrite (proj2 (Z.eqb_eq _ _) Wl). by apply builds_ret.
Qed.

Lemma AddExpr_builds l r : wf l → wf r → getWidth l = getWidth r → getWidth l ≤ 64 →
  builds (AddExpr_make CAO l r) (Arith KAdd l r).
Proof.
  intros Hl Hr Hw H64. pose proof (wf_width l Hl). unfold AddExpr_make, sum_fuel.
  destruct (decide (getWidth l = Bool)) as [Hb|Hb].
  { apply (bool_sum_builds KAdd _ l r); auto; [congruence|lia]. }
  eapply sum_builds_builds, (sums_all (getWidth l) ltac:(lia)); [done|done|apply need_le].
Qed.
Lemma SubExpr_builds l r : wf l → wf r → getWidth l = getWidth r → getWidth l ≤ 64 →
  builds (SubExpr_make CAO l r) (Arith KSub l r).
Proof.
  intros Hl Hr Hw H64. pose proof (wf_width l Hl). unfold SubExpr_make, sum_fuel.
  destruct (decide (getWidth l = Bool)) as [Hb|Hb].
  { apply (bool_sum_builds KSub _ l r); auto; [congruence|lia]. }
  eapply sum_builds_builds, (sums_all (getWidth l) ltac:(lia)); [done|done|apply need_le].
Qed.
End SumSpec.
