(* ===== verification/ExprSpec.v ===== *)
(** * The factories, all kinds

    Division, shifts, comparisons, concatenation and extraction, extension, reads and
    selection: what [builds] says of every factory of src/klee/lib/Expr/Expr.cpp. *)
From S2P Require Import Prelude Expr ExprCreate ExprRefine ExprSums.

Section Spec.
Context `{HA : !APInt, HC : !ExprCompare} (CAO : bool).

(** ** Division and shifts *)
Lemma refines_left k l r : wf l → wf r → getWidth l = Bool → getWidth r = Bool →
  (∀ x y v, bits 1 x → bits 1 y → arith k 1 x y = Some v → v = x) → refines (Arith k l r) l.
Proof.
  intros Hl Hr Wl Wr H. apply refines_arith; [done|done|congruence|done|done|]. rewrite Wl.
  intros env x y v Ex Ey Hx Hy Ev. rewrite Ex. f_equal. symmetry. eauto.
Qed.
Lemma refines_zero k l r : wf l → wf r → getWidth l = Bool → getWidth r = Bool →
  (∀ x y v, bits 1 x → bits 1 y → arith k 1 x y = Some v → v = 0) → refines (Arith k l r) (Constant Bool 0).
Proof.
  intros Hl Hr Wl Wr H. apply refines_arith; [done|done|congruence|split; [lia|by apply bits_0]|done|]. rewrite Wl.
  intros env x y v Ex Ey Hx Hy Ev. cbn. f_equal. symmetry. eauto.
Qed.
Ltac single_bits :=
  intros ??? [->| ->]%bits_1 [->| ->]%bits_1; cbn; intros; simplify_eq; done.

(** The operand and the negation of the other, as a conjunction or disjunction. *)
Lemma and_not_builds k l r : wf l → wf r → getWidth l = Bool → getWidth r = Bool →
  (∀ x y v, bits 1 x → bits 1 y → arith k 1 x y = Some v → v = Z.land x (bool_val (y =? 0))) →
  builds (z ← createIsZero CAO r; AndExpr_make l z) (Arith k l r).
Proof.
  intros Hl Hr Wl Wr H. eapply builds_bind; [apply createIsZero_builds; [done|lia]|].
  intros z (Wz & Ez & Hz). cbn in Ez. eapply builds_weaken; [apply AndExpr_builds; [done|done|congruence|lia]|].
  apply refines_arith; [done|done|congruence|cbn; split_and!; [done|done|congruence]|done|]. rewrite Wl.
  intros env x y v Ex Ey Hx Hy Ev. apply eval_arith. exists x, (bool_val (y =? 0)). split; [done|].
  split; [apply Hz, eval_cmp; by exists y, 0|]. cbn. f_equal. symmetry. eauto.
Qed.

Lemma arith_builds k l r : wf l → wf r → getWidth l = getWidth r → getWidth l ≤ 64 →
  (is_division k = true → ∀ w, r = Constant w 0 → isa_Constant l = false) → builds (arith_make CAO k l r) (Arith k l r).
Proof.
  intros Hl Hr Hw H64 Hd.
  assert (Hboth : is_division k = true ∨ k = KShl ∨ k = KLShr ∨ k = KAShr →
    ∀ w a b, l = Constant w a → r = Constant w b → builds (const_arith k w a b) (Arith k l r)).
  { intros _ w a b -> ->. apply const_arith_builds; [apply Hl|apply Hl|apply Hr|]. intros Hk ->. by specialize (Hd Hk _ eq_refl). }
  assert (Hplain : builds (mret (Arith k l r)) (Arith k l r)) by (by apply builds_ret, refines_refl).
  destruct k; cbn [arith_make]; auto using AddExpr_builds, SubExpr_builds, MulExpr_builds, AndExpr_builds, OrExpr_builds, XorExpr_builds;
    (apply bcreate_builds; [done|by apply Hboth; auto|intros _]);
    unfold UDivExpr_create, SDivExpr_create, URemExpr_create, SRemExpr_create, ShlExpr_create, LShrExpr_create, AShrExpr_create;
    (destruct (Z.eqb_spec (getWidth l) Bool) as [Wl|]; [assert (getWidth r = Bool) as Wr by congruence|exact Hplain]).
  - apply builds_ret, refines_left; [done..|single_bits].
  - apply builds_ret, refines_left; [done..|single_bits].
  - eexists. split; [by apply Constant_create_0|]. apply refines_zero; [done..|single_bits].
  - eexists. split; [by apply Constant_create_0|]. apply refines_zero; [done..|single_bits].
  - apply (and_not_builds KShl); [done..|single_bits].
  - apply (and_not_builds KLShr); [done..|single_bits].
  - apply builds_ret, refines_left; [done..|single_bits].
Qed.

(** ** Comparisons *)
Lemma cmp_arith_builds k (k' : ArithKind) l r (negl : bool) : wf l → wf r → getWidth l = Bool → getWidth r = Bool →
  (k' = KAnd ∨ k' = KOr) →
  (∀ x y, bits 1 x → bits 1 y →
     arith k' 1 (if negl then bool_val (x =? 0) else x) (if negl then y else bool_val (y =? 0)) =
     Some (bool_val (comparison k 1 x y))) →
  builds (z ← createIsZero CAO (if negl then l else r);
          if negl then arith_make CAO k' z r else arith_make CAO k' l z) (Cmp k l r).
Proof.
  intros Hl Hr Wl Wr Hk H.
  assert (Hn : ∀ e, wf e → getWidth e = Bool → ∀ z, refines (Cmp KEq e (Constant (getWidth e) 0)) z →
     wf z ∧ getWidth z = Bool ∧ ∀ env x, eval env e = Some x → eval env z = Some (bool_val (x =? 0))).
  { intros e He We z (Wz & Ez & Hz). split; [done|]. split; [done|]. intros env x Ex. apply Hz, eval_cmp. by exists x, 0. }
  assert (Hd : is_division k' = false) by (by destruct Hk as [->| ->]).
  eapply builds_bind; [apply createIsZero_builds; [by destruct negl|destruct negl; lia]|]. intros z Hz.
  destruct negl.
  - destruct (Hn l Hl Wl z Hz) as (Wz & Ez & Hv).
    eapply builds_weaken; [apply arith_builds; [done|done|congruence|lia|by rewrite Hd]|].
    apply refines_cmp; [done|done|congruence|cbn; split_and!; [done|done|congruence]|done|]. rewrite Wl.
    intros env x y Ex Ey Hx Hy. apply eval_arith. exists (bool_val (x =? 0)), y. rewrite Ez. auto.
  - destruct (Hn r Hr Wr z Hz) as (Wz & Ez & Hv).
    eapply builds_weaken; [apply arith_builds; [done|done|congruence|lia|by rewrite Hd]|].
    apply refines_cmp; [done|done|congruence|cbn; split_and!; [done|done|congruence]|done|]. rewrite Wl.
    intros env x y Ex Ey Hx Hy. apply eval_arith. exists x, (bool_val (y =? 0)). rewrite Wl. auto.
Qed.

Lemma cmp_swap k k' l r : wf l → wf r → getWidth l = getWidth r →
  (∀ w x y, comparison k w x y = comparison k' w y x) → refines (Cmp k l r) (Cmp k' r l).
Proof.
  intros Hl Hr Hw H. apply refines_cmp; [done..|by cbn|done|].
  intros env x y Ex Ey _ _. cbn. rewrite Ex, Ey. cbn. by rewrite H, Hw.
Qed.

(** The four comparisons that are kept as nodes. *)
Lemma basic_cmp_builds k l r : wf l → wf r → getWidth l = getWidth r →
  k = KUlt ∨ k = KUle ∨ k = KSlt ∨ k = KSle → builds (cmp_make CAO k l r) (Cmp k l r).
Proof.
  intros Hl Hr Hw Hk.
  assert (Hboth : ∀ w a b, l = Constant w a → r = Constant w b → builds (cmp_both k w a b) (Cmp k l r)).
  { intros w a b -> ->. apply builds_ret, const_cmp_refines; [apply Hl|apply Hl|apply Hr]. }
  assert (Hplain : builds (mret (Cmp k l r)) (Cmp k l r)) by (by apply builds_ret, refines_refl).
  assert (Hbits : ∀ (P : Z → Z → Prop), P 0 0 → P 0 1 → P 1 0 → P 1 1 → ∀ x y, bits 1 x → bits 1 y → P x y).
  { intros P ???? x y [->| ->]%bits_1 [->| ->]%bits_1; done. }
  destruct Hk as [->|[->|[->| ->]]]; cbn [cmp_make];
    (apply bcreate_builds; [done|done|intros _]);
    unfold UltExpr_create, UleExpr_create, SltExpr_create, SleExpr_create;
    (destruct (Z.eqb_spec (getWidth l) Bool) as [Wl|]; [assert (getWidth r = Bool) as Wr by congruence|exact Hplain]).
  - apply (cmp_arith_builds KUlt KAnd l r true); [done..|by left|by apply Hbits].
  - apply (cmp_arith_builds KUle KOr l r true); [done..|by right|by apply Hbits].
  - apply (cmp_arith_builds KSlt KAnd l r false); [done..|by left|by apply Hbits].
  - apply (cmp_arith_builds KSle KOr l r false); [done..|by right|by apply Hbits].
Qed.

Lemma cmp_builds k l r : wf l → wf r → getWidth l = getWidth r → builds (cmp_make CAO k l r) (Cmp k l r).
Proof.
  intros Hl Hr Hw.
  assert (Hswap : ∀ k', k' = KUlt ∨ k' = KUle ∨ k' = KSlt ∨ k' = KSle →
    (∀ w x y, comparison k w x y = comparison k' w y x) → builds (cmp_make CAO k' r l) (Cmp k l r)).
  { intros k' Hk' H. eapply builds_weaken; [by apply basic_cmp_builds|]. by apply cmp_swap. }
  destruct k; try (apply basic_cmp_builds; by auto).
  - by apply EqExpr_builds.
  - cbn [cmp_make]. eapply builds_test; [by apply Constant_create_0|].
    eapply builds_bind; [by apply EqExpr_builds|]. intros e (We & Ee & He).
    assert (W0 : wf (Constant Bool 0)) by (split; [lia|by apply bits_0]).
    eapply builds_weaken; [by apply EqExpr_builds|].
    apply refines_cmp; [done..|by cbn|done|].
    intros env x y Ex Ey _ _. apply eval_cmp. exists 0, (bool_val (x =? y)). split; [done|].
    split; [apply He, eval_cmp; by exists x, y|]. cbn. by destruct (x =? y).
  - apply (Hswap KUlt); auto.
  - apply (Hswap KUle); auto.
  - apply (Hswap KSlt); auto.
  - apply (Hswap KSle); auto.
Qed.

(** ** Concat and Extract *)
Lemma testbit_concat x y n k : 0 ≤ n → bits n y → 0 ≤ k →
  Z.testbit (Z.shiftl x n + y) k = if k <? n then Z.testbit y k else Z.testbit x (k - n).
Proof.
  intros Hn Hy Hk.
  assert (E : Z.shiftl x n + y = Z.lor (Z.shiftl x n) y).
  { rewrite <-Z.lxor_lor, Z.add_nocarry_lxor; [done| |].
    all: apply Z.bits_inj'; intros m Hm; rewrite Z.land_spec, Z.bits_0;
      destruct (Z.ltb_spec m n); [by rewrite Z.shiftl_spec_low|]; rewrite (testbit_high y n m) by done; apply andb_false_r. }
  rewrite E, Z.lor_spec. destruct (Z.ltb_spec k n).
  - by rewrite Z.shiftl_spec_low.
  - rewrite Z.shiftl_spec_high, (testbit_high y n k) by (done || lia). apply orb_false_r.
Qed.
Lemma testbit_wraps w x k : 0 < w → 0 ≤ k < w → Z.testbit (wraps w x) k = Z.testbit x k.
Proof. intros Hw Hk. rewrite <-(testbit_wrapu w (wraps w x)), wrapu_wraps by lia. apply testbit_wrapu. lia. Qed.

(** Equality of w-bit numbers by their low bits. *)
Lemma wrapu_bits w x y : 0 ≤ w → (∀ k, 0 ≤ k < w → Z.testbit x k = Z.testbit y k) → wrapu w x = wrapu w y.
Proof.
  intros Hw H. apply Z.bits_inj'. intros k Hk. destruct (Z_lt_le_dec k w).
  - rewrite !testbit_wrapu by lia. apply H. lia.
  - by rewrite !testbit_wrap_high.
Qed.

Lemma const_extract_refines w v off w' : 0 < w < 2 ^ 32 → bits w v → 0 ≤ off → 0 < w' → off + w' ≤ w →
  refines (Extract (Constant w v) off w') (const_extract w v off w').
Proof.
  intros Hw Hv Ho Hw' Hle. unfold const_extract.
  rewrite ap_ashr_spec by (done || lia). rewrite ap_zext_spec by (done || lia || apply bits_wrapu; lia).
  split; [split; [lia|apply bits_wrapu; lia]|]. split; [done|]. intros env x [= <-]. cbn. f_equal.
  rewrite wrapu_le, Z2Nat.id by lia. apply wrapu_bits; [lia|]. intros k Hk.
  rewrite !Z.shiftr_spec by lia. apply testbit_wraps; lia.
Qed.

Lemma const_concat_refines wl a wr b : wf (Constant wl a) → wf (Constant wr b) → wl + wr < 2 ^ 32 →
  refines (Concat (Constant wl a) (Constant wr b)) (const_concat wl a wr b).
Proof.
  intros [Hl Ha] [Hr Hb] Hm. unfold const_concat. set (W := wl + wr).
  assert (Ba : bits W a) by (unfold bits, W in *; rewrite Z.pow_add_r by lia; nia).
  assert (Bb : bits W b) by (unfold bits, W in *; rewrite Z.pow_add_r by lia; nia).
  rewrite (ap_zext_spec wl), (ap_zext_spec wr), !wrapu_small by (done || lia).
  rewrite ap_shl_spec, Z2Nat.id by (done || lia).
  pose proof (bits_concat wl wr a b ltac:(lia) ltac:(lia) Ha Hb) as Bc.
  assert (Bs : bits W (Z.shiftl a wr)).
  { unfold bits, W in *. rewrite Z.shiftl_mul_pow2, Z.pow_add_r in * by lia. nia. }
  rewrite (wrapu_small W) by done.
  rewrite (ap_arith_spec KOr W _ _ (Z.lor (Z.shiftl a wr) b)) by (done || lia).
  split; [split; [lia|apply bits_lor; [lia|done|done]]|]. split; [done|]. intros env x [= <-]. cbn. f_equal.
  apply Z.bits_inj'. intros k Hk. rewrite testbit_concat, Z.lor_spec by (done || lia).
  destruct (Z.ltb_spec k wr); [by rewrite Z.shiftl_spec_low|].
  rewrite Z.shiftl_spec_high, (testbit_high b wr k), orb_false_r by (done || lia). done.
Qed.

(** How many ends of an expression of width [kw] an extract cuts off. *)
Definition cuts (off w kw : Z) : nat := (if off =? 0 then 0 else 1) + (if off + w =? kw then 0 else 1).

Lemma extract_concat_left x y off w : wf (Extract (Concat x y) off w) → getWidth y ≤ off →
  refines (Extract (Concat x y) off w) (Extract x (off - getWidth y) w).
Proof.
  intros ((Hx & Hy & Hxy) & Ho & Hw & Hle) Hge. cbn in Hle. pose proof (wf_width y Hy).
  split; [split_and!; [done|lia|done|lia]|]. split; [done|]. intros env v Ev. cbn in *. simplify_option_eq. f_equal.
  apply wrapu_bits; [lia|]. intros k Hk. rewrite !Z.shiftr_spec, testbit_concat by (lia || by eapply eval_range).
  rewrite (proj2 (Z.ltb_ge _ _)) by lia. f_equal. lia.
Qed.
Lemma extract_concat_right x y off w : wf (Extract (Concat x y) off w) → off + w ≤ getWidth y →
  refines (Extract (Concat x y) off w) (Extract y off w).
Proof.
  intros ((Hx & Hy & Hxy) & Ho & Hw & Hle) Hge. pose proof (wf_width y Hy).
  split; [split_and!; [done|lia|done|lia]|]. split; [done|]. intros env v Ev. cbn in *. simplify_option_eq. f_equal.
  apply wrapu_bits; [lia|]. intros k Hk. rewrite !Z.shiftr_spec, testbit_concat by (lia || by eapply eval_range).
  rewrite (proj2 (Z.ltb_lt _ _)) by lia. done.
Qed.

Lemma concat_bits wl wr a b v : 0 ≤ wl → 0 ≤ wr → bits (wl + wr) v → bits wr b →
  (∀ k, 0 ≤ k < wl + wr → Z.testbit v k = if k <? wr then Z.testbit b k else Z.testbit a (k - wr)) →
  v = Z.shiftl (wrapu wl a) wr + b.
Proof.
  intros Hl Hr Hv Hb H. apply Z.bits_inj'. intros k Hk. rewrite testbit_concat by done.
  destruct (Z_lt_le_dec k (wl + wr)) as [Hlt|Hge].
  - rewrite H by lia. destruct (Z.ltb_spec k wr); [done|]. symmetry. apply testbit_wrapu. lia.
  - rewrite (testbit_high v (wl + wr)) by (done || lia). rewrite (proj2 (Z.ltb_ge _ _)) by lia.
    by rewrite testbit_wrap_high by lia.
Qed.

Lemma extract_concat_both x y off w l r : wf (Extract (Concat x y) off w) → off < getWidth y → getWidth y < off + w →
  refines (Extract x 0 (w - getWidth y + off)) l → refines (Extract y off (getWidth y - off)) r →
  refines (Extract (Concat x y) off w) (Concat l r).
Proof.
  intros ((Hx & Hy & Hxy) & Ho & Hw & Hle) H1 H2 (Wl & El & Hl) (Wr & Er & Hr). cbn in Hle, El, Er.
  split; [split_and!; [done|done|lia]|]. split; [cbn; lia|]. intros env v Ev. cbn in Ev.
  destruct (eval env x) as [a|] eqn:Ea; [|done]. destruct (eval env y) as [b|] eqn:Eb; [|done]. cbn in Ev. simplify_eq.
  cbn. rewrite (Hl env (wrapu (w - getWidth y + off) (Z.shiftr a 0))), (Hr env (wrapu (getWidth y - off) (Z.shiftr b off)))
    by (cbn; by rewrite ?Ea, ?Eb). cbn. f_equal. rewrite Er. symmetry.
  replace w with ((w - getWidth y + off) + (getWidth y - off)) at 1 by lia.
  apply concat_bits; [lia|lia|apply bits_wrapu; lia|apply bits_wrapu; lia|].
  intros k Hk. assert (bits (getWidth y) b) by (by eapply eval_range).
  rewrite testbit_wrapu, Z.shiftr_spec, testbit_concat by (done || lia).
  destruct (Z.ltb_spec k (getWidth y - off)).
  - rewrite (proj2 (Z.ltb_lt _ _)), testbit_wrapu, Z.shiftr_spec by lia. done.
  - rewrite (proj2 (Z.ltb_ge _ _)), Z.shiftr_spec by lia. f_equal. lia.
Qed.

Lemma concat_extracts e ol wl or wr : wf (Extract e ol wl) → wf (Extract e or wr) → or + wr = ol →
  refines (Concat (Extract e ol wl) (Extract e or wr)) (Extract e or (wl + wr)).
Proof.
  intros (He & Ho & Hwl & Hle) (_ & Ho' & Hwr & Hle') <-.
  split; [split_and!; [done|lia|lia|lia]|]. split; [done|]. intros env v Ev. cbn in *.
  destruct (eval env e) as [x|]; [|done]. cbn in *. simplify_eq. f_equal.
  apply concat_bits; [lia|lia|apply bits_wrapu; lia|apply bits_wrapu; lia|].
  intros k Hk. rewrite testbit_wrapu, Z.shiftr_spec by lia. destruct (Z.ltb_spec k wr).
  - by rewrite testbit_wrapu, Z.shiftr_spec by lia.
  - rewrite Z.shiftr_spec by lia. f_equal. lia.
Qed.

Lemma cuts_le off w kw : (cuts off w kw ≤ 2)%nat.
Proof. unfold cuts. repeat case_match; lia. Qed.

Definition extract_ok (fuel : nat) : Prop := ∀ e off w, wf (Extract e off w) → (2 * esize e + 1 ≤ fuel)%nat →
  sum_builds (ExtractExpr_make_rec fuel e off w) (Extract e off w) (esize e + cuts off w (getWidth e)).
Definition concat_ok (fuel : nat) : Prop := ∀ l r, wf (Concat l r) → (2 * esize l ≤ fuel)%nat →
  sum_builds (ConcatExpr_make_rec fuel l r) (Concat l r) (1 + esize l + esize r).

Lemma concat_step fuel : extract_ok fuel → concat_ok (S fuel).
Proof.
  intros IH l r Hwf Hf. pose proof Hwf as (Hl & Hr & Hm). cbn [ConcatExpr_make_rec].
  assert (Hplain : sum_builds (mret (Concat l r)) (Concat l r) (1 + esize l + esize r)).
  { apply sum_builds_ret; [by apply refines_refl|cbn; lia]. }
  destruct l as [wl a| | | | |el ol wl| | | | |]; try exact Hplain;
    destruct r as [wr b| | | | |er or wr| | | | |]; try exact Hplain.
  - apply sum_builds_ret; [by apply const_concat_refines|cbn; lia].
  - destruct (same el er) eqn:Es; cbn [andb]; [|exact Hplain]. apply same_sound in Es as <-.
    pose proof (wf_width el ltac:(apply Hl)). pose proof Hl as (_ & _ & ? & ?). pose proof Hr as (_ & ? & ? & ?).
    cbn in Hm. rewrite !wrapu_small by lia.
    destruct (Z.eqb_spec (or + wr) ol) as [Ho|]; [|exact Hplain]. cbn in Hf.
    pose proof (concat_extracts el ol wl or wr Hl Hr Ho) as HR.
    eapply sum_builds_weaken; [apply IH; [apply HR|lia]|exact HR|].
    pose proof (cuts_le or (wl + wr) (getWidth el)). cbn. lia.
Qed.

Lemma extract_step fuel : extract_ok fuel → concat_ok fuel → extract_ok (S fuel).
Proof.
  intros IHe IHc e off w Hwf Hf. pose proof Hwf as (He & Ho & Hw & Hle). pose proof (wf_width e He).
  cbn [ExtractExpr_make_rec]. rewrite (wrapu_small 32 (off + w)) by lia.
  eapply sum_builds_test; [by rewrite (proj2 (Z.ltb_lt _ _) Hw), (proj2 (Z.leb_le _ _) Hle)|].
  destruct (Z.eqb_spec w (getWidth e)) as [->|Hne].
  { apply sum_builds_ret; [|lia]. split; [done|]. split; [done|]. intros env v Ev. cbn in Ev.
    assert (off = 0) as -> by lia. destruct (eval env e) as [x|] eqn:Ex; [|done]. cbn in Ev. simplify_eq.
    f_equal. rewrite Z.shiftr_0_r, wrapu_small; [done|by eapply eval_range]. }
  assert (Hcut : (1 ≤ cuts off w (getWidth e))%nat) by (unfold cuts; repeat case_match; rewrite ?Z.eqb_eq in *; lia).
  assert (Hplain : sum_builds (mret (Extract e off w)) (Extract e off w) (esize e + cuts off w (getWidth e))).
  { apply sum_builds_ret; [by apply refines_refl|cbn; lia]. }
  destruct e as [w0 v| | | |x y| | | | | |]; try exact Hplain.
  { apply sum_builds_ret; [apply const_extract_refines; [apply He|apply He|done..]|cbn; lia]. }
  cbn in Hf. pose proof (esize_pos x). pose proof (esize_pos y). cbn [getWidth] in *.
  destruct (Z.leb_spec (getWidth y) off).
  { pose proof (extract_concat_left x y off w Hwf ltac:(lia)) as HR.
    eapply sum_builds_weaken; [apply IHe; [apply HR|lia]|exact HR|].
    pose proof (cuts_le (off - getWidth y) w (getWidth x)). cbn. lia. }
  destruct (Z.leb_spec (off + w) (getWidth y)).
  { pose proof (extract_concat_right x y off w Hwf ltac:(lia)) as HR.
    eapply sum_builds_weaken; [apply IHe; [apply HR|lia]|exact HR|].
    pose proof (cuts_le off w (getWidth y)). cbn. lia. }
  destruct He as (Hx & Hy & Hxy). pose proof (wf_width y Hy). rewrite (wrapu_small 32) by lia.
  eapply sum_builds_bind; [apply IHe; [split_and!; [done|lia|lia|lia]|lia]|]. intros l HL Sl.
  eapply sum_builds_bind; [apply IHe; [split_and!; [done|lia|lia|lia]|lia]|]. intros r HR Sr.
  unfold cuts in *. rewrite Z.eqb_refl, Z.add_0_l in Sl.
  rewrite (proj2 (Z.eqb_eq (off + (getWidth y - off)) (getWidth y))) in Sr by lia.
  assert (Etop : (w - getWidth y + off =? getWidth x) = (off + w =? getWidth x + getWidth y)).
  { apply eq_true_iff_eq. rewrite !Z.eqb_eq. lia. }
  rewrite Etop in Sl.
  eapply sum_builds_weaken; [apply IHc; [|repeat case_match; lia]|by apply extract_concat_both|].
  { apply (extract_concat_both x y off w); [done|lia|lia|done|done]. }
  cbn. repeat case_match; lia.
Qed.

Lemma extract_concat_all fuel : extract_ok fuel ∧ concat_ok fuel.
Proof.
  induction fuel as [|fuel [IHe IHc]].
  - split; intros ?; intros; [lia|]. pose proof (esize_pos l). lia.
  - split; [by apply extract_step|by apply concat_step].
Qed.

Lemma ExtractExpr_builds e off w : wf (Extract e off w) → builds (ExtractExpr_make e off w) (Extract e off w).
Proof. intros H. eapply sum_builds_builds, extract_concat_all; [done|lia]. Qed.
Lemma ConcatExpr_builds l r : wf (Concat l r) → builds (ConcatExpr_make l r) (Concat l r).
Proof. intros H. eapply sum_builds_builds, extract_concat_all; [done|lia]. Qed.

(** ** Negation, extension *)
Lemma NotExpr_builds e : wf e → builds (NotExpr_make e) (Not e).
Proof.
  intros He. unfold NotExpr_make. apply builds_ret. destruct e; try (by apply refines_refl).
  destruct He as [Hw Hv]. unfold const_not. rewrite ap_not_spec by (done || lia).
  split; [split; [done|apply bits_wrapu; lia]|]. done.
Qed.

Lemma trunc_builds e w : wf e → 0 < w < getWidth e → builds (ExtractExpr_make e 0 w) (Extract e 0 w).
Proof. intros He Hw. apply ExtractExpr_builds. cbn. split_and!; [done|lia..]. Qed.

Lemma wrapu_wraps_le w w' x : 0 < w' ≤ w → wrapu w' (wraps w x) = wrapu w' x.
Proof. intros H. apply wrapu_bits; [lia|]. intros k Hk. apply testbit_wraps; lia. Qed.

Lemma ZExtExpr_builds e w : wf e → 0 < w < 2 ^ 32 → builds (ZExtExpr_make e w) (ZExt e w).
Proof.
  intros He Hw. unfold ZExtExpr_make. destruct (Z.eqb_spec w (getWidth e)) as [->|].
  { apply builds_ret. split; [done|]. split; [done|]. cbn. intros env v Ev. simplify_option_eq. f_equal.
    symmetry. apply wrapu_small. by eapply eval_range. }
  destruct (Z.ltb_spec w (getWidth e)).
  { eapply builds_weaken; [apply trunc_builds; [done|lia]|]. split; [cbn; split_and!; [done|lia..]|]. split; [done|]. done. }
  apply builds_ret. destruct e; try (apply refines_refl; cbn in *; split; [done|lia]).
  destruct He as [H0 Hv]. unfold const_zext. rewrite ap_zext_spec by (done || lia).
  split; [split; [done|apply bits_wrapu; lia]|]. done.
Qed.

Lemma SExtExpr_builds e w : wf e → 0 < w < 2 ^ 32 → builds (SExtExpr_make e w) (SExt e w).
Proof.
  intros He Hw. unfold SExtExpr_make. destruct (Z.eqb_spec w (getWidth e)) as [->|].
  { apply builds_ret. split; [done|]. split; [done|]. cbn. intros env v Ev. simplify_option_eq. f_equal.
    rewrite wrapu_wraps_le by lia. symmetry. apply wrapu_small. by eapply eval_range. }
  destruct (Z.ltb_spec w (getWidth e)).
  { eapply builds_weaken; [apply trunc_builds; [done|lia]|]. split; [cbn; split_and!; [done|lia..]|]. split; [done|].
    cbn. intros env v Ev. simplify_option_eq. by rewrite wrapu_wraps_le by lia. }
  apply builds_ret. destruct e; try (apply refines_refl; cbn in *; split; [done|lia]).
  destruct He as [H0 Hv]. unfold const_sext. rewrite ap_sext_spec by (done || lia).
  split; [split; [done|apply bits_wrapu; lia]|]. done.
Qed.

(** ** Reads *)
Lemma read_scan_spec ul index : wf_updates ul → wf index → getWidth index = Int32 →
  ∃ o, read_scan CAO ul index tt = Done o tt ∧ ∀ x, o = Some x → wf x ∧ getWidth x = Int8 ∧
    ∀ env a j v, eval env index = Some j → eval_read env a ul j = Some v → eval env x = Some v.
Proof.
  induction ul as [|i v next IH]; cbn [read_scan]; intros Hul Hi Wi; [by exists None|].
  destruct Hul as (Hix & Hv & Wix & Wv & Hn). destruct (IH Hn Hi Wi) as (o & Eo & Ho).
  destruct (EqExpr_builds CAO index i Hi Hix ltac:(congruence)) as (cond & Ec & Wc & Lc & Hc).
  rewrite (bind_done _ _ _ _ _ Ec). destruct cond as [w c| | | | | | | | | |]; try (by exists None).
  cbn in Lc. subst w. assert (Hval : ∀ env j y, eval env index = Some j → eval env i = Some y → c = bool_val (j =? y)).
  { intros env j y Ej Ey. specialize (Hc env (bool_val (j =? y))). cbn in Hc. rewrite Ej, Ey in Hc. cbn in Hc.
    by specialize (Hc eq_refl) as [= ->]. }
  rewrite (bind_done (isTrue 1 c) _ tt (c =? 1) tt eq_refl). destruct (Z.eqb_spec c 1) as [->|Hc1].
  - exists (Some v). split; [done|]. intros x [= <-]. split; [done|]. split; [done|]. intros env a j u Ej Eu. cbn in Eu.
    destruct (eval env i) as [y|] eqn:Ey; [|done]. cbn in Eu. specialize (Hval env j y Ej Ey).
    rewrite Z.eqb_sym in Eu. by destruct (j =? y).
  - exists o. split; [exact Eo|]. intros x Hx. destruct (Ho x Hx) as (Wx & Lx & Hr). split; [done|]. split; [done|].
    intros env a j u Ej Eu. cbn in Eu. destruct (eval env i) as [y|] eqn:Ey; [|done]. cbn in Eu.
    specialize (Hval env j y Ej Ey). rewrite Z.eqb_sym in Eu. destruct (j =? y); [done|]. eauto.
Qed.

Lemma ReadExpr_builds root ul index : wf (Read root ul index) →
  builds (ReadExpr_make CAO root ul index) (Read root ul index).
Proof.
  intros Hwf. pose proof Hwf as (Ha & Hul & Hi & Wi). destruct (read_scan_spec ul index Hul Hi Wi) as (o & Eo & Ho).
  unfold ReadExpr_make. eapply builds_test; [exact Eo|]. apply builds_ret.
  destruct o as [x|]; [|by apply refines_refl]. destruct (Ho x eq_refl) as (Wx & Lx & Hr).
  split; [done|]. split; [done|]. cbn. intros env v Ev. destruct (eval env index) as [j|] eqn:Ej; [|done]. by eapply Hr.
Qed.

(** ** Selection *)
Lemma refines_select c t f e : wf (Select c t f) → wf e → getWidth e = getWidth t →
  (∀ env x y z, eval env c = Some x → eval env t = Some y → eval env f = Some z →
     bits Bool x → bits (getWidth t) y → bits (getWidth t) z → eval env e = Some (if x =? 1 then y else z)) →
  refines (Select c t f) e.
Proof.
  intros (Hc & Ht & Hf & Wc & Wt) He We H. split; [done|]. split; [done|]. intros env v Ev. cbn in Ev.
  destruct (eval env c) as [x|] eqn:Ex; [|done]. destruct (eval env t) as [y|] eqn:Ey; [|done].
  destruct (eval env f) as [z|] eqn:Ez; [|done]. cbn in Ev. simplify_eq.
  apply H; [done..| | |]; rewrite <-?Wc, ?Wt; [..|by eapply eval_range]; [by eapply eval_range|].
  rewrite <-Wt. by eapply eval_range.
Qed.

(** [createIsZero] of a single bit is its negation. *)
Lemma isZero_bool c z : wf c → getWidth c = Bool → refines (Cmp KEq c (Constant (getWidth c) 0)) z →
  wf z ∧ getWidth z = Bool ∧ ∀ env x, eval env c = Some x → eval env z = Some (bool_val (x =? 0)).
Proof.
  intros He We (Wz & Ez & Hz). split; [done|]. split; [done|]. intros env x Ex. apply Hz, eval_cmp. by exists x, 0.
Qed.

(** The four selections between single bits of which one is a constant. *)
Lemma select_bool_builds c t f k (neg : bool) e : wf (Select c t f) → getWidth t = Bool → (k = KAnd ∨ k = KOr) →
  wf e → getWidth e = Bool →
  (∀ env x y z, eval env c = Some x → eval env t = Some y → eval env f = Some z →
     bits Bool x → bits Bool y → bits Bool z → ∃ u, eval env e = Some u ∧
     arith k 1 (if neg then bool_val (x =? 0) else x) u = Some (if x =? 1 then y else z)) →
  builds (if neg then n ← createIsZero CAO c; arith_make CAO k n e else arith_make CAO k c e) (Select c t f).
Proof.
  intros Hwf Wt Hk He We H. pose proof Hwf as (Hc & Ht & Hf & Wc & Wtf).
  assert (Hd : is_division k = false) by (by destruct Hk as [->| ->]). destruct neg.
  - eapply builds_bind; [apply createIsZero_builds; [done|lia]|]. intros n Hn.
    destruct (isZero_bool c n Hc Wc Hn) as (Wn & Ln & Hv).
    eapply builds_weaken; [apply arith_builds; [done|done|congruence|lia|by rewrite Hd]|].
    apply refines_select; [done|cbn; split_and!; [done|done|congruence]|cbn; congruence|]. rewrite Wt.
    intros env x y z Ex Ey Ez Hx Hy Hz. destruct (H env x y z Ex Ey Ez Hx Hy Hz) as (u & Eu & Ea).
    apply eval_arith. exists (bool_val (x =? 0)), u. rewrite Ln. auto.
  - eapply builds_weaken; [apply arith_builds; [done|done|congruence|lia|by rewrite Hd]|].
    apply refines_select; [done|cbn; split_and!; [done|done|congruence]|cbn; congruence|]. rewrite Wt.
    intros env x y z Ex Ey Ez Hx Hy Hz. destruct (H env x y z Ex Ey Ez Hx Hy Hz) as (u & Eu & Ea).
    apply eval_arith. exists x, u. rewrite Wc. auto.
Qed.

Lemma isTrue_bool w v : w = Bool → isTrue w v tt = Done (v =? 1) tt.
Proof. by intros ->. Qed.

Lemma select_const_t c v f : wf (Select c (Constant Bool v) f) →
  builds (b ← isTrue Bool v; if (b : bool) then OrExpr_make c f else z ← createIsZero CAO c; AndExpr_make z f)
    (Select c (Constant Bool v) f).
Proof.
  intros Hwf. pose proof Hwf as (Hc & (_ & Ht) & Hf & Wc & Wtf). cbn in Wtf.
  eapply builds_test; [by apply isTrue_bool|]. destruct (bits_1 v Ht) as [->| ->]; cbn.
  - apply (select_bool_builds c _ f KAnd true f); [done|done|by left|done|done|].
    intros env x y z Ex [= <-] Ez [->| ->]%bits_1 _ [->| ->]%bits_1; eexists; by split.
  - apply (select_bool_builds c _ f KOr false f); [done|done|by right|done|done|].
    intros env x y z Ex [= <-] Ez [->| ->]%bits_1 _ [->| ->]%bits_1; eexists; by split.
Qed.
Lemma select_const_f c t v : wf (Select c t (Constant Bool v)) →
  builds (b ← isTrue Bool v; if (b : bool) then z ← createIsZero CAO c; OrExpr_make z t else AndExpr_make c t)
    (Select c t (Constant Bool v)).
Proof.
  intros Hwf. pose proof Hwf as (Hc & Ht & (_ & Hf) & Wc & Wtf). cbn in Wtf.
  eapply builds_test; [by apply isTrue_bool|]. destruct (bits_1 v Hf) as [->| ->]; cbn.
  - apply (select_bool_builds c t _ KAnd false t); [done|done|by left|done|done|].
    intros env x y z Ex Ey [= <-] [->| ->]%bits_1 [->| ->]%bits_1 _; eexists; by split.
  - apply (select_bool_builds c t _ KOr true t); [done|done|by right|done|done|].
    intros env x y z Ex Ey [= <-] [->| ->]%bits_1 [->| ->]%bits_1 _; eexists; by split.
Qed.

Lemma SelectExpr_builds c t f : wf (Select c t f) → builds (SelectExpr_make CAO c t f) (Select c t f).
Proof.
  intros Hwf. pose proof Hwf as (Hc & Ht & Hf & Wc & Wtf). unfold SelectExpr_make.
  do 2 (apply builds_assert; [by apply Z.eqb_eq|]).
  assert (Hplain : builds (mret (Select c t f)) (Select c t f)) by (by apply builds_ret, refines_refl).
  assert (Hmain : builds (if same t f then mret t else if getWidth t =? Bool then
      match t, f with
      | Constant w v, _ => b ← isTrue w v;
          if (b : bool) then OrExpr_make c f else z ← createIsZero CAO c; AndExpr_make z f
      | _, Constant w v => b ← isTrue w v;
          if (b : bool) then z ← createIsZero CAO c; OrExpr_make z t else AndExpr_make c t
      | _, _ => mret (Select c t f)
      end else mret (Select c t f)) (Select c t f)).
  { destruct (same t f) eqn:Es.
    { apply same_sound in Es as <-. apply builds_ret, refines_select; [done..|]. intros env x y z _ Ey Ez _ _ _.
      rewrite Ey in Ez. simplify_eq. by destruct (x =? 1). }
    destruct (Z.eqb_spec (getWidth t) Bool) as [Wt|]; [|done].
    destruct t as [w v| | | | | | | | | |]; [cbn in Wt; subst w; by apply select_const_t|..];
      (destruct f as [w v| | | | | | | | | |]; try exact Hplain;
       assert (w = Bool) as -> by (cbn in *; congruence); by apply select_const_f). }
  destruct c as [w v| | | | | | | | | |]; try exact Hmain.
  eapply builds_test; [by apply isTrue_bool|]. apply builds_ret.
  apply refines_select; [done|by destruct (v =? 1)|by destruct (v =? 1)|].
  intros env x y z [= <-] Ey Ez _ _ _. by destruct (v =? 1).
Qed.

Lemma createImplies_builds h c : wf h → wf c → getWidth h = Bool → getWidth c = Bool →
  builds (createImplies CAO h c) (Select h c (Constant Bool 1)).
Proof.
  intros Hh Hc Wh Wc. apply (select_bool_builds h c _ KOr true c); [|done|by right|done|done|].
  - split_and!; [done|done|by split|done|done].
  - intros env x y z Ex Ey [= <-] [->| ->]%bits_1 [->| ->]%bits_1 _; eexists; by split.
Qed.
End Spec.
