(* ===== verification/ExprBuild.v ===== *)
(** * What the factories of expressions guarantee

    The expressions that can be built, reads of whole variables, and the properties
    of the factories of src/klee/lib/Expr/Expr.cpp as the rest of the engine uses them. *)
From S2P Require Import Prelude Expr ExprCreate ExprRefine ExprSums ExprSpec.

(** ** Chains of concatenations *)
(** The node [createN] is asked for. *)
Fixpoint concat_all (e : Expr) (kids : list Expr) : Expr :=
  match kids with
  | [] => e
  | e' :: kids => Concat e (concat_all e' kids)
  end.

(** The number an array holds in its first n bytes, the least significant first. *)
Fixpoint little_endian (env : assignment) (a : Array) (n : nat) : Z :=
  match n with
  | O => 0
  | S n => little_endian env a n + u8 (env a (Z.of_nat n)) * 2 ^ (8 * Z.of_nat n)
  end.

Section Build.
Context `{HA : !APInt, HC : !ExprCompare} (CAO : bool).

Lemma concat_mono l r r' : wf (Concat l r) → refines r r' → refines (Concat l r) (Concat l r').
Proof.
  intros (Hl & _ & Hm) (Wr & Lr & Hr). split; [split_and!; [done|done|lia]|]. split; [cbn; lia|]. cbn. intros env v Ev.
  destruct (eval env l) as [x|]; [|done]. destruct (eval env r) as [y|] eqn:Ey; [|done].
  cbn. rewrite (Hr env y Ey). cbn in *. by rewrite Lr.
Qed.

Lemma createN_builds kids e : wf (concat_all e kids) → builds (ConcatExpr_createN (e :: kids)) (concat_all e kids).
Proof.
  revert e. induction kids as [|e' kids IH]; intros e Hwf; [by apply builds_ret, refines_refl|].
  cbn [concat_all]. change (ConcatExpr_createN (e :: e' :: kids)) with
    (r ← ConcatExpr_createN (e' :: kids); ConcatExpr_make e r).
  eapply builds_bind; [by apply IH, Hwf|]. intros r Hr. pose proof (concat_mono _ _ _ Hwf Hr) as Hc.
  eapply builds_weaken; [apply ConcatExpr_builds, Hc|exact Hc].
Qed.

(** The read of one byte of an array that has no updates. *)
Definition byte_read (a : Array) (n : nat) : Expr := Read a UNil (Constant Int32 (u32 (Z.of_nat n))).
Lemma byte_read_wf a n : wf_array a → wf (byte_read a n).
Proof. intros Ha. cbn. split_and!; [done|done|lia|lia|apply bits_wrapu; lia|done]. Qed.
Lemma byte_read_eval env a n : isSymbolicArray a = true → Z.of_nat n < 2 ^ 32 →
  eval env (byte_read a n) = Some (u8 (env a (Z.of_nat n))).
Proof. intros Ha Hn. cbn. unfold initial_byte. rewrite Ha, (wrapu_small 32) by lia. done. Qed.

Definition byte_reads (a : Array) (n : nat) : list Expr := byte_read a <$> rev (seq 0 n).
Lemma byte_reads_S a n : byte_reads a (S n) = byte_read a n :: byte_reads a n.
Proof. unfold byte_reads. by rewrite seq_S, rev_app_distr. Qed.
Lemma temp_reads_run a n : temp_reads CAO a n tt = Done (byte_reads a n) tt.
Proof.
  induction n as [|n IH]; [done|]. rewrite byte_reads_S. cbn [temp_reads].
  rewrite (bind_done _ _ tt (byte_read a n) tt) by done. by rewrite (bind_done _ _ _ _ _ IH).
Qed.

Lemma byte_reads_eval env a n : isSymbolicArray a = true → wf_array a → Z.of_nat (S n) < 2 ^ 32 →
  eval env (concat_all (byte_read a n) (byte_reads a n)) = Some (little_endian env a (S n)) ∧
  getWidth (concat_all (byte_read a n) (byte_reads a n)) = 8 * Z.of_nat (S n).
Proof.
  intros Ha Hw. induction n as [|n IH]; intros Hn.
  - change (concat_all (byte_read a 0) (byte_reads a 0)) with (byte_read a 0). split; [|done]. rewrite (byte_read_eval env a 0 Ha) by lia. cbn. f_equal. lia.
  - rewrite byte_reads_S. cbn [concat_all]. destruct IH as [IHe IHw]; [lia|]. split; [|cbn [getWidth]; rewrite IHw; cbn; lia].
    cbn [eval]. rewrite IHe, IHw, (byte_read_eval env a (S n) Ha) by lia. cbn [mbind option_bind]. f_equal.
    rewrite Z.shiftl_mul_pow2 by lia. cbn [little_endian]. lia.
Qed.

Lemma byte_reads_wf a n : wf_array a → 8 * Z.of_nat (S n) < 2 ^ 32 →
  wf (concat_all (byte_read a n) (byte_reads a n)) ∧ getWidth (concat_all (byte_read a n) (byte_reads a n)) = 8 * Z.of_nat (S n).
Proof.
  intros Ha. induction n as [|n IH]; intros Hn; [split; [by apply byte_read_wf|done]|].
  rewrite byte_reads_S. cbn [concat_all wf getWidth]. destruct IH as [IHw IHe]; [lia|]. rewrite IHe. cbn [byte_read getWidth].
  split_and!; [by apply byte_read_wf|done|lia|lia].
Qed.

Lemma byte_reads_builds a n w : wf_array a → isSymbolicArray a = true → 8 * Z.of_nat (S n) < 2 ^ 32 → w = 8 * Z.of_nat (S n) →
  ∃ e, (l ← temp_reads CAO a (S n); ConcatExpr_createN l) tt = Done e tt ∧ wf e ∧ getWidth e = w ∧
    ∀ env, eval env e = Some (little_endian env a (S n)).
Proof.
  intros Ha Hs Hn ->. rewrite (bind_done _ _ _ _ _ (temp_reads_run a (S n))), byte_reads_S.
  destruct (byte_reads_wf a n Ha Hn) as [Hwf Hw].
  destruct (createN_builds (byte_reads a n) (byte_read a n) Hwf) as (e & Ee & We & Le & He).
  exists e. split; [done|]. split; [done|]. rewrite Le.
  split; [done|]. intros env. apply He. apply byte_reads_eval; [done|done|lia].
Qed.

(** ** Calls that fail *)
Lemma bcreate_r_mismatch both pR pL c l r : getWidth l ≠ getWidth r → bcreate_r both pR pL c l r tt = Halt AssertFailure tt.
Proof. intros H. unfold bcreate_r. by rewrite (proj2 (Z.eqb_neq _ _) H). Qed.
Lemma bcreate_mismatch both c l r : getWidth l ≠ getWidth r → bcreate both c l r tt = Halt AssertFailure tt.
Proof. intros H. unfold bcreate. by rewrite (proj2 (Z.eqb_neq _ _) H). Qed.

Lemma sum_fuel_S l r : sum_fuel l r = S (2 * (esize l + esize r) + 1).
Proof. unfold sum_fuel. lia. Qed.
Lemma arith_mismatch k l r : getWidth l ≠ getWidth r → arith_make CAO k l r tt = Halt AssertFailure tt.
Proof.
  intros H. destruct k; cbn [arith_make]; try (by apply bcreate_r_mismatch); try (by apply bcreate_mismatch).
  - unfold AddExpr_make. rewrite sum_fuel_S. by apply bcreate_r_mismatch.
  - unfold SubExpr_make. rewrite sum_fuel_S. by apply bcreate_r_mismatch.
Qed.
Lemma cmp_mismatch k l r : getWidth l ≠ getWidth r → cmp_make CAO k l r tt = Halt AssertFailure tt.
Proof.
  intros H. pose proof (not_eq_sym H) as H'.
  destruct k; cbn [cmp_make]; try (by apply bcreate_r_mismatch); try (by apply bcreate_mismatch).
  unfold NeExpr_make. rewrite (bind_done _ _ _ _ _ (Constant_create_0 Bool ltac:(lia))).
  unfold mbind, M_bind. unfold EqExpr_make, EqExpr_make_rec. by rewrite bcreate_r_mismatch.
Qed.
Lemma divide_by_zero k w a : is_division k = true →
  arith_make CAO k (Constant w a) (Constant w 0) tt = Halt AssertFailure tt.
Proof.
  intros H. destruct k; try done; cbn [arith_make];
    unfold UDivExpr_make, SDivExpr_make, URemExpr_make, SRemExpr_make, bcreate; cbn [getWidth]; by rewrite Z.eqb_refl.
Qed.


(** ** What can be built *)
Inductive built : Expr → Prop :=
| built_constant v w : 0 < w < 2 ^ 32 → built (Constant_alloc v w)
| built_not_optimized s e : built s → NotOptimizedExpr_make s tt = Done e tt → built e
| built_read a ul i e : wf_array a → built_updates ul → built i → getWidth i = Int32 →
    ReadExpr_make CAO a ul i tt = Done e tt → built e
| built_select c t f e : built c → built t → built f → SelectExpr_make CAO c t f tt = Done e tt → built e
| built_concat l r e : built l → built r → getWidth l + getWidth r < 2 ^ 32 → ConcatExpr_make l r tt = Done e tt → built e
| built_extract s off w e : built s → 0 ≤ off → off + w < 2 ^ 32 → ExtractExpr_make s off w tt = Done e tt → built e
| built_zext s w e : built s → 0 < w < 2 ^ 32 → ZExtExpr_make s w tt = Done e tt → built e
| built_sext s w e : built s → 0 < w < 2 ^ 32 → SExtExpr_make s w tt = Done e tt → built e
| built_not s e : built s → NotExpr_make s tt = Done e tt → built e
| built_arith k l r e : built l → built r → getWidth l ≤ 64 → arith_make CAO k l r tt = Done e tt → built e
| built_cmp k l r e : built l → built r → cmp_make CAO k l r tt = Done e tt → built e
with built_updates : UpdateList → Prop :=
| built_nil : built_updates UNil
| built_extend i v next : built i → getWidth i = Int32 → built v → getWidth v = Int8 → built_updates next →
    built_updates (UNode i v next).
Scheme built_ind2 := Minimality for built Sort Prop
with built_updates_ind2 := Minimality for built_updates Sort Prop.
Combined Scheme built_mutind from built_ind2, built_updates_ind2.

Lemma builds_wf m e0 e : builds m e0 → m tt = Done e tt → wf e.
Proof. intros (e' & E & H) E'. rewrite E in E'. simplify_eq. apply H. Qed.

Lemma arith_typed k l r e : wf l → wf r → getWidth l ≤ 64 → arith_make CAO k l r tt = Done e tt → wf e.
Proof.
  intros Hl Hr H64 E. destruct (decide (getWidth l = getWidth r)) as [Hw|Hw]; [|by rewrite arith_mismatch in E].
  eapply builds_wf, E. apply arith_builds; [done..|]. intros Hk w ->.
  destruct l; try done. cbn in Hw. subst. by rewrite divide_by_zero in E.
Qed.
Lemma cmp_typed k l r e : wf l → wf r → cmp_make CAO k l r tt = Done e tt → wf e.
Proof.
  intros Hl Hr E. destruct (decide (getWidth l = getWidth r)) as [Hw|Hw]; [|by rewrite cmp_mismatch in E].
  by eapply builds_wf, E; apply cmp_builds.
Qed.
(** The assertion of [ExtractExpr::create] as it is evaluated. *)
Lemma extract_assert s off w : (0 <? w) && (u32 (off + w) <=? getWidth s) = false →
  ExtractExpr_make s off w tt = Halt AssertFailure tt.
Proof.
  intros Eb. unfold ExtractExpr_make. replace (2 * esize s + 3)%nat with (S (2 * esize s + 2)) by lia.
  cbn [ExtractExpr_make_rec]. by rewrite Eb.
Qed.
Lemma extract_typed s off w e : wf s → 0 ≤ off → off + w < 2 ^ 32 → ExtractExpr_make s off w tt = Done e tt → wf e.
Proof.
  intros Hs Ho Hm E. destruct ((0 <? w) && (u32 (off + w) <=? getWidth s)) eqn:Eb.
  - apply andb_true_iff in Eb as [?%Z.ltb_lt Hle%Z.leb_le]. rewrite wrapu_small in Hle by lia.
    eapply builds_wf, E. apply ExtractExpr_builds. by split_and!.
  - by rewrite extract_assert in E.
Qed.
Lemma select_typed c t f e : wf c → wf t → wf f → SelectExpr_make CAO c t f tt = Done e tt → wf e.
Proof.
  intros Hc Ht Hf E. destruct (getWidth c =? Bool) eqn:Ec; [|unfold SelectExpr_make in E; by rewrite Ec in E].
  destruct (getWidth t =? getWidth f) eqn:Et; [|unfold SelectExpr_make in E; by rewrite Ec, Et in E].
  eapply builds_wf, E. apply SelectExpr_builds. apply Z.eqb_eq in Ec, Et. by split_and!.
Qed.

Lemma built_wf : (∀ e, built e → wf e) ∧ (∀ ul, built_updates ul → wf_updates ul).
Proof.
  apply built_mutind; intros.
  - split; [done|apply bits_wrapu; lia].
  - by injection H1 as <-.
  - eapply builds_wf, H5. by apply ReadExpr_builds.
  - by eapply select_typed, H5.
  - by eapply builds_wf, H4; apply ConcatExpr_builds.
  - by eapply extract_typed, H3.
  - by eapply builds_wf, H2; apply ZExtExpr_builds.
  - by eapply builds_wf, H2; apply SExtExpr_builds.
  - by eapply builds_wf, H1; apply NotExpr_builds.
  - by eapply arith_typed, H4.
  - by eapply cmp_typed, H3.
  - done.
  - by split_and!.
Qed.
End Build.

(** ** Properties *)
(** C4: the factory of every arithmetic, bitwise, division and shift kind, called on well-formed operands of
    the same width of at most 64 bits (and not to divide a constant by the constant
    0), returns; the expression it returns is well formed, has the operands' width,
    and under every assignment under which the operation has a value it has that
    value, whatever constants were folded, moved or regrouped. *)
Theorem arith_factories_correct `{!APInt, !ExprCompare} ConstArrayOpt k l r :
  wf l → wf r → getWidth l = getWidth r → getWidth l ≤ 64 →
  (is_division k = true → ∀ w, r = Constant w 0 → isa_Constant l = false) →
  ∃ e, arith_make ConstArrayOpt k l r tt = Done e tt ∧ wf e ∧ getWidth e = getWidth l ∧
    ∀ env x y v, eval env l = Some x → eval env r = Some y → arith k (getWidth l) x y = Some v → eval env e = Some v.
Proof.
  intros Hl Hr Hw H64 Hd. destruct (arith_builds ConstArrayOpt k l r Hl Hr Hw H64 Hd) as (e & Ee & We & Le & He).
  exists e. split; [done|]. split; [done|]. split; [done|]. intros env x y v Ex Ey Ev. apply He, eval_arith. eauto.
Qed.

(** The 4 symbolic bytes of an argument. *)
Definition arg : Array := mkArray 0 "arg" 4 [].
Definition arg_byte (n : nat) : Expr := byte_read arg n.

(** (5 + b0) - (3 + b1) is 2 + (b0 - b1). *)
Lemma arith_factories_correct_witness :
  wf (Arith KAdd (Constant 8 5) (arg_byte 0)) ∧
  ∃ e, arith_make true KSub (Arith KAdd (Constant 8 5) (arg_byte 0)) (Arith KAdd (Constant 8 3) (arg_byte 1)) tt = Done e tt ∧
    wf e ∧ eval (λ _ i, 250 + i) e = Some 1.
Proof.
  assert (W0 : wf (Arith KAdd (Constant 8 5) (arg_byte 0))) by (vm_compute; repeat split; congruence || by intros).
  assert (W1 : wf (Arith KAdd (Constant 8 3) (arg_byte 1))) by (vm_compute; repeat split; congruence || by intros).
  split; [exact W0|].
  destruct (arith_factories_correct true KSub _ _ W0 W1 eq_refl) as (e & Ee & We & Le & He); [vm_compute; congruence|done|].
  exists e. split; [exact Ee|]. split; [exact We|]. eapply He; reflexivity.
Defined.

(** C5: the factory of every comparison returns for well-formed operands of the same
    width, however wide; the result is one bit, and wherever both operands have
    values it says whether the comparison of the values holds. *)
Theorem cmp_factories_correct `{!APInt, !ExprCompare} ConstArrayOpt k l r : wf l → wf r → getWidth l = getWidth r →
  ∃ e, cmp_make ConstArrayOpt k l r tt = Done e tt ∧ wf e ∧ getWidth e = Bool ∧
    ∀ env x y, eval env l = Some x → eval env r = Some y → eval env e = Some (bool_val (comparison k (getWidth l) x y)).
Proof.
  intros Hl Hr Hw. destruct (cmp_builds ConstArrayOpt k l r Hl Hr Hw) as (e & Ee & We & Le & He).
  exists e. split; [done|]. split; [done|]. split; [done|]. intros env x y Ex Ey. apply He, eval_cmp. eauto.
Qed.

(** zext(b0) == 300 is false, and (5 + b0) == 7 becomes 2 == b0. *)
Lemma cmp_factories_correct_witness :
  cmp_make true KEq (Constant 32 300) (ZExt (arg_byte 0) 32) tt = Done (Constant Bool 0) tt ∧
  ∃ e, cmp_make true KEq (Constant 8 7) (Arith KAdd (Constant 8 5) (arg_byte 0)) tt = Done e tt ∧
    wf e ∧ eval (λ _ i, 2 + i) e = Some 1 ∧ eval (λ _ i, 3 + i) e = Some 0.
Proof.
  assert (W0 : wf (Constant 8 7)) by (vm_compute; repeat split; congruence || by intros).
  assert (W1 : wf (Arith KAdd (Constant 8 5) (arg_byte 0))) by (vm_compute; repeat split; congruence || by intros).
  split; [vm_compute; reflexivity|].
  destruct (cmp_factories_correct true KEq _ _ W0 W1 eq_refl) as (e & Ee & We & Le & He).
  exists e. split; [exact Ee|]. split; [exact We|]. split; (rewrite (He _ 7 _ eq_refl eq_refl); reflexivity).
Defined.

(** C6: extraction, concatenation, zero and sign extension (to a smaller width too),
    negation, a read through an update list, selection and implication: every factory
    returns an expression that is well formed and has the width and, wherever it has
    one, the value of the node that was asked for.  A read whose index must
    equal that of a write, past writes it cannot equal, becomes the written value.
    Widths, and the sum of the widths of a concatenation, are below 2^32. *)
Theorem structural_factories_correct `{!APInt, !ExprCompare} ConstArrayOpt e l r w :
  wf e → wf l → wf r → 0 < w < 2 ^ 32 →
  (∀ off, 0 ≤ off → off + w ≤ getWidth e → builds (ExtractExpr_make e off w) (Extract e off w)) ∧
  (getWidth l + getWidth r < 2 ^ 32 → builds (ConcatExpr_make l r) (Concat l r)) ∧
  builds (ZExtExpr_make e w) (ZExt e w) ∧ builds (SExtExpr_make e w) (SExt e w) ∧ builds (NotExpr_make e) (Not e) ∧
  (∀ a ul, wf_array a → wf_updates ul → getWidth e = Int32 →
     builds (ReadExpr_make ConstArrayOpt a ul e) (Read a ul e)) ∧
  (getWidth e = Bool → getWidth l = getWidth r → builds (SelectExpr_make ConstArrayOpt e l r) (Select e l r)) ∧
  (getWidth l = Bool → getWidth r = Bool →
     builds (createImplies ConstArrayOpt l r) (Select l r (Constant Bool 1))).
Proof.
  intros He Hl Hr Hw. split_and!; intros.
  - apply ExtractExpr_builds. by split_and!; [| |lia|].
  - by apply ConcatExpr_builds.
  - by apply ZExtExpr_builds.
  - by apply SExtExpr_builds.
  - by apply NotExpr_builds.
  - by apply ReadExpr_builds.
  - by apply SelectExpr_builds.
  - by apply createImplies_builds.
Qed.

(** Bits 4 to 12 of two bytes side by side; a read past one write finds another. *)
Lemma structural_factories_correct_witness :
  let two := Concat (arg_byte 1) (arg_byte 0) in
  wf two ∧ (∃ e, ExtractExpr_make two 4 8 tt = Done e tt ∧ refines (Extract two 4 8) e) ∧
  ReadExpr_make true arg (UNode (Constant 32 1) (Constant 8 7) (UNode (Constant 32 2) (Constant 8 9) UNil)) (Constant 32 2) tt =
    Done (Constant 8 9) tt.
Proof.
  intros two. assert (W0 : wf two) by (vm_compute; repeat split; congruence || by intros).
  split; [exact W0|]. split; [|vm_compute; reflexivity].
  refine (proj1 (structural_factories_correct true two two two 8 W0 W0 W0 _) 4 _ _); [lia|lia|vm_compute; congruence].
Defined.

(** the expression for a variable of 8, 16, 32 or 64 bits that is stored in a
    symbolic array is well formed, has that width, and its value is the number whose
    bytes the array holds, the least significant first. *)
Theorem temp_read_little_endian `{!APInt, !ExprCompare} ConstArrayOpt a n :
  wf_array a → isSymbolicArray a = true → n = 1%nat ∨ n = 2%nat ∨ n = 4%nat ∨ n = 8%nat →
  ∃ e, createTempRead ConstArrayOpt a (8 * Z.of_nat n) tt = Done e tt ∧ wf e ∧ getWidth e = 8 * Z.of_nat n ∧
    ∀ env, eval env e = Some (little_endian env a n).
Proof.
  intros Ha Hs [->|[->|[->| ->]]].
  - exact (byte_reads_builds ConstArrayOpt a 0 8 Ha Hs ltac:(lia) ltac:(lia)).
  - exact (byte_reads_builds ConstArrayOpt a 1 16 Ha Hs ltac:(lia) ltac:(lia)).
  - exact (byte_reads_builds ConstArrayOpt a 3 32 Ha Hs ltac:(lia) ltac:(lia)).
  - exact (byte_reads_builds ConstArrayOpt a 7 64 Ha Hs ltac:(lia) ltac:(lia)).
Qed.

Lemma temp_read_little_endian_witness :
  ∃ e, createTempRead true arg 32 tt = Done e tt ∧ eval (λ _ i, i + 1) e = Some 67305985.
Proof.
  destruct (temp_read_little_endian true arg 4) as (e & Ee & _ & _ & He);
    [repeat split; (vm_compute; congruence) || by intros|reflexivity|auto|].
  exists e. split; [exact Ee|]. rewrite (He (λ _ i, i + 1)). reflexivity.
Defined.

(** C7: every expression that the factories build, from constants and from reads of
    arrays with lists of writes that are themselves built, is well formed: operands of
    binary nodes have the same width, extracts lie inside their operand, conditions
    are single bits, indices have 32 bits and bytes 8, and constants fit their width.
    The calls are those whose sums of widths, and of an extract's offset and width,
    do not wrap around at 2^32 ([extract_wraps] is the other case), and arithmetic is
    on operands of at most 64 bits. *)
Theorem built_typed `{!APInt, !ExprCompare} ConstArrayOpt e : built ConstArrayOpt e → wf e.
Proof. apply built_wf. Qed.

Lemma built_typed_witness : wf (ZExt (arg_byte 0) 32).
Proof.
  apply (built_typed true). apply (built_zext true (arg_byte 0) 32); [|lia|reflexivity].
  apply (built_read true arg UNil (Constant 32 0)); [|constructor| |done|reflexivity].
  - repeat split; (vm_compute; congruence) || by intros.
  - apply (built_constant true 0 32). lia.
Defined.


