(* ===== verification/ExprWeight.v ===== *)
(** * The weight of an expression

    A measure that the factories never increase: the expression a factory of
    src/klee/lib/Expr/Expr.cpp returns weighs no more than the node it is asked for, and
    less than it when an operand got lighter.  Rewriting expressions with the factories ends
    because of it.  Sums and products also stay narrow enough for the factories. *)
From S2P Require Import Prelude Expr ExprCreate ExprRefine ExprSums ExprSpec.

(** ** Weight *)
Definition arith_cost (k : ArithKind) : Z := match k with KOr | KShl | KLShr => 3 | _ => 1 end.
Definition cmp_cost (k : CmpKind) : Z :=
  match k with KEq => 1 | KNe | KUlt | KUgt | KSlt | KSgt => 3 | KUle | KUge | KSle | KSge => 5 end.

(** Extraction distributes over concatenation; the read of a constant array may
    become a disjunction over up to 100 positions. *)
Fixpoint weight (e : Expr) : Z :=
  match e with
  | Constant _ _ => 1
  | NotOptimized s | ZExt s _ | SExt s _ | Not s => weight s + 1
  | Extract s _ _ => 2 * weight s
  | Read _ ul i => 101 * weight i + 1000 + weight_updates ul
  | Select c t f => weight c + weight t + weight f + 6
  | Concat l r => weight l + weight r + 1
  | Arith k l r => weight l + weight r + arith_cost k
  | Cmp k l r => weight l + weight r + cmp_cost k
  end
with weight_updates (ul : UpdateList) : Z :=
  match ul with UNil => 0 | UNode i v next => weight i + weight v + weight_updates next end.

(** Arithmetic is on at most 64 bits. *)
Fixpoint narrow (e : Expr) : Prop :=
  match e with
  | Constant _ _ => True
  | NotOptimized s | ZExt s _ | SExt s _ | Not s | Extract s _ _ => narrow s
  | Read _ ul i => narrow i ∧ narrow_updates ul
  | Select c t f => narrow c ∧ narrow t ∧ narrow f
  | Concat l r | Cmp _ l r => narrow l ∧ narrow r
  | Arith _ l r => narrow l ∧ narrow r ∧ getWidth l ≤ 64
  end
with narrow_updates (ul : UpdateList) : Prop :=
  match ul with UNil => True | UNode i v next => narrow i ∧ narrow v ∧ narrow_updates next end.

Lemma arith_cost_pos k : 1 ≤ arith_cost k ≤ 3.
Proof. destruct k; cbn; lia. Qed.
Lemma cmp_cost_pos k : 1 ≤ cmp_cost k ≤ 5.
Proof. destruct k; cbn; lia. Qed.
Lemma weights_pos : (∀ e, 1 ≤ weight e) ∧ (∀ ul, 0 ≤ weight_updates ul).
Proof.
  apply Expr_UpdateList_ind; cbn; intros; try lia.
  - pose proof (arith_cost_pos k). lia.
  - pose proof (cmp_cost_pos k). lia.
Qed.
Lemma weight_pos e : 1 ≤ weight e.
Proof. apply weights_pos. Qed.
Lemma weight_updates_pos ul : 0 ≤ weight_updates ul.
Proof. apply weights_pos. Qed.

(** Every mentioned weight is positive. *)
Ltac weights :=
  repeat match goal with
  | |- context [weight ?e] => lazymatch goal with H : 1 ≤ weight e |- _ => fail | _ => pose proof (weight_pos e) end
  | H : context [weight ?e] |- _ => lazymatch goal with H : 1 ≤ weight e |- _ => fail | _ => pose proof (weight_pos e) end
  | |- context [weight_updates ?e] => lazymatch goal with H : 0 ≤ weight_updates e |- _ => fail | _ => pose proof (weight_updates_pos e) end
  end; lia.

Lemma constant_lightest e : isa_Constant e = false → 1 < weight e.
Proof.
  destruct e; try done; cbn; intros _; try weights.
  - pose proof (arith_cost_pos k). weights.
  - pose proof (cmp_cost_pos k). weights.
Qed.

(** ** Factories *)
(** What a factory returns, when it returns, is narrow and weighs at most [N]. *)
Definition small (N : Z) (m : res Expr) : Prop := wlp m (λ e _, narrow e ∧ weight e ≤ N) tt.
(** The same with its width. *)
Definition small_at (W N : Z) (m : res Expr) : Prop := wlp m (λ e _, narrow e ∧ weight e ≤ N ∧ getWidth e = W) tt.

Lemma bind_any {A B} (m : res A) (k : A → res B) Q : (∀ a, wlp (k a) Q tt) → wlp (m ≫= k) Q tt.
Proof. intros H. apply wlp_bind. unfold wlp. destruct (m tt) as [a []|]; [apply H|done]. Qed.
Lemma small_ret N e : narrow e → weight e ≤ N → small N (mret e).
Proof. intros. by apply wlp_ret. Qed.
Lemma small_at_ret W N e : narrow e → weight e ≤ N → getWidth e = W → small_at W N (mret e).
Proof. intros. by apply wlp_ret. Qed.
Lemma small_at_small W N m : small_at W N m → small N m.
Proof. intros H. eapply wlp_mono; [exact H|]. cbn. tauto. Qed.
Lemma small_mono N N' m : small N m → N ≤ N' → small N' m.
Proof. intros H ?. eapply wlp_mono; [exact H|]. cbn. intros e _ [? ?]. split; [done|lia]. Qed.
Lemma small_at_mono W N N' m : small_at W N m → N ≤ N' → small_at W N' m.
Proof. intros H ?. eapply wlp_mono; [exact H|]. cbn. intros e _ (? & ? & ?). split_and!; [done|lia|done]. Qed.
Lemma small_bind N N1 m k : small N1 m → (∀ e, narrow e → weight e ≤ N1 → small N (k e)) → small N (m ≫= k).
Proof. intros H Hk. apply wlp_bind. eapply wlp_mono; [exact H|]. intros e [] [? ?]. by apply Hk. Qed.
Lemma small_at_bind N1 W (m : res Expr) (k : Expr → res Expr) Q :
  small_at W N1 m → (∀ e, narrow e → weight e ≤ N1 → getWidth e = W → wlp (k e) Q tt) → wlp (m ≫= k) Q tt.
Proof. intros H Hk. apply wlp_bind. eapply wlp_mono; [exact H|]. intros e [] (? & ? & ?). by apply Hk. Qed.
Lemma small_assert b (m : res Expr) Q : (b = true → wlp m Q tt) → wlp (c_assert b;; m) Q tt.
Proof. intros H. apply wlp_bind, wlp_assert. exact H. Qed.

Section Factories.
Context `{HA : !APInt, HC : !ExprCompare} (CAO : bool).

(** A constant weighs as little as anything. *)
Lemma small_at_constant w v N : 1 ≤ N → small_at w N (mret (Constant w v)).
Proof. intros. apply small_at_ret; [done|cbn; lia|done]. Qed.
Lemma const_create_wlp v w (k : Expr → res Expr) Q : (∀ v', wlp (k (Constant w v')) Q tt) → wlp (Constant_create v w ≫= k) Q tt.
Proof.
  intros H. apply wlp_bind. unfold Constant_create. case_match; [|apply wlp_halt]. apply wlp_bind, wlp_assert. intros _. apply wlp_ret, H.
Qed.
Lemma small_const_create N v w : 1 ≤ N → small_at w N (Constant_create v w).
Proof. intros. unfold Constant_create. case_match; [|apply wlp_halt]. apply small_assert. intros _. by apply small_at_constant. Qed.

(** The shapes of the binary factories, case by case. *)
Lemma bcreate_r_wlp both pR pL c l r Q :
  (∀ w a b, l = Constant w a → r = Constant w b → wlp (both w a b) Q tt) →
  (∀ w a, l = Constant w a → isa_Constant r = false → getWidth r = w → wlp (pR w a r) Q tt) →
  (∀ w b, r = Constant w b → isa_Constant l = false → getWidth l = w → wlp (pL l w b) Q tt) →
  (getWidth l = getWidth r → wlp (c l r) Q tt) → wlp (bcreate_r both pR pL c l r) Q tt.
Proof.
  intros Hb HR HL Hc. unfold bcreate_r. apply small_assert. intros Hw%Z.eqb_eq.
  destruct l; destruct r; cbn in Hw; subst; (by eapply Hb) || (by eapply HR) || (by eapply HL) || (by apply Hc).
Qed.
Lemma bcreate_wlp both c l r Q :
  (∀ w a b, l = Constant w a → r = Constant w b → wlp (both w a b) Q tt) →
  (getWidth l = getWidth r → wlp (c l r) Q tt) → wlp (bcreate both c l r) Q tt.
Proof.
  intros Hb Hc. unfold bcreate. apply small_assert. intros Hw%Z.eqb_eq.
  destruct l; destruct r; cbn in Hw; subst; (by eapply Hb) || (by apply Hc).
Qed.
Lemma const_arith_small k w a b N : 1 ≤ N → small_at w N (const_arith k w a b).
Proof. intros. unfold const_arith. apply small_assert. intros _. by apply small_at_constant. Qed.

(** *** And, Or *)
Definition fits (l r : Expr) : Prop := narrow l ∧ narrow r ∧ (getWidth l = getWidth r → getWidth l ≤ 64).

Lemma and_partial l w v N : narrow l → getWidth l = w → w ≤ 64 → weight l + 2 ≤ N → small_at w N (AndExpr_createPartial l w v).
Proof.
  intros Hl Hw H64 HN. unfold AndExpr_createPartial. apply bind_any. intros ones. destruct ones; [apply small_at_ret; [done|weights|done]|].
  apply bind_any. intros zero. destruct zero; [apply small_at_constant; weights|].
  apply small_at_ret; [cbn; split_and!; [done|done|lia]|cbn; weights|done].
Qed.
Lemma or_partial l w v N : narrow l → getWidth l = w → w ≤ 64 → weight l + 4 ≤ N → small_at w N (OrExpr_createPartial l w v).
Proof.
  intros Hl Hw H64 HN. unfold OrExpr_createPartial. apply bind_any. intros ones. destruct ones; [apply small_at_constant; weights|].
  apply bind_any. intros zero. destruct zero; [apply small_at_ret; [done|weights|done]|].
  apply small_at_ret; [cbn; split_and!; [done|done|lia]|cbn; weights|done].
Qed.
Lemma and_small l r : fits l r → small_at (getWidth l) (weight l + weight r + 1) (AndExpr_make l r).
Proof.
  intros (Hl & Hr & H64). apply bcreate_r_wlp.
  - intros w a b -> ->. by apply const_arith_small.
  - intros w a -> _ Hw. apply and_partial; [done|done|cbn in *; lia|cbn; weights].
  - intros w b -> _ Hw. rewrite Hw. apply and_partial; [done|done|cbn in *; lia|cbn; weights].
  - intros Hw. apply small_at_ret; [cbn; auto|cbn; lia|done].
Qed.
Lemma or_small l r : fits l r → small_at (getWidth l) (weight l + weight r + 3) (OrExpr_make l r).
Proof.
  intros (Hl & Hr & H64). apply bcreate_r_wlp.
  - intros w a b -> ->. by apply const_arith_small.
  - intros w a -> _ Hw. apply or_partial; [done|done|cbn in *; lia|cbn; weights].
  - intros w b -> _ Hw. rewrite Hw. apply or_partial; [done|done|cbn in *; lia|cbn; weights].
  - intros Hw. apply small_at_ret; [cbn; auto|cbn; lia|done].
Qed.

(** *** Eq *)
Lemma eq_create_small l r N : narrow l → narrow r → weight l + weight r + 1 ≤ N → small_at Bool N (EqExpr_create l r).
Proof.
  intros Hl Hr HN. unfold EqExpr_create. case_match; [apply small_at_constant; weights|]. apply small_at_ret; [done|cbn; lia|done].
Qed.

(** The recursive call returns something small for a smaller right operand. *)
Definition eq_ready (w : Z) (r : Expr) : Prop := wf r ∧ narrow r ∧ getWidth r = w.
Definition eq_goal (w v : Z) (r : Expr) (partialR : Z → Z → Expr → res Expr) : Prop := small_at Bool (weight r + 2) (partialR w v r).
Section EqRec.
Context (partialR : Z → Z → Expr → res Expr) (HR : ∀ w v r, eq_ready w r → eq_goal w v r partialR).

Lemma eq_rec_constant e w v : wf e → narrow e → small_at Bool (weight e + 2) (EqExpr_make_rec partialR e (Constant w v)).
Proof.
  intros We Ne. apply bcreate_r_wlp.
  - intros w' a b -> _. apply small_at_constant. cbn. lia.
  - by intros w' a _ Hc.
  - intros w' b [= <- <-] _ Hw. by apply HR.
  - intros _. apply eq_create_small; [done|done|cbn; lia].
Qed.
Lemma is_zero_rec e : wf e → narrow e → small_at Bool (weight e + 2) (createIsZero_rec partialR e).
Proof. intros We Ne. apply const_create_wlp. intros v. by apply eq_rec_constant. Qed.

(** At most 100 positions of a constant array are listed. *)
Lemma const_array_small w v root ul index values : wf index → narrow index → narrow_updates ul →
  ∀ i n acc, 0 ≤ n ≤ 100 → narrow acc → getWidth acc = Bool → weight acc ≤ 1 + n * (weight index + 5) →
  small_at Bool (weight (Read root ul index) + 2) (const_array_loop partialR w v (Read root ul index) index values i n acc).
Proof.
  intros Wi Ni Nu. induction values as [|x values IH]; intros i n acc Hn Na La Ha; cbn [const_array_loop].
  - apply small_at_ret; [done| |done]. cbn. pose proof (weight_pos index). pose proof (weight_updates_pos ul). nia.
  - destruct (same _ _); [|by apply IH]. destruct (Z.ltb_spec 100 (n + 1)); [apply eq_create_small; [done|done|cbn; lia]|].
    eapply small_at_bind; [by apply eq_rec_constant|]. intros m Nm Hm Lm.
    eapply small_at_bind; [apply or_small; split_and!; [done|done|lia]|]. intros acc' Na' Ha' La'.
    apply IH; [lia|done|congruence|lia].
Qed.
Lemma try_const_array w v root ul index : wf index → narrow index → narrow_updates ul →
  small_at Bool (weight (Read root ul index) + 2) (TryConstArrayOpt partialR w v root ul index).
Proof.
  intros Wi Ni Nu. unfold TryConstArrayOpt. case_match; [apply eq_create_small; [done|done|cbn; lia]|].
  apply const_array_small; (done || cbn; lia).
Qed.
End EqRec.

Lemma eq_partial_small fuel : ∀ w v r, eq_ready w r → eq_goal w v r (EqExpr_createPartialR CAO fuel).
Proof.
  induction fuel as [|fuel IH]; intros w v r (Wr & Nr & Lr); unfold eq_goal; cbn [EqExpr_createPartialR]; [apply wlp_halt|].
  assert (Hother : small_at Bool (weight r + 2) (EqExpr_create (Constant w v) r)) by (apply eq_create_small; [done|done|cbn; lia]).
  set (N := weight r) in *. destruct (w =? Bool) eqn:Ew.
  - apply Z.eqb_eq in Ew. apply bind_any. intros t. destruct t; [apply small_at_ret; [done|lia|congruence]|].
    destruct r as [| | | | | | | | |k a b|k a b]; try exact Hother.
    + destruct k; try exact Hother. cbn in Wr, Nr, Lr. destruct Wr as (Wa & Wb & Wab), Nr as (Na & Nb & N64).
      eapply small_at_bind; [by apply is_zero_rec|]. intros x Nx Hx Lx. eapply small_at_bind; [by apply is_zero_rec|]. intros y Ny Hy Ly.
      eapply small_at_mono; [rewrite <-Lx; apply and_small; split_and!; [done|done|lia]|]. unfold N. cbn. lia.
    + destruct k; try exact Hother. destruct a as [w' v'| | | | | | | | | |]; try exact Hother. cbn in Wr, Nr.
      destruct (w' =? Bool) eqn:Ew'; [|exact Hother]. apply Z.eqb_eq in Ew'. apply bind_any. intros f. destruct f; [|exact Hother].
      apply small_at_ret; [tauto|unfold N; cbn; lia|]. destruct Wr as (_ & _ & E). cbn in E. congruence.
  - destruct r as [| |root ul index| | | |src w'|src w'| |k a b|]; try exact Hother.
    + destruct CAO; [|exact Hother]. cbn in Wr, Nr. apply try_const_array; [exact IH|tauto..].
    + case_match; [|apply small_const_create; unfold N; cbn; weights]. eapply small_at_mono; [apply eq_rec_constant; [done|by destruct Wr|done]|]. unfold N. cbn. lia.
    + case_match; [|apply small_const_create; unfold N; cbn; weights]. eapply small_at_mono; [apply eq_rec_constant; [done|by destruct Wr|done]|]. unfold N. cbn. lia.
    + cbn in Wr, Nr, Lr. destruct Wr as (_ & Wb & Wab), Nr as (_ & Nb & _).
      destruct k; try exact Hother; destruct a as [w' v'| | | | | | | | | |]; try exact Hother; cbn in Wab, Lr; subst;
        apply small_assert; intros _; (eapply small_at_mono; [apply IH; by split_and!|]); unfold N; cbn; lia.
Qed.
Lemma eq_partialR_small w v r : eq_ready w r → small_at Bool (weight r + 2) (eq_partialR CAO w v r).
Proof. intros. by apply eq_partial_small. Qed.
Lemma is_zero_small e : wf e → narrow e → small_at Bool (weight e + 2) (createIsZero CAO e).
Proof. apply is_zero_rec. intros. by apply eq_partialR_small. Qed.
Lemma eq_small l r : wf l → wf r → narrow l → narrow r → small_at Bool (weight l + weight r + 1) (EqExpr_make CAO l r).
Proof.
  intros Wl Wr Nl Nr. apply bcreate_r_wlp.
  - intros w a b -> ->. apply small_at_constant. cbn. lia.
  - intros w a -> _ Hw. eapply small_at_mono; [apply eq_partialR_small; by split_and!|cbn; lia].
  - intros w b -> _ Hw. eapply small_at_mono; [apply eq_partialR_small; by split_and!|cbn; lia].
  - intros _. apply eq_create_small; [done|done|lia].
Qed.
Lemma eq_constant_small w v r : wf r → narrow r → small_at Bool (weight r + 2) (EqExpr_make CAO (Constant w v) r).
Proof.
  intros Wr Nr. apply bcreate_r_wlp.
  - intros w' a b _ ->. by apply small_at_constant.
  - intros w' a [= <- <-] _ Hw. by apply eq_partialR_small.
  - by intros w' b _ Hc.
  - intros _. apply eq_create_small; [done|done|cbn; lia].
Qed.

(** *** Sums *)
(** Bits are added as exclusive disjunctions, which needs well-formed operands. *)
Definition ready (l r : Expr) : Prop :=
  narrow l ∧ narrow r ∧ (getWidth l = getWidth r → getWidth l ≤ 64 ∧ (getWidth l = Bool → wf l ∧ wf r)).
Definition ready_right (w : Z) (r : Expr) : Prop := narrow r ∧ getWidth r = w ∧ w ≤ 64 ∧ (w = Bool → wf r).
Lemma ready_fits l r : ready l r → fits l r.
Proof. intros (? & ? & H). split_and!; [done|done|apply H]. Qed.
Lemma ready_constant w v r : ready (Constant w v) r → getWidth r = w → ready_right w r.
Proof. intros (_ & Nr & H) Hw. destruct H as [? Hb]; [by cbn|]. split_and!; [done|done|done|intros; by apply Hb]. Qed.
Lemma ready_constant' w v l : ready l (Constant w v) → getWidth l = w → ready_right w l.
Proof. intros (Nl & _ & H) Hw. cbn in H. destruct (H Hw) as [? Hb]. split_and!; [done|done|lia|intros; apply Hb; congruence]. Qed.
(** The recursive calls on sums of more than a bit. *)
Lemma ready_wide l r W : narrow l → narrow r → getWidth l = W ∨ getWidth r = W → W ≤ 64 → W ≠ Bool → ready l r.
Proof. intros. split_and!; [done|done|]. intros E. split; [naive_solver lia|naive_solver congruence]. Qed.

Lemma xor_partial w v r : ready_right w r → small_at w (weight r + 2) (XorExpr_createPartialR CAO w v r).
Proof.
  intros (Nr & Lr & H64 & Hb). unfold XorExpr_createPartialR. apply bind_any. intros zero.
  destruct zero; [apply small_at_ret; [done|lia|done]|]. destruct (Z.eqb_spec w Bool) as [->|].
  - apply const_create_wlp. intros _. apply eq_partialR_small. split_and!; auto.
  - apply small_at_ret; [done|cbn; lia|done].
Qed.
Lemma xor_small l r : ready l r → small_at (getWidth l) (weight l + weight r + 1) (XorExpr_make CAO l r).
Proof.
  intros Hr. pose proof Hr as (Nl & Nr & H64). apply bcreate_r_wlp.
  - intros w a b -> ->. by apply const_arith_small.
  - intros w a -> _ Hw. eapply small_at_mono; [by eapply xor_partial, ready_constant|cbn; lia].
  - intros w b -> _ Hw. rewrite Hw. eapply small_at_mono; [by eapply xor_partial, ready_constant'|cbn; lia].
  - intros Hw. apply small_at_ret; [cbn; split_and!; [done|done|by apply H64]|cbn; lia|done].
Qed.
Lemma mul_small l r : ready l r → small_at (getWidth l) (weight l + weight r + 1) (MulExpr_make l r).
Proof.
  intros Hr. pose proof Hr as (Nl & Nr & H64).
  assert (Hp : ∀ w v e, ready_right w e → small_at w (weight e + 2) (MulExpr_createPartialR w v e)).
  { intros w v e (Ne & Le & Hw & _). unfold MulExpr_createPartialR. case_match; [apply and_partial; [done|done|done|lia]|].
    apply bind_any. intros one. destruct one; [apply small_at_ret; [done|lia|done]|].
    apply bind_any. intros zero. destruct zero; [apply small_at_constant; weights|apply small_at_ret; [done|cbn; lia|done]]. }
  apply bcreate_r_wlp.
  - intros w a b -> ->. by apply const_arith_small.
  - intros w a -> _ Hw. eapply small_at_mono; [by eapply Hp, ready_constant|cbn; lia].
  - intros w b -> _ Hw. rewrite Hw. eapply small_at_mono; [by eapply Hp, ready_constant'|cbn; lia].
  - intros Hw. apply small_at_ret; case_match; cbn; try (by split_and!; [done|done|apply H64]); lia || done.
Qed.

Definition sums_small (fuel : nat) : Prop :=
  (∀ w v r, ready_right w r → small_at w (weight r + 2) (AddExpr_createPartialR CAO fuel w v r)) ∧
  (∀ w v r, ready_right w r → small_at w (weight r + 2) (SubExpr_createPartialR CAO fuel w v r)) ∧
  (∀ l r, ready l r → getWidth l = getWidth r → small_at (getWidth l) (weight l + weight r + 1) (AddExpr_create CAO fuel l r)) ∧
  (∀ l r, ready l r → getWidth l = getWidth r → small_at (getWidth l) (weight l + weight r + 1) (SubExpr_create CAO fuel l r)) ∧
  (∀ l r, ready l r → small_at (getWidth l) (weight l + weight r + 1) (AddExpr_make_rec CAO fuel l r)) ∧
  (∀ l r, ready l r → small_at (getWidth l) (weight l + weight r + 1) (SubExpr_make_rec CAO fuel l r)).

(** Two calls, one on the result of the other. *)
Lemma two_sums (f g : Expr → Expr → res Expr) a b k W N :
  (∀ l r, ready l r → small_at (getWidth l) (weight l + weight r + 1) (f l r)) →
  (∀ l r, ready l r → small_at (getWidth l) (weight l + weight r + 1) (g l r)) →
  narrow a → narrow b → narrow k → getWidth a = W ∨ getWidth b = W → W ≤ 64 → W ≠ Bool →
  weight a + weight b + weight k + 2 ≤ N →
  (getWidth a = W → small_at W N (x ← f a b; g x k)) ∧ (getWidth k = W → small_at W N (x ← f a b; g k x)).
Proof.
  intros Hf Hg Na Nb Nk Hab H64 Hb HN. assert (ready a b) by by eapply ready_wide.
  split; intros E; (eapply small_at_bind; [by apply Hf|]); intros x Nx Hx Lx.
  - eapply small_at_mono; [rewrite <-E, <-Lx; apply Hg|lia]. apply (ready_wide _ _ W); auto. left. congruence.
  - eapply small_at_mono; [rewrite <-E; apply Hg|lia]. apply (ready_wide _ _ W); auto.
Qed.

Ltac regroup := eapply two_sums; try done; try (cbn; tauto); by auto || (cbn; lia).
Lemma sums_all_small fuel : sums_small fuel.
Proof.
  induction fuel as [|fuel (IAp & ISp & IA & IS & IAm & ISm)].
  { split_and!; intros; apply wlp_halt. }
  split_and!; cbn [AddExpr_createPartialR SubExpr_createPartialR AddExpr_create SubExpr_create AddExpr_make_rec SubExpr_make_rec].
  - intros w v r Hr. destruct (Z.eqb_spec w Bool) as [|Hb]; [by apply xor_partial|]. destruct Hr as (Nr & Lr & H64 & _).
    apply bind_any. intros zero. destruct zero; [apply small_at_ret; [done|lia|done]|].
    destruct (const_sum r) as [[[[] k] c]|] eqn:Es; [..|apply small_at_ret; [done|cbn; lia|done]];
      apply const_sum_spec in Es as (w' & v' & -> & -> & _); cbn in Nr; regroup.
  - intros w v r Hr. destruct (Z.eqb_spec w Bool) as [|Hb]; [by apply xor_partial|]. destruct Hr as (Nr & Lr & H64 & _).
    destruct (const_sum r) as [[[[] k] c]|] eqn:Es; [..|apply small_at_ret; [done|cbn; lia|done]];
      apply const_sum_spec in Es as (w' & v' & -> & -> & _); cbn in Nr; regroup.
  - intros l r Hlr Hw. pose proof Hlr as (Nl & Nr & H). destruct (H Hw) as [H64 _]. destruct (Z.eqb_spec (getWidth l) Bool) as [|Hb].
    { apply small_at_ret; [done|cbn; lia|done]. }
    destruct (const_sum l) as [[[[] k] a]|] eqn:El; [| |destruct (const_sum r) as [[[[] k] b]|] eqn:Er].
    1,2: apply const_sum_spec in El as (w & v & -> & -> & _); cbn in Nl, Hw, Hb, H64; regroup.
    1,2: apply const_sum_spec in Er as (w & v & -> & -> & _); cbn in Nr, Hw; regroup.
    apply small_at_ret; [done|cbn; lia|done].
  - intros l r Hlr Hw. pose proof Hlr as (Nl & Nr & H). destruct (H Hw) as [H64 _]. destruct (Z.eqb_spec (getWidth l) Bool) as [|Hb].
    { apply small_at_ret; [done|cbn; lia|done]. }
    case_match; [apply small_at_constant; weights|].
    destruct (const_sum l) as [[[[] k] a]|] eqn:El; [| |destruct (const_sum r) as [[[[] k] b]|] eqn:Er].
    1,2: apply const_sum_spec in El as (w & v & -> & -> & _); cbn in Nl, Hw, Hb, H64; regroup.
    1,2: apply const_sum_spec in Er as (w & v & -> & -> & _); cbn in Nr, Hw; regroup.
    apply small_at_ret; [done|cbn; lia|done].
  - intros l r Hlr. apply bcreate_r_wlp.
    + intros w a b -> ->. by apply const_arith_small.
    + intros w a -> _ Hw. eapply small_at_mono; [by eapply IAp, ready_constant|cbn; lia].
    + intros w b -> _ Hw. rewrite Hw. eapply small_at_mono; [by eapply IAp, ready_constant'|cbn; lia].
    + by apply IA.
  - intros l r Hlr. apply bcreate_r_wlp.
    + intros w a b -> ->. by apply const_arith_small.
    + intros w a -> _ Hw. eapply small_at_mono; [by eapply ISp, ready_constant|cbn; lia].
    + intros w b -> _ Hw. rewrite Hw. eapply small_at_mono; [by eapply IAp, ready_constant'|cbn; lia].
    + by apply IS.
Qed.

(** *** Divisions, shifts, comparisons *)
Lemma arith_node_small k l r : ready l r → getWidth l = getWidth r → small_at (getWidth l) (weight (Arith k l r)) (mret (Arith k l r)).
Proof. intros (Nl & Nr & H) Hw. apply small_at_ret; [cbn; split_and!; [done|done|by apply H]|lia|done]. Qed.
Lemma left_small k l r : narrow l → small_at (getWidth l) (weight (Arith k l r)) (mret l).
Proof. intros Nl. apply small_at_ret; [done| |done]. cbn. pose proof (arith_cost_pos k). weights. Qed.
(** A bit shifted by a bit. *)
Lemma shift_bit l r k : ready l r → getWidth l = getWidth r → getWidth l = Bool → 3 ≤ arith_cost k →
  small_at (getWidth l) (weight (Arith k l r)) (z ← createIsZero CAO r; AndExpr_make l z).
Proof.
  intros (Nl & Nr & H) Hw Hb Hk. destruct (H Hw) as [_ Hwf]. destruct (Hwf Hb) as [Wl Wr].
  eapply small_at_bind; [by apply is_zero_small|]. intros z Nz Hz Lz.
  eapply small_at_mono; [apply and_small; split_and!; [done|done|lia]|cbn; lia].
Qed.
Lemma arith_small k l r : wf l → wf r → narrow l → narrow r → getWidth l ≤ 64 →
  small_at (getWidth l) (weight (Arith k l r)) (arith_make CAO k l r).
Proof.
  intros Wl Wr Nl Nr H64. assert (Hr : ready l r) by (split_and!; [done|done|]; intros; split; [done|by split]).
  assert (Hboth : ∀ w a b, l = Constant w a → r = Constant w b → small_at (getWidth l) (weight (Arith k l r)) (const_arith k w a b)).
  { intros w a b -> ->. apply const_arith_small. cbn. pose proof (arith_cost_pos k). lia. }
  destruct k; cbn [arith_make]; try (apply bcreate_wlp; [exact Hboth|intros Hw]).
  - by apply sums_all_small.
  - by apply sums_all_small.
  - by apply mul_small.
  - unfold UDivExpr_create. case_match; [by apply left_small|by apply arith_node_small].
  - unfold SDivExpr_create. case_match; [by apply left_small|by apply arith_node_small].
  - unfold URemExpr_create. case_match; [|by apply arith_node_small]. apply Z.eqb_eq in H. rewrite H. apply small_const_create. cbn. weights.
  - unfold SRemExpr_create. case_match; [|by apply arith_node_small]. apply Z.eqb_eq in H. rewrite H. apply small_const_create. cbn. weights.
  - by apply and_small, ready_fits.
  - by apply or_small, ready_fits.
  - by apply xor_small.
  - unfold ShlExpr_create. destruct (Z.eqb_spec (getWidth l) Bool); [by apply (shift_bit l r KShl)|by apply arith_node_small].
  - unfold LShrExpr_create. destruct (Z.eqb_spec (getWidth l) Bool); [by apply (shift_bit l r KLShr)|by apply arith_node_small].
  - unfold AShrExpr_create. case_match; [by apply left_small|by apply arith_node_small].
Qed.

Lemma cmp_node_small k l r N : narrow l → narrow r → weight (Cmp k l r) ≤ N → small_at Bool N (mret (Cmp k l r)).
Proof. intros. by apply small_at_ret. Qed.
(** A comparison of bits: the negation of one, and the other. *)
Lemma compare_bits a b N (f : Expr → Expr → res Expr) : wf a → narrow a → narrow b →
  (∀ z, narrow z → weight z ≤ weight a + 2 → getWidth z = Bool → small_at Bool N (f z b)) →
  small_at Bool N (z ← createIsZero CAO a; f z b).
Proof. intros Wa Na Nb Hf. eapply small_at_bind; [by apply is_zero_small|]. intros z Nz Hz Lz. by apply Hf. Qed.
Lemma ult_small l r : wf l → wf r → narrow l → narrow r → small_at Bool (weight l + weight r + 3) (UltExpr_make CAO l r).
Proof.
  intros Wl Wr Nl Nr. apply bcreate_wlp; [intros; apply small_at_constant; weights|]. intros Hw. unfold UltExpr_create.
  destruct (Z.eqb_spec (getWidth l) Bool); [|apply cmp_node_small; cbn; done || lia].
  apply (compare_bits l r _ AndExpr_make); [done..|]. intros z Nz Hz Lz. rewrite <-Lz.
  eapply small_at_mono; [apply and_small; split_and!; [done|done|lia]|lia].
Qed.
Lemma ule_small l r : wf l → wf r → narrow l → narrow r → small_at Bool (weight l + weight r + 5) (UleExpr_make CAO l r).
Proof.
  intros Wl Wr Nl Nr. apply bcreate_wlp; [intros; apply small_at_constant; weights|]. intros Hw. unfold UleExpr_create.
  destruct (Z.eqb_spec (getWidth l) Bool); [|apply cmp_node_small; cbn; done || lia].
  apply (compare_bits l r _ OrExpr_make); [done..|]. intros z Nz Hz Lz. rewrite <-Lz.
  eapply small_at_mono; [apply or_small; split_and!; [done|done|lia]|lia].
Qed.
Lemma slt_small l r : wf l → wf r → narrow l → narrow r → small_at Bool (weight l + weight r + 3) (SltExpr_make CAO l r).
Proof.
  intros Wl Wr Nl Nr. apply bcreate_wlp; [intros; apply small_at_constant; weights|]. intros Hw. unfold SltExpr_create.
  destruct (Z.eqb_spec (getWidth l) Bool) as [Hb|]; [|apply cmp_node_small; cbn; done || lia].
  apply (compare_bits r l _ (λ z l, AndExpr_make l z)); [done..|]. intros z Nz Hz Lz. rewrite <-Hb.
  eapply small_at_mono; [apply and_small; split_and!; [done|done|lia]|lia].
Qed.
Lemma sle_small l r : wf l → wf r → narrow l → narrow r → small_at Bool (weight l + weight r + 5) (SleExpr_make CAO l r).
Proof.
  intros Wl Wr Nl Nr. apply bcreate_wlp; [intros; apply small_at_constant; weights|]. intros Hw. unfold SleExpr_create.
  destruct (Z.eqb_spec (getWidth l) Bool) as [Hb|]; [|apply cmp_node_small; cbn; done || lia].
  apply (compare_bits r l _ (λ z l, OrExpr_make l z)); [done..|]. intros z Nz Hz Lz. rewrite <-Hb.
  eapply small_at_mono; [apply or_small; split_and!; [done|done|lia]|lia].
Qed.
Lemma ne_small l r : wf l → wf r → narrow l → narrow r → getWidth l = getWidth r → small_at Bool (weight l + weight r + 3) (NeExpr_make CAO l r).
Proof.
  intros Wl Wr Nl Nr Hw. apply const_create_wlp. intros v. destruct (cmp_builds CAO KEq l r Wl Wr Hw) as (e & Ee & We & Le & _). cbn in Ee, Le.
  pose proof (eq_small l r Wl Wr Nl Nr) as H. unfold small_at, wlp in H. rewrite Ee in H. destruct H as (Ne & He & _).
  unfold wlp, mbind, M_bind. rewrite Ee. eapply small_at_mono; [by apply eq_constant_small|]. lia.
Qed.
Lemma cmp_small k l r : wf l → wf r → narrow l → narrow r → getWidth l = getWidth r → small_at Bool (weight (Cmp k l r)) (cmp_make CAO k l r).
Proof.
  intros Wl Wr Nl Nr Hw. destruct k; cbn [cmp_make];
    (eapply small_at_mono; [(by apply eq_small) || (by apply ne_small) || (by apply ult_small) || (by apply ule_small) || (by apply slt_small) || (by apply sle_small)|]);
    cbn; lia.
Qed.

(** *** Concatenation and extraction *)
Lemma slices_small fuel :
  (∀ l r, narrow l → narrow r → small (weight l + weight r + 1) (ConcatExpr_make_rec fuel l r)) ∧
  (∀ e off w, narrow e → small (2 * weight e) (ExtractExpr_make_rec fuel e off w)).
Proof.
  induction fuel as [|fuel [IC IE]]; (split; intros; cbn [ConcatExpr_make_rec ExtractExpr_make_rec]; [|]; try apply wlp_halt).
  - assert (small (weight l + weight r + 1) (mret (Concat l r))) as Hn by (apply small_ret; [done|cbn; lia]).
    destruct l, r; try exact Hn; [apply small_ret; [done|cbn; lia]|]. case_match; [|exact Hn].
    eapply small_mono; [by apply IE|]. cbn. weights.
  - apply small_assert. intros _. case_match; [apply small_ret; [done|weights]|].
    assert (small (2 * weight e) (mret (Extract e off w))) as Hn by (apply small_ret; [done|cbn; lia]).
    destruct e as [| | | |x y| | | | | |]; try exact Hn; [apply small_ret; [done|cbn; lia]|]. cbn in H. destruct H as [Nx Ny].
    case_match; [eapply small_mono; [by apply IE|cbn; weights]|]. case_match; [eapply small_mono; [by apply IE|cbn; weights]|].
    eapply small_bind; [by apply IE|]. intros l Nl Hl. eapply small_bind; [by apply IE|]. intros r Nr Hr.
    eapply small_mono; [by apply IC|]. cbn. lia.
Qed.
Lemma concat_small l r : narrow l → narrow r → small (weight (Concat l r)) (ConcatExpr_make l r).
Proof. apply slices_small. Qed.
Lemma extract_small e off w : narrow e → small (weight (Extract e off w)) (ExtractExpr_make e off w).
Proof. apply slices_small. Qed.

(** *** The other kinds *)
Lemma extend_small e w (f : Z → Z → Expr) (node : Expr) : narrow e → getWidth e ≤ w → narrow node → weight node = weight e + 1 →
  (∀ w0 v, isa_Constant (f w0 v) = true) →
  small (weight node) (if w =? getWidth e then mret e else if w <? getWidth e then ExtractExpr_make e 0 w
    else mret (match e with Constant w0 v => f w0 v | _ => node end)).
Proof.
  intros Ne Hw Nn Hn Hf. case_match; [apply small_ret; [done|lia]|]. destruct (Z.ltb_spec w (getWidth e)); [lia|].
  destruct e; try (apply small_ret; [done|lia]). specialize (Hf width value). destruct (f width value); try done. apply small_ret; [done|cbn in *; lia].
Qed.
Lemma zext_small e w : narrow e → getWidth e ≤ w → small (weight (ZExt e w)) (ZExtExpr_make e w).
Proof. intros. by apply (extend_small e w (λ w0 v, const_zext w0 v w) (ZExt e w)). Qed.
Lemma sext_small e w : narrow e → getWidth e ≤ w → small (weight (SExt e w)) (SExtExpr_make e w).
Proof. intros. by apply (extend_small e w (λ w0 v, const_sext w0 v w) (SExt e w)). Qed.
Lemma not_small e : narrow e → small (weight (Not e)) (NotExpr_make e).
Proof. intros. unfold NotExpr_make. destruct e; apply small_ret; try done; cbn; lia. Qed.

Lemma read_scan_small ul i : narrow_updates ul → wlp (read_scan CAO ul i) (λ o _, ∀ v, o = Some v → narrow v ∧ weight v ≤ weight_updates ul) tt.
Proof.
  induction ul as [|j v next IH]; cbn [read_scan narrow_updates weight_updates]; intros Nu; [by apply wlp_ret|]. destruct Nu as (Nj & Nv & Nn).
  apply bind_any. intros c. destruct c; try (by apply wlp_ret). apply bind_any. intros t. destruct t.
  - apply wlp_ret. intros ? [= <-]. split; [done|weights].
  - eapply wlp_mono; [by apply IH|]. cbn. intros o _ Ho v' Hv. destruct (Ho v' Hv). split; [done|weights].
Qed.
Lemma read_small a ul i : narrow i → narrow_updates ul → small (weight (Read a ul i)) (ReadExpr_make CAO a ul i).
Proof.
  intros Ni Nu. apply wlp_bind. eapply wlp_mono; [by apply read_scan_small|]. intros [v|] [] Ho; apply wlp_ret.
  - destruct (Ho v eq_refl). split; [done|cbn; weights].
  - split; [done|lia].
Qed.
(** A selection of bits with a constant branch. *)
Lemma select_bit c x N (b : bool) : wf c → narrow c → getWidth c = Bool → narrow x → getWidth x = Bool → weight x + weight c + 6 ≤ N →
  small N (if b then OrExpr_make c x else z ← createIsZero CAO c; AndExpr_make z x) ∧
  small N (if b then z ← createIsZero CAO c; OrExpr_make z x else AndExpr_make c x).
Proof.
  intros Wc Nc Lc Nx Lx Hx.
  assert (Hz : ∀ g, (∀ z, narrow z → weight z ≤ weight c + 2 → getWidth z = Bool → small N (g z)) → small N (z ← createIsZero CAO c; g z)).
  { intros g Hg. eapply small_at_bind; [by apply is_zero_small|]. exact Hg. }
  split; destruct b; try (apply Hz; intros z Nz Hzw Lz);
    (eapply small_mono; [eapply small_at_small; (apply or_small || apply and_small); split_and!; [done|done|lia]|lia]).
Qed.
Lemma select_small c t f : wf c → narrow c → narrow t → narrow f → small (weight (Select c t f)) (SelectExpr_make CAO c t f).
Proof.
  intros Wc Nc Nt Nf. unfold SelectExpr_make. apply small_assert. intros Hc%Z.eqb_eq. apply small_assert. intros Ht%Z.eqb_eq.
  assert (Hn : small (weight (Select c t f)) (mret (Select c t f))) by (apply small_ret; [done|lia]).
  assert (Hst : ∀ b : bool, small (weight (Select c t f)) (mret (if b then t else f))) by (intros []; apply small_ret; try done; cbn; weights).
  destruct (isa_Constant c) eqn:Ec; [destruct c; try done; apply bind_any; exact Hst|].
  set (N := weight (Select c t f)) in *. assert (HN : weight f + weight c + 6 ≤ N ∧ weight t + weight c + 6 ≤ N) by (unfold N; cbn; weights).
  clearbody N. cut (small N (if same t f then mret t else if getWidth t =? Bool then
    match t, f with
    | Constant w v, _ => b ← isTrue w v; if (b : bool) then OrExpr_make c f else z ← createIsZero CAO c; AndExpr_make z f
    | _, Constant w v => b ← isTrue w v; if (b : bool) then z ← createIsZero CAO c; OrExpr_make z t else AndExpr_make c t
    | _, _ => mret (Select c t f)
    end else mret (Select c t f))); [by destruct c|].
  case_match; [exact (Hst true)|]. destruct (Z.eqb_spec (getWidth t) Bool) as [Hb|]; [|done].
  destruct t; [|destruct f; try exact Hn..]; apply bind_any; intros b; apply select_bit; done || lia || congruence.
Qed.
End Factories.
