(* ===== verification/Memory.v ===== *)
(** * Memory objects

    src/klee/lib/Core/Memory.cpp, Memory.h: the contents of a memory object.  A byte is
    concrete (its value is in [concreteStore]), a cached expression
    ([knownSymbolics]), or in the list of updates of an array; a byte whose value is
    in the updates is flushed.  An object without an array gets a constant array when
    its updates are first read.  src/klee/include/klee/util/BitArray.h: a bit per byte
    of an object, in words of 32 bits; the accesses fail outside the words.

    [read8] and [write8] are overloaded: the suffix [_c] is for a concrete offset,
    [_e] for an expression; [write8_v] writes an expression at a concrete offset. *)
From stdpp Require Import pretty.
From S2P Require Import Prelude Expr ExprCreate.

(** ** Arrays of bits *)

Abbreviation BitArray := (list Z).

(** The sum is taken in 32 bits. *)
Definition words_of (size : Z) : Z := u32 (size + 31) `div` 32.
Definition new_BitArray (size : Z) (value : bool) : BitArray :=
  replicate (Z.to_nat (words_of size)) (if value then 2 ^ 32 - 1 else 0).

Definition bit_get (b : BitArray) (idx : Z) : option bool :=
  w ← b !! Z.to_nat (idx `div` 32); Some (negb (Z.land (Z.shiftr w (Z.land idx 31)) 1 =? 0)).
Definition bit_set (b : BitArray) (idx : Z) : option BitArray :=
  w ← b !! Z.to_nat (idx `div` 32);
  Some (<[Z.to_nat (idx `div` 32) := Z.lor w (u32 (Z.shiftl 1 (Z.land idx 31)))]> b).
Definition bit_unset (b : BitArray) (idx : Z) : option BitArray :=
  w ← b !! Z.to_nat (idx `div` 32);
  Some (<[Z.to_nat (idx `div` 32) := Z.land w (u32 (Z.lnot (Z.shiftl 1 (Z.land idx 31))))]> b).

(** ** Laws *)
(** An array for [size] bits; [size + 31] fits 32 bits. *)
Definition bits_for (size : Z) (b : BitArray) : Prop :=
  0 ≤ size < 2 ^ 32 - 31 ∧ length b = Z.to_nat ((size + 31) `div` 32).

Lemma land_31 idx : Z.land idx 31 = idx `mod` 32.
Proof. change 31 with (Z.ones 5). by rewrite Z.land_ones. Qed.
Lemma word_bit w k : 0 ≤ k → negb (Z.land (Z.shiftr w k) 1 =? 0) = Z.testbit w k.
Proof.
  intros Hk. change 1 with (Z.ones 1) at 1. rewrite Z.land_ones, <-Z.bit0_mod, Z.shiftr_spec, Z.add_0_l by lia. by destruct (Z.testbit w k).
Qed.

Lemma bit_get_word b idx w : b !! Z.to_nat (idx `div` 32) = Some w → bit_get b idx = Some (Z.testbit w (idx `mod` 32)).
Proof. intros E. unfold bit_get. rewrite E. cbn. rewrite land_31, word_bit; [done|]. apply Z.mod_pos_bound. lia. Qed.

Lemma bits_for_word size b idx : bits_for size b → 0 ≤ idx < size → is_Some (b !! Z.to_nat (idx `div` 32)).
Proof. intros [Hs Hl] Hi. apply lookup_lt_is_Some_2. rewrite Hl. Z.to_euclidean_division_equations; lia. Qed.

Lemma new_bits_for size v : 0 ≤ size < 2 ^ 32 - 31 → bits_for size (new_BitArray size v).
Proof. intros Hs. split; [done|]. unfold new_BitArray, words_of. rewrite length_replicate, wrapu_small; [done|lia]. Qed.
Lemma bit_get_new size v idx : 0 ≤ size < 2 ^ 32 - 31 → 0 ≤ idx < size → bit_get (new_BitArray size v) idx = Some v.
Proof.
  intros Hs Hi. destruct (bits_for_word _ _ idx (new_bits_for size v Hs) Hi) as [w E].
  rewrite (bit_get_word _ _ _ E). f_equal. apply lookup_replicate in E as [-> _].
  pose proof (Z.mod_pos_bound idx 32 ltac:(lia)). destruct v; [|apply Z.bits_0].
  change (2 ^ 32 - 1) with (Z.ones 32). apply Z.ones_spec_low. lia.
Qed.

(** A word of bits of which one is changed. *)
Lemma bit_get_insert b i j w w' : 0 ≤ i → 0 ≤ j → b !! Z.to_nat (i `div` 32) = Some w →
  (∀ k, 0 ≤ k < 32 → k ≠ i `mod` 32 → Z.testbit w' k = Z.testbit w k) →
  bit_get (<[Z.to_nat (i `div` 32) := w']> b) j =
    if decide (i = j) then Some (Z.testbit w' (i `mod` 32)) else bit_get b j.
Proof.
  intros Hi Hj E Hk. pose proof (lookup_lt_Some _ _ _ E) as Hl. pose proof (Z.mod_pos_bound j 32 ltac:(lia)).
  destruct (decide (Z.to_nat (i `div` 32) = Z.to_nat (j `div` 32))) as [Ed|Ed].
  - rewrite (bit_get_word _ j w') by (rewrite <-Ed; by apply list_lookup_insert_eq).
    rewrite (bit_get_word _ j w) by congruence. case_decide as Hij; [by subst|].
    rewrite Hk; [done|lia|]. intros E'. apply Hij. apply Z2Nat.inj in Ed; [|by apply Z.div_pos; lia..].
    rewrite (Z.div_mod i 32), (Z.div_mod j 32) by lia. congruence.
  - rewrite decide_False by congruence. unfold bit_get. by rewrite list_lookup_insert_ne.
Qed.

Lemma bit_set_spec size b i : bits_for size b → 0 ≤ i < size →
  ∃ b', bit_set b i = Some b' ∧ bits_for size b' ∧
    ∀ j, 0 ≤ j < size → bit_get b' j = if decide (i = j) then Some true else bit_get b j.
Proof.
  intros Hb Hi. destruct (bits_for_word _ _ _ Hb Hi) as [w E]. unfold bit_set. rewrite E. eexists. split; [done|].
  split; [split; [apply Hb|rewrite length_insert; apply Hb]|]. intros j Hj. pose proof (Z.mod_pos_bound i 32 ltac:(lia)).
  erewrite bit_get_insert; [|lia|lia|done|]; rewrite land_31.
  - case_decide; [|done]. rewrite Z.lor_spec, testbit_wrapu, Z.shiftl_spec, Z.sub_diag by lia. by rewrite orb_true_r.
  - intros k Hk Hne. rewrite Z.lor_spec, testbit_wrapu, Z.shiftl_spec by lia.
    change 1 with (2 ^ 0) at 1. rewrite Z.pow2_bits_false by lia.
    apply orb_false_r.
Qed.

Lemma bit_unset_spec size b i : bits_for size b → 0 ≤ i < size →
  ∃ b', bit_unset b i = Some b' ∧ bits_for size b' ∧
    ∀ j, 0 ≤ j < size → bit_get b' j = if decide (i = j) then Some false else bit_get b j.
Proof.
  intros Hb Hi. destruct (bits_for_word _ _ _ Hb Hi) as [w E]. unfold bit_unset. rewrite E. eexists. split; [done|].
  split; [split; [apply Hb|rewrite length_insert; apply Hb]|]. intros j Hj. pose proof (Z.mod_pos_bound i 32 ltac:(lia)).
  erewrite bit_get_insert; [|lia|lia|done|]; rewrite land_31.
  - case_decide; [|done]. rewrite Z.land_spec, testbit_wrapu, Z.lnot_spec, Z.shiftl_spec, Z.sub_diag by lia.
    by rewrite andb_false_r.
  - intros k Hk Hne. rewrite Z.land_spec, testbit_wrapu, Z.lnot_spec, Z.shiftl_spec by lia.
    change 1 with (2 ^ 0) at 1. rewrite Z.pow2_bits_false by lia. apply andb_true_r.
Qed.

Lemma bit_get_some size b i : bits_for size b → 0 ≤ i < size → is_Some (bit_get b i).
Proof. intros Hb Hi. destruct (bits_for_word _ _ _ Hb Hi) as [w E]. unfold bit_get. rewrite E. by eexists. Qed.

(** ** Objects *)

(** ** Memory objects *)
Record MemoryObject := mkMO { mo_id : nat; mo_address : Z; mo_size : Z; mo_isLocal : bool; mo_isGlobal : bool; isUserSpecified : bool }.

(** The fields that the reads and writes use; [updates] is [root] and [head]. *)
Record ObjectState := mkOS {
  os_object : MemoryObject;
  copyOnWriteOwner : Z;
  concreteStore : list Z;
  concreteMask : option BitArray;
  flushMask : option BitArray;
  knownSymbolics : option (list (option Expr));
  root : option Array;
  head : UpdateList;
  os_size : Z;
  readOnly : bool
}.

Definition set_owner k s := mkOS (os_object s) k (concreteStore s) (concreteMask s) (flushMask s) (knownSymbolics s) (root s) (head s) (os_size s) (readOnly s).
Definition set_store x s := mkOS (os_object s) (copyOnWriteOwner s) x (concreteMask s) (flushMask s) (knownSymbolics s) (root s) (head s) (os_size s) (readOnly s).
Definition set_cmask x s := mkOS (os_object s) (copyOnWriteOwner s) (concreteStore s) x (flushMask s) (knownSymbolics s) (root s) (head s) (os_size s) (readOnly s).
Definition set_fmask x s := mkOS (os_object s) (copyOnWriteOwner s) (concreteStore s) (concreteMask s) x (knownSymbolics s) (root s) (head s) (os_size s) (readOnly s).
Definition set_known x s := mkOS (os_object s) (copyOnWriteOwner s) (concreteStore s) (concreteMask s) (flushMask s) x (root s) (head s) (os_size s) (readOnly s).
Definition set_updates r h s := mkOS (os_object s) (copyOnWriteOwner s) (concreteStore s) (concreteMask s) (flushMask s) (knownSymbolics s) r h (os_size s) (readOnly s).
Definition set_readOnly x s := mkOS (os_object s) (copyOnWriteOwner s) (concreteStore s) (concreteMask s) (flushMask s) (knownSymbolics s) (root s) (head s) (os_size s) x.

(** An object and the number of arrays made so far. *)
Record objw := mkObjw { obj : ObjectState; narrays : nat }.
Abbreviation O := (M objw).
Definition upd_obj (f : ObjectState → ObjectState) : O unit := modify (λ w, mkObjw (f (obj w)) (narrays w)).
Definition get_obj : O ObjectState := gets obj.

(** A call of an expression factory. *)
Definition build {A} (m : res A) : O A := λ w,
  match m tt with Done a _ => Done a w | Halt e _ => Halt e w end.

Section Objects.
Context `{!APInt, !ExprCompare} (ConstArrayOpt UseConstantArrays isLittleEndian : bool) (PointerWidth : Z).

(** *** Bounds checks *)
Definition getBaseExpr (mo : MemoryObject) : res Expr := Constant_create (mo_address mo) PointerWidth.
Definition getSizeExpr (mo : MemoryObject) : res Expr := Constant_create (mo_size mo) PointerWidth.
Definition getOffsetExpr (mo : MemoryObject) (pointer : Expr) : res Expr :=
  b ← getBaseExpr mo; SubExpr_make ConstArrayOpt pointer b.
Definition getBoundsCheckOffset (mo : MemoryObject) (offset : Expr) : res Expr :=
  if mo_size mo =? 0 then EqExpr_make ConstArrayOpt offset (Constant_alloc 0 PointerWidth)
  else s ← getSizeExpr mo; UltExpr_make ConstArrayOpt offset s.
Definition getBoundsCheckOffset_bytes (mo : MemoryObject) (offset : Expr) (bytes : Z) : res Expr :=
  if bytes <=? mo_size mo
  then UltExpr_make ConstArrayOpt offset (Constant_alloc (u32 (mo_size mo - bytes + 1)) PointerWidth)
  else mret (Constant_alloc 0 Bool).
Definition getBoundsCheckPointer (mo : MemoryObject) (pointer : Expr) : res Expr :=
  o ← getOffsetExpr mo pointer; getBoundsCheckOffset mo o.
Definition getBoundsCheckPointer_bytes (mo : MemoryObject) (pointer : Expr) (bytes : Z) : res Expr :=
  o ← getOffsetExpr mo pointer; getBoundsCheckOffset_bytes mo o bytes.

(** *** The state of a byte *)
Definition bit (o : option BitArray) (dflt : bool) (offset : Z) : O bool :=
  match o with None => mret dflt | Some b => deref (bit_get b offset) end.
Definition isByteConcrete (offset : Z) : O bool := s ← get_obj; bit (concreteMask s) true offset.
Definition isByteFlushed (offset : Z) : O bool :=
  s ← get_obj;
  match flushMask s with None => mret false | Some b => x ← deref (bit_get b offset); mret (negb x) end.
Definition known_at (offset : Z) : O (option Expr) :=
  s ← get_obj;
  match knownSymbolics s with None => mret None | Some l => deref (l !! Z.to_nat offset) end.
Definition isByteKnownSymbolic (offset : Z) : O bool := x ← known_at offset; mret (bool_decide (x ≠ None)).

Definition markByteConcrete (offset : Z) : O unit :=
  s ← get_obj;
  match concreteMask s with
  | Some b => b' ← deref (bit_set b offset); upd_obj (set_cmask (Some b'))
  | None => mret tt
  end.
Definition markByteSymbolic (offset : Z) : O unit :=
  s ← get_obj;
  b' ← deref (bit_unset (default (new_BitArray (os_size s) true) (concreteMask s)) offset);
  upd_obj (set_cmask (Some b')).
Definition markByteUnflushed (offset : Z) : O unit :=
  s ← get_obj;
  match flushMask s with
  | Some b => b' ← deref (bit_set b offset); upd_obj (set_fmask (Some b'))
  | None => mret tt
  end.
(** Without a mask a new one is made with every byte flushed. *)
Definition markByteFlushed (offset : Z) : O unit :=
  s ← get_obj;
  match flushMask s with
  | None => upd_obj (set_fmask (Some (new_BitArray (os_size s) false)))
  | Some b => b' ← deref (bit_unset b offset); upd_obj (set_fmask (Some b'))
  end.
Definition setKnownSymbolic (offset : Z) (value : option Expr) : O unit :=
  s ← get_obj;
  match knownSymbolics s, value with
  | Some l, _ => _ ← deref (l !! Z.to_nat offset); upd_obj (set_known (Some (<[Z.to_nat offset := value]> l)))
  | None, Some _ =>
    let l := replicate (Z.to_nat (os_size s)) None in
    _ ← deref (l !! Z.to_nat offset); upd_obj (set_known (Some (<[Z.to_nat offset := value]> l)))
  | None, None => mret tt
  end.

(** *** Updates *)
(** [UpdateList::extend], with the assertion of [UpdateNode]. *)
Definition extend (index value : Expr) : O unit :=
  c_assert (getWidth value =? Int8);; upd_obj (λ s, set_updates (root s) (UNode index value (head s)) s).

(** The writes with the oldest first. *)
Fixpoint writes (ul : UpdateList) (acc : list (Expr * Expr)) : list (Expr * Expr) :=
  match ul with UNil => acc | UNode i v next => writes next ((i, v) :: acc) end.

(** Concrete writes go into the constant array, up to the first that is not. *)
Fixpoint pull_concrete (l : list (Expr * Expr)) (contents : list Z) : O (list Z * list (Expr * Expr)) :=
  match l with
  | (Constant wi i, Constant wv v) :: l' =>
    c_assert (wi <=? 64);;
    _ ← deref (contents !! Z.to_nat i);
    pull_concrete l' (<[Z.to_nat i := v]> contents)
  | _ => mret (contents, l)
  end.
Fixpoint extend_all (l : list (Expr * Expr)) : O unit :=
  match l with [] => mret tt | (i, v) :: l => extend i v;; extend_all l end.

Definition new_array (name : string) (size : Z) (values : list Z) : O Array :=
  w ← get;
  let a := mkArray (narrays w) (name +:+ pretty (narrays w)) size values in
  put (mkObjw (obj w) (S (narrays w)));; mret a.

Definition getUpdates : O (Array * UpdateList) :=
  s ← get_obj;
  match root s with
  | Some a => mret (a, head s)
  | None =>
    p ← pull_concrete (writes (head s) []) (replicate (Z.to_nat (os_size s)) 0);
    array ← new_array "const_arr" (os_size s) p.1;
    upd_obj (set_updates (Some array) UNil);;
    extend_all p.2;;
    s ← get_obj; mret (array, head s)
  end.

(** *** Flushing *)
(** One byte of the loops of [flushRangeForRead] and [flushRangeForWrite]. *)
Definition flush_update (offset : Z) : O unit :=
  concrete ← isByteConcrete offset;
  s ← get_obj;
  i ← build (Constant_create offset Int32);
  if (concrete : bool) then
    x ← deref (concreteStore s !! Z.to_nat offset);
    v ← build (Constant_create x Int8); extend i v
  else
    k ← known_at offset; c_assert (bool_decide (k ≠ None));; e ← deref k; extend i e.
Definition unset_flush (offset : Z) : O unit :=
  s ← get_obj; m ← deref (flushMask s); b ← deref (bit_unset m offset); upd_obj (set_fmask (Some b)).

Definition flush_byte_read (offset : Z) : O unit :=
  f ← isByteFlushed offset;
  if (f : bool) then mret tt else flush_update offset;; unset_flush offset.
Definition clear_byte (offset : Z) : O unit :=
  concrete ← isByteConcrete offset;
  if (concrete : bool) then markByteSymbolic offset
  else k ← isByteKnownSymbolic offset; if (k : bool) then setKnownSymbolic offset None else mret tt.
Definition flush_byte_write (offset : Z) : O unit :=
  f ← isByteFlushed offset;
  if (f : bool) then clear_byte offset
  else
    flush_update offset;;
    concrete ← isByteConcrete offset;
    (if (concrete : bool) then markByteSymbolic offset else setKnownSymbolic offset None);;
    unset_flush offset.

(** [for (offset=base; offset<base+n; offset++)]. *)
Fixpoint for_range (f : Z → O unit) (base : Z) (n : nat) : O unit :=
  match n with Datatypes.O => mret tt | S n => f base;; for_range f (base + 1) n end.
Definition ensure_flush_mask : O unit :=
  upd_obj (λ s, set_fmask (Some (default (new_BitArray (os_size s) true) (flushMask s))) s).
Definition flushRangeForRead (rangeBase rangeSize : Z) : O unit :=
  ensure_flush_mask;; for_range flush_byte_read rangeBase (Z.to_nat rangeSize).
Definition flushRangeForWrite (rangeBase rangeSize : Z) : O unit :=
  ensure_flush_mask;; for_range flush_byte_write rangeBase (Z.to_nat rangeSize).

(** *** One byte *)
Definition read8_c (offset : Z) : O Expr :=
  concrete ← isByteConcrete offset;
  s ← get_obj;
  if (concrete : bool) then x ← deref (concreteStore s !! Z.to_nat offset); build (Constant_create x Int8)
  else
    k ← known_at offset;
    match k with
    | Some e => mret e
    | None =>
      f ← isByteFlushed offset; c_assert f;;
      u ← getUpdates; i ← build (Constant_create offset Int32);
      build (ReadExpr_make ConstArrayOpt u.1 u.2 i)
    end.
(** The range of an offset is the whole object. *)
Definition fastRangeCheckOffset (offset : Expr) : O (Z * Z) := s ← get_obj; mret (0, os_size s).
Definition read8_e (offset : Expr) : O Expr :=
  c_assert (negb (isa_Constant offset));;
  r ← fastRangeCheckOffset offset; flushRangeForRead r.1 r.2;;
  u ← getUpdates; i ← build (ZExtExpr_make offset Int32);
  build (ReadExpr_make ConstArrayOpt u.1 u.2 i).

Definition write8_c (offset value : Z) : O unit :=
  s ← get_obj;
  _ ← deref (concreteStore s !! Z.to_nat offset);
  upd_obj (set_store (<[Z.to_nat offset := value]> (concreteStore s)));;
  setKnownSymbolic offset None;; markByteConcrete offset;; markByteUnflushed offset.
Definition write8_v (offset : Z) (value : Expr) : O unit :=
  match value with
  | Constant w v => x ← build (getZExtValue 8 w v); write8_c offset x
  | _ => setKnownSymbolic offset (Some value);; markByteSymbolic offset;; markByteUnflushed offset
  end.
Definition write8_e (offset value : Expr) : O unit :=
  c_assert (negb (isa_Constant offset));;
  r ← fastRangeCheckOffset offset; flushRangeForWrite r.1 r.2;;
  i ← build (ZExtExpr_make offset Int32); extend i value.

(** *** Values of several bytes *)
Definition byte_index (NumBytes i : Z) : Z := if isLittleEndian then i else NumBytes - i - 1.

Fixpoint read_bytes (rd : Z → O Expr) (NumBytes : Z) (n : nat) (i : Z) (Res : option Expr) : O Expr :=
  match n with
  | Datatypes.O => deref Res
  | S n =>
    Byte ← rd (byte_index NumBytes i);
    r ← match Res with None => mret Byte | Some r => build (ConcatExpr_make Byte r) end;
    read_bytes rd NumBytes n (i + 1) (Some r)
  end.
Definition read_with (rd : Z → O Expr) (rd0 : O Expr) (width : Z) : O Expr :=
  if width =? Bool then b ← rd0; build (ExtractExpr_make b 0 Bool)
  else
    let NumBytes := width `div` 8 in
    c_assert (width =? NumBytes * 8);; read_bytes rd NumBytes (Z.to_nat NumBytes) 0 None.

Definition read_c (offset width : Z) : O Expr := read_with (λ idx, read8_c (u32 (offset + idx))) (read8_c offset) width.
Definition read8_at (offset : Expr) (idx : Z) : O Expr :=
  k ← build (Constant_create idx Int32); a ← build (AddExpr_make ConstArrayOpt offset k); read8_e a.
Definition read_e (offset : Expr) (width : Z) : O Expr :=
  offset ← build (ZExtExpr_make offset Int32);
  match offset with
  | Constant w v => o ← build (getZExtValue 32 w v); read_c o width
  | _ => read_with (read8_at offset) (read8_e offset) width
  end.

Fixpoint write_bytes (wr : Z → Z → O unit) (NumBytes : Z) (n : nat) (i : Z) : O unit :=
  match n with
  | Datatypes.O => mret tt
  | S n => wr (byte_index NumBytes i) i;; write_bytes wr NumBytes n (i + 1)
  end.
(** [write16], [write32] and [write64]. *)
Definition write_int (NumBytes offset value : Z) : O unit :=
  write_bytes (λ idx i, write8_c (u32 (offset + idx)) (u8 (Z.shiftr value (8 * i)))) NumBytes (Z.to_nat NumBytes) 0.

Definition write_general (wr0 : Expr → O unit) (wr : Z → Expr → O unit) (value : Expr) : O unit :=
  let w := getWidth value in
  if w =? Bool then v ← build (ZExtExpr_make value Int8); wr0 v
  else
    let NumBytes := w `div` 8 in
    c_assert (w =? NumBytes * 8);;
    write_bytes (λ idx i, v ← build (ExtractExpr_make value (8 * i) Int8); wr idx v) NumBytes (Z.to_nat NumBytes) 0.
Definition write_c (offset : Z) (value : Expr) : O unit :=
  let general := write_general (write8_v offset) (λ idx v, write8_v (u32 (offset + idx)) v) value in
  match value with
  | Constant w v =>
    if w <=? 64 then
      if (w =? 1) || (w =? 8) then write8_c offset (u8 v)
      else if w =? 16 then write_int 2 offset v
      else if w =? 32 then write_int 4 offset v
      else if w =? 64 then write_int 8 offset v
      else halt AssertFailure
    else general
  | _ => general
  end.
Definition write8_at (offset : Expr) (idx : Z) (v : Expr) : O unit :=
  k ← build (Constant_create idx Int32); a ← build (AddExpr_make ConstArrayOpt offset k); write8_e a v.
Definition write_e (offset value : Expr) : O unit :=
  offset ← build (ZExtExpr_make offset Int32);
  match offset with
  | Constant w v => o ← build (getZExtValue 32 w v); write_c o value
  | _ => write_general (write8_e offset) (write8_at offset) value
  end.

(** *** Whole objects *)
Definition makeConcrete : O unit := upd_obj (λ s, set_known None (set_fmask None (set_cmask None s))).
Definition makeSymbolic_byte (i : Z) : O unit := markByteSymbolic i;; setKnownSymbolic i None;; markByteFlushed i.
Definition makeSymbolic : O unit :=
  s ← get_obj;
  c_assert (match head s with UNil => true | _ => false end);;
  for_range makeSymbolic_byte 0 (Z.to_nat (os_size s)).
Definition initializeToZero : O unit :=
  makeConcrete;; upd_obj (λ s, set_store (replicate (Z.to_nat (os_size s)) 0) s).
Definition initializeToRandom : O unit :=
  makeConcrete;; upd_obj (λ s, set_store (replicate (Z.to_nat (os_size s)) 171) s).

(** The constructors; the bytes of a new store are not initialised. *)
Definition fresh_object (mo : MemoryObject) (junk : list Z) (r : option Array) : ObjectState :=
  mkOS mo 0 junk None None None r UNil (mo_size mo) false.
Definition new_ObjectState (mo : MemoryObject) (junk : list Z) (n : nat) : objw :=
  if UseConstantArrays then mkObjw (fresh_object mo junk None) n
  else mkObjw (fresh_object mo junk (Some (mkArray n ("tmp_arr" +:+ pretty n) (mo_size mo) []))) (S n).
Definition symbolic_ObjectState (mo : MemoryObject) (junk : list Z) (array : Array) (n : nat) : outcome objw unit :=
  makeSymbolic (mkObjw (fresh_object mo junk (Some array)) n).
Definition copy_ObjectState (s : ObjectState) : res ObjectState :=
  c_assert (negb (readOnly s));;
  mret (mkOS (os_object s) 0 (concreteStore s) (concreteMask s) (flushMask s) (knownSymbolics s) (root s) (head s) (os_size s) false).
End Objects.
