(* ===== verification/MemorySpec.v ===== *)
(** * Memory objects hold bytes

    What the operations of [Memory] do to the bytes of an object.  [rep env s mem]
    says that under the assignment [env] the object [s] holds the bytes [mem]; reads
    evaluate to those bytes and writes change them, whichever of the three places a
    byte is kept in. *)
From S2P Require Import Prelude Expr ExprCreate ExprRefine ExprSums ExprSpec ExprBuild Memory.

(** ** The state of a byte *)
Definition c_at (s : ObjectState) (i : Z) : bool :=
  match concreteMask s with None => true | Some b => default false (bit_get b i) end.
Definition f_at (s : ObjectState) (i : Z) : bool :=
  match flushMask s with None => false | Some b => negb (default false (bit_get b i)) end.
Definition k_at (s : ObjectState) (i : Z) : option Expr :=
  match knownSymbolics s with None => None | Some l => default None (l !! Z.to_nat i) end.
Definition st_at (s : ObjectState) (i : Z) : Z := concreteStore s !!! Z.to_nat i.
Definition inside (s : ObjectState) (i : Z) : Prop := 0 ≤ i < os_size s.

Definition zero_array (size : Z) : Array := mkArray 0 "" size (replicate (Z.to_nat size) 0).
(** The array the updates are for; an object without one starts with zeros. *)
Definition base (s : ObjectState) : Array := default (zero_array (os_size s)) (root s).

(** Constant indices of updates are inside the object. *)
Fixpoint indices_inside (size : Z) (ul : UpdateList) : Prop :=
  match ul with
  | UNil => True
  | UNode i _ next => (∀ w v, i = Constant w v → 0 ≤ v < size) ∧ indices_inside size next
  end.

Record shape (s : ObjectState) : Prop := mkShape {
  sh_size : 0 ≤ os_size s < 2 ^ 32 - 31;
  sh_store : length (concreteStore s) = Z.to_nat (os_size s);
  sh_bytes : Forall (bits 8) (concreteStore s);
  sh_cmask : ∀ b, concreteMask s = Some b → bits_for (os_size s) b;
  sh_fmask : ∀ b, flushMask s = Some b → bits_for (os_size s) b;
  sh_known : ∀ l, knownSymbolics s = Some l → length l = Z.to_nat (os_size s) ∧
    ∀ i e, l !! i = Some (Some e) → wf e ∧ getWidth e = Int8;
  sh_root : ∀ a, root s = Some a → wf_array a ∧ arr_size a = os_size s;
  sh_head : wf_updates (head s);
  sh_indices : indices_inside (os_size s) (head s)
}.

(** The invariants of the comment before [flushRangeForRead]. *)
Definition byte_ok (s : ObjectState) (i : Z) : Prop :=
  (c_at s i = true → k_at s i = None) ∧ (f_at s i = false → c_at s i = true ∨ k_at s i ≠ None).
Definition object_ok (s : ObjectState) : Prop := shape s ∧ ∀ i, inside s i → byte_ok s i.

(** ** The bytes an object holds *)
Definition memory : Type := Z → Z.
Definition byte_rep (env : assignment) (s : ObjectState) (i x : Z) : Prop :=
  (c_at s i = true → st_at s i = x) ∧ (∀ e, k_at s i = Some e → eval env e = Some x) ∧
  (f_at s i = true → eval_read env (base s) (head s) i = Some x).
Definition rep (env : assignment) (s : ObjectState) (mem : memory) : Prop := ∀ i, inside s i → byte_rep env s i (mem i).

Lemma rep_ext env s mem mem' : (∀ i, inside s i → mem i = mem' i) → rep env s mem → rep env s mem'.
Proof. intros H Hr i Hi. rewrite <-H by done. by apply Hr. Qed.

(** ** Primitives *)
Lemma inside_nat s i : shape s → inside s i → (Z.to_nat i < length (concreteStore s))%nat.
Proof. intros Hs Hi. rewrite (sh_store s Hs). unfold inside in Hi. lia. Qed.

Lemma store_at s i : shape s → inside s i → concreteStore s !! Z.to_nat i = Some (st_at s i).
Proof. intros Hs Hi. by apply list_lookup_lookup_total_lt, inside_nat. Qed.
Lemma store_bits s i : shape s → inside s i → bits 8 (st_at s i).
Proof. intros Hs Hi. eapply Forall_lookup_1; [apply Hs|by apply store_at]. Qed.

Lemma isByteConcrete_run s n i : shape s → inside s i → isByteConcrete i (mkObjw s n) = Done (c_at s i) (mkObjw s n).
Proof.
  intros Hs Hi. unfold isByteConcrete, c_at, bit, get_obj, mbind, M_bind, gets. cbn.
  destruct (concreteMask s) as [b|] eqn:E; [|done]. destruct (bit_get_some _ _ _ (sh_cmask s Hs b E) Hi) as [x ->]. done.
Qed.
Lemma isByteFlushed_run s n i : shape s → inside s i → isByteFlushed i (mkObjw s n) = Done (f_at s i) (mkObjw s n).
Proof.
  intros Hs Hi. unfold isByteFlushed, f_at, get_obj, mbind, M_bind, gets. cbn. destruct (flushMask s) as [b|] eqn:E; [|done].
  destruct (bit_get_some _ _ _ (sh_fmask s Hs b E) Hi) as [x ->]. done.
Qed.
Lemma known_at_run s n i : shape s → inside s i → known_at i (mkObjw s n) = Done (k_at s i) (mkObjw s n).
Proof.
  intros Hs Hi. unfold known_at, k_at, get_obj, mbind, M_bind, gets. cbn. destruct (knownSymbolics s) as [l|] eqn:E; [|done].
  destruct (lookup_lt_is_Some_2 l (Z.to_nat i)) as [x ->]; [|done].
  destruct (sh_known s Hs l E) as [-> _]. unfold inside in Hi. lia.
Qed.

Lemma markByteConcrete_run s n i : shape s → inside s i →
  ∃ m, markByteConcrete i (mkObjw s n) = Done tt (mkObjw (set_cmask m s) n) ∧ shape (set_cmask m s) ∧
    ∀ j, inside s j → c_at (set_cmask m s) j = if decide (i = j) then true else c_at s j.
Proof.
  intros Hs Hi. unfold markByteConcrete, get_obj, mbind, M_bind, gets, c_at. cbn.
  destruct (concreteMask s) as [b|] eqn:E.
  - destruct (bit_set_spec _ _ _ (sh_cmask s Hs b E) Hi) as (b' & -> & Hb & Hget). exists (Some b'). split; [done|].
    split; [by destruct Hs; constructor; intros; cbn in *; simplify_eq; eauto|].
    intros j Hj. cbn. rewrite Hget by done. by case_decide.
  - exists None. split; [by destruct s; cbn in *; subst|]. split; [|by intros; case_decide].
    by destruct Hs; constructor; intros; cbn in *; simplify_eq; eauto.
Qed.

Ltac keep_shape := match goal with H : shape _ |- _ => destruct H; constructor; intros; cbn in *; simplify_eq; eauto end.
Ltac run_prim := unfold get_obj, upd_obj, mbind, M_bind, gets, modify, deref; cbn.

Lemma markByteSymbolic_run s n i : shape s → inside s i →
  ∃ m, markByteSymbolic i (mkObjw s n) = Done tt (mkObjw (set_cmask m s) n) ∧ shape (set_cmask m s) ∧
    ∀ j, inside s j → c_at (set_cmask m s) j = if decide (i = j) then false else c_at s j.
Proof.
  intros Hs Hi. unfold markByteSymbolic, c_at. run_prim.
  assert (∃ b, default (new_BitArray (os_size s) true) (concreteMask s) = b ∧ bits_for (os_size s) b ∧
    ∀ j, inside s j → bit_get b j = Some (c_at s j)) as (b & -> & Hb & Hg).
  { unfold c_at. destruct (concreteMask s) as [b|] eqn:E; cbn.
    - pose proof (sh_cmask s Hs b E) as Hb. exists b. split; [done|]. split; [done|]. intros j Hj.
      by destruct (bit_get_some _ _ _ Hb Hj) as [x ->].
    - eexists. split; [done|]. pose proof (sh_size s Hs). split; [by apply new_bits_for|]. intros. by apply bit_get_new. }
  destruct (bit_unset_spec _ _ _ Hb Hi) as (b' & -> & Hb' & Hget). exists (Some b'). split; [done|].
  split; [keep_shape|]. intros j Hj. cbn. rewrite Hget by done. case_decide; [done|]. by rewrite Hg.
Qed.

Lemma markByteUnflushed_run s n i : shape s → inside s i →
  ∃ m, markByteUnflushed i (mkObjw s n) = Done tt (mkObjw (set_fmask m s) n) ∧ shape (set_fmask m s) ∧
    ∀ j, inside s j → f_at (set_fmask m s) j = if decide (i = j) then false else f_at s j.
Proof.
  intros Hs Hi. unfold markByteUnflushed, f_at. run_prim. destruct (flushMask s) as [b|] eqn:E.
  - destruct (bit_set_spec _ _ _ (sh_fmask s Hs b E) Hi) as (b' & -> & Hb & Hget). exists (Some b'). split; [done|].
    split; [keep_shape|]. intros j Hj. cbn. rewrite Hget by done. by case_decide.
  - exists None. split; [by destruct s; cbn in *; subst|]. split; [keep_shape|by intros; case_decide].
Qed.

Lemma unset_flush_run s n i : shape s → inside s i → flushMask s ≠ None →
  ∃ m, unset_flush i (mkObjw s n) = Done tt (mkObjw (set_fmask (Some m) s) n) ∧ shape (set_fmask (Some m) s) ∧
    ∀ j, inside s j → f_at (set_fmask (Some m) s) j = if decide (i = j) then true else f_at s j.
Proof.
  intros Hs Hi Hm. unfold unset_flush, f_at. run_prim. destruct (flushMask s) as [b|] eqn:E; [|done]. cbn. run_prim. rewrite ?E.
  destruct (bit_unset_spec _ _ _ (sh_fmask s Hs b E) Hi) as (b' & -> & Hb & Hget). exists b'. split; [done|].
  split; [keep_shape|]. intros j Hj. cbn. rewrite Hget by done. by case_decide.
Qed.

Lemma known_shape s l : shape s → length l = Z.to_nat (os_size s) →
  (∀ i e, l !! i = Some (Some e) → wf e ∧ getWidth e = Int8) → shape (set_known (Some l) s).
Proof. intros Hs Hl He. keep_shape. Qed.

Lemma insert_known s l i v : shape s → inside s i → length l = Z.to_nat (os_size s) →
  (∀ i e, l !! i = Some (Some e) → wf e ∧ getWidth e = Int8) → (∀ e, v = Some e → wf e ∧ getWidth e = Int8) →
  is_Some (l !! Z.to_nat i) ∧ shape (set_known (Some (<[Z.to_nat i := v]> l)) s) ∧
  ∀ j, inside s j → k_at (set_known (Some (<[Z.to_nat i := v]> l)) s) j = if decide (i = j) then v else default None (l !! Z.to_nat j).
Proof.
  intros Hs Hi Hl He Hv. unfold inside in *. assert (Hlt : (Z.to_nat i < length l)%nat) by lia.
  split; [by apply lookup_lt_is_Some_2|]. split.
  - apply known_shape; [done|by rewrite length_insert|]. intros j e Hj.
    apply list_lookup_insert_Some in Hj as [(<- & Hev & _)|[_ Hj]]; [by apply Hv|by eapply He].
  - intros j Hj. unfold k_at. cbn. case_decide as Hd; [subst; by rewrite list_lookup_insert_eq|].
    rewrite list_lookup_insert_ne; [done|lia].
Qed.

Lemma setKnownSymbolic_run s n i v : shape s → inside s i → (∀ e, v = Some e → wf e ∧ getWidth e = Int8) →
  ∃ l, setKnownSymbolic i v (mkObjw s n) = Done tt (mkObjw (set_known l s) n) ∧ shape (set_known l s) ∧
    ∀ j, inside s j → k_at (set_known l s) j = if decide (i = j) then v else k_at s j.
Proof.
  intros Hs Hi Hv. unfold setKnownSymbolic. run_prim. unfold k_at at 2. destruct (knownSymbolics s) as [l|] eqn:E.
  - destruct (sh_known s Hs l E) as [Hl He]. destruct (insert_known s l i v Hs Hi Hl He Hv) as ([x Ex] & Hsh & Hk).
    rewrite Ex. eexists. by split.
  - destruct v as [v|].
    + destruct (insert_known s (replicate (Z.to_nat (os_size s)) None) i (Some v) Hs Hi) as ([x Ex] & Hsh & Hk).
      { by rewrite length_replicate. }
      { intros j e Hj. by apply lookup_replicate in Hj as [? _]. }
      { done. }
      rewrite Ex. eexists. split; [done|]. split; [done|]. intros j Hj. rewrite Hk by done. case_decide; [done|].
      destruct (_ !! Z.to_nat j) as [y|] eqn:Ey; [|done]. by apply lookup_replicate in Ey as [-> _].
    + exists None. split; [by destruct s; cbn in *; subst|]. split; [keep_shape|]. intros. by case_decide.
Qed.

Lemma store_run s i x : shape s → inside s i → bits 8 x →
  shape (set_store (<[Z.to_nat i := x]> (concreteStore s)) s) ∧
  ∀ j, inside s j → st_at (set_store (<[Z.to_nat i := x]> (concreteStore s)) s) j = if decide (i = j) then x else st_at s j.
Proof.
  intros Hs Hi Hx. pose proof (inside_nat s i Hs Hi). split.
  - destruct Hs; constructor; cbn; try done; [by rewrite length_insert|by apply Forall_insert].
  - intros j Hj. unfold st_at. cbn. unfold inside in *. case_decide as Hd; [subst; by apply list_lookup_total_insert_eq|].
    apply list_lookup_total_insert_ne. lia.
Qed.

Lemma extend_run s n i v : shape s → wf i → wf v → getWidth i = Int32 → getWidth v = Int8 →
  (∀ w x, i = Constant w x → 0 ≤ x < os_size s) →
  extend i v (mkObjw s n) = Done tt (mkObjw (set_updates (root s) (UNode i v (head s)) s) n) ∧
  shape (set_updates (root s) (UNode i v (head s)) s).
Proof. intros Hs Hi Hv Wi Wv Hc. unfold extend. rewrite Wv. split; [done|]. keep_shape. Qed.

(** ** Writes to one byte *)
(** What a byte looks like. *)
Definition view (s : ObjectState) (i : Z) : bool * bool * option Expr * Z := (c_at s i, f_at s i, k_at s i, st_at s i).
(** [s'] has the updates of [s] and differs at byte [i] only. *)
Definition changed (s s' : ObjectState) (i : Z) (v : bool * bool * option Expr * Z) : Prop :=
  shape s' ∧ os_size s' = os_size s ∧ root s' = root s ∧ head s' = head s ∧
  ∀ j, inside s j → view s' j = if decide (i = j) then v else view s j.

Lemma view_inv s s' i j : view s' i = view s j →
  c_at s' i = c_at s j ∧ f_at s' i = f_at s j ∧ k_at s' i = k_at s j ∧ st_at s' i = st_at s j.
Proof. unfold view. intros H. by injection H. Qed.

Lemma write8_c_run s n i x : shape s → inside s i → bits 8 x →
  ∃ s', write8_c i x (mkObjw s n) = Done tt (mkObjw s' n) ∧ changed s s' i (true, false, None, x).
Proof.
  intros Hs Hi Hx. unfold write8_c. destruct (store_run s i x Hs Hi Hx) as [H1 S1].
  set (s1 := set_store _ s) in *.
  destruct (setKnownSymbolic_run s1 n i None H1 Hi ltac:(done)) as (l & E2 & H2 & K2). set (s2 := set_known l s1) in *.
  destruct (markByteConcrete_run s2 n i H2 Hi) as (m & E3 & H3 & C3). set (s3 := set_cmask m s2) in *.
  destruct (markByteUnflushed_run s3 n i H3 Hi) as (f & E4 & H4 & F4). set (s4 := set_fmask f s3) in *.
  exists s4. split.
  - rewrite (bind_done _ _ (mkObjw s n) s (mkObjw s n)) by done. rewrite (store_at s i Hs Hi).
    rewrite (bind_done _ _ _ (st_at s i) (mkObjw s n)) by done. rewrite (bind_done _ _ _ tt (mkObjw s1 n)) by done.
    rewrite (bind_done _ _ _ _ _ E2), (bind_done _ _ _ _ _ E3). exact E4.
  - do 4 (split; [done|]). intros j Hj. specialize (S1 j Hj). specialize (K2 j Hj). specialize (C3 j Hj). specialize (F4 j Hj).
    unfold view. change (c_at s4 j) with (c_at s3 j). change (k_at s4 j) with (k_at s2 j). change (st_at s4 j) with (st_at s1 j).
    rewrite S1, K2, C3, F4. by case_decide.
Qed.

Lemma write8_sym_run s n i e : shape s → inside s i → wf e → getWidth e = Int8 → isa_Constant e = false →
  ∃ s', write8_v i e (mkObjw s n) = Done tt (mkObjw s' n) ∧ changed s s' i (false, false, Some e, st_at s i).
Proof.
  intros Hs Hi He We Hc.
  destruct (setKnownSymbolic_run s n i (Some e) Hs Hi ltac:(naive_solver)) as (l & E2 & H2 & K2). set (s2 := set_known l s) in *.
  destruct (markByteSymbolic_run s2 n i H2 Hi) as (m & E3 & H3 & C3). set (s3 := set_cmask m s2) in *.
  destruct (markByteUnflushed_run s3 n i H3 Hi) as (f & E4 & H4 & F4). set (s4 := set_fmask f s3) in *.
  exists s4. split.
  - assert (Ew : write8_v i e = (setKnownSymbolic i (Some e);; markByteSymbolic i;; markByteUnflushed i)) by (by destruct e).
    rewrite Ew. rewrite (bind_done _ _ _ _ _ E2), (bind_done _ _ _ _ _ E3). exact E4.
  - do 4 (split; [done|]). intros j Hj. specialize (K2 j Hj). specialize (C3 j Hj). specialize (F4 j Hj).
    unfold view. change (c_at s4 j) with (c_at s3 j). change (k_at s4 j) with (k_at s2 j). change (st_at s4 j) with (st_at s j).
    rewrite K2, C3, F4. case_decide; [by subst|done].
Qed.

(** A byte that is written becomes the value; the others stay. *)
Lemma changed_ok s s' i c k x : object_ok s → changed s s' i (c, false, k, x) → (c = true ↔ k = None) → object_ok s'.
Proof.
  intros [Hs Hb] (Hs' & Ez & _ & _ & Hv) Hck. split; [done|]. intros j Hj.
  assert (Hj' : inside s j) by (unfold inside in *; lia). specialize (Hv j Hj'). specialize (Hb j Hj').
  unfold byte_ok, view in *. case_decide; [subst|]; injection Hv as Ec Ef Ek Es; rewrite Ec, Ef, Ek; [|done].
  split; [naive_solver|]. intros _. destruct c; [by left|right]. naive_solver.
Qed.
Definition mem_set (mem : memory) (i x : Z) : memory := λ j, if decide (i = j) then x else mem j.

Lemma changed_rep env s s' i c k x y mem : changed s s' i (c, false, k, x) →
  (c = true → x = y) → (∀ e, k = Some e → eval env e = Some y) → rep env s mem → rep env s' (mem_set mem i y).
Proof.
  intros (Hs' & Ez & Er & Eh & Hv) Hc Hk Hr j Hj. assert (Hj' : inside s j) by (unfold inside in *; lia).
  specialize (Hv j Hj'). specialize (Hr j Hj'). unfold byte_rep, view, mem_set, base in *. rewrite Er, Eh, Ez.
  case_decide; [subst|]; injection Hv as Ec Ef Ek Es; rewrite Ec, Ef, Ek, Es; [|done].
  split_and!; [done|done|]. congruence.
Qed.

Section Ops.
Context `{HA : !APInt, HC : !ExprCompare} (CAO ULE : bool).

Lemma build_run {A} (m : res A) a w : m tt = Done a tt → build m w = Done a w.
Proof. intros E. unfold build. by rewrite E. Qed.
Lemma create_small v w : 0 < w ≤ 64 → bits w v → Constant_create v w tt = Done (Constant w v) tt.
Proof.
  intros Hw Hv. unfold Constant_create, Constant_alloc. rewrite (proj2 (Z.leb_le _ _)) by lia.
  rewrite ones_64, land_ones_bits, Z.eqb_refl, wrapu_small by (done || lia). done.
Qed.

Lemma write8_v_run s n i e : shape s → inside s i → wf e → getWidth e = Int8 →
  ∃ s' c k x, write8_v i e (mkObjw s n) = Done tt (mkObjw s' n) ∧ changed s s' i (c, false, k, x) ∧ (c = true ↔ k = None) ∧
    ∀ env y, eval env e = Some y → (c = true → x = y) ∧ (∀ e', k = Some e' → eval env e' = Some y).
Proof.
  intros Hs Hi He We. destruct (isa_Constant e) eqn:Ec.
  - destruct e as [w v| | | | | | | | | |]; try done. cbn in We. subst w. destruct He as [_ Hv].
    destruct (write8_c_run s n i v Hs Hi Hv) as (s' & E & H). exists s', true, None, v. split; [exact E|]. split; [done|].
    split; [done|]. intros env y [= <-]. done.
  - destruct (write8_sym_run s n i e Hs Hi He We Ec) as (s' & E & H). exists s', false, (Some e), (st_at s i).
    split; [exact E|]. split; [done|]. split; [done|]. intros env y Ey. split; [done|]. naive_solver.
Qed.

(** ** Flushing *)
(** [s'] holds the same bytes as [s], and its bytes look the same except byte [i]. *)
Definition same_bytes (s s' : ObjectState) : Prop :=
  os_size s' = os_size s ∧ ∀ env mem, rep env s mem → rep env s' mem.
Lemma same_bytes_trans s1 s2 s3 : same_bytes s1 s2 → same_bytes s2 s3 → same_bytes s1 s3.
Proof. intros [E1 H1] [E2 H2]. split; [congruence|]. auto. Qed.

(** The value a byte that is not flushed is cached with. *)
Lemma flush_update_run s n i : object_ok s → inside s i → f_at s i = false →
  ∃ v, flush_update i (mkObjw s n) = Done tt (mkObjw (set_updates (root s) (UNode (Constant Int32 i) v (head s)) s) n) ∧
    shape (set_updates (root s) (UNode (Constant Int32 i) v (head s)) s) ∧
    ∀ env x, byte_rep env s i x → eval env v = Some x.
Proof.
  intros [Hs Hb] Hi Hf. pose proof (sh_size s Hs) as Hz. pose proof Hi as Hi'. unfold inside in Hi'.
  assert (Hwi : wf (Constant Int32 i)) by (split; [lia|unfold bits; lia]).
  assert (Hci : ∀ w x, Constant Int32 i = Constant w x → 0 ≤ x < os_size s) by naive_solver.
  unfold flush_update. rewrite (bind_done _ _ _ _ _ (isByteConcrete_run s n i Hs Hi)).
  rewrite (bind_done _ _ _ s (mkObjw s n)) by done.
  rewrite (bind_done _ _ _ _ _ (build_run _ (Constant Int32 i) _ (create_small i Int32 ltac:(lia) (proj2 Hwi)))).
  destruct (c_at s i) eqn:Ec.
  - rewrite (store_at s i Hs Hi), (bind_done _ _ _ (st_at s i) (mkObjw s n)) by done.
    pose proof (store_bits s i Hs Hi) as Hx.
    rewrite (bind_done _ _ _ _ _ (build_run _ _ _ (create_small (st_at s i) Int8 ltac:(lia) Hx))).
    exists (Constant Int8 (st_at s i)).
    destruct (extend_run s n (Constant Int32 i) (Constant Int8 (st_at s i)) Hs Hwi) as [E Hsh]; [by split|done|done|done|].
    split; [exact E|]. split; [done|]. intros env x (Hc & _). cbn. by rewrite Hc.
  - destruct (Hb i Hi) as [_ Hn]. destruct (Hn Hf) as [?|Hk]; [congruence|].
    destruct (k_at s i) as [e|] eqn:Ek; [|done]. rewrite (bind_done _ _ _ _ _ (known_at_run s n i Hs Hi)), Ek.
    rewrite (bind_done _ _ _ tt (mkObjw s n)) by (by rewrite bool_decide_eq_true_2).
    rewrite (bind_done _ _ _ e (mkObjw s n)) by done. exists e.
    assert (wf e ∧ getWidth e = Int8) as [He We].
    { unfold k_at in Ek. destruct (knownSymbolics s) as [l|] eqn:El; [|done]. destruct (sh_known s Hs l El) as [_ H].
      destruct (l !! Z.to_nat i) as [o|] eqn:Eo; [|done]. cbn in Ek. subst o. by eapply H. }
    destruct (extend_run s n (Constant Int32 i) e Hs Hwi) as [E Hsh]; [done|done|done|done|].
    split; [exact E|]. split; [done|]. intros env x (_ & H & _). by apply H.
Qed.

(** An update at [i] with the byte's value, seen at [j]. *)
Lemma update_read env a ul i v j x : (i = j → eval env v = Some x) → (i ≠ j → eval_read env a ul j = Some x) →
  eval_read env a (UNode (Constant Int32 i) v ul) j = Some x.
Proof. intros H1 H2. cbn. destruct (Z.eqb_spec i j); auto. Qed.

(** A byte after it was flushed: [keep] says whether it stays in its cache. *)
Definition flushed_view (keep : bool) (s : ObjectState) (i : Z) : bool * bool * option Expr * Z :=
  (keep && c_at s i, true, if keep then k_at s i else None, st_at s i).

Lemma flushed_ok keep s s' i : object_ok s → inside s i → shape s' → os_size s' = os_size s →
  (∀ j, inside s j → view s' j = if decide (i = j) then flushed_view keep s j else view s j) → object_ok s'.
Proof.
  intros [Hs Hb] Hi Hs' Ez Hv. split; [done|]. intros j Hj. assert (Hj' : inside s j) by (unfold inside in *; lia).
  specialize (Hv j Hj'). specialize (Hb j Hj'). unfold byte_ok, view, flushed_view in *.
  case_decide; injection Hv as Ec Ef Ek Es; rewrite Ec, Ef, Ek; [|done]. split; [|done]. destruct keep; [apply Hb|done].
Qed.

Lemma flushed_same_bytes keep s s' i v : inside s i → os_size s' = os_size s → root s' = root s →
  (head s' = head s ∧ f_at s i = true ∨
   head s' = UNode (Constant Int32 i) v (head s) ∧ ∀ env x, byte_rep env s i x → eval env v = Some x) →
  (∀ j, inside s j → view s' j = if decide (i = j) then flushed_view keep s j else view s j) → same_bytes s s'.
Proof.
  intros Hi Ez Er Hh Hv. split; [done|]. intros env mem Hr j Hj. assert (Hj' : inside s j) by (unfold inside in *; lia).
  specialize (Hv j Hj'). pose proof (Hr j Hj') as (R1 & R2 & R3). unfold byte_rep, view, flushed_view, base in *. rewrite Er, Ez.
  assert (Hread : (i = j ∨ f_at s j = true) → eval_read env (default (zero_array (os_size s)) (root s)) (head s') j = Some (mem j)).
  { intros Hij. destruct Hh as [[-> Hf]|[-> Hval]].
    - apply R3. destruct Hij; [by subst|done].
    - apply update_read; [intros ->; by apply Hval, Hr|]. naive_solver. }
  case_decide as Hd; injection Hv as Ec Ef Ek Es; rewrite Ec, Ef, Ek, Es.
  - split_and!; [|destruct keep; [done|by intros]|auto]. intros [_ H]%andb_true_iff. auto.
  - split_and!; [done|done|auto].
Qed.

Lemma flush_byte_read_run s n i : object_ok s → inside s i → flushMask s ≠ None →
  ∃ s', flush_byte_read i (mkObjw s n) = Done tt (mkObjw s' n) ∧ object_ok s' ∧ same_bytes s s' ∧ flushMask s' ≠ None ∧
    ∀ j, inside s j → view s' j = if decide (i = j) then flushed_view true s j else view s j.
Proof.
  intros Ho Hi Hm. pose proof Ho as [Hs Hb]. unfold flush_byte_read.
  rewrite (bind_done _ _ _ _ _ (isByteFlushed_run s n i Hs Hi)). destruct (f_at s i) eqn:Ef.
  - exists s. split; [done|]. split; [done|]. split; [done|]. split; [done|]. intros j Hj. case_decide; [subst|done].
    unfold view, flushed_view. by rewrite Ef.
  - destruct (flush_update_run s n i Ho Hi Ef) as (v & E1 & H1 & Hv). set (s1 := set_updates _ _ s) in *.
    destruct (unset_flush_run s1 n i H1 Hi Hm) as (m & E2 & H2 & F2). set (s2 := set_fmask (Some m) s1) in *.
    assert (HV : ∀ j, inside s j → view s2 j = if decide (i = j) then flushed_view true s j else view s j).
    { intros j Hj. unfold view, flushed_view. rewrite (F2 j Hj).
      change (c_at s2 j) with (c_at s j). change (k_at s2 j) with (k_at s j). change (st_at s2 j) with (st_at s j).
      change (f_at s1 j) with (f_at s j). by case_decide. }
    exists s2. split; [by rewrite (bind_done _ _ _ _ _ E1)|]. split; [by apply (flushed_ok true s s2 i)|].
    split; [|done]. apply (flushed_same_bytes true s s2 i v); [done|done|done|by right|done].
Qed.

Lemma clear_byte_run s n i : shape s → inside s i → byte_ok s i →
  ∃ s', clear_byte i (mkObjw s n) = Done tt (mkObjw s' n) ∧ changed s s' i (false, f_at s i, None, st_at s i) ∧ flushMask s' = flushMask s.
Proof.
  intros Hs Hi Hb. unfold clear_byte. rewrite (bind_done _ _ _ _ _ (isByteConcrete_run s n i Hs Hi)). destruct (c_at s i) eqn:Ec.
  - destruct (markByteSymbolic_run s n i Hs Hi) as (m & E & H & C). exists (set_cmask m s). split; [done|]. split; [|done].
    do 4 (split; [done|]). intros j Hj. unfold view. rewrite C by done. case_decide; [subst|done].
    destruct Hb as [Hb _]. change (k_at (set_cmask m s) j) with (k_at s j). by rewrite Hb.
  - unfold isByteKnownSymbolic. rewrite (bind_done _ _ _ (bool_decide (k_at s i ≠ None)) (mkObjw s n))
      by (by rewrite (bind_done _ _ _ _ _ (known_at_run s n i Hs Hi))).
    case_bool_decide as Hk; cbn iota.
    + destruct (setKnownSymbolic_run s n i None Hs Hi ltac:(done)) as (l & E & H & K). exists (set_known l s). split; [done|].
      split; [|done]. do 4 (split; [done|]). intros j Hj. unfold view. rewrite K by done. case_decide; [subst|done].
      change (c_at (set_known l s) j) with (c_at s j). by rewrite Ec.
    + exists s. split; [done|]. split; [|done]. do 4 (split; [done|]). intros j Hj. case_decide; [subst|done]. unfold view.
      rewrite Ec. destruct (k_at s j); [|done]. by destruct Hk.
Qed.

Lemma flush_byte_write_run s n i : object_ok s → inside s i → flushMask s ≠ None →
  ∃ s', flush_byte_write i (mkObjw s n) = Done tt (mkObjw s' n) ∧ object_ok s' ∧ same_bytes s s' ∧ flushMask s' ≠ None ∧
    ∀ j, inside s j → view s' j = if decide (i = j) then flushed_view false s j else view s j.
Proof.
  intros Ho Hi Hm. pose proof Ho as [Hs Hb]. unfold flush_byte_write.
  rewrite (bind_done _ _ _ _ _ (isByteFlushed_run s n i Hs Hi)). destruct (f_at s i) eqn:Ef.
  - destruct (clear_byte_run s n i Hs Hi (Hb i Hi)) as (s' & E & (H1 & Ez & Er & Eh & HV) & Em). exists s'. split; [done|].
    assert (HV' : ∀ j, inside s j → view s' j = if decide (i = j) then flushed_view false s j else view s j).
    { intros j Hj. rewrite HV by done. case_decide; [subst|done]. unfold flushed_view. by rewrite Ef. }
    split; [by apply (flushed_ok false s s' i)|]. split; [|by rewrite Em].
    apply (flushed_same_bytes false s s' i (Constant 8 0)); [done|done|done|by left|done].
  - destruct (flush_update_run s n i Ho Hi Ef) as (v & E1 & H1 & Hv). set (s1 := set_updates _ _ s) in *.
    rewrite (bind_done _ _ _ _ _ E1), (bind_done _ _ _ _ _ (isByteConcrete_run s1 n i H1 Hi)).
    assert (∃ s2, (if c_at s1 i then markByteSymbolic i else setKnownSymbolic i None) (mkObjw s1 n) = Done tt (mkObjw s2 n) ∧
      changed s1 s2 i (false, f_at s i, None, st_at s i) ∧ flushMask s2 = flushMask s) as (s2 & E2 & (H2 & Ez & Er & Eh & HV) & Em).
    { destruct (c_at s1 i) eqn:Ec.
      - destruct (markByteSymbolic_run s1 n i H1 Hi) as (m & E & H & C). exists (set_cmask m s1). split; [done|]. split; [|done].
        do 4 (split; [done|]). intros j Hj. unfold view. rewrite C by done. case_decide; [subst|done].
        destruct (Hb j Hi) as [Hk _]. change (k_at (set_cmask m s1) j) with (k_at s j). by rewrite Hk.
      - destruct (setKnownSymbolic_run s1 n i None H1 Hi ltac:(done)) as (l & E & H & K). exists (set_known l s1). split; [done|].
        split; [|done]. do 4 (split; [done|]). intros j Hj. unfold view. rewrite K by done. case_decide; [subst|done].
        change (c_at (set_known l s1) j) with (c_at s1 j). by rewrite Ec. }
    rewrite (bind_done _ _ _ _ _ E2).
    assert (Hi2 : inside s2 i) by (unfold inside in *; rewrite Ez; exact Hi).
    destruct (unset_flush_run s2 n i H2 Hi2 ltac:(by rewrite Em)) as (m & E3 & H3 & F3). set (s3 := set_fmask (Some m) s2) in *.
    assert (HV' : ∀ j, inside s j → view s3 j = if decide (i = j) then flushed_view false s j else view s j).
    { intros j Hj. specialize (HV j Hj). unfold view, flushed_view in *. rewrite (F3 j) by (unfold inside in *; rewrite Ez; exact Hj).
      change (c_at s3 j) with (c_at s2 j). change (k_at s3 j) with (k_at s2 j). change (st_at s3 j) with (st_at s2 j).
      case_decide; injection HV as E4 E5 E6 E7; rewrite E4, ?E5, E6, E7; [by subst|done]. }
    exists s3. split; [exact E3|]. split; [by apply (flushed_ok false s s3 i)|]. split; [|done].
    apply (flushed_same_bytes false s s3 i v); [done|done|by cbn; rewrite Er|right; split; [exact Eh|done]|done].
Qed.

(** A loop over all bytes. *)
Lemma flush_loop keep f : (∀ s n i, object_ok s → inside s i → flushMask s ≠ None →
    ∃ s', f i (mkObjw s n) = Done tt (mkObjw s' n) ∧ object_ok s' ∧ same_bytes s s' ∧ flushMask s' ≠ None ∧
      ∀ j, inside s j → view s' j = if decide (i = j) then flushed_view keep s j else view s j) →
  ∀ k b s n, object_ok s → flushMask s ≠ None → 0 ≤ b → b + Z.of_nat k = os_size s →
  ∃ s', for_range f b k (mkObjw s n) = Done tt (mkObjw s' n) ∧ object_ok s' ∧ same_bytes s s' ∧ flushMask s' ≠ None ∧
    ∀ j, inside s j → view s' j = if decide (b ≤ j) then flushed_view keep s j else view s j.
Proof.
  intros Hf k. induction k as [|k IH]; intros b s n Ho Hm Hb0 Hb; cbn [for_range].
  - exists s. do 4 (split; [done|]). intros j Hj. unfold inside in Hj. rewrite decide_False by lia. done.
  - destruct (Hf s n b Ho) as (s1 & E1 & Ho1 & Hs1 & Hm1 & V1); [unfold inside; lia|done|].
    rewrite (bind_done _ _ _ _ _ E1). destruct (IH (b + 1) s1 n Ho1 Hm1) as (s2 & E2 & Ho2 & Hs2 & Hm2 & V2);
      [lia|destruct Hs1 as [-> _]; lia|].
    exists s2. split; [done|]. split; [done|]. split; [by eapply same_bytes_trans|]. split; [done|]. intros j Hj.
    rewrite V2 by (unfold inside in *; destruct Hs1 as [-> _]; lia).
    specialize (V1 j Hj). destruct (decide (b + 1 ≤ j)).
    + rewrite (decide_True (P := b ≤ j)) by lia. rewrite decide_False in V1 by lia. unfold view, flushed_view in *.
      injection V1 as E4 E5 E6 E7. by rewrite E4, E6, E7.
    + rewrite V1. repeat case_decide; (done || lia).
Qed.

Lemma ensure_flush_mask_run s n : object_ok s →
  ∃ s', ensure_flush_mask (mkObjw s n) = Done tt (mkObjw s' n) ∧ object_ok s' ∧ same_bytes s s' ∧ flushMask s' ≠ None ∧
    ∀ j, inside s j → view s' j = view s j.
Proof.
  intros [Hs Hb]. unfold ensure_flush_mask, upd_obj, modify. cbn. eexists. split; [done|].
  set (s' := set_fmask _ s). pose proof (sh_size s Hs) as Hz.
  assert (HV : ∀ j, inside s j → view s' j = view s j).
  { intros j Hj. unfold view. change (c_at s' j) with (c_at s j). change (k_at s' j) with (k_at s j).
    change (st_at s' j) with (st_at s j). unfold f_at, s'. cbn. destruct (flushMask s); [done|]. cbn. by rewrite bit_get_new. }
  assert (Hs' : shape s').
  { unfold s'. destruct (flushMask s) eqn:E; cbn; [|pose proof (new_bits_for _ true Hz)]; keep_shape. }
  split; [split; [done|]|split; [split; [done|]|done]].
  - intros j Hj. specialize (HV j Hj). specialize (Hb j Hj). apply view_inv in HV as (E1 & E2 & E3 & E4). unfold byte_ok in *. by rewrite E1, E2, E3.
  - intros env mem Hr j Hj. specialize (HV j Hj). specialize (Hr j Hj). apply view_inv in HV as (E1 & E2 & E3 & E4). unfold byte_rep in *. by rewrite E1, E2, E3, E4.
Qed.

Lemma flush_range_run keep f s n : (∀ s n i, object_ok s → inside s i → flushMask s ≠ None →
    ∃ s', f i (mkObjw s n) = Done tt (mkObjw s' n) ∧ object_ok s' ∧ same_bytes s s' ∧ flushMask s' ≠ None ∧
      ∀ j, inside s j → view s' j = if decide (i = j) then flushed_view keep s j else view s j) →
  object_ok s →
  ∃ s', (ensure_flush_mask;; for_range f 0 (Z.to_nat (os_size s))) (mkObjw s n) = Done tt (mkObjw s' n) ∧ object_ok s' ∧
    same_bytes s s' ∧ ∀ j, inside s j → view s' j = flushed_view keep s j.
Proof.
  intros Hf Ho. destruct (ensure_flush_mask_run s n Ho) as (s1 & E1 & Ho1 & Hs1 & Hm1 & V1).
  rewrite (bind_done _ _ _ _ _ E1). destruct Ho as [Hs _]. pose proof (sh_size s Hs).
  destruct (flush_loop keep f Hf (Z.to_nat (os_size s)) 0 s1 n Ho1 Hm1) as (s2 & E2 & Ho2 & Hs2 & Hm2 & V2);
    [lia|destruct Hs1 as [-> _]; lia|].
  exists s2. split; [done|]. split; [done|]. split; [by eapply same_bytes_trans|]. intros j Hj.
  rewrite V2 by (unfold inside in *; destruct Hs1 as [-> _]; lia). rewrite decide_True by (unfold inside in Hj; lia).
  specialize (V1 j Hj). unfold view, flushed_view in *. injection V1 as E4 E5 E6 E7. by rewrite E4, E6, E7.
Qed.

(** ** The constant array of an object without one *)
Definition to_updates (l : list (Expr * Expr)) (ul : UpdateList) : UpdateList := foldl (λ u p, UNode p.1 p.2 u) ul l.

Lemma writes_updates ul : to_updates (writes ul []) UNil = ul.
Proof.
  enough (H : ∀ ul acc, to_updates (writes ul acc) UNil = to_updates acc ul) by apply H.
  clear ul. induction ul as [|i v next IH]; intros acc; cbn [writes]; [done|]. by rewrite IH.
Qed.
Lemma to_updates_read env a a' u u' l j : eval_read env a u j = eval_read env a' u' j →
  eval_read env a (to_updates l u) j = eval_read env a' (to_updates l u') j.
Proof. revert u u'. induction l as [|[i v] l IH]; intros u u' H; [done|]. cbn. apply IH. cbn. by rewrite H. Qed.

(** A write is well formed. *)
Definition write_ok (size : Z) (p : Expr * Expr) : Prop :=
  wf p.1 ∧ wf p.2 ∧ getWidth p.1 = Int32 ∧ getWidth p.2 = Int8 ∧ ∀ w v, p.1 = Constant w v → 0 ≤ v < size.
Lemma writes_ok size ul acc : wf_updates ul → indices_inside size ul → Forall (write_ok size) acc →
  Forall (write_ok size) (writes ul acc).
Proof.
  revert acc. induction ul as [|i v next IH]; intros acc Hw Hi Ha; cbn in *; [done|].
  destruct Hw as (?&?&?&?&?), Hi as [??]. apply IH; [done|done|]. apply Forall_cons. by split.
Qed.

Definition const_array (id : nat) (name : string) (size : Z) (l : list Z) : Array := mkArray id name size l.
Lemma const_read env id name size l j x : length l = Z.to_nat size → 0 ≤ j < size →
  eval_read env (const_array id name size l) UNil j = Some x ↔ l !! Z.to_nat j = Some x.
Proof.
  intros Hl Hj. cbn. unfold initial_byte, isSymbolicArray. cbn.
  rewrite bool_decide_eq_false_2 by (intros ->; cbn in Hl; lia).
  by rewrite (proj2 (Z.leb_le _ _)), (proj2 (Z.ltb_lt _ _)) by lia.
Qed.

Lemma const_name env id name id' name' size l j : length l = Z.to_nat size → 0 ≤ j < size →
  eval_read env (const_array id name size l) UNil j = eval_read env (const_array id' name' size l) UNil j.
Proof.
  intros Hl Hj. destruct (lookup_lt_is_Some_2 l (Z.to_nat j)) as [x Ex]; [lia|].
  by rewrite (proj2 (const_read env id name size l j x Hl Hj) Ex), (proj2 (const_read env id' name' size l j x Hl Hj) Ex).
Qed.

Lemma pull_concrete_run size l contents w : Forall (write_ok size) l → length contents = Z.to_nat size → Forall (bits 8) contents →
  ∃ c' l', pull_concrete l contents w = Done (c', l') w ∧ Forall (write_ok size) l' ∧ length c' = Z.to_nat size ∧ Forall (bits 8) c' ∧
    ∀ env id name id' name' j, 0 ≤ j < size →
      eval_read env (const_array id name size contents) (to_updates l UNil) j =
      eval_read env (const_array id' name' size c') (to_updates l' UNil) j.
Proof.
  revert contents. induction l as [|[i v] l IH]; intros c Hl Hlen Hc.
  - exists c, []. split; [done|]. do 3 (split; [done|]). intros. by apply const_name.
  - assert (Hstop : pull_concrete ((i, v) :: l) c w = Done (c, (i, v) :: l) w →
      ∃ c' l', pull_concrete ((i, v) :: l) c w = Done (c', l') w ∧ Forall (write_ok size) l' ∧ length c' = Z.to_nat size ∧ Forall (bits 8) c' ∧
        ∀ env id name id' name' j, 0 ≤ j < size →
          eval_read env (const_array id name size c) (to_updates ((i, v) :: l) UNil) j =
          eval_read env (const_array id' name' size c') (to_updates l' UNil) j).
    { intros E. exists c, ((i, v) :: l). split; [done|]. do 3 (split; [done|]). intros. by apply to_updates_read, const_name. }
    destruct i as [wi ix| | | | | | | | | |]; try (by apply Hstop). destruct v as [wv vx| | | | | | | | | |]; try (by apply Hstop).
    clear Hstop. apply Forall_cons in Hl as [(Wi & Wv & Li & Lv & Hin) Hl]. cbn in Li, Lv. subst wi wv.
    specialize (Hin _ _ eq_refl). destruct Wv as [_ Hb]. cbn [pull_concrete].
    rewrite (bind_done _ _ _ tt w) by done.
    destruct (lookup_lt_is_Some_2 c (Z.to_nat ix)) as [y Ey]; [lia|]. rewrite Ey, (bind_done _ _ _ y w) by done.
    destruct (IH (<[Z.to_nat ix := vx]> c) Hl) as (c' & l' & E & Hl' & Hlen' & Hc' & Hev).
    { by rewrite length_insert. }
    { by apply Forall_insert. }
    exists c', l'. split; [done|]. do 3 (split; [done|]). intros env id name id' name' j Hj.
    rewrite <-(Hev env id name id' name' j Hj). cbn [to_updates foldl]. apply to_updates_read. cbn [fst snd].
    destruct (lookup_lt_is_Some_2 (<[Z.to_nat ix := vx]> c) (Z.to_nat j)) as [z Ez]; [rewrite length_insert; lia|].
    assert (Hli : length (<[Z.to_nat ix := vx]> c) = Z.to_nat size) by (by rewrite length_insert).
    rewrite (proj2 (const_read env id name size _ j z Hli Hj) Ez).
    destruct (decide (ix = j)) as [->|Hne].
    + rewrite list_lookup_insert_eq in Ez by lia. cbn. by rewrite Z.eqb_refl.
    + rewrite list_lookup_insert_ne in Ez by lia. cbn [eval_read eval mbind option_bind]. cbn.
      rewrite (proj2 (Z.eqb_neq _ _) Hne). by apply const_read.
Qed.

Lemma extend_all_run s n l : shape s → Forall (write_ok (os_size s)) l →
  ∃ s', extend_all l (mkObjw s n) = Done tt (mkObjw s' n) ∧ s' = set_updates (root s) (to_updates l (head s)) s ∧ shape s'.
Proof.
  revert s. induction l as [|[i v] l IH]; intros s Hs Hl; cbn [extend_all].
  - exists s. split; [done|]. split; [by destruct s|done].
  - apply Forall_cons in Hl as [(Wi & Wv & Li & Lv & Hin) Hl]. cbn in *.
    destruct (extend_run s n i v Hs Wi Wv Li Lv Hin) as [E Hs1]. rewrite (bind_done _ _ _ _ _ E).
    destruct (IH _ Hs1 Hl) as (s' & E' & -> & Hs'). eexists. split; [exact E'|]. split; [by destruct s|done].
Qed.

Lemma views_same s s' : object_ok s → shape s' → os_size s' = os_size s → (∀ j, inside s j → view s' j = view s j) →
  (∀ env j x, inside s j → eval_read env (base s) (head s) j = Some x → eval_read env (base s') (head s') j = Some x) →
  object_ok s' ∧ same_bytes s s'.
Proof.
  intros [Hs Hb] Hs' Ez HV Hev. split; [split; [done|]|split; [done|]].
  - intros j Hj. assert (Hj' : inside s j) by (unfold inside in *; lia). specialize (HV j Hj'). specialize (Hb j Hj').
    apply view_inv in HV as (E1 & E2 & E3 & E4). unfold byte_ok in *. by rewrite E1, E2, E3.
  - intros env mem Hr j Hj. assert (Hj' : inside s j) by (unfold inside in *; lia). specialize (HV j Hj').
    destruct (Hr j Hj') as (R1 & R2 & R3). apply view_inv in HV as (E1 & E2 & E3 & E4). unfold byte_rep in *. rewrite E1, E2, E3, E4. split_and!; auto.
Qed.

Lemma getUpdates_run s n : object_ok s →
  ∃ a ul s' n', getUpdates (mkObjw s n) = Done (a, ul) (mkObjw s' n') ∧ object_ok s' ∧ same_bytes s s' ∧
    root s' = Some a ∧ head s' = ul ∧ ∀ j, inside s j → view s' j = view s j.
Proof.
  intros Ho. pose proof Ho as [Hs Hb]. pose proof (sh_size s Hs) as Hz.
  unfold getUpdates. rewrite (bind_done _ _ _ s (mkObjw s n)) by done.
  destruct (root s) as [a|] eqn:Er.
  { exists a, (head s), s, n. split; [done|]. split; [done|]. done. }
  destruct (pull_concrete_run (os_size s) (writes (head s) []) (replicate (Z.to_nat (os_size s)) 0) (mkObjw s n))
    as (c & l & E & Hl & Hlen & Hc & Hev).
  { by apply writes_ok; [apply Hs|apply Hs|]. }
  { by rewrite length_replicate. }
  { apply Forall_replicate. unfold bits. lia. }
  rewrite (bind_done _ _ _ _ _ E). cbn [fst snd].
  set (a := mkArray n ("const_arr" +:+ pretty.pretty n) (os_size s) c).
  rewrite (bind_done _ _ _ a (mkObjw s (S n))) by done.
  set (s1 := set_updates (Some a) UNil s). rewrite (bind_done _ _ _ tt (mkObjw s1 (S n))) by done.
  assert (Ha : wf_array a).
  { split; [cbn; lia|]. split; [cbn; intros _; rewrite Hlen; lia|done]. }
  assert (H1 : shape s1) by (unfold s1; keep_shape).
  destruct (extend_all_run s1 (S n) l H1 Hl) as (s2 & E2 & -> & H2). rewrite (bind_done _ _ _ _ _ E2). cbn [root head s1].
  eexists a, _, _, (S n). split; [done|].
  edestruct (views_same s _ Ho H2) as [Ho2 Hsb]; [done|done| |by split_and!].
  intros env j x Hj Hx. cbn [base root head set_updates default]. unfold base in Hx. rewrite Er in Hx. cbn in Hx.
  change (zero_array (os_size s)) with (const_array 0 "" (os_size s) (replicate (Z.to_nat (os_size s)) 0)) in Hx.
  rewrite <-(writes_updates (head s)), (Hev env _ _ n ("const_arr" +:+ pretty.pretty n) j Hj) in Hx. exact Hx.
Qed.
End Ops.
