(* ===== verification/MemoryOps.v ===== *)
(** * Reads and writes of memory objects

    The reads and writes of [Memory] against a plain byte memory: for every assignment
    under which the offsets and values have values and the accesses stay inside the
    object, the symbolic object and the byte memory agree. *)
From S2P Require Import Prelude Expr ExprCreate ExprRefine ExprSums ExprSpec ExprBuild Memory MemorySpec.

Section Ops.
Context `{HA : !APInt, HC : !ExprCompare} (CAO LE : bool).

(** A read of the updates. *)
Lemma read_updates s n a ul i : object_ok s → root s = Some a → head s = ul → wf i → getWidth i = Int32 →
  ∃ e, build (ReadExpr_make CAO a ul i) (mkObjw s n) = Done e (mkObjw s n) ∧ wf e ∧ getWidth e = Int8 ∧
    ∀ env j x, eval env i = Some j → eval_read env (base s) (head s) j = Some x → eval env e = Some x.
Proof.
  intros [Hs _] Er <- Hi Wi. destruct (sh_root s Hs a Er) as [Ha _].
  destruct (ReadExpr_builds CAO a (head s) i) as (e & Ee & We & Le & He); [by split_and!; [..|apply Hs| |]|].
  exists e. split; [by apply build_run|]. split; [done|]. split; [done|]. intros env j x Ej Ex. apply He. cbn. rewrite Ej. cbn.
  unfold base in Ex. by rewrite Er in Ex.
Qed.

(** *** One byte *)
(** The result of a read of the byte at [addr], and the object afterwards. *)
Definition reads (m : O Expr) (s : ObjectState) (n : nat) (w : Z) (val : assignment → memory → option Z) : Prop :=
  ∃ e s' n', m (mkObjw s n) = Done e (mkObjw s' n') ∧ object_ok s' ∧ same_bytes s s' ∧ wf e ∧ getWidth e = w ∧
    ∀ env mem x, rep env s mem → val env mem = Some x → eval env e = Some x.
(** The object after a write that changes the memory with [val]. *)
Definition writes_mem (m : O unit) (s : ObjectState) (n : nat) (val : assignment → memory → option memory) : Prop :=
  ∃ s' n', m (mkObjw s n) = Done tt (mkObjw s' n') ∧ object_ok s' ∧ os_size s' = os_size s ∧
    ∀ env mem mem', rep env s mem → val env mem = Some mem' → rep env s' mem'.

Lemma read8_c_reads s n i : object_ok s → inside s i → reads (read8_c CAO i) s n Int8 (λ _ mem, Some (mem i)).
Proof.
  intros Ho Hi. pose proof Ho as [Hs Hb]. pose proof (sh_size s Hs) as Hz. unfold read8_c, reads.
  rewrite (bind_done _ _ _ _ _ (isByteConcrete_run s n i Hs Hi)), (bind_done _ _ _ s (mkObjw s n)) by done.
  destruct (c_at s i) eqn:Ec.
  { rewrite (store_at s i Hs Hi), (bind_done _ _ _ (st_at s i) (mkObjw s n)) by done. pose proof (store_bits s i Hs Hi) as Hx.
    exists (Constant 8 (st_at s i)), s, n. split; [by apply build_run, create_small|]. do 2 (split; [done|]). split; [by split|].
    split; [done|]. intros env mem x Hr [= <-]. destruct (Hr i Hi) as [H _]. cbn. by rewrite H. }
  rewrite (bind_done _ _ _ _ _ (known_at_run s n i Hs Hi)). destruct (k_at s i) as [e|] eqn:Ek.
  { exists e, s, n. split; [done|]. do 2 (split; [done|]).
    assert (wf e ∧ getWidth e = Int8) as [He We].
    { unfold k_at in Ek. destruct (knownSymbolics s) as [l|] eqn:El; [|done]. destruct (sh_known s Hs l El) as [_ H].
      destruct (l !! Z.to_nat i) as [o|] eqn:Eo; [|done]. cbn in Ek. subst o. by eapply H. }
    split; [done|]. split; [done|]. intros env mem x Hr [= <-]. destruct (Hr i Hi) as (_ & H & _). by apply H. }
  rewrite (bind_done _ _ _ _ _ (isByteFlushed_run s n i Hs Hi)).
  assert (Ef : f_at s i = true).
  { destruct (f_at s i) eqn:Ef; [done|]. destruct (Hb i Hi) as [_ H]. destruct (H Ef); congruence. }
  rewrite Ef, (bind_done _ _ _ tt (mkObjw s n)) by done.
  destruct (getUpdates_run s n Ho) as (a & ul & s' & n' & E & Ho' & Hsb & Er & Eh & HV). rewrite (bind_done _ _ _ _ _ E).
  assert (Hbi : bits 32 i) by (unfold inside, bits in *; lia).
  rewrite (bind_done _ _ _ _ _ (build_run _ _ _ (create_small i Int32 ltac:(lia) Hbi))). cbn [fst snd].
  destruct (read_updates s' n' a ul (Constant Int32 i) Ho' Er Eh) as (e & Ee & We & Le & He); [by split|done|].
  exists e, s', n'. split; [exact Ee|]. do 4 (split; [done|]). intros env mem x Hr [= <-]. apply (He env i); [done|].
  destruct Hsb as [Ez Hsb]. assert (Hi' : inside s' i) by (unfold inside in *; lia). destruct (Hsb env mem Hr i Hi') as (_ & _ & H).
  apply H. destruct (view_inv _ _ _ _ (HV i Hi)) as (_ & -> & _). done.
Qed.

(** The read and the write at an expression of 32 bits. *)
Lemma zext32 e : getWidth e = Int32 → ZExtExpr_make e Int32 tt = Done e tt.
Proof. intros W. unfold ZExtExpr_make. by rewrite W. Qed.

Definition at_byte (off : Expr) (s : ObjectState) (env : assignment) : option Z :=
  j ← eval env off; if decide (inside s j) then Some j else None.

Lemma read8_e_reads s n off : object_ok s → wf off → getWidth off = Int32 → isa_Constant off = false →
  reads (read8_e CAO off) s n Int8 (λ env mem, j ← at_byte off s env; Some (mem j)).
Proof.
  intros Ho Hw Wo Hc. unfold read8_e, reads. rewrite Hc, (bind_done _ _ _ tt (mkObjw s n)) by done.
  rewrite (bind_done _ _ _ (0, os_size s) (mkObjw s n)) by done. unfold flushRangeForRead. cbn [fst snd].
  destruct (flush_range_run true flush_byte_read s n flush_byte_read_run Ho) as (s1 & E1 & Ho1 & Hs1 & V1).
  rewrite (bind_done _ _ _ _ _ E1).
  destruct (getUpdates_run s1 n Ho1) as (a & ul & s2 & n2 & E2 & Ho2 & Hs2 & Er & Eh & V2). rewrite (bind_done _ _ _ _ _ E2).
  rewrite (bind_done _ _ _ _ _ (build_run _ _ _ (zext32 off Wo))). cbn [fst snd].
  destruct (read_updates s2 n2 a ul off Ho2 Er Eh Hw Wo) as (e & Ee & We & Le & He).
  exists e, s2, n2. split; [exact Ee|]. split; [done|]. split; [by eapply same_bytes_trans|]. do 2 (split; [done|]).
  intros env mem x Hr Ex. unfold at_byte in Ex. destruct (eval env off) as [j|] eqn:Ej; [|done]. cbn in Ex.
  case_decide as Hj; [|done]. cbn in Ex. simplify_eq. apply (He env j); [done|].
  destruct Hs1 as [Ez1 Hr1], Hs2 as [Ez2 Hr2]. assert (Hj1 : inside s1 j) by (unfold inside in *; lia).
  assert (Hj2 : inside s2 j) by (unfold inside in *; lia). destruct (Hr2 env mem (Hr1 env mem Hr) j Hj2) as (_ & _ & H). apply H.
  destruct (view_inv _ _ _ _ (V2 j Hj1)) as (_ & -> & _). specialize (V1 j Hj). unfold view, flushed_view in V1. congruence.
Qed.

Lemma write8_v_writes s n i e : object_ok s → inside s i → wf e → getWidth e = Int8 →
  writes_mem (write8_v i e) s n (λ env mem, x ← eval env e; Some (mem_set mem i x)).
Proof.
  intros Ho Hi He We. pose proof Ho as [Hs Hb]. destruct (write8_v_run s n i e Hs Hi He We) as (s' & c & k & x & E & Hch & Hck & Hv).
  exists s', n. split; [done|]. split; [by eapply changed_ok|]. split; [apply Hch|]. intros env mem mem' Hr Hm.
  destruct (eval env e) as [y|] eqn:Ey; [|done]. cbn in Hm. simplify_eq. destruct (Hv env y Ey). by eapply changed_rep.
Qed.
Lemma write8_c_writes s n i x : object_ok s → inside s i → bits 8 x →
  writes_mem (write8_c i x) s n (λ env mem, Some (mem_set mem i x)).
Proof.
  intros Ho Hi Hx. pose proof Ho as [Hs Hb]. destruct (write8_c_run s n i x Hs Hi Hx) as (s' & E & Hch).
  exists s', n. split; [done|]. split; [by eapply changed_ok|]. split; [apply Hch|]. intros env mem mem' Hr [= <-].
  by eapply changed_rep.
Qed.

Lemma write8_e_writes s n off e : object_ok s → wf off → getWidth off = Int32 → isa_Constant off = false → wf e → getWidth e = Int8 →
  writes_mem (write8_e off e) s n (λ env mem, j ← eval env off; x ← eval env e; Some (mem_set mem j x)).
Proof.
  intros Ho Hw Wo Hc He We. unfold write8_e, writes_mem. rewrite Hc, (bind_done _ _ _ tt (mkObjw s n)) by done.
  rewrite (bind_done _ _ _ (0, os_size s) (mkObjw s n)) by done. unfold flushRangeForWrite. cbn [fst snd].
  destruct (flush_range_run false flush_byte_write s n flush_byte_write_run Ho) as (s1 & E1 & Ho1 & Hs1 & V1).
  rewrite (bind_done _ _ _ _ _ E1), (bind_done _ _ _ _ _ (build_run _ _ _ (zext32 off Wo))).
  destruct Ho1 as [H1 B1]. destruct (extend_run s1 n off e H1 Hw He Wo We) as [E2 H2]; [by intros w v ->|].
  eexists _, n. split; [exact E2|]. destruct Hs1 as [Ez Hr1].
  split; [split; [done|exact B1]|]. split; [exact Ez|]. intros env mem mem' Hr Hm.
  destruct (eval env off) as [j|] eqn:Ej; [|done]. destruct (eval env e) as [x|] eqn:Ex; [|done]. cbn in Hm. simplify_eq.
  intros i Hi. change (inside s1 i) in Hi. assert (Hi0 : inside s i) by (unfold inside in *; lia).
  destruct (Hr1 env mem Hr i Hi) as (_ & _ & R3). specialize (V1 i Hi0). unfold view, flushed_view in V1.
  injection V1 as Ec Ef Ek Es. unfold byte_rep, mem_set.
  split_and!; [intros Hcc; change (c_at s1 i = true) in Hcc; by rewrite Ec in Hcc|..].
  - intros e' Hk. change (k_at s1 i = Some e') in Hk. by rewrite Ek in Hk.
  - intros _. cbn [head set_updates eval_read]. rewrite Ej, Ex. cbn. destruct (Z.eqb_spec j i); case_decide; try done; auto.
Qed.

(** *** Offsets *)
(** A sum whose constant has been moved to the left at most once. *)
Fixpoint reduced (e : Expr) : bool :=
  match e with
  | Arith KAdd (Constant _ _) a | Arith KSub (Constant _ _) a => negb (isa_Constant a) && reduced a
  | _ => true
  end.

Lemma const_sum_reduced e b B c : const_sum e = Some (b, B, c) → reduced e = true → isa_Constant c = false ∧ reduced c = true.
Proof.
  intros (w & k & -> & -> & _)%const_sum_spec. destruct b; cbn; rewrite andb_true_iff, negb_true_iff; done.
Qed.

(** A constant added to an expression that is not one gives an expression that is not one. *)
Definition keeps_symbolic (f : Z → Z → Expr → res Expr) : Prop := ∀ w v r e,
  w ≠ 1 → isa_Constant r = false → reduced r = true → f w v r tt = Done e tt → isa_Constant e = false.

Lemma sum_symbolic fuel :
  keeps_symbolic (AddExpr_createPartialR CAO fuel) ∧ keeps_symbolic (SubExpr_createPartialR CAO fuel) ∧
  keeps_symbolic (λ w v r, AddExpr_make_rec CAO fuel (Constant w v) r) ∧
  keeps_symbolic (λ w v r, SubExpr_make_rec CAO fuel (Constant w v) r).
Proof.
  induction fuel as [|fuel (IA & IS & IMA & IMS)]; [by repeat split|].
  assert (Hx : ∀ (mk : Expr → Expr → res Expr) w v B x, (mk = AddExpr_make_rec CAO fuel ∨ mk = SubExpr_make_rec CAO fuel) →
    isa_Constant B = true → mk (Constant w v) B tt = Done x tt → ∃ v', x = Constant w v').
  { intros mk w v B x Hmk HB E. destruct B; try done. destruct fuel as [|fuel]; [by destruct Hmk as [->| ->]|].
    destruct Hmk as [->| ->]; cbn [AddExpr_make_rec SubExpr_make_rec] in E; unfold bcreate_r, const_arith in E; cbn in E;
      destruct (w =? width); cbn in E; try done; injection E as <-; eauto. }
  assert (Hpart : ∀ (mk mk' : Expr → Expr → res Expr) w v b B c r e, const_sum r = Some (b, B, c) → reduced r = true → w ≠ 1 →
    (mk = AddExpr_make_rec CAO fuel ∨ mk = SubExpr_make_rec CAO fuel) →
    (mk' = AddExpr_make_rec CAO fuel ∨ mk' = SubExpr_make_rec CAO fuel) →
    (x ← mk (Constant w v) B; mk' x c) tt = Done e tt → isa_Constant e = false).
  { intros mk mk' w v b B c r e Hcs Hred Hw Hmk Hmk' E. destruct (const_sum_reduced r b B c Hcs Hred) as [Hc Hr].
    destruct (const_sum_spec _ _ _ _ Hcs) as (wB & kB & -> & _).
    unfold mbind, M_bind in E. destruct (mk (Constant w v) (Constant wB kB) tt) as [x u|] eqn:Ex; [|done]. destruct u.
    destruct (Hx mk w v (Constant wB kB) x Hmk eq_refl Ex) as [v' ->].
    destruct Hmk' as [->| ->]; [by eapply (IMA w v' c)|by eapply (IMS w v' c)]. }
  repeat split; intros w v r e Hw Hr Hred E.
  - cbn [AddExpr_createPartialR] in E. rewrite (proj2 (Z.eqb_neq w Bool)) in E by done.
    unfold mbind at 1, M_bind at 1 in E. destruct (isZero w v tt) as [z u|]; [|done]. destruct u, z; [by injection E as <-|].
    destruct (const_sum r) as [[[[] B] c]|] eqn:Ecs; [| |by injection E as <-];
      (eapply (Hpart _ _ w v _ B c r e Ecs Hred Hw); [| |exact E]; auto).
  - cbn [SubExpr_createPartialR] in E. rewrite (proj2 (Z.eqb_neq w Bool)) in E by done.
    destruct (const_sum r) as [[[[] B] c]|] eqn:Ecs; [| |by injection E as <-];
      (eapply (Hpart _ _ w v _ B c r e Ecs Hred Hw); [| |exact E]; auto).
  - cbn [AddExpr_make_rec] in E. unfold bcreate_r in E. destruct (getWidth (Constant w v) =? getWidth r); [|done].
    eapply (IA w v r); [done..|]. by destruct r.
  - cbn [SubExpr_make_rec] in E. unfold bcreate_r in E. destruct (getWidth (Constant w v) =? getWidth r); [|done].
    eapply (IS w v r); [done..|]. by destruct r.
Qed.

Lemma add_offset off k : wf off → getWidth off = Int32 → isa_Constant off = false → reduced off = true → bits 32 k →
  ∃ a, AddExpr_make CAO off (Constant Int32 k) tt = Done a tt ∧ wf a ∧ getWidth a = Int32 ∧ isa_Constant a = false ∧
    ∀ env o, eval env off = Some o → eval env a = Some (u32 (o + k)).
Proof.
  intros Hw Wo Hc Hred Hk.
  destruct (AddExpr_builds CAO off (Constant Int32 k)) as (a & E & Wa & La & Ha); [done|by split|done|lia|].
  exists a. split; [done|]. split; [done|]. split; [cbn in La; congruence|]. split.
  - unfold AddExpr_make in E. rewrite sum_fuel_S in E. cbn [AddExpr_make_rec] in E. unfold bcreate_r in E.
    destruct (getWidth off =? getWidth (Constant Int32 k)); [|done].
    destruct (sum_symbolic (2 * (esize off + esize (Constant Int32 k)) + 1)) as [HS _].
    eapply (HS Int32 k off); [done..|]. by destruct off.
  - intros env o Eo. apply Ha, eval_arith. exists o, k. rewrite Wo. done.
Qed.

(** *** Several bytes *)
(** Loads and stores of a plain byte memory, by the machine's byte order. *)
Fixpoint load (mem : memory) (o N : Z) (k : nat) : Z :=
  match k with
  | Datatypes.O => 0
  | S k => Z.shiftl (mem (o + byte_index LE N (Z.of_nat k))) (8 * Z.of_nat k) + load mem o N k
  end.
Fixpoint store (mem : memory) (o N x : Z) (k : nat) : memory :=
  match k with
  | Datatypes.O => mem
  | S k => mem_set (store mem o N x k) (o + byte_index LE N (Z.of_nat k)) (u8 (Z.shiftr x (8 * Z.of_nat k)))
  end.

(** The address of an access of [N] bytes, when it is inside an object of [size] bytes. *)
Definition within (size N : Z) (addr : assignment → option Z) (env : assignment) : option Z :=
  o ← addr env; if decide (0 ≤ o ∧ o + N ≤ size) then Some o else None.

Lemma byte_index_range N i : 0 ≤ i < N → 0 ≤ byte_index LE N i < N.
Proof. unfold byte_index. destruct LE; lia. Qed.

Section Loops.
Context (size N : Z) (addr : assignment → option Z).

Definition reads_byte (rd : Z → O Expr) : Prop := ∀ s n idx, object_ok s → os_size s = size → 0 ≤ idx < N →
  reads (rd idx) s n Int8 (λ env mem, o ← within size N addr env; Some (mem (o + idx))).

(** [Q] stands for what the object held at the start. *)
Lemma read_bytes_run rd (Q : assignment → memory → Prop) : reads_byte rd → 0 < N → 8 * N < 2 ^ 32 →
  ∀ k i r s n, object_ok s → os_size s = size → (∀ env mem, Q env mem → rep env s mem) → Z.of_nat i + Z.of_nat k = N →
  match r with
  | None => i = 0%nat
  | Some r => wf r ∧ getWidth r = 8 * Z.of_nat i ∧
    ∀ env mem o, Q env mem → within size N addr env = Some o → eval env r = Some (load mem o N i)
  end →
  ∃ e s' n', read_bytes LE rd N k (Z.of_nat i) r (mkObjw s n) = Done e (mkObjw s' n') ∧ object_ok s' ∧ same_bytes s s' ∧
    wf e ∧ getWidth e = 8 * N ∧
    ∀ env mem o, Q env mem → within size N addr env = Some o → eval env e = Some (load mem o N (Z.to_nat N)).
Proof.
  intros Hrd HN HM. induction k as [|k IH]; intros i r s n Ho Ez HQ Hik Hr; cbn [read_bytes].
  - destruct r as [r|]; [|lia]. destruct Hr as (Wr & Lr & Hr). exists r, s, n. split; [done|]. do 3 (split; [done|]).
    split; [lia|]. replace (Z.to_nat N) with i by lia. done.
  - destruct (Hrd s n (byte_index LE N (Z.of_nat i)) Ho Ez) as (b & s1 & n1 & E1 & Ho1 & Hs1 & Wb & Lb & Hb);
      [apply byte_index_range; lia|].
    rewrite (bind_done _ _ _ _ _ E1).
    assert (∃ r', (match r with None => mret b | Some r => build (ConcatExpr_make b r) end : O Expr) (mkObjw s1 n1) = Done r' (mkObjw s1 n1) ∧
      wf r' ∧ getWidth r' = 8 * Z.of_nat (S i) ∧
      ∀ env mem o, Q env mem → within size N addr env = Some o → eval env r' = Some (load mem o N (S i))) as (r' & E2 & Hr').
    { assert (Hbv : ∀ env mem o, Q env mem → within size N addr env = Some o →
        eval env b = Some (mem (o + byte_index LE N (Z.of_nat i)))).
      { intros env mem o Hq Hin. apply (Hb env mem); [by apply HQ|]. by rewrite Hin. }
      destruct r as [r|].
      - destruct Hr as (Wr & Lr & Hr). destruct (ConcatExpr_builds b r) as (c & Ec & Wc & Lc & Hc); [by split_and!; [| |lia]|]. exists c.
        split; [by apply build_run|]. split; [done|]. split; [cbn in Lc; lia|]. intros env mem o Hq Hin. apply Hc. cbn.
        rewrite (Hbv env mem o Hq Hin), (Hr env mem o Hq Hin), Lr. done.
      - subst i. exists b. split; [done|]. split; [done|]. split; [done|]. intros env mem o Hq Hin.
        rewrite (Hbv env mem o Hq Hin). cbn. f_equal. rewrite Z.shiftl_0_r. lia. }
    rewrite (bind_done _ _ _ _ _ E2). destruct Hs1 as [Ez1 Hr1].
    destruct (IH (S i) (Some r') s1 n1 Ho1) as (e & s2 & n2 & E3 & Ho2 & Hs2 & We & Le & He); [congruence|auto|lia|done|].
    exists e, s2, n2. split; [by rewrite Nat2Z.inj_succ in E3; rewrite <-Z.add_1_r in E3|]. split; [done|].
    split; [by eapply same_bytes_trans|]. done.
Qed.

(** The value of which byte [i] is written. *)
Definition writes_byte (x : assignment → option Z) (wr : Z → Z → O unit) : Prop := ∀ s n i, object_ok s → os_size s = size → 0 ≤ i < N →
  writes_mem (wr (byte_index LE N i) i) s n
    (λ env mem, o ← within size N addr env; v ← x env; Some (mem_set mem (o + byte_index LE N i) (u8 (Z.shiftr v (8 * i))))).

Lemma write_bytes_run x wr (Q : assignment → memory → Prop) : writes_byte x wr →
  ∀ k i s n, object_ok s → os_size s = size → Z.of_nat i + Z.of_nat k = N →
  (∀ env mem o v, Q env mem → within size N addr env = Some o → x env = Some v → rep env s (store mem o N v i)) →
  ∃ s' n', write_bytes LE wr N k (Z.of_nat i) (mkObjw s n) = Done tt (mkObjw s' n') ∧ object_ok s' ∧ os_size s' = size ∧
    ∀ env mem o v, Q env mem → within size N addr env = Some o → x env = Some v → rep env s' (store mem o N v (Z.to_nat N)).
Proof.
  intros Hwr k. induction k as [|k IH]; intros i s n Ho Ez Hik HQ; cbn [write_bytes].
  - exists s, n. do 3 (split; [done|]). replace (Z.to_nat N) with i by lia. done.
  - destruct (Hwr s n (Z.of_nat i) Ho Ez ltac:(lia)) as (s1 & n1 & E1 & Ho1 & Ez1 & H1). rewrite (bind_done _ _ _ _ _ E1).
    destruct (IH (S i) s1 n1 Ho1) as (s2 & n2 & E2 & H2); [congruence|lia| |].
    + intros env mem o v Hq Hin Hv. apply (H1 env (store mem o N v i)); [by apply HQ|]. by rewrite Hin, Hv.
    + exists s2, n2. split; [by rewrite Nat2Z.inj_succ in E2; rewrite <-Z.add_1_r in E2|]. done.
Qed.
End Loops.

Definition nbytes (w : Z) : Z := if w =? Bool then 1 else w `div` 8.
Definition access_width (w : Z) : Prop := w = Bool ∨ 0 < w < 2 ^ 32 ∧ w `mod` 8 = 0.
(** Constants of at most 64 bits are written in one of five sizes. *)
Definition write_width (w : Z) : Prop := access_width w ∧ (w ≤ 64 → w = 1 ∨ w = 8 ∨ w = 16 ∨ w = 32 ∨ w = 64).

Lemma access_bytes w : access_width w → w ≠ Bool → w = 8 * nbytes w ∧ 0 < nbytes w ∧ 8 * nbytes w < 2 ^ 32 ∧ nbytes w = w `div` 8.
Proof.
  intros [->|[Hw H8]] Hne; [done|]. unfold nbytes. rewrite (proj2 (Z.eqb_neq _ _) Hne).
  Z.to_euclidean_division_equations; lia.
Qed.

(** The value read from a byte memory and the memory after a write. *)
Definition mem_read (addr : assignment → option Z) (size w : Z) (env : assignment) (mem : memory) : option Z :=
  o ← within size (nbytes w) addr env; Some (wrapu w (load mem o (nbytes w) (Z.to_nat (nbytes w)))).
Definition mem_write (addr x : assignment → option Z) (size w : Z) (env : assignment) (mem : memory) : option memory :=
  o ← within size (nbytes w) addr env; v ← x env; Some (store mem o (nbytes w) v (Z.to_nat (nbytes w))).

Lemma read_with_reads addr rd rd0 s n w : object_ok s → access_width w →
  (w ≠ Bool → reads_byte (os_size s) (nbytes w) addr rd) →
  (w = Bool → reads rd0 s n Int8 (λ env mem, o ← within (os_size s) 1 addr env; Some (mem o))) →
  reads (read_with LE rd rd0 w) s n w (mem_read addr (os_size s) w).
Proof.
  intros Ho Hw Hrd Hrd0. unfold read_with, mem_read. destruct (Z.eqb_spec w Bool) as [->|Hne].
  - destruct (Hrd0 eq_refl) as (b & s1 & n1 & E & Ho1 & Hs1 & Wb & Lb & Hb). unfold reads. rewrite (bind_done _ _ _ _ _ E).
    destruct (ExtractExpr_builds b 0 Bool) as (e & Ee & We & Le & He); [split_and!; [done|lia|lia|lia]|].
    exists e, s1, n1. split; [by apply build_run|]. do 4 (split; [done|]). intros env mem x Hr Hx.
    change (nbytes Bool) with 1 in Hx. destruct (within _ 1 addr env) as [o|] eqn:Eo; [|done]. cbn in Hx. simplify_eq.
    apply He. cbn [eval]. rewrite (Hb env mem (mem o) Hr) by (by rewrite Eo). cbn [mbind option_bind]. f_equal. rewrite Z.shiftr_0_r.
    change (Z.to_nat 1) with 1%nat. cbn [load]. change (8 * Z.of_nat 0) with 0. rewrite Z.shiftl_0_r, Z.add_0_r.
    unfold byte_index. by destruct LE; rewrite Z.add_0_r.
  - destruct (access_bytes w Hw Hne) as (E8 & HN & HM & EN). unfold reads. rewrite <-EN.
    rewrite (bind_done _ _ _ tt (mkObjw s n)) by (by rewrite (proj2 (Z.eqb_eq _ _)) by lia).
    destruct (read_bytes_run (os_size s) (nbytes w) addr rd (λ env mem, rep env s mem) (Hrd Hne) HN HM (Z.to_nat (nbytes w)) 0 None s n Ho)
      as (e & s1 & n1 & E & Ho1 & Hs1 & We & Le & He); [done|done|lia|done|].
    exists e, s1, n1. split; [exact E|]. do 3 (split; [done|]). split; [lia|]. intros env mem x Hr Hx.
    destruct (within _ _ addr env) as [o|] eqn:Eo; [|done]. cbn in Hx. simplify_eq.
    pose proof (He env mem o Hr Eo) as Hev. rewrite Hev. f_equal. symmetry. apply wrapu_small.
    pose proof (eval_range env e _ We Hev) as Hb. rewrite Le, <-E8 in Hb. exact Hb.
Qed.

Lemma read_c_reads s n off w : object_ok s → access_width w → 0 ≤ off → off + nbytes w ≤ os_size s →
  reads (read_c CAO LE off w) s n w (mem_read (λ _, Some off) (os_size s) w).
Proof.
  intros Ho Hw H0 Hoff. pose proof (sh_size s (proj1 Ho)) as Hz. unfold read_c. apply read_with_reads; [done|done|..].
  - intros Hne s' n' idx Ho' Ez Hi. rewrite wrapu_small by lia.
    destruct (read8_c_reads s' n' (off + idx) Ho') as (e & s1 & n1 & E & Ho1 & Hs1 & We & Le & He); [unfold inside; lia|].
    exists e, s1, n1. do 5 (split; [done|]). intros env mem x Hr Hx. apply (He env mem); [done|].
    unfold within in Hx. cbn in Hx. by case_decide.
  - intros ->. change (nbytes Bool) with 1 in Hoff.
    destruct (read8_c_reads s n off Ho) as (e & s1 & n1 & E & Ho1 & Hs1 & We & Le & He); [unfold inside; lia|].
    exists e, s1, n1. do 5 (split; [done|]). intros env mem x Hr Hx. apply (He env mem); [done|].
    unfold within in Hx. cbn in Hx. by case_decide.
Qed.

Lemma read_sym_reads s n off w : object_ok s → access_width w → wf off → getWidth off = Int32 → isa_Constant off = false →
  reduced off = true → nbytes w < 2 ^ 32 →
  reads (read_with LE (read8_at CAO off) (read8_e CAO off) w) s n w (mem_read (λ env, eval env off) (os_size s) w).
Proof.
  intros Ho Hw Hoff Wo Hc Hred HN. pose proof (sh_size s (proj1 Ho)) as Hz. apply read_with_reads; [done|done|..].
  - intros Hne s' n' idx Ho' Ez Hi. unfold read8_at, reads. assert (Hbi : bits 32 idx) by (unfold bits; lia).
    rewrite (bind_done _ _ _ _ _ (build_run _ _ _ (create_small idx Int32 ltac:(lia) Hbi))).
    destruct (add_offset off idx Hoff Wo Hc Hred Hbi) as (a & Ea & Wa & La & Ca & Ha). rewrite (bind_done _ _ _ _ _ (build_run _ _ _ Ea)).
    destruct (read8_e_reads s' n' a Ho' Wa La Ca) as (e & s1 & n1 & E & Ho1 & Hs1 & We & Le & He).
    exists e, s1, n1. do 5 (split; [done|]). intros env mem x Hr Hx. apply (He env mem); [done|].
    unfold within, at_byte in *. destruct (eval env off) as [o|] eqn:Eo; [|done]. cbn in Hx. case_decide as Hin; [|done]. cbn in Hx.
    rewrite (Ha env o Eo), wrapu_small by lia. cbn. rewrite decide_True by (unfold inside; lia). done.
  - intros ->. destruct (read8_e_reads s n off Ho Hoff Wo Hc) as (e & s1 & n1 & E & Ho1 & Hs1 & We & Le & He).
    exists e, s1, n1. do 5 (split; [done|]). intros env mem x Hr Hx. apply (He env mem); [done|].
    unfold within, at_byte in *. destruct (eval env off) as [o|] eqn:Eo; [|done]. cbn in *. case_decide as Hin; [|done].
    rewrite decide_True by (unfold inside; lia). done.
Qed.

(** An offset of any width, as the accesses take it. *)
Definition offset_ok (off : Expr) : Prop := ∀ o, ZExtExpr_make off Int32 tt = Done o tt → isa_Constant o || reduced o = true.
Definition address (off : Expr) (env : assignment) : option Z := o ← eval env off; Some (u32 o).
(** A constant offset is inside the object. *)
Definition const_inside (size N : Z) (off : Expr) : Prop := ∀ v, ZExtExpr_make off Int32 tt = Done (Constant Int32 v) tt → v + N ≤ size.

Lemma reads_weaken m s n w val val' : (∀ env mem x, val' env mem = Some x → val env mem = Some x) → reads m s n w val → reads m s n w val'.
Proof. intros H (e & s1 & n1 & E & Ho & Hs & We & Le & He). exists e, s1, n1. do 5 (split; [done|]). eauto. Qed.
Lemma mem_read_mono addr addr' size w env mem x : (∀ o, addr' env = Some o → addr env = Some o) →
  mem_read addr' size w env mem = Some x → mem_read addr size w env mem = Some x.
Proof. intros H. unfold mem_read, within. destruct (addr' env) as [o|]; [|done]. by rewrite (H o eq_refl). Qed.

Lemma read_e_reads s n off w : object_ok s → access_width w → wf off → offset_ok off → const_inside (os_size s) (nbytes w) off →
  nbytes w < 2 ^ 32 → reads (read_e CAO LE off w) s n w (mem_read (address off) (os_size s) w).
Proof.
  intros Ho Hw Hoff Hok Hin HN. unfold read_e. destruct (ZExtExpr_builds off Int32 Hoff ltac:(lia)) as (o & Eo & Wo & Lo & Hv).
  specialize (Hok o Eo). cbn in Lo.
  assert (Haddr : ∀ env x, address off env = Some x → eval env o = Some x).
  { intros env x Hx. apply Hv. unfold address in Hx. cbn. destruct (eval env off); [|done]. done. }
  assert (Hrun : ∀ m, reads m s n w (mem_read (λ env, eval env o) (os_size s) w) → reads m s n w (mem_read (address off) (os_size s) w)).
  { intros m. apply reads_weaken. intros env mem x. apply mem_read_mono, Haddr. }
  assert (E : ∀ k : Expr → O Expr, (build (ZExtExpr_make off Int32) ≫= k) (mkObjw s n) = k o (mkObjw s n)).
  { intros k. by rewrite (bind_done _ _ _ _ _ (build_run _ _ _ Eo)). }
  unfold reads. rewrite E. destruct (isa_Constant o) eqn:Ec.
  - destruct o as [w0 v| | | | | | | | | |]; try done. cbn in Lo. subst w0. destruct Wo as [_ Hb].
    rewrite (bind_done _ _ _ v (mkObjw s n)) by done. specialize (Hin v Eo). unfold bits in Hb.
    apply Hrun. by apply read_c_reads; [..|lia|].
  - assert (Er : (match o with Constant w0 v => o' ← build (getZExtValue 32 w0 v); read_c CAO LE o' w
      | _ => read_with LE (read8_at CAO o) (read8_e CAO o) w end) = read_with LE (read8_at CAO o) (read8_e CAO o) w) by (by destruct o).
    rewrite Er. apply Hrun. by apply read_sym_reads.
Qed.

(** *** Writes *)
Lemma writes_weaken m s n val val' : (∀ env mem mem', val' env mem = Some mem' → val env mem = Some mem') →
  writes_mem m s n val → writes_mem m s n val'.
Proof. intros H (s1 & n1 & E & Ho & Ez & Hr). exists s1, n1. do 3 (split; [done|]). eauto. Qed.

Lemma write_bytes_writes addr x wr s n N : object_ok s → 0 ≤ N → writes_byte (os_size s) N addr x wr →
  writes_mem (write_bytes LE wr N (Z.to_nat N) 0) s n
    (λ env mem, o ← within (os_size s) N addr env; v ← x env; Some (store mem o N v (Z.to_nat N))).
Proof.
  intros Ho HN Hwr.
  destruct (write_bytes_run (os_size s) N addr x wr (λ env mem, rep env s mem) Hwr (Z.to_nat N) 0 s n Ho) as (s1 & n1 & E & Ho1 & Ez & H1);
    [done|lia|done|].
  exists s1, n1. do 3 (split; [done|]). intros env mem mem' Hr Hm. destruct (within _ N addr env) as [o|] eqn:Eo; [|done].
  destruct (x env) as [v|] eqn:Ev; [|done]. cbn in Hm. simplify_eq. by apply H1.
Qed.

(** A store of one byte. *)
Lemma store_one mem o x : bits 8 x → store mem o 1 x 1 = mem_set mem o x.
Proof.
  intros Hx. cbn [store]. change (8 * Z.of_nat 0) with 0. rewrite Z.shiftr_0_r, wrapu_small by done.
  unfold byte_index. by destruct LE; rewrite Z.add_0_r.
Qed.

Lemma write_general_writes addr wr0 wr s n value : object_ok s → wf value → access_width (getWidth value) →
  (getWidth value = Bool → ∀ v, wf v → getWidth v = Int8 →
     writes_mem (wr0 v) s n (λ env mem, o ← within (os_size s) 1 addr env; x ← eval env v; Some (mem_set mem o x))) →
  (getWidth value ≠ Bool → ∀ s' n idx v, object_ok s' → os_size s' = os_size s → 0 ≤ idx < nbytes (getWidth value) → wf v → getWidth v = Int8 →
     writes_mem (wr idx v) s' n
       (λ env mem, o ← within (os_size s) (nbytes (getWidth value)) addr env; x ← eval env v; Some (mem_set mem (o + idx) x))) →
  writes_mem (write_general LE wr0 wr value) s n (mem_write addr (λ env, eval env value) (os_size s) (getWidth value)).
Proof.
  intros Ho Hval Hw H0 H1. unfold write_general, mem_write. destruct (Z.eqb_spec (getWidth value) Bool) as [Hb|Hne].
  - destruct (ZExtExpr_builds value Int8 Hval ltac:(lia)) as (v & Ev & Wv & Lv & Hv).
    unfold writes_mem. rewrite (bind_done _ _ _ _ _ (build_run _ _ _ Ev)). destruct (H0 Hb v Wv Lv) as (s1 & n1 & E & Ho1 & Ez & Hr).
    exists s1, n1. do 3 (split; [done|]). intros env mem mem' Hrep Hm. apply (Hr env mem); [done|].
    rewrite Hb in Hm. change (nbytes Bool) with 1 in Hm. destruct (within _ 1 addr env) as [o|]; [|done]. cbn in Hm.
    destruct (eval env value) as [x|] eqn:Ex; [|done]. cbn in Hm. simplify_eq. pose proof (eval_range env value x Hval Ex) as Hx.
    rewrite Hb in Hx. assert (Hx8 : bits 8 x) by (unfold bits in *; lia).
    rewrite (Hv env x) by (cbn; rewrite Ex; cbn; by rewrite wrapu_small). cbn. f_equal. symmetry. by apply store_one.
  - destruct (access_bytes _ Hw Hne) as (E8 & HN & _ & EN). rewrite <-EN. unfold writes_mem.
    rewrite (bind_done _ _ _ tt (mkObjw s n)) by (by rewrite (proj2 (Z.eqb_eq _ _)) by lia).
    apply write_bytes_writes; [done|lia|]. intros s' n' i Ho' Ez Hi.
    destruct (ExtractExpr_builds value (8 * i) Int8) as (v & Ev & Wv & Lv & Hv); [split_and!; [done|lia|lia|lia]|].
    unfold writes_mem. rewrite (bind_done _ _ _ _ _ (build_run _ _ _ Ev)).
    destruct (H1 Hne s' n' (byte_index LE (nbytes (getWidth value)) i) v Ho' Ez) as (s1 & n1 & E & Ho1 & Ez1 & Hr);
      [apply byte_index_range; lia|done|done|].
    exists s1, n1. do 3 (split; [done|]). intros env mem mem' Hrep Hm. apply (Hr env mem); [done|].
    destruct (within _ _ addr env) as [o|]; [|done]. cbn in *. destruct (eval env value) as [x|] eqn:Ex; [|done]. cbn in *.
    rewrite (Hv env (u8 (Z.shiftr x (8 * i)))) by (cbn; by rewrite Ex). done.
Qed.

Lemma within_const size N off env : 0 ≤ off → off + N ≤ size → within size N (λ _, Some off) env = Some off.
Proof. intros. unfold within. cbn. by rewrite decide_True. Qed.

Lemma write_int_writes s n N off v : object_ok s → 0 ≤ N → 0 ≤ off → off + N ≤ os_size s →
  writes_mem (write_int LE N off v) s n (λ env mem, Some (store mem off N v (Z.to_nat N))).
Proof.
  intros Ho HN H0 Hoff. pose proof (sh_size s (proj1 Ho)) as Hz. unfold write_int.
  eapply writes_weaken; [|apply (write_bytes_writes (λ _, Some off) (λ _, Some v)); [done|done|]].
  - intros env mem mem' H. cbv beta. by rewrite within_const.
  - intros s' n' i Ho' Ez Hi. pose proof (byte_index_range N i Hi).
    rewrite wrapu_small by lia. eapply writes_weaken; [|apply write8_c_writes; [done|unfold inside; lia|apply bits_wrapu; lia]].
    intros env mem mem' H'. by rewrite within_const in H'.
Qed.

Lemma write_c_writes s n off value : object_ok s → wf value → write_width (getWidth value) → 0 ≤ off → off + nbytes (getWidth value) ≤ os_size s →
  writes_mem (write_c LE off value) s n (mem_write (λ _, Some off) (λ env, eval env value) (os_size s) (getWidth value)).
Proof.
  intros Ho Hval [Hw Hw64] H0 Hoff. pose proof (sh_size s (proj1 Ho)) as Hz.
  assert (Hgen : writes_mem (write_general LE (write8_v off) (λ idx v, write8_v (u32 (off + idx)) v) value) s n
    (mem_write (λ _, Some off) (λ env, eval env value) (os_size s) (getWidth value))).
  { apply write_general_writes; [done|done|done|..].
    - intros Hb v Wv Lv. rewrite Hb in Hoff. change (nbytes Bool) with 1 in Hoff.
      eapply writes_weaken; [|apply write8_v_writes; [done|unfold inside; lia|done|done]].
      intros env mem mem' H. by rewrite within_const in H by lia.
    - intros Hne s' n' idx v Ho' Ez Hi Wv Lv.
      rewrite wrapu_small by lia. eapply writes_weaken; [|apply write8_v_writes; [done|unfold inside; lia|done|done]].
      intros env mem mem' H. by rewrite within_const in H by lia. }
  unfold write_c. destruct value as [w v| | | | | | | | | |]; try exact Hgen. cbn [getWidth] in *.
  destruct (Z.leb_spec w 64); [|exact Hgen]. destruct Hval as [H0w Hb].
  assert (Hone : w = 1 ∨ w = 8 → writes_mem (write8_c off (u8 v)) s n (mem_write (λ _, Some off) (λ env, eval env (Constant w v)) (os_size s) w)).
  { intros Hw'. assert (bits 8 v) by (unfold bits in *; destruct Hw'; subst; lia). assert (nbytes w = 1) as Hn1 by (by destruct Hw'; subst).
    rewrite wrapu_small by done. eapply writes_weaken; [|apply write8_c_writes; [done|unfold inside; lia|done]].
    intros env mem mem' Hm. unfold mem_write in Hm. rewrite Hn1, within_const in Hm by lia.
    change (Some (store mem off 1 v 1) = Some mem') in Hm. by rewrite store_one in Hm. }
  assert (Hint : ∀ N, w = 8 * N → 1 < N → writes_mem (write_int LE N off v) s n
    (mem_write (λ _, Some off) (λ env, eval env (Constant w v)) (os_size s) w)).
  { intros N -> HN. assert (nbytes (8 * N) = N) as EN.
    { unfold nbytes. rewrite (proj2 (Z.eqb_neq _ _)) by lia. rewrite Z.mul_comm. by apply Z.div_mul. }
    rewrite EN in Hoff. eapply writes_weaken; [|apply write_int_writes; [done|lia|done|done]].
    intros env mem mem' Hm. unfold mem_write in Hm. by rewrite EN, within_const in Hm by lia. }
  destruct (Hw64 ltac:(lia)) as [->|[->|[->|[->| ->]]]]; cbn [Z.eqb Pos.eqb orb].
  - apply Hone; auto.
  - apply Hone; auto.
  - apply (Hint 2); lia.
  - apply (Hint 4); lia.
  - apply (Hint 8); lia.
Qed.

Lemma write_sym_writes s n off value : object_ok s → wf value → access_width (getWidth value) → wf off → getWidth off = Int32 →
  isa_Constant off = false → reduced off = true → nbytes (getWidth value) < 2 ^ 32 →
  writes_mem (write_general LE (write8_e off) (write8_at CAO off) value) s n
    (mem_write (λ env, eval env off) (λ env, eval env value) (os_size s) (getWidth value)).
Proof.
  intros Ho Hval Hw Hoff Wo Hc Hred HN. pose proof (sh_size s (proj1 Ho)) as Hz. apply write_general_writes; [done|done|done|..].
  - intros Hb v Wv Lv. eapply writes_weaken; [|by apply write8_e_writes]. cbv beta. intros env mem mem' H. unfold within in H.
    destruct (eval env off) as [o|]; [|done]. cbn in H. by case_decide.
  - intros Hne s' n' idx v Ho' Ez Hi Wv Lv. unfold write8_at, writes_mem. assert (Hbi : bits 32 idx) by (unfold bits; lia).
    rewrite (bind_done _ _ _ _ _ (build_run _ _ _ (create_small idx Int32 ltac:(lia) Hbi))).
    destruct (add_offset off idx Hoff Wo Hc Hred Hbi) as (a & Ea & Wa & La & Ca & Ha). rewrite (bind_done _ _ _ _ _ (build_run _ _ _ Ea)).
    destruct (write8_e_writes s' n' a v Ho' Wa La Ca Wv Lv) as (s1 & n1 & E & Ho1 & Ez1 & Hr).
    exists s1, n1. do 3 (split; [done|]). intros env mem mem' Hrep Hm. apply (Hr env mem); [done|]. unfold within in Hm.
    destruct (eval env off) as [o|] eqn:Eo; [|done]. cbn in Hm. case_decide as Hin; [|done]. cbn in Hm.
    rewrite (Ha env o Eo), wrapu_small by lia. done.
Qed.

Lemma mem_write_mono addr addr' x size w env mem mem' : (∀ o, addr' env = Some o → addr env = Some o) →
  mem_write addr' x size w env mem = Some mem' → mem_write addr x size w env mem = Some mem'.
Proof. intros H. unfold mem_write, within. destruct (addr' env) as [o|]; [|done]. by rewrite (H o eq_refl). Qed.

Lemma write_e_writes s n off value : object_ok s → wf value → write_width (getWidth value) → wf off → offset_ok off →
  const_inside (os_size s) (nbytes (getWidth value)) off → nbytes (getWidth value) < 2 ^ 32 →
  writes_mem (write_e CAO LE off value) s n (mem_write (address off) (λ env, eval env value) (os_size s) (getWidth value)).
Proof.
  intros Ho Hval Hw Hoff Hok Hin HN. unfold write_e. destruct (ZExtExpr_builds off Int32 Hoff ltac:(lia)) as (o & Eo & Wo & Lo & Hv).
  specialize (Hok o Eo). cbn in Lo.
  assert (Hrun : ∀ m, writes_mem m s n (mem_write (λ env, eval env o) (λ env, eval env value) (os_size s) (getWidth value)) →
    writes_mem m s n (mem_write (address off) (λ env, eval env value) (os_size s) (getWidth value))).
  { intros m. apply writes_weaken. intros env mem x. apply mem_write_mono. intros y Hy. apply Hv. unfold address in Hy. cbn.
    by destruct (eval env off). }
  assert (E : ∀ k : Expr → O unit, (build (ZExtExpr_make off Int32) ≫= k) (mkObjw s n) = k o (mkObjw s n)).
  { intros k. by rewrite (bind_done _ _ _ _ _ (build_run _ _ _ Eo)). }
  unfold writes_mem. rewrite E. destruct (isa_Constant o) eqn:Ec.
  - destruct o as [w0 v| | | | | | | | | |]; try done. cbn in Lo. subst w0. destruct Wo as [_ Hb].
    rewrite (bind_done _ _ _ v (mkObjw s n)) by done. specialize (Hin v Eo). unfold bits in Hb.
    apply Hrun. by apply write_c_writes; [..|lia|].
  - assert (Er : (match o with Constant w0 v => o' ← build (getZExtValue 32 w0 v); write_c LE o' value
      | _ => write_general LE (write8_e o) (write8_at CAO o) value end) = write_general LE (write8_e o) (write8_at CAO o) value) by (by destruct o).
    rewrite Er. apply Hrun. apply write_sym_writes; by (done || apply Hw).
Qed.

(** ** Sequences of accesses *)
Inductive access := Load (off : Expr) (w : Z) | Store (off value : Expr).

Fixpoint accesses (l : list access) : O (list Expr) :=
  match l with
  | [] => mret []
  | Load off w :: l => e ← read_e CAO LE off w; es ← accesses l; mret (e :: es)
  | Store off v :: l => write_e CAO LE off v;; accesses l
  end.

(** The same accesses to the bytes of a machine with the values of [env]. *)
Fixpoint machine (env : assignment) (size : Z) (l : list access) (mem : memory) : option (list Z * memory) :=
  match l with
  | [] => Some ([], mem)
  | Load off w :: l =>
    x ← mem_read (address off) size w env mem;
    p ← machine env size l mem; Some (x :: p.1, p.2)
  | Store off v :: l =>
    mem' ← mem_write (address off) (λ env, eval env v) size (getWidth v) env mem; machine env size l mem'
  end.

Definition access_ok (size : Z) (a : access) : Prop :=
  match a with
  | Load off w => access_width w ∧ nbytes w < 2 ^ 32 ∧ wf off ∧ offset_ok off ∧ const_inside size (nbytes w) off
  | Store off v => write_width (getWidth v) ∧ nbytes (getWidth v) < 2 ^ 32 ∧ wf v ∧ wf off ∧ offset_ok off ∧
      const_inside size (nbytes (getWidth v)) off
  end.

Lemma accesses_run l s n : object_ok s → Forall (access_ok (os_size s)) l →
  ∃ es s' n', accesses l (mkObjw s n) = Done es (mkObjw s' n') ∧ object_ok s' ∧ os_size s' = os_size s ∧ Forall wf es ∧
    ∀ env mem rs mem', rep env s mem → machine env (os_size s) l mem = Some (rs, mem') →
      eval env <$> es = Some <$> rs ∧ rep env s' mem'.
Proof.
  revert s n. induction l as [|[off w|off v] l IH]; intros s n Ho Hl.
  - exists [], s, n. do 4 (split; [done|]). intros env mem rs mem' Hr [= <- <-]. done.
  - apply Forall_cons in Hl as [(Hw & HN & Hoff & Hok & Hin) Hl].
    destruct (read_e_reads s n off w Ho Hw Hoff Hok Hin HN) as (e & s1 & n1 & E1 & Ho1 & [Ez1 Hs1] & We & Le & He).
    rewrite <-Ez1 in Hl. destruct (IH s1 n1 Ho1 Hl) as (es & s2 & n2 & E2 & Ho2 & Ez2 & Wes & Hr2).
    exists (e :: es), s2, n2. cbn [accesses]. rewrite (bind_done _ _ _ _ _ E1), (bind_done _ _ _ _ _ E2). split; [done|].
    split; [done|]. split; [congruence|]. split; [by constructor|]. intros env mem rs mem' Hr Hm. cbn in Hm.
    destruct (mem_read _ _ w env mem) as [x|] eqn:Ex; [|done]. cbn in Hm.
    destruct (machine env (os_size s) l mem) as [[rs1 mem1]|] eqn:Em; [|done]. cbn in Hm. simplify_eq.
    rewrite <-Ez1 in Em. destruct (Hr2 env mem rs1 mem' (Hs1 env mem Hr) Em) as [E3 H3]. split; [|done].
    cbn. by rewrite (He env mem x Hr Ex), E3.
  - apply Forall_cons in Hl as [(Hw & HN & Hv & Hoff & Hok & Hin) Hl].
    destruct (write_e_writes s n off v Ho Hv Hw Hoff Hok Hin HN) as (s1 & n1 & E1 & Ho1 & Ez1 & Hs1).
    rewrite <-Ez1 in Hl. destruct (IH s1 n1 Ho1 Hl) as (es & s2 & n2 & E2 & Ho2 & Ez2 & Wes & Hr2).
    exists es, s2, n2. cbn [accesses]. rewrite (bind_done _ _ _ _ _ E1). split; [done|].
    split; [done|]. split; [congruence|]. split; [done|]. intros env mem rs mem' Hr Hm. cbn in Hm.
    destruct (mem_write _ _ _ _ env mem) as [mem1|] eqn:Ex; [|done]. cbn in Hm. rewrite <-Ez1 in Hm.
    by apply (Hr2 env mem1); [apply (Hs1 env mem)|].
Qed.

(** ** New objects *)
Lemma new_zero_object UCA mo junk n : 0 ≤ mo_size mo < 2 ^ 32 - 31 →
  ∃ s, initializeToZero (new_ObjectState UCA mo junk n) = Done tt (mkObjw s (narrays (new_ObjectState UCA mo junk n))) ∧
    object_ok s ∧ os_size s = mo_size mo ∧ ∀ env, rep env s (λ _, 0).
Proof.
  intros Hz. set (r := root (obj (new_ObjectState UCA mo junk n))).
  exists (mkOS mo 0 (replicate (Z.to_nat (mo_size mo)) 0) None None None r UNil (mo_size mo) false).
  split; [by destruct UCA|]. split; [|split; [done|]].
  - split; [|by intros i Hi; split; [|left]]. constructor; cbn; try done; [by rewrite length_replicate| |].
    + apply Forall_replicate. unfold bits. lia.
    + intros a Ha. unfold r in Ha. destruct UCA; cbn in Ha; [done|]. injection Ha as <-. split; [|done]. split; [cbn; lia|]. done.
  - intros env i Hi. split; [|done]. intros _. unfold st_at. cbn. apply lookup_total_replicate_2. unfold inside in Hi. cbn in Hi. lia.
Qed.

Lemma markByteFlushed_run s n i : shape s → inside s i →
  ∃ m, markByteFlushed i (mkObjw s n) = Done tt (mkObjw (set_fmask m s) n) ∧ shape (set_fmask m s) ∧
    f_at (set_fmask m s) i = true ∧ ∀ j, inside s j → f_at s j = true → f_at (set_fmask m s) j = true.
Proof.
  intros Hs Hi. unfold markByteFlushed. run_prim. destruct (flushMask s) as [b|] eqn:E.
  - destruct (bit_unset_spec _ _ _ (sh_fmask s Hs b E) Hi) as (b' & -> & Hb & Hget). exists (Some b'). split; [done|].
    split; [keep_shape|]. unfold f_at. cbn. split; [by rewrite Hget, decide_True by done|]. rewrite E.
    intros j Hj Hf. rewrite Hget by done. by case_decide.
  - pose proof (sh_size s Hs) as Hz. pose proof (new_bits_for _ false Hz). exists (Some (new_BitArray (os_size s) false)). split; [done|].
    split; [keep_shape|]. unfold f_at. cbn. split; [by rewrite bit_get_new|]. intros. by rewrite bit_get_new.
Qed.

(** Bytes below [b] are in the updates only. *)
Lemma makeSymbolic_loop k b s n : shape s → 0 ≤ b → b + Z.of_nat k = os_size s → (∀ j, inside s j → k_at s j = None) →
  (∀ j, inside s j → j < b → c_at s j = false ∧ f_at s j = true) →
  ∃ s', for_range makeSymbolic_byte b k (mkObjw s n) = Done tt (mkObjw s' n) ∧ shape s' ∧ os_size s' = os_size s ∧
    root s' = root s ∧ head s' = head s ∧ ∀ j, inside s j → k_at s' j = None ∧ c_at s' j = false ∧ f_at s' j = true.
Proof.
  revert b s. induction k as [|k IH]; intros b s Hs Hb0 Hb Hk Hd; cbn [for_range].
  - exists s. do 5 (split; [done|]). intros j Hj. split; [auto|]. apply Hd; [done|]. unfold inside in Hj. lia.
  - assert (Hi : inside s b) by (unfold inside; lia). unfold makeSymbolic_byte at 1.
    destruct (markByteSymbolic_run s n b Hs Hi) as (m & E1 & H1 & C1). set (s1 := set_cmask m s) in *.
    destruct (setKnownSymbolic_run s1 n b None H1 Hi ltac:(done)) as (l & E2 & H2 & K2). set (s2 := set_known l s1) in *.
    destruct (markByteFlushed_run s2 n b H2 Hi) as (f & E3 & H3 & F3 & F3'). set (s3 := set_fmask f s2) in *.
    assert (E : makeSymbolic_byte b (mkObjw s n) = Done tt (mkObjw s3 n)).
    { unfold makeSymbolic_byte. by rewrite (bind_done _ _ _ _ _ E1), (bind_done _ _ _ _ _ E2). }
    destruct (IH (b + 1) s3 H3) as (s' & E4 & H4 & Ez & Er & Eh & HV); [lia|change (os_size s3) with (os_size s); lia| | |].
    + intros j Hj. change (k_at s2 j = None). rewrite K2 by exact Hj. case_decide; [done|]. by apply Hk.
    + intros j Hj Hlt. change (c_at s1 j = false ∧ f_at s3 j = true). rewrite C1 by exact Hj. case_decide; [by subst|].
      destruct (Hd j Hj ltac:(lia)) as [Hc Hf]. split; [done|]. by apply F3'.
    + exists s'. split; [|done]. fold (makeSymbolic_byte b). by rewrite (bind_done _ _ _ _ _ E).
Qed.

Lemma new_symbolic_object mo junk a n : 0 ≤ mo_size mo < 2 ^ 32 - 31 → length junk = Z.to_nat (mo_size mo) → Forall (bits 8) junk →
  wf_array a → arr_size a = mo_size mo → isSymbolicArray a = true →
  ∃ s, symbolic_ObjectState mo junk a n = Done tt (mkObjw s n) ∧ object_ok s ∧ os_size s = mo_size mo ∧
    ∀ env, rep env s (λ i, u8 (env a i)).
Proof.
  intros Hz Hl Hb Ha Es Hsym. unfold symbolic_ObjectState, makeSymbolic. set (s0 := fresh_object mo junk (Some a)).
  assert (H0 : shape s0) by (constructor; cbn; try done; naive_solver).
  rewrite (bind_done _ _ _ s0 (mkObjw s0 n)) by done. rewrite (bind_done _ _ _ tt (mkObjw s0 n)) by done.
  destruct (makeSymbolic_loop (Z.to_nat (mo_size mo)) 0 s0 n H0) as (s & E & H1 & Ez & Er & Eh & HV);
    [lia|cbn; lia|done|unfold inside; cbn; lia|].
  exists s. split; [exact E|]. split; [|split; [done|]].
  - split; [done|]. intros i Hi. destruct (HV i) as (K & C & F); [unfold inside in *; lia|]. split; congruence.
  - intros env i Hi. destruct (HV i) as (K & C & F); [unfold inside in *; lia|]. split_and!; [congruence|congruence|]. intros _.
    unfold base. rewrite Er, Eh. cbn. unfold initial_byte. by rewrite Hsym.
Qed.
End Ops.

(** ** Properties *)
(** C8: a memory object of the engine behaves as an array of bytes.  For every
    sequence of loads and stores at concrete or symbolic offsets, of one bit or of
    whole bytes in either byte order, the object's calls return (constant offsets
    being inside the object), whichever bytes are concrete, cached or in the update
    list, and whether or not the constant array has been made; and for every
    assignment under which all accesses stay inside the object, each loaded
    expression has the value that the same loads and stores give on plain bytes. *)
Theorem object_refines_memory `{!APInt, !ExprCompare} (ConstArrayOpt isLittleEndian : bool) (l : list access) (s : ObjectState) (n : nat) :
  object_ok s → Forall (access_ok (os_size s)) l →
  ∃ es s' n', accesses ConstArrayOpt isLittleEndian l (mkObjw s n) = Done es (mkObjw s' n') ∧ object_ok s' ∧
    ∀ env mem rs mem', rep env s mem → machine isLittleEndian env (os_size s) l mem = Some (rs, mem') →
      eval env <$> es = Some <$> rs ∧ rep env s' mem'.
Proof.
  intros Ho Hl. destruct (accesses_run ConstArrayOpt isLittleEndian l s n Ho Hl) as (es & s' & n' & E & Ho' & _ & _ & Hm).
  exists es, s', n'. by split_and!.
Qed.

(** Four symbolic bytes; 0x0102 is stored over the first two, the last byte at the
    offset [b2 & 3], and the word is loaded. *)
Definition arg_object : MemoryObject := mkMO 0 4096 4 true false false.
Definition sample_offset : Expr := Arith KAnd (ZExt (arg_byte 2) 32) (Constant 32 3).
Definition sample_accesses : list access :=
  [Store (Constant 32 0) (Constant 16 258); Store sample_offset (arg_byte 3); Load (Constant 32 0) 32].

Lemma sample_wf : wf sample_offset ∧ wf (arg_byte 3).
Proof. vm_compute. repeat split; congruence || by intros. Qed.
Lemma sample_accesses_ok : Forall (access_ok 4) sample_accesses.
Proof.
  destruct sample_wf as [W1 W2].
  assert (Hc : ∀ N, N ≤ 4 → wf (Constant 32 0) ∧ offset_ok (Constant 32 0) ∧ const_inside 4 N (Constant 32 0)).
  { intros N HN. split; [by split; [lia|split; lia]|]. split; [by intros o [= <-]|]. intros v [= <-]. lia. }
  assert (Hw : ∀ w, w = 8 ∨ w = 16 ∨ w = 32 → access_width w ∧ write_width w).
  { intros w H. assert (access_width w) by (right; destruct H as [->|[->| ->]]; split; done || lia). repeat split; [done|done|].
    intros _. naive_solver. }
  apply Forall_cons; split; [|apply Forall_cons; split; [|apply Forall_cons; split; [|done]]].
  - destruct (Hc 2 ltac:(lia)) as (? & ? & ?). split_and!; [apply Hw; auto|by vm_compute|by split; [|split]|done..].
  - split_and!; [apply Hw; auto|by vm_compute|done|done|by intros o [= <-]|intros v [=]].
  - destruct (Hc 4 ltac:(lia)) as (? & ? & ?). split_and!; [apply Hw; auto|by vm_compute|done..].
Qed.

Lemma object_refines_memory_witness :
  ∃ s es s', symbolic_ObjectState arg_object [0; 0; 0; 0] arg 0 = Done tt (mkObjw s 0) ∧
    accesses true true sample_accesses (mkObjw s 0) = Done es s' ∧
    eval (λ _ i, 5 + i) <$> es = [Some 134676738].
Proof.
  destruct (new_symbolic_object arg_object [0; 0; 0; 0] arg 0) as (s & E & Ho & Ez & Hr);
    [cbn; lia|reflexivity|repeat constructor; cbn; lia|repeat split; (vm_compute; congruence) || by intros|reflexivity|reflexivity|].
  destruct (object_refines_memory true true sample_accesses s 0 Ho) as (es & s' & n' & E' & _ & Hm);
    [rewrite Ez; exact sample_accesses_ok|].
  exists s, es, (mkObjw s' n'). split; [exact E|]. split; [exact E'|].
  rewrite Ez in Hm. eapply (proj1 (Hm (λ _ i, 5 + i) _ [134676738] _ (Hr _) _)).
  Unshelve. 2: reflexivity.
Defined.

(** the contents of new objects: an object initialised to zero holds zeros under
    every assignment, and an object made symbolic holds the bytes the assignment gives
    to its array. *)
Theorem new_objects_hold `{!APInt, !ExprCompare} (UseConstantArrays : bool) mo junk a n :
  0 ≤ mo_size mo < 2 ^ 32 - 31 → length junk = Z.to_nat (mo_size mo) → Forall (bits 8) junk →
  wf_array a → arr_size a = mo_size mo → isSymbolicArray a = true →
  (∃ s n', initializeToZero (new_ObjectState UseConstantArrays mo junk n) = Done tt (mkObjw s n') ∧ object_ok s ∧
     ∀ env, rep env s (λ _, 0)) ∧
  (∃ s, symbolic_ObjectState mo junk a n = Done tt (mkObjw s n) ∧ object_ok s ∧ ∀ env, rep env s (λ i, u8 (env a i))).
Proof.
  intros Hz Hl Hb Ha Es Hsym. split.
  - destruct (new_zero_object UseConstantArrays mo junk n Hz) as (s & E & Ho & _ & Hr). eauto.
  - destruct (new_symbolic_object mo junk a n Hz Hl Hb Ha Es Hsym) as (s & E & Ho & _ & Hr). eauto.
Qed.

Lemma new_objects_hold_witness :
  ∃ s, symbolic_ObjectState arg_object [0; 0; 0; 0] arg 0 = Done tt (mkObjw s 0) ∧ object_ok s.
Proof.
  destruct (new_objects_hold true arg_object [0; 0; 0; 0] arg 0) as [_ (s & E & Ho & _)];
    [cbn; lia|reflexivity|repeat constructor; cbn; lia|repeat split; (vm_compute; congruence) || by intros|reflexivity|reflexivity|].
  exists s. split; [exact E|exact Ho].
Defined.

(** ** Bounds checks
    The expressions that the engine asks the solver about before it accesses a memory
    object (src/klee/lib/Core/Memory.h). *)
Section Bounds.
Context `{HA : !APInt, HC : !ExprCompare} (CAO : bool) (W : Z) (HW : 1 < W ≤ 64).

(** An object whose bytes have addresses. *)
Definition placed (mo : MemoryObject) : Prop := 0 ≤ mo_address mo ∧ 0 ≤ mo_size mo < 2 ^ 32 ∧ mo_size mo < 2 ^ W ∧ mo_address mo + mo_size mo ≤ 2 ^ W.

(** The offset of a pointer, and whether it is below a limit. *)
Lemma offset_builds mo p : placed mo → mo_address mo < 2 ^ W → wf p → getWidth p = W →
  builds (getOffsetExpr CAO W mo p) (Arith KSub p (Constant W (mo_address mo))).
Proof.
  intros (H0 & Hs & _ & Hle) Ha Hp Wp. unfold getOffsetExpr, getBaseExpr.
  eapply builds_test; [by apply create_small; [lia|split; lia]|].
  apply SubExpr_builds; [done|by split; [lia|split; lia]|done|lia].
Qed.

(** A comparison of the offset, as a fact about the pointer. *)
Lemma offset_below_ptr W' a x lim : 0 < W' → 0 ≤ a → 0 ≤ lim → a + lim ≤ 2 ^ W' → 0 ≤ x < 2 ^ W' →
  wrapu W' (x - a) <? lim = (a <=? x) && (x <? a + lim).
Proof.
  intros HW' Ha Hl Hle Hx. destruct (Z_lt_le_dec x a).
  - assert (wrapu W' (x - a) = x - a + 2 ^ W') as ->.
    { unfold wrapu. rewrite <-(Z.mod_add (x - a) 1 (2 ^ W')) by lia. rewrite Z.mul_1_l. apply Z.mod_small. lia. }
    rewrite (proj2 (Z.ltb_ge _ _)), (proj2 (Z.leb_gt _ _)) by lia. done.
  - rewrite wrapu_small by lia. rewrite (proj2 (Z.leb_le _ _)) by lia. cbn. apply eq_true_iff_eq. rewrite !Z.ltb_lt. lia.
Qed.

Lemma ult_offset mo p lim o : placed mo → wf p → getWidth p = W → 0 ≤ lim < 2 ^ W → mo_address mo + lim ≤ 2 ^ W →
  refines (Arith KSub p (Constant W (mo_address mo))) o →
  ∃ e, UltExpr_make CAO o (Constant W lim) tt = Done e tt ∧ wf e ∧ getWidth e = Bool ∧
    ∀ env x, eval env p = Some x → eval env e = Some (bool_val ((mo_address mo <=? x) && (x <? mo_address mo + lim))).
Proof.
  intros (H0 & Hs & _ & Hle) Hp Wp Hlim Hsum (Wo & Lo & Ho). cbn in Lo.
  destruct (cmp_builds CAO KUlt o (Constant W lim)) as (e & Ee & We & Le & He); [done|by split; [lia|]|cbn; congruence|].
  exists e. split; [exact Ee|]. split; [done|]. split; [done|]. intros env x Ex. apply He, eval_cmp.
  exists (wrapu W (x - mo_address mo)), lim. split; [apply Ho, eval_arith; exists x, (mo_address mo); rewrite Wp; done|]. split; [done|].
  cbn. f_equal. pose proof (eval_range env p x Hp Ex) as Hx. rewrite Wp in Hx. symmetry. apply offset_below_ptr; (done || lia).
Qed.

(** The check of a pointer alone. *)
Lemma pointer_check mo p : placed mo → mo_address mo < 2 ^ W → wf p → getWidth p = W →
  ∃ e, getBoundsCheckPointer CAO W mo p tt = Done e tt ∧ wf e ∧ getWidth e = Bool ∧
    ∀ env x, eval env p = Some x →
      eval env e = Some (bool_val (if mo_size mo =? 0 then x =? mo_address mo
                                   else (mo_address mo <=? x) && (x <? mo_address mo + mo_size mo))).
Proof.
  intros Hpl Ha Hp Wp. destruct (offset_builds mo p Hpl Ha Hp Wp) as (o & Eo & Ho). pose proof Hpl as (Hp0 & Hs & HsW & Hle).
  unfold getBoundsCheckPointer. rewrite (bind_done _ _ _ _ _ Eo). unfold getBoundsCheckOffset.
  destruct (Z.eqb_spec (mo_size mo) 0) as [Hz|Hz].
  + destruct Ho as (Wo & Lo & Hv). cbn in Lo. unfold Constant_alloc. rewrite wrapu_small by lia.
    destruct (EqExpr_builds CAO o (Constant W 0)) as (e & Ee & We & Le & He);
      [done|by split; [lia|split; lia]|cbn; congruence|].
    exists e. split; [exact Ee|]. split; [done|]. split; [done|]. intros env x Ex. apply He, eval_cmp.
    exists (wrapu W (x - mo_address mo)), 0. split; [apply Hv, eval_arith; exists x, (mo_address mo); rewrite Wp; done|]. split; [done|].
    cbn. f_equal. pose proof (eval_range env p x Hp Ex) as Hx. rewrite Wp in Hx. unfold bits in Hx. apply eq_true_iff_eq. rewrite !Z.eqb_eq.
    split; [intros ->; by rewrite Z.sub_diag, wrapu_small by lia|]. intros Hw. unfold wrapu in Hw. apply Z.mod_divide in Hw as [k Hk]; [|lia].
    assert (k = 0) by nia. lia.
  + unfold getSizeExpr. rewrite (bind_done _ _ _ _ _ (create_small (mo_size mo) W ltac:(lia) ltac:(split; lia))).
    destruct (ult_offset mo p (mo_size mo) o Hpl Hp Wp) as (e & Ee & We & Le & He); [lia|lia|done|]. eauto.
Qed.
(** The check of an access. *)
Lemma access_check mo p bytes : placed mo → mo_address mo < 2 ^ W → wf p → getWidth p = W → 1 ≤ bytes < 2 ^ 32 →
  ∃ e, getBoundsCheckPointer_bytes CAO W mo p bytes tt = Done e tt ∧ wf e ∧ getWidth e = Bool ∧
    ∀ env x, eval env p = Some x →
      eval env e = Some (bool_val ((mo_address mo <=? x) && (x + bytes <=? mo_address mo + mo_size mo))).
Proof.
  intros Hpl Ha Hp Wp Hb. destruct (offset_builds mo p Hpl Ha Hp Wp) as (o & Eo & Ho). pose proof Hpl as (Hp0 & Hs & HsW & Hle).
  unfold getBoundsCheckPointer_bytes. rewrite (bind_done _ _ _ _ _ Eo). unfold getBoundsCheckOffset_bytes.
  destruct (Z.leb_spec bytes (mo_size mo)).
  - unfold Constant_alloc. rewrite (wrapu_small 32), (wrapu_small W) by lia.
    destruct (ult_offset mo p (mo_size mo - bytes + 1) o Hpl Hp Wp) as (e & Ee & We & Le & He); [lia|lia|done|].
    exists e. split; [exact Ee|]. split; [done|]. split; [done|]. intros env x Ex. rewrite (He env x Ex). do 3 f_equal.
    apply eq_true_iff_eq. rewrite Z.ltb_lt, Z.leb_le. lia.
  - exists (Constant Bool 0). split; [done|]. split; [by split; [lia|split; lia]|]. split; [done|]. intros env x Ex. cbn. f_equal.
    pose proof (eval_range env p x Hp Ex) as Hx. unfold bits in Hx.
    destruct (Z.leb_spec (mo_address mo) x); [|done]. cbn. by rewrite (proj2 (Z.leb_gt _ _)) by lia.
Qed.
End Bounds.

(** C31: the condition the engine checks before it accesses [bytes] bytes at a
    pointer of 32 or 64 bits is built without failure, and it holds under an
    assignment exactly when all the bytes from the pointer lie inside the object: the
    subtraction of the base and the limit do not wrap around in a way that lets a
    pointer below the object or near the end of it through.  The check for a pointer
    alone asks that it points to a byte of the object, or to an object of no bytes. *)
Theorem bounds_check_exact `{!APInt, !ExprCompare} (ConstArrayOpt : bool) (W : Z) (mo : MemoryObject) (p : Expr) (bytes : Z) :
  1 < W ≤ 64 → placed W mo → mo_address mo < 2 ^ W → wf p → getWidth p = W → 1 ≤ bytes < 2 ^ 32 →
  (∃ e, getBoundsCheckPointer_bytes ConstArrayOpt W mo p bytes tt = Done e tt ∧ wf e ∧ getWidth e = Bool ∧
    ∀ env x, eval env p = Some x →
      eval env e = Some (bool_val ((mo_address mo <=? x) && (x + bytes <=? mo_address mo + mo_size mo)))) ∧
  (∃ e, getBoundsCheckPointer ConstArrayOpt W mo p tt = Done e tt ∧ wf e ∧ getWidth e = Bool ∧
    ∀ env x, eval env p = Some x →
      eval env e = Some (bool_val (if mo_size mo =? 0 then x =? mo_address mo
                                   else (mo_address mo <=? x) && (x <? mo_address mo + mo_size mo)))).
Proof.
  intros HW Hpl Ha Hp Wp Hb. split; [by apply access_check|by apply pointer_check].
Qed.

(** The last three bytes of an object cannot hold a word. *)
Lemma bounds_check_exact_witness :
  let mo := mkMO 0 4096 16 true false false in
  let p := Arith KAdd (Constant 32 4108) (ZExt (byte_read (mkArray 0 "arg" 4 []) 0) 32) in
  wf p ∧ ∃ e, getBoundsCheckPointer_bytes true 32 mo p 4 tt = Done e tt ∧ eval (λ _ _, 0) e = Some 1 ∧ eval (λ _ _, 1) e = Some 0.
Proof.
  intros mo p. assert (Wp : wf p) by (vm_compute; repeat split; congruence || by intros). split; [exact Wp|].
  destruct (bounds_check_exact true 32 mo p 4) as [(e & Ee & _ & _ & He) _]; [lia|repeat split; cbn; lia|cbn; lia|exact Wp|reflexivity|lia|].
  exists e. split; [exact Ee|]. split; [exact (He (λ _ _, 0) 4108 eq_refl)|exact (He (λ _ _, 1) 4109 eq_refl)].
Defined.
