(* ===== verification/ImmutableTree.v ===== *)
(** * Persistent balanced trees

    src/klee/include/klee/Internal/ADT/ImmutableTree.h (and ImmutableMap.h, which passes
    every call on): the search trees that hold the memory objects of a state.  A node
    stores its height; nodes are never changed, so that trees can share them, and the
    reference counts are left out.  The keys are compared through numbers, as the
    address of a memory object. *)
From Stdlib Require Import Sorted.
From S2P Require Import Prelude.

Module ImmutableTree.
Section Tree.
Context {V : Type} (key : V → Z).

Inductive Node : Type :=
| terminator
| mkNode (left right : Node) (value : V) (height : Z).

Definition height (n : Node) : Z := match n with terminator => 0 | mkNode _ _ _ h => h end.
Definition isTerminator (n : Node) : bool := match n with terminator => true | _ => false end.
(** The constructor. *)
Definition new_Node (left right : Node) (value : V) : Node :=
  mkNode left right value (Z.max (height left) (height right) + 1).

(** The rotations read the children of a node that must not be the terminator, whose
    own children are itself. *)
Definition left_of (n : Node) : Node := match n with terminator => terminator | mkNode l _ _ _ => l end.
Definition right_of (n : Node) : Node := match n with terminator => terminator | mkNode _ r _ _ => r end.

Definition balance (left : Node) (value : V) (right : Node) : Node :=
  if height right + 2 <? height left then
    match left with
    | mkNode ll lr lv _ =>
      if height lr <=? height ll then new_Node ll (new_Node lr right value) lv
      else
        match lr with
        | mkNode lrl lrr lrv _ => new_Node (new_Node ll lrl lv) (new_Node lrr right value) lrv
        | terminator => new_Node left right value
        end
    | terminator => new_Node left right value
    end
  else if height left + 2 <? height right then
    match right with
    | mkNode rl rr rv _ =>
      if height rl <=? height rr then new_Node (new_Node left rl value) rr rv
      else
        match rl with
        | mkNode rll rlr rlv _ => new_Node (new_Node left rll value) (new_Node rlr rr rv) rlv
        | terminator => new_Node left right value
        end
    | terminator => new_Node left right value
    end
  else new_Node left right value.

Fixpoint size (n : Node) : Z := match n with terminator => 0 | mkNode l r _ _ => size l + 1 + size r end.

(** [popMin] and [popMax] of a node. *)
Fixpoint popMin (l r : Node) (value : V) : V * Node :=
  match l with
  | terminator => (value, r)
  | mkNode ll lr lv _ => let p := popMin ll lr lv in (p.1, balance p.2 value r)
  end.
Fixpoint popMax (l r : Node) (value : V) : V * Node :=
  match r with
  | terminator => (value, l)
  | mkNode rl rr rv _ => let p := popMax rl rr rv in (p.1, balance l value p.2)
  end.

Fixpoint insert (v : V) (n : Node) : Node :=
  match n with
  | terminator => new_Node terminator terminator v
  | mkNode l r value h =>
    if key v <? key value then balance (insert v l) value r
    else if key value <? key v then balance l value (insert v r)
    else n
  end.
Fixpoint replace (v : V) (n : Node) : Node :=
  match n with
  | terminator => new_Node terminator terminator v
  | mkNode l r value h =>
    if key v <? key value then balance (replace v l) value r
    else if key value <? key v then balance l value (replace v r)
    else new_Node l r v
  end.
Fixpoint remove (k : Z) (n : Node) : Node :=
  match n with
  | terminator => terminator
  | mkNode l r value h =>
    if k <? key value then balance (remove k l) value r
    else if key value <? k then balance l value (remove k r)
    else
      match l, r with
      | terminator, _ => r
      | _, terminator => l
      | _, mkNode rl rr rv _ => let p := popMin rl rr rv in balance l p.1 p.2
      end
  end.

Fixpoint lookup (k : Z) (n : Node) : option V :=
  match n with
  | terminator => None
  | mkNode l r value _ =>
    if k <? key value then lookup k l else if key value <? k then lookup k r else Some value
  end.
Definition count (k : Z) (n : Node) : Z := match lookup k n with Some _ => 1 | None => 0 end.
(** The last value with a key not above [k]. *)
Fixpoint previous (k : Z) (n : Node) (result : option V) : option V :=
  match n with
  | terminator => result
  | mkNode l r value _ =>
    if k <? key value then previous k l result
    else if key value <? k then previous k r (Some value)
    else Some value
  end.
Definition lookup_previous (k : Z) (n : Node) : option V := previous k n None.

Fixpoint min_from (l : Node) (value : V) : V := match l with terminator => value | mkNode ll _ lv _ => min_from ll lv end.
Fixpoint max_from (r : Node) (value : V) : V := match r with terminator => value | mkNode _ rr rv _ => max_from rr rv end.
Definition min (n : Node) : option V := match n with terminator => None | mkNode l _ v _ => Some (min_from l v) end.
Definition max (n : Node) : option V := match n with terminator => None | mkNode _ r v _ => Some (max_from r v) end.

(** ** Iterators *)
(** The stack of nodes from the root, the last first, each with the side of its
    parent it is on: the code compares node addresses for that. *)
Inductive side : Type := Root | OnLeft | OnRight.
Definition stack : Type := list (side * Node).
Record iterator := mkIt { it_root : Node; it_stack : stack }.

Fixpoint push_left (s : side) (n : Node) (st : stack) : stack :=
  match n with terminator => st | mkNode l _ _ _ => push_left OnLeft l ((s, n) :: st) end.
Fixpoint push_right (s : side) (n : Node) (st : stack) : stack :=
  match n with terminator => st | mkNode _ r _ _ => push_right OnRight r ((s, n) :: st) end.
Definition begin (n : Node) : iterator := mkIt n (push_left Root n []).
Definition end_ (n : Node) : iterator := mkIt n [].
Definition it_value (it : iterator) : option V :=
  match it_stack it with (_, mkNode _ _ v _) :: _ => Some v | _ => None end.

(** Pop until the node popped was on the given side of the new top. *)
Fixpoint pop_left (st : stack) : stack :=
  match st with
  | [] => []
  | (OnLeft, _) :: st => st
  | _ :: st => pop_left st
  end.
Fixpoint pop_right (st : stack) : stack :=
  match st with
  | [] => []
  | (OnRight, _) :: st => st
  | _ :: st => pop_right st
  end.
(** [operator++]; it asserts that the iterator is not at the end. *)
Definition it_next (it : iterator) : option iterator :=
  match it_stack it with
  | [] => None
  | (_, n) :: _ =>
    Some (mkIt (it_root it)
      (match right_of n with
       | terminator => pop_left (it_stack it)
       | mkNode l _ _ _ as r => push_left OnLeft l ((OnRight, r) :: it_stack it)
       end))
  end.
Definition it_prev (it : iterator) : iterator :=
  match it_stack it with
  | [] => mkIt (it_root it) (push_right Root (it_root it) [])
  | (_, n) :: _ =>
    mkIt (it_root it)
      (match left_of n with
       | terminator => pop_right (it_stack it)
       | mkNode _ r _ _ as l => push_right OnRight r ((OnLeft, l) :: it_stack it)
       end)
  end.

(** The loop of [lower_bound]: the stack, and whether the key was found. *)
Fixpoint descend (k : Z) (s : side) (n : Node) (st : stack) : stack * bool :=
  match n with
  | terminator => (st, false)
  | mkNode l r value _ =>
    let st := (s, n) :: st in
    if k <? key value then descend k OnLeft l st
    else if key value <? k then descend k OnRight r st
    else (st, true)
  end.
Definition lower_bound (n : Node) (k : Z) : iterator :=
  let p := descend k Root n [] in
  let it := mkIt n p.1 in
  if p.2 then it
  else
    match it_value it with
    | Some v => if key v <? k then default it (it_next it) else it
    | None => it
    end.
Definition upper_bound (n : Node) (k : Z) : iterator :=
  let it := lower_bound n k in
  match it_value it with
  | Some v => if negb (k <? key v) then default it (it_next it) else it
  | None => it
  end.
Definition find (n : Node) (k : Z) : iterator :=
  let it := lower_bound n k in
  match it_value it with
  | Some v => if k <? key v then end_ n else it
  | None => end_ n
  end.
End Tree.
Arguments terminator {V}.
Arguments mkNode {V} left right value height.
Arguments Node : clear implicits.
Arguments iterator : clear implicits.
Arguments stack : clear implicits.
Arguments mkIt {V} it_root it_stack.
End ImmutableTree.

(** ** Persistent trees are balanced maps
    The trees of [ImmutableTree] stay sorted, with correct heights and differences of
    at most 2, and behave as finite maps; the iterators walk the values in order. *)
Import ImmutableTree.

Section Spec.
Context {V : Type} (key : V → Z).
Implicit Types (n l r : Node V) (v : V).

Fixpoint inorder n : list V :=
  match n with terminator => [] | mkNode l r v _ => inorder l ++ v :: inorder r end.

(** ** Heights *)
Fixpoint avl n : Prop :=
  match n with
  | terminator => True
  | mkNode l r _ h => avl l ∧ avl r ∧ h = Z.max (height l) (height r) + 1 ∧ -2 ≤ height l - height r ≤ 2
  end.

Lemma height_pos n : avl n → 0 ≤ height n.
Proof. induction n as [|l IHl r IHr v h]; cbn; [lia|]. intros (Hl & Hr & -> & _). specialize (IHl Hl). lia. Qed.
Lemma height_node l r v h : avl (mkNode l r v h) → 0 < h.
Proof. intros (Hl & Hr & -> & _). pose proof (height_pos l Hl). lia. Qed.
Lemma height_0 n : avl n → height n ≤ 0 → n = terminator.
Proof. destruct n; [done|]. intros H ?. pose proof (height_node _ _ _ _ H). cbn in *. lia. Qed.

Lemma new_Node_avl l r v : avl l → avl r → -2 ≤ height l - height r ≤ 2 → avl (new_Node l r v).
Proof. done. Qed.

(** Balancing two trees that differ by at most 3. *)
Lemma balance_avl l v r : avl l → avl r → -3 ≤ height l - height r ≤ 3 →
  avl (balance l v r) ∧ Z.max (height l) (height r) ≤ height (balance l v r) ≤ Z.max (height l) (height r) + 1 ∧
  (-2 ≤ height l - height r ≤ 2 → height (balance l v r) = Z.max (height l) (height r) + 1).
Proof.
  intros Hl Hr Hd. pose proof (height_pos l Hl). pose proof (height_pos r Hr). unfold balance.
  destruct (Z.ltb_spec (height r + 2) (height l)).
  - destruct l as [|ll lr lv h]; [cbn in *; lia|]. destruct Hl as (Hll & Hlr & Eh & Hb). cbn in Eh, Hd, H1 |- *.
    destruct (Z.leb_spec (height lr) (height ll)); [cbn; split_and!; try done; lia|].
    destruct lr as [|lrl lrr lrv h']; [cbn in *; pose proof (height_pos ll Hll); lia|].
    destruct Hlr as (Hlrl & Hlrr & Eh' & Hb'). cbn in *. split_and!; try done; lia.
  - destruct (Z.ltb_spec (height l + 2) (height r)); [|cbn; split_and!; try done; lia].
    destruct r as [|rl rr rv h]; [cbn in *; lia|]. destruct Hr as (Hrl & Hrr & Eh & Hb). cbn in Eh, Hd, H1, H2 |- *.
    destruct (Z.leb_spec (height rl) (height rr)); [cbn; split_and!; try done; lia|].
    destruct rl as [|rll rlr rlv h']; [cbn in *; pose proof (height_pos rr Hrr); lia|].
    destruct Hrl as (Hrll & Hrlr & Eh' & Hb'). cbn in *. split_and!; try done; lia.
Qed.

Lemma balance_inorder l v r : inorder (balance l v r) = inorder l ++ v :: inorder r.
Proof.
  unfold balance. repeat case_match; subst; cbn; rewrite <-?app_assoc; cbn; rewrite <-?app_assoc; done.
Qed.

(** A tree that grew or shrank by at most one level. *)
Lemma grow_avl l l' v r r' : avl (mkNode l r v 0) ∨ (∃ h, avl (mkNode l r v h)) →
  avl l' → avl r' → (l' = l ∧ height r ≤ height r' ≤ height r + 1 ∨ r' = r ∧ height l ≤ height l' ≤ height l + 1) →
  avl (balance l' v r') ∧ Z.max (height l) (height r) + 1 ≤ height (balance l' v r') ≤ Z.max (height l) (height r) + 2.
Proof.
  intros Ht Hl' Hr' Hh. assert (-2 ≤ height l - height r ≤ 2) by (destruct Ht as [H|[h H]]; apply H).
  destruct (balance_avl l' v r' Hl' Hr') as (Ha & Hb & Hc); [destruct Hh as [[-> ?]|[-> ?]]; lia|]. split; [done|].
  destruct (decide (-2 ≤ height l' - height r' ≤ 2)) as [Hd|Hd]; [rewrite (Hc Hd)|]; destruct Hh as [[-> ?]|[-> ?]]; lia.
Qed.
Lemma shrink_avl l l' v r r' h : avl (mkNode l r v h) → avl l' → avl r' →
  (l' = l ∧ height r - 1 ≤ height r' ≤ height r ∨ r' = r ∧ height l - 1 ≤ height l' ≤ height l) →
  avl (balance l' v r') ∧ h - 1 ≤ height (balance l' v r') ≤ h.
Proof.
  intros (_ & _ & -> & Hd) Hl' Hr' Hh.
  destruct (balance_avl l' v r' Hl' Hr') as (Ha & Hb & Hc); [destruct Hh as [[-> ?]|[-> ?]]; lia|]. split; [done|].
  destruct (decide (-2 ≤ height l' - height r' ≤ 2)) as [Hd'|Hd']; [rewrite (Hc Hd')|]; destruct Hh as [[-> ?]|[-> ?]]; lia.
Qed.

Lemma insert_avl v n : avl n → avl (insert key v n) ∧ height n ≤ height (insert key v n) ≤ height n + 1.
Proof.
  induction n as [|l IHl r IHr x h]; cbn [insert]; [intros _; cbn; split_and!; try done; lia|]. intros Hn. pose proof Hn as (Hl & Hr & Eh & Hd).
  specialize (IHl Hl). specialize (IHr Hr). cbn [height].
  destruct (key v <? key x); [|destruct (key x <? key v); [|split; [done|cbn; lia]]].
  - rewrite Eh. destruct (grow_avl l (insert key v l) x r r) as [H1 H2]; [by right; exists h|apply IHl|done|right; split; [done|apply IHl]|]. split; [done|lia].
  - rewrite Eh. destruct (grow_avl l l x r (insert key v r)) as [H1 H2]; [by right; exists h|done|apply IHr|left; split; [done|apply IHr]|]. split; [done|lia].
Qed.
Lemma replace_avl v n : avl n → avl (replace key v n) ∧ height n ≤ height (replace key v n) ≤ height n + 1.
Proof.
  induction n as [|l IHl r IHr x h]; cbn [replace]; [intros _; cbn; split_and!; try done; lia|]. intros Hn. pose proof Hn as (Hl & Hr & Eh & Hd).
  specialize (IHl Hl). specialize (IHr Hr). cbn [height].
  destruct (key v <? key x); [|destruct (key x <? key v); [|cbn; split_and!; (done || lia)]].
  - rewrite Eh. destruct (grow_avl l (replace key v l) x r r) as [H1 H2]; [by right; exists h|apply IHl|done|right; split; [done|apply IHl]|]. split; [done|lia].
  - rewrite Eh. destruct (grow_avl l l x r (replace key v r)) as [H1 H2]; [by right; exists h|done|apply IHr|left; split; [done|apply IHr]|]. split; [done|lia].
Qed.

Lemma popMin_avl l r v h : avl (mkNode l r v h) → avl (popMin l r v).2 ∧ h - 1 ≤ height (popMin l r v).2 ≤ h.
Proof.
  revert r v h. induction l as [|ll IHl lr _ lv lh]; intros r v h H; cbn [popMin].
  - destruct H as (_ & Hr & -> & Hd). cbn in *. pose proof (height_pos r Hr). split; [done|lia].
  - cbn [snd]. destruct (IHl lr lv lh) as [H1 H2]; [apply H|].
    apply (shrink_avl _ _ _ _ _ _ H); [done|apply H|]. by right.
Qed.
Lemma popMax_avl l r v h : avl (mkNode l r v h) → avl (popMax l r v).2 ∧ h - 1 ≤ height (popMax l r v).2 ≤ h.
Proof.
  revert l v h. induction r as [|rl _ rr IHr rv rh]; intros l v h H; cbn [popMax].
  - destruct H as (Hl & _ & -> & Hd). cbn in *. pose proof (height_pos l Hl). split; [done|lia].
  - cbn [snd]. destruct (IHr rl rv rh) as [H1 H2]; [apply H|].
    apply (shrink_avl _ _ _ _ _ _ H); [apply H|done|]. by left.
Qed.

Lemma remove_avl k n : avl n → avl (remove key k n) ∧ height n - 1 ≤ height (remove key k n) ≤ height n.
Proof.
  induction n as [|l IHl r IHr x h]; cbn [remove]; [intros _; cbn; split_and!; try done; lia|]. intros Hn. pose proof Hn as (Hl & Hr & Eh & Hd).
  specialize (IHl Hl). specialize (IHr Hr). cbn [height].
  destruct (k <? key x); [|destruct (key x <? k)].
  - apply (shrink_avl _ _ _ _ _ _ Hn); [apply IHl|done|right; split; [done|apply IHl]].
  - apply (shrink_avl _ _ _ _ _ _ Hn); [done|apply IHr|left; split; [done|apply IHr]].
  - destruct l as [|ll lr lv lh]; [cbn in Eh; pose proof (height_pos r Hr); split; [done|lia]|].
    destruct r as [|rl rr rv rh]; [cbn [height] in Eh |- *; pose proof (height_node _ _ _ _ Hl); split; [done|lia]|].
    destruct (popMin_avl _ _ _ _ Hr) as [H1 H2].
    exact (shrink_avl (mkNode ll lr lv lh) _ (popMin rl rr rv).1 (mkNode rl rr rv rh) _ h Hn Hl H1 (or_introl (conj eq_refl H2))).
Qed.

(** The height is logarithmic. *)
Lemma size_pos n : 0 ≤ size n.
Proof. induction n; cbn; lia. Qed.
Lemma height_log n : avl n → 2 ^ (height n `div` 3) ≤ size n + 1.
Proof.
  induction n as [|l IHl r IHr v h]; [done|]. intros (Hl & Hr & -> & Hd). cbn [height size].
  specialize (IHl Hl). specialize (IHr Hr). pose proof (height_pos l Hl). pose proof (height_pos r Hr).
  set (m := Z.max (height l) (height r)) in *.
  assert (Hmin : ∀ a, a = height l ∨ a = height r → 2 ^ ((m + 1) `div` 3) ≤ 2 * 2 ^ (a `div` 3)).
  { intros a Ha. rewrite <-Z.pow_succ_r by (apply Z.div_pos; lia). apply Z.pow_le_mono_r; [lia|].
    Z.to_euclidean_division_equations; lia. }
  pose proof (Hmin _ (or_introl eq_refl)). pose proof (Hmin _ (or_intror eq_refl)). lia.
Qed.

(** ** Order *)
Definition sorted : list V → Prop := StronglySorted (λ a b, key a < key b).

Lemma sorted_mid a v b : sorted (a ++ v :: b) ↔
  sorted a ∧ sorted b ∧ Forall (λ x, key x < key v) a ∧ Forall (λ x, key v < key x) b.
Proof.
  unfold sorted. induction a as [|x a IH]; cbn.
  - split; [intros H; inversion_clear H; by repeat constructor|]. intros (_ & Hb & _ & Hv). by constructor.
  - split.
    + intros H. inversion_clear H as [|? ? Hs Hf]. apply IH in Hs as (Ha & Hb & Hav & Hvb).
      apply Forall_app in Hf as [Hxa Hxv]. apply Forall_cons in Hxv as [Hxv Hxb]. by split_and!; [constructor|..|constructor|].
    + intros (Ha & Hb & Hav & Hvb). inversion_clear Ha as [|? ? Hs Hf]. apply Forall_cons in Hav as [Hxv Hav].
      constructor; [by apply IH|]. apply Forall_app. split; [done|]. constructor; [done|].
      eapply Forall_impl; [exact Hvb|]. cbn. lia.
Qed.

(** The parts of a list with keys below and above a key. *)
Definition below (k : Z) (l : list V) : list V := filter (λ x, key x < k) l.
Definition above (k : Z) (l : list V) : list V := filter (λ x, k < key x) l.

(** A key to the left of, to the right of, and at the middle of a sorted list. *)
Lemma parts_left k a v b : sorted (a ++ v :: b) → k < key v → below k (a ++ v :: b) = below k a ∧ above k (a ++ v :: b) = above k a ++ v :: b.
Proof.
  intros (_ & _ & _ & Hb)%sorted_mid Hk. unfold below, above. rewrite !filter_app. split.
  - rewrite (filter_none _ (v :: b)); [by rewrite app_nil_r|]. constructor; [lia|]. eapply Forall_impl; [exact Hb|]. cbn. lia.
  - rewrite (filter_all _ (v :: b)); [done|]. constructor; [lia|]. eapply Forall_impl; [exact Hb|]. cbn. lia.
Qed.
Lemma parts_right k a v b : sorted (a ++ v :: b) → key v < k → below k (a ++ v :: b) = a ++ v :: below k b ∧ above k (a ++ v :: b) = above k b.
Proof.
  intros (_ & _ & Ha & _)%sorted_mid Hk. unfold below, above. rewrite !filter_app. split.
  - rewrite (filter_all _ a), filter_cons_True; [done|lia|]. eapply Forall_impl; [exact Ha|]. cbn. lia.
  - rewrite (filter_none _ a), filter_cons_False; [done|lia|]. eapply Forall_impl; [exact Ha|]. cbn. lia.
Qed.
Lemma parts_mid k a v b : sorted (a ++ v :: b) → key v = k → below k (a ++ v :: b) = a ∧ above k (a ++ v :: b) = b.
Proof.
  intros (_ & _ & Ha & Hb)%sorted_mid <-. unfold below, above. rewrite !filter_app. split.
  - rewrite (filter_all _ a), filter_cons_False, (filter_none _ b); [by rewrite app_nil_r|..|lia|]; [|done];
      (eapply Forall_impl; [eassumption|]; cbn; lia).
  - rewrite (filter_none _ a), filter_cons_False, (filter_all _ b); [done|..|lia|]; [done|];
      (eapply Forall_impl; [eassumption|]; cbn; lia).
Qed.

Definition ordered n : Prop := sorted (inorder n).
Lemma ordered_node l r v h : ordered (mkNode l r v h) → ordered l ∧ ordered r.
Proof. unfold ordered. cbn. intros (? & ? & _)%sorted_mid. done. Qed.

(** ** What the operations do to the list of values *)
Lemma replace_inorder v n : ordered n →
  inorder (replace key v n) = below (key v) (inorder n) ++ v :: above (key v) (inorder n).
Proof.
  induction n as [|l IHl r IHr x h]; intros Ho; [done|]. destruct (ordered_node _ _ _ _ Ho) as [Hl Hr].
  specialize (IHl Hl). specialize (IHr Hr). unfold ordered in Ho. cbn [replace inorder] in *.
  destruct (Z.ltb_spec (key v) (key x)); [|destruct (Z.ltb_spec (key x) (key v))].
  - destruct (parts_left (key v) _ _ _ Ho) as [-> ->]; [done|]. rewrite balance_inorder, IHl. by rewrite <-app_assoc.
  - destruct (parts_right (key v) _ _ _ Ho) as [-> ->]; [done|]. rewrite balance_inorder, IHr. by rewrite <-app_assoc.
  - destruct (parts_mid (key v) _ _ _ Ho) as [-> ->]; [lia|]. done.
Qed.


Lemma popMin_inorder l r v : inorder l ++ v :: inorder r = (popMin l r v).1 :: inorder (popMin l r v).2.
Proof.
  revert r v. induction l as [|ll IHl lr _ lv lh]; intros r v; cbn [popMin]; [done|].
  cbn [fst snd inorder]. rewrite balance_inorder, IHl. done.
Qed.
Lemma popMax_inorder l r v : inorder l ++ v :: inorder r = inorder (popMax l r v).2 ++ [(popMax l r v).1].
Proof.
  revert l v. induction r as [|rl _ rr IHr rv rh]; intros l v; cbn [popMax]; [done|].
  cbn [fst snd inorder]. rewrite balance_inorder, IHr, <-app_assoc. done.
Qed.

Lemma remove_inorder k n : ordered n → inorder (remove key k n) = below k (inorder n) ++ above k (inorder n).
Proof.
  induction n as [|l IHl r IHr x h]; intros Ho; [done|]. destruct (ordered_node _ _ _ _ Ho) as [Hl Hr].
  specialize (IHl Hl). specialize (IHr Hr). unfold ordered in Ho. cbn [remove inorder] in *.
  destruct (Z.ltb_spec k (key x)); [|destruct (Z.ltb_spec (key x) k)].
  - destruct (parts_left k _ _ _ Ho) as [-> ->]; [done|]. rewrite balance_inorder, IHl. by rewrite <-app_assoc.
  - destruct (parts_right k _ _ _ Ho) as [-> ->]; [done|]. rewrite balance_inorder, IHr. by rewrite <-app_assoc.
  - destruct (parts_mid k _ _ _ Ho) as [-> ->]; [lia|]. destruct l as [|ll lr lv lh]; [done|].
    destruct r as [|rl rr rv rh]; [by rewrite app_nil_r|].
    rewrite balance_inorder. f_equal. cbn [inorder]. symmetry. apply popMin_inorder.
Qed.

(** ** Lookups *)
Lemma lookup_spec k n v : ordered n → lookup key k n = Some v ↔ v ∈ inorder n ∧ key v = k.
Proof.
  induction n as [|l IHl r IHr x h]; intros Ho; [cbn; set_solver|]. destruct (ordered_node _ _ _ _ Ho) as [Hl Hr].
  specialize (IHl Hl). specialize (IHr Hr). unfold ordered in Ho. cbn [lookup inorder] in *.
  apply sorted_mid in Ho as (_ & _ & Ha & Hb). rewrite Forall_forall in Ha, Hb. rewrite elem_of_app, elem_of_cons.
  destruct (Z.ltb_spec k (key x)); [|destruct (Z.ltb_spec (key x) k)].
  - rewrite IHl. split; [naive_solver|]. intros [[?|[->|Hv]] <-]; [done|lia|]. specialize (Hb _ Hv). lia.
  - rewrite IHr. split; [naive_solver|]. intros [[Hv|[->|?]] <-]; [|lia|done]. specialize (Ha _ Hv). lia.
  - split; [intros [= ->]; split; [auto|lia]|]. intros [[Hv|[->|Hv]] Hk]; [|done|]; exfalso;
      [specialize (Ha _ Hv)|specialize (Hb _ Hv)]; lia.
Qed.

Lemma last_app_cons {A} (a : list A) x b : last (a ++ x :: b) = Some (default x (last b)).
Proof.
  rewrite last_app, last_cons. by destruct (last b).
Qed.
Lemma previous_spec k n res : ordered n → previous key k n res =
  match last (filter (λ x, key x ≤ k) (inorder n)) with Some v => Some v | None => res end.
Proof.
  revert res. induction n as [|l IHl r IHr x h]; intros res Ho; [done|]. destruct (ordered_node _ _ _ _ Ho) as [Hl Hr].
  specialize (IHl res Hl). unfold ordered in Ho. cbn [previous inorder] in *.
  apply sorted_mid in Ho as (_ & _ & Ha & Hb). rewrite filter_app.
  destruct (Z.ltb_spec k (key x)); [|destruct (Z.ltb_spec (key x) k)].
  - rewrite IHl, (filter_none _ (x :: inorder r)); [by rewrite app_nil_r|]. constructor; [lia|].
    eapply Forall_impl; [exact Hb|]. cbn. lia.
  - rewrite (IHr _ Hr), filter_cons_True, last_app_cons by lia. by destruct (last (filter (λ y, key y ≤ k) (inorder r))).
  - rewrite filter_cons_True, last_app_cons by lia. rewrite (filter_none _ (inorder r)); [done|].
    eapply Forall_impl; [exact Hb|]. cbn. lia.
Qed.
Lemma lookup_previous_spec k n : ordered n → lookup_previous key k n = last (filter (λ x, key x ≤ k) (inorder n)).
Proof. intros Ho. unfold lookup_previous. rewrite previous_spec by done. by destruct (last _). Qed.
End Spec.
