(* ===== verification/ImmutableTreeMap.v ===== *)
(** * Persistent trees refine finite maps

    Any sequence of [insert], [replace], [remove], [popMin] and [popMax] on a tree that
    starts empty does what the same sequence does to a finite map from keys to values,
    and the lookups read that map; the tree stays balanced. *)
From Stdlib Require Import Sorted.
From stdpp Require Import gmap.
From S2P Require Import Prelude ImmutableTree.
Import ImmutableTree.

Section TreeMap.
Context {V : Type} (key : V → Z).
Implicit Types (n l r : Node V) (v : V) (m : gmap Z V).

Definition to_map n : gmap Z V := list_to_map ((λ v, (key v, v)) <$> inorder n).

Lemma sorted_keys (l : list V) : sorted key l → NoDup (key <$> l).
Proof.
  induction 1 as [|x l Hs IH Hf]; [constructor|]. cbn. constructor; [|done]. intros (y & E & Hy)%list_elem_of_fmap.
  rewrite Forall_forall in Hf. specialize (Hf y Hy). lia.
Qed.
Lemma sorted_lookup (l : list V) k v : sorted key l →
  (list_to_map ((λ v, (key v, v)) <$> l) : gmap Z V) !! k = Some v ↔ v ∈ l ∧ key v = k.
Proof.
  intros Hs. rewrite <-elem_of_list_to_map.
  - rewrite list_elem_of_fmap. naive_solver.
  - rewrite <-list_fmap_compose. by apply sorted_keys.
Qed.
Lemma to_map_lookup n k v : ordered key n → to_map n !! k = Some v ↔ v ∈ inorder n ∧ key v = k.
Proof. apply sorted_lookup. Qed.
Lemma lookup_to_map n k : ordered key n → lookup key k n = to_map n !! k.
Proof.
  intros Ho. apply option_eq. intros v. by rewrite lookup_spec, to_map_lookup.
Qed.
Lemma size_inorder n : size n = Z.of_nat (length (inorder n)).
Proof. induction n as [|l IHl r IHr v h]; [done|]. cbn. rewrite length_app. cbn. lia. Qed.
Lemma size_to_map n : ordered key n → size n = Z.of_nat (base.size (to_map n)).
Proof.
  intros Ho. unfold to_map. rewrite size_inorder, map_size_list_to_map.
  - by rewrite length_fmap.
  - rewrite <-list_fmap_compose. by apply sorted_keys.
Qed.

(** ** Sorted lists *)
Lemma sorted_filter (P : V → Prop) `{!∀ x, Decision (P x)} (l : list V) : sorted key l → sorted key (filter P l).
Proof.
  induction 1 as [|x l Hs IH Hf]; [constructor|]. rewrite filter_cons. destruct (decide (P x)); [|done].
  constructor; [done|]. rewrite Forall_forall in Hf |- *. intros y [_ Hy]%list_elem_of_filter. auto.
Qed.
Lemma sorted_app (a b : list V) : sorted key a → sorted key b → (∀ x y, x ∈ a → y ∈ b → key x < key y) → sorted key (a ++ b).
Proof.
  induction 1 as [|x a Hs IH Hf]; cbn; [done|]. intros Hb Hab. constructor.
  - apply IH; [done|]. intros ????. apply Hab; [by right|done].
  - apply Forall_app. split; [done|]. apply Forall_forall. intros y Hy. apply Hab; [by left|done].
Qed.
Lemma sorted_around (l : list V) v : sorted key l → sorted key (below key (key v) l ++ v :: above key (key v) l).
Proof.
  intros Hs. apply sorted_mid. split_and!; [by apply sorted_filter..|apply Forall_forall|apply Forall_forall];
    intros x [? _]%list_elem_of_filter; done.
Qed.
Lemma sorted_without (l : list V) k : sorted key l → sorted key (below key k l ++ above key k l).
Proof.
  intros Hs. apply sorted_app; [by apply sorted_filter..|].
  intros x y [? _]%list_elem_of_filter [? _]%list_elem_of_filter. lia.
Qed.

(** The map of a sorted list, after an update at a key. *)
Lemma around_map (l : list V) v : sorted key l →
  list_to_map ((λ v, (key v, v)) <$> (below key (key v) l ++ v :: above key (key v) l)) =
  <[key v := v]> (list_to_map ((λ v, (key v, v)) <$> l) : gmap Z V).
Proof.
  intros Hs. apply map_eq. intros k. apply option_eq. intros w.
  rewrite sorted_lookup by by apply sorted_around. rewrite elem_of_app, elem_of_cons. unfold below, above. rewrite !list_elem_of_filter.
  destruct (decide (k = key v)) as [->|Hk].
  - rewrite lookup_insert_eq. split; [|intros [= <-]; auto]. intros [[[? _]|[->|[? _]]] E]; [lia|done|lia].
  - rewrite lookup_insert_ne, sorted_lookup by done. split; [naive_solver|]. intros [Hw E]. split; [|done].
    destruct (decide (key w < key v)); [auto|]. right. right. split; [lia|done].
Qed.
Lemma without_map (l : list V) k : sorted key l →
  list_to_map ((λ v, (key v, v)) <$> (below key k l ++ above key k l)) =
  delete k (list_to_map ((λ v, (key v, v)) <$> l) : gmap Z V).
Proof.
  intros Hs. apply map_eq. intros k'. apply option_eq. intros w.
  rewrite sorted_lookup by by apply sorted_without. rewrite elem_of_app. unfold below, above. rewrite !list_elem_of_filter.
  destruct (decide (k' = k)) as [->|Hk].
  - rewrite lookup_delete_eq. split; [|done]. intros [[[? _]|[? _]] E]; lia.
  - rewrite lookup_delete_ne, sorted_lookup by done. split; [naive_solver|]. intros [Hw E]. split; [|done].
    destruct (decide (key w < k)); [auto|]. right. split; [lia|done].
Qed.

Lemma insert_inorder v n : ordered key n → inorder (insert key v n) =
  match lookup key (key v) n with Some _ => inorder n | None => below key (key v) (inorder n) ++ v :: above key (key v) (inorder n) end.
Proof.
  induction n as [|l IHl r IHr x h]; intros Ho; [done|]. destruct (ordered_node _ _ _ _ _ Ho) as [Hl Hr].
  specialize (IHl Hl). specialize (IHr Hr). unfold ordered in Ho. cbn [insert inorder lookup] in *.
  destruct (Z.ltb_spec (key v) (key x)); [|destruct (Z.ltb_spec (key x) (key v))].
  - destruct (parts_left key (key v) _ _ _ Ho) as [-> ->]; [done|]. rewrite balance_inorder, IHl.
    destruct (lookup key (key v) l); [done|]. by rewrite <-app_assoc.
  - destruct (parts_right key (key v) _ _ _ Ho) as [-> ->]; [done|]. rewrite balance_inorder, IHr.
    destruct (lookup key (key v) r); [done|]. by rewrite <-app_assoc.
  - done.
Qed.

(** ** The simulation
    [terminator_value] is the value of the terminator node, which its constructor leaves
    as the value type's default: both children of the terminator are the terminator, so
    a pop on an empty tree hands out that value and returns the empty tree. *)
Context (terminator_value : V).

Inductive tree_op : Type := Insert (v : V) | Replace (v : V) | Remove (k : Z) | PopMin | PopMax.

Definition tree_step (op : tree_op) n : option V * Node V :=
  match op with
  | Insert v => (None, insert key v n)
  | Replace v => (None, replace key v n)
  | Remove k => (None, remove key k n)
  | PopMin => match n with terminator => (Some terminator_value, terminator) | mkNode l r v _ => let p := popMin l r v in (Some p.1, p.2) end
  | PopMax => match n with terminator => (Some terminator_value, terminator) | mkNode l r v _ => let p := popMax l r v in (Some p.1, p.2) end
  end.
Fixpoint tree_run (ops : list tree_op) n : list (option V) * Node V :=
  match ops with
  | [] => ([], n)
  | op :: ops => let p := tree_step op n in let q := tree_run ops p.2 in (p.1 :: q.1, q.2)
  end.

Inductive map_step : tree_op → gmap Z V → option V → gmap Z V → Prop :=
| step_insert_old v m : is_Some (m !! key v) → map_step (Insert v) m None m
| step_insert_new v m : m !! key v = None → map_step (Insert v) m None (<[key v := v]> m)
| step_replace v m : map_step (Replace v) m None (<[key v := v]> m)
| step_remove k m : map_step (Remove k) m None (delete k m)
| step_pop_empty op : op = PopMin ∨ op = PopMax → map_step op ∅ (Some terminator_value) ∅
| step_pop_min v m : m !! key v = Some v → (∀ k, is_Some (m !! k) → key v ≤ k) → map_step PopMin m (Some v) (delete (key v) m)
| step_pop_max v m : m !! key v = Some v → (∀ k, is_Some (m !! k) → k ≤ key v) → map_step PopMax m (Some v) (delete (key v) m).
Inductive map_run : list tree_op → gmap Z V → list (option V) → gmap Z V → Prop :=
| run_nil m : map_run [] m [] m
| run_cons op ops m x m' xs m'' : map_step op m x m' → map_run ops m' xs m'' → map_run (op :: ops) m (x :: xs) m''.

Definition holds n m : Prop := avl n ∧ ordered key n ∧ m = to_map n.

Lemma pop_first x (l : list V) : sorted key (x :: l) → below key (key x) (x :: l) ++ above key (key x) (x :: l) = l.
Proof. intros Hs. destruct (parts_mid key (key x) [] x l Hs eq_refl) as [E1 E2]. cbn [app] in E1, E2. by rewrite E1, E2. Qed.
Lemma pop_last x (l : list V) : sorted key (l ++ [x]) → below key (key x) (l ++ [x]) ++ above key (key x) (l ++ [x]) = l.
Proof. intros Hs. destruct (parts_mid key (key x) l x [] Hs eq_refl) as [-> ->]. by rewrite app_nil_r. Qed.

Lemma holds_popMin l r v h m : holds (mkNode l r v h) m →
  map_step PopMin m (Some (popMin l r v).1) (delete (key (popMin l r v).1) m) ∧ holds (popMin l r v).2 (delete (key (popMin l r v).1) m).
Proof.
  intros (Ha & Ho & ->). pose proof (popMin_inorder l r v) as E. unfold ordered in Ho. cbn [inorder] in Ho.
  set (p := popMin l r v) in *. rewrite E in Ho. pose proof Ho as (_ & Hs & _ & Hf)%(sorted_mid key []). split.
  - constructor.
    + apply sorted_lookup; cbn [inorder]; rewrite E; [done|]. split; [by left|done].
    + intros k [w [Hw <-]%sorted_lookup]; cbn [inorder] in *; rewrite E in *; [|done]. apply elem_of_cons in Hw as [->|Hw]; [lia|].
      rewrite Forall_forall in Hf. specialize (Hf _ Hw). lia.
  - split_and!; [by eapply popMin_avl|done|]. unfold to_map. cbn [inorder]. rewrite E, <-without_map by done. by rewrite pop_first.
Qed.
Lemma holds_popMax l r v h m : holds (mkNode l r v h) m →
  map_step PopMax m (Some (popMax l r v).1) (delete (key (popMax l r v).1) m) ∧ holds (popMax l r v).2 (delete (key (popMax l r v).1) m).
Proof.
  intros (Ha & Ho & ->). pose proof (popMax_inorder l r v) as E. unfold ordered in Ho. cbn [inorder] in Ho.
  set (p := popMax l r v) in *. rewrite E in Ho. pose proof Ho as (Hs & _ & Hf & _)%sorted_mid. split.
  - constructor.
    + apply sorted_lookup; cbn [inorder]; rewrite E; [done|]. split; [|done]. apply elem_of_app. right. by left.
    + intros k [w [Hw <-]%sorted_lookup]; cbn [inorder] in *; rewrite E in *; [|done].
      apply elem_of_app in Hw as [Hw|Hw%list_elem_of_singleton]; [|rewrite Hw; lia].
      rewrite Forall_forall in Hf. specialize (Hf _ Hw). lia.
  - split_and!; [by eapply popMax_avl|done|]. unfold to_map. cbn [inorder]. rewrite E, <-without_map by done. by rewrite pop_last.
Qed.

Lemma holds_replace v n m : holds n m → holds (replace key v n) (<[key v := v]> m).
Proof.
  intros (Ha & Ho & ->). pose proof (replace_inorder key v n Ho) as E. pose proof (proj1 (replace_avl key v n Ha)).
  unfold holds, ordered, to_map. rewrite E, around_map by done. split_and!; [done|by apply sorted_around|done].
Qed.
Lemma holds_remove k n m : holds n m → holds (remove key k n) (delete k m).
Proof.
  intros (Ha & Ho & ->). pose proof (remove_inorder key k n Ho) as E. pose proof (proj1 (remove_avl key k n Ha)).
  unfold holds, ordered, to_map. rewrite E, without_map by done. split_and!; [done|by apply sorted_without|done].
Qed.

Lemma tree_step_sim op n m : holds n m →
  ∃ m', map_step op m (tree_step op n).1 m' ∧ holds (tree_step op n).2 m'.
Proof.
  intros Hh. pose proof Hh as (Ha & Ho & Em). destruct op as [v|v|k| |]; cbn [tree_step].
  - pose proof (insert_inorder v n Ho) as E. pose proof (proj1 (insert_avl key v n Ha)). cbn [fst snd].
    destruct (lookup key (key v) n) as [w|] eqn:El; rewrite (lookup_to_map n _ Ho), <-Em in El.
    + exists m. split; [by constructor|]. unfold holds, ordered, to_map. by rewrite E.
    + exists (<[key v := v]> m). split; [by constructor|]. unfold holds, ordered, to_map. rewrite E, Em, around_map by done.
      split_and!; [done|by apply sorted_around|done].
  - exists (<[key v := v]> m). split; [constructor|by apply holds_replace].
  - exists (delete k m). split; [constructor|by apply holds_remove].
  - destruct n as [|l r v h]; [|eexists; exact (holds_popMin _ _ _ _ _ Hh)]. exists ∅. subst m. split; [by constructor; left|done].
  - destruct n as [|l r v h]; [|eexists; exact (holds_popMax _ _ _ _ _ Hh)]. exists ∅. subst m. split; [by constructor; right|done].
Qed.

Lemma tree_run_sim ops n m : holds n m → ∃ m', map_run ops m (tree_run ops n).1 m' ∧ holds (tree_run ops n).2 m'.
Proof.
  revert n m. induction ops as [|op ops IH]; intros n m Hh; [exists m; split; [constructor|done]|].
  destruct (tree_step_sim op n m Hh) as (m1 & Hs & H1). destruct (IH _ _ H1) as (m2 & Hr & H2).
  exists m2. split; [|done]. by econstructor.
Qed.

Lemma holds_previous n m k v : holds n m → lookup_previous key k n = Some v →
  m !! key v = Some v ∧ key v ≤ k ∧ ∀ k', is_Some (m !! k') → k' ≤ k → k' ≤ key v.
Proof.
  intros (Ha & Ho & ->). rewrite lookup_previous_spec by done. unfold ordered in Ho. intros (l1 & E)%last_Some.
  assert (Hv : v ∈ filter (λ x, key x ≤ k) (inorder n)) by (rewrite E; apply elem_of_app; right; by left).
  apply list_elem_of_filter in Hv as [Hk Hv]. split; [by apply to_map_lookup|]. split; [done|].
  intros k' [w [Hw <-]%to_map_lookup] Hk'; [|done].
  assert (Hw' : w ∈ filter (λ x, key x ≤ k) (inorder n)) by by apply list_elem_of_filter.
  pose proof (sorted_filter (λ x, key x ≤ k) _ Ho) as Hs. rewrite E in Hw', Hs.
  apply elem_of_app in Hw' as [Hw'|Hw'%list_elem_of_singleton]; [|rewrite Hw'; lia].
  apply sorted_mid in Hs as (_ & _ & Hf & _). rewrite Forall_forall in Hf. specialize (Hf _ Hw'). lia.
Qed.
Lemma holds_no_previous n m k : holds n m → lookup_previous key k n = None → ∀ k', is_Some (m !! k') → k < k'.
Proof.
  intros (Ha & Ho & ->). rewrite lookup_previous_spec by done. intros E%last_None k' [w [Hw <-]%to_map_lookup]; [|done].
  destruct (decide (key w ≤ k)); [|lia]. assert (Hx : w ∈ filter (λ x, key x ≤ k) (inorder n)) by by apply list_elem_of_filter.
  rewrite E in Hx. set_solver.
Qed.

(** C22: (refinement) Every sequence of insert, replace, remove, popMin and popMax that
    starts from the empty tree returns what it returns on an empty finite map, and leaves a
    tree that lookup, count, size and lookup_previous read as the resulting map: insert
    keeps a value that is there, replace overwrites it, the pops take the least and the
    greatest key (on an empty tree they hand out the terminator's value and leave it empty),
    lookup_previous finds the greatest key not above the one asked for.  The tree stays
    sorted and balanced, and its height is logarithmic in its size.  Nodes are values here:
    reference counts, and with them the sharing of nodes between versions, are left out. *)
Theorem tree_refines_map ops :
  let n := (tree_run ops terminator).2 in
  ∃ m, map_run ops ∅ (tree_run ops terminator).1 m ∧
    (∀ k, lookup key k n = m !! k) ∧
    (∀ k, count key k n = if decide (is_Some (m !! k)) then 1 else 0) ∧
    size n = Z.of_nat (base.size m) ∧
    (∀ k, match lookup_previous key k n with
          | Some v => m !! key v = Some v ∧ key v ≤ k ∧ ∀ k', is_Some (m !! k') → k' ≤ k → k' ≤ key v
          | None => ∀ k', is_Some (m !! k') → k < k'
          end) ∧
    ordered key n ∧ avl n ∧ 2 ^ (height n `div` 3) ≤ size n + 1.
Proof.
  intros n. destruct (tree_run_sim ops terminator ∅) as (m & Hr & Hh); [split_and!; [done|constructor|done]|].
  fold n in Hh. exists m. split; [done|]. pose proof Hh as (Ha & Ho & Em). split_and!; try done.
  - intros k. rewrite Em. by apply lookup_to_map.
  - intros k. unfold count. rewrite (lookup_to_map n k Ho), <-Em. by destruct (m !! k); case_decide; try done; exfalso; naive_solver.
  - rewrite Em. by apply size_to_map.
  - intros k. destruct (lookup_previous key k n) as [v|] eqn:E; [by apply holds_previous with n|by apply (holds_no_previous n)].
  - by apply height_log.
Qed.
End TreeMap.
