(* ===== verification/ImmutableTreeIter.v ===== *)
(** * Iterators of persistent trees

    An iterator of [ImmutableTree] splits the sorted values of its tree: [prefix] holds
    those before it, [suffix] the one it is at and those after.  Steps move the split,
    [lower_bound] and [upper_bound] place it by a key, and the stack stays within the
    [root->height] entries it is allocated with. *)
From Stdlib Require Import Sorted.
From S2P Require Import Prelude ImmutableTree.
Import ImmutableTree.

Section Iter.
Context {V : Type} (key : V → Z).
Implicit Types (n l r : Node V) (v : V) (st : stack V) (s : side).

Definition upper n : list V := match n with terminator => [] | mkNode _ r v _ => v :: inorder r end.
Definition lower n : list V := match n with terminator => [] | mkNode l _ v _ => inorder l ++ [v] end.

(** The values after and before a subtree that is on side [s] of the top of the stack. *)
Fixpoint after_ctx s st : list V :=
  match st with
  | [] => []
  | (s', n) :: st => (match s with OnLeft => upper n | _ => [] end) ++ after_ctx s' st
  end.
Fixpoint before_ctx s st : list V :=
  match st with
  | [] => []
  | (s', n) :: st => before_ctx s' st ++ (match s with OnRight => lower n | _ => [] end)
  end.

(** [n] is reached from the root by the stack. *)
Fixpoint chain (root : Node V) s n st : Prop :=
  match s, st with
  | Root, [] => n = root
  | OnLeft, (s', m) :: st => n = left_of m ∧ m ≠ terminator ∧ chain root s' m st
  | OnRight, (s', m) :: st => n = right_of m ∧ m ≠ terminator ∧ chain root s' m st
  | _, _ => False
  end.
Definition valid (it : iterator V) : Prop :=
  match it_stack it with [] => True | (s, n) :: st => n ≠ terminator ∧ chain (it_root it) s n st end.

Definition suffix (it : iterator V) : list V :=
  match it_stack it with [] => [] | (s, n) :: st => upper n ++ after_ctx s st end.
Definition prefix (it : iterator V) : list V :=
  match it_stack it with [] => inorder (it_root it) | (s, n) :: st => before_ctx s st ++ inorder (left_of n) end.

Lemma chain_inorder root s n st : chain root s n st → before_ctx s st ++ inorder n ++ after_ctx s st = inorder root.
Proof.
  revert s n. induction st as [|[s' m] st IH]; intros s n H; destruct s; try done; cbn in *; try (by subst; rewrite app_nil_r).
  - destruct H as (-> & Hm & H). specialize (IH _ _ H). destruct m as [|l r v h]; [done|]. cbn in *.
    rewrite app_nil_r, <-IH. rewrite <-!app_assoc. done.
  - destruct H as (-> & Hm & H). specialize (IH _ _ H). destruct m as [|l r v h]; [done|]. cbn in *.
    rewrite <-IH. rewrite <-!app_assoc. done.
Qed.

Lemma split_inorder it : valid it → prefix it ++ suffix it = inorder (it_root it).
Proof.
  unfold valid, prefix, suffix. destruct (it_stack it) as [|[s n] st]; [by rewrite app_nil_r|]. intros [Hn Hc].
  rewrite <-(chain_inorder _ _ _ _ Hc). destruct n as [|l r v h]; [done|]. cbn. by rewrite <-!app_assoc.
Qed.

Lemma at_end it : valid it → it_stack it = [] ↔ suffix it = [].
Proof.
  unfold valid, suffix. destruct (it_stack it) as [|[s n] st]; [done|]. intros [Hn _]. destruct n; [done|]. done.
Qed.
Lemma value_head it : valid it → it_value it = head (suffix it).
Proof. unfold valid, suffix, it_value. destruct (it_stack it) as [|[s n] st]; [done|]. intros [Hn _]. by destruct n. Qed.

(** ** Pushing and popping *)
Lemma push_left_spec root s n st : n ≠ terminator → chain root s n st →
  valid (mkIt root (push_left s n st)) ∧ suffix (mkIt root (push_left s n st)) = inorder n ++ after_ctx s st.
Proof.
  revert s st. induction n as [|l IHl r _ v h]; intros s st Hn Hc; [done|]. cbn [push_left].
  destruct l as [|ll lr lv lh]; [by split|]. destruct (IHl OnLeft ((s, mkNode (mkNode ll lr lv lh) r v h) :: st)) as [H1 H2]; [done|done|].
  split; [exact H1|]. rewrite H2. cbn. by rewrite <-!app_assoc.
Qed.
Lemma push_right_spec root s n st : n ≠ terminator → chain root s n st →
  valid (mkIt root (push_right s n st)) ∧
  ∃ v, it_value (mkIt root (push_right s n st)) = Some v ∧ prefix (mkIt root (push_right s n st)) ++ [v] = before_ctx s st ++ inorder n.
Proof.
  revert s st. induction n as [|l _ r IHr v h]; intros s st Hn Hc; [done|]. cbn [push_right].
  destruct r as [|rl rr rv rh].
  - split; [done|]. exists v. split; [done|]. cbn. by rewrite <-app_assoc.
  - destruct (IHr OnRight ((s, mkNode l (mkNode rl rr rv rh) v h) :: st)) as (H1 & x & H2 & H3); [done|done|].
    split; [exact H1|]. exists x. split; [exact H2|]. rewrite H3. cbn. by rewrite <-!app_assoc.
Qed.

Lemma pop_left_spec root s n st : n ≠ terminator → chain root s n st →
  valid (mkIt root (pop_left ((s, n) :: st))) ∧ suffix (mkIt root (pop_left ((s, n) :: st))) = after_ctx s st.
Proof.
  revert s n. induction st as [|[s' m] st IH]; intros s n Hn Hc; destruct s; try done.
  - cbn in Hc. destruct Hc as (-> & Hm & Hc). split; [by split|done].
  - cbn in Hc. destruct Hc as (-> & Hm & Hc). destruct (IH s' m Hm Hc) as [H1 H2]. by split.
Qed.
Lemma pop_right_spec root s n st : n ≠ terminator → chain root s n st → before_ctx s st ≠ [] →
  valid (mkIt root (pop_right ((s, n) :: st))) ∧
  ∃ v, it_value (mkIt root (pop_right ((s, n) :: st))) = Some v ∧ prefix (mkIt root (pop_right ((s, n) :: st))) ++ [v] = before_ctx s st.
Proof.
  revert s n. induction st as [|[s' m] st IH]; intros s n Hn Hc Hb; destruct s; try done.
  - cbn in Hc, Hb |- *. destruct Hc as (-> & Hm & Hc). rewrite app_nil_r in *. by destruct (IH s' m Hm Hc Hb) as (H1 & v & H2 & H3); split; [|exists v].
  - cbn in Hc. destruct Hc as (-> & Hm & Hc). destruct m as [|ml mr mv mh]; [done|]. split; [by split|]. exists mv. split; [done|].
    cbn. by rewrite <-!app_assoc.
Qed.

(** ** Steps *)
Lemma next_spec it v rest : valid it → suffix it = v :: rest →
  ∃ it', it_next it = Some it' ∧ valid it' ∧ it_root it' = it_root it ∧ suffix it' = rest ∧ prefix it' = prefix it ++ [v].
Proof.
  intros Hv Hs. destruct it as [root st]. unfold it_next. cbn [it_stack it_root]. destruct st as [|[s n] st]; [done|].
  destruct Hv as [Hn Hc]. destruct n as [|l r x h]; [done|]. cbn in Hc. cbn [suffix it_stack upper] in Hs. injection Hs as -> Hs.
  assert (∃ st', Some (mkIt root st') = Some (mkIt root (match r with terminator => pop_left ((s, mkNode l r v h) :: st)
      | mkNode rl _ _ _ => push_left OnLeft rl ((OnRight, r) :: (s, mkNode l r v h) :: st) end)) ∧
    valid (mkIt root st') ∧ suffix (mkIt root st') = rest) as (st' & E & H1 & H2).
  { eexists. split; [reflexivity|]. destruct r as [|rl rr rv rh].
    - destruct (pop_left_spec root s (mkNode l terminator v h) st Hn Hc) as [H1 H2]. split; [exact H1|]. rewrite H2. exact Hs.
    - destruct (push_left_spec root OnRight (mkNode rl rr rv rh) ((s, mkNode l (mkNode rl rr rv rh) v h) :: st)) as [H1 H2]; [done|done|].
      split; [exact H1|]. cbn [push_left] in H2. rewrite H2. cbn [after_ctx app]. exact Hs. }
  exists (mkIt root st'). split; [clear -E; by destruct r; rewrite E|]. split; [done|]. split; [done|]. split; [done|].
  pose proof (split_inorder _ H1) as E1. rewrite H2 in E1. cbn [it_root] in E1.
  assert (Hv : valid (mkIt root ((s, mkNode l r v h) :: st))) by done. pose proof (split_inorder _ Hv) as E2. cbn [it_root] in E2.
  rewrite <-E1 in E2. cbn [suffix it_stack upper app] in E2. rewrite Hs in E2.
  apply (app_inv_tail rest). rewrite <-E2, <-app_assoc. done.
Qed.

Lemma prev_spec it v rest : valid it → prefix it = rest ++ [v] →
  valid (it_prev it) ∧ it_root (it_prev it) = it_root it ∧ prefix (it_prev it) = rest ∧ suffix (it_prev it) = v :: suffix it.
Proof.
  intros Hv Hp. assert (H : valid (it_prev it) ∧ it_root (it_prev it) = it_root it ∧
    ∃ x, it_value (it_prev it) = Some x ∧ prefix (it_prev it) ++ [x] = prefix it).
  { destruct it as [root st]. unfold it_prev. cbn [it_stack it_root]. destruct st as [|[s n] st].
    - assert (Hn : root ≠ terminator) by (intros ->; cbn in Hp; by destruct rest).
      destruct (push_right_spec root Root root [] Hn eq_refl) as (H1 & x & H2 & H3). split; [done|]. split; [done|]. by exists x.
    - destruct Hv as [Hn Hc]. destruct n as [|l r x h]; [done|]. cbn [left_of]. destruct l as [|ll lr lv lh].
      + cbn in Hc. destruct (pop_right_spec root s (mkNode terminator r x h) st Hn Hc) as (H1 & y & H2 & H3).
        { intros E. cbn in Hp. rewrite E in Hp. by destruct rest. }
        split; [done|]. split; [done|]. exists y. split; [done|]. rewrite H3. cbn. by rewrite app_nil_r.
      + destruct (push_right_spec root OnLeft (mkNode ll lr lv lh) ((s, mkNode (mkNode ll lr lv lh) r x h) :: st)) as (H1 & y & H2 & H3); [done|done|].
        split; [done|]. split; [done|]. exists y. split; [done|]. cbn [push_right] in H3. rewrite H3. cbn. by rewrite app_nil_r. }
  destruct H as (H1 & H2 & x & H3 & H4). rewrite Hp in H4. apply app_inj_tail in H4 as [H4 ->].
  split; [done|]. split; [done|]. split; [done|].
  pose proof (split_inorder _ H1) as E1. pose proof (split_inorder _ Hv) as E2. rewrite H2, <-E2, H4, Hp, <-app_assoc in E1.
  by apply app_inv_head in E1.
Qed.

Lemma begin_spec n : valid (begin n) ∧ suffix (begin n) = inorder n ∧ prefix (begin n) = [].
Proof.
  assert (H : valid (begin n) ∧ suffix (begin n) = inorder n).
  { destruct n as [|l r v h]; [done|]. destruct (push_left_spec (mkNode l r v h) Root (mkNode l r v h) []) as [H1 H2]; [done|done|].
    split; [exact H1|]. unfold begin. rewrite H2. cbn. by rewrite app_nil_r. }
  destruct H as [H1 H2]. split; [done|]. split; [done|]. pose proof (split_inorder _ H1) as E. rewrite H2 in E. cbn [it_root begin] in E.
  by apply (app_inv_tail (inorder n)).
Qed.

(** ** Placing an iterator by a key *)
(** Everything before the iterator is below [k], the rest is not. *)
Definition placed (k : Z) (it : iterator V) : Prop :=
  valid it ∧ Forall (λ x, key x < k) (prefix it) ∧ Forall (λ x, k ≤ key x) (suffix it).

Lemma found_placed k it v : ordered key (it_root it) → valid it → it_value it = Some v → key v = k → placed k it.
Proof.
  intros Ho Hv E <-. split; [done|]. rewrite value_head in E by done. destruct (suffix it) as [|x rest] eqn:Es; [done|].
  injection E as ->. unfold ordered in Ho. rewrite <-(split_inorder it Hv), Es in Ho.
  apply sorted_mid in Ho as (_ & _ & H1 & H2). split; [done|]. constructor; [lia|]. eapply Forall_impl; [exact H2|]. cbn. lia.
Qed.

(** What [descend] leaves: an iterator at the key, at the first value above it, or at
    the last value below it. *)
Lemma descend_spec root k s n st : chain root s n st → ordered key n →
  Forall (λ x, key x < k) (before_ctx s st) → Forall (λ x, k < key x) (after_ctx s st) →
  let p := descend key k s n st in
  let it := mkIt root p.1 in
  valid it ∧
  if p.2 then ∃ v, it_value it = Some v ∧ key v = k
  else placed k it ∨ ∃ v rest, suffix it = v :: rest ∧ key v < k ∧ Forall (λ x, k ≤ key x) rest ∧ Forall (λ x, key x < k) (prefix it).
Proof.
  revert s st. induction n as [|l IHl r IHr x h]; intros s st Hc Ho Hb Ha; cbn [descend].
  - cbn [fst snd]. assert (Ha' : Forall (λ x, k ≤ key x) (after_ctx s st)) by (eapply Forall_impl; [exact Ha|]; cbn; lia).
    destruct s, st as [|[s' m] st]; try done; cbn in Hc.
    + split; [done|]. left. split; [done|]. by subst root.
    + destruct Hc as (El & Hm & Hc). assert (Hv : valid (mkIt root ((s', m) :: st))) by done. split; [done|]. left. split; [done|].
      cbn in Hb, Ha' |- *. rewrite <-El. cbn. done.
    + destruct Hc as (El & Hm & Hc). assert (Hv : valid (mkIt root ((s', m) :: st))) by done. split; [done|]. right.
      destruct m as [|ml mr mv mh]; [done|]. cbn in El. subst mr. cbn in Hb, Ha' |- *.
      rewrite !Forall_app, Forall_cons in Hb. destruct Hb as (Hb1 & Hb2 & Hb3 & _).
      exists mv, (after_ctx s' st). split_and!; try done. by apply Forall_app.
  - destruct (ordered_node _ _ _ _ _ Ho) as [Hol Hor]. unfold ordered in Ho. apply sorted_mid in Ho as (_ & _ & Hl & Hr).
    destruct (Z.ltb_spec k (key x)); [|destruct (Z.ltb_spec (key x) k)].
    + apply IHl; cbn; [done|done|by rewrite app_nil_r|]. constructor; [done|]. apply Forall_app. split; [|done].
      eapply Forall_impl; [exact Hr|]. cbn. lia.
    + apply IHr; cbn; [done|done| |done]. rewrite !Forall_app, Forall_cons. split_and!; try done.
      eapply Forall_impl; [exact Hl|]. cbn. lia.
    + split; [by split|]. exists x. split; [done|lia].
Qed.

Lemma next_default it v rest : valid it → suffix it = v :: rest →
  let it' := default it (it_next it) in
  valid it' ∧ it_root it' = it_root it ∧ suffix it' = rest ∧ prefix it' = prefix it ++ [v].
Proof. intros Hv Hs. by destruct (next_spec it v rest Hv Hs) as (it' & -> & H). Qed.

Lemma lower_bound_placed n k : ordered key n → placed k (lower_bound key n k) ∧ it_root (lower_bound key n k) = n.
Proof.
  intros Ho. destruct (descend_spec n k Root n [] eq_refl Ho (Forall_nil_2 _) (Forall_nil_2 _)) as [Hv Hd].
  unfold lower_bound. cbv zeta. destruct (descend key k Root n []).2.
  - destruct Hd as (v & E & Hk). split; [|done]. by apply (found_placed k _ v).
  - set (it := mkIt n _) in *. rewrite (value_head it Hv). destruct Hd as [Hp|(v & rest & Es & Hk & Hr & Hp)].
    + destruct (suffix it) as [|v rest] eqn:Es; [done|]. cbn. destruct (Z.ltb_spec (key v) k); [|done].
      destruct Hp as (_ & _ & Hs). rewrite Es in Hs. apply Forall_cons in Hs as [? _]. lia.
    + rewrite Es. cbn [head]. destruct (Z.ltb_spec (key v) k); [|lia].
      destruct (next_default it v rest Hv Es) as (H1 & H2 & H3 & H4). split; [|done]. split; [done|].
      rewrite H3, H4. split; [|done]. apply Forall_app. split; [done|]. by constructor.
Qed.

(** The split that the order decides. *)
Lemma filter_split {A} (P Q : A → Prop) `{!∀ x, Decision (P x), !∀ x, Decision (Q x)} (a b : list A) :
  (∀ x, P x → Q x → False) → Forall P a → Forall Q b → filter P (a ++ b) = a ∧ filter Q (a ++ b) = b.
Proof.
  intros HPQ Ha Hb. rewrite !filter_app, (filter_all P a), (filter_all Q b), (filter_none P b), (filter_none Q a); [by rewrite app_nil_r|..];
    [eapply Forall_impl; [exact Ha|]|eapply Forall_impl; [exact Hb|]|done|done]; cbn; eauto.
Qed.
Lemma placed_parts k it : placed k it →
  prefix it = below key k (inorder (it_root it)) ∧ suffix it = filter (λ x, k ≤ key x) (inorder (it_root it)).
Proof.
  intros (Hv & Hp & Hs). rewrite <-(split_inorder it Hv). unfold below.
  destruct (filter_split (λ x, key x < k) (λ x, k ≤ key x) (prefix it) (suffix it)) as [-> ->]; try done. lia.
Qed.

Lemma upper_bound_spec n k : ordered key n → let it := upper_bound key n k in
  valid it ∧ it_root it = n ∧ prefix it = filter (λ x, key x ≤ k) (inorder n) ∧ suffix it = above key k (inorder n).
Proof.
  intros Ho. destruct (lower_bound_placed n k Ho) as [(Hv & Hp & Hs) Hr]. unfold upper_bound. cbv zeta.
  set (it := lower_bound key n k) in *. unfold ordered in Ho. rewrite <-Hr, <-(split_inorder it Hv) in Ho |- *.
  rewrite (value_head it Hv). unfold above.
  assert (Hp' : Forall (λ x, key x ≤ k) (prefix it)) by (eapply Forall_impl; [exact Hp|]; cbn; lia).
  destruct (suffix it) as [|v rest] eqn:Es.
  - cbn [head]. split_and!; try done; [..|]; rewrite ?Es.
    + symmetry. by apply (filter_split (λ x, key x ≤ k) (λ x, k < key x)); [lia|..].
    + symmetry. by apply (filter_split (λ x, key x ≤ k) (λ x, k < key x)); [lia|..].
  - cbn [head]. apply Forall_cons in Hs as [Hk Hs]. apply sorted_mid in Ho as (_ & _ & _ & Hrest).
    destruct (Z.ltb_spec k (key v)); cbn [negb].
    + rewrite Es. destruct (filter_split (λ x, key x ≤ k) (λ x, k < key x) (prefix it) (v :: rest)) as [-> ->]; [lia|done| |by split_and!].
      constructor; [done|]. eapply Forall_impl; [exact Hrest|]. cbn. lia.
    + destruct (next_default it v rest Hv Es) as (H1 & H2 & -> & ->). split; [done|]. split; [done|].
      replace (prefix it ++ v :: rest) with ((prefix it ++ [v]) ++ rest) by by rewrite <-app_assoc.
      destruct (filter_split (λ x, key x ≤ k) (λ x, k < key x) (prefix it ++ [v]) rest) as [-> ->]; [lia|..|done].
      * apply Forall_app. split; [done|]. constructor; [lia|done].
      * eapply Forall_impl; [exact Hrest|]. cbn. lia.
Qed.

(** [find] is at the value with the key, or at the end. *)
Lemma find_spec n k : ordered key n → let it := find key n k in
  valid it ∧ it_root it = n ∧
  (if decide (Exists (λ x, key x = k) (inorder n)) then prefix it = below key k (inorder n) else it_stack it = []).
Proof.
  intros Ho. destruct (lower_bound_placed n k Ho) as [Hp Hr]. pose proof (placed_parts k _ Hp) as [E1 E2]. rewrite Hr in E1, E2.
  destruct Hp as (Hv & Hp & Hs). unfold find. cbv zeta. set (it := lower_bound key n k) in *. rewrite (value_head it Hv).
  unfold ordered in Ho. rewrite <-Hr, <-(split_inorder it Hv) in Ho. rewrite <-Hr, <-(split_inorder it Hv) in E1 |- *.
  rewrite <-E1. assert (Hp' : ¬ Exists (λ x, key x = k) (prefix it)).
  { rewrite Exists_exists. intros (x & Hx & Hk). rewrite Forall_forall in Hp. specialize (Hp _ Hx). cbn in Hp. lia. }
  destruct (suffix it) as [|v rest] eqn:Es; cbn [head].
  - split; [done|]. split; [done|]. rewrite app_nil_r. by case_decide.
  - apply sorted_mid in Ho as (_ & _ & _ & Hf). rewrite Forall_forall in Hf. apply Forall_cons in Hs as [Hk _].
    destruct (Z.ltb_spec k (key v)).
    + split; [done|]. split; [done|]. case_decide as Hd; [|done]. apply Exists_app in Hd as [?|Hd]; [done|].
      apply Exists_cons in Hd as [?|(x & Hx & E)%Exists_exists]; [lia|]. specialize (Hf _ Hx). lia.
    + split; [done|]. split; [done|]. case_decide as Hd; [done|]. exfalso. apply Hd. apply Exists_app. right. apply Exists_cons. left. lia.
Qed.

(** ** The stack *)
Lemma chain_height root s n st : avl root → chain root s n st → avl n ∧ Z.of_nat (length st) + height n ≤ height root.
Proof.
  intros Ha. revert s n. induction st as [|[s' m] st IH]; intros s n Hc; destruct s; try done; cbn in Hc.
  - subst. split; [done|]. cbn. lia.
  - destruct Hc as (-> & Hm & Hc). destruct (IH _ _ Hc) as [H1 H2]. destruct m as [|l r v h]; [done|].
    destruct H1 as (? & ? & -> & ?). split; [done|]. cbn in *. lia.
  - destruct Hc as (-> & Hm & Hc). destruct (IH _ _ Hc) as [H1 H2]. destruct m as [|l r v h]; [done|].
    destruct H1 as (? & ? & -> & ?). split; [done|]. cbn in *. lia.
Qed.
Lemma stack_fits it : avl (it_root it) → valid it → Z.of_nat (length (it_stack it)) ≤ height (it_root it).
Proof.
  intros Ha. unfold valid. destruct (it_stack it) as [|[s n] st]; [intros _; by apply height_pos|]. intros [Hn Hc].
  destruct (chain_height _ _ _ _ Ha Hc) as [H1 H2]. destruct n as [|l r v h]; [done|]. pose proof (height_node _ _ _ _ H1).
  cbn in *. lia.
Qed.

(** Stepping back from the first value leaves the iterator at the end. *)
Lemma pop_right_none root s n st : chain root s n st → before_ctx s st = [] → pop_right ((s, n) :: st) = [].
Proof.
  revert s n. induction st as [|[s' m] st IH]; intros s n Hc Hb; destruct s; try done; cbn in Hc, Hb.
  - destruct Hc as (-> & Hm & Hc). rewrite app_nil_r in Hb. cbn. exact (IH _ _ Hc Hb).
  - destruct Hc as (-> & Hm & Hc). destruct m as [|l r v h]; [done|].
    apply app_eq_nil in Hb as [_ Hb]. cbn in Hb. by apply app_eq_nil in Hb as [_ ?].
Qed.
Lemma prev_begin it : valid it → prefix it = [] → it_prev it = end_ (it_root it).
Proof.
  intros Hv Hp. destruct it as [root st]. unfold it_prev. cbn [it_stack it_root]. destruct st as [|[s n] st].
  - cbn in Hp. destruct root as [|l r v h]; [done|]. by apply app_eq_nil in Hp as [_ ?].
  - destruct Hv as [Hn Hc]. destruct n as [|l r x h]; [done|]. cbn in Hp. apply app_eq_nil in Hp as [Hb Hl].
    destruct l as [|ll lr lv lh]; [|by apply app_eq_nil in Hl as [_ ?]]. cbn [left_of it_stack]. by rewrite (pop_right_none root).
Qed.

(** Only the iterator at the first value has nothing before it. *)
Lemma push_left_chain root s n st : chain root s n st → before_ctx s st = [] → push_left Root root [] = push_left s n st.
Proof.
  revert s n. induction st as [|[s' m] st IH]; intros s n Hc Hb; destruct s; try done; cbn in Hc, Hb.
  - by subst.
  - destruct Hc as (-> & Hm & Hc). rewrite app_nil_r in Hb. rewrite (IH _ _ Hc Hb). by destruct m.
  - destruct Hc as (-> & Hm & Hc). destruct m as [|l r v h]; [done|]. apply app_eq_nil in Hb as [_ Hb]. cbn in Hb. by apply app_eq_nil in Hb as [_ ?].
Qed.
Lemma at_begin it : valid it → prefix it = [] ↔ it_stack it = it_stack (begin (it_root it)).
Proof.
  intros Hv. split.
  - destruct it as [root st]. cbn. destruct st as [|[s n] st]; cbn.
    + destruct root as [|l r v h]; [done|]. cbn. intros E. by apply app_eq_nil in E as [_ ?].
    + destruct Hv as [Hn Hc]. intros [Hb Hl]%app_eq_nil. cbn in Hc. rewrite (push_left_chain _ _ _ _ Hc Hb).
      destruct n as [|l r v h]; [done|]. cbn in Hl |- *. destruct l as [|ll lr lv lh]; [done|]. cbn in Hl. by apply app_eq_nil in Hl as [_ ?].
  - intros E. destruct (begin_spec (it_root it)) as (_ & _ & H). unfold prefix in *. rewrite E. exact H.
Qed.

(** ** Positions *)
Inductive it_op : Type := ToBegin | ToEnd | ToLower (k : Z) | ToUpper (k : Z) | ToFind (k : Z) | Next | Prev.

Definition it_step (n : Node V) (op : it_op) (it : iterator V) : option (iterator V) :=
  match op with
  | ToBegin => Some (begin n)
  | ToEnd => Some (end_ n)
  | ToLower k => Some (lower_bound key n k)
  | ToUpper k => Some (upper_bound key n k)
  | ToFind k => Some (find key n k)
  | Next => it_next it
  | Prev => Some (it_prev it)
  end.
Definition pos_step (xs : list V) (op : it_op) (i : nat) : option nat :=
  match op with
  | ToBegin => Some 0%nat
  | ToEnd => Some (length xs)
  | ToLower k => Some (length (filter (λ x, key x < k) xs))
  | ToUpper k => Some (length (filter (λ x, key x ≤ k) xs))
  | ToFind k => Some (if decide (Exists (λ x, key x = k) xs) then length (filter (λ x, key x < k) xs) else length xs)
  | Next => if decide (i = length xs) then None else Some (S i)
  | Prev => Some (match i with O => length xs | S i => i end)
  end.
Definition at_pos (n : Node V) (it : iterator V) (i : nat) : Prop := valid it ∧ it_root it = n ∧ length (prefix it) = i.

Lemma at_pos_value n it i : at_pos n it i → it_value it = inorder n !! i.
Proof.
  intros (Hv & <- & <-). rewrite value_head, <-(split_inorder it Hv), lookup_app_r, Nat.sub_diag by done. by destruct (suffix it).
Qed.
Lemma at_pos_end n : at_pos n (end_ n) (length (inorder n)).
Proof. done. Qed.

Lemma it_step_sim n op it i : ordered key n → at_pos n it i →
  match it_step n op it, pos_step (inorder n) op i with
  | Some it', Some i' => at_pos n it' i'
  | None, None => True
  | _, _ => False
  end.
Proof.
  intros Ho (Hv & Hr & Hi). destruct op as [| |k|k|k| |]; cbn [it_step pos_step].
  - destruct (begin_spec n) as (H1 & _ & H2). split_and!; [done|done|by rewrite H2].
  - apply at_pos_end.
  - destruct (lower_bound_placed n k Ho) as [Hp E]. split_and!; [apply Hp|done|]. destruct (placed_parts k _ Hp) as [-> _]. by rewrite E.
  - destruct (upper_bound_spec n k Ho) as (H1 & H2 & H3 & _). split_and!; [done|done|by rewrite H3].
  - destruct (find_spec n k Ho) as (H1 & H2 & H3). case_decide.
    + split_and!; [done..|by rewrite H3].
    + split_and!; [done..|]. unfold prefix. by rewrite H3, H2.
  - pose proof (split_inorder it Hv) as E. rewrite Hr in E. destruct (suffix it) as [|v rest] eqn:Es.
    + rewrite <-E, app_nil_r. rewrite decide_True by done. unfold it_next. by rewrite (proj2 (at_end it Hv) Es).
    + destruct (next_spec it v rest Hv Es) as (it' & -> & H1 & H2 & H3 & H4). rewrite <-E, length_app. cbn.
      rewrite decide_False by lia. split_and!; [done|congruence|]. rewrite H4, length_app. cbn. lia.
  - destruct i as [|i].
    + apply nil_length_inv in Hi. rewrite (prev_begin it Hv Hi), Hr. apply at_pos_end.
    + destruct (prefix it) as [|x l _] eqn:Ep using rev_ind; [done|]. destruct (prev_spec it x l Hv Ep) as (H1 & H2 & H3 & _).
      rewrite length_app in Hi. cbn in Hi. split_and!; [done|congruence|]. rewrite H3. lia.
Qed.

(** C32: (refinement) An iterator of a sorted, balanced tree is a position in the sorted
    list of its values.  After any sequence of moves (begin, end, lower_bound,
    upper_bound, find, ++ and --), the iterator reads the value at the position the
    same moves reach: lower_bound is past the smaller keys, upper_bound past the keys
    not above, find at the key or at the end, ++ fails its assertion exactly at the
    end, and -- goes from the end to the last value and from the first value to the
    end.  Its stack never outgrows the root's height, the size it is allocated with. *)
Theorem iterators_refine_positions n ops : ordered key n → avl n →
  let it := foldl (λ it op, it ≫= it_step n op) (Some (begin n)) ops in
  let i := foldl (λ i op, i ≫= pos_step (inorder n) op) (Some 0%nat) ops in
  match it, i with
  | Some it, Some i => it_value it = inorder n !! i ∧ (i ≤ length (inorder n))%nat ∧ Z.of_nat (length (it_stack it)) ≤ height n
  | None, None => True
  | _, _ => False
  end.
Proof.
  intros Ho Ha. cbv zeta.
  assert (H : ∀ it i, match it, i with Some it, Some i => at_pos n it i | None, None => True | _, _ => False end →
    match foldl (λ it op, it ≫= it_step n op) it ops, foldl (λ i op, i ≫= pos_step (inorder n) op) i ops with
    | Some it, Some i => at_pos n it i | None, None => True | _, _ => False end).
  { induction ops as [|op ops IH]; intros it i H; [done|]. cbn [foldl]. apply IH.
    destruct it as [it|], i as [i|]; try done. exact (it_step_sim n op it i Ho H). }
  specialize (H (Some (begin n)) (Some 0%nat) (it_step_sim n ToBegin (end_ n) _ Ho (at_pos_end n))).
  destruct (foldl _ (Some (begin n)) ops) as [it|], (foldl _ (Some 0%nat) ops) as [i|]; try done.
  split_and!; [by apply at_pos_value| |]; destruct H as (Hv & <- & <-).
  - rewrite <-(split_inorder it Hv), length_app. lia.
  - by apply stack_fits.
Qed.
End Iter.

Definition three : Node Z := insert id 3 (insert id 1 (insert id 2 terminator)).
Lemma iterators_refine_positions_witness :
  match foldl (λ it op, it ≫= it_step id three op) (Some (begin three)) [ToLower 2; Next; Next; Prev; Prev], Some 1%nat with
  | Some it, Some i => it_value it = inorder three !! i ∧ (i ≤ length (inorder three))%nat ∧ Z.of_nat (length (it_stack it)) ≤ height three
  | None, None => True
  | _, _ => False
  end.
Proof.
  apply (iterators_refine_positions id three [ToLower 2; Next; Next; Prev; Prev]).
  - repeat constructor.
  - repeat split; cbn; lia.
Defined.
