(* ===== verification/AddressSpace.v ===== *)
(** * Address spaces

    src/klee/lib/Core/AddressSpace.cpp, AddressSpace.h: the memory of a state is a
    persistent map from memory objects, ordered by address, to object states.  Forked
    states share the map and the object states; an object state is copied before it is
    written unless the space owns it, which the epoch counter [cowKey] decides.

    Object states are named by numbers in a common heap; address spaces too.  The
    reference counts of [ObjectHolder] only decide when memory is released and are left
    out.  The solver is an interface: an answer is [None] when the query failed. *)
From S2P Require Import Prelude Expr ExprCreate Memory ImmutableTree.

Abbreviation osid := nat (only parsing).
Abbreviation asid := nat (only parsing).

Definition ObjectPair : Type := MemoryObject * osid.
(** [MemoryObjectLT] compares these. *)
Definition object_key (p : ObjectPair) : Z := mo_address p.1.
Abbreviation MemoryMap := (ImmutableTree.Node ObjectPair).

Record AddressSpace := mkAS { cowKey : Z; objects : MemoryMap }.
Definition new_AddressSpace : AddressSpace := mkAS 1 ImmutableTree.terminator.
Definition set_objects (o : MemoryMap) (s : AddressSpace) : AddressSpace := mkAS (cowKey s) o.

(** The heap of object states, the spaces, and the memory of the process itself. *)
Record mem := mkMem {
  heap : gmap osid ObjectState; spaces : gmap asid AddressSpace; next_os : osid; next_as : asid; arrays : nat; process : Z → Z
}.
Definition set_heap h m := mkMem h (spaces m) (next_os m) (next_as m) (arrays m) (process m).
Definition set_space i s m := mkMem (heap m) (<[i := s]> (spaces m)) (next_os m) (next_as m) (arrays m) (process m).
Definition set_arrays n m := mkMem (heap m) (spaces m) (next_os m) (next_as m) n (process m).
Definition set_process p m := mkMem (heap m) (spaces m) (next_os m) (next_as m) (arrays m) p.

Definition get_space (i : asid) : M mem AddressSpace := m ← get; deref (spaces m !! i).
Definition get_os (o : osid) : M mem ObjectState := m ← get; deref (heap m !! o).
Definition put_os (o : osid) (s : ObjectState) : M mem unit := modify (λ m, set_heap (<[o := s]> (heap m)) m).
(** [new]. *)
Definition alloc_os (s : ObjectState) : M mem osid :=
  m ← get; put (mkMem (<[next_os m := s]> (heap m)) (spaces m) (S (next_os m)) (next_as m) (arrays m) (process m));; mret (next_os m).
(** A method of an object state. *)
Definition run_os {A} (o : osid) (f : O A) : M mem A :=
  s ← get_os o;
  zoom (λ m, mkObjw s (arrays m)) (λ w m, set_arrays (narrays w) (set_heap (<[o := obj w]> (heap m)) m)) f.

(** ** Binding *)
Definition bindObject (this : asid) (mo : MemoryObject) (os : osid) : M mem unit :=
  o ← get_os os;
  c_assert (copyOnWriteOwner o =? 0);;
  s ← get_space this;
  put_os os (set_owner (cowKey s) o);;
  modify (set_space this (set_objects (ImmutableTree.replace object_key (mo, os) (objects s)) s)).
Definition unbindObject (this : asid) (mo : MemoryObject) : M mem unit :=
  s ← get_space this;
  modify (set_space this (set_objects (ImmutableTree.remove object_key (mo_address mo) (objects s)) s)).
Definition findObject (this : asid) (mo : MemoryObject) : M mem (option osid) :=
  s ← get_space this; mret (snd <$> ImmutableTree.lookup object_key (mo_address mo) (objects s)).

(** The copy constructor of an object state asserts again that it is not read-only. *)
Definition getWriteable (this : asid) (mo : MemoryObject) (os : osid) : M mem osid :=
  o ← get_os os;
  c_assert (negb (readOnly o));;
  s ← get_space this;
  if cowKey s =? copyOnWriteOwner o then mret os
  else
    c ← match copy_ObjectState o tt with Done c _ => mret c | Halt e _ => halt e end;
    n ← alloc_os (set_owner (cowKey s) c);
    modify (set_space this (set_objects (ImmutableTree.replace object_key (mo, n) (objects s)) s));; mret n.

(** The copy constructor: both spaces get a new key. *)
Definition copy_AddressSpace (b : asid) : M mem asid :=
  s ← get_space b;
  let k := u32 (cowKey s + 1) in
  m ← get;
  put (mkMem (heap m) (<[next_as m := mkAS k (objects s)]> (<[b := mkAS k (objects s)]> (spaces m))) (next_os m) (S (next_as m)) (arrays m) (process m));;
  mret (next_as m).

(** ** The engine's use of a space *)
(** [Executor::bindObjectInState]; [junk] is what the new store holds. *)
Definition bindObjectInState (UseConstantArrays : bool) (this : asid) (mo : MemoryObject) (array : option Array) (junk : list Z) : M mem osid :=
  m ← get;
  w ← match array with
      | Some a => match symbolic_ObjectState mo junk a (arrays m) with Done _ w => mret w | Halt e _ => halt e end
      | None => mret (new_ObjectState UseConstantArrays mo junk (arrays m))
      end;
  modify (set_arrays (narrays w));;
  os ← alloc_os (obj w); bindObject this mo os;; mret os.

(** The in-bounds access of [Executor::executeMemoryOperation]; [None] when a read-only
    object ends the path. *)
Definition access_read `{!APInt, !ExprCompare} (ConstArrayOpt isLittleEndian : bool) (os : osid) (offset : Expr) (type : Z) : M mem Expr :=
  run_os os (read_e ConstArrayOpt isLittleEndian offset type).
Definition access_write `{!APInt, !ExprCompare} (ConstArrayOpt isLittleEndian : bool) (this : asid) (mo : MemoryObject) (os : osid) (offset value : Expr) : M mem (option unit) :=
  o ← get_os os;
  if readOnly o then mret None
  else w ← getWriteable this mo os; run_os w (write_e ConstArrayOpt isLittleEndian offset value);; mret (Some tt).

(** ** Iterators *)
(** The code compares the nodes on the stacks by address; both iterators are into the
    same tree. *)
#[global] Instance MemoryObject_eq_dec : EqDecision MemoryObject.
Proof. solve_decision. Defined.
#[global] Instance Node_eq_dec {V} `{!EqDecision V} : EqDecision (ImmutableTree.Node V).
Proof. solve_decision. Defined.
#[global] Instance side_eq_dec : EqDecision ImmutableTree.side.
Proof. solve_decision. Defined.
Definition it_eq (a b : ImmutableTree.iterator ObjectPair) : bool :=
  bool_decide (ImmutableTree.it_stack a = ImmutableTree.it_stack b).

(** ** Concrete memory *)
Definition copy_out_byte (p : Z → Z) (address : Z) (bytes : list Z) : Z → Z := λ x,
  default (p x) (if address <=? x then bytes !! Z.to_nat (x - address) else None).
(** [for (it = objects.begin(); it != objects.end(); ++it)]. *)
Fixpoint for_objects (fuel : nat) (it : ImmutableTree.iterator ObjectPair) (f : ObjectPair → M mem bool) : M mem bool :=
  match ImmutableTree.it_value it with
  | None => mret true
  | Some p =>
    match fuel with
    | Datatypes.O => halt NoFuel
    | S fuel =>
      ok ← f p;
      if (ok : bool) then match ImmutableTree.it_next it with Some it' => for_objects fuel it' f | None => halt AssertFailure end
      else mret false
    end
  end.
Definition all_objects (this : asid) (f : ObjectPair → M mem bool) : M mem bool :=
  s ← get_space this;
  for_objects (Z.to_nat (ImmutableTree.size (objects s))) (ImmutableTree.begin (objects s)) f.

Definition copy_out (p : ObjectPair) : M mem bool :=
  o ← get_os p.2;
  if isUserSpecified p.1 || readOnly o then mret true
  else
    modify (λ m, set_process (copy_out_byte (process m) (mo_address p.1) (take (Z.to_nat (mo_size p.1)) (concreteStore o))) m);;
    mret true.
Definition copyOutConcretes (this : asid) : M mem unit := all_objects this copy_out;; mret tt.

(** The bytes of the process at an address. *)
Definition process_bytes (p : Z → Z) (address : Z) (n : nat) : list Z := (λ i, p (address + Z.of_nat i)) <$> seq 0 n.
Definition copy_in (this : asid) (p : ObjectPair) : M mem bool :=
  o ← get_os p.2;
  m ← get;
  let n := Z.to_nat (mo_size p.1) in
  let bytes := process_bytes (process m) (mo_address p.1) n in
  if isUserSpecified p.1 || bool_decide (take n (concreteStore o) = bytes) then mret true
  else if readOnly o then mret false
  else
    w ← getWriteable this p.1 p.2;
    o ← get_os w;
    put_os w (set_store (splice 0 bytes (concreteStore o)) o);; mret true.
Definition copyInConcretes (this : asid) : M mem bool := all_objects this (copy_in this).

(** ** Resolution *)
(** A concrete address. *)
Definition covers_address (mo : MemoryObject) (address : Z) : bool := u64 (address - mo_address mo) <? mo_size mo.
Definition resolveOne_c (objs : MemoryMap) (address : Z) : option ObjectPair :=
  match ImmutableTree.lookup_previous object_key address objs with
  | Some p => if (mo_size p.1 =? 0) && (address =? mo_address p.1) || covers_address p.1 address then Some p else None
  | None => None
  end.

(** The object a solution points into. *)
Definition cheap_search (objs : MemoryMap) (example : Z) : option ObjectPair :=
  match ImmutableTree.lookup_previous object_key example objs with
  | Some p => if covers_address p.1 example then Some p else None
  | None => None
  end.

(** What the resolution asks: a value of an expression, whether it must or may be true,
    and whether the time is over. *)
Class TimingSolver (S : Type) := {
  ts_getValue : Expr → M S (option Expr);
  ts_mustBeTrue : Expr → M S (option bool);
  ts_mayBeTrue : Expr → M S (option bool);
  ts_expired : M S bool
}.

(** A call of an expression factory. *)
Definition lift_res {W A} (m : res A) : M W A := λ w, match m tt with Done a _ => Done a w | Halt e _ => Halt e w end.

Section Resolve.
Context `{!APInt, !ExprCompare} (ConstArrayOpt : bool) (PointerWidth : Z) {S : Type} `{!TimingSolver S}.

Definition inBounds (mo : MemoryObject) (p : Expr) : M S Expr := lift_res (getBoundsCheckPointer ConstArrayOpt PointerWidth mo p).
(** [p >= base] and [p < base]. *)
Definition atOrAbove (mo : MemoryObject) (p : Expr) : M S Expr :=
  lift_res (b ← getBaseExpr PointerWidth mo; UgeExpr_make ConstArrayOpt p b).
Definition below_base (mo : MemoryObject) (p : Expr) : M S Expr :=
  lift_res (b ← getBaseExpr PointerWidth mo; UltExpr_make ConstArrayOpt p b).
Definition example_of (e : Expr) : M S Z :=
  match e with Constant w v => lift_res (getZExtValue 64 w v) | _ => halt AssertFailure end.

(** [Ret r]: the function returned; [Ended]: the loop ended. *)
Inductive loop (R A : Type) : Type := Ret (r : R) | Ended (a : A).
Arguments Ret {R A} r.
Arguments Ended {R A} a.

(** *** The first object *)
(** The result of [resolveOne]: [None] when a query failed, else [success] with the pair. *)
Definition one_result : Type := option (option ObjectPair).

Fixpoint one_back (fuel : nat) (first oi : ImmutableTree.iterator ObjectPair) (address : Expr) : M S (loop one_result unit) :=
  if it_eq oi first then mret (Ended tt)
  else
    match fuel with
    | Datatypes.O => halt NoFuel
    | Datatypes.S fuel =>
      let oi := ImmutableTree.it_prev oi in
      p ← deref (ImmutableTree.it_value oi);
      c ← inBounds p.1 address;
      may ← ts_mayBeTrue c;
      match may with
      | None => mret (Ret None)
      | Some true => mret (Ret (Some (Some p)))
      | Some false =>
        c ← atOrAbove p.1 address;
        must ← ts_mustBeTrue c;
        match must with
        | None => mret (Ret None)
        | Some true => mret (Ended tt)
        | Some false => one_back fuel first oi address
        end
      end
    end.
Fixpoint one_forward (fuel : nat) (oi : ImmutableTree.iterator ObjectPair) (address : Expr) : M S (loop one_result unit) :=
  match ImmutableTree.it_value oi with
  | None => mret (Ended tt)
  | Some p =>
    match fuel with
    | Datatypes.O => halt NoFuel
    | Datatypes.S fuel =>
      c ← below_base p.1 address;
      must ← ts_mustBeTrue c;
      match must with
      | None => mret (Ret None)
      | Some true => mret (Ended tt)
      | Some false =>
        c ← inBounds p.1 address;
        may ← ts_mayBeTrue c;
        match may with
        | None => mret (Ret None)
        | Some true => mret (Ret (Some (Some p)))
        | Some false =>
          oi ← match ImmutableTree.it_next oi with Some oi => mret oi | None => halt AssertFailure end;
          one_forward fuel oi address
        end
      end
    end
  end.
Definition search_fuel (objs : MemoryMap) : nat := Z.to_nat (ImmutableTree.size objs).

Definition resolveOne_e (objs : MemoryMap) (address : Expr) : M S one_result :=
  match address with
  | Constant w v => a ← lift_res (getZExtValue 64 w v); mret (Some (resolveOne_c objs a))
  | _ =>
    cex ← ts_getValue address;
    match cex with
    | None => mret None
    | Some cex =>
      example ← example_of cex;
      match cheap_search objs example with
      | Some p => mret (Some (Some p))
      | None =>
        let start := ImmutableTree.upper_bound object_key objs example in
        r ← one_back (search_fuel objs) (ImmutableTree.begin objs) start address;
        match r with
        | Ret r => mret r
        | Ended _ =>
          r ← one_forward (search_fuel objs) start address;
          match r with Ret r => mret r | Ended _ => mret (Some None) end
        end
      end
    end
  end.

(** *** All objects *)
(** The result of [resolve]: whether it is incomplete, and the list. *)
Definition all_result : Type := bool * list ObjectPair.

(** An object that may be pointed to: the list, unless the function returns. *)
Definition push_result (maxResolutions : Z) (inb : Expr) (rl : list ObjectPair) : M S (loop all_result (list ObjectPair)) :=
  let size := Z.of_nat (length rl) in
  if size =? 1 then
    must ← ts_mustBeTrue inb;
    match must with
    | None => mret (Ret (true, rl))
    | Some true => mret (Ret (false, rl))
    | Some false => mret (Ended rl)
    end
  else if size =? maxResolutions then mret (Ret (true, rl))
  else mret (Ended rl).
Definition check_object (maxResolutions : Z) (p : ObjectPair) (address : Expr) (rl : list ObjectPair) : M S (loop all_result (list ObjectPair)) :=
  c ← inBounds p.1 address;
  may ← ts_mayBeTrue c;
  match may with
  | None => mret (Ret (true, rl))
  | Some true => push_result maxResolutions c (rl ++ [p])
  | Some false => mret (Ended rl)
  end.

Fixpoint all_back (fuel : nat) (first oi : ImmutableTree.iterator ObjectPair) (address : Expr) (maxResolutions : Z)
  (rl : list ObjectPair) : M S (loop all_result (list ObjectPair)) :=
  if it_eq oi first then mret (Ended rl)
  else
    match fuel with
    | Datatypes.O => halt NoFuel
    | Datatypes.S fuel =>
      let oi := ImmutableTree.it_prev oi in
      p ← deref (ImmutableTree.it_value oi);
      late ← ts_expired;
      if (late : bool) then mret (Ret (true, rl))
      else
        r ← check_object maxResolutions p address rl;
        match r with
        | Ret r => mret (Ret r)
        | Ended rl =>
          c ← atOrAbove p.1 address;
          must ← ts_mustBeTrue c;
          match must with
          | None => mret (Ret (true, rl))
          | Some true => mret (Ended rl)
          | Some false => all_back fuel first oi address maxResolutions rl
          end
        end
    end.
Fixpoint all_forward (fuel : nat) (oi : ImmutableTree.iterator ObjectPair) (address : Expr) (maxResolutions : Z)
  (rl : list ObjectPair) : M S (loop all_result (list ObjectPair)) :=
  match ImmutableTree.it_value oi with
  | None => mret (Ended rl)
  | Some p =>
    match fuel with
    | Datatypes.O => halt NoFuel
    | Datatypes.S fuel =>
      late ← ts_expired;
      if (late : bool) then mret (Ret (true, rl))
      else
        c ← below_base p.1 address;
        must ← ts_mustBeTrue c;
        match must with
        | None => mret (Ret (true, rl))
        | Some true => mret (Ended rl)
        | Some false =>
          r ← check_object maxResolutions p address rl;
          match r with
          | Ret r => mret (Ret r)
          | Ended rl =>
            oi ← match ImmutableTree.it_next oi with Some oi => mret oi | None => halt AssertFailure end;
            all_forward fuel oi address maxResolutions rl
          end
        end
    end
  end.

Definition resolve (objs : MemoryMap) (p : Expr) (maxResolutions : Z) : M S all_result :=
  match p with
  | Constant w v => a ← lift_res (getZExtValue 64 w v); mret (false, option_list (resolveOne_c objs a))
  | _ =>
    cex ← ts_getValue p;
    match cex with
    | None => mret (true, [])
    | Some cex =>
      example ← example_of cex;
      let start := ImmutableTree.upper_bound object_key objs example in
      r ← all_back (search_fuel objs) (ImmutableTree.begin objs) start p maxResolutions [];
      match r with
      | Ret r => mret r
      | Ended rl =>
        r ← all_forward (search_fuel objs) start p maxResolutions rl;
        match r with Ret r => mret r | Ended rl => mret (false, rl) end
      end
    end
  end.
End Resolve.
Arguments Ret {R A} r.
Arguments Ended {R A} a.
