(* ===== verification/AddressSpaceCow.v ===== *)
(** * Forked address spaces are independent memories

    The spaces of [AddressSpace] share object states, yet each behaves as a memory of
    its own: [rel] relates the heap and the spaces to one map from addresses to bytes
    per space, and binding, unbinding, forking, loading and storing keep it. *)
From S2P Require Import Prelude Expr ExprCreate ExprRefine ExprSums ExprSpec ExprBuild Memory MemorySpec MemoryOps ImmutableTree ImmutableTreeMap AddressSpace.

(** ** What a method of an object leaves alone *)
Section Keeps.
Context `{HA : !APInt, HC : !ExprCompare} (CAO LE : bool).

(** The owner and the read-only flag. *)
Definition tagged (k : Z) (b : bool) (w : objw) : Prop := copyOnWriteOwner (obj w) = k ∧ readOnly (obj w) = b.
Definition keeps {A} (f : O A) : Prop := ∀ k b, preserves (tagged k b) f.

Lemma preserves_build k b {A} (m : res A) : preserves (tagged k b) (build m).
Proof. intros w Hw. unfold wlp, build. by destruct (m tt). Qed.
Lemma preserves_upd k b f : (∀ s, copyOnWriteOwner (f s) = copyOnWriteOwner s ∧ readOnly (f s) = readOnly s) →
  preserves (tagged k b) (upd_obj f).
Proof. intros H. apply preserves_modify. intros w [H1 H2]. unfold tagged. cbn. by rewrite (proj1 (H _)), (proj2 (H _)). Qed.
Lemma preserves_get_obj k b : preserves (tagged k b) get_obj.
Proof. apply preserves_gets. Qed.
Local Hint Resolve preserves_build preserves_get_obj : preserve.
Local Hint Extern 2 (preserves (tagged _ _) (upd_obj _)) => (apply preserves_upd; intros; split; reflexivity) : preserve.

Lemma keeps_bit o d off k b : preserves (tagged k b) (bit o d off).
Proof. unfold bit. preserving. Qed.
Local Hint Resolve keeps_bit : preserve.
Lemma keeps_isByteConcrete off k b : preserves (tagged k b) (isByteConcrete off).
Proof. unfold isByteConcrete. preserving. Qed.
Lemma keeps_isByteFlushed off k b : preserves (tagged k b) (isByteFlushed off).
Proof. unfold isByteFlushed. preserving. Qed.
Lemma keeps_known_at off k b : preserves (tagged k b) (known_at off).
Proof. unfold known_at. preserving. Qed.
Local Hint Resolve keeps_isByteConcrete keeps_isByteFlushed keeps_known_at : preserve.
Lemma keeps_isByteKnownSymbolic off k b : preserves (tagged k b) (isByteKnownSymbolic off).
Proof. unfold isByteKnownSymbolic. preserving. Qed.
Lemma keeps_markByteConcrete off k b : preserves (tagged k b) (markByteConcrete off).
Proof. unfold markByteConcrete. preserving. Qed.
Lemma keeps_markByteSymbolic off k b : preserves (tagged k b) (markByteSymbolic off).
Proof. unfold markByteSymbolic. preserving. Qed.
Lemma keeps_markByteUnflushed off k b : preserves (tagged k b) (markByteUnflushed off).
Proof. unfold markByteUnflushed. preserving. Qed.
Lemma keeps_markByteFlushed off k b : preserves (tagged k b) (markByteFlushed off).
Proof. unfold markByteFlushed. preserving. Qed.
Lemma keeps_setKnownSymbolic off v k b : preserves (tagged k b) (setKnownSymbolic off v).
Proof. unfold setKnownSymbolic. preserving. Qed.
Lemma keeps_extend i v k b : preserves (tagged k b) (extend i v).
Proof. unfold extend. preserving. Qed.
Local Hint Resolve keeps_isByteKnownSymbolic keeps_markByteConcrete keeps_markByteSymbolic keeps_markByteUnflushed
  keeps_markByteFlushed keeps_setKnownSymbolic keeps_extend : preserve.
Lemma keeps_extend_all l k b : preserves (tagged k b) (extend_all l).
Proof. induction l as [|[i v] l IH]; cbn; preserving. Qed.
Lemma keeps_pull_concrete l c k b : preserves (tagged k b) (pull_concrete l c).
Proof. revert c. induction l as [|[i v] l IH]; intros c; cbn; preserving. Qed.
Lemma keeps_new_array name size values k b : preserves (tagged k b) (new_array name size values).
Proof. intros w Hw. done. Qed.
Local Hint Resolve keeps_extend_all keeps_pull_concrete keeps_new_array : preserve.
Lemma keeps_getUpdates k b : preserves (tagged k b) getUpdates.
Proof. unfold getUpdates. preserving. Qed.
Lemma keeps_flush_update off k b : preserves (tagged k b) (flush_update off).
Proof. unfold flush_update. preserving. Qed.
Lemma keeps_unset_flush off k b : preserves (tagged k b) (unset_flush off).
Proof. unfold unset_flush. preserving. Qed.
Lemma keeps_clear_byte off k b : preserves (tagged k b) (clear_byte off).
Proof. unfold clear_byte. preserving. Qed.
Local Hint Resolve keeps_getUpdates keeps_flush_update keeps_unset_flush keeps_clear_byte : preserve.
Lemma keeps_flush_byte_read off k b : preserves (tagged k b) (flush_byte_read off).
Proof. unfold flush_byte_read. preserving. Qed.
Lemma keeps_flush_byte_write off k b : preserves (tagged k b) (flush_byte_write off).
Proof. unfold flush_byte_write. preserving. Qed.
Lemma keeps_for_range f : (∀ i, keeps (f i)) → ∀ n base, keeps (for_range f base n).
Proof. intros Hf n. induction n as [|n IH]; intros base k b; cbn; [preserving|]. apply preserves_bind; [apply Hf|intros _; apply IH]. Qed.
Lemma keeps_flushRangeForRead i n k b : preserves (tagged k b) (flushRangeForRead i n).
Proof. unfold flushRangeForRead, ensure_flush_mask. preserving. apply keeps_for_range. intros ???. apply keeps_flush_byte_read. Qed.
Lemma keeps_flushRangeForWrite i n k b : preserves (tagged k b) (flushRangeForWrite i n).
Proof. unfold flushRangeForWrite, ensure_flush_mask. preserving. apply keeps_for_range. intros ???. apply keeps_flush_byte_write. Qed.
Local Hint Resolve keeps_flushRangeForRead keeps_flushRangeForWrite : preserve.

Lemma keeps_read8_c off k b : preserves (tagged k b) (read8_c CAO off).
Proof. unfold read8_c. preserving. Qed.
Lemma keeps_read8_e off k b : preserves (tagged k b) (read8_e CAO off).
Proof. unfold read8_e, fastRangeCheckOffset. preserving. Qed.
Lemma keeps_write8_c off v k b : preserves (tagged k b) (write8_c off v).
Proof. unfold write8_c. preserving. Qed.
Local Hint Resolve keeps_read8_c keeps_read8_e keeps_write8_c : preserve.
Lemma keeps_write8_v off v k b : preserves (tagged k b) (write8_v off v).
Proof. unfold write8_v. preserving. Qed.
Lemma keeps_write8_e off v k b : preserves (tagged k b) (write8_e off v).
Proof. unfold write8_e, fastRangeCheckOffset. preserving. Qed.
Local Hint Resolve keeps_write8_v keeps_write8_e : preserve.

Lemma keeps_read_bytes rd N : (∀ i, keeps (rd i)) → ∀ n i r, keeps (read_bytes LE rd N n i r).
Proof.
  intros Hf n. induction n as [|n IH]; intros i r k b; cbn; [preserving|]. apply preserves_bind; [apply Hf|intros B].
  apply preserves_bind; [preserving|]. intros. apply IH.
Qed.
Lemma keeps_write_bytes wr N : (∀ i j, keeps (wr i j)) → ∀ n i, keeps (write_bytes LE wr N n i).
Proof. intros Hf n. induction n as [|n IH]; intros i k b; cbn; [preserving|]. apply preserves_bind; [apply Hf|intros _; apply IH]. Qed.
Lemma keeps_read_with rd rd0 w : (∀ i, keeps (rd i)) → keeps rd0 → keeps (read_with LE rd rd0 w).
Proof.
  intros Hf H0 k b. unfold read_with. apply preserves_if; [apply preserves_bind; [apply H0|preserving]|].
  apply preserves_bind; [preserving|]. intros _. by apply keeps_read_bytes.
Qed.
Lemma keeps_read_e off w : keeps (read_e CAO LE off w).
Proof.
  intros k b. unfold read_e, read_c, read8_at. preserving; apply keeps_read_with; intros; intros ??; preserving.
Qed.
Lemma keeps_write_general wr0 wr v : (∀ e, keeps (wr0 e)) → (∀ i e, keeps (wr i e)) → keeps (write_general LE wr0 wr v).
Proof.
  intros H0 Hf k b. unfold write_general. apply preserves_if; [apply preserves_bind; [preserving|intros; apply H0]|].
  apply preserves_bind; [preserving|]. intros _. apply keeps_write_bytes. intros i j k' b'.
  apply preserves_bind; [preserving|intros; apply Hf].
Qed.
Lemma keeps_write_int N off v : keeps (write_int LE N off v).
Proof. apply keeps_write_bytes. intros i j k b. preserving. Qed.
Lemma keeps_write_c off v : keeps (write_c LE off v).
Proof.
  intros k b. unfold write_c. assert (Hg : keeps (write_general LE (write8_v off) (λ idx v, write8_v (u32 (off + idx)) v) v)).
  { apply keeps_write_general; intros; intros ??; preserving. }
  destruct v as [w v| | | | | | | | | |]; try apply Hg. apply preserves_if; [|apply Hg].
  repeat case_match; try apply keeps_write_int; preserving.
Qed.
Lemma keeps_write_e off v : keeps (write_e CAO LE off v).
Proof.
  intros k b. unfold write_e, write8_at. apply preserves_bind; [preserving|]. intros o.
  assert (Hg : keeps (write_general LE (write8_e o) (λ idx v, c ← build (Constant_create idx Int32); a ← build (AddExpr_make CAO o c); write8_e a v) v)).
  { apply keeps_write_general; intros; intros ??; preserving. }
  destruct o; try apply Hg. apply preserves_bind; [preserving|]. intros. apply keeps_write_c.
Qed.
Lemma keeps_initializeToZero : keeps initializeToZero.
Proof. intros k b. unfold initializeToZero, makeConcrete. preserving. Qed.
Lemma keeps_initializeToRandom : keeps initializeToRandom.
Proof. intros k b. unfold initializeToRandom, makeConcrete. preserving. Qed.

Lemma keeps_done {A} (f : O A) s n a s' n' : keeps f → f (mkObjw s n) = Done a (mkObjw s' n') →
  copyOnWriteOwner s' = copyOnWriteOwner s ∧ readOnly s' = readOnly s.
Proof. intros Hf E. specialize (Hf _ _ (mkObjw s n) (conj eq_refl eq_refl)). unfold wlp in Hf. by rewrite E in Hf. Qed.
End Keeps.


Definition binding (s : AddressSpace) : gmap Z ObjectPair := to_map object_key (objects s).

(** ** The invariant *)
(** An object state that a space owns is bound in no other space, and an object state
    is bound at one address only; owners are positive and at most the key of each space
    that binds them.  [RO]: there may be read-only objects. *)
Record inv (RO : bool) (c : Z) (m : mem) : Prop := mkInv {
  inv_heap : ∀ o s, heap m !! o = Some s → (o < next_os m)%nat ∧ object_ok s ∧ (RO = false → readOnly s = false);
  inv_space : ∀ i s, spaces m !! i = Some s → (i < next_as m)%nat ∧ 1 ≤ cowKey s ≤ c ∧ avl (objects s) ∧ ordered object_key (objects s);
  inv_bound : ∀ i s k p, spaces m !! i = Some s → binding s !! k = Some p →
    ∃ o, heap m !! p.2 = Some o ∧ 1 ≤ copyOnWriteOwner o ≤ cowKey s;
  inv_key : ∀ i j s t k k' p q, spaces m !! i = Some s → spaces m !! j = Some t →
    binding s !! k = Some p → binding t !! k' = Some q → p.2 = q.2 → k = k';
  inv_excl : ∀ i j s t k k' p q o, spaces m !! i = Some s → spaces m !! j = Some t →
    binding s !! k = Some p → binding t !! k' = Some q → p.2 = q.2 →
    heap m !! p.2 = Some o → copyOnWriteOwner o = cowKey s → i = j
}.

Lemma space_replace s mo o : avl (objects s) → ordered object_key (objects s) →
  let s' := set_objects (ImmutableTree.replace object_key (mo, o) (objects s)) s in
  avl (objects s') ∧ ordered object_key (objects s') ∧ binding s' = <[mo_address mo := (mo, o)]> (binding s).
Proof.
  intros Ha Ho. destruct (holds_replace object_key (mo, o) (objects s) (binding s)) as (H1 & H2 & H3); [done|]. by split_and!.
Qed.
Lemma space_remove s mo : avl (objects s) → ordered object_key (objects s) →
  let s' := set_objects (ImmutableTree.remove object_key (mo_address mo) (objects s)) s in
  avl (objects s') ∧ ordered object_key (objects s') ∧ binding s' = delete (mo_address mo) (binding s).
Proof.
  intros Ha Ho. destruct (holds_remove object_key (mo_address mo) (objects s) (binding s)) as (H1 & H2 & H3); [done|]. by split_and!.
Qed.

Lemma inv_arrays RO c m n : inv RO c m → inv RO c (set_arrays n m).
Proof. by intros []; constructor. Qed.

(** An object state changes in place. *)
Lemma inv_update RO c m o s s' : inv RO c m → heap m !! o = Some s → object_ok s' → readOnly s' = readOnly s →
  copyOnWriteOwner s' = copyOnWriteOwner s → inv RO c (set_heap (<[o := s']> (heap m)) m).
Proof.
  intros [Hh Hs Hb Hk Hx] Ho Hok Hro Hown.
  assert (Hl : ∀ x y, <[o := s']> (heap m) !! x = Some y → ∃ z, heap m !! x = Some z ∧ copyOnWriteOwner y = copyOnWriteOwner z).
  { intros x y. destruct (decide (o = x)) as [->|]; [rewrite lookup_insert_eq|rewrite lookup_insert_ne by done]; [intros [= <-]|]; eauto. }
  constructor; cbn; [|done| |done|].
  - intros x y. destruct (decide (o = x)) as [->|]; [rewrite lookup_insert_eq|rewrite lookup_insert_ne by done; eauto].
    intros [= <-]. split; [by apply (Hh x s)|]. split; [done|]. rewrite Hro. apply (Hh x s Ho).
  - intros i t k p Hi Hp. destruct (Hb i t k p Hi Hp) as (y & Hy & Hr). destruct (decide (o = p.2)) as [->|].
    + exists s'. rewrite lookup_insert_eq. split; [done|]. rewrite Hown. by simplify_eq.
    + exists y. by rewrite lookup_insert_ne.
  - intros i j t u k k' p q y Hi Hj Hp Hq E Hy Hc. destruct (Hl _ _ Hy) as (z & Hz & E'). eapply (Hx i j); eauto. congruence.
Qed.

(** The binding of a new object state that the space owns. *)
Definition new_binding (m : mem) (i : asid) (s : AddressSpace) (mo : MemoryObject) (o : ObjectState) : mem :=
  mkMem (<[next_os m := o]> (heap m)) (<[i := set_objects (ImmutableTree.replace object_key (mo, next_os m) (objects s)) s]> (spaces m))
    (S (next_os m)) (next_as m) (arrays m) (process m).

Lemma heap_fresh RO c m : inv RO c m → heap m !! next_os m = None.
Proof. intros H. destruct (heap m !! next_os m) as [s|] eqn:E; [|done]. destruct (inv_heap _ _ _ H _ _ E). lia. Qed.
Lemma bound_old RO c m i s k p : inv RO c m → spaces m !! i = Some s → binding s !! k = Some p → p.2 ≠ next_os m.
Proof. intros H Hi Hp E. destruct (inv_bound _ _ _ H _ _ _ _ Hi Hp) as (o & Ho & _). rewrite E, (heap_fresh _ _ _ H) in Ho. done. Qed.

(** Looking up a binding after [new_binding]. *)
Lemma new_binding_lookup RO c m i s mo o j t k p : inv RO c m → spaces m !! i = Some s →
  spaces (new_binding m i s mo o) !! j = Some t → binding t !! k = Some p →
  (i = j ∧ k = mo_address mo ∧ p = (mo, next_os m) ∧ cowKey t = cowKey s) ∨
  (∃ t', spaces m !! j = Some t' ∧ binding t' !! k = Some p ∧ cowKey t' = cowKey t ∧ (i = j → k ≠ mo_address mo)).
Proof.
  intros H Hi. cbn. destruct (inv_space _ _ _ H _ _ Hi) as (_ & _ & Ha & Ho).
  destruct (space_replace s mo (next_os m) Ha Ho) as (_ & _ & Hb).
  destruct (decide (i = j)) as [<-|Hij]; [rewrite lookup_insert_eq; intros [= <-]|rewrite lookup_insert_ne by done; eauto 10].
  rewrite Hb. destruct (decide (k = mo_address mo)) as [->|Hk]; [rewrite lookup_insert_eq|rewrite lookup_insert_ne by done].
  - intros [= <-]. by left.
  - intros Hp. right. exists s. by split_and!.
Qed.

Lemma inv_new_binding RO c m i s mo o : inv RO c m → spaces m !! i = Some s → object_ok o → (RO = false → readOnly o = false) →
  copyOnWriteOwner o = cowKey s → inv RO c (new_binding m i s mo o).
Proof.
  intros H Hi Hok Hro Hown. pose proof (heap_fresh _ _ _ H) as Hf. destruct (inv_space _ _ _ H _ _ Hi) as (Hlt & Hc & Ha & Ho).
  destruct (space_replace s mo (next_os m) Ha Ho) as (Ha' & Ho' & Hb).
  assert (Hold : ∀ x y, heap m !! x = Some y → <[next_os m := o]> (heap m) !! x = Some y).
  { intros x y Hx. rewrite lookup_insert_ne; [done|]. by intros <-; rewrite Hf in Hx. }
  pose proof (λ j t k p, new_binding_lookup RO c m i s mo o j t k p H Hi) as Hl. constructor.
  - intros x y. cbn. destruct (decide (next_os m = x)) as [<-|]; [rewrite lookup_insert_eq|rewrite lookup_insert_ne by done].
    + intros [= <-]. split; [lia|done].
    + intros Hx. destruct (inv_heap _ _ _ H _ _ Hx). split; [lia|done].
  - intros j t. cbn. destruct (decide (i = j)) as [<-|]; [rewrite lookup_insert_eq|rewrite lookup_insert_ne by done; apply (inv_space _ _ _ H)].
    by intros [= <-].
  - intros j t k p Hj Hp. destruct (Hl _ _ _ _ Hj Hp) as [(<- & -> & -> & Et)|(t' & Hj' & Hp' & Et & _)]; cbn.
    + exists o. rewrite lookup_insert_eq, Et, Hown. split; [done|lia].
    + destruct (inv_bound _ _ _ H _ _ _ _ Hj' Hp') as (y & Hy & Hr). exists y. split; [by apply Hold|lia].
  - intros j j' t u k k' p q Hj Hj' Hp Hq E.
    destruct (Hl _ _ _ _ Hj Hp) as [(<- & -> & -> & _)|(t' & Hj2 & Hp2 & _)], (Hl _ _ _ _ Hj' Hq) as [(<- & -> & -> & _)|(u' & Hj3 & Hq2 & _)].
    + done.
    + exfalso. eapply bound_old; [exact H|exact Hj3|exact Hq2|]. by rewrite <-E.
    + exfalso. eapply bound_old; [exact H|exact Hj2|exact Hp2|]. by rewrite E.
    + by eapply (inv_key _ _ _ H); [exact Hj2|exact Hj3|..].
  - intros j j' t u k k' p q y Hj Hj' Hp Hq E Hy Hc'.
    destruct (Hl _ _ _ _ Hj Hp) as [(<- & -> & -> & _)|(t' & Hj2 & Hp2 & Et & _)], (Hl _ _ _ _ Hj' Hq) as [(<- & -> & -> & _)|(u' & Hj3 & Hq2 & _)].
    + done.
    + exfalso. eapply bound_old; [exact H|exact Hj3|exact Hq2|]. by rewrite <-E.
    + exfalso. eapply bound_old; [exact H|exact Hj2|exact Hp2|]. by rewrite E.
    + cbn in Hy. rewrite lookup_insert_ne in Hy by (intros Ex; eapply bound_old; [exact H|exact Hj2|exact Hp2|by rewrite Ex]).
      eapply (inv_excl _ _ _ H); [exact Hj2|exact Hj3|exact Hp2|exact Hq2|done|exact Hy|congruence].
Qed.

Lemma inv_unbind RO c m i s mo : inv RO c m → spaces m !! i = Some s →
  inv RO c (set_space i (set_objects (ImmutableTree.remove object_key (mo_address mo) (objects s)) s) m).
Proof.
  intros H Hi. destruct (inv_space _ _ _ H _ _ Hi) as (Hlt & Hc & Ha & Ho). destruct (space_remove s mo Ha Ho) as (Ha' & Ho' & Hb).
  assert (Hl : ∀ j t k p, <[i := set_objects (ImmutableTree.remove object_key (mo_address mo) (objects s)) s]> (spaces m) !! j = Some t →
    binding t !! k = Some p → ∃ t', spaces m !! j = Some t' ∧ binding t' !! k = Some p ∧ cowKey t' = cowKey t).
  { intros j t k p. destruct (decide (i = j)) as [<-|]; [rewrite lookup_insert_eq; intros [= <-]|rewrite lookup_insert_ne by done; eauto].
    rewrite Hb. intros [_ Hp]%lookup_delete_Some. eauto. }
  constructor; cbn.
  - apply (inv_heap _ _ _ H).
  - intros j t. destruct (decide (i = j)) as [<-|]; [rewrite lookup_insert_eq|rewrite lookup_insert_ne by done; apply (inv_space _ _ _ H)].
    by intros [= <-].
  - intros j t k p Hj Hp. destruct (Hl _ _ _ _ Hj Hp) as (t' & Hj' & Hp' & <-). by eapply (inv_bound _ _ _ H).
  - intros j j' t u k k' p q Hj Hj' Hp Hq. destruct (Hl _ _ _ _ Hj Hp) as (t' & Hj2 & Hp2 & _), (Hl _ _ _ _ Hj' Hq) as (u' & Hj3 & Hq2 & _).
    by eapply (inv_key _ _ _ H); [exact Hj2|exact Hj3|..].
  - intros j j' t u k k' p q y Hj Hj' Hp Hq. destruct (Hl _ _ _ _ Hj Hp) as (t' & Hj2 & Hp2 & <-), (Hl _ _ _ _ Hj' Hq) as (u' & Hj3 & Hq2 & _).
    by eapply (inv_excl _ _ _ H); [exact Hj2|exact Hj3|exact Hp2|..].
Qed.

(** The state after a fork. *)
Definition forked (m : mem) (i : asid) (s : AddressSpace) : mem :=
  let s' := mkAS (u32 (cowKey s + 1)) (objects s) in
  mkMem (heap m) (<[next_as m := s']> (<[i := s']> (spaces m))) (next_os m) (S (next_as m)) (arrays m) (process m).

Lemma forked_lookup RO c m i s j t : inv RO c m → spaces m !! i = Some s → spaces (forked m i s) !! j = Some t →
  ((j = i ∨ j = next_as m) ∧ t = mkAS (u32 (cowKey s + 1)) (objects s)) ∨ (j ≠ i ∧ j ≠ next_as m ∧ spaces m !! j = Some t).
Proof.
  intros H Hi. destruct (inv_space _ _ _ H _ _ Hi) as (Hlt & _). cbn.
  destruct (decide (next_as m = j)) as [<-|]; [rewrite lookup_insert_eq; intros [= <-]; auto|rewrite lookup_insert_ne by done].
  destruct (decide (i = j)) as [<-|]; [rewrite lookup_insert_eq; intros [= <-]; auto|rewrite lookup_insert_ne by done; auto].
Qed.

Lemma inv_fork RO c m i s : inv RO c m → c < 2 ^ 32 - 1 → spaces m !! i = Some s → inv RO (c + 1) (forked m i s).
Proof.
  intros H Hc32 Hi. destruct (inv_space _ _ _ H _ _ Hi) as (Hlt & Hc & Ha & Ho).
  assert (Ek : u32 (cowKey s + 1) = cowKey s + 1) by (apply wrapu_small; lia).
  pose proof (λ j t, forked_lookup RO c m i s j t H Hi) as Hl. rewrite Ek in Hl.
  assert (Hold : ∀ j t k p, spaces (forked m i s) !! j = Some t → binding t !! k = Some p → ∃ j' t', spaces m !! j' = Some t' ∧
    binding t' !! k = Some p ∧ (j' = j ∧ t' = t ∧ j ≠ i ∨ j' = i ∧ t' = s ∧ cowKey t = cowKey s + 1)).
  { intros j t k p Hj Hp. destruct (Hl _ _ Hj) as [[Hji ->]|(Hji & _ & Hj')]; [exists i, s|exists j, t]; split_and!; auto. }
  constructor.
  - apply (inv_heap _ _ _ H).
  - intros j t Hj. cbn [next_as forked]. destruct (Hl _ _ Hj) as [[Hji ->]|(Hji & _ & Hj')].
    + cbn. split; [destruct Hji; subst; lia|]. split; [lia|done].
    + destruct (inv_space _ _ _ H _ _ Hj') as (? & ? & ?). split; [lia|]. split; [lia|done].
  - intros j t k p Hj Hp. destruct (Hold _ _ _ _ Hj Hp) as (j' & t' & Hj' & Hp' & Hc'). destruct (inv_bound _ _ _ H _ _ _ _ Hj' Hp') as (o & ? & ?).
    exists o. split; [done|]. destruct Hc' as [(_ & -> & _)|(_ & -> & ->)]; lia.
  - intros j j' t u k k' p q Hj Hj' Hp Hq. destruct (Hold _ _ _ _ Hj Hp) as (j2 & t' & Hj2 & Hp2 & _), (Hold _ _ _ _ Hj' Hq) as (j3 & u' & Hj3 & Hq2 & _).
    by eapply (inv_key _ _ _ H); [exact Hj2|exact Hj3|..].
  - intros j j' t u k k' p q y Hj Hj' Hp Hq E Hy Hown.
    destruct (Hold _ _ _ _ Hj Hp) as (j2 & t' & Hj2 & Hp2 & C2), (Hold _ _ _ _ Hj' Hq) as (j3 & u' & Hj3 & Hq2 & C3).
    destruct (inv_bound _ _ _ H _ _ _ _ Hj2 Hp2) as (y' & Hy' & Hr). cbn in Hy. simplify_eq.
    destruct C2 as [(-> & -> & Hji)|(-> & -> & Ec)]; [|lia].
    assert (j = j3) as <- by by eapply (inv_excl _ _ _ H); [exact Hj2|exact Hj3|exact Hp2|exact Hq2|..].
    by destruct C3 as [(-> & _)|(-> & _)].
Qed.

(** ** Contents *)
(** A memory per space: the size and the bytes of the object at each address, and the
    number of the next space.  Spaces that are left out may hold anything. *)
Definition spaces_spec : Type := gmap asid (gmap Z (Z * memory)) * asid.

Definition cell_rel (env : assignment) (m : mem) (p : ObjectPair) (c : Z * memory) : Prop :=
  ∃ o, heap m !! p.2 = Some o ∧ os_size o = c.1 ∧ rep env o c.2.
Definition space_rel env m (s : AddressSpace) (g : gmap Z (Z * memory)) : Prop :=
  ∀ k, option_Forall2 (cell_rel env m) (binding s !! k) (g !! k).
Definition rel (env : assignment) (m : mem) (a : spaces_spec) : Prop :=
  next_as m = a.2 ∧ ∀ i g, a.1 !! i = Some g → ∃ s, spaces m !! i = Some s ∧ space_rel env m s g.

Lemma rel_space env m a i g : rel env m a → a.1 !! i = Some g → ∃ s, spaces m !! i = Some s ∧ space_rel env m s g.
Proof. intros [_ H]. apply H. Qed.
Lemma rel_cell env m s g k c : space_rel env m s g → g !! k = Some c → ∃ p, binding s !! k = Some p ∧ cell_rel env m p c.
Proof. intros H Hg. specialize (H k). rewrite Hg in H. inversion H; eauto. Qed.

Lemma option_Forall2_mono {A B} (R R' : A → B → Prop) x y :
  (∀ a b, x = Some a → y = Some b → R a b → R' a b) → option_Forall2 R x y → option_Forall2 R' x y.
Proof. intros H HR. destruct HR; constructor; auto. Qed.

(** Any change of the heap that keeps the cells. *)
Lemma rel_mono env m m' a : spaces m' = spaces m → next_as m' = next_as m →
  (∀ i s k p c, spaces m !! i = Some s → binding s !! k = Some p → cell_rel env m p c → cell_rel env m' p c) →
  rel env m a → rel env m' a.
Proof.
  intros Es En Hc [Hn H]. split; [congruence|]. intros i g Hg. destruct (H i g Hg) as (s & Hs & HR). exists s. rewrite Es. split; [done|].
  intros k. eapply option_Forall2_mono; [|apply HR]. eauto.
Qed.

Lemma rel_update env m a o s s' n : heap m !! o = Some s → os_size s' = os_size s → (∀ mem, rep env s mem → rep env s' mem) →
  rel env m a → rel env (set_arrays n (set_heap (<[o := s']> (heap m)) m)) a.
Proof.
  intros Ho Hz Hr. apply rel_mono; [done|done|]. intros i t k p c Hi Hp (y & Hy & Ez & Hrep). unfold cell_rel. cbn.
  destruct (decide (o = p.2)) as [->|]; [rewrite lookup_insert_eq|rewrite lookup_insert_ne by done; eauto].
  exists s'. simplify_eq. split; [done|]. split; [congruence|auto].
Qed.

(** The cell at one address of one space changes, and no other cell. *)
Lemma rel_set env m m' a i s s' g k0 p0 c0 : spaces m !! i = Some s → a.1 !! i = Some g → rel env m a →
  spaces m' = <[i := s']> (spaces m) → next_as m' = next_as m →
  binding s' = <[k0 := p0]> (binding s) → cell_rel env m' p0 c0 →
  (∀ j t k p c, spaces m !! j = Some t → binding t !! k = Some p → ¬ (j = i ∧ k = k0) → cell_rel env m p c → cell_rel env m' p c) →
  rel env m' (<[i := <[k0 := c0]> g]> a.1, a.2).
Proof.
  intros Hi Hg [Hn H] Es En Hb Hc Hcs. split; [cbn; congruence|]. intros j g'. rewrite Es. cbn.
  destruct (decide (i = j)) as [<-|Hij].
  - rewrite !lookup_insert_eq. intros [= <-]. exists s'. split; [done|]. intros k. rewrite Hb. destruct (decide (k0 = k)) as [<-|Hk].
    + rewrite !lookup_insert_eq. by constructor.
    + rewrite !lookup_insert_ne by done. destruct (H i g Hg) as (s1 & E1 & H'). simplify_eq.
      eapply option_Forall2_mono; [|apply H']. intros. eapply (Hcs i); naive_solver.
  - rewrite !lookup_insert_ne by done. intros Hg'. destruct (H j g' Hg') as (t & Ht & HR). exists t. split; [done|]. intros k.
    eapply option_Forall2_mono; [|apply HR]. intros. eapply (Hcs j); naive_solver.
Qed.

Lemma rel_new_binding RO c env m a i s g mo o : inv RO c m → spaces m !! i = Some s → a.1 !! i = Some g → rel env m a →
  ∀ mem, rep env o mem → rel env (new_binding m i s mo o) (<[i := <[mo_address mo := (os_size o, mem)]> g]> a.1, a.2).
Proof.
  intros H Hi Hg HR mem Hrep. destruct (inv_space _ _ _ H _ _ Hi) as (_ & _ & Ha & Ho).
  eapply rel_set; [exact Hi|exact Hg|exact HR|reflexivity|reflexivity|by apply space_replace| |].
  - exists o. cbn. by rewrite lookup_insert_eq.
  - intros j t k p x Hj Hp _ (y & Hy & Hxy). exists y. split; [|done]. cbn. rewrite lookup_insert_ne; [done|].
    intros E. by eapply (bound_old RO c m j); [..|symmetry].
Qed.

Lemma rel_unbind env m a i s g mo : avl (objects s) → ordered object_key (objects s) →
  spaces m !! i = Some s → a.1 !! i = Some g → rel env m a →
  rel env (set_space i (set_objects (ImmutableTree.remove object_key (mo_address mo) (objects s)) s) m)
    (<[i := delete (mo_address mo) g]> a.1, a.2).
Proof.
  intros Ha Ho Hi Hg [Hn H]. split; [done|]. intros j g'. cbn. destruct (decide (i = j)) as [<-|Hij].
  - rewrite !lookup_insert_eq. intros [= <-]. eexists. split; [done|]. intros k. destruct (space_remove s mo Ha Ho) as (_ & _ & ->).
    destruct (H i g Hg) as (s1 & E1 & H'). simplify_eq. destruct (decide (mo_address mo = k)) as [<-|].
    + rewrite !lookup_delete_eq. constructor.
    + rewrite !lookup_delete_ne by done. apply H'.
  - rewrite !lookup_insert_ne by done. apply H.
Qed.

Lemma rel_fork env m a i s g : spaces m !! i = Some s → a.1 !! i = Some g → rel env m a →
  rel env (forked m i s) (<[a.2 := g]> a.1, S a.2).
Proof.
  intros Hi Hg [Hn H]. split; [cbn; by rewrite Hn|]. intros j g'. cbn. rewrite Hn. destruct (H i g Hg) as (s1 & E1 & H'). simplify_eq.
  destruct (decide (a.2 = j)) as [<-|]; [rewrite !lookup_insert_eq; intros [= <-]; by eexists|rewrite !(lookup_insert_ne _ a.2) by done].
  destruct (decide (i = j)) as [<-|]; [rewrite lookup_insert_eq, Hg; intros [= <-]; by eexists|rewrite lookup_insert_ne by done; apply H].
Qed.

(** ** Steps *)
Lemma object_ok_owner k s : object_ok s → object_ok (set_owner k s).
Proof. intros [Hs Hb]. split; [keep_shape|exact Hb]. Qed.
Lemma copy_ok k s c : object_ok s → copy_ObjectState s tt = Done c tt →
  object_ok (set_owner k c) ∧ readOnly c = false ∧ os_size c = os_size s ∧ ∀ env mem, rep env s mem → rep env (set_owner k c) mem.
Proof.
  intros [Hs Hb]. unfold copy_ObjectState. destruct (readOnly s) eqn:Er; [done|]. cbn. intros [= <-].
  split; [|by split_and!]. split; [keep_shape|exact Hb].
Qed.

Lemma run_os_done {A} o (f : O A) m s a s' n' : heap m !! o = Some s → f (mkObjw s (arrays m)) = Done a (mkObjw s' n') →
  run_os o f m = Done a (set_arrays n' (set_heap (<[o := s']> (heap m)) m)).
Proof. intros Hs E. unfold run_os, get_os, mbind, M_bind, get, zoom. cbn. rewrite Hs. cbn. by rewrite E. Qed.

Section Steps.
Context `{HA : !APInt, HC : !ExprCompare} (CAO LE UCA : bool).

(** What a new object holds. *)
Inductive contents : Type := Zeroes | Junk | Symbolic (array : Array).
Inductive as_op : Type :=
| Bind (i : asid) (mo : MemoryObject) (junk : list Z) (c : contents)
| Unbind (i : asid) (mo : MemoryObject)
| Fork (i : asid)
| LoadAt (i : asid) (mo : MemoryObject) (off : Expr) (w : Z)
| StoreAt (i : asid) (mo : MemoryObject) (off value : Expr).

Definition as_step (op : as_op) : M mem (option Expr) :=
  match op with
  | Bind i mo junk (Symbolic a) => bindObjectInState UCA i mo (Some a) junk;; mret None
  | Bind i mo junk Zeroes => os ← bindObjectInState UCA i mo None junk; run_os os initializeToZero;; mret None
  | Bind i mo junk Junk => os ← bindObjectInState UCA i mo None junk; run_os os initializeToRandom;; mret None
  | Unbind i mo => unbindObject i mo;; mret None
  | Fork i => copy_AddressSpace i;; mret None
  | LoadAt i mo off w => o ← findObject i mo; os ← deref o; e ← access_read CAO LE os off w; mret (Some e)
  | StoreAt i mo off v => o ← findObject i mo; os ← deref o; r ← access_write CAO LE i mo os off v; deref r;; mret None
  end.
Fixpoint as_run (ops : list as_op) : M mem (list (option Expr)) :=
  match ops with [] => mret [] | op :: ops => r ← as_step op; rs ← as_run ops; mret (r :: rs) end.

(** The same on one memory per space. *)
Definition contents_bytes (env : assignment) (c : contents) : memory :=
  match c with Zeroes => λ _, 0 | Junk => λ _, 171 | Symbolic a => λ i, u8 (env a i) end.
Definition spec_step (env : assignment) (op : as_op) (a : spaces_spec) : option (option Z * spaces_spec) :=
  match op with
  | Bind i mo _ c => g ← a.1 !! i; Some (None, (<[i := <[mo_address mo := (mo_size mo, contents_bytes env c)]> g]> a.1, a.2))
  | Unbind i mo => g ← a.1 !! i; Some (None, (<[i := delete (mo_address mo) g]> a.1, a.2))
  | Fork i => g ← a.1 !! i; Some (None, (<[a.2 := g]> a.1, S a.2))
  | LoadAt i mo off w =>
    g ← a.1 !! i; c ← g !! mo_address mo;
    x ← mem_read LE (address off) c.1 w env c.2; Some (Some x, a)
  | StoreAt i mo off v =>
    g ← a.1 !! i; c ← g !! mo_address mo;
    mem' ← mem_write LE (address off) (λ env, eval env v) c.1 (getWidth v) env c.2;
    Some (None, (<[i := <[mo_address mo := (c.1, mem')]> g]> a.1, a.2))
  end.
Fixpoint spec_run (env : assignment) (ops : list as_op) (a : spaces_spec) : option (list (option Z) * spaces_spec) :=
  match ops with
  | [] => Some ([], a)
  | op :: ops => p ← spec_step env op a; q ← spec_run env ops p.2; Some (p.1 :: q.1, q.2)
  end.

(** Well-formed operands. *)
Definition op_ok (op : as_op) : Prop :=
  match op with
  | Bind _ mo junk c => 0 ≤ mo_size mo < 2 ^ 32 - 31 ∧ length junk = Z.to_nat (mo_size mo) ∧ Forall (bits 8) junk ∧
      match c with Symbolic a => wf_array a ∧ arr_size a = mo_size mo ∧ isSymbolicArray a = true | _ => True end
  | LoadAt _ _ off w => access_width w ∧ nbytes w < 2 ^ 32 ∧ wf off ∧ offset_ok off
  | StoreAt _ _ off v => write_width (getWidth v) ∧ nbytes (getWidth v) < 2 ^ 32 ∧ wf v ∧ wf off ∧ offset_ok off
  | _ => True
  end.

Lemma within_const_inside env off N size o : wf off → within size N (address off) env = Some o → const_inside size N off.
Proof.
  intros Hoff Hw v Ev. unfold within in Hw. destruct (address off env) as [x|] eqn:Ex; [|done]. cbn in Hw. case_decide as Hd; [|done].
  destruct (ZExtExpr_builds off Int32 Hoff ltac:(lia)) as (e & Ee & _ & _ & Hv). rewrite Ev in Ee. injection Ee as <-.
  unfold address in Ex. destruct (eval env off) as [y|] eqn:Ey; [|done]. cbn in Ex. injection Ex as <-.
  specialize (Hv env (u32 y)). cbn in Hv. rewrite Ey in Hv. specialize (Hv eq_refl). injection Hv as ->. lia.
Qed.

(** Binding a new object state. *)
Lemma bindObject_run RO c m i s mo o n : inv RO c m → spaces m !! i = Some s → copyOnWriteOwner o = 0 →
  (modify (set_arrays n);; os ← alloc_os o; bindObject i mo os;; mret os) m =
  Done (next_os m) (set_arrays n (new_binding m i s mo (set_owner (cowKey s) o))).
Proof.
  intros H Hi Ho. unfold bindObject, alloc_os, get_os, put_os, get_space, mbind, M_bind, get, put, modify, mret, M_ret, deref. cbn.
  rewrite lookup_insert_eq. cbn. rewrite Ho. cbn. rewrite Hi. unfold new_binding, set_heap, set_space, set_arrays. cbn. by rewrite insert_insert_eq.
Qed.

Lemma fill_run s n v : shape s → bits 8 v →
  let s' := set_store (replicate (Z.to_nat (os_size s)) v) (set_known None (set_fmask None (set_cmask None s))) in
  (makeConcrete;; upd_obj (λ s, set_store (replicate (Z.to_nat (os_size s)) v) s)) (mkObjw s n) = Done tt (mkObjw s' n) ∧
  object_ok s' ∧ ∀ env, rep env s' (λ _, v).
Proof.
  intros Hs Hv s'. split; [done|]. split.
  - split; [|by intros i Hi; split; [|left]]. destruct Hs. constructor; cbn in *; try done; [by rewrite length_replicate|by apply Forall_replicate].
  - intros env i Hi. split; [|done]. intros _. unfold st_at. cbn. apply lookup_total_replicate_2. unfold inside in Hi. cbn in Hi. lia.
Qed.

Lemma fresh_ok mo junk n : 0 ≤ mo_size mo < 2 ^ 32 - 31 → length junk = Z.to_nat (mo_size mo) → Forall (bits 8) junk →
  let o := obj (new_ObjectState UCA mo junk n) in
  object_ok o ∧ os_size o = mo_size mo ∧ copyOnWriteOwner o = 0 ∧ readOnly o = false ∧ ∀ env, rep env o (λ i, junk !!! Z.to_nat i).
Proof.
  intros Hz Hl Hj o. assert (Ho : o = fresh_object mo junk (root o)) by (unfold o, new_ObjectState; by destruct UCA).
  assert (Hr : ∀ a, root o = Some a → wf_array a ∧ arr_size a = mo_size mo).
  { intros a Ha. unfold o, new_ObjectState in Ha. destruct UCA; cbn in Ha; [done|]. injection Ha as <-. split; [|done]. split; [cbn; lia|]. done. }
  rewrite Ho. split_and!; try done.
  split; [by constructor|]. by intros i Hi; split; [|left].
Qed.

Lemma bind_filled RO c m i s mo junk v env g a : inv RO c m → spaces m !! i = Some s → bits 8 v →
  0 ≤ mo_size mo < 2 ^ 32 - 31 → length junk = Z.to_nat (mo_size mo) → Forall (bits 8) junk → rel env m a → a.1 !! i = Some g →
  ∃ m', (os ← bindObjectInState UCA i mo None junk;
    run_os os (makeConcrete;; upd_obj (λ s, set_store (replicate (Z.to_nat (os_size s)) v) s));; mret (None : option Expr)) m = Done None m' ∧
    inv RO c m' ∧ rel env m' (<[i := <[mo_address mo := (mo_size mo, λ _, v)]> g]> a.1, a.2).
Proof.
  intros H Hi Hv Hz Hl Hj HR Hg. destruct (fresh_ok mo junk (arrays m) Hz Hl Hj) as (Hok & Es & Eo & Er & Hrep).
  set (w := new_ObjectState UCA mo junk (arrays m)) in *. set (o := set_owner (cowKey s) (obj w)).
  set (m1 := set_arrays (narrays w) (new_binding m i s mo o)).
  assert (E1 : bindObjectInState UCA i mo None junk m = Done (next_os m) m1) by exact (bindObject_run RO c m i s mo (obj w) (narrays w) H Hi Eo).
  assert (H1 : inv RO c m1) by (apply inv_arrays, inv_new_binding; by (done || apply object_ok_owner)).
  assert (Ho1 : heap m1 !! next_os m = Some o) by (cbn; by rewrite lookup_insert_eq).
  destruct (fill_run o (arrays m1) v) as (E2 & Hok2 & Hrep2); [by apply object_ok_owner|done|].
  set (o' := set_store _ _) in *. rewrite (bind_done _ _ _ _ _ E1), (bind_done _ _ _ _ _ (run_os_done _ _ _ _ _ _ _ Ho1 E2)).
  eexists. split; [reflexivity|]. split.
  - apply inv_arrays. eapply inv_update; [exact H1|exact Ho1|done|reflexivity|done].
  - rewrite <-Es.
    assert (HR1 : rel env (new_binding m i s mo o') (<[i := <[mo_address mo := (os_size o', λ _, v)]> g]> a.1, a.2)).
    { eapply rel_new_binding; [exact H|done|done|done|apply Hrep2]. }
    change (os_size o') with (os_size (obj w)) in HR1. apply (rel_mono env (new_binding m i s mo o')); [reflexivity|reflexivity| |exact HR1].
    intros j t k p x _ _ (y & Hy & Hxy). exists y. split; [|done]. cbn in Hy |- *. by rewrite insert_insert_eq.
Qed.

Lemma bind_symbolic RO c m i s mo junk arr env g a : inv RO c m → spaces m !! i = Some s →
  op_ok (Bind i mo junk (Symbolic arr)) → rel env m a → a.1 !! i = Some g →
  ∃ m', (bindObjectInState UCA i mo (Some arr) junk;; mret (None : option Expr)) m = Done None m' ∧
    inv RO c m' ∧ rel env m' (<[i := <[mo_address mo := (mo_size mo, λ i, u8 (env arr i))]> g]> a.1, a.2).
Proof.
  intros H Hi (Hz & Hl & Hj & Ha & Es & Hsym) HR Hg.
  destruct (new_symbolic_object mo junk arr (arrays m) Hz Hl Hj Ha Es Hsym) as (o & E & Hok & Ez & Hrep).
  assert (Hk : copyOnWriteOwner o = 0 ∧ readOnly o = false).
  { refine (keeps_done (makeSymbolic) _ _ _ _ _ _ E). intros k b. unfold makeSymbolic. apply preserves_bind; [apply preserves_get_obj|].
    intros s0. apply preserves_bind; [apply preserves_assert|]. intros _. apply keeps_for_range. intros x k' b'.
    unfold makeSymbolic_byte. apply preserves_bind; [apply keeps_markByteSymbolic|]. intros _.
    apply preserves_bind; [apply keeps_setKnownSymbolic|]. intros _. apply keeps_markByteFlushed. }
  destruct Hk as [Eo Er].
  assert (E1 : bindObjectInState UCA i mo (Some arr) junk m = Done (next_os m) (set_arrays (arrays m) (new_binding m i s mo (set_owner (cowKey s) o)))).
  { rewrite <-(bindObject_run RO c m i s mo o (arrays m) H Hi Eo). unfold bindObjectInState.
    rewrite (bind_done _ _ _ m m) by done. by rewrite E. }
  rewrite (bind_done _ _ _ _ _ E1). eexists. split; [reflexivity|]. split.
  - apply inv_arrays, inv_new_binding; by (done || apply object_ok_owner).
  - rewrite <-Ez. apply (rel_new_binding RO c env m a i s g mo (set_owner (cowKey s) o)); by (done || apply Hrep).
Qed.

Lemma findObject_run RO c m i s mo p : inv RO c m → spaces m !! i = Some s → binding s !! mo_address mo = Some p →
  findObject i mo m = Done (Some p.2) m.
Proof.
  intros H Hi Hp. unfold findObject, get_space, mbind, M_bind, get, deref. cbn. rewrite Hi. cbn. unfold mret, M_ret.
  destruct (inv_space _ _ _ H _ _ Hi) as (_ & _ & _ & Ho). assert (E : ImmutableTree.lookup object_key (mo_address mo) (objects s) = Some p).
  { etransitivity; [by apply lookup_to_map|exact Hp]. }
  unfold ObjectPair in *. by rewrite E.
Qed.

(** The object state to write to: the bound one if the space owns it, else a copy that
    is bound in its place. *)
Lemma getWriteable_run RO c m i s mo k p o : inv RO c m → spaces m !! i = Some s → binding s !! k = Some p → heap m !! p.2 = Some o → readOnly o = false →
  if cowKey s =? copyOnWriteOwner o then getWriteable i mo p.2 m = Done p.2 m
  else ∃ o', getWriteable i mo p.2 m = Done (next_os m) (new_binding m i s mo o') ∧ object_ok o' ∧ readOnly o' = false ∧
    copyOnWriteOwner o' = cowKey s ∧ os_size o' = os_size o ∧ ∀ env mem, rep env o mem → rep env o' mem.
Proof.
  intros H Hi Hp Ho Er. destruct (inv_heap _ _ _ H _ _ Ho) as (_ & Hok & _).
  unfold getWriteable, get_os, get_space, mbind, M_bind, get, deref. cbn. rewrite Ho. cbn. rewrite Er. cbn. rewrite Hi. cbn.
  destruct (cowKey s =? copyOnWriteOwner o); [done|].
  destruct (copy_ObjectState o tt) as [x []|e u] eqn:Ec; [|unfold copy_ObjectState in Ec; by rewrite Er in Ec].
  destruct (copy_ok (cowKey s) o x Hok Ec) as (H1 & H2 & H3 & H4). exists (set_owner (cowKey s) x). by split_and!.
Qed.

(** A load may change how the object state keeps its bytes. *)
Lemma access_read_run RO c m os off w o : inv RO c m → heap m !! os = Some o → access_width w → nbytes w < 2 ^ 32 → wf off → offset_ok off →
  const_inside (os_size o) (nbytes w) off →
  ∃ e o' n, let m' := set_arrays n (set_heap (<[os := o']> (heap m)) m) in
    access_read CAO LE os off w m = Done e m' ∧ inv RO c m' ∧ os_size o' = os_size o ∧ readOnly o' = readOnly o ∧
    (∀ env mem, rep env o mem → rep env o' mem) ∧ wf e ∧ getWidth e = w ∧
    ∀ env mem x, rep env o mem → mem_read LE (address off) (os_size o) w env mem = Some x → eval env e = Some x.
Proof.
  intros H Ho Hw HN Hoff Hok Hin. destruct (inv_heap _ _ _ H _ _ Ho) as (_ & Hobj & _).
  destruct (read_e_reads CAO LE o (arrays m) off w Hobj Hw Hoff Hok Hin HN) as (e & o' & n & E & Hok' & [Ez Hr] & We & Le & He).
  destruct (keeps_done _ _ _ _ _ _ (keeps_read_e CAO LE off w) E) as [Eo Er]. exists e, o', n. split_and!; try done.
  - exact (run_os_done _ _ _ _ _ _ _ Ho E).
  - apply inv_arrays. eapply inv_update; [exact H|exact Ho|done|congruence|done].
Qed.
Lemma load_sim RO c m env a i mo off w g cl x : inv RO c m → rel env m a → op_ok (LoadAt i mo off w) → a.1 !! i = Some g →
  g !! mo_address mo = Some cl → mem_read LE (address off) cl.1 w env cl.2 = Some x →
  ∃ e m', as_step (LoadAt i mo off w) m = Done (Some e) m' ∧ inv RO c m' ∧ rel env m' a ∧ eval env e = Some x.
Proof.
  intros H HR (Hw & HN & Hoff & Hok) Hg Hcl Hx. destruct (rel_space _ _ _ _ _ HR Hg) as (s & Hi & HS).
  destruct (rel_cell _ _ _ _ _ _ HS Hcl) as (p & Hp & o & Ho & Ez & Hrep).
  rewrite <-Ez in Hx. assert (Hin : const_inside (os_size o) (nbytes w) off).
  { unfold mem_read in Hx. destruct (within _ _ _ _) as [y|] eqn:Ew; [|done]. by eapply within_const_inside. }
  destruct (access_read_run RO c m p.2 off w o H Ho Hw HN Hoff Hok Hin) as (e & o1 & n1 & E & H1 & Ez1 & _ & Hr1 & _ & _ & He).
  exists e. eexists. split; [|split; [exact H1|split]].
  - cbn [as_step]. rewrite (bind_done _ _ _ _ _ (findObject_run RO c m i s mo p H Hi Hp)).
    rewrite (bind_done _ _ _ p.2 m) by done. by rewrite (bind_done _ _ _ _ _ E).
  - eapply rel_update; [exact Ho|exact Ez1|apply Hr1|exact HR].
  - by eapply He.
Qed.

(** The memory after a store to the object state [o] that [p] binds in the space [i]: the binding may have moved to a
    copy, and the other bindings keep their object states. *)
Record stored (i : asid) (s : AddressSpace) (mo : MemoryObject) (p : ObjectPair) (o : ObjectState) (val : assignment → memory → option memory) (m m' : mem)
    (s' : AddressSpace) (q : ObjectPair) (o' : ObjectState) : Prop := mkStored {
  sd_spaces : spaces m' = <[i := s']> (spaces m);
  sd_next : next_as m' = next_as m;
  sd_objects : q = p ∧ s' = s ∨ q.1 = mo ∧ objects s' = ImmutableTree.replace object_key q (objects s);
  sd_binding : binding s' = <[mo_address mo := q]> (binding s);
  sd_object : heap m' !! q.2 = Some o' ∧ os_size o' = os_size o ∧ readOnly o' = false;
  sd_heap x y : heap m !! x = Some y → heap m' !! x = Some y ∨ x = p.2 ∧ q.2 = p.2;
  sd_others j t k r : spaces m !! j = Some t → binding t !! k = Some r → ¬ (j = i ∧ k = mo_address mo) → heap m' !! r.2 = heap m !! r.2;
  sd_rep env mem mem' : rep env o mem → val env mem = Some mem' → rep env o' mem'
}.
Lemma access_write_run RO c m i s mo off v p o : inv RO c m → spaces m !! i = Some s → binding s !! mo_address mo = Some p → heap m !! p.2 = Some o →
  readOnly o = false → op_ok (StoreAt i mo off v) → const_inside (os_size o) (nbytes (getWidth v)) off →
  ∃ m' s' q o', access_write CAO LE i mo p.2 off v m = Done (Some tt) m' ∧ inv RO c m' ∧
    stored i s mo p o (mem_write LE (address off) (λ env, eval env v) (os_size o) (getWidth v)) m m' s' q o'.
Proof.
  intros H Hi Hp Ho Hro (Hw & HN & Hv & Hoff & Hok) Hin. destruct (inv_heap _ _ _ H _ _ Ho) as (_ & Hobj & _).
  destruct (inv_space _ _ _ H _ _ Hi) as (_ & _ & Ha & Hord).
  assert (Hwrite : ∀ q o1 m1, getWriteable i mo p.2 m = Done q m1 → inv RO c m1 → heap m1 !! q = Some o1 → object_ok o1 → readOnly o1 = false → os_size o1 = os_size o →
    ∃ o2 n2, access_write CAO LE i mo p.2 off v m = Done (Some tt) (set_arrays n2 (set_heap (<[q := o2]> (heap m1)) m1)) ∧
      inv RO c (set_arrays n2 (set_heap (<[q := o2]> (heap m1)) m1)) ∧ os_size o2 = os_size o ∧ readOnly o2 = false ∧
      ∀ env mem mem', rep env o1 mem → mem_write LE (address off) (λ env, eval env v) (os_size o) (getWidth v) env mem = Some mem' → rep env o2 mem').
  { intros q o1 m1 Eg H1 Ho1 Hok1 Hro1 Ez1. rewrite <-Ez1 in Hin.
    destruct (write_e_writes CAO LE o1 (arrays m1) off v Hok1 Hv Hw Hoff Hok Hin HN) as (o2 & n2 & E2 & Hok2 & Ez2 & Hr2).
    destruct (keeps_done _ _ _ _ _ _ (keeps_write_e CAO LE off v) E2) as [Eo2 Er2]. exists o2, n2. split; [|split_and!].
    - unfold access_write. rewrite (bind_done _ _ _ o m) by (unfold get_os, mbind, M_bind, get, deref; cbn; by rewrite Ho). rewrite Hro.
      by rewrite (bind_done _ _ _ _ _ Eg), (bind_done _ _ _ _ _ (run_os_done _ _ _ _ _ _ _ Ho1 E2)).
    - apply inv_arrays. eapply inv_update; [exact H1|exact Ho1|done|congruence|done].
    - congruence.
    - congruence.
    - rewrite <-Ez1. exact Hr2. }
  pose proof (getWriteable_run RO c m i s mo _ p o H Hi Hp Ho Hro) as Hgw. destruct (Z.eqb_spec (cowKey s) (copyOnWriteOwner o)) as [Ek|Ek].
  - destruct (Hwrite _ _ _ Hgw H Ho Hobj Hro eq_refl) as (o2 & n2 & Ew & H2 & Ez2 & Er2 & Hr2). eexists _, s, p, o2. split; [exact Ew|]. split; [exact H2|].
    split; cbn; [by rewrite insert_id|done|by left|by rewrite insert_id|by rewrite lookup_insert_eq| | |exact Hr2].
    + intros x y Hx. destruct (decide (p.2 = x)) as [<-|]; [by right|left; by rewrite lookup_insert_ne].
    + intros j t k r Hj Hr Hne. rewrite lookup_insert_ne; [done|]. intros E. apply Hne.
      split; [symmetry; by eapply (inv_excl _ _ _ H i j)|by eapply (inv_key _ _ _ H j i); [..|symmetry]].
  - destruct Hgw as (o1 & Eg & Hok1 & Hro1 & Eo1 & Ez1 & Hrep1). pose proof (heap_fresh _ _ _ H) as Hf.
    destruct (Hwrite _ o1 _ Eg) as (o2 & n2 & Ew & H2 & Ez2 & Er2 & Hr2); [by apply inv_new_binding|cbn; by rewrite lookup_insert_eq|done..|].
    eexists _, _, (mo, next_os m), o2. split; [exact Ew|]. split; [exact H2|].
    split; cbn; [reflexivity|done|by right|by apply space_replace|by rewrite lookup_insert_eq| | |eauto].
    + intros x y Hx. left. rewrite !lookup_insert_ne; [done|by intros <-; rewrite Hf in Hx..].
    + intros j t k r Hj Hr Hne. pose proof (bound_old _ _ _ _ _ _ _ H Hj Hr). by rewrite !lookup_insert_ne.
Qed.
Lemma store_sim RO c m env a i mo off v g cl mem' : inv RO c m → rel env m a → op_ok (StoreAt i mo off v) → a.1 !! i = Some g →
  g !! mo_address mo = Some cl → mem_write LE (address off) (λ env, eval env v) cl.1 (getWidth v) env cl.2 = Some mem' →
  (∀ s p o, spaces m !! i = Some s → binding s !! mo_address mo = Some p → heap m !! p.2 = Some o → readOnly o = false) →
  ∃ m', as_step (StoreAt i mo off v) m = Done None m' ∧ inv RO c m' ∧ rel env m' (<[i := <[mo_address mo := (cl.1, mem')]> g]> a.1, a.2).
Proof.
  intros H HR Hok Hg Hcl Hx Hwr. destruct (rel_space _ _ _ _ _ HR Hg) as (s & Hi & HS).
  destruct (rel_cell _ _ _ _ _ _ HS Hcl) as (p & Hp & o & Ho & Ez & Hrep). rewrite <-Ez in Hx.
  assert (Hin : const_inside (os_size o) (nbytes (getWidth v)) off).
  { unfold mem_write in Hx. destruct (within _ _ _ _) as [y|] eqn:Ew; [|done]. destruct Hok as (_ & _ & _ & Hoff & _). by eapply within_const_inside. }
  destruct (access_write_run RO c m i s mo off v p o H Hi Hp Ho (Hwr s p o Hi Hp Ho) Hok Hin) as (m' & s' & q & o' & Ew & H' & [Es En _ Eb (Ho' & Ez' & _) _ Hoth Hr']).
  exists m'. split; [|split; [done|]].
  - cbn [as_step]. rewrite (bind_done _ _ _ _ _ (findObject_run RO c m i s mo p H Hi Hp)).
    rewrite (bind_done _ _ _ p.2 m) by done. by rewrite (bind_done _ _ _ _ _ Ew).
  - eapply (rel_set env m m' a i s s' g _ q (cl.1, mem')); [exact Hi|exact Hg|exact HR|exact Es|exact En|exact Eb| |].
    + exists o'. split; [done|]. cbn. split; [congruence|by eapply Hr'].
    + intros j t k r x Hj Hr Hne (y & Hy & Hxy). exists y. split; [|done]. by rewrite (Hoth j t k r).
Qed.

(** ** Any step *)
(** An expression and its value, or neither. *)
Definition same_value (env : assignment) : option Expr → option Z → Prop := option_Forall2 (λ e x, eval env e = Some x).

Lemma as_step_sim c m env a op r a' : inv false c m → c < 2 ^ 32 - 1 → rel env m a → op_ok op → spec_step env op a = Some (r, a') →
  ∃ e m', as_step op m = Done e m' ∧ inv false (c + 1) m' ∧ rel env m' a' ∧ same_value env e r.
Proof.
  intros H Hc HR Hok Hs.
  assert (Hmono : ∀ m', inv false c m' → inv false (c + 1) m').
  { intros m' [? Hsp ? ? ?]. constructor; try done. intros j t Hj. destruct (Hsp j t Hj) as (? & ? & ?). split_and!; naive_solver lia. }
  destruct op as [i mo junk ct|i mo|i|i mo off w|i mo off v]; cbn [spec_step] in Hs;
    (destruct (a.1 !! i) as [g|] eqn:Hg; [|done]); cbn in Hs; destruct (rel_space _ _ _ _ _ HR Hg) as (s & Hi & HS).
  - simplify_eq. destruct ct as [| |arr].
    + destruct Hok as (Hz & Hl & Hj & _). destruct (bind_filled false c m i s mo junk 0 env g a) as (m' & E & H1 & H2); try done.
      exists None, m'. split_and!; [exact E|auto|done|by constructor].
    + destruct Hok as (Hz & Hl & Hj & _). destruct (bind_filled false c m i s mo junk 171 env g a) as (m' & E & H1 & H2); try done.
      exists None, m'. split_and!; [exact E|auto|done|by constructor].
    + destruct (bind_symbolic false c m i s mo junk arr env g a) as (m' & E & H1 & H2); try done.
      exists None, m'. split_and!; [exact E|auto|done|by constructor].
  - simplify_eq. destruct (inv_space _ _ _ H _ _ Hi) as (_ & _ & Ha & Ho). exists None. eexists. split_and!; [..|by constructor].
    + cbn [as_step]. unfold unbindObject, get_space, mbind, M_bind, get, deref, modify. cbn. by rewrite Hi.
    + by apply Hmono, inv_unbind.
    + by apply rel_unbind.
  - simplify_eq. exists None. eexists. split_and!; [..|by constructor].
    + cbn [as_step]. unfold copy_AddressSpace, get_space, mbind, M_bind, get, deref, put. cbn. by rewrite Hi.
    + by apply inv_fork.
    + by apply rel_fork.
  - destruct (g !! mo_address mo) as [cl|] eqn:Hcl; [|done]. cbn in Hs. destruct (mem_read _ _ _ _ _ _) as [x|] eqn:Ex; [|done].
    cbn in Hs. simplify_eq. destruct (load_sim false c m env a' i mo off w g cl x) as (e & m' & E & H1 & H2 & H3); try done.
    exists (Some e), m'. split_and!; [done|auto|done|by constructor].
  - destruct (g !! mo_address mo) as [cl|] eqn:Hcl; [|done]. cbn in Hs. destruct (mem_write _ _ _ _ _ _ _) as [x|] eqn:Ex; [|done].
    cbn in Hs. simplify_eq. destruct (store_sim false c m env a i mo off v g cl x) as (m' & E & H1 & H2); try done.
    { intros s0 p o _ _ Ho. by apply (inv_heap _ _ _ H _ _ Ho). }
    exists None, m'. split_and!; [done|auto|done|by constructor].
Qed.

Lemma as_run_sim ops c m env a rs a' : inv false c m → c + Z.of_nat (length ops) < 2 ^ 32 → rel env m a → Forall op_ok ops →
  spec_run env ops a = Some (rs, a') →
  ∃ es m', as_run ops m = Done es m' ∧ rel env m' a' ∧ Forall2 (same_value env) es rs.
Proof.
  revert c m a rs. induction ops as [|op ops IH]; intros c m a rs H Hc HR Hok Hs.
  - cbn in Hs. simplify_eq. exists [], m. split; [done|]. split; [done|constructor].
  - apply Forall_cons in Hok as [Hop Hok]. cbn [spec_run] in Hs. destruct (spec_step env op a) as [[r a1]|] eqn:E1; [|done]. cbn in Hs.
    destruct (spec_run env ops a1) as [[rs1 a2]|] eqn:E2; [|done]. cbn in Hs. simplify_eq. cbn [length] in Hc.
    destruct (as_step_sim c m env a op r a1) as (e & m1 & F1 & H1 & HR1 & Er); [done|lia|done|done|done|].
    destruct (IH (c + 1) m1 a1 rs1) as (es & m2 & F2 & HR2 & Ers); [done|lia|done|done|done|].
    exists (e :: es), m2. cbn [as_run]. rewrite (bind_done _ _ _ _ _ F1), (bind_done _ _ _ _ _ F2). split; [done|]. split; [done|].
    by constructor.
Qed.
End Steps.

(** One empty space. *)
Definition initial_mem : mem := mkMem ∅ {[0%nat := new_AddressSpace]} 0 1 0 (λ _, 0).
Lemma initial_inv : inv false 1 initial_mem.
Proof.
  constructor; cbn.
  - done.
  - intros i s [<- <-]%lookup_singleton_Some. split; [lia|]. split; [cbn; lia|]. split; [done|constructor].
  - intros i s k p [<- <-]%lookup_singleton_Some. done.
  - intros i j s t k k' p q [<- <-]%lookup_singleton_Some _. done.
  - intros i j s t k k' p q o [<- <-]%lookup_singleton_Some _. done.
Qed.
Lemma initial_rel env : rel env initial_mem ({[0%nat := ∅]}, 1%nat).
Proof.
  split; [done|]. cbn. intros i g [<- <-]%lookup_singleton_Some. eexists. split; [apply lookup_singleton_eq|]. intros k. rewrite lookup_empty. constructor.
Qed.

(** C9: (refinement) Address spaces that fork share object states but never see each
    other's writes.  Take any sequence of binding new objects (zeroed, filled or symbolic),
    unbinding, forking a space, loading from and storing to bound objects, at
    concrete and symbolic offsets, over any number of spaces.  Whenever, for an
    assignment, the sequence runs on one plain byte memory per space (a fork copying
    the whole memory), it runs on the shared copy-on-write spaces without failure, and
    every loaded expression evaluates to what the plain memories give.  The number of
    operations is below 2^32 - 1, so that the epoch counter does not wrap. *)
Theorem spaces_isolated `{!APInt, !ExprCompare} (ConstArrayOpt isLittleEndian UseConstantArrays : bool) ops env rs a :
  Z.of_nat (length ops) < 2 ^ 32 - 1 → Forall op_ok ops →
  spec_run isLittleEndian env ops ({[0%nat := ∅]}, 1%nat) = Some (rs, a) →
  ∃ es m, as_run ConstArrayOpt isLittleEndian UseConstantArrays ops initial_mem = Done es m ∧ Forall2 (same_value env) es rs ∧ rel env m a.
Proof.
  intros Hn Hok Hs. destruct (as_run_sim ConstArrayOpt isLittleEndian UseConstantArrays ops 1 initial_mem env ({[0%nat := ∅]}, 1%nat) rs a initial_inv) as (es & m & E & HR & Hv);
    [lia|apply initial_rel|done|done|eauto].
Qed.

(** A byte is written in a space, the space forks, and the child overwrites it at the
    symbolic offset [b2 & 3]; the parent still reads its own. *)
Definition sample_ops : list as_op :=
  [Bind 0 arg_object [0; 0; 0; 0] Zeroes; StoreAt 0 arg_object (Constant 32 1) (Constant 8 7); Fork 0;
   StoreAt 1 arg_object sample_offset (arg_byte 3); LoadAt 0 arg_object (Constant 32 1) 8; LoadAt 1 arg_object (Constant 32 1) 8].
Lemma sample_ops_ok : Forall op_ok sample_ops.
Proof.
  destruct sample_wf as [W1 W2].
  assert (W3 : wf (Constant 32 1)) by by split; [lia|split; lia]. assert (W4 : wf (Constant 8 7)) by by split; [lia|split; lia].
  assert (A8 : access_width 8) by (right; split; [lia|done]). assert (B8 : write_width 8) by (split; [done|naive_solver]).
  assert (O3 : offset_ok (Constant 32 1)) by by intros o [= <-]. assert (O1 : offset_ok sample_offset) by by intros o [= <-].
  repeat apply Forall_cons_2; try apply Forall_nil_2; cbn [op_ok].
  - split_and!; [cbn; lia|cbn; lia|done|repeat constructor; lia|done].
  - by split_and!.
  - done.
  - by split_and!.
  - by split_and!.
  - by split_and!.
Qed.
Lemma spaces_isolated_witness :
  ∃ es m, as_run true true true sample_ops initial_mem = Done es m ∧
    Forall2 (same_value (λ _ i, i - 1)) es [None; None; None; None; Some 7; Some 2].
Proof.
  destruct (spaces_isolated true true true sample_ops (λ _ i, i - 1) _ _ ltac:(vm_compute; reflexivity) sample_ops_ok eq_refl) as (es & m & E & Hv & _).
  exists es, m. split; [exact E|exact Hv].
Defined.
