(* ===== verification/AddressSpaceResolve.v ===== *)
(** * Resolving pointers

    [AddressSpace::resolveOne] and [resolve] find the objects a pointer can point to.
    The solver answers by the assignments that satisfy the path condition; the objects
    of a space do not overlap.  Then the search from an example outwards, which stops
    at an object the pointer must be above or below, misses no object. *)
From S2P Require Import Prelude Expr ExprCreate ExprRefine ExprSums ExprSpec ExprBuild ExprWeight Memory MemorySpec ImmutableTree ImmutableTreeMap ImmutableTreeIter MemoryOps AddressSpace.

(** ** Objects *)
(** The addresses that point into an object; an object of no bytes has its own. *)
Definition contains (mo : MemoryObject) (x : Z) : Prop :=
  if mo_size mo =? 0 then x = mo_address mo else mo_address mo ≤ x < mo_address mo + mo_size mo.

Section Space.
Context (W : Z) (HW : 1 < W ≤ 64) (objs : MemoryMap).

(** The objects lie in memory one after the other. *)
Record space_ok : Prop := mkSpaceOk {
  so_ordered : ordered object_key objs;
  so_placed : ∀ p, p ∈ inorder objs → MemoryOps.placed W p.1 ∧ mo_address p.1 < 2 ^ W;
  so_disjoint : ∀ p q, p ∈ inorder objs → q ∈ inorder objs → mo_address p.1 < mo_address q.1 →
    mo_address p.1 + mo_size p.1 ≤ mo_address q.1
}.
Context (Hok : space_ok).

Lemma same_address p q : p ∈ inorder objs → q ∈ inorder objs → mo_address p.1 = mo_address q.1 → p = q.
Proof.
  intros Hp Hq E. pose proof (so_ordered Hok) as Ho.
  assert (H1 : to_map object_key objs !! object_key p = Some p) by by apply to_map_lookup.
  assert (H2 : to_map object_key objs !! object_key q = Some q) by by apply to_map_lookup.
  unfold object_key in H1, H2. rewrite E in H1. congruence.
Qed.
Lemma contains_low mo x : MemoryOps.placed W mo → contains mo x → mo_address mo ≤ x.
Proof. unfold contains. intros (_ & Hs & _). destruct (mo_size mo =? 0); lia. Qed.
(** A value below the base of a higher object is the end of the lower one. *)
Lemma contains_before p q x : p ∈ inorder objs → q ∈ inorder objs → mo_address p.1 < mo_address q.1 → contains p.1 x → x < mo_address q.1.
Proof.
  intros Hp Hq Hlt Hc. pose proof (so_disjoint Hok p q Hp Hq Hlt). unfold contains in Hc. destruct (Z.eqb_spec (mo_size p.1) 0); lia.
Qed.
Lemma contains_unique p q x : p ∈ inorder objs → q ∈ inorder objs → contains p.1 x → contains q.1 x → p = q.
Proof.
  intros Hp Hq Cp Cq. apply same_address; [done|done|].
  pose proof (contains_low _ _ (proj1 (so_placed Hok p Hp)) Cp). pose proof (contains_low _ _ (proj1 (so_placed Hok q Hq)) Cq).
  destruct (Z.lt_total (mo_address p.1) (mo_address q.1)) as [Hlt|[?|Hlt]]; [|done|].
  - pose proof (contains_before p q x Hp Hq Hlt Cp). lia.
  - pose proof (contains_before q p x Hq Hp Hlt Cq). lia.
Qed.

(** ** Concrete addresses *)
Lemma covers_spec p x : p ∈ inorder objs → mo_address p.1 ≤ x < 2 ^ W →
  (((mo_size p.1 =? 0) && (x =? mo_address p.1) || covers_address p.1 x) = true ↔ contains p.1 x) ∧
  (covers_address p.1 x = true → contains p.1 x).
Proof.
  intros Hp Hx. destruct (so_placed Hok p Hp) as [(H0 & Hs & _ & Hle) Ha]. unfold covers_address, contains.
  rewrite wrapu_small; [|pose proof (Z.pow_le_mono_r 2 W 64); lia].
  destruct (Z.eqb_spec (mo_size p.1) 0) as [E|E]; cbn.
  - rewrite E, (proj2 (Z.ltb_ge _ _)) by lia. rewrite orb_false_r, Z.eqb_eq. done.
  - rewrite Z.ltb_lt. split; lia.
Qed.

Lemma resolveOne_c_spec x q : 0 ≤ x < 2 ^ W → resolveOne_c objs x = Some q ↔ q ∈ inorder objs ∧ contains q.1 x.
Proof.
  intros Hx. unfold resolveOne_c. pose proof (so_ordered Hok) as Ho. rewrite lookup_previous_spec by done.
  set (low := filter (λ p, object_key p ≤ x) (inorder objs)). destruct (last low) as [p|] eqn:El.
  - apply last_Some in El as [l' E]. assert (Hp : p ∈ low) by (rewrite E; apply elem_of_app; right; by left).
    apply list_elem_of_filter in Hp as [Hpx Hp]. unfold object_key in Hpx.
    destruct (covers_spec p x Hp ltac:(lia)) as [Hc _].
    match type of Hc with (?b = true ↔ _) => destruct b end.
    + destruct Hc as [Hc _]. specialize (Hc eq_refl). split; [by intros [= ->]|]. intros [Hq Hcq]. f_equal. by eapply contains_unique.
    + split; [done|]. intros [Hq Hcq]. exfalso. pose proof (contains_low _ _ (proj1 (so_placed Hok q Hq)) Hcq) as Hlow.
      assert (Hq' : q ∈ low) by by apply list_elem_of_filter. rewrite E in Hq'. apply elem_of_app in Hq' as [Hq'|Hq'%list_elem_of_singleton]; [|subst; by apply Hc in Hcq].
      assert (Hs : sorted object_key low) by by apply sorted_filter. rewrite E in Hs. apply sorted_mid in Hs as (_ & _ & Hf & _).
      rewrite Forall_forall in Hf. specialize (Hf _ Hq'). pose proof (contains_before q p x Hq Hp Hf Hcq). lia.
  - split; [done|]. intros [Hq Hcq]. apply last_None in El. pose proof (contains_low _ _ (proj1 (so_placed Hok q Hq)) Hcq) as Hlow.
    assert (Hq' : q ∈ low) by by apply list_elem_of_filter. rewrite El in Hq'. set_solver.
Qed.
End Space.

(** ** The solver *)
Definition defined (sat : assignment → Prop) (e : Expr) : Prop := ∀ env, sat env → is_Some (eval env e).
Definition must (sat : assignment → Prop) (e : Expr) : Prop := ∀ env, sat env → eval env e = Some 1.
Definition may (sat : assignment → Prop) (e : Expr) : Prop := ∃ env, sat env ∧ eval env e = Some 1.
Definition may_not (sat : assignment → Prop) (e : Expr) : Prop := ∃ env, sat env ∧ eval env e = Some 0.

(** The queries that are asked: conditions on arithmetic of at most 64 bits, with a value wherever
    the path condition holds. *)
Definition query_ok (sat : assignment → Prop) (e : Expr) : Prop := wf e ∧ getWidth e = Bool ∧ defined sat e ∧ narrow e.

(** What the resolution relies on: queries return, and when they do not fail their
    answers are right for the assignments that satisfy the path condition.  [solver_inv]
    is what the solver keeps of its own state, [never_fails] what makes it answer every query, [never_late] what
    keeps its timer from expiring. *)
Class SolverRight (S : Type) `{!TimingSolver S} (sat : assignment → Prop) := {
  solver_inv : S → Prop;
  never_fails : Prop;
  never_late : Prop;
  right_value e s : solver_inv s → wf e → narrow e → defined sat e → ∃ r s', ts_getValue e s = Done r s' ∧ solver_inv s' ∧
    (∀ c, r = Some c → ∃ v env, c = Constant (getWidth e) v ∧ sat env ∧ eval env e = Some v) ∧ (never_fails → r ≠ None);
  right_must e s : solver_inv s → query_ok sat e → ∃ r s', ts_mustBeTrue e s = Done r s' ∧ solver_inv s' ∧
    (r = Some true → must sat e) ∧ (r = Some false → may_not sat e) ∧ (never_fails → r ≠ None);
  right_may e s : solver_inv s → query_ok sat e → ∃ r s', ts_mayBeTrue e s = Done r s' ∧ solver_inv s' ∧
    (r = Some true → may sat e) ∧ (r = Some false → ∀ env, sat env → eval env e = Some 0) ∧ (never_fails → r ≠ None);
  right_expired s : solver_inv s → ∃ b s', ts_expired s = Done b s' ∧ solver_inv s' ∧ (never_late → b = false)
}.

(** The checks of a narrow pointer are narrow. *)
Section Narrow.
Context `{HA : !APInt, HC : !ExprCompare} (CAO : bool) (W : Z) (HW : 1 < W ≤ 64).
Lemma narrow_done N m e : small N m → m tt = Done e tt → narrow e.
Proof. unfold small, wlp. intros H E. rewrite E in H. apply H. Qed.
Lemma base_compare_narrow k mo p e : placed W mo → mo_address mo < 2 ^ W → wf p → narrow p → getWidth p = W →
  (b ← getBaseExpr W mo; cmp_make CAO k p b) tt = Done e tt → narrow e.
Proof.
  intros (H0 & Hs & _) Ha Hp Np Wp. assert (Eb : getBaseExpr W mo tt = Done (Constant W (mo_address mo)) tt) by (apply create_small; [lia|split; lia]).
  rewrite (bind_done _ _ _ _ _ Eb). eapply narrow_done, small_at_small, cmp_small; [done|by split; [lia|split; lia]|done|done|done].
Qed.
Lemma offset_narrow mo p o : placed W mo → mo_address mo < 2 ^ W → wf p → narrow p → getWidth p = W →
  getOffsetExpr CAO W mo p tt = Done o tt → wf o ∧ narrow o ∧ getWidth o = W.
Proof.
  intros Hpl Ha Hp Np Wp Eo. destruct (offset_builds CAO W HW mo p Hpl Ha Hp Wp) as (o' & Eo' & Wo & Lo & _). cbn in Lo.
  rewrite Eo in Eo'. injection Eo' as <-. split; [done|]. split; [|congruence]. destruct Hpl as (H0 & Hs & _).
  unfold getOffsetExpr in Eo. assert (Eb : getBaseExpr W mo tt = Done (Constant W (mo_address mo)) tt) by (apply create_small; [lia|split; lia]).
  rewrite (bind_done _ _ _ _ _ Eb) in Eo. eapply narrow_done; [|exact Eo].
  eapply small_at_small, (arith_small CAO KSub); [done|by split; [lia|split; lia]|done|done|lia].
Qed.
Lemma pointer_check_narrow mo p e : placed W mo → mo_address mo < 2 ^ W → wf p → narrow p → getWidth p = W →
  getBoundsCheckPointer CAO W mo p tt = Done e tt → narrow e.
Proof.
  intros Hpl Ha Hp Np Wp. unfold getBoundsCheckPointer. destruct (offset_builds CAO W HW mo p Hpl Ha Hp Wp) as (o & Eo & _).
  destruct (offset_narrow mo p o Hpl Ha Hp Np Wp Eo) as (Wo & No & Lo). rewrite (bind_done _ _ _ _ _ Eo). destruct Hpl as (H0 & Hs & HsW & Hle).
  unfold getBoundsCheckOffset. case_match.
  - unfold Constant_alloc. rewrite wrapu_small by lia. eapply narrow_done, small_at_small, (cmp_small CAO KEq); [done|by split; [lia|split; lia]|done|done|done].
  - unfold getSizeExpr. rewrite (bind_done _ _ _ _ _ (create_small (mo_size mo) W ltac:(lia) ltac:(split; lia))).
    eapply narrow_done, small_at_small, (cmp_small CAO KUlt); [done|by split; [lia|split; lia]|done|done|done].
Qed.
Lemma access_check_narrow mo p bytes e : placed W mo → mo_address mo < 2 ^ W → wf p → narrow p → getWidth p = W → 1 ≤ bytes < 2 ^ 32 →
  getBoundsCheckPointer_bytes CAO W mo p bytes tt = Done e tt → narrow e.
Proof.
  intros Hpl Ha Hp Np Wp Hb. unfold getBoundsCheckPointer_bytes. destruct (offset_builds CAO W HW mo p Hpl Ha Hp Wp) as (o & Eo & _).
  destruct (offset_narrow mo p o Hpl Ha Hp Np Wp Eo) as (Wo & No & Lo). rewrite (bind_done _ _ _ _ _ Eo). destruct Hpl as (H0 & Hs & HsW & Hle).
  unfold getBoundsCheckOffset_bytes. destruct (Z.leb_spec bytes (mo_size mo)); [|by intros [= <-]].
  unfold Constant_alloc. rewrite (wrapu_small 32), (wrapu_small W) by lia.
  eapply narrow_done, small_at_small, (cmp_small CAO KUlt); [done|by split; [lia|split; lia]|done|done|done].
Qed.
End Narrow.

Section Search.
Context `{HA : !APInt, HC : !ExprCompare} (CAO : bool) (W : Z) (HW : 1 < W ≤ 64) {S : Type} `{HT : !TimingSolver S} (sat : assignment → Prop)
  `{HR : !SolverRight S sat} (objs : MemoryMap) (Hok : space_ok W objs) (addr : Expr) (Hwf : wf addr) (Hnar : narrow addr) (Hwidth : getWidth addr = W) (Hdef : defined sat addr).

(** A value of the pointer on this path. *)
Definition points (x : Z) : Prop := ∃ env, sat env ∧ eval env addr = Some x.

Lemma lift_done {A} (m : res A) a (s : S) : m tt = Done a tt → lift_res m s = Done a s.
Proof. intros E. unfold lift_res. by rewrite E. Qed.

(** The three conditions that are asked about an object. *)
Lemma inBounds_query p (s : S) : p ∈ inorder objs → ∃ e, inBounds CAO W p.1 addr s = Done e s ∧ query_ok sat e ∧
  ∀ env x, eval env addr = Some x → (eval env e = Some 1 ↔ contains p.1 x) ∧ (eval env e = Some 0 ↔ ¬ contains p.1 x).
Proof.
  intros Hp. destruct (so_placed _ _ Hok p Hp) as [Hpl Ha]. destruct (pointer_check CAO W HW p.1 addr Hpl Ha Hwf Hwidth) as (e & Ee & We & Le & He).
  exists e. split; [by apply lift_done|]. split; [split_and!; [done|done| |exact (pointer_check_narrow CAO W HW p.1 addr e Hpl Ha Hwf Hnar Hwidth Ee)]|].
  - intros env Hs. destruct (Hdef env Hs) as [x Ex]. rewrite (He env x Ex). eauto.
  - intros env x Ex. rewrite (He env x Ex). unfold contains. destruct (mo_size p.1 =? 0).
    + destruct (Z.eqb_spec x (mo_address p.1)); cbn; naive_solver.
    + destruct (Z.leb_spec (mo_address p.1) x), (Z.ltb_spec x (mo_address p.1 + mo_size p.1)); cbn; naive_solver lia.
Qed.
Lemma base_query (k : CmpKind) p (s : S) : p ∈ inorder objs → ∃ e, lift_res (b ← getBaseExpr W p.1; cmp_make CAO k addr b) s = Done e s ∧ query_ok sat e ∧
  ∀ env x, eval env addr = Some x → eval env e = Some (bool_val (comparison k W x (mo_address p.1))).
Proof.
  intros Hp. destruct (so_placed _ _ Hok p Hp) as [Hpl Ha]. pose proof Hpl as (H0 & Hs & _).
  assert (Eb : getBaseExpr W p.1 tt = Done (Constant W (mo_address p.1)) tt) by (apply create_small; [lia|split; lia]).
  destruct (cmp_builds CAO k addr (Constant W (mo_address p.1))) as (e & Ee & We & Le & He); [done|by split; [lia|split; lia]|done|].
  assert (Hv : ∀ env x, eval env addr = Some x → eval env e = Some (bool_val (comparison k W x (mo_address p.1)))).
  { intros env x Ex. apply He, eval_cmp. exists x, (mo_address p.1). by rewrite Hwidth. }
  exists e. split; [|split; [|done]].
  - apply lift_done. by rewrite (bind_done _ _ _ _ _ Eb).
  - split_and!; [done|done| |].
    2: { apply (base_compare_narrow CAO W HW k p.1 addr e Hpl Ha Hwf Hnar Hwidth). by rewrite (bind_done _ _ _ _ _ Eb). }
    intros env Hsat. destruct (Hdef env Hsat) as [x Ex]. rewrite (Hv env x Ex). eauto.
Qed.

(** The answers, as facts about the values of the pointer. *)
Lemma ask_inBounds p s : solver_inv s → p ∈ inorder objs → ∃ e r s', inBounds CAO W p.1 addr s = Done e s ∧ ts_mayBeTrue e s = Done r s' ∧ solver_inv s' ∧
  (r = Some true → ∃ x, points x ∧ contains p.1 x) ∧ (r = Some false → ∀ x, points x → ¬ contains p.1 x) ∧ (never_fails (sat:=sat) → r ≠ None) ∧
  ∀ s1, solver_inv s1 → ∃ r1 s2, ts_mustBeTrue e s1 = Done r1 s2 ∧ solver_inv s2 ∧ (r1 = Some true → ∀ x, points x → contains p.1 x) ∧ (never_fails (sat:=sat) → r1 ≠ None).
Proof.
  intros Hi Hp. destruct (inBounds_query p s Hp) as (e & Ee & Hq & He). destruct (right_may e s Hi Hq) as (r & s' & Er & Hi' & Ht & Hf & Hnf).
  exists e, r, s'. split_and!; [done|done|done|..|done|].
  - intros Hr. destruct (Ht Hr) as (env & Hs & Ev). destruct (Hdef env Hs) as [x Ex]. exists x. split; [by exists env|]. by apply (He env x Ex).
  - intros Hr x (env & Hs & Ex). apply (He env x Ex). auto.
  - intros s1 Hi1. destruct (right_must e s1 Hi1 Hq) as (r1 & s2 & Er1 & Hi2 & Ht1 & _ & Hn1). exists r1, s2. split; [done|]. split; [done|]. split; [|done].
    intros Hr1 x (env & Hs & Ex). apply (He env x Ex). by apply Ht1.
Qed.
Lemma ask_above p s : solver_inv s → p ∈ inorder objs → ∃ e r s', atOrAbove CAO W p.1 addr s = Done e s ∧ ts_mustBeTrue e s = Done r s' ∧ solver_inv s' ∧
  (r = Some true → ∀ x, points x → mo_address p.1 ≤ x) ∧ (never_fails (sat:=sat) → r ≠ None).
Proof.
  intros Hi Hp. destruct (base_query KUge p s Hp) as (e & Ee & Hq & He). destruct (right_must e s Hi Hq) as (r & s' & Er & Hi' & Ht & _ & Hnf).
  exists e, r, s'. split_and!; [done|done|done| |done]. intros Hr x (env & Hs & Ex). specialize (Ht Hr env Hs). rewrite (He env x Ex) in Ht.
  cbn in Ht. destruct (Z.leb_spec (mo_address p.1) x); [done|done].
Qed.
Lemma ask_below p s : solver_inv s → p ∈ inorder objs → ∃ e r s', below_base CAO W p.1 addr s = Done e s ∧ ts_mustBeTrue e s = Done r s' ∧ solver_inv s' ∧
  (r = Some true → ∀ x, points x → x < mo_address p.1) ∧ (never_fails (sat:=sat) → r ≠ None).
Proof.
  intros Hi Hp. destruct (base_query KUlt p s Hp) as (e & Ee & Hq & He). destruct (right_must e s Hi Hq) as (r & s' & Er & Hi' & Ht & _ & Hnf).
  exists e, r, s'. split_and!; [done|done|done| |done]. intros Hr x (env & Hs & Ex). specialize (Ht Hr env Hs). rewrite (He env x Ex) in Ht.
  cbn in Ht. destruct (Z.ltb_spec x (mo_address p.1)); [done|done].
Qed.

(** ** All objects *)
Definition sound (rl : list ObjectPair) : Prop := ∀ q, q ∈ rl → q ∈ inorder objs ∧ ∃ x, points x ∧ contains q.1 x.
(** The objects of a list that the pointer may point to are in the result. *)
Definition covered (l rl : list ObjectPair) : Prop := ∀ q x, q ∈ l → points x → contains q.1 x → q ∈ rl.
Definition limited (max : Z) (rl : list ObjectPair) : Prop := 2 ≤ max → Z.of_nat (length rl) < max.

(** Why a search may be incomplete. *)
Definition gives_up (max : Z) : Prop := never_fails (sat:=sat) → never_late (sat:=sat) → 0 < max.
(** What a loop may end with, having looked at the objects [l]. *)
Definition loop_ok (max : Z) (l rl : list ObjectPair) (r : loop all_result (list ObjectPair)) : Prop :=
  match r with
  | Ret (incomplete, rl') => sound rl' ∧ (incomplete = false → covered (inorder objs) rl') ∧ (2 ≤ max → Z.of_nat (length rl') ≤ max) ∧ (incomplete = true → gives_up max)
  | Ended rl' => sound rl' ∧ rl ⊆ rl' ∧ covered l rl' ∧ limited max rl'
  end.

Lemma covered_one p : p ∈ inorder objs → (∀ x, points x → contains p.1 x) → covered (inorder objs) [p].
Proof. intros Hp Hall q x Hq Hx Hc. apply list_elem_of_singleton. eapply contains_unique; eauto. Qed.

Lemma check_object_ok max p rl s : solver_inv s → p ∈ inorder objs → sound rl → limited max rl →
  ∃ r s', check_object CAO W max p addr rl s = Done r s' ∧ solver_inv s' ∧ loop_ok max [p] rl r.
Proof.
  intros Hi Hp Hs Hl. unfold check_object. destruct (ask_inBounds p s Hi Hp) as (e & r & s1 & Ee & Er & Hi1 & Ht & Hf & Hnf & Hm).
  rewrite (bind_done _ _ _ _ _ Ee), (bind_done _ _ _ _ _ Er). destruct r as [[|]|].
  - destruct (Ht eq_refl) as (x & Hx & Hc). assert (Hs' : sound (rl ++ [p])).
    { intros q [Hq|Hq%list_elem_of_singleton]%elem_of_app; [by apply Hs|]. subst. eauto. }
    assert (Hcov : covered [p] (rl ++ [p])) by (intros q y Hq _ _; apply elem_of_app; by right).
    assert (Hsub : rl ⊆ rl ++ [p]) by set_solver. unfold push_result. rewrite length_app. cbn [length].
    destruct (Z.eqb_spec (Z.of_nat (length rl + 1)) 1) as [E1|E1].
    + assert (rl = []) as -> by (apply nil_length_inv; lia). destruct (Hm s1 Hi1) as (r1 & s2 & Er1 & Hi2 & Ht1 & Hn1). rewrite (bind_done _ _ _ _ _ Er1).
      destruct r1 as [[|]|]; eexists _, s2; (split; [reflexivity|]); (split; [done|]); cbn.
      * split_and!; [done|intros _; by apply covered_one, Ht1|lia|done].
      * split_and!; [done|done|done|unfold limited; cbn; lia].
      * split_and!; [done|done|lia|]. intros _ Hf1. by destruct (Hn1 Hf1).
    + destruct (Z.eqb_spec (Z.of_nat (length rl + 1)) max) as [E2|E2]; eexists _, s1; (split; [reflexivity|]); (split; [done|]); cbn.
      * split_and!; [done|done|rewrite length_app; cbn; lia|]. unfold gives_up. lia.
      * split_and!; [done|done|done|]. unfold limited in *. rewrite length_app. cbn. lia.
  - eexists _, s1. split; [reflexivity|]. split; [done|]. split_and!; [done|done|..|done].
    intros q x Hq%list_elem_of_singleton Hx Hc. subst. by destruct (Hf eq_refl x Hx).
  - eexists _, s1. split; [reflexivity|]. split; [done|]. split_and!; [done|done|unfold limited in Hl; lia|]. intros _ Hf1. by destruct (Hnf Hf1).
Qed.

(** ** Steps of the iterators *)
Lemma first_iff oi : valid oi → ImmutableTree.it_root oi = objs → it_eq oi (ImmutableTree.begin objs) = true ↔ prefix oi = [].
Proof. intros Hv <-. unfold it_eq. rewrite bool_decide_eq_true. symmetry. by apply at_begin. Qed.
Lemma back_step oi : valid oi → ImmutableTree.it_root oi = objs → prefix oi ≠ [] →
  ∃ pre p, prefix oi = pre ++ [p] ∧ let oi' := ImmutableTree.it_prev oi in
    valid oi' ∧ ImmutableTree.it_root oi' = objs ∧ prefix oi' = pre ∧ ImmutableTree.it_value oi' = Some p ∧
    p ∈ inorder objs ∧ ∀ q, q ∈ pre → q ∈ inorder objs ∧ mo_address q.1 < mo_address p.1.
Proof.
  intros Hv Hr Hp. destruct (exists_last Hp) as (pre & p & Ep). destruct (prev_spec oi p pre Hv Ep) as (Hv1 & Hr1 & Ep1 & Es1).
  pose proof (so_ordered _ _ Hok) as Ho. unfold ordered in Ho. rewrite <-Hr, <-(split_inorder oi Hv), Ep, <-app_assoc in Ho.
  apply sorted_mid in Ho as (_ & _ & Hf & _). rewrite Forall_forall in Hf.
  assert (Hin : ∀ q, q ∈ pre ++ [p] → q ∈ inorder objs) by (intros q Hq; rewrite <-Hr, <-(split_inorder oi Hv), Ep; set_solver).
  exists pre, p. cbv zeta. split_and!; [done|done|congruence|done|by rewrite (value_head _ Hv1), Es1|apply Hin; set_solver|].
  intros q Hq. split; [apply Hin; set_solver|by apply Hf].
Qed.
Lemma forward_step oi p post : valid oi → ImmutableTree.it_root oi = objs → suffix oi = p :: post →
  p ∈ inorder objs ∧ (∀ q, q ∈ post → q ∈ inorder objs ∧ mo_address p.1 < mo_address q.1) ∧
  ∃ oi', ImmutableTree.it_next oi = Some oi' ∧ valid oi' ∧ ImmutableTree.it_root oi' = objs ∧ suffix oi' = post.
Proof.
  intros Hv Hr Ep. destruct (next_spec oi p post Hv Ep) as (oi1 & En & Hv1 & Hr1 & Es1 & _).
  pose proof (so_ordered _ _ Hok) as Ho. unfold ordered in Ho. rewrite <-Hr, <-(split_inorder oi Hv), Ep in Ho.
  apply sorted_mid in Ho as (_ & _ & _ & Hf). rewrite Forall_forall in Hf.
  assert (Hin : ∀ q, q ∈ p :: post → q ∈ inorder objs) by (intros q Hq; rewrite <-Hr, <-(split_inorder oi Hv), Ep; set_solver).
  split; [apply Hin; set_solver|]. split; [intros q Hq; split; [apply Hin; set_solver|by apply Hf]|].
  exists oi1. split_and!; [done|done|congruence|done].
Qed.

(** The loops, with the values before and after the iterator as lists. *)
Lemma all_back_ok max fuel oi rl s : solver_inv s → valid oi → ImmutableTree.it_root oi = objs → (length (prefix oi) ≤ fuel)%nat → sound rl → limited max rl →
  ∃ r s', all_back CAO W fuel (ImmutableTree.begin objs) oi addr max rl s = Done r s' ∧ solver_inv s' ∧ loop_ok max (prefix oi) rl r.
Proof.
  revert oi rl s. induction fuel as [|fuel IH]; intros oi rl s Hi Hv Hr Hfuel Hs Hl; cbn [all_back];
    destruct (it_eq oi (ImmutableTree.begin objs)) eqn:Hb.
  1, 3: apply first_iff in Hb as Hp; [|done..]; eexists _, s; (split; [reflexivity|]); (split; [done|]); rewrite Hp;
    (split_and!; [done|done|intros q x Hq; set_solver|done]).
  - assert (Hp : prefix oi = []) by (apply nil_length_inv; lia). apply first_iff in Hp; [|done..]. congruence.
  - assert (Hp : prefix oi ≠ []) by (intros E; apply first_iff in E; [|done..]; congruence).
    destruct (back_step oi Hv Hr Hp) as (pre & p & Ep & Hv1 & Hr1 & Ep1 & Ev & Hpin & Hlow).
    cbv zeta. rewrite Ev. rewrite (bind_done _ _ _ p s) by done.
    destruct (right_expired (sat:=sat) s Hi) as (b & s1 & Eb & Hi1 & Hlate). rewrite (bind_done _ _ _ _ _ Eb). destruct b.
    { eexists _, s1. split; [reflexivity|]. split; [done|]. split_and!; [done|done|unfold limited in Hl; lia|]. intros _ _ Hn1. by specialize (Hlate Hn1). }
    destruct (check_object_ok max p rl s1 Hi1 Hpin Hs Hl) as (r & s2 & Er & Hi2 & Hrk). rewrite (bind_done _ _ _ _ _ Er).
    destruct r as [r|rl1]; [by eexists _, s2|]. destruct Hrk as (Hs1 & Hsub1 & Hc1 & Hl1).
    destruct (ask_above p s2 Hi2 Hpin) as (e & m & s3 & Ee & Em & Hi3 & Hm & Hnm). rewrite (bind_done _ _ _ _ _ Ee), (bind_done _ _ _ _ _ Em).
    rewrite Ep. destruct m as [[|]|].
    + eexists _, s3. split; [reflexivity|]. split; [done|]. split_and!; [done|done| |done]. intros q x Hq Hx Hc.
      apply elem_of_app in Hq as [Hq|Hq]; [|by apply (Hc1 q x)]. specialize (Hm eq_refl x Hx).
      destruct (Hlow q Hq) as [Hqin Hlt]. pose proof (contains_before W objs Hok q p x Hqin Hpin Hlt Hc). lia.
    + destruct (IH (ImmutableTree.it_prev oi) rl1 s3) as (r & s4 & Er4 & Hi4 & Hr4); [done|done|done|rewrite Ep1; rewrite Ep, length_app in Hfuel; cbn in Hfuel; lia|done|done|].
      exists r, s4. split; [exact Er4|]. split; [done|]. rewrite Ep1 in Hr4. destruct r as [[inc rl']|rl']; [exact Hr4|].
      destruct Hr4 as (? & Hsub & Hc4 & ?). split_and!; [done|set_solver| |done]. intros q x [Hq|Hq]%elem_of_app Hx Hc; [by apply (Hc4 q x)|].
      apply Hsub. by apply (Hc1 q x).
    + eexists _, s3. split; [reflexivity|]. split; [done|]. split_and!; [done|done|unfold limited in Hl1; lia|]. intros _ Hf1. by destruct (Hnm Hf1).
Qed.

Lemma all_forward_ok max fuel oi rl s : solver_inv s → valid oi → ImmutableTree.it_root oi = objs → (length (suffix oi) ≤ fuel)%nat → sound rl → limited max rl →
  ∃ r s', all_forward CAO W fuel oi addr max rl s = Done r s' ∧ solver_inv s' ∧ loop_ok max (suffix oi) rl r.
Proof.
  revert oi rl s. induction fuel as [|fuel IH]; intros oi rl s Hi Hv Hr Hfuel Hs Hl; cbn [all_forward]; rewrite (value_head oi Hv).
  - assert (Hp : suffix oi = []) by (apply nil_length_inv; lia). rewrite Hp. cbn.
    eexists _, s. split; [reflexivity|]. split; [done|]. split_and!; [done|done|intros q x Hq; set_solver|done].
  - destruct (suffix oi) as [|p post] eqn:Ep; cbn [hd_error].
    + eexists _, s. split; [reflexivity|]. split; [done|]. split_and!; [done|done|intros q x Hq; set_solver|done].
    + destruct (forward_step oi p post Hv Hr Ep) as (Hpin & Hhigh & oi1 & En & Hv1 & Hr1 & Es1).
      destruct (right_expired (sat:=sat) s Hi) as (b & s1 & Eb & Hi1 & Hlate). rewrite (bind_done _ _ _ _ _ Eb). destruct b.
      { eexists _, s1. split; [reflexivity|]. split; [done|]. split_and!; [done|done|unfold limited in Hl; lia|]. intros _ _ Hn1. by specialize (Hlate Hn1). }
      destruct (ask_below p s1 Hi1 Hpin) as (e & m & s3 & Ee & Em & Hi3 & Hm & Hnm). rewrite (bind_done _ _ _ _ _ Ee), (bind_done _ _ _ _ _ Em).
      destruct m as [[|]|].
      * eexists _, s3. split; [reflexivity|]. split; [done|]. split_and!; [done|done| |done]. intros q x Hq Hx Hc. exfalso. specialize (Hm eq_refl x Hx).
        assert (Hq' : q ∈ inorder objs ∧ mo_address p.1 ≤ mo_address q.1).
        { apply elem_of_cons in Hq as [->|Hq]; [done|]. destruct (Hhigh q Hq). split; [done|lia]. }
        pose proof (contains_low W _ _ (proj1 (so_placed _ _ Hok q (proj1 Hq'))) Hc). lia.
      * destruct (check_object_ok max p rl s3 Hi3 Hpin Hs Hl) as (r & s2 & Er & Hi2 & Hrk). rewrite (bind_done _ _ _ _ _ Er).
        destruct r as [r|rl1]; [by eexists _, s2|]. destruct Hrk as (Hs1 & Hsub1 & Hc1 & Hl1). rewrite En.
        rewrite (bind_done _ _ _ oi1 s2) by done.
        destruct (IH oi1 rl1 s2) as (r & s4 & Er4 & Hi4 & Hr4); [done|done|done|rewrite Es1; cbn in Hfuel; lia|done|done|].
        exists r, s4. split; [exact Er4|]. split; [done|]. rewrite Es1 in Hr4. destruct r as [[inc rl']|rl']; [exact Hr4|].
        destruct Hr4 as (? & Hsub & Hc4 & ?). split_and!; [done|set_solver| |done].
        intros q x [->|Hq]%elem_of_cons Hx Hc; [|by apply (Hc4 q x)]. apply Hsub. apply (Hc1 p x); [by left|done|done].
      * eexists _, s3. split; [reflexivity|]. split; [done|]. split_and!; [done|done|unfold limited in Hl; lia|]. intros _ Hf1. by destruct (Hnm Hf1).
Qed.

(** ** One object *)
Definition one_ok (l : list ObjectPair) (r : loop one_result unit) : Prop :=
  match r with
  | Ret None => ¬ never_fails (sat:=sat)
  | Ret (Some (Some p)) => p ∈ inorder objs ∧ ∃ x, points x ∧ contains p.1 x
  | Ret (Some None) => False
  | Ended _ => ∀ q x, q ∈ l → points x → ¬ contains q.1 x
  end.

Lemma one_back_ok fuel oi s : solver_inv s → valid oi → ImmutableTree.it_root oi = objs → (length (prefix oi) ≤ fuel)%nat →
  ∃ r s', one_back CAO W fuel (ImmutableTree.begin objs) oi addr s = Done r s' ∧ solver_inv s' ∧ one_ok (prefix oi) r.
Proof.
  revert oi s. induction fuel as [|fuel IH]; intros oi s Hi Hv Hr Hfuel; cbn [one_back];
    destruct (it_eq oi (ImmutableTree.begin objs)) eqn:Hb.
  1, 3: apply first_iff in Hb as Hp; [|done..]; eexists _, s; (split; [reflexivity|]); (split; [done|]); rewrite Hp; intros q x Hq; set_solver.
  - assert (Hp : prefix oi = []) by (apply nil_length_inv; lia). apply first_iff in Hp; [|done..]. congruence.
  - assert (Hp : prefix oi ≠ []) by (intros E; apply first_iff in E; [|done..]; congruence).
    destruct (back_step oi Hv Hr Hp) as (pre & p & Ep & Hv1 & Hr1 & Ep1 & Ev & Hpin & Hlow).
    cbv zeta. rewrite Ev. rewrite (bind_done _ _ _ p s) by done.
    destruct (ask_inBounds p s Hi Hpin) as (e & r & s1 & Ee & Er & Hi1 & Ht & Hf & Hnf & _).
    rewrite (bind_done _ _ _ _ _ Ee), (bind_done _ _ _ _ _ Er). destruct r as [[|]|]; [eexists _, s1; split; [reflexivity|]; split; [done|]; split; [done|by apply Ht]| |by eexists _, s1; split; [reflexivity|]; split; [done|]; intros Hn; by apply Hnf].
    destruct (ask_above p s1 Hi1 Hpin) as (e' & m & s3 & Ee' & Em & Hi3 & Hm & Hnm). rewrite (bind_done _ _ _ _ _ Ee'), (bind_done _ _ _ _ _ Em).
    rewrite Ep. destruct m as [[|]|]; [| |by eexists _, s3; split; [reflexivity|]; split; [done|]; intros Hn; by apply Hnm].
    + eexists _, s3. split; [reflexivity|]. split; [done|]. intros q x [Hq| ->%list_elem_of_singleton]%elem_of_app Hx Hc; [|by apply (Hf eq_refl x Hx)].
      destruct (Hlow q Hq) as [Hqin Hlt]. pose proof (contains_before W objs Hok q p x Hqin Hpin Hlt Hc). specialize (Hm eq_refl x Hx). lia.
    + destruct (IH (ImmutableTree.it_prev oi) s3) as (r & s4 & Er4 & Hi4 & Hr4); [done|done|done|rewrite Ep1; rewrite Ep, length_app in Hfuel; cbn in Hfuel; lia|].
      exists r, s4. split; [exact Er4|]. split; [done|]. rewrite Ep1 in Hr4. destruct r as [r|[]]; [exact Hr4|].
      intros q x [Hq| ->%list_elem_of_singleton]%elem_of_app Hx Hc; [by apply (Hr4 q x)|by apply (Hf eq_refl x Hx)].
Qed.

Lemma one_forward_ok fuel oi s : solver_inv s → valid oi → ImmutableTree.it_root oi = objs → (length (suffix oi) ≤ fuel)%nat →
  ∃ r s', one_forward CAO W fuel oi addr s = Done r s' ∧ solver_inv s' ∧ one_ok (suffix oi) r.
Proof.
  revert oi s. induction fuel as [|fuel IH]; intros oi s Hi Hv Hr Hfuel; cbn [one_forward]; rewrite (value_head oi Hv).
  - assert (Hp : suffix oi = []) by (apply nil_length_inv; lia). rewrite Hp. cbn. eexists _, s. split; [reflexivity|]. split; [done|]. intros q x Hq; set_solver.
  - destruct (suffix oi) as [|p post] eqn:Ep; cbn [hd_error]; [eexists _, s; split; [reflexivity|]; split; [done|]; intros q x Hq; set_solver|].
    destruct (forward_step oi p post Hv Hr Ep) as (Hpin & Hhigh & oi1 & En & Hv1 & Hr1 & Es1).
    destruct (ask_below p s Hi Hpin) as (e' & m & s3 & Ee' & Em & Hi3 & Hm & Hnm). rewrite (bind_done _ _ _ _ _ Ee'), (bind_done _ _ _ _ _ Em).
    destruct m as [[|]|]; [| |by eexists _, s3; split; [reflexivity|]; split; [done|]; intros Hn; by apply Hnm].
    + eexists _, s3. split; [reflexivity|]. split; [done|]. intros q x Hq Hx Hc. specialize (Hm eq_refl x Hx).
      assert (Hq' : q ∈ inorder objs ∧ mo_address p.1 ≤ mo_address q.1).
      { apply elem_of_cons in Hq as [->|Hq]; [done|]. destruct (Hhigh q Hq). split; [done|lia]. }
      pose proof (contains_low W _ _ (proj1 (so_placed _ _ Hok q (proj1 Hq'))) Hc). lia.
    + destruct (ask_inBounds p s3 Hi3 Hpin) as (e & r & s1 & Ee & Er & Hi1 & Ht & Hf & Hnf & _).
      rewrite (bind_done _ _ _ _ _ Ee), (bind_done _ _ _ _ _ Er). destruct r as [[|]|]; [eexists _, s1; split; [reflexivity|]; split; [done|]; split; [done|by apply Ht]| |by eexists _, s1; split; [reflexivity|]; split; [done|]; intros Hn; by apply Hnf].
      rewrite En, (bind_done _ _ _ oi1 s1) by done.
      destruct (IH oi1 s1) as (r & s4 & Er4 & Hi4 & Hr4); [done|done|done|rewrite Es1; cbn in Hfuel; lia|].
      exists r, s4. split; [exact Er4|]. split; [done|]. rewrite Es1 in Hr4. destruct r as [r|[]]; [exact Hr4|].
      intros q x [->|Hq]%elem_of_cons Hx Hc; [by apply (Hf eq_refl x Hx)|by apply (Hr4 q x)].
Qed.

(** ** The searches *)
Lemma fuel_enough (oi : ImmutableTree.iterator ObjectPair) : valid oi → ImmutableTree.it_root oi = objs →
  (length (prefix oi) ≤ search_fuel objs)%nat ∧ (length (suffix oi) ≤ search_fuel objs)%nat.
Proof.
  intros Hv Hr. unfold search_fuel. rewrite size_inorder. rewrite <-Hr, <-(split_inorder oi Hv), length_app. lia.
Qed.
Lemma start_covers x : let oi := ImmutableTree.upper_bound object_key objs x in
  valid oi ∧ ImmutableTree.it_root oi = objs ∧ inorder objs = prefix oi ++ suffix oi.
Proof.
  destruct (upper_bound_spec object_key objs x (so_ordered _ _ Hok)) as (Hv & Hr & _). split; [done|]. split; [done|].
  pose proof (split_inorder _ Hv) as E. rewrite Hr in E. by rewrite E.
Qed.
Lemma example_run s : solver_inv s → ∃ r s', ts_getValue addr s = Done r s' ∧ solver_inv s' ∧ (never_fails (sat:=sat) → r ≠ None) ∧
  ∀ c, r = Some c → ∃ x, points x ∧ 0 ≤ x < 2 ^ W ∧ ∀ s'' : S, example_of c s'' = Done x s''.
Proof.
  intros Hi. destruct (right_value addr s Hi Hwf Hnar Hdef) as (r & s' & E & Hi' & H & Hnf). exists r, s'. split; [done|]. split; [done|]. split; [done|]. intros c ->.
  destruct (H c eq_refl) as (v & env & -> & Hs & Ev). exists v. split; [by exists env|].
  pose proof (eval_range env addr v Hwf Ev) as Hb. rewrite Hwidth in Hb. split; [exact Hb|]. intros s''. cbn. rewrite Hwidth. unfold lift_res, getZExtValue.
  by rewrite (proj2 (Z.leb_le W 64)) by lia.
Qed.
Lemma constant_form e : isa_Constant e = true → ∃ w v, e = Constant w v.
Proof. destruct e; try done. eauto. Qed.
Lemma constant_points w v : addr = Constant w v → (∀ x, points x → x = v) ∧ 0 ≤ v < 2 ^ W ∧ ∀ s : S, lift_res (getZExtValue 64 w v) s = Done v s.
Proof.
  intros Ea. pose proof Hwidth as Hw. pose proof Hwf as Hf. rewrite Ea in Hw, Hf. cbn in Hw. subst w.
  split; [intros x (env & _ & Ex); rewrite Ea in Ex; by injection Ex|]. destruct Hf as [_ Hb]. split; [exact Hb|].
  intros s. unfold lift_res, getZExtValue. by rewrite (proj2 (Z.leb_le W 64)) by lia.
Qed.

Lemma option_list_in {A} (o : option A) x : x ∈ option_list o ↔ o = Some x.
Proof. destruct o; cbn; set_solver. Qed.

Definition resolve_ok (max : Z) (r : all_result) : Prop :=
  sound r.2 ∧ (r.1 = false → covered (inorder objs) r.2) ∧ (2 ≤ max → Z.of_nat (length r.2) ≤ max) ∧ (r.1 = true → gives_up max).

Lemma resolve_symbolic max s : solver_inv s → isa_Constant addr = false → ∃ r s', resolve CAO W objs addr max s = Done r s' ∧ solver_inv s' ∧ resolve_ok max r.
Proof.
  intros Hi Hc. assert (E : resolve CAO W objs addr max =
    (cex ← ts_getValue addr;
     match cex with
     | None => mret (true, [])
     | Some cex =>
       example ← example_of cex;
       let start := ImmutableTree.upper_bound object_key objs example in
       r ← all_back CAO W (search_fuel objs) (ImmutableTree.begin objs) start addr max [];
       match r with
       | Ret r => mret r
       | Ended rl =>
         r ← all_forward CAO W (search_fuel objs) start addr max rl;
         match r with Ret r => mret r | Ended rl => mret (false, rl) end
       end
     end)) by by destruct addr.
  rewrite E. clear E. destruct (example_run s Hi) as (r & s1 & Er & Hi1 & Hnf & Hx). rewrite (bind_done _ _ _ _ _ Er).
  assert (H0 : sound [] ∧ limited max []) by (split; [intros q Hq; set_solver|unfold limited; cbn; lia]). destruct H0 as [Hs0 Hl0].
  destruct r as [c|]; [|eexists _, s1; split; [reflexivity|]; split; [done|]; split_and!; [done|done|cbn; lia|intros _ Hf1; by destruct (Hnf Hf1)]].
  destruct (Hx c eq_refl) as (x & _ & _ & Ex). rewrite (bind_done _ _ _ _ _ (Ex s1)). cbv zeta.
  destruct (start_covers x) as (Hv & Hr & Hsplit). destruct (fuel_enough _ Hv Hr) as [Hf1 Hf2]. set (oi := ImmutableTree.upper_bound object_key objs x) in *.
  destruct (all_back_ok max _ oi [] s1 Hi1 Hv Hr Hf1 Hs0 Hl0) as (r1 & s2 & E1 & Hi2 & H1). rewrite (bind_done _ _ _ _ _ E1).
  destruct r1 as [r1|rl1]; [by destruct r1; eexists _, s2|]. destruct H1 as (Hs1 & _ & Hc1 & Hl1).
  destruct (all_forward_ok max _ oi rl1 s2 Hi2 Hv Hr Hf2 Hs1 Hl1) as (r2 & s3 & E2 & Hi3 & H2). rewrite (bind_done _ _ _ _ _ E2).
  destruct r2 as [r2|rl2]; [by destruct r2; eexists _, s3|]. destruct H2 as (Hs2 & Hsub & Hc2 & Hl2).
  eexists _, s3. split; [reflexivity|]. split; [done|]. split_and!; [done| |unfold limited in Hl2; cbn; lia|done]. intros _ q y Hq Hy Hcy. rewrite Hsplit in Hq.
  apply elem_of_app in Hq as [Hq|Hq]; [apply Hsub; by apply (Hc1 q y)|by apply (Hc2 q y)].
Qed.

Lemma resolve_run max s : solver_inv s → (∃ x, points x) → ∃ r s', resolve CAO W objs addr max s = Done r s' ∧ solver_inv s' ∧ resolve_ok max r.
Proof.
  intros Hi Hne. destruct (isa_Constant addr) eqn:Hc; [|by apply resolve_symbolic]. destruct (constant_form addr Hc) as (w & v & Ea).
  destruct (constant_points w v Ea) as (Hx & Hv & El). rewrite Ea. unfold resolve. rewrite (bind_done _ _ _ _ _ (El s)).
  eexists _, s. split; [reflexivity|]. split; [done|]. pose proof (resolveOne_c_spec W HW objs Hok v) as Hone. assert (Hp : points v) by (destruct Hne as [y Hy]; by rewrite <-(Hx y Hy)).
  split_and!; cbn.
  - intros q Hq. apply option_list_in in Hq. apply Hone in Hq as [? ?]; [|done]. split; [done|]. by exists v.
  - intros _ q y Hq Hy Hcy. apply option_list_in. apply Hone; [done|]. rewrite (Hx y Hy) in Hcy. done.
  - destruct (resolveOne_c objs v); cbn; lia.
  - done.
Qed.

Definition resolveOne_ok (r : one_result) : Prop :=
  match r with
  | None => ¬ never_fails (sat:=sat)
  | Some (Some p) => p ∈ inorder objs ∧ ∃ x, points x ∧ contains p.1 x
  | Some None => ∀ q x, q ∈ inorder objs → points x → ¬ contains q.1 x
  end.
Lemma resolveOne_symbolic s : solver_inv s → isa_Constant addr = false → ∃ r s', resolveOne_e CAO W objs addr s = Done r s' ∧ solver_inv s' ∧ resolveOne_ok r.
Proof.
  intros Hi Hc. assert (E : resolveOne_e CAO W objs addr =
    (cex ← ts_getValue addr;
     match cex with
     | None => mret None
     | Some cex =>
       example ← example_of cex;
       match cheap_search objs example with
       | Some p => mret (Some (Some p))
       | None =>
         let start := ImmutableTree.upper_bound object_key objs example in
         r ← one_back CAO W (search_fuel objs) (ImmutableTree.begin objs) start addr;
         match r with
         | Ret r => mret r
         | Ended _ =>
           r ← one_forward CAO W (search_fuel objs) start addr;
           match r with Ret r => mret r | Ended _ => mret (Some None) end
         end
       end
     end)) by by destruct addr.
  rewrite E. clear E. destruct (example_run s Hi) as (r & s1 & Er & Hi1 & Hnf & Hx). rewrite (bind_done _ _ _ _ _ Er).
  destruct r as [c|]; [|by eexists _, s1; split; [reflexivity|]; split; [done|]; intros Hn; by apply Hnf]. destruct (Hx c eq_refl) as (x & Hpx & Hxr & Ex). rewrite (bind_done _ _ _ _ _ (Ex s1)). cbv zeta.
  destruct (cheap_search objs x) as [p|] eqn:Elp.
  - eexists _, s1. split; [reflexivity|]. split; [done|]. unfold cheap_search in Elp. destruct (ImmutableTree.lookup_previous object_key x objs) as [p'|] eqn:El; [|done].
    destruct (covers_address p'.1 x) eqn:Ec; [|done]. injection Elp as ->. rewrite lookup_previous_spec in El by apply Hok.
    apply last_Some in El as [l' El]. assert (Hp : p ∈ filter (λ q, object_key q ≤ x) (inorder objs)) by (rewrite El; set_solver).
    apply list_elem_of_filter in Hp as [Hlo Hp]. split; [done|]. exists x. split; [done|].
    apply (covers_spec W HW objs Hok p x Hp); [|done]. split; [exact Hlo|lia].
  - destruct (start_covers x) as (Hv & Hr & Hsplit). destruct (fuel_enough _ Hv Hr) as [Hf1 Hf2]. set (oi := ImmutableTree.upper_bound object_key objs x) in *.
    destruct (one_back_ok _ oi s1 Hi1 Hv Hr Hf1) as (r1 & s2 & E1 & Hi2 & H1). rewrite (bind_done _ _ _ _ _ E1).
    destruct r1 as [[[p|]|]|[]]; [by eexists _, s2|done|by eexists _, s2|].
    destruct (one_forward_ok _ oi s2 Hi2 Hv Hr Hf2) as (r2 & s3 & E2 & Hi3 & H2). rewrite (bind_done _ _ _ _ _ E2).
    destruct r2 as [[[p|]|]|[]]; [by eexists _, s3|done|by eexists _, s3|].
    eexists _, s3. split; [reflexivity|]. split; [done|]. intros q y Hq. rewrite Hsplit in Hq. apply elem_of_app in Hq as [Hq|Hq]; [by apply H1|by apply H2].
Qed.
Lemma resolveOne_run s : solver_inv s → (∃ x, points x) → ∃ r s', resolveOne_e CAO W objs addr s = Done r s' ∧ solver_inv s' ∧ resolveOne_ok r.
Proof.
  intros Hi Hne. destruct (isa_Constant addr) eqn:Hc; [|by apply resolveOne_symbolic]. destruct (constant_form addr Hc) as (w & v & Ea).
  destruct (constant_points w v Ea) as (Hx & Hv & El). rewrite Ea. unfold resolveOne_e. rewrite (bind_done _ _ _ _ _ (El s)).
  eexists _, s. split; [reflexivity|]. split; [done|]. pose proof (resolveOne_c_spec W HW objs Hok v) as Hone. assert (Hp : points v) by (destruct Hne as [y Hy]; by rewrite <-(Hx y Hy)).
  cbn. destruct (resolveOne_c objs v) as [p|] eqn:E.
  - apply (resolveOne_c_spec W HW objs Hok v) in E as [? ?]; [|done]. split; [done|]. by exists v.
  - intros q y Hq Hy Hcy. rewrite (Hx y Hy) in Hcy. pose proof (proj2 (Hone q Hv) (conj Hq Hcy)). congruence.
Qed.
End Search.

(** ** A solver for finitely many assignments *)
Definition list_solver (envs : list assignment) : TimingSolver unit := {|
  ts_getValue := λ e, mret (env ← hd_error envs; v ← eval env e; Some (Constant (getWidth e) v));
  ts_mustBeTrue := λ e, mret (Some (forallb (λ env, bool_decide (eval env e = Some 1)) envs));
  ts_mayBeTrue := λ e, mret (Some (existsb (λ env, bool_decide (eval env e = Some 1)) envs));
  ts_expired := mret false
|}.
Lemma query_value sat e env : wf e → getWidth e = Bool → defined sat e → sat env → eval env e = Some 0 ∨ eval env e = Some 1.
Proof.
  intros We Le Hd Hs. destruct (Hd env Hs) as [v Ev]. pose proof (eval_range env e v We Ev) as Hb. rewrite Le in Hb.
  rewrite Ev. destruct (bits_1 v Hb) as [->| ->]; auto.
Qed.
Lemma exists_refuted (f : assignment → bool) envs : forallb f envs = false → ∃ env, In env envs ∧ f env = false.
Proof.
  induction envs as [|env envs IH]; [done|]. cbn. destruct (f env) eqn:E; [|exists env; split; [by left|done]].
  intros H. destruct (IH H) as (env' & ? & ?). exists env'. split; [by right|done].
Qed.
#[global] Instance list_solver_right envs : @SolverRight unit (list_solver envs) (λ env, In env envs).
Proof.
  refine {| solver_inv := λ _, True; never_fails := envs ≠ []; never_late := True |}.
  - intros e s _ We _ Hd. eexists _, s. split; [reflexivity|]. split; [done|]. split.
    + intros c Hc. destruct envs as [|env envs]; [done|]. cbn in Hc.
      destruct (eval env e) as [v|] eqn:Ev; [|done]. injection Hc as <-. exists v, env. split_and!; [done|by left|done].
    + intros Hne. destruct envs as [|env envs]; [done|]. cbn. destruct (Hd env ltac:(by left)) as [v Ev]. by rewrite Ev.
  - intros e s _ (Hq1 & Hq2 & Hq3 & _). eexists _, s. split; [reflexivity|]. split; [done|]. split_and!; [| |done].
    + intros [= Hf] env Hin. rewrite forallb_forall in Hf. specialize (Hf env Hin). by apply bool_decide_eq_true in Hf.
    + intros [= Hf]. apply exists_refuted in Hf as (env & Hin & Hne%bool_decide_eq_false). exists env. split; [done|].
      by destruct (query_value _ e env Hq1 Hq2 Hq3 Hin).
  - intros e s _ (Hq1 & Hq2 & Hq3 & _). eexists _, s. split; [reflexivity|]. split; [done|]. split_and!; [| |done].
    + intros [= Hf]. apply existsb_exists in Hf as (env & Hin & Hb). apply bool_decide_eq_true in Hb. by exists env.
    + intros [= Hf] env Hin. rewrite <-not_true_iff_false, existsb_exists in Hf.
      destruct (query_value _ e env Hq1 Hq2 Hq3 Hin) as [?|E]; [done|]. destruct Hf. exists env. split; [done|]. by apply bool_decide_eq_true.
  - intros s _. by eexists _, s.
Defined.

(** ** Properties *)
(** C10: (safety) Resolving a pointer (with arithmetic of at most 64 bits) to all objects terminates, and reports only objects
    of the space that some value of the pointer on the path is inside of.  When it does
    not report itself incomplete, every object that any value of the pointer is inside
    of is in the list: the search outwards from one solution may stop at an object the
    pointer must be above or below, and the shortcut for a single object is sound,
    because objects do not overlap.  A limit of at least 2 is respected, and without a limit the search is incomplete only when a query
    fails or the timer expires. *)
Theorem resolve_finds_all `{!APInt, !ExprCompare} (ConstArrayOpt : bool) (W : Z) {S : Type} `{!TimingSolver S} (sat : assignment → Prop)
  `{!SolverRight S sat} (objs : MemoryMap) (p : Expr) (maxResolutions : Z) (s : S) :
  solver_inv s → 1 < W ≤ 64 → space_ok W objs → wf p → narrow p → getWidth p = W → defined sat p → (∃ env, sat env) →
  ∃ incomplete rl s', resolve ConstArrayOpt W objs p maxResolutions s = Done (incomplete, rl) s' ∧
    (∀ q, q ∈ rl → q ∈ inorder objs ∧ ∃ env x, sat env ∧ eval env p = Some x ∧ contains q.1 x) ∧
    (incomplete = false → ∀ env x q, sat env → eval env p = Some x → q ∈ inorder objs → contains q.1 x → q ∈ rl) ∧
    (2 ≤ maxResolutions → Z.of_nat (length rl) ≤ maxResolutions) ∧
    (incomplete = true → never_fails (sat:=sat) → never_late (sat:=sat) → 0 < maxResolutions).
Proof.
  intros Hi HW Hok Hwf Hn Hw Hd [env Hs]. destruct (Hd env Hs) as [x Ex].
  destruct (resolve_run ConstArrayOpt W HW sat objs Hok p Hwf Hn Hw Hd maxResolutions s Hi) as ([inc rl] & s' & E & _ & H1 & H2 & H3 & H4); [by exists x, env|].
  exists inc, rl, s'. split; [done|]. split; [|split; [|done]].
  - intros q Hq. destruct (H1 q Hq) as (? & y & (env' & ? & ?) & ?). eauto 10.
  - intros Hinc env' y q Hs' Ey Hq Hc. apply (H2 Hinc q y Hq); [by exists env'|done].
Qed.

(** Two objects, and a pointer that may point into either. *)
Definition two_objects : MemoryMap :=
  ImmutableTree.insert object_key (mkMO 1 8192 16 true false false, 1%nat)
    (ImmutableTree.insert object_key (mkMO 0 4096 16 true false false, 0%nat) ImmutableTree.terminator).
Definition two_pointer : Expr := Arith KAdd (Constant 32 4100) (Arith KMul (Constant 32 4096) (ZExt (arg_byte 0) 32)).
Lemma two_objects_ok : space_ok 32 two_objects.
Proof.
  constructor.
  - repeat constructor.
  - intros p Hp. repeat apply elem_of_cons in Hp as [->|Hp]; [..|by apply not_elem_of_nil in Hp]; by vm_compute.
  - intros p q Hp Hq. repeat apply elem_of_cons in Hp as [->|Hp]; [..|by apply not_elem_of_nil in Hp];
      (repeat apply elem_of_cons in Hq as [->|Hq]; [..|by apply not_elem_of_nil in Hq]); cbn; lia.
Qed.
Lemma two_pointer_wf : wf two_pointer.
Proof. vm_compute. repeat split; congruence || by intros. Qed.
Lemma two_pointer_narrow : narrow two_pointer.
Proof. vm_compute. repeat split; congruence. Qed.
Lemma resolve_finds_all_witness :
  let envs := [(λ _ _, 0) : assignment; λ _ _, 1] in
  ∃ rl, resolve (TimingSolver0 := list_solver envs) true 32 two_objects two_pointer 0 tt = Done (false, rl) tt ∧ (∀ q, q ∈ inorder two_objects → q ∈ rl).
Proof.
  intros envs. destruct (resolve_finds_all (TimingSolver0 := list_solver envs) true 32 (λ env, In env envs) two_objects two_pointer 0 tt)
    as (inc & rl & s' & E & _ & Hall & _); [exact I|lia|exact two_objects_ok|exact two_pointer_wf|exact two_pointer_narrow|reflexivity|by intros env [<-|[<-|[]]]; eexists|by exists (λ _ _, 0); left|].
  exists rl. assert (inc = false ∧ s' = tt) as [-> ->] by (vm_compute in E; by injection E). split; [exact E|]. intros q Hq.
  repeat apply elem_of_cons in Hq as [->|Hq]; [..|by apply not_elem_of_nil in Hq].
  - apply (Hall eq_refl (λ _ _, 0) 4100); [by left|reflexivity|by left|by vm_compute].
  - apply (Hall eq_refl (λ _ _, 1) 8196); [right; by left|reflexivity|right; by left|by vm_compute].
Defined.

(** A limit of 1 is not respected: the object that makes the list one long goes
    through the shortcut only. *)
Lemma resolve_limit_one :
  let envs := [(λ _ _, 0) : assignment; λ _ _, 1] in
  resolve (TimingSolver0 := list_solver envs) true 32 two_objects two_pointer 1 tt =
  Done (false, [(mkMO 0 4096 16 true false false, 0%nat); (mkMO 1 8192 16 true false false, 1%nat)]) tt.
Proof. vm_compute. reflexivity. Qed.

(** (functional) Resolving a pointer to one object: it terminates, and unless a
    query fails, it finds an object that some value of the pointer on the path is
    inside of, or there is no such object in the space; for a concrete address the
    object found is the only one. *)
Theorem resolveOne_exact `{!APInt, !ExprCompare} (ConstArrayOpt : bool) (W : Z) {S : Type} `{!TimingSolver S} (sat : assignment → Prop)
  `{!SolverRight S sat} (objs : MemoryMap) (p : Expr) (s : S) :
  solver_inv s → 1 < W ≤ 64 → space_ok W objs → wf p → narrow p → getWidth p = W → defined sat p → (∃ env, sat env) →
  (∃ r s', resolveOne_e ConstArrayOpt W objs p s = Done r s' ∧
    match r with
    | None => True
    | Some (Some q) => q ∈ inorder objs ∧ ∃ env x, sat env ∧ eval env p = Some x ∧ contains q.1 x
    | Some None => ∀ env x q, sat env → eval env p = Some x → q ∈ inorder objs → ¬ contains q.1 x
    end) ∧
  ∀ x q, 0 ≤ x < 2 ^ W → resolveOne_c objs x = Some q ↔ q ∈ inorder objs ∧ contains q.1 x.
Proof.
  intros Hi HW Hok Hwf Hn Hw Hd [env Hs]. split; [|intros x q; by apply resolveOne_c_spec]. destruct (Hd env Hs) as [x Ex].
  destruct (resolveOne_run ConstArrayOpt W HW sat objs Hok p Hwf Hn Hw Hd s Hi) as (r & s' & E & _ & H1); [by exists x, env|].
  exists r, s'. split; [done|]. destruct r as [[q|]|]; [|..|done].
  - destruct H1 as (? & y & (env' & ? & ?) & ?). eauto 10.
  - intros env' y q Hs' Ey Hq. apply (H1 q y Hq). by exists env'.
Qed.
Lemma resolveOne_exact_witness :
  resolveOne_c two_objects 8200 = Some (mkMO 1 8192 16 true false false, 1%nat) ∧
  ∃ r, resolveOne_e (TimingSolver0 := list_solver [λ _ _, 7]) true 32 two_objects two_pointer tt = Done r tt ∧ r = Some None.
Proof.
  destruct (resolveOne_exact (TimingSolver0 := list_solver [λ _ _, 7]) true 32 (λ env, In env [λ _ _, 7]) two_objects two_pointer tt)
    as [(r & s' & E & Hr) Hc]; [exact I|lia|exact two_objects_ok|exact two_pointer_wf|exact two_pointer_narrow|reflexivity|by intros env [<-|[]]; eexists|by eexists; left|].
  split; [apply Hc; [lia|]; split; [right; by left|by vm_compute]|]. exists r. destruct s'. split; [exact E|].
  vm_compute in E. by injection E.
Defined.
