(* ===== verification/Solver.v ===== *)
(** * Solvers

    src/klee/lib/Solver/Solver.cpp, IncompleteSolver.cpp, CachingSolver.cpp and
    src/klee/lib/Core/TimingSolver.cpp: the front end that the engine queries, and the
    layers of solvers it is stacked from.  A layer is a [SolverImpl] over another; the
    innermost one (STP, which is not modelled) is an argument.  A solver has a state of
    its own, and every query may fail: [None].  Statistics are left out. *)
From S2P Require Import Prelude Expr ExprCreate Memory AddressSpace.

(** ** Queries *)
Record Query := mkQuery { constraints : list Expr; expr : Expr }.
Definition withExpr (q : Query) (e : Expr) : Query := mkQuery (constraints q) e.
Definition withFalse (q : Query) : Query := mkQuery (constraints q) (Constant_alloc 0 Bool).

Inductive Validity : Type := VTrue | VFalse | VUnknown.
#[global] Instance Validity_eq_dec : EqDecision Validity.
Proof. solve_decision. Defined.

(** [hasSolution] and [values] of [computeInitialValues] are an option. *)
Record SolverImpl (S : Type) := mkImpl {
  computeTruth : Query → M S (option bool);
  computeValidity : Query → M S (option Validity);
  computeValue : Query → M S (option Expr);
  computeInitialValues : Query → list Array → M S (option (option (list (list Z))))
}.
Arguments mkImpl {S}.
Arguments computeTruth {S}.
Arguments computeValidity {S}.
Arguments computeValue {S}.
Arguments computeInitialValues {S}.

(** A call that failed makes its caller fail. *)
Definition ok {S A B} (m : M S (option A)) (k : A → M S (option B)) : M S (option B) :=
  r ← m; match r with None => mret None | Some a => k a end.

Section Front.
Context `{!APInt, !ExprCompare} (ConstArrayOpt : bool) {S : Type}.

Definition negateExpr (q : Query) : M S Query := e ← lift_res (createIsZero ConstArrayOpt (expr q)); mret (withExpr q e).

(** [SolverImpl::computeValidity], the default. *)
Definition default_computeValidity (truth : Query → M S (option bool)) (q : Query) : M S (option Validity) :=
  ok (truth q) (λ isTrue,
    if (isTrue : bool) then mret (Some VTrue)
    else n ← negateExpr q; ok (truth n) (λ isFalse, mret (Some (if (isFalse : bool) then VFalse else VUnknown)))).

(** ** The front end *)
Section Impl.
Context (impl : SolverImpl S).

Definition Solver_evaluate (q : Query) : M S (option Validity) :=
  c_assert (getWidth (expr q) =? Bool);;
  match expr q with
  | Constant w v => b ← lift_res (isTrue w v); mret (Some (if (b : bool) then VTrue else VFalse))
  | _ => computeValidity impl q
  end.
Definition Solver_mustBeTrue (q : Query) : M S (option bool) :=
  c_assert (getWidth (expr q) =? Bool);;
  match expr q with
  | Constant w v => b ← lift_res (isTrue w v); mret (Some b)
  | _ => computeTruth impl q
  end.
Definition Solver_mustBeFalse (q : Query) : M S (option bool) := n ← negateExpr q; Solver_mustBeTrue n.
Definition Solver_mayBeTrue (q : Query) : M S (option bool) := ok (Solver_mustBeFalse q) (λ res, mret (Some (negb res))).
Definition Solver_mayBeFalse (q : Query) : M S (option bool) := ok (Solver_mustBeTrue q) (λ res, mret (Some (negb res))).
(** The value must be a constant. *)
Definition Solver_getValue (q : Query) : M S (option Expr) :=
  match expr q with
  | Constant _ _ => mret (Some (expr q))
  | _ => ok (computeValue impl q) (λ tmp, c_assert (isa_Constant tmp);; mret (Some tmp))
  end.
(** [hasSolution] is read even after a failure, but then either answer is a failure. *)
Definition Solver_getInitialValues (q : Query) (objects : list Array) : M S (option (list (list Z))) :=
  ok (computeInitialValues impl q objects) (λ values, mret values).

(** *** Ranges *)
(** [while (lo<hi)] with [mid = lo + (hi - lo)/2]. *)
Fixpoint bsearch (fuel : nat) (ask : Z → M S bool) (lo hi : Z) : M S Z :=
  if lo <? hi then
    match fuel with
    | Datatypes.O => halt NoFuel
    | Datatypes.S fuel =>
      let mid := lo + (hi - lo) `div` 2 in
      res ← ask mid;
      if (res : bool) then bsearch fuel ask lo mid else bsearch fuel ask (mid + 1) hi
    end
  else mret lo.
Definition must_succeed {A} (m : M S (option A)) : M S A := r ← m; match r with Some a => mret a | None => halt AssertFailure end.

Definition maxValueOfNBits (N : Z) : Z := if N =? 0 then 0 else Z.shiftr (u64 (-1)) (64 - N).
(** The queries of the three searches and of the common case. *)
Definition ask_bits (q : Query) (mid : Z) : M S bool :=
  let width := getWidth (expr q) in
  e ← lift_res (k ← Constant_create mid width; s ← LShrExpr_make ConstArrayOpt (expr q) k; z ← Constant_create 0 width; EqExpr_make ConstArrayOpt s z);
  must_succeed (Solver_mustBeTrue (withExpr q e)).
Definition ask_zero (q : Query) : M S bool :=
  e ← lift_res (z ← Constant_create 0 (getWidth (expr q)); EqExpr_make ConstArrayOpt (expr q) z);
  must_succeed (Solver_mayBeTrue (withExpr q e)).
Definition ask_min (q : Query) (mid : Z) : M S bool :=
  e ← lift_res (k ← Constant_create mid (getWidth (expr q)); UleExpr_make ConstArrayOpt (expr q) k);
  must_succeed (Solver_mayBeTrue (withExpr q e)).
Definition ask_max (q : Query) (mid : Z) : M S bool :=
  e ← lift_res (k ← Constant_create mid (getWidth (expr q)); UleExpr_make ConstArrayOpt (expr q) k);
  must_succeed (Solver_mustBeTrue (withExpr q e)).
(** A loop halves an interval of less than 2^64 numbers. *)
Definition range_fuel : nat := 64.
Definition search_range (q : Query) : M S (Z * Z) :=
  bits ← bsearch range_fuel (ask_bits q) 0 (getWidth (expr q));
  zero ← ask_zero q;
  min ← (if (zero : bool) then mret 0 else bsearch range_fuel (ask_min q) 0 (maxValueOfNBits bits));
  max ← bsearch range_fuel (ask_max q) min (maxValueOfNBits bits);
  mret (min, max).
Definition Solver_getRange (q : Query) : M S (Expr * Expr) :=
  let width := getWidth (expr q) in
  r ← (if width =? 1 then
         v ← must_succeed (Solver_evaluate q);
         mret (match v with VTrue => (1, 1) | VFalse => (0, 0) | VUnknown => (0, 1) end)
       else
         match expr q with
         | Constant w v => x ← lift_res (getZExtValue 64 w v); mret (x, x)
         | _ => search_range q
         end);
  lo ← lift_res (Constant_create r.1 width); hi ← lift_res (Constant_create r.2 width);
  mret (lo, hi).
End Impl.

(** ** The engine's solver *)
(** [simplify] is [state.constraints.simplifyExpr] when [simplifyExprs] is set. *)
Section Timing.
Context (impl : SolverImpl S) (simplify : list Expr → Expr → M S Expr) (cs : list Expr).

Definition TimingSolver_evaluate (e : Expr) : M S (option Validity) :=
  match e with
  | Constant w v => b ← lift_res (isTrue w v); mret (Some (if (b : bool) then VTrue else VFalse))
  | _ => e ← simplify cs e; Solver_evaluate impl (mkQuery cs e)
  end.
Definition TimingSolver_mustBeTrue (e : Expr) : M S (option bool) :=
  match e with
  | Constant w v => b ← lift_res (isTrue w v); mret (Some b)
  | _ => e ← simplify cs e; Solver_mustBeTrue impl (mkQuery cs e)
  end.
Definition TimingSolver_mustBeFalse (e : Expr) : M S (option bool) := z ← lift_res (createIsZero ConstArrayOpt e); TimingSolver_mustBeTrue z.
Definition TimingSolver_mayBeTrue (e : Expr) : M S (option bool) := ok (TimingSolver_mustBeFalse e) (λ res, mret (Some (negb res))).
Definition TimingSolver_mayBeFalse (e : Expr) : M S (option bool) := ok (TimingSolver_mustBeTrue e) (λ res, mret (Some (negb res))).
Definition TimingSolver_getValue (e : Expr) : M S (option Expr) :=
  match e with
  | Constant _ _ => mret (Some e)
  | _ => e ← simplify cs e; Solver_getValue impl (mkQuery cs e)
  end.
Definition TimingSolver_getInitialValues (objects : list Array) : M S (option (list (list Z))) :=
  match objects with
  | [] => mret (Some [])
  | _ => Solver_getInitialValues impl (mkQuery cs (Constant_alloc 0 Bool)) objects
  end.
Definition TimingSolver_getRange (e : Expr) : M S (Expr * Expr) := Solver_getRange impl (mkQuery cs e).
End Timing.

(** ** Checking one solver by another *)
Section Validating.
Context (solver oracle : SolverImpl S).

Definition validating_computeTruth (q : Query) : M S (option bool) :=
  ok (computeTruth solver q) (λ isValid,
    ok (computeTruth oracle q) (λ answer, c_assert (Bool.eqb isValid answer);; mret (Some isValid))).
Definition validating_computeValidity (q : Query) : M S (option Validity) :=
  ok (computeValidity solver q) (λ result,
    ok (computeValidity oracle q) (λ answer, c_assert (bool_decide (result = answer));; mret (Some result))).
Definition validating_computeValue (q : Query) : M S (option Expr) :=
  ok (computeValue solver q) (λ result,
    ne ← lift_res (NeExpr_make ConstArrayOpt (expr q) result);
    ok (computeTruth oracle (withExpr q ne)) (λ answer, c_assert (negb answer);; mret (Some result))).

(** One equation per byte of each object. *)
Fixpoint byte_bindings (array : Array) (j : Z) (values : list Z) : res (list Expr) :=
  match values with
  | [] => mret []
  | v :: values =>
    r ← ReadExpr_make ConstArrayOpt array UNil (Constant_alloc j Int32);
    b ← EqExpr_make ConstArrayOpt r (Constant_alloc v Int8);
    bs ← byte_bindings array (j + 1) values; mret (b :: bs)
  end.
Fixpoint all_bindings (objects : list Array) (values : list (list Z)) : res (list Expr) :=
  match values, objects with
  | [], _ => mret []
  | v :: values, array :: objects =>
    _ ← (if decide (Z.of_nat (length v) < arr_size array) then halt MemoryError else mret tt);
    bs ← byte_bindings array 0 (take (Z.to_nat (arr_size array)) v);
    bss ← all_bindings objects values; mret (bs ++ bss)
  | _ :: _, [] => halt MemoryError
  end.
Fixpoint conjoin (e : Expr) (cs : list Expr) : res Expr :=
  match cs with [] => mret e | c :: cs => e ← AndExpr_make e c; conjoin e cs end.
Definition validating_computeInitialValues (q : Query) (objects : list Array) : M S (option (option (list (list Z)))) :=
  ok (computeInitialValues solver q objects) (λ r,
    match r with
    | Some values =>
      bindings ← lift_res (all_bindings objects values);
      z ← lift_res (createIsZero ConstArrayOpt (expr q));
      e ← lift_res (conjoin z (constraints q));
      ok (computeTruth oracle (mkQuery bindings e)) (λ answer, c_assert answer;; mret (Some r))
    | None => ok (computeTruth oracle q) (λ answer, c_assert answer;; mret (Some r))
    end).
Definition createValidatingSolver : SolverImpl S :=
  mkImpl validating_computeTruth validating_computeValidity validating_computeValue validating_computeInitialValues.
End Validating.
End Front.

(** ** Partial answers *)
Inductive PartialValidity : Type := MustBeTrue | MustBeFalse | MayBeTrue | MayBeFalse | TrueOrFalse | PNone.
#[global] Instance PartialValidity_eq_dec : EqDecision PartialValidity.
Proof. solve_decision. Defined.
(** [None] is not a valid argument. *)
Definition negatePartialValidity {S} (pv : PartialValidity) : M S PartialValidity :=
  match pv with
  | MustBeTrue => mret MustBeFalse
  | MustBeFalse => mret MustBeTrue
  | MayBeTrue => mret MayBeFalse
  | MayBeFalse => mret MayBeTrue
  | TrueOrFalse => mret TrueOrFalse
  | PNone => halt AssertFailure
  end.

Section Staged.
Context `{!APInt, !ExprCompare} (ConstArrayOpt : bool) {S : Type}.

(** [IncompleteSolver::computeValidity], from the answers to a query and its negation. *)
Definition incomplete_computeValidity (truth : Query → M S PartialValidity) (q : Query) : M S PartialValidity :=
  trueResult ← truth q;
  if decide (trueResult = MustBeTrue) then mret MustBeTrue
  else
    n ← negateExpr ConstArrayOpt q;
    falseResult ← truth n;
    if decide (falseResult = MustBeTrue) then mret MustBeFalse
    else
      let trueCorrect := bool_decide (trueResult ≠ PNone) in
      let falseCorrect := bool_decide (falseResult ≠ PNone) in
      mret (if trueCorrect && falseCorrect then TrueOrFalse
            else if trueCorrect then MayBeFalse
            else if falseCorrect then MayBeTrue else PNone).

(** A primary that may not know, and a secondary. *)
Record IncompleteSolver := mkIncomplete {
  i_computeTruth : Query → M S PartialValidity;
  i_computeValue : Query → M S (option Expr);
  i_computeInitialValues : Query → list Array → M S (option (option (list (list Z))))
}.
Context (primary : IncompleteSolver) (secondary : SolverImpl S).

Definition staged_computeTruth (q : Query) : M S (option bool) :=
  r ← i_computeTruth primary q;
  if decide (r = PNone) then computeTruth secondary q else mret (Some (bool_decide (r = MustBeTrue))).
Definition staged_computeValidity (q : Query) : M S (option Validity) :=
  r ← incomplete_computeValidity (i_computeTruth primary) q;
  match r with
  | MustBeTrue => mret (Some VTrue)
  | MustBeFalse => mret (Some VFalse)
  | TrueOrFalse => mret (Some VUnknown)
  | MayBeTrue => ok (computeTruth secondary q) (λ tmp, mret (Some (if (tmp : bool) then VTrue else VUnknown)))
  | MayBeFalse =>
    n ← negateExpr ConstArrayOpt q;
    ok (computeTruth secondary n) (λ tmp, mret (Some (if (tmp : bool) then VFalse else VUnknown)))
  | PNone => computeValidity secondary q
  end.
Definition staged_computeValue (q : Query) : M S (option Expr) :=
  r ← i_computeValue primary q; match r with Some e => mret (Some e) | None => computeValue secondary q end.
Definition staged_computeInitialValues (q : Query) (objects : list Array) : M S (option (option (list (list Z)))) :=
  r ← i_computeInitialValues primary q objects;
  match r with Some v => mret (Some v) | None => computeInitialValues secondary q objects end.
Definition StagedSolverImpl : SolverImpl S :=
  mkImpl staged_computeTruth staged_computeValidity staged_computeValue staged_computeInitialValues.
End Staged.

(** ** Caching *)
(** [Expr::compare] orders expressions by kind, hash value and contents; the cache works
    with any order. *)
Class ExprOrder := { less : Expr → Expr → bool }.

Section Caching.
Context `{!APInt, !ExprCompare, !ExprOrder} (ConstArrayOpt : bool) {S : Type} (solver : SolverImpl S).

Definition cache_entry : Type := (list Expr * Expr) * PartialValidity.
(** The solver below and the cache. *)
Record cached := mkCached { c_solver : S; cache : list cache_entry }.
Definition below {A} (m : M S A) : M cached A := zoom c_solver (λ s c, mkCached s (cache c)) m.

Definition canonicalizeQuery (originalQuery : Expr) : M cached (Expr * bool) :=
  negatedQuery ← lift_res (createIsZero ConstArrayOpt originalQuery);
  mret (if less originalQuery negatedQuery then (originalQuery, false) else (negatedQuery, true)).

Fixpoint same_list (a b : list Expr) : bool :=
  match a, b with
  | [], [] => true
  | x :: a, y :: b => same x y && same_list a b
  | _, _ => false
  end.
Definition same_entry (a b : list Expr * Expr) : bool := same_list a.1 b.1 && same a.2 b.2.
Fixpoint cache_find (ce : list Expr * Expr) (c : list cache_entry) : option PartialValidity :=
  match c with
  | [] => None
  | (k, v) :: c => if same_entry k ce then Some v else cache_find ce c
  end.

Definition cacheLookup (q : Query) : M cached (option PartialValidity) :=
  p ← canonicalizeQuery (expr q);
  c ← gets cache;
  match cache_find (constraints q, p.1) c with
  | Some pv => if (p.2 : bool) then n ← negatePartialValidity pv; mret (Some n) else mret (Some pv)
  | None => mret None
  end.
(** [insert] of a map leaves an entry that is there. *)
Definition cacheInsert (q : Query) (result : PartialValidity) : M cached unit :=
  p ← canonicalizeQuery (expr q);
  r ← (if (p.2 : bool) then negatePartialValidity result else mret result);
  modify (λ c, match cache_find (constraints q, p.1) (cache c) with
               | Some _ => c
               | None => mkCached (c_solver c) (((constraints q, p.1), r) :: cache c)
               end).

Definition caching_computeValidity (q : Query) : M cached (option Validity) :=
  hit ← cacheLookup q;
  match hit with
  | Some MustBeTrue => mret (Some VTrue)
  | Some MustBeFalse => mret (Some VFalse)
  | Some TrueOrFalse => mret (Some VUnknown)
  | Some MayBeTrue =>
    ok (below (computeTruth solver q)) (λ tmp,
      if (tmp : bool) then cacheInsert q MustBeTrue;; mret (Some VTrue)
      else cacheInsert q TrueOrFalse;; mret (Some VUnknown))
  | Some MayBeFalse =>
    n ← negateExpr ConstArrayOpt q;
    ok (below (computeTruth solver n)) (λ tmp,
      if (tmp : bool) then cacheInsert q MustBeFalse;; mret (Some VFalse)
      else cacheInsert q TrueOrFalse;; mret (Some VUnknown))
  | Some PNone => halt AssertFailure
  | None =>
    ok (below (computeValidity solver q)) (λ result,
      cacheInsert q (match result with VTrue => MustBeTrue | VFalse => MustBeFalse | VUnknown => TrueOrFalse end);;
      mret (Some result))
  end.
Definition caching_computeTruth (q : Query) : M cached (option bool) :=
  hit ← cacheLookup q;
  match hit with
  | Some MayBeTrue | None =>
    ok (below (computeTruth solver q)) (λ isValid,
      cacheInsert q (if (isValid : bool) then MustBeTrue else if hit then TrueOrFalse else MayBeFalse);;
      mret (Some isValid))
  | Some r => mret (Some (bool_decide (r = MustBeTrue)))
  end.
Definition createCachingSolver : SolverImpl cached :=
  mkImpl caching_computeTruth caching_computeValidity (λ q, below (computeValue solver q))
    (λ q objects, below (computeInitialValues solver q objects)).
End Caching.
