(* ===== verification/SolverSpec.v ===== *)
(** * Right answers

    What a solver promises ([right]): its queries return, and an answer that is not a
    failure is true of the assignments that satisfy the constraints.  The front end
    keeps the promise, and each layer keeps it when the solver below does. *)
From S2P Require Import Prelude Expr ExprCreate ExprRefine ExprSums ExprSpec ExprBuild Memory MemorySpec AddressSpace AddressSpaceResolve Solver.

(** ** Queries *)
(** The assignments under consideration: all of them for the engine. *)
Class Universe := in_universe : assignment → Prop.
#[global] Instance all_assignments : Universe | 100 := λ _, True.

Definition sat_of `{U : !Universe} (cs : list Expr) (env : assignment) : Prop := in_universe env ∧ ∀ c, c ∈ cs → eval env c = Some 1.

Section Universe.
Context `{U : !Universe}.
Definition sat (q : Query) : assignment → Prop := sat_of (constraints q).
Definition bool_expr (e : Expr) : Prop := wf e ∧ getWidth e = Bool.

(** The constraints of a path are conditions and can be satisfied together, and the
    expression has a value wherever they hold. *)
Record fine_constraints (cs : list Expr) : Prop := mkFine {
  fine_bool : Forall bool_expr cs;
  fine_sat : ∃ env, sat_of cs env
}.
Definition value_query (q : Query) : Prop := fine_constraints (constraints q) ∧ wf (expr q) ∧ defined (sat q) (expr q).
Definition truth_query (q : Query) : Prop := value_query q ∧ getWidth (expr q) = Bool.
Definition never (P : assignment → Prop) (e : Expr) : Prop := ∀ env, P env → eval env e = Some 0.

Definition truth_ok (q : Query) (r : option bool) : Prop :=
  (r = Some true → must (sat q) (expr q)) ∧ (r = Some false → may_not (sat q) (expr q)).
Definition validity_ok (q : Query) (r : option Validity) : Prop :=
  match r with
  | Some VTrue => must (sat q) (expr q)
  | Some VFalse => never (sat q) (expr q)
  | Some VUnknown => may (sat q) (expr q) ∧ may_not (sat q) (expr q)
  | None => True
  end.
Definition value_ok (q : Query) (r : option Expr) : Prop :=
  ∀ c, r = Some c → ∃ v env, c = Constant (getWidth (expr q)) v ∧ sat q env ∧ eval env (expr q) = Some v.
(** The bytes of the arrays under a counterexample. *)
Definition initial_bytes (env : assignment) (a : Array) : list Z := (λ i, u8 (env a (Z.of_nat i))) <$> seq 0 (Z.to_nat (arr_size a)).
Definition values_ok (q : Query) (objects : list Array) (r : option (option (list (list Z)))) : Prop :=
  match r with
  | Some (Some values) => ∃ env, sat q env ∧ eval env (expr q) = Some 0 ∧ values = initial_bytes env <$> objects
  | Some None => must (sat q) (expr q)
  | None => True
  end.

(** A computation from a state that satisfies [I] returns, in such a state. *)
Definition returns {S A} (I : S → Prop) (m : M S A) (s : S) (Q : A → Prop) : Prop := ∃ a s', m s = Done a s' ∧ I s' ∧ Q a.

Record right {S} (I : S → Prop) (impl : SolverImpl S) : Prop := mkRight {
  r_truth q s : I s → truth_query q → returns I (computeTruth impl q) s (truth_ok q);
  r_validity q s : I s → truth_query q → returns I (computeValidity impl q) s (validity_ok q);
  r_value q s : I s → value_query q → returns I (computeValue impl q) s (value_ok q);
  r_values q objects s : I s → truth_query q → returns I (computeInitialValues impl q objects) s (values_ok q objects)
}.

Section Returns.
Context {S : Type} (I : S → Prop).
Lemma returns_ret {A} (a : A) s (Q : A → Prop) : I s → Q a → returns I (mret a) s Q.
Proof. intros. by exists a, s. Qed.
Lemma returns_bind {A B} (m : M S A) (k : A → M S B) s (Q : A → Prop) (R : B → Prop) :
  returns I m s Q → (∀ a s', I s' → Q a → returns I (k a) s' R) → returns I (m ≫= k) s R.
Proof. intros (a & s' & E & Hi & HQ) Hk. destruct (Hk a s' Hi HQ) as (b & s2 & E2 & H). exists b, s2. by rewrite (bind_done _ _ _ _ _ E). Qed.
Lemma returns_ok {A B} (m : M S (option A)) (k : A → M S (option B)) s (Q : option A → Prop) (R : option B → Prop) :
  returns I m s Q → R None → (∀ a s', I s' → Q (Some a) → returns I (k a) s' R) → returns I (ok m k) s R.
Proof. intros Hm Hn Hk. unfold ok. eapply returns_bind; [exact Hm|]. intros [a|] s' Hi HQ; [by apply Hk|by apply returns_ret]. Qed.
Lemma returns_lift {A} (m : res A) a s (Q : A → Prop) : I s → m tt = Done a tt → Q a → returns I (lift_res m) s Q.
Proof. intros Hi E HQ. exists a, s. unfold lift_res. by rewrite E. Qed.
Lemma returns_lift_bind {A B} (m : res A) a s (k : A → M S B) R : m tt = Done a tt → returns I (k a) s R → returns I (lift_res m ≫= k) s R.
Proof. intros E (b & s' & E' & H). exists b, s'. split; [|done]. unfold mbind, M_bind, lift_res in *. by rewrite E. Qed.
Lemma returns_assert_bind {B} b s (k : unit → M S B) R : b = true → returns I (k tt) s R → returns I (c_assert b ≫= k) s R.
Proof. intros -> H. exact H. Qed.
Lemma returns_assert b s (Q : unit → Prop) : I s → b = true → Q tt → returns I (c_assert b) s Q.
Proof. intros Hi -> HQ. by apply returns_ret. Qed.
Lemma returns_mono {A} (m : M S A) s (Q R : A → Prop) : returns I m s Q → (∀ a, Q a → R a) → returns I m s R.
Proof. intros (a & s' & E & Hi & HQ) H. exists a, s'. auto. Qed.
End Returns.

(** ** Truth values *)
Lemma truth_value q env : truth_query q → sat q env → eval env (expr q) = Some 0 ∨ eval env (expr q) = Some 1.
Proof. intros [(_ & Hw & Hd) Hl] Hs. by apply (query_value (sat q)). Qed.
Lemma must_false q : truth_query q → must (sat q) (expr q) → never (sat q) (expr q) → False.
Proof. intros [(Hf & _) _] Ht Hn. destruct (fine_sat _ Hf) as [env Hs]. specialize (Ht env Hs). specialize (Hn env Hs). congruence. Qed.

(** The negated query. *)
Section Negate.
Context `{HA : !APInt, HC : !ExprCompare} (CAO : bool).

Lemma negate_spec q : truth_query q → ∃ e, createIsZero CAO (expr q) tt = Done e tt ∧ truth_query (withExpr q e) ∧
  ∀ env, sat q env → (eval env e = Some 1 ↔ eval env (expr q) = Some 0) ∧ (eval env e = Some 0 ↔ eval env (expr q) = Some 1).
Proof.
  intros Hq. pose proof Hq as [(Hf & Hw & Hd) Hl]. destruct (createIsZero_builds CAO (expr q) Hw ltac:(rewrite Hl; lia)) as (e & Ee & We & Le & He).
  cbn in Le. assert (Hv : ∀ env, sat q env → (eval env e = Some 1 ↔ eval env (expr q) = Some 0) ∧ (eval env e = Some 0 ↔ eval env (expr q) = Some 1)).
  { intros env Hs. destruct (truth_value q env Hq Hs) as [E|E].
    - assert (E' : eval env e = Some 1) by (apply He, eval_cmp; exists 0, 0; rewrite E; done). rewrite E, E'. naive_solver.
    - assert (E' : eval env e = Some 0) by (apply He, eval_cmp; exists 1, 0; rewrite E; done). rewrite E, E'. naive_solver. }
  exists e. split; [done|]. split; [|done]. split; [|done]. split; [done|]. split; [done|]. intros env Hs. cbn in *.
  destruct (truth_value q env Hq Hs) as [E|E]; apply Hv in E; (done || by eauto).
Qed.
(** An answer about the negated query, for the query itself. *)
Lemma negate_truth q e r : truth_query q →
  (∀ env, sat q env → (eval env e = Some 1 ↔ eval env (expr q) = Some 0) ∧ (eval env e = Some 0 ↔ eval env (expr q) = Some 1)) →
  truth_ok (withExpr q e) r → (r = Some true → never (sat q) (expr q)) ∧ (r = Some false → may (sat q) (expr q)).
Proof.
  intros Hq Hv [Ht Hn]. split.
  - intros Hr env Hs. by apply Hv, Ht.
  - intros Hr. destruct (Hn Hr) as (env & Hs & E). exists env. split; [done|]. by apply Hv.
Qed.
Lemma returns_negate {S} (I : S → Prop) q s {B} (k : Query → M S B) (R : B → Prop) : I s → truth_query q →
  (∀ e, truth_query (withExpr q e) →
    (∀ env, sat q env → (eval env e = Some 1 ↔ eval env (expr q) = Some 0) ∧ (eval env e = Some 0 ↔ eval env (expr q) = Some 1)) →
    returns I (k (withExpr q e)) s R) →
  returns I (negateExpr CAO q ≫= k) s R.
Proof.
  intros Hi Hq Hk. destruct (negate_spec q Hq) as (e & Ee & He & Hv). unfold negateExpr.
  destruct (Hk e He Hv) as (b & s' & E & H). exists b, s'. split; [|done].
  unfold mbind, M_bind, lift_res in *. by rewrite Ee.
Qed.

(** ** The front end *)
Section FrontEnd.
Context {S : Type} (I : S → Prop) (impl : SolverImpl S) (HR : right I impl).

Lemma constant_query q w v : truth_query q → expr q = Constant w v → w = Bool ∧ (v = 0 ∨ v = 1).
Proof. intros [(_ & Hw & _) Hl] E. rewrite E in Hw, Hl. cbn in Hl. subst. split; [done|]. by apply bits_1, Hw. Qed.
Lemma constant_truth w v : w = Bool → v = 0 ∨ v = 1 → isTrue w v tt = Done (v =? 1) tt.
Proof. intros -> Hv. by apply isTrue_bool. Qed.

Lemma evaluate_right q s : I s → truth_query q → returns I (Solver_evaluate impl q) s (validity_ok q).
Proof.
  intros Hi Hq. unfold Solver_evaluate. apply returns_assert_bind; [apply Z.eqb_eq, Hq|].
  destruct (expr q) as [w v| | | | | | | | | |] eqn:E; try (by apply (r_validity I impl HR)).
  destruct (constant_query q w v Hq E) as [Hw Hv]. eapply returns_lift_bind; [by apply constant_truth|]. apply returns_ret; [done|].
  unfold validity_ok, must, never. rewrite E. by destruct Hv as [->| ->].
Qed.
Lemma mustBeTrue_right q s : I s → truth_query q → returns I (Solver_mustBeTrue impl q) s (truth_ok q).
Proof.
  intros Hi Hq. unfold Solver_mustBeTrue. apply returns_assert_bind; [apply Z.eqb_eq, Hq|].
  destruct (expr q) as [w v| | | | | | | | | |] eqn:E; try (by apply (r_truth I impl HR)).
  destruct (constant_query q w v Hq E) as [Hw Hv]. eapply returns_lift_bind; [by apply constant_truth|]. apply returns_ret; [done|].
  unfold truth_ok, must, may_not. rewrite E. destruct Hv as [->| ->]; [|by split]. split; [done|].
  destruct (fine_sat _ (proj1 (proj1 Hq))) as [env Hs]. intros _. by exists env.
Qed.
Definition false_ok (q : Query) (r : option bool) : Prop :=
  (r = Some true → never (sat q) (expr q)) ∧ (r = Some false → may (sat q) (expr q)).
Definition may_ok (q : Query) (r : option bool) : Prop :=
  (r = Some true → may (sat q) (expr q)) ∧ (r = Some false → never (sat q) (expr q)).
Lemma mustBeFalse_right q s : I s → truth_query q → returns I (Solver_mustBeFalse CAO impl q) s (false_ok q).
Proof.
  intros Hi Hq. unfold Solver_mustBeFalse. apply returns_negate; [done|done|]. intros e He Hv.
  eapply returns_mono; [by apply mustBeTrue_right|]. intros r. by apply negate_truth.
Qed.
Lemma mayBeTrue_right q s : I s → truth_query q → returns I (Solver_mayBeTrue CAO impl q) s (may_ok q).
Proof.
  intros Hi Hq. unfold Solver_mayBeTrue. eapply returns_ok; [by apply mustBeFalse_right|by split|].
  intros b s' Hi' [H1 H2]. apply returns_ret; [done|]. destruct b; cbn; split; intros [=]; auto.
Qed.
Lemma mayBeFalse_right q s : I s → truth_query q →
  returns I (Solver_mayBeFalse impl q) s (λ r, (r = Some true → may_not (sat q) (expr q)) ∧ (r = Some false → must (sat q) (expr q))).
Proof.
  intros Hi Hq. unfold Solver_mayBeFalse. eapply returns_ok; [by apply mustBeTrue_right|by split|].
  intros b s' Hi' [H1 H2]. apply returns_ret; [done|]. destruct b; cbn; split; intros [=]; auto.
Qed.
Lemma getValue_right q s : I s → value_query q → returns I (Solver_getValue impl q) s (value_ok q).
Proof.
  intros Hi Hq. unfold Solver_getValue.
  assert (Hg : returns I (ok (computeValue impl q) (λ tmp, c_assert (isa_Constant tmp);; mret (Some tmp))) s (value_ok q)).
  { eapply returns_ok; [by apply (r_value I impl HR)|done|]. intros c s' Hi' Hc. destruct (Hc c eq_refl) as (v & env & -> & _).
    apply returns_assert_bind; [done|]. by apply returns_ret. }
  destruct (expr q) as [w v| | | | | | | | | |] eqn:E; try exact Hg. apply returns_ret; [done|]. intros c [= <-].
  destruct (fine_sat _ (proj1 Hq)) as [env Hs]. exists v, env. rewrite E. by split_and!.
Qed.
Lemma getInitialValues_right q objects s : I s → truth_query q → returns I (Solver_getInitialValues impl q objects) s
  (λ r, ∀ values, r = Some values → ∃ env, sat q env ∧ eval env (expr q) = Some 0 ∧ values = initial_bytes env <$> objects).
Proof.
  intros Hi Hq. unfold Solver_getInitialValues. eapply returns_ok; [by apply (r_values I impl HR)|done|].
  intros r s' Hi' Hr. apply returns_ret; [done|]. by intros values ->.
Qed.
End FrontEnd.

(** ** Layers *)
Section Layers.
Context {S : Type} (I : S → Prop).

Lemma default_validity_right (truth : Query → M S (option bool)) :
  (∀ q s, I s → truth_query q → returns I (truth q) s (truth_ok q)) →
  ∀ q s, I s → truth_query q → returns I (default_computeValidity CAO truth q) s (validity_ok q).
Proof.
  intros Ht q s Hi Hq. unfold default_computeValidity. eapply returns_ok; [by apply Ht|done|]. intros b s1 Hi1 [H1 H2].
  destruct b; [apply returns_ret; [done|by apply H1]|]. apply returns_negate; [done|done|]. intros e He Hv.
  eapply returns_ok; [by apply Ht|done|]. intros b s2 Hi2 Hb. apply returns_ret; [done|]. destruct (negate_truth q e _ Hq Hv Hb) as [H3 H4].
  destruct b; cbn; auto.
Qed.

(** *** Checked answers *)
(** Whatever the solver answers, what passes the check of a right oracle is right. *)
Lemma validating_truth_right solver oracle q s r s' : right I oracle → truth_query q →
  (∀ r s1, computeTruth solver q s = Done r s1 → I s1) →
  validating_computeTruth solver oracle q s = Done r s' → truth_ok q r.
Proof.
  intros HO Hq Hs E. unfold validating_computeTruth, ok, mbind, M_bind in E.
  destruct (computeTruth solver q s) as [[b|] s1|] eqn:E1; [|by injection E as <- <-|done].
  destruct (r_truth I oracle HO q s1 (Hs _ _ eq_refl) Hq) as ([a|] & s2 & E2 & Hi2 & Ha); rewrite E2 in E; [|by injection E as <- <-].
  destruct (Bool.eqb b a) eqn:Eb; [|done]. cbn in E. injection E as <- <-. apply eqb_prop in Eb. by subst.
Qed.
Lemma validating_validity_right solver oracle q s r s' : right I oracle → truth_query q →
  (∀ r s1, computeValidity solver q s = Done r s1 → I s1) →
  validating_computeValidity solver oracle q s = Done r s' → validity_ok q r.
Proof.
  intros HO Hq Hs E. unfold validating_computeValidity, ok, mbind, M_bind in E.
  destruct (computeValidity solver q s) as [[b|] s1|] eqn:E1; [|by injection E as <- <-|done].
  destruct (r_validity I oracle HO q s1 (Hs _ _ eq_refl) Hq) as ([a|] & s2 & E2 & Hi2 & Ha); rewrite E2 in E; [|by injection E as <- <-].
  case_bool_decide; [|done]. cbn in E. injection E as <- <-. by subst.
Qed.

(** *** Two stages *)
(** A partial answer says what it says. *)
Definition partial_ok (q : Query) (r : PartialValidity) : Prop :=
  match r with
  | MustBeTrue => must (sat q) (expr q)
  | MustBeFalse => never (sat q) (expr q)
  | MayBeTrue => may (sat q) (expr q)
  | MayBeFalse => may_not (sat q) (expr q)
  | TrueOrFalse => may (sat q) (expr q) ∧ may_not (sat q) (expr q)
  | PNone => True
  end.
(** The answers of [computeTruth] of an incomplete solver: proved, refuted, or neither. *)
Definition partial_truth_ok (q : Query) (r : PartialValidity) : Prop :=
  (r = MustBeTrue ∨ r = MayBeFalse ∨ r = PNone) ∧ partial_ok q r.
Record incomplete_right (primary : IncompleteSolver) : Prop := mkIncompleteRight {
  i_truth q s : I s → truth_query q → returns I (i_computeTruth primary q) s (partial_truth_ok q);
  i_value q s : I s → value_query q → returns I (i_computeValue primary q) s (value_ok q);
  i_values q objects s : I s → truth_query q → returns I (i_computeInitialValues primary q objects) s (values_ok q objects)
}.

Lemma incomplete_validity_right truth q s : (∀ q s, I s → truth_query q → returns I (truth q) s (partial_truth_ok q)) →
  I s → truth_query q → returns I (incomplete_computeValidity CAO truth q) s (partial_ok q).
Proof.
  intros Ht Hi Hq. unfold incomplete_computeValidity. eapply returns_bind; [by apply Ht|]. intros r1 s1 Hi1 [Hr1 H1].
  case_decide; [subst; by apply returns_ret|]. apply returns_negate; [done|done|]. intros e He Hv.
  eapply returns_bind; [by apply Ht|]. intros r2 s2 Hi2 [Hr2 H2].
  assert (Hneg : (r2 = MustBeTrue → never (sat q) (expr q)) ∧ (r2 = MayBeFalse → may (sat q) (expr q))).
  { split; intros ->; cbn in H2.
    - intros env Hs. by apply Hv, H2.
    - destruct H2 as (env & Hs & E). exists env. split; [done|]. by apply Hv. }
  destruct Hneg as [Hn Hm]. case_decide; [subst; apply returns_ret; [done|by apply Hn]|]. apply returns_ret; [done|].
  destruct Hr1 as [->|[->| ->]], Hr2 as [->|[->| ->]]; try done;
    rewrite ?(bool_decide_true (MayBeFalse ≠ PNone)) by done; rewrite ?(bool_decide_false (PNone ≠ PNone)) by (by intros []); cbn in *; auto.
Qed.

Lemma staged_right primary secondary : incomplete_right primary → right I secondary → right I (StagedSolverImpl CAO primary secondary).
Proof.
  intros [Pt Pv Pi] HS. constructor; cbn.
  - intros q s Hi Hq. unfold staged_computeTruth. eapply returns_bind; [by apply Pt|]. intros r s1 Hi1 [Hr H1].
    case_decide; [by apply (r_truth I secondary HS)|]. apply returns_ret; [done|].
    destruct Hr as [->|[->| ->]]; try done; by split.
  - intros q s Hi Hq. unfold staged_computeValidity. eapply returns_bind; [by apply incomplete_validity_right|]. intros r s1 Hi1 Hr.
    destruct r; try (by apply returns_ret); cbn in Hr; [..|by apply (r_validity I secondary HS)].
    + eapply returns_ok; [by apply (r_truth I secondary HS)|done|]. intros b s2 Hi2 [H1 H2]. apply returns_ret; [done|]. destruct b; cbn; auto.
    + apply returns_negate; [done|done|]. intros e He Hv. eapply returns_ok; [by apply (r_truth I secondary HS)|done|].
      intros b s2 Hi2 Hb. destruct (negate_truth q e _ Hq Hv Hb) as [H3 H4]. apply returns_ret; [done|]. destruct b; cbn; auto.
  - intros q s Hi Hq. unfold staged_computeValue. eapply returns_bind; [by apply Pv|]. intros [c|] s1 Hi1 Hr; [by apply returns_ret|by apply (r_value I secondary HS)].
  - intros q objects s Hi Hq. unfold staged_computeInitialValues. eapply returns_bind; [by apply Pi|].
    intros [c|] s1 Hi1 Hr; [by apply returns_ret|by apply (r_values I secondary HS)].
Qed.
End Layers.
End Negate.
End Universe.

(** ** The cache *)
(** [CachingSolver] answers from its cache what is true of the constraints of the query,
    through the negations that make queries canonical. *)

Section Cache.
Context `{U : !Universe, HA : !APInt, HC : !ExprCompare, HO : !ExprOrder} (CAO : bool) {S : Type} (I : S → Prop) (solver : SolverImpl S) (HR : right I solver).

Definition entry_ok (x : cache_entry) : Prop := x.2 ≠ PNone ∧ partial_ok (mkQuery x.1.1 x.1.2) x.2.
Definition cache_inv (c : @cached S) : Prop := I (c_solver c) ∧ Forall entry_ok (cache c).

Lemma same_list_sound a b : same_list a b = true → a = b.
Proof.
  revert b. induction a as [|x a IH]; intros [|y b]; cbn; try done. intros [H1 H2]%andb_true_iff. apply same_sound in H1 as ->. by rewrite (IH b H2).
Qed.
Lemma same_entry_sound a b : same_entry a b = true → a = b.
Proof. destruct a, b. intros [H1%same_list_sound H2%same_sound]%andb_true_iff. cbn in *. by subst. Qed.
Lemma cache_find_ok ce c pv : Forall entry_ok c → cache_find ce c = Some pv → entry_ok (ce, pv).
Proof.
  induction 1 as [|[k v] c Hk Hc IH]; [done|]. cbn. destruct (same_entry k ce) eqn:E; [|exact IH]. apply same_entry_sound in E as ->. by intros [= ->].
Qed.

(** The negation of an answer. *)
Definition neg (pv : PartialValidity) : PartialValidity :=
  match pv with MustBeTrue => MustBeFalse | MustBeFalse => MustBeTrue | MayBeTrue => MayBeFalse | MayBeFalse => MayBeTrue | pv => pv end.
Lemma neg_run (pv : PartialValidity) (c : @cached S) : pv ≠ PNone → negatePartialValidity pv c = Done (neg pv) c ∧ neg pv ≠ PNone ∧ neg (neg pv) = pv.
Proof. by destruct pv. Qed.

(** The expression that stands for a query in the cache. *)
Definition canonical (q : Query) (p : Expr * bool) : Prop :=
  ∀ pv, pv ≠ PNone → partial_ok (withExpr q p.1) pv ↔ partial_ok q (if p.2 then neg pv else pv).
Lemma canonicalize_run q (c : @cached S) : truth_query q →
  ∃ p, canonicalizeQuery CAO (expr q) c = Done p c ∧ canonical q p.
Proof.
  intros Hq. destruct (negate_spec CAO q Hq) as (e & Ee & He & Hv). unfold canonicalizeQuery, mbind, M_bind, lift_res. rewrite Ee.
  eexists. split; [reflexivity|]. destruct (less (expr q) e); [by destruct q|]. intros pv Hpv. cbn [fst snd].
  assert (Hm : must (sat q) e ↔ never (sat q) (expr q)) by (split; intros H env Hs; apply Hv; auto).
  assert (Hn : never (sat q) e ↔ must (sat q) (expr q)) by (split; intros H env Hs; apply Hv; auto).
  assert (Hy : may (sat q) e ↔ may_not (sat q) (expr q)) by (split; intros (env & Hs & E); exists env; (split; [done|]); by apply Hv).
  assert (Hz : may_not (sat q) e ↔ may (sat q) (expr q)) by (split; intros (env & Hs & E); exists env; (split; [done|]); by apply Hv).
  destruct pv; cbn; try done. unfold sat in *. cbn. naive_solver.
Qed.

Lemma cacheLookup_right q c : cache_inv c → truth_query q →
  ∃ r, cacheLookup CAO q c = Done r c ∧ ∀ pv, r = Some pv → pv ≠ PNone ∧ partial_ok q pv.
Proof.
  intros [Hi Hc] Hq. destruct (canonicalize_run q c Hq) as (p & Ep & Hp). unfold cacheLookup. rewrite (bind_done _ _ _ _ _ Ep).
  rewrite (bind_done _ _ _ (cache c) c) by done. destruct (cache_find (constraints q, p.1) (cache c)) as [pv|] eqn:Ef; [|by eexists].
  destruct (cache_find_ok _ _ _ Hc Ef) as [Hpv Hok]. cbn in Hok. apply (Hp pv Hpv) in Hok. destruct p.2.
  - destruct (neg_run pv c Hpv) as (En & Hn & _). rewrite (bind_done _ _ _ _ _ En). eexists. split; [reflexivity|]. by intros ? [= <-].
  - eexists. split; [reflexivity|]. by intros ? [= <-].
Qed.
Lemma cacheInsert_right q pv c : cache_inv c → truth_query q → pv ≠ PNone → partial_ok q pv →
  ∃ c', cacheInsert CAO q pv c = Done tt c' ∧ cache_inv c'.
Proof.
  intros [Hi Hc] Hq Hpv Hok. destruct (canonicalize_run q c Hq) as (p & Ep & Hp). unfold cacheInsert. rewrite (bind_done _ _ _ _ _ Ep).
  assert (Hins : ∀ r, r ≠ PNone → partial_ok (withExpr q p.1) r → cache_inv (match cache_find (constraints q, p.1) (cache c) with
    | Some _ => c | None => mkCached (c_solver c) (((constraints q, p.1), r) :: cache c) end)).
  { intros r Hr Hrok. destruct (cache_find _ _); [by split|]. split; [done|]. cbn. constructor; [by split|done]. }
  destruct (neg_run pv c Hpv) as (En & Hn & Enn). destruct p as [e []]; cbn [fst snd] in *.
  - rewrite (bind_done _ _ _ _ _ En). eexists. split; [reflexivity|]. apply Hins; [done|]. apply (Hp (neg pv) Hn). cbn. by rewrite Enn.
  - rewrite (bind_done _ _ _ pv c) by done. eexists. split; [reflexivity|]. apply Hins; [done|]. by apply (Hp pv Hpv).
Qed.

(** A call of the solver below. *)
Lemma returns_below {A} (m : M S A) c Q : cache_inv c → returns I m (c_solver c) Q → returns cache_inv (below m) c Q.
Proof. intros [_ Hc] (a & s & E & Hi & HQ). exists a, (mkCached s (cache c)). unfold below, zoom. rewrite E. by split_and!. Qed.
Lemma returns_insert {B} q pv c (k : unit → M (@cached S) B) R : cache_inv c → truth_query q → pv ≠ PNone → partial_ok q pv →
  (∀ c', cache_inv c' → returns cache_inv (k tt) c' R) → returns cache_inv (cacheInsert CAO q pv ≫= k) c R.
Proof.
  intros Hi Hq Hpv Hok Hk. destruct (cacheInsert_right q pv c Hi Hq Hpv Hok) as (c' & E & Hi').
  destruct (Hk c' Hi') as (b & s & E' & H). exists b, s. by rewrite (bind_done _ _ _ _ _ E).
Qed.
Lemma returns_answer {B} q pv c (b : B) R : cache_inv c → truth_query q → pv ≠ PNone → partial_ok q pv → R (Some b) →
  returns cache_inv (cacheInsert CAO q pv;; mret (Some b)) c R.
Proof. intros. apply returns_insert; try done. intros. by apply returns_ret. Qed.

Lemma caching_truth q c : cache_inv c → truth_query q → returns cache_inv (caching_computeTruth CAO solver q) c (truth_ok q).
Proof.
  intros Hi Hq. unfold caching_computeTruth. destruct (cacheLookup_right q c Hi Hq) as (r & E & Hr).
  assert (Hask : ∀ hit : option PartialValidity, (is_Some hit → may (sat q) (expr q)) →
    returns cache_inv (ok (below (computeTruth solver q)) (λ isValid,
      cacheInsert CAO q (if (isValid : bool) then MustBeTrue else if hit then TrueOrFalse else MayBeFalse);; mret (Some isValid))) c (truth_ok q)).
  { intros hit Hhit. eapply returns_ok; [apply returns_below; [done|by apply (r_truth I solver HR), Hq; apply Hi]|done|].
    intros b c' Hi' Hb. pose proof Hb as [H1 H2]. apply returns_answer; [done|done|by destruct b, hit| |done].
    destruct b; [by apply H1|]. destruct hit; cbn; auto. }
  unfold returns. rewrite (bind_done _ _ _ _ _ E). destruct r as [pv|]; [|by apply (Hask None)]. destruct (Hr pv eq_refl) as [Hpv Hok].
  destruct pv; try done; try (by apply (returns_ret cache_inv)); [..|].
  - apply (returns_ret cache_inv); [done|]. split; [done|]. intros _. destruct (fine_sat _ (proj1 (proj1 Hq))) as [env Hs]. exists env. split; [done|by apply Hok].
  - by apply (Hask (Some MayBeTrue)).
  - apply (returns_ret cache_inv); [done|]. split; [done|]. intros _. apply Hok.
Qed.

Lemma caching_validity q c : cache_inv c → truth_query q → returns cache_inv (caching_computeValidity CAO solver q) c (validity_ok q).
Proof.
  intros Hi Hq. unfold caching_computeValidity. destruct (cacheLookup_right q c Hi Hq) as (r & E & Hr).
  unfold returns. rewrite (bind_done _ _ _ _ _ E). destruct r as [pv|].
  - destruct (Hr pv eq_refl) as [Hpv Hok]. destruct pv; try done; try (by apply (returns_ret cache_inv)).
    + eapply returns_ok; [apply returns_below; [done|by apply (r_truth I solver HR), Hq; apply Hi]|done|].
      intros b c' Hi' [H1 H2]. destruct b; apply returns_answer; try done; cbn; auto.
    + apply returns_negate; [done|done|]. intros e He Hv.
      eapply returns_ok; [apply returns_below; [done|by apply (r_truth I solver HR), He; apply Hi]|done|].
      intros b c' Hi' Hb. destruct (negate_truth q e _ Hq Hv Hb) as [H1 H2]. destruct b; apply returns_answer; try done; cbn; auto.
  - eapply returns_ok; [apply returns_below; [done|by apply (r_validity I solver HR), Hq; apply Hi]|done|].
    intros v c' Hi' Hv. apply returns_answer; [done|done|by destruct v|by destruct v|done].
Qed.

Lemma caching_right : right cache_inv (createCachingSolver CAO solver).
Proof.
  constructor; cbn.
  - intros. by apply caching_truth.
  - intros. by apply caching_validity.
  - intros q s Hi Hq. apply returns_below; [done|]. apply (r_value I solver HR); [apply Hi|done].
  - intros q objects s Hi Hq. apply returns_below; [done|]. apply (r_values I solver HR); [apply Hi|done].
Qed.

(** A hit is never refined: the upgraded answer is not stored over the entry. *)
Lemma hit_keeps_cache q c e pv x : cache_inv c → canonicalizeQuery CAO (expr q) c = Done e c →
  cache_find (constraints q, e.1) (cache c) = Some x → pv ≠ PNone → cacheInsert CAO q pv c = Done tt c.
Proof.
  intros Hi Ee Ef Hpv. unfold cacheInsert. rewrite (bind_done _ _ _ _ _ Ee). destruct (neg_run pv c Hpv) as (En & _ & _).
  destruct e as [e []]; cbn [fst snd] in *.
  - rewrite (bind_done _ _ _ _ _ En). unfold modify. by rewrite Ef.
  - rewrite (bind_done _ _ _ pv c) by done. unfold modify. by rewrite Ef.
Qed.
End Cache.
