(* ===== verification/SolverProps.v ===== *)
(** * What the engine gets from its solvers

    The promises of [SolverSpec] for the engine's own solver and for the stack of
    layers, with a solver for finitely many assignments as an instance. *)
From S2P Require Import Prelude Expr ExprCreate ExprRefine ExprSums ExprSpec ExprBuild Memory MemorySpec AddressSpace AddressSpaceResolve Solver SolverSpec.

(** [Solver::getRange] finds the least and the greatest value of an expression on a path
    by three binary searches. *)

(** ** Binary search *)
Section Search.
Context {S : Type} (I : S → Prop).

Lemma returns_both {A} (m : M S A) s (Q R : A → Prop) : returns I m s Q → returns I m s R → returns I m s (λ a, Q a ∧ R a).
Proof. intros (a & s' & E & Hi & HQ) (b & s2 & E2 & _ & HR). rewrite E in E2. simplify_eq. by exists b, s2. Qed.

(** The search ends at a number with [P], and the one before it has [N]. *)
Lemma bsearch_right (P N : Z → Prop) fuel ask lo hi s : I s → lo ≤ hi → hi - lo < 2 ^ Z.of_nat fuel → P hi →
  (∀ m s, I s → lo ≤ m < hi → returns I (ask m) s (λ b : bool, if b then P m else N m)) →
  returns I (bsearch fuel ask lo hi) s (λ r, lo ≤ r ≤ hi ∧ P r ∧ (lo < r → N (r - 1))).
Proof.
  revert lo hi s. induction fuel as [|fuel IH]; intros lo hi s Hi Hle Hf HP Hask; cbn [bsearch]; destruct (Z.ltb_spec lo hi).
  - exfalso. cbn in Hf. lia.
  - apply returns_ret; [done|]. assert (lo = hi) as -> by lia. split_and!; [lia|lia|done|lia].
  - cbv zeta. set (mid := lo + (hi - lo) `div` 2). rewrite Nat2Z.inj_succ, Z.pow_succ_r in Hf by lia.
    assert (Hm : lo ≤ mid < hi ∧ 2 * (mid - lo) ≤ hi - lo ∧ 2 * (hi - (mid + 1)) ≤ hi - lo).
    { unfold mid. Z.to_euclidean_division_equations. lia. }
    eapply returns_bind; [apply Hask; [done|lia]|]. intros b s1 Hi1 Hb. destruct b.
    + eapply returns_mono; [apply (IH lo mid); [done|lia|lia|done|intros; apply Hask; [done|lia]]|]. intros r (Hr & HPr & HN). split_and!; (lia || done).
    + eapply returns_mono; [apply (IH (mid + 1) hi); [done|lia|lia|done|intros; apply Hask; [done|lia]]|]. intros r (Hr & HPr & HN).
      split_and!; [lia|lia|done|]. intros _. destruct (decide (mid + 1 < r)); [by apply HN|]. assert (r = mid + 1) as -> by lia.
      by replace (mid + 1 - 1) with mid by lia.
  - apply returns_ret; [done|]. assert (lo = hi) as -> by lia. split_and!; [lia|lia|done|lia].
Qed.
End Search.

Lemma max_value n : 0 ≤ n ≤ 64 → maxValueOfNBits n = 2 ^ n - 1.
Proof.
  intros Hn. unfold maxValueOfNBits. destruct (Z.eqb_spec n 0) as [->|]; [done|].
  rewrite ones_64 by lia. by rewrite Z.ones_equiv, <-Z.sub_1_r.
Qed.

(** A solver that never gives up. *)
Record total `{U : !Universe} {S} (I : S → Prop) (impl : SolverImpl S) : Prop := mkTotal {
  t_truth q s : I s → truth_query q → returns I (computeTruth impl q) s (λ r, r ≠ None);
  t_validity q s : I s → truth_query q → returns I (computeValidity impl q) s (λ r, r ≠ None);
  t_value q s : I s → value_query q → returns I (computeValue impl q) s (λ r, r ≠ None)
}.

Section Range.
Context `{U : !Universe, HA : !APInt, HC : !ExprCompare} (CAO : bool) {S : Type} (I : S → Prop) (impl : SolverImpl S) (HR : right I impl) (HT : total I impl)
  (q : Query) (Hq : value_query q).
Abbreviation e := (expr q).
Abbreviation w := (getWidth (expr q)).
Context (Hw : w ≤ 64).

Lemma width_pos : 0 < w.
Proof. apply wf_width, Hq. Qed.
Lemma value_of env : sat q env → ∃ x, eval env e = Some x ∧ 0 ≤ x < 2 ^ w.
Proof. intros Hs. destruct (proj2 (proj2 Hq) env Hs) as [x Ex]. exists x. split; [done|]. eapply eval_range; [apply Hq|done]. Qed.
(** Every value, or some value, has a property. *)
Definition all_values (P : Z → Prop) : Prop := ∀ env x, sat q env → eval env e = Some x → P x.
Definition some_value (P : Z → Prop) : Prop := ∃ env x, sat q env ∧ eval env e = Some x ∧ P x.

(** A condition on the value. *)
Definition tests (e' : Expr) (b : Z → bool) : Prop :=
  wf e' ∧ getWidth e' = Bool ∧ ∀ env x, sat q env → eval env e = Some x → eval env e' = Some (bool_val (b x)).
Lemma tests_query e' b : tests e' b → truth_query (withExpr q e').
Proof.
  intros (We & Le & He). split; [|done]. split; [apply Hq|]. split; [done|]. intros env Hs. destruct (value_of env Hs) as (x & Ex & _).
  exists (bool_val (b x)). by apply He.
Qed.
Lemma answer e' b env x n : tests e' b → sat q env → eval env e = Some x → eval env e' = Some n → n = bool_val (b x).
Proof. intros (_ & _ & He) Hs Ex En. rewrite (He env x Hs Ex) in En. congruence. Qed.

Lemma ask_must e' b s : tests e' b → I s →
  returns I (must_succeed (Solver_mustBeTrue impl (withExpr q e'))) s
    (λ r : bool, if r then all_values (λ x, b x = true) else some_value (λ x, b x = false)).
Proof.
  intros Ht Hi. pose proof (tests_query e' b Ht) as Hq'. unfold must_succeed.
  assert (Hnone : returns I (Solver_mustBeTrue impl (withExpr q e')) s (λ r, r ≠ None)).
  { unfold Solver_mustBeTrue. apply returns_assert_bind; [apply Z.eqb_eq, Hq'|].
    destruct (expr (withExpr q e')) as [w0 v| | | | | | | | | |] eqn:E; try (by apply (t_truth I impl HT)).
    destruct (constant_query _ w0 v Hq' E) as [-> Hv]. eapply returns_lift_bind; [by apply constant_truth|]. by apply returns_ret. }
  eapply returns_bind; [apply returns_both; [by apply (mustBeTrue_right I impl HR)|exact Hnone]|].
  intros [r|] s1 Hi1 [[H1 H2] Hn]; [|done]. apply returns_ret; [done|]. destruct r.
  - intros env x Hs Ex. pose proof (answer e' b env x 1 Ht Hs Ex (H1 eq_refl env Hs)). by destruct (b x).
  - destruct (H2 eq_refl) as (env & Hs & E0). destruct (value_of env Hs) as (x & Ex & _). exists env, x. split_and!; [done|done|].
    pose proof (answer e' b env x 0 Ht Hs Ex E0). by destruct (b x).
Qed.
Lemma ask_may e' b s : tests e' b → I s →
  returns I (must_succeed (Solver_mayBeTrue CAO impl (withExpr q e'))) s
    (λ r : bool, if r then some_value (λ x, b x = true) else all_values (λ x, b x = false)).
Proof.
  intros Ht Hi. pose proof (tests_query e' b Ht) as Hq'. unfold must_succeed.
  assert (Hnone : returns I (Solver_mayBeTrue CAO impl (withExpr q e')) s (λ r, r ≠ None)).
  { unfold Solver_mayBeTrue, ok. eapply (returns_bind I _ _ _ (λ r, r ≠ None)); [|intros [r|] s1 Hi1 Hn; [by apply returns_ret|done]].
    unfold Solver_mustBeFalse. apply returns_negate; [done|done|]. intros e2 He2 _. unfold Solver_mustBeTrue.
    apply returns_assert_bind; [apply Z.eqb_eq, He2|].
    destruct (expr (withExpr (withExpr q e') e2)) as [w0 v| | | | | | | | | |] eqn:E; try (by apply (t_truth I impl HT)).
    destruct (constant_query _ w0 v He2 E) as [-> Hv]. eapply returns_lift_bind; [by apply constant_truth|]. by apply returns_ret. }
  eapply returns_bind; [apply returns_both; [by apply (mayBeTrue_right CAO I impl HR)|exact Hnone]|].
  intros [r|] s1 Hi1 [[H1 H2] Hn]; [|done]. apply returns_ret; [done|]. destruct r.
  - destruct (H1 eq_refl) as (env & Hs & E1). destruct (value_of env Hs) as (x & Ex & _). exists env, x. split_and!; [done|done|].
    pose proof (answer e' b env x 1 Ht Hs Ex E1). by destruct (b x).
  - intros env x Hs Ex. pose proof (answer e' b env x 0 Ht Hs Ex (H2 eq_refl env Hs)). by destruct (b x).
Qed.

(** ** The conditions that are asked *)
Lemma create_const v : 0 ≤ v < 2 ^ w → Constant_create v w tt = Done (Constant w v) tt.
Proof. intros Hv. apply create_small; [pose proof width_pos; lia|done]. Qed.
Lemma const_wf v : 0 ≤ v < 2 ^ w → wf (Constant w v).
Proof. intros Hv. split; [pose proof width_pos; lia|done]. Qed.
Lemma zero_fits : 0 ≤ 0 < 2 ^ w.
Proof. pose proof width_pos. lia. Qed.

Lemma bits_test mid : 0 ≤ mid < w → ∃ e', (k ← Constant_create mid w; s ← LShrExpr_make CAO e k; z ← Constant_create 0 w; EqExpr_make CAO s z) tt = Done e' tt ∧
  tests e' (λ x, x <? 2 ^ mid).
Proof.
  intros Hm. assert (Hfit : 0 ≤ mid < 2 ^ w) by (pose proof (Z.pow_gt_lin_r 2 w); lia).
  rewrite (bind_done _ _ _ _ _ (create_const mid Hfit)).
  destruct (arith_builds CAO KLShr e (Constant w mid)) as (sh & Es & Ws & Ls & Hs); [apply Hq|by apply const_wf|done|done|done|].
  cbn [getWidth] in Ls. change (LShrExpr_make CAO) with (arith_make CAO KLShr). rewrite (bind_done _ _ _ _ _ Es), (bind_done _ _ _ _ _ (create_const 0 zero_fits)).
  destruct (EqExpr_builds CAO sh (Constant w 0)) as (e' & Ee & We & Le & He); [done|by apply const_wf, zero_fits|done|].
  exists e'. split; [exact Ee|]. split; [done|]. split; [done|]. intros env x Hsat Ex. apply He, eval_cmp.
  exists (Z.shiftr x mid), 0. split_and!; [|done|].
  - apply Hs, eval_arith. exists x, mid. split_and!; [done|done|]. cbn. by rewrite (proj2 (Z.ltb_lt _ _)) by lia.
  - cbn. f_equal. f_equal. rewrite Z.shiftr_div_pow2 by lia. destruct (value_of env Hsat) as (y & Ey & Hy). assert (y = x) as -> by congruence.
    assert (0 < 2 ^ mid) by lia. apply eq_true_iff_eq. rewrite Z.ltb_lt, Z.eqb_eq. split.
    + intros. apply Z.div_small. lia.
    + intros H0. apply Z.div_small_iff in H0; lia.
Qed.
Lemma zero_test : ∃ e', (z ← Constant_create 0 w; EqExpr_make CAO e z) tt = Done e' tt ∧ tests e' (λ x, x =? 0).
Proof.
  rewrite (bind_done _ _ _ _ _ (create_const 0 zero_fits)).
  destruct (EqExpr_builds CAO e (Constant w 0)) as (e' & Ee & We & Le & He); [apply Hq|by apply const_wf, zero_fits|done|].
  exists e'. split; [exact Ee|]. split; [done|]. split; [done|]. intros env x Hsat Ex. apply He, eval_cmp. exists x, 0. by split_and!.
Qed.
Lemma ule_test mid : 0 ≤ mid < 2 ^ w → ∃ e', (k ← Constant_create mid w; UleExpr_make CAO e k) tt = Done e' tt ∧ tests e' (λ x, x <=? mid).
Proof.
  intros Hm. rewrite (bind_done _ _ _ _ _ (create_const mid Hm)).
  destruct (cmp_builds CAO KUle e (Constant w mid)) as (e' & Ee & We & Le & He); [apply Hq|by apply const_wf|done|].
  exists e'. split; [exact Ee|]. split; [done|]. split; [done|]. intros env x Hsat Ex. apply He, eval_cmp. exists x, mid. by split_and!.
Qed.

(** ** The searches *)
Definition is_min (x : Z) : Prop := all_values (λ y, x ≤ y) ∧ some_value (λ y, y = x).
Definition is_max (x : Z) : Prop := all_values (λ y, y ≤ x) ∧ some_value (λ y, y = x).

Lemma exists_value : some_value (λ _, True).
Proof. destruct (fine_sat _ (proj1 Hq)) as [env Hs]. destruct (value_of env Hs) as (x & Ex & _). by exists env, x. Qed.

Lemma bits_right s : I s → returns I (bsearch range_fuel (ask_bits CAO impl q) 0 w) s (λ n, 0 ≤ n ≤ w ∧ all_values (λ x, x < 2 ^ n)).
Proof.
  intros Hi. pose proof width_pos. eapply returns_mono; [apply (bsearch_right I (λ n, all_values (λ x, x < 2 ^ n)) (λ _, True)); [done|lia| | |]|].
  - unfold range_fuel. cbn. lia.
  - intros env x Hs Ex. destruct (value_of env Hs) as (y & Ey & Hy). assert (y = x) as -> by congruence. lia.
  - intros m s1 Hi1 Hm. unfold ask_bits. destruct (bits_test m Hm) as (e' & Ee & Ht). eapply returns_lift_bind; [exact Ee|].
    eapply returns_mono; [by apply (ask_must e' _ s1 Ht)|]. intros [|] Hr; [|done]. intros env x Hs Ex. apply Z.ltb_lt. by apply (Hr env x).
  - intros n (H1 & H2 & _). done.
Qed.
Lemma min_right n s : I s → 0 ≤ n ≤ w → all_values (λ x, x < 2 ^ n) →
  returns I (zero ← ask_zero CAO impl q; if (zero : bool) then mret 0 else bsearch range_fuel (ask_min CAO impl q) 0 (maxValueOfNBits n)) s
    (λ r, is_min r ∧ 0 ≤ r ≤ maxValueOfNBits n).
Proof.
  intros Hi Hn Hall. pose proof (max_value n ltac:(lia)) as Emax. assert (Hp : 0 < 2 ^ n ≤ 2 ^ w) by (split; [lia|apply Z.pow_le_mono_r; lia]).
  assert (H64 : 2 ^ w ≤ 2 ^ 64) by (apply Z.pow_le_mono_r; lia).
  assert (Hpos : all_values (λ y, 0 ≤ y)) by (intros env x Hs Ex; destruct (value_of env Hs) as (y & Ey & Hy); assert (y = x) as -> by congruence; lia).
  eapply (returns_bind I _ _ _ (λ b : bool, b = true → some_value (λ x, x = 0))).
  { unfold ask_zero. destruct zero_test as (e' & Ee & Ht). eapply returns_lift_bind; [exact Ee|].
    eapply returns_mono; [by apply (ask_may e' _ s Ht)|]. intros [|] Hr; [|done]. intros _. destruct Hr as (env & x & Hs & Ex & E0).
    exists env, x. split_and!; [done|done|]. by apply Z.eqb_eq. }
  intros [|] s1 Hi1 Hz; [apply returns_ret; [done|]; split; [split; [exact Hpos|by apply Hz]|lia]|].
  eapply returns_mono; [apply (bsearch_right I (λ m, some_value (λ x, x ≤ m)) (λ m, all_values (λ x, m < x))); [done|lia| | |]|].
  - rewrite Emax. unfold range_fuel. change (2 ^ Z.of_nat 64) with (2 ^ 64). lia.
  - destruct exists_value as (env & x & Hs & Ex & _). exists env, x. split_and!; [done|done|]. rewrite Emax. specialize (Hall env x Hs Ex). cbn in Hall. lia.
  - intros m s2 Hi2 Hm. unfold ask_min. destruct (ule_test m ltac:(lia)) as (e' & Ee & Ht). eapply returns_lift_bind; [exact Ee|].
    eapply returns_mono; [by apply (ask_may e' _ s2 Ht)|]. intros [|] Hr.
    + destruct Hr as (env & x & Hs & Ex & E0). exists env, x. split_and!; [done|done|]. by apply Z.leb_le.
    + intros env x Hs Ex. apply Z.leb_gt. by apply (Hr env x).
  - intros r (Hr & (env & x & Hs & Ex & Hx) & HN). split; [|lia].
    assert (Hmin : all_values (λ y, r ≤ y)).
    { intros env' y Hs' Ey. destruct (decide (0 < r)); [|specialize (Hpos env' y Hs' Ey); cbn in Hpos; lia]. specialize (HN ltac:(done) env' y Hs' Ey). cbn in HN. lia. }
    split; [done|]. exists env, x. split_and!; [done|done|]. specialize (Hmin env x Hs Ex). cbn in Hmin. lia.
Qed.
Lemma max_right n m s : I s → 0 ≤ n ≤ w → all_values (λ x, x < 2 ^ n) → is_min m → 0 ≤ m ≤ maxValueOfNBits n →
  returns I (bsearch range_fuel (ask_max CAO impl q) m (maxValueOfNBits n)) s (λ r, is_max r ∧ m ≤ r ≤ maxValueOfNBits n).
Proof.
  intros Hi Hn Hall [Hlow (env0 & x0 & Hs0 & Ex0 & ->)] Hm. pose proof (max_value n ltac:(lia)) as Emax.
  assert (Hp : 0 < 2 ^ n ≤ 2 ^ w) by (split; [lia|apply Z.pow_le_mono_r; lia]). assert (H64 : 2 ^ w ≤ 2 ^ 64) by (apply Z.pow_le_mono_r; lia).
  eapply returns_mono; [apply (bsearch_right I (λ k, all_values (λ x, x ≤ k)) (λ k, some_value (λ x, k < x))); [done|lia| | |]|].
  - rewrite Emax. unfold range_fuel. change (2 ^ Z.of_nat 64) with (2 ^ 64). lia.
  - intros env x Hs Ex. rewrite Emax. specialize (Hall env x Hs Ex). cbn in Hall. lia.
  - intros k s2 Hi2 Hk. unfold ask_max. destruct (ule_test k ltac:(lia)) as (e' & Ee & Ht). eapply returns_lift_bind; [exact Ee|].
    eapply returns_mono; [by apply (ask_must e' _ s2 Ht)|]. intros [|] Hr.
    + intros env x Hs Ex. apply Z.leb_le. by apply (Hr env x).
    + destruct Hr as (env & x & Hs & Ex & E0). exists env, x. split_and!; [done|done|]. by apply Z.leb_gt.
  - intros r (Hr & Hmax & HN). split; [|lia]. split; [done|]. destruct (decide (m < r)).
    + destruct (HN ltac:(done)) as (env & x & Hs & Ex & Hx). exists env, x. split_and!; [done|done|]. specialize (Hmax env x Hs Ex). cbn in Hmax. lia.
    + exists env0, m. split_and!; [done|done|lia].
Qed.

Lemma min_fits m : some_value (λ y, y = m) → 0 ≤ m < 2 ^ w.
Proof. intros (env & x & Hs & Ex & ->). destruct (value_of env Hs) as (y & Ey & Hy). congruence. Qed.

Lemma search_range_right s : I s → returns I (search_range CAO impl q) s (λ r, is_min r.1 ∧ is_max r.2).
Proof.
  intros Hi. unfold search_range. eapply returns_bind; [by apply bits_right|]. intros n s1 Hi1 [Hn Hall].
  pose proof (min_right n s1 Hi1 Hn Hall) as Hmin.
  assert (E : (zero ← ask_zero CAO impl q; min ← (if (zero : bool) then mret 0 else bsearch range_fuel (ask_min CAO impl q) 0 (maxValueOfNBits n));
      max ← bsearch range_fuel (ask_max CAO impl q) min (maxValueOfNBits n); mret (min, max)) s1 =
    ((zero ← ask_zero CAO impl q; if (zero : bool) then mret 0 else bsearch range_fuel (ask_min CAO impl q) 0 (maxValueOfNBits n)) ≫=
      λ min, max ← bsearch range_fuel (ask_max CAO impl q) min (maxValueOfNBits n); mret (min, max)) s1).
  { unfold mbind, M_bind. by destruct (ask_zero CAO impl q s1). }
  unfold returns. rewrite E. eapply returns_bind; [exact Hmin|]. intros m s2 Hi2 [Hm Hmr].
  eapply returns_bind; [by apply (max_right n m)|]. intros k s3 Hi3 [Hk _]. by apply returns_ret.
Qed.

Lemma getRange_right s : I s → returns I (Solver_getRange CAO impl q) s
  (λ r, ∃ lo hi, r = (Constant w lo, Constant w hi) ∧ is_min lo ∧ is_max hi).
Proof.
  intros Hi. unfold Solver_getRange. cbv zeta. eapply (returns_bind I _ _ _ (λ r : Z * Z, is_min r.1 ∧ is_max r.2)).
  - destruct (Z.eqb_spec w 1) as [E1|E1].
    + assert (Ht : truth_query q) by by split. unfold must_succeed.
      assert (Hnone : returns I (Solver_evaluate impl q) s (λ r, r ≠ None)).
      { unfold Solver_evaluate. apply returns_assert_bind; [apply Z.eqb_eq, Ht|].
        destruct e as [w0 v| | | | | | | | | |] eqn:E; try (by apply (t_validity I impl HT)).
        destruct (constant_query _ w0 v Ht E) as [-> Hv]. eapply returns_lift_bind; [by apply constant_truth|]. by apply returns_ret. }
      eapply (returns_bind I _ _ _ (λ v, validity_ok q (Some v))).
      { eapply returns_bind; [apply returns_both; [by apply (evaluate_right I impl HR)|exact Hnone]|].
        intros [v|] s1 Hi1 [Hv Hn]; [by apply returns_ret|done]. }
      intros v s1 Hi1 Hv. apply returns_ret; [done|].
      assert (Hb : all_values (λ x, x = 0 ∨ x = 1)).
      { intros env x Hs Ex. destruct (truth_value q env Ht Hs); rewrite Ex in *; naive_solver. }
      destruct exists_value as (env0 & x0 & Hs0 & Ex0 & _). destruct v; cbn in Hv |- *.
      * assert (H1 : all_values (λ x, x = 1)) by (intros env x Hs Ex; specialize (Hv env Hs); congruence).
        split; (split; [intros env x Hs Ex; rewrite (H1 env x Hs Ex); lia|exists env0, x0; split_and!; [done|done|exact (H1 env0 x0 Hs0 Ex0)]]).
      * assert (H1 : all_values (λ x, x = 0)) by (intros env x Hs Ex; specialize (Hv env Hs); congruence).
        split; (split; [intros env x Hs Ex; rewrite (H1 env x Hs Ex); lia|exists env0, x0; split_and!; [done|done|exact (H1 env0 x0 Hs0 Ex0)]]).
      * destruct Hv as [(env1 & Hs1 & E1') (env2 & Hs2 & E2')].
        split; (split; [intros env x Hs Ex; destruct (Hb env x Hs Ex); lia|]); [by exists env2, 0|by exists env1, 1].
    + pose proof (search_range_right s Hi) as Hsr. destruct e as [w0 v| | | | | | | | | |] eqn:E; try exact Hsr.
      assert (Hv : all_values (λ x, x = v)) by (intros env x Hs; rewrite E; by intros [= <-]).
      eapply returns_lift_bind; [unfold getZExtValue; rewrite (proj2 (Z.leb_le w0 64)); [reflexivity|exact Hw]|]. apply returns_ret; [done|].
      destruct exists_value as (env0 & x0 & Hs0 & Ex0 & _). cbn.
      split; (split; [intros env x Hs Ex; rewrite (Hv env x Hs Ex); lia|exists env0, x0; split_and!; [done|done|exact (Hv env0 x0 Hs0 Ex0)]]).
  - intros [lo hi] s1 Hi1 [Hlo Hhi]. cbn in *.
    eapply returns_lift_bind; [apply create_const, min_fits, Hlo|]. eapply returns_lift_bind; [apply create_const, min_fits, Hhi|].
    apply returns_ret; [done|]. by exists lo, hi.
Qed.
End Range.


(** ** The engine's solver *)
Section Timing.
Context `{U : !Universe, HA : !APInt, HC : !ExprCompare} (CAO : bool) {S : Type} (I : S → Prop) (impl : SolverImpl S) (HR : right I impl).
Context (simplify : list Expr → Expr → M S Expr).

(** What simplification promises: the same value wherever the constraints hold. *)
Definition simplifies : Prop := ∀ cs e s, I s → value_query (mkQuery cs e) →
  returns I (simplify cs e) s (λ e', wf e' ∧ getWidth e' = getWidth e ∧ ∀ env, sat_of cs env → eval env e' = eval env e).
Context (HS : simplifies).

Lemma simplified_query cs e e' : value_query (mkQuery cs e) → wf e' → (∀ env, sat_of cs env → eval env e' = eval env e) → value_query (mkQuery cs e').
Proof. intros (Hf & Hw & Hd) Hw' He. split; [done|]. split; [done|]. intros env Hs. cbn. rewrite (He env Hs). by apply Hd. Qed.

Lemma timing_mustBeTrue cs e s : I s → truth_query (mkQuery cs e) →
  returns I (TimingSolver_mustBeTrue impl simplify cs e) s (truth_ok (mkQuery cs e)).
Proof.
  intros Hi Hq. assert (Hg : returns I (e ← simplify cs e; Solver_mustBeTrue impl (mkQuery cs e)) s (truth_ok (mkQuery cs e))).
  { eapply returns_bind; [by apply HS; [|apply Hq]|]. intros e' s1 Hi1 (Hw & Hl & He).
    eapply returns_mono; [apply (mustBeTrue_right I impl HR); [done|]; split; [apply simplified_query with e; [apply Hq|done|done]|cbn; rewrite Hl; apply Hq]|].
    intros r [H1 H2]. split.
    - intros Hr env Hs. cbn. rewrite <-(He env Hs). by apply H1.
    - intros Hr. destruct (H2 Hr) as (env & Hs & E). exists env. split; [done|]. cbn in *. by rewrite <-(He env Hs). }
  unfold TimingSolver_mustBeTrue. destruct e as [w v| | | | | | | | | |]; try exact Hg.
  destruct (constant_query (mkQuery cs (Constant w v)) w v Hq eq_refl) as [-> Hv]. eapply returns_lift_bind; [by apply constant_truth|].
  apply returns_ret; [done|]. unfold truth_ok, must, may_not. cbn. destruct Hv as [->| ->]; [|by split]. split; [done|].
  destruct (fine_sat _ (proj1 (proj1 Hq))) as [env Hs]. intros _. by exists env.
Qed.
Lemma timing_evaluate cs e s : I s → truth_query (mkQuery cs e) →
  returns I (TimingSolver_evaluate impl simplify cs e) s (validity_ok (mkQuery cs e)).
Proof.
  intros Hi Hq. assert (Hg : returns I (e ← simplify cs e; Solver_evaluate impl (mkQuery cs e)) s (validity_ok (mkQuery cs e))).
  { eapply returns_bind; [by apply HS; [|apply Hq]|]. intros e' s1 Hi1 (Hw & Hl & He).
    eapply returns_mono; [apply (evaluate_right I impl HR); [done|]; split; [apply simplified_query with e; [apply Hq|done|done]|cbn; rewrite Hl; apply Hq]|].
    intros [[| |]|] Hr; cbn in *; [..|done].
    - intros env Hs. rewrite <-(He env Hs). by apply Hr.
    - intros env Hs. rewrite <-(He env Hs). by apply Hr.
    - destruct Hr as [(env1 & Hs1 & E1) (env2 & Hs2 & E2)].
      split; [exists env1|exists env2]; (split; [done|]); [by rewrite <-(He env1 Hs1)|by rewrite <-(He env2 Hs2)]. }
  unfold TimingSolver_evaluate. destruct e as [w v| | | | | | | | | |]; try exact Hg.
  destruct (constant_query (mkQuery cs (Constant w v)) w v Hq eq_refl) as [-> Hv]. eapply returns_lift_bind; [by apply constant_truth|].
  apply returns_ret; [done|]. by destruct Hv as [->| ->].
Qed.
Lemma timing_mustBeFalse cs e s : I s → truth_query (mkQuery cs e) →
  returns I (TimingSolver_mustBeFalse CAO impl simplify cs e) s (false_ok (mkQuery cs e)).
Proof.
  intros Hi Hq. destruct (negate_spec CAO (mkQuery cs e) Hq) as (z & Ez & Hz & Hv). unfold TimingSolver_mustBeFalse.
  eapply returns_lift_bind; [exact Ez|]. eapply returns_mono; [by apply timing_mustBeTrue|]. intros r. by apply (negate_truth (mkQuery cs e) z).
Qed.
Lemma timing_mayBeTrue cs e s : I s → truth_query (mkQuery cs e) →
  returns I (TimingSolver_mayBeTrue CAO impl simplify cs e) s (may_ok (mkQuery cs e)).
Proof.
  intros Hi Hq. unfold TimingSolver_mayBeTrue. eapply returns_ok; [by apply timing_mustBeFalse|by split|].
  intros b s' Hi' [H1 H2]. apply returns_ret; [done|]. destruct b; cbn; split; intros [=]; auto.
Qed.
Lemma timing_getValue cs e s : I s → value_query (mkQuery cs e) →
  returns I (TimingSolver_getValue impl simplify cs e) s (value_ok (mkQuery cs e)).
Proof.
  intros Hi Hq. assert (Hg : returns I (e ← simplify cs e; Solver_getValue impl (mkQuery cs e)) s (value_ok (mkQuery cs e))).
  { eapply returns_bind; [by apply HS|]. intros e' s1 Hi1 (Hw & Hl & He).
    eapply returns_mono; [apply (getValue_right I impl HR); [done|]; by apply simplified_query with e|].
    intros r Hr c ->. destruct (Hr c eq_refl) as (v & env & -> & Hs & E). exists v, env. cbn in *. rewrite Hl, <-(He env Hs). by split_and!. }
  unfold TimingSolver_getValue. destruct e as [w v| | | | | | | | | |]; try exact Hg. apply returns_ret; [done|]. intros c [= <-].
  destruct (fine_sat _ (proj1 Hq)) as [env Hs]. exists v, env. by split_and!.
Qed.

(** The solver that the resolution of pointers asks, on a path with the constraints
    [cs]; [expired] is its timer. *)
Definition path_solver (cs : list Expr) (expired : M S bool) : TimingSolver S := {|
  ts_getValue := TimingSolver_getValue impl simplify cs;
  ts_mustBeTrue := TimingSolver_mustBeTrue impl simplify cs;
  ts_mayBeTrue := TimingSolver_mayBeTrue CAO impl simplify cs;
  ts_expired := expired
|}.
Lemma path_solver_right cs expired : fine_constraints cs → (∀ s, I s → ∃ b s', expired s = Done b s' ∧ I s') →
  @SolverRight S (path_solver cs expired) (sat_of cs).
Proof.
  intros Hf Hx. refine {| solver_inv := I; never_fails := False; never_late := False |}.
  - intros e s Hi Hw _ Hd. destruct (timing_getValue cs e s Hi) as (r & s' & E & Hi' & Hr); [by split_and!|]. by exists r, s'; split_and!.
  - intros e s Hi (Hw & Hl & Hd & _). destruct (timing_mustBeTrue cs e s Hi) as (r & s' & E & Hi' & Hr); [by split_and!|]. exists r, s'. split_and!; by destruct Hr || done.
  - intros e s Hi (Hw & Hl & Hd & _). destruct (timing_mayBeTrue cs e s Hi) as (r & s' & E & Hi' & Hr); [by split_and!|]. exists r, s'. split_and!; by destruct Hr || done.
  - intros s Hi. destruct (Hx s Hi) as (b & s' & ? & ?). by exists b, s'.
Defined.
End Timing.

(** ** A solver for finitely many assignments *)
Definition holds_in (env : assignment) (c : Expr) : bool := bool_decide (eval env c = Some 1).
Section ListSolver.
Context (envs : list assignment).
Definition list_universe : Universe := λ env, In env envs.
Definition solutions (q : Query) : list assignment := List.filter (λ env, forallb (holds_in env) (constraints q)) envs.
Definition list_truth (q : Query) : option bool := Some (forallb (λ env, holds_in env (expr q)) (solutions q)).
Definition list_validity (q : Query) : option Validity :=
  Some (if forallb (λ env, holds_in env (expr q)) (solutions q) then VTrue
        else if existsb (λ env, holds_in env (expr q)) (solutions q) then VUnknown else VFalse).
Definition list_impl : SolverImpl unit :=
  mkImpl (λ q, mret (list_truth q)) (λ q, mret (list_validity q))
    (λ q, mret (env ← hd_error (solutions q); v ← eval env (expr q); Some (Constant (getWidth (expr q)) v)))
    (λ q objects, mret (Some ((λ env, initial_bytes env <$> objects) <$> find (λ env, negb (holds_in env (expr q))) (solutions q)))).

Lemma solutions_sat q env : In env (solutions q) ↔ sat (U := list_universe) q env.
Proof.
  unfold solutions, sat, sat_of, in_universe, list_universe. rewrite filter_In, forallb_forall. split; intros [H1 H2]; (split; [done|]); intros c Hc.
  - apply list_elem_of_In in Hc. specialize (H2 c Hc). by apply bool_decide_eq_true in H2.
  - apply bool_decide_eq_true. apply H2. by apply list_elem_of_In.
Qed.
Lemma holds_false q env : truth_query (U := list_universe) q → sat (U := list_universe) q env → holds_in env (expr q) = false → eval env (expr q) = Some 0.
Proof. intros Hq Hs H. apply bool_decide_eq_false in H. by destruct (truth_value q env Hq Hs). Qed.

Lemma list_truth_right q : truth_query (U := list_universe) q → truth_ok (U := list_universe) q (list_truth q).
Proof.
  intros Hq. unfold list_truth. split; intros [= H].
  - intros env Hs. rewrite forallb_forall in H. specialize (H env (proj2 (solutions_sat q env) Hs)). by apply bool_decide_eq_true in H.
  - assert (∃ env, In env (solutions q) ∧ holds_in env (expr q) = false) as (env & Hin & Hf).
    { clear Hq. induction (solutions q) as [|env l IH]; [done|]. cbn in H. destruct (holds_in env (expr q)) eqn:E; [|exists env; split; [by left|done]].
      destruct (IH H) as (env' & ? & ?). exists env'. split; [by right|done]. }
    exists env. apply solutions_sat in Hin. split; [done|by apply holds_false].
Qed.
Lemma list_validity_right q : truth_query (U := list_universe) q → validity_ok (U := list_universe) q (list_validity q).
Proof.
  intros Hq. pose proof (list_truth_right q Hq) as [H1 H2]. unfold list_validity, list_truth in *.
  destruct (forallb _ (solutions q)); [by apply H1|]. specialize (H2 eq_refl). destruct (existsb _ (solutions q)) eqn:E; cbn.
  - split; [|done]. apply existsb_exists in E as (env & Hin & Hh). exists env. apply solutions_sat in Hin. split; [done|]. by apply bool_decide_eq_true in Hh.
  - intros env Hs. apply holds_false; [done|done|]. destruct (holds_in env (expr q)) eqn:Eh; [|done]. rewrite <-E.
    symmetry. apply existsb_exists. exists env. split; [by apply solutions_sat|done].
Qed.
Lemma list_right : right (U := list_universe) (λ _, True) list_impl.
Proof.
  constructor; cbn.
  - intros q s _ Hq. apply returns_ret; [done|]. by apply list_truth_right.
  - intros q s _ Hq. apply returns_ret; [done|]. by apply list_validity_right.
  - intros q s _ Hq. apply returns_ret; [done|]. intros c Hc. destruct (solutions q) as [|env l] eqn:El; [done|]. cbn in Hc.
    destruct (eval env (expr q)) as [v|] eqn:Ev; [|done]. injection Hc as <-. exists v, env. split_and!; [done| |done].
    apply solutions_sat. rewrite El. by left.
  - intros q objects s _ Hq. apply returns_ret; [done|]. destruct (find _ (solutions q)) as [env|] eqn:Ef; cbn.
    + apply find_some in Ef as [Hin Hn]. apply solutions_sat in Hin. exists env. split_and!; [done| |done]. apply holds_false; [done|done|].
      by apply negb_true_iff in Hn.
    + intros env Hs. apply solutions_sat in Hs. pose proof (find_none _ _ Ef env Hs) as Hn. apply negb_false_iff in Hn. by apply bool_decide_eq_true in Hn.
Qed.
Lemma list_total : total (U := list_universe) (λ _, True) list_impl.
Proof.
  constructor; intros q s _ Hq; apply returns_ret; try done. destruct (solutions q) as [|env l] eqn:El.
  - destruct (fine_sat _ (proj1 Hq)) as [env Hs]. apply solutions_sat in Hs. by rewrite El in Hs.
  - cbn. destruct (proj2 (proj2 Hq) env) as [v Hv]; [apply solutions_sat; rewrite El; by left|]. by rewrite Hv.
Qed.
End ListSolver.

(** ** Properties *)
(** C21: (functional) The range of an expression of at most 64 bits is exact: if the
    solver below is right and does not give up, [getRange] returns two constants of the
    width of the expression, every value of the expression on the path lies between
    them, and each of them is a value of it. *)
Theorem getRange_exact `{U : !Universe, !APInt, !ExprCompare} (ConstArrayOpt : bool) {S : Type} (I : S → Prop) (impl : SolverImpl S) (q : Query) (s : S) :
  right I impl → total I impl → I s → value_query q → getWidth (expr q) ≤ 64 →
  ∃ lo hi s', Solver_getRange ConstArrayOpt impl q s = Done (Constant (getWidth (expr q)) lo, Constant (getWidth (expr q)) hi) s' ∧
    (∀ env x, sat q env → eval env (expr q) = Some x → lo ≤ x ≤ hi) ∧
    (∃ env, sat q env ∧ eval env (expr q) = Some lo) ∧ (∃ env, sat q env ∧ eval env (expr q) = Some hi).
Proof.
  intros HR HT Hi Hq Hw. destruct (getRange_right ConstArrayOpt I impl HR HT q Hq Hw s Hi) as (r & s' & E & _ & lo & hi & -> & [Hlo1 (e1 & x1 & Hs1 & Ex1 & ->)] & [Hhi1 (e2 & x2 & Hs2 & Ex2 & ->)]).
  exists lo, hi, s'. split; [done|]. split; [|split; [by exists e1|by exists e2]]. intros env x Hs Ex. split; [by apply (Hlo1 env x)|by apply (Hhi1 env x)].
Qed.

(** b0 + 5, where b0 is 1, 7 or 3. *)
Definition three_envs : list assignment := [λ _ _, 1; λ _ _, 7; λ _ _, 3].
Definition sum_query : Query := mkQuery [] (Arith KAdd (Constant 8 5) (arg_byte 0)).
Lemma sum_query_ok : value_query (U := list_universe three_envs) sum_query.
Proof.
  split; [split; [constructor|exists (λ _ _, 1); split; [by left|intros c Hc; by apply not_elem_of_nil in Hc]]|].
  split; [vm_compute; repeat split; congruence || by intros|]. intros env _. by eexists.
Qed.
Lemma getRange_exact_witness :
  Solver_getRange true (list_impl three_envs) sum_query tt = Done (Constant 8 6, Constant 8 12) tt ∧
  ∃ lo hi, (∀ env x, In env three_envs → eval env (expr sum_query) = Some x → lo ≤ x ≤ hi) ∧
    Solver_getRange true (list_impl three_envs) sum_query tt = Done (Constant 8 lo, Constant 8 hi) tt.
Proof.
  split; [vm_compute; reflexivity|].
  destruct (getRange_exact (U := list_universe three_envs) true (λ _, True) (list_impl three_envs) sum_query tt (list_right _) (list_total _) I sum_query_ok) as (lo & hi & [] & E & Hb & _);
    [vm_compute; congruence|].
  exists lo, hi. split; [|exact E]. intros env x Hin Ex. apply (Hb env x); [|exact Ex]. split; [exact Hin|]. intros c Hc. destruct (not_elem_of_nil c Hc).
Defined.

(** C17: (refinement) The caching layer and the layer that asks an incomplete solver
    first answer as right solvers do: for every query on satisfiable constraints they
    return, and truth, validity, value and counterexample, when not a failure, hold
    for the assignments that satisfy the constraints, whatever was asked
    before; an empty cache is a correct start.  So a stack of these layers over a right
    solver is right. *)
Theorem solver_layers_right `{U : !Universe, !APInt, !ExprCompare, !ExprOrder} (ConstArrayOpt : bool) {S : Type} (I : S → Prop)
  (primary : IncompleteSolver) (core : SolverImpl S) (s : S) :
  incomplete_right I primary → right I core → I s →
  right (cache_inv I) (createCachingSolver ConstArrayOpt core) ∧
  right I (StagedSolverImpl ConstArrayOpt primary core) ∧
  right (cache_inv I) (createCachingSolver ConstArrayOpt (StagedSolverImpl ConstArrayOpt primary core)) ∧
  cache_inv I (mkCached s []).
Proof.
  intros HP HR Hi. pose proof (staged_right ConstArrayOpt I primary core HP HR) as HS.
  split_and!; [by apply caching_right|done|by apply caching_right|by split].
Qed.

(** An incomplete solver that knows nothing. *)
Definition ignorant : IncompleteSolver (S := unit) := mkIncomplete (λ _, mret PNone) (λ _, mret None) (λ _ _, mret None).
#[global] Instance any_order : ExprOrder := {| less := λ _ _, false |}.
Lemma solver_layers_right_witness :
  let U := list_universe three_envs in
  let top := createCachingSolver true (StagedSolverImpl true ignorant (list_impl three_envs)) in
  right (cache_inv (λ _, True)) top ∧
  let out := computeTruth top (mkQuery [] (Cmp KUlt (arg_byte 0) (Constant 8 8))) (mkCached tt []) in
  result out = Some (Some true) ∧ length (cache (final out)) = 1%nat.
Proof.
  intros U top. split; [|intros out].
  - apply (solver_layers_right true (λ _, True) ignorant (list_impl three_envs) tt); [|exact (list_right _)|exact I].
    constructor; intros; apply returns_ret; try done. split; [by right; right|done].
  - split; vm_compute; reflexivity.
Defined.

(** (safety) The answers the engine gets on a path are right.  For a condition with
    values wherever the path condition holds, [evaluate], [mustBeTrue] and
    [mayBeTrue] return, and unless they fail, [mustBeTrue] says true only of conditions
    that hold under every assignment of the path and false only of conditions
    with a counterexample, [mayBeTrue] the same for existence, [evaluate] distinguishes the
    three cases, and [getValue] gives a value the expression has on the path; whatever
    right simplification is applied before the query. *)
Theorem path_answers_right `{U : !Universe, !APInt, !ExprCompare} (ConstArrayOpt : bool) {S : Type} (I : S → Prop) (impl : SolverImpl S)
  (simplify : list Expr → Expr → M S Expr) (cs : list Expr) (e : Expr) (s : S) :
  right I impl → simplifies I simplify → I s → truth_query (mkQuery cs e) →
  (∃ r s', TimingSolver_mustBeTrue impl simplify cs e s = Done r s' ∧
    (r = Some true → must (sat_of cs) e) ∧ (r = Some false → may_not (sat_of cs) e)) ∧
  (∃ r s', TimingSolver_mayBeTrue ConstArrayOpt impl simplify cs e s = Done r s' ∧
    (r = Some true → may (sat_of cs) e) ∧ (r = Some false → ∀ env, sat_of cs env → eval env e = Some 0)) ∧
  (∃ r s', TimingSolver_evaluate impl simplify cs e s = Done r s' ∧ validity_ok (mkQuery cs e) r) ∧
  (∃ r s', TimingSolver_getValue impl simplify cs e s = Done r s' ∧
    ∀ c, r = Some c → ∃ v env, c = Constant (getWidth e) v ∧ sat_of cs env ∧ eval env e = Some v).
Proof.
  intros HR HS Hi Hq. split_and!.
  - destruct (timing_mustBeTrue I impl HR simplify HS cs e s Hi Hq) as (r & s' & E & _ & Hr). by exists r, s'.
  - destruct (timing_mayBeTrue ConstArrayOpt I impl HR simplify HS cs e s Hi Hq) as (r & s' & E & _ & Hr). by exists r, s'.
  - destruct (timing_evaluate I impl HR simplify HS cs e s Hi Hq) as (r & s' & E & _ & Hr). by exists r, s'.
  - destruct (timing_getValue I impl HR simplify HS cs e s Hi (proj1 Hq)) as (r & s' & E & _ & Hr). by exists r, s'.
Qed.

(** No simplification. *)
Definition plain (cs : list Expr) (e : Expr) : M unit Expr := mret e.
Lemma plain_simplifies `{U : !Universe} : simplifies (λ _, True) plain.
Proof. intros cs e s _ (_ & Hw & _). by apply returns_ret. Qed.
Lemma path_answers_right_witness :
  let U := list_universe three_envs in
  let e := Cmp KUlt (arg_byte 0) (Constant 8 5) in
  TimingSolver_mustBeTrue (list_impl three_envs) plain [] e tt = Done (Some false) tt ∧ may_not (sat_of []) e.
Proof.
  intros U e. assert (Hq : truth_query (mkQuery [] e)).
  { split; [|reflexivity]. split; [split; [constructor|exists (λ _ _, 1); split; [by left|intros c Hc; by apply not_elem_of_nil in Hc]]|].
    split; [vm_compute; repeat split; congruence || by intros|]. intros env _. by eexists. }
  destruct (path_answers_right true (λ _, True) (list_impl three_envs) plain [] e tt (list_right _) plain_simplifies I Hq) as [(r & s' & E & _ & Hf) _].
  assert (Er : r = Some false ∧ s' = tt) by (vm_compute in E; by injection E). destruct Er as [-> ->]. split; [exact E|by apply Hf].
Defined.
