(* ===== verification/Visitor.v ===== *)
(** * Visitors of expressions and constraint sets

    src/klee/lib/Expr/ExprVisitor.cpp and src/klee/lib/Expr/Constraints.cpp: the visitor that
    rewrites an expression bottom up, with a table of what it has visited, and the set of
    constraints of a path, which uses it to simplify expressions and to rewrite older constraints
    when an equation with a constant is added.

    Recursion runs on fuel, the weight of the expression: see [ExprWeight]. *)
From S2P Require Import Prelude Expr ExprCreate ExprWeight Memory AddressSpace.

(** [getKid(0)], [getKid(1)], ...; the kid of a read is its index. *)
Definition kids (e : Expr) : list Expr :=
  match e with
  | Constant _ _ => []
  | NotOptimized s | Extract s _ _ | ZExt s _ | SExt s _ | Not s => [s]
  | Read _ _ i => [i]
  | Select c t f => [c; t; f]
  | Concat l r | Arith _ l r | Cmp _ l r => [l; r]
  end.

(** A visitor: [Some] is the action [ChangeTo]; [None] is [DoChildren] before the kids are visited and
    [SkipChildren] after.  The functions for a kind are not overridden. *)
Record ExprVisitor := mkVisitor { recursive : bool; visitExpr : Expr → option Expr; visitExprPost : Expr → option Expr }.
Definition visited_ty : Type := list (Expr * Expr).

Section Visitor.
Context `{!APInt, !ExprCompare} (ConstArrayOpt UseVisitorHash : bool).

Definition rebuild (e : Expr) (ks : list Expr) : res Expr :=
  match e, ks with
  | NotOptimized _, [s] => NotOptimizedExpr_make s
  | Read a ul _, [i] => ReadExpr_make ConstArrayOpt a ul i
  | Select _ _ _, [c; t; f] => SelectExpr_make ConstArrayOpt c t f
  | Concat _ _, [l; r] => ConcatExpr_make l r
  | Extract _ off w, [s] => ExtractExpr_make s off w
  | ZExt _ w, [s] => ZExtExpr_make s w
  | SExt _ w, [s] => SExtExpr_make s w
  | Not _, [s] => NotExpr_make s
  | Arith k _ _, [l; r] => arith_make ConstArrayOpt k l r
  | Cmp k _ _, [l; r] => cmp_make ConstArrayOpt k l r
  | _, _ => halt AssertFailure
  end.

(** [find] and [insert] of the tables, which compare with [Expr::compare]. *)
Fixpoint table_find (e : Expr) (t : list (Expr * Expr)) : option Expr :=
  match t with
  | [] => None
  | (k, v) :: t => if same k e then Some v else table_find e t
  end.
Definition table_insert (e v : Expr) (t : list (Expr * Expr)) : list (Expr * Expr) :=
  match table_find e t with Some _ => t | None => t ++ [(e, v)] end.

Section Visit.
Context (V : ExprVisitor).

(** The kids, visited in order. *)
Fixpoint visit_kids (visit : Expr → M visited_ty Expr) (l : list Expr) : M visited_ty (list Expr) :=
  match l with
  | [] => mret []
  | e :: l => k ← visit e; ks ← visit_kids visit l; mret (k :: ks)
  end.
(** [kids[i] != kid] for some [i]. *)
Fixpoint any_changed (ks l : list Expr) : bool :=
  match ks, l with k :: ks, e :: l => negb (same k e) || any_changed ks l | _, _ => false end.

Definition visitActual (visit : Expr → M visited_ty Expr) (e : Expr) : M visited_ty Expr :=
  if isa_Constant e then mret e
  else
    match visitExpr V e with
    | Some r => mret r
    | None =>
      ks ← visit_kids visit (kids e);
      e' ← (if any_changed ks (kids e) then
              e1 ← lift_res (rebuild e ks);
              if recursive V then visit e1 else mret e1
            else mret e);
      if isa_Constant e' then mret e' else mret (default e' (visitExprPost V e'))
    end.
Fixpoint visit (fuel : nat) (e : Expr) : M visited_ty Expr :=
  match fuel with
  | Datatypes.O => halt NoFuel
  | Datatypes.S fuel =>
    if negb UseVisitorHash || isa_Constant e then visitActual (visit fuel) e
    else
      t ← get;
      match table_find e t with
      | Some r => mret r
      | None => r ← visitActual (visit fuel) e; modify (table_insert e r);; mret r
      end
  end.
Definition visit_fuel (e : Expr) : nat := Z.to_nat (weight e).
End Visit.

(** ** Constraint sets *)
Definition constraints_ty : Type := list Expr.

Definition ExprReplaceVisitor (src dst : Expr) : ExprVisitor :=
  let change e := if same e src then Some dst else None in mkVisitor false change change.
Definition ExprReplaceVisitor2 (replacements : list (Expr * Expr)) : ExprVisitor :=
  mkVisitor true (λ _, None) (λ e, table_find e replacements).

(** The replacement a constraint stands for. *)
Definition equality_of (c : Expr) : Expr * Expr :=
  match c with
  | Cmp KEq (Constant w v) r => (r, Constant w v)
  | _ => (c, Constant_alloc 1 Bool)
  end.
Definition equalities (cs : constraints_ty) : list (Expr * Expr) :=
  foldl (λ t c, table_insert (equality_of c).1 (equality_of c).2 t) [] cs.
Definition simplifyExpr (cs : constraints_ty) (e : Expr) : res Expr :=
  if isa_Constant e then mret e
  else λ u, match visit (ExprReplaceVisitor2 (equalities cs)) (visit_fuel e) e [] with Done r _ => Done r u | Halt x _ => Halt x u end.

(** [rewriteConstraints]: one visitor for all the constraints. *)
Fixpoint rewrite_loop (add : Expr → M constraints_ty unit) (V : ExprVisitor) (old : constraints_ty) (t : visited_ty) (changed : bool) :
  M constraints_ty bool :=
  match old with
  | [] => mret changed
  | ce :: old =>
    match visit V (visit_fuel ce) ce t with
    | Halt x _ => halt x
    | Done e t =>
      if same e ce then modify (λ cs, cs ++ [ce]);; rewrite_loop add V old t changed
      else add e;; rewrite_loop add V old t true
    end
  end.
Definition rewriteConstraints (add : Expr → M constraints_ty unit) (V : ExprVisitor) : M constraints_ty bool :=
  old ← get; put [];; rewrite_loop add V old [] false.

Fixpoint addConstraintInternal (fuel : nat) (e : Expr) : M constraints_ty unit :=
  match fuel with
  | Datatypes.O => halt NoFuel
  | Datatypes.S fuel =>
    match e with
    | Constant w v => t ← lift_res (isTrue w v); c_assert t
    | Arith KAnd l r => addConstraintInternal fuel l;; addConstraintInternal fuel r
    | Cmp KEq (Constant w v) r =>
      rewriteConstraints (addConstraintInternal fuel) (ExprReplaceVisitor r (Constant w v));; modify (λ cs, cs ++ [e])
    | _ => modify (λ cs, cs ++ [e])
    end
  end.

(** The fuel: the weight of the set and the constraint. *)
Definition total_weight (cs : constraints_ty) : Z := foldr (λ c n, weight c + n) 0 cs.
Definition add_fuel (cs : constraints_ty) (e : Expr) : nat := Z.to_nat (total_weight cs + weight e).
Definition addConstraint (e : Expr) : M constraints_ty unit :=
  cs ← get;
  e ← lift_res (simplifyExpr cs e);
  addConstraintInternal (add_fuel cs e) e.
End Visitor.
