(* ===== verification/VisitorSpec.v ===== *)
(** * What visitors keep

    A visitor whose replacements keep the value of an expression under some assignments returns, and what
    it returns has that value too; it is the expression itself or lighter. *)
From S2P Require Import Prelude Expr ExprCreate ExprRefine ExprSums ExprSpec ExprBuild ExprWeight Memory AddressSpace Visitor.

(** [Expr::compare] first compares the addresses: an expression that was not rewritten
    compares equal to itself. *)
Class ReflCompare `{HC : !ExprCompare} : Prop := same_refl : ∀ e, same e e = true.
Lemma eqb_refl_all : (∀ e, expr_eqb e e = true) ∧ (∀ ul, updates_eqb ul ul = true).
Proof.
  apply Expr_UpdateList_ind; cbn; intros; rewrite ?Z.eqb_refl, ?bool_decide_eq_true_2 by done;
    repeat match goal with H : _ = true |- _ => rewrite H end; done.
Qed.
#[global] Instance structural_refl : ReflCompare (HC := structural_compare).
Proof. exact (proj1 eqb_refl_all). Qed.

(** ** Values under an assignment *)
(** [e'] has the value of [e], if [e] has one. *)
Definition agrees (env : assignment) (e e' : Expr) : Prop := ∀ v, eval env e = Some v → eval env e' = Some v.
#[global] Instance agrees_preorder env : PreOrder (agrees env).
Proof. split; [by intros e v|]. intros a b c H1 H2 v E. auto. Qed.

(** The node with other kids. *)
Definition with_kids (e : Expr) (ks : list Expr) : Expr :=
  match e, ks with
  | NotOptimized _, [s] => NotOptimized s
  | Read a ul _, [i] => Read a ul i
  | Select _ _ _, [c; t; f] => Select c t f
  | Concat _ _, [l; r] => Concat l r
  | Extract _ off w, [s] => Extract s off w
  | ZExt _ w, [s] => ZExt s w
  | SExt _ w, [s] => SExt s w
  | Not _, [s] => Not s
  | Arith k _ _, [l; r] => Arith k l r
  | Cmp k _ _, [l; r] => Cmp k l r
  | _, _ => e
  end.
Definition kid_ok (env : assignment) (e k : Expr) : Prop := agrees env e k ∧ getWidth k = getWidth e.

Ltac inv_kids :=
  repeat match goal with
  | H : Forall2 _ (_ :: _) _ |- _ => apply Forall2_cons_inv_l in H as (? & ? & ? & H & ->)
  | H : Forall2 _ [] _ |- _ => apply Forall2_nil_inv_l in H as ->
  end.
Lemma with_kids_agrees env e ks : Forall2 (kid_ok env) (kids e) ks → agrees env e (with_kids e ks).
Proof.
  intros H v. destruct e; cbn in H; inv_kids; cbn; try done;
    repeat match goal with H : kid_ok env _ _ |- _ => destruct H as [? ?] end;
    repeat match goal with
    | Ha : agrees env ?a ?b |- context [eval env ?a] =>
      let E := fresh "E" in destruct (eval env a) eqn:E; cbn; [rewrite (Ha _ E); cbn; clear Ha|done]
    end; repeat match goal with H : getWidth _ = _ |- _ => rewrite H end; auto.
Qed.

(** ** Rebuilding *)
(** What a factory builds: it returns, with the meaning of the node and no heavier. *)
Definition built_as (m : res Expr) (n : Expr) : Prop := ∃ r, m tt = Done r tt ∧ refines n r ∧ narrow r ∧ weight r ≤ weight n.
Lemma built_as_intro m n : builds m n → small (weight n) m → built_as m n.
Proof. intros (r & E & H) Hs. unfold small, wlp in Hs. rewrite E in Hs. exists r. tauto. Qed.

Section Rebuild.
Context `{HA : !APInt, HC : !ExprCompare} (CAO : bool).

Lemma division_defined env k l w : is_division k = true → ¬ is_Some (eval env (Arith k l (Constant w 0))).
Proof. intros Hk [v Hv]. cbn in Hv. destruct (eval env l); [|done]. by destruct k. Qed.
(** The node is not a division by the constant 0. *)
Definition safe_division (n : Expr) : Prop := ∀ k l w, n = Arith k l (Constant w 0) → is_division k = false.
Lemma rebuild_safe e ks : Forall2 (λ _ _, True) (kids e) ks → isa_Constant e = false →
  wf (with_kids e ks) → narrow (with_kids e ks) → safe_division (with_kids e ks) → built_as (rebuild CAO e ks) (with_kids e ks).
Proof.
  intros H Hc. destruct e; try done; cbn in H; inv_kids; cbn [with_kids rebuild]; intros Hw Hn Hd; cbn in Hw, Hn; destruct_and?; apply built_as_intro.
  - by apply builds_ret, refines_refl.
  - by apply small_ret.
  - by apply ReadExpr_builds.
  - by apply read_small.
  - by apply SelectExpr_builds.
  - by apply select_small.
  - by apply ConcatExpr_builds.
  - by apply concat_small.
  - by apply ExtractExpr_builds.
  - by apply extract_small.
  - apply ZExtExpr_builds; [done|]. match goal with H : wf ?x |- _ => pose proof (wf_width x H) end. lia.
  - by apply zext_small.
  - apply SExtExpr_builds; [done|]. match goal with H : wf ?x |- _ => pose proof (wf_width x H) end. lia.
  - by apply sext_small.
  - by apply NotExpr_builds.
  - by apply not_small.
  - apply arith_builds; try done. intros Hk w ->. specialize (Hd _ _ _ eq_refl). congruence.
  - by eapply small_at_small, arith_small.
  - by apply cmp_builds.
  - by eapply small_at_small, cmp_small.
Qed.
Lemma rebuild_built env e ks : Forall2 (λ _ _, True) (kids e) ks → isa_Constant e = false →
  wf (with_kids e ks) → narrow (with_kids e ks) → is_Some (eval env (with_kids e ks)) → built_as (rebuild CAO e ks) (with_kids e ks).
Proof.
  intros H Hc Hw Hn Hd. apply rebuild_safe; try done. intros k l w E. rewrite E in Hd. destruct (is_division k) eqn:Ek; [|done]. by apply division_defined in Hd.
Qed.
End Rebuild.

(** ** Rewriting *)
(** [P]: the assignments under which the replacements keep values. *)
Section Rewriting.
Context (P : assignment → Prop).

Record rewritten (e r : Expr) : Prop := mkRewritten {
  rw_wf : wf r; rw_narrow : narrow r; rw_width : getWidth r = getWidth e;
  rw_agrees env : P env → agrees env e r;
  rw_weight : r = e ∨ weight r < weight e
}.
Lemma rewritten_refl e : wf e → narrow e → rewritten e e.
Proof. intros. split; auto. by intros env _ v. Qed.
Lemma rewritten_trans e1 e2 e3 : rewritten e1 e2 → rewritten e2 e3 → rewritten e1 e3.
Proof.
  intros [W1 N1 L1 A1 Q1] [W2 N2 L2 A2 Q2]. split; [done|done|congruence| |].
  - intros env HP. etrans; [by apply A1|by apply A2].
  - destruct Q1 as [->|?]; [done|]. destruct Q2 as [->|?]; right; lia.
Qed.

(** The node of rewritten kids. *)
Lemma with_kids_rewritten e ks : wf e → narrow e → Forall2 rewritten (kids e) ks →
  rewritten e (with_kids e ks) ∧ (weight (with_kids e ks) < weight e ∨ ks = kids e).
Proof.
  intros We Ne H. assert (Ha : ∀ env, P env → agrees env e (with_kids e ks)).
  { intros env HP. apply with_kids_agrees. eapply Forall2_impl; [exact H|]. intros a b Hab. split; [by apply Hab|apply Hab]. }
  assert (Hw : weight (with_kids e ks) < weight e ∨ (ks = kids e ∧ with_kids e ks = e)).
  { destruct e; cbn in H; inv_kids; cbn [with_kids kids weight]; try (by right);
      repeat match goal with Hr : rewritten ?a ?b |- _ => lazymatch goal with
        | Hq : b = a ∨ weight b < weight a |- _ => fail | _ => pose proof (rw_weight _ _ Hr) end end;
      repeat match goal with Hq : _ = _ ∨ _ < _ |- _ => destruct Hq as [->|?] end; (by right) || (left; lia). }
  assert (Hs : wf (with_kids e ks) ∧ narrow (with_kids e ks) ∧ getWidth (with_kids e ks) = getWidth e).
  { destruct e; cbn in H; inv_kids; cbn in We, Ne |- *; try done;
      repeat match goal with Hr : rewritten ?a ?b |- _ => destruct Hr as [? ? ? _ _] end; destruct_and?; split_and?; try done; try lia; congruence. }
  destruct Hs as (? & ? & ?). split; [split; [done..|]|]; destruct Hw as [?|[? ?]]; auto.
Qed.
End Rewriting.

(** ** Tables *)
Section Tables.
Context `{HC : !ExprCompare}.
Lemma table_find_elem e r (t : list (Expr * Expr)) : table_find e t = Some r → (e, r) ∈ t.
Proof.
  induction t as [|[k v] t IH]; cbn; [done|]. destruct (same k e) eqn:E; [|intros; right; auto].
  intros [= ->]. apply same_sound in E as ->. by left.
Qed.
Lemma table_insert_elem e v (t : list (Expr * Expr)) p : p ∈ table_insert e v t → p ∈ t ∨ p = (e, v).
Proof. unfold table_insert. case_match; [by left|]. set_solver. Qed.
End Tables.

(** Kids are lighter. *)
Lemma kids_lighter e k : k ∈ kids e → weight k < weight e.
Proof.
  destruct e as [| | | | | | | | |a|c]; cbn; try (pose proof (arith_cost_pos a)); try (pose proof (cmp_cost_pos c)); intros; set_unfold;
    repeat match goal with H : _ ∨ _ |- _ => destruct H end; subst; try done; weights.
Qed.

Section Visit.
Context `{HA : !APInt, HC : !ExprCompare, HRf : !ReflCompare} (CAO UVH : bool) (P : assignment → Prop) (V : ExprVisitor).

(** The replacements are constants with the value of what they replace. *)
Definition replaces (e r : Expr) : Prop := isa_Constant r = true ∧ wf r ∧ getWidth r = getWidth e ∧ ∀ env, P env → agrees env e r.
Definition visitor_ok : Prop := ∀ e r, wf e → isa_Constant e = false → visitExpr V e = Some r ∨ visitExprPost V e = Some r → replaces e r.
Lemma replaces_rewritten e r : isa_Constant e = false → replaces e r → rewritten P e r.
Proof.
  intros He (Hr & Hw & Hl & Ha). split; [done|by destruct r|done|done|]. right. destruct r; try done. cbn. by apply constant_lightest.
Qed.

Definition table_ok (t : visited_ty) : Prop := ∀ k r, (k, r) ∈ t → rewritten P k r.

(** A visit from a good table returns, with a good table, a rewritten expression. *)
Definition visits (m : M visited_ty Expr) (e : Expr) : Prop :=
  ∀ t, table_ok t → ∃ r t', m t = Done r t' ∧ table_ok t' ∧ rewritten P e r.

Context (HV : visitor_ok) (env0 : assignment) (H0 : P env0).
Definition visitable (e : Expr) : Prop := wf e ∧ narrow e ∧ is_Some (eval env0 e).
Lemma rewritten_visitable e r : visitable e → rewritten P e r → visitable r.
Proof. intros (_ & _ & [v Hv]) Hr. split_and!; [apply Hr|apply Hr|]. exists v. by apply (rw_agrees _ _ _ Hr env0). Qed.
Lemma kids_visitable e : visitable e → Forall visitable (kids e).
Proof.
  intros (Hw & Hn & [v Hv]). destruct e; cbn in *; destruct_and?; repeat constructor; try done;
    repeat match goal with H : context [eval env0 ?x ≫= _] |- _ => destruct (eval env0 x) eqn:?; cbn in H; [|done] end; by eauto.
Qed.

Lemma visit_kids_spec f l : (∀ k, k ∈ l → visits (f k) k) → ∀ t, table_ok t →
  ∃ ks t', visit_kids f l t = Done ks t' ∧ table_ok t' ∧ Forall2 (rewritten P) l ks.
Proof.
  induction l as [|e l IH]; intros Hf t Ht; cbn; [by exists [], t|].
  destruct (Hf e ltac:(by left) t Ht) as (k & t1 & E1 & Ht1 & Hk). rewrite (bind_done _ _ _ _ _ E1).
  destruct (IH ltac:(intros; apply Hf; by right) t1 Ht1) as (ks & t2 & E2 & Ht2 & Hks). rewrite (bind_done _ _ _ _ _ E2).
  exists (k :: ks), t2. by split_and!; [..|constructor].
Qed.
Lemma any_changed_false ks l : Forall2 (λ _ _, True) l ks → any_changed ks l = false ↔ ks = l.
Proof.
  induction 1 as [|e k l ks _ _ IH]; cbn; [done|]. rewrite orb_false_iff, negb_false_iff, IH. split.
  - intros [E%same_sound ->]. by subst.
  - intros [= -> ->]. by rewrite same_refl.
Qed.

Lemma post_spec e r : visitable e → rewritten P e r →
  ∀ t, table_ok t → ∃ r' t', (if isa_Constant r then mret r else mret (default r (visitExprPost V r)) : M visited_ty Expr) t = Done r' t' ∧
    table_ok t' ∧ rewritten P e r'.
Proof.
  intros Hv Hr t Ht. destruct (isa_Constant r) eqn:Ec; [by exists r, t|]. destruct (visitExprPost V r) as [r'|] eqn:Ep; cbn; [|by exists r, t].
  exists r', t. split_and!; [done|done|]. eapply rewritten_trans; [exact Hr|]. apply replaces_rewritten; [done|].
  apply HV; [apply Hr|done|by right].
Qed.
Lemma visitActual_spec f e : visitable e → (∀ k, visitable k → weight k < weight e → visits (f k) k) →
  visits (visitActual CAO V f e) e.
Proof.
  intros Hv Hf t Ht. pose proof Hv as (Hw & Hn & _). unfold visitActual. destruct (isa_Constant e) eqn:Ec; [exists e, t; auto using rewritten_refl|].
  destruct (visitExpr V e) as [r|] eqn:Er. { exists r, t. split_and!; [done|done|]. apply replaces_rewritten; [done|]. apply HV; auto. }
  destruct (visit_kids_spec f (kids e)) with (t := t) as (ks & t1 & E1 & Ht1 & Hks); [|done|].
  { intros k Hk. apply Hf; [|by apply kids_lighter]. eapply Forall_forall; [by apply kids_visitable|done]. }
  rewrite (bind_done _ _ _ _ _ E1). destruct (with_kids_rewritten P e ks Hw Hn Hks) as [Hn' Hlt].
  assert (H2 : Forall2 (λ _ _, True) (kids e) ks) by (eapply Forall2_impl; [exact Hks|done]).
  destruct (any_changed ks (kids e)) eqn:Ea.
  - assert (weight (with_kids e ks) < weight e).
    { destruct Hlt as [?| ->]; [done|]. rewrite (proj2 (any_changed_false _ _ H2)) in Ea; done. }
    pose proof (rewritten_visitable e _ Hv Hn') as (Wn & Nn & Dn).
    destruct (rebuild_built CAO env0 e ks H2 Ec Wn Nn Dn) as (e1 & E & (W1 & L1 & A1) & N1 & Q1).
    assert (He1 : rewritten P e e1).
    { split; [done|done|rewrite L1; apply Hn'| |right; lia]. intros env HP v Ev. apply A1. by apply (rw_agrees _ _ _ Hn' env HP). }
    assert (∃ r t', (e1 ← lift_res (rebuild CAO e ks); if recursive V then f e1 else mret e1) t1 = Done r t' ∧ table_ok t' ∧ rewritten P e r)
      as (r & t2 & E2 & Ht2 & Hr).
    { unfold mbind, M_bind, lift_res. rewrite E. destruct (recursive V); [|by exists e1, t1].
      destruct (Hf e1) with (t := t1) as (r & t2 & E2 & Ht2 & Hr); [by eapply rewritten_visitable|lia|done|].
      exists r, t2. split_and!; [done|done|]. by eapply rewritten_trans. }
    rewrite (bind_done _ _ _ _ _ E2). by apply post_spec.
  - apply post_spec; auto using rewritten_refl.
Qed.

Lemma visit_spec fuel : ∀ e, visitable e → weight e ≤ Z.of_nat fuel → visits (visit CAO UVH V fuel e) e.
Proof.
  induction fuel as [|fuel IH]; intros e Hv Hf; [pose proof (weight_pos e); lia|]. cbn [visit].
  assert (Ha : visits (visitActual CAO V (visit CAO UVH V fuel) e) e).
  { apply visitActual_spec; [done|]. intros k Hk Hlt. apply IH; [done|lia]. }
  destruct (negb UVH || isa_Constant e); [done|]. intros t Ht. unfold get, gets, mbind at 1, M_bind at 1.
  destruct (table_find e t) as [r|] eqn:Et; [exists r, t; split_and!; [done|done|]; by apply Ht, table_find_elem|].
  destruct (Ha t Ht) as (r & t1 & E1 & Ht1 & Hr). rewrite (bind_done _ _ _ _ _ E1). exists r, (table_insert e r t1). split_and!; [done| |done].
  intros k v [?|[= -> ->]]%table_insert_elem; auto.
Qed.
End Visit.
