(* ===== verification/ConstraintSpec.v ===== *)
(** * Constraint sets

    Simplification keeps the value of an expression wherever the constraints hold; adding a constraint ends,
    and the new set holds exactly where the old one and the constraint hold. *)
From S2P Require Import Prelude Expr ExprCreate ExprRefine ExprSums ExprSpec ExprBuild ExprWeight Memory AddressSpace Visitor VisitorSpec.

(** ** Sets *)
Definition satisfies (cs : list Expr) (env : assignment) : Prop := ∀ c, c ∈ cs → eval env c = Some 1.
(** Some constraint has the value false. *)
Definition falsified (cs : list Expr) (env : assignment) : Prop := ∃ c, c ∈ cs ∧ eval env c = Some 0.
Definition condition (c : Expr) : Prop := wf c ∧ getWidth c = Bool ∧ narrow c.

Lemma satisfies_cons c cs env : satisfies (c :: cs) env ↔ eval env c = Some 1 ∧ satisfies cs env.
Proof. unfold satisfies. set_solver. Qed.
Lemma satisfies_app cs cs' env : satisfies (cs ++ cs') env ↔ satisfies cs env ∧ satisfies cs' env.
Proof. unfold satisfies. set_solver. Qed.
Lemma falsified_cons c cs env : falsified (c :: cs) env ↔ eval env c = Some 0 ∨ falsified cs env.
Proof. unfold falsified. set_solver. Qed.
Lemma falsified_app cs cs' env : falsified (cs ++ cs') env ↔ falsified cs env ∨ falsified cs' env.
Proof. unfold falsified. set_solver. Qed.
Lemma satisfies_nil env : satisfies [] env.
Proof. by intros c ?%not_elem_of_nil. Qed.
Lemma condition_value c env v : condition c → eval env c = Some v → v = 0 ∨ v = 1.
Proof. intros (Hw & Hl & _) E. apply bits_1. rewrite <-Hl. by eapply eval_range. Qed.
Lemma satisfied_or_falsified cs env : Forall condition cs → (∀ c, c ∈ cs → is_Some (eval env c)) → satisfies cs env ∨ falsified cs env.
Proof.
  induction 1 as [|c cs Hc _ IH]; intros Hd; [left; apply satisfies_nil|]. destruct (Hd c ltac:(by left)) as [v Hv].
  rewrite satisfies_cons, falsified_cons. destruct (condition_value c env v Hc Hv) as [->| ->]; [by right; left|].
  destruct IH as [?|?]; [intros; apply Hd; by right|by left|by right; right].
Qed.
Lemma satisfies_not_falsified cs env : satisfies cs env → ¬ falsified cs env.
Proof. intros H (c & Hc & E). rewrite (H c Hc) in E. done. Qed.

Lemma total_weight_app cs cs' : total_weight (cs ++ cs') = total_weight cs + total_weight cs'.
Proof. unfold total_weight. induction cs as [|c cs IH]; cbn; [done|]. rewrite IH. lia. Qed.
Lemma total_weight_pos cs : 0 ≤ total_weight cs.
Proof. unfold total_weight. induction cs as [|c cs IH]; cbn; [done|]. weights. Qed.
Lemma total_weight_cons c cs : total_weight (c :: cs) = weight c + total_weight cs.
Proof. done. Qed.

Section Constraints.
Context `{HA : !APInt, HC : !ExprCompare, HRf : !ReflCompare} (CAO UVH : bool).

(** ** Simplification *)
Lemma equality_ok c : condition c → replaces (satisfies [c]) (equality_of c).1 (equality_of c).2.
Proof.
  intros Hc. pose proof Hc as (Hw & Hl & _). unfold equality_of.
  assert (Hself : replaces (satisfies [c]) c (Constant_alloc 1 Bool)).
  { split_and!; [done|done|done|]. intros env Hs v Ev. rewrite (Hs c ltac:(by left)) in Ev. by injection Ev as <-. }
  destruct c as [| | | | | | | | | |[] a b]; try exact Hself. destruct a as [w v| | | | | | | | | |]; try exact Hself.
  cbn in Hw. destruct Hw as ((Hw & Hv) & Wb & Lb). split_and!; [done|done|done|]. intros env Hs x Ex.
  specialize (Hs _ ltac:(by left)). cbn in Hs. cbn in Ex. rewrite Ex in Hs. cbn in Hs. cbn. destruct (Z.eqb_spec v x); [by subst|done].
Qed.
Lemma equalities_elem cs : ∀ t p, p ∈ foldl (λ t c, table_insert (equality_of c).1 (equality_of c).2 t) t cs → p ∈ t ∨ ∃ c, c ∈ cs ∧ p = equality_of c.
Proof.
  induction cs as [|c cs IH]; intros t p Hp; cbn in Hp; [by left|]. apply IH in Hp as [[?| ->]%table_insert_elem|(c' & ? & ->)].
  - by left.
  - right. exists c. split; [by left|by destruct (equality_of c)].
  - right. exists c'. split; [by right|done].
Qed.
Lemma simplify_visitor_ok cs : Forall condition cs → visitor_ok (satisfies cs) (ExprReplaceVisitor2 (equalities cs)).
Proof.
  intros Hcs e r We He [?|Hr]; [done|]. cbn in Hr. apply table_find_elem, equalities_elem in Hr as [[]%not_elem_of_nil|(c & Hc & E)].
  assert (Hq : condition c) by by eapply Forall_forall in Hcs. pose proof (equality_ok c Hq) as H. rewrite <-E in H. destruct H as (H1 & H2 & H3 & H4).
  split_and!; [done..|]. intros env Hs. apply H4. intros c' ->%list_elem_of_singleton. by apply Hs.
Qed.
Lemma simplify_spec cs e env0 : Forall condition cs → wf e → narrow e → satisfies cs env0 → is_Some (eval env0 e) →
  ∃ r, simplifyExpr CAO UVH cs e tt = Done r tt ∧ rewritten (satisfies cs) e r.
Proof.
  intros Hcs We Ne Hs Hd. unfold simplifyExpr. destruct (isa_Constant e); [exists e; auto using rewritten_refl|].
  destruct (visit_spec CAO UVH (satisfies cs) _ (simplify_visitor_ok cs Hcs) env0 Hs (visit_fuel e) e) with (t := @nil (Expr * Expr))
    as (r & t & E & _ & Hr); [done|unfold visit_fuel; pose proof (weight_pos e); lia|by intros k r []%not_elem_of_nil|].
  exists r. by rewrite E.
Qed.

(** ** Adding *)
Record added (cs : list Expr) (e : Expr) (cs' : list Expr) : Prop := mkAdded {
  ad_good : Forall condition cs';
  ad_sat env : satisfies cs env → eval env e = Some 1 → satisfies cs' env;
  ad_false env : falsified (e :: cs) env → falsified cs' env;
  ad_weight : total_weight cs' ≤ total_weight cs + weight e
}.
Definition adds (m : M constraints_ty unit) (cs : list Expr) (e : Expr) : Prop := ∃ cs', m cs = Done tt cs' ∧ added cs e cs'.
Lemma adds_push cs e : Forall condition cs → condition e → adds (modify (λ cs, cs ++ [e])) cs e.
Proof.
  intros Hcs He. exists (cs ++ [e]). split; [done|]. split.
  - apply Forall_app. split; [done|]. by apply Forall_singleton.
  - intros env H1 H2. apply satisfies_app. split; [done|]. apply satisfies_cons. split; [done|apply satisfies_nil].
  - intros env H. rewrite falsified_cons in H. apply falsified_app. destruct H as [H|H]; [right|by left]. exists e. split; [by left|done].
  - rewrite total_weight_app. cbn. lia.
Qed.

(** A conjunction of bits. *)
Lemma and_condition a b : condition (Arith KAnd a b) → condition a ∧ condition b.
Proof. intros (Hw & Hl & Hn). cbn in *. destruct_and?. split; split_and!; try done; congruence. Qed.
Lemma and_value a b env v : condition (Arith KAnd a b) → eval env (Arith KAnd a b) = Some v →
  ∃ x y, eval env a = Some x ∧ eval env b = Some y ∧ (v = 1 → x = 1 ∧ y = 1) ∧ (v = 0 → x = 0 ∨ y = 0).
Proof.
  intros [Ha Hb]%and_condition E. cbn in E. destruct (eval env a) as [x|] eqn:Ea; [|done]. destruct (eval env b) as [y|] eqn:Eb; [|done].
  cbn in E. injection E as <-. exists x, y. split_and!; [done|done|..];
    destruct (condition_value a env x Ha Ea) as [->| ->], (condition_value b env y Hb Eb) as [->| ->]; cbn; auto.
Qed.

(** *** Rewriting the set *)
(** Where the equation is not false. *)
Definition not_refuted (r : Expr) (w v : Z) (env : assignment) : Prop := agrees env r (Constant w v).
Lemma equation_cases w v r env : wf (Cmp KEq (Constant w v) r) →
  (eval env (Cmp KEq (Constant w v) r) = Some 1 → not_refuted r w v env) ∧
  (eval env (Cmp KEq (Constant w v) r) ≠ Some 0 → not_refuted r w v env).
Proof.
  intros _. unfold not_refuted, agrees. cbn. destruct (eval env r) as [x|]; cbn; [|by split].
  destruct (Z.eqb_spec v x) as [->|]; cbn; split; intros H y [= <-]; congruence.
Qed.
Lemma replace_visitor_ok w v r : wf (Cmp KEq (Constant w v) r) → visitor_ok (not_refuted r w v) (ExprReplaceVisitor r (Constant w v)).
Proof.
  intros (Hc & Hr & Hl) e x We He Hx. cbn in Hx.
  assert (Hx' : (if same e r then Some (Constant w v) else None) = Some x) by tauto. destruct (same e r) eqn:Es; [|done].
  injection Hx' as <-. apply same_sound in Es as ->. split_and!; [done|done|by cbn in *|done].
Qed.

Section Loop.
Context (w v : Z) (r : Expr) (add : Expr → M constraints_ty unit) (N : Z) (env0 : assignment).
Let P := not_refuted r w v.
Context (Hwf : wf (Cmp KEq (Constant w v) r)) (H0 : P env0).
Context (Hadd : ∀ e cs, condition e → Forall condition cs → satisfies (e :: cs) env0 → total_weight cs + weight e ≤ N → adds (add e) cs e).

Lemma rewrite_loop_spec old : ∀ t cur changed, table_ok P t → Forall condition old → Forall condition cur →
  satisfies old env0 → satisfies cur env0 → total_weight old + total_weight cur ≤ N →
  ∃ b cur', rewrite_loop CAO UVH add (ExprReplaceVisitor r (Constant w v)) old t changed cur = Done b cur' ∧
    Forall condition cur' ∧ total_weight cur' ≤ total_weight old + total_weight cur ∧
    (∀ env, P env → satisfies old env → satisfies cur env → satisfies cur' env) ∧
    (∀ env, P env → falsified old env ∨ falsified cur env → falsified cur' env).
Proof.
  induction old as [|c old IH]; intros t cur changed Ht Hold Hcur Hs Hsc HN; cbn [rewrite_loop].
  { exists changed, cur. split_and!; [done|done|cbn; lia|done|]. intros env _ [(c & []%not_elem_of_nil & _)|?]; done. }
  apply Forall_cons in Hold as [Hc Hold]. apply satisfies_cons in Hs as [Hc0 Hs]. rewrite total_weight_cons in *.
  pose proof Hc as (Wc & Lc & Nc).
  destruct (visit_spec CAO UVH P _ (replace_visitor_ok w v r Hwf) env0 H0 (visit_fuel c) c) with (t := t) as (e & t1 & E & Ht1 & He);
    [by split_and!|unfold visit_fuel; pose proof (weight_pos c); lia|done|]. rewrite E.
  assert (Ce : condition e) by (split_and!; [apply He|rewrite (rw_width _ _ _ He); done|apply He]).
  assert (He0 : eval env0 e = Some 1) by by apply (rw_agrees _ _ _ He env0 H0).
  assert (Hw : weight e ≤ weight c) by (destruct (rw_weight _ _ _ He) as [->|?]; lia).
  assert (∃ cur1, (if same e c then modify (λ cs, cs ++ [c]) else add e) cur = Done tt cur1 ∧ added cur e cur1) as (cur1 & E1 & [Hg1 Hs1 Hf1 Hw1]).
  { destruct (same e c) eqn:Es; [apply same_sound in Es as ->; by apply adds_push|].
    apply Hadd; [done|done|by apply satisfies_cons|]. pose proof (total_weight_pos old). lia. }
  destruct (IH t1 cur1 (if same e c then changed else true)) as (b & cur' & E2 & Hg & Hwt & Hsat & Hfal); [done|done|done|done|by apply Hs1|lia|].
  exists b, cur'. split.
  { destruct (same e c); rewrite (bind_done _ _ _ _ _ E1); done. }
  split_and!; [done|lia|..].
  - intros env HP [H1 H2]%satisfies_cons H3. apply Hsat; [exact HP|exact H2|]. apply Hs1; [exact H3|]. by apply (rw_agrees _ _ _ He env HP).
  - intros env HP [[H|H]%falsified_cons|H]; (apply Hfal; [done|]); [right|by left|right]; apply Hf1, falsified_cons; [left|by right].
    by apply (rw_agrees _ _ _ He env HP).
Qed.
Lemma rewrite_equation cs : let e := Cmp KEq (Constant w v) r in condition e → Forall condition cs → satisfies (e :: cs) env0 → total_weight cs ≤ N →
  adds (rewriteConstraints CAO UVH add (ExprReplaceVisitor r (Constant w v));; modify (λ cs, cs ++ [e])) cs e.
Proof.
  intros e He Hcs [_ Hs]%satisfies_cons HN. destruct (rewrite_loop_spec cs [] [] false) as (b & cs' & E & Hg & Hw & Hsat & Hfal);
    [by intros k x []%not_elem_of_nil|done|done|done|apply satisfies_nil|cbn; lia|].
  destruct (adds_push cs' e Hg He) as (cs2 & E2 & [Hg2 Hs2 Hf2 Hw2]). exists cs2. split.
  - unfold rewriteConstraints. rewrite (bind_done _ _ cs b cs'); [done|]. exact E.
  - cbn in Hw. split; [done| |..|lia].
    + intros env H1 H2. apply Hs2; [|done]. apply Hsat; [exact (proj1 (equation_cases w v r env Hwf) H2)|done|apply satisfies_nil].
    + intros env H. apply Hf2, falsified_cons. destruct (decide (eval env e = Some 0)) as [|Hn]; [by left|right].
      apply falsified_cons in H as [?|H]; [done|]. apply Hfal; [exact (proj2 (equation_cases w v r env Hwf) Hn)|by left].
Qed.
End Loop.

Lemma add_spec fuel : ∀ e cs env0, condition e → Forall condition cs → satisfies (e :: cs) env0 → total_weight cs + weight e ≤ Z.of_nat fuel →
  adds (addConstraintInternal CAO UVH fuel e) cs e.
Proof.
  induction fuel as [|fuel IH]; intros e cs env0 He Hcs Hs HN; [pose proof (weight_pos e); pose proof (total_weight_pos cs); lia|].
  cbn [addConstraintInternal]. assert (Hp : adds (modify (λ cs, cs ++ [e])) cs e) by by apply adds_push.
  destruct e as [w v| | | | | | | | |[] a b|[] a b]; try exact Hp.
  - apply satisfies_cons in Hs as [Hv Hs]. cbn in Hv. injection Hv as ->. pose proof He as (_ & Hl & _). cbn in Hl. subst w.
    exists cs. split; [done|]. split; [done|done|..|cbn; lia]. intros env [H|H]%falsified_cons; done.
  - apply satisfies_cons in Hs as [Hv Hs]. destruct (and_condition a b He) as [Ha Hb]. cbn [weight arith_cost] in HN.
    destruct (and_value a b env0 1 He Hv) as (x & y & Ex & Ey & H1 & _). destruct (H1 eq_refl) as [-> ->].
    destruct (IH a cs env0) as (cs1 & E1 & [Hg1 Hs1 Hf1 Hw1]); [done|done|by apply satisfies_cons|pose proof (weight_pos b); lia|].
    destruct (IH b cs1 env0) as (cs2 & E2 & [Hg2 Hs2 Hf2 Hw2]); [done|done|apply satisfies_cons; auto|lia|].
    exists cs2. split; [by rewrite (bind_done _ _ _ _ _ E1)|]. split; [done|..|cbn [weight arith_cost]; lia].
    + intros env H Hab. destruct (and_value a b env 1 He Hab) as (x & y & Ea & Eb & Hx & _). destruct (Hx eq_refl) as [-> ->]. auto.
    + intros env [Hab|H]%falsified_cons; apply Hf2, falsified_cons; [|right; by apply Hf1, falsified_cons; right].
      destruct (and_value a b env 0 He Hab) as (x & y & Ea & Eb & _ & Hx). destruct (Hx eq_refl) as [->| ->]; [right|by left].
      apply Hf1, falsified_cons. by left.
  - destruct a as [w v| | | | | | | | | |]; try exact Hp. cbn [weight cmp_cost] in HN. pose proof He as (Wf & _).
    apply (rewrite_equation w v b (addConstraintInternal CAO UVH fuel) (Z.of_nat fuel) env0); [done| |..|done|done|done|].
    + apply satisfies_cons in Hs as [Hv _]. exact (proj1 (equation_cases w v b env0 Wf) Hv).
    + intros e' cs' H1 H2 H3 H4. by apply (IH e' cs' env0).
    + pose proof (weight_pos b). lia.
Qed.

(** A new constraint splits the assignments that satisfy the old ones, and keeps the false ones false. *)
Lemma addConstraint_splits cs e : Forall condition cs → condition e → (∃ env, satisfies cs env ∧ eval env e = Some 1) →
  ∃ cs', addConstraint CAO UVH e cs = Done tt cs' ∧ Forall condition cs' ∧
    (∀ env, satisfies cs env → eval env e = Some 1 → satisfies cs' env) ∧
    (∀ env, falsified cs env → falsified cs' env) ∧
    (∀ env, satisfies cs env → eval env e = Some 0 → falsified cs' env).
Proof.
  intros Hcs He (env0 & Hs0 & He0). pose proof He as (We & Le & Ne).
  destruct (simplify_spec cs e env0) as (r & E & Hr); [done..|by rewrite He0|].
  assert (Cr : condition r) by (split_and!; [apply Hr|rewrite (rw_width _ _ _ Hr); done|apply Hr]).
  destruct (add_spec (add_fuel cs r) r cs env0) as (cs' & E' & [Hg Hs Hf _]); [done|done| |unfold add_fuel; pose proof (weight_pos r); pose proof (total_weight_pos cs); lia|].
  { apply satisfies_cons. split; [by apply (rw_agrees _ _ _ Hr env0)|done]. }
  exists cs'. split; [|split_and!; [done|..]].
  - unfold addConstraint, mbind, M_bind, get, gets, lift_res. by rewrite E.
  - intros env H1 H2. apply Hs; [done|]. by apply (rw_agrees _ _ _ Hr env).
  - intros env H. apply Hf, falsified_cons. by right.
  - intros env H1 H2. apply Hf, falsified_cons. left. by apply (rw_agrees _ _ _ Hr env).
Qed.
End Constraints.

(** ** Properties *)
(** C11: (equivalence) Adding a constraint to the constraints of a path is exact.  For conditions on
    arithmetic of at most 64 bits that can hold together with the new one, [addConstraint]
    ends; every constraint of the resulting set is such a condition again; an assignment that
    satisfies the old constraints and the new one satisfies the resulting set; and an
    assignment under which the old constraints and the new one have values satisfies the
    resulting set only if it satisfies them all: splitting conjunctions, replacing what an equation
    makes constant in all older constraints, and rewriting again what that makes constant
    neither loses nor adds a solution. *)
Theorem add_constraint_exact `{HA : !APInt, HC : !ExprCompare, HRf : !ReflCompare} (ConstArrayOpt UseVisitorHash : bool) (cs : constraints_ty) (e : Expr) :
  Forall condition cs → condition e → (∃ env, satisfies cs env ∧ eval env e = Some 1) →
  ∃ cs', addConstraint ConstArrayOpt UseVisitorHash e cs = Done tt cs' ∧ Forall condition cs' ∧
    (∀ env, satisfies cs env → eval env e = Some 1 → satisfies cs' env) ∧
    (∀ env, (∀ c, c ∈ e :: cs → is_Some (eval env c)) → satisfies cs' env → satisfies cs env ∧ eval env e = Some 1).
Proof.
  intros Hcs He Hex. destruct (addConstraint_splits ConstArrayOpt UseVisitorHash cs e Hcs He Hex) as (cs' & E & Hg & Hs & Hf & H0).
  exists cs'. split_and!; [done..|]. intros env Hd H. assert (Hd' : ∀ c, c ∈ cs → is_Some (eval env c)) by (intros; apply Hd; by right).
  destruct (satisfied_or_falsified cs env Hcs Hd') as [H1|H1]; [|by destruct (satisfies_not_falsified _ _ H); apply Hf].
  split; [done|]. destruct (Hd e ltac:(by left)) as [v Hv]. destruct (condition_value e env v He Hv) as [->| ->]; [|done].
  by destruct (satisfies_not_falsified _ _ H); apply H0.
Qed.

(** b0 < 5 and b1 = b0 + 3 with b0 = 2 and b2 = 0: the older constraints become constant, and b1 = 5. *)
Definition old_constraints : constraints_ty :=
  [Cmp KUlt (arg_byte 0) (Constant 8 5); Cmp KEq (arg_byte 1) (Arith KAdd (Constant 8 3) (arg_byte 0))].
Definition new_constraint : Expr := Arith KAnd (Cmp KEq (Constant 8 2) (arg_byte 0)) (Cmp KEq (Constant 8 0) (arg_byte 2)).
Lemma add_constraint_exact_witness :
  addConstraint true true new_constraint old_constraints =
    Done tt [Cmp KEq (Constant 8 5) (arg_byte 1); Cmp KEq (Constant 8 2) (arg_byte 0); Cmp KEq (Constant 8 0) (arg_byte 2)] ∧
  ∃ cs', addConstraint true true new_constraint old_constraints = Done tt cs' ∧
    ∀ env, satisfies old_constraints env → eval env new_constraint = Some 1 → satisfies cs' env.
Proof.
  split; [vm_compute; reflexivity|].
  destruct (add_constraint_exact true true old_constraints new_constraint) as (cs' & E & _ & Hs & _).
  - repeat constructor; try (vm_compute; congruence).
  - split_and!; vm_compute; repeat split; try done; congruence.
  - exists (λ _ i, if i =? 0 then 2 else if i =? 1 then 5 else 0). split; [|reflexivity].
    intros c Hc. repeat (apply elem_of_cons in Hc as [->|Hc]; [reflexivity|]). by apply not_elem_of_nil in Hc.
  - exists cs'. split; [exact E|exact Hs].
Defined.
