(* ===== verification/Independent.v ===== *)
(** * Independent constraints

    src/klee/lib/Solver/IndependentSolver.cpp and [findReads] of src/klee/lib/Expr/ExprUtil.cpp:
    the solver that passes on only the constraints that share array elements, directly
    or through other constraints, with the query. *)
From S2P Require Import Prelude Expr ExprCreate Memory AddressSpace Solver Visitor ExprRefine ExprSums ExprSpec ExprBuild MemorySpec AddressSpaceResolve SolverSpec SolverProps ConstraintSpec.

#[global] Instance Array_countable : Countable Array.
Proof.
  refine (inj_countable' (λ a, (arr_id a, arr_name a, arr_size a, constantValues a)) (λ p, mkArray p.1.1.1 p.1.1.2 p.1.2 p.2) _).
  by intros [].
Defined.

(** ** Reads *)
Definition read : Type := Array * UpdateList * Expr.

Fixpoint update_exprs (ul : UpdateList) : list Expr :=
  match ul with UNil => [] | UNode i v next => i :: v :: update_exprs next end.

Section Find.
Context `{!ExprCompare}.

(** [if (!isa<ConstantExpr>(e) && visited.insert(e).second) stack.push_back(e)]. *)
Record search := mkSearch { stack : list Expr; visited : list Expr; updates_seen : list UpdateList; results : list read }.
Definition push (st : search) (e : Expr) : search :=
  if isa_Constant e || existsb (same e) (visited st) then st
  else mkSearch (e :: stack st) (e :: visited st) (updates_seen st) (results st).

(** [updates] holds the heads of update lists by address, the model compares their nodes: of two lists
    with the same nodes the expressions are the same, and have been pushed once. *)
Definition find_step (visitUpdates : bool) (top : Expr) (st : search) : search :=
  match top with
  | Read a ul i =>
    let st := push (mkSearch (stack st) (visited st) (updates_seen st) (results st ++ [(a, ul, i)])) i in
    if visitUpdates then
      if existsb (updates_eqb ul) (updates_seen st) then st
      else foldl push (mkSearch (stack st) (visited st) (ul :: updates_seen st) (results st)) (update_exprs ul)
    else st
  | _ => foldl push st (kids top)
  end.
Fixpoint find_loop (fuel : nat) (visitUpdates : bool) (st : search) : res (list read) :=
  match stack st with
  | [] => mret (results st)
  | top :: rest =>
    match fuel with
    | Datatypes.O => halt NoFuel
    | S fuel => find_loop fuel visitUpdates (find_step visitUpdates top (mkSearch rest (visited st) (updates_seen st) (results st)))
    end
  end.
Definition findReads (e : Expr) (visitUpdates : bool) : res (list read) :=
  find_loop (esize e) visitUpdates (push (mkSearch [] [] [] []) e).
End Find.

(** ** Sets of array elements *)
Record IndependentElementSet := mkIES { elements : gmap Array (gset Z); wholeObjects : gset Array }.
Definition ies_empty : IndependentElementSet := mkIES ∅ ∅.

(** One read of the loop of the constructor. *)
Definition ies_read (ies : IndependentElementSet) (re : read) : res IndependentElementSet :=
  match re with
  | (array, ul, index) =>
    if negb (isSymbolicArray array) && match ul with UNil => true | _ => false end then mret ies
    else if bool_decide (array ∈ wholeObjects ies) then mret ies
    else
      match index with
      | Constant w v =>
        x ← getZExtValue 32 w v;
        mret (mkIES (<[array := {[u32 x]} ∪ default ∅ (elements ies !! array)]> (elements ies)) (wholeObjects ies))
      | _ => mret (mkIES (delete array (elements ies)) ({[array]} ∪ wholeObjects ies))
      end
  end.
Fixpoint ies_reads (ies : IndependentElementSet) (l : list read) : res IndependentElementSet :=
  match l with [] => mret ies | re :: l => ies ← ies_read ies re; ies_reads ies l end.
Definition new_IES `{!ExprCompare} (e : Expr) : res IndependentElementSet := reads ← findReads e true; ies_reads ies_empty reads.

Definition ies_intersects (this b : IndependentElementSet) : bool :=
  existsb (λ array, bool_decide (array ∈ wholeObjects b) || bool_decide (is_Some (elements b !! array))) (base.elements (wholeObjects this)) ||
  existsb (λ p : Array * gset Z, bool_decide (p.1 ∈ wholeObjects b) ||
    match elements b !! p.1 with Some dis => existsb (λ x, bool_decide (x ∈ dis)) (base.elements p.2) | None => false end)
    (map_to_list (elements this)).

(** [add]: the set, and whether it was changed. *)
Definition add_whole (st : IndependentElementSet * bool) (array : Array) : IndependentElementSet * bool :=
  let '(this, modified) := st in
  match elements this !! array with
  | Some _ => (mkIES (delete array (elements this)) ({[array]} ∪ wholeObjects this), true)
  | None =>
    if bool_decide (array ∈ wholeObjects this) then (this, modified)
    else (mkIES (elements this) ({[array]} ∪ wholeObjects this), true)
  end.
Definition add_elements (st : IndependentElementSet * bool) (p : Array * gset Z) : IndependentElementSet * bool :=
  let '(this, modified) := st in
  if bool_decide (p.1 ∈ wholeObjects this) then (this, modified)
  else
    match elements this !! p.1 with
    | None => (mkIES (<[p.1 := p.2]> (elements this)) (wholeObjects this), true)
    | Some dis => if bool_decide (p.2 ⊆ dis) then (this, modified) else (mkIES (<[p.1 := dis ∪ p.2]> (elements this)) (wholeObjects this), true)
    end.
Definition ies_add (this b : IndependentElementSet) : IndependentElementSet * bool :=
  foldl add_elements (foldl add_whole (this, false) (base.elements (wholeObjects b))) (map_to_list (elements b)).

(** ** The constraints a query needs *)
Definition worklist : Type := list (Expr * IndependentElementSet).
(** One round of the loop: the closure, the constraints required so far, the new
    worklist and whether nothing was added. *)
Fixpoint ind_round (l : worklist) (closure : IndependentElementSet) (result : list Expr) (new : worklist) (done : bool) :
  IndependentElementSet * list Expr * worklist * bool :=
  match l with
  | [] => (closure, result, new, done)
  | (c, s) :: l =>
    if ies_intersects s closure then
      let p := ies_add closure s in ind_round l p.1 (result ++ [c]) new (done && negb p.2)
    else ind_round l closure result (new ++ [(c, s)]) done
  end.
Fixpoint ind_loop (fuel : nat) (l : worklist) (closure : IndependentElementSet) (result : list Expr) : res (IndependentElementSet * list Expr) :=
  match fuel with
  | Datatypes.O => halt NoFuel
  | S fuel =>
    let '(closure, result, new, done) := ind_round l closure result [] true in
    if (done : bool) then mret (closure, result) else ind_loop fuel new closure result
  end.
Fixpoint element_sets `{!ExprCompare} (cs : list Expr) : res worklist :=
  match cs with [] => mret [] | c :: cs => s ← new_IES c; l ← element_sets cs; mret ((c, s) :: l) end.
Definition getIndependentConstraints `{!ExprCompare} (q : Query) : res (IndependentElementSet * list Expr) :=
  closure ← new_IES (expr q);
  l ← element_sets (constraints q);
  ind_loop (Datatypes.S (length l)) l closure [].

Section Solver.
Context `{!ExprCompare} {S : Type} (solver : SolverImpl S).
Definition required_query (q : Query) : M S Query := required ← lift_res (getIndependentConstraints q); mret (mkQuery required.2 (expr q)).
Definition createIndependentSolver : SolverImpl S :=
  mkImpl (λ q, q ← required_query q; computeTruth solver q)
    (λ q, q ← required_query q; computeValidity solver q)
    (λ q, q ← required_query q; computeValue solver q)
    (computeInitialValues solver).
End Solver.

(** ** Independent constraints suffice
    [findReads] ends and finds every read of an expression; the element sets cover what the value
    of an expression depends on; the constraints left out of a query can be satisfied
    whatever the values of the ones kept, so the answers stay right. *)
(** ** The reads of an expression *)
(** The reference: the reads in an expression, the ones in update lists included. *)
Fixpoint reads_of (e : Expr) : list read :=
  match e with
  | Constant _ _ => []
  | NotOptimized s | Extract s _ _ | ZExt s _ | SExt s _ | Not s => reads_of s
  | Read a ul i => (a, ul, i) :: reads_of i ++ update_reads ul
  | Select c t f => reads_of c ++ reads_of t ++ reads_of f
  | Concat l r | Arith _ l r | Cmp _ l r => reads_of l ++ reads_of r
  end
with update_reads (ul : UpdateList) : list read :=
  match ul with UNil => [] | UNode i v next => reads_of i ++ reads_of v ++ update_reads next end.

Section Find.
Context `{HC : !ExprCompare}.

Definition seen (st : search) (e : Expr) : Prop := isa_Constant e = true ∨ e ∈ visited st.
Definition children (e : Expr) : list Expr := match e with Read _ ul i => i :: update_exprs ul | _ => kids e end.
(** [x] needs no more work. *)
Definition processed (st : search) (x : Expr) : Prop :=
  Forall (seen st) (children x) ∧ match x with Read a ul i => (a, ul, i) ∈ results st | _ => True end.
(** All but the expressions of [todo] are on the stack or processed. *)
Record search_inv (todo : list Expr) (st : search) : Prop := mkSearchInv {
  inv_stack : ∀ x, x ∈ stack st → x ∈ visited st;
  inv_visited : ∀ x, x ∈ visited st → x ∈ todo ∨ x ∈ stack st ∨ processed st x;
  inv_updates : ∀ ul, ul ∈ updates_seen st → Forall (seen st) (update_exprs ul)
}.
(** What later states keep of an earlier one. *)
Record later (st st' : search) : Prop := mkLater {
  later_visited : ∀ x, x ∈ visited st → x ∈ visited st';
  later_results : ∀ r, r ∈ results st → r ∈ results st'
}.
#[local] Instance later_preorder : PreOrder later.
Proof. split; [intros st; by split|]. intros a b c [] []. split; auto. Qed.
Lemma seen_later st st' e : later st st' → seen st e → seen st' e.
Proof. intros [H _] [?|?]; [by left|right; auto]. Qed.
Lemma seen_all_later st st' l : later st st' → Forall (seen st) l → Forall (seen st') l.
Proof. intros Hl H. eapply Forall_impl; [exact H|]. intros e. by apply seen_later. Qed.
Lemma processed_later st st' x : later st st' → processed st x → processed st' x.
Proof. intros H [H1 H2]. split; [by eapply seen_all_later|]. destruct x; try done. by apply (later_results _ _ H). Qed.

Definition stack_size (l : list Expr) : nat := list_sum (esize <$> l).
#[local] Arguments stack_size : simpl never.
Lemma stack_size_nil : stack_size [] = 0%nat.
Proof. done. Qed.
Lemma stack_size_cons e l : stack_size (e :: l) = (esize e + stack_size l)%nat.
Proof. done. Qed.

Lemma push_cases st e : (push st e = st ∧ seen st e) ∨ push st e = mkSearch (e :: stack st) (e :: visited st) (updates_seen st) (results st).
Proof.
  unfold push. destruct (isa_Constant e) eqn:Ec; cbn; [left; split; [done|by left]|].
  destruct (existsb (same e) (visited st)) eqn:Ev; [|by right]. left. split; [done|]. right.
  apply existsb_exists in Ev as (x & Hx & Es). apply same_sound in Es as ->. by apply list_elem_of_In.
Qed.
Lemma push_later st e : later st (push st e).
Proof. destruct (push_cases st e) as [[-> _]| ->]; [done|]. split; cbn; intros; [by right|done]. Qed.
Lemma push_seen st e : seen (push st e) e.
Proof. destruct (push_cases st e) as [[-> H]| ->]; [done|]. right. by left. Qed.
Lemma push_inv todo st e : search_inv todo st → search_inv todo (push st e).
Proof.
  intros [H1 H2 H3]. pose proof (push_later st e) as Hl. destruct (push_cases st e) as [[-> _]|E]; [done|]. rewrite E in *. split; cbn.
  - intros x [->|Hx]%elem_of_cons; [by left|right; auto].
  - intros x [->|Hx]%elem_of_cons; [right; left; by left|]. destruct (H2 x Hx) as [?|[?|Hp]]; [by left|right; left; by right|right; right]. by apply (processed_later st).
  - intros ul Hu. apply (seen_all_later st); auto.
Qed.
Lemma push_size st e : (stack_size (stack (push st e)) ≤ esize e + stack_size (stack st))%nat.
Proof. destruct (push_cases st e) as [[-> _]| ->]; cbn [stack]; rewrite ?stack_size_cons; lia. Qed.
Lemma push_updates st e : updates_seen (push st e) = updates_seen st.
Proof. by destruct (push_cases st e) as [[-> _]| ->]. Qed.
Lemma push_results st e : results (push st e) = results st.
Proof. by destruct (push_cases st e) as [[-> _]| ->]. Qed.

Lemma pushes_spec todo l : ∀ st, later st (foldl push st l) ∧ Forall (seen (foldl push st l)) l ∧
  (search_inv todo st → search_inv todo (foldl push st l)) ∧
  (stack_size (stack (foldl push st l)) ≤ stack_size l + stack_size (stack st))%nat.
Proof.
  induction l as [|e l IH]; intros st; cbn; [by split_and!; auto|]. destruct (IH (push st e)) as (H1 & H2 & H3 & H4). split_and!.
  - etrans; [apply push_later|exact H1].
  - constructor; [|done]. eapply seen_later, push_seen. done.
  - intros Hi. apply H3. by apply push_inv.
  - pose proof (push_size st e). rewrite stack_size_cons. lia.
Qed.

(** One round of the loop. *)
Definition popped (st : search) (rest : list Expr) : search := mkSearch rest (visited st) (updates_seen st) (results st).
Lemma popped_inv st top rest : search_inv [] st → stack st = top :: rest → search_inv [top] (popped st rest).
Proof.
  intros [H1 H2 H3] E. split; cbn; [|intros x Hx|done].
  - intros x Hx. apply H1. rewrite E. by right.
  - destruct (H2 x Hx) as [[]%not_elem_of_nil|[Hs|Hp]]; [|by right; right]. rewrite E in Hs.
    apply elem_of_cons in Hs as [->|Hs]; [left; by left|right; by left].
Qed.
Lemma finish_inv st top : search_inv [top] st → processed st top → search_inv [] st.
Proof.
  intros [H1 H2 H3] Hp. split; [done| |done]. intros x Hx. right.
  destruct (H2 x Hx) as [->%list_elem_of_singleton|?]; [by right|done].
Qed.
Lemma result_inv todo st r : search_inv todo st → search_inv todo (mkSearch (stack st) (visited st) (updates_seen st) (results st ++ [r])).
Proof.
  intros [H1 H2 H3]. assert (Hl : later st (mkSearch (stack st) (visited st) (updates_seen st) (results st ++ [r]))).
  { split; cbn; [done|]. intros. set_solver. }
  split; cbn; [done| |done]. intros x Hx. destruct (H2 x Hx) as [?|[?|Hp]]; [by left|by right; left|right; right]. by apply (processed_later st).
Qed.
Lemma update_inv todo st ul : search_inv todo st →
  search_inv todo (foldl push (mkSearch (stack st) (visited st) (ul :: updates_seen st) (results st)) (update_exprs ul)).
Proof.
  intros [H1 H2 H3]. set (st' := mkSearch _ _ _ _).
  destruct (pushes_spec todo (update_exprs ul) st) as (Hl & Hs & Hi & _).
  assert (E : ∀ l st, foldl push (mkSearch (stack st) (visited st) (ul :: updates_seen st) (results st)) l =
    let r := foldl push st l in mkSearch (stack r) (visited r) (ul :: updates_seen r) (results r)).
  { clear. induction l as [|e l IH]; intros st; cbn; [done|]. rewrite <-IH. f_equal. unfold push. cbn. by case_match. }
  unfold st'. rewrite E. cbn. specialize (Hi (mkSearchInv todo st H1 H2 H3)). destruct Hi as [I1 I2 I3].
  split; cbn; [done|done|]. intros u [->|Hu]%elem_of_cons; [done|by apply I3].
Qed.

Lemma update_exprs_size ul : (stack_size (update_exprs ul) ≤ usize ul)%nat.
Proof. induction ul; cbn; rewrite ?stack_size_cons, ?stack_size_nil; lia. Qed.
Lemma kids_size e : (S (stack_size (kids e)) ≤ esize e)%nat.
Proof. destruct e; cbn; rewrite ?stack_size_cons, ?stack_size_nil; lia. Qed.
Lemma find_step_spec top st : search_inv [top] st →
  search_inv [] (find_step true top st) ∧ later st (find_step true top st) ∧
  (stack_size (stack (find_step true top st)) < esize top + stack_size (stack st))%nat.
Proof.
  intros Hi. destruct (match top with Read _ _ _ => true | _ => false end) eqn:Et.
  - destruct top as [| |a ul i| | | | | | | |]; try done. cbn [find_step].
    set (s1 := mkSearch (stack st) _ _ _). set (s2 := push s1 i).
    assert (L1 : later st s1) by (split; cbn; [done|]; set_solver).
    assert (Hi2 : search_inv [Read a ul i] s2) by by apply push_inv, result_inv.
    assert (L2 : later s1 s2) by apply push_later. assert (Hs : seen s2 i) by apply push_seen.
    assert (Hr : (a, ul, i) ∈ results s2) by (unfold s2; rewrite push_results; cbn; set_solver).
    assert (Hz : (stack_size (stack s2) ≤ esize i + stack_size (stack st))%nat) by exact (push_size s1 i).
    destruct (existsb (updates_eqb ul) (updates_seen s2)) eqn:Eu.
    + split_and!; [|by etrans|cbn; lia]. apply (finish_inv _ (Read a ul i)); [done|]. split; [|done]. constructor; [done|].
      apply existsb_exists in Eu as (u & Hu & Eu). apply (proj2 expr_eqb_sound) in Eu as ->. apply (inv_updates _ _ Hi2). by apply list_elem_of_In.
    + set (s3 := mkSearch (stack s2) _ _ _). destruct (pushes_spec [] (update_exprs ul) s3) as (L3 & S3 & _ & Z3).
      assert (L23 : later s2 s3) by by split. pose proof (update_exprs_size ul). split_and!.
      * apply (finish_inv _ (Read a ul i)); [by apply update_inv|]. split; [|by apply (later_results _ _ L3)].
        constructor; [|done]. by eapply seen_later, seen_later.
      * by do 3 (etrans; [eassumption|]).
      * cbn [esize] in *. cbn [stack s3] in Z3. lia.
  - assert (E : find_step true top st = foldl push st (kids top)) by by destruct top. rewrite E.
    destruct (pushes_spec [top] (kids top) st) as (L & S & I1 & Z). pose proof (kids_size top). split_and!; [|done|lia].
    apply (finish_inv _ top); [auto|]. by destruct top.
Qed.
Lemma find_loop_ends fuel : ∀ st, search_inv [] st → (stack_size (stack st) ≤ fuel)%nat →
  ∃ st', find_loop fuel true st tt = Done (results st') tt ∧ search_inv [] st' ∧ stack st' = [] ∧ later st st'.
Proof.
  induction fuel as [|fuel IH]; intros st Hi Hf; cbn; destruct (stack st) as [|top rest] eqn:E.
  - by exists st.
  - rewrite stack_size_cons in Hf. destruct top; cbn in Hf; lia.
  - by exists st.
  - destruct (find_step_spec top (popped st rest) (popped_inv st top rest Hi E)) as (Hi' & L & Hz). cbn in Hz.
    rewrite stack_size_cons in Hf. destruct (IH _ Hi' ltac:(lia)) as (st' & E' & I' & S' & L'). exists st'. split; [exact E'|].
    split; [done|]. split; [done|]. etrans; [|exact L']. etrans; [|exact L]. by split.
Qed.
(** When the stack is empty, the reads of what was visited have been found. *)
Lemma closed_reads st : search_inv [] st → stack st = [] →
  (∀ e, seen st e → ∀ r, r ∈ reads_of e → r ∈ results st) ∧
  (∀ ul, Forall (seen st) (update_exprs ul) → ∀ r, r ∈ update_reads ul → r ∈ results st).
Proof.
  intros Hi Es. assert (Hp : ∀ e, isa_Constant e = false → seen st e → processed st e).
  { intros e Hc [?|Hv]; [congruence|]. destruct (inv_visited _ _ Hi e Hv) as [[]%not_elem_of_nil|[Hs|?]]; [|done]. rewrite Es in Hs. by apply not_elem_of_nil in Hs. }
  apply Expr_UpdateList_ind; cbn; intros;
    try match goal with H : seen _ _ |- _ => apply Hp in H as [H Hx]; [|done]; cbn in H end;
    repeat match goal with H : Forall _ (_ :: _) |- _ => apply Forall_cons in H as [? H] end;
    set_solver.
Qed.
(** Nothing else is found. *)
Definition found_in (R : read → Prop) (st : search) : Prop := (∀ x, x ∈ stack st → ∀ r, r ∈ reads_of x → R r) ∧ ∀ r, r ∈ results st → R r.
Lemma push_found R st e : found_in R st → (∀ r, r ∈ reads_of e → R r) → found_in R (push st e).
Proof. intros [H1 H2] He. destruct (push_cases st e) as [[-> _]| ->]; [done|]. split; cbn; [|done]. intros x [->|Hx]%elem_of_cons; eauto. Qed.
Lemma pushes_found R l : ∀ st, found_in R st → (∀ e r, e ∈ l → r ∈ reads_of e → R r) → found_in R (foldl push st l).
Proof.
  induction l as [|e l IH]; intros st Hs Hl; cbn; [done|]. apply IH; [|intros; eapply Hl; [by right|done]]. apply push_found; [done|].
  intros r. apply Hl. by left.
Qed.
Lemma kids_reads e x r : x ∈ kids e → r ∈ reads_of x → r ∈ reads_of e.
Proof. destruct e; cbn; set_solver. Qed.
Lemma update_exprs_reads ul x r : x ∈ update_exprs ul → r ∈ reads_of x → r ∈ update_reads ul.
Proof. induction ul; cbn; set_solver. Qed.
Lemma find_step_found R top st : found_in R st → (∀ r, r ∈ reads_of top → R r) → found_in R (find_step true top st).
Proof.
  intros Hs Ht. destruct (match top with Read _ _ _ => true | _ => false end) eqn:Et.
  - destruct top as [| |a ul i| | | | | | | |]; try done. cbn [find_step]. set (s2 := push _ i).
    assert (H2 : found_in R s2).
    { apply push_found; [|intros r Hr; apply Ht; cbn; set_solver]. destruct Hs as [H1 H2]. split; cbn; [done|].
      intros r [Hr| ->%list_elem_of_singleton]%elem_of_app; [auto|]. apply Ht. by left. }
    case_match; [done|]. apply pushes_found; [by destruct H2|]. intros e r He Hr. apply Ht. cbn.
    pose proof (update_exprs_reads ul e r He Hr). set_solver.
  - assert (E : find_step true top st = foldl push st (kids top)) by by destruct top. rewrite E. apply pushes_found; [done|].
    intros e r He Hr. apply Ht. by eapply kids_reads.
Qed.
Lemma find_loop_found R fuel : ∀ st l, found_in R st → find_loop fuel true st tt = Done l tt → ∀ r, r ∈ l → R r.
Proof.
  induction fuel as [|fuel IH]; intros st l [H1 H2] E; cbn in E; destruct (stack st) as [|top rest] eqn:Es; try (injection E as <-; exact H2); [done|].
  eapply IH; [|exact E]. apply find_step_found; [|apply H1; by left]. split; cbn; [|done]. intros x Hx. apply H1. by right.
Qed.
Lemma findReads_spec e : ∃ l, findReads e true tt = Done l tt ∧ ∀ r, r ∈ l ↔ r ∈ reads_of e.
Proof.
  set (s0 := mkSearch [] [] [] []). assert (H0 : search_inv [] s0) by by split; cbn; intros ? []%not_elem_of_nil.
  destruct (find_loop_ends (esize e) (push s0 e) (push_inv _ _ _ H0)) as (st & E & Hi & Hs & L).
  { pose proof (push_size s0 e). cbn [s0 stack] in *. rewrite stack_size_nil in *. lia. }
  exists (results st). split; [done|]. split.
  - intros Hr. refine (find_loop_found (λ r, r ∈ reads_of e) _ _ _ _ E r Hr). apply push_found; [|done]. by split; cbn; intros ? []%not_elem_of_nil.
  - apply (proj1 (closed_reads st Hi Hs)). eapply seen_later, push_seen. done.
Qed.
End Find.

(** ** Element sets *)
Definition in_ies (s : IndependentElementSet) (a : Array) (j : Z) : Prop :=
  a ∈ wholeObjects s ∨ ∃ d, elements s !! a = Some d ∧ j ∈ d.
Definition grows (s s' : IndependentElementSet) : Prop := ∀ a j, in_ies s a j → in_ies s' a j.
#[global] Instance grows_preorder : PreOrder grows.
Proof. split; [by intros s a j|]. intros s1 s2 s3 H1 H2 a j ?. by apply H2, H1. Qed.
Definition apart (s s' : IndependentElementSet) : Prop := ∀ a j, in_ies s a j → ¬ in_ies s' a j.

Definition covers_read (s : IndependentElementSet) (re : read) : Prop :=
  match re with
  | (a, ul, i) => isSymbolicArray a = true → match i with Constant _ v => in_ies s a (u32 v) | _ => ∀ j, in_ies s a j end
  end.
Lemma covers_grows s s' re : grows s s' → covers_read s re → covers_read s' re.
Proof. intros Hg H. destruct re as [[a ul] i]. cbn in *. intros Ha. specialize (H Ha). destruct i; auto. Qed.
Definition wf_read (re : read) : Prop := match re with (_, _, i) => wf i ∧ getWidth i = Int32 end.

(** Adding some elements of an array, and a whole array. *)
Lemma insert_grows s a (d : gset Z) : (∀ d0, elements s !! a = Some d0 → d0 ⊆ d) → grows s (mkIES (<[a := d]> (elements s)) (wholeObjects s)).
Proof.
  intros Hd b j [Hb|(d0 & E & Hj)]; [by left|]. right. cbn. destruct (decide (a = b)) as [->|Hn].
  - exists d. rewrite lookup_insert_eq. split; [done|]. by apply (Hd d0).
  - exists d0. by rewrite lookup_insert_ne.
Qed.
Lemma whole_grows s m a : (∀ b, b ≠ a → m !! b = elements s !! b) → grows s (mkIES m ({[a]} ∪ wholeObjects s)).
Proof.
  intros Hm b j [Hb|(d0 & E & Hj)]; [left; cbn; set_solver|]. destruct (decide (b = a)) as [->|Hn]; [left; cbn; set_solver|].
  right. exists d0. cbn. by rewrite Hm.
Qed.
Lemma ies_read_spec s re : wf_read re → ∃ s', ies_read s re tt = Done s' tt ∧ grows s s' ∧ covers_read s' re.
Proof.
  destruct re as [[a ul] i]. intros [Hw Hl]. cbn [ies_read]. destruct (_ && _) eqn:Ea.
  { exists s. split_and!; [done|done|]. apply andb_true_iff in Ea as [Ea _]. cbn. intros E. by rewrite E in Ea. }
  clear Ea. case_bool_decide as Hin.
  { exists s. split_and!; [done|done|]. intros _. destruct i; intros; by left. }
  assert (Hwhole : ∃ s', mret (M := M unit) (mkIES (delete a (elements s)) ({[a]} ∪ wholeObjects s)) tt = Done s' tt ∧ grows s s' ∧ ∀ j, in_ies s' a j).
  { eexists. split_and!; [reflexivity| |intros j; left; cbn; set_solver]. apply whole_grows. intros b Hb. by apply lookup_delete_ne. }
  destruct i as [w v| | | | | | | | | |]; try (destruct Hwhole as (s' & ? & ? & ?); exists s'; split; [done|]; split; [done|by intros _]).
  cbn in Hl. subst w. eexists (mkIES _ _). split_and!; [reflexivity| |].
  - apply insert_grows. intros d0 ->. cbn. set_solver.
  - intros _. right. eexists. cbn. rewrite lookup_insert_eq. split; [done|]. set_solver.
Qed.
Lemma ies_reads_spec l : Forall wf_read l → ∀ s, ∃ s', ies_reads s l tt = Done s' tt ∧ grows s s' ∧ ∀ r, r ∈ l → covers_read s' r.
Proof.
  induction 1 as [|re l Hr _ IH]; intros s; cbn; [exists s; split_and!; [done|done|]; by intros r []%not_elem_of_nil|].
  destruct (ies_read_spec s re Hr) as (s1 & E1 & G1 & C1). destruct (IH s1) as (s2 & E2 & G2 & C2). exists s2. split_and!.
  - unfold mbind, M_bind. by rewrite E1.
  - by etrans.
  - intros r [->|Hin]%elem_of_cons; [by eapply covers_grows|auto].
Qed.

Lemma reads_wf : (∀ e, wf e → ∀ r, r ∈ reads_of e → wf_read r) ∧ (∀ ul, wf_updates ul → ∀ r, r ∈ update_reads ul → wf_read r).
Proof.
  apply Expr_UpdateList_ind; cbn; intros; destruct_and?; set_unfold; repeat match goal with H : _ ∨ _ |- _ => destruct H end; subst; try done; eauto.
Qed.
Lemma new_IES_spec `{!ExprCompare} e : wf e → ∃ s, new_IES e tt = Done s tt ∧ ∀ r, r ∈ reads_of e → covers_read s r.
Proof.
  intros Hw. destruct (findReads_spec e) as (l & E & Hl). destruct (ies_reads_spec l) with (s := ies_empty) as (s & Es & _ & Hs).
  - apply Forall_forall. intros r Hr. apply (proj1 reads_wf e Hw). by apply Hl.
  - exists s. split; [unfold new_IES, mbind, M_bind; by rewrite E|]. intros r Hr. by apply Hs, Hl.
Qed.

(** The value of an expression depends on the elements its set covers only. *)
Definition agree_on (s : IndependentElementSet) (env env' : assignment) : Prop := ∀ a j, in_ies s a j → env a j = env' a j.
Lemma covered_agree s env env' : agree_on s env env' →
  (∀ e, wf e → (∀ r, r ∈ reads_of e → covers_read s r) → eval env e = eval env' e) ∧
  (∀ ul, wf_updates ul → (∀ r, r ∈ update_reads ul → covers_read s r) →
    ∀ a j, (isSymbolicArray a = true → in_ies s a j) → eval_read env a ul j = eval_read env' a ul j).
Proof.
  intros Ha. apply Expr_UpdateList_ind; cbn [eval eval_read reads_of update_reads wf wf_updates]; intros; destruct_and?;
    repeat match goal with IH : ?P → (∀ r, _ → _) → _, H : ?P |- _ => specialize (IH H ltac:(set_solver)) end;
    repeat match goal with H : eval env ?x = _ |- context [eval env ?x] => rewrite H end; try done.
  - match goal with Hc : ∀ r, r ∈ _ :: _ → _ |- _ => pose proof (Hc _ ltac:(by left)) as Hr end. cbn in Hr.
    destruct (eval env' index) as [j|] eqn:Ej; cbn; [|done]. match goal with H : ∀ a j, _ → eval_read _ _ _ _ = _ |- _ => apply H end.
    intros Hs. specialize (Hr Hs). destruct index; try apply Hr. cbn in *. destruct_and?. injection Ej as <-. subst.
    by rewrite wrapu_small in Hr.
  - unfold initial_byte. case_match; [|done]. by rewrite Ha by auto.
  - destruct (eval env' index); cbn; [|done]. case_match; [done|]. match goal with H : ∀ a j, _ → eval_read _ _ _ _ = _ |- _ => by apply H end.
Qed.
Lemma covered_eval s env env' e : wf e → (∀ r, r ∈ reads_of e → covers_read s r) → agree_on s env env' → eval env e = eval env' e.
Proof. intros. by apply (proj1 (covered_agree s env env' ltac:(done))). Qed.

(** *** Intersection and union *)
Lemma intersects_apart s b : ies_intersects s b = false → apart s b.
Proof.
  unfold ies_intersects. rewrite orb_false_iff. intros [H1 H2] a j Hs Hb.
  assert (N : ∀ (A : Type) (f : A → bool) l, existsb f l = false → ∀ x, In x l → f x = false).
  { intros A f l E x Hx. destruct (f x) eqn:Ef; [|done]. rewrite <-E. symmetry. apply existsb_exists. by exists x. }
  destruct Hs as [Hs|(d & Ed & Hj)].
  - specialize (N _ _ _ H1 a). rewrite orb_false_iff, !bool_decide_eq_false in N.
    destruct N as [N1 N2]; [by apply list_elem_of_In, elem_of_elements|]. destruct Hb as [?|(d & Ed & _)]; [done|]. destruct N2. rewrite Ed. by eexists.
  - specialize (N _ _ _ H2 (a, d)). cbn in N. rewrite orb_false_iff, bool_decide_eq_false in N.
    destruct N as [N1 N2]; [by apply list_elem_of_In, elem_of_map_to_list|]. destruct Hb as [?|(d' & Ed' & Hj')]; [done|]. rewrite Ed' in N2.
    enough (existsb (λ x, bool_decide (x ∈ d')) (base.elements d) = true) by congruence.
    apply existsb_exists. exists j. split; [by apply list_elem_of_In, elem_of_elements|by apply bool_decide_eq_true].
Qed.

(** A step of [add]: nothing is lost, and the flag is set when something changed. *)
Definition add_step (st st' : IndependentElementSet * bool) : Prop :=
  grows st.1 st'.1 ∧ (∀ a, a ∈ wholeObjects st.1 → a ∈ wholeObjects st'.1) ∧ (st'.2 = false → st' = st).
#[global] Instance add_step_preorder : PreOrder add_step.
Proof.
  split; [by intros st|]. intros s1 s2 s3 (G1 & W1 & F1) (G2 & W2 & F2). split_and!; [by etrans|auto|].
  intros H. specialize (F2 H). subst. auto.
Qed.
Lemma add_whole_step st a : add_step st (add_whole st a) ∧ ∀ j, in_ies (add_whole st a).1 a j.
Proof.
  destruct st as [s m]. unfold add_whole, add_step. destruct (elements s !! a) eqn:E; [|case_bool_decide]; cbn.
  - split_and!; [|set_solver|done|intros; left; cbn; set_solver]. apply whole_grows. intros b Hb. by apply lookup_delete_ne.
  - split_and!; [done|done|done|]. intros. by left.
  - split_and!; [|set_solver|done|intros; left; cbn; set_solver]. by apply whole_grows.
Qed.
Lemma add_elements_step st p : add_step st (add_elements st p) ∧ ∀ j, j ∈ p.2 → in_ies (add_elements st p).1 p.1 j.
Proof.
  destruct st as [s m], p as [a d]. unfold add_elements, add_step. cbn. case_bool_decide as Hw; [cbn; split_and!; [done..|]; intros; by left|].
  destruct (elements s !! a) as [d0|] eqn:E; [case_bool_decide as Hd|]; cbn.
  - split_and!; [done..|]. intros j Hj. right. exists d0. split; [done|set_solver].
  - split_and!; [|done|done|]. { apply insert_grows. rewrite E. intros ? [= <-]. set_solver. }
    intros j Hj. right. eexists. cbn. rewrite lookup_insert_eq. split; [done|set_solver].
  - split_and!; [|done|done|]. { apply insert_grows. by rewrite E. }
    intros j Hj. right. eexists. cbn. rewrite lookup_insert_eq. by split.
Qed.
Lemma fold_steps {A} (f : IndependentElementSet * bool → A → IndependentElementSet * bool) (Q : A → IndependentElementSet → Prop) l :
  (∀ st x, add_step st (f st x) ∧ Q x (f st x).1) → (∀ x s s', grows s s' → Q x s → Q x s') →
  ∀ st, add_step st (foldl f st l) ∧ ∀ x, x ∈ l → Q x (foldl f st l).1.
Proof.
  intros Hf HQ. induction l as [|y l IH]; intros st; cbn; [split; [done|]; by intros x []%not_elem_of_nil|].
  destruct (Hf st y) as [H1 H2], (IH (f st y)) as [H3 H4]. split; [by etrans|]. intros x [->|Hx]%elem_of_cons; [|auto].
  eapply HQ; [|exact H2]. apply H3.
Qed.
Lemma ies_add_spec this b : grows this (ies_add this b).1 ∧ grows b (ies_add this b).1 ∧ ((ies_add this b).2 = false → (ies_add this b).1 = this).
Proof.
  unfold ies_add. set (st1 := foldl add_whole _ _). set (st2 := foldl _ _ _).
  destruct (fold_steps add_whole (λ a s, ∀ j, in_ies s a j) (base.elements (wholeObjects b)) add_whole_step) with (st := (this, false)) as [S1 Q1]; [by intros x s s' Hg H j; apply Hg|].
  destruct (fold_steps add_elements (λ p s, ∀ j, j ∈ p.2 → in_ies s p.1 j) (map_to_list (elements b)) add_elements_step) with (st := st1) as [S2 Q2]; [intros x s s' Hg H j Hj; auto|].
  fold st1 in S1, Q1. fold st2 in S2, Q2. destruct (transitivity S1 S2) as (G & _ & F). split_and!; [done| |by intros H; rewrite (F H)].
  intros a j [Ha|(d & Ed & Hj)].
  - destruct S2 as (G2 & _). apply G2, Q1. by apply elem_of_elements.
  - apply (Q2 (a, d)); [by apply elem_of_map_to_list|done].
Qed.

(** ** The loop *)
Section Loop.
Implicit Types (l kept taken : worklist).
Lemma ind_round_spec l : ∀ cl r new done, ∃ taken kept cl' done',
  ind_round l cl r new done = (cl', r ++ taken.*1, new ++ kept, done') ∧ l ≡ₚ taken ++ kept ∧ grows cl cl' ∧
  (∀ p, p ∈ taken → grows p.2 cl') ∧
  (done' = true → done = true ∧ cl' = cl ∧ ∀ p, p ∈ kept → apart p.2 cl) ∧
  (done' = false → done = false ∨ taken ≠ []).
Proof.
  induction l as [|[c s] l IH]; intros cl r new done; cbn.
  - exists [], [], cl, done. rewrite !app_nil_r. split_and!; [done..|set_solver| |auto]. intros. split_and!; [done..|set_solver].
  - destruct (ies_intersects s cl) eqn:Ei.
    + destruct (ies_add_spec cl s) as (G1 & G2 & F). set (p := ies_add cl s) in *.
      destruct (IH p.1 (r ++ [c]) new (done && negb p.2)) as (tk & kp & cl' & d' & E & Hp & G & Ht & Hd & Hn).
      exists ((c, s) :: tk), kp, cl', d'. rewrite E, <-app_assoc. split_and!; [done|cbn; by rewrite Hp|by etrans| | |by right].
      * intros q [->|Hq]%elem_of_cons; [by etrans|auto].
      * intros Hd'. destruct (Hd Hd') as (H1 & H2 & H3). apply andb_true_iff in H1 as [H1 H1']. apply negb_true_iff, F in H1'.
        rewrite H1' in *. auto.
    + destruct (IH cl r (new ++ [(c, s)]) done) as (tk & kp & cl' & d' & E & Hp & G & Ht & Hd & Hn).
      exists tk, ((c, s) :: kp), cl', d'. rewrite E, <-app_assoc. split_and!; [done|rewrite Hp; by rewrite <-Permutation_middle|done|done| |done].
      intros Hd'. destruct (Hd Hd') as (H1 & H2 & H3). split_and!; [done|done|]. intros q [->|Hq]%elem_of_cons; [by apply intersects_apart|auto].
Qed.
Lemma ind_loop_spec fuel : ∀ l cl r, (length l < fuel)%nat → ∃ taken kept cl',
  ind_loop fuel l cl r tt = Done (cl', r ++ taken.*1) tt ∧ l ≡ₚ taken ++ kept ∧ grows cl cl' ∧
  (∀ p, p ∈ taken → grows p.2 cl') ∧ (∀ p, p ∈ kept → apart p.2 cl').
Proof.
  induction fuel as [|fuel IH]; intros l cl r Hf; [lia|]. cbn.
  destruct (ind_round_spec l cl r [] true) as (tk & kp & cl1 & d & E & Hp & G & Ht & Hd & Hn). rewrite E. destruct d.
  - destruct (Hd eq_refl) as (_ & -> & Hk). by exists tk, kp, cl.
  - destruct (Hn eq_refl) as [?|Hne]; [done|]. cbn [app]. destruct (IH kp cl1 (r ++ tk.*1)) as (tk2 & kp2 & cl2 & E2 & Hp2 & G2 & Ht2 & Hk2).
    { apply Permutation_length in Hp. rewrite length_app in Hp. destruct tk; [done|]. cbn in Hp. lia. }
    exists (tk ++ tk2), kp2, cl2. rewrite E2, fmap_app, app_assoc. split_and!; [done|by rewrite Hp, Hp2, app_assoc|by etrans| |done].
    intros p [?|?]%elem_of_app; [etrans; [by apply Ht|done]|auto].
Qed.
End Loop.

Lemma element_sets_spec `{!ExprCompare} cs : Forall wf cs → ∃ l, element_sets cs tt = Done l tt ∧ l.*1 = cs ∧
  ∀ p, p ∈ l → ∀ r, r ∈ reads_of p.1 → covers_read p.2 r.
Proof.
  induction 1 as [|c cs Hc _ (l & E & El & Hl)]; cbn; [exists []; split_and!; [done..|]; by intros p []%not_elem_of_nil|].
  destruct (new_IES_spec c Hc) as (s & Es & Hs). exists ((c, s) :: l). unfold mbind, M_bind. rewrite Es, E. cbn. rewrite El. split_and!; [done..|].
  intros p [->|Hp]%elem_of_cons; auto.
Qed.

(** The constraints kept are some of the query's, and every assignment that satisfies
    them can be changed outside what they and the query depend on to satisfy all. *)
Definition merge (cl : IndependentElementSet) (env env0 : assignment) : assignment := λ a j,
  if bool_decide (a ∈ wholeObjects cl) || match elements cl !! a with Some d => bool_decide (j ∈ d) | None => false end then env a j else env0 a j.
Lemma merge_inside cl env env0 : agree_on cl (merge cl env env0) env.
Proof.
  intros a j Hj. unfold merge. destruct Hj as [Hj|(d & -> & Hj)].
  - by rewrite (bool_decide_eq_true_2 _ Hj).
  - by rewrite (bool_decide_eq_true_2 _ Hj), orb_true_r.
Qed.
Lemma merge_outside cl s env env0 : apart s cl → agree_on s (merge cl env env0) env0.
Proof.
  intros Ha a j Hj. unfold merge. specialize (Ha a j Hj). destruct (_ || _) eqn:E; [|done]. destruct Ha.
  apply orb_true_iff in E as [E|E]; [left; by apply bool_decide_eq_true in E|].
  destruct (elements cl !! a) as [d|] eqn:Ed; [|done]. right. exists d. split; [done|]. by apply bool_decide_eq_true in E.
Qed.
Lemma agree_grows s s' env env' : grows s s' → agree_on s' env env' → agree_on s env env'.
Proof. intros Hg Ha a j Hj. by apply Ha, Hg. Qed.

Lemma independent_spec `{!ExprCompare} cs e : Forall wf cs → wf e → (∃ env, satisfies cs env) →
  ∃ closure required, getIndependentConstraints (mkQuery cs e) tt = Done (closure, required) tt ∧
  (∀ c, c ∈ required → c ∈ cs) ∧
  ∀ env', satisfies required env' → ∃ env, satisfies cs env ∧ eval env e = eval env' e.
Proof.
  intros Hcs He [env0 H0]. destruct (new_IES_spec e He) as (s0 & E0 & C0). destruct (element_sets_spec cs Hcs) as (l & El & Efst & Cl).
  destruct (ind_loop_spec (S (length l)) l s0 []) as (tk & kp & cl & E & Hp & G & Ht & Hk); [lia|].
  exists cl, tk.*1. split; [unfold getIndependentConstraints; cbn [expr constraints]; unfold mbind, M_bind; by rewrite E0, El, E|].
  assert (Hfst : ∀ p, p ∈ tk ∨ p ∈ kp → p.1 ∈ cs).
  { intros p Hin. rewrite <-Efst. apply list_elem_of_fmap_2. rewrite Hp. by apply elem_of_app. }
  assert (Hl : ∀ p, p ∈ tk ∨ p ∈ kp → p ∈ l) by (intros p Hin; rewrite Hp; by apply elem_of_app).
  split; [intros c (p & -> & Hin)%list_elem_of_fmap; auto|]. intros env' Hs. exists (merge cl env' env0). split.
  - intros c Hc. rewrite <-Efst in Hc. apply list_elem_of_fmap in Hc as (p & -> & Hin).
    assert (Hw : wf p.1) by (eapply Forall_forall in Hcs; [exact Hcs|]; rewrite <-Efst; by apply list_elem_of_fmap_2).
    pose proof Hin as Hin'. rewrite Hp in Hin'. apply elem_of_app in Hin' as [Hin'|Hin'].
    + rewrite (covered_eval p.2 _ env' p.1 Hw (Cl p Hin)); [apply Hs; by apply list_elem_of_fmap_2|].
      eapply agree_grows, merge_inside. by apply Ht.
    + rewrite (covered_eval p.2 _ env0 p.1 Hw (Cl p Hin)); [apply H0; auto|]. by apply merge_outside, Hk.
  - apply (covered_eval s0); [done|done|]. eapply agree_grows, merge_inside. done.
Qed.

(** ** Answers *)
Section Right.
Context `{HC : !ExprCompare}.
#[local] Existing Instance all_assignments.
Implicit Types q : Query.

(** The query that is passed on has the same answers. *)
Definition equisat q q' : Prop := expr q' = expr q ∧ ∀ env', sat q' env' → ∃ env, sat q env ∧ eval env (expr q) = eval env' (expr q).
Lemma required_spec {S} q (s : S) : value_query q → ∃ q', required_query q s = Done q' s ∧ value_query q' ∧ equisat q q' ∧ (∀ env, sat q env → sat q' env).
Proof.
  intros ([Hb Hs] & Hw & Hd). destruct q as [cs e]. cbn in *.
  destruct (independent_spec cs e) as (cl & req & E & Hsub & Hext); [|done| |].
  - eapply Forall_impl; [exact Hb|]. by intros c [].
  - destruct Hs as (env & _ & ?). by exists env.
  - assert (Hq : equisat (mkQuery cs e) (mkQuery req e)) by (split; [done|]; intros env' [_ H]; destruct (Hext env' H) as (env & ? & ?); by exists env).
    assert (Hi : ∀ env, sat (mkQuery cs e) env → sat (mkQuery req e) env) by (intros env [_ H]; split; [done|]; intros c Hc; by apply H, Hsub).
    exists (mkQuery req e). split_and!; [|split_and!| |]; try done.
    + unfold required_query, mbind, M_bind, lift_res. by rewrite E.
    + split; [|destruct Hs as [env Hs]; exists env; by apply Hi]. rewrite Forall_forall in *. auto.
    + intros env' Hs'. destruct (proj2 Hq env' Hs') as (env & Hse & Ee). cbn in *. rewrite <-Ee. by apply Hd.
Qed.
Lemma equisat_all q q' v : equisat q q' → (∀ env, sat q env → sat q' env) →
  (∀ env, sat q' env → eval env (expr q') = Some v) → ∀ env, sat q env → eval env (expr q) = Some v.
Proof. intros [E _] Hi. rewrite E. auto. Qed.
Lemma equisat_some q q' v : equisat q q' → (∃ env, sat q' env ∧ eval env (expr q') = Some v) → ∃ env, sat q env ∧ eval env (expr q) = Some v.
Proof. intros [E Hx] (env' & Hs & Ev). rewrite E in Ev. destruct (Hx env' Hs) as (env & ? & ?). exists env. split; [done|congruence]. Qed.

Lemma independent_right {S} (I : S → Prop) (solver : SolverImpl S) : right I solver → right I (createIndependentSolver solver).
Proof.
  intros HR. assert (K : ∀ A (ask : Query → M S A) q s (Q : Query → A → Prop), I s → value_query q →
    (∀ q', value_query q' → equisat q q' → (∀ env, sat q env → sat q' env) → returns I (ask q') s (Q q')) →
    (∀ q' a, equisat q q' → (∀ env, sat q env → sat q' env) → Q q' a → Q q a) →
    returns I (q ← required_query q; ask q) s (Q q)).
  { intros A ask q s Q Hi Hq Ha HQ. destruct (required_spec q s Hq) as (q' & E & Hq' & He & Hs).
    destruct (Ha q' Hq' He Hs) as (a & s' & E' & Hi' & H). exists a, s'. split; [by rewrite (bind_done _ _ _ _ _ E)|]. eauto. }
  split; cbn; [| | |by apply r_values].
  - intros q s Hi Hq. apply K; [done|apply Hq| |].
    + intros q' Hq' [E _] _. apply (r_truth I solver HR); [done|]. split; [done|]. rewrite E. apply Hq.
    + intros q' r He Hs [H1 H2]. split; intros Hr; [exact (equisat_all q q' 1 He Hs (H1 Hr))|exact (equisat_some q q' 0 He (H2 Hr))].
  - intros q s Hi Hq. apply K; [done|apply Hq| |].
    + intros q' Hq' [E _] _. apply (r_validity I solver HR); [done|]. split; [done|]. rewrite E. apply Hq.
    + intros q' [[]|] He Hs H; [..|done]; cbn in *; [exact (equisat_all q q' 1 He Hs H)|exact (equisat_all q q' 0 He Hs H)|].
      destruct H as [H1 H2]. split; [exact (equisat_some q q' 1 He H1)|exact (equisat_some q q' 0 He H2)].
  - intros q s Hi Hq. apply K; [done|done| |].
    + intros q' Hq' _ _. by apply (r_value I solver HR).
    + intros q' r He Hs H c ->. destruct (H c eq_refl) as (v & env' & -> & H').
      destruct (equisat_some q q' v He (ex_intro _ env' H')) as (env & ?). exists v, env. by rewrite (proj1 He).
Qed.
End Right.

(** C16: (refinement) Leaving out the constraints that share no array element with the
    query, not even through other constraints, is right.  For satisfiable well-formed
    constraints the loop ends; what it keeps are constraints of the query; every
    assignment that satisfies them agrees on the value of the query with one that satisfies
    all the constraints; and so the independent solver over a right solver is right. *)
Theorem independent_solver_right `{!ExprCompare} {S : Type} (I : S → Prop) (core : SolverImpl S) (q : Query) :
  right (U := all_assignments) I core → value_query (U := all_assignments) q →
  right (U := all_assignments) I (createIndependentSolver core) ∧
  ∃ closure required, getIndependentConstraints q tt = Done (closure, required) tt ∧
    (∀ c, c ∈ required → c ∈ constraints q) ∧
    ∀ env', satisfies required env' → ∃ env, satisfies (constraints q) env ∧ eval env (expr q) = eval env' (expr q).
Proof.
  intros HR ([Hb (env & _ & Hs)] & Hw & _). split; [by apply independent_right|]. destruct q as [cs e].
  apply independent_spec; [|done|by exists env]. eapply Forall_impl; [exact Hb|]. by intros c [].
Qed.

(** A solver that answers true for what is one of the constraints. *)
Definition given (q : Query) : bool := existsb (expr_eqb (expr q)) (constraints q).
Definition member_impl : SolverImpl unit :=
  mkImpl (λ q, mret (if given q then Some true else None)) (λ q, mret (if given q then Some VTrue else None)) (λ _, mret None) (λ _ _, mret None).
Lemma given_must q : given q = true → must (sat (U := all_assignments) q) (expr q).
Proof. intros (c & Hc & ->%(proj1 expr_eqb_sound))%existsb_exists env [_ H]. by apply H, list_elem_of_In. Qed.
Lemma member_right : right (U := all_assignments) (λ _, True) member_impl.
Proof.
  split; cbn; intros; apply returns_ret; try done; destruct (given q) eqn:E; try done.
  - split; [|done]. intros _. by apply given_must.
  - by apply given_must.
Qed.
(** b0 < 5 and b0 = b1 are kept for a query about b1, b2 = 0 is not. *)
Definition three_bytes : Query :=
  mkQuery [Cmp KUlt (arg_byte 0) (Constant 8 5); Cmp KEq (Constant 8 0) (arg_byte 2); Cmp KEq (arg_byte 0) (arg_byte 1)]
    (Cmp KEq (arg_byte 0) (arg_byte 1)).
Lemma three_bytes_ok : value_query (U := all_assignments) three_bytes.
Proof.
  split; [split|split].
  - repeat constructor; vm_compute; congruence || done.
  - exists (λ _ _, 0). split; [done|]. intros c Hc. repeat (apply elem_of_cons in Hc as [->|Hc]; [reflexivity|]). by apply not_elem_of_nil in Hc.
  - vm_compute; repeat split; congruence || by intros.
  - intros env _. by eexists.
Qed.
Lemma independent_solver_right_witness :
  let out := createIndependentSolver member_impl in
  computeTruth out three_bytes tt = Done (Some true) tt ∧
  (x ← getIndependentConstraints three_bytes; mret x.2) tt = Done [Cmp KUlt (arg_byte 0) (Constant 8 5); Cmp KEq (arg_byte 0) (arg_byte 1)] tt ∧
  right (U := all_assignments) (λ _, True) out.
Proof.
  intros out. split; [vm_compute; reflexivity|]. split; [vm_compute; reflexivity|].
  apply (independent_solver_right (λ _, True) member_impl three_bytes member_right three_bytes_ok).
Defined.
