(* ===== verification/EngineAnswers.v ===== *)
(** * The engine's queries with its own simplifier

    The timing solver of the engine simplifies an expression with the constraints of the path before it
    asks: [simplifyExpr] keeps the promise of [SolverProps] for expressions with arithmetic of at most
    64 bits, so the answers about them are right. *)
From S2P Require Import Prelude Expr ExprCreate ExprRefine ExprSums ExprSpec ExprBuild ExprWeight Memory MemorySpec AddressSpace AddressSpaceResolve Solver SolverSpec SolverProps Visitor VisitorSpec ConstraintSpec.

(** ** Narrow expressions, decided *)
Fixpoint narrowb (e : Expr) : bool :=
  match e with
  | Constant _ _ => true
  | NotOptimized s | ZExt s _ | SExt s _ | Not s | Extract s _ _ => narrowb s
  | Read _ ul i => narrowb i && narrowb_updates ul
  | Select c t f => narrowb c && narrowb t && narrowb f
  | Concat l r | Cmp _ l r => narrowb l && narrowb r
  | Arith _ l r => narrowb l && narrowb r && (getWidth l <=? 64)
  end
with narrowb_updates (ul : UpdateList) : bool :=
  match ul with UNil => true | UNode i v next => narrowb i && narrowb v && narrowb_updates next end.
Lemma narrowb_spec : (∀ e, narrowb e = true ↔ narrow e) ∧ (∀ ul, narrowb_updates ul = true ↔ narrow_updates ul).
Proof. apply Expr_UpdateList_ind; cbn; intros; rewrite ?andb_true_iff, ?Z.leb_le; tauto. Qed.

Section Engine.
Context `{U : !Universe, HA : !APInt, HC : !ExprCompare, HRf : !ReflCompare} (CAO UVH : bool) {S : Type} (I : S → Prop).

(** [state.constraints.simplifyExpr]. *)
Definition engine_simplify (cs : list Expr) (e : Expr) : M S Expr := lift_res (simplifyExpr CAO UVH cs e).
(** The same for narrow expressions and constraints, nothing for the others. *)
Definition narrow_simplify (cs : list Expr) (e : Expr) : M S Expr := if forallb narrowb (e :: cs) then engine_simplify cs e else mret e.

Definition narrow_set (cs : list Expr) : Prop := Forall narrow cs.
Lemma conditions cs : Forall bool_expr cs → narrow_set cs → Forall condition cs.
Proof. unfold narrow_set. rewrite !Forall_forall. intros H1 H2 c Hc. destruct (H1 c Hc). split_and!; auto. Qed.
Lemma simplify_right cs e s : I s → value_query (mkQuery cs e) → narrow_set cs → narrow e →
  returns I (engine_simplify cs e) s (λ e', wf e' ∧ getWidth e' = getWidth e ∧ ∀ env, sat_of cs env → eval env e' = eval env e).
Proof.
  intros Hi ([Hb (env0 & Hs0)] & Hw & Hd) Hn Hne. cbn in *.
  destruct (simplify_spec CAO UVH cs e env0) as (r & E & Hr); [by apply conditions|done|done|exact (proj2 Hs0)|by apply Hd|].
  eapply returns_lift; [done|exact E|]. split_and!; [apply Hr|apply Hr|]. intros env Hs. destruct (Hd env Hs) as [v Hv]. cbn in Hv. rewrite Hv.
  by apply (rw_agrees _ _ _ Hr env (proj2 Hs)).
Qed.
Lemma narrow_all cs e : forallb narrowb (e :: cs) = true ↔ narrow e ∧ narrow_set cs.
Proof.
  cbn. rewrite andb_true_iff, (proj1 narrowb_spec), forallb_forall. unfold narrow_set. rewrite Forall_forall.
  split; intros [He H]; (split; [done|]); intros c Hc.
  - apply (proj1 narrowb_spec), H. by apply list_elem_of_In.
  - apply (proj1 narrowb_spec), H. by apply list_elem_of_In.
Qed.
Lemma narrow_simplifies : simplifies I narrow_simplify.
Proof.
  intros cs e s Hi Hq. unfold narrow_simplify. destruct (forallb narrowb (e :: cs)) eqn:E.
  - apply narrow_all in E as [? ?]. by apply simplify_right.
  - apply returns_ret; [done|]. split_and!; [apply Hq|done|done].
Qed.
Lemma simplify_same cs e : narrow_set cs → narrow e → engine_simplify cs e = narrow_simplify cs e.
Proof. intros. unfold narrow_simplify. by rewrite (proj2 (narrow_all cs e)). Qed.

Context (impl : SolverImpl S).
Lemma mustBeTrue_same cs e : narrow_set cs → narrow e → TimingSolver_mustBeTrue impl engine_simplify cs e = TimingSolver_mustBeTrue impl narrow_simplify cs e.
Proof. intros. unfold TimingSolver_mustBeTrue. by rewrite (simplify_same cs e). Qed.
Lemma evaluate_same cs e : narrow_set cs → narrow e → TimingSolver_evaluate impl engine_simplify cs e = TimingSolver_evaluate impl narrow_simplify cs e.
Proof. intros. unfold TimingSolver_evaluate. by rewrite (simplify_same cs e). Qed.
Lemma getValue_same cs e : narrow_set cs → narrow e → TimingSolver_getValue impl engine_simplify cs e = TimingSolver_getValue impl narrow_simplify cs e.
Proof. intros. unfold TimingSolver_getValue. by rewrite (simplify_same cs e). Qed.
Lemma mayBeTrue_same cs e s : narrow_set cs → wf e → narrow e →
  TimingSolver_mayBeTrue CAO impl engine_simplify cs e s = TimingSolver_mayBeTrue CAO impl narrow_simplify cs e s.
Proof.
  intros Hcs Hw Hn. unfold TimingSolver_mayBeTrue, TimingSolver_mustBeFalse, ok, mbind, M_bind, lift_res.
  pose proof (is_zero_small CAO e Hw Hn) as H. unfold small_at, wlp in H. destruct (createIsZero CAO e tt) as [z []|]; [|done].
  by rewrite (mustBeTrue_same cs z) by apply Hcs || apply H.
Qed.
End Engine.

(** C12: (safety) The answers the engine gets about a path, through its own simplification of the
    question by the constraints of the path, are right.  For conditions on arithmetic of at most 64 bits with values
    wherever the constraints hold, [evaluate], [mustBeTrue] and [mayBeTrue] return, and unless they fail,
    [mustBeTrue] says true only of a condition that holds under every assignment of the
    path and false only of one with a counterexample, [mayBeTrue] the same for existence, [evaluate]
    distinguishes the three cases, and [getValue] gives a value the expression has on the path. *)
Theorem engine_answers_right `{U : !Universe, HA : !APInt, HC : !ExprCompare, HRf : !ReflCompare} (ConstArrayOpt UseVisitorHash : bool)
  {S : Type} (I : S → Prop) (impl : SolverImpl S) (cs : list Expr) (e : Expr) (s : S) :
  right I impl → I s → truth_query (mkQuery cs e) → narrow_set cs → narrow e →
  let simplify := engine_simplify ConstArrayOpt UseVisitorHash in
  (∃ r s', TimingSolver_mustBeTrue impl simplify cs e s = Done r s' ∧
    (r = Some true → must (sat_of cs) e) ∧ (r = Some false → may_not (sat_of cs) e)) ∧
  (∃ r s', TimingSolver_mayBeTrue ConstArrayOpt impl simplify cs e s = Done r s' ∧
    (r = Some true → may (sat_of cs) e) ∧ (r = Some false → ∀ env, sat_of cs env → eval env e = Some 0)) ∧
  (∃ r s', TimingSolver_evaluate impl simplify cs e s = Done r s' ∧ validity_ok (mkQuery cs e) r) ∧
  (∃ r s', TimingSolver_getValue impl simplify cs e s = Done r s' ∧
    ∀ c, r = Some c → ∃ v env, c = Constant (getWidth e) v ∧ sat_of cs env ∧ eval env e = Some v).
Proof.
  intros HR Hi Hq Hcs Hn simplify. unfold simplify.
  rewrite mustBeTrue_same, evaluate_same, getValue_same, mayBeTrue_same by (done || apply Hq).
  apply (path_answers_right ConstArrayOpt I impl); [done|apply narrow_simplifies|done|done].
Qed.

(** On the path b0 = 7, the question b0 + 1 = 9 is simplified to false. *)
Definition seven : list Expr := [Cmp KEq (Constant 8 7) (arg_byte 0)].
Definition nine : Expr := Cmp KEq (Constant 8 9) (Arith KAdd (Constant 8 1) (arg_byte 0)).
Lemma engine_answers_right_witness :
  let U := list_universe three_envs in
  simplifyExpr true true seven nine tt = Done (Constant 1 0) tt ∧
  TimingSolver_mustBeTrue (list_impl three_envs) (engine_simplify true true) seven nine tt = Done (Some false) tt ∧
  may_not (sat_of seven) nine.
Proof.
  intros U. assert (Hq : truth_query (mkQuery seven nine)).
  { split; [|reflexivity]. split; [split|split].
    - repeat constructor; vm_compute; congruence || done.
    - exists (λ _ _, 7). split; [by right; left|]. intros c ->%list_elem_of_singleton. reflexivity.
    - vm_compute; repeat split; congruence || by intros.
    - intros env _. by eexists. }
  split; [vm_compute; reflexivity|].
  destruct (engine_answers_right true true (λ _, True) (list_impl three_envs) seven nine tt (list_right _) I Hq) as [(r & s' & E & _ & Hf) _];
    [repeat constructor|vm_compute; repeat split; congruence|].
  assert (Er : r = Some false ∧ s' = tt) by (vm_compute in E; by injection E). destruct Er as [-> ->]. split; [exact E|by apply Hf].
Defined.
