(* ===== verification/Compare.v ===== *)
(** * The order of expressions

    src/klee/include/klee/Expr.h, src/klee/lib/Expr/Expr.cpp and src/klee/lib/Expr/Updates.cpp: [Expr::compare],
    by which the ordered sets and maps of expressions are kept.  It compares the kinds, the stored
    hash values, the contents of the nodes and the kids, and is a total order.

    The addresses of arrays are given by the class [Addresses]: different arrays are at different
    addresses.  The stored hash is any function of the expression.  The table of pairs that were found
    equal, which only saves time, is left out. *)
From S2P Require Import Prelude Expr.

(** ** Keys with a total order *)
(** What [std::set] and [std::map] ask of the keys. *)
Class TotalOrder (K : Type) := {
  key_lt : K → K → bool;
  key_eq :: EqDecision K;
  key_irrefl : ∀ a, key_lt a a = false;
  key_trans : ∀ a b c, key_lt a b = true → key_lt b c = true → key_lt a c = true;
  key_total : ∀ a b, key_lt a b = true ∨ a = b ∨ key_lt b a = true
}.

Class Addresses := { addr : Array → Z; addr_inj : ∀ a b, addr a = addr b → a = b }.

(** ** The comparison *)
(** [if (x != y) return x < y ? -1 : 1;] *)
Definition three (x y : Z) : Z := if x =? y then 0 else if x <? y then -1 else 1.
(** [if (int res = c) return res; return d;] *)
Definition lex (c d : Z) : Z := if c =? 0 then d else c.

(** The names are compared as [std::string]s: a proper prefix comes first. *)
Fixpoint name_compare (a b : string) : Z :=
  match a, b with
  | EmptyString, EmptyString => 0
  | EmptyString, String _ _ => -1
  | String _ _, EmptyString => 1
  | String x a, String y b => lex (three (Z.of_N (Ascii.N_of_ascii x)) (Z.of_N (Ascii.N_of_ascii y))) (name_compare a b)
  end.

Definition arith_kind (k : ArithKind) : Z :=
  match k with
  | KAdd => 9 | KSub => 10 | KMul => 11 | KUDiv => 12 | KSDiv => 13 | KURem => 14 | KSRem => 15
  | KAnd => 17 | KOr => 18 | KXor => 19 | KShl => 20 | KLShr => 21 | KAShr => 22
  end.
Definition cmp_kind (k : CmpKind) : Z :=
  match k with
  | KEq => 23 | KNe => 24 | KUlt => 25 | KUle => 26 | KUgt => 27 | KUge => 28 | KSlt => 29 | KSle => 30 | KSgt => 31 | KSge => 32
  end.
(** [getKind()] as the number of the enumeration. *)
Definition getKind (e : Expr) : Z :=
  match e with
  | Constant _ _ => 0
  | NotOptimized _ => 1
  | Read _ _ _ => 3
  | Select _ _ _ => 4
  | Concat _ _ => 5
  | Extract _ _ _ => 6
  | ZExt _ _ => 7
  | SExt _ _ => 8
  | Not _ => 16
  | Arith k _ _ => arith_kind k
  | Cmp k _ _ => cmp_kind k
  end.
(** [getSize()] of an update list. *)
Fixpoint getSize (ul : UpdateList) : Z := match ul with UNil => 0 | UNode _ _ next => 1 + getSize next end.

Section Compare.
Context `{HAd : !Addresses} (hash : Expr → Z).

(** [Expr::compare], with [compareContents] and the kids; [UpdateList::compare] without the test of the
    root, and [UpdateNode::compare]. *)
Fixpoint Expr_compare (a b : Expr) : Z :=
  lex (three (getKind a) (getKind b))
    (lex (three (hash a) (hash b))
      match a, b with
      | Constant w v, Constant w' v' => lex (three w w') (three v v')
      | NotOptimized s, NotOptimized s' => Expr_compare s s'
      | Read x u i, Read x' u' i' =>
        lex (lex (name_compare (arr_name x) (arr_name x')) (lex (three (addr x) (addr x'))
              (lex (three (getSize u) (getSize u')) (nodes_compare u u'))))
          (Expr_compare i i')
      | Select c t f, Select c' t' f' => lex (Expr_compare c c') (lex (Expr_compare t t') (Expr_compare f f'))
      | Concat l r, Concat l' r' => lex (Expr_compare l l') (Expr_compare r r')
      | Extract e off w, Extract e' off' w' => lex (lex (three off off') (three w w')) (Expr_compare e e')
      | ZExt e w, ZExt e' w' | SExt e w, SExt e' w' => lex (three w w') (Expr_compare e e')
      | Not e, Not e' => lex (Expr_compare e e') (Expr_compare e e')
      | Arith _ l r, Arith _ l' r' => lex (Expr_compare l l') (Expr_compare r r')
      | Cmp _ l r, Cmp _ l' r' => lex (Expr_compare l l') (Expr_compare r r')
      | _, _ => 0
      end)
with nodes_compare (a b : UpdateList) : Z :=
  match a, b with
  | UNode i v n, UNode i' v' n' => lex (lex (Expr_compare i i') (Expr_compare v v')) (nodes_compare n n')
  | _, _ => 0
  end.

(** ** A total order *)
(** An expression as a list of numbers, and the lexicographic comparison of such lists. *)
Fixpoint name_tokens (s : string) : list Z :=
  match s with EmptyString => [-1] | String x s => Z.of_N (Ascii.N_of_ascii x) :: name_tokens s end.
Fixpoint tokens (e : Expr) : list Z :=
  getKind e :: hash e ::
  match e with
  | Constant w v => [w; v]
  | NotOptimized s | Not s => tokens s
  | Read x u i => name_tokens (arr_name x) ++ addr x :: getSize u :: node_tokens u ++ tokens i
  | Select c t f => tokens c ++ tokens t ++ tokens f
  | Extract s off w => off :: w :: tokens s
  | ZExt s w | SExt s w => w :: tokens s
  | Concat l r | Arith _ l r | Cmp _ l r => tokens l ++ tokens r
  end
with node_tokens (u : UpdateList) : list Z :=
  match u with UNil => [] | UNode i v n => tokens i ++ tokens v ++ node_tokens n end.
Fixpoint tokens_compare (a b : list Z) : Z :=
  match a, b with
  | [], [] => 0
  | [], _ => -1
  | _, [] => 1
  | x :: a, y :: b => lex (three x y) (tokens_compare a b)
  end.

Lemma lex_0 c d : lex c d = 0 ↔ c = 0 ∧ d = 0.
Proof. unfold lex. destruct (Z.eqb_spec c 0); naive_solver. Qed.
Lemma lex_assoc a b c : lex (lex a b) c = lex a (lex b c).
Proof. unfold lex. destruct (a =? 0) eqn:E; [done|]. by rewrite E. Qed.
Lemma lex_same c d : lex c (lex c d) = lex c d.
Proof. unfold lex. destruct (c =? 0) eqn:E; by rewrite ?E. Qed.
Lemma lex_l d : lex 0 d = d.
Proof. done. Qed.
Lemma lex_r c : lex c 0 = c.
Proof. unfold lex. destruct (Z.eqb_spec c 0); congruence. Qed.
Lemma three_0 x y : three x y = 0 ↔ x = y.
Proof. unfold three. destruct (Z.eqb_spec x y); [done|]. by destruct (x <? y). Qed.
Lemma three_refl x : three x x = 0.
Proof. by apply three_0. Qed.

Lemma tokens_compare_0 a b : tokens_compare a b = 0 ↔ a = b.
Proof.
  revert b. induction a as [|x a IH]; intros [|y b]; cbn; [done..|]. rewrite lex_0, three_0, IH. naive_solver.
Qed.
Lemma tokens_compare_opp a b : tokens_compare b a = - tokens_compare a b.
Proof.
  revert b. induction a as [|x a IH]; intros [|y b]; cbn; [done..|]. rewrite IH. unfold lex, three.
  destruct (Z.eqb_spec x y), (Z.eqb_spec y x), (Z.ltb_spec x y), (Z.ltb_spec y x); cbn; lia || done.
Qed.
Lemma tokens_compare_trans a b c : tokens_compare a b = -1 → tokens_compare b c = -1 → tokens_compare a c = -1.
Proof.
  revert b c. induction a as [|x a IH]; intros [|y b] [|z c]; cbn; try done. specialize (IH b c). unfold lex, three.
  destruct (Z.eqb_spec x y), (Z.eqb_spec y z), (Z.eqb_spec x z), (Z.ltb_spec x y), (Z.ltb_spec y z), (Z.ltb_spec x z); cbn; lia || auto.
Qed.
Lemma tokens_compare_range a b : -1 ≤ tokens_compare a b ≤ 1.
Proof.
  revert b. induction a as [|x a IH]; intros [|y b]; cbn; try lia. specialize (IH b). unfold lex, three.
  destruct (x =? y), (x <? y); cbn; lia.
Qed.

Lemma name_tokens_compare a b x y :
  tokens_compare (name_tokens a ++ x) (name_tokens b ++ y) = lex (name_compare a b) (tokens_compare x y).
Proof.
  assert (Hc : ∀ c, three (-1) (Z.of_N (Ascii.N_of_ascii c)) = -1 ∧ three (Z.of_N (Ascii.N_of_ascii c)) (-1) = 1).
  { intros c. unfold three. destruct (Z.eqb_spec (-1) (Z.of_N (Ascii.N_of_ascii c))), (Z.eqb_spec (Z.of_N (Ascii.N_of_ascii c)) (-1)); try lia.
    destruct (Z.ltb_spec (-1) (Z.of_N (Ascii.N_of_ascii c))), (Z.ltb_spec (Z.of_N (Ascii.N_of_ascii c)) (-1)); lia || done. }
  revert b. induction a as [|c a IH]; intros [|d b]; cbn; rewrite ?three_refl, ?(proj1 (Hc _)), ?(proj2 (Hc _)); [done..|].
  by rewrite IH, lex_assoc.
Qed.

(** A node and its kids are read off the list in order: comparing the lists compares the expressions. *)
Lemma different_kinds a b x y : getKind a ≠ getKind b →
  tokens_compare (tokens a ++ x) (tokens b ++ y) = lex (Expr_compare a b) (tokens_compare x y).
Proof.
  intros H. assert (Ht : ∀ e, ∃ t, tokens e = getKind e :: t) by (intros []; by eexists).
  destruct (Ht a) as [ta ->], (Ht b) as [tb ->]. assert (Hc : ∃ c, Expr_compare a b = lex (three (getKind a) (getKind b)) c) by (destruct a; by eexists).
  destruct Hc as [c ->]. cbn [app tokens_compare]. rewrite <- three_0 in H. apply Z.eqb_neq in H. unfold lex. by rewrite !H.
Qed.
Lemma kind_inj_arith k k' : arith_kind k = arith_kind k' → k = k'.
Proof. by destruct k, k'. Qed.
Lemma kind_inj_cmp k k' : cmp_kind k = cmp_kind k' → k = k'.
Proof. by destruct k, k'. Qed.
Ltac same_kind a b :=
  let H := fresh in destruct (Z.eq_dec (getKind a) (getKind b)) as [H|H];
  [destruct b; cbn in H; try (discriminate H || (exfalso; match type of H with context [arith_kind ?k] => destruct k end; done)
     || (exfalso; match type of H with context [cmp_kind ?k] => destruct k end; done)
     || (exfalso; match type of H with arith_kind ?k = cmp_kind ?k' => destruct k, k' end; done)
     || (exfalso; match type of H with cmp_kind ?k = arith_kind ?k' => destruct k, k' end; done))
  |].
Lemma tokens_compare_spec :
  (∀ a b x y, tokens_compare (tokens a ++ x) (tokens b ++ y) = lex (Expr_compare a b) (tokens_compare x y)) ∧
  (∀ u u' x y, getSize u = getSize u' →
    tokens_compare (node_tokens u ++ x) (node_tokens u' ++ y) = lex (nodes_compare u u') (tokens_compare x y)).
Proof.
  assert (Hs : ∀ u, 0 ≤ getSize u) by (induction u; cbn; lia).
  apply Expr_UpdateList_ind; intros; try match goal with |- context [Expr_compare ?a ?b] => same_kind a b; [|by apply different_kinds] end;
    cbn; rewrite ?three_refl, ?lex_l, ?lex_assoc, <-?app_assoc; try match goal with H : arith_kind _ = _ |- _ => apply kind_inj_arith in H as -> end;
    try match goal with H : cmp_kind _ = _ |- _ => apply kind_inj_cmp in H as -> end;
    rewrite ?three_refl, ?lex_l; repeat match goal with H : ∀ b x y, tokens_compare _ _ = _ |- _ => rewrite H; clear H end; rewrite ?lex_same; try done.
  - rewrite name_tokens_compare. do 2 f_equal. cbn. f_equal. destruct (Z.eq_dec (getSize updates) (getSize updates0)) as [E|E].
    + rewrite E, three_refl, !lex_l, <-!app_assoc, H by done. by rewrite H0.
    + rewrite <- three_0 in E. apply Z.eqb_neq in E. unfold lex. by rewrite !E.
  - destruct u' as [|i v n]; [done|]. match goal with E : getSize _ = _ |- _ => cbn in E; pose proof (Hs n); lia end.
  - destruct u' as [|i v n]; [match goal with E : getSize _ = _ |- _ => cbn in E; pose proof (Hs next); lia end|].
    cbn. rewrite <-!app_assoc, H, H0, H1 by (match goal with E : getSize _ = _ |- _ => cbn in E; lia end). by rewrite !lex_assoc.
Qed.
Lemma Expr_compare_tokens a b : Expr_compare a b = tokens_compare (tokens a) (tokens b).
Proof. pose proof (proj1 tokens_compare_spec a b [] []) as H. rewrite !app_nil_r, lex_r in H. done. Qed.

Lemma name_compare_0 a b : name_compare a b = 0 → a = b.
Proof.
  revert b. induction a as [|x a IH]; intros [|y b]; cbn; try done. rewrite lex_0, three_0. intros [Hx Hb]. f_equal; [|by apply IH].
  apply N2Z.inj in Hx. by rewrite <- (Ascii.ascii_N_embedding x), Hx, Ascii.ascii_N_embedding.
Qed.
Lemma compare_equal :
  (∀ a b, Expr_compare a b = 0 → a = b) ∧ (∀ u u', getSize u = getSize u' → nodes_compare u u' = 0 → u = u').
Proof.
  assert (Hs : ∀ u, 0 ≤ getSize u) by (induction u; cbn; lia).
  apply Expr_UpdateList_ind; intros; try match goal with H : Expr_compare ?a ?b = 0 |- _ => same_kind a b;
    [|exfalso; destruct a; cbn in H; rewrite !lex_0, three_0 in H; tauto] end.
  all: try match goal with H : Expr_compare _ _ = 0 |- _ => cbn in H; rewrite !lex_0 in H; rewrite ?three_0 in H; destruct_and? end.
  all: try match goal with H : arith_kind _ = _ |- _ => apply kind_inj_arith in H as -> end.
  all: try match goal with H : cmp_kind _ = _ |- _ => apply kind_inj_cmp in H as -> end.
  all: try (f_equal; auto; fail).
  - f_equal; auto. by apply addr_inj.
  - destruct u' as [|i v n]; [done|]. match goal with E : getSize _ = _ |- _ => cbn in E; pose proof (Hs n); lia end.
  - destruct u' as [|i v n]; match goal with E : getSize _ = _ |- _ => cbn in E; pose proof (Hs next) end; [lia|].
    match goal with H : nodes_compare _ _ = 0 |- _ => cbn in H; rewrite !lex_0 in H; destruct_and? end. f_equal; auto. apply H1; [lia|done].
Qed.
Lemma compare_0 a b : Expr_compare a b = 0 ↔ a = b.
Proof. split; [apply compare_equal|]. intros ->. rewrite Expr_compare_tokens. by apply tokens_compare_0. Qed.
Lemma compare_opp a b : Expr_compare b a = - Expr_compare a b.
Proof. rewrite !Expr_compare_tokens. apply tokens_compare_opp. Qed.
Lemma compare_range a b : -1 ≤ Expr_compare a b ≤ 1.
Proof. rewrite Expr_compare_tokens. apply tokens_compare_range. Qed.
Lemma compare_trans a b c : Expr_compare a b = -1 → Expr_compare b c = -1 → Expr_compare a c = -1.
Proof. rewrite !Expr_compare_tokens. apply tokens_compare_trans. Qed.
End Compare.

(** [ref<Expr>] as a key: [operator<] and [operator==]. *)
#[global] Instance Expr_eq_dec : EqDecision Expr.
Proof.
  intros a b. destruct (expr_eqb a b) eqn:E; [left; by apply expr_eqb_sound|].
  right. intros ->. assert (H : (∀ e, expr_eqb e e = true) ∧ (∀ ul, updates_eqb ul ul = true)); [|by rewrite (proj1 H) in E].
  apply Expr_UpdateList_ind; cbn; intros; rewrite ?Z.eqb_refl, ?bool_decide_eq_true_2 by done;
    repeat match goal with H : _ = true |- _ => rewrite H end; done.
Defined.
#[program] Definition Expr_order `{HAd : !Addresses} (hash : Expr → Z) : TotalOrder Expr :=
  {| key_lt := λ a b, Expr_compare hash a b <? 0 |}.
Next Obligation. intros ? hash a. cbn beta. by rewrite (proj2 (compare_0 hash a a)). Qed.
Next Obligation.
  intros ? hash a b c. cbn beta. rewrite !Z.ltb_lt. intros H1 H2. pose proof (compare_range hash a b). pose proof (compare_range hash b c).
  rewrite (compare_trans hash a b c); lia.
Qed.
Next Obligation.
  intros ? hash a b. cbn beta. rewrite !Z.ltb_lt, (compare_opp hash a b). destruct (Z.eq_dec (Expr_compare hash a b) 0) as [E|E]; [right; left; by apply compare_0 in E|lia].
Qed.
#[program] Definition Expr_same `{HAd : !Addresses} (hash : Expr → Z) : ExprCompare := {| same := λ a b, Expr_compare hash a b =? 0 |}.
Next Obligation. intros ? hash a b. cbn beta. by rewrite Z.eqb_eq, compare_0. Qed.
Next Obligation. intros ? hash w v. cbn beta. apply Z.eqb_eq. by apply compare_0. Qed.

(** Addresses exist: the encoding of an array as a number. *)
#[global] Instance Array_countable : Countable Array.
Proof.
  refine (inj_countable' (λ a, (arr_id a, arr_name a, arr_size a, constantValues a))
    (λ p, mkArray p.1.1.1 p.1.1.2 p.1.2 p.2) _). by intros [].
Defined.
#[program] Definition encoded_addresses : Addresses := {| addr := λ a, Zpos (encode a) |}.
Next Obligation. intros a b [= H]. by apply (inj encode). Qed.
