(* ===== verification/MapOfSets.v ===== *)
(** * Maps from sets

    src/klee/include/klee/Internal/ADT/MapOfSets.h: a map whose keys are sets, kept as a tree of nodes whose
    paths are the keys in increasing order, with searches for a subset or a superset of a given set.

    A [std::set] is the list of its elements in order, a [std::map] the list of its bindings in order of the keys.
    [isEndOfSet] and [value] of a node are one option: the value is only read when the flag is set. *)
From Stdlib Require Import Sorted.
From S2P Require Import Prelude Expr Compare.

Section MapOfSets.
Context {K V : Type} `{HK : !TotalOrder K}.

Inductive Node : Type := mkNode (value : option V) (children : list (K * Node)).
Definition node_value (n : Node) : option V := let '(mkNode v _) := n in v.
Definition node_children (n : Node) : list (K * Node) := let '(mkNode _ cs) := n in cs.
(** [Node()]; the map itself is its root. *)
Definition new_Node : Node := mkNode None [].

(** [children.find]. *)
Fixpoint child (k : K) (cs : list (K * Node)) : option Node :=
  match cs with
  | [] => None
  | (k', n) :: cs => if decide (k' = k) then Some n else child k cs
  end.
(** [children.insert(make_pair(k, Node()))], which leaves a binding that is there, and an update [f] of the node at [k]. *)
Fixpoint update_child (k : K) (f : Node → Node) (cs : list (K * Node)) : list (K * Node) :=
  match cs with
  | [] => [(k, f new_Node)]
  | (k', n) :: cs =>
    if key_lt k k' then (k, f new_Node) :: (k', n) :: cs
    else if decide (k' = k) then (k', f n) :: cs
    else (k', n) :: update_child k f cs
  end.

Fixpoint insert (set : list K) (value : V) (n : Node) : Node :=
  match set with
  | [] => mkNode (Some value) (node_children n)
  | k :: set => mkNode (node_value n) (update_child k (insert set value) (node_children n))
  end.
Fixpoint lookup (set : list K) (n : Node) : option V :=
  match set with
  | [] => node_value n
  | k :: set => match child k (node_children n) with Some c => lookup set c | None => None end
  end.
Definition clear (n : Node) : Node := new_Node.

(** [std::set::insert]. *)
Fixpoint set_insert (k : K) (s : list K) : list K :=
  match s with
  | [] => [k]
  | k' :: s' => if key_lt k k' then k :: s else if decide (k' = k) then s else k' :: set_insert k s'
  end.

(** The value of a node as a result. *)
Definition result (n : Node) (accum : list K) : list (list K * V) := match node_value n with Some v => [(accum, v)] | None => [] end.

(** The loop of [findSubsets] over the elements that are left. *)
Fixpoint subsets_loop (it : list K) (n : Node) (accum : list K) : list (list K * V) :=
  match it with
  | [] => []
  | elt :: it =>
    match child elt (node_children n) with
    | Some c => let nacc := set_insert elt accum in result c nacc ++ subsets_loop it c nacc
    | None => []
    end ++ subsets_loop it n accum
  end.
Definition findSubsets (n : Node) (accum : list K) (it : list K) : list (list K * V) := result n accum ++ subsets_loop it n accum.
Definition subsets (set : list K) (root : Node) : list (list K * V) := findSubsets root [] set.

(** The loops over the children: over all of them; up to the first key above [elt]; to the first result; the child
    at [lower_bound(x)] if its key is [x]. *)
Section Loops.
Context {A : Type}.
Section Each.
Context (f : K → Node → list A).
Fixpoint each_child (cs : list (K * Node)) : list A :=
  match cs with [] => [] | (k, c) :: cs => f k c ++ each_child cs end.
End Each.
Section Until.
Context (elt : K) (equal less : K → Node → list A).
Fixpoint children_until (cs : list (K * Node)) : list A :=
  match cs with
  | [] => []
  | (k, c) :: cs =>
    if decide (elt = k) then equal k c ++ children_until cs
    else if key_lt k elt then less k c ++ children_until cs
    else []
  end.
End Until.
Section First.
Context (f : Node → option A).
Fixpoint first_child (cs : list (K * Node)) : option A :=
  match cs with [] => None | (_, c) :: cs => match f c with Some r => Some r | None => first_child cs end end.
Fixpoint child_at (x : K) (cs : list (K * Node)) : option A :=
  match cs with
  | [] => None
  | (k, c) :: cs => if key_lt k x then child_at x cs else if decide (x = k) then f c else None
  end.
End First.
(** The loop of [findSubset] over the children and the elements: a child below the element at hand is passed
    over ([lower_bound] before the loop, and the second inner loop), an element below the child too (the first
    inner loop); where they meet, [f] goes on below the child with the elements after it. *)
Section Merge.
Context (f : Node → list K → option A).
Fixpoint merge_children (cs : list (K * Node)) (it : list K) {struct cs} : option A :=
  match cs with
  | [] => None
  | (k, c) :: cs =>
    (fix go it {struct it} :=
       match it with
       | [] => None
       | x :: next =>
         if key_lt k x then merge_children cs it
         else if key_lt x k then go next
         else match f c next with Some r => Some r | None => go next end
       end) it
  end.
End Merge.
End Loops.

Fixpoint findSupersets (n : Node) (accum : list K) (it : list K) {struct n} : list (list K * V) :=
  let '(mkNode v cs) := n in
  match it with
  | [] => result n accum ++ each_child (λ k c, findSupersets c (set_insert k accum) it) cs
  | elt :: next =>
    children_until elt (λ k c, findSupersets c (set_insert k accum) next) (λ k c, findSupersets c (set_insert k accum) it) cs
  end.
Definition supersets (set : list K) (root : Node) : list (list K * V) := findSupersets root [] set.

Section Search.
Context (p : V → bool).
Definition accepted (n : Node) : option V := match node_value n with Some v => if p v then Some v else None | None => None end.

Fixpoint findSubset (n : Node) (it : list K) {struct n} : option V :=
  let '(mkNode v cs) := n in
  match accepted n with
  | Some r => Some r
  | None => merge_children findSubset cs it
  end.

(** With elements left, all children are searched for the whole of them. *)
Fixpoint findSuperset (n : Node) (it : list K) {struct n} : option V :=
  let '(mkNode v cs) := n in
  match it with
  | [] => match accepted n with Some r => Some r | None => first_child (λ c, findSuperset c it) cs end
  | x :: next =>
    match first_child (λ c, findSuperset c it) cs with
    | Some r => Some r
    | None => child_at (λ c, findSuperset c next) x cs
    end
  end.
End Search.

(** ** Sorted lists *)
Abbreviation is_set := (StronglySorted (λ a b : K, key_lt a b = true)).
Lemma lt_irrefl a : ¬ key_lt a a = true.
Proof. by rewrite key_irrefl. Qed.
Lemma lt_neq a b : key_lt a b = true → a ≠ b.
Proof. by intros H ->; apply lt_irrefl in H. Qed.
Lemma lt_asym a b : key_lt a b = true → key_lt b a = false.
Proof. intros H. destruct (key_lt b a) eqn:E; [|done]. destruct (lt_irrefl a). by eapply key_trans. Qed.
Lemma is_set_cons k s : is_set (k :: s) ↔ is_set s ∧ ∀ x, x ∈ s → key_lt k x = true.
Proof.
  split; [intros [? H]%StronglySorted_inv; rewrite Forall_forall in H; auto|]. intros [? ?]. constructor; [done|]. by apply Forall_forall.
Qed.
Lemma is_set_notin k s : is_set (k :: s) → k ∉ s.
Proof. intros [_ H]%is_set_cons Hk. by apply H, lt_irrefl in Hk. Qed.
Lemma is_set_sublist s q : s `sublist_of` q → is_set q → is_set s.
Proof.
  induction 1 as [|k s q Hs IH|k s q Hs IH]; [done|..]; intros [Hq Hk]%is_set_cons; [|auto].
  apply is_set_cons. split; [auto|]. intros x Hx. apply Hk. by eapply sublist_subseteq.
Qed.
(** Between sets, inclusion is being a sublist. *)
Lemma sublist_is_subset s q : is_set s → is_set q → s `sublist_of` q ↔ s ⊆ q.
Proof.
  intros Hs Hq. split; [apply sublist_subseteq|]. revert s Hs. induction q as [|k q IH]; intros s Hs Hsub.
  - destruct s as [|x s]; [constructor|]. specialize (Hsub x ltac:(by left)). by apply elem_of_nil in Hsub.
  - destruct s as [|x s]; [apply sublist_nil_l|]. pose proof Hs as [Hs' Hx]%is_set_cons. pose proof Hq as [Hq' Hk]%is_set_cons.
    destruct (decide (x = k)) as [->|Hne].
    + apply sublist_skip, IH; [done..|]. intros y Hy. specialize (Hsub y ltac:(by right)). apply elem_of_cons in Hsub as [->|?]; [|done].
      by apply Hx, lt_irrefl in Hy.
    + apply sublist_cons, IH; [done..|]. intros y Hy. specialize (Hsub y Hy) as Hin. apply elem_of_cons in Hin as [->|?]; [|done].
      exfalso. assert (Hxq : x ∈ q). { specialize (Hsub x ltac:(by left)). apply elem_of_cons in Hsub as [?|?]; done. }
      apply elem_of_cons in Hy as [?|Hy]; [done|]. apply (lt_irrefl x). eapply key_trans; [by apply Hx|by apply Hk].
Qed.
Lemma set_insert_last k s : (∀ x, x ∈ s → key_lt x k = true) → set_insert k s = s ++ [k].
Proof.
  induction s as [|x s IH]; cbn; [done|]. intros H. specialize (H x ltac:(by left)) as Hx.
  rewrite (lt_asym _ _ Hx), decide_False by (by apply lt_neq). f_equal. apply IH. intros y Hy. apply H. by right.
Qed.
Lemma is_set_snoc k s : is_set s → (∀ x, x ∈ s → key_lt x k = true) → is_set (s ++ [k]).
Proof.
  induction s as [|x s IH]; cbn; [constructor; [constructor|constructor]|]. intros [Hs Hx]%is_set_cons H. apply is_set_cons. split.
  - apply IH; [done|]. intros y Hy. apply H. by right.
  - intros y [Hy|Hy%list_elem_of_singleton]%elem_of_app; [by apply Hx|subst]. apply H. by left.
Qed.

Lemma set_insert_elem k s x : x ∈ set_insert k s ↔ x = k ∨ x ∈ s.
Proof.
  induction s as [|y s IH]; cbn; [set_solver|]. destruct (key_lt k y); [set_solver|]. destruct (decide (y = k)) as [->|]; set_solver.
Qed.
Lemma set_insert_set k s : is_set s → is_set (set_insert k s).
Proof.
  induction s as [|y s IH]; cbn; [intros _; repeat constructor|]. intros Hs. pose proof Hs as [Hs' Hy]%is_set_cons.
  destruct (key_lt k y) eqn:E; [|destruct (decide (y = k)) as [->|Hne]; [done|]]; apply is_set_cons; (split; [auto|]).
  - intros x [->|Hx]%elem_of_cons; [done|]. eapply key_trans; [exact E|by apply Hy].
  - intros x [->|Hx]%set_insert_elem; [|by apply Hy]. destruct (key_total k y) as [?|[?|?]]; congruence.
Qed.

(** ** Well-formed trees *)
(** The keys of the children are in order, above the key of the node. *)
Definition above (b : option K) (k : K) : Prop := match b with Some b => key_lt b k = true | None => True end.
Abbreviation sorted_children := (StronglySorted (λ a b : K * Node, key_lt a.1 b.1 = true)).
Inductive node_ok : option K → Node → Prop :=
| node_ok_intro b v cs : sorted_children cs → Forall (λ x, above b x.1 ∧ node_ok (Some x.1) x.2) cs → node_ok b (mkNode v cs).

Lemma Node_induction (P : Node → Prop) (H : ∀ v cs, Forall (λ x, P x.2) cs → P (mkNode v cs)) : ∀ n, P n.
Proof.
  refine (fix go n := match n with mkNode v cs => H v cs _ end).
  induction cs as [|[k c] cs IH]; constructor; [apply go|exact IH].
Qed.

Lemma child_elem k c cs : child k cs = Some c → (k, c) ∈ cs.
Proof. induction cs as [|[k' n] cs IH]; cbn; [done|]. case_decide; [intros [= ->]; subst; by left|intros; right; auto]. Qed.
Lemma elem_child k c cs : sorted_children cs → (k, c) ∈ cs → child k cs = Some c.
Proof.
  induction 1 as [|[k' n] cs Hs IH Hall]; [by intros ?%elem_of_nil|]. cbn. intros [[= -> ->]|H]%elem_of_cons; [by rewrite decide_True|].
  rewrite decide_False; [auto|]. rewrite Forall_forall in Hall. specialize (Hall _ H). by apply lt_neq.
Qed.
Lemma node_ok_child b n k c : node_ok b n → child k (node_children n) = Some c → above b k ∧ node_ok (Some k) c.
Proof. intros H Hc%child_elem. inversion H as [? v cs Hs Hall]; subst. rewrite Forall_forall in Hall. by apply Hall in Hc. Qed.
Lemma new_node_ok b : node_ok b new_Node.
Proof. repeat constructor. Qed.

Lemma child_update k k' f cs : sorted_children cs →
  child k' (update_child k f cs) = if decide (k = k') then Some (f (default new_Node (child k cs))) else child k' cs.
Proof.
  induction 1 as [|[k1 n] cs Hs IH Hall]; cbn; [done|]. rewrite Forall_forall in Hall. destruct (key_lt k k1) eqn:E; cbn.
  - destruct (decide (k = k')) as [<-|]; [|done]. rewrite decide_False by (by apply not_eq_sym, lt_neq).
    destruct (child k cs) as [c|] eqn:Ec; [|done]. exfalso. apply child_elem, Hall in Ec. cbn in Ec.
    apply (lt_irrefl k). by eapply key_trans.
  - destruct (decide (k1 = k)) as [->|Hne]; cbn; [by destruct (decide (k = k'))|]. rewrite IH.
    destruct (decide (k1 = k')) as [->|]; [by rewrite decide_False by done|done].
Qed.
Lemma update_child_elem k f cs x : x ∈ update_child k f cs → x.1 = k ∧ (∃ n, x.2 = f n ∧ (n = new_Node ∨ (k, n) ∈ cs)) ∨ x ∈ cs.
Proof.
  induction cs as [|[k1 n] cs IH]; cbn.
  - intros ->%list_elem_of_singleton. left. cbn. split; [done|]. exists new_Node. auto.
  - destruct (key_lt k k1); [intros [->|?]%elem_of_cons; [|by right]; left; cbn; split; [done|]; exists new_Node; auto|].
    destruct (decide (k1 = k)) as [->|]; (intros [->|H]%elem_of_cons; [|]).
    + left. cbn. split; [done|]. exists n. split; [done|]. right. by left.
    + right. by right.
    + right. by left.
    + destruct (IH H) as [(? & m & ? & Hm)|?]; [left|right; by right]. split; [done|]. exists m. split; [done|]. destruct Hm; [by left|right; by right].
Qed.
Lemma update_child_sorted k f cs : sorted_children cs → sorted_children (update_child k f cs).
Proof.
  induction 1 as [|[k1 n] cs Hs IH Hall]; cbn; [repeat constructor|]. destruct (key_lt k k1) eqn:E.
  - constructor; [by constructor|]. constructor; [done|]. eapply Forall_impl; [exact Hall|]. cbn. intros x Hx. by eapply key_trans.
  - destruct (decide (k1 = k)) as [->|Hne]; constructor; try done. rewrite Forall_forall in *.
    intros x [[Hx _]|Hx]%update_child_elem; [|by apply Hall]. cbn. rewrite Hx. destruct (key_total k k1) as [?|[?|?]]; congruence.
Qed.

(** ** Insertion and lookup *)
Lemma insert_ok s v : ∀ b n, node_ok b n → is_set s → (∀ x, x ∈ s → above b x) → node_ok b (insert s v n).
Proof.
  induction s as [|k s IH]; intros b n Hn Hs Hb; cbn; inversion Hn as [? w cs Hcs Hall]; subst; cbn; [by constructor|].
  apply is_set_cons in Hs as [Hs Hk]. constructor; [by apply update_child_sorted|]. rewrite Forall_forall in *.
  intros x [(Hx & m & Hm & Hor)|Hx]%update_child_elem; [|by apply Hall]. rewrite Hx, Hm. split; [apply Hb; by left|].
  apply IH; [|done|exact Hk]. destruct Hor as [->|Hin]; [apply new_node_ok|by apply (Hall _ Hin)].
Qed.
Lemma lookup_new s : lookup s new_Node = None.
Proof. by destruct s. Qed.
Lemma lookup_insert s v : ∀ b n s', node_ok b n → lookup s' (insert s v n) = if decide (s = s') then Some v else lookup s' n.
Proof.
  induction s as [|k s IH]; intros b n [|k' s'] Hn; cbn; [done..|]. inversion Hn as [? w cs Hcs Hall]; subst; cbn. rewrite child_update by done.
  destruct (decide (k = k')) as [<-|Hne]; [|rewrite decide_False; [done|congruence]].
  assert (Hd : ∃ b', node_ok b' (default new_Node (child k cs))).
  { destruct (child k cs) as [c|] eqn:Ec; [|exists None; apply new_node_ok]. exists (Some k).
    apply child_elem in Ec. rewrite Forall_forall in Hall. exact (proj2 (Hall _ Ec)). }
  destruct Hd as [b' Hd]. rewrite (IH b') by done. destruct (decide (s = s')) as [->|]; [by rewrite decide_True|].
  rewrite decide_False by congruence. destruct (child k cs); [done|]. apply lookup_new.
Qed.
Lemma lookup_sorted s : ∀ b n v, node_ok b n → lookup s n = Some v → is_set s ∧ ∀ x, x ∈ s → above b x.
Proof.
  induction s as [|k s IH]; intros b n v Hn Hl; [split; [constructor|by intros ? ?%elem_of_nil]|]. cbn in Hl.
  destruct (child k (node_children n)) as [c|] eqn:Ec; [|done]. destruct (node_ok_child b n k c Hn Ec) as [Hk Hc].
  destruct (IH _ _ _ Hc Hl) as [Hs Ha]. split; [by apply is_set_cons|]. intros x [->|Hx]%elem_of_cons; [done|].
  specialize (Ha x Hx). destruct b as [b|]; [|done]. cbn in *. by eapply key_trans.
Qed.

(** ** All subsets *)
Lemma result_elem n accum s v : (s, v) ∈ result n accum ↔ s = accum ∧ node_value n = Some v.
Proof.
  unfold result. destruct (node_value n); [rewrite list_elem_of_singleton; naive_solver|]. split; [by intros ?%elem_of_nil|naive_solver].
Qed.
Lemma subsets_loop_spec it : ∀ n accum, is_set (accum ++ it) → ∀ s v,
  (s, v) ∈ subsets_loop it n accum ↔ ∃ k path, s = accum ++ k :: path ∧ (k :: path) `sublist_of` it ∧ lookup (k :: path) n = Some v.
Proof.
  induction it as [|elt it IH]; intros n accum Hset s v; cbn.
  { split; [by intros ?%elem_of_nil|]. intros (k & path & _ & H%sublist_nil_r & _). done. }
  assert (H1 : is_set (accum ++ it)). { eapply is_set_sublist; [|exact Hset]. apply sublist_app; [done|by apply sublist_cons]. }
  assert (H2 : set_insert elt accum = accum ++ [elt]).
  { apply set_insert_last. intros x Hx. clear -Hset Hx. induction accum as [|y acc IHa]; [by apply elem_of_nil in Hx|].
    cbn in Hset. apply is_set_cons in Hset as [Hs Hy]. apply elem_of_cons in Hx as [->|Hx]; [|by apply IHa]. apply Hy, elem_of_app. right. by left. }
  rewrite elem_of_app, (IH n accum H1). split.
  - intros [H|(k & path & -> & Hsub & Hl)]; [|exists k, path; split_and!; [done|by apply sublist_cons|done]].
    destruct (child elt (node_children n)) as [c|] eqn:Ec; [|by apply elem_of_nil in H]. rewrite H2 in H.
    apply elem_of_app in H as [[-> Hv]%result_elem|H].
    + exists elt, []. cbn. rewrite Ec. split_and!; [done|apply sublist_skip, sublist_nil_l|done].
    + apply IH in H as (k & path & -> & Hsub & Hl); [|by rewrite <- app_assoc]. exists elt, (k :: path). cbn [lookup]. rewrite Ec.
      split_and!; [by rewrite <- app_assoc|by apply sublist_skip|done].
  - intros (k & path & -> & Hsub & Hl). apply sublist_cons_r in Hsub as [Hsub|(path' & [= -> ->] & Hsub)]; [right; by exists k, path|].
    left. cbn in Hl. destruct (child elt (node_children n)) as [c|] eqn:Ec; [|done]. rewrite H2. apply elem_of_app. destruct path' as [|k path]; cbn in Hl.
    + left. by apply result_elem.
    + right. apply IH; [by rewrite <- app_assoc|]. exists k, path. rewrite <- app_assoc. done.
Qed.
Lemma subsets_exact b root set s v : node_ok b root → is_set set →
  (s, v) ∈ subsets set root ↔ s ⊆ set ∧ lookup s root = Some v.
Proof.
  intros Hr Hset. unfold subsets, findSubsets. rewrite elem_of_app, result_elem, subsets_loop_spec by done. split.
  - intros [[-> Hv]|(k & path & -> & Hsub & Hl)]; [split; [by intros ? ?%elem_of_nil|done]|]. split; [by apply sublist_subseteq|done].
  - intros [Hsub Hl]. destruct s as [|k s]; [by left|right]. exists k, s. split_and!; [done| |done].
    apply sublist_is_subset; [by eapply lookup_sorted|done|done].
Qed.

(** ** All supersets *)
(** The path to a node is below its children. *)
Definition path_below (accum : list K) (b : option K) : Prop := ∀ x k, x ∈ accum → above b k → key_lt x k = true.
Lemma path_below_child accum b k : path_below accum b → above b k → set_insert k accum = accum ++ [k] ∧ path_below (accum ++ [k]) (Some k).
Proof.
  intros H Hk. split; [apply set_insert_last; intros; by apply H|]. intros x k' [Hx| ->%list_elem_of_singleton]%elem_of_app Hk'; [|done].
  eapply key_trans; [by apply H|done].
Qed.
(** What is left to find below a child. *)
Lemma rest_subset k it path : is_set it → is_set (k :: path) → it ⊆ k :: path →
  match it with [] => True | x :: next => (x = k ∧ next ⊆ path) ∨ (key_lt k x = true ∧ it ⊆ path) end.
Proof.
  destruct it as [|x next]; [done|]. intros [Hn Hx]%is_set_cons [Hp Hk]%is_set_cons Hsub.
  destruct (decide (x = k)) as [->|Hne].
  - left. split; [done|]. intros y Hy. specialize (Hsub y ltac:(by right)). apply elem_of_cons in Hsub as [->|?]; [|done]. by apply Hx, lt_irrefl in Hy.
  - right. assert (Hxp : x ∈ path). { specialize (Hsub x ltac:(by left)). apply elem_of_cons in Hsub as [?|?]; done. }
    split; [by apply Hk|]. intros y Hy. pose proof (Hsub y Hy) as Hin. apply elem_of_cons in Hin as [->|?]; [|done].
    apply elem_of_cons in Hy as [?|Hy]; [done|]. exfalso. apply (lt_irrefl k). eapply key_trans; [by apply Hk|by apply Hx].
Qed.
Lemma lookup_path_cons v cs k path w : lookup (k :: path) (mkNode v cs) = Some w → ∃ c, child k cs = Some c ∧ lookup path c = Some w.
Proof. cbn. destruct (child k cs) as [c|]; [by exists c|done]. Qed.

Section LoopLemmas.
Context {A : Type}.
Lemma each_child_elem (f : K → Node → list A) cs x : x ∈ each_child f cs ↔ ∃ k c, (k, c) ∈ cs ∧ x ∈ f k c.
Proof.
  induction cs as [|[k c] cs IH]; cbn; [split; [by intros ?%elem_of_nil|by intros (? & ? & ?%elem_of_nil & _)]|]. rewrite elem_of_app, IH. set_solver.
Qed.
Lemma children_until_elem elt (equal less : K → Node → list A) cs x : sorted_children cs →
  x ∈ children_until elt equal less cs ↔ ∃ k c, (k, c) ∈ cs ∧ (k = elt ∧ x ∈ equal k c ∨ key_lt k elt = true ∧ x ∈ less k c).
Proof.
  induction 1 as [|[k c] cs Hs IH Hall]; cbn; [split; [by intros ?%elem_of_nil|by intros (? & ? & ?%elem_of_nil & _)]|].
  rewrite Forall_forall in Hall. destruct (decide (elt = k)) as [->|Hne]; [|destruct (key_lt k elt) eqn:E].
  - rewrite elem_of_app, IH. split; [set_solver|]. intros (k' & c' & [[= -> ->]|H]%elem_of_cons & [[? ?]|[Hl ?]]); [by left|by apply lt_irrefl in Hl|..].
    + right. exists k', c'. auto.
    + right. exists k', c'. auto.
  - rewrite elem_of_app, IH. split; [|set_solver]. intros [Hx|?]; [exists k, c; split; [by left|auto]|set_solver].
  - split; [by intros ?%elem_of_nil|]. assert (Hlt : key_lt elt k = true) by (destruct (key_total elt k) as [?|[?|?]]; congruence).
    intros (k' & c' & Hin & Hor). exfalso. assert (Hk' : key_lt elt k' = true).
    { apply elem_of_cons in Hin as [[= -> ->]|Hin]; [done|]. eapply key_trans; [exact Hlt|]. by apply (Hall _ Hin). }
    destruct Hor as [[-> _]|[Hl _]]; [by apply lt_irrefl in Hk'|]. by rewrite (lt_asym _ _ Hk') in Hl.
Qed.
Lemma first_child_some (f : Node → option A) cs r : first_child f cs = Some r → ∃ k c, (k, c) ∈ cs ∧ f c = Some r.
Proof. induction cs as [|[k c] cs IH]; cbn; [done|]. destruct (f c) eqn:E; [intros [= ->]; set_solver|intros H; destruct (IH H) as (? & ? & ? & ?); set_solver]. Qed.
Lemma first_child_none (f : Node → option A) cs : first_child f cs = None → ∀ k c, (k, c) ∈ cs → f c = None.
Proof.
  induction cs as [|[k c] cs IH]; cbn; [by intros _ ? ? ?%elem_of_nil|]. destruct (f c) eqn:E; [done|].
  intros H k' c' [[= -> ->]|?]%elem_of_cons; [done|by eapply IH].
Qed.
Lemma child_at_child (f : Node → option A) x cs : sorted_children cs → child_at f x cs = child x cs ≫= f.
Proof.
  induction 1 as [|[k c] cs Hs IH Hall]; cbn; [done|]. destruct (key_lt k x) eqn:E; [by rewrite decide_False by (by apply lt_neq)|].
  destruct (decide (x = k)) as [->|Hne]; [by rewrite decide_True|]. rewrite decide_False by congruence.
  destruct (child x cs) as [c'|] eqn:Ec; [|done]. apply child_elem in Ec. rewrite Forall_forall in Hall. specialize (Hall _ Ec). cbn in Hall. congruence.
Qed.

(** Where a child and an element meet. *)
Definition meets (cs : list (K * Node)) (it : list K) (c : Node) (next : list K) : Prop := ∃ k pre, (k, c) ∈ cs ∧ it = pre ++ k :: next.
Lemma merge_children_spec (f : Node → list K → option A) cs : sorted_children cs → ∀ it, is_set it →
  match merge_children f cs it with
  | Some r => ∃ c next, meets cs it c next ∧ f c next = Some r
  | None => ∀ c next, meets cs it c next → f c next = None
  end.
Proof.
  induction 1 as [|[k c] cs Hs IH Hall]; intros it Hit; cbn; [by intros ? ? (? & ? & ?%elem_of_nil & _)|].
  rewrite Forall_forall in Hall. induction it as [|x next IHit]; [by intros ? ? (? & pre & _ & Hp%symmetry%app_eq_nil); destruct Hp|].
  pose proof Hit as [Hnext Hx]%is_set_cons. specialize (IHit Hnext).
  assert (Hweak : ∀ c' n', meets ((k, c) :: cs) next c' n' → meets ((k, c) :: cs) (x :: next) c' n').
  { intros c' n' (k' & pre & Hk' & ->). exists k', (x :: pre). done. }
  assert (Hinv : ∀ c' n', meets ((k, c) :: cs) (x :: next) c' n' → meets ((k, c) :: cs) next c' n' ∨ ((x, c') ∈ (k, c) :: cs ∧ n' = next)).
  { intros c' n' (k' & [|y pre] & Hk' & [= -> ->]); [by right|left; by exists k', pre]. }
  destruct (key_lt k x) eqn:E; [|destruct (key_lt x k) eqn:E'].
  - specialize (IH (x :: next) Hit). assert (Hk : ∀ c' n', meets ((k, c) :: cs) (x :: next) c' n' → meets cs (x :: next) c' n').
    { intros c' n' (k' & pre & [[= -> ->]|Hk']%elem_of_cons & Ep); [|by exists k', pre]. exfalso. apply (lt_irrefl k).
      assert (Hin : k ∈ x :: next) by (rewrite Ep; apply elem_of_app; right; by left).
      apply elem_of_cons in Hin as [->|Hin]; [done|]. eapply key_trans; [exact E|by apply Hx]. }
    destruct (merge_children f cs (x :: next)) as [r|]; [|intros c' n' H; by apply IH, Hk].
    destruct IH as (c' & n' & (k' & pre & Hk' & Ep) & Hf). exists c', n'. split; [exists k', pre; split; [by right|done]|done].
  - assert (Hno : ∀ c' n', meets ((k, c) :: cs) (x :: next) c' n' → meets ((k, c) :: cs) next c' n').
    { intros c' n' [?|[[[= -> ->]|Hin]%elem_of_cons ->]]%Hinv; [done|by apply lt_irrefl in E'|]. specialize (Hall _ Hin). cbn in Hall. congruence. }
    match goal with |- match ?m with _ => _ end => destruct m as [r|]; [|intros c' n' H; by apply IHit, Hno] end.
    destruct IHit as (c' & n' & Hm & Hf). exists c', n'. split; [by apply Hweak|done].
  - assert (x = k) as -> by (destruct (key_total x k) as [?|[?|?]]; congruence).
    destruct (f c next) as [r|] eqn:Ef; [exists c, next; split; [exists k, []; split; [by left|done]|done]|].
    match goal with |- match ?m with _ => _ end => destruct m as [r|] end; [destruct IHit as (c' & n' & Hm & Hf); exists c', n'; split; [by apply Hweak|done]|].
    intros c' n' [?|[[[= ->]|Hin]%elem_of_cons ->]]%Hinv; [by apply IHit|done|]. specialize (Hall _ Hin). cbn in Hall. by apply lt_irrefl in Hall.
Qed.
End LoopLemmas.

(** A path that starts at a child. *)
Lemma lookup_child b v0 cs k c path v : node_ok b (mkNode v0 cs) → (k, c) ∈ cs → lookup (k :: path) (mkNode v0 cs) = Some v ↔ lookup path c = Some v.
Proof. intros Hn Hk. inversion Hn as [? ? ? Hs _]; subst. cbn. by rewrite (elem_child k c cs). Qed.
Lemma child_path_sorted b v0 cs k c path v : node_ok b (mkNode v0 cs) → (k, c) ∈ cs → lookup path c = Some v → is_set (k :: path).
Proof. intros Hn Hk Hl. eapply (lookup_sorted (k :: path)); [exact Hn|]. by eapply lookup_child. Qed.

Lemma findSupersets_spec n : ∀ b accum it, node_ok b n → path_below accum b → is_set it → ∀ s v,
  (s, v) ∈ findSupersets n accum it ↔ ∃ path, s = accum ++ path ∧ it ⊆ path ∧ lookup path n = Some v.
Proof.
  induction n as [v0 cs IH] using Node_induction. intros b accum it Hn Hb Hit s v. inversion Hn as [? ? ? Hs Hall]; subst.
  rewrite Forall_forall in IH, Hall.
  assert (Hsub : ∀ k c it', (k, c) ∈ cs → is_set it' → (s, v) ∈ findSupersets c (set_insert k accum) it' ↔
    ∃ path, s = accum ++ k :: path ∧ it' ⊆ path ∧ lookup path c = Some v).
  { intros k c it' Hc Hit'. destruct (Hall _ Hc) as [Ha Hok]. destruct (path_below_child accum b k Hb Ha) as [-> Hb'].
    rewrite (IH _ Hc _ _ _ Hok Hb' Hit'). split; intros (path & -> & H); exists path; by rewrite <- app_assoc. }
  destruct it as [|elt next]; cbn [findSupersets].
  - rewrite elem_of_app, result_elem, each_child_elem. cbn [node_value]. split.
    + intros [[-> ->]|(k & c & Hk & (path & -> & _ & Hl)%Hsub)]; [exists []; rewrite app_nil_r; by split_and!| |done|done].
      exists (k :: path). split_and!; [done|by intros ? ?%elem_of_nil|]. by eapply lookup_child.
    + intros ([|k path] & -> & _ & Hl); [left; by rewrite app_nil_r|right]. apply lookup_path_cons in Hl as (c & Hc%child_elem & Hl).
      exists k, c. split; [done|]. apply Hsub; [done..|]. exists path. split_and!; [done|by intros ? ?%elem_of_nil|done].
  - rewrite children_until_elem by done. pose proof Hit as [Hnext Helt]%is_set_cons. split.
    + intros (k & c & Hk & [[-> (path & -> & Hi & Hl)%Hsub]|[Hlt (path & -> & Hi & Hl)%Hsub]]); try done.
      * exists (elt :: path). split_and!; [done|set_solver|by eapply lookup_child].
      * exists (k :: path). split_and!; [done|set_solver|by eapply lookup_child].
    + intros ([|k path] & -> & Hi & Hl); [by specialize (Hi elt ltac:(by left)); apply elem_of_nil in Hi|].
      apply lookup_path_cons in Hl as (c & Hc%child_elem & Hl). exists k, c. split; [done|].
      destruct (rest_subset k (elt :: next) path Hit (child_path_sorted _ _ _ _ _ _ _ Hn Hc Hl) Hi) as [[-> ?]|[? ?]].
      * left. split; [done|]. apply Hsub; [done..|]. by exists path.
      * right. split; [done|]. apply Hsub; [done..|]. by exists path.
Qed.
Lemma supersets_exact b root set s v : node_ok b root → is_set set → (s, v) ∈ supersets set root ↔ set ⊆ s ∧ lookup s root = Some v.
Proof.
  intros Hr Hset. unfold supersets. rewrite (findSupersets_spec root b); [|done|by intros ? ? ?%elem_of_nil|done]. split; [intros (path & -> & H); done|].
  intros [? ?]. by exists s.
Qed.

(** ** One subset, one superset *)
Section SearchSpec.
Context (p : V → bool).
(** A search over the paths that satisfy [Q]: what it finds is accepted and at such a path; when it finds nothing,
    no such path has an accepted value. *)
Definition finds (Q : list K → Prop) (n : Node) (r : option V) : Prop :=
  match r with
  | Some v => p v = true ∧ ∃ path, Q path ∧ lookup path n = Some v
  | None => ∀ path v, Q path → lookup path n = Some v → p v = false
  end.
Lemma accepted_spec n : match accepted p n with Some v => p v = true ∧ lookup [] n = Some v | None => ∀ v, lookup [] n = Some v → p v = false end.
Proof. unfold accepted. destruct n as [[v|] cs]; cbn; [|done]. destruct (p v) eqn:E; [done|]. by intros ? [= <-]. Qed.

Lemma findSubset_spec n : ∀ b it, node_ok b n → is_set it → finds (λ path, path `sublist_of` it) n (findSubset p n it).
Proof.
  induction n as [v0 cs IH] using Node_induction. intros b it Hn Hit. inversion Hn as [? ? ? Hs Hall]; subst. rewrite Forall_forall in IH, Hall.
  cbn [findSubset]. pose proof (accepted_spec (mkNode v0 cs)) as Ha. destruct (accepted p (mkNode v0 cs)) as [v|].
  { destruct Ha as [? ?]. split; [done|]. exists []. split; [apply sublist_nil_l|done]. }
  assert (Hbelow : ∀ k c pre next, (k, c) ∈ cs → it = pre ++ k :: next → finds (λ path, path `sublist_of` next) c (findSubset p c next)).
  { intros k c pre next Hk ->. apply (IH (k, c) Hk (Some k)); [by apply (Hall _ Hk)|].
    eapply is_set_sublist; [|exact Hit]. apply sublist_inserts_l, sublist_cons, reflexivity. }
  pose proof (merge_children_spec (findSubset p) cs Hs it Hit) as Hm. destruct (merge_children (findSubset p) cs it) as [v|].
  - destruct Hm as (c & next & (k & pre & Hk & Ep) & Ef). pose proof (Hbelow k c pre next Hk Ep) as Hf. rewrite Ef in Hf.
    destruct Hf as (? & path & Hsub & Hl). split; [done|]. exists (k :: path). split; [|by eapply lookup_child].
    rewrite Ep. by apply sublist_inserts_l, sublist_skip.
  - intros [|k path] v Hsub Hl; [by apply Ha|]. apply lookup_path_cons in Hl as (c & Hc%child_elem & Hl).
    apply sublist_cons_l in Hsub as (pre & next & Ep & Hsub). pose proof (Hbelow k c pre next Hc Ep) as Hf.
    rewrite (Hm c next) in Hf by (by exists k, pre). by eapply Hf.
Qed.

Lemma findSuperset_spec n : ∀ b it, node_ok b n → is_set it → finds (λ path, it ⊆ path) n (findSuperset p n it).
Proof.
  induction n as [v0 cs IH] using Node_induction. intros b it Hn Hit. inversion Hn as [? ? ? Hs Hall]; subst. rewrite Forall_forall in IH, Hall.
  assert (Hbelow : ∀ k c it', (k, c) ∈ cs → is_set it' → finds (λ path, it' ⊆ path) c (findSuperset p c it')).
  { intros k c it' Hk Hit'. apply (IH (k, c) Hk (Some k)); [by apply (Hall _ Hk)|done]. }
  assert (Hany : match first_child (λ c, findSuperset p c it) cs with
    | Some v => p v = true ∧ ∃ path, it ⊆ path ∧ lookup path (mkNode v0 cs) = Some v
    | None => ∀ k c path v, (k, c) ∈ cs → it ⊆ path → lookup path c = Some v → p v = false end).
  { destruct (first_child _ cs) as [v|] eqn:E.
    - apply first_child_some in E as (k & c & Hk & Ef). pose proof (Hbelow k c it Hk Hit) as Hf. rewrite Ef in Hf. destruct Hf as (? & path & Hi & Hl).
      split; [done|]. exists (k :: path). split; [set_solver|by eapply lookup_child].
    - intros k c path v Hk Hi Hl. pose proof (Hbelow k c it Hk Hit) as Hf. rewrite (first_child_none _ _ E k c Hk) in Hf. by eapply Hf. }
  cbn [findSuperset]. destruct it as [|x next].
  - pose proof (accepted_spec (mkNode v0 cs)) as Ha. destruct (accepted p (mkNode v0 cs)) as [v|]; [destruct Ha; split; [done|]; by exists []|].
    destruct (first_child _ cs); [exact Hany|]. intros [|k path] v Hi Hl; [by apply Ha|].
    apply lookup_path_cons in Hl as (c & Hc%child_elem & Hl). eapply Hany; [exact Hc| |exact Hl]. by intros ? ?%elem_of_nil.
  - destruct (first_child _ cs); [exact Hany|]. pose proof Hit as [Hnext _]%is_set_cons. rewrite child_at_child by done.
    assert (Hrest : ∀ k c path v, (k, c) ∈ cs → x :: next ⊆ k :: path → lookup path c = Some v → k ≠ x → p v = false).
    { intros k c path v Hk Hi Hl Hne. eapply Hany; [exact Hk| |exact Hl].
      destruct (rest_subset k (x :: next) path Hit (child_path_sorted _ _ _ _ _ _ _ Hn Hk Hl) Hi) as [[? _]|[_ ?]]; [congruence|done]. }
    destruct (child x cs) as [c|] eqn:Ec; cbn.
    + apply child_elem in Ec. pose proof (Hbelow x c next Ec Hnext) as Hf. destruct (findSuperset p c next) as [v|].
      * destruct Hf as (? & path & Hi & Hl). split; [done|]. exists (x :: path). split; [set_solver|by eapply lookup_child].
      * intros [|k path] v Hi Hl; [by specialize (Hi x ltac:(by left)); apply elem_of_nil in Hi|]. apply lookup_path_cons in Hl as (c' & Hc' & Hl).
        destruct (decide (k = x)) as [->|Hne]; [|eapply Hrest; [by apply child_elem in Hc'|done..]].
        rewrite (elem_child x c cs Hs Ec) in Hc'. injection Hc' as <-. eapply Hf; [|exact Hl].
        by destruct (rest_subset x (x :: next) path Hit (child_path_sorted _ _ _ _ _ _ _ Hn Ec Hl) Hi) as [[_ ?]|[?%lt_irrefl _]].
    + intros [|k path] v Hi Hl; [by specialize (Hi x ltac:(by left)); apply elem_of_nil in Hi|]. apply lookup_path_cons in Hl as (c' & Hc' & Hl).
      eapply Hrest; [by apply child_elem in Hc'|done..|]. congruence.
Qed.
End SearchSpec.

(** ** The map *)
(** A map after some insertions, and the value a set was given last. *)
Definition filled (ins : list (list K * V)) : Node := foldl (λ n x, insert x.1 x.2 n) new_Node ins.
Definition last_value (s : list K) (ins : list (list K * V)) : option V := foldl (λ m x, if decide (x.1 = s) then Some x.2 else m) None ins.
Lemma filled_spec ins : Forall (λ x, is_set x.1) ins → node_ok None (filled ins) ∧ ∀ s, lookup s (filled ins) = last_value s ins.
Proof.
  unfold filled, last_value. induction ins as [|[s v] ins IH] using rev_ind; [split; [apply new_node_ok|intros; apply lookup_new]|].
  intros [Hi [Hs _]%Forall_cons]%Forall_app. destruct (IH Hi) as [Hok Hl]. rewrite foldl_snoc. cbn in *. split; [apply insert_ok; [exact Hok|exact Hs|by intros]|].
  intros s'. rewrite foldl_snoc, (lookup_insert s v None) by done. cbn. by rewrite Hl.
Qed.

(** C20: (refinement) A map from sets refines the finite map that its insertions make.  After any sequence of insertions of
    sets, [lookup] returns the value a set was given last; [subsets] and [supersets] list exactly the sets that were given
    a value and are contained in, or contain, the given one; [findSubset] and [findSuperset] return an accepted value of such a
    set, and nothing only if there is none. *)
Theorem map_of_sets_refines (ins : list (list K * V)) (set : list K) (p : V → bool) : Forall (λ x, is_set x.1) ins → is_set set →
  let root := filled ins in
  let M := λ s, last_value s ins in
  (∀ s, lookup s root = M s) ∧
  (∀ s v, (s, v) ∈ subsets set root ↔ s ⊆ set ∧ M s = Some v) ∧
  (∀ s v, (s, v) ∈ supersets set root ↔ set ⊆ s ∧ M s = Some v) ∧
  match findSubset p root set with
  | Some v => p v = true ∧ ∃ s, s ⊆ set ∧ M s = Some v
  | None => ∀ s v, s ⊆ set → M s = Some v → p v = false
  end ∧
  match findSuperset p root set with
  | Some v => p v = true ∧ ∃ s, set ⊆ s ∧ M s = Some v
  | None => ∀ s v, set ⊆ s → M s = Some v → p v = false
  end.
Proof.
  intros Hins Hset root M. destruct (filled_spec ins Hins) as [Hok Hl]. fold root in Hok, Hl. split_and!.
  - done.
  - intros s v. rewrite (subsets_exact None) by done. by rewrite Hl.
  - intros s v. rewrite (supersets_exact None) by done. by rewrite Hl.
  - pose proof (findSubset_spec p root None set Hok Hset) as H. destruct (findSubset p root set) as [v|].
    + destruct H as (? & s & Hs & Hv). split; [done|]. exists s. unfold M. rewrite <- Hl. split; [by apply sublist_subseteq|done].
    + intros s v Hs Hv. unfold M in Hv. rewrite <- Hl in Hv. eapply H; [|exact Hv]. apply sublist_is_subset; [by eapply lookup_sorted|done|done].
  - pose proof (findSuperset_spec p root None set Hok Hset) as H. destruct (findSuperset p root set) as [v|].
    + destruct H as (? & s & Hs & Hv). split; [done|]. exists s. unfold M. by rewrite <- Hl.
    + intros s v Hs Hv. unfold M in Hv. rewrite <- Hl in Hv. by eapply H.
Qed.
End MapOfSets.
Arguments Node : clear implicits.
Abbreviation is_set := (StronglySorted (λ a b, key_lt a b = true)).

(** Numbers as keys. *)
#[global, program] Instance Z_order : TotalOrder Z := {| key_lt := Z.ltb |}.
Solve Obligations with (intros; rewrite ?Z.ltb_lt, ?Z.ltb_ge in *; lia).
Lemma map_of_sets_refines_witness :
  let ins := [([1; 3], 10); ([2], 20); ([1; 2; 3], 30); ([2], 21)] in
  subsets [1; 2; 4] (filled ins) = [([2], 21)] ∧ (([1; 2; 3], 30) : list Z * Z) ∈ supersets [3] (filled ins) ∧
  findSuperset (λ v, 15 <? v) (filled ins) [3] = Some 30.
Proof.
  intros ins. split; [vm_compute; reflexivity|].
  assert (H : Forall (λ x, is_set x.1) ins) by (repeat constructor). assert (H3 : is_set [3]) by (repeat constructor).
  destruct (map_of_sets_refines ins [3] (λ v, 15 <? v) H H3) as (_ & _ & Hsup & _). split; [|vm_compute; reflexivity].
  apply Hsup. split; [intros x ->%list_elem_of_singleton; right; right; by left|vm_compute; reflexivity].
Defined.
