(* ===== verification/Evaluator.v ===== *)
(** * Evaluation of expressions

    src/klee/lib/Expr/ExprEvaluator.cpp and src/klee/include/klee/util/Assignment.h: the visitor that evaluates an
    expression from the initial bytes of its arrays, and assignments of bytes to arrays.  The bytes come from
    [getInitialValue], which may leave a byte open.

    Recursion runs on fuel, the weight of the expression. *)
From S2P Require Import Prelude Expr ExprCreate ExprWeight Memory AddressSpace Visitor Compare.

Inductive Action : Type := SkipChildren | DoChildren | ChangeTo (argument : Expr).

Section Evaluator.
Context `{HA : !APInt, HC : !ExprCompare} (ConstArrayOpt UseVisitorHash : bool) (getInitialValue : Array → Z → res Expr).

Section Actions.
Context (visit : Expr → M visited_ty Expr).

(** The updates from the most recent on, [un]. *)
Fixpoint evalRead (root : Array) (un : UpdateList) (index : Z) : M visited_ty Action :=
  match un with
  | UNode i v next =>
    ui ← visit i;
    match ui with
    | Constant w c =>
      x ← lift_res (getZExtValue 64 w c);
      if x =? index then r ← visit v; mret (ChangeTo r) else evalRead root next index
    | _ => r ← lift_res (ReadExpr_make ConstArrayOpt root un (Constant_alloc index Int32)); mret (ChangeTo r)
    end
  | UNil =>
    if negb (isSymbolicArray root) && (index <? arr_size root) then
      match constantValues root !! Z.to_nat index with Some v => mret (ChangeTo (Constant Int8 v)) | None => halt MemoryError end
    else v ← lift_res (getInitialValue root index); mret (ChangeTo v)
  end.
Definition visitRead (root : Array) (ul : UpdateList) (index : Expr) : M visited_ty Action :=
  v ← visit index;
  match v with
  | Constant w c => x ← lift_res (getZExtValue 64 w c); evalRead root ul (u32 x)
  | _ => mret DoChildren
  end.

Definition ev_visitExpr (e : Expr) : M visited_ty Action :=
  match e with
  | Read _ _ _ => mret DoChildren
  | _ => if forallb isa_Constant (kids e) then r ← lift_res (rebuild ConstArrayOpt e (kids e)); mret (ChangeTo r) else mret DoChildren
  end.

Definition protectedDivOperation (k : ArithKind) (left right : Expr) : M visited_ty Action :=
  k0 ← visit left; k1 ← visit right;
  k1 ← match k1 with
       | Constant w c => z ← lift_res (isZero w c); mret (if (z : bool) then right else k1)
       | _ => mret k1
       end;
  if negb (same k0 left) || negb (same k1 right) then
    r ← lift_res (rebuild ConstArrayOpt (Arith k left right) [k0; k1]); mret (ChangeTo r)
  else mret SkipChildren.

(** The function for the kind of the expression. *)
Definition ev_visitKind (e : Expr) : M visited_ty Action :=
  match e with
  | Read root ul index => visitRead root ul index
  | Arith k l r => if is_division k then protectedDivOperation k l r else mret DoChildren
  | _ => mret DoChildren
  end.

Definition ev_visitActual (e : Expr) : M visited_ty Expr :=
  if isa_Constant e then mret e
  else
    res ← ev_visitExpr e;
    match res with
    | ChangeTo r => mret r
    | SkipChildren => mret e
    | DoChildren =>
      res ← ev_visitKind e;
      match res with
      | ChangeTo r => mret r
      | SkipChildren => mret e
      | DoChildren =>
        ks ← visit_kids visit (kids e);
        if any_changed ks (kids e) then lift_res (rebuild ConstArrayOpt e ks) else mret e
      end
    end.
End Actions.

Fixpoint ev_visit (fuel : nat) (e : Expr) : M visited_ty Expr :=
  match fuel with
  | Datatypes.O => halt NoFuel
  | Datatypes.S fuel =>
    if negb UseVisitorHash || isa_Constant e then ev_visitActual (ev_visit fuel) e
    else
      t ← get;
      match table_find e t with
      | Some r => mret r
      | None => r ← ev_visitActual (ev_visit fuel) e; modify (table_insert e r);; mret r
      end
  end.
Definition evaluator_visit (e : Expr) : M visited_ty Expr := ev_visit (visit_fuel e) e.
(** A fresh visitor. *)
Definition fresh {A} (m : M visited_ty A) : res A := λ u, match m [] with Done r _ => Done r u | Halt x _ => Halt x u end.

(** [e->isTrue()] and [e->isFalse()]. *)
Definition Expr_isTrue (e : Expr) : res bool :=
  c_assert (getWidth e =? Bool);; match e with Constant w v => isTrue w v | _ => mret false end.
Definition Expr_isFalse (e : Expr) : res bool :=
  c_assert (getWidth e =? Bool);; match e with Constant w v => isFalse w v | _ => mret false end.
End Evaluator.

(** ** Assignments *)
(** [bindings] in order of the addresses. *)
Definition bindings_ty : Type := list (Array * list Z).
Record Assignment := mkAssignment { allowFreeValues : bool; bindings : bindings_ty }.

Section Assignment.
Context `{HA : !APInt, HC : !ExprCompare, HAd : !Addresses} (ConstArrayOpt UseVisitorHash : bool).

Fixpoint binding (a : Array) (bs : bindings_ty) : option (list Z) :=
  match bs with [] => None | (a', v) :: bs => if addr a' =? addr a then Some v else binding a bs end.
(** [insert] leaves a binding that is there. *)
Fixpoint bind (a : Array) (v : list Z) (bs : bindings_ty) : bindings_ty :=
  match bs with
  | [] => [(a, v)]
  | (a', v') :: bs' => if addr a <? addr a' then (a, v) :: bs else if addr a' =? addr a then bs else (a', v') :: bind a v bs'
  end.
Fixpoint bind_all (objects : list Array) (values : list (list Z)) (bs : bindings_ty) : res bindings_ty :=
  match objects, values with
  | [], _ => mret bs
  | a :: objects, v :: values => bind_all objects values (bind a v bs)
  | _ :: _, [] => halt MemoryError
  end.
(** [Assignment(objects, values)]. *)
Definition new_Assignment (objects : list Array) (values : list (list Z)) : res Assignment :=
  bs ← bind_all objects values []; mret (mkAssignment false bs).

Definition Assignment_byte (a : Assignment) (array : Array) (index : Z) : res Expr :=
  match binding array (bindings a) ≫= (λ v, v !! Z.to_nat index) with
  | Some x => mret (Constant_alloc x Int8)
  | None =>
    if allowFreeValues a then ReadExpr_make ConstArrayOpt array UNil (Constant_alloc index Int32)
    else mret (Constant_alloc 0 Int8)
  end.
Definition Assignment_visit (a : Assignment) : Expr → M visited_ty Expr := evaluator_visit ConstArrayOpt UseVisitorHash (Assignment_byte a).
Definition Assignment_evaluate (a : Assignment) (e : Expr) : res Expr := fresh (Assignment_visit a e).
(** One visitor for all the expressions. *)
Fixpoint Assignment_satisfies_loop (a : Assignment) (es : list Expr) : M visited_ty bool :=
  match es with
  | [] => mret true
  | e :: es => r ← Assignment_visit a e; t ← lift_res (Expr_isTrue r); if (t : bool) then Assignment_satisfies_loop a es else mret false
  end.
Definition Assignment_satisfies (a : Assignment) (es : list Expr) : res bool := fresh (Assignment_satisfies_loop a es).
End Assignment.
