(* ===== verification/EvaluatorSpec.v ===== *)
(** * What evaluation returns

    An evaluator returns on every expression without division by the constant 0, with an expression that has the value of
    the visited one under all assignments its initial bytes stand for.  When all bytes are given and nothing is marked as
    not to be optimised, the result is the constant that the expression evaluates to. *)
From S2P Require Import Prelude Expr ExprCreate ExprRefine ExprSums ExprSpec ExprBuild ExprWeight Memory AddressSpace Visitor VisitorSpec Compare Evaluator.

(** ** Expressions that can be evaluated *)
(** No division by the constant 0. *)
Fixpoint nonzero_divisors (e : Expr) : bool :=
  match e with
  | Constant _ _ => true
  | NotOptimized s | Extract s _ _ | ZExt s _ | SExt s _ | Not s => nonzero_divisors s
  | Read _ ul i => nonzero_divisors_updates ul && nonzero_divisors i
  | Select c t f => nonzero_divisors c && nonzero_divisors t && nonzero_divisors f
  | Concat l r | Cmp _ l r => nonzero_divisors l && nonzero_divisors r
  | Arith k l r =>
    nonzero_divisors l && nonzero_divisors r && negb (is_division k && match r with Constant _ v => v =? 0 | _ => false end)
  end
with nonzero_divisors_updates (ul : UpdateList) : bool :=
  match ul with UNil => true | UNode i v next => nonzero_divisors i && nonzero_divisors v && nonzero_divisors_updates next end.
(** No [NotOptimized]. *)
Fixpoint plain (e : Expr) : bool :=
  match e with
  | Constant _ _ => true
  | NotOptimized _ => false
  | Extract s _ _ | ZExt s _ | SExt s _ | Not s => plain s
  | Read _ ul i => plain_updates ul && plain i
  | Select c t f => plain c && plain t && plain f
  | Concat l r | Cmp _ l r | Arith _ l r => plain l && plain r
  end
with plain_updates (ul : UpdateList) : bool :=
  match ul with UNil => true | UNode i v next => plain i && plain v && plain_updates next end.

Definition ready_expr (e : Expr) : Prop := wf e ∧ narrow e ∧ nonzero_divisors e = true.
Definition ready_updates (ul : UpdateList) : Prop := wf_updates ul ∧ narrow_updates ul ∧ nonzero_divisors_updates ul = true.
Ltac split_bools := repeat match goal with H : _ && _ = true |- _ => apply andb_true_iff in H as [? ?] end.
Lemma ready_kids e : ready_expr e → Forall ready_expr (kids e).
Proof. intros (Hw & Hn & Hz). destruct e; cbn in *; split_bools; destruct_and?; repeat constructor; try done. Qed.
Lemma ready_read a ul i : ready_expr (Read a ul i) → wf_array a ∧ ready_updates ul ∧ ready_expr i ∧ getWidth i = Int32.
Proof. intros (Hw & Hn & Hz). cbn in *. split_bools. destruct_and?. by split_and!. Qed.
Lemma ready_node i v next : ready_updates (UNode i v next) → ready_expr i ∧ ready_expr v ∧ getWidth i = Int32 ∧ getWidth v = Int8 ∧ ready_updates next.
Proof. intros (Hw & Hn & Hz). cbn in *. split_bools. destruct_and?. by split_and!. Qed.
Lemma plain_kids e : plain e = true → Forall (λ k, plain k = true) (kids e).
Proof. destruct e; cbn; intros; split_bools; repeat constructor; done. Qed.
Lemma defined_kids env e : is_Some (eval env e) → Forall (λ k, is_Some (eval env k)) (kids e).
Proof.
  intros [v Hv]. destruct e; cbn in *; repeat constructor;
    repeat match goal with H : context [eval env ?x ≫= _] |- _ => destruct (eval env x) eqn:?; cbn in H; [|done] end; by eauto.
Qed.

Section Spec.
Context `{HA : !APInt, HC : !ExprCompare} (CAO UVH : bool) (getInitialValue : Array → Z → res Expr).
(** [P]: the assignments the initial bytes stand for; [total]: they are all given. *)
Context (P : assignment → Prop) (env0 : assignment) (H0 : P env0) (total : Prop).

Definition initial_ok : Prop := ∀ a i, wf_array a → 0 ≤ i < 2 ^ 32 →
  ∃ r, getInitialValue a i tt = Done r tt ∧ wf r ∧ narrow r ∧ getWidth r = Int8 ∧
    (isSymbolicArray a = true → ∀ env, P env → eval env r = Some (u8 (env a i))) ∧ (total → isa_Constant r = true).
Context (HI : initial_ok).

Record evaluated (e r : Expr) : Prop := mkEvaluated {
  ev_wf : wf r; ev_narrow : narrow r; ev_width : getWidth r = getWidth e;
  ev_agrees env : P env → agrees env e r;
  ev_constant : total → plain e = true → is_Some (eval env0 e) → isa_Constant r = true
}.
Lemma evaluated_constant w v : wf (Constant w v) → evaluated (Constant w v) (Constant w v).
Proof. by split. Qed.

Definition evaluations (t : visited_ty) : Prop := ∀ k r, (k, r) ∈ t → evaluated k r.
(** A visit returns, with a good table. *)
Definition evaluates {A} (m : M visited_ty A) (Q : A → Prop) : Prop := ∀ t, evaluations t → ∃ r t', m t = Done r t' ∧ evaluations t' ∧ Q r.
Lemma evaluates_ret {A} (a : A) (Q : A → Prop) : Q a → evaluates (mret a) Q.
Proof. intros H t Ht. by exists a, t. Qed.
Lemma evaluates_bind {A B} (m : M visited_ty A) (k : A → M visited_ty B) (Q : A → Prop) (R : B → Prop) :
  evaluates m Q → (∀ a, Q a → evaluates (k a) R) → evaluates (m ≫= k) R.
Proof.
  intros Hm Hk t Ht. destruct (Hm t Ht) as (a & t1 & E & Ht1 & Ha). destruct (Hk a Ha t1 Ht1) as (b & t2 & E2 & H). exists b, t2. by rewrite (bind_done _ _ _ _ _ E).
Qed.
Lemma evaluates_lift {A B} (m : res A) a (k : A → M visited_ty B) R : m tt = Done a tt → evaluates (k a) R → evaluates (lift_res m ≫= k) R.
Proof. intros E Hk t Ht. destruct (Hk t Ht) as (b & t2 & E2 & H). exists b, t2. unfold mbind, M_bind, lift_res in *. by rewrite E. Qed.
Lemma evaluates_mono {A} (m : M visited_ty A) (Q R : A → Prop) : evaluates m Q → (∀ a, Q a → R a) → evaluates m R.
Proof. intros H HQ t Ht. destruct (H t Ht) as (a & t' & ? & ? & ?). exists a, t'. auto. Qed.

(** ** Rebuilding from evaluated kids *)
Lemma with_kids_evaluated e ks : wf e → narrow e → Forall2 evaluated (kids e) ks →
  wf (with_kids e ks) ∧ narrow (with_kids e ks) ∧ getWidth (with_kids e ks) = getWidth e ∧ ∀ env, P env → agrees env e (with_kids e ks).
Proof.
  intros We Ne H. assert (Ha : ∀ env, P env → agrees env e (with_kids e ks)).
  { intros env HP. apply with_kids_agrees. eapply Forall2_impl; [exact H|]. intros a b Hab. split; [by apply Hab|apply Hab]. }
  destruct e; cbn in H; inv_kids; cbn in We, Ne |- *; try done;
    repeat match goal with Hr : evaluated ?a ?b |- _ => destruct Hr as [? ? ? _ _] end; destruct_and?; split_and?; try done; try lia; congruence.
Qed.
(** Constants fold to a constant. *)
Definition folds (m : res Expr) : Prop := wlp m (λ r _, isa_Constant r = true) tt.
Lemma folds_ret r : isa_Constant r = true → folds (mret r).
Proof. intros. by apply wlp_ret. Qed.
Lemma folds_assert b m : folds m → folds (c_assert b;; m).
Proof. intros H. by apply small_assert. Qed.
Lemma folds_arith k w a b : folds (const_arith k w a b).
Proof. by apply folds_assert, folds_ret. Qed.
Lemma arith_folds k w a w' b : folds (arith_make CAO k (Constant w a) (Constant w' b)).
Proof. destruct k; apply folds_assert, folds_arith. Qed.
Lemma eq_folds w a w' b : folds (EqExpr_make CAO (Constant w a) (Constant w' b)).
Proof. by apply folds_assert, folds_ret. Qed.
Lemma cmp_folds k w a w' b : folds (cmp_make CAO k (Constant w a) (Constant w' b)).
Proof.
  destruct k; try (by apply folds_assert, folds_ret). cbn [cmp_make]. unfold NeExpr_make. apply const_create_wlp. intros v.
  apply wlp_bind. eapply wlp_mono; [apply eq_folds|]. intros [] [] H; try done. apply eq_folds.
Qed.
Lemma extract_folds w v off w' : folds (ExtractExpr_make (Constant w v) off w').
Proof. apply folds_assert. case_match; by apply folds_ret. Qed.
Lemma rebuild_folds e ks : Forall2 (λ _ _, True) (kids e) ks → plain e = true → (∀ a ul i, e ≠ Read a ul i) → Forall (λ k, isa_Constant k = true) ks →
  folds (rebuild CAO e ks).
Proof.
  intros H Hp Hr Hks. destruct e; cbn in H; inv_kids; try (by destruct (Hr root updates e)); try done;
    repeat match goal with Hf : Forall _ (_ :: _) |- _ => apply Forall_cons in Hf as [? Hf] end;
    repeat match goal with Hc : isa_Constant ?x = true |- _ => is_var x; destruct x; try discriminate Hc; clear Hc end; cbn [rebuild].
  - apply folds_assert, folds_assert, bind_any. intros []; by apply folds_ret.
  - by apply folds_ret.
  - apply extract_folds.
  - unfold ZExtExpr_make. repeat case_match; try (by apply folds_ret). apply extract_folds.
  - unfold SExtExpr_make. repeat case_match; try (by apply folds_ret). apply extract_folds.
  - by apply folds_ret.
  - apply arith_folds.
  - apply cmp_folds.
Qed.
(** A node built from evaluated kids. *)
Lemma rebuild_evaluated e ks : ready_expr e → isa_Constant e = false → Forall2 evaluated (kids e) ks → safe_division (with_kids e ks) →
  (total → plain e = true → is_Some (eval env0 e) → Forall (λ k, isa_Constant k = true) ks ∧ ∀ a ul i, e ≠ Read a ul i) →
  ∃ r, rebuild CAO e ks tt = Done r tt ∧ evaluated e r.
Proof.
  intros (Hw & Hn & _) Hc Hks Hsafe Hconst. destruct (with_kids_evaluated e ks Hw Hn Hks) as (Ww & Wn & Wl & Wa).
  assert (H2 : Forall2 (λ _ _, True) (kids e) ks) by (eapply Forall2_impl; [exact Hks|done]).
  destruct (rebuild_safe CAO e ks H2 Hc Ww Wn Hsafe) as (r & E & (Wr & Lr & Ar) & Nr & _). exists r. split; [done|].
  split; [done|done|congruence| |].
  - intros env HP v Hv. apply Ar. by apply (Wa env HP).
  - intros Ht Hp Hd. destruct (Hconst Ht Hp Hd) as [Hk Hr]. pose proof (rebuild_folds e ks H2 Hp Hr Hk) as Hf. unfold folds, wlp in Hf. by rewrite E in Hf.
Qed.
Lemma safe_kids e ks : ready_expr e → (∀ k l r, e = Arith k l r → is_division k = false) → Forall2 evaluated (kids e) ks → safe_division (with_kids e ks).
Proof.
  intros _ Hk H k l w E. destruct e; cbn in H; inv_kids; cbn in E; try discriminate E. injection E as -> _ _. by eapply Hk.
Qed.

Section Visiting.
Context (visit : Expr → M visited_ty Expr) (W : Z) (Hvisit : ∀ k, ready_expr k → weight k < W → evaluates (visit k) (evaluated k)).

(** The result of a read of [a] with the updates [ul] at [j]. *)
Definition read_evaluated (a : Array) (ul : UpdateList) (j : Z) (r : Expr) : Prop :=
  wf r ∧ narrow r ∧ getWidth r = Int8 ∧ (∀ env, P env → ∀ v, eval_read env a ul j = Some v → eval env r = Some v) ∧
  (total → plain_updates ul = true → is_Some (eval_read env0 a ul j) → isa_Constant r = true).
Definition changed_to (Q : Expr → Prop) (act : Action) : Prop := ∃ r, act = ChangeTo r ∧ Q r.
Lemma evaluates_change m (Q R : Expr → Prop) : evaluates m Q → (∀ r, Q r → R r) → evaluates (r ← m; mret (ChangeTo r)) (changed_to R).
Proof. intros Hm H. eapply evaluates_bind; [exact Hm|]. intros r Hr. apply evaluates_ret. exists r. auto. Qed.
Lemma evaluates_build m r (R : Expr → Prop) : m tt = Done r tt → R r → evaluates (r ← lift_res m; mret (ChangeTo r)) (changed_to R).
Proof. intros E H. eapply evaluates_lift; [exact E|]. apply evaluates_ret. by exists r. Qed.

Lemma evalRead_nil a j : wf_array a → 0 ≤ j < 2 ^ 32 → evaluates (evalRead CAO getInitialValue visit a UNil j) (changed_to (read_evaluated a UNil j)).
Proof.
  intros Ha Hj. cbn [evalRead].
  assert (Hout : ∀ env, eval_read env a UNil j = initial_byte env a j) by done.
  destruct (isSymbolicArray a) eqn:Es; cbn [negb andb].
  + destruct (HI a j Ha Hj) as (r & E & Wr & Nr & Lr & Ar & Cr). eapply evaluates_build; [exact E|]. split_and!; [done..| |by intros; apply Cr].
    intros env HP v. rewrite Hout. unfold initial_byte. rewrite Es. intros [= <-]. by apply Ar.
  + destruct (Z.ltb_spec j (arr_size a)) as [Hlt|Hge].
  * destruct Ha as (Hsz & Hlen & Hbytes). assert (Hne : constantValues a ≠ []) by (by apply bool_decide_eq_false in Es).
      destruct (lookup_lt_is_Some_2 (constantValues a) (Z.to_nat j)) as [c Ec]; [specialize (Hlen Hne); lia|]. rewrite Ec.
      apply evaluates_ret. exists (Constant Int8 c). split; [done|]. split_and!; [cbn; split; [lia|]|done|done| |done].
      { eapply Forall_lookup_1 in Hbytes; [exact Hbytes|exact Ec]. }
      intros env HP v. rewrite Hout. unfold initial_byte. rewrite Es, (proj2 (Z.leb_le 0 j)), (proj2 (Z.ltb_lt _ _) Hlt) by lia. cbn. by rewrite Ec.
  * destruct (HI a j Ha Hj) as (r & E & Wr & Nr & Lr & Ar & Cr). eapply evaluates_build; [exact E|]. split_and!; [done..| |by intros; apply Cr].
      intros env HP v. rewrite Hout. unfold initial_byte. rewrite Es, (proj2 (Z.ltb_ge _ _) Hge), andb_false_r. done.
Qed.
Lemma evalRead_spec a j : wf_array a → 0 ≤ j < 2 ^ 32 → ∀ ul, ready_updates ul → weight_updates ul < W →
  evaluates (evalRead CAO getInitialValue visit a ul j) (changed_to (read_evaluated a ul j)).
Proof.
  intros Ha Hj. induction ul as [|i v next IH]; intros Hr Hl; cbn [evalRead].
  - by apply evalRead_nil.
  - pose proof Hr as (Ri & Rv & Li & Lv & Rn)%ready_node. cbn in Hl. pose proof (weight_updates_pos next). pose proof (weight_pos i). pose proof (weight_pos v).
    eapply evaluates_bind; [apply (Hvisit i Ri); lia|]. intros ui [Wu Nu Lu Au Cu].
    assert (Hread : evaluates (r ← lift_res (ReadExpr_make CAO a (UNode i v next) (Constant_alloc j Int32)); mret (ChangeTo r))
      (changed_to (λ r, isa_Constant ui = false → read_evaluated a (UNode i v next) j r))).
    { assert (Wc : wf (Read a (UNode i v next) (Constant_alloc j Int32))).
      { cbn. split_and!; [done|apply Hr..|done|done|apply bits_wrapu; lia|done]. }
      destruct (built_as_intro _ _ (ReadExpr_builds CAO _ _ _ Wc) (read_small CAO a (UNode i v next) (Constant_alloc j Int32) I (proj1 (proj2 Hr))))
        as (r & E & (Wr & Lr & Ar) & Nr & _). eapply evaluates_build; [exact E|]. intros Hnc. split_and!; [done..| |].
      - intros env HP x Hx. apply Ar. cbn [eval Constant_alloc]. rewrite (wrapu_small 32 j) by done. exact Hx.
      - intros Ht Hp [x Hx]. exfalso. cbn in Hp, Hx. split_bools. destruct (eval env0 i) as [y|] eqn:Ei; [|done].
        rewrite Cu in Hnc; [done|done|done|]. by exists y. }
    destruct ui as [w c| | | | | | | | | |]; try (eapply evaluates_mono; [exact Hread|]; intros act (r & -> & Hq); exists r; split; [done|by apply Hq]).
    cbn in Lu, Wu. eapply evaluates_lift; [unfold getZExtValue; by rewrite (proj2 (Z.leb_le w 64)) by lia|].
    assert (Hc : ∀ env, P env → ∀ x, eval env i = Some x → x = c) by (intros env HP x Hx; specialize (Au env HP x Hx); by injection Au).
    destruct (Z.eqb_spec c j) as [->|Hne].
    + eapply evaluates_change; [apply (Hvisit v Rv); lia|]. intros r [Wr Nr Lr Ar Cr]. split_and!; [done|done|congruence| |].
      * intros env HP x. cbn. destruct (eval env i) as [y|] eqn:Ei; [|done]. rewrite (Hc env HP y Ei). cbn. rewrite Z.eqb_refl. apply (Ar env HP).
      * intros Ht Hp [x Hx]. cbn in Hp, Hx. split_bools. destruct (eval env0 i) as [y|] eqn:Ei; [|done]. rewrite (Hc env0 H0 y Ei) in Hx. cbn in Hx. rewrite Z.eqb_refl in Hx. apply Cr; eauto.
    + eapply evaluates_mono; [apply IH; [done|lia]|]. intros act (r & -> & Wr & Nr & Lr & Ar & Cr). exists r. split; [done|]. split_and!; [done..| |].
      * intros env HP x. cbn. destruct (eval env i) as [y|] eqn:Ei; [|done]. rewrite (Hc env HP y Ei). cbn. rewrite (proj2 (Z.eqb_neq c j) Hne). apply (Ar env HP).
      * intros Ht Hp [x Hx]. cbn in Hp, Hx. split_bools. destruct (eval env0 i) as [y|] eqn:Ei; [|done]. rewrite (Hc env0 H0 y Ei) in Hx. cbn in Hx.
        rewrite (proj2 (Z.eqb_neq c j) Hne) in Hx. apply Cr; eauto.
Qed.

(** *** The actions *)
Definition action_ok (e : Expr) (act : Action) : Prop :=
  match act with
  | ChangeTo r => evaluated e r
  | SkipChildren => evaluated e e
  | DoChildren =>
    (¬ (total ∧ plain e = true ∧ is_Some (eval env0 e)) ∨ ∀ a ul i, e ≠ Read a ul i) ∧ (∀ k l r, e = Arith k l r → is_division k = false)
  end.
Lemma evaluated_refl e : ready_expr e → (total → plain e = true → is_Some (eval env0 e) → isa_Constant e = true) → evaluated e e.
Proof. intros (? & ? & _) Hc. split; try done. Qed.

Lemma visitRead_spec a ul i : ready_expr (Read a ul i) → weight (Read a ul i) ≤ W → evaluates (visitRead CAO getInitialValue visit a ul i) (action_ok (Read a ul i)).
Proof.
  intros Hr Hl. pose proof Hr as (Ha & Hu & Hi & Li)%ready_read. cbn in Hl. pose proof (weight_updates_pos ul). pose proof (weight_pos i). unfold visitRead.
  eapply evaluates_bind; [apply (Hvisit i Hi); lia|]. intros v [Wv Nv Lv Av Cv].
  destruct v as [w c| | | | | | | | | |]; try (apply evaluates_ret; split; [left|done]; intros (Ht & Hp & [x Hx]); cbn in Hp, Hx; split_bools;
    destruct (eval env0 i) as [y|] eqn:Ei; [|done]; assert (Hc : is_Some (Some y)) by eauto; specialize (Cv Ht ltac:(done) Hc); done).
  cbn in Lv, Wv. rewrite Li in Lv. subst w. destruct Wv as [_ Hc]. unfold bits in Hc. eapply evaluates_lift; [done|]. rewrite (wrapu_small 32 c) by done.
  eapply evaluates_mono; [apply (evalRead_spec a c Ha Hc ul Hu); lia|]. intros act (r & -> & Wr & Nr & Lr & Ar & Cr). split; [done..| |].
  - intros env HP x Hx. cbn in Hx. destruct (eval env i) as [y|] eqn:Ei; [|done]. specialize (Av env HP y Ei). injection Av as ->. by apply Ar.
  - intros Ht Hp [x Hx]. cbn in Hp, Hx. split_bools. destruct (eval env0 i) as [y|] eqn:Ei; [|done]. specialize (Av env0 H0 y Ei). injection Av as ->. apply Cr; eauto.
Qed.

Lemma action_changed_ok e act : changed_to (evaluated e) act → action_ok e act.
Proof. by intros (r & -> & H). Qed.

(** The divisor in the end: not the constant 0, and a constant where the division has a value. *)
Record divisor (k : ArithKind) (l r d : Expr) : Prop := mkDivisor {
  dv_constant : total → plain (Arith k l r) = true → is_Some (eval env0 (Arith k l r)) → isa_Constant d = true;
  dv_nonzero w : d ≠ Constant w 0;
  dv_wf : wf d; dv_narrow : narrow d; dv_width : getWidth d = getWidth r; dv_agrees env : P env → agrees env r d
}.
Lemma division_operands k l r : is_division k = true → is_Some (eval env0 (Arith k l r)) → is_Some (eval env0 l) ∧ ∃ y, eval env0 r = Some y ∧ y ≠ 0.
Proof.
  intros Hk [x Hx]. cbn in Hx. destruct (eval env0 l) as [xl|], (eval env0 r) as [xr|]; try done. split; [by eexists|]. exists xr. split; [done|].
  intros ->. cbn in Hx. by destruct k.
Qed.
Lemma divisor_spec k l r k1 : is_division k = true → ready_expr (Arith k l r) → evaluated r k1 →
  evaluates (match k1 with Constant w c => z ← lift_res (isZero w c); mret (if (z : bool) then r else k1) | _ => mret k1 end) (divisor k l r).
Proof.
  intros Hk Hr [W1 N1 L1 A1 C1]. pose proof Hr as (Hw & (_ & _ & H64) & Hz). pose proof (ready_kids _ Hr) as [_ [Rr _]%Forall_cons]%Forall_cons.
  assert (Hother : (∀ w, k1 ≠ Constant w 0) → divisor k l r k1).
  { intros Hne. split; try done. intros Ht Hp (Hdl & y & Hy & _)%division_operands; [|done]. cbn in Hp. split_bools. apply C1; eauto. }
  destruct k1 as [w c| | | | | | | | | |]; try (apply evaluates_ret, Hother; by intros ? [=]).
  cbn in L1, W1, Hw. eapply evaluates_lift; [unfold isZero, getZExtValue; rewrite (proj2 (Z.leb_le w 64)) by lia; reflexivity|].
  apply evaluates_ret. cbn beta. destruct (Z.eqb_spec c 0) as [->|Hne]; [|apply Hother; by intros w' [= _ ->]].
  split; [| |apply Rr|apply Rr|done|done].
  - intros Ht Hp (_ & y & Hy & Hne)%division_operands; [|done]. specialize (A1 env0 H0 y Hy). cbn in A1. congruence.
  - intros w' ->. cbn in Hz. by rewrite Hk, andb_false_r in Hz.
Qed.
Lemma protectedDiv_spec k l r : is_division k = true → ready_expr (Arith k l r) → weight (Arith k l r) ≤ W → forallb isa_Constant [l; r] = false →
  evaluates (protectedDivOperation CAO visit k l r) (action_ok (Arith k l r)).
Proof.
  intros Hk Hr Hl Hkids. pose proof Hr as (Hw & (Nl & Nr & H64) & Hz). pose proof (ready_kids _ Hr) as [Rl [Rr _]%Forall_cons]%Forall_cons.
  cbn in Hl. pose proof (arith_cost_pos k). pose proof (weight_pos l). pose proof (weight_pos r). unfold protectedDivOperation.
  eapply evaluates_bind; [apply (Hvisit l Rl); lia|]. intros k0 [W0 N0 L0 A0 C0]. eapply evaluates_bind; [apply (Hvisit r Rr); lia|]. intros k1 E1.
  eapply evaluates_bind; [by apply divisor_spec|]. clear k1 E1. intros k1 [C1 Z1 W1 N1 L1 A1].
  assert (Hconst : total → plain (Arith k l r) = true → is_Some (eval env0 (Arith k l r)) → Forall (λ k, isa_Constant k = true) [k0; k1]).
  { intros Ht Hp Hd. pose proof Hp as Hp'. cbn in Hp'. split_bools. repeat constructor; [|by apply C1]. apply C0; [done..|]. by eapply division_operands. }
  destruct (negb (same k0 l) || negb (same k1 r)) eqn:Es.
  - assert (Hb : built_as (rebuild CAO (Arith k l r) [k0; k1]) (Arith k k0 k1)).
    { apply (rebuild_safe CAO (Arith k l r) [k0; k1]); [by repeat constructor|done|cbn in *; split_and!; [done|done|]; destruct Hw as (_ & _ & E); congruence|
        cbn; split_and!; [done|done|lia]|]. intros k2 l2 w [= _ _ ->]. by destruct (Z1 w). }
    destruct Hb as (e1 & Ee & (We & Le & Ae) & Ne & _). eapply evaluates_mono, action_changed_ok. eapply evaluates_build; [exact Ee|]. split; [done|done|rewrite Le; cbn; congruence| |].
    + intros env HP x Hx. apply Ae. apply (with_kids_agrees env (Arith k l r) [k0; k1]); [|done]. repeat constructor; auto.
    + intros Ht Hp Hd. pose proof (rebuild_folds (Arith k l r) [k0; k1] ltac:(by repeat constructor) Hp ltac:(done) (Hconst Ht Hp Hd)) as Hf.
      unfold folds, wlp in Hf. by rewrite Ee in Hf.
  - apply orb_false_iff in Es as [S0%negb_false_iff%same_sound S1%negb_false_iff%same_sound]. subst. apply evaluates_ret. apply evaluated_refl; [done|].
    intros Ht Hp Hd. pose proof (Hconst Ht Hp Hd) as [E1 [E2 _]%Forall_cons]%Forall_cons. cbn in Hkids. by rewrite E1, E2 in Hkids.
Qed.

(** *** One node *)
Lemma visit_kids_evaluated l : Forall (λ k, ready_expr k ∧ weight k < W) l → evaluates (visit_kids visit l) (Forall2 evaluated l).
Proof.
  induction 1 as [|e l [Hr Hl] Hk IH]; [by apply evaluates_ret|]. cbn. eapply evaluates_bind; [by apply Hvisit|]. intros k Ek.
  eapply evaluates_bind; [exact IH|]. intros ks Eks. apply evaluates_ret. by constructor.
Qed.
Lemma any_changed_same ks l : Forall2 evaluated l ks → any_changed ks l = false → ks = l.
Proof. induction 1 as [|e k l ks _ _ IH]; cbn; [done|]. rewrite orb_false_iff, negb_false_iff. intros [E%same_sound ?]. subst. f_equal. auto. Qed.
Lemma constants_evaluated l : Forall wf l → forallb isa_Constant l = true → Forall2 evaluated l l.
Proof. induction 1 as [|e l He Hl IH]; cbn; [done|]. intros [Hc ?]%andb_true_iff. constructor; [|auto]. by destruct e. Qed.
Lemma kids_safe e : ready_expr e → safe_division e.
Proof. intros (_ & _ & Hz) k l w ->. cbn in Hz. split_bools. by destruct (is_division k). Qed.

Definition is_read (e : Expr) : bool := match e with Read _ _ _ => true | _ => false end.
Lemma ev_visitExpr_spec e : ready_expr e → isa_Constant e = false →
  evaluates (ev_visitExpr CAO e) (λ act, act = DoChildren ∧ is_read e || negb (forallb isa_Constant (kids e)) = true ∨ changed_to (evaluated e) act).
Proof.
  intros Hr Hc. destruct (is_read e) eqn:Er; [destruct e; try done; apply evaluates_ret; by left|].
  assert (Hcase : evaluates (if forallb isa_Constant (kids e) then r ← lift_res (rebuild CAO e (kids e)); mret (ChangeTo r) else mret DoChildren)
    (λ act, act = DoChildren ∧ false || negb (forallb isa_Constant (kids e)) = true ∨ changed_to (evaluated e) act)); [|by destruct e].
  destruct (forallb isa_Constant (kids e)) eqn:Ek; [|apply evaluates_ret; by left].
  assert (Wk : Forall wf (kids e)) by (eapply Forall_impl; [by apply ready_kids|]; by intros k (? & _)).
  assert (Es : with_kids e (kids e) = e) by (by destruct e).
  destruct (rebuild_evaluated e (kids e)) as (r & E & Hev); [done|done|by apply constants_evaluated|rewrite Es; by apply kids_safe| |].
  - intros Ht Hp Hd. split; [|by intros a ul i ->]. apply Forall_forall. intros k Hk. rewrite forallb_forall in Ek. by apply Ek, list_elem_of_In.
  - eapply evaluates_mono; [eapply evaluates_build; [exact E|exact Hev]|]. auto.
Qed.
Lemma ev_visitKind_spec e : ready_expr e → weight e ≤ W → is_read e || negb (forallb isa_Constant (kids e)) = true →
  evaluates (ev_visitKind CAO getInitialValue visit e) (action_ok e).
Proof.
  intros Hr Hl Hk. assert (Hdo : is_read e = false → (∀ k l r, e = Arith k l r → is_division k = false) → action_ok e DoChildren) by (intros He ?; split; [right; by intros a ul i ->|done]).
  destruct e; cbn [ev_visitKind]; try (apply evaluates_ret, Hdo; done); [by apply visitRead_spec|].
  destruct (is_division k) eqn:Ed; [|apply evaluates_ret, Hdo; [done|]; by intros k' l r [= <- <- <-]]. apply protectedDiv_spec; try done. by apply negb_true_iff.
Qed.
Lemma ev_visitActual_spec e : ready_expr e → weight e ≤ W → evaluates (ev_visitActual CAO getInitialValue visit e) (evaluated e).
Proof.
  intros Hr Hl. unfold ev_visitActual. destruct (isa_Constant e) eqn:Ec; [apply evaluates_ret; by apply evaluated_refl|].
  eapply evaluates_bind; [by apply ev_visitExpr_spec|]. intros act [[-> Hk]|(r & -> & Er)]; [|by apply evaluates_ret].
  eapply evaluates_bind; [by apply ev_visitKind_spec|]. intros [| |r] Ha; [by apply evaluates_ret| |by apply evaluates_ret]. destruct Ha as [Ha Hnd].
  eapply evaluates_bind; [apply visit_kids_evaluated|].
  { apply Forall_forall. intros k Hin. split; [by eapply Forall_forall; [apply ready_kids, Hr|]|]. pose proof (kids_lighter e k Hin). lia. }
  intros ks Hks.
  assert (Hconst : total → plain e = true → is_Some (eval env0 e) → Forall (λ k, isa_Constant k = true) ks ∧ ∀ a ul i, e ≠ Read a ul i).
  { intros Ht Hp Hd. split; [|destruct Ha as [Hn|Hn]; [|done]; destruct Hn; by split_and!].
    pose proof (plain_kids e Hp) as Hpk. pose proof (defined_kids env0 e Hd) as Hdk. clear -Hks Hpk Hdk Ht.
    induction Hks as [|k r l ks Hkr _ IH]; [done|]. apply Forall_cons in Hpk as [? ?], Hdk as [? ?]. constructor; [by apply Hkr|auto]. }
  destruct (any_changed ks (kids e)) eqn:Ea.
  - pose proof (safe_kids e ks Hr Hnd Hks) as Hsafe.
    destruct (rebuild_evaluated e ks Hr Ec Hks Hsafe Hconst) as (r & E & Hev). intros t Ht. exists r, t. unfold lift_res. by rewrite E.
  - apply any_changed_same in Ea as ->; [|done]. apply evaluates_ret. apply evaluated_refl; [done|]. intros Ht Hp Hd.
    destruct (Hconst Ht Hp Hd) as [Hks' Hnr]. exfalso. apply orb_true_iff in Hk as [Hk|Hk]; [destruct e; try done; by eapply Hnr|].
    apply negb_true_iff in Hk. assert (forallb isa_Constant (kids e) = true); [|congruence]. apply forallb_forall. intros k Hin%list_elem_of_In.
    by eapply Forall_forall in Hin; [|exact Hks'].
Qed.
End Visiting.

(** *** Whole expressions *)
Lemma ev_visit_spec fuel : ∀ e, ready_expr e → weight e ≤ Z.of_nat fuel → evaluates (ev_visit CAO UVH getInitialValue fuel e) (evaluated e).
Proof.
  induction fuel as [|fuel IH]; intros e Hr Hf; [pose proof (weight_pos e); lia|]. cbn [ev_visit].
  assert (Ha : evaluates (ev_visitActual CAO getInitialValue (ev_visit CAO UVH getInitialValue fuel) e) (evaluated e)).
  { apply (ev_visitActual_spec _ (weight e)); [|done|lia]. intros k Hk Hlt. apply IH; [done|lia]. }
  destruct (negb UVH || isa_Constant e); [done|]. intros t Ht. unfold get, gets, mbind at 1, M_bind at 1.
  destruct (table_find e t) as [r|] eqn:Et; [exists r, t; split_and!; [done|done|]; by apply Ht, table_find_elem|].
  destruct (Ha t Ht) as (r & t1 & E1 & Ht1 & Hr'). rewrite (bind_done _ _ _ _ _ E1). exists r, (table_insert e r t1). split_and!; [done| |done].
  intros k v [?|[= -> ->]]%table_insert_elem; auto.
Qed.
Lemma evaluator_visit_spec e : ready_expr e → evaluates (evaluator_visit CAO UVH getInitialValue e) (evaluated e).
Proof. intros. apply ev_visit_spec; [done|]. unfold visit_fuel. pose proof (weight_pos e). lia. Qed.
Lemma fresh_spec {A} (m : M visited_ty A) (Q : A → Prop) : evaluates m Q → ∃ r, fresh m tt = Done r tt ∧ Q r.
Proof. intros H. destruct (H []) as (r & t & E & _ & HQ); [by intros ? ? ?%elem_of_nil|]. exists r. unfold fresh. by rewrite E. Qed.
End Spec.

(** ** Assignments *)
Section Assignment.
Context `{HA : !APInt, HC : !ExprCompare, HAd : !Addresses} (CAO UVH : bool).

(** The bytes an assignment gives, and the assignment of all bytes it stands for. *)
Definition given (a : Assignment) (array : Array) (i : Z) : option Z := binding array (bindings a) ≫= (λ v, v !! Z.to_nat i).
Definition env_of (a : Assignment) : assignment := λ array i, default 0 (given a array i).
(** The assignments that agree with it where it says something. *)
Definition extends (a : Assignment) (env : assignment) : Prop :=
  ∀ array i, 0 ≤ i < 2 ^ 32 → allowFreeValues a = false ∨ is_Some (given a array i) → u8 (env array i) = u8 (env_of a array i).
Lemma extends_self a : extends a (env_of a).
Proof. done. Qed.

Lemma Assignment_initial a : initial_ok (Assignment_byte CAO a) (extends a) (allowFreeValues a = false).
Proof.
  intros array i Ha Hi. unfold Assignment_byte. fold (given a array i).
  assert (Hconst : ∀ x, default 0 (given a array i) = x → allowFreeValues a = false ∨ is_Some (given a array i) →
    ∃ r, (mret (Constant_alloc x Int8) : res Expr) tt = Done r tt ∧ wf r ∧ narrow r ∧ getWidth r = Int8 ∧
      (isSymbolicArray array = true → ∀ env, extends a env → eval env r = Some (u8 (env array i))) ∧ (allowFreeValues a = false → isa_Constant r = true)).
  { intros x Hx Hg. exists (Constant_alloc x Int8). split_and!; [done|split; [lia|]; apply bits_wrapu; lia|done..| |done].
    intros _ env He. cbn. rewrite (He array i Hi Hg). unfold env_of. by rewrite Hx. }
  destruct (given a array i) as [x|] eqn:Eg; [apply Hconst; [done|by right]|].
  destruct (allowFreeValues a) eqn:Ef; [|apply Hconst; [done|by left]].
  exists (Read array UNil (Constant_alloc i Int32)). split; [done|]. split_and!; [|done|done| |done].
  - cbn. split_and!; [done|done|lia|lia|apply bits_wrapu; lia|done].
  - intros Hs env _. cbn. rewrite (wrapu_small 32 i) by done. unfold initial_byte. by rewrite Hs.
Qed.

Definition evaluable (e : Expr) : Prop := ready_expr e ∧ plain e = true.
Lemma Assignment_visit_spec a e : ready_expr e → evaluates (extends a) (env_of a) (allowFreeValues a = false) (Assignment_visit CAO UVH a e)
  (evaluated (extends a) (env_of a) (allowFreeValues a = false) e).
Proof. intros. apply evaluator_visit_spec; [apply extends_self|apply Assignment_initial|done]. Qed.
Lemma constant_result a e r v : allowFreeValues a = false → evaluable e → eval (env_of a) e = Some v →
  evaluated (extends a) (env_of a) (allowFreeValues a = false) e r → r = Constant (getWidth e) v.
Proof.
  intros Hf [_ Hp] Hv [_ _ Lr Ar Cr]. assert (Hc : isa_Constant r = true) by (apply Cr; eauto). destruct r as [w c| | | | | | | | | |]; try done.
  specialize (Ar (env_of a) (extends_self a) v Hv). cbn in *. congruence.
Qed.
(** Evaluation with all bytes given. *)
Lemma Assignment_evaluate_spec a e v : allowFreeValues a = false → evaluable e → eval (env_of a) e = Some v →
  Assignment_evaluate CAO UVH a e tt = Done (Constant (getWidth e) v) tt.
Proof.
  intros Hf He Hv. destruct (fresh_spec _ _ _ _ _ (Assignment_visit_spec a e (proj1 He))) as (r & E & Hr).
  unfold Assignment_evaluate. rewrite E. by rewrite (constant_result a e r v).
Qed.
(** The test whether an assignment satisfies some conditions returns, and is exact on conditions that have a value. *)
Lemma Expr_isTrue_spec e : wf e → getWidth e = Bool → ∃ b, Expr_isTrue e tt = Done b tt ∧ (b = true ↔ e = Constant Bool 1).
Proof.
  intros Hw Hl. unfold Expr_isTrue. rewrite Hl. cbn. destruct e as [w v| | | | | | | | | |]; try (by exists false). cbn in Hl. subst w.
  exists (v =? 1). split; [done|]. rewrite Z.eqb_eq. split; [by intros ->|by intros [= ->]].
Qed.
Lemma satisfies_spec a es : allowFreeValues a = false → Forall (λ e, evaluable e ∧ getWidth e = Bool ∧ is_Some (eval (env_of a) e)) es →
  ∃ b, Assignment_satisfies CAO UVH a es tt = Done b tt ∧ (b = true ↔ Forall (λ e, eval (env_of a) e = Some 1) es).
Proof.
  intros Hf Hes. apply (fresh_spec (extends a) (env_of a) (allowFreeValues a = false)). induction Hes as [|e es (He & Hl & [v Hv]) Hes IH]; cbn.
  { by apply evaluates_ret. }
  eapply evaluates_bind; [by apply Assignment_visit_spec, He|]. intros r Hr. pose proof (constant_result a e r v Hf He Hv Hr) as ->. rewrite Hl.
  eapply evaluates_lift; [reflexivity|]. cbn. destruct (Z.eqb_spec v 1) as [->|Hne]; cbn.
  - eapply evaluates_mono; [exact IH|]. cbn. intros b ->. rewrite Forall_cons, Hv. naive_solver.
  - apply evaluates_ret. rewrite Forall_cons, Hv. naive_solver.
Qed.
End Assignment.

(** C19: (equivalence) Evaluation under an assignment computes the value of an expression.  For expressions with arithmetic of at most 64
    bits, no division by the constant 0 and nothing marked as not to be optimised, an assignment that gives all bytes evaluates an expression
    to the constant of its value, and tests conditions that have values exactly; an assignment that leaves bytes open returns an
    expression of the same width and the same value under every assignment it extends to. *)
Theorem evaluation_exact `{HA : !APInt, HC : !ExprCompare, HAd : !Addresses} (ConstArrayOpt UseVisitorHash : bool) (a : Assignment) (e : Expr) (es : list Expr) :
  evaluable e → Forall (λ c, evaluable c ∧ getWidth c = Bool ∧ is_Some (eval (env_of a) c)) es →
  (allowFreeValues a = false → ∀ v, eval (env_of a) e = Some v →
    Assignment_evaluate ConstArrayOpt UseVisitorHash a e tt = Done (Constant (getWidth e) v) tt) ∧
  (allowFreeValues a = false → ∃ b, Assignment_satisfies ConstArrayOpt UseVisitorHash a es tt = Done b tt ∧
    (b = true ↔ Forall (λ c, eval (env_of a) c = Some 1) es)) ∧
  ∃ r, Assignment_evaluate ConstArrayOpt UseVisitorHash a e tt = Done r tt ∧ wf r ∧ getWidth r = getWidth e ∧
    ∀ env v, extends a env → eval env e = Some v → eval env r = Some v.
Proof.
  intros He Hes. split_and!.
  - intros Hf v Hv. by apply Assignment_evaluate_spec.
  - intros Hf. by apply satisfies_spec.
  - destruct (fresh_spec _ _ _ _ _ (Assignment_visit_spec ConstArrayOpt UseVisitorHash a e (proj1 He))) as (r & E & [Wr _ Lr Ar _]).
    exists r. split_and!; [done..|]. intros env v Hx. by apply Ar.
Qed.

(** b0 + 1 and b0 = 7 for the bytes 7 and 9; with only b0 given, b0 + b1 becomes 7 + b1. *)
Definition two_bytes : Assignment := mkAssignment false [(arg, [7; 9])].
Definition first_byte : Assignment := mkAssignment true [(arg, [7])].
Lemma evaluation_exact_witness :
  let HA := z_apint in let HC := structural_compare in let HAd := encoded_addresses in
  let e := Arith KAdd (arg_byte 0) (arg_byte 1) in
  Assignment_evaluate true true two_bytes e tt = Done (Constant 8 16) tt ∧
  Assignment_satisfies true true two_bytes [Cmp KEq (Constant 8 7) (arg_byte 0)] tt = Done true tt ∧
  Assignment_evaluate true true first_byte e tt = Done (Arith KAdd (Constant 8 7) (arg_byte 1)) tt.
Proof.
  intros HA HC HAd e. assert (He : evaluable e) by (vm_compute; repeat split; congruence || by intros).
  split_and!; [|vm_compute; reflexivity..].
  apply (evaluation_exact true true two_bytes e [] He ltac:(constructor)); [done|]. vm_compute. reflexivity.
Defined.
