(* ===== verification/CexCache.v ===== *)
(** * The counterexample cache

    src/klee/lib/Solver/CexCachingSolver.cpp, with [findSymbolicObjects] of src/klee/lib/Expr/ExprUtil.cpp: a layer that remembers for
    sets of constraints an assignment that satisfies them, or that there is none, and answers from sets that contain, or are
    contained in, the one it is asked about. *)
From S2P Require Import Prelude Expr ExprCreate ExprWeight Memory AddressSpace Solver Visitor Compare MapOfSets Evaluator.

(** ** The symbolic arrays of an expression *)
(** [SymbolicObjectFinder]: the expressions it has visited, and [results] and [objects], which hold the same arrays.  The visit
    changes no expression. *)
Record finder := mkFinder { f_visited : list Expr; f_objects : list Array }.

Section Finder.
Context `{HC : !ExprCompare} (UseVisitorHash : bool).
Definition saw (e : Expr) (s : finder) : finder := mkFinder (e :: f_visited s) (f_objects s).
Definition add_object (a : Array) (s : finder) : finder :=
  if isSymbolicArray a && negb (bool_decide (a ∈ f_objects s)) then mkFinder (f_visited s) (f_objects s ++ [a]) else s.
(** [visit], around the visit of the parts [m]. *)
Definition once (e : Expr) (m : finder → finder) (s : finder) : finder :=
  if UseVisitorHash then if existsb (λ x, same x e) (f_visited s) then s else saw e (m s) else m s.
Fixpoint finder_visit (e : Expr) : finder → finder :=
  match e with
  | Constant _ _ => λ s, s
  | NotOptimized k | Extract k _ _ | ZExt k _ | SExt k _ | Not k => once e (finder_visit k)
  | Read a ul i => once e (λ s, finder_visit i (add_object a (finder_updates ul s)))
  | Select c t f => once e (λ s, finder_visit f (finder_visit t (finder_visit c s)))
  | Concat l r | Arith _ l r | Cmp _ l r => once e (λ s, finder_visit r (finder_visit l s))
  end
with finder_updates (ul : UpdateList) : finder → finder :=
  match ul with
  | UNil => λ s, s
  | UNode i v next => λ s, finder_updates next (finder_visit v (finder_visit i s))
  end.
Definition findSymbolicObjects (es : list Expr) : list Array := f_objects (foldl (λ s e, finder_visit e s) (mkFinder [] []) es).
End Finder.

(** ** The cache *)
Section CexCache.
Context `{HA : !APInt, HC : !ExprCompare, HAd : !Addresses, HT : !TotalOrder Expr}.
Context (ConstArrayOpt UseVisitorHash CexCacheTryAll CexCacheExperimental DebugCexCacheCheckBinding : bool).
Context {S : Type} (solver : SolverImpl S).

(** A null pointer is [None]. *)
Record cex_state := mkCex { x_solver : S; x_cache : Node Expr (option Assignment); assignmentsTable : list Assignment }.
Definition x_below {A} (m : M S A) : M cex_state A := zoom x_solver (λ s c, mkCex s (x_cache c) (assignmentsTable c)) m.

Definition KeyType : Type := list Expr.
Definition key_of (cs : list Expr) : KeyType := foldl (λ s c, set_insert c s) [] cs.

(** [AssignmentLessThan]: the bindings in order, by address and bytes. *)
Fixpoint bindings_compare (a b : bindings_ty) : Z :=
  match a, b with
  | [], [] => 0
  | [], _ => -1
  | _, [] => 1
  | (x, v) :: a, (y, w) :: b => lex (lex (three (addr x) (addr y)) (tokens_compare v w)) (bindings_compare a b)
  end.
(** [assignmentsTable.insert(binding)]: the assignment that is in the table afterwards, and the table. *)
Fixpoint memoize (binding : Assignment) (t : list Assignment) : Assignment * list Assignment :=
  match t with
  | [] => (binding, [binding])
  | a :: t =>
    let c := bindings_compare (bindings binding) (bindings a) in
    if c <? 0 then (binding, binding :: a :: t)
    else if c =? 0 then (a, a :: t)
    else let '(b, t) := memoize binding t in (b, a :: t)
  end.

(** [NullOrSatisfyingAssignment]: the search stops at the first assignment that is accepted, or whose test fails to return. *)
Definition stops_at (key : KeyType) (a : option Assignment) : bool :=
  match a with
  | None => true
  | Some a => match Assignment_satisfies ConstArrayOpt UseVisitorHash a key tt with Done b _ => b | Halt _ _ => true end
  end.
Definition tested (key : KeyType) (r : option (option Assignment)) : M cex_state (option (option Assignment)) :=
  match r with
  | Some (Some a) => _ ← lift_res (Assignment_satisfies ConstArrayOpt UseVisitorHash a key); mret r
  | _ => mret r
  end.
Fixpoint try_all (key : KeyType) (t : list Assignment) : M cex_state (option (option Assignment)) :=
  match t with
  | [] => mret None
  | a :: t =>
    b ← lift_res (Assignment_satisfies ConstArrayOpt UseVisitorHash a key);
    if (b : bool) then mret (Some (Some a)) else try_all key t
  end.

Definition is_null (a : option Assignment) : bool := match a with None => true | Some _ => false end.
Definition searchForAssignment (key : KeyType) : M cex_state (option (option Assignment)) :=
  c ← gets x_cache;
  match MapOfSets.lookup key c with
  | Some r => mret (Some r)
  | None =>
    match findSuperset (λ a, negb (is_null a)) c key with
    | Some r => mret (Some r)
    | None =>
      if CexCacheTryAll then
        match findSubset is_null c key with
        | Some r => mret (Some r)
        | None => t ← gets assignmentsTable; try_all key t
        end
      else tested key (findSubset (stops_at key) c key)
    end
  end.

Definition lookupAssignment (q : Query) : M cex_state (KeyType * option (option Assignment)) :=
  let key := key_of (constraints q) in
  neg ← lift_res (createIsZero ConstArrayOpt (expr q));
  match neg with
  | Constant w v =>
    f ← lift_res (isFalse w v);
    if (f : bool) then mret (key, Some None) else r ← searchForAssignment key; mret (key, r)
  | _ => let key := set_insert neg key in r ← searchForAssignment key; mret (key, r)
  end.

Definition x_insert (key : KeyType) (a : option Assignment) : M cex_state unit :=
  modify (λ c, mkCex (x_solver c) (insert key a (x_cache c)) (assignmentsTable c)).
Definition getAssignment (q : Query) : M cex_state (option (option Assignment)) :=
  p ← lookupAssignment q;
  let '(key, found) := p in
  match found with
  | Some a => mret (Some a)
  | None =>
    let objects := findSymbolicObjects UseVisitorHash key in
    ok (x_below (computeInitialValues solver q objects)) (λ hasSolution,
      match hasSolution with
      | Some values =>
        binding ← lift_res (new_Assignment objects values);
        t ← gets assignmentsTable;
        let '(binding, t) := memoize binding t in
        modify (λ c, mkCex (x_solver c) (x_cache c) t);;
        (if DebugCexCacheCheckBinding then b ← lift_res (Assignment_satisfies ConstArrayOpt UseVisitorHash binding key); c_assert b else mret tt);;
        x_insert key (Some binding);; mret (Some (Some binding))
      | None => x_insert key None;; mret (Some None)
      end)
  end.

(** ** The queries *)
Definition cex_computeValidity (q : Query) : M cex_state (option Validity) :=
  ok (getAssignment (withFalse q)) (λ a,
    match a with
    | None => mret None
    | Some a =>
      r ← lift_res (Assignment_evaluate ConstArrayOpt UseVisitorHash a (expr q));
      c_assert (isa_Constant r);;
      b ← lift_res (match r with Constant w v => isTrue w v | _ => halt AssertFailure end);
      if (b : bool) then ok (getAssignment q) (λ a, mret (Some (if is_null a then VTrue else VUnknown)))
      else n ← negateExpr ConstArrayOpt q; ok (getAssignment n) (λ a, mret (Some (if is_null a then VFalse else VUnknown)))
    end).
(** With [CexCacheExperimental], a query whose negation is known to have no assignment fails. *)
Definition cex_computeTruth (q : Query) : M cex_state (option bool) :=
  failed ← (if CexCacheExperimental then
              n ← negateExpr ConstArrayOpt q; p ← lookupAssignment n;
              mret (match p.2 with Some a => is_null a | None => false end)
            else mret false);
  if (failed : bool) then mret None else ok (getAssignment q) (λ a, mret (Some (is_null a))).
Definition cex_computeValue (q : Query) : M cex_state (option Expr) :=
  ok (getAssignment (withFalse q)) (λ a,
    match a with
    | None => halt AssertFailure
    | Some a =>
      r ← lift_res (Assignment_evaluate ConstArrayOpt UseVisitorHash a (expr q));
      c_assert (isa_Constant r);; mret (Some r)
    end).
Definition object_values (a : Assignment) (os : Array) : list Z := default (replicate (Z.to_nat (arr_size os)) 0) (binding os (bindings a)).
Definition cex_computeInitialValues (q : Query) (objects : list Array) : M cex_state (option (option (list (list Z)))) :=
  ok (getAssignment q) (λ a, mret (Some (match a with None => None | Some a => Some (object_values a <$> objects) end))).
Definition createCexCachingSolver : SolverImpl cex_state :=
  mkImpl cex_computeTruth cex_computeValidity cex_computeValue cex_computeInitialValues.
Definition new_cex (s : S) : cex_state := mkCex s new_Node [].
End CexCache.
