(* ===== verification/CexCacheSpec.v ===== *)
(** * What the counterexample cache answers

    The layer of [CexCache] answers right when the solver below does, for conditions that have a value under every
    assignment, which depends on bytes inside the arrays only. *)
From S2P Require Import Prelude Expr ExprCreate ExprRefine ExprSums ExprSpec ExprBuild ExprWeight Memory MemorySpec AddressSpace AddressSpaceResolve Solver SolverSpec Visitor VisitorSpec Compare MapOfSets Evaluator EvaluatorSpec CexCache.

(** ** Negation keeps what evaluation needs *)
Section Closed.
Context `{HA : !APInt, HC : !ExprCompare} (CAO : bool).
Definition closed (e : Expr) : Prop := nonzero_divisors e = true ∧ plain e = true.
Definition makes_closed (m : res Expr) : Prop := wlp m (λ r _, closed r) tt.
Lemma closed_ret e : closed e → makes_closed (mret e).
Proof. intros. by apply wlp_ret. Qed.
Lemma closed_constant w v : closed (Constant w v).
Proof. done. Qed.
Lemma closed_eq l r : closed l → closed r → makes_closed (EqExpr_create l r).
Proof. intros [? ?] [? ?]. unfold EqExpr_create. apply closed_ret. case_match; [done|]. split; cbn; by apply andb_true_iff. Qed.
Lemma closed_bind m k : makes_closed m → (∀ e, closed e → makes_closed (k e)) → makes_closed (m ≫= k).
Proof. intros Hm Hk. apply wlp_bind. eapply wlp_mono; [exact Hm|]. intros e [] He. by apply Hk. Qed.
Lemma closed_logic (f : Expr → Expr → res Expr) l r : f = AndExpr_make ∨ f = OrExpr_make → closed l → closed r → makes_closed (f l r).
Proof.
  intros Hf Hl Hr.
  assert (Hp : ∀ k, is_division k = false → ∀ a b, closed a → closed b → makes_closed (mret (Arith k a b))).
  { intros k Hk a b [? ?] [? ?]. apply closed_ret. split; cbn; rewrite ?Hk, ?andb_true_r; by apply andb_true_iff. }
  destruct Hf as [->| ->]; apply bcreate_r_wlp.
  1,5: intros w a b -> ->; by apply small_assert; intros _; apply closed_ret.
  1,4: intros w a -> _ _; apply bind_any; intros []; [by apply closed_ret|]; apply bind_any; intros []; [by apply closed_ret|by apply Hp].
  1,3: intros w a -> _ _; apply bind_any; intros []; [by apply closed_ret|]; apply bind_any; intros []; [by apply closed_ret|by apply Hp].
  all: intros _; by apply Hp.
Qed.

Lemma closed_create v w : makes_closed (Constant_create v w).
Proof. unfold Constant_create. case_match; [|apply wlp_halt]. apply small_assert. intros _. by apply closed_ret. Qed.

Section Rec.
Context (partialR : Z → Z → Expr → res Expr) (HR : ∀ w v r, closed r → makes_closed (partialR w v r)).
Lemma closed_eq_rec l r : closed l → closed r → makes_closed (EqExpr_make_rec partialR l r).
Proof.
  intros Hl Hr. apply bcreate_r_wlp.
  - intros. by apply closed_ret.
  - intros w a -> _ _. by apply HR.
  - intros w a -> _ _. by apply HR.
  - intros _. by apply closed_eq.
Qed.
Lemma closed_is_zero_rec e : closed e → makes_closed (createIsZero_rec partialR e).
Proof. intros He. apply const_create_wlp. intros v. by apply closed_eq_rec. Qed.
Lemma closed_array_loop w v rd index values : closed rd → closed index → ∀ i n acc, closed acc → makes_closed (const_array_loop partialR w v rd index values i n acc).
Proof.
  intros Hrd Hi. induction values as [|x values IH]; intros i n acc Ha; cbn; [by apply closed_ret|]. repeat case_match; [by apply closed_eq| |by apply IH].
  eapply closed_bind; [by apply closed_eq_rec|]. intros e He. eapply closed_bind; [apply closed_logic; auto|]. intros e' He'. by apply IH.
Qed.
End Rec.

Ltac split_closed := repeat match goal with H : closed _ |- _ => let H1 := fresh in let H2 := fresh in destruct H as [H1 H2]; cbn in H1, H2; split_bools end.
Lemma closed_partialR fuel : ∀ w v r, closed r → makes_closed (EqExpr_createPartialR CAO fuel w v r).
Proof.
  induction fuel as [|fuel IH]; intros w v r Hr; [apply wlp_halt|]. cbn [EqExpr_createPartialR].
  assert (Ho : makes_closed (EqExpr_create (Constant w v) r)) by (by apply closed_eq).
  destruct (w =? Bool).
  - apply bind_any. intros []; [by apply closed_ret|]. destruct r as [| | | | | | | | |[] l r|[] l r]; try exact Ho.
    + split_closed. eapply closed_bind; [by apply closed_is_zero_rec|]. intros x Hx. eapply closed_bind; [by apply closed_is_zero_rec|]. intros y Hy. apply closed_logic; auto.
    + destruct l; try exact Ho. case_match; [|exact Ho]. apply bind_any. intros []; [|exact Ho]. split_closed. by apply closed_ret.
  - destruct r as [|src|root ul index|c t f|l r|src off w'|src w'|src w'|src|[] l r|k l r]; try exact Ho.
    + destruct CAO; [|exact Ho]. unfold TryConstArrayOpt. case_match; [exact Ho|]. apply closed_array_loop; try done. by split_closed.
    + case_match; [|apply closed_create]. split_closed. by apply closed_eq_rec.
    + case_match; [|apply closed_create]. split_closed. by apply closed_eq_rec.
    + destruct l; try exact Ho. apply small_assert. intros _. apply IH. by split_closed.
    + destruct l; try exact Ho. apply small_assert. intros _. apply IH. by split_closed.
Qed.
Lemma closed_is_zero e : closed e → makes_closed (createIsZero CAO e).
Proof. apply closed_is_zero_rec. intros. by apply closed_partialR. Qed.
End Closed.

(** ** The arrays of an expression *)
Fixpoint symbolic_in (a : Array) (e : Expr) : Prop :=
  match e with
  | Constant _ _ => False
  | NotOptimized k | Extract k _ _ | ZExt k _ | SExt k _ | Not k => symbolic_in a k
  | Read x ul i => x = a ∧ isSymbolicArray a = true ∨ symbolic_in_updates a ul ∨ symbolic_in a i
  | Select c t f => symbolic_in a c ∨ symbolic_in a t ∨ symbolic_in a f
  | Concat l r | Arith _ l r | Cmp _ l r => symbolic_in a l ∨ symbolic_in a r
  end
with symbolic_in_updates (a : Array) (ul : UpdateList) : Prop :=
  match ul with UNil => False | UNode i v next => symbolic_in a i ∨ symbolic_in a v ∨ symbolic_in_updates a next end.

(** A value depends on the symbolic arrays of the expression only. *)
Lemma eval_arrays env env' :
  (∀ e, (∀ a, symbolic_in a e → env a = env' a) → eval env e = eval env' e) ∧
  (∀ ul, (∀ a, symbolic_in_updates a ul → env a = env' a) → ∀ a j, (isSymbolicArray a = true → env a = env' a) → eval_read env a ul j = eval_read env' a ul j).
Proof.
  apply Expr_UpdateList_ind; cbn; intros; repeat match goal with IH : _ → eval env ?e = eval env' ?e |- _ => rewrite IH by eauto; clear IH end; try done.
  - destruct (eval env' index); [|done]. cbn. apply H; intros; apply H1; auto.
  - unfold initial_byte. destruct (isSymbolicArray a) eqn:Es; [|done]. by rewrite H0.
  - destruct (eval env' index); [|done]. cbn. case_match; [done|]. match goal with IH : _ → ∀ a j, _ |- _ => apply IH end; intros; auto.
Qed.

Section Finder.
Context `{HC : !ExprCompare} (UVH : bool).
(** What the finder has visited, its objects hold; they only grow. *)
Definition finder_ok (s : finder) : Prop := ∀ e, e ∈ f_visited s → ∀ a, symbolic_in a e → a ∈ f_objects s.
Definition finder_step (P : Array → Prop) (f : finder → finder) : Prop :=
  ∀ s, finder_ok s → finder_ok (f s) ∧ f_objects s ⊆ f_objects (f s) ∧ ∀ a, P a → a ∈ f_objects (f s).
Lemma step_id : finder_step (λ _, False) (λ s, s).
Proof. by intros s Hs. Qed.
Lemma step_then P Q f g : finder_step P f → finder_step Q g → finder_step (λ a, P a ∨ Q a) (λ s, g (f s)).
Proof.
  intros Hf Hg s Hs. destruct (Hf s Hs) as (H1 & H2 & H3). destruct (Hg _ H1) as (H4 & H5 & H6). split_and!; [done|set_solver|]. intros a [?|?]; auto.
Qed.
Lemma step_weaken P Q f : finder_step P f → (∀ a, Q a → P a) → finder_step Q f.
Proof. intros Hf H s Hs. destruct (Hf s Hs) as (? & ? & ?). split_and!; auto. Qed.
Lemma step_add a : finder_step (λ x, a = x ∧ isSymbolicArray x = true) (add_object a).
Proof.
  intros s Hs. unfold add_object. destruct (isSymbolicArray a) eqn:Ea; cbn.
  - case_bool_decide; cbn; (split_and!; [|set_solver|]); [done|by intros ? [-> _]| |intros ? [-> _]; set_solver].
    intros e He x Hx. apply elem_of_app. left. by eapply Hs.
  - split_and!; [done|done|]. intros x [-> ?]. congruence.
Qed.
Lemma step_once e P f : (∀ a, symbolic_in a e → P a) → finder_step P f → finder_step (λ a, symbolic_in a e) (once UVH e f).
Proof.
  intros HP Hf s Hs. destruct (Hf s Hs) as (H1 & H2 & H3). unfold once. destruct UVH; [|split_and!; auto].
  destruct (existsb _ _) eqn:E.
  - split_and!; [done..|]. apply existsb_exists in E as (x & Hx & E%same_sound). subst. apply Hs. by apply list_elem_of_In.
  - split_and!; [|done|auto]. intros x [->|Hx]%elem_of_cons a Ha; [auto|]. by eapply H1.
Qed.
Lemma finder_spec : (∀ e, finder_step (λ a, symbolic_in a e) (finder_visit UVH e)) ∧
  (∀ ul, finder_step (λ a, symbolic_in_updates a ul) (finder_updates UVH ul)).
Proof.
  apply Expr_UpdateList_ind; cbn [finder_visit finder_updates]; intros; try (by apply step_id).
  all: try (eapply step_once; [|by eauto]; cbn; done).
  - eapply step_once; [|eapply step_then; [eapply step_then; [eassumption|apply (step_add root)]|eassumption]]. cbn. naive_solver.
  - eapply step_once; [|eapply step_then; [eapply step_then; eassumption|eassumption]]. cbn. naive_solver.
  - eapply step_once; [|eapply step_then; eassumption]. done.
  - eapply step_once; [|eapply step_then; eassumption]. done.
  - eapply step_once; [|eapply step_then; eassumption]. done.
  - eapply step_weaken; [eapply step_then; [eapply step_then; eassumption|eassumption]|]. cbn. naive_solver.
Qed.
Lemma findSymbolicObjects_all es e a : e ∈ es → symbolic_in a e → a ∈ findSymbolicObjects UVH es.
Proof.
  unfold findSymbolicObjects. assert (H : ∀ s, finder_ok s → finder_ok (foldl (λ s e, finder_visit UVH e s) s es) ∧
    f_objects s ⊆ f_objects (foldl (λ s e, finder_visit UVH e s) s es) ∧
    ∀ e a, e ∈ es → symbolic_in a e → a ∈ f_objects (foldl (λ s e, finder_visit UVH e s) s es)).
  { induction es as [|x es IH]; intros s Hs; cbn; [split_and!; [done|done|by intros ? ? ?%elem_of_nil]|].
    destruct (proj1 finder_spec x s Hs) as (H1 & H2 & H3). destruct (IH _ H1) as (H4 & H5 & H6). split_and!; [done|set_solver|].
    intros y b [->|Hy]%elem_of_cons Hb; [by apply H5, H3|by eapply H6]. }
  apply (H (mkFinder [] [])). by intros ? ?%elem_of_nil.
Qed.
End Finder.

(** ** Conditions the cache is used for *)
(** The same bytes inside the arrays. *)
Definition same_bytes (env env' : assignment) : Prop := ∀ a i, 0 ≤ i < arr_size a → u8 (env a i) = u8 (env' a i).
(** An expression that has a value under every assignment, which depends on bytes inside the arrays only. *)
Record steady (e : Expr) : Prop := mkSteady {
  st_evaluable : evaluable e;
  st_defined env : is_Some (eval env e);
  st_bytes env env' : same_bytes env env' → eval env e = eval env' e
}.
Definition condition (c : Expr) : Prop := steady c ∧ getWidth c = Bool.
Definition steady_query (q : Query) : Prop := Forall condition (constraints q) ∧ steady (expr q).

Lemma condition_is_bool c env : condition c → eval env c = Some 0 ∨ eval env c = Some 1.
Proof.
  intros [Hs Hl]. destruct (st_defined c Hs env) as [v Hv]. pose proof (eval_range env c v (proj1 (proj1 (st_evaluable c Hs))) Hv) as Hb.
  rewrite Hl in Hb. destruct (bits_1 v Hb) as [-> | ->]; auto.
Qed.
Lemma steady_constant w v : wf (Constant w v) → steady (Constant w v).
Proof. intros Hw. split; [split; [by split_and!|done]|by intros; eexists|done]. Qed.

(** Right answers for the queries of a class. *)
Record right_on {S} (Q : Query → Prop) (I : S → Prop) (impl : SolverImpl S) : Prop := mkRightOn {
  ro_truth q s : I s → Q q → truth_query q → returns I (computeTruth impl q) s (truth_ok q);
  ro_validity q s : I s → Q q → truth_query q → returns I (computeValidity impl q) s (validity_ok q);
  ro_value q s : I s → Q q → value_query q → returns I (computeValue impl q) s (value_ok q);
  ro_values q objects s : I s → Q q → truth_query q → returns I (computeInitialValues impl q objects) s (values_ok q objects)
}.
Lemma right_right_on {S} (Q : Query → Prop) (I : S → Prop) impl : right I impl → right_on Q I impl.
Proof. intros [H1 H2 H3 H4]. split; auto. Qed.

Section Negation.
Context `{HA : !APInt, HC : !ExprCompare} (CAO : bool).
Lemma negation e : condition e → ∃ n, createIsZero CAO e tt = Done n tt ∧ condition n ∧
  ∀ env, (eval env n = Some 1 ↔ eval env e = Some 0) ∧ (eval env n = Some 0 ↔ eval env e = Some 1).
Proof.
  intros Hc. pose proof Hc as [[((Hw & Hn & Hz) & Hp) Hd Hb] Hl].
  destruct (createIsZero_builds CAO e Hw ltac:(rewrite Hl; lia)) as (n & En & Wn & Ln & An). cbn in Ln. exists n. split; [done|].
  assert (Hv : ∀ env, (eval env n = Some 1 ↔ eval env e = Some 0) ∧ (eval env n = Some 0 ↔ eval env e = Some 1)).
  { intros env. destruct (condition_is_bool e env Hc) as [E|E].
    - assert (E' : eval env n = Some 1) by (apply An, eval_cmp; exists 0, 0; rewrite E; done). rewrite E, E'. naive_solver.
    - assert (E' : eval env n = Some 0) by (apply An, eval_cmp; exists 1, 0; rewrite E; done). rewrite E, E'. naive_solver. }
  split; [|done]. pose proof (is_zero_small CAO e Hw Hn) as Hs. pose proof (closed_is_zero CAO e (conj Hz Hp)) as Hcl.
  unfold small_at, makes_closed, wlp in Hs, Hcl. rewrite En in Hs, Hcl. split; [|done]. split.
  - split; [|apply Hcl]. split; [done|]. split; [apply Hs|apply Hcl].
  - intros env. destruct (condition_is_bool e env Hc) as [E|E]; apply Hv in E; by eexists.
  - intros env env' He. specialize (Hb env env' He). destruct (condition_is_bool e env Hc) as [E|E]; rewrite E in Hb; symmetry in Hb; apply Hv in E, Hb; congruence.
Qed.
End Negation.

(** ** Assignments from the bytes of a solution *)
Section Bind.
Context `{HAd : !Addresses}.
(** The bytes are those of the assignment. *)
Definition faithful (a : Assignment) : Prop :=
  allowFreeValues a = false ∧ ∀ arr v, binding arr (bindings a) = Some v → v = initial_bytes (env_of a) arr.

Lemma bind_spec f a v bs : Forall (λ p, p.2 = f p.1) bs → v = f a →
  Forall (λ p, p.2 = f p.1) (bind a v bs) ∧ (∀ x, binding x (bind a v bs) = if decide (x = a) then Some (f x) else binding x bs).
Proof.
  intros Hbs Hv. assert (Hb : ∀ x w bs', Forall (λ p, p.2 = f p.1) bs' → binding x bs' = Some w → w = f x).
  { induction 1 as [|[y u] bs' Hy _ IH]; cbn; [done|]. destruct (Z.eqb_spec (addr y) (addr x)) as [E%addr_inj|]; [|done]. intros [= <-]. by subst. }
  subst v. induction Hbs as [|[y u] bs Hy Hbs IH]; cbn in *; [|subst u].
  { split; [by repeat constructor|]. intros x. destruct (Z.eqb_spec (addr a) (addr x)) as [E%addr_inj|E]; [subst; by rewrite decide_True|].
    rewrite decide_False by congruence. done. }
  destruct IH as [IH1 IH2]. destruct (Z.ltb_spec (addr a) (addr y)); [|destruct (Z.eqb_spec (addr y) (addr a)) as [E%addr_inj|Hne]].
  - split; [by repeat constructor|]. intros x. cbn. destruct (Z.eqb_spec (addr a) (addr x)) as [E%addr_inj|E]; [subst; by rewrite decide_True|].
    rewrite decide_False by congruence. done.
  - subst. split; [by constructor|]. intros x. cbn. destruct (Z.eqb_spec (addr a) (addr x)) as [E%addr_inj|E]; [subst; by rewrite decide_True|].
    by rewrite decide_False by congruence.
  - split; [by constructor|]. intros x. cbn. rewrite IH2. destruct (Z.eqb_spec (addr y) (addr x)) as [E%addr_inj|E]; [|done]. subst.
    rewrite decide_False by congruence. done.
Qed.
Lemma bind_all_spec f objects : ∀ bs, Forall (λ p, p.2 = f p.1) bs →
  ∃ bs', bind_all objects (f <$> objects) bs tt = Done bs' tt ∧
    ∀ x, binding x bs' = if decide (x ∈ objects) then Some (f x) else binding x bs.
Proof.
  induction objects as [|a objects IH]; intros bs Hbs; cbn; [exists bs; by split|].
  destruct (bind_spec f a (f a) bs Hbs eq_refl) as [H1 H2]. destruct (IH _ H1) as (bs' & E & H3). exists bs'. split; [done|].
  intros x. rewrite H3, H2. destruct (decide (x ∈ objects)), (decide (x = a)), (decide (x ∈ a :: objects)); set_solver.
Qed.
Lemma initial_bytes_lookup env a i : 0 ≤ i < arr_size a → initial_bytes env a !! Z.to_nat i = Some (u8 (env a i)).
Proof.
  intros Hi. unfold initial_bytes. rewrite list_lookup_fmap, lookup_seq_lt by lia. cbn. rewrite Z2Nat.id by lia. done.
Qed.
Lemma initial_bytes_ext env env' a : (∀ i, 0 ≤ i < arr_size a → u8 (env a i) = u8 (env' a i)) → initial_bytes env a = initial_bytes env' a.
Proof. intros H. apply list_fmap_ext. intros n i [-> Hi]%lookup_seq. cbn. apply H. lia. Qed.
Lemma u8_idem x : u8 (u8 x) = u8 x.
Proof. apply wrapu_small. apply (wrapu_range 8). lia. Qed.

(** The assignment made from the bytes of [env] for some arrays has the same bytes in them. *)
Lemma new_Assignment_spec env objects : ∃ a, new_Assignment objects (initial_bytes env <$> objects) tt = Done a tt ∧ faithful a ∧
  (∀ arr, arr ∉ objects → binding arr (bindings a) = None) ∧
  ∀ arr i, arr ∈ objects → 0 ≤ i < arr_size arr → u8 (env_of a arr i) = u8 (env arr i).
Proof.
  destruct (bind_all_spec (initial_bytes env) objects []) as (bs & E & Hb); [done|]. exists (mkAssignment false bs). unfold new_Assignment.
  rewrite (bind_done _ _ _ _ _ E). split; [done|].
  assert (Hu : ∀ arr i, arr ∈ objects → 0 ≤ i < arr_size arr → u8 (env_of (mkAssignment false bs) arr i) = u8 (env arr i)).
  { intros arr i Ha Hi. unfold env_of, given. cbn. rewrite Hb, decide_True by done. cbn. rewrite initial_bytes_lookup by done. cbn. apply u8_idem. }
  split_and!; [split; [done|]|intros arr Ha; cbn; by rewrite Hb, decide_False|done].
  cbn. intros arr v. rewrite Hb. destruct (decide (arr ∈ objects)) as [Ha|]; [|done]. intros [= <-]. apply initial_bytes_ext. intros i Hi. by rewrite Hu.
Qed.
(** What the cache gives back for any arrays. *)
Lemma object_values_spec a arr : faithful a → object_values a arr = initial_bytes (env_of a) arr.
Proof.
  intros [_ Hf]. unfold object_values. destruct (binding arr (bindings a)) as [v|] eqn:E; [by apply Hf|]. cbn.
  assert (Hz : ∀ i, env_of a arr i = 0) by (intros i; unfold env_of, given; by rewrite E).
  unfold initial_bytes. generalize (Z.to_nat (arr_size arr)) as n. intros n. apply list_eq. intros k.
  rewrite list_lookup_fmap. destruct (decide (k < n)%nat).
  - rewrite lookup_replicate_2, lookup_seq_lt by lia. cbn. by rewrite Hz.
  - rewrite (proj1 (lookup_replicate_None n 0 k)), lookup_seq_ge by lia. done.
Qed.
End Bind.

(** ** The cache *)
Section Cache.
Context `{HA : !APInt, HC : !ExprCompare, HAd : !Addresses, HT : !TotalOrder Expr} (CAO UVH TryAll Experimental Debug : bool).
Context {S : Type} (I : S → Prop) (solver : SolverImpl S) (HR : right_on steady_query I solver).

(** What an answer says about a set of conditions. *)
Definition holds_in (env : assignment) (key : list Expr) : Prop := ∀ c, c ∈ key → eval env c = Some 1.
Definition answers (key : list Expr) (a : option Assignment) : Prop :=
  match a with Some a => faithful a ∧ holds_in (env_of a) key | None => ∀ env, ¬ holds_in env key end.
Record cex_inv (c : @cex_state S) : Prop := mkCexInv {
  ci_solver : I (x_solver c);
  ci_tree : node_ok None (x_cache c);
  ci_entries key a : MapOfSets.lookup key (x_cache c) = Some a → answers key a;
  ci_table : Forall faithful (assignmentsTable c)
}.

Lemma answers_subset key key' a : key ⊆ key' → answers key' (Some a) → answers key (Some a).
Proof. intros Hs [Hf H]. split; [done|]. intros c Hc. by apply H, Hs. Qed.
Lemma answers_superset key key' : key ⊆ key' → answers key None → answers key' None.
Proof. intros Hs H env He. apply (H env). intros c Hc. by apply He, Hs. Qed.
Lemma satisfies_answers a key : faithful a → Forall condition key →
  ∃ b, Assignment_satisfies CAO UVH a key tt = Done b tt ∧ (b = true ↔ answers key (Some a)).
Proof.
  intros Hf Hk. destruct (satisfies_spec CAO UVH a key (proj1 Hf)) as (b & E & Hb).
  { eapply Forall_impl; [exact Hk|]. intros c [Hs Hl]. split_and!; [apply Hs|done|apply Hs]. }
  exists b. split; [done|]. rewrite Hb, Forall_forall. unfold answers, holds_in. tauto.
Qed.

(** *** Searching *)
Lemma try_all_spec key c t : cex_inv c → Forall condition key → Forall faithful t →
  returns cex_inv (try_all CAO UVH key t) c (λ r, ∀ a, r = Some a → answers key a).
Proof.
  intros Hc Hk. induction 1 as [|a t Ha Ht IH]; cbn; [by apply returns_ret|]. destruct (satisfies_answers a key Ha Hk) as (b & E & Hb).
  eapply returns_lift_bind; [exact E|]. destruct b; [|exact IH]. apply returns_ret; [done|]. intros ? [= <-]. by apply Hb.
Qed.
Lemma search_spec key c : cex_inv c → Forall condition key → is_set key →
  returns cex_inv (searchForAssignment CAO UVH TryAll key) c (λ r, ∀ a, r = Some a → answers key a).
Proof.
  intros Hc Hk Hset. pose proof Hc as [_ Ht He Hta]. unfold searchForAssignment, returns. rewrite (bind_done _ _ _ (x_cache c) c) by done.
  destruct (MapOfSets.lookup key (x_cache c)) as [r|] eqn:El; [apply (returns_ret cex_inv); [done|]; intros ? [= <-]; by apply He|].
  pose proof (findSuperset_spec (λ a, negb (is_null a)) (x_cache c) None key Ht Hset) as Hsup.
  destruct (findSuperset _ (x_cache c) key) as [[a|]|] eqn:Esup.
  { destruct Hsup as (_ & path & Hs & Hl). apply (returns_ret cex_inv); [done|]. intros ? [= <-]. eapply answers_subset; [exact Hs|]. by apply He. }
  { by destruct Hsup as [? _]. }
  destruct TryAll.
  - pose proof (findSubset_spec is_null (x_cache c) None key Ht Hset) as Hsub. destruct (findSubset is_null (x_cache c) key) as [[a|]|] eqn:Esub.
    + by destruct Hsub as [? _].
    + destruct Hsub as (_ & path & Hs & Hl). apply (returns_ret cex_inv); [done|]. intros ? [= <-].
      eapply answers_superset; [by apply sublist_subseteq|by apply He].
    + rewrite (bind_done _ _ _ (assignmentsTable c) c) by done. by apply try_all_spec.
  - pose proof (findSubset_spec (stops_at CAO UVH key) (x_cache c) None key Ht Hset) as Hsub.
    destruct (findSubset (stops_at CAO UVH key) (x_cache c) key) as [[a|]|] eqn:Esub; cbn [tested].
    + destruct Hsub as (Hst & path & Hs & Hl). destruct (He _ _ Hl) as [Hf _]. destruct (satisfies_answers a key Hf Hk) as (b & E & Hb).
      unfold stops_at in Hst. rewrite E in Hst. eapply (returns_lift_bind cex_inv); [exact E|]. apply returns_ret; [done|]. intros ? [= <-]. by apply Hb.
    + destruct Hsub as (_ & path & Hs & Hl). apply (returns_ret cex_inv); [done|]. intros ? [= <-].
      eapply answers_superset; [by apply sublist_subseteq|by apply He].
    + by apply (returns_ret cex_inv).
Qed.

(** *** The key of a query *)
Lemma key_of_spec cs : is_set (key_of cs) ∧ ∀ c, c ∈ key_of cs ↔ c ∈ cs.
Proof.
  unfold key_of. assert (H : ∀ s, is_set s → is_set (foldl (λ s c, set_insert c s) s cs) ∧ ∀ c, c ∈ foldl (λ s c, set_insert c s) s cs ↔ c ∈ s ∨ c ∈ cs).
  { induction cs as [|x cs IH]; intros s Hs; cbn; [split; [done|]; set_solver|]. destruct (IH (set_insert x s) (set_insert_set x s Hs)) as [H1 H2].
    split; [done|]. intros c. rewrite H2, set_insert_elem. set_solver. }
  destruct (H [] ltac:(constructor)) as [H1 H2]. split; [done|]. intros c. rewrite H2. set_solver.
Qed.
(** The conditions of a key are the constraints and the negation of the expression, except where that is a constant. *)
Definition key_for (q : Query) (key : list Expr) : Prop :=
  is_set key ∧ Forall condition key ∧ ∀ env, holds_in env key ↔ holds_in env (constraints q) ∧ eval env (expr q) = Some 0.
Lemma conditions_perm l l' : (∀ c : Expr, c ∈ l ↔ c ∈ l') → Forall condition l' → Forall condition l.
Proof. intros H. rewrite !Forall_forall. intros Hl c Hc. by apply Hl, H. Qed.
Definition counterexample (q : Query) (a : option Assignment) : Prop :=
  match a with
  | Some a => faithful a ∧ holds_in (env_of a) (constraints q) ∧ eval (env_of a) (expr q) = Some 0
  | None => ∀ env, holds_in env (constraints q) → eval env (expr q) = Some 1
  end.
Lemma key_for_answers q key a : condition (expr q) → key_for q key → answers key a → counterexample q a.
Proof.
  intros Hq (_ & _ & Hk) Ha. destruct a as [a|]; [destruct Ha as [? H%Hk]; by split|]. intros env He.
  destruct (condition_is_bool _ env Hq) as [E|E]; [|done]. destruct (Ha env). by apply Hk.
Qed.
Lemma lookupAssignment_spec q c : cex_inv c → steady_query q → getWidth (expr q) = Bool →
  returns cex_inv (lookupAssignment CAO UVH TryAll q) c (λ p, (∀ a, p.2 = Some a → counterexample q a) ∧ (p.2 = None → key_for q p.1)).
Proof.
  intros Hc [Hcs He] Hl. assert (Hq : condition (expr q)) by done. unfold lookupAssignment. destruct (negation CAO (expr q) Hq) as (n & En & Hn & Hv).
  eapply returns_lift_bind; [exact En|]. destruct (key_of_spec (constraints q)) as [Hset Hkey]. pose proof (conditions_perm _ _ Hkey Hcs) as Hkc.
  assert (Hh : ∀ env, holds_in env (key_of (constraints q)) ↔ holds_in env (constraints q)) by (intros env; split; intros H x Hx; by apply H, Hkey).
  assert (Hgo : ∀ key, key_for q key → returns cex_inv (r ← searchForAssignment CAO UVH TryAll key; mret (key, r)) c
    (λ p, (∀ a, p.2 = Some a → counterexample q a) ∧ (p.2 = None → key_for q p.1))).
  { intros key Hk. eapply returns_bind; [apply search_spec; [done|apply Hk..]|]. intros r c' Hc' Hr. apply returns_ret; [done|]. cbn.
    split; [|done]. intros a Ea. eapply key_for_answers; [done|exact Hk|by apply Hr]. }
  assert (Hins : key_for q (set_insert n (key_of (constraints q)))).
  { split; [by apply set_insert_set|]. split.
    - apply Forall_forall. intros x [->|Hx]%set_insert_elem; [done|]. rewrite Forall_forall in Hkc. by apply Hkc.
    - intros env. rewrite <- Hh. split.
      + intros H. split; [intros x Hx; apply H, set_insert_elem; by right|]. apply Hv, H, set_insert_elem. by left.
      + intros [H1 H2] x [->|Hx]%set_insert_elem; [by apply Hv|by apply H1]. }
  destruct n as [w v| | | | | | | | | |]; try (by apply Hgo). destruct Hn as [Hns Hnl]. cbn in Hnl. subst w.
  destruct (bits_1 v) as [->| ->]; [apply (proj1 (proj1 (st_evaluable _ Hns)))|..].
  - eapply returns_lift_bind; [reflexivity|]. apply returns_ret; [done|]. cbn. split; [|done]. intros ? [= <-] env _. by apply Hv.
  - eapply returns_lift_bind; [reflexivity|]. apply Hgo. split; [done|]. split; [done|]. intros env. rewrite Hh. split; [|tauto]. intros ?. split; [done|]. by apply Hv.
Qed.

(** *** Asking the solver *)
Lemma bindings_compare_0 a b : bindings_compare a b = 0 → a = b.
Proof.
  revert b. induction a as [|[x v] a IH]; intros [|[y w] b]; cbn; try done. rewrite !lex_0, three_0, tokens_compare_0. intros [[E%addr_inj ->] Hb].
  subst. f_equal. by apply IH.
Qed.
Lemma memoize_spec a t : faithful a → Forall faithful t → (memoize a t).1 = a ∧ Forall faithful (memoize a t).2.
Proof.
  intros Ha. induction 1 as [|b t Hb Ht IH]; cbn; [split; [done|by apply Forall_singleton]|]. destruct (_ <? 0); [cbn; split; [done|by rewrite !Forall_cons]|].
  destruct (Z.eqb_spec (bindings_compare (bindings a) (bindings b)) 0) as [E%bindings_compare_0|].
  - cbn. split; [|by constructor]. destruct a, b, Ha, Hb. cbn in *. congruence.
  - destruct (memoize a t) as [x t']. cbn in *. destruct IH as [-> ?]. split; [done|by constructor].
Qed.
(** The assignment of a solution satisfies the key. *)
Lemma solution_answers q key env a : key_for q key → holds_in env (constraints q) → eval env (expr q) = Some 0 → faithful a →
  (∀ arr, arr ∉ findSymbolicObjects UVH key → binding arr (bindings a) = None) →
  (∀ arr i, arr ∈ findSymbolicObjects UVH key → 0 ≤ i < arr_size arr → u8 (env_of a arr i) = u8 (env arr i)) → answers key (Some a).
Proof.
  intros (Hset & Hcond & Hk) H1 H2 Hf Hout Hin. split; [done|]. intros c Hc. rewrite Forall_forall in Hcond.
  pose proof (proj2 (Hk env) (conj H1 H2) c Hc) as <-.
  set (env2 := λ arr i, if decide (arr ∈ findSymbolicObjects UVH key) then env arr i else env_of a arr i).
  rewrite (proj1 (eval_arrays env env2) c).
  - apply (st_bytes c (proj1 (Hcond c Hc))). intros arr i Hi. unfold env2. case_decide; [by apply Hin|done].
  - intros arr Ha. unfold env2. destruct (decide _) as [_|Hn]; [done|]. destruct Hn. by eapply findSymbolicObjects_all.
Qed.
Lemma x_insert_spec key a c : cex_inv c → is_set key → answers key a → returns cex_inv (x_insert key a) c (λ _, True).
Proof.
  intros [Hs Ht He Hta] Hset Ha. eexists _, _. split; [reflexivity|]. split; [|done]. split; cbn; [done|by apply insert_ok| |done].
  intros key' a'. rewrite (lookup_insert key a None) by done. case_decide; [subst; by intros [= <-]|apply He].
Qed.
Lemma returns_x_below {A} (m : M S A) c Q : cex_inv c → returns I m (x_solver c) Q → returns cex_inv (x_below m) c Q.
Proof.
  intros [Hs Ht He Hta] (a & s & E & Hi & HQ). exists a, (mkCex s (x_cache c) (assignmentsTable c)). unfold x_below, zoom. rewrite E. by split_and!.
Qed.
Lemma getAssignment_spec q c : cex_inv c → steady_query q → truth_query q →
  returns cex_inv (getAssignment CAO UVH TryAll Debug solver q) c (λ r, ∀ a, r = Some a → counterexample q a).
Proof.
  intros Hc Hq Ht. assert (Hce : condition (expr q)) by (split; [apply Hq|apply Ht]). unfold getAssignment.
  eapply returns_bind; [by apply lookupAssignment_spec, Ht|]. intros [key found] c1 Hc1 [Hf Hk]. cbn [fst snd] in *.
  destruct found as [a|]; [apply returns_ret; [done|]; intros ? [= <-]; by apply Hf|]. specialize (Hk eq_refl). pose proof Hk as (Hset & Hcond & _).
  eapply returns_ok; [apply returns_x_below; [done|by apply (ro_values _ _ _ HR); [apply Hc1|..]]|done|].
  intros [values|] c2 Hc2 Hv; cbn in Hv.
  - destruct Hv as (env & [_ He] & E0 & ->). destruct (new_Assignment_spec env (findSymbolicObjects UVH key)) as (a & Ea & Hfa & Hout & Hin).
    pose proof (solution_answers q key env a Hk He E0 Hfa Hout Hin) as Hans.
    eapply returns_lift_bind; [exact Ea|]. destruct (memoize_spec a (assignmentsTable c2) Hfa (ci_table c2 Hc2)) as [Em Ht'].
    unfold returns. rewrite (bind_done _ _ _ (assignmentsTable c2) c2) by done. destruct (memoize a (assignmentsTable c2)) as [b t]. cbn in Em, Ht'. subst b.
    rewrite (bind_done _ _ _ tt (mkCex (x_solver c2) (x_cache c2) t)) by done. fold (returns (A := option (option Assignment)) cex_inv).
    assert (Hc3 : cex_inv (mkCex (x_solver c2) (x_cache c2) t)) by (by destruct Hc2).
    assert (Hdbg : returns cex_inv (if Debug then b ← lift_res (Assignment_satisfies CAO UVH a key); c_assert b else mret tt) (mkCex (x_solver c2) (x_cache c2) t) (λ _, True)).
    { destruct Debug; [|by apply returns_ret]. destruct (satisfies_answers a key Hfa Hcond) as (b & E & Hb). eapply returns_lift_bind; [exact E|].
      apply returns_assert; [done|by apply Hb|done]. }
    eapply returns_bind; [exact Hdbg|]. intros _ c4 Hc4 _. eapply returns_bind; [by apply x_insert_spec|]. intros _ c5 Hc5 _. apply returns_ret; [done|].
    intros ? [= <-]. by eapply key_for_answers.
  - assert (Hans : answers key None).
    { intros env [He E0]%Hk. specialize (Hv env (conj Logic.I He)). congruence. }
    eapply returns_bind; [by apply x_insert_spec|]. intros _ c5 Hc5 _. apply returns_ret; [done|]. intros ? [= <-]. by eapply key_for_answers.
Qed.

(** *** The queries *)
Lemma false_query q : value_query q → truth_query (withFalse q).
Proof. intros (Hf & _). split; [|done]. split; [done|]. split; [by vm_compute; repeat split|]. intros env _. by exists 0. Qed.
Lemma false_steady q : Forall condition (constraints q) → steady_query (withFalse q).
Proof. intros H. split; [done|]. apply steady_constant. by vm_compute; repeat split. Qed.
Lemma sat_holds q env : sat q env ↔ holds_in env (constraints q).
Proof. split; [by intros [_ H]|]. by intros H. Qed.
(** An assignment of the path. *)
Lemma path_assignment q c : cex_inv c → steady_query q → value_query q →
  returns cex_inv (getAssignment CAO UVH TryAll Debug solver (withFalse q)) c
    (λ r, r = None ∨ ∃ a v, r = Some (Some a) ∧ sat q (env_of a) ∧ eval (env_of a) (expr q) = Some v ∧
      Assignment_evaluate CAO UVH a (expr q) tt = Done (Constant (getWidth (expr q)) v) tt).
Proof.
  intros Hc Hq Hv. eapply returns_mono; [apply getAssignment_spec; [done|apply false_steady, Hq|by apply false_query]|].
  intros [[a|]|] Ha; [..|by left]; right; specialize (Ha _ eq_refl).
  - destruct Ha as (Hf & Hh & _). destruct (st_defined _ (proj2 Hq) (env_of a)) as [v Ev]. exists a, v. split_and!; [done|by apply sat_holds|done|].
    apply Assignment_evaluate_spec; [apply Hf|apply Hq|done].
  - destruct Hv as ([_ [env [_ Hs]]] & _). by specialize (Ha env Hs).
Qed.
Lemma cex_truth q c : cex_inv c → steady_query q → truth_query q → returns cex_inv (cex_computeTruth CAO UVH TryAll Experimental Debug solver q) c (truth_ok q).
Proof.
  intros Hc Hq Ht. unfold cex_computeTruth.
  assert (Hpre : returns cex_inv (if Experimental then n ← negateExpr CAO q; p ← lookupAssignment CAO UVH TryAll n;
    mret (match p.2 with Some a => is_null a | None => false end) else mret false) c (λ _, True)).
  { destruct Experimental; [|by apply returns_ret]. destruct (negation CAO (expr q) (conj (proj2 Hq) (proj2 Ht))) as (n & En & [Hn Hnl] & _).
    unfold negateExpr, returns. rewrite (bind_done _ _ c (withExpr q n) c) by (unfold mbind, M_bind, lift_res; by rewrite En).
    eapply returns_bind; [apply lookupAssignment_spec; [done|by split; [apply Hq|]|done]|]. intros p c' Hc' _. by apply returns_ret. }
  eapply returns_bind; [exact Hpre|]. intros [] c1 Hc1 _; [by apply returns_ret|].
  eapply returns_ok; [by apply getAssignment_spec|done|]. intros a c2 Hc2 Ha. specialize (Ha a eq_refl). apply returns_ret; [done|].
  destruct a as [a|]; cbn in Ha |- *; (split; [|done]) || (split; [done|]).
  - intros _. exists (env_of a). split; [apply sat_holds, Ha|apply Ha].
  - intros _ env Hs. by apply Ha, sat_holds.
Qed.
Lemma cex_validity q c : cex_inv c → steady_query q → truth_query q → returns cex_inv (cex_computeValidity CAO UVH TryAll Debug solver q) c (validity_ok q).
Proof.
  intros Hc Hq Ht. assert (Hce : condition (expr q)) by (split; [apply Hq|apply Ht]). unfold cex_computeValidity.
  eapply returns_ok; [by apply path_assignment, Ht|done|]. intros o c1 Hc1 [[=]|(a & v & [= ->] & Hs & Ev & Ee)].
  eapply returns_lift_bind; [exact Ee|]. apply returns_assert_bind; [done|]. rewrite (proj2 Hce). eapply returns_lift_bind; [cbn; reflexivity|].
  destruct (condition_is_bool _ (env_of a) Hce) as [E|E]; rewrite E in Ev; injection Ev as <-; cbn [Z.eqb Pos.eqb].
  - destruct (negation CAO (expr q) Hce) as (n & En & Hn & Hv). unfold negateExpr, returns.
    rewrite (bind_done _ _ c1 (withExpr q n) c1) by (unfold mbind, M_bind, lift_res; by rewrite En).
    assert (Hnt : truth_query (withExpr q n)).
    { split; [|apply Hn]. split; [apply Ht|]. split; [apply (proj1 (proj1 (st_evaluable _ (proj1 Hn))))|]. intros env _. apply (st_defined _ (proj1 Hn)). }
    eapply returns_ok; [apply getAssignment_spec; [done|split; [apply Hq|apply Hn]|done]|done|]. intros b c2 Hc2 Hb. specialize (Hb b eq_refl). apply returns_ret; [done|].
    destruct b as [b|]; cbn in Hb |- *.
    + destruct Hb as (_ & Hh & E0). split; [exists (env_of b)|by exists (env_of a)]. split; [by apply sat_holds|by apply Hv].
    + intros env Hse. apply Hv, Hb. by apply sat_holds in Hse.
  - eapply returns_ok; [by apply getAssignment_spec|done|]. intros b c2 Hc2 Hb. specialize (Hb b eq_refl). apply returns_ret; [done|].
    destruct b as [b|]; cbn in Hb |- *.
    + split; [by exists (env_of a)|]. exists (env_of b). split; [apply sat_holds, Hb|apply Hb].
    + intros env Hse. by apply Hb, sat_holds.
Qed.
Lemma cex_value q c : cex_inv c → steady_query q → value_query q → returns cex_inv (cex_computeValue CAO UVH TryAll Debug solver q) c (value_ok q).
Proof.
  intros Hc Hq Hv. unfold cex_computeValue. eapply returns_ok; [by apply path_assignment|done|].
  intros o c1 Hc1 [[=]|(a & v & [= ->] & Hs & Ev & Ee)]. eapply returns_lift_bind; [exact Ee|]. apply returns_assert_bind; [done|]. apply returns_ret; [done|].
  intros r [= <-]. by exists v, (env_of a).
Qed.
Lemma cex_values q objects c : cex_inv c → steady_query q → truth_query q →
  returns cex_inv (cex_computeInitialValues CAO UVH TryAll Debug solver q objects) c (values_ok q objects).
Proof.
  intros Hc Hq Ht. unfold cex_computeInitialValues. eapply returns_ok; [by apply getAssignment_spec|done|].
  intros a c1 Hc1 Ha. specialize (Ha a eq_refl). apply returns_ret; [done|]. destruct a as [a|]; cbn in Ha |- *.
  - destruct Ha as (Hf & Hh & E0). exists (env_of a). split_and!; [by apply sat_holds|done|]. apply list_fmap_ext. intros _ arr _. by apply object_values_spec.
  - intros env Hse. by apply Ha, sat_holds.
Qed.
Lemma cex_right : right_on steady_query cex_inv (createCexCachingSolver CAO UVH TryAll Experimental Debug solver).
Proof. split; intros; [by apply cex_truth|by apply cex_validity|by apply cex_value|by apply cex_values]. Qed.
Lemma new_cex_inv s : I s → cex_inv (new_cex s).
Proof. intros Hs. split; [done|apply new_node_ok| |constructor]. intros key a. cbn. by rewrite lookup_new. Qed.
End Cache.

(** C18: (refinement) The counterexample cache keeps right answers right, with every setting of its options.  Over a solver that
    answers right about the queries below, a cache that was filled by such queries answers them right: what [computeTruth], [computeValidity],
    [computeValue] and [computeInitialValues] return is true of the assignments that satisfy the constraints, whether it comes from the
    same set, from an assignment of a larger set, from a smaller set without assignment, from an assignment that was tried, or from the solver; and
    the cache is again in such a state.  It starts in one.  The queries are those of [steady_query]: their expressions contain no
    [NotOptimized] (on which the cache fails an assertion, [not_optimized_value_fails]), compute with at most 64 bits, have a value under every
    assignment (so no division by 0) and depend only on bytes inside the arrays. *)
Theorem cex_cache_right `{HA : !APInt, HC : !ExprCompare, HAd : !Addresses, HT : !TotalOrder Expr}
  (ConstArrayOpt UseVisitorHash CexCacheTryAll CexCacheExperimental DebugCexCacheCheckBinding : bool)
  {S : Type} (I : S → Prop) (solver : SolverImpl S) : right_on steady_query I solver →
  right_on steady_query (cex_inv I)
    (createCexCachingSolver ConstArrayOpt UseVisitorHash CexCacheTryAll CexCacheExperimental DebugCexCacheCheckBinding solver) ∧
  ∀ s, I s → cex_inv I (new_cex s).
Proof. intros HR. split; [by apply cex_right|]. intros s Hs. by apply new_cex_inv. Qed.

(** One byte that is 7: the solver knows a solution of that, the cache computes the value of the byte plus 1. *)
Definition byte_array : Array := mkArray 0 "b" 1 [].
Definition byte_0 : Expr := Read byte_array UNil (Constant 32 0).
Definition is_seven : Expr := Cmp KEq (Constant 8 7) byte_0.
Definition seven_impl : SolverImpl unit :=
  mkImpl (λ _, mret None) (λ _, mret None) (λ _, mret None)
    (λ q objects, mret (if decide (constraints q = [is_seven] ∧ expr q = Constant 1 0 ∧ objects = [byte_array]) then Some (Some [[7]]) else None)).
Lemma seven_right : right_on steady_query (λ _, True) seven_impl.
Proof.
  split; intros q; intros; try (apply returns_ret; [done|]; by split || done). apply returns_ret; [done|]. case_decide as Hd; [|done].
  destruct Hd as (Ec & Ee & ->). exists (λ _ _, 7). split_and!; [|by rewrite Ee|done]. split; [done|]. rewrite Ec. by intros c ->%list_elem_of_singleton.
Qed.
Lemma byte_steady e : (∀ env env', u8 (env byte_array 0) = u8 (env' byte_array 0) → eval env e = eval env' e) → evaluable e → (∀ env, is_Some (eval env e)) → steady e.
Proof. intros He Hv Hd. split; [done|done|]. intros env env' H. apply He, H. cbn. lia. Qed.
Lemma cex_cache_right_witness :
  let HA := z_apint in let HC := structural_compare in let HAd := encoded_addresses in let HT := Expr_order (λ _, 0) in
  let top := createCexCachingSolver true true false false true seven_impl in
  let q := mkQuery [is_seven] (Arith KAdd (Constant 8 1) byte_0) in
  (∃ c, computeValue top q (new_cex tt) = Done (Some (Constant 8 8)) c) ∧ value_ok q (Some (Constant 8 8)).
Proof.
  intros HA HC HAd HT top q. destruct (cex_cache_right true true false false true (λ _, True) seven_impl seven_right) as [HR Hnew].
  assert (Hst : steady_query q).
  { assert (Hs : ∀ e, e = is_seven ∨ e = expr q → steady e).
    { intros e [->| ->]; (apply byte_steady; [intros env env' E; cbn; unfold initial_byte; cbn; by rewrite E|vm_compute; repeat split; congruence || by intros|by intros; eexists]). }
    split; [|by apply Hs; right]. apply Forall_singleton. split; [by apply Hs; left|done]. }
  assert (Hq : value_query q).
  { split; [split|split].
    - repeat constructor; vm_compute; congruence || done.
    - exists (λ _ _, 7). split; [done|]. by intros c ->%list_elem_of_singleton.
    - vm_compute; repeat split; congruence || by intros.
    - intros env _. by eexists. }
  destruct (ro_value _ _ _ HR q (new_cex tt) (Hnew tt Logic.I) Hst Hq) as (r & c & E & _ & Hv).
  assert (Er : r = Some (Constant 8 8)) by (vm_compute in E; by injection E). subst r. split; [exists c; exact E|exact Hv].
Defined.

(** An expression marked as not to be optimised is not evaluated to a constant: asking the cache for its value fails an
    assertion. *)
Theorem not_optimized_value_fails :
  let HA := z_apint in let HC := structural_compare in let HAd := encoded_addresses in let HT := Expr_order (λ _, 0) in
  let top := createCexCachingSolver true true false false false seven_impl in
  ∃ c, computeValue top (mkQuery [is_seven] (NotOptimized byte_0)) (new_cex tt) = Halt AssertFailure c.
Proof. eexists. vm_compute. reflexivity. Qed.
(** With [CexCacheExperimental], a query that is known to be false is answered with a failure. *)
Theorem experimental_hit_fails :
  let HA := z_apint in let HC := structural_compare in let HAd := encoded_addresses in let HT := Expr_order (λ _, 0) in
  let known := λ c, mkCex tt (insert (key_of [Cmp KEq (Constant 1 0) is_seven; is_seven]) None (x_cache c)) (assignmentsTable c) in
  let q := mkQuery [is_seven] (Cmp KEq (Constant 1 0) is_seven) in
  (∃ c, computeTruth (createCexCachingSolver true true false true false seven_impl) q (known (new_cex tt)) = Done None c) ∧
  ∃ c, lookupAssignment true true false q (known (new_cex tt)) = Done ([is_seven], None) c.
Proof. split; eexists; vm_compute; reflexivity. Qed.
