(* ===== verification/PathExec.v ===== *)
(** * Memory operations on paths

    src/klee/lib/Core/Executor.cpp: loads, stores, allocation and release of memory by a program whose pointers are
    expressions.  An operation asks the solver which objects a pointer can point to, forks a path for each of them, and
    ends the paths on which the access is an error.

    A path is the part of an [ExecutionState] these operations work on: the constraints, the address space, the cells of
    the registers, the symbolic objects it has made, and how it ended; [ExecStates] has the part that keeps track of the states.  The engine runs without seeds
    and without a replay file.  The texts of messages, the counters of the statistics and the files that record the paths are
    left out; what the code reads from them and from the memory manager and the random numbers is the class [EngineEnv]. *)
From stdpp Require Import pretty.
From S2P Require Import Prelude Expr ExprCreate Memory ImmutableTree AddressSpace Solver Visitor.

(** ** Paths *)
Abbreviation stid := nat (only parsing).
(** [terminateStateEarly], or [terminateStateOnError] with the suffix of the test case. *)
Inductive ending : Type := Early | OnError (suffix : string).
#[global] Instance ending_eq_dec : EqDecision ending.
Proof. solve_decision. Defined.

Record path := mkPath {
  p_constraints : constraints_ty; p_space : asid; locals : gmap Z Expr; depth : Z; forkDisabled : bool;
  symbolics : list (MemoryObject * Array); arrayNames : gset string; p_end : option ending
}.
Definition set_constraints cs p := mkPath cs (p_space p) (locals p) (depth p) (forkDisabled p) (symbolics p) (arrayNames p) (p_end p).
Definition set_locals f p := mkPath (p_constraints p) (p_space p) (f (locals p)) (depth p) (forkDisabled p) (symbolics p) (arrayNames p) (p_end p).
Definition set_depth d p := mkPath (p_constraints p) (p_space p) (locals p) d (forkDisabled p) (symbolics p) (arrayNames p) (p_end p).
Definition set_as i p := mkPath (p_constraints p) i (locals p) (depth p) (forkDisabled p) (symbolics p) (arrayNames p) (p_end p).
Definition set_end x p := mkPath (p_constraints p) (p_space p) (locals p) (depth p) (forkDisabled p) (symbolics p) (arrayNames p) (Some x).

(** [ExecutionState::addSymbolic], and [arrayNames.insert]. *)
Definition addSymbolic mo array p :=
  mkPath (p_constraints p) (p_space p) (locals p) (depth p) (forkDisabled p) (symbolics p ++ [(mo, array)]) (arrayNames p) (p_end p).
Definition add_arrayName name p :=
  mkPath (p_constraints p) (p_space p) (locals p) (depth p) (forkDisabled p) (symbolics p) ({[ name ]} ∪ arrayNames p) (p_end p).

(** The options, and the target. *)
Record options := mkOptions {
  ConstArrayOpt : bool; UseVisitorHash : bool; isLittleEndian : bool; PointerWidth : Z;
  SimplifySymIndices : bool; MaxSymArraySize : Z; RandomizeFork : bool; MaxDepth : Z; MakeConcreteSymbolic : Z
}.

(** What the engine reads from its surroundings: whether the instruction or the call path has used its share of the forks or
    of the solver's time, whether forking is inhibited (the memory limit, a global switch, the number of forks), a random
    bit, a random number, the solver's timer. *)
Class EngineEnv (E : Type) := {
  over_share : E → bool * E;
  inhibited : E → bool * E;
  coin : E → bool * E;
  random : E → Z * E
}.

Section PathExec.
Context `{HA : !APInt, HC : !ExprCompare} (opts : options).
Context {S : Type} (impl : SolverImpl S) (expired : M S bool) {E : Type} `{HE : !EngineEnv E}.

Record world := mkWorld { w_mem : mem; w_solver : S; w_env : E; paths : gmap stid path; next_path : stid }.
Definition in_mem {A} (m : M mem A) : M world A := zoom w_mem (λ v w, mkWorld v (w_solver w) (w_env w) (paths w) (next_path w)) m.
Definition in_solver {A} (m : M S A) : M world A := zoom w_solver (λ v w, mkWorld (w_mem w) v (w_env w) (paths w) (next_path w)) m.
Definition in_env {A} (f : E → A * E) : M world A := λ w, let '(a, v) := f (w_env w) in Done a (mkWorld (w_mem w) (w_solver w) v (paths w) (next_path w)).
Definition set_paths ps w := mkWorld (w_mem w) (w_solver w) (w_env w) ps (next_path w).
Definition get_path (i : stid) : M world path := w ← get; deref (paths w !! i).
Definition upd_path (i : stid) (f : path → path) : M world unit := modify (λ w, set_paths (alter f i (paths w)) w).

(** ** The solver, on the constraints of a path *)
Definition simplify (cs : list Expr) (e : Expr) : M S Expr := lift_res (simplifyExpr (ConstArrayOpt opts) (UseVisitorHash opts) cs e).
Definition evaluate (i : stid) (e : Expr) : M world (option Validity) :=
  p ← get_path i; in_solver (TimingSolver_evaluate impl simplify (p_constraints p) e).
Definition mustBeTrue (i : stid) (e : Expr) : M world (option bool) :=
  p ← get_path i; in_solver (TimingSolver_mustBeTrue impl simplify (p_constraints p) e).
Definition getValue (i : stid) (e : Expr) : M world (option Expr) :=
  p ← get_path i; in_solver (TimingSolver_getValue impl simplify (p_constraints p) e).
Definition getRange (i : stid) (e : Expr) : M world (Expr * Expr) :=
  p ← get_path i; in_solver (TimingSolver_getRange (ConstArrayOpt opts) impl (p_constraints p) e).
(** The same as the interface that resolves pointers; [timer] tells whether the time of a resolution is over. *)
Definition solver_of (timer : M S bool) (cs : list Expr) : TimingSolver S := {|
  ts_getValue := TimingSolver_getValue impl simplify cs;
  ts_mustBeTrue := TimingSolver_mustBeTrue impl simplify cs;
  ts_mayBeTrue := TimingSolver_mayBeTrue (ConstArrayOpt opts) impl simplify cs;
  ts_expired := timer
|}.
Definition path_resolveOne (i : stid) (address : Expr) : M world one_result :=
  p ← get_path i; s ← in_mem (get_space (p_space p));
  in_solver (resolveOne_e (TimingSolver0 := solver_of expired (p_constraints p)) (ConstArrayOpt opts) (PointerWidth opts) (objects s) address).
Definition path_resolve (timer : M S bool) (i : stid) (address : Expr) : M world all_result :=
  p ← get_path i; s ← in_mem (get_space (p_space p));
  in_solver (resolve (TimingSolver0 := solver_of timer (p_constraints p)) (ConstArrayOpt opts) (PointerWidth opts) (objects s) address 0).

(** ** Constraints and ends *)
(** [state.addConstraint]. *)
Definition state_addConstraint (i : stid) (e : Expr) : M world unit :=
  p ← get_path i;
  match addConstraint (ConstArrayOpt opts) (UseVisitorHash opts) e (p_constraints p) with
  | Done _ cs => upd_path i (set_constraints cs)
  | Halt x _ => halt x
  end.
Definition Executor_addConstraint (i : stid) (condition : Expr) : M world unit :=
  match condition with
  | Constant w v => b ← lift_res (isTrue w v); c_assert b
  | _ => state_addConstraint i condition
  end.
Definition terminateStateEarly (i : stid) : M world unit := upd_path i (set_end Early).
Definition terminateStateOnError (i : stid) (suffix : string) : M world unit := upd_path i (set_end (OnError suffix)).
Definition bindLocal (target : Z) (i : stid) (value : Expr) : M world unit := upd_path i (set_locals <[target := value]>).

(** The queries that describe the address in an error message. *)
Definition getAddressInfo (i : stid) (address : Expr) : M world unit :=
  match address with
  | Constant w v => _ ← lift_res (getZExtValue 64 w v); mret tt
  | _ =>
    value ← must_succeed (getValue i address);
    _ ← lift_res (match value with Constant w v => getZExtValue 64 w v | _ => halt AssertFailure end);
    _ ← getRange i address; mret tt
  end.

(** ** Concretisation *)
Definition toConstant (i : stid) (e : Expr) : M world Expr :=
  p ← get_path i;
  e ← lift_res (simplifyExpr (ConstArrayOpt opts) (UseVisitorHash opts) (p_constraints p) e);
  if isa_Constant e then mret e
  else
    value ← must_succeed (getValue i e);
    eq ← lift_res (EqExpr_make (ConstArrayOpt opts) e value);
    Executor_addConstraint i eq;; mret value.
Definition toUnique (i : stid) (e : Expr) : M world Expr :=
  if isa_Constant e then mret e
  else
    r ← ok (getValue i e) (λ value,
          eq ← lift_res (EqExpr_make (ConstArrayOpt opts) e value);
          ok (mustBeTrue i eq) (λ isTrue, mret (Some (if (isTrue : bool) then value else e))));
    mret (default e r).

(** ** Forking *)
(** [ExecutionState::branch]: the copy has its own address space. *)
Definition branch_path (i : stid) : M world stid :=
  upd_path i (λ p, set_depth (u32 (depth p + 1)) p);;
  p ← get_path i;
  sp ← in_mem (copy_AddressSpace (p_space p));
  w ← get;
  put (mkWorld (w_mem w) (w_solver w) (w_env w) (<[next_path w := set_as sp p]> (paths w)) (Datatypes.S (next_path w)));;
  mret (next_path w).

(** A condition of a place that has used its share gets a value. *)
Definition settle (current : stid) (condition : Expr) : M world Expr :=
  if isa_Constant condition then mret condition
  else
    over ← in_env over_share;
    if (over : bool) then
      value ← must_succeed (getValue current condition);
      eq ← lift_res (EqExpr_make (ConstArrayOpt opts) value condition);
      Executor_addConstraint current eq;; mret value
    else mret condition.
(** When forking is not possible, one side is chosen. *)
Definition choose_side (current : stid) (condition : Expr) (res : Validity) : M world Validity :=
  match res with
  | VUnknown =>
    p ← get_path current;
    no ← in_env inhibited;
    if (no : bool) || forkDisabled p then
      b ← in_env coin;
      if (b : bool) then Executor_addConstraint current condition;; mret VTrue
      else z ← lift_res (createIsZero (ConstArrayOpt opts) condition); Executor_addConstraint current z;; mret VFalse
    else mret VUnknown
  | _ => mret res
  end.
Definition StatePair : Type := option stid * option stid.
Definition fork_states (current : stid) (condition : Expr) : M world StatePair :=
  falseState ← branch_path current;
  swap ← (if RandomizeFork opts then in_env coin else mret false);
  let '(trueState, falseState) := if (swap : bool) then (falseState, current) else (current, falseState) in
  Executor_addConstraint trueState condition;;
  z ← lift_res (createIsZero (ConstArrayOpt opts) condition);
  Executor_addConstraint falseState z;;
  p ← get_path trueState;
  if negb (MaxDepth opts =? 0) && (MaxDepth opts <=? depth p) then
    terminateStateEarly trueState;; terminateStateEarly falseState;; mret (None, None)
  else mret (Some trueState, Some falseState).
Definition fork (current : stid) (condition : Expr) : M world StatePair :=
  condition ← settle current condition;
  res ← evaluate current condition;
  match res with
  | None => terminateStateEarly current;; mret (None, None)
  | Some res =>
    res ← choose_side current condition res;
    match res with
    | VTrue => mret (Some current, None)
    | VFalse => mret (None, Some current)
    | VUnknown => fork_states current condition
    end
  end.

(** ** Loads and stores *)
Definition getMinBytesForWidth (w : Z) : Z := u32 (w + 7) `div` 8.
(** What the instruction does, with the register of a load and its width. *)
Inductive access : Type := Load (target : Z) (type : Z) | Store (value : Expr).
Definition access_type (a : access) : Z := match a with Load _ type => type | Store value => getWidth value end.

(** A value that was read, made symbolic again. *)
Definition replaceReadWithSymbolic (i : stid) (e : Expr) : M world Expr :=
  let n := MakeConcreteSymbolic opts in
  if (n =? 0) || negb (isa_Constant e) then mret e
  else
    skip ← (if n =? 1 then mret false else r ← in_env random; mret (negb (r `mod` n =? 0)));
    if (skip : bool) then mret e
    else
      id ← in_mem (m ← get; put (set_arrays (Datatypes.S (arrays m)) m);; mret (arrays m));
      let array := mkArray id ("rrws_arr" +:+ pretty.pretty id) (getMinBytesForWidth (getWidth e)) [] in
      res ← lift_res (createTempRead (ConstArrayOpt opts) array (getWidth e));
      eq ← lift_res (c ← EqExpr_make (ConstArrayOpt opts) e res; NotOptimizedExpr_make c);
      state_addConstraint i eq;; mret res.

(** The access to an object the pointer is inside of. *)
Definition access_object (fast : bool) (i : stid) (a : access) (mo : MemoryObject) (os : osid) (offset : Expr) : M world unit :=
  match a with
  | Store value =>
    p ← get_path i;
    r ← in_mem (access_write (ConstArrayOpt opts) (isLittleEndian opts) (p_space p) mo os offset value);
    match r with Some _ => mret tt | None => terminateStateOnError i "readonly.err" end
  | Load target type =>
    result ← in_mem (access_read (ConstArrayOpt opts) (isLittleEndian opts) os offset type);
    result ← (if fast then replaceReadWithSymbolic i result else mret result);
    bindLocal target i result
  end.

(** The objects the pointer may be inside of, one after the other; the result is the state in which it is in none of
    them. *)
Fixpoint each_object (unbound : stid) (a : access) (address : Expr) (rl : list ObjectPair) : M world (option stid) :=
  match rl with
  | [] => mret (Some unbound)
  | (mo, os) :: rl =>
    inBounds ← lift_res (getBoundsCheckPointer_bytes (ConstArrayOpt opts) (PointerWidth opts) mo address (getMinBytesForWidth (access_type a)));
    branches ← fork unbound inBounds;
    match branches.1 with
    | Some bound =>
      offset ← lift_res (getOffsetExpr (ConstArrayOpt opts) (PointerWidth opts) mo address);
      access_object false bound a mo os offset
    | None => mret tt
    end;;
    match branches.2 with
    | Some unbound => each_object unbound a address rl
    | None => mret None
    end
  end.
(** No resolution, several of them, or one that is not in bounds. *)
Definition slow_access (i : stid) (a : access) (address : Expr) : M world unit :=
  r ← path_resolve expired i address;
  let '(incomplete, rl) := r in
  unbound ← each_object i a address rl;
  match unbound with
  | Some u =>
    if (incomplete : bool) then terminateStateEarly u
    else getAddressInfo u address;; terminateStateOnError u "ptr.err"
  | None => mret tt
  end.

(** [SimplifySymIndices]. *)
Definition simplify_indices (i : stid) (a : access) (address : Expr) : M world (access * Expr) :=
  if SimplifySymIndices opts then
    p ← get_path i;
    address ← (if isa_Constant address then mret address
               else lift_res (simplifyExpr (ConstArrayOpt opts) (UseVisitorHash opts) (p_constraints p) address));
    match a with
    | Store value =>
      value ← (if isa_Constant value then mret value
               else lift_res (simplifyExpr (ConstArrayOpt opts) (UseVisitorHash opts) (p_constraints p) value));
      mret (Store value, address)
    | _ => mret (a, address)
    end
  else mret (a, address).
(** The single resolution; a pointer for which it fails is made concrete. *)
Definition one_object (i : stid) (address : Expr) : M world (option ObjectPair * Expr) :=
  r ← path_resolveOne i address;
  match r with
  | Some o => mret (o, address)
  | None =>
    address ← toConstant i address;
    match address with
    | Constant w v =>
      a ← lift_res (getZExtValue 64 w v);
      p ← get_path i; s ← in_mem (get_space (p_space p));
      mret (resolveOne_c (objects s) a, address)
    | _ => halt AssertFailure
    end
  end.
Definition executeMemoryOperation (i : stid) (a : access) (address : Expr) : M world unit :=
  r ← simplify_indices i a address;
  let '(a, address) := r in
  r ← one_object i address;
  let '(op, address) := r in
  match op with
  | Some (mo, os) =>
    address ← (if negb (MaxSymArraySize opts =? 0) && (MaxSymArraySize opts <=? mo_size mo) then toConstant i address else mret address);
    offset ← lift_res (getOffsetExpr (ConstArrayOpt opts) (PointerWidth opts) mo address);
    check ← lift_res (getBoundsCheckOffset_bytes (ConstArrayOpt opts) (PointerWidth opts) mo offset (getMinBytesForWidth (access_type a)));
    inBounds ← mustBeTrue i check;
    match inBounds with
    | None => terminateStateEarly i
    | Some true => access_object true i a mo os offset
    | Some false => slow_access i a address
    end
  | None => slow_access i a address
  end.

(** ** Release *)
Fixpoint resolve_loop (unbound : stid) (p : Expr) (rl : list ObjectPair) : M world (list (ObjectPair * stid) * option stid) :=
  match rl with
  | [] => mret ([], Some unbound)
  | op :: rl =>
    inBounds ← lift_res (b ← getBaseExpr (PointerWidth opts) op.1; EqExpr_make (ConstArrayOpt opts) p b);
    branches ← fork unbound inBounds;
    let here := match branches.1 with Some s => [(op, s)] | None => [] end in
    match branches.2 with
    | Some unbound => r ← resolve_loop unbound p rl; mret (here ++ r.1, r.2)
    | None => mret (here, None)
    end
  end.
(** The resolution has no time limit, and whether it was complete is not looked at. *)
Definition resolveExact (i : stid) (p : Expr) : M world (list (ObjectPair * stid)) :=
  r ← path_resolve (mret false) i p;
  r ← resolve_loop i p r.2;
  match r.2 with
  | Some u => getAddressInfo u p;; terminateStateOnError u "ptr.err"
  | None => mret tt
  end;;
  mret r.1.
Definition free_object (target : option Z) (address : Expr) (x : ObjectPair * stid) : M world unit :=
  let '((mo, _), s) := x in
  if mo_isLocal mo then getAddressInfo s address;; terminateStateOnError s "free.err"
  else if mo_isGlobal mo then getAddressInfo s address;; terminateStateOnError s "free.err"
  else
    p ← get_path s;
    in_mem (unbindObject (p_space p) mo);;
    match target with Some t => bindLocal t s (Constant_alloc 0 (PointerWidth opts)) | None => mret tt end.
Fixpoint free_all (target : option Z) (address : Expr) (rl : list (ObjectPair * stid)) : M world unit :=
  match rl with [] => mret tt | x :: rl => free_object target address x;; free_all target address rl end.
Definition executeFree (i : stid) (address : Expr) (target : option Z) : M world unit :=
  z ← lift_res (createIsZero (ConstArrayOpt opts) address);
  zeroPointer ← fork i z;
  match zeroPointer.1, target with
  | Some s, Some t => bindLocal t s (Constant_alloc 0 (PointerWidth opts))
  | _, _ => mret tt
  end;;
  match zeroPointer.2 with
  | Some s => rl ← resolveExact s address; free_all target address rl
  | None => mret tt
  end.
End PathExec.
