(* ===== verification/PathExecSpec.v ===== *)
(** * Forks divide the assignments of a path

    What the solver answers about the constraints of a path, what worlds of paths keep, and [fork] of [PathExec] for every
    assignment of the path at once: an assignment of the path is an assignment of exactly one of the pieces, the pieces are on the
    sides of the condition they were returned for, and all see the memory the path saw. *)
From S2P Require Import Prelude Expr ExprCreate ExprRefine ExprSums ExprSpec ExprBuild ExprWeight Memory MemorySpec MemoryOps ImmutableTree ImmutableTreeMap AddressSpace AddressSpaceCow AddressSpaceResolve Solver SolverSpec SolverProps Visitor VisitorSpec ConstraintSpec EngineAnswers PathExec.

(** ** Offsets *)
(** Sums with a constant on the left have no other constant, as the factories build them. *)
Fixpoint folded (e : Expr) : bool :=
  match e with
  | Arith KAdd (Constant _ _) a | Arith KSub (Constant _ _) a => negb (isa_Constant a) && folded a
  | Concat l r => folded l && folded r
  | Extract s _ _ => folded s
  | _ => true
  end.
Lemma folded_reduced e : folded e = true → reduced e = true.
Proof.
  induction e; cbn; try done. destruct k; try done; destruct e1; try done; rewrite !andb_true_iff; intros [? ?]; auto.
Qed.

Section Folded.
Context `{HA : !APInt, HC : !ExprCompare} (CAO : bool).
Abbreviation folds := (λ (e : Expr) (_ : unit), folded e = true).

Lemma const_sum_folded e b B c : const_sum e = Some (b, B, c) → folded e = true →
  (∃ w k, B = Constant w k) ∧ isa_Constant c = false ∧ folded c = true.
Proof.
  intros (w & k & -> & -> & _)%const_sum_spec. destruct b; cbn; rewrite andb_true_iff, negb_true_iff; eauto.
Qed.
Lemma const_make_wlp fuel w v w' k :
  wlp (AddExpr_make_rec CAO fuel (Constant w v) (Constant w' k)) (λ x _, ∃ v', x = Constant w v') tt ∧
  wlp (SubExpr_make_rec CAO fuel (Constant w v) (Constant w' k)) (λ x _, ∃ v', x = Constant w v') tt.
Proof.
  destruct fuel as [|fuel]; [by split|]. split; cbn [AddExpr_make_rec SubExpr_make_rec]; unfold bcreate_r; apply small_assert; intros _;
    unfold const_arith; apply small_assert; intros _; apply wlp_ret; eauto.
Qed.
Lemma sums_folded fuel :
  (∀ w v r, w ≠ 1 → folded r = true → isa_Constant r = false →
    wlp (AddExpr_createPartialR CAO fuel w v r) folds tt ∧ wlp (SubExpr_createPartialR CAO fuel w v r) folds tt) ∧
  (∀ w v r, w ≠ 1 → folded r = true →
    wlp (AddExpr_make_rec CAO fuel (Constant w v) r) folds tt ∧ wlp (SubExpr_make_rec CAO fuel (Constant w v) r) folds tt).
Proof.
  induction fuel as [|fuel [IP IM]]; [by repeat split|].
  assert (Hrec : ∀ w v b B c r (mk mk' : Expr → Expr → res Expr), w ≠ 1 → const_sum r = Some (b, B, c) → folded r = true →
    mk = AddExpr_make_rec CAO fuel ∨ mk = SubExpr_make_rec CAO fuel → mk' = AddExpr_make_rec CAO fuel ∨ mk' = SubExpr_make_rec CAO fuel →
    wlp (x ← mk (Constant w v) B; mk' x c) folds tt).
  { intros w v b B c r mk mk' Hw Hcs Hr Hmk Hmk'. destruct (const_sum_folded r b B c Hcs Hr) as ((w' & k & ->) & Hc & Fc). apply wlp_bind.
    destruct (const_make_wlp fuel w v w' k) as [HA1 HS1]. destruct Hmk as [->| ->]; [eapply wlp_mono; [exact HA1|]|eapply wlp_mono; [exact HS1|]];
      intros x [] [v' ->]; destruct Hmk' as [->| ->]; by apply IM. }
  split.
  - intros w v r Hw Hr Hc. cbn [AddExpr_createPartialR SubExpr_createPartialR]. rewrite (proj2 (Z.eqb_neq w Bool)) by done. split.
    + apply bind_any. intros zero. destruct zero; [by apply wlp_ret|]. destruct (const_sum r) as [[[[] B] c]|] eqn:E; [eapply Hrec; eauto..|].
      apply wlp_ret. cbn. by rewrite Hc, Hr.
    + destruct (const_sum r) as [[[[] B] c]|] eqn:E; [eapply Hrec; eauto..|]. apply wlp_ret. cbn. by rewrite Hc, Hr.
  - intros w v r Hw Hr. destruct (isa_Constant r) eqn:Hc.
    + destruct r; try done. destruct (const_make_wlp (Datatypes.S fuel) w v width value) as [H1 H2].
      split; (eapply wlp_mono; [eassumption|]); by intros x [] [v' ->].
    + destruct (IP w v r Hw Hr Hc) as [H1 H2]. cbn [AddExpr_make_rec SubExpr_make_rec]. unfold bcreate_r. split; apply small_assert; intros _; by destruct r.
Qed.
Lemma slices_folded fuel :
  (∀ l r, folded l = true → folded r = true → wlp (ConcatExpr_make_rec fuel l r) folds tt) ∧
  (∀ e off w, folded e = true → wlp (ExtractExpr_make_rec fuel e off w) folds tt).
Proof.
  induction fuel as [|fuel [IC IE]]; (split; intros; cbn [ConcatExpr_make_rec ExtractExpr_make_rec]; [|]; try apply wlp_halt).
  - assert (wlp (mret (Concat l r)) folds tt) as Hn by (apply wlp_ret; cbn; by rewrite H, H0).
    destruct l, r; try exact Hn. case_match; [|exact Hn]. by apply IE.
  - apply small_assert. intros _. case_match; [by apply wlp_ret|].
    assert (wlp (mret (Extract e off w)) folds tt) as Hn by by apply wlp_ret.
    destruct e as [| | | |x y| | | | | |]; try exact Hn. cbn in H. apply andb_true_iff in H as [Fx Fy].
    case_match; [by apply IE|]. case_match; [by apply IE|]. apply wlp_bind. eapply wlp_mono; [by apply IE|]. intros l [] Fl.
    apply wlp_bind. eapply wlp_mono; [by apply IE|]. intros r [] Fr. by apply IC.
Qed.

Lemma wlp_done {A} (m : res A) (Q : A → unit → Prop) a : wlp m Q tt → m tt = Done a tt → Q a tt.
Proof. unfold wlp. intros H E. by rewrite E in H. Qed.
(** The offset of a pointer in an object can be used for an access. *)
Lemma offset_folded W mo p o : 1 < W ≤ 64 → folded p = true → getOffsetExpr CAO W mo p tt = Done o tt → offset_ok o.
Proof.
  intros HW Hp E. assert (Ho : folded o = true).
  { refine (wlp_done _ folds o _ E). unfold getOffsetExpr, getBaseExpr. apply const_create_wlp. intros v. unfold SubExpr_make.
    rewrite sum_fuel_S. cbn [SubExpr_make_rec]. unfold bcreate_r. apply small_assert. intros Hw%Z.eqb_eq. cbn in Hw.
    destruct (isa_Constant p) eqn:Hc.
    - by destruct p.
    - destruct (sums_folded (2 * (esize p + esize (Constant W v)) + 1)) as [H1 _].
      pose proof (proj1 (H1 W (ap_arith KSub W 0 v) p ltac:(lia) Hp Hc)) as H2. by destruct p. }
  intros z Ez. assert (Hz : folded z = true).
  { refine (wlp_done _ folds z _ Ez). unfold ZExtExpr_make. case_match; [by apply wlp_ret|]. case_match; [by apply slices_folded|].
    apply wlp_ret. by destruct o. }
  rewrite (folded_reduced z Hz). apply orb_true_r.
Qed.
End Folded.

(** ** The constraints of a path *)
Section Constraints.
Context `{U : !Universe, HA : !APInt, HC : !ExprCompare, HRf : !ReflCompare}.

(** Every assignment makes them all true or one of them false. *)
Definition decided (cs : list Expr) : Prop := ∀ env, in_universe env → satisfies cs env ∨ falsified cs env.
Record cs_ok (cs : list Expr) : Prop := mkCsOk {
  co_conditions : Forall condition cs;
  co_decided : decided cs;
  co_sat : ∃ env, sat_of cs env
}.
Lemma cs_fine cs : cs_ok cs → fine_constraints cs.
Proof. intros [Hc _ Hs]. split; [|done]. eapply Forall_impl; [exact Hc|]. intros c (? & ? & _). by split. Qed.
Lemma cs_narrow cs : cs_ok cs → narrow_set cs.
Proof. intros [Hc _ _]. eapply Forall_impl; [exact Hc|]. by intros c (? & ? & ?). Qed.
Lemma cs_truth cs e : cs_ok cs → query_ok (sat_of cs) e → truth_query (mkQuery cs e).
Proof. intros Hc (Hw & Hl & Hd & _). split; [|done]. split_and!; [by apply cs_fine|done|done]. Qed.
Lemma query_values cs e env : query_ok (sat_of cs) e → sat_of cs env → eval env e = Some 0 ∨ eval env e = Some 1.
Proof. intros (Hw & Hl & Hd & _). by apply query_value. Qed.

(** Adding a condition that can hold. *)
Lemma add_condition CAO UVH cs e : cs_ok cs → query_ok (sat_of cs) e → may (sat_of cs) e →
  ∃ cs', addConstraint CAO UVH e cs = Done tt cs' ∧ cs_ok cs' ∧ ∀ env, sat_of cs' env ↔ sat_of cs env ∧ eval env e = Some 1.
Proof.
  intros [Hc Hdec _] Hq (env0 & Hs0 & E0). pose proof Hq as (Hw & Hl & Hd & Hn).
  destruct (addConstraint_splits CAO UVH cs e Hc) as (cs' & E & Hg & Ht & Hf & H0); [by split_and!|exists env0; split; [exact (proj2 Hs0)|done]|].
  exists cs'. split; [done|]. assert (Hiff : ∀ env, sat_of cs' env ↔ sat_of cs env ∧ eval env e = Some 1).
  { intros env. split.
    - intros [Hu Hs]. destruct (Hdec env Hu) as [H1|H1]; [|by destruct (satisfies_not_falsified _ _ Hs); apply Hf].
      assert (Hse : sat_of cs env) by by split. destruct (query_values cs e env Hq Hse) as [E1|E1]; [|done].
      by destruct (satisfies_not_falsified _ _ Hs); apply H0.
    - intros [[Hu Hs] E1]. split; [done|by apply Ht]. }
  split; [|done]. split; [done| |exists env0; by apply Hiff]. intros env Hu. destruct (Hdec env Hu) as [H1|H1]; [|right; by apply Hf].
  assert (Hse : sat_of cs env) by by split. destruct (query_values cs e env Hq Hse) as [E1|E1]; [right; by apply H0|left; by apply Ht].
Qed.

(** The negation of a condition. *)
Lemma zero_condition CAO cs e : query_ok (sat_of cs) e → ∃ z, createIsZero CAO e tt = Done z tt ∧ query_ok (sat_of cs) z ∧
  ∀ env, sat_of cs env → (eval env z = Some 1 ↔ eval env e = Some 0) ∧ (eval env z = Some 0 ↔ eval env e = Some 1).
Proof.
  intros Hq. pose proof Hq as (Hw & Hl & Hd & Hn). destruct (createIsZero_builds CAO e Hw ltac:(rewrite Hl; lia)) as (z & Ez & Wz & Lz & Hz). cbn in Lz.
  assert (Hv : ∀ env, sat_of cs env → (eval env z = Some 1 ↔ eval env e = Some 0) ∧ (eval env z = Some 0 ↔ eval env e = Some 1)).
  { intros env Hs. destruct (query_values cs e env Hq Hs) as [E|E].
    - assert (E' : eval env z = Some 1) by (apply Hz, eval_cmp; exists 0, 0; rewrite E; done). rewrite E, E'. naive_solver.
    - assert (E' : eval env z = Some 0) by (apply Hz, eval_cmp; exists 1, 0; rewrite E; done). rewrite E, E'. naive_solver. }
  exists z. split; [done|]. split; [|done]. split_and!; [done|done| |].
  - intros env Hs. destruct (query_values cs e env Hq Hs) as [E|E]; apply (Hv env Hs) in E; eauto.
  - eapply narrow_done; [eapply small_at_small, is_zero_small; [exact Hw|exact Hn]|exact Ez].
Qed.
End Constraints.

(** ** What the solver answers *)
Section Answers.
Context `{U : !Universe, HA : !APInt, HC : !ExprCompare, HRf : !ReflCompare} (opts : options).
Context {S : Type} (I : S → Prop) (impl : SolverImpl S) (HR : right I impl).

Lemma evaluate_answer cs e s : I s → cs_ok cs → query_ok (sat_of cs) e →
  returns I (TimingSolver_evaluate impl (simplify opts) cs e) s (validity_ok (mkQuery cs e)).
Proof.
  intros Hi Hc Hq. change (simplify opts) with (engine_simplify (S := S) (ConstArrayOpt opts) (UseVisitorHash opts)).
  rewrite (evaluate_same (ConstArrayOpt opts) (UseVisitorHash opts) impl cs e (cs_narrow _ Hc)) by apply Hq.
  apply timing_evaluate; [done|apply narrow_simplifies|done|by apply cs_truth].
Qed.
Lemma must_answer cs e s : I s → cs_ok cs → query_ok (sat_of cs) e →
  returns I (TimingSolver_mustBeTrue impl (simplify opts) cs e) s (truth_ok (mkQuery cs e)).
Proof.
  intros Hi Hc Hq. change (simplify opts) with (engine_simplify (S := S) (ConstArrayOpt opts) (UseVisitorHash opts)).
  rewrite (mustBeTrue_same (ConstArrayOpt opts) (UseVisitorHash opts) impl cs e (cs_narrow _ Hc)) by apply Hq.
  apply timing_mustBeTrue; [done|apply narrow_simplifies|done|by apply cs_truth].
Qed.
Lemma may_answer cs e s : I s → cs_ok cs → query_ok (sat_of cs) e →
  returns I (TimingSolver_mayBeTrue (ConstArrayOpt opts) impl (simplify opts) cs e) s (may_ok (mkQuery cs e)).
Proof.
  intros Hi Hc Hq. change (simplify opts) with (engine_simplify (S := S) (ConstArrayOpt opts) (UseVisitorHash opts)).
  unfold returns. rewrite (mayBeTrue_same (ConstArrayOpt opts) (UseVisitorHash opts) impl cs e s (cs_narrow _ Hc)) by apply Hq.
  apply timing_mayBeTrue; [done|apply narrow_simplifies|done|by apply cs_truth].
Qed.
Lemma value_answer cs e s : I s → cs_ok cs → wf e → narrow e → defined (sat_of cs) e →
  returns I (TimingSolver_getValue impl (simplify opts) cs e) s (value_ok (mkQuery cs e)).
Proof.
  intros Hi Hc Hw Hn Hd. change (simplify opts) with (engine_simplify (S := S) (ConstArrayOpt opts) (UseVisitorHash opts)).
  rewrite (getValue_same (ConstArrayOpt opts) (UseVisitorHash opts) impl cs e (cs_narrow _ Hc)) by done.
  apply timing_getValue; [done|apply narrow_simplifies|done|]. split_and!; [by apply cs_fine|done|done].
Qed.
Context (HT : total I impl).
(** A solver that does not give up has a value. *)
Lemma value_total cs e s : I s → cs_ok cs → wf e → narrow e → defined (sat_of cs) e →
  returns I (must_succeed (TimingSolver_getValue impl (simplify opts) cs e)) s
    (λ r, ∃ v env, r = Constant (getWidth e) v ∧ sat_of cs env ∧ eval env e = Some v).
Proof.
  intros Hi Hc Hw Hn Hd. assert (Hq : value_query (mkQuery cs e)) by (split_and!; [by apply cs_fine|done|done]).
  assert (Hnone : returns I (TimingSolver_getValue impl (simplify opts) cs e) s (λ r, r ≠ None)).
  { assert (Hg : returns I (e ← simplify opts cs e; Solver_getValue impl (mkQuery cs e)) s (λ r, r ≠ None)).
    { eapply returns_bind; [apply (simplify_right (ConstArrayOpt opts) (UseVisitorHash opts) I cs e s Hi Hq (cs_narrow _ Hc) Hn)|].
      intros e' s1 Hi1 (Hw' & Hl' & He'). unfold Solver_getValue.
      assert (Hq' : value_query (mkQuery cs e')) by by apply simplified_query with e.
      assert (Hok : returns I (ok (computeValue impl (mkQuery cs e')) (λ tmp, c_assert (isa_Constant tmp);; mret (Some tmp))) s1 (λ r, r ≠ None)).
      { unfold ok. eapply returns_bind; [apply returns_both; [by apply (t_value I impl HT)|by apply (r_value I impl HR)]|].
        intros [r|] s2 Hi2 [Hnn Hok]; [|done]. destruct (Hok r eq_refl) as (v & env & -> & _). apply returns_assert_bind; [done|]. by apply returns_ret. }
      cbn [expr]. destruct e'; try exact Hok. by apply returns_ret. }
    unfold TimingSolver_getValue. destruct e; exact Hg. }
  unfold must_succeed. eapply returns_bind; [apply returns_both; [by apply value_answer|exact Hnone]|].
  intros [r|] s1 Hi1 [Hok Hnn]; [|done]. apply returns_ret; [done|]. destruct (Hok r eq_refl) as (v & env & -> & Hs & Ev). by exists v, env.
Qed.
(** What it answers, it answers every time. *)
Lemma must_total cs e s : I s → cs_ok cs → query_ok (sat_of cs) e → returns I (TimingSolver_mustBeTrue impl (simplify opts) cs e) s (λ r, r ≠ None).
Proof.
  intros Hi Hc Hq. pose proof (cs_truth cs e Hc Hq) as Ht. pose proof Hq as (_ & Hl & _ & Hn).
  assert (Hg : returns I (e ← simplify opts cs e; Solver_mustBeTrue impl (mkQuery cs e)) s (λ r, r ≠ None)).
  { eapply returns_bind; [apply (simplify_right (ConstArrayOpt opts) (UseVisitorHash opts) I cs e s Hi (proj1 Ht) (cs_narrow _ Hc) Hn)|].
    intros e' s1 Hi1 (Hw' & Hl' & He'). assert (Ht' : truth_query (mkQuery cs e')) by (split; [by apply simplified_query with e; [apply Ht|..]|cbn in *; congruence]).
    unfold Solver_mustBeTrue. apply returns_assert_bind; [cbn; by rewrite Hl', Hl|]. cbn [expr].
    destruct e' as [w v| | | | | | | | | |]; try by apply (t_truth I impl HT).
    destruct (constant_query (mkQuery cs (Constant w v)) w v Ht' eq_refl) as [-> Hv]. eapply returns_lift_bind; [by apply constant_truth|]. by apply returns_ret. }
  unfold TimingSolver_mustBeTrue. destruct e as [w v| | | | | | | | | |]; try exact Hg.
  destruct (constant_query (mkQuery cs (Constant w v)) w v Ht eq_refl) as [-> Hv]. eapply returns_lift_bind; [by apply constant_truth|]. by apply returns_ret.
Qed.
Lemma may_total cs e s : I s → cs_ok cs → query_ok (sat_of cs) e → returns I (TimingSolver_mayBeTrue (ConstArrayOpt opts) impl (simplify opts) cs e) s (λ r, r ≠ None).
Proof.
  intros Hi Hc Hq. destruct (zero_condition (ConstArrayOpt opts) cs e Hq) as (z & Ez & Hqz & _). unfold TimingSolver_mayBeTrue, TimingSolver_mustBeFalse, ok.
  eapply returns_bind; [eapply returns_lift_bind; [exact Ez|by apply must_total]|]. intros [b|] s1 Hi1 Hb; [by apply returns_ret|done].
Qed.
Lemma evaluate_total cs e s : I s → cs_ok cs → query_ok (sat_of cs) e → returns I (TimingSolver_evaluate impl (simplify opts) cs e) s (λ r, r ≠ None).
Proof.
  intros Hi Hc Hq. pose proof (cs_truth cs e Hc Hq) as Ht. pose proof Hq as (_ & Hl & _ & Hn).
  assert (Hg : returns I (e ← simplify opts cs e; Solver_evaluate impl (mkQuery cs e)) s (λ r, r ≠ None)).
  { eapply returns_bind; [apply (simplify_right (ConstArrayOpt opts) (UseVisitorHash opts) I cs e s Hi (proj1 Ht) (cs_narrow _ Hc) Hn)|].
    intros e' s1 Hi1 (Hw' & Hl' & He'). assert (Ht' : truth_query (mkQuery cs e')) by (split; [by apply simplified_query with e; [apply Ht|..]|cbn in *; congruence]).
    unfold Solver_evaluate. apply returns_assert_bind; [cbn; by rewrite Hl', Hl|]. cbn [expr].
    destruct e' as [w v| | | | | | | | | |]; try by apply (t_validity I impl HT).
    destruct (constant_query (mkQuery cs (Constant w v)) w v Ht' eq_refl) as [-> Hv]. eapply returns_lift_bind; [by apply constant_truth|]. by apply returns_ret. }
  unfold TimingSolver_evaluate. destruct e as [w v| | | | | | | | | |]; try exact Hg.
  destruct (constant_query (mkQuery cs (Constant w v)) w v Ht eq_refl) as [-> Hv]. eapply returns_lift_bind; [by apply constant_truth|]. by apply returns_ret.
Qed.
Lemma some_value cs e s : I s → cs_ok cs → wf e → narrow e → defined (sat_of cs) e → returns I (TimingSolver_getValue impl (simplify opts) cs e) s (λ r, r ≠ None).
Proof.
  intros Hi Hc Hw Hn Hd. destruct (value_total cs e s Hi Hc Hw Hn Hd) as (a & s' & Em & Hi' & _). unfold must_succeed, mbind, M_bind in Em.
  destruct (TimingSolver_getValue _ _ _ _ _) as [[x|] s1|] eqn:Ex; [|done..]. unfold mret, M_ret in Em. injection Em as -> ->. by exists (Some a), s'.
Qed.
(** The solver as the resolution of pointers sees it. *)
Lemma solver_of_right expired cs : cs_ok cs → (∀ s, I s → ∃ b s', expired s = Done b s' ∧ I s') →
  @SolverRight S (solver_of opts impl expired cs) (sat_of cs).
Proof.
  intros Hc Hx. refine {| solver_inv := I; never_fails := True; never_late := ∀ s b s', I s → expired s = Done b s' → b = false |}.
  - intros e s Hi Hw Hn Hd. destruct (returns_both I _ _ _ _ (value_answer cs e s Hi Hc Hw Hn Hd) (some_value cs e s Hi Hc Hw Hn Hd)) as (r & s' & E & Hi' & Hr & Hnn). by exists r, s'; split_and!.
  - intros e s Hi Hq. destruct (returns_both I _ _ _ _ (must_answer cs e s Hi Hc Hq) (must_total cs e s Hi Hc Hq)) as (r & s' & E & Hi' & Hr & Hnn). exists r, s'. split_and!; by destruct Hr || done.
  - intros e s Hi Hq. destruct (returns_both I _ _ _ _ (may_answer cs e s Hi Hc Hq) (may_total cs e s Hi Hc Hq)) as (r & s' & E & Hi' & Hr & Hnn). exists r, s'. split_and!; by destruct Hr || done.
  - intros s Hi. destruct (Hx s Hi) as (b & s' & Eb & Hi'). exists b, s'. split_and!; [done|done|]. intros Hl. by apply (Hl s b s').
Defined.

End Answers.

(** ** Worlds *)
Section World.
Context `{U : !Universe, HA : !APInt, HC : !ExprCompare, HRf : !ReflCompare} (opts : options).
Context {S : Type} (I : S → Prop) (impl : SolverImpl S) (HR : right I impl) (HT : total I impl).
Context (expired : M S bool) (Hx : ∀ s, I s → ∃ b s', expired s = Done b s' ∧ I s').
Context {E : Type} `{HE : !EngineEnv E}.
Abbreviation W := (PointerWidth opts).
Context (HW : 1 < W ≤ 64) (Full : Prop).
Abbreviation world := (@world S E).
Implicit Types (w : world) (p q : path) (i j k : nat) (env : assignment).

Definition sat_path p : assignment → Prop := sat_of (p_constraints p).
(** The memory of a path under an assignment: the size and the bytes of each object. *)
Abbreviation contents := (gmap Z (Z * memory)).
Definition holds (m : mem) p env (g : contents) : Prop := ∃ s, spaces m !! p_space p = Some s ∧ space_rel env m s g.
(** Its objects. *)
Definition objs_of (m : mem) p : option MemoryMap := objects <$> spaces m !! p_space p.

(** The objects lie one after the other, and the object states have their sizes. *)
Record objects_ok (m : mem) (objs : MemoryMap) : Prop := mkObjectsOk {
  oo_space : space_ok W objs;
  oo_sizes op : op ∈ inorder objs → ∃ o, heap m !! op.2 = Some o ∧ os_size o = mo_size op.1
}.
Record world_ok (c : Z) w : Prop := mkWorldOk {
  wo_mem : inv true c (w_mem w);
  wo_solver : I (w_solver w);
  wo_path i p : paths w !! i = Some p → (i < next_path w)%nat ∧ cs_ok (p_constraints p) ∧
    ∃ objs, objs_of (w_mem w) p = Some objs ∧ objects_ok (w_mem w) objs;
  wo_distinct i j p q : paths w !! i = Some p → paths w !! j = Some q → p_space p = p_space q → i = j
}.

(** Object states keep their size and stay writable or read-only. *)
Definition mem_ext (m m' : mem) : Prop := ∀ o s, heap m !! o = Some s → ∃ s', heap m' !! o = Some s' ∧ os_size s' = os_size s ∧ readOnly s' = readOnly s.
Lemma mem_ext_refl m : mem_ext m m.
Proof. intros o s H. by exists s. Qed.
Lemma mem_ext_trans m1 m2 m3 : mem_ext m1 m2 → mem_ext m2 m3 → mem_ext m1 m3.
Proof. intros H1 H2 o s H. destruct (H1 o s H) as (s1 & E1 & ? & ?). destruct (H2 o s1 E1) as (s2 & E2 & ? & ?). exists s2. split_and!; congruence. Qed.
Lemma objects_ext m m' objs : mem_ext m m' → objects_ok m objs → objects_ok m' objs.
Proof. intros Hm [H1 H2]. split; [done|]. intros op Hop. destruct (H2 op Hop) as (o & Ho & Es). destruct (Hm _ _ Ho) as (o' & ? & ? & _). exists o'. split; [done|congruence]. Qed.

(** A path that an operation leaves alone. *)
Definition kept (m m' : mem) p : Prop := objs_of m' p = objs_of m p ∧ ∀ env g, holds m p env g → holds m' p env g.
Lemma kept_refl m p : kept m m p.
Proof. by split. Qed.
Lemma kept_trans m1 m2 m3 p : kept m1 m2 p → kept m2 m3 p → kept m1 m3 p.
Proof. intros [H1 H2] [H3 H4]. split; [congruence|auto]. Qed.

(** No limit keeps a fork from following both sides.  [Full] is what else must hold for all assignments to be followed. *)
Definition no_limits : Prop := (∀ e : E, (over_share e).1 = false) ∧ ∀ e : E, (inhibited e).1 = false.
Definition unlimited p : Prop := Full ∧ no_limits ∧ forkDisabled p = false.

(** What an operation makes of the path [i]: the path itself and the new paths divide its assignments.  [Out] says for a
    path, an assignment of it, and the change [T] of the memory under the assignment, what happened. *)
Definition from (w : world) i j : Prop := j = i ∨ (next_path w ≤ j)%nat.
Record splits w i p w' (Out : nat → path → assignment → (contents → contents) → Prop) : Prop := mkSplits {
  sp_next : (next_path w ≤ next_path w')%nat;
  sp_ext : mem_ext (w_mem w) (w_mem w');
  sp_other j : j ≠ i → (j < next_path w)%nat → paths w' !! j = paths w !! j;
  sp_kept j q : j ≠ i → paths w !! j = Some q → kept (w_mem w) (w_mem w') q;
  sp_out j q : from w i j → paths w' !! j = Some q → ∀ env, sat_path q env →
    sat_path p env ∧ ∃ T, (∀ g, holds (w_mem w) p env g → holds (w_mem w') q env (T g)) ∧ Out j q env T;
  sp_cover : unlimited p → ∀ env, sat_path p env → ∃ j q, from w i j ∧ paths w' !! j = Some q ∧ sat_path q env;
  sp_disjoint j k p' q env : from w i j → from w i k → paths w' !! j = Some p' → paths w' !! k = Some q → sat_path p' env → sat_path q env → j = k
}.

Lemma splits_mono w i p w' (Out Out' : nat → path → assignment → (contents → contents) → Prop) : splits w i p w' Out →
  (∀ j q env T, sat_path p env → Out j q env T → Out' j q env T) → splits w i p w' Out'.
Proof.
  intros [H1 H2 H3 H3' H4 H5 H6] Ho. split; [done..| |done|done]. intros j q Hj Hq env Hs. destruct (H4 j q Hj Hq env Hs) as (Hp & T & HTg & HO). eauto 10.
Qed.
(** An operation on one of the pieces. *)
Lemma splits_trans c c1 w i p w1 Out1 j q w2 Out2 (Out : nat → path → assignment → (contents → contents) → Prop) : world_ok c w → world_ok c1 w1 →
  paths w !! i = Some p → splits w i p w1 Out1 → from w i j → paths w1 !! j = Some q → (unlimited p → unlimited q) → splits w1 j q w2 Out2 →
  (∀ k r env T, k ≠ j → paths w1 !! k = Some r → sat_path p env → Out1 k r env T → Out k r env T) →
  (∀ k r env T1 T2, from w1 j k → sat_path p env → (∀ g, holds (w_mem w) p env g → holds (w_mem w1) q env (T1 g)) → Out1 j q env T1 → Out2 k r env T2 → Out k r env (T2 ∘ T1)) →
  splits w i p w2 Out.
Proof.
  intros Hw Hw1 Hp [A1 A2 A3 A3' A4 A5 A6] Hj Hq Hun [B1 B2 B3 B3' B4 B5 B6] HO1 HO2.
  destruct (wo_path _ _ Hw i p Hp) as [Hi _].
  (* a path of the result is a piece of [j] or was there *)
  assert (Hcase : ∀ k r, paths w2 !! k = Some r → from w1 j k ∨ k ≠ j ∧ paths w1 !! k = Some r ∧ kept (w_mem w1) (w_mem w2) r).
  { intros k r Hr. unfold from. destruct (decide (k = j)); [by left; auto|]. destruct (decide (next_path w1 ≤ k)%nat); [left; auto|right].
    rewrite (B3 k) in Hr by (done || lia). split; [done|]. split; [done|by apply (B3' k)]. }
  assert (Hfrom : ∀ k, from w1 j k → from w i k) by (unfold from in *; intros k [->|?]; [done|right; lia]).
  split.
  - lia.
  - by eapply mem_ext_trans.
  - intros k Hk Hlt. destruct Hj as [->|Hj]; [rewrite (B3 k) by (done || lia); by apply A3|]. rewrite (B3 k) by lia. by apply A3.
  - intros k r Hk Hr. destruct (wo_path _ _ Hw k r Hr) as [Hlt _]. eapply kept_trans; [by apply (A3' k)|]. apply (B3' k); [unfold from in Hj; lia|]. by rewrite A3.
  - intros k r Hk Hr env Hs. destruct (Hcase k r Hr) as [Hf|(Hkj & Hr1 & Hkept)].
    + destruct (B4 k r Hf Hr env Hs) as (Hsq & T2 & HT2 & HOut2). destruct (A4 j q Hj Hq env Hsq) as (Hsp & T1 & HT1 & HOut1).
      split; [done|]. exists (T2 ∘ T1). split; [intros g Hg; by apply HT2, HT1|by apply HO2].
    + destruct (A4 k r Hk Hr1 env Hs) as (Hsp & T & HT1 & HOut1). split; [done|]. exists T. split; [intros g Hg; by apply Hkept, HT1|by apply HO1].
  - intros Hu env Hs. destruct (A5 Hu env Hs) as (k & r & Hk & Hr & Hsr). destruct (decide (k = j)) as [->|Hkj].
    + assert (r = q) as -> by congruence. destruct (B5 (Hun Hu) env Hsr) as (k' & r' & Hk' & Hr' & Hs'). exists k', r'. auto.
    + exists k, r. split_and!; [done| |done]. destruct (wo_path _ _ Hw1 k r Hr) as [Hlt _]. by rewrite (B3 k).
  - intros k k' r r' env Hk Hk' Hr Hr' Hs Hs'. destruct (Hcase k r Hr) as [Hf|(Hkj & Hr1 & _)], (Hcase k' r' Hr') as [Hf'|(Hkj' & Hr1' & _)].
    + by eapply B6.
    + exfalso. apply Hkj'. destruct (B4 k r Hf Hr env Hs) as (Hsq & _). by apply (A6 k' j r' q env).
    + exfalso. apply Hkj. destruct (B4 k' r' Hf' Hr' env Hs') as (Hsq & _). by apply (A6 k j r q env).
    + by eapply A6.
Qed.

(** ** Changes of one path *)
Lemma alter_path (f : path → path) i (m : gmap nat path) p : m !! i = Some p → alter f i m = <[i := f p]> m.
Proof.
  intros H. apply map_eq. intros j. destruct (decide (i = j)) as [<-|]; [by rewrite lookup_alter_eq, lookup_insert_eq, H|].
  by rewrite lookup_alter_ne, lookup_insert_ne.
Qed.
Lemma get_path_done w i p : paths w !! i = Some p → get_path i w = Done p w.
Proof. intros H. unfold get_path, mbind, M_bind, get. cbn. by rewrite H. Qed.
Lemma upd_path_done f w i p : paths w !! i = Some p → upd_path i f w = Done tt (set_paths (<[i := f p]> (paths w)) w).
Proof. intros H. unfold upd_path, modify. by rewrite (alter_path f i _ p). Qed.

Lemma space_bound w c i p : world_ok c w → paths w !! i = Some p → (p_space p < next_as (w_mem w))%nat ∧ ∃ s, spaces (w_mem w) !! p_space p = Some s.
Proof.
  intros Hw Hp. destruct (wo_path _ _ Hw i p Hp) as (_ & _ & objs & Ho & _). unfold objs_of in Ho.
  destruct (spaces (w_mem w) !! p_space p) as [s|] eqn:Es; [|done]. split; [by apply (inv_space _ _ _ (wo_mem _ _ Hw) _ _ Es)|eauto].
Qed.
Lemma world_ok_upd c w i p p' : world_ok c w → paths w !! i = Some p → p_space p' = p_space p → cs_ok (p_constraints p') →
  world_ok c (set_paths (<[i := p']> (paths w)) w).
Proof.
  intros [H1 H2 H3 H4] Hp Hsp Hcs. split; [done|done|..].
  - cbn. intros j q. destruct (decide (i = j)) as [<-|]; [rewrite lookup_insert_eq; intros [= <-]|rewrite lookup_insert_ne by done; apply H3].
    destruct (H3 i p Hp) as (? & _ & ?). split_and!; [done|done|]. unfold objs_of in *. by rewrite Hsp.
  - cbn. intros j k q r Hq Hr Es. assert (Hl : ∀ j q, <[i := p']> (paths w) !! j = Some q → ∃ q0, paths w !! j = Some q0 ∧ p_space q0 = p_space q).
    { intros j0 q0. destruct (decide (i = j0)) as [<-|]; [rewrite lookup_insert_eq; intros [= <-]; eauto|rewrite lookup_insert_ne by done; eauto]. }
    destruct (Hl j q Hq) as (q0 & Hq0 & E1), (Hl k r Hr) as (r0 & Hr0 & E2). eapply H4; [exact Hq0|exact Hr0|congruence].
Qed.
Lemma splits_upd c w i p p' Out : world_ok c w → paths w !! i = Some p → p_space p' = p_space p →
  (∀ env, sat_path p' env → sat_path p env ∧ Out i p' env id) → (unlimited p → ∀ env, sat_path p env → sat_path p' env) →
  splits w i p (set_paths (<[i := p']> (paths w)) w) Out.
Proof.
  intros Hw Hp Hsp Hout Hcov.
  assert (Hi : ∀ j q, from w i j → <[i := p']> (paths w) !! j = Some q → j = i ∧ q = p').
  { intros j q Hj. destruct (decide (i = j)) as [<-|]; [rewrite lookup_insert_eq; intros [= <-]; done|rewrite lookup_insert_ne by done].
    intros Hq. destruct (wo_path _ _ Hw j q Hq) as [Hlt _]. unfold from in Hj. destruct Hj; [congruence|lia]. }
  split; cbn.
  - lia.
  - apply mem_ext_refl.
  - intros j Hj _. by rewrite lookup_insert_ne.
  - intros. apply kept_refl.
  - intros j q Hj Hq env Hs. destruct (Hi j q Hj Hq) as [-> ->]. destruct (Hout env Hs) as [Hsp' HO]. split; [done|]. exists id. split; [|done].
    intros g (s & Es & Hg). exists s. by rewrite Hsp.
  - intros Hu env Hs. exists i, p'. split; [by left|]. split; [by rewrite lookup_insert_eq|by apply Hcov].
  - intros j k q r env Hj Hk Hq Hr _ _. destruct (Hi j q Hj Hq) as [-> _], (Hi k r Hk Hr) as [-> _]. done.
Qed.

Lemma addConstraint_done c w i p e : world_ok c w → paths w !! i = Some p → query_ok (sat_path p) e → may (sat_path p) e →
  ∃ cs', Executor_addConstraint opts i e w = Done tt (set_paths (<[i := set_constraints cs' p]> (paths w)) w) ∧ cs_ok cs' ∧
    ∀ env, sat_of cs' env ↔ sat_path p env ∧ eval env e = Some 1.
Proof.
  intros Hw Hp Hq Hm. destruct (wo_path _ _ Hw i p Hp) as (_ & Hcs & _).
  assert (Hg : ∃ cs', state_addConstraint opts i e w = Done tt (set_paths (<[i := set_constraints cs' p]> (paths w)) w) ∧ cs_ok cs' ∧
    ∀ env, sat_of cs' env ↔ sat_path p env ∧ eval env e = Some 1).
  { destruct (add_condition (ConstArrayOpt opts) (UseVisitorHash opts) _ e Hcs Hq Hm) as (cs' & Ea & Hcs' & Hiff). exists cs'. split; [|done].
    unfold state_addConstraint. rewrite (bind_done _ _ _ _ _ (get_path_done w i p Hp)), Ea. by apply upd_path_done. }
  destruct e as [n v| | | | | | | | | |]; try exact Hg. cbn [Executor_addConstraint]. destruct Hm as (env0 & Hs0 & E0). cbn in E0. injection E0 as ->.
  destruct Hq as (_ & Hl & _). cbn in Hl. subst n. exists (p_constraints p). split; [|split; [done|]].
  - replace (set_constraints (p_constraints p) p) with p by by destruct p. rewrite insert_id by done. by destruct w.
  - intros env. cbn. unfold sat_path. naive_solver.
Qed.

(** ** Forks *)
Lemma same_contents m m' p q s s' : heap m' = heap m → spaces m !! p_space p = Some s → spaces m' !! p_space q = Some s' → objects s' = objects s →
  objs_of m' q = objs_of m p ∧ ∀ env g, holds m p env g → holds m' q env g.
Proof.
  intros Hh Es Es' Eo. unfold objs_of. rewrite Es, Es'. cbn. split; [by rewrite Eo|]. intros env g (s0 & E0 & Hr). simplify_eq. exists s'. split; [done|].
  intros x. specialize (Hr x). unfold AddressSpaceCow.binding, cell_rel in *. by rewrite Hh, Eo.
Qed.
(** The states after a branch, before the constraints are added. *)
Definition branched w i p s : world :=
  let p1 := set_depth (u32 (depth p + 1)) p in
  mkWorld (forked (w_mem w) (p_space p) s) (w_solver w) (w_env w)
    (<[next_path w := set_as (next_as (w_mem w)) p1]> (<[i := p1]> (paths w))) (Datatypes.S (next_path w)).
Lemma branched_run w i p s : paths w !! i = Some p → spaces (w_mem w) !! p_space p = Some s →
  branch_path i w = Done (next_path w) (branched w i p s).
Proof.
  intros Hp Hs. unfold branch_path. rewrite (bind_done _ _ _ _ _ (upd_path_done _ w i p Hp)).
  set (p1 := set_depth (u32 (depth p + 1)) p).
  rewrite (bind_done _ _ _ _ _ (get_path_done (set_paths (<[i := p1]> (paths w)) w) i p1 (lookup_insert_eq _ _ _))).
  assert (Ec : copy_AddressSpace (p_space p) (w_mem w) = Done (next_as (w_mem w)) (forked (w_mem w) (p_space p) s)).
  { unfold copy_AddressSpace, get_space, mbind, M_bind, get, put. cbn. by rewrite Hs. }
  unfold in_mem. erewrite bind_done by (apply zoom_done; exact Ec). done.
Qed.
Lemma branched_ok c w i p s : world_ok c w → c < 2 ^ 32 - 1 → paths w !! i = Some p → spaces (w_mem w) !! p_space p = Some s →
  world_ok (c + 1) (branched w i p s) ∧ (∀ j q, paths w !! j = Some q → kept (w_mem w) (w_mem (branched w i p s)) q) ∧
  let q := set_as (next_as (w_mem w)) (set_depth (u32 (depth p + 1)) p) in
  objs_of (w_mem (branched w i p s)) q = objs_of (w_mem w) p ∧ ∀ env g, holds (w_mem w) p env g → holds (w_mem (branched w i p s)) q env g.
Proof.
  intros Hw Hc Hp Hs. pose proof (wo_mem _ _ Hw) as Hinv. set (m' := forked (w_mem w) (p_space p) s).
  set (p1 := set_depth (u32 (depth p + 1)) p). set (q0 := set_as (next_as (w_mem w)) p1).
  assert (Hkept : ∀ j q, paths w !! j = Some q → kept (w_mem w) m' q).
  { intros j q Hq. destruct (space_bound w c j q Hw Hq) as (Hlt & t & Ht). unfold kept.
    destruct (decide (p_space q = p_space p)) as [Eq|Ne].
    - rewrite Eq in Ht. simplify_eq. eapply same_contents; [done|by rewrite Eq|cbn; rewrite Eq, lookup_insert_ne, lookup_insert_eq by lia; done|done].
    - eapply same_contents; [done|exact Ht|cbn; rewrite !lookup_insert_ne by (congruence || lia); exact Ht|done]. }
  assert (Hnew : objs_of m' q0 = objs_of (w_mem w) p ∧ ∀ env g, holds (w_mem w) p env g → holds m' q0 env g).
  { eapply same_contents; [done|exact Hs|cbn; rewrite lookup_insert_eq; done|done]. }
  split; [|done]. split.
  - by apply inv_fork.
  - apply (wo_solver _ _ Hw).
  - intros j q. cbn. destruct (wo_path _ _ Hw i p Hp) as (Hi & Hcs & objs & Eo & Hobjs).
    assert (Hext : ∀ objs, objects_ok (w_mem w) objs → objects_ok m' objs) by (intros o; exact (objects_ext (w_mem w) m' o (mem_ext_refl (w_mem w)))).
    destruct (decide (next_path w = j)) as [<-|]; [rewrite lookup_insert_eq; intros [= <-]|rewrite lookup_insert_ne by done].
    + split; [lia|]. split; [done|]. exists objs. split; [rewrite <-Eo; apply Hnew|auto].
    + destruct (decide (i = j)) as [<-|]; [rewrite lookup_insert_eq; intros [= <-]|rewrite lookup_insert_ne by done; intros Hq].
      * split; [lia|]. split; [done|]. exists objs. split; [rewrite <-Eo; apply (Hkept i p Hp)|auto].
      * destruct (wo_path _ _ Hw j q Hq) as (Hj & Hcq & oq & Eq & Hoq). split; [lia|]. split; [done|]. exists oq. split; [rewrite <-Eq; apply (Hkept j q Hq)|auto].
  - assert (Hl : ∀ j q, paths (branched w i p s) !! j = Some q → (j = next_path w ∧ p_space q = next_as (w_mem w)) ∨ ∃ q', paths w !! j = Some q' ∧ p_space q' = p_space q).
    { intros j q. cbn. destruct (decide (next_path w = j)) as [<-|]; [rewrite lookup_insert_eq; intros [= <-]; by left|rewrite lookup_insert_ne by done; right].
      destruct (decide (i = j)) as [<-|]; [rewrite lookup_insert_eq in H; injection H as <-; by exists p|rewrite lookup_insert_ne in H by done; by exists q]. }
    intros j k q r Hq Hr Es. destruct (Hl j q Hq) as [[-> E1]|(q' & Hq' & E1)], (Hl k r Hr) as [[-> E2]|(r' & Hr' & E2)]; [done|..].
    + destruct (space_bound w c k r' Hw Hr') as (Hlt & _). lia.
    + destruct (space_bound w c j q' Hw Hq') as (Hlt & _). lia.
    + eapply (wo_distinct _ _ Hw); [exact Hq'|exact Hr'|congruence].
Qed.

(** The pair that a fork returns: the pieces on which the condition is true and false; a piece that is not returned was
    too deep. *)
Definition fork_out p (cond : Expr) (r : StatePair) : nat → path → assignment → (contents → contents) → Prop := λ k q env T,
  T = id ∧ locals q = locals p ∧
  (r.1 = Some k ∧ p_end q = None ∧ eval env cond = Some 1 ∨ r.2 = Some k ∧ p_end q = None ∧ eval env cond = Some 0 ∨
   r.1 ≠ Some k ∧ r.2 ≠ Some k ∧ p_end q = Some Early ∧ MaxDepth opts ≠ 0).
(** A piece that goes on. *)
Definition ready w p w' k : Prop := ∃ q, paths w' !! k = Some q ∧ p_end q = None ∧ locals q = locals p ∧ forkDisabled q = forkDisabled p ∧
  objs_of (w_mem w') q = objs_of (w_mem w) p.
Record forked_to w i p (cond : Expr) (r : StatePair) w' : Prop := mkForkedTo {
  fk_splits : splits w i p w' (fork_out p cond r);
  fk_true k : r.1 = Some k → from w i k ∧ ready w p w' k ∧ r.2 ≠ Some k;
  fk_false k : r.2 = Some k → from w i k ∧ ready w p w' k
}.

(** Two pieces of a branch. *)
Lemma splits_two c w i p s (b : bool) qt qf w' Out : world_ok c w → c < 2 ^ 32 - 1 → paths w !! i = Some p → spaces (w_mem w) !! p_space p = Some s →
  let n := next_path w in let t := if b then n else i in let f := if b then i else n in
  w_mem w' = w_mem (branched w i p s) → next_path w' = Datatypes.S n → paths w' !! t = Some qt → paths w' !! f = Some qf →
  (∀ j, j ≠ i → j ≠ n → paths w' !! j = paths w !! j) →
  p_space (if b then qf else qt) = p_space p → p_space (if b then qt else qf) = next_as (w_mem w) →
  (∀ env, sat_path qt env ↔ sat_path p env ∧ Out t qt env id) → (∀ env, sat_path qf env ↔ sat_path p env ∧ Out f qf env id) →
  (∀ env, sat_path p env → Out t qt env id ∨ Out f qf env id) → (∀ env, Out t qt env id → Out f qf env id → False) →
  splits w i p w' Out.
Proof.
  intros Hw Hc Hp Hs n t f Em En Ht Hf Hother Hsi Hsn Hst Hsf Hcov Hdis. destruct (branched_ok c w i p s Hw Hc Hp Hs) as (_ & Hkept & Hnew1 & Hnew2).
  destruct (wo_path _ _ Hw i p Hp) as [Hi _]. assert (Hin : i ≠ n) by (unfold n; lia).
  assert (Hlook : ∀ j q, from w i j → paths w' !! j = Some q → j = t ∧ q = qt ∨ j = f ∧ q = qf).
  { intros j q Hj Hq. destruct (decide (j = t)) as [->|Ht']; [left; split; congruence|]. destruct (decide (j = f)) as [->|Hf']; [right; split; congruence|]. exfalso.
    assert (j ≠ i ∧ j ≠ n) as [Hji Hjn] by (unfold t, f in *; destruct b; done). rewrite (Hother j Hji Hjn) in Hq.
    destruct (wo_path _ _ Hw j q Hq) as [Hlt _]. unfold from, n in *. lia. }
  assert (Htrans : ∀ q, p_space q = p_space p ∨ p_space q = next_as (w_mem w) → ∀ env g, holds (w_mem w) p env g → holds (w_mem w') q env g).
  { intros q Hq env g Hg. rewrite Em. destruct Hq as [Hq|Hq].
    - destruct (proj2 (Hkept i p Hp) env g Hg) as (s' & Es' & Hr). exists s'. by rewrite Hq.
    - destruct (Hnew2 env g Hg) as (s' & Es' & Hr). exists s'. by rewrite Hq. }
  assert (Hqs : (p_space qt = p_space p ∨ p_space qt = next_as (w_mem w)) ∧ (p_space qf = p_space p ∨ p_space qf = next_as (w_mem w))) by (destruct b; auto).
  assert (Hfrom : from w i t ∧ from w i f) by (unfold from, t, f, n; destruct b; auto).
  split.
  - rewrite En. unfold n. lia.
  - rewrite Em. exact (mem_ext_refl (w_mem w)).
  - intros j Hj Hlt. apply Hother; [done|unfold n; lia].
  - intros j q Hj Hq. rewrite Em. by apply (Hkept j).
  - intros j q Hj Hq env Hsq. destruct (Hlook j q Hj Hq) as [[-> ->]|[-> ->]]; [apply Hst in Hsq as [Hsp HO]|apply Hsf in Hsq as [Hsp HO]];
      (split; [done|]); exists id; (split; [|done]); apply Htrans, Hqs.
  - intros _ env Hsp. destruct (Hcov env Hsp) as [HO|HO]; [exists t, qt|exists f, qf]; (split_and!; [apply Hfrom|done|]); [by apply Hst|by apply Hsf].
  - intros j k q r env Hj Hk Hq Hr Hsq Hsr. destruct (Hlook j q Hj Hq) as [[-> ->]|[-> ->]], (Hlook k r Hk Hr) as [[-> ->]|[-> ->]]; try done; exfalso;
      (apply Hst in Hsq || apply Hsf in Hsq); (apply Hsf in Hsr || apply Hst in Hsr); naive_solver.
Qed.

(** The same constraints, space and registers. *)
Definition alike p q : Prop := p_space q = p_space p ∧ locals q = locals p ∧ forkDisabled q = forkDisabled p.
(** The constraints of the two sides, and the limit of the depth. *)
Lemma add_sides c w t f pt pf cond : world_ok c w → paths w !! t = Some pt → paths w !! f = Some pf → t ≠ f → p_constraints pf = p_constraints pt →
  p_end pt = None → p_end pf = None → query_ok (sat_path pt) cond → may (sat_path pt) cond → may_not (sat_path pt) cond →
  ∃ qt qf r, (Executor_addConstraint opts t cond;;
      z ← lift_res (createIsZero (ConstArrayOpt opts) cond); Executor_addConstraint opts f z;;
      p ← get_path t;
      if negb (MaxDepth opts =? 0) && (MaxDepth opts <=? depth p)
      then terminateStateEarly t;; terminateStateEarly f;; mret (None, None) else mret (Some t, Some f)) w =
    Done r (set_paths (<[f := qf]> (<[t := qt]> (paths w))) w) ∧ world_ok c (set_paths (<[f := qf]> (<[t := qt]> (paths w))) w) ∧
    alike pt qt ∧ alike pf qf ∧ (∀ env, sat_path qt env ↔ sat_path pt env ∧ eval env cond = Some 1) ∧
    (∀ env, sat_path qf env ↔ sat_path pt env ∧ eval env cond = Some 0) ∧
    (r = (Some t, Some f) ∧ p_end qt = None ∧ p_end qf = None ∨ r = (None, None) ∧ p_end qt = Some Early ∧ p_end qf = Some Early ∧ MaxDepth opts ≠ 0).
Proof.
  intros Hw Ht Hf Htf Ecs Eet Eef Hq Hm Hn. destruct (addConstraint_done c w t pt cond Hw Ht Hq Hm) as (cst & E1 & Hcst & Hst).
  set (w1 := set_paths _ w) in E1. assert (Hw1 : world_ok c w1) by by apply (world_ok_upd c w t pt).
  destruct (zero_condition (ConstArrayOpt opts) _ cond Hq) as (z & Ez & Hqz & Hz).
  assert (Hf1 : paths w1 !! f = Some pf) by (cbn; by rewrite lookup_insert_ne). assert (Esat : sat_path pf = sat_path pt) by (unfold sat_path; by rewrite Ecs).
  destruct (addConstraint_done c w1 f pf z Hw1 Hf1) as (csf & E2 & Hcsf & Hsf); [by rewrite Esat| |].
  { rewrite Esat. destruct Hn as (env & Hs & E0). exists env. split; [done|]. by apply Hz. }
  set (w2 := set_paths _ w1) in E2. assert (Hw2 : world_ok c w2) by by apply (world_ok_upd c w1 f pf).
  assert (Ht2 : paths w2 !! t = Some (set_constraints cst pt)) by (cbn; rewrite lookup_insert_ne by done; apply lookup_insert_eq).
  assert (Hiff : ∀ env, sat_of csf env ↔ sat_path pt env ∧ eval env cond = Some 0).
  { intros env. rewrite Hsf, Esat. split; intros [Hs Hv]; (split; [done|]); by apply (Hz env Hs). }
  rewrite (bind_done _ _ _ _ _ E1). unfold lift_res at 1, mbind at 1, M_bind at 1. rewrite Ez. rewrite (bind_done _ _ _ _ _ E2), (bind_done _ _ _ _ _ (get_path_done w2 t _ Ht2)).
  match goal with |- context [if ?b then _ else _] => destruct b eqn:Edepth end.
  - apply andb_true_iff in Edepth as [Edepth%negb_true_iff%Z.eqb_neq _]. set (qt := set_end Early (set_constraints cst pt)). set (qf := set_end Early (set_constraints csf pf)). exists qt, qf, (None, None).
    assert (Ew : set_paths (<[f := qf]> (<[t := qt]> (paths w2))) w2 = set_paths (<[f := qf]> (<[t := qt]> (paths w))) w).
    { unfold set_paths, w2, w1. cbn. f_equal. apply map_eq. intros j.
      destruct (decide (f = j)) as [<-|]; [by rewrite !lookup_insert_eq|rewrite !(lookup_insert_ne _ f) by done].
      destruct (decide (t = j)) as [<-|]; [by rewrite !lookup_insert_eq|by rewrite !(lookup_insert_ne _ t), (lookup_insert_ne _ f), (lookup_insert_ne _ t) by done]. }
    assert (Hf2 : <[t := qt]> (paths w2) !! f = Some (set_constraints csf pf)) by (rewrite lookup_insert_ne by done; apply lookup_insert_eq).
    assert (Hw3 : world_ok c (set_paths (<[t := qt]> (paths w2)) w2)) by by apply (world_ok_upd c w2 t (set_constraints cst pt)).
    split; [|split_and!; try done].
    + unfold terminateStateEarly. rewrite (bind_done _ _ _ _ _ (upd_path_done _ w2 t _ Ht2)). rewrite (bind_done _ _ _ _ _ (upd_path_done _ (set_paths (<[t := qt]> (paths w2)) w2) f _ Hf2)).
      unfold mret, M_ret. by rewrite <-Ew.
    + rewrite <-Ew. exact (world_ok_upd c (set_paths (<[t := qt]> (paths w2)) w2) f (set_constraints csf pf) qf Hw3 Hf2 eq_refl Hcsf).
    + by right.
  - exists (set_constraints cst pt), (set_constraints csf pf), (Some t, Some f). split; [done|]. split_and!; try done. by left.
Qed.

Definition with_env (e : E) w : world := mkWorld (w_mem w) (w_solver w) e (paths w) (next_path w).
Lemma world_ok_env c w e : world_ok c w → world_ok c (with_env e w).
Proof. by intros [? ? ? ?]. Qed.
Lemma splits_env w i p w' Out e e' : splits w i p w' Out → splits (with_env e w) i p (with_env e' w') Out.
Proof. by intros [? ? ? ? ? ? ?]. Qed.

Lemma fork_states_spec c w i p cond : world_ok c w → c < 2 ^ 32 - 1 → paths w !! i = Some p → p_end p = None →
  query_ok (sat_path p) cond → may (sat_path p) cond → may_not (sat_path p) cond →
  ∃ r w', fork_states opts i cond w = Done r w' ∧ world_ok (c + 1) w' ∧ forked_to w i p cond r w'.
Proof.
  intros Hw Hc Hp He Hq Hm Hn. destruct (space_bound w c i p Hw Hp) as (_ & s & Hs). destruct (wo_path _ _ Hw i p Hp) as [Hi _].
  destruct (branched_ok c w i p s Hw Hc Hp Hs) as (Hwb & Hkept & Hnew & _). unfold fork_states. rewrite (bind_done _ _ _ _ _ (branched_run w i p s Hp Hs)).
  assert (∃ b e, (if RandomizeFork opts then in_env coin else mret false) (branched w i p s) = Done b (with_env e (branched w i p s))) as (b & e & Eb).
  { destruct (RandomizeFork opts); [|exists false, (w_env w); by destruct w]. unfold in_env. destruct (coin _) as [b e]. by exists b, e. }
  rewrite (bind_done _ _ _ _ _ Eb). set (wb := with_env e (branched w i p s)). pose proof (world_ok_env _ _ e Hwb) as Hwe. fold wb in Hwe.
  set (p1 := set_depth (u32 (depth p + 1)) p) in *. set (pn := set_as (next_as (w_mem w)) p1) in *. set (n := next_path w) in *.
  assert (Hpi : paths wb !! i = Some p1) by (cbn; rewrite lookup_insert_ne by (unfold n; lia); apply lookup_insert_eq).
  assert (Hpn : paths wb !! n = Some pn) by (cbn; apply lookup_insert_eq). assert (Hin : i ≠ n) by (unfold n; lia).
  set (tt' := if b then n else i). set (ff := if b then i else n). set (pt := if b then pn else p1). set (pf := if b then p1 else pn).
  replace (if b then (n, i) else (i, n)) with (tt', ff) by by destruct b. cbv iota zeta.
  destruct (add_sides (c + 1) wb tt' ff pt pf cond) as (qt & qf & r & Er & Hw' & (Hat1 & Hat2 & Hat3) & (Haf1 & Haf2 & Haf3) & Hst & Hsf & Hr);
    [exact Hwe|by unfold tt', pt; destruct b|by unfold ff, pf; destruct b|unfold tt', ff; destruct b; congruence|by unfold pt, pf; destruct b|by unfold pt; destruct b|by unfold pf; destruct b|by unfold pt; destruct b..|].
  rewrite Er. set (w' := set_paths _ wb) in *. exists r, w'. split; [done|]. split; [done|].
  assert (Esat : sat_path pt = sat_path p) by by unfold pt; destruct b. rewrite Esat in Hst, Hsf.
  assert (Htf : tt' ≠ ff) by (unfold tt', ff; destruct b; congruence).
  assert (Hlt : paths w' !! tt' = Some qt) by (cbn; rewrite lookup_insert_ne by done; apply lookup_insert_eq).
  assert (Hlf : paths w' !! ff = Some qf) by (cbn; apply lookup_insert_eq).
  assert (Hloc : locals qt = locals p ∧ locals qf = locals p ∧ forkDisabled qt = forkDisabled p ∧ forkDisabled qf = forkDisabled p).
  { rewrite Hat2, Haf2, Hat3, Haf3. unfold pt, pf. by destruct b. }
  assert (Hout : ∀ env, (fork_out p cond r tt' qt env id ↔ eval env cond = Some 1 ∨ r = (None, None)) ∧ (fork_out p cond r ff qf env id ↔ eval env cond = Some 0 ∨ r = (None, None))).
  { intros env. unfold fork_out. destruct Hloc as (-> & -> & _). clear -Hr Htf. destruct Hr as [(-> & -> & ->)|(-> & -> & -> & Hd)]; cbn; naive_solver. }
  assert (Hobj : objs_of (w_mem w') qt = objs_of (w_mem w) p ∧ objs_of (w_mem w') qf = objs_of (w_mem w) p).
  { unfold objs_of at 1 3. rewrite Hat1, Haf1. unfold pt, pf. destruct b; (split; [|]); first [exact Hnew|exact (proj1 (Hkept i p Hp))]. }
  assert (Hqs : p_space (if b then qf else qt) = p_space p ∧ p_space (if b then qt else qf) = next_as (w_mem w)).
  { unfold pt, pf in *. by destruct b. }
  assert (Hfrom : from w i tt' ∧ from w i ff) by (unfold from, tt', ff, n; destruct b; auto).
  split.
  - apply (splits_mono w i p w' (λ k q env T, fork_out p cond r k q env T ∧ (k = tt' ∧ eval env cond = Some 1 ∨ k = ff ∧ eval env cond = Some 0))); [|by intros k q env T _ []].
    apply (splits_two c w i p s b qt qf w'); try done; fold n tt' ff.
    + intros j Hji Hjn. cbn. rewrite !lookup_insert_ne; [done|unfold tt', ff, n in *; destruct b; congruence..].
    + apply Hqs.
    + apply Hqs.
    + intros env. rewrite (Hst env), (proj1 (Hout env)). naive_solver.
    + intros env. rewrite (Hsf env), (proj2 (Hout env)). naive_solver.
    + intros env Hsp. rewrite (proj1 (Hout env)), (proj2 (Hout env)). destruct (query_values _ cond env Hq Hsp); [right|left]; auto.
    + intros env [_ H1] [_ H2]. naive_solver.
  - intros k Hk. destruct Hr as [(-> & He1 & He2)|(-> & _)]; [|done]. cbn in Hk |- *. injection Hk as <-. split; [apply Hfrom|]. split; [|congruence].
    exists qt. naive_solver.
  - intros k Hk. destruct Hr as [(-> & He1 & He2)|(-> & _)]; [|done]. cbn in Hk |- *. injection Hk as <-. split; [apply Hfrom|]. exists qf. naive_solver.
Qed.

(** *** More constraints on one path *)
(** The path [i] gets constraints, and besides only the solver and the surroundings change. *)
Record restricts c w i p w' p' : Prop := mkRestricts {
  rs_ok : world_ok c w';
  rs_mem : w_mem w' = w_mem w;
  rs_next : next_path w' = next_path w;
  rs_paths : paths w' = <[i := p']> (paths w);
  rs_alike : alike p p';
  rs_end : p_end p' = p_end p;
  rs_sat env : sat_path p' env → sat_path p env;
  rs_cover : unlimited p → ∀ env, sat_path p env → sat_path p' env
}.
Lemma restricts_path c w i p w' p' : restricts c w i p w' p' → paths w' !! i = Some p'.
Proof. intros H. rewrite (rs_paths _ _ _ _ _ _ H). apply lookup_insert_eq. Qed.
(** Only the solver and the surroundings change. *)
Definition asked (s : S) (e : E) w : world := mkWorld (w_mem w) s e (paths w) (next_path w).
Lemma restricts_asked c w i p s e : world_ok c w → paths w !! i = Some p → I s → restricts c w i p (asked s e w) p.
Proof. intros Hw Hp Hs. split; cbn; try done; [by destruct Hw; split|by rewrite insert_id]. Qed.
Lemma restricts_refl c w i p : world_ok c w → paths w !! i = Some p → restricts c w i p w p.
Proof. intros Hw Hp. pose proof (restricts_asked c w i p (w_solver w) (w_env w) Hw Hp (wo_solver _ _ Hw)) as H. by destruct w. Qed.
Lemma restricts_trans c w i p w1 p1 w2 p2 : restricts c w i p w1 p1 → restricts c w1 i p1 w2 p2 → restricts c w i p w2 p2.
Proof.
  intros [A1 A2 A3 A4 (A5 & A5' & A5'') A6 A7 A8] [B1 B2 B3 B4 (B5 & B5' & B5'') B6 B7 B8]. split; [done|congruence|congruence|by rewrite B4, A4, insert_insert_eq|split_and!; congruence|congruence|auto|].
  intros Hu env Hs. apply B8; [|by apply A8]. unfold unlimited. by rewrite A5''.
Qed.
Lemma restricts_add c w i p e : world_ok c w → paths w !! i = Some p → query_ok (sat_path p) e → may (sat_path p) e →
  (unlimited p → ∀ env, sat_path p env → eval env e = Some 1) →
  ∃ w' p', Executor_addConstraint opts i e w = Done tt w' ∧ restricts c w i p w' p' ∧ ∀ env, sat_path p' env → eval env e = Some 1.
Proof.
  intros Hw Hp Hq Hm Hc. destruct (addConstraint_done c w i p e Hw Hp Hq Hm) as (cs & Ea & Hcs & Hiff). eexists _, (set_constraints cs p). split; [exact Ea|].
  split; [|intros env Hs; exact (proj2 (proj1 (Hiff env) Hs))]. split; try done.
  - apply (world_ok_upd c w i p); done.
  - intros env Hs. exact (proj1 (proj1 (Hiff env) Hs)).
  - intros Hu env Hs. apply (proj2 (Hiff env)). auto.
Qed.
Lemma splits_same w i p w1 w2 Out : w_mem w2 = w_mem w1 → paths w2 = paths w1 → next_path w2 = next_path w1 → splits w i p w1 Out → splits w i p w2 Out.
Proof. intros E1 E2 E3 [? ? ? ? ? ? ?]. split; rewrite ?E1, ?E2, ?E3; done. Qed.
Lemma splits_refl c w i p : world_ok c w → paths w !! i = Some p → splits w i p w (λ k q env T, k = i ∧ T = id ∧ q = p).
Proof.
  intros Hw Hp. replace w with (set_paths (<[i := p]> (paths w)) w) at 2 by (unfold set_paths; rewrite insert_id by done; by destruct w). by apply (splits_upd c).
Qed.
Lemma restricts_splits c w i p w' p' : world_ok c w → paths w !! i = Some p → restricts c w i p w' p' → splits w i p w' (λ k q env T, k = i ∧ T = id).
Proof.
  intros Hw Hp [A1 A2 A3 A4 A5 A6 A7 A8]. apply (splits_same w i p (set_paths (<[i := p']> (paths w)) w)); [done..|].
  apply (splits_upd c); [done|done|apply A5|auto|done].
Qed.

(** An equality with a value the expression has. *)
Lemma value_condition p e (b : bool) v env0 : wf e → narrow e → defined (sat_path p) e → sat_path p env0 → eval env0 e = Some v →
  let c := Constant (getWidth e) v in
  ∃ x, (if b then EqExpr_make (ConstArrayOpt opts) c e else EqExpr_make (ConstArrayOpt opts) e c) tt = Done x tt ∧ query_ok (sat_path p) x ∧ may (sat_path p) x ∧
    ∀ env, sat_path p env → eval env x = Some 1 → eval env e = Some v.
Proof.
  intros Hw Hn Hd Hs0 E0 cst. pose proof (eval_range env0 e v Hw E0) as Hv. pose proof (wf_width e Hw) as Hpos.
  assert (Wc : wf cst) by by split. set (l := if b then cst else e). set (r := if b then e else cst).
  assert (Hlr : wf l ∧ wf r ∧ narrow l ∧ narrow r ∧ getWidth l = getWidth r) by (unfold l, r; by destruct b). destruct Hlr as (Wl & Wr & Nl & Nr & Elr).
  destruct (cmp_builds (ConstArrayOpt opts) KEq l r Wl Wr Elr) as (x & Eq & Wx & Lx & Hq). exists x.
  assert (Hval : ∀ env y, eval env e = Some y → eval env x = Some (bool_val (y =? v))).
  { intros env y Ey. apply Hq, eval_cmp. unfold l, r. destruct b; [exists v, y|exists y, v]; (split_and!; [done|done|]); cbn; by rewrite ?(Z.eqb_sym v y). }
  split; [by unfold l, r in Eq; destruct b|]. split; [split_and!; [done|done| |]|split].
  - intros env Hs. destruct (Hd env Hs) as [y Ey]. rewrite (Hval env y Ey). eauto.
  - eapply narrow_done; [eapply small_at_small, cmp_small; [exact Wl|exact Wr|exact Nl|exact Nr|exact Elr]|exact Eq].
  - exists env0. split; [done|]. by rewrite (Hval env0 v E0), Z.eqb_refl.
  - intros env Hs E1. destruct (Hd env Hs) as [y Ey]. rewrite (Hval env y Ey) in E1. destruct (Z.eqb_spec y v) as [E2|]; [congruence|done].
Qed.
Lemma query_sub (P Q : assignment → Prop) e : (∀ env, Q env → P env) → query_ok P e → query_ok Q e.
Proof. intros H (H1 & H2 & H3 & H4). split_and!; [done|done| |done]. intros env Hq. auto. Qed.

(** A question to the solver. *)
Lemma in_solver_done {A} (m : M S A) c w i p (Q : A → Prop) : world_ok c w → paths w !! i = Some p → returns I m (w_solver w) Q →
  ∃ a w', in_solver m w = Done a w' ∧ restricts c w i p w' p ∧ Q a.
Proof.
  intros Hw Hp (a & s' & Em & Hi & HQ). exists a, (asked s' (w_env w) w). split; [exact (zoom_done _ _ _ _ _ _ Em)|]. split; [by apply restricts_asked|done].
Qed.
Lemma ask_path {A} (f : list Expr → M S A) c w i p (Q : A → Prop) : world_ok c w → paths w !! i = Some p → returns I (f (p_constraints p)) (w_solver w) Q →
  ∃ a w', (p ← get_path i; in_solver (f (p_constraints p))) w = Done a w' ∧ restricts c w i p w' p ∧ Q a.
Proof.
  intros Hw Hp Hr. rewrite (bind_done _ _ _ _ _ (get_path_done w i p Hp)). by apply in_solver_done.
Qed.
Lemma in_env_done {A} (f : E → A * E) c w i p : world_ok c w → paths w !! i = Some p →
  ∃ w', in_env f w = Done (f (w_env w)).1 w' ∧ restricts c w i p w' p.
Proof.
  intros Hw Hp. unfold in_env. destruct (f (w_env w)) as [a v]. exists (asked (w_solver w) v w). split; [done|]. apply restricts_asked; [done|done|apply (wo_solver _ _ Hw)].
Qed.
(** The value of an expression on the path. *)
Lemma value_run c w i p e : world_ok c w → paths w !! i = Some p → wf e → narrow e → defined (sat_path p) e →
  ∃ v env0 w', must_succeed (getValue opts impl i e) w = Done (Constant (getWidth e) v) w' ∧ restricts c w i p w' p ∧ sat_path p env0 ∧ eval env0 e = Some v.
Proof.
  intros Hw Hp He Hn Hd. destruct (wo_path _ _ Hw i p Hp) as (_ & Hcs & _).
  destruct (ask_path (λ cs, TimingSolver_getValue impl (simplify opts) cs e) c w i p (λ r, ∃ v env, r = Some (Constant (getWidth e) v) ∧ sat_path p env ∧ eval env e = Some v) Hw Hp)
    as (r & w' & Er & Hr & v & env & -> & Hs & Ev).
  { destruct (value_total opts I impl HR HT (p_constraints p) e (w_solver w) (wo_solver _ _ Hw) Hcs He Hn Hd) as (a & s' & Em & Hi & v & env & -> & Hs & Ev).
    unfold must_succeed, mbind, M_bind in Em. destruct (TimingSolver_getValue _ _ _ _ _) as [[x|] s1|] eqn:Ex; [|done..].
    unfold mret, M_ret in Em. injection Em as -> ->. exists (Some (Constant (getWidth e) v)), s'. eauto 10. }
  exists v, env, w'. split; [|done]. unfold must_succeed. by rewrite (bind_done _ _ _ _ _ Er).
Qed.

(** *** The fork of a path *)
Lemma settle_spec c w i p cond : world_ok c w → paths w !! i = Some p → query_ok (sat_path p) cond →
  ∃ cond' w' p', settle opts impl i cond w = Done cond' w' ∧ restricts c w i p w' p' ∧ query_ok (sat_path p') cond' ∧
    ∀ env, sat_path p' env → eval env cond' = eval env cond.
Proof.
  intros Hw Hp Hq. unfold settle. destruct (isa_Constant cond).
  { exists cond, w, p. split; [done|]. split; [by apply restricts_refl|done]. }
  destruct (in_env_done over_share c w i p Hw Hp) as (w1 & E1 & H1). rewrite (bind_done _ _ _ _ _ E1). destruct (over_share (w_env w)).1 eqn:Eo; [|by exists cond, w1, p].
  pose proof (rs_ok _ _ _ _ _ _ H1) as Hw1. pose proof (restricts_path _ _ _ _ _ _ H1) as Hp1. pose proof Hq as (Wq & Lq & Dq & Nq).
  destruct (value_run c w1 i p cond Hw1 Hp1 Wq Nq Dq) as (v & env0 & w2 & E2 & H2 & Hs0 & Ev). rewrite (bind_done _ _ _ _ _ E2).
  destruct (value_condition p cond true v env0 Wq Nq Dq Hs0 Ev) as (x & Ex & Hqx & Hmx & Hx'). rewrite (bind_done _ _ _ _ _ (lift_done _ _ _ Ex)).
  destruct (restricts_add c w2 i p x (rs_ok _ _ _ _ _ _ H2) (restricts_path _ _ _ _ _ _ H2) Hqx Hmx) as (w3 & p3 & E3 & H3 & Hs3).
  { intros (_ & [Hno _] & _). by rewrite Hno in Eo. }
  rewrite (bind_done _ _ _ _ _ E3). exists (Constant (getWidth cond) v), w3, p3. split; [done|]. split; [by eapply restricts_trans; [|eapply restricts_trans]|].
  pose proof (eval_range env0 cond v Wq Ev) as Hv. split.
  - split_and!; [by split; [rewrite Lq|]|done|by eexists|done].
  - intros env Hs. symmetry. apply Hx'; [by apply (rs_sat _ _ _ _ _ _ H3)|by apply Hs3].
Qed.
Lemma choose_side_spec c w i p cond res : world_ok c w → paths w !! i = Some p → query_ok (sat_path p) cond → validity_ok (mkQuery (p_constraints p) cond) (Some res) →
  ∃ res' w' p', choose_side opts i cond res w = Done res' w' ∧ restricts c w i p w' p' ∧
    match res' with
    | VTrue => ∀ env, sat_path p' env → eval env cond = Some 1
    | VFalse => ∀ env, sat_path p' env → eval env cond = Some 0
    | VUnknown => p' = p ∧ may (sat_path p) cond ∧ may_not (sat_path p) cond
    end.
Proof.
  intros Hw Hp Hq Hv. pose proof (restricts_refl c w i p Hw Hp) as Hsame.
  destruct res; [by exists VTrue, w, p|by exists VFalse, w, p|]. cbn in Hv. destruct Hv as [Hm Hn]. cbn [choose_side].
  rewrite (bind_done _ _ _ _ _ (get_path_done w i p Hp)). destruct (in_env_done inhibited c w i p Hw Hp) as (w1 & E1 & H1). rewrite (bind_done _ _ _ _ _ E1).
  destruct (_ || _) eqn:Eno; [|by exists VUnknown, w1, p]. pose proof (rs_ok _ _ _ _ _ _ H1) as Hw1. pose proof (restricts_path _ _ _ _ _ _ H1) as Hp1.
  assert (Hlim : ¬ unlimited p) by (intros (_ & [_ Hi] & Hf); by rewrite Hi, Hf in Eno).
  destruct (in_env_done coin c w1 i p Hw1 Hp1) as (w2 & E2 & H2). rewrite (bind_done _ _ _ _ _ E2).
  pose proof (rs_ok _ _ _ _ _ _ H2) as Hw2. pose proof (restricts_path _ _ _ _ _ _ H2) as Hp2. destruct (coin _).1.
  - destruct (restricts_add c w2 i p cond Hw2 Hp2 Hq Hm) as (w3 & p3 & E3 & H3 & Hs3); [done|]. rewrite (bind_done _ _ _ _ _ E3).
    exists VTrue, w3, p3. split; [done|]. split; [by eapply restricts_trans; [|eapply restricts_trans]|done].
  - destruct (zero_condition (ConstArrayOpt opts) _ cond Hq) as (z & Ez & Hqz & Hz). rewrite (bind_done _ _ _ _ _ (lift_done _ _ _ Ez)).
    destruct (restricts_add c w2 i p z Hw2 Hp2 Hqz) as (w3 & p3 & E3 & H3 & Hs3); [|done|].
    { destruct Hn as (env & Hs & E0). exists env. split; [done|]. by apply Hz. }
    rewrite (bind_done _ _ _ _ _ E3). exists VFalse, w3, p3. split; [done|]. split; [by eapply restricts_trans; [|eapply restricts_trans]|].
    intros env Hs. apply Hz; [by apply (rs_sat _ _ _ _ _ _ H3)|by apply Hs3].
Qed.

(** A path that goes on one side, or ends. *)
Lemma restricts_ready c w i p w' p' : paths w !! i = Some p → restricts c w i p w' p' → p_end p = None → ready w p w' i.
Proof.
  intros Hp H He. destruct (rs_alike _ _ _ _ _ _ H) as (A1 & A2 & A3). exists p'. split; [by eapply restricts_path|].
  rewrite (rs_end _ _ _ _ _ _ H). split_and!; [done..|]. unfold objs_of. by rewrite (rs_mem _ _ _ _ _ _ H), A1.
Qed.
Lemma forked_one c w i p w' p' cond (b : bool) : world_ok c w → paths w !! i = Some p → restricts c w i p w' p' → p_end p = None →
  (∀ env, sat_path p' env → eval env cond = Some (bool_val b)) → forked_to w i p cond (if b then (Some i, None) else (None, Some i)) w'.
Proof.
  intros Hw Hp H He Hc. pose proof (restricts_ready _ _ _ _ _ _ Hp H He) as Hr. destruct (rs_alike _ _ _ _ _ _ H) as (A1 & A2 & A3). split.
  - apply (splits_same w i p (set_paths (<[i := p']> (paths w)) w)); [apply H|apply H|apply H|].
    apply (splits_upd c); [done|done|done| |apply H]. intros env Hs. split; [by apply (rs_sat _ _ _ _ _ _ H)|].
    split; [done|]. split; [done|]. specialize (Hc env Hs). rewrite (rs_end _ _ _ _ _ _ H). destruct b; auto.
  - intros k Hk. destruct b; [|done]. injection Hk as <-. split; [by left|done].
  - intros k Hk. destruct b; [done|]. injection Hk as <-. split; [by left|done].
Qed.
Lemma end_path c w i p x : world_ok c w → paths w !! i = Some p → let p' := set_end x p in
  upd_path i (set_end x) w = Done tt (set_paths (<[i := p']> (paths w)) w) ∧ world_ok c (set_paths (<[i := p']> (paths w)) w) ∧
  splits w i p (set_paths (<[i := p']> (paths w)) w) (λ k q env T, k = i ∧ q = p' ∧ T = id).
Proof.
  intros Hw Hp p'. destruct (wo_path _ _ Hw i p Hp) as (_ & Hcs & _). split; [by apply upd_path_done|]. split; [by apply (world_ok_upd c w i p)|].
  by apply (splits_upd c).
Qed.
(** A fork after more constraints. *)
Lemma restricts_forked c c' w i p w1 p1 cond cond' r w' : world_ok c w → paths w !! i = Some p → restricts c w i p w1 p1 → world_ok c' w' →
  (∀ env, sat_path p1 env → eval env cond' = eval env cond) → forked_to w1 i p1 cond' r w' → forked_to w i p cond r w'.
Proof.
  intros Hw Hp H Hw' Hc [F1 F2 F3]. destruct (rs_alike _ _ _ _ _ _ H) as (A1 & A2 & A3).
  assert (Hready : ∀ k, ready w1 p1 w' k → ready w p w' k).
  { intros k (q & Hq & E1 & E2 & E3 & E4). exists q. split_and!; [done|done|congruence|congruence|]. rewrite E4. unfold objs_of. by rewrite (rs_mem _ _ _ _ _ _ H), A1. }
  assert (Hfrom : ∀ k, from w1 i k ↔ from w i k) by (intros k; unfold from; by rewrite (rs_next _ _ _ _ _ _ H)). split.
  - assert (Hsat : splits w1 i p1 w' (λ k q env T, fork_out p cond r k q env T)).
    { destruct F1 as [S1 S2 S3 S4 S5 S6 S7]. split; try done. intros j q Hj Hq env Hs. destruct (S5 j q Hj Hq env Hs) as (Hs1 & T & HT' & HO). split; [done|].
      exists T. split; [done|]. unfold fork_out in *. by rewrite <-A2, <-Hc. }
    eapply (splits_trans c c w i p w1); [done|apply H|done|by eapply restricts_splits|by left|by eapply restricts_path| |exact Hsat| |].
    + unfold unlimited. by rewrite A3.
    + by intros k q env T Hk _ _ [? _].
    + by intros k q env T1 T2 _ _ _ [_ ->] HO.
  - intros k Hk. destruct (F2 k Hk) as (H1 & H2 & H3). split; [by apply Hfrom|auto].
  - intros k Hk. destruct (F3 k Hk) as (H1 & H2). split; [by apply Hfrom|auto].
Qed.
Lemma world_ok_mono c c' w : c ≤ c' → world_ok c w → world_ok c' w.
Proof.
  intros Hc [[M1 M2 M3 M4 M5] H2 H3 H4]. split; [|done..]. split; [done| |done..]. intros i s Hs. destruct (M2 i s Hs) as (? & ? & ?). split_and!; naive_solver lia.
Qed.

Lemma fork_spec c w i p cond : world_ok c w → c < 2 ^ 32 - 1 → paths w !! i = Some p → p_end p = None → query_ok (sat_path p) cond →
  ∃ r w', fork opts impl i cond w = Done r w' ∧ world_ok (c + 1) w' ∧ forked_to w i p cond r w'.
Proof.
  intros Hw Hc Hp He Hq. unfold fork. destruct (settle_spec c w i p cond Hw Hp Hq) as (cond' & w1 & p1 & E1 & H1 & Hq1 & Hv1). rewrite (bind_done _ _ _ _ _ E1).
  pose proof (rs_ok _ _ _ _ _ _ H1) as Hw1. pose proof (restricts_path _ _ _ _ _ _ H1) as Hp1. destruct (wo_path _ _ Hw1 i p1 Hp1) as (_ & Hcs1 & _).
  destruct (ask_path (λ cs, TimingSolver_evaluate impl (simplify opts) cs cond') c w1 i p1 _ Hw1 Hp1
    (returns_both I _ _ _ _ (evaluate_answer opts I impl HR _ cond' _ (wo_solver _ _ Hw1) Hcs1 Hq1) (evaluate_total opts I impl HT _ cond' _ (wo_solver _ _ Hw1) Hcs1 Hq1)))
    as (res & w2 & E2 & H2 & Hres & Hnn).
  rewrite (bind_done _ _ _ _ _ E2). pose proof (rs_ok _ _ _ _ _ _ H2) as Hw2. pose proof (restricts_path _ _ _ _ _ _ H2) as Hp2.
  pose proof (restricts_trans _ _ _ _ _ _ _ _ H1 H2) as H12. assert (He1 : p_end p1 = None) by by rewrite (rs_end _ _ _ _ _ _ H1).
  destruct res as [res|]; [|done].
  - destruct (choose_side_spec c w2 i p1 cond' res Hw2 Hp2 Hq1 Hres) as (res' & w3 & p3 & E3 & H3 & Hside). rewrite (bind_done _ _ _ _ _ E3).
    pose proof (restricts_trans _ _ _ _ _ _ _ _ H12 H3) as H13. assert (Hv3 : ∀ env, sat_path p3 env → eval env cond' = eval env cond).
    { intros env Hs. apply Hv1, (rs_sat _ _ _ _ _ _ H3), Hs. }
    destruct res'.
    + exists (Some i, None), w3. split; [done|]. split; [apply (world_ok_mono c); [lia|apply H3]|]. apply (forked_one c w i p w3 p3 cond true); [done..|].
      intros env Hs. rewrite <-(Hv3 env Hs). auto.
    + exists (None, Some i), w3. split; [done|]. split; [apply (world_ok_mono c); [lia|apply H3]|]. apply (forked_one c w i p w3 p3 cond false); [done..|].
      intros env Hs. rewrite <-(Hv3 env Hs). auto.
    + destruct Hside as (-> & Hm & Hn). destruct (fork_states_spec c w3 i p1 cond' (rs_ok _ _ _ _ _ _ H3) Hc (restricts_path _ _ _ _ _ _ H3) He1 Hq1 Hm Hn)
        as (r & w4 & E4 & Hw4 & H4). exists r, w4. split; [done|]. split; [done|]. by eapply (restricts_forked c (c + 1) w i p w3 p1).
Qed.
End World.

(** ** Properties *)
(** C15: (refinement) A fork divides a path.  With a solver that is right and answers every query, [fork] on a condition over
    arithmetic of at most 64 bits returns, whatever limits on forking apply.  The path and the new paths are its pieces: each
    assignment of a piece is an assignment of the path, no assignment belongs to two pieces, and unless a limit made the
    engine choose one side, every assignment of the path belongs to one.  The piece returned first has the assignments under which the
    condition is true, the second those under which it is false, and a piece that is not returned has been ended by the limit of the depth.  In every piece the memory holds what it held on
    the path, in an address space of its own, and all other paths and their memories are as before. *)
Theorem fork_divides_path `{U : !Universe, HA : !APInt, HC : !ExprCompare, HRf : !ReflCompare} (opts : options) {S : Type} (I : S → Prop) (impl : SolverImpl S)
  {E : Type} `{HE : !EngineEnv E} (c : Z) (w : @world S E) (i : nat) (p : path) (cond : Expr) :
  1 < PointerWidth opts ≤ 64 → right I impl → total I impl → world_ok opts I c w → c < 2 ^ 32 - 1 → paths w !! i = Some p → p_end p = None →
  query_ok (sat_path p) cond →
  ∃ r w', fork opts impl i cond w = Done r w' ∧ world_ok opts I (c + 1) w' ∧ forked_to opts True w i p cond r w'.
Proof. intros HW HR HT. by apply fork_spec. Qed.

(** One path with one empty space, and no limits. *)
#[global] Instance no_env : EngineEnv unit := {| over_share := λ e, (false, e); inhibited := λ e, (false, e); coin := λ e, (false, e); random := λ e, (0, e) |}.
Definition sample_options : options := mkOptions true true true 32 false 0 false 0 0.
Definition one_path : path := mkPath [] 0 ∅ 0 false [] ∅ None.
Definition first_world : @world unit unit := mkWorld initial_mem tt tt {[0%nat := one_path]} 1.
Lemma one_path_ok (envs : list assignment) env : In env envs → cs_ok (U := list_universe envs) [].
Proof.
  intros Hin. split; [constructor|left; intros c Hc; by apply not_elem_of_nil in Hc|]. exists env. split; [done|]. intros c Hc. by apply not_elem_of_nil in Hc.
Qed.
Lemma first_world_ok : world_ok (U := list_universe three_envs) sample_options (λ _, True) 1 first_world.
Proof.
  split; [destruct initial_inv as [H1 H2 H3 H4 H5]; split; [|done..]; intros o s Ho; by destruct (H1 o s Ho) as (? & ? & _)|done|..].
  - cbn. intros i p [<- <-]%lookup_singleton_Some. split; [lia|]. split; [eapply one_path_ok; by left|]. eexists. split; [reflexivity|].
    assert (Hno : ∀ op, op ∉ inorder (objects new_AddressSpace)) by (intros op; apply not_elem_of_nil). split; [split; [apply Sorted.SSorted_nil|..]|]; intros op **; by destruct (Hno op).
  - cbn. by intros i j p q [<- <-]%lookup_singleton_Some [<- <-]%lookup_singleton_Some.
Qed.
Lemma fork_divides_path_witness :
  let U := list_universe three_envs in let cond := Cmp KEq (Constant 8 7) (arg_byte 0) in
  ∃ w' p, fork sample_options (list_impl three_envs) 0 cond first_world = Done (Some 0%nat, Some 1%nat) w' ∧ paths w' !! 0%nat = Some p ∧
    ∀ env, sat_path p env → eval env cond = Some 1.
Proof.
  intros U cond. destruct (fork_divides_path (U := U) sample_options (λ _, True) (list_impl three_envs) 1 first_world 0 one_path cond) as (r & w' & Ef & _ & Hf);
    [cbn; lia|apply list_right|apply list_total|exact first_world_ok|lia|reflexivity|reflexivity| |].
  { split_and!; [by vm_compute|reflexivity|intros env _; by eexists|by vm_compute]. }
  assert (Er : r = (Some 0%nat, Some 1%nat)) by (vm_compute in Ef; by injection Ef). subst r.
  destruct (fk_true _ _ _ _ _ _ _ _ Hf 0%nat eq_refl) as (Hfr & (q & Hq & _) & _). exists w', q. split; [exact Ef|]. split; [exact Hq|]. intros env Hs.
  destruct (sp_out _ _ _ _ _ _ (fk_splits _ _ _ _ _ _ _ _ Hf) 0%nat q Hfr Hq env Hs) as (_ & T & _ & _ & _ & [(_ & _ & E1)|[(E2 & _)|(E2 & _)]]); [exact E1|discriminate E2|by destruct E2].
Defined.
