(* ===== verification/PathExecMem.v ===== *)
(** * Symbolic loads and stores refine concrete ones

    [executeMemoryOperation] of [PathExec] for every assignment of the path at once: an assignment that satisfies the constraints of a
    path before a load or store satisfies those of exactly one path after it, and on that path the register or the memory is what the
    concrete access gives, or the path has ended with an error exactly when the access is not inside an object. *)
From S2P Require Import Prelude Expr ExprCreate ExprRefine ExprSums ExprSpec ExprBuild ExprWeight Memory MemorySpec MemoryOps ImmutableTree ImmutableTreeMap AddressSpace AddressSpaceCow AddressSpaceResolve Solver SolverSpec SolverProps Visitor VisitorSpec ConstraintSpec EngineAnswers PathExec PathExecSpec.

Section Mem.
Context `{U : !Universe, HA : !APInt, HC : !ExprCompare, HRf : !ReflCompare} (opts : options).
Context {S : Type} (I : S → Prop) (impl : SolverImpl S) (HR : right I impl) (HT : total I impl).
Context (expired : M S bool) (Hx : ∀ s, I s → ∃ b s', expired s = Done b s' ∧ I s').
Context {E : Type} `{HE : !EngineEnv E}.
Abbreviation W := (PointerWidth opts).
Abbreviation CAO := (ConstArrayOpt opts).
Abbreviation LE := (isLittleEndian opts).
Context (HW : 1 < W ≤ 64) (Full : Prop).
Abbreviation world := (@world S E).
Abbreviation world_ok := (world_ok opts I).
Abbreviation splits := (splits Full).
Abbreviation restricts := (restricts opts I Full).
Abbreviation contents := (gmap Z (Z * memory)).
Implicit Types (w : world) (p q : path) (i j k : nat) (env : assignment) (op : ObjectPair).

(** ** Pointers *)
(** A pointer that has a value on the path. *)
Definition pointer_ok p (e : Expr) : Prop := wf e ∧ narrow e ∧ folded e = true ∧ getWidth e = W ∧ defined (sat_path p) e.
Lemma pointer_sub p q e : (∀ env, sat_path q env → sat_path p env) → pointer_ok p e → pointer_ok q e.
Proof. intros H (H1 & H2 & H3 & H4 & H5). split_and!; try done. intros env Hs. auto. Qed.

Lemma toConstant_spec c w i p e : world_ok c w → paths w !! i = Some p → pointer_ok p e → ¬ Full →
  ∃ v w' p', toConstant opts impl i e w = Done (Constant W v) w' ∧ restricts c w i p w' p' ∧ ∀ env, sat_path p' env → eval env e = Some v.
Proof.
  intros Hw Hp (We & Ne & _ & Le & De) Hfull. destruct (wo_path _ _ _ _ Hw i p Hp) as (_ & Hcs & _). destruct (co_sat _ Hcs) as (env0 & Hs0).
  unfold toConstant. rewrite (bind_done _ _ _ _ _ (get_path_done w i p Hp)).
  destruct (simplify_spec CAO (UseVisitorHash opts) (p_constraints p) e env0 (co_conditions _ Hcs) We Ne (proj2 Hs0) (De env0 Hs0)) as (r & Er & Hr).
  rewrite (bind_done _ _ _ _ _ (lift_done _ _ _ Er)).
  assert (Hv : ∀ env, sat_path p env → eval env r = eval env e).
  { intros env Hs. destruct (De env Hs) as [v Ev]. rewrite Ev. exact (rw_agrees _ _ _ Hr env (proj2 Hs) v Ev). }
  assert (Dr : defined (sat_path p) r) by (intros env Hs; rewrite (Hv env Hs); by apply De).
  assert (Lr : getWidth r = W) by (rewrite (rw_width _ _ _ Hr); done). pose proof (rw_wf _ _ _ Hr) as Wr. pose proof (rw_narrow _ _ _ Hr) as Nr. clear Hr Er.
  destruct (isa_Constant r) eqn:Ec.
  - destruct r as [n v| | | | | | | | | |]; try done. cbn in Lr. subst n. exists v, w, p. split; [done|]. split; [by apply restricts_refl|].
    intros env Hs. by rewrite <-(Hv env Hs).
  - destruct (value_run opts I impl HR HT Full c w i p r Hw Hp Wr Nr Dr) as (v & env1 & w1 & E1 & H1 & Hs1 & Ev1). rewrite (bind_done _ _ _ _ _ E1).
    destruct (value_condition opts p r false v env1 Wr Nr Dr Hs1 Ev1) as (x & Ex & Hqx & Hmx & Hx'). rewrite (bind_done _ _ _ _ _ (lift_done _ _ _ Ex)).
    destruct (restricts_add opts I HW Full c w1 i p x (rs_ok _ _ _ _ _ _ _ _ _ H1) (restricts_path _ _ _ _ _ _ _ _ _ H1) Hqx Hmx) as (w3 & p3 & E3 & H3 & Hs3); [by intros [? _]|].
    rewrite (bind_done _ _ _ _ _ E3), Lr. exists v, w3, p3. split; [done|]. split; [by eapply restricts_trans|]. intros env Hs.
    pose proof (rs_sat _ _ _ _ _ _ _ _ _ H3 env Hs) as Hsp. rewrite <-(Hv env Hsp). apply Hx'; [done|by apply Hs3].
Qed.
Lemma getAddressInfo_spec c w i p e : world_ok c w → paths w !! i = Some p → pointer_ok p e →
  ∃ w', getAddressInfo opts impl i e w = Done tt w' ∧ restricts c w i p w' p.
Proof.
  intros Hw Hp (We & Ne & _ & Le & De). destruct (isa_Constant e) eqn:Ec.
  { destruct e as [n v| | | | | | | | | |]; try done. cbn in Le. subst n. exists w. split; [|by apply restricts_refl]. cbn. unfold getZExtValue.
    by rewrite (proj2 (Z.leb_le _ _)) by lia. }
  destruct (value_run opts I impl HR HT Full c w i p e Hw Hp We Ne De) as (v & env1 & w1 & E1 & H1 & Hs1 & Ev1).
  pose proof (rs_ok _ _ _ _ _ _ _ _ _ H1) as Hw1. pose proof (restricts_path _ _ _ _ _ _ _ _ _ H1) as Hp1. destruct (wo_path _ _ _ _ Hw1 i p Hp1) as (_ & Hcs & _).
  assert (Hq : value_query (mkQuery (p_constraints p) e)) by (split_and!; [by apply cs_fine|done|done]).
  destruct (ask_path opts I Full (λ cs, TimingSolver_getRange CAO impl cs e) c w1 i p _ Hw1 Hp1
    (getRange_right CAO I impl HR HT (mkQuery (p_constraints p) e) Hq ltac:(cbn; lia) (w_solver w1) (wo_solver _ _ _ _ Hw1))) as (r & w2 & E2 & H2 & _).
  assert (Ed : getAddressInfo (E := E) opts impl i e = (value ← must_succeed (getValue opts impl i e);
    _ ← lift_res (match value with Constant w v => getZExtValue 64 w v | _ => halt AssertFailure end); _ ← getRange opts impl i e; mret tt)) by by destruct e.
  rewrite Ed, (bind_done _ _ _ _ _ E1). assert (Ez : getZExtValue 64 (getWidth e) v tt = Done v tt) by (unfold getZExtValue; by rewrite (proj2 (Z.leb_le _ _)) by lia).
  rewrite (bind_done _ _ _ _ _ (lift_done _ _ _ Ez)), (bind_done _ _ _ _ _ E2). exists w2. split; [done|by eapply restricts_trans].
Qed.

(** A resolution adds at most one object per step of its two searches. *)
Section Lengths.
Context {X : Type} `{!TimingSolver X}.
Definition loop_length (r : loop all_result (list ObjectPair)) : nat := match r with Ret r => length r.2 | Ended rl => length rl end.
Lemma after_any {A B} (m : M X A) (k : A → M X B) Q : (∀ a s, wlp (k a) Q s) → ∀ s, wlp (m ≫= k) Q s.
Proof. intros H s. unfold wlp, mbind, M_bind. destruct (m s) as [a s'|]; [apply H|done]. Qed.
Lemma check_object_length max op e rl s : wlp (check_object CAO W max op e rl) (λ r _, (loop_length r ≤ length rl + 1)%nat) s.
Proof.
  unfold check_object, push_result. apply after_any. intros cond s1. apply after_any. intros [[|]|] s2; [|apply wlp_ret; cbn; lia..].
  case_match; [apply after_any; intros [[|]|] s3; apply wlp_ret; cbn; rewrite length_app; cbn; lia|]. case_match; apply wlp_ret; cbn; rewrite length_app; cbn; lia.
Qed.
Lemma search_length max e fuel :
  (∀ first oi rl s, wlp (all_back CAO W fuel first oi e max rl) (λ r _, (loop_length r ≤ length rl + fuel)%nat) s) ∧
  (∀ oi rl s, wlp (all_forward CAO W fuel oi e max rl) (λ r _, (loop_length r ≤ length rl + fuel)%nat) s).
Proof.
  induction fuel as [|fuel [IB IF]]; (split; [intros first oi rl s; cbn [all_back]; case_match; [apply wlp_ret; cbn; lia|]|
    intros oi rl s; cbn [all_forward]; case_match; [|apply wlp_ret; cbn; lia]]); try done.
  - apply after_any. intros op s1. apply after_any. intros [] s2; [apply wlp_ret; cbn; lia|]. apply wlp_bind. eapply wlp_mono; [apply check_object_length|].
    intros [x|rl1] s3 Hl; [apply wlp_ret; cbn in *; lia|]. apply after_any. intros cond s4. apply after_any. intros [[|]|] s5; [apply wlp_ret; cbn in *; lia| |apply wlp_ret; cbn in *; lia].
    eapply wlp_mono; [apply IB|]. cbn in *. lia.
  - apply after_any. intros [] s2; [apply wlp_ret; cbn; lia|]. apply after_any. intros cond s4. apply after_any. intros [[|]|] s5; [apply wlp_ret; cbn; lia| |apply wlp_ret; cbn; lia].
    apply wlp_bind. eapply wlp_mono; [apply check_object_length|]. intros [x|rl1] s3 Hl; [apply wlp_ret; cbn in *; lia|]. apply after_any. intros oi' s6.
    eapply wlp_mono; [apply IF|]. cbn in *. lia.
Qed.
Definition resolve_bound (objs : MemoryMap) : Z := 2 * Z.of_nat (length (inorder objs)) + 1.
Lemma resolve_length objs e max s : wlp (resolve CAO W objs e max) (λ r _, Z.of_nat (length r.2) ≤ resolve_bound objs) s.
Proof.
  pose proof (size_inorder objs) as Hsz. unfold resolve, resolve_bound. assert (Ef : search_fuel objs = length (inorder objs)) by (unfold search_fuel; lia).
  assert (Hg : wlp (cex ← ts_getValue e; match cex with None => mret (true, []) | Some cex => example ← example_of cex;
       let start := ImmutableTree.upper_bound object_key objs example in
       r ← all_back CAO W (search_fuel objs) (ImmutableTree.begin objs) start e max [];
       match r with Ret r => mret r | Ended rl => r ← all_forward CAO W (search_fuel objs) start e max rl;
         match r with Ret r => mret r | Ended rl => mret (false, rl) end end end) (λ r _, Z.of_nat (length r.2) ≤ 2 * Z.of_nat (length (inorder objs)) + 1) s).
  { rewrite Ef. apply after_any. intros [cex|] s1; [|apply wlp_ret; cbn; lia]. apply after_any. intros x s2. cbv zeta. apply wlp_bind.
    eapply wlp_mono; [apply search_length|]. intros [r|rl] s3 Hl; [apply wlp_ret; cbn in *; lia|]. apply wlp_bind.
    eapply wlp_mono; [apply search_length|]. intros [r|rl'] s4 Hl'; apply wlp_ret; cbn in *; lia. }
  destruct e as [n v| | | | | | | | | |]; try exact Hg. apply after_any. intros x s1. apply wlp_ret. destruct (resolveOne_c objs x); cbn; lia.
Qed.
End Lengths.

(** The resolutions; [timely]: the solver's timer does not expire. *)
Definition timely : Prop := ∀ s b s', I s → expired s = Done b s' → b = false.
Lemma get_space_done w i p objs : paths w !! i = Some p → objs_of (w_mem w) p = Some objs → ∃ s, objects s = objs ∧
  in_mem (get_space (p_space p)) w = Done s w.
Proof.
  intros Hp Ho. unfold objs_of in Ho. destruct (spaces (w_mem w) !! p_space p) as [s|] eqn:Es; [|done]. injection Ho as <-. exists s. split; [done|].
  assert (Eg : get_space (p_space p) (w_mem w) = Done s (w_mem w)) by (unfold get_space, mbind, M_bind, get; cbn; by rewrite Es).
  unfold in_mem. rewrite (zoom_done _ _ _ _ _ _ Eg). by destruct w.
Qed.
Lemma path_resolve_spec c w i p e objs : world_ok c w → paths w !! i = Some p → pointer_ok p e → objs_of (w_mem w) p = Some objs →
  ∃ inc rl w', path_resolve opts impl expired i e w = Done (inc, rl) w' ∧ restricts c w i p w' p ∧ (∀ op, op ∈ rl → op ∈ inorder objs) ∧ Z.of_nat (length rl) ≤ resolve_bound objs ∧
    (inc = false → ∀ env x op, sat_path p env → eval env e = Some x → op ∈ inorder objs → contains op.1 x → op ∈ rl) ∧ (inc = true → ¬ timely).
Proof.
  intros Hw Hp (We & Ne & _ & Le & De) Ho. destruct (wo_path _ _ _ _ Hw i p Hp) as (_ & Hcs & objs' & Ho' & Hobjs). simplify_eq. destruct (co_sat _ Hcs) as (env0 & Hs0).
  destruct (De env0 Hs0) as [x0 Ex0]. pose proof (solver_of_right opts I impl HR HT expired (p_constraints p) Hcs Hx) as Hsr.
  destruct (resolve_run (HT := solver_of opts impl expired (p_constraints p)) (HR := solver_of_right opts I impl HR HT expired (p_constraints p) Hcs Hx) CAO W HW (sat_path p) objs (oo_space _ _ _ Hobjs) e We Ne Le De 0 (w_solver w))
    as ([inc rl] & s' & Er & Hi & H1 & H2 & _ & H4); [apply (wo_solver _ _ _ _ Hw)|by exists x0, env0|].
  unfold path_resolve. rewrite (bind_done _ _ _ _ _ (get_path_done w i p Hp)). destruct (get_space_done w i p objs Hp Ho) as (s & Es & Eg). rewrite (bind_done _ _ _ _ _ Eg), Es.
  destruct (in_solver_done opts I Full (resolve (TimingSolver0 := solver_of opts impl expired (p_constraints p)) CAO W objs e 0) c w i p (λ r, r = (inc, rl)) Hw Hp) as (a & w' & Ea & Hr & ->); [by exists (inc, rl), s'|].
  exists inc, rl, w'. split; [exact Ea|]. split; [done|]. split_and!.
  - intros op Hop. by apply (H1 op Hop).
  - pose proof (resolve_length (TimingSolver0 := solver_of opts impl expired (p_constraints p)) objs e 0 (w_solver w)) as Hl. unfold wlp in Hl. by rewrite Er in Hl.
  - intros Hinc env x op Hs Ev Hop Hc. apply (H2 Hinc op x Hop); [by exists env|done].
  - intros Hinc Ht. by specialize (H4 Hinc Logic.I Ht).
Qed.
Lemma path_resolveOne_spec c w i p e objs : world_ok c w → paths w !! i = Some p → pointer_ok p e → objs_of (w_mem w) p = Some objs →
  ∃ r w', path_resolveOne opts impl expired i e w = Done r w' ∧ restricts c w i p w' p ∧ r ≠ None ∧ ∀ op, r = Some (Some op) → op ∈ inorder objs.
Proof.
  intros Hw Hp (We & Ne & _ & Le & De) Ho. destruct (wo_path _ _ _ _ Hw i p Hp) as (_ & Hcs & objs' & Ho' & Hobjs). simplify_eq. destruct (co_sat _ Hcs) as (env0 & Hs0).
  destruct (De env0 Hs0) as [x0 Ex0].
  destruct (resolveOne_run (HT := solver_of opts impl expired (p_constraints p)) (HR := solver_of_right opts I impl HR HT expired (p_constraints p) Hcs Hx) CAO W HW (sat_path p) objs (oo_space _ _ _ Hobjs) e We Ne Le De (w_solver w))
    as (r & s' & Er & Hi & H1); [apply (wo_solver _ _ _ _ Hw)|by exists x0, env0|].
  unfold path_resolveOne. rewrite (bind_done _ _ _ _ _ (get_path_done w i p Hp)). destruct (get_space_done w i p objs Hp Ho) as (s & Es & Eg). rewrite (bind_done _ _ _ _ _ Eg), Es.
  destruct (in_solver_done opts I Full (resolveOne_e (TimingSolver0 := solver_of opts impl expired (p_constraints p)) CAO W objs e) c w i p (λ x, x = r) Hw Hp) as (a & w' & Ea & Hr & ->); [by exists r, s'|].
  exists r, w'. split; [exact Ea|]. split; [done|]. split; [by intros ->; apply H1|]. intros op ->. apply H1.
Qed.

(** ** A change of the memory of one path *)
Definition with_mem (m : mem) i p w : world := mkWorld m (w_solver w) (w_env w) (<[i := p]> (paths w)) (next_path w).
Lemma mem_step c w i p m' p' objs' (T : assignment → contents → contents) (Out : nat → path → assignment → (contents → contents) → Prop) :
  world_ok c w → paths w !! i = Some p → inv true c m' → p_space p' = p_space p → p_constraints p' = p_constraints p → mem_ext (w_mem w) m' →
  (∀ j q, j ≠ i → paths w !! j = Some q → kept (w_mem w) m' q) → objs_of m' p = Some objs' → objects_ok opts m' objs' →
  (∀ env, sat_path p env → (∀ g, holds (w_mem w) p env g → holds m' p env (T env g)) ∧ Out i p' env (T env)) →
  world_ok c (with_mem m' i p' w) ∧ splits w i p (with_mem m' i p' w) Out.
Proof.
  intros Hw Hp Hinv Es Ec Hext Hkept Ho Hobj Hout. pose proof (wo_path _ _ _ _ Hw i p Hp) as (Hi & Hcs & _).
  assert (Hl : ∀ j q, <[i := p']> (paths w) !! j = Some q → j = i ∧ q = p' ∨ j ≠ i ∧ paths w !! j = Some q).
  { intros j q. destruct (decide (i = j)) as [<-|]; [rewrite lookup_insert_eq; intros [= <-]; auto|rewrite lookup_insert_ne by done; auto]. }
  assert (Ho' : objs_of m' p' = Some objs') by (unfold objs_of in *; by rewrite Es). split.
  - split; [done|apply (wo_solver _ _ _ _ Hw)|..]; cbn.
    + intros j q Hq. destruct (Hl j q Hq) as [[-> ->]|[Hj Hq']]; [rewrite Ec; eauto|].
      destruct (wo_path _ _ _ _ Hw j q Hq') as (? & ? & oq & Eo & Hoq). split_and!; [done|done|]. exists oq.
      rewrite (proj1 (Hkept j q Hj Hq')). split; [done|by eapply objects_ext].
    + intros j k q r Hq Hr Esp. destruct (Hl j q Hq) as [[-> ->]|[Hj Hq']], (Hl k r Hr) as [[-> ->]|[Hk Hr']]; [done|..|by eapply (wo_distinct _ _ _ _ Hw)].
      * symmetry. eapply (wo_distinct _ _ _ _ Hw); [exact Hr'|exact Hp|congruence].
      * eapply (wo_distinct _ _ _ _ Hw); [exact Hq'|exact Hp|congruence].
  - assert (Hsat : ∀ env, sat_path p' env ↔ sat_path p env) by (intros env; unfold sat_path; by rewrite Ec).
    assert (Hfrom : ∀ j q, from w i j → <[i := p']> (paths w) !! j = Some q → j = i ∧ q = p').
    { intros j q Hj Hq. destruct (Hl j q Hq) as [?|[Hne Hq']]; [done|]. destruct (wo_path _ _ _ _ Hw j q Hq') as [? _]. unfold from in Hj. lia. }
    split; cbn; [lia|done|..].
    + intros j Hj _. by rewrite lookup_insert_ne.
    + done.
    + intros j q Hj Hq env Hs. destruct (Hfrom j q Hj Hq) as [-> ->]. apply Hsat in Hs. split; [done|]. destruct (Hout env Hs) as [H1 H2]. exists (T env). split; [|done].
      intros g Hg. destruct (H1 g Hg) as (s & Ess & Hr). exists s. by rewrite Es.
    + intros _ env Hs. exists i, p'. split; [by left|]. split; [apply lookup_insert_eq|by apply Hsat].
    + intros j k q r env Hj Hk Hq Hr _ _. destruct (Hfrom j q Hj Hq) as [-> _], (Hfrom k r Hk Hr) as [-> _]. done.
Qed.

(** ** Accesses *)
Definition inside_access (mo : MemoryObject) (x N : Z) : Prop := mo_address mo ≤ x ∧ x + N ≤ mo_address mo + mo_size mo.
(** The concrete access at the address [x] to the object at [b]. *)
Definition read_at env (b x n : Z) (g : contents) : option Z := cl ← g !! b; mem_read LE (λ _, Some (x - b)) cl.1 n env cl.2.
Definition write_at env (b x : Z) (v : Expr) (g : contents) : contents :=
  default g (cl ← g !! b; mem' ← mem_write LE (λ _, Some (x - b)) (λ env, eval env v) cl.1 (getWidth v) env cl.2; Some (<[b := (cl.1, mem')]> g)).
(** The operands of an access have values. *)
Definition operand_ok p (a : access) : Prop := access_type a < 2 ^ 32 - 7 ∧
  match a with
  | Load _ type => access_width type
  | Store v => write_width (getWidth v) ∧ wf v ∧ defined (sat_path p) v
  end.
Lemma operand_sub p q a : (∀ env, sat_path q env → sat_path p env) → operand_ok p a → operand_ok q a.
Proof. intros H [H1 H2]. split; [done|]. destruct a; [done|]. destruct H2 as (? & ? & ?). split_and!; try done. intros env Hs. auto. Qed.
Lemma operand_bytes p a : operand_ok p a → getMinBytesForWidth (access_type a) = nbytes (access_type a) ∧ 1 ≤ nbytes (access_type a) < 2 ^ 32.
Proof.
  intros [Hlt Ha]. assert (Hw : access_width (access_type a)) by (destruct a; [done|apply Ha]). unfold getMinBytesForWidth, nbytes, access_width in *.
  destruct (Z.eqb_spec (access_type a) 1) as [->|Hne]; [done|]. destruct Hw as [?|[Hpos Hm]]; [done|]. rewrite wrapu_small by lia.
  pose proof (Z.div_mod (access_type a) 8 ltac:(lia)). pose proof (Z.div_mod (access_type a + 7) 8 ltac:(lia)). pose proof (Z.mod_pos_bound (access_type a + 7) 8). nia.
Qed.

(** What an access to the object [op] does to a path. *)
Definition accessed (m : mem) p (a : access) env (x : Z) (op : ObjectPair) q (T : contents → contents) : Prop :=
  inside_access op.1 x (nbytes (access_type a)) ∧
  match a with
  | Load target type => p_end q = None ∧ T = id ∧
    ∃ e, locals q = <[target := e]> (locals p) ∧ ∀ g, holds m p env g → ∃ v, read_at env (mo_address op.1) x type g = Some v ∧ eval env e = Some v
  | Store value => locals q = locals p ∧ ∃ o, heap m !! op.2 = Some o ∧
    if readOnly o then p_end q = Some (OnError "readonly.err") ∧ T = id else p_end q = None ∧ T = write_at env (mo_address op.1) x value
  end.

(** The offset of a pointer inside an object. *)
Lemma offset_value mo p e o : placed W mo → mo_address mo < 2 ^ W → pointer_ok p e → getOffsetExpr CAO W mo e tt = Done o tt →
  wf o ∧ offset_ok o ∧ ∀ env x N, 0 ≤ N → eval env e = Some x → inside_access mo x N → address o env = Some (x - mo_address mo).
Proof.
  intros Hpl Ha (We & Ne & Fe & Le & De) Eo. destruct (offset_builds CAO W HW mo e Hpl Ha We Le) as (o' & Eo' & Wo & Lo & Ho). rewrite Eo in Eo'. injection Eo' as <-.
  split; [done|]. split; [by eapply offset_folded|]. intros env x N HN Ex [H1 H2]. destruct Hpl as (H0 & Hs & HsW & Hle). unfold address.
  assert (Ev : eval env o = Some (x - mo_address mo)).
  { apply Ho, eval_arith. exists x, (mo_address mo). rewrite Le. split_and!; [done|done|]. cbn. f_equal. rewrite wrapu_small by lia. done. }
  rewrite Ev. cbn. f_equal. apply wrapu_small. lia.
Qed.

(** The objects of a path. *)
Lemma bound_object c w i p objs op : world_ok c w → paths w !! i = Some p → objs_of (w_mem w) p = Some objs → op ∈ inorder objs →
  ∃ s o, spaces (w_mem w) !! p_space p = Some s ∧ objects s = objs ∧ binding s !! mo_address op.1 = Some op ∧ heap (w_mem w) !! op.2 = Some o ∧
    os_size o = mo_size op.1 ∧ placed W op.1 ∧ mo_address op.1 < 2 ^ W ∧ objects_ok opts (w_mem w) objs.
Proof.
  intros Hw Hp Ho Hop. destruct (wo_path _ _ _ _ Hw i p Hp) as (_ & _ & objs' & Ho' & Hobjs). simplify_eq. destruct (oo_sizes _ _ _ Hobjs op Hop) as (o & Hh & Ez).
  unfold objs_of in Ho. destruct (spaces (w_mem w) !! p_space p) as [s|] eqn:Es; [|done]. injection Ho as <-. exists s, o.
  destruct (so_placed _ _ (oo_space _ _ _ Hobjs) op Hop). split_and!; try done. unfold binding. apply (to_map_lookup object_key); [apply Hobjs|done].
Qed.
Lemma heap_update_kept m os o o' n p : heap m !! os = Some o → os_size o' = os_size o → (∀ env mem, rep env o mem → rep env o' mem) →
  kept m (set_arrays n (set_heap (<[os := o']> (heap m)) m)) p.
Proof.
  intros Ho Ez Hr. split; [done|]. intros env g (s & Es & Hrel).
  assert (H : rel env m ({[p_space p := g]}, next_as m)) by (split; [done|]; cbn; intros i g' [<- <-]%lookup_singleton_Some; eauto).
  apply (rel_update env m _ os o o' n Ho Ez (Hr env)) in H. exact (rel_space _ _ _ _ _ H (lookup_singleton_eq _ _)).
Qed.
(** The copy of an object takes its place. *)
Lemma space_replaced s mo os os' : avl (objects s) → space_ok W (objects s) → (mo, os) ∈ inorder (objects s) →
  let objs' := ImmutableTree.replace object_key (mo, os') (objects s) in
  space_ok W objs' ∧ ∀ r, r ∈ inorder objs' → r = (mo, os') ∨ r ∈ inorder (objects s).
Proof.
  intros Ha Hok Hin objs'. destruct (space_replace s mo os' Ha (so_ordered _ _ Hok)) as (_ & Ho' & Hb). cbn in Ho'. fold objs' in Ho'.
  assert (Hr : ∀ r, r ∈ inorder objs' → r = (mo, os') ∨ r ∈ inorder (objects s)).
  { intros r Hr. assert (Hm : to_map object_key objs' !! object_key r = Some r) by by apply (to_map_lookup object_key). clear Hr. rename Hm into Hr. change (to_map object_key objs') with (binding (set_objects objs' s)) in Hr. unfold objs' in Hr. rewrite Hb in Hr.
    apply lookup_insert_Some in Hr as [[_ Hr]|[_ Hr]]; [by left|right]. by apply (to_map_lookup object_key) in Hr as [? _]; [|apply Hok]. }
  split; [|done]. assert (Hold : ∀ r, r ∈ inorder objs' → ∃ r', r' ∈ inorder (objects s) ∧ r'.1 = r.1) by (intros r [->|?]%Hr; eauto).
  split; [done|..].
  - intros r Hin'. destruct (Hold r Hin') as (r' & H1 & <-). by apply (so_placed _ _ Hok).
  - intros r1 r2 H1 H2. destruct (Hold r1 H1) as (r1' & H1' & <-), (Hold r2 H2) as (r2' & H2' & <-). by apply (so_disjoint _ _ Hok).
Qed.
Lemma inside_within mo x N o : inside_access mo x N → os_size o = mo_size mo → ∀ env, within (os_size o) N (λ _, Some (x - mo_address mo)) env = Some (x - mo_address mo).
Proof. intros [H1 H2] Ez env. apply within_const; lia. Qed.
Lemma within_ext size N env a a' : a env = a' env → within size N a env = within size N a' env.
Proof. unfold within. by intros ->. Qed.

(** A store to an object that is not read-only. *)
Lemma store_kept c w i p s mo op o val m' s' r o' j q : world_ok c w → paths w !! i = Some p → j ≠ i → paths w !! j = Some q →
  stored (p_space p) s mo op o val (w_mem w) m' s' r o' → kept (w_mem w) m' q.
Proof.
  intros Hw Hp Hj Hq [Es _ _ _ _ _ Hoth _]. assert (Hne : p_space p ≠ p_space q) by (intros Ep; apply Hj; by eapply (wo_distinct _ _ _ _ Hw)).
  unfold kept, objs_of, holds. rewrite Es, lookup_insert_ne by done. split; [done|]. intros env g (t & Et & Hr). exists t. split; [done|]. intros k.
  eapply option_Forall2_mono; [|apply Hr]. intros x y Ex _ (z & Hz & Hzy). exists z. split; [|done]. rewrite (Hoth (p_space q) t k x); [done|done|done|naive_solver].
Qed.
Lemma store_objects c w i p objs s op o val m' s' r o' : world_ok c w → paths w !! i = Some p → spaces (w_mem w) !! p_space p = Some s → objects s = objs →
  op ∈ inorder objs → objects_ok opts (w_mem w) objs → os_size o = mo_size op.1 → mem_ext (w_mem w) m' →
  stored (p_space p) s op.1 op o val (w_mem w) m' s' r o' → objs_of m' p = Some (objects s') ∧ objects_ok opts m' (objects s').
Proof.
  intros Hw Hp Es <- Hop Hobjs Ez Hext Hst. split; [unfold objs_of; by rewrite (sd_spaces _ _ _ _ _ _ _ _ _ _ _ Hst), lookup_insert_eq|].
  destruct (sd_objects _ _ _ _ _ _ _ _ _ _ _ Hst) as [[-> ->]|[Er ->]]; [by eapply objects_ext|].
  destruct (inv_space _ _ _ (wo_mem _ _ _ _ Hw) _ _ Es) as (_ & _ & Ha & _). destruct op as [mo os], r as [mo' os']. cbn in Er. subst mo'.
  destruct (space_replaced s mo os os' Ha (oo_space _ _ _ Hobjs) Hop) as [Hsp Hin]. split; [done|]. intros x Hxin. destruct (Hin x Hxin) as [->|Hold].
  - exists o'. destruct (sd_object _ _ _ _ _ _ _ _ _ _ _ Hst) as (? & ? & _). split; [done|]. cbn in *. congruence.
  - destruct (oo_sizes _ _ _ Hobjs x Hold) as (y & Hy & Ey). destruct (Hext _ _ Hy) as (y' & Hy' & Ey' & _). exists y'. split; [done|congruence].
Qed.
Lemma store_holds w p s op o off v m' s' r o' env x g : spaces (w_mem w) !! p_space p = Some s → binding s !! mo_address op.1 = Some op → heap (w_mem w) !! op.2 = Some o →
  os_size o = mo_size op.1 → stored (p_space p) s op.1 op o (mem_write LE (address off) (λ env, eval env v) (os_size o) (getWidth v)) (w_mem w) m' s' r o' →
  inside_access op.1 x (nbytes (getWidth v)) → address off env = Some (x - mo_address op.1) → is_Some (eval env v) →
  holds (w_mem w) p env g → holds m' p env (write_at env (mo_address op.1) x v g).
Proof.
  intros Es Hb Hh Ez Hst Hin Ha [y Ey] (s0 & E0 & Hrel). simplify_eq. unfold holds. rewrite (sd_spaces _ _ _ _ _ _ _ _ _ _ _ Hst), lookup_insert_eq. eexists. split; [done|].
  pose proof (Hrel (mo_address op.1)) as Hcell. rewrite Hb in Hcell. destruct (g !! mo_address op.1) as [cl|] eqn:Ecl; [|by inversion Hcell].
  inversion Hcell as [? ? Hc|]; subst. destruct Hc as (o1 & Ho1 & Ez1 & Hrep). rewrite Hh in Ho1. injection Ho1 as <-.
  assert (Hwin := inside_within op.1 x (nbytes (getWidth v)) o Hin Ez env).
  set (mem' := store LE cl.2 (x - mo_address op.1) (nbytes (getWidth v)) y (Z.to_nat (nbytes (getWidth v)))).
  assert (E1 : mem_write LE (λ _, Some (x - mo_address op.1)) (λ env, eval env v) cl.1 (getWidth v) env cl.2 = Some mem').
  { unfold mem_write. rewrite <-Ez1, Hwin. cbn. by rewrite Ey. }
  assert (E2 : mem_write LE (address off) (λ env, eval env v) (os_size o) (getWidth v) env cl.2 = Some mem').
  { unfold mem_write. rewrite (within_ext _ _ env _ (λ _, Some (x - mo_address op.1))), Hwin by done. cbn. by rewrite Ey. }
  assert (Ew : write_at env (mo_address op.1) x v g = <[mo_address op.1 := (cl.1, mem')]> g).
  { unfold write_at. rewrite Ecl. unfold mbind, option_bind. by rewrite E1. }
  rewrite Ew. intros k. rewrite (sd_binding _ _ _ _ _ _ _ _ _ _ _ Hst). destruct (decide (mo_address op.1 = k)) as [<-|Hk].
  - rewrite !lookup_insert_eq. constructor. destruct (sd_object _ _ _ _ _ _ _ _ _ _ _ Hst) as (Ho' & Ez' & _). exists o'. split; [done|]. split; [cbn; congruence|].
    by apply (sd_rep _ _ _ _ _ _ _ _ _ _ _ Hst env cl.2).
  - rewrite !lookup_insert_ne by done. eapply option_Forall2_mono; [|apply Hrel]. intros z cz Hz _ (oz & Hoz & Hrz). exists oz. split; [|done].
    rewrite (sd_others _ _ _ _ _ _ _ _ _ _ _ Hst (p_space p) s k z); [done|done|done|naive_solver].
Qed.

(** ** Access to an object the pointer is inside of *)
Lemma in_mem_done {A} (f : M mem A) w a m' : f (w_mem w) = Done a m' → in_mem f w = Done a (mkWorld m' (w_solver w) (w_env w) (paths w) (next_path w)).
Proof. exact (zoom_done _ _ f w a m'). Qed.
(** What is known where an object is accessed. *)
Record in_object c w i p a e op o off : Prop := mkInObject {
  io_world : world_ok c w;
  io_path : paths w !! i = Some p;
  io_end : p_end p = None;
  io_operand : operand_ok p a;
  io_pointer : pointer_ok p e;
  io_object : ∃ objs, objs_of (w_mem w) p = Some objs ∧ op ∈ inorder objs;
  io_state : heap (w_mem w) !! op.2 = Some o;
  io_offset : getOffsetExpr CAO W op.1 e tt = Done off tt;
  io_inside env x : sat_path p env → eval env e = Some x → inside_access op.1 x (nbytes (access_type a))
}.
Lemma in_object_offset c w i p a e op o off : in_object c w i p a e op o off →
  os_size o = mo_size op.1 ∧ wf off ∧ offset_ok off ∧ const_inside (os_size o) (nbytes (access_type a)) off ∧ nbytes (access_type a) < 2 ^ 32 ∧
  ∀ env x, sat_path p env → eval env e = Some x → address off env = Some (x - mo_address op.1).
Proof.
  intros [Hw Hp He Ha Hptr (objs & Ho & Hop) Hh Eo Hin]. destruct (bound_object c w i p objs op Hw Hp Ho Hop) as (s & o' & _ & _ & _ & Hh' & Ez & Hpl & Hlt & _). simplify_eq.
  destruct (operand_bytes p a Ha) as [_ HN]. destruct (offset_value op.1 p e off Hpl Hlt Hptr Eo) as (Wo & Oo & Hv).
  assert (Hav : ∀ env x, sat_path p env → eval env e = Some x → address off env = Some (x - mo_address op.1)).
  { intros env x Hs Ex. apply (Hv env x (nbytes (access_type a))); [lia|done|by apply (Hin env)]. }
  split_and!; try done; [|lia]. destruct (wo_path _ _ _ _ Hw i p Hp) as (_ & Hcs & _). destruct (co_sat _ Hcs) as (env & Hs).
  destruct Hptr as (_ & _ & _ & _ & De). destruct (De env Hs) as [x Ex]. apply (within_const_inside env off _ _ (x - mo_address op.1) Wo).
  rewrite (within_ext _ _ env _ (λ _, Some (x - mo_address op.1))); [by apply inside_within; [apply (Hin env)|]|by apply Hav].
Qed.
Definition access_out w p a e op i : nat → path → assignment → (contents → contents) → Prop := λ k q env T,
  k = i ∧ ∃ x, eval env e = Some x ∧ accessed (w_mem w) p a env x op q T.

Lemma load_object_spec c w i p target type e op o off (fast : bool) : in_object c w i p (Load target type) e op o off → MakeConcreteSymbolic opts = 0 →
  ∃ w', access_object opts fast i (Load target type) op.1 op.2 off w = Done tt w' ∧ world_ok c w' ∧ splits w i p w' (access_out w p (Load target type) e op i).
Proof.
  intros H Hmcs. destruct (in_object_offset _ _ _ _ _ _ _ _ _ H) as (Ez & Wo & Oo & Hci & HN & Hav). cbn [access_type] in *.
  destruct H as [Hw Hp He [_ Ha] (_ & _ & _ & _ & De) (objs & Ho & Hop) Hh Eo Hin]. cbn [access_type] in *.
  destruct (access_read_run CAO LE true c (w_mem w) op.2 off type o (wo_mem _ _ _ _ Hw) Hh Ha HN Wo Oo Hci) as (r & o' & n & Er & Hinv & Ez' & Ero & Hrep & _ & _ & Hval).
  set (m' := set_arrays n _) in *. set (p' := set_locals <[target := r]> p). exists (with_mem m' i p' w).
  assert (Hkept : ∀ q, kept (w_mem w) m' q) by (intros q; by apply (heap_update_kept _ _ o)).
  assert (Hext : mem_ext (w_mem w) m').
  { intros x y Hy. unfold m'. cbn. destruct (decide (op.2 = x)) as [<-|]; [rewrite lookup_insert_eq; simplify_eq; eauto|rewrite lookup_insert_ne by done; eauto]. }
  destruct (wo_path _ _ _ _ Hw i p Hp) as (_ & _ & objs' & Ho' & Hobjs). simplify_eq. split.
  - cbn [access_object]. rewrite (bind_done _ _ _ _ _ (in_mem_done _ w r m' Er)). set (w1 := mkWorld m' _ _ _ _).
    assert (E1 : (if fast then replaceReadWithSymbolic opts i r else mret r) w1 = Done r w1) by (unfold replaceReadWithSymbolic; rewrite Hmcs; by destruct fast).
    rewrite (bind_done _ _ _ _ _ E1). unfold bindLocal. by rewrite (upd_path_done _ w1 i p Hp).
  - apply (mem_step c w i p m' p' objs (λ _, id)); [done..|intros j q _ _; apply Hkept|by rewrite (proj1 (Hkept p))|by eapply objects_ext|].
    intros env Hs. split; [apply Hkept|]. split; [done|]. destruct (De env Hs) as [x Ex]. exists x. split; [done|]. specialize (Hin env x Hs Ex).
    split; [done|]. split; [done|]. split; [done|]. exists r. split; [done|]. intros g (s & Es & Hrel).
    destruct (bound_object c w i p objs op Hw Hp Ho Hop) as (s1 & o1 & Es1 & _ & Hb & _). rewrite Es in Es1. injection Es1 as <-.
    pose proof (Hrel (mo_address op.1)) as Hcell. rewrite Hb in Hcell. inversion Hcell as [? cl Hc E1 E2|]; subst. destruct Hc as (o2 & Ho2 & Ez2 & Hrep2). rewrite Hh in Ho2. injection Ho2 as <-.
    assert (Hwin := inside_within op.1 x (nbytes type) o Hin Ez env). unfold read_at. rewrite <-E2. unfold mbind, option_bind. unfold mem_read.
    rewrite <-Ez2, Hwin. eexists. split; [reflexivity|]. apply (Hval env cl.2); [done|]. unfold mem_read.
    by rewrite (within_ext _ _ env _ (λ _, Some (x - mo_address op.1))), Hwin by by apply Hav.
Qed.
Lemma store_object_spec c w i p v e op o off (fast : bool) : in_object c w i p (Store v) e op o off →
  ∃ w', access_object opts fast i (Store v) op.1 op.2 off w = Done tt w' ∧ world_ok c w' ∧ splits w i p w' (access_out w p (Store v) e op i).
Proof.
  intros H. destruct (in_object_offset _ _ _ _ _ _ _ _ _ H) as (Ez & Wo & Oo & Hci & HN & Hav). cbn [access_type] in *.
  destruct H as [Hw Hp He [_ (Hww & Wv & Dv)] (_ & _ & _ & _ & De) (objs & Ho & Hop) Hh Eo Hin]. cbn [access_type access_object] in *.
  rewrite (bind_done _ _ _ _ _ (get_path_done w i p Hp)). destruct (readOnly o) eqn:Ero.
  - assert (Ew : access_write CAO LE (p_space p) op.1 op.2 off v (w_mem w) = Done None (w_mem w)).
    { unfold access_write. rewrite (bind_done _ _ _ o (w_mem w)) by (unfold get_os, mbind, M_bind, get, deref; cbn; by rewrite Hh). by rewrite Ero. }
    rewrite (bind_done _ _ _ _ _ (in_mem_done _ w _ _ Ew)). replace (mkWorld _ _ _ _ _) with w by by destruct w.
    destruct (end_path opts I Full c w i p (OnError "readonly.err") Hw Hp) as (E1 & Hw' & Hs'). eexists. split; [exact E1|]. split; [done|].
    eapply splits_mono; [exact Hs'|]. intros k q env T Hs (-> & -> & ->). split; [done|]. destruct (De env Hs) as [x Ex]. exists x. split; [done|].
    split; [by apply (Hin env)|]. split; [done|]. exists o. by rewrite Ero.
  - destruct (bound_object c w i p objs op Hw Hp Ho Hop) as (s & o1 & Es & Eobj & Hb & Ho1 & _ & _ & _ & Hobjs). rewrite Hh in Ho1. injection Ho1 as <-.
    destruct (access_write_run CAO LE true c (w_mem w) (p_space p) s op.1 off v op o (wo_mem _ _ _ _ Hw) Es Hb Hh Ero) as (m' & s' & r & o' & Ew & Hinv & Hst); [by split_and!|done|].
    rewrite (bind_done _ _ _ _ _ (in_mem_done _ w _ _ Ew)). exists (with_mem m' i p w). split; [unfold with_mem; by rewrite insert_id|].
    assert (Hext : mem_ext (w_mem w) m').
    { intros x y Hy. destruct (sd_heap _ _ _ _ _ _ _ _ _ _ _ Hst x y Hy) as [?|[-> Er]]; [eauto|]. rewrite Hh in Hy. injection Hy as <-.
      destruct (sd_object _ _ _ _ _ _ _ _ _ _ _ Hst) as (Ho' & ? & ?). rewrite Er in Ho'. exists o'. split_and!; [done|done|congruence]. }
    destruct (store_objects c w i p objs s op o _ m' s' r o' Hw Hp Es Eobj Hop Hobjs Ez Hext Hst) as [Eo' Hobjs'].
    apply (mem_step c w i p m' p (objects s') (λ env, write_at env (mo_address op.1) (default 0 (eval env e)) v)); try done.
    { intros j q Hj Hq. eapply store_kept; [exact Hw|exact Hp|exact Hj|exact Hq|exact Hst]. }
    intros env Hs. destruct (De env Hs) as [x Ex]. rewrite Ex. cbn [default]. specialize (Hin env x Hs Ex). split.
    + intros g. eapply store_holds; [exact Es|exact Hb|exact Hh|exact Ez|exact Hst|exact Hin|by apply Hav|by apply Dv].
    + split; [done|]. exists x. split; [done|]. split; [done|]. split; [done|]. exists o. by rewrite Ero.
Qed.

(** ** One object after the other *)
Lemma accessed_mono w p w1 q1 a env x op q T : (∀ g, holds (w_mem w) p env g → holds (w_mem w1) q1 env g) → locals q1 = locals p → mem_ext (w_mem w) (w_mem w1) →
  is_Some (heap (w_mem w) !! op.2) → accessed (w_mem w1) q1 a env x op q T → accessed (w_mem w) p a env x op q T.
Proof.
  intros Hh El Hext [o Ho] [H1 H2]. split; [done|]. destruct a as [target type|v]; rewrite El in H2.
  - destruct H2 as (? & ? & r & ? & Hr). split_and!; [done|done|]. exists r. auto.
  - destruct H2 as (? & o' & Ho' & Hr). split; [done|]. exists o. split; [done|]. destruct (Hext _ _ Ho) as (o1 & Ho1 & _ & Er). by simplify_eq; rewrite Er in Hr.
Qed.
Lemma ready_kept c w p w1 k b q w2 (Out : nat → path → assignment → (contents → contents) → Prop) : world_ok c w1 → ready w p w1 k → k ≠ b →
  splits w1 b q w2 Out → ready w p w2 k.
Proof.
  intros Hw1 (q' & Hq' & E1 & E2 & E3 & E4) Hkb S2. destruct (wo_path _ _ _ _ Hw1 k q' Hq') as [Hlt _]. exists q'.
  rewrite (sp_other _ _ _ _ _ _ S2 k Hkb Hlt). split_and!; try done. by rewrite (proj1 (sp_kept _ _ _ _ _ _ S2 k q' Hkb Hq')).
Qed.
Lemma ready_trans w p w1 u q w2 k : ready w p w1 u → paths w1 !! u = Some q → ready w1 q w2 k → ready w p w2 k.
Proof. intros (q' & Hq' & _ & E2 & E3 & E4) Hq (r & Hr & F1 & F2 & F3 & F4). simplify_eq. exists r. split_and!; [done|done|congruence..]. Qed.
Lemma from_trans w i j w1 k : (next_path w ≤ next_path w1)%nat → from w i j → from w1 j k → from w i k.
Proof. unfold from. intros Hn Hj [->|?]; [done|right; lia]. Qed.
Lemma ready_unlimited w p w' k q : ready w p w' k → paths w' !! k = Some q → unlimited Full p → unlimited Full q.
Proof. intros (q' & Hq' & _ & _ & Ef & _) Hq (? & ? & ?). simplify_eq. split_and!; [done|done|congruence]. Qed.

Definition bound_out w p a e op cond (r : StatePair) : nat → path → assignment → (contents → contents) → Prop := λ k q env T,
  r.1 = Some k ∧ (∃ x, eval env e = Some x ∧ accessed (w_mem w) p a env x op q T) ∨ r.1 ≠ Some k ∧ fork_out opts p cond r k q env T.
Lemma bound_step c c1 w u p w1 r a e op objs cond : world_ok c w → world_ok c1 w1 → paths w !! u = Some p → forked_to opts Full w u p cond r w1 →
  operand_ok p a → pointer_ok p e → objs_of (w_mem w) p = Some objs → op ∈ inorder objs →
  (∀ env x, eval env e = Some x → eval env cond = Some 1 → inside_access op.1 x (nbytes (access_type a))) → MakeConcreteSymbolic opts = 0 →
  ∃ w2, (match r.1 with
    | Some bound => offset ← lift_res (getOffsetExpr CAO W op.1 e); access_object opts false bound a op.1 op.2 offset
    | None => mret tt
    end) w1 = Done tt w2 ∧ world_ok c1 w2 ∧ splits w u p w2 (bound_out w p a e op cond r) ∧ ∀ k, r.2 = Some k → from w u k ∧ ready w p w2 k.
Proof.
  intros Hw Hw1 Hp [F1 F2 F3] Ha He Ho Hop Hin Hmcs. destruct r.1 as [b|] eqn:Er.
  2: { exists w1. split; [done|]. split; [done|]. split; [|exact F3]. eapply splits_mono; [exact F1|]. intros k q env T _ HO. right. by rewrite Er. }
  destruct (F2 b eq_refl) as (Hfb & (q1 & Hq1 & Eend & Eloc & Efd & Eobj) & Hne).
  destruct (bound_object c w u p objs op Hw Hp Ho Hop) as (_ & o0 & _ & _ & _ & Ho0 & _ & Hpl & Hlt & _). pose proof He as (We & _ & _ & Le & _).
  destruct (offset_builds CAO W HW op.1 e Hpl Hlt We Le) as (off & Eoff & _).
  assert (Hsub : ∀ env, sat_path q1 env → sat_path p env ∧ eval env cond = Some 1).
  { intros env Hs. destruct (sp_out _ _ _ _ _ _ F1 b q1 Hfb Hq1 env Hs) as (Hsp & T & _ & _ & _ & [(_ & _ & E1)|[(E2 & _)|(E2 & _)]]); [done|by rewrite E2 in Hne|done]. }
  destruct (sp_ext _ _ _ _ _ _ F1 _ _ Ho0) as (o & Hoh & _).
  assert (Hio : in_object c1 w1 b q1 a e op o off).
  { split; try done; [|by eapply pointer_sub, He; intros env Hs; apply Hsub|exists objs; split; [congruence|done]|].
    - eapply operand_sub, Ha. intros env Hs. by apply Hsub.
    - intros env x Hs Ex. apply (Hin env); [done|by apply Hsub]. }
  rewrite (bind_done _ _ _ _ _ (lift_done _ _ _ Eoff)).
  assert (∃ w2, access_object opts false b a op.1 op.2 off w1 = Done tt w2 ∧ world_ok c1 w2 ∧ splits w1 b q1 w2 (access_out w1 q1 a e op b)) as (w2 & E2 & Hw2 & S2).
  { destruct a; [by eapply load_object_spec|by eapply store_object_spec]. }
  exists w2. split; [done|]. split; [done|]. split.
  - eapply (splits_trans opts I Full c c1 w u p w1); [done|done|done|exact F1|exact Hfb|exact Hq1| |exact S2| |].
    + intros Hu. by eapply ready_unlimited; [by eexists|exact Hq1|].
    + intros k q env T Hk _ _ HO. right. split; [rewrite Er; congruence|done].
    + intros k q env T1 T2 _ _ Hh (-> & _ & _) (-> & x & Ex & Hacc). left. split; [done|]. exists x. split; [done|]. eapply accessed_mono; [exact Hh|done|apply F1|by eexists|exact Hacc].
  - intros k Hk. destruct (F3 k Hk) as [Hfk Hrk]. split; [done|]. apply (ready_kept c1 w p w1 k b q1 w2 _ Hw1 Hrk) in S2; [done|congruence].
Qed.

(** The condition that the access is inside an object. *)
Lemma inside_condition c w u p a e op objs : world_ok c w → paths w !! u = Some p → operand_ok p a → pointer_ok p e → objs_of (w_mem w) p = Some objs → op ∈ inorder objs →
  ∃ cond, getBoundsCheckPointer_bytes CAO W op.1 e (getMinBytesForWidth (access_type a)) tt = Done cond tt ∧ query_ok (sat_path p) cond ∧
    ∀ env x, eval env e = Some x → (eval env cond = Some 1 ↔ inside_access op.1 x (nbytes (access_type a))) ∧ (eval env cond = Some 0 ↔ ¬ inside_access op.1 x (nbytes (access_type a))).
Proof.
  intros Hw Hp Ha (We & Ne & _ & Le & De) Ho Hop. destruct (bound_object c w u p objs op Hw Hp Ho Hop) as (_ & _ & _ & _ & _ & _ & _ & Hpl & Hlt & _).
  destruct (operand_bytes p a Ha) as [-> HN]. destruct (access_check CAO W HW op.1 e _ Hpl Hlt We Le HN) as (cond & Ec & Wc & Lc & Hc). exists cond. split; [done|]. split; [split_and!|].
  - done.
  - done.
  - intros env Hs. destruct (De env Hs) as [x Ex]. rewrite (Hc env x Ex). eauto.
  - by apply (access_check_narrow CAO W HW op.1 e (nbytes (access_type a))).
  - intros env x Ex. rewrite (Hc env x Ex). unfold inside_access.
    destruct (Z.leb_spec (mo_address op.1) x), (Z.leb_spec (x + nbytes (access_type a)) (mo_address op.1 + mo_size op.1)); cbn; naive_solver lia.
Qed.

Definition loop_out w p a e (rl : list ObjectPair) (r : option nat) : nat → path → assignment → (contents → contents) → Prop := λ k q env T,
  ∃ x, eval env e = Some x ∧
  (r ≠ Some k ∧ (p_end q = Some Early ∧ T = id ∧ MaxDepth opts ≠ 0 ∨ ∃ op, op ∈ rl ∧ accessed (w_mem w) p a env x op q T) ∨
   r = Some k ∧ p_end q = None ∧ locals q = locals p ∧ T = id ∧ ∀ op, op ∈ rl → ¬ inside_access op.1 x (nbytes (access_type a))).
Lemma each_object_spec a e objs rl : MakeConcreteSymbolic opts = 0 → (∀ op, op ∈ rl → op ∈ inorder objs) →
  ∀ c w u p, world_ok c w → c + Z.of_nat (length rl) ≤ 2 ^ 32 - 1 → paths w !! u = Some p → p_end p = None → operand_ok p a → pointer_ok p e → objs_of (w_mem w) p = Some objs →
  ∃ r w', each_object opts impl u a e rl w = Done r w' ∧ world_ok (c + Z.of_nat (length rl)) w' ∧ splits w u p w' (loop_out w p a e rl r) ∧
    ∀ k, r = Some k → from w u k ∧ ready w p w' k.
Proof.
  intros Hmcs. induction rl as [|op rl IH]; intros Hrl c w u p Hw Hc Hp Hend Ha He Ho; cbn [length each_object] in *.
  { exists (Some u), w. rewrite Z.add_0_r. split; [done|]. split; [done|]. split.
    - eapply splits_mono; [by apply (splits_refl opts I Full c)|]. intros k q env T Hs (-> & -> & ->). destruct He as (_ & _ & _ & _ & De).
      destruct (De env Hs) as [x Ex]. exists x. split; [done|]. right. split_and!; try done. by intros op []%not_elem_of_nil.
    - intros k [= <-]. split; [by left|]. by exists p. }
  assert (Hop : op ∈ inorder objs) by (apply Hrl; by left). destruct op as [mo os].
  destruct (inside_condition c w u p a e (mo, os) objs Hw Hp Ha He Ho Hop) as (cond & Ec & Hq & Hv). rewrite (bind_done _ _ _ _ _ (lift_done _ _ _ Ec)).
  destruct (fork_spec opts I impl HR HT HW Full c w u p cond Hw ltac:(lia) Hp Hend Hq) as (br & w1 & Ef & Hw1 & Hf). rewrite (bind_done _ _ _ _ _ Ef).
  destruct (bound_step c (c + 1) w u p w1 br a e (mo, os) objs cond Hw Hw1 Hp Hf Ha He Ho Hop) as (w2 & E2 & Hw2 & S2 & Hready); [intros env x Ex; by apply Hv|done|].
  rewrite (bind_done _ _ _ _ _ E2). pose proof He as (_ & _ & _ & _ & De). destruct br as [br1 [u2|]]; cbn [fst snd] in *.
  - destruct (Hready u2 eq_refl) as [Hfu (q2 & Hq2 & E2e & E2l & E2f & E2o)].
    assert (Hne : br1 ≠ Some u2) by (intros ->; by destruct (fk_true _ _ _ _ _ _ _ _ Hf u2 eq_refl) as (_ & _ & ?)).
    assert (Hsub : ∀ env, sat_path q2 env → sat_path p env) by (intros env Hs; by apply (sp_out _ _ _ _ _ _ S2 u2 q2 Hfu Hq2 env Hs)).
    destruct (IH (λ op H, Hrl op (list_elem_of_further _ _ _ H)) (c + 1) w2 u2 q2 Hw2 ltac:(lia) Hq2 E2e (operand_sub _ _ _ Hsub Ha) (pointer_sub _ _ _ Hsub He) ltac:(congruence))
      as (r & w3 & E3 & Hw3 & S3 & Hr3).
    exists r, w3. split; [done|]. split; [by replace (c + Z.of_nat (Datatypes.S (length rl))) with (c + 1 + Z.of_nat (length rl)) by lia|].
    assert (Hfrom : ∀ k, r = Some k → from w2 u2 k) by (intros k Hk; by apply Hr3). split.
    + eapply (splits_trans opts I Full c (c + 1) w u p w2); [done|done|done|exact S2|exact Hfu|exact Hq2| |exact S3| |].
      * intros Hu. by eapply ready_unlimited; [by eexists|exact Hq2|].
      * intros k q env T Hk Hqk Hs HO. destruct (De env Hs) as [x Ex]. exists x. split; [done|]. left.
        assert (r ≠ Some k). { intros Erk. destruct (Hfrom k Erk) as [?|Hge]; [done|]. destruct (wo_path _ _ _ _ Hw2 k q Hqk) as [? _]. lia. }
        split; [done|]. destruct HO as [(_ & x' & Ex' & Hacc)|(Hb & -> & _ & [(?&_)|[(?&_)|(_ & _ & Hee & Hdd)]])]; [|by simplify_eq/=..|by left].
        right. exists (mo, os). split; [by left|]. by simplify_eq.
      * intros k q env T1 T2 _ Hs Hh HO1 (x & Ex & HO2). destruct HO1 as [(? & _)|(_ & -> & _ & [(?&_)|[(_ & _ & Ev)|(_ & ? & _)]])]; [by simplify_eq/=..| |by simplify_eq/=].
        exists x. split; [done|]. destruct HO2 as [(Hr & [(? & ? & ?)|(op & Hin & Hacc)])|(-> & ? & El & -> & Hno)].
        -- left. split; [done|]. left. split; [done|]. split; [by subst|done].
        -- left. split; [done|]. right. exists op. split; [by right|]. destruct (bound_object c w u p objs op Hw Hp Ho) as (_ & o & _ & _ & _ & Hoh & _); [apply Hrl; by right|].
           eapply accessed_mono; [exact Hh|exact E2l|apply S2|by eexists|exact Hacc].
        -- right. split_and!; [done|done|congruence|done|]. intros op [->|?]%elem_of_cons; [by apply (Hv env x Ex)|by apply Hno].
    + intros k Hk. destruct (Hr3 k Hk) as (Hfk & Hrk). split; [eapply from_trans; [apply S2|exact Hfu|exact Hfk]|]. by eapply ready_trans; [by exists q2|exact Hq2|exact Hrk].
  - exists None, w2. split; [done|]. split; [apply (world_ok_mono opts I HW (c + 1)); [lia|done]|]. split; [|done].
    eapply splits_mono; [exact S2|]. intros k q env T Hs HO. destruct (De env Hs) as [x Ex]. exists x. split; [done|]. left. split; [done|].
    destruct HO as [(_ & x' & Ex' & Hacc)|(Hb & -> & _ & [(?&_)|[(?&_)|(_ & _ & Hee & Hdd)]])]; [|by simplify_eq/=..|by left].
    right. exists (mo, os). split; [by left|]. by simplify_eq.
Qed.

(** ** The whole operation *)
(** What a path is after the access: given up, the access to the object it is inside of, or an error outside all of them. *)
Definition operation_out w p a e objs : nat → path → assignment → (contents → contents) → Prop := λ _ q env T, ∃ x, eval env e = Some x ∧
  (p_end q = Some Early ∧ T = id ∧ (MaxDepth opts ≠ 0 ∨ ¬ timely) ∨
   (∃ op, op ∈ inorder objs ∧ accessed (w_mem w) p a env x op q T) ∨
   p_end q = Some (OnError "ptr.err") ∧ T = id ∧ ∀ op, op ∈ inorder objs → ¬ inside_access op.1 x (nbytes (access_type a))).
Lemma inside_contains a p mo x : operand_ok p a → inside_access mo x (nbytes (access_type a)) → contains mo x.
Proof. intros Ha [H1 H2]. destruct (operand_bytes p a Ha) as [_ HN]. unfold contains. destruct (Z.eqb_spec (mo_size mo) 0); lia. Qed.

(** After more constraints, and with a pointer of the same values. *)
Lemma restricts_operation c c' w i p w1 p1 a e e' objs w' : world_ok c w → paths w !! i = Some p → restricts c w i p w1 p1 → world_ok c' w' →
  (∀ env, sat_path p1 env → eval env e' = eval env e) → splits w1 i p1 w' (operation_out w1 p1 a e' objs) → splits w i p w' (operation_out w p a e objs).
Proof.
  intros Hw Hp H Hw' He S1. destruct (rs_alike _ _ _ _ _ _ _ _ _ H) as (A1 & A2 & A3).
  assert (S1' : splits w1 i p1 w' (λ k q env T, sat_path p1 env ∧ operation_out w1 p1 a e' objs k q env T)).
  { destruct S1 as [H1 H2 H3 H4 H5 H6 H7]. split; try done. intros j q Hj Hq env Hs. destruct (H5 j q Hj Hq env Hs) as (Hs1 & T & HTh & HO). eauto 10. }
  eapply (splits_trans opts I Full c c w i p w1); [done|apply H|done|by eapply restricts_splits|by left|by eapply restricts_path| |exact S1'| |].
  - unfold unlimited. by rewrite A3.
  - by intros k q env T Hk _ _ [? _].
  - intros k q env T1 T2 _ Hs Hh [_ ->] [Hs1 (x & Ex & HO)]. exists x. split; [by rewrite <-He|]. destruct HO as [(? & -> & ?)|[(op & Hop & Hacc)|(? & -> & ?)]]; [by left| |by right; right].
    right. left. exists op. split; [done|]. destruct Hacc as [Hin Hacc]. split; [done|]. rewrite (rs_mem _ _ _ _ _ _ _ _ _ H), A2 in Hacc.
    destruct a; [|done]. destruct Hacc as (? & ? & r & ? & Hr). split_and!; [done|done|]. exists r. split; [done|]. intros g Hg. apply Hr.
    rewrite <-(rs_mem _ _ _ _ _ _ _ _ _ H). by apply Hh.
Qed.
Lemma slow_access_spec c w i p a e objs : world_ok c w → c + resolve_bound objs ≤ 2 ^ 32 - 1 → paths w !! i = Some p → p_end p = None → operand_ok p a → pointer_ok p e →
  objs_of (w_mem w) p = Some objs → MakeConcreteSymbolic opts = 0 →
  ∃ w', slow_access opts impl expired i a e w = Done tt w' ∧ world_ok (c + resolve_bound objs) w' ∧ splits w i p w' (operation_out w p a e objs).
Proof.
  intros Hw Hc Hp Hend Ha He Ho Hmcs. unfold slow_access. destruct (path_resolve_spec c w i p e objs Hw Hp He Ho) as (inc & rl & w1 & E1 & H1 & Hrl & Hlen & Hall & Hlate).
  rewrite (bind_done _ _ _ _ _ E1). pose proof (rs_ok _ _ _ _ _ _ _ _ _ H1) as Hw1. pose proof (restricts_path _ _ _ _ _ _ _ _ _ H1) as Hp1.
  assert (Ho1 : objs_of (w_mem w1) p = Some objs) by (by rewrite (rs_mem _ _ _ _ _ _ _ _ _ H1)).
  destruct (each_object_spec a e objs rl Hmcs Hrl c w1 i p Hw1 ltac:(lia) Hp1 Hend Ha He Ho1) as (r & w2 & E2 & Hw2 & S2 & Hr2). rewrite (bind_done _ _ _ _ _ E2).
  set (c2 := c + Z.of_nat (length rl)) in *. pose proof He as (_ & _ & _ & _ & De).
  assert (∃ w3, (match r with Some u => if inc then terminateStateEarly u else getAddressInfo opts impl u e;; terminateStateOnError u "ptr.err" | None => mret tt end) w2 = Done tt w3 ∧
    world_ok c2 w3 ∧ splits w1 i p w3 (operation_out w1 p a e objs)) as (w3 & E3 & Hw3 & S3).
  2: { exists w3. split; [exact E3|]. split; [by apply (world_ok_mono opts I HW c2); [unfold c2; lia|]|].
       by eapply (restricts_operation c c2 w i p w1 p). }
  assert (Hfirst : ∀ k q env T, r ≠ Some k → loop_out w1 p a e rl r k q env T → operation_out w1 p a e objs k q env T).
  { intros k q env T Hk (x & Ex & HO). exists x. split; [done|]. destruct HO as [(_ & [(? & ? & ?)|(op & Hop & Hacc)])|(? & _)]; [by left; auto|right; left; exists op; auto|done]. }
  destruct r as [u|].
  2: { exists w2. split; [done|]. split; [done|]. eapply splits_mono; [exact S2|]. intros k q env T _. by apply Hfirst. }
  destruct (Hr2 u eq_refl) as (Hfu & q2 & Hq2 & E2e & E2l & E2f & E2o).
  assert (Hsub : ∀ env, sat_path q2 env → sat_path p env) by (intros env Hs; by apply (sp_out _ _ _ _ _ _ S2 u q2 Hfu Hq2 env Hs)).
  assert (∃ w3 x, (if inc then terminateStateEarly u else getAddressInfo opts impl u e;; terminateStateOnError u "ptr.err") w2 = Done tt w3 ∧ world_ok c2 w3 ∧
    (x = Early ∧ inc = true ∨ inc = false ∧ x = OnError "ptr.err") ∧ splits w2 u q2 w3 (λ k q env T, k = u ∧ p_end q = Some x ∧ T = id)) as (w3 & x & E3 & Hw3 & Hxx & S3).
  { destruct inc.
    - destruct (end_path opts I Full c2 w2 u q2 Early Hw2 Hq2) as (E3 & Hw3 & S3). eexists _, Early. split; [exact E3|]. split; [done|]. split; [by left|].
      eapply splits_mono; [exact S3|]. by intros k q env T _ (-> & -> & ->).
    - destruct (getAddressInfo_spec c2 w2 u q2 e Hw2 Hq2 (pointer_sub _ _ _ Hsub He)) as (w4 & E4 & H4).
      destruct (end_path opts I Full c2 w4 u q2 (OnError "ptr.err") (rs_ok _ _ _ _ _ _ _ _ _ H4) (restricts_path _ _ _ _ _ _ _ _ _ H4)) as (E3 & Hw3 & S3).
      eexists _, (OnError "ptr.err"). split; [rewrite (bind_done _ _ _ _ _ E4); exact E3|]. split; [done|]. split; [by right|].
      eapply (splits_trans opts I Full c2 c2 w2 u q2 w4); [done|apply H4|done|by eapply restricts_splits|by left|by eapply restricts_path|done|exact S3| |].
      + by intros k q env T Hk _ _ [? _].
      + by intros k q env T1 T2 _ _ _ [_ ->] (-> & -> & ->). }
  exists w3. split; [exact E3|]. split; [done|]. eapply (splits_trans opts I Full c c2 w1 i p w2); [done|done|done|exact S2|exact Hfu|exact Hq2| |exact S3| |].
  - intros Hu. eapply (ready_unlimited w1 p w2 u); [by exists q2|done|done].
  - intros k q env T Hk _ _. apply Hfirst. congruence.
  - intros k q env T1 T2 _ Hs _ (y & Ey & HO) (-> & Eend & ->). exists y. split; [done|]. destruct HO as [(? & _)|(_ & _ & _ & -> & Hno)]; [done|].
    destruct Hxx as [[-> Hinc]|[Hinc ->]]; [by left; auto|]. right; right. split_and!; [done|done|]. intros op Hop Hin.
    apply (Hno op); [|done]. apply (Hall Hinc env y op Hs Ey Hop). by eapply inside_contains.
Qed.

(** The pointer may be made concrete for a large object. *)
Lemma limit_size_spec c w i p e (b : bool) : world_ok c w → paths w !! i = Some p → pointer_ok p e → (b = true → ¬ Full) →
  ∃ e' w' p', (if b then toConstant opts impl i e else mret e) w = Done e' w' ∧ restricts c w i p w' p' ∧ pointer_ok p' e' ∧ ∀ env, sat_path p' env → eval env e' = eval env e.
Proof.
  intros Hw Hp He Hb. destruct b; [|exists e, w, p; split; [done|]; split; [by apply restricts_refl|done]].
  destruct (toConstant_spec c w i p e Hw Hp He (Hb eq_refl)) as (v & w' & p' & E1 & H1 & Hv). exists (Constant W v), w', p'. split; [done|]. split; [done|].
  destruct He as (We & _ & _ & Le & De). split; [|intros env Hs; by rewrite (Hv env Hs)]. split_and!; [|done|done|done|by intros env _; eexists].
  destruct (wo_path _ _ _ _ (rs_ok _ _ _ _ _ _ _ _ _ H1) i p' (restricts_path _ _ _ _ _ _ _ _ _ H1)) as (_ & Hcs & _). destruct (co_sat _ Hcs) as (env & Hs).
  pose proof (eval_range env e v We (Hv env Hs)) as Hr. rewrite Le in Hr. split; [lia|done].
Qed.
(** The access to the object that was found, or to all of them. *)
Lemma found_object_spec c w i p a e objs op : world_ok c w → c + resolve_bound objs ≤ 2 ^ 32 - 1 → paths w !! i = Some p → p_end p = None → operand_ok p a → pointer_ok p e →
  objs_of (w_mem w) p = Some objs → op ∈ inorder objs → MakeConcreteSymbolic opts = 0 →
  ∃ w', (offset ← lift_res (getOffsetExpr CAO W op.1 e);
    check ← lift_res (getBoundsCheckOffset_bytes CAO W op.1 offset (getMinBytesForWidth (access_type a)));
    inBounds ← mustBeTrue opts impl i check;
    match inBounds with
    | None => terminateStateEarly i
    | Some true => access_object opts true i a op.1 op.2 offset
    | Some false => slow_access opts impl expired i a e
    end) w = Done tt w' ∧ world_ok (c + resolve_bound objs) w' ∧ splits w i p w' (operation_out w p a e objs).
Proof.
  intros Hw Hc Hp Hend Ha He Ho Hop Hmcs. destruct (bound_object c w i p objs op Hw Hp Ho Hop) as (_ & o & _ & _ & _ & Hoh & _ & Hpl & Hlt & _). pose proof He as (We & _ & _ & Le & De).
  destruct (offset_builds CAO W HW op.1 e Hpl Hlt We Le) as (off & Eoff & _). rewrite (bind_done _ _ _ _ _ (lift_done _ _ _ Eoff)).
  destruct (inside_condition c w i p a e op objs Hw Hp Ha He Ho Hop) as (cond & Ec & Hq & Hv). unfold getBoundsCheckPointer_bytes in Ec. rewrite (bind_done _ _ _ _ _ Eoff) in Ec.
  rewrite (bind_done _ _ _ _ _ (lift_done _ _ _ Ec)). destruct (wo_path _ _ _ _ Hw i p Hp) as (_ & Hcs & _).
  destruct (ask_path opts I Full (λ cs, TimingSolver_mustBeTrue impl (simplify opts) cs cond) c w i p _ Hw Hp
    (returns_both I _ _ _ _ (must_answer opts I impl HR _ cond _ (wo_solver _ _ _ _ Hw) Hcs Hq) (must_total opts I impl HT _ cond _ (wo_solver _ _ _ _ Hw) Hcs Hq)))
    as (res & w1 & E1 & H1 & Hres & Hnn). rewrite (bind_done _ _ _ _ _ E1).
  pose proof (rs_ok _ _ _ _ _ _ _ _ _ H1) as Hw1. pose proof (restricts_path _ _ _ _ _ _ _ _ _ H1) as Hp1.
  assert (Hmono : ∀ w', world_ok c w' → world_ok (c + resolve_bound objs) w') by (intros w'; apply (world_ok_mono opts I HW); unfold resolve_bound; lia).
  assert (Hfin : ∀ c' w', world_ok c' w' → splits w1 i p w' (operation_out w1 p a e objs) → splits w i p w' (operation_out w p a e objs)).
  { intros c' w' Hw' HS. by eapply (restricts_operation c c' w i p w1 p). }
  assert (Ho1 : objs_of (w_mem w1) p = Some objs) by (by rewrite (rs_mem _ _ _ _ _ _ _ _ _ H1)). destruct res as [[|]|]; [..|done].
  - assert (Hio : in_object c w1 i p a e op o off).
    { split; try done; [by exists objs|by rewrite (rs_mem _ _ _ _ _ _ _ _ _ H1)|]. intros env x Hs Ex. apply (Hv env x Ex). by apply Hres. }
    assert (∃ w2, access_object opts true i a op.1 op.2 off w1 = Done tt w2 ∧ world_ok c w2 ∧ splits w1 i p w2 (access_out w1 p a e op i)) as (w2 & E2 & Hw2 & S2).
    { destruct a; [by eapply load_object_spec|by eapply store_object_spec]. }
    exists w2. split; [done|]. split; [auto|]. apply (Hfin c); [done|]. eapply splits_mono; [exact S2|]. intros k q env T Hs (-> & x & Ex & Hacc). exists x. split; [done|]. right; left. eauto.
  - destruct (slow_access_spec c w1 i p a e objs Hw1 Hc Hp1 Hend Ha He Ho1 Hmcs) as (w2 & E2 & Hw2 & S2). exists w2. split; [done|]. split; [done|]. by eapply Hfin.
Qed.
Lemma executeMemoryOperation_spec c w i p a e objs : world_ok c w → c + resolve_bound objs ≤ 2 ^ 32 - 1 → paths w !! i = Some p → p_end p = None → operand_ok p a → pointer_ok p e →
  objs_of (w_mem w) p = Some objs → MakeConcreteSymbolic opts = 0 → SimplifySymIndices opts = false → (Full → MaxSymArraySize opts = 0) →
  ∃ w', executeMemoryOperation opts impl expired i a e w = Done tt w' ∧ world_ok (c + resolve_bound objs) w' ∧ splits w i p w' (operation_out w p a e objs).
Proof.
  intros Hw Hc Hp Hend Ha He Ho Hmcs Hsi Hmax. unfold executeMemoryOperation.
  assert (E0 : simplify_indices opts i a e w = Done (a, e) w) by (unfold simplify_indices; by rewrite Hsi). rewrite (bind_done _ _ _ _ _ E0).
  destruct (path_resolveOne_spec c w i p e objs Hw Hp He Ho) as (r & w1 & E1 & H1 & Hnn & Hr). destruct r as [r|]; [|done].
  assert (Eo : one_object opts impl expired i e w = Done (r, e) w1) by (unfold one_object; by rewrite (bind_done _ _ _ _ _ E1)). rewrite (bind_done _ _ _ _ _ Eo).
  pose proof (rs_ok _ _ _ _ _ _ _ _ _ H1) as Hw1. pose proof (restricts_path _ _ _ _ _ _ _ _ _ H1) as Hp1.
  assert (Ho1 : objs_of (w_mem w1) p = Some objs) by (by rewrite (rs_mem _ _ _ _ _ _ _ _ _ H1)). destruct r as [op|].
  - destruct op as [mo os]. destruct (limit_size_spec c w1 i p e (negb (MaxSymArraySize opts =? 0) && (MaxSymArraySize opts <=? mo_size mo)) Hw1 Hp1 He) as (e' & w2 & p2 & E2 & H2 & He2 & Hv2).
    { intros Hb HF. by rewrite (Hmax HF) in Hb. }
    rewrite (bind_done _ _ _ _ _ E2). pose proof (restricts_trans _ _ _ _ _ _ _ _ _ _ _ H1 H2) as H12. destruct (rs_alike _ _ _ _ _ _ _ _ _ H2) as (A1 & A2 & A3).
    destruct (found_object_spec c w2 i p2 a e' objs (mo, os)) as (w3 & E3 & Hw3 & S3); try done.
    + apply H2.
    + by eapply restricts_path.
    + by rewrite (rs_end _ _ _ _ _ _ _ _ _ H2).
    + eapply operand_sub, Ha. apply H2.
    + unfold objs_of in *. by rewrite A1, (rs_mem _ _ _ _ _ _ _ _ _ H2).
    + by apply Hr.
    + exists w3. split; [exact E3|]. split; [done|]. by eapply (restricts_operation c _ w i p w2 p2).
  - destruct (slow_access_spec c w1 i p a e objs Hw1 Hc Hp1 Hend Ha He Ho1 Hmcs) as (w2 & E2 & Hw2 & S2). exists w2. split; [done|]. split; [done|].
    by eapply (restricts_operation c _ w i p w1 p).
Qed.
End Mem.

(** ** Properties *)
(** C13: (refinement) A load or store through a symbolic pointer does on every assignment what the concrete access does.  Take a path of a well-formed
    world, a solver that is right and answers every query, and a pointer with arithmetic of at most 64 bits that has a value on the path.
    The operation returns, and the path and the new paths divide its assignments (all of them, unless an option limits forks or
    makes pointers into large objects concrete).  On a piece, for the address [x] that its assignment gives the pointer: if the whole access is inside an
    object, a load binds the register to an expression with the value that the bytes of the object have at [x], and a store changes these
    bytes and no others, or ends the path when the object is read-only; if it is inside no object, the path ends with a pointer error; a path
    is given up only at the limit of the depth or when the solver's timer expires.  All other paths and their memories stay as they are.
    The options are the defaults: [SimplifySymIndices] is off and [MakeConcreteSymbolic] is 0. *)
Theorem memory_operation_refines `{U : !Universe, HA : !APInt, HC : !ExprCompare, HRf : !ReflCompare} (opts : options) {S : Type} (I : S → Prop) (impl : SolverImpl S)
  (expired : M S bool) {E : Type} `{HE : !EngineEnv E} (c : Z) (w : @world S E) (i : nat) (p : path) (a : access) (address : Expr) (objs : MemoryMap) :
  1 < PointerWidth opts ≤ 64 → right I impl → total I impl → (∀ s, I s → ∃ b s', expired s = Done b s' ∧ I s') →
  SimplifySymIndices opts = false → MakeConcreteSymbolic opts = 0 →
  world_ok opts I c w → c + resolve_bound objs < 2 ^ 32 → paths w !! i = Some p → p_end p = None → objs_of (w_mem w) p = Some objs →
  operand_ok p a → pointer_ok opts p address →
  ∃ w', executeMemoryOperation opts impl expired i a address w = Done tt w' ∧ world_ok opts I (c + resolve_bound objs) w' ∧
    splits (MaxSymArraySize opts = 0) w i p w' (operation_out opts I expired w p a address objs).
Proof. intros HW HR HT Hx Hsi Hmcs Hw Hc Hp He Ho Ha Hptr. apply executeMemoryOperation_spec; (done || lia). Qed.

(** Two objects of zeroes, and the pointer 4100 + 4096 * b0. *)
Definition two_binds : list as_op := [Bind 0 (mkMO 0 4096 16 true false false) (replicate 16 0) Zeroes; Bind 0 (mkMO 1 8192 16 true false false) (replicate 16 0) Zeroes].
Definition two_mem : mem := match as_run true true true two_binds initial_mem with Done _ m => m | Halt _ m => m end.
Definition two_envs : list assignment := [λ _ _, 0; λ _ _, 1; λ _ _, 5].
Definition two_world : @world unit unit := mkWorld two_mem tt tt {[0%nat := one_path]} 1.
Lemma two_mem_inv : inv true 3 two_mem.
Proof.
  assert (Hok : Forall op_ok two_binds) by (repeat constructor; cbn; lia). apply Forall_cons in Hok as [H1 Hok]. apply Forall_cons in Hok as [H2 _].
  destruct (as_step_sim true true true 1 initial_mem (λ _ _, 0) _ _ _ _ initial_inv ltac:(lia) (initial_rel _) H1 eq_refl) as (e1 & m1 & E1 & I1 & R1 & _).
  destruct (as_step_sim true true true 2 m1 (λ _ _, 0) _ _ _ _ I1 ltac:(lia) R1 H2 eq_refl) as (e2 & m2 & E2 & I2 & _).
  assert (Em : two_mem = m2).
  { unfold two_mem, two_binds. cbn [as_run]. by rewrite (bind_done _ _ _ _ _ E1), (bind_done _ _ _ [e2] m2) by by rewrite (bind_done _ _ _ _ _ E2). }
  rewrite Em. destruct I2 as [A1 A2 A3 A4 A5]. split; [|done..]. intros o s Ho. by destruct (A1 o s Ho) as (? & ? & _).
Qed.
Lemma two_world_ok : world_ok (U := list_universe two_envs) sample_options (λ _, True) 3 two_world.
Proof.
  split; [exact two_mem_inv|done|..].
  - cbn. intros i p [<- <-]%lookup_singleton_Some. split; [lia|]. split; [eapply one_path_ok; by left|]. exists two_objects. split; [by vm_compute|].
    split; [exact two_objects_ok|]. intros op Hop.
    assert (Hall : forallb (λ op, match heap two_mem !! op.2 with Some o => os_size o =? mo_size op.1 | None => false end) (inorder two_objects) = true) by (vm_compute; reflexivity).
    rewrite forallb_forall in Hall. specialize (Hall op (proj1 (list_elem_of_In _ _) Hop)). destruct (heap two_mem !! op.2) as [o|]; [|done]. exists o. split; [done|by apply Z.eqb_eq].
  - cbn. by intros i j p q [<- <-]%lookup_singleton_Some [<- <-]%lookup_singleton_Some.
Qed.
Lemma memory_operation_refines_witness :
  let U := list_universe two_envs in
  ∃ w', executeMemoryOperation sample_options (list_impl two_envs) (mret false) 0 (Load 3 8) two_pointer two_world = Done tt w' ∧
    ∀ env, In env two_envs → ∃ j q, paths w' !! j = Some q ∧ sat_path q env.
Proof.
  intros U. destruct (memory_operation_refines (U := U) sample_options (λ _, True) (list_impl two_envs) (mret false) 3 two_world 0 one_path (Load 3 8) two_pointer two_objects)
    as (w' & Er & _ & Hs); [cbn; lia|apply list_right|apply list_total|intros s _; by eexists _, s|reflexivity|reflexivity|exact two_world_ok|vm_compute; reflexivity|reflexivity|reflexivity|by vm_compute|..].
  { split; [cbn; lia|]. right. by split. }
  { split_and!; [exact two_pointer_wf|exact two_pointer_narrow|reflexivity|reflexivity|intros env _; by eexists]. }
  exists w'. split; [exact Er|]. intros env Hin. assert (Hse : sat_path one_path env) by (split; [exact Hin|intros x Hx; destruct (not_elem_of_nil x Hx)]).
  assert (Hu : unlimited (MaxSymArraySize sample_options = 0) one_path) by exact (conj eq_refl (conj (conj (λ _, eq_refl) (λ _, eq_refl)) eq_refl)).
  destruct (sp_cover _ _ _ _ _ _ Hs Hu env Hse) as (j & q & _ & Hq & Hsq). exists j, q. split; [exact Hq|exact Hsq].
Defined.
