(* ===== verification/PathExecFree.v ===== *)
(** * Symbolic frees refine concrete ones

    [executeFree] of [PathExec] for every assignment of the path at once: the null pointer is left alone, a pointer to the base of an object of
    the heap releases it, and every other pointer ends the path with an error. *)
From S2P Require Import Prelude Expr ExprCreate ExprRefine ExprSums ExprSpec ExprBuild ExprWeight Memory MemorySpec MemoryOps ImmutableTree ImmutableTreeMap AddressSpace AddressSpaceCow AddressSpaceResolve Solver SolverSpec SolverProps Visitor VisitorSpec ConstraintSpec EngineAnswers PathExec PathExecSpec PathExecMem.

Section Free.
Context `{U : !Universe, HA : !APInt, HC : !ExprCompare, HRf : !ReflCompare} (opts : options).
Context {S : Type} (I : S → Prop) (impl : SolverImpl S) (HR : right I impl) (HT : total I impl).
Context {E : Type} `{HE : !EngineEnv E}.
Abbreviation W := (PointerWidth opts).
Abbreviation CAO := (ConstArrayOpt opts).
Context (HW : 1 < W ≤ 64) (Full : Prop).
Abbreviation world := (@world S E).
Abbreviation world_ok := (world_ok opts I).
Abbreviation splits := (splits Full).
Abbreviation restricts := (restricts opts I Full).
Abbreviation pointer_ok := (pointer_ok opts).
Abbreviation contents := (gmap Z (Z * memory)).
Abbreviation outcomes := (nat → path → assignment → (contents → contents) → Prop).
Implicit Types (w : world) (p q : path) (i j k : nat) (env : assignment) (op : ObjectPair) (target : option Z).

(** ** Conditions *)
(** The pointer is null. *)
Lemma null_condition p e : pointer_ok p e → ∃ z, createIsZero CAO e tt = Done z tt ∧ query_ok (sat_path p) z ∧
  ∀ env x, eval env e = Some x → eval env z = Some (bool_val (x =? 0)).
Proof.
  intros (We & Ne & _ & Le & De). destruct (createIsZero_builds CAO e We ltac:(lia)) as (z & Ez & Wz & Lz & Hz). cbn in Lz.
  assert (Hv : ∀ env x, eval env e = Some x → eval env z = Some (bool_val (x =? 0))) by (intros env x Ex; apply Hz, eval_cmp; by exists x, 0).
  exists z. split; [done|]. split; [|done]. split_and!; [done|done| |].
  - intros env Hs. destruct (De env Hs) as [x Ex]. rewrite (Hv env x Ex). eauto.
  - eapply narrow_done; [eapply small_at_small, is_zero_small; [exact We|exact Ne]|exact Ez].
Qed.
(** The pointer is the base of an object. *)
Lemma base_condition c w u p e op objs : world_ok c w → paths w !! u = Some p → pointer_ok p e → objs_of (w_mem w) p = Some objs → op ∈ inorder objs →
  ∃ z, (b ← getBaseExpr W op.1; EqExpr_make CAO e b) tt = Done z tt ∧ query_ok (sat_path p) z ∧
    ∀ env x, eval env e = Some x → eval env z = Some (bool_val (x =? mo_address op.1)).
Proof.
  intros Hw Hp (We & Ne & _ & Le & De) Ho Hop. destruct (bound_object opts I c w u p objs op Hw Hp Ho Hop) as (_ & _ & _ & _ & _ & _ & _ & Hpl & Hlt & _).
  assert (Eb : getBaseExpr W op.1 tt = Done (Constant W (mo_address op.1)) tt) by (apply create_small; [lia|destruct Hpl; split; lia]).
  destruct (cmp_builds CAO KEq e (Constant W (mo_address op.1))) as (z & Ez & Wz & Lz & Hz); [done|destruct Hpl; by split; [lia|split; lia]|done|].
  assert (Ez' : (b ← getBaseExpr W op.1; cmp_make CAO KEq e b) tt = Done z tt) by by rewrite (bind_done _ _ _ _ _ Eb).
  assert (Hv : ∀ env x, eval env e = Some x → eval env z = Some (bool_val (x =? mo_address op.1))) by (intros env x Ex; apply Hz, eval_cmp; by exists x, (mo_address op.1)).
  exists z. split; [exact Ez'|]. split; [|done]. split_and!; [done|done| |by apply (base_compare_narrow CAO W HW KEq op.1 e)].
  intros env Hs. destruct (De env Hs) as [x Ex]. rewrite (Hv env x Ex). eauto.
Qed.

(** ** Pieces *)
(** The register of a piece. *)
Definition set_target target (l : gmap Z Expr) : gmap Z Expr := match target with Some t => <[t := Constant_alloc 0 W]> l | None => l end.
Definition bind_target target i : M world unit := match target with Some t => bindLocal t i (Constant_alloc 0 W) | None => mret tt end.
Lemma bind_target_spec c w i p target : world_ok c w → paths w !! i = Some p → ∃ w', bind_target target i w = Done tt w' ∧ world_ok c w' ∧
  splits w i p w' (λ k q env T, k = i ∧ T = id ∧ p_end q = p_end p ∧ locals q = set_target target (locals p)).
Proof.
  intros Hw Hp. destruct (wo_path _ _ _ _ Hw i p Hp) as (_ & Hcs & _). exists (set_paths (<[i := set_locals (set_target target) p]> (paths w)) w).
  split; [|split; [by apply (world_ok_upd opts I c w i p)|by apply (splits_upd opts I Full c)]].
  destruct target as [t|]; [by apply upd_path_done|]. assert (Es : set_locals (set_target None) p = p) by by destruct p.
  rewrite Es. unfold set_paths. rewrite insert_id by done. by destruct w.
Qed.

(** ** The release of one object *)
Definition released target p (x : Z) op q (T : contents → contents) : Prop := mo_address op.1 = x ∧
  if mo_isLocal op.1 || mo_isGlobal op.1 then p_end q = Some (OnError "free.err") ∧ T = id
  else p_end q = None ∧ T = delete x ∧ locals q = set_target target (locals p).
Lemma space_removed s mo : avl (objects s) → space_ok W (objects s) → let objs' := ImmutableTree.remove object_key (mo_address mo) (objects s) in
  space_ok W objs' ∧ ∀ r, r ∈ inorder objs' → r ∈ inorder (objects s).
Proof.
  intros Ha Hok objs'. destruct (space_remove s mo Ha (so_ordered _ _ Hok)) as (_ & Ho' & Hb). cbn in Ho'. fold objs' in Ho'.
  assert (Hr : ∀ r : ObjectPair, r ∈ inorder objs' → r ∈ inorder (objects s)).
  { intros r Hr. assert (Hm : binding (set_objects objs' s) !! object_key r = Some r) by by apply (to_map_lookup object_key). unfold objs' in Hm. rewrite Hb in Hm.
    apply lookup_delete_Some in Hm as [_ Hm]. by apply (to_map_lookup object_key) in Hm as [? _]; [|apply Hok]. }
  split; [|done]. split; [done|..]; [intros r ?; apply (so_placed _ _ Hok); auto|intros r1 r2 ? ?; apply (so_disjoint _ _ Hok); auto].
Qed.
Lemma unbind_spec c w i p objs mo : world_ok c w → paths w !! i = Some p → objs_of (w_mem w) p = Some objs →
  ∃ w', in_mem (unbindObject (p_space p) mo) w = Done tt w' ∧ world_ok c w' ∧ paths w' !! i = Some p ∧ splits w i p w' (λ k q env T, k = i ∧ q = p ∧ T = delete (mo_address mo)).
Proof.
  intros Hw Hp Ho. destruct (wo_path _ _ _ _ Hw i p Hp) as (_ & _ & objs' & Ho' & Hobjs). simplify_eq. unfold objs_of in Ho.
  destruct (spaces (w_mem w) !! p_space p) as [s|] eqn:Es; [|done]. injection Ho as <-. destruct (inv_space _ _ _ (wo_mem _ _ _ _ Hw) _ _ Es) as (_ & _ & Ha & Hord).
  set (m' := set_space (p_space p) (set_objects (ImmutableTree.remove object_key (mo_address mo) (objects s)) s) (w_mem w)).
  assert (Eu : unbindObject (p_space p) mo (w_mem w) = Done tt m') by (unfold unbindObject, get_space, mbind, M_bind, get, modify; cbn; by rewrite Es).
  destruct (space_removed s mo Ha (oo_space _ _ _ Hobjs)) as [Hsp Hsub]. exists (with_mem m' i p w). split; [rewrite (in_mem_done _ w _ _ Eu); unfold with_mem; by rewrite insert_id|].
  assert (Hstep : world_ok c (with_mem m' i p w) ∧ splits w i p (with_mem m' i p w) (λ k q env T, k = i ∧ q = p ∧ T = delete (mo_address mo))).
  { apply (mem_step opts I Full c w i p m' p (ImmutableTree.remove object_key (mo_address mo) (objects s)) (λ _, delete (mo_address mo))); try done.
    - apply inv_unbind; [apply (wo_mem _ _ _ _ Hw)|done].
    - exact (mem_ext_refl (w_mem w)).
    - intros j q Hj Hq. assert (Hne : p_space p ≠ p_space q) by (intros Ep; apply Hj; by eapply (wo_distinct _ _ _ _ Hw)).
      unfold kept, objs_of, holds. cbn. rewrite lookup_insert_ne by done. by split.
    - unfold objs_of. cbn. rewrite lookup_insert_eq. reflexivity.
    - split; [done|]. intros op Hop. destruct (oo_sizes _ _ _ Hobjs op (Hsub op Hop)) as (o & Ho & Ez). by exists o.
    - intros env Hs. split; [|done]. intros g (s0 & E0 & Hrel). rewrite Es in E0. injection E0 as <-.
      assert (H : rel env (w_mem w) ({[p_space p := g]}, next_as (w_mem w))) by (split; [done|]; cbn; intros j g' [<- <-]%lookup_singleton_Some; eauto).
      pose proof (rel_unbind env (w_mem w) _ (p_space p) s g mo Ha Hord Es (lookup_singleton_eq _ _) H) as H'. exact (rel_space _ _ _ _ _ H' (lookup_insert_eq _ _ _)). }
  split_and!; [apply Hstep|cbn; apply lookup_insert_eq|apply Hstep].
Qed.
Lemma free_object_spec c w i p objs target e op : world_ok c w → paths w !! i = Some p → p_end p = None → objs_of (w_mem w) p = Some objs → pointer_ok p e →
  (∀ env, sat_path p env → eval env e = Some (mo_address op.1)) →
  ∃ w', free_object opts impl target e (op, i) w = Done tt w' ∧ world_ok c w' ∧ splits w i p w' (λ k q env T, k = i ∧ released target p (mo_address op.1) op q T).
Proof.
  intros Hw Hp Hend Ho He Hx. destruct op as [mo os]. cbn [free_object fst]. 
  assert (Herr : mo_isLocal mo || mo_isGlobal mo = true → ∃ w', (getAddressInfo opts impl i e;; terminateStateOnError i "free.err") w = Done tt w' ∧ world_ok c w' ∧
    splits w i p w' (λ k q env T, k = i ∧ released target p (mo_address mo) (mo, os) q T)).
  { intros Hb. destruct (getAddressInfo_spec opts I impl HR HT HW Full c w i p e Hw Hp He) as (w1 & E1 & H1).
    destruct (end_path opts I Full c w1 i p (OnError "free.err") (rs_ok _ _ _ _ _ _ _ _ _ H1) (restricts_path _ _ _ _ _ _ _ _ _ H1)) as (E2 & Hw2 & S2).
    eexists. split; [rewrite (bind_done _ _ _ _ _ E1); exact E2|]. split; [done|].
    eapply (splits_trans opts I Full c c w i p w1); [done|apply H1|done|by eapply restricts_splits|by left|by eapply restricts_path|done|exact S2| |].
    - by intros k q env T Hk _ _ [? _].
    - intros k q env T1 T2 _ _ _ [_ ->] (-> & -> & ->). split; [done|]. split; [done|]. cbn. by rewrite Hb. }
  destruct (mo_isLocal mo) eqn:El; [by apply Herr|]. destruct (mo_isGlobal mo) eqn:Eg; [by apply Herr|]. clear Herr.
  rewrite (bind_done _ _ _ _ _ (get_path_done w i p Hp)). destruct (unbind_spec c w i p objs mo Hw Hp Ho) as (w1 & E1 & Hw1 & Hp1 & S1). rewrite (bind_done _ _ _ _ _ E1).
  destruct (bind_target_spec c w1 i p target Hw1 Hp1) as (w2 & E2 & Hw2 & S2). exists w2. split; [exact E2|]. split; [done|].
  eapply (splits_trans opts I Full c c w i p w1); [done|done|done|exact S1|by left|exact Hp1|done|exact S2| |].
  - by intros k q env T Hk _ _ [? _].
  - intros k q env T1 T2 _ _ _ (_ & _ & ->) (-> & -> & Ee & El'). split; [done|]. split; [done|]. cbn. rewrite El, Eg. cbn. by rewrite Ee.
Qed.

(** ** The objects a pointer is the base of *)
(** The states that were found, each with its object. *)
Definition hit p (hits : list (ObjectPair * nat)) (x : Z) k q (T : contents → contents) : Prop :=
  ∃ op, (op, k) ∈ hits ∧ p_end q = None ∧ locals q = locals p ∧ T = id ∧ mo_address op.1 = x.
Definition missed p (rl : list ObjectPair) (r : option nat) (x : Z) k q (T : contents → contents) : Prop :=
  r = Some k ∧ p_end q = None ∧ locals q = locals p ∧ T = id ∧ ∀ op, op ∈ rl → mo_address op.1 ≠ x.
Definition too_deep q (T : contents → contents) : Prop := p_end q = Some Early ∧ T = id ∧ MaxDepth opts ≠ 0.
Definition exact_out p e rl (hits : list (ObjectPair * nat)) (r : option nat) : outcomes := λ k q env T, ∃ x, eval env e = Some x ∧
  (hit p hits x k q T ∨ k ∉ hits.*2 ∧ (too_deep q T ∨ missed p rl r x k q T)).
(** The states that go on. *)
Record goes_on w i p w' (hits : list (ObjectPair * nat)) (rl : list ObjectPair) (r : option nat) : Prop := mkGoesOn {
  go_nodup : NoDup hits.*2;
  go_hits op k : (op, k) ∈ hits → from w i k ∧ ready w p w' k ∧ op ∈ rl;
  go_rest k : r = Some k → from w i k ∧ ready w p w' k ∧ k ∉ hits.*2
}.
Lemma resolve_loop_spec e objs rl : (∀ op, op ∈ rl → op ∈ inorder objs) →
  ∀ c w u p, world_ok c w → c + Z.of_nat (length rl) ≤ 2 ^ 32 - 1 → paths w !! u = Some p → p_end p = None → pointer_ok p e → objs_of (w_mem w) p = Some objs →
  ∃ hits r w', resolve_loop opts impl u e rl w = Done (hits, r) w' ∧ world_ok (c + Z.of_nat (length rl)) w' ∧ splits w u p w' (exact_out p e rl hits r) ∧ goes_on w u p w' hits rl r.
Proof.
  induction rl as [|op rl IH]; intros Hrl c w u p Hw Hc Hp Hend He Ho; cbn [length resolve_loop] in *; pose proof He as (_ & _ & _ & _ & De).
  { exists [], (Some u), w. rewrite Z.add_0_r. split; [done|]. split; [done|]. split.
    - eapply splits_mono; [by apply (splits_refl opts I Full c)|]. intros k q env T Hs (-> & -> & ->). destruct (De env Hs) as [x Ex]. exists x. split; [done|]. right.
      split; [apply not_elem_of_nil|]. right. split_and!; try done. by intros op ?%not_elem_of_nil.
    - split; [constructor|by intros ? ? ?%not_elem_of_nil|]. intros k [= <-]. split; [by left|]. split; [by exists p|apply not_elem_of_nil]. }
  assert (Hop : op ∈ inorder objs) by (apply Hrl; by left). destruct (base_condition c w u p e op objs Hw Hp He Ho Hop) as (z & Ez & Hq & Hv).
  rewrite (bind_done _ _ _ _ _ (lift_done _ _ _ Ez)). destruct (fork_spec opts I impl HR HT HW Full c w u p z Hw ltac:(lia) Hp Hend Hq) as (br & w1 & Ef & Hw1 & Hf).
  rewrite (bind_done _ _ _ _ _ Ef). destruct br as [b1 b2]. cbn [fst snd]. set (here := match b1 with Some s => [(op, s)] | None => [] end).
  assert (Hhere : ∀ op' k, (op', k) ∈ here ↔ op' = op ∧ b1 = Some k) by (intros op' k; unfold here; destruct b1; set_solver).
  assert (Hhere2 : ∀ k, k ∈ here.*2 ↔ b1 = Some k) by (intros k; unfold here; destruct b1; set_solver).
  assert (Hfork : ∀ k q env T, sat_path p env → fork_out opts p z (b1, b2) k q env T → b2 ≠ Some k → ∃ x, eval env e = Some x ∧
    (hit p here x k q T ∨ k ∉ here.*2 ∧ too_deep q T)).
  { intros k q env T Hs (-> & El & HO) Hk. destruct (De env Hs) as [x Ex]. exists x. split; [done|]. cbn in HO. destruct HO as [(? & ? & Ev)|[(? & _)|(Hn & _ & ? & ?)]]; [|done|].
    - left. exists op. split; [by apply Hhere|]. split_and!; try done. rewrite (Hv env x Ex) in Ev. by destruct (Z.eqb_spec x (mo_address op.1)).
    - right. split; [by rewrite Hhere2|done]. }
  destruct b2 as [u2|].
  - destruct (fk_false _ _ _ _ _ _ _ _ Hf u2 eq_refl) as [Hfu Hru]. pose proof Hru as (q2 & Hq2 & E2e & E2l & E2f & E2o).
    pose proof (fk_splits _ _ _ _ _ _ _ _ Hf) as S1. assert (Hb : ∀ b, b1 = Some b → from w u b ∧ ready w p w1 b ∧ b ≠ u2 ∧ (b < next_path w1)%nat).
    { intros b Hb. destruct (fk_true _ _ _ _ _ _ _ _ Hf b Hb) as (H1 & H2 & H3). split_and!; [done|done|cbn in H3; congruence|]. destruct H2 as (qb & Hqb & _). by apply (wo_path _ _ _ _ Hw1 b qb). }
    assert (Hsub : ∀ env, sat_path q2 env → sat_path p env) by (intros env Hs; by apply (sp_out _ _ _ _ _ _ S1 u2 q2 Hfu Hq2 env Hs)).
    destruct (IH (λ op H, Hrl op (list_elem_of_further _ _ _ H)) (c + 1) w1 u2 q2 Hw1 ltac:(lia) Hq2 E2e (pointer_sub _ _ _ _ Hsub He) ltac:(congruence)) as (hits & r & w2 & E2 & Hw2 & S2 & [G1 G2 G3]).
    assert (Hnot : ∀ k q, k ≠ u2 → paths w1 !! k = Some q → k ∉ hits.*2).
    { intros k q Hk Hqk ([op' k'] & -> & Hin)%list_elem_of_fmap. destruct (G2 op' k' Hin) as ([?|Hge] & _); [done|]. destruct (wo_path _ _ _ _ Hw1 k' q Hqk) as [? _]. cbn in *. lia. }
    exists (here ++ hits), r, w2. rewrite (bind_done _ _ _ _ _ E2). split; [done|].
    split; [by replace (c + Z.of_nat (Datatypes.S (length rl))) with (c + 1 + Z.of_nat (length rl)) by lia|]. split.
    + eapply (splits_trans opts I Full c (c + 1) w u p w1); [done|done|done|exact S1|exact Hfu|exact Hq2| |exact S2| |].
      * intros Hu. by eapply ready_unlimited; [exact Hru|exact Hq2|].
      * intros k q env T Hk Hqk Hs HO. destruct (Hfork k q env T Hs HO) as (x & Ex & HX); [congruence|]. exists x. split; [done|]. pose proof (Hnot k q Hk Hqk) as Hnk.
        destruct HX as [(op' & Hin & HX)|[Hnh Hd]]; [left; exists op'; split; [set_solver|done]|right]. rewrite fmap_app, not_elem_of_app. auto.
      * intros k q env T1 T2 Hfk Hs _ (-> & _ & HO1) (x & Ex & HO2). exists x. split; [done|].
        assert (Hx : mo_address op.1 ≠ x).
        { intros <-. cbn in HO1. destruct HO1 as [(Eb & _)|[(_ & _ & Ev)|(_ & Eb & _)]]; [by destruct (Hb u2 Eb) as (_ & _ & ? & _)| |done].
          by rewrite (Hv env _ Ex), Z.eqb_refl in Ev. }
        assert (Hnk : k ∉ here.*2). { rewrite Hhere2. intros Eb. destruct (Hb k Eb) as (_ & _ & ? & ?). destruct Hfk; [done|lia]. }
        destruct HO2 as [(op' & Hin & F1 & F2 & F3 & F4)|[Hnh Hd]]; [left; exists op'; split_and!; [set_solver|done|congruence|done|done]|right].
        rewrite fmap_app, not_elem_of_app. split; [auto|]. destruct Hd as [?|(G & F1 & F2 & F3 & F4)]; [by left|right]. split_and!; [done|done|congruence|done|].
        intros op' [->|?]%elem_of_cons; [done|auto].
    + split.
      * rewrite fmap_app. apply NoDup_app. split_and!; [unfold here; destruct b1; cbn; repeat constructor; apply not_elem_of_nil| |done].
        intros k Hk%Hhere2. destruct (Hb k Hk) as (_ & (qb & Hqb & _) & ? & _). by eapply Hnot.
      * intros op' k [[-> Hk]%Hhere|Hin]%elem_of_app.
        -- destruct (Hb k Hk) as (? & Hrk & ? & _). split_and!; [done|by eapply (ready_kept opts I Full (c + 1) w p w1 k u2)|by left].
        -- destruct (G2 op' k Hin) as (Hfk & Hrk & ?). split_and!; [by eapply from_trans; [apply S1|exact Hfu|exact Hfk]|by eapply ready_trans|by right].
      * intros k Hk. destruct (G3 k Hk) as (Hfk & Hrk & Hnk). split_and!; [by eapply from_trans; [apply S1|exact Hfu|exact Hfk]|by eapply ready_trans|].
        rewrite fmap_app, not_elem_of_app. split; [|done]. rewrite Hhere2. intros Eb. destruct (Hb k Eb) as (_ & _ & ? & ?). destruct Hfk; [done|lia].
  - exists here, None, w1. split; [done|]. split; [apply (world_ok_mono opts I HW (c + 1)); [lia|done]|]. split.
    + eapply splits_mono; [apply (fk_splits _ _ _ _ _ _ _ _ Hf)|]. intros k q env T Hs HO. destruct (Hfork k q env T Hs HO) as (x & Ex & HX); [done|]. exists x. split; [done|].
      destruct HX as [?|[? ?]]; auto.
    + split; [unfold here; destruct b1; cbn; repeat constructor; apply not_elem_of_nil| |done]. intros op' k [-> Hk]%Hhere. destruct (fk_true _ _ _ _ _ _ _ _ Hf k Hk) as (H1 & H2 & _).
      split_and!; [done|done|by left].
Qed.

(** What the release through a pointer that is not null does. *)
Definition freed target p objs (x : Z) q (T : contents → contents) : Prop :=
  too_deep q T ∨ (∃ op, op ∈ inorder objs ∧ released target p x op q T) ∨
  p_end q = Some (OnError "ptr.err") ∧ T = id ∧ ∀ op, op ∈ inorder objs → mo_address op.1 ≠ x.
Definition pending target p e objs (hits : list (ObjectPair * nat)) : outcomes := λ k q env T, ∃ x, eval env e = Some x ∧
  (hit p hits x k q T ∨ k ∉ hits.*2 ∧ freed target p objs x q T).
Lemma goes_on_restricts c w i p w1 w' hits rl r : paths w !! i = Some p → p_end p = None → restricts c w i p w1 p → goes_on w1 i p w' hits rl r → goes_on w i p w' hits rl r.
Proof.
  intros Hp He H [G1 G2 G3]. pose proof (restricts_ready _ _ _ _ _ _ _ _ _ Hp H He) as Hr. pose proof (restricts_path _ _ _ _ _ _ _ _ _ H) as Hp1.
  assert (Hfrom : ∀ k, from w1 i k → from w i k) by (intros k; unfold from; by rewrite (rs_next _ _ _ _ _ _ _ _ _ H)). split; [done|..].
  - intros op k Hin. destruct (G2 op k Hin) as (? & ? & ?). split_and!; [auto|by eapply ready_trans|done].
  - intros k Hk. destruct (G3 k Hk) as (? & ? & ?). split_and!; [auto|by eapply ready_trans|done].
Qed.
Lemma goes_on_kept c w i p w1 w' hits rl r b q (Out : outcomes) : world_ok c w1 → b ∉ hits.*2 → splits w1 b q w' Out → goes_on w i p w1 hits rl r → goes_on w i p w' hits rl None.
Proof.
  intros Hw1 Hb S1 [G1 G2 _]. split; [done| |done]. intros op k Hin. destruct (G2 op k Hin) as (? & Hr & ?). split_and!; [done| |done].
  eapply (ready_kept opts I Full c w p w1 k b); [done|done| |done]. intros ->. apply Hb. by apply (list_elem_of_fmap_2 snd _ _ Hin).
Qed.
Lemma resolveExact_spec c w i p e objs target : world_ok c w → c + resolve_bound objs ≤ 2 ^ 32 - 1 → paths w !! i = Some p → p_end p = None → pointer_ok p e → objs_of (w_mem w) p = Some objs →
  ∃ hits w', resolveExact opts impl i e w = Done hits w' ∧ world_ok (c + resolve_bound objs) w' ∧ splits w i p w' (pending target p e objs hits) ∧ goes_on w i p w' hits (inorder objs) None.
Proof.
  intros Hw Hc Hp Hend He Ho. unfold resolveExact.
  destruct (path_resolve_spec opts I impl HR HT (mret false) ltac:(intros s Hs; by exists false, s) HW Full c w i p e objs Hw Hp He Ho) as (inc & rl & w1 & E1 & H1 & Hrl & Hlen & Hall & Hlate).
  rewrite (bind_done _ _ _ _ _ E1). cbn [fst snd]. assert (Hinc : inc = false) by (destruct inc; [|done]; destruct (Hlate eq_refl); by intros s b s' _ [= <- _]).
  pose proof (rs_ok _ _ _ _ _ _ _ _ _ H1) as Hw1. pose proof (restricts_path _ _ _ _ _ _ _ _ _ H1) as Hp1.
  assert (Ho1 : objs_of (w_mem w1) p = Some objs) by (by rewrite (rs_mem _ _ _ _ _ _ _ _ _ H1)).
  destruct (resolve_loop_spec e objs rl Hrl c w1 i p Hw1 ltac:(lia) Hp1 Hend He Ho1) as (hits & r & w2 & E2 & Hw2 & S2 & G2). rewrite (bind_done _ _ _ _ _ E2). cbn [fst snd].
  assert (S02 : splits w i p w2 (exact_out p e rl hits r)).
  { eapply (splits_trans opts I Full c c w i p w1); [done|done|done|by eapply restricts_splits|by left|done|done|exact S2| |]; [by intros k q env T Hk _ _ [? _]|by intros k q env T1 T2 _ _ _ [_ ->]]. }
  pose proof (goes_on_restricts c w i p w1 w2 hits rl r Hp Hend H1 G2) as G02. set (c2 := c + Z.of_nat (length rl)) in *.
  assert (Hmono : ∀ w', world_ok c2 w' → world_ok (c + resolve_bound objs) w') by (intros w'; apply (world_ok_mono opts I HW); unfold c2; lia).
  assert (Hsubset : ∀ w' r', goes_on w i p w' hits rl r' → goes_on w i p w' hits (inorder objs) r').
  { intros w' r' [G1 G2' G3]. split; [done| |done]. intros op k Hin. destruct (G2' op k Hin) as (? & ? & ?). split_and!; auto. }
  assert (Hfirst : ∀ k q env T, r ≠ Some k → exact_out p e rl hits r k q env T → pending target p e objs hits k q env T).
  { intros k q env T Hk (x & Ex & HO). exists x. split; [done|]. destruct HO as [?|(? & [?|(? & _)])]; [by left|right|done]. split; [done|by left]. }
  destruct r as [u|].
  2: { exists hits, w2. split; [done|]. split; [auto|]. split; [|auto]. eapply splits_mono; [exact S02|]. intros k q env T _. by apply Hfirst. }
  destruct (go_rest _ _ _ _ _ _ _ G02 u eq_refl) as (Hfu & Hru & Hnu). pose proof Hru as (q2 & Hq2 & E2e & E2l & E2f & E2o).
  assert (Hsub : ∀ env, sat_path q2 env → sat_path p env) by (intros env Hs; by apply (sp_out _ _ _ _ _ _ S02 u q2 Hfu Hq2 env Hs)).
  destruct (getAddressInfo_spec opts I impl HR HT HW Full c2 w2 u q2 e Hw2 Hq2 (pointer_sub _ _ _ _ Hsub He)) as (w3 & E3 & H3).
  pose proof (rs_ok _ _ _ _ _ _ _ _ _ H3) as Hw3. destruct (end_path opts I Full c2 w3 u q2 (OnError "ptr.err") Hw3 (restricts_path _ _ _ _ _ _ _ _ _ H3)) as (E4 & Hw4 & S4).
  set (w4 := set_paths _ w3) in *. assert (S24 : splits w2 u q2 w4 (λ k q env T, k = u ∧ p_end q = Some (OnError "ptr.err") ∧ T = id)).
  { eapply (splits_trans opts I Full c2 c2 w2 u q2 w3); [done|done|done|by eapply restricts_splits|by left|by eapply restricts_path|done|exact S4| |];
      [by intros k q env T Hk _ _ [? _]|by intros k q env T1 T2 _ _ _ [_ ->] (-> & -> & ->)]. }
  exists hits, w4. split; [|split; [auto|split]].
  - rewrite (bind_done _ _ _ tt w4); [done|]. by rewrite (bind_done _ _ _ _ _ E3).
  - eapply (splits_trans opts I Full c c2 w i p w2); [done|done|done|exact S02|exact Hfu|exact Hq2| |exact S24| |].
    + intros Hu. by eapply ready_unlimited; [exact Hru|exact Hq2|].
    + intros k q env T Hk _ _. apply Hfirst. congruence.
    + intros k q env T1 T2 _ Hs _ (x & Ex & HO) (-> & Eend & ->). exists x. split; [done|]. right. split; [done|].
      destruct HO as [(op & Hin & _)|(_ & [(Ee & _)|(_ & _ & _ & -> & Hno)])]; [by destruct Hnu; apply (list_elem_of_fmap_2 snd _ _ Hin)|congruence|].
      right; right. split_and!; [done|done|]. intros op Hop Hx. apply (Hno op); [|done]. apply (Hall Hinc env x op Hs Ex Hop). unfold contains.
      destruct (bound_object opts I c w i p objs op Hw Hp Ho Hop) as (_ & _ & _ & _ & _ & _ & _ & Hpl & _). destruct Hpl as (_ & ? & _). destruct (Z.eqb_spec (mo_size op.1) 0); lia.
  - apply Hsubset. eapply (goes_on_kept c2 w i p w2 w4 hits rl (Some u) u q2); [exact Hw2|exact Hnu|exact S24|exact G02].
Qed.

Lemma released_locals target p q1 x op q T : locals q1 = locals p → released target q1 x op q T → released target p x op q T.
Proof. intros El [H1 H2]. split; [done|]. by rewrite El in H2. Qed.
Lemma free_all_spec c w i p e objs target : world_ok c w → paths w !! i = Some p → pointer_ok p e → objs_of (w_mem w) p = Some objs →
  ∀ hits w1, world_ok c w1 → splits w i p w1 (pending target p e objs hits) → goes_on w i p w1 hits (inorder objs) None →
  ∃ w', free_all opts impl target e hits w1 = Done tt w' ∧ world_ok c w' ∧ splits w i p w' (pending target p e objs []).
Proof.
  intros Hw Hp He Ho hits. induction hits as [|[op k] hits IH]; intros w1 Hw1 S1 G1; cbn [free_all]; [by exists w1|].
  destruct G1 as [Hnd Hhits _]. cbn in Hnd. apply NoDup_cons in Hnd as [Hk Hnd]. destruct (Hhits op k ltac:(by left)) as (Hfk & Hrk & Hop). pose proof Hrk as (q & Hq & Ee & El & Ef & Eo).
  assert (Hpiece : ∀ env T, pending target p e objs ((op, k) :: hits) k q env T → T = id ∧ eval env e = Some (mo_address op.1)).
  { intros env T (x & Ex & [(op' & Hin & _ & _ & HT' & Hx)|[Hn _]]); [|destruct Hn; by left]. split; [done|]. rewrite Ex. f_equal.
    apply elem_of_cons in Hin as [[= ->]|Hin]; [done|]. by destruct Hk; apply (list_elem_of_fmap_2 snd _ _ Hin). }
  assert (Hsub : ∀ env, sat_path q env → sat_path p env) by (intros env Hs; by apply (sp_out _ _ _ _ _ _ S1 k q Hfk Hq env Hs)).
  destruct (free_object_spec c w1 k q objs target e op Hw1 Hq Ee ltac:(congruence) (pointer_sub _ _ _ _ Hsub He)) as (w2 & E2 & Hw2 & S2).
  { intros env Hs. destruct (sp_out _ _ _ _ _ _ S1 k q Hfk Hq env Hs) as (_ & T & _ & HO). by apply (Hpiece env T). }
  rewrite (bind_done _ _ _ _ _ E2). apply IH; [done|..].
  - eapply (splits_trans opts I Full c c w i p w1); [done|done|done|exact S1|exact Hfk|exact Hq| |exact S2| |].
    + intros Hu. by eapply ready_unlimited; [exact Hrk|exact Hq|].
    + intros k' q' env T Hk' _ _ (x & Ex & HO). exists x. split; [done|]. destruct HO as [(op' & Hin & HO)|[Hn ?]]; [|right; split; [set_solver|done]].
      left. exists op'. split; [|done]. apply elem_of_cons in Hin as [[= -> ->]|?]; done.
    + intros k' q' env T1 T2 _ Hs _ HO1 (-> & Hrel). destruct (Hpiece env T1 HO1) as [-> Ex]. exists (mo_address op.1). split; [done|]. right. split; [done|].
      right; left. exists op. split; [done|]. by eapply released_locals.
  - apply (goes_on_kept c w i p w1 w2 hits (inorder objs) None k q _ Hw1 Hk S2). split; [done| |done]. intros op' k' Hin. apply Hhits. by right.
Qed.

(** ** The whole operation *)
Definition free_out target p e objs : outcomes := λ _ q env T, ∃ x, eval env e = Some x ∧
  (x = 0 ∧ p_end q = None ∧ T = id ∧ locals q = set_target target (locals p) ∨ too_deep q T ∨ x ≠ 0 ∧ freed target p objs x q T).
Lemma executeFree_spec c w i p e objs target : world_ok c w → c + resolve_bound objs + 1 ≤ 2 ^ 32 - 1 → paths w !! i = Some p → p_end p = None → pointer_ok p e → objs_of (w_mem w) p = Some objs →
  ∃ w', executeFree opts impl i e target w = Done tt w' ∧ world_ok (c + resolve_bound objs + 1) w' ∧ splits w i p w' (free_out target p e objs).
Proof.
  intros Hw Hc Hp Hend He Ho. assert (Hrb : 0 ≤ resolve_bound objs) by (unfold resolve_bound; lia). unfold executeFree. destruct (null_condition p e He) as (z & Ez & Hq & Hv).
  rewrite (bind_done _ _ _ _ _ (lift_done _ _ _ Ez)). destruct (fork_spec opts I impl HR HT HW Full c w i p z Hw ltac:(lia) Hp Hend Hq) as ([b1 b2] & w1 & Ef & Hw1 & [F1 F2 F3]).
  rewrite (bind_done _ _ _ _ _ Ef). cbn [fst snd] in *. pose proof He as (_ & _ & _ & _ & De).
  (* the null pointer *)
  set (Out1 := (λ k q env T, b1 = Some k ∧ (∃ x, eval env e = Some x ∧ x = 0 ∧ p_end q = None ∧ T = id ∧ locals q = set_target target (locals p)) ∨
    b1 ≠ Some k ∧ fork_out opts p z (b1, b2) k q env T) : outcomes).
  assert (∃ w2, (match b1, target with Some s, Some t => bindLocal t s (Constant_alloc 0 W) | _, _ => mret tt end) w1 = Done tt w2 ∧ world_ok (c + 1) w2 ∧
    splits w i p w2 Out1 ∧ ∀ u, b2 = Some u → from w i u ∧ ready w p w2 u) as (w2 & E2 & Hw2 & S2 & Hu2).
  { destruct b1 as [b|].
    - destruct (F2 b eq_refl) as (Hfb & Hrb' & Hne). pose proof Hrb' as (qb & Hqb & Ebe & Ebl & _). destruct (bind_target_spec (c + 1) w1 b qb target Hw1 Hqb) as (w2 & E2 & Hw2 & S2).
      exists w2. split; [by destruct target|]. split; [done|]. split.
      + eapply (splits_trans opts I Full c (c + 1) w i p w1); [done|done|done|exact F1|exact Hfb|exact Hqb| |exact S2| |].
        * intros Hu. by eapply ready_unlimited; [exact Hrb'|exact Hqb|].
        * intros k q env T Hk _ _ HO. right. split; [congruence|done].
        * intros k q env T1 T2 _ Hs _ (-> & _ & HO) (-> & -> & Ee & El). left. split; [done|]. destruct (De env Hs) as [x Ex]. exists x.
          destruct HO as [(_ & _ & Ev)|[(Eb & _)|(Eb & _)]]; [|done|done]. rewrite (Hv env x Ex) in Ev. split_and!; [done| |congruence|done|by rewrite El, Ebl].
          by destruct (Z.eqb_spec x 0).
      + intros u Hu. destruct (F3 u Hu) as [Hfu Hru]. split; [done|]. apply (ready_kept opts I Full (c + 1) w p w1 u b qb w2 _ Hw1 Hru) in S2; [done|]. intros ->. by apply Hne.
    - exists w1. split; [done|]. split; [done|]. split; [|done]. eapply splits_mono; [exact F1|]. intros k q env T _ HO. by right. }
  rewrite (bind_done _ _ _ _ _ E2).
  assert (Hfirst : ∀ k q env T, sat_path p env → b2 ≠ Some k → Out1 k q env T → free_out target p e objs k q env T).
  { intros k q env T Hs Hk [(_ & x & Ex & HO)|(Hn & -> & _ & HO)]; [exists x; auto|]. destruct (De env Hs) as [x Ex]. exists x. split; [done|]. right; left. cbn in HO.
    destruct HO as [(? & _)|[(? & _)|(_ & _ & ? & ?)]]; done. }
  destruct b2 as [u|].
  2: { exists w2. split; [done|]. split; [apply (world_ok_mono opts I HW (c + 1)); [lia|done]|]. eapply splits_mono; [exact S2|]. intros k q env T Hs. by apply Hfirst. }
  destruct (Hu2 u eq_refl) as [Hfu Hru]. pose proof Hru as (q & Hqu & Ee & El & Ef' & Eo).
  assert (Hsub : ∀ env, sat_path q env → sat_path p env) by (intros env Hs; by apply (sp_out _ _ _ _ _ _ S2 u q Hfu Hqu env Hs)).
  pose proof (pointer_sub _ _ _ _ Hsub He) as Heu. assert (Hou : objs_of (w_mem w2) q = Some objs) by congruence.
  destruct (resolveExact_spec (c + 1) w2 u q e objs target Hw2 ltac:(lia) Hqu Ee Heu Hou) as (hits & w3 & E3 & Hw3 & S3 & G3). rewrite (bind_done _ _ _ _ _ E3).
  assert (Hc3 : c + resolve_bound objs + 1 = c + 1 + resolve_bound objs) by lia.
  destruct (free_all_spec (c + 1 + resolve_bound objs) w2 u q e objs target) with (hits := hits) (w1 := w3) as (w4 & E4 & Hw4 & S4); try done;
    [apply (world_ok_mono opts I HW (c + 1)); [lia|done]|].
  exists w4. split; [done|]. split; [by rewrite Hc3|]. eapply (splits_trans opts I Full c (c + 1) w i p w2); [done|done|done|exact S2|exact Hfu|exact Hqu| |exact S4| |].
  - intros Hu. by eapply ready_unlimited; [exact Hru|exact Hqu|].
  - intros k q' env T Hk _ Hs. apply Hfirst; [done|congruence].
  - intros k q' env T1 T2 _ Hs _ HO1 (x & Ex & [(op & []%not_elem_of_nil & _)|[_ HO2]]). exists x. split; [done|].
    assert (HT1 : T1 = id ∧ x ≠ 0).
    { destruct HO1 as [(Eb & _)|(_ & -> & _ & HO)]; [by destruct (F2 u Eb) as (_ & _ & [])|]. split; [done|]. intros ->.
      destruct HO as [(Eb & _)|[(_ & _ & Ev)|(_ & [] & _)]]; [by destruct (F2 u Eb) as (_ & _ & [])| |done]. by rewrite (Hv env 0 Ex) in Ev. }
    destruct HT1 as [-> Hx0]. right; right. split; [done|].
    destruct HO2 as [?|[(op & Hop & Hrel)|?]]; [by left|right; left; exists op; split; [done|by eapply released_locals]|by right; right].
Qed.
End Free.

(** ** Properties *)
(** C14: (refinement) Releasing memory through a symbolic pointer does on every assignment what the concrete release does.  On a path of a well-formed
    world, with a solver that is right and answers every query, and a pointer with arithmetic of at most 64 bits that has a value on the path,
    [executeFree] returns, and the path and the new paths divide its assignments (all of them, unless a limit on forks applies).  On a piece, for the
    address that its assignment gives the pointer: null is left alone; the base of an object of the heap is released, so that the memory holds the
    other objects as before and not this one; for the base of a local or global object the path ends with an error, and for an address that is not
    the base of an object with a pointer error; a path is given up only at the limit of the depth.  The register gets null, and all other paths and their memories stay as they are. *)
Theorem free_refines `{U : !Universe, HA : !APInt, HC : !ExprCompare, HRf : !ReflCompare} (opts : options) {S : Type} (I : S → Prop) (impl : SolverImpl S)
  {E : Type} `{HE : !EngineEnv E} (c : Z) (w : @world S E) (i : nat) (p : path) (address : Expr) (objs : MemoryMap) (target : option Z) :
  1 < PointerWidth opts ≤ 64 → right I impl → total I impl →
  world_ok opts I c w → c + resolve_bound objs + 1 < 2 ^ 32 → paths w !! i = Some p → p_end p = None → objs_of (w_mem w) p = Some objs → pointer_ok opts p address →
  ∃ w', executeFree opts impl i address target w = Done tt w' ∧ world_ok opts I (c + resolve_bound objs + 1) w' ∧ splits True w i p w' (free_out opts target p address objs).
Proof. intros HW HR HT Hw Hc Hp He Ho Hptr. apply executeFree_spec; (done || lia). Qed.

(** The pointer 4096 * b0 into the two objects. *)
Lemma free_refines_witness :
  let U := list_universe two_envs in let ptr := Arith KMul (Constant 32 4096) (ZExt (arg_byte 0) 32) in
  ∃ w', executeFree sample_options (list_impl two_envs) 0 ptr (Some 3) two_world = Done tt w' ∧
    ∀ env, In env two_envs → ∃ j q, paths w' !! j = Some q ∧ sat_path q env.
Proof.
  intros U ptr. destruct (free_refines (U := U) sample_options (λ _, True) (list_impl two_envs) 3 two_world 0 one_path ptr two_objects (Some 3))
    as (w' & Er & _ & Hs); [cbn; lia|apply list_right|apply list_total|exact two_world_ok|vm_compute; reflexivity|reflexivity|reflexivity|by vm_compute|..].
  { split_and!; [vm_compute; repeat split; congruence || by intros|vm_compute; repeat split; congruence|reflexivity|reflexivity|intros env _; by eexists]. }
  exists w'. split; [exact Er|]. intros env Hin. assert (Hse : sat_path one_path env) by (split; [exact Hin|intros x Hx; destruct (not_elem_of_nil x Hx)]).
  assert (Hu : unlimited True one_path) by exact (conj Logic.I (conj (conj (λ _, eq_refl) (λ _, eq_refl)) eq_refl)).
  destruct (sp_cover _ _ _ _ _ _ Hs Hu env Hse) as (j & q & _ & Hq & Hsq). exists j, q. split; [exact Hq|exact Hsq].
Defined.
