(* ===== verification/TestCase.v ===== *)
(** * Test cases

    A program makes objects symbolic ([klee_make_symbolic], src/klee/lib/Core/SpecialFunctionHandler.cpp and
    [Executor::executeMakeSymbolic]); at the end of a path the engine asks the solver for bytes of these objects under which
    the constraints hold ([Executor::getSymbolicSolution]) and writes them to a file
    ([KleeHandler::processTestCase], src/klee/tools/klee/main.cpp); [klee-replay] answers the requests of the program from that
    file.

    The name and the preferences of a [MemoryObject] are fields of the object, which all paths share: they are kept here in two
    maps by the object's identity.  As in [PathExec] the engine runs without seeds and without a replay file.  The name is
    given as a string ([readStringAtAddress] is left out), and of [processTestCase] the other files of a test case (messages,
    paths, constraints, coverage) are left out, as are the time limits of the solver. *)
From stdpp Require Import pretty.
From S2P Require Import Prelude Replay KTest Expr ExprCreate ExprRefine ExprSums ExprSpec ExprBuild ExprWeight Memory MemorySpec MemoryOps ImmutableTree ImmutableTreeMap AddressSpace AddressSpaceCow AddressSpaceResolve Solver SolverSpec SolverProps Visitor VisitorSpec ConstraintSpec EngineAnswers PathExec PathExecSpec PathExecMem.

(** The name of the array: [while (!state.arrayNames.insert(uniqueName).second) uniqueName = name + "_" + utostr(++id);].
    [None]: out of fuel. *)
Definition numbered (name : string) (id : Z) : string := name +:+ "_" +:+ pretty (Z.to_N id).
Fixpoint unique_name (fuel : nat) (names : gset string) (name : string) (id : Z) (uniqueName : string) : option string :=
  if bool_decide (uniqueName ∈ names) then
    match fuel with
    | 0%nat => None
    | Datatypes.S fuel => unique_name fuel names name (u32 (id + 1)) (numbered name (u32 (id + 1)))
    end
  else Some uniqueName.

Section TestCase.
Context `{HA : !APInt, HC : !ExprCompare} (opts : options) (UseConstantArrays : bool).
Context {S : Type} (impl : SolverImpl S) {E : Type} `{HE : !EngineEnv E}.

Abbreviation world := (@world S E).
Record testing := mkTesting {
  t_world : world; mo_name : gmap nat string; cexPreferences : gmap nat (list Expr); m_testIndex : Z
}.
Definition in_world {A} : M world A → M testing A :=
  zoom t_world (λ w t, mkTesting w (mo_name t) (cexPreferences t) (m_testIndex t)).
Definition mo_setName (mo : MemoryObject) (name : string) : M testing unit :=
  modify (λ t, mkTesting (t_world t) (<[mo_id mo := name]> (mo_name t)) (cexPreferences t) (m_testIndex t)).
Definition name_of (t : testing) (mo : MemoryObject) : string := default "unnamed"%string (mo_name t !! mo_id mo).
Definition preferences (t : testing) (mo : MemoryObject) : list Expr := default [] (cexPreferences t !! mo_id mo).

(** ** Making objects symbolic *)
(** [junk] is what the new store holds before it is made symbolic. *)
Definition executeMakeSymbolic (i : stid) (mo : MemoryObject) (name : string) (junk : list Z) : M world unit :=
  p ← get_path i;
  match unique_name (size (arrayNames p)) (arrayNames p) name 0 name with
  | None => halt NoFuel
  | Some uniqueName =>
    upd_path i (add_arrayName uniqueName);;
    id ← in_mem (m ← get; put (set_arrays (Datatypes.S (arrays m)) m);; mret (arrays m));
    let array := mkArray id uniqueName (mo_size mo) [] in
    _ ← in_mem (bindObjectInState UseConstantArrays (p_space p) mo (Some array) junk);
    upd_path i (addSymbolic mo array)
  end.

(** One object of the list the address resolves to; the result tells whether the loop goes on. *)
Definition make_symbolic_object (name : string) (sz : Expr) (junk : list Z) (x : ObjectPair * stid) : M testing bool :=
  let '((mo, os), s) := x in
  mo_setName mo name;;
  o ← in_world (in_mem (get_os os));
  if readOnly o then in_world (terminateStateOnError s "user.err");; mret false
  else
    res ← in_world (
      eq ← lift_res (a ← ZExtExpr_make sz (PointerWidth opts); b ← getSizeExpr (PointerWidth opts) mo; EqExpr_make (ConstArrayOpt opts) a b);
      must_succeed (mustBeTrue opts impl s eq));
    (if (res : bool) then in_world (executeMakeSymbolic s mo name junk) else in_world (terminateStateOnError s "user.err"));;
    mret true.
Fixpoint make_symbolic_all (name : string) (sz : Expr) (junk : list Z) (rl : list (ObjectPair * stid)) : M testing unit :=
  match rl with
  | [] => mret tt
  | x :: rl => go ← make_symbolic_object name sz junk x; if (go : bool) then make_symbolic_all name sz junk rl else mret tt
  end.
Definition handleMakeSymbolic (i : stid) (address sz : Expr) (name : option string) (junk : list Z) : M testing unit :=
  rl ← in_world (resolveExact opts impl i address);
  make_symbolic_all (default "unnamed"%string name) sz junk rl.

Definition handlePreferCex (i : stid) (address cond : Expr) : M testing unit :=
  cond ← in_world (lift_res (if negb (getWidth cond =? Bool) then NeExpr_make (ConstArrayOpt opts) cond (Constant_alloc 0 (getWidth cond)) else mret cond));
  rl ← in_world (resolveExact opts impl i address);
  match rl with
  | [((mo, _), _)] =>
    modify (λ t, mkTesting (t_world t) (mo_name t) (<[mo_id mo := preferences t mo ++ [cond]]> (cexPreferences t)) (m_testIndex t))
  | _ => halt AssertFailure
  end.

(** ** The solution *)
(** The preferences of one object that can hold are added to the constraints; [false] when the solver gives up. *)
Fixpoint prefer (cs : constraints_ty) (l : list Expr) : M S (bool * constraints_ty) :=
  match l with
  | [] => mret (true, cs)
  | e :: l =>
    z ← lift_res (createIsZero (ConstArrayOpt opts) e);
    r ← TimingSolver_mustBeTrue impl (simplify opts) cs z;
    match r with
    | None => mret (false, cs)
    | Some true => prefer cs l
    | Some false =>
      match addConstraint (ConstArrayOpt opts) (UseVisitorHash opts) e cs with
      | Done _ cs' => prefer cs' l
      | Halt x _ => halt x
      end
    end
  end.
Fixpoint prefer_all (cs : constraints_ty) (ll : list (list Expr)) : M S constraints_ty :=
  match ll with
  | [] => mret cs
  | l :: ll => r ← prefer cs l; if (r.1 : bool) then prefer_all r.2 ll else mret r.2
  end.

(** [tmp] is a copy of the state; its address space goes away at the end. *)
Definition drop_space (i : asid) : M mem unit :=
  modify (λ m, mkMem (heap m) (delete i (spaces m)) (next_os m) (next_as m) (arrays m) (process m)).
Definition getSymbolicSolution (NoPreferCex : bool) (i : stid) : M testing (option (list (string * list Z))) :=
  t ← get;
  p ← in_world (get_path i);
  tmp ← in_world (in_mem (copy_AddressSpace (p_space p)));
  cs ← (if NoPreferCex then mret (p_constraints p)
        else in_world (in_solver (prefer_all (p_constraints p) (preferences t <$> (symbolics p).*1))));
  values ← in_world (in_solver (TimingSolver_getInitialValues impl cs (symbolics p).*2));
  in_world (in_mem (drop_space tmp));;
  match values with
  | None => mret None
  | Some values =>
    if (length (symbolics p) <=? length values)%nat then mret (Some (zip (name_of t <$> (symbolics p).*1) values))
    else halt MemoryError
  end.

(** ** The file *)
(** A string as [c_str] gives it to C: the bytes up to the first 0. *)
Fixpoint up_to_nul (l : list Z) : cstr := match l with [] => [] | c :: l => if c =? 0 then [] else c :: up_to_nul l end.
Definition c_str (s : string) : cstr := up_to_nul (bytes_of_string s).
(** [version] is the member of [KTest] that is not set; the file is written with the current version. *)
Definition test_case (version m_argc : Z) (m_argv : list cstr) (out : list (string * list Z)) : KTest :=
  mkKTest version (u32 m_argc) m_argv 0 0 (u32 (Z.of_nat (length out)))
    ((λ o, mkKTestObject (c_str o.1) (u32 (Z.of_nat (length o.2))) o.2) <$> out).
(** The result is that of [kTest_toFile], if there is a test case to write. *)
Definition processTestCase (ExitOnError NoOutput NoPreferCex : bool) (version m_argc : Z) (m_argv : list cstr) (device : option Z)
    (i : stid) (errorMessage : option string) : M testing (option (outcome (list Z) Z)) :=
  if bool_decide (is_Some errorMessage) && ExitOnError then halt (ExitWith 1)
  else if NoOutput then mret None
  else
    out ← getSymbolicSolution NoPreferCex i;
    modify (λ t, mkTesting (t_world t) (mo_name t) (cexPreferences t) (u32 (m_testIndex t + 1)));;
    mret ((λ out, kTest_toFile (test_case version m_argc m_argv out) device) <$> out).
End TestCase.

(** ** Unique names *)
Lemma numbered_inj name a b : 0 ≤ a → 0 ≤ b → numbered name a = numbered name b → a = b.
Proof.
  intros Ha Hb H. unfold numbered in H. apply (inj (String.append name)), (inj (String.append "_")), (inj pretty) in H. lia.
Qed.
Lemma string_length_app (a b : string) : String.length (a +:+ b) = (String.length a + String.length b)%nat.
Proof. induction a as [|c a IH]; [done|]. change (S (String.length (a +:+ b)) = S (String.length a + String.length b)). by f_equal. Qed.
Lemma numbered_new name id : numbered name id ≠ name.
Proof. intros H%(f_equal String.length). unfold numbered in H. rewrite !string_length_app in H. cbn in H. lia. Qed.

(** The names tried from [id] on. *)
Definition tried (name : string) (id : Z) (n : nat) : list string := (λ k, numbered name (id + 1 + Z.of_nat k)) <$> seq 0 n.
Lemma tried_S name id n : tried name id (S n) = numbered name (id + 1) :: tried name (id + 1) n.
Proof.
  unfold tried. cbn [seq fmap list_fmap]. f_equal; [f_equal; lia|]. rewrite <-seq_shift, <-list_fmap_compose.
  apply list_fmap_ext. intros _ k _. cbn. f_equal. lia.
Qed.
Lemma tried_NoDup name id n : 0 ≤ id → NoDup (tried name id n).
Proof.
  intros Hid. apply NoDup_fmap_2_strong; [|apply NoDup_seq]. intros a b _ _ H%numbered_inj; lia.
Qed.
Lemma unique_name_None fuel names name id u : 0 ≤ id → id + Z.of_nat fuel < 2 ^ 32 →
  unique_name fuel names name id u = None → Forall (λ x, x ∈ names) (u :: tried name id fuel).
Proof.
  revert id u. induction fuel as [|fuel IH]; intros id u H0 Hm; cbn [unique_name]; case_bool_decide; try done.
  - intros _. by constructor.
  - rewrite wrapu_small by lia. intros H1%IH; [|lia..]. constructor; [done|]. by rewrite tried_S.
Qed.
Lemma unique_name_fresh fuel names name id u x : unique_name fuel names name id u = Some x → x ∉ names.
Proof. revert id u. induction fuel as [|fuel IH]; intros id u; cbn [unique_name]; case_bool_decide; naive_solver. Qed.
(** The loop ends: there are more names to try than names in use. *)
Lemma unique_name_ends names name : Z.of_nat (size names) < 2 ^ 32 - 1 → ∃ u, unique_name (size names) names name 0 name = Some u ∧ u ∉ names.
Proof.
  intros Hm. destruct (unique_name _ _ _ _ _) as [u|] eqn:E; [exists u; split; [done|by eapply unique_name_fresh]|].
  apply unique_name_None in E; [|lia..]. exfalso.
  assert (Hnd : NoDup (name :: tried name 0 (size names))).
  { constructor; [|by apply tried_NoDup]. intros (k & Hk & _)%list_elem_of_fmap. by apply (numbered_new name (0 + 1 + Z.of_nat k)). }
  assert (Hsub : (list_to_set (name :: tried name 0 (size names)) : gset string) ⊆ names).
  { intros x Hx%elem_of_list_to_set. rewrite Forall_forall in E. by apply E. }
  apply subseteq_size in Hsub. rewrite size_list_to_set in Hsub by done. cbn [length] in Hsub.
  unfold tried in Hsub. rewrite length_fmap, length_seq in Hsub. lia.
Qed.

(** Requests one after the other. *)
Fixpoint replay_all (qs : list (nat * string)) : M KleeReplay.replay (list (list Z)) :=
  match qs with
  | [] => mret []
  | q :: qs => b ← KleeReplay.replay_make_symbolic q.1 q.2; l ← replay_all qs; mret (b :: l)
  end.

Section Spec.
Context `{U : !Universe, HA : !APInt, HC : !ExprCompare, HRf : !ReflCompare} (opts : options) (UCA : bool).
Context {S : Type} (I : S → Prop) (impl : SolverImpl S) (HR : right I impl) {E : Type} `{HE : !EngineEnv E}.
Abbreviation world := (@world S E).
Implicit Types (w : world) (p : path) (t : @testing S E).

(** ** A new symbolic object *)
Lemma rel_arrays env m n a : rel env m a → rel env (set_arrays n m) a.
Proof. by apply rel_mono. Qed.

(** [klee_make_symbolic] on an object of [n] bytes: the name of the array is new on the path, the object is recorded behind
    those made before, and under every assignment it holds the bytes that the assignment gives to the array. *)
Lemma executeMakeSymbolic_spec c w i p mo name junk env a g :
  inv true c (w_mem w) → paths w !! i = Some p → Z.of_nat (size (arrayNames p)) < 2 ^ 32 - 1 →
  0 ≤ mo_size mo < 2 ^ 32 - 31 → length junk = Z.to_nat (mo_size mo) → Forall (bits 8) junk →
  rel env (w_mem w) a → a.1 !! p_space p = Some g →
  ∃ array w', executeMakeSymbolic UCA i mo name junk w = Done tt w' ∧ inv true c (w_mem w') ∧
    arr_name array ∉ arrayNames p ∧ arr_size array = mo_size mo ∧ isSymbolicArray array = true ∧
    paths w' = <[i := addSymbolic mo array (add_arrayName (arr_name array) p)]> (paths w) ∧
    rel env (w_mem w') (<[p_space p := <[mo_address mo := (mo_size mo, λ k, u8 (env array k))]> g]> a.1, a.2).
Proof.
  intros Hm Hp Hn Hz Hl Hj HRel Hg. destruct (unique_name_ends (arrayNames p) name Hn) as (u & Eu & Hu).
  set (array := mkArray (arrays (w_mem w)) u (mo_size mo) []).
  set (w1 := set_paths (alter (add_arrayName u) i (paths w)) w).
  set (m1 := set_arrays (Datatypes.S (arrays (w_mem w))) (w_mem w)).
  destruct (rel_space env (w_mem w) a (p_space p) g HRel Hg) as (s & Hs & _).
  assert (Hop : op_ok (Bind (p_space p) mo junk (Symbolic array))).
  { split; [lia|]. split; [done|]. split; [done|]. split; [|done]. split; [cbn; lia|]. split; [|by constructor]. intros Hne. by destruct Hne. }
  destruct (bind_symbolic UCA true c m1 (p_space p) s mo junk array env g a) as (m' & E1 & Hm' & HR');
    [by apply inv_arrays|done|done|by apply rel_arrays|done|].
  assert (∃ os, bindObjectInState UCA (p_space p) mo (Some array) junk m1 = Done os m') as [os E2].
  { unfold mbind, M_bind in E1. destruct (bindObjectInState _ _ _ _ _ m1) as [os m2|]; [|done]. exists os.
    unfold mret, M_ret in E1. congruence. }
  exists array, (mkWorld m' (w_solver w) (w_env w) (alter (addSymbolic mo array) i (paths w1)) (next_path w)).
  split_and!; [|exact Hm'|done|done|done| |exact HR'].
  - unfold executeMakeSymbolic. rewrite (bind_done _ _ _ p w), Eu by (unfold get_path, mbind, M_bind, get; by rewrite Hp).
    rewrite (bind_done _ _ _ tt w1) by done. rewrite (bind_done _ _ w1 (arrays (w_mem w)) (mkWorld m1 (w_solver w) (w_env w) (paths w1) (next_path w))) by done.
    rewrite (bind_done _ _ _ os (mkWorld m' (w_solver w) (w_env w) (paths w1) (next_path w))); [reflexivity|].
    unfold in_mem, zoom. cbn [w_mem]. unfold array in E2. by rewrite E2.
  - cbn. apply map_eq. intros j. destruct (decide (j = i)) as [->|].
    + by rewrite lookup_insert_eq, !lookup_alter_eq, Hp.
    + by rewrite lookup_insert_ne, !lookup_alter_ne by done.
Qed.

(** ** The solution *)
Lemma prefer_spec l : ∀ cs s, I s → cs_ok cs → Forall (query_ok (sat_of cs)) l →
  returns I (prefer opts impl cs l) s (λ r, cs_ok r.2 ∧ ∀ env, sat_of r.2 env → sat_of cs env).
Proof.
  induction l as [|e l IH]; intros cs s Hi Hc Hl; cbn [prefer]; [by apply returns_ret|].
  apply Forall_cons in Hl as [He Hl]. destruct (zero_condition (ConstArrayOpt opts) cs e He) as (z & Ez & Hz & Hv).
  eapply returns_lift_bind; [exact Ez|]. eapply returns_bind; [by apply (must_answer opts I impl HR)|].
  intros [[]|] s1 Hi1 [_ Hf]; [by apply IH| |by apply returns_ret].
  destruct (Hf eq_refl) as (env0 & Hs0 & E0). cbn in E0. assert (Hmay : may (sat_of cs) e) by (exists env0; split; [done|by apply (Hv env0)]).
  destruct (add_condition (ConstArrayOpt opts) (UseVisitorHash opts) cs e Hc He Hmay) as (cs' & Ea & Hc' & Hs'). rewrite Ea.
  assert (Hsub : ∀ env, sat_of cs' env → sat_of cs env) by (intros env Hs; by apply Hs').
  eapply returns_mono; [apply IH; [done|done|]|].
  - eapply Forall_impl; [exact Hl|]. intros x. by apply query_sub.
  - intros r [H1 H2]. auto.
Qed.
Lemma prefer_all_spec ll : ∀ cs s, I s → cs_ok cs → Forall (Forall (query_ok (sat_of cs))) ll →
  returns I (prefer_all opts impl cs ll) s (λ cs', cs_ok cs' ∧ ∀ env, sat_of cs' env → sat_of cs env).
Proof.
  induction ll as [|l ll IH]; intros cs s Hi Hc Hl; cbn [prefer_all]; [by apply returns_ret|].
  apply Forall_cons in Hl as [Hl Hll]. eapply returns_bind; [by apply prefer_spec|]. intros [[] cs'] s1 Hi1 [Hc' Hsub]; cbn in *; [|by apply returns_ret].
  eapply returns_mono; [apply IH; [done|done|]|].
  - eapply Forall_impl; [exact Hll|]. intros l' Hl'. eapply Forall_impl; [exact Hl'|]. intros x. by apply query_sub.
  - intros r [H1 H2]. auto.
Qed.
Lemma initial_values_spec cs objects s : I s → cs_ok cs →
  returns I (TimingSolver_getInitialValues impl cs objects) s
    (λ r, ∀ values, r = Some values → ∃ env, sat_of cs env ∧ values = initial_bytes env <$> objects).
Proof.
  intros Hi Hc. unfold TimingSolver_getInitialValues. destruct objects as [|o l] eqn:Eo.
  - apply returns_ret; [done|]. intros values [= <-]. destruct (co_sat _ Hc) as [env Hs]. by exists env.
  - rewrite <-Eo. eapply returns_mono; [apply (getInitialValues_right I impl HR)|].
    + done.
    + apply (cs_truth cs (Constant_alloc 0 Bool) Hc). split_and!; [by vm_compute; repeat split|done|intros env _; by eexists|done].
    + intros r H values ->. destruct (H values eq_refl) as (env & Hs & _ & Hv). by exists env.
Qed.
(** A solver that finds values whenever there are some. *)
Definition finds_values : Prop := ∀ q objects s, I s → truth_query q → returns I (computeInitialValues impl q objects) s (λ r, r ≠ None).
Lemma initial_values_found cs objects s : finds_values → I s → cs_ok cs →
  returns I (TimingSolver_getInitialValues impl cs objects) s (λ r, r ≠ None).
Proof.
  intros Hf Hi Hc. unfold TimingSolver_getInitialValues. destruct objects as [|o l] eqn:Eo; [by apply returns_ret|]. rewrite <-Eo.
  assert (Hq : truth_query (mkQuery cs (Constant_alloc 0 Bool))).
  { apply cs_truth; [done|]. split_and!; [by vm_compute; repeat split|done|intros env _; by eexists|done]. }
  unfold Solver_getInitialValues, ok. eapply returns_bind; [apply returns_both; [by apply (r_values I impl HR)|by apply Hf]|].
  intros [[vs|]|] s1 Hi1 [Hv Hn]; [by apply returns_ret| |done]. cbn in Hv. destruct (co_sat _ Hc) as [env Hs]. by specialize (Hv env Hs).
Qed.

(** The test case of a path under an assignment. *)
Definition solution_of t p env : list (string * list Z) :=
  zip (name_of t <$> (symbolics p).*1) (initial_bytes env <$> (symbolics p).*2).
Definition preferences_ok t p : Prop := Forall (λ x, Forall (query_ok (sat_path p)) (preferences t x.1)) (symbolics p).

Lemma in_solver_run {A} (m : M S A) t (Q : A → Prop) : returns I m (w_solver (t_world t)) Q →
  ∃ a t', in_world (in_solver m) t = Done a t' ∧ Q a ∧ I (w_solver (t_world t')) ∧ paths (t_world t') = paths (t_world t) ∧
    w_mem (t_world t') = w_mem (t_world t) ∧ mo_name t' = mo_name t ∧ cexPreferences t' = cexPreferences t.
Proof.
  intros (a & s' & Em & Hs & HQ). eexists a, _. split; [unfold in_world, in_solver, zoom; by rewrite Em|]. done.
Qed.

Lemma getSymbolicSolution_spec NoPreferCex t i p :
  paths (t_world t) !! i = Some p → is_Some (spaces (w_mem (t_world t)) !! p_space p) → I (w_solver (t_world t)) →
  cs_ok (p_constraints p) → (NoPreferCex = false → preferences_ok t p) →
  ∃ r t', getSymbolicSolution opts impl NoPreferCex i t = Done r t' ∧ I (w_solver (t_world t')) ∧
    paths (t_world t') = paths (t_world t) ∧ heap (w_mem (t_world t')) = heap (w_mem (t_world t)) ∧
    (∀ out, r = Some out → ∃ env, sat_path p env ∧ out = solution_of t p env) ∧ (finds_values → r ≠ None).
Proof.
  intros Hp [sp Hsp] Hi Hc Hpref. unfold getSymbolicSolution. rewrite (bind_done _ _ _ t t) by done.
  rewrite (bind_done _ _ _ p t) by (unfold in_world, zoom, get_path, mbind, M_bind, get; rewrite Hp; by destruct t).
  destruct (in_world (in_mem (copy_AddressSpace (p_space p))) t) as [tmp t1|e t1] eqn:E1.
  2: { unfold in_world, in_mem, copy_AddressSpace, get_space, zoom, mbind, M_bind, get, deref in E1. rewrite Hsp in E1. done. }
  assert (Ht1 : paths (t_world t1) = paths (t_world t) ∧ w_solver (t_world t1) = w_solver (t_world t) ∧ heap (w_mem (t_world t1)) = heap (w_mem (t_world t))).
  { unfold in_world, in_mem, copy_AddressSpace, get_space, zoom, mbind, M_bind, get, deref, put, mret, M_ret in E1. rewrite Hsp in E1. by injection E1 as _ <-. }
  destruct Ht1 as (P1 & S1 & H1). rewrite (bind_done _ _ _ _ _ E1).
  assert (∃ cs t2, (if NoPreferCex then mret (p_constraints p)
      else in_world (in_solver (prefer_all opts impl (p_constraints p) (preferences t <$> (symbolics p).*1)))) t1 = Done cs t2 ∧
    (cs_ok cs ∧ ∀ env, sat_of cs env → sat_path p env) ∧ I (w_solver (t_world t2)) ∧ paths (t_world t2) = paths (t_world t) ∧
    heap (w_mem (t_world t2)) = heap (w_mem (t_world t))) as (cs & t2 & E2 & [Hcs Hsub] & Hi2 & P2 & H2).
  { destruct NoPreferCex; [exists (p_constraints p), t1; split_and!; try done; congruence|].
    destruct (in_solver_run (prefer_all opts impl (p_constraints p) (preferences t <$> (symbolics p).*1)) t1
      (λ cs', cs_ok cs' ∧ ∀ env, sat_of cs' env → sat_path p env)) as (cs & t2 & E2 & Hcs & Hi2 & P2 & M2 & _).
    - apply prefer_all_spec; [congruence|done|]. apply Forall_fmap, Forall_fmap, (Hpref eq_refl).
    - exists cs, t2. split_and!; try done; [apply Hcs..|congruence|congruence]. }
  rewrite (bind_done _ _ _ _ _ E2).
  destruct (in_solver_run (TimingSolver_getInitialValues impl cs (symbolics p).*2) t2
    (λ r, (∀ values, r = Some values → ∃ env, sat_of cs env ∧ values = initial_bytes env <$> (symbolics p).*2) ∧ (finds_values → r ≠ None)))
    as (vs & t3 & E3 & [Hv Hf] & Hi3 & P3 & M3 & _).
  { destruct (initial_values_spec cs (symbolics p).*2 (w_solver (t_world t2)) Hi2 Hcs) as (r & s' & Er & Hs' & Hr). exists r, s'. split_and!; try done.
    intros Hf. destruct (initial_values_found cs (symbolics p).*2 (w_solver (t_world t2)) Hf Hi2 Hcs) as (r' & s2 & Er' & _ & Hn). congruence. }
  rewrite (bind_done _ _ _ _ _ E3). set (t4 := mkTesting (mkWorld (mkMem (heap (w_mem (t_world t3))) (delete tmp (spaces (w_mem (t_world t3))))
    (next_os (w_mem (t_world t3))) (next_as (w_mem (t_world t3))) (arrays (w_mem (t_world t3))) (process (w_mem (t_world t3))))
    (w_solver (t_world t3)) (w_env (t_world t3)) (paths (t_world t3)) (next_path (t_world t3))) (mo_name t3) (cexPreferences t3) (m_testIndex t3)).
  rewrite (bind_done _ _ _ tt t4) by done. assert (H4 : paths (t_world t4) = paths (t_world t) ∧ heap (w_mem (t_world t4)) = heap (w_mem (t_world t))) by (cbn; split; congruence).
  destruct H4 as [P4 H4]. destruct vs as [vs|]; [|exists None, t4; split_and!; try done; intros Hx; by destruct (Hf Hx)].
  destruct (Hv vs eq_refl) as (env & Hs & ->). rewrite !length_fmap, Nat.leb_refl. eexists _, t4. split_and!; try done.
  intros out [= <-]. exists env. split; [by apply Hsub|done].
Qed.

(** ** The file written for a path, and its replay *)
Section Replayed.
Context (alloc : Z → bool) (Halloc : ∀ size, alloc size = true).

(** The objects of the path have names and sizes the format can hold. *)
Definition recordable_name (s : string) : Prop := Forall (λ c, c ≠ 0) (bytes_of_string s) ∧ s ≠ "" ∧ Z.of_nat (length (bytes_of_string s)) < 2 ^ 32 - 1.
Definition recordable t p : Prop :=
  Forall (λ x, recordable_name (name_of t x.1) ∧ 0 < arr_size x.2 < 2 ^ 32) (symbolics p) ∧ Z.of_nat (length (symbolics p)) < 2 ^ 32.
Definition recordable_args (m_argc : Z) (m_argv : list cstr) : Prop :=
  m_argc = Z.of_nat (length m_argv) ∧ m_argc < 2 ^ 31 ∧ Forall (λ s, string_ok s ∧ s ≠ []) m_argv.

Lemma length_initial_bytes env x : length (initial_bytes env x) = Z.to_nat (arr_size x).
Proof. unfold initial_bytes. by rewrite length_fmap, length_seq. Qed.
Lemma solution_lookup t p env : solution_of t p env = (λ x, (name_of t x.1, initial_bytes env x.2)) <$> symbolics p.
Proof. unfold solution_of. induction (symbolics p) as [|x l IH]; [done|]. cbn. by f_equal. Qed.

(** A name without a 0 and the bytes of an array. *)
Lemma bytes_of_string_range s : Forall (λ c, 0 ≤ c < 256) (bytes_of_string s).
Proof. unfold bytes_of_string. apply Forall_fmap, Forall_true. intros a. cbn. pose proof (Ascii.N_ascii_bounded a). lia. Qed.
Lemma up_to_nul_id l : Forall (λ c, c ≠ 0) l → up_to_nul l = l.
Proof. induction 1 as [|c l Hc _ IH]; cbn; [done|]. destruct (Z.eqb_spec c 0); [done|]. by rewrite IH. Qed.
Lemma recorded_name s : recordable_name s → c_str s = bytes_of_string s ∧ string_ok (c_str s) ∧ c_str s ≠ [].
Proof.
  intros (Hz & Hne & Hl). unfold c_str. rewrite up_to_nul_id by done. split; [done|]. split; [split; [|done]|by destruct s].
  apply Forall_forall. intros c Hc. pose proof (proj1 (Forall_forall _ _) Hz c Hc). pose proof (proj1 (Forall_forall _ _) (bytes_of_string_range s) c Hc). cbn in *. lia.
Qed.
Lemma recorded_object_ok env s x : recordable_name s → 0 < arr_size x < 2 ^ 32 →
  let o := mkKTestObject (c_str s) (u32 (Z.of_nat (length (initial_bytes env x)))) (initial_bytes env x) in KTest.object_ok o ∧ nonempty_object o.
Proof.
  intros Hs Hz o. destruct (recorded_name s Hs) as (_ & Hok & Hne). pose proof (length_initial_bytes env x) as Hl. subst o. rewrite wrapu_small by lia.
  split; split; cbn; [done|done|lia|done|]. intros Eb. rewrite Eb in Hl. cbn in Hl. lia.
Qed.

Lemma test_case_ok t p env version m_argc m_argv : recordable t p → recordable_args m_argc m_argv →
  test_ok (test_case version m_argc m_argv (solution_of t p env)) ∧ nonempty_test (test_case version m_argc m_argv (solution_of t p env)).
Proof.
  intros [Hx Hn] (-> & Hm & Ha). unfold test_case. rewrite solution_lookup, length_fmap, !wrapu_small by lia. rewrite <-list_fmap_compose.
  assert (Hok : Forall (λ o, KTest.object_ok o ∧ nonempty_object o) ((λ x, mkKTestObject (c_str (name_of t x.1)) (u32 (Z.of_nat (length (initial_bytes env x.2)))) (initial_bytes env x.2)) <$> symbolics p)).
  { apply Forall_fmap. eapply Forall_impl; [exact Hx|]. intros x [Hr Hz]. cbn. by apply recorded_object_ok. }
  apply Forall_and in Ha as [Ha1 Ha2]. apply Forall_and in Hok as [Ho1 Ho2]. split; [|by split].
  split; cbn; [split; [done|lia]|done|lia|by rewrite length_fmap|done].
Qed.

(** The requests of the replayed program: a size and a name each, for the objects of the path in their order.  Only the name
    [model_version] matters. *)
Definition asks t (q : nat * string) (x : MemoryObject * Array) : Prop :=
  q.1 = Z.to_nat (arr_size x.2) ∧ (q.2 = "model_version" → name_of t x.1 = "model_version").
Definition replay_objects t p env : list ktest_object := (λ x, mkObject (name_of t x.1) (initial_bytes env x.2)) <$> symbolics p.

Lemma objects_of_test t p env version version' m_argc m_argv numArgs numObjects : recordable t p →
  objects_of (mkKTest version numArgs m_argv 0 0 numObjects (KTest.objects (test_case version' m_argc m_argv (solution_of t p env)))) = replay_objects t p env.
Proof.
  intros [Hx _]. unfold objects_of, replay_objects, test_case. cbn. rewrite solution_lookup, <-!list_fmap_compose.
  apply list_fmap_ext. intros k x Hk. destruct (Forall_lookup_1 _ _ _ _ Hx Hk) as [Hr _]. destruct (recorded_name _ Hr) as (Ec & _).
  unfold compose. cbn [fst snd obj_name obj_bytes]. by rewrite Ec, string_of_bytes_of.
Qed.
Lemma replay_one pre rest q t x env : asks t q x →
  KleeReplay.replay_make_symbolic q.1 q.2 (KleeReplay.mkReplay (pre ++ mkObject (name_of t x.1) (initial_bytes env x.2) :: rest) (length pre)) =
    Done (initial_bytes env x.2) (KleeReplay.mkReplay (pre ++ mkObject (name_of t x.1) (initial_bytes env x.2) :: rest) (Datatypes.S (length pre))).
Proof.
  intros [Hz Hn]. unfold KleeReplay.replay_make_symbolic. erewrite bind_done by done. cbn [KleeReplay.input KleeReplay.obj_index].
  rewrite list_lookup_middle by done. cbn [o_name o_bytes]. rewrite length_initial_bytes, <-Hz, Nat.eqb_refl.
  destruct (bool_decide_reflect (q.2 = "model_version")) as [Hm|]; [|done]. by rewrite (bool_decide_true (name_of t x.1 = _)) by auto.
Qed.
Lemma replay_all_answers t env l : ∀ qs pre, Forall2 (asks t) qs l →
  let objs := pre ++ ((λ x, mkObject (name_of t x.1) (initial_bytes env x.2)) <$> l) in
  replay_all qs (KleeReplay.mkReplay objs (length pre)) = Done (initial_bytes env <$> l.*2) (KleeReplay.mkReplay objs (length pre + length l)).
Proof.
  induction l as [|x l IH]; intros qs pre Hf objs.
  - apply Forall2_nil_inv_r in Hf as ->. cbn. by rewrite Nat.add_0_r.
  - apply Forall2_cons_inv_r in Hf as (q & qs' & Hq & Hf & ->). cbn [replay_all]. subst objs. rewrite fmap_cons.
    rewrite (bind_done _ _ _ _ _ (replay_one pre _ q t x env Hq)).
    specialize (IH qs' (pre ++ [mkObject (name_of t x.1) (initial_bytes env x.2)]) Hf). cbn zeta in IH. rewrite length_app in IH. cbn [length] in IH.
    rewrite <-app_assoc in IH. cbn [app] in IH. replace (length pre + 1)%nat with (Datatypes.S (length pre)) in IH by lia.
    rewrite (bind_done _ _ _ _ _ IH). rewrite !fmap_cons. cbn [length]. by replace (length pre + Datatypes.S (length l))%nat with (Datatypes.S (length pre) + length l)%nat by lia.
Qed.

Lemma test_case_file t p env version m_argc m_argv n qs : recordable t p → recordable_args m_argc m_argv → Forall2 (asks t) qs (symbolics p) →
  let bo := test_case version m_argc m_argv (solution_of t p env) in Z.of_nat (length (encode bo)) ≤ n →
  kTest_toFile bo (Some n) = Done 1 (encode bo) ∧
  ∃ bo', kTest_fromFile alloc (Some (encode bo)) = Some (Done (Some bo') []) ∧ args bo' = m_argv ∧
    replay_all qs (KleeReplay.mkReplay (objects_of bo') 0) = Done (initial_bytes env <$> (symbolics p).*2) (KleeReplay.mkReplay (objects_of bo') (length (symbolics p))).
Proof.
  intros Hr Ha Hq bo Hn. destruct (test_case_ok t p env version m_argc m_argv Hr Ha) as [Hok Hne]. fold bo in Hok, Hne.
  pose proof (kTest_write_writes _ Hok [] n ltac:(lia)) as Hw. rewrite bool_decide_true in Hw by done. cbn [andb] in Hw.
  destruct (Z.leb_spec (Z.of_nat (length (encode bo))) n); [|lia]. split; [unfold kTest_toFile; by rewrite Hw|].
  destruct (length_encode bo). pose proof (kTest_read_encode alloc Halloc bo (Datatypes.S (length (encode bo))) []) as Hread. rewrite app_nil_r in Hread.
  eexists. split; [|split]; [unfold kTest_fromFile; cbn [mbind option_bind]; f_equal; apply Hread; [done|done|lia|lia]|done|].
  pose proof (objects_of_test t p env KTEST_VERSION version m_argc m_argv (numArgs bo) (numObjects bo) Hr) as Eo.
  pose proof (replay_all_answers t env (symbolics p) qs [] Hq) as Er. cbn [app length Nat.add] in Er. unfold replay_objects in Eo. by rewrite <-Eo in Er.
Qed.
End Replayed.
End Spec.

(** ** Properties *)
(** C27: (roundtrip) The test case written for a path replays it.  With a solver that is right, [processTestCase] on a path
    returns and leaves the path as it is; there is a test case unless the solver gives up.  Its objects, those made symbolic on
    the path in their order, have the bytes of an assignment under which the constraints of the path hold, whichever preferences could be
    met.  If the names and the arguments of the program are ones the format can hold and the device has room, the file is
    written completely, it loads with the same arguments, and [klee-replay] answers requests for objects of the same sizes with these bytes.
    Preferences are conditions over arithmetic of at most 64 bits; names and arguments are not empty and the objects have bytes
    ([kTest_toFile] fails otherwise); allocations while loading succeed. *)
Theorem test_case_replays `{U : !Universe, HA : !APInt, HC : !ExprCompare, HRf : !ReflCompare} (opts : options) {S : Type} (I : S → Prop) (impl : SolverImpl S)
  {E : Type} `{HE : !EngineEnv E} (alloc : Z → bool) (ExitOnError NoPreferCex : bool) (version m_argc n : Z) (m_argv : list cstr)
  (t : @testing S E) (i : stid) (p : path) (errorMessage : option string) (qs : list (nat * string)) :
  right I impl → I (w_solver (t_world t)) → (∀ size, alloc size = true) → (errorMessage = None ∨ ExitOnError = false) →
  paths (t_world t) !! i = Some p → is_Some (spaces (w_mem (t_world t)) !! p_space p) → cs_ok (p_constraints p) → (NoPreferCex = false → preferences_ok t p) →
  recordable t p → recordable_args m_argc m_argv → Forall2 (asks t) qs (symbolics p) →
  ∃ r t', processTestCase opts impl ExitOnError false NoPreferCex version m_argc m_argv (Some n) i errorMessage t = Done r t' ∧
    paths (t_world t') = paths (t_world t) ∧ heap (w_mem (t_world t')) = heap (w_mem (t_world t)) ∧ (finds_values I impl → r ≠ None) ∧
    ∀ o, r = Some o → ∃ env, sat_path p env ∧
      let bo := test_case version m_argc m_argv (solution_of t p env) in
      o = kTest_toFile bo (Some n) ∧
      (Z.of_nat (length (encode bo)) ≤ n → ∃ c bo', o = Done 1 c ∧ kTest_fromFile alloc (Some c) = Some (Done (Some bo') []) ∧ args bo' = m_argv ∧
        replay_all qs (KleeReplay.mkReplay (objects_of bo') 0) =
          Done (initial_bytes env <$> (symbolics p).*2) (KleeReplay.mkReplay (objects_of bo') (length (symbolics p)))).
Proof.
  intros HR Hi Halloc Hexit Hp Hsp Hc Hpref Hr Ha Hq.
  destruct (getSymbolicSolution_spec opts I impl HR NoPreferCex t i p Hp Hsp Hi Hc Hpref) as (out & t1 & E1 & _ & P1 & H1 & Hout & Hf).
  eexists _, _. split_and!.
  - unfold processTestCase. replace (bool_decide (is_Some errorMessage) && ExitOnError) with false.
    2: { destruct Hexit as [-> | ->]; [done|by rewrite andb_false_r]. }
    rewrite (bind_done _ _ _ _ _ E1). reflexivity.
  - exact P1.
  - exact H1.
  - intros Hx. specialize (Hf Hx). by destruct out.
  - intros o Ho. destruct out as [out|]; [|done]. injection Ho as <-. destruct (Hout out eq_refl) as (env & Hs & ->). exists env. split; [done|].
    cbn zeta. split; [done|]. intros Hn. destruct (test_case_file alloc Halloc t p env version m_argc m_argv n qs Hr Ha Hq Hn) as (Ew & bo' & Hl). eauto.
Qed.

(** A path that makes one byte symbolic and prefers 7 for it; the solver knows of 1, 7 and 3. *)
Definition byte_object : MemoryObject := mkMO 0 64 1 false false false.
Definition byte_array : Array := mkArray 0 "a" 1 [].
Definition byte_path : path := addSymbolic byte_object byte_array (add_arrayName "a" one_path).
Definition byte_testing : @testing unit unit :=
  mkTesting (final (executeMakeSymbolic true 0 byte_object "a" [0] first_world)) {[0%nat := "a"%string]} {[0%nat := [Cmp KEq (Constant 8 7) (byte_read byte_array 0)]]} 0.
Lemma test_case_replays_witness :
  let U := list_universe three_envs in
  ∃ c t' bo, processTestCase sample_options (list_impl three_envs) false false false 0 1 [[112]] (Some 100) 0 None byte_testing = Done (Some (Done 1 c)) t' ∧
    kTest_fromFile (λ _, true) (Some c) = Some (Done (Some bo) []) ∧
    replay_all [(1%nat, "b"%string)] (KleeReplay.mkReplay (objects_of bo) 0) = Done [[7]] (KleeReplay.mkReplay (objects_of bo) 1).
Proof.
  intros U. destruct (test_case_replays (U := U) sample_options (λ _, True) (list_impl three_envs) (λ _, true) false false 0 1 100 [[112]] byte_testing 0 byte_path None [(1%nat, "b"%string)])
    as (r & t' & Er & _ & _ & _ & Hr).
  1: apply list_right. 1: exact I. 1: reflexivity. 1: by left.
  1: vm_compute; reflexivity. 1: eexists; vm_compute; reflexivity.
  - eapply one_path_ok. by left.
  - intros _. apply Forall_singleton, Forall_singleton. split_and!; [by vm_compute|reflexivity|intros env _; by eexists|by vm_compute].
  - split; [|cbn; lia]. repeat constructor; vm_compute; congruence.
  - split_and!; [reflexivity|lia|]. repeat constructor; vm_compute; congruence.
  - repeat constructor. cbn. congruence.
  - assert (∃ c, r = Some (Done 1 c) ∧ last c = Some 7) as (c & -> & Hc) by (vm_compute in Er; injection Er as <- _; eexists; split; reflexivity).
    destruct (Hr _ eq_refl) as (env & _ & Eo & Hfile). destruct Hfile as (c' & bo & [= <-] & Hl & _ & Ha); [vm_compute; discriminate|].
    exists c, t', bo. split; [exact Er|]. split; [exact Hl|]. rewrite Ha. vm_compute in Eo. injection Eo as ->. vm_compute in Hc. injection Hc as Hc.
    assert (Hb : initial_bytes env <$> (symbolics byte_path).*2 = [[7]]) by (vm_compute; rewrite Hc; reflexivity). by rewrite Hb.
Defined.
